(* ===== verification/_CoqProject ===== *)
-Q . S2P
Prelude.v
Text.v
Tiles.v
Proto.v
Rpc.v
Wire.v
Events.v
Json.v
Convert.v
Mjai.v
Replay.v
Stats.v
Stream.v
Pack.v
Kafka.v
Ingest.v
Requests.v
Indexer.v
Pipeline.v
Search.v
Objects.v
Gc.v
Recovery.v
Refetch.v
WatchLog.v
Watch.v
F64.v
Mihomo.v
Accounts.v
Auth.v
Reconvert.v
Uploads.v
Sweep.v
Balance.v
Version.v
Collector.v
Service.v
Paipuya.v
Register.v
Seats.v
Backfill.v
Repair.v
Series.v
WatchConfig.v
Supervisor.v
Plugin.v
Modules.v
Sessions.v
Gateway.v
Channel.v
Login.v
Watcher.v
Api.v
Pace.v
