(* ===== verification/Prelude.v ===== *)
(** * mjai management: a verification development

    The program stores Mahjong game records. Collectors log in to the game and
    fetch records; the records are decoded, turned into mjai event streams,
    ingested through a Kafka topic, packed into large objects in a bucket, and
    indexed in ClickHouse, with PostgreSQL holding the idempotency claims and
    the committed offsets. A console administers the accounts, the collectors
    and the users. This library models the parts with logic of their own as
    executable definitions and proves what they promise.

    ** The parts and their files

    Reading the game's wire format:
    - [Text]: Rust strings; a [String] is its UTF-8 bytes.
    - [Tiles] (majsoul/tiles.rs, majsoul/modes.rs): tile notation, mode tables.
    - [Proto] (majsoul/proto.rs): the protobuf field loop and the decoding of
      game records, old and new format. [Rpc] (majsoul/rpc.rs): the request
      encoders and the envelope. [Wire]: decoding inverts encoding, the field
      loop terminates, and when exactly it panics.
    - [Events] (majsoul/events.rs): one parser per Record* message.

    From records to statistics:
    - [Json]: serde_json values. [Convert] (majsoul/convert.rs): the converter
      from actions to mjai events, a fold over a state. [Mjai] (mjai.rs): the
      header of an mjai log. [Replay] (replay.rs): the fold that counts.
    - [Stats]: the counters of [Replay] are consistent and placements rank by
      score. [Stream]: what [Convert] writes keeps the order of play, and
      [Mjai] and [Replay] read it back (the composition of the three).

    The record pipeline:
    - [Pack] (pack.rs): the pack file, its writer, reader and scanner.
    - [Kafka] (kafka.rs): messages and the topic; a partition is a log.
    - [Ingest] (indexer.rs, catalog.rs): the idempotency claims and the
      claim-then-produce protocol of one request. [Requests]: all requests,
      prunes and adoptions interleaved, as a step relation.
    - [Uploads] (api.rs): the upload of a record and of an archive of records; a
      claim that an import took outlives it without its record only when the answer
      to its insert was lost or a delete did not go through.
    - [Indexer] (indexer.rs, catalog.rs): the worker: append, seal (upload,
      index, commit the offset), discard, drain, start. [Pipeline]: the step
      relation of one worker with faults, crashes and its environment, and the
      safety of committed offsets.
    - [Objects] (objects.rs): the S3 client, its signed requests and the
      reading of every answer. [Gc] (gc.rs): the collector of orphaned packs,
      shown to be one of the environment steps [Pipeline] allows.
      [Recovery] (recovery.rs): the boot-time scan of legacy packs.

    The control plane:
    - [Refetch] (refetch.rs): the queue between the backfill and the
      collectors, with one-shot channels as a step relation.
    - [WatchLog] (watch_log.rs): the bounded log that redacts secrets.
    - [Watch] (watch.rs): the registry of watched games.
    - [Accounts] (accounts.rs, parts of watch_service.rs and
      managed_watch.rs): the account document and every operation on it.
    - [Auth] (auth.rs): console users, passwords, sessions, verification.
    - [Search] (catalog.rs, api.rs): the record listing with its cursors and the
      exports; following the cursors visits every record once.
    - [Reconvert] (refetch_service.rs): one record that was fetched again, its
      conversion, the guards, and what is stored. [Sweep] (refetch_service.rs,
      catalog.rs): the walk over the games known by uuid; its bookmark passes
      only games found claimed, or asked for and answered by a session or with an
      error. [Repair] (refetch_service.rs): the walk
      over the records without a protobuf; a pass that ends has asked for each, and
      what it writes takes the place of one.
    - [F64], [Balance] (refetch_service.rs): the requests kept in the air, the balancing of the
      accounts over the exits, in f64 as the code computes it, and the rate
      meter; a round writes through [Accounts] and never changes the set of exits.
    - [Channel] (rpc.rs): the calls that share the connection to the game, the
      task that reads the answers and the heartbeat, as a step relation.
      [Login] (rpc.rs, auth.rs, mod.rs): the requests of a login in their order, the
      beats of the heartbeat between them, and the readers of its answer.
    - [Watcher] (managed_watch.rs): the sessions of a collector: how one is opened,
      what is asked over it, and the loop that logs in again.
    - [Pace] (refetch_service.rs, catalog.rs): the requests of one re-fetch session
      with the pause between them, the walk that stands aside for the pack worker, and
      the wait for the databases at start-up.
    - [Api] (api.rs): the routes, the guards in front of them, and the handlers of
      the users, the account pool, the log and the proxy manager over one server, so
      that what the parts promise is stated of requests.
    - [Gateway] (gateway.rs): the discovery of the gateway and of the package
      version, with the copies that answer when the network does not.
    - [Version] (managed_watch.rs): the client version a login carries and the
      search for the lowest one the server accepts.
    - [Collector] (managed_watch.rs): a live collector: the lists of the modes,
      the games followed, the queue of the finished ones, the state file and the
      discovery log, one poll as a task that keeps what it changed when an error
      ends the session, restarts, and the re-fetch requests served in the idle
      time. No game is lost over any sequence of polls and restarts, and a poll
      that no error ended is the pure [leaves] on the queue.
    - [Mihomo] (mihomo.rs): the manager of the proxy core: the port of each node,
      which is given out only while the core was last seen with that node behind
      it, if no filing came between the selections of another, the subscriptions and their prefixes, the traffic sampler, and the
      configuration it writes, line by line. The selections of a reload are a step
      for each request, between which anything else may come.
    - [Paipuya] (paipuya.rs, the cursor table of catalog.rs): the import of the
      catalogue of a third-party site: the walk of a mode from its cursor misses
      no game the site lists, whatever requests and writes fail, but some of those
      of a second with more games than a page; the workers of a
      run, whose end the console reads as finished only when every mode was
      swept; the pacing of the requests; the configuration.
    - [Service] (watch_service.rs): the phases, actions and errors of the services.
    - [WatchConfig] (watch_service.rs, managed_watch.rs): the configuration of the
      collectors: its migrations, its checks, the proxy as members of the console
      may read it, and its file; a boot reads back what the one before saved.
    - [Supervisor] (watch_service.rs): the edits by revision and the generations of
      collectors, in the steps between which other requests run: no accepted edit
      is lost, and while requests do not overlap no two collectors share a
      reference to their account.
    - [Plugin] (watch_service.rs): the process of a module, the requests that share
      its pipe and what it writes to its standard error: an answer is of the
      request it is given to, and a module that is there is heard again.
    - [Sessions] (refetch_service.rs): the configuration and the sessions of the
      re-fetch pool: it never dials past its proxy, nor with the account of a
      collector whose reference resolves as the code expects it to, and while requests do not overlap no account has two sessions.
    - [Modules] (watch_service.rs): the modules on disk, their installation, and
      those that come with the image.
    - [Register] (register_service.rs): the registration of accounts: a batch of
      jobs launched under permits, the failures after which it launches no more,
      the stop, the exits it borrows from [Mihomo] and gives back, and the rows it
      appends to the pool of [Accounts]; its steps are interleaved with any other
      use of the pool and of the proxy manager.
    - [Seats] (catalog.rs): the rows of the players' statistics split over inserts
      by month.
    - [Backfill] (backfill.rs): the passes over what is indexed already, which share
      one walk: a pass that wrote its marker read every row, so that no row of the
      index holds older metadata than its bytes give, every game holds a permanent
      claim and every record is scored.
    - [Series] (catalog.rs, the handlers of api.rs): the charts of the console: the
      windows, which cover the range that is asked for; the filter by mode, which
      admits the modes its facets allow; the points, which count every record and
      every game of the window once; the overview, the search for players and their
      counters; the comparison with the catalogue, which counts the games the
      whole index misses.
    ** How state and failure are modelled

    A struct with interior state is a [Record]; a method takes the state and
    answers the new one with a [result]. [Panic] is a third outcome beside [Ok]
    and [Err]. Machine integers are [Z] with their wrap-around written out
    ([as_u64] and the like), as in a release build. A call to a service takes a
    [reply]: it may be done, refused before it took effect, or fail after it
    did, and theorems quantify over the replies. Concurrency is a step relation
    at the grain of the locks or statements of the source; safety theorems are
    inductions over its reachable states.

    ** Arguments of the model

    Code outside src/ is an argument with its documented behaviour as a
    hypothesis: the zstd codec (decompressing what was compressed gives it
    back), SHA-256 and HMAC (no hypothesis), the text
    formats of [uuid] and [chrono], [serde_json] parsing, the hex codec, the Unicode lower-casing of [str::to_lowercase], the
    order in which a hash map is walked. Each theorem with such a hypothesis
    has a witness that instantiates it with a concrete function.

    ** Bounds and fuel

    - [Proto.for_fields_fuel] runs with the number of bytes left plus one:
      every field consumes at least one byte, and [Wire.for_fields_total] shows
      the equation of the unbounded loop.
    - [Indexer.drain] is given what each of its turns meets, one element per
      turn; [Pipeline.drain_commits_to_the_end] shows that one turn more than there
      are messages left end it.
    - [Objects.list_] follows continuation tokens and answers [None] when its
      fuel runs out; [Objects.list_returns_every_object] shows that the number of
      pages is enough.
    - The pack scanner and the entity decoder have the length of their input as
      fuel: every turn consumes at least one byte.

    ** Theorems by group

    - Nothing is lost: [Pipeline.committed_records_are_stored],
      [Requests.one_game_one_record], [Ingest.adopted_claims_survive_prune],
      [Gc.collect_is_env_step], [Recovery.recover_spec],
      [Pack.scan_pack_recovers].
    - Progress: [Pipeline.drain_commits_to_the_end], [Wire.for_fields_total],
      and its limit, [Pipeline.poison_record_blocks_partition].
    - Round trips: records, requests, messages, packs, passwords, account
      files, listings.
    - What the streams and the statistics mean: [Stream], [Stats].
    - Secrets and access: [Api.only_administrators_decide],
      [Api.saved_passwords_stay_out_of_the_log_page], [Api.collected_accounts_are_kept],
      [WatchLog.registered_secrets_stay_out],
      [Accounts.console_round_trip], [Accounts.purposes_share_no_account],
      [Auth.login_opens_a_session], [Auth.disabled_user_is_out].
    - Behaviour that looks unintended, proved of the code as it is:
      [Requests.duplicate_of_a_lost_record],
      [Ingest.failed_release_loses_the_retry],
      [Wire.decode_game_record_overflow], [Accounts.asterisks_message_is_dead],
      [Auth.verification_overrides_disable].

    ** Not modelled

    Connections, time-outs and progress reporting of the network clients
    (HTTP, WebSocket, Kafka, ClickHouse, PostgreSQL); the start-up and
    shutdown of the process (main.rs); the batch drivers over directories of
    converted files; the readers of bodies and the responses of the web framework.
    The configuration (config.rs) declares options for the parser of the command
    line and has no behaviour of its own beside the text of one warning.
*)
From Stdlib Require Export ZArith Lia Bool.
From stdpp Require Export base tactics list strings pretty gmap sorting.

#[global] Open Scope Z_scope.
From Stdlib Require Ascii.
Export Ascii.AsciiSyntax.
#[global] Delimit Scope char_scope with char.
Set Default Proof Using "Type".

(** ** Outcomes

    A fallible Rust function answers [Ok] or [Err]; [Panic] is the third
    outcome of the language: an index out of range, a slice whose start lies
    after its end, a failed [split_at]. *)
Inductive result (E A : Type) : Type :=
| Ok (a : A)
| Err (e : E)
| Panic.
Arguments Ok {E A} a.
Arguments Err {E A} e.
Arguments Panic {E A}.

#[export] Instance result_ret E : MRet (result E) := fun A a => Ok a.
#[export] Instance result_bind E : MBind (result E) := fun A B f m =>
  match m with Ok a => f a | Err e => Err e | Panic => Panic end.
#[export] Instance result_fmap E : FMap (result E) := fun A B f m =>
  match m with Ok a => Ok (f a) | Err e => Err e | Panic => Panic end.

(** [Result::ok]: drops the error, keeps the panic out of reach (a panic
    unwinds and never becomes a value). *)
Definition result_ok {E A} (m : result E A) : option A :=
  match m with Ok a => Some a | _ => None end.

Definition is_panic {E A} (m : result E A) : bool :=
  match m with Panic => true | _ => false end.

(** [anyhow::Error]: the chain of messages, outermost context first. *)
Definition error : Type := list string.
Definition bail {A} (message : string) : result error A := Err [message].
Definition context {A} (message : string) (m : result error A) : result error A :=
  match m with Err e => Err (message :: e) | other => other end.
(** [Option::context]. *)
Definition context_opt {A} (message : string) (m : option A) : result error A :=
  match m with Some a => Ok a | None => bail message end.

(** What a call to another machine did: took effect and answered, failed without
    effect, or took effect while the answer was lost. *)
Inductive reply := Done | Failed | Lost.
Definition took_effect (r : reply) : bool := match r with Failed => false | _ => true end.
Definition answered (r : reply) : bool := match r with Done => true | _ => false end.

(** ** Machine integers

    Values are mathematical integers; the casts of the source ([as u32] and
    friends) and the arithmetic of a release build wrap explicitly. *)
Definition u64_max : Z := 2 ^ 64 - 1.
Definition u32_max : Z := 2 ^ 32 - 1.
Definition u16_max : Z := 2 ^ 16 - 1.
Definition as_unsigned (w z : Z) : Z := z mod 2 ^ w.
Definition as_signed (w z : Z) : Z :=
  let r := z mod 2 ^ w in if r <? 2 ^ (w - 1) then r else r - 2 ^ w.
Definition as_u8 : Z -> Z := as_unsigned 8.
Definition as_u16 : Z -> Z := as_unsigned 16.
Definition as_u32 : Z -> Z := as_unsigned 32.
Definition as_u64 : Z -> Z := as_unsigned 64.
Definition as_i32 : Z -> Z := as_signed 32.
Definition as_i64 : Z -> Z := as_signed 64.
Definition in_u32 (z : Z) : Prop := 0 <= z < 2 ^ 32.
Definition in_u64 (z : Z) : Prop := 0 <= z < 2 ^ 64.
Definition in_i32 (z : Z) : Prop := - 2 ^ 31 <= z < 2 ^ 31.
Definition in_i64 (z : Z) : Prop := - 2 ^ 63 <= z < 2 ^ 63.
(** [u32::saturating_add], [u32::saturating_sub] and the [u64] one. *)
Definition sat_add_u32 (a b : Z) : Z := Z.min (a + b) u32_max.
Definition sat_sub (a b : Z) : Z := Z.max (a - b) 0.
Definition sat_add_u64 (a b : Z) : Z := Z.min (a + b) u64_max.

Definition zlen {A} (l : list A) : Z := Z.of_nat (length l).

Create HintDb mjai.
Create Rewrite HintDb zlen.

Lemma as_unsigned_small w z : 0 <= z < 2 ^ w -> as_unsigned w z = z.
Proof. apply Z.mod_small. Qed.
Lemma as_u32_small z : in_u32 z -> as_u32 z = z.
Proof. apply as_unsigned_small. Qed.
Lemma as_u32_range z : in_u32 (as_u32 z).
Proof. apply Z.mod_pos_bound. lia. Qed.
Lemma as_i32_range z : in_i32 (as_i32 z).
Proof.
  unfold as_i32, as_signed, in_i32. cbv zeta.
  pose proof (Z.mod_pos_bound z (2 ^ 32) ltac:(lia)).
  destruct (Z.ltb_spec (z mod 2 ^ 32) (2 ^ (32 - 1))); lia.
Qed.
Lemma as_i32_small z : in_i32 z -> as_i32 z = z.
Proof.
  unfold as_i32, as_signed, in_i32. intros H. cbv zeta.
  destruct (Z_lt_le_dec z 0) as [Hneg|Hpos].
  - rewrite <- (Z_mod_plus_full z 1 (2 ^ 32)), Z.mul_1_l, Z.mod_small by lia.
    destruct (Z.ltb_spec (z + 2 ^ 32) (2 ^ (32 - 1))); lia.
  - rewrite Z.mod_small by lia.
    destruct (Z.ltb_spec z (2 ^ (32 - 1))); lia.
Qed.
(** A signed word survives being sent as the sign-extended unsigned word. *)
Lemma as_i32_as_u64 z : in_i32 z -> as_i32 (as_u64 z) = z.
Proof.
  intros H. rewrite <- (as_i32_small z H) at 2.
  unfold as_i32, as_signed, as_u64, as_unsigned. cbv zeta.
  by rewrite Z.mod_mod_divide by (by exists (2 ^ 32)).
Qed.
Lemma zlen_nonneg {A} (l : list A) : 0 <= zlen l.
Proof. unfold zlen. lia. Qed.
Lemma zlen_app {A} (l k : list A) : zlen (l ++ k) = zlen l + zlen k.
Proof. unfold zlen. rewrite length_app. lia. Qed.
Lemma zlen_cons {A} (x : A) l : zlen (x :: l) = 1 + zlen l.
Proof. unfold zlen. simpl length. lia. Qed.
Lemma zlen_nil {A} : zlen (@nil A) = 0.
Proof. done. Qed.
#[export] Hint Resolve as_u32_range as_i32_range zlen_nonneg : mjai.
#[export] Hint Rewrite @zlen_app @zlen_cons @zlen_nil : zlen.

(** ** Record update

    [r <| f := v |>] rebuilds [r] with one field replaced, which is what an
    assignment to a field of a [let mut] value does. A record type declares how
    it is rebuilt from its projections ([Settable]); the setter of a projection
    is then derived from that. *)
Class Settable (R : Type) := rebuild : R -> R.
Class Setter {R T} (proj : R -> T) := set_field : (T -> T) -> R -> R.
Arguments set_field {R T} proj {_}.

Ltac derive_setter :=
  match goal with
  | |- @Setter ?R ?T ?proj =>
    let inst := constr:(_ : Settable R) in
    let f := fresh "f" in let r := fresh "r" in intros f r;
    let body := eval hnf in (@rebuild R inst r) in
    let abstracted := eval pattern (proj r) in body in
    match abstracted with ?g _ => let t := eval cbv beta in (g (f (proj r))) in exact t end
  end.
#[export] Hint Extern 1 (Setter _) => derive_setter : typeclass_instances.

Notation "r <| f := v |>" := (set_field f (fun _ => v) r)
  (at level 1, f at next level, v at level 200, left associativity).
Notation "r <| f ::= g |>" := (set_field f g r)
  (at level 1, f at next level, g at level 200, left associativity).

(** ** Case analysis

    [outcome] destroys the scrutinee of a [match] or [if] in the goal or in a
    hypothesis, remembering the equation. *)
Ltac outcome_in H :=
  match type of H with
  | context [match ?scrutinee with _ => _ end] => destruct scrutinee eqn:?; try discriminate H
  end.
Ltac outcome :=
  match goal with
  | |- context [match ?scrutinee with _ => _ end] => destruct scrutinee eqn:?
  end.

(** ** Strict total orders

    What a keyset walk needs of the order of its keys: a database's comparison of
    a column, and the pairs of an instant and such a value. *)
Class StrictTotal {A : Type} (ltb : A -> A -> bool) : Prop := {
  ltb_irrefl a : ltb a a = false;
  ltb_trans a b c : ltb a b = true -> ltb b c = true -> ltb a c = true;
  ltb_total a b : ltb a b = true \/ a = b \/ ltb b a = true
}.
Arguments ltb_irrefl {A} ltb {_} a.
Arguments ltb_trans {A} ltb {_} a b c.
Arguments ltb_total {A} ltb {_} a b.
Definition lex_ltb {A} (ltb : A -> A -> bool) (a b : Z * A) : bool :=
  (a.1 <? b.1) || ((a.1 =? b.1) && ltb a.2 b.2).
Lemma lex_ltb_spec {A} (ltb : A -> A -> bool) a b :
  lex_ltb ltb a b = true <-> a.1 < b.1 \/ a.1 = b.1 /\ ltb a.2 b.2 = true.
Proof. unfold lex_ltb. by rewrite orb_true_iff, andb_true_iff, Z.ltb_lt, Z.eqb_eq. Qed.
#[export] Instance lex_strict_total {A} (ltb : A -> A -> bool) : StrictTotal ltb -> StrictTotal (lex_ltb ltb).
Proof.
  intros H. split.
  - intros a. unfold lex_ltb. by rewrite Z.ltb_irrefl, (ltb_irrefl ltb), andb_false_r.
  - intros a b c. rewrite !lex_ltb_spec. intros [H1|[H1 H2]] [K1|[K1 K2]]; [left; lia..|right].
    split; [lia|]. by apply (ltb_trans ltb _ b.2).
  - intros [m i] [n k]. rewrite !lex_ltb_spec. cbn [fst snd].
    destruct (Z.lt_total m n) as [?|[->|?]]; [tauto| |tauto].
    destruct (ltb_total ltb i k) as [?|[->|?]]; tauto.
Qed.
Lemma ltb_asym {A} (ltb : A -> A -> bool) `{!StrictTotal ltb} a b : ltb a b = true -> ltb b a = false.
Proof.
  intros H. destruct (ltb b a) eqn:E; [|done]. pose proof (ltb_trans ltb a b a H E) as K. by rewrite (ltb_irrefl ltb) in K.
Qed.
Lemma ltb_antisym {A} (ltb : A -> A -> bool) `{!StrictTotal ltb} a b : ltb a b = false -> ltb b a = false -> a = b.
Proof. intros H K. destruct (ltb_total ltb a b) as [?|[?|?]]; congruence. Qed.
(** [ltb a b = false] is [b <= a]. *)
Lemma ltb_le_trans {A} (ltb : A -> A -> bool) `{!StrictTotal ltb} a b c :
  ltb b a = false -> ltb c b = false -> ltb c a = false.
Proof.
  intros H K. destruct (ltb c a) eqn:E; [|done]. destruct (ltb_total ltb b c) as [L|[->|L]]; [|congruence|congruence].
  pose proof (ltb_trans ltb b c a L E). congruence.
Qed.

(** An order every countable type has. *)
Definition code_ltb {A} `{Countable A} (a b : A) : bool := bool_decide (Pos.lt (encode a) (encode b)).
#[export] Instance code_strict_total {A} `{Countable A} : StrictTotal (code_ltb (A := A)).
Proof.
  split; unfold code_ltb; intros a; [apply bool_decide_eq_false; lia|..].
  - intros b c. rewrite !bool_decide_eq_true. lia.
  - intros b. rewrite !bool_decide_eq_true.
    destruct (Pos.lt_total (encode a) (encode b)) as [L|[E|L]]; [tauto|right; left|tauto].
    exact (encode_inj a b E).
Qed.

(** ** Sorted lists *)
Lemma StronglySorted_list_filter {A} (R : A -> A -> Prop) p l :
  StronglySorted R l -> StronglySorted R (List.filter p l).
Proof.
  induction 1 as [|x l _ IH Hx]; cbn [List.filter]; [constructor|]. destruct (p x); [|done].
  constructor; [done|]. apply Forall_forall. intros y [Hy _]%list_elem_of_In%filter_In.
  apply list_elem_of_In in Hy. by apply (proj1 (Forall_forall _ _) Hx).
Qed.
Lemma StronglySorted_impl {A} (R S : A -> A -> Prop) l :
  StronglySorted R l -> (forall a b, R a b -> S a b) -> StronglySorted S l.
Proof.
  intros H HRS. induction H as [|x l _ IH Hx]; constructor; [done|].
  eapply Forall_impl; [exact Hx|]. auto.
Qed.

(** ** Stable sorting

    [slice::sort_by_key]: stable, so the insertion of an element stops at the
    first one that does not come strictly before it. *)
Section Sort.
Context {A : Type} (le : A -> A -> bool).

Fixpoint insert_sorted (x : A) (l : list A) : list A :=
  match l with
  | [] => [x]
  | y :: rest => if le x y then x :: y :: rest else y :: insert_sorted x rest
  end.
Definition sort_by (l : list A) : list A := foldr insert_sorted [] l.

Lemma insert_sorted_perm x l : insert_sorted x l ≡ₚ x :: l.
Proof.
  induction l as [|y l IH]; simpl; [done|]. destruct (le x y); [done|].
  by rewrite IH, Permutation_swap.
Qed.
Lemma sort_by_perm l : sort_by l ≡ₚ l.
Proof. induction l as [|x l IH]; simpl; [done|]. by rewrite insert_sorted_perm, IH. Qed.
Lemma length_sort_by l : length (sort_by l) = length l.
Proof. by rewrite sort_by_perm. Qed.

Hypothesis le_total : forall x y, le x y = true \/ le y x = true.
Hypothesis le_trans : forall x y z, le x y = true -> le y z = true -> le x z = true.

Lemma insert_sorted_sorted x l :
  StronglySorted (fun a b => le a b = true) l ->
  StronglySorted (fun a b => le a b = true) (insert_sorted x l).
Proof using le_total le_trans.
  induction 1 as [|y l Hl IH Hy]; simpl; [by repeat constructor|].
  destruct (le x y) eqn:E.
  - repeat (constructor; try done). eapply Forall_impl; [exact Hy|]. eauto.
  - constructor; [done|]. rewrite insert_sorted_perm. constructor; [|done].
    destruct (le_total x y); congruence.
Qed.
Lemma sort_by_sorted l : StronglySorted (fun a b => le a b = true) (sort_by l).
Proof using le_total le_trans.
  induction l; simpl; [constructor | by apply insert_sorted_sorted].
Qed.

(** A sorted list is left alone. *)
Lemma insert_sorted_head x l : Forall (fun y => le x y = true) l -> insert_sorted x l = x :: l.
Proof. destruct l as [|y l]; [done|]. intros [H _]%Forall_cons. simpl. by rewrite H. Qed.
Lemma sort_by_id l : StronglySorted (fun a b => le a b = true) l -> sort_by l = l.
Proof.
  induction 1 as [|x l _ IH Hx]; simpl; [done|]. rewrite IH. by apply insert_sorted_head.
Qed.

(** Stability: elements that compare equal keep their order. *)
Lemma insert_sorted_filter (P : A -> bool) x l :
  (forall y, P x = true -> P y = true -> le x y = true) ->
  List.filter P (insert_sorted x l) = List.filter P (x :: l).
Proof.
  intros Heq. induction l as [|y l IH]; simpl; [done|].
  destruct (le x y) eqn:E; [done|]. simpl. rewrite IH. simpl.
  destruct (P x) eqn:Px, (P y) eqn:Py; try done. by rewrite Heq in E.
Qed.
Lemma sort_by_filter (P : A -> bool) l :
  (forall x y, P x = true -> P y = true -> le x y = true) ->
  List.filter P (sort_by l) = List.filter P l.
Proof.
  intros Heq. induction l as [|x l IH]; simpl; [done|].
  rewrite insert_sorted_filter by eauto. simpl. by rewrite IH.
Qed.
End Sort.

(** Splits on the first integer comparison of the goal. *)
Ltac zcase :=
  match goal with
  | |- context [Z.eqb ?m ?n] => destruct (Z.eqb_spec m n)
  | |- context [Z.ltb ?m ?n] => destruct (Z.ltb_spec m n)
  | |- context [Z.leb ?m ?n] => destruct (Z.leb_spec m n)
  end.
