(* ===== verification/Text.v ===== *)
(** Rust strings: [String]/[&str] are byte strings holding UTF-8, so Rocq's
    [string] is their model and [String.length] is [str::len]. A [char] is the
    byte string of one scalar value. The functions below are the parts of
    [core::str] the program uses. *)
From S2P Require Import Prelude.

(** ** UTF-8 *)

(** A continuation byte: the only bytes of a valid string that do not start a
    character. *)
Definition is_cont (b : Z) : bool := (128 <=? b) && (b <=? 191).
Definition between (lo b hi : Z) : bool := (lo <=? b) && (b <=? hi).

(** The ranges of the second byte of a three and a four byte sequence. *)
Definition second_of_three (b0 b1 : Z) : bool :=
  ((b0 =? 224) && between 160 b1 191) || (between 225 b0 236 && between 128 b1 191)
  || ((b0 =? 237) && between 128 b1 159) || (between 238 b0 239 && between 128 b1 191).
Definition second_of_four (b0 b1 : Z) : bool :=
  ((b0 =? 240) && between 144 b1 191) || (between 241 b0 243 && between 128 b1 191)
  || ((b0 =? 244) && between 128 b1 143).

(** One step of the decoder: how many bytes it consumes, and whether they are a
    character. An ill-formed sequence consumes its maximal valid prefix. *)
Definition utf8_next (b0 : Z) (rest : list Z) : nat * bool :=
  if b0 <? 128 then (1%nat, true)
  else if between 194 b0 223 then
    match rest with
    | b1 :: _ => if is_cont b1 then (2%nat, true) else (1%nat, false)
    | [] => (1%nat, false)
    end
  else if between 224 b0 239 then
    match rest with
    | b1 :: r => if second_of_three b0 b1 then
        match r with
        | b2 :: _ => if is_cont b2 then (3%nat, true) else (2%nat, false)
        | [] => (2%nat, false)
        end else (1%nat, false)
    | [] => (1%nat, false)
    end
  else if between 240 b0 244 then
    match rest with
    | b1 :: r => if second_of_four b0 b1 then
        match r with
        | b2 :: r' => if is_cont b2 then
            match r' with
            | b3 :: _ => if is_cont b3 then (4%nat, true) else (3%nat, false)
            | [] => (3%nat, false)
            end else (2%nat, false)
        | [] => (2%nat, false)
        end else (1%nat, false)
    | [] => (1%nat, false)
    end
  else (1%nat, false).

(** U+FFFD. *)
Definition replacement : list Z := [239; 191; 189].

(** [String::from_utf8_lossy] on bytes; every step consumes at least one byte,
    so the length of the input is enough fuel. *)
Fixpoint lossy_fuel (fuel : nat) (bytes : list Z) : list Z :=
  match fuel, bytes with
  | S fuel, b0 :: rest =>
    let '(n, valid) := utf8_next b0 rest in
    (if valid then take n bytes else replacement) ++ lossy_fuel fuel (drop n bytes)
  | _, _ => []
  end.
Definition lossy (bytes : list Z) : list Z := lossy_fuel (length bytes) bytes.

Fixpoint utf8_valid_fuel (fuel : nat) (bytes : list Z) : bool :=
  match fuel, bytes with
  | _, [] => true
  | S fuel, b0 :: rest =>
    let '(n, valid) := utf8_next b0 rest in valid && utf8_valid_fuel fuel (drop n bytes)
  | O, _ => false
  end.
(** [str::from_utf8] succeeds. *)
Definition utf8_valid (bytes : list Z) : bool := utf8_valid_fuel (length bytes) bytes.

(** ** Strings and bytes *)
Definition byte_of_ascii (a : Ascii.ascii) : Z := Z.of_N (Ascii.N_of_ascii a).
Definition ascii_of_byte (b : Z) : Ascii.ascii := Ascii.ascii_of_N (Z.to_N b).
Definition bytes_of_string (s : string) : list Z := map byte_of_ascii (String.list_ascii_of_string s).
Definition string_of_bytes (l : list Z) : string :=
  String.string_of_list_ascii (map ascii_of_byte l).
Definition bytes_ok (l : list Z) : Prop := Forall (fun b => 0 <= b < 256) l.
Definition from_utf8_lossy (l : list Z) : string := string_of_bytes (lossy l).

(** ** Characters *)
Fixpoint chars_aux (s : string) : string * list string :=
  match s with
  | EmptyString => (EmptyString, [])
  | String a s' =>
    let '(tail, cs) := chars_aux s' in
    if is_cont (byte_of_ascii a) then (String a tail, cs) else (EmptyString, String a tail :: cs)
  end.
(** [str::chars], each character as its own UTF-8 encoding. *)
Definition chars (s : string) : list string := snd (chars_aux s).

(** [name.chars().take(n).collect()]. *)
Definition take_chars (n : nat) (s : string) : string := String.concat EmptyString (take n (chars s)).

(** [str::is_char_boundary] and [str::get(a..b)]. *)
Definition char_boundary (s : string) (i : nat) : bool :=
  (Nat.eqb i (String.length s))
  || match String.get i s with Some a => negb (is_cont (byte_of_ascii a)) | None => false end.
Definition str_get (a b : nat) (s : string) : option string :=
  if (Nat.leb a b) && (Nat.leb b (String.length s)) && char_boundary s a && char_boundary s b
  then Some (String.substring a (b - a) s) else None.

(** [str::split_once] on one ASCII character. *)
Fixpoint split_once (sep : Ascii.ascii) (s : string) : option (string * string) :=
  match s with
  | EmptyString => None
  | String a s' =>
    if Ascii.eqb a sep then Some (EmptyString, s')
    else match split_once sep s' with
         | Some (l, r) => Some (String a l, r)
         | None => None
         end
  end.
(** [str::split] on one ASCII character: never empty. *)
Fixpoint split_on (sep : Ascii.ascii) (s : string) : list string :=
  match s with
  | EmptyString => [EmptyString]
  | String a s' =>
    if Ascii.eqb a sep then EmptyString :: split_on sep s'
    else match split_on sep s' with
         | piece :: pieces => String a piece :: pieces
         | [] => [String a EmptyString]
         end
  end.
(** [str::strip_suffix] on one ASCII character. *)
Fixpoint strip_suffix (suffix : Ascii.ascii) (s : string) : option string :=
  match s with
  | EmptyString => None
  | String a EmptyString => if Ascii.eqb a suffix then Some EmptyString else None
  | String a s' => String a <$> strip_suffix suffix s'
  end.
(** [str::trim_end_matches] on one ASCII character. *)
Fixpoint trim_end_matches (c : Ascii.ascii) (s : string) : string :=
  match s with
  | EmptyString => EmptyString
  | String a s' =>
    match trim_end_matches c s' with
    | EmptyString => if Ascii.eqb a c then EmptyString else String a EmptyString
    | t => String a t
    end
  end.
(** [str::ends_with]. *)
Definition ends_with (suffix s : string) : bool :=
  let n := String.length s in let k := String.length suffix in
  (Nat.leb k n) && String.eqb (String.substring (n - k) k s) suffix.

(** ** White space *)
(** ASCII and Unicode white space as [str::trim] removes it, on UTF-8 bytes. *)
Definition ascii_space (b : Z) : bool := between 9 b 13 || (b =? 32).
Definition unicode_space (c : string) : bool :=
  match bytes_of_string c with
  | [b] => ascii_space b
  | [194; b] => (b =? 133) || (b =? 160)
  | [225; 154; 128] => true
  | [226; 128; b] => between 128 b 138 || (b =? 168) || (b =? 169) || (b =? 175)
  | [226; 129; 159] => true
  | [227; 128; 128] => true
  | _ => false
  end.
Fixpoint skip_while (p : string -> bool) (l : list string) : list string :=
  match l with
  | c :: l' => if p c then skip_while p l' else l
  | [] => []
  end.
Definition trim (s : string) : string :=
  String.concat EmptyString (reverse (skip_while unicode_space
    (reverse (skip_while unicode_space (chars s))))).

(** The pieces between the characters that satisfy [p]: never empty. *)
Fixpoint split_chars (p : string -> bool) (l : list string) : list (list string) :=
  match l with
  | [] => [[]]
  | c :: l' =>
    if p c then [] :: split_chars p l'
    else match split_chars p l' with
         | piece :: pieces => (c :: piece) :: pieces
         | [] => [[c]]
         end
  end.
(** [str::split_whitespace]. *)
Definition split_whitespace (s : string) : list string :=
  map (String.concat EmptyString)
    (List.filter (fun piece => negb (Nat.eqb (length piece) 0))
       (split_chars unicode_space (chars s))).

(** ** Substrings *)
(** [str::starts_with] is [String.prefix]. The offset of the first occurrence,
    [str::find]; the text before and from an offset. *)
Fixpoint find (pat s : string) : option nat :=
  if String.prefix pat s then Some O
  else match s with EmptyString => None | String _ s' => S <$> find pat s' end.
Fixpoint stake (n : nat) (s : string) : string :=
  match n, s with S n, String a s => String a (stake n s) | _, _ => EmptyString end.
Fixpoint sdrop (n : nat) (s : string) : string :=
  match n, s with S n, String _ s => sdrop n s | _, _ => s end.
(** [str::contains] of one ASCII character. *)
Fixpoint contains (c : Ascii.ascii) (s : string) : bool :=
  match s with EmptyString => false | String a s' => Ascii.eqb a c || contains c s' end.
(** [str::split] on a non-empty string: every piece but the last consumes at
    least a byte, so the length is enough fuel. *)
Fixpoint split_str_fuel (fuel : nat) (pat s : string) : list string :=
  match fuel, find pat s with
  | S fuel, Some i => stake i s :: split_str_fuel fuel pat (sdrop (i + String.length pat) s)
  | _, _ => [s]
  end.
Definition split_str (pat s : string) : list string := split_str_fuel (String.length s) pat s.
(** [str::replace]. *)
Definition replace (pat by_ s : string) : string := String.concat by_ (split_str pat s).
(** [str::trim_start_matches] of one ASCII character. *)
Fixpoint trim_start_matches (c : Ascii.ascii) (s : string) : string :=
  match s with
  | EmptyString => EmptyString
  | String a s' => if Ascii.eqb a c then trim_start_matches c s' else s
  end.
(** [str::to_ascii_lowercase]. *)
Definition lower (a : Ascii.ascii) : Ascii.ascii :=
  let b := byte_of_ascii a in if between 65 b 90 then ascii_of_byte (b + 32) else a.
Fixpoint to_ascii_lowercase (s : string) : string :=
  match s with EmptyString => EmptyString | String a s' => String (lower a) (to_ascii_lowercase s') end.

(** ** Numbers *)
Definition digit_value (a : Ascii.ascii) : option Z :=
  let b := byte_of_ascii a in if between 48 b 57 then Some (b - 48) else None.
Fixpoint digits_value (acc : Z) (s : string) : option Z :=
  match s with
  | EmptyString => Some acc
  | String a s' => match digit_value a with
                   | Some d => digits_value (acc * 10 + d) s'
                   | None => None
                   end
  end.
(** [str::parse] at a signed ([lo < 0]) or unsigned ([lo = 0]) integer type: an
    optional sign, at least one digit, in range. *)
Definition parse_int (lo hi : Z) (s : string) : option Z :=
  let number sign body :=
    match body with
    | EmptyString => None
    | _ => match digits_value 0 body with
           | Some v => let v := sign * v in if between lo v hi then Some v else None
           | None => None
           end
    end in
  match s with
  | String "+"%char body => number 1 body
  | String "-"%char body => if lo <? 0 then number (-1) body else None
  | _ => number 1 s
  end.
Definition parse_i32 : string -> option Z := parse_int (- 2 ^ 31) (2 ^ 31 - 1).
Definition parse_u32 : string -> option Z := parse_int 0 (2 ^ 32 - 1).
Definition parse_u64 : string -> option Z := parse_int 0 (2 ^ 64 - 1).
Definition parse_u16 : string -> option Z := parse_int 0 (2 ^ 16 - 1).
Definition parse_u8 : string -> option Z := parse_int 0 255.

(** ** Facts *)
Lemma utf8_next_pos b0 rest : (1 <= fst (utf8_next b0 rest))%nat.
Proof. unfold utf8_next. repeat (outcome; simpl; try lia). Qed.

Lemma byte_ascii a : ascii_of_byte (byte_of_ascii a) = a.
Proof. unfold ascii_of_byte, byte_of_ascii. by rewrite N2Z.id, Ascii.ascii_N_embedding. Qed.
Lemma ascii_byte b : 0 <= b < 256 -> byte_of_ascii (ascii_of_byte b) = b.
Proof.
  intros H. unfold ascii_of_byte, byte_of_ascii.
  rewrite Ascii.N_ascii_embedding; lia.
Qed.
Lemma byte_of_ascii_range a : 0 <= byte_of_ascii a < 256.
Proof. unfold byte_of_ascii. pose proof (Ascii.N_ascii_bounded a). lia. Qed.
Lemma string_of_bytes_of_string s : string_of_bytes (bytes_of_string s) = s.
Proof.
  unfold string_of_bytes, bytes_of_string. rewrite map_map.
  rewrite (map_ext _ id) by apply byte_ascii. rewrite map_id.
  apply String.string_of_list_ascii_of_string.
Qed.
Lemma string_of_bytes_app l k : string_of_bytes (l ++ k) = string_of_bytes l +:+ string_of_bytes k.
Proof.
  unfold string_of_bytes. rewrite map_app. induction (map ascii_of_byte l) as [|a m IH]; [done|].
  cbn [app String.string_of_list_ascii]. by rewrite IH.
Qed.
Lemma bytes_of_string_of_bytes l : bytes_ok l -> bytes_of_string (string_of_bytes l) = l.
Proof.
  intros H. unfold string_of_bytes, bytes_of_string.
  rewrite String.list_ascii_of_string_of_list_ascii, map_map.
  induction H as [|b l Hb _ IH]; simpl; [done|]. by rewrite IH, ascii_byte.
Qed.
Lemma bytes_of_string_ok s : bytes_ok (bytes_of_string s).
Proof.
  unfold bytes_ok, bytes_of_string. induction (String.list_ascii_of_string s); simpl; constructor; auto.
  apply byte_of_ascii_range.
Qed.

(** Valid bytes are left alone by the lossy decoder. *)
Lemma lossy_fuel_valid fuel bytes :
  utf8_valid_fuel fuel bytes = true -> lossy_fuel fuel bytes = bytes.
Proof.
  revert bytes; induction fuel as [|fuel IH]; intros [|b0 rest]; simpl; try done.
  destruct (utf8_next b0 rest) as [n [|]] eqn:E; simpl; [|done].
  intros H. rewrite IH by done. apply take_drop.
Qed.
Lemma lossy_valid bytes : utf8_valid bytes = true -> lossy bytes = bytes.
Proof. apply lossy_fuel_valid. Qed.
(** Strings of ASCII text are what [from_utf8_lossy] gives back. *)
Lemma from_utf8_lossy_string s :
  utf8_valid (bytes_of_string s) = true -> from_utf8_lossy (bytes_of_string s) = s.
Proof.
  intros H. unfold from_utf8_lossy. rewrite lossy_valid by done. apply string_of_bytes_of_string.
Qed.
#[export] Hint Resolve byte_of_ascii_range bytes_of_string_ok utf8_next_pos : mjai.

(** ** Facts on substrings *)
Lemma append_nil_r s : s +:+ EmptyString = s.
Proof. induction s; simpl; [done|]. unfold String.append; fold String.append. by f_equal. Qed.
Lemma append_cons a s t : String a s +:+ t = String a (s +:+ t).
Proof. done. Qed.
Lemma append_assoc_s s t u : (s +:+ t) +:+ u = s +:+ (t +:+ u).
Proof. induction s; [done|]. rewrite !append_cons. by f_equal. Qed.
Lemma length_append s t : String.length (s +:+ t) = (String.length s + String.length t)%nat.
Proof. induction s; [done|]. rewrite append_cons. simpl. by f_equal. Qed.
Lemma sdrop_append n s t : String.length s = n -> sdrop n (s +:+ t) = t.
Proof.
  revert n. induction s as [|a s IH]; intros [|n]; try done. intros [= H].
  rewrite append_cons. simpl. by apply IH.
Qed.
Lemma stake_append n s t : String.length s = n -> stake n (s +:+ t) = s.
Proof.
  revert n. induction s as [|a s IH]; intros [|n]; try done. intros [= H].
  rewrite append_cons. simpl. f_equal. by apply IH.
Qed.
Lemma stake_sdrop n s : stake n s +:+ sdrop n s = s.
Proof.
  revert s. induction n as [|n IH]; intros [|a s]; try done. simpl. rewrite append_cons. by rewrite IH.
Qed.
Lemma length_sdrop n s : String.length (sdrop n s) = (String.length s - n)%nat.
Proof. revert s. induction n as [|n IH]; intros [|a s]; simpl; auto. Qed.
Lemma prefix_append p s : String.prefix p (p +:+ s) = true.
Proof.
  induction p as [|a p IH]; [by destruct s|]. rewrite append_cons. simpl.
  by destruct (Ascii.ascii_dec a a).
Qed.
Lemma prefix_true p s : String.prefix p s = true -> exists t, s = p +:+ t.
Proof.
  revert s. induction p as [|a p IH]; intros s; [by exists s|]. destruct s as [|b s]; simpl; [done|].
  destruct (Ascii.ascii_dec a b) as [->|]; [|done]. intros [t ->]%IH. by exists t.
Qed.
Lemma contains_append c s t : contains c (s +:+ t) = contains c s || contains c t.
Proof. induction s; [done|]. rewrite append_cons. simpl. by rewrite IHs, orb_assoc. Qed.

(** A text without the first character of the pattern is passed over. *)
Lemma find_skip c p s t : contains c s = false ->
  find (String c p) (s +:+ t) = Nat.add (String.length s) <$> find (String c p) t.
Proof.
  induction s as [|a s IH]; cbn [contains].
  - intros _. change (EmptyString +:+ t) with t. by destruct (find _ t).
  - intros [Ha Hs]%orb_false_iff. rewrite append_cons. cbn [find String.prefix String.length].
    destruct (Ascii.ascii_dec c a) as [->|]; [by rewrite Ascii.eqb_refl in Ha|].
    rewrite (IH Hs). by destruct (find _ t).
Qed.
Lemma find_here p s : find p (p +:+ s) = Some O.
Proof. pose proof (prefix_append p s). destruct (p +:+ s); simpl in *; by rewrite H. Qed.
Lemma find_absent c p s : contains c s = false -> find (String c p) s = None.
Proof. intros H. rewrite <- (append_nil_r s), find_skip by done. done. Qed.
Lemma find_spec p s i : find p s = Some i -> s = stake i s +:+ p +:+ sdrop (i + String.length p) s.
Proof.
  assert (Hp : forall u, String.prefix p u = true ->
      u = stake O u +:+ p +:+ sdrop (0 + String.length p) u).
  { intros u [v ->]%prefix_true. simpl. by rewrite sdrop_append by done. }
  revert i. induction s as [|a s IH]; intros i; cbn [find].
  - destruct (String.prefix p "") eqn:E; [|done]. intros [= <-]. by apply Hp.
  - destruct (String.prefix p (String a s)) eqn:E; [intros [= <-]; by apply Hp|].
    destruct (find p s) as [j|] eqn:F; [|done]. intros [= <-]. cbn [stake sdrop Nat.add].
    rewrite append_cons. f_equal. by apply IH.
Qed.

(** Splitting at a character, of a text put together with that character. *)
Lemma split_on_piece sep s : contains sep s = false -> split_on sep s = [s].
Proof.
  induction s as [|a s IH]; simpl; [done|]. intros [Ha Hs]%orb_false_iff.
  by rewrite Ha, (IH Hs).
Qed.
Lemma split_on_append sep s t : contains sep s = false ->
  split_on sep (s +:+ String sep t) = s :: split_on sep t.
Proof.
  induction s as [|a s IH]; cbn [contains].
  - intros _. change (split_on sep (String sep t) = EmptyString :: split_on sep t). simpl.
    by rewrite Ascii.eqb_refl.
  - intros [Ha Hs]%orb_false_iff. rewrite append_cons. simpl. by rewrite Ha, (IH Hs).
Qed.
Lemma split_on_concat sep l : l <> [] -> Forall (fun s => contains sep s = false) l ->
  split_on sep (String.concat (String sep EmptyString) l) = l.
Proof.
  intros Hne Hl. induction Hl as [|s l Hs Hl IH]; [done|]. simpl. destruct l as [|s' l'].
  - by apply split_on_piece.
  - rewrite append_cons. rewrite split_on_append by done.
    change (EmptyString +:+ ?u) with u. by rewrite IH.
Qed.
Lemma split_once_append sep s t : contains sep s = false ->
  split_once sep (s +:+ String sep t) = Some (s, t).
Proof.
  induction s as [|a s IH]; cbn [contains].
  - intros _. change (split_once sep (String sep t) = Some (EmptyString, t)). simpl.
    by rewrite Ascii.eqb_refl.
  - intros [Ha Hs]%orb_false_iff. rewrite append_cons. simpl. by rewrite Ha, (IH Hs).
Qed.

(** ** Facts on printed numbers and on trimming *)
(** Every byte is a visible ASCII character. *)
Fixpoint plain (s : string) : bool :=
  match s with
  | EmptyString => true
  | String a s' => between 33 (byte_of_ascii a) 126 && plain s'
  end.
Lemma plain_append s t : plain (s +:+ t) = plain s && plain t.
Proof. induction s as [|a s IH]; [done|]. rewrite append_cons. cbn [plain]. by rewrite IH, andb_assoc. Qed.

Lemma between_spec lo b hi : between lo b hi = true <-> lo <= b <= hi.
Proof. unfold between. rewrite andb_true_iff, Z.leb_le, Z.leb_le. done. Qed.
Lemma chars_aux_plain s : plain s = true ->
  chars_aux s = (EmptyString, map (fun a => String a EmptyString) (String.list_ascii_of_string s)).
Proof.
  induction s as [|a s IH]; [done|]. cbn [plain]. rewrite andb_true_iff, between_spec.
  intros [Ha Hs]. cbn [chars_aux]. rewrite (IH Hs). unfold is_cont.
  by destruct (Z.leb_spec 128 (byte_of_ascii a)); [lia|].
Qed.
Lemma skip_while_none p l : Forall (fun c => p c = false) l -> skip_while p l = l.
Proof. destruct 1 as [|c l Hc _]; [done|]. simpl. by rewrite Hc. Qed.
Lemma plain_not_space s : plain s = true ->
  Forall (fun c => unicode_space c = false) (chars s).
Proof.
  intros H. unfold chars. rewrite (chars_aux_plain s H). cbn [snd].
  induction s as [|a s IH]; simpl; [constructor|]. revert H. cbn [plain].
  rewrite andb_true_iff, between_spec. intros [Ha Hs]. constructor; [|by apply IH].
  clear Hs IH. destruct a as [[] [] [] [] [] [] [] []]; vm_compute in Ha |- *; first [done | exfalso; intuition congruence].
Qed.
Lemma concat_chars s : plain s = true -> String.concat EmptyString (chars s) = s.
Proof.
  intros H. unfold chars. rewrite (chars_aux_plain s H). cbn [snd]. clear H.
  induction s as [|a s IH]; [done|]. cbn [String.list_ascii_of_string map String.concat].
  destruct (map _ (String.list_ascii_of_string s)) as [|c l] eqn:E; [by destruct s|].
  change (EmptyString +:+ ?u) with u. rewrite IH. by rewrite append_cons.
Qed.
Lemma trim_plain s : plain s = true -> trim s = s.
Proof.
  intros H. unfold trim. pose proof (plain_not_space s H) as Hs.
  rewrite (skip_while_none _ _ Hs), skip_while_none, reverse_involutive by by apply Forall_reverse.
  by apply concat_chars.
Qed.

Definition digit_char (a : Ascii.ascii) : Prop := 48 <= byte_of_ascii a <= 57.
Lemma pretty_N_char_value n : (n < 10)%N -> byte_of_ascii (pretty_N_char n) = 48 + Z.of_N n.
Proof.
  intros H.
  assert (Hk : forall k, (k < 10)%nat -> byte_of_ascii (pretty_N_char (N.of_nat k)) = 48 + Z.of_nat k).
  { intros k Hk. do 10 (destruct k as [|k]; [done|]). lia. }
  specialize (Hk (N.to_nat n) ltac:(lia)). rewrite N2Nat.id in Hk. rewrite Hk. lia.
Qed.
Lemma pretty_N_go_value n s acc :
  digits_value 0 (pretty_N_go n s) = digits_value (Z.of_N n) s /\
  (plain s = true -> plain (pretty_N_go n s) = true) /\
  (forall c, ~ digit_char c -> contains c s = false -> contains c (pretty_N_go n s) = false) /\
  (s <> EmptyString \/ (0 < n)%N -> exists a t, pretty_N_go n s = String a t /\
     (s = String a t \/ digit_char a)) /\ acc = acc :> unit.
Proof.
  revert s. induction (N.lt_wf_0 n) as [n _ IH]. intros s.
  destruct (decide (n = 0%N)) as [->|Hn].
  - rewrite pretty_N_go_0. split_and!; try done. intros [H|H]; [|lia].
    destruct s as [|a t]; [done|]. eauto.
  - rewrite pretty_N_go_step by lia.
    assert (Hm : (n `mod` 10 < 10)%N) by (apply N.mod_lt; lia).
    pose proof (pretty_N_char_value _ Hm) as Hc.
    pose proof (N.div_mod n 10 ltac:(lia)) as Hdm.
    generalize dependent (n `mod` 10)%N. intros d Hm Hc Hdm.
    destruct (IH (n `div` 10)%N ltac:(apply N.div_lt; lia)
                (String (pretty_N_char d) s)) as (E & P & C & H & _).
    split_and!; try done.
    + rewrite E. cbn [digits_value]. unfold digit_value. rewrite Hc.
      rewrite (proj2 (between_spec _ _ _)) by lia. f_equal. lia.
    + intros Hs. apply P. cbn [plain]. rewrite Hs, andb_true_r. apply between_spec. lia.
    + intros c Hd Hs. apply C; [done|]. cbn [contains]. rewrite Hs, orb_false_r.
      apply Ascii.eqb_neq. intros <-. apply Hd. unfold digit_char. lia.
    + intros _. destruct (H ltac:(left; done)) as (a & t & Ht & Ha). exists a, t. split; [done|].
      right. destruct Ha as [[= <- _]|]; [unfold digit_char; lia|done].
Qed.

(** A printed number is visible ASCII, has none of the other characters, and is
    read back. *)
Lemma pretty_plain n : 0 <= n -> plain (pretty n) = true.
Proof.
  intros H. destruct n as [|p|p]; [done| |lia].
  change (plain (pretty_N_go (Npos p) EmptyString) = true).
  apply (pretty_N_go_value (Npos p) EmptyString tt). done.
Qed.
Lemma pretty_contains n c : 0 <= n -> ~ digit_char c -> contains c (pretty n) = false.
Proof.
  intros H Hc. destruct n as [|p|p]; [| |lia].
  - change (contains c (pretty 0)) with (Ascii.eqb "0"%char c || false). rewrite orb_false_r.
    apply Ascii.eqb_neq. intros <-. by apply Hc.
  - change (contains c (pretty_N_go (Npos p) EmptyString) = false).
    by apply (pretty_N_go_value (Npos p) EmptyString tt).
Qed.
Lemma digits_value_pretty p : digits_value 0 (pretty (Zpos p)) = Some (Zpos p) /\
  exists a t, pretty (Zpos p) = String a t /\ digit_char a.
Proof.
  destruct (pretty_N_go_value (Npos p) EmptyString tt) as (E & _ & _ & H & _).
  destruct (H ltac:(right; lia)) as (a & t & Ht & Ha). split; [exact E|].
  exists a, t. split; [exact Ht|]. by destruct Ha as [?|Ha].
Qed.
(** A number prints as something that parses back, at every integer type it is
    in the range of. *)
Lemma parse_int_pretty_signed lo hi z : lo <= z <= hi -> parse_int lo hi (pretty z) = Some z.
Proof.
  intros H. destruct z as [|p|p].
  - change (parse_int lo hi (pretty 0)) with (if between lo 0 hi then Some 0 else None).
    by rewrite (proj2 (between_spec lo 0 hi)) by lia.
  - destruct (digits_value_pretty p) as (E & a & t & Ht & Ha). rewrite Ht in E |- *. unfold parse_int.
    assert (Hnum : (match digits_value 0 (String a t) with
           | Some v => let v0 := 1 * v in if between lo v0 hi then Some v0 else None
           | None => None end) = Some (Zpos p)).
    { rewrite E. cbv beta iota zeta. rewrite Z.mul_1_l. by rewrite (proj2 (between_spec lo (Zpos p) hi)) by lia. }
    destruct a as [[] [] [] [] [] [] [] []]; try exact Hnum;
      exfalso; revert Ha; vm_compute; intros [? ?]; congruence.
  - change (pretty (Zneg p)) with (String "-"%char (pretty (Zpos p))). unfold parse_int.
    destruct (Z.ltb_spec lo 0); [|lia]. destruct (digits_value_pretty p) as (E & a & t & Ht & _).
    rewrite E. rewrite Ht. cbv beta iota zeta. change (-1 * Zpos p) with (Zneg p).
    by rewrite (proj2 (between_spec lo (Zneg p) hi)) by lia.
Qed.
Lemma parse_int_pretty hi n : 0 <= n <= hi -> parse_int 0 hi (pretty n) = Some n.
Proof. apply parse_int_pretty_signed. Qed.
Lemma pretty_contains_signed (z : Z) c : c <> "-"%char -> ~ digit_char c -> contains c (pretty z) = false.
Proof.
  intros Hm Hc. destruct z as [|p|p]; [by apply pretty_contains|by apply pretty_contains|].
  change (pretty (Zneg p)) with (String "-"%char (pretty (Zpos p))). cbn [contains].
  rewrite pretty_contains by done. apply orb_false_iff. split; [by apply Ascii.eqb_neq|done].
Qed.

(** ** Facts on occurrences *)
Definition infix (p s : string) : Prop := exists a b, s = a +:+ p +:+ b.
Lemma prefix_infix p s : String.prefix p s = true -> infix p s.
Proof. intros [t ->]%prefix_true. by exists EmptyString, t. Qed.
Lemma infix_cons p a s : infix p (String a s) <-> String.prefix p (String a s) = true \/ infix p s.
Proof.
  split.
  - intros (u & v & E). destruct u as [|b u].
    + left. change (EmptyString +:+ ?x) with x in E. rewrite E. apply prefix_append.
    + right. rewrite append_cons in E. injection E as -> ->. by exists u, v.
  - intros [H|(u & v & ->)]; [by apply prefix_infix|]. by exists (String a u), v.
Qed.
Lemma find_infix p s : find p s = None <-> ~ infix p s.
Proof.
  split.
  - induction s as [|a s IH]; cbn [find].
    + destruct (String.prefix p EmptyString) eqn:E; [done|].
      intros _ (u & v & H). destruct u; [|done]. change (EmptyString +:+ ?x) with x in H.
      by rewrite H, prefix_append in E.
    + rewrite infix_cons. destruct (String.prefix p (String a s)); [done|].
      destruct (find p s) eqn:F; [done|]. intros _ [|H]; [done|by apply IH].
  - intros H. destruct (find p s) as [i|] eqn:F; [|done]. destruct H.
    eexists _, _. by apply find_spec.
Qed.
Lemma infix_trans p s t : infix p s -> infix s t -> infix p t.
Proof.
  intros (a & b & ->) (c & d & ->). exists (c +:+ a), (b +:+ d). by rewrite !append_assoc_s.
Qed.
Lemma infix_append_l s t : infix s (s +:+ t).
Proof. by exists EmptyString, t. Qed.
Lemma infix_append_r s t : infix t (s +:+ t).
Proof. exists s, EmptyString. by rewrite append_nil_r. Qed.
(** An occurrence without [c] does not reach across a [c]. *)
Lemma prefix_before c p u v : contains c p = false ->
  String.prefix p (u +:+ String c v) = true -> String.prefix p u = true.
Proof.
  revert u. induction p as [|a p IH]; intros u; [by destruct u|].
  cbn [contains]. intros [Ha Hp]%orb_false_iff. destruct u as [|b u].
  - change (EmptyString +:+ ?x) with x. cbn. destruct (Ascii.ascii_dec a c) as [->|]; [|done].
    by rewrite Ascii.eqb_refl in Ha.
  - rewrite append_cons. cbn. destruct (Ascii.ascii_dec a b); [|done]. by apply IH.
Qed.
Lemma infix_around c p u v : p <> EmptyString -> contains c p = false ->
  infix p (u +:+ String c v) -> infix p u \/ infix p v.
Proof.
  intros Hne Hc. induction u as [|a u IH].
  - change (EmptyString +:+ ?x) with x. rewrite infix_cons. intros [Hp|]; [|by right].
    apply (prefix_before c p EmptyString v Hc) in Hp. by destruct p.
  - rewrite append_cons, !infix_cons. intros [Hp|Hi].
    + left. left. by apply (prefix_before c p (String a u) v Hc).
    + destruct (IH Hi); auto.
Qed.

(** ** Facts on splitting at a string *)
Lemma split_str_unfold p s : p <> EmptyString -> forall fuel, (String.length s <= fuel)%nat ->
  split_str_fuel fuel p s = split_str p s.
Proof.
  intros Hp. unfold split_str. remember (String.length s) as n eqn:E. revert s E.
  induction (lt_wf n) as [n _ IH]. intros s -> fuel Hf.
  assert (Hstep : forall f i, find p s = Some i -> (String.length s <= S f)%nat ->
    split_str_fuel f p (sdrop (i + String.length p) s)
    = split_str p (sdrop (i + String.length p) s)).
  { intros f i Hi Hle. pose proof (find_spec p s i Hi) as Hs. unfold split_str.
    assert (Hlen : (String.length (sdrop (i + String.length p) s) < String.length s)%nat).
    { assert (String.length p <> O) by by destruct p. rewrite Hs at 2. rewrite !length_append. lia. }
    apply (IH _ Hlen); [done|]. lia. }
  assert (Hnil : String.length s = O -> find p s = None).
  { destruct s; [|done]. intros _. destruct p; done. }
  destruct fuel as [|fuel]; cbn [split_str_fuel].
  - by destruct (String.length s) eqn:El; [|lia].
  - destruct (String.length s) as [|k] eqn:El; cbn [split_str_fuel]; [by rewrite Hnil|].
    destruct (find p s) as [i|] eqn:Hi; [|done]. f_equal.
    by rewrite !Hstep by (done || lia).
Qed.
Lemma split_str_step p s i : p <> EmptyString -> find p s = Some i ->
  split_str p s = stake i s :: split_str p (sdrop (i + String.length p) s).
Proof.
  intros Hp Hi. rewrite <- (split_str_unfold p s Hp (S (String.length s))) by lia.
  cbn [split_str_fuel]. rewrite Hi. f_equal. apply split_str_unfold; [done|].
  rewrite length_sdrop. lia.
Qed.
Lemma split_str_none p s : find p s = None -> split_str p s = [s].
Proof. intros H. unfold split_str. destruct (String.length s); simpl; [done|]. by rewrite H. Qed.


(** The pieces are pieces of the text, and none holds the separator. *)
Lemma split_str_pieces p s : p <> EmptyString ->
  Forall (fun piece => infix piece s /\ ~ infix p piece) (split_str p s).
Proof.
  intros Hp. remember (String.length s) as n eqn:E. revert s E.
  induction (lt_wf n) as [n _ IH]. intros s ->.
  destruct (find p s) as [i|] eqn:Hi.
  - rewrite (split_str_step p s i Hp Hi). pose proof (find_spec p s i Hi) as Hs.
    assert (Hn : String.length p <> O) by by destruct p.
    assert (Hlen : (String.length (sdrop (i + String.length p) s) < String.length s)%nat).
    { rewrite Hs at 2. rewrite !length_append. lia. }
    constructor.
    + split; [rewrite Hs at 2; apply infix_append_l|]. clear IH Hs Hlen. revert i Hi.
      induction s as [|a s IHs]; intros i; cbn [find].
      * destruct (String.prefix p EmptyString); [|done]. intros [= <-] (u & v & H).
        destruct u; [|done]. by destruct p.
      * destruct (String.prefix p (String a s)) eqn:Hpre.
        { intros [= <-] (u & v & H). destruct u; [|done]. by destruct p. }
        destruct (find p s) as [j|] eqn:Hj; [|done]. intros [= <-]. cbn [stake].
        rewrite infix_cons. intros [Hpre'|Hinf]; [|by eapply IHs].
        apply prefix_true in Hpre' as [t Ht]. assert (Hc : String a s = p +:+ (t +:+ sdrop j s)).
        { rewrite <- append_assoc_s, <- Ht, append_cons. by rewrite stake_sdrop. }
        by rewrite Hc, prefix_append in Hpre.
    + eapply Forall_impl; [by eapply (IH _ Hlen)|]. intros piece [Hin Hnot]. split; [|done].
      eapply infix_trans; [exact Hin|]. rewrite Hs at 2. rewrite <- append_assoc_s. apply infix_append_r.
  - rewrite (split_str_none p s Hi). constructor; [|constructor]. split; [|by apply find_infix].
    exists EmptyString, EmptyString. by rewrite append_nil_r.
Qed.
(** Replacing [pat] by text that begins with [c] brings in no other string that
    is free of [c] characters of that text. *)
Lemma infix_concat c rest p l : p <> EmptyString -> contains c p = false ->
  (forall a, contains a rest = true -> a = c) ->
  infix p (String.concat (String c rest) l) -> Exists (infix p) l.
Proof.
  intros Hp Hc Hrest. assert (Hr : ~ infix p (String c rest)).
  { intros (u & v & H). destruct p as [|a p]; [done|].
    assert (Ha : contains a (String c rest) = true).
    { rewrite H, !contains_append. cbn [contains]. rewrite Ascii.eqb_refl. by rewrite orb_true_r. }
    cbn [contains] in Ha. apply orb_true_iff in Ha as [<-%Ascii.eqb_eq|Ha%Hrest]; subst;
      cbn [contains] in Hc; by rewrite Ascii.eqb_refl in Hc. }
  assert (Hskip : forall r v, (forall a, contains a r = true -> a = c) -> infix p (r +:+ v) -> infix p v).
  { intros r. induction r as [|a r IH]; intros v Ha Hi; [done|].
    assert (a = c) as -> by (apply Ha; cbn; by rewrite Ascii.eqb_refl).
    apply IH; [intros a' Ha'; apply Ha; cbn [contains]; by rewrite Ha', orb_true_r|].
    rewrite append_cons in Hi. apply (infix_around c p EmptyString _ Hp Hc) in Hi as [(u & v' & H)|]; [|done].
    destruct u; [|done]. by destruct p. }
  induction l as [|s l IH]; cbn [String.concat].
  - intros (u & v & H). destruct u; [|done]. by destruct p.
  - destruct l as [|s' l]; [by left|]. rewrite append_cons.
    intros [|Hi%Hskip]%infix_around; try done; [by left|]. right. by apply IH.
Qed.

Lemma substring_append x a i k : String.substring (String.length x + i) k (x +:+ a) = String.substring i k a.
Proof. induction x as [|c x IH]; [done|]. rewrite append_cons. cbn [String.length Nat.add String.substring]. done. Qed.
(** A long enough tail decides what a text ends with. *)
Lemma ends_with_append suffix x a : (String.length suffix <= String.length a)%nat ->
  ends_with suffix (x +:+ a) = ends_with suffix a.
Proof.
  intros H. unfold ends_with. cbv zeta. rewrite length_append.
  replace (String.length x + String.length a - String.length suffix)%nat
    with (String.length x + (String.length a - String.length suffix))%nat by lia.
  rewrite substring_append. f_equal.
  rewrite !(proj2 (Nat.leb_le _ _)) by lia. done.
Qed.
(** [str::cmp] is transitive. *)
Lemma leb_trans_s s t u : String.leb s t = true -> String.leb t u = true -> String.leb s u = true.
Proof.
  intros H1 H2. apply Is_true_true. etrans; apply Is_true_true; [exact H1|exact H2].
Qed.

(** ** Trimming twice *)
(** A character: a byte that starts one and the bytes that continue it. *)
Fixpoint all_cont (s : string) : bool :=
  match s with EmptyString => true | String a s => is_cont (byte_of_ascii a) && all_cont s end.
Definition is_char (c : string) : bool :=
  match c with EmptyString => false | String a t => negb (is_cont (byte_of_ascii a)) && all_cont t end.
Lemma chars_aux_chars s : all_cont (chars_aux s).1 = true /\ Forall (fun c => is_char c = true) (chars_aux s).2.
Proof.
  induction s as [|a s [IH1 IH2]]; [by split; [|constructor]|]. cbn [chars_aux].
  destruct (chars_aux s) as [tail cs]. cbn [fst snd] in *. destruct (is_cont (byte_of_ascii a)) eqn:E; cbn [fst snd all_cont].
  - by rewrite E.
  - split; [done|]. constructor; [|done]. cbn [is_char]. by rewrite E.
Qed.
Lemma chars_aux_append t s : all_cont t = true -> (chars_aux s).1 = "" ->
  chars_aux (t +:+ s) = (t, (chars_aux s).2).
Proof.
  intros Ht Hs. induction t as [|a t IH].
  - change ("" +:+ s) with s. by rewrite <- Hs, <- surjective_pairing.
  - cbn [all_cont] in Ht. apply andb_true_iff in Ht as [Ha Ht]. rewrite append_cons. cbn [chars_aux].
    by rewrite (IH Ht), Ha.
Qed.
Lemma concat_empty_cons c cs : String.concat "" (c :: cs) = c +:+ String.concat "" cs.
Proof. destruct cs; [by rewrite append_nil_r|]. done. Qed.
Lemma chars_concat cs : Forall (fun c => is_char c = true) cs -> chars_aux (String.concat "" cs) = ("", cs).
Proof.
  induction 1 as [|c cs Hc _ IH]; [done|]. rewrite concat_empty_cons.
  destruct c as [|a t]; [done|]. cbn [is_char] in Hc. apply andb_true_iff in Hc as [Ha%negb_true_iff Ht].
  rewrite append_cons. cbn [chars_aux]. rewrite (chars_aux_append t _ Ht) by (by rewrite IH).
  by rewrite Ha, IH.
Qed.
Lemma skip_while_head p l : head l = None \/ (exists c, head l = Some c /\ p c = false) -> skip_while p l = l.
Proof. destruct l as [|c l]; [done|]. intros [H|(d & [= <-] & H)]; [done|]. cbn [skip_while]. by rewrite H. Qed.
Lemma head_skip_while p l : head (skip_while p l) = None \/ exists c, head (skip_while p l) = Some c /\ p c = false.
Proof.
  induction l as [|c l IH]; [by left|]. cbn [skip_while]. destruct (p c) eqn:E; [done|]. right. by exists c.
Qed.
Lemma skip_while_suffix p l : exists k, l = k ++ skip_while p l.
Proof.
  induction l as [|c l [k IH]]; [by exists []|]. cbn [skip_while]. destruct (p c); [|by exists []].
  exists (c :: k). cbn. by f_equal.
Qed.
Lemma trim_trim s : trim (trim s) = trim s.
Proof.
  assert (Hc : Forall (fun c => is_char c = true) (chars s)) by apply chars_aux_chars.
  unfold trim at 1. set (l := chars s) in *. set (l1 := skip_while unicode_space l).
  set (l2 := skip_while unicode_space (reverse l1)).
  assert (E : chars (trim s) = reverse l2).
  { unfold chars at 1, trim. fold l l1 l2. rewrite chars_concat; [done|].
    destruct (skip_while_suffix unicode_space l) as [k1 H1]. fold l1 in H1.
    destruct (skip_while_suffix unicode_space (reverse l1)) as [k2 H2]. fold l2 in H2.
    rewrite H1 in Hc. apply Forall_app in Hc as [_ Hc]. apply Forall_reverse in Hc. rewrite H2 in Hc.
    apply Forall_reverse. by apply Forall_app in Hc as [_ ?]. }
  rewrite E, (skip_while_head unicode_space (reverse l2)).
  - rewrite reverse_involutive, (skip_while_head unicode_space l2) by apply head_skip_while. done.
  - destruct (skip_while_suffix unicode_space (reverse l1)) as [k2 H2]. fold l2 in H2.
    apply (f_equal reverse) in H2. rewrite reverse_involutive, reverse_app in H2.
    pose proof (head_skip_while unicode_space l) as Hh. change (skip_while unicode_space l) with l1 in Hh.
    rewrite H2 in Hh. by destruct (reverse l2) as [|c r]; [left|].
Qed.
Lemma ascii_utf8_valid l : Forall (fun b => 0 <= b < 128) l -> utf8_valid l = true.
Proof.
  unfold utf8_valid. induction 1 as [|b l Hb _ IH]; [done|]. cbn. unfold utf8_next.
  destruct (Z.ltb_spec b 128); [done|lia].
Qed.
