(* ===== verification/Tiles.v ===== *)
(** The tile and mode tables: [src/src/majsoul/tiles.rs] and
    [src/src/majsoul/modes.rs]. *)
From S2P Require Import Prelude Text.
#[local] Open Scope string_scope.
#[local] Open Scope list_scope.
#[local] Open Scope Z_scope.

Module Tiles.

(** [tile_str_to_mjai]. The guard counts bytes and the indexing counts
    characters, so a string of one multi-byte character passes the guard and
    indexes out of range. *)
Definition tile_str_to_mjai (s : string) : result error string :=
  if Nat.ltb (String.length s) 2 then bail ("Invalid tile string: " +:+ s)
  else match chars s with
  | num :: suit :: _ =>
    if String.eqb suit "m" || String.eqb suit "p" || String.eqb suit "s" then
      if String.eqb num "0" then Ok ("5" +:+ suit +:+ "r") else Ok (num +:+ suit)
    else if String.eqb suit "z" then
      if String.eqb num "1" then Ok "E"
      else if String.eqb num "2" then Ok "S"
      else if String.eqb num "3" then Ok "W"
      else if String.eqb num "4" then Ok "N"
      else if String.eqb num "5" then Ok "P"
      else if String.eqb num "6" then Ok "F"
      else if String.eqb num "7" then Ok "C"
      else bail ("Invalid honor tile: " +:+ s)
    else bail ("Invalid suit: " +:+ suit)
  | _ => Panic
  end.
End Tiles.

Module Modes.

Definition mem (s : string) (l : list string) : bool := existsb (String.eqb s) l.

(** The pair of [mode_id]s ([east], [south]) of one room. *)
Definition room_pair (players : Z) (room : string) : option (Z * Z) :=
  if players =? 4 then
    if String.eqb room "gold" then Some (8, 9)
    else if String.eqb room "jade" then Some (11, 12)
    else if String.eqb room "throne" then Some (15, 16) else None
  else if players =? 3 then
    if String.eqb room "gold" then Some (21, 22)
    else if String.eqb room "jade" then Some (23, 24)
    else if String.eqb room "throne" then Some (25, 26) else None
  else None.

(** [Vec::dedup]: drops consecutive repeats. *)
Fixpoint dedup (l : list Z) : list Z :=
  match l with
  | x :: ((y :: _) as l') => if x =? y then dedup l' else x :: dedup l'
  | other => other
  end.

(** The nested loop pushing one id per room and mode; [unreachable!] panics. *)
Fixpoint push_rooms (players : Z) (modes rooms : list string) : result error (list Z) :=
  match rooms with
  | [] => Ok []
  | room :: rooms =>
    match room_pair players room with
    | Some (east, south) =>
      rest ← push_rooms players modes rooms;
      Ok (map (fun mode => if String.eqb mode "east" then east else south) modes ++ rest)
    | None => Panic
    end
  end.

Definition room_modes (room : string) (modes : list string) (players : Z)
  : result error (list Z) :=
  if negb ((players =? 3) || (players =? 4)) then bail "players must be 3 or 4"
  else if (match modes with [] => true | _ => false end)
          || existsb (fun mode => negb (mem mode ["east"; "south"])) modes
  then bail "modes must contain east and/or south"
  else
    rooms ← (if String.eqb room "all" then Ok ["gold"; "jade"; "throne"]
             else if String.eqb room "gold" then Ok ["gold"]
             else if String.eqb room "jade" then Ok ["jade"]
             else if String.eqb room "throne" then Ok ["throne"]
             else bail ("unsupported room " +:+ room));
    result ← push_rooms players modes rooms;
    Ok (dedup (sort_by Z.leb result)).

Definition mode_metadata (mode : Z) : result error (string * string * Z) :=
  match mode with
  | 8 => Ok ("gold", "east", 4)
  | 9 => Ok ("gold", "south", 4)
  | 11 => Ok ("jade", "east", 4)
  | 12 => Ok ("jade", "south", 4)
  | 15 => Ok ("throne", "east", 4)
  | 16 => Ok ("throne", "south", 4)
  | 21 => Ok ("gold", "east", 3)
  | 22 => Ok ("gold", "south", 3)
  | 23 => Ok ("jade", "east", 3)
  | 24 => Ok ("jade", "south", 3)
  | 25 => Ok ("throne", "east", 3)
  | 26 => Ok ("throne", "south", 3)
  | _ => bail ("unsupported ranked mode_id " +:+ pretty mode)
  end.

Definition uuid_year (uuid : string) : result error Z :=
  date ← context_opt "full UUID has no YYMMDD prefix" (str_get 0 6 uuid);
  digits ← context_opt "full UUID has invalid date prefix" (str_get 0 2 date);
  year ← (match parse_i32 digits with
          | Some year => Ok year
          | None => context ("invalid year in full UUID " +:+ uuid) (bail "invalid digit")
          end);
  Ok (2000 + year).
End Modes.

(** ** The two tables *)
Section ModeTables.
Import Modes.

Lemma dedup_cons x y l :
  dedup (x :: y :: l) = if x =? y then dedup (y :: l) else x :: dedup (y :: l).
Proof. done. Qed.
Lemma elem_of_dedup l x : x ∈ dedup l <-> x ∈ l.
Proof.
  induction l as [|y l IH]; [done|]. destruct l as [|z l]; [done|].
  rewrite dedup_cons. destruct (Z.eqb_spec y z) as [->|].
  - rewrite IH, !elem_of_cons. tauto.
  - rewrite elem_of_cons, IH, !elem_of_cons. tauto.
Qed.
Lemma dedup_strict l :
  StronglySorted (fun a b => (a <=? b) = true) l -> StronglySorted Z.lt (dedup l).
Proof.
  induction 1 as [|x l Hl IH Hx]; [constructor|].
  destruct l as [|y l]; [repeat constructor|]. rewrite dedup_cons.
  destruct (Z.eqb_spec x y) as [->|Hne]; [done|]. constructor; [done|].
  apply Forall_forall. intros z Hz. rewrite elem_of_dedup in Hz.
  apply StronglySorted_inv in Hl as [_ Hy]. apply Forall_cons in Hx as [Hxy _].
  rewrite Forall_forall in Hy. apply elem_of_cons in Hz as [->|Hz]; [lia|].
  specialize (Hy z Hz). simpl in Hy. lia.
Qed.
Lemma push_rooms_Ok players modes rooms :
  Forall (fun room => room_pair players room <> None) rooms ->
  exists ids, push_rooms players modes rooms = Ok ids /\
    forall id, id ∈ ids <-> exists room e s mode, room ∈ rooms /\ mode ∈ modes /\
      room_pair players room = Some (e, s) /\ id = if String.eqb mode "east" then e else s.
Proof.
  induction 1 as [|room rooms Hroom _ (ids & Hids & IH)]; cbn [push_rooms].
  { exists []. split; [done|]. intros id. split; [by intros ?%not_elem_of_nil|].
    by intros (? & ? & ? & ? & ?%not_elem_of_nil & _). }
  destruct (room_pair players room) as [[e s]|] eqn:E; [|done]. rewrite Hids.
  cbn [mbind result_bind]. eexists. split; [done|]. intros id.
  rewrite elem_of_app, IH, list_elem_of_In, in_map_iff. setoid_rewrite elem_of_cons. split.
  - intros [(mode & <- & Hm)|(r & e' & s' & mode & Hr & Hm & Hp & Hid)].
    + exists room, e, s, mode. rewrite <- list_elem_of_In in Hm. auto.
    + exists r, e', s', mode. auto.
  - intros (r & e' & s' & mode & [->|Hr] & Hm & Hp & ->).
    + left. exists mode. rewrite E in Hp. injection Hp as <- <-.
      by rewrite <- list_elem_of_In.
    + right. exists r, e', s', mode. auto.
Qed.
(** The pairs of one table are the rows of the other. *)
Lemma room_pair_metadata players room id mode :
  mode = "east" \/ mode = "south" ->
  mode_metadata id = Ok (room, mode, players) <->
  exists e s, room_pair players room = Some (e, s) /\ id = if String.eqb mode "east" then e else s.
Proof.
  intros Hmode. split.
  - unfold mode_metadata. intros H.
    repeat match type of H with context [match ?x with _ => _ end] => is_var x; destruct x; try discriminate H end;
      injection H as <- <- <-; cbn; eauto.
  - intros (e & s & Hp & ->). unfold room_pair in Hp.
    repeat match type of Hp with context [if ?b then _ else _] =>
      let E := fresh in destruct b eqn:E; try discriminate Hp end;
    repeat match goal with H : String.eqb _ _ = true |- _ => apply String.eqb_eq in H
      | H : (_ =? _) = true |- _ => apply Z.eqb_eq in H end; subst;
    injection Hp as <- <-; by destruct Hmode as [-> | ->].
Qed.

Ltac in_list := rewrite ?elem_of_cons, ?elem_of_nil; tauto.
Definition known_rooms (room : string) : list string :=
  if String.eqb room "all" then ["gold"; "jade"; "throne"]
  else if mem room ["gold"; "jade"; "throne"] then [room] else [].

(** [room_modes] and [mode_metadata] are two readings of one table. For a
    supported room, player count and non-empty list of modes the answer is
    sorted, free of repeats, and holds exactly the identifiers that
    [mode_metadata] describes as such a room and mode; every other request is
    refused with an error, and nothing panics. *)
Theorem room_modes_spec room modes players :
  match room_modes room modes players with
  | Ok ids =>
    StronglySorted Z.lt ids /\ ids <> [] /\
    forall id, id ∈ ids <-> exists r mode, mode_metadata id = Ok (r, mode, players) /\
                             r ∈ known_rooms room /\ mode ∈ modes
  | Err _ =>
    (players <> 3 /\ players <> 4) \/ modes = [] \/ known_rooms room = [] \/
    exists mode, mode ∈ modes /\ mode <> "east" /\ mode <> "south"
  | Panic => False
  end.
Proof.
  unfold room_modes. destruct ((players =? 3) || (players =? 4)) eqn:Hp; simpl; [|lia].
  destruct modes as [|m modes]; [simpl; auto|]. cbn [orb].
  match goal with |- context [existsb ?f ?l] => destruct (existsb f l) eqn:Hm end.
  { apply existsb_exists in Hm as (mode & Hin%list_elem_of_In & Hne). right. right. right.
    exists mode. split; [done|]. apply negb_true_iff in Hne. unfold mem in Hne. simpl in Hne.
    rewrite !orb_false_iff, !String.eqb_neq in Hne. tauto. }
  assert (Hmodes : forall mode, mode ∈ m :: modes -> mode = "east" \/ mode = "south").
  { intros mode Hin%list_elem_of_In. rewrite <- not_true_iff_false, existsb_exists in Hm.
    destruct (mem mode ["east"; "south"]) eqn:E.
    - unfold mem in E. simpl in E. rewrite !orb_true_iff, !String.eqb_eq in E. by destruct E as [?|[?|?]]; auto.
    - destruct Hm. exists mode. split; [exact Hin|]. apply negb_true_iff. exact E. }
  set (rooms := if String.eqb room "all" then _ else _).
  assert (Hrooms : rooms = Ok (known_rooms room) /\ known_rooms room <> [] \/
                   (exists e, rooms = Err e) /\ known_rooms room = []).
  { unfold rooms, known_rooms, mem. simpl.
    repeat match goal with |- context [String.eqb room ?x] =>
      destruct (String.eqb_spec room x) as [->|]; simpl; [by left|] end. right. eauto. }
  destruct Hrooms as [[-> Hne]|[[e ->] Hnone]]; cbn [mbind result_bind]; [|by auto].
  destruct (push_rooms_Ok players (m :: modes) (known_rooms room)) as (ids & Hids & Hin).
  { unfold known_rooms, mem, room_pair. apply Forall_forall. intros r Hr.
    assert (r = "gold" \/ r = "jade" \/ r = "throne") as Hcase.
    { revert Hr. destruct (String.eqb room "all"); simpl; [in_list|].
      repeat match goal with |- context [String.eqb room ?x] =>
        destruct (String.eqb_spec room x) as [->|]; simpl; [in_list|] end. in_list. }
    destruct (Z.eqb_spec players 4), (Z.eqb_spec players 3); simpl in Hp; try lia;
      by destruct Hcase as [-> | [-> | ->]]. }
  rewrite Hids. cbn [mbind result_bind].
  assert (Hin' : forall id, id ∈ dedup (sort_by Z.leb ids) <->
    exists r mode, mode_metadata id = Ok (r, mode, players) /\
                   r ∈ known_rooms room /\ mode ∈ m :: modes).
  { intros id. rewrite elem_of_dedup, (sort_by_perm Z.leb ids), Hin. split.
    - intros (r & e & s & mode & Hr & Hmode & Hpair & Hid). exists r, mode.
      split; [|done]. apply room_pair_metadata; eauto.
    - intros (r & mode & Hmeta & Hr & Hmode).
      apply room_pair_metadata in Hmeta as (e & s & Hpair & Hid); [|auto].
      exists r, e, s, mode. auto. }
  split_and!; [|intros Hempty|done].
  - apply dedup_strict, (sort_by_sorted Z.leb); intros; lia.
  - destruct (known_rooms room) as [|r rs] eqn:Ek; [done|].
    cbn [push_rooms] in Hids. destruct (room_pair players r) as [[e s]|] eqn:Epair; [|done].
    destruct (push_rooms players (m :: modes) rs); cbn in Hids; try done. injection Hids as <-.
    rewrite Hempty in Hin'. apply (not_elem_of_nil (if String.eqb m "east" then e else s)).
    rewrite Hin'. exists r, m. split; [|split; apply list_elem_of_here].
    apply room_pair_metadata; [apply Hmodes, list_elem_of_here|eauto].
Qed.
End ModeTables.

(** ** Tiles *)
Section TileNames.
Import Tiles.

(** The 37 tiles of the game in the server's notation, red fives as [0]. *)
Definition majsoul_tiles : list string :=
  concat (map (fun suit => map (fun n => n +:+ suit) ["0"; "1"; "2"; "3"; "4"; "5"; "6"; "7"; "8"; "9"])
            ["m"; "p"; "s"])
  ++ map (fun n => n +:+ "z") ["1"; "2"; "3"; "4"; "5"; "6"; "7"].
Definition mjai_tiles : list string :=
  concat (map (fun suit => ("5" +:+ suit +:+ "r")
                           :: map (fun n => n +:+ suit) ["1"; "2"; "3"; "4"; "5"; "6"; "7"; "8"; "9"])
            ["m"; "p"; "s"])
  ++ ["E"; "S"; "W"; "N"; "P"; "F"; "C"].

(** [tile_str_to_mjai] maps the 37 tiles of the game one to one onto the
    mjai names; and it panics, instead of refusing the string, exactly on a
    string of at least two bytes that holds fewer than two characters, because
    its guard counts bytes and its indexing counts characters. *)
Theorem tile_str_to_mjai_spec :
  map tile_str_to_mjai majsoul_tiles = map Ok mjai_tiles /\ NoDup mjai_tiles /\
  forall s, tile_str_to_mjai s = Panic <-> (2 <= String.length s /\ length (chars s) < 2)%nat.
Proof.
  split_and!; [by vm_compute | by apply (bool_decide_unpack _); vm_compute |].
  intros s. unfold tile_str_to_mjai. destruct (Nat.ltb_spec (String.length s) 2).
  { split; [done|lia]. }
  destruct (chars s) as [|num [|suit rest]]; cbn [length]; [by split; [lia|]..|].
  split; [|lia].
  repeat match goal with |- (if ?b then _ else _) = _ -> _ => destruct b end; done.
Qed.
(** The tile of one multi-byte character that shows it. *)
Lemma multibyte_tile_panics : tile_str_to_mjai "初" = Panic.
Proof. by vm_compute. Qed.
End TileNames.
