(* ===== verification/Proto.v ===== *)
(** The hand-written protobuf decoder of game records:
    [src/src/majsoul/proto.rs]. A buffer is the list of its bytes. *)
From S2P Require Import Prelude Text.
#[local] Open Scope string_scope.
#[local] Open Scope list_scope.
#[local] Open Scope Z_scope.

Module Proto.

(** ** Varints *)

(** The loop of [decode_varint]: [shift] and [pos] are its local variables. *)
Fixpoint varint_loop (buf : list Z) (value shift pos : Z) : result error (Z * Z) :=
  match buf with
  | [] => bail "Unexpected end in varint"
  | byte :: rest =>
    let part := Z.land byte 127 in
    if (64 <=? shift) || (Z.shiftr u64_max shift <? part) then bail "Varint too long"
    else
      let value := Z.lor value (Z.shiftl part shift) in
      if Z.land byte 128 =? 0 then Ok (value, pos + 1)
      else varint_loop rest value (shift + 7) (pos + 1)
  end.
Definition decode_varint (buf : list Z) : result error (Z * Z) := varint_loop buf 0 0 0.

(** ** Fields *)
Record Field := mkField { number : Z; wire_type : Z; data : list Z }.
Record FieldIterator := mkIter { buf : list Z; pos : Z }.
Definition new (buf : list Z) : FieldIterator := mkIter buf 0.

(** [&buf[from..]] and [&buf[from..to]]: a range that does not lie in the
    buffer panics. *)
Definition slice_from (buf : list Z) (from : Z) : list Z := drop (Z.to_nat from) buf.
Definition slice (buf : list Z) (from to : Z) : result error (list Z) :=
  if (from <=? to) && (to <=? zlen buf)
  then Ok (take (Z.to_nat (to - from)) (drop (Z.to_nat from) buf)) else Panic.

(** The payload of one field: its bytes and the position after it. The
    addition of the length is [usize] arithmetic. *)
Definition read_payload (buf : list Z) (wire_type pos : Z) : result error (list Z * Z) :=
  match wire_type with
  | 0 =>
    '(_, n) ← decode_varint (slice_from buf pos);
    data ← slice buf pos (pos + n);
    Ok (data, pos + n)
  | 1 =>
    if zlen buf <? pos + 8 then bail "Buffer overflow in fixed64"
    else data ← slice buf pos (pos + 8); Ok (data, pos + 8)
  | 2 =>
    '(len, n) ← decode_varint (slice_from buf pos);
    let pos := pos + n in
    let end_ := as_u64 (pos + len) in
    if zlen buf <? end_ then bail "Buffer overflow in length-delimited"
    else data ← slice buf pos end_; Ok (data, end_)
  | 5 =>
    if zlen buf <? pos + 4 then bail "Buffer overflow in fixed32"
    else data ← slice buf pos (pos + 4); Ok (data, pos + 4)
  | _ => bail ("Unknown wire type: " +:+ pretty wire_type)
  end.

(** [FieldIterator::next]: [None] at the end of the buffer. Every caller stops
    at the first error, so the position after one is not kept. *)
Definition next (it : FieldIterator) : option (result error (Field * FieldIterator)) :=
  if zlen (buf it) <=? pos it then None
  else Some (
    '(tag, tag_len) ← decode_varint (slice_from (buf it) (pos it));
    let pos := pos it + tag_len in
    let field_number := as_u32 (Z.shiftr tag 3) in
    let wire_type := as_u8 (Z.land tag 7) in
    '(data, pos) ← read_payload (buf it) wire_type pos;
    Ok (mkField field_number wire_type data, mkIter (buf it) pos)).

(** [for field in FieldIterator::new(..) { let field = field?; .. }]: the loop
    every decoder of the program is an instance of. Each turn consumes at
    least one byte, so the length of the buffer plus one is enough fuel
    ([for_fields_step] below). *)
Fixpoint for_fields_fuel {S} (fuel : nat) (body : Field -> S -> result error S)
  (it : FieldIterator) (s : S) : result error S :=
  match fuel with
  | O => Panic
  | Datatypes.S fuel =>
    match next it with
    | None => Ok s
    | Some step =>
      '(field, it) ← step;
      s ← body field s;
      for_fields_fuel fuel body it s
    end
  end.
Definition for_fields {S} (buf : list Z) (body : Field -> S -> result error S) (s : S)
  : result error S :=
  for_fields_fuel (Datatypes.S (length buf)) body (new buf) s.

(** ** Scalars *)
Definition extract_string (data : list Z) : string := from_utf8_lossy data.
Definition extract_varint (data : list Z) : result error Z :=
  '(val, _) ← decode_varint data; Ok val.

Fixpoint packed_fuel (fuel : nat) (data : list Z) (pos : Z) : result error (list Z) :=
  match fuel with
  | O => Panic
  | S fuel =>
    if pos <? zlen data then
      '(val, n) ← decode_varint (slice_from data pos);
      rest ← packed_fuel fuel data (pos + n);
      Ok (as_i32 val :: rest)
    else Ok []
  end.
Definition decode_packed_varints (data : list Z) : result error (list Z) :=
  packed_fuel (S (length data)) data 0.

Definition decode_wrapper (buf : list Z) : result error (string * list Z) :=
  for_fields buf (fun field '(name, data) =>
    match number field, wire_type field with
    | 1, 2 => Ok (extract_string (Proto.data field), data)
    | 2, 2 => Ok (name, Proto.data field)
    | _, _ => Ok (name, data)
    end) ("", []).

(** ** Records *)
Record RecordAction := mkAction {
  name : string;
  action_data : list Z;
  passed_ms : option Z
}.
Record PlayerResult := mkPlayerResult {
  result_seat : Z; total_point : Z; part_point_1 : Z; part_point_2 : Z; grading_score : Z
}.
#[export] Instance PlayerResult_settable : Settable PlayerResult := fun r =>
  mkPlayerResult (result_seat r) (total_point r) (part_point_1 r) (part_point_2 r)
    (grading_score r).
Record PlayerAccountMeta := mkAccount {
  account_id : Z; seat : Z; nickname : string;
  level_id : Z; level_score : Z; level3_id : Z; level3_score : Z
}.
#[export] Instance PlayerAccountMeta_settable : Settable PlayerAccountMeta := fun r =>
  mkAccount (account_id r) (seat r) (nickname r) (level_id r) (level_score r)
    (level3_id r) (level3_score r).
Record GameRecord := mkRecord {
  uuid : string; start_time : Z; end_time : Z; mode_id : Z;
  player_names : list string;
  player_accounts : list PlayerAccountMeta;
  settlement : list PlayerResult;
  records : list RecordAction
}.

Definition decode_player_result (data : list Z) : result error PlayerResult :=
  for_fields data (fun field r =>
    match number field, wire_type field with
    | 1, 0 => v ← extract_varint (Proto.data field); Ok (r <| result_seat := as_u32 v |>)
    | 2, 0 => v ← extract_varint (Proto.data field); Ok (r <| total_point := as_i32 v |>)
    | 3, 0 => v ← extract_varint (Proto.data field); Ok (r <| part_point_1 := as_i32 v |>)
    | 4, 0 => v ← extract_varint (Proto.data field); Ok (r <| part_point_2 := as_i32 v |>)
    | 5, 0 => v ← extract_varint (Proto.data field); Ok (r <| grading_score := as_i32 v |>)
    | _, _ => Ok r
    end) (mkPlayerResult 0 0 0 0 0).

(** [AccountLevel { id = 1, score = 2 }]. *)
Definition decode_account_level (data : list Z) : result error (Z * Z) :=
  for_fields data (fun field '(id, score) =>
    match number field, wire_type field with
    | 1, 0 => v ← extract_varint (Proto.data field); Ok (as_u32 v, score)
    | 2, 0 => v ← extract_varint (Proto.data field); Ok (id, as_i32 (as_u32 v))
    | _, _ => Ok (id, score)
    end) (0, 0).

Definition decode_player_account (data : list Z) : result error PlayerAccountMeta :=
  for_fields data (fun field account =>
    match number field, wire_type field with
    | 1, 0 => v ← extract_varint (Proto.data field); Ok (account <| account_id := v |>)
    | 2, 0 => v ← extract_varint (Proto.data field); Ok (account <| seat := as_u32 v |>)
    | 3, 2 => Ok (account <| nickname := extract_string (Proto.data field) |>)
    | 7, 2 =>
      '(id, score) ← decode_account_level (Proto.data field);
      Ok (account <| level_id := id |> <| level_score := score |>)
    | 8, 2 =>
      '(id, score) ← decode_account_level (Proto.data field);
      Ok (account <| level3_id := id |> <| level3_score := score |>)
    | _, _ => Ok account
    end) (mkAccount 0 0 "" 0 0 0 0).

(** A loop over the fields that returns from inside its body. *)
Fixpoint first_field_fuel {A} (fuel : nat) (body : Field -> result error (option A))
  (it : FieldIterator) : result error (option A) :=
  match fuel with
  | O => Panic
  | S fuel =>
    match next it with
    | None => Ok None
    | Some step =>
      '(field, it) ← step;
      found ← body field;
      match found with Some v => Ok (Some v) | None => first_field_fuel fuel body it end
    end
  end.
Definition first_field {A} (buf : list Z) (body : Field -> result error (option A))
  : result error (option A) :=
  first_field_fuel (S (length buf)) body (new buf).

Definition decode_config_mode_id (data : list Z) : result error Z :=
  found ← first_field data (fun field =>
    match number field, wire_type field with
    | 3, 2 => first_field (Proto.data field) (fun meta =>
        match number meta, wire_type meta with
        | 2, 0 => v ← extract_varint (Proto.data meta); Ok (Some (as_i32 v))
        | _, _ => Ok None
        end)
    | _, _ => Ok None
    end);
  Ok (default 0 found).

(** The [let mut] variables of [decode_game_record]. *)
Record Decoding := mkDecoding {
  d_uuid : string; d_start : Z; d_end : Z; d_mode : Z;
  d_accounts : list PlayerAccountMeta; d_result : list PlayerResult;
  d_compressed : option (list Z)
}.
#[export] Instance Decoding_settable : Settable Decoding := fun r =>
  mkDecoding (d_uuid r) (d_start r) (d_end r) (d_mode r) (d_accounts r) (d_result r)
    (d_compressed r).

(** Field 1, the error message: any non-zero code refuses the record. *)
Definition check_error_code (data : list Z) : result error () :=
  for_fields data (fun inner _ =>
    match number inner, wire_type inner with
    | 1, 0 =>
      code ← extract_varint (Proto.data inner);
      if code =? 0 then Ok tt else bail ("Game record error code: " +:+ pretty code)
    | _, _ => Ok tt
    end) tt.

(** Field 3, the head ([GameRecordHeader]). *)
Definition decode_head_field (inner : Field) (d : Decoding) : result error Decoding :=
  match number inner, wire_type inner with
  | 1, 2 => Ok (d <| d_uuid := extract_string (Proto.data inner) |>)
  | 2, 0 => v ← extract_varint (Proto.data inner); Ok (d <| d_start := as_u32 v |>)
  | 3, 0 => v ← extract_varint (Proto.data inner); Ok (d <| d_end := as_u32 v |>)
  | 5, 2 => m ← decode_config_mode_id (Proto.data inner); Ok (d <| d_mode := m |>)
  | 11, 2 =>
    account ← decode_player_account (Proto.data inner);
    Ok (d <| d_accounts ::= fun l => l ++ [account] |>)
  | 12, 2 =>
    items ← for_fields (Proto.data inner) (fun item acc =>
      match number item, wire_type item with
      | 1, 2 => r ← decode_player_result (Proto.data item); Ok (acc ++ [r])
      | _, _ => Ok acc
      end) (d_result d);
    Ok (d <| d_result := items |>)
  | _, _ => Ok d
  end.

(** Each record of the old format is a wrapper of its own, without a clock. *)
Fixpoint decode_old_format_records (raw_records : list (list Z))
  : result error (list RecordAction) :=
  match raw_records with
  | [] => Ok []
  | raw :: raw_records =>
    '(name, data) ← decode_wrapper raw;
    rest ← decode_old_format_records raw_records;
    Ok (if String.eqb name "" then rest else mkAction name data None :: rest)
  end.

(** Each action of the new format is [GameAction { passed = 1, result = 3 }]. *)
Fixpoint decode_new_format_actions (actions_data : list (list Z))
  : result error (list RecordAction) :=
  match actions_data with
  | [] => Ok []
  | action_bytes :: actions_data =>
    '(result_data, passed) ← for_fields action_bytes (fun field '(result_data, passed) =>
      match number field, wire_type field with
      | 1, 0 => v ← extract_varint (Proto.data field); Ok (result_data, Some (as_u32 v))
      | 3, 2 => Ok (Some (Proto.data field), passed)
      | _, _ => Ok (result_data, passed)
      end) (None, None);
    here ← (match result_data with
            | Some ((_ :: _) as result) =>
              '(name, data) ← decode_wrapper result;
              Ok (if String.eqb name "" then [] else [mkAction name data passed])
            | _ => Ok []
            end);
    rest ← decode_new_format_actions actions_data;
    Ok (here ++ rest)
  end.

(** Field 4: a wrapper around [GameDetailRecords]. *)
Definition decode_detail_records (compressed_data : option (list Z))
  : result error (list RecordAction) :=
  match compressed_data with
  | None => Ok []
  | Some data_bytes =>
    '(_, wrapper_data) ← decode_wrapper data_bytes;
    '(version, raw_records, actions_data) ←
      for_fields wrapper_data (fun field '(version, raw_records, actions_data) =>
        match number field, wire_type field with
        | 1, 2 => Ok (version, raw_records ++ [Proto.data field], actions_data)
        | 2, 0 => v ← extract_varint (Proto.data field);
                  Ok (as_u32 v, raw_records, actions_data)
        | 3, 2 => Ok (version, raw_records, actions_data ++ [Proto.data field])
        | _, _ => Ok (version, raw_records, actions_data)
        end) (0, [], []);
    if (version <? 210715) && negb (match raw_records with [] => true | _ => false end)
    then decode_old_format_records raw_records
    else match actions_data with
         | [] => Ok []
         | _ => decode_new_format_actions actions_data
         end
  end.

(** The loop of [decode_game_record] over the fields of the response. *)
Definition decode_record_fields (raw : list Z) : result error Decoding :=
  for_fields raw (fun field d =>
    match number field, wire_type field with
    | 1, 2 =>
      match Proto.data field with
      | [] => Ok d
      | _ => _ ← check_error_code (Proto.data field); Ok d
      end
    | 3, 2 => for_fields (Proto.data field) decode_head_field d
    | 4, 2 => Ok (d <| d_compressed := Some (Proto.data field) |>)
    | _, _ => Ok d
    end) (mkDecoding "" 0 0 0 [] [] None).
Definition decode_game_record (raw : list Z) : result error GameRecord :=
  d ← decode_record_fields raw;
  records ← decode_detail_records (d_compressed d);
  let player_accounts := sort_by (fun a b => seat a <=? seat b) (d_accounts d) in
  let player_names := map nickname player_accounts in
  let result := sort_by (fun a b => result_seat a <=? result_seat b) (d_result d) in
  Ok (mkRecord (d_uuid d) (d_start d) (d_end d) (d_mode d) player_names player_accounts
        result records).
End Proto.

(** ** Facts about the decoder *)
Section ProtoFacts.
Import Proto.

Lemma land_127 b : Z.land b 127 = b mod 128.
Proof. apply (Z.land_ones b 7). lia. Qed.
Lemma u64_shiftr s : 0 <= s <= 64 -> Z.shiftr u64_max s = 2 ^ (64 - s) - 1.
Proof.
  intros H. rewrite Z.shiftr_div_pow2 by lia. unfold u64_max. symmetry.
  assert (0 < 2 ^ s) by (apply Z.pow_pos_nonneg; lia).
  assert (2 ^ s * 2 ^ (64 - s) = 2 ^ 64) by (rewrite <- Z.pow_add_r by lia; by replace (s + (64 - s)) with 64 by lia).
  apply (Z.div_unique_pos _ _ _ (2 ^ s - 1)); lia.
Qed.
Lemma lor_bound a b k : 0 <= k -> 0 <= a < 2 ^ k -> 0 <= b < 2 ^ k -> 0 <= Z.lor a b < 2 ^ k.
Proof.
  intros Hk Ha Hb. split; [apply Z.lor_nonneg; lia|].
  destruct (Z.eq_dec k 0) as [->|Hk0].
  { replace a with 0 by lia. replace b with 0 by lia. done. }
  destruct (Z.eq_dec (Z.lor a b) 0) as [->|Hne]; [lia|].
  apply Z.log2_lt_pow2; [pose proof (Z.lor_nonneg a b); lia|].
  rewrite Z.log2_lor by lia. apply Z.max_lub_lt.
  - destruct (Z.eq_dec a 0) as [->|]; [simpl; lia|]. apply Z.log2_lt_pow2; lia.
  - destruct (Z.eq_dec b 0) as [->|]; [simpl; lia|]. apply Z.log2_lt_pow2; lia.
Qed.

Lemma varint_loop_bounds buf value shift pos v n :
  0 <= value < 2 ^ 64 -> 0 <= shift ->
  varint_loop buf value shift pos = Ok (v, n) ->
  0 <= v < 2 ^ 64 /\ pos < n <= pos + zlen buf.
Proof.
  revert value shift pos; induction buf as [|byte buf IH]; intros value shift pos Hv Hs;
    simpl; [done|].
  destruct ((64 <=? shift) || _) eqn:Hguard; [done|].
  apply orb_false_iff in Hguard as [Hs64 Hpart].
  apply Z.leb_gt in Hs64. apply Z.ltb_ge in Hpart. rewrite u64_shiftr in Hpart by lia.
  assert (0 <= Z.lor value (Z.shiftl (Z.land byte 127) shift) < 2 ^ 64).
  { pose proof (Z.mod_pos_bound byte 128 ltac:(lia)). rewrite land_127 in *.
    apply lor_bound; [lia|lia|]. rewrite Z.shiftl_mul_pow2 by lia.
    replace 64 with ((64 - shift) + shift) by lia. rewrite Z.pow_add_r by lia. nia. }
  pose proof (zlen_nonneg buf). rewrite zlen_cons.
  destruct (Z.land byte 128 =? 0).
  - intros [= <- <-]. lia.
  - intros Hrec. apply IH in Hrec; lia.
Qed.
Lemma decode_varint_bounds buf v n :
  decode_varint buf = Ok (v, n) -> 0 <= v < 2 ^ 64 /\ 0 < n <= zlen buf.
Proof. apply varint_loop_bounds; lia. Qed.

(** A successful decode depends on the bytes it consumed only. *)
Lemma varint_loop_app buf rest value shift pos r :
  varint_loop buf value shift pos = Ok r -> varint_loop (buf ++ rest) value shift pos = Ok r.
Proof.
  revert value shift pos; induction buf as [|byte buf IH]; intros value shift pos; simpl; [done|].
  destruct ((64 <=? shift) || _); [done|]. destruct (Z.land byte 128 =? 0); eauto.
Qed.
Lemma varint_loop_no_panic buf value shift pos : varint_loop buf value shift pos <> Panic.
Proof.
  revert value shift pos; induction buf as [|byte buf IH]; intros value shift pos; simpl; [done|].
  destruct ((64 <=? shift) || _); [done|]. destruct (Z.land byte 128 =? 0); eauto.
Qed.

Lemma zlen_slice_from b p : 0 <= p <= zlen b -> zlen (slice_from b p) = zlen b - p.
Proof. unfold slice_from, zlen. rewrite length_drop. lia. Qed.
Lemma slice_Ok b p q : 0 <= p <= q -> q <= zlen b ->
  slice b p q = Ok (take (Z.to_nat (q - p)) (drop (Z.to_nat p) b)).
Proof.
  intros. unfold slice. destruct (Z.leb_spec p q), (Z.leb_spec q (zlen b)); simpl; done || lia.
Qed.
Lemma slice_inv b p q d : slice b p q = Ok d ->
  p <= q <= zlen b /\ d = take (Z.to_nat (q - p)) (drop (Z.to_nat p) b).
Proof.
  unfold slice. destruct (Z.leb_spec p q), (Z.leb_spec q (zlen b)); simpl; intros [=]; auto.
Qed.

(** Reading a payload moves forward inside the buffer and yields the bytes it
    passed over (after the length prefix of a length-delimited field). *)
Lemma read_payload_progress b w p d q : 0 <= p <= zlen b ->
  read_payload b w p = Ok (d, q) -> p <= q <= zlen b /\ zlen d <= q - p.
Proof.
  intros Hp. unfold read_payload.
  assert (Hvar : forall v n, decode_varint (slice_from b p) = Ok (v, n) -> p + n <= zlen b /\ 0 < n).
  { intros v n H%decode_varint_bounds. rewrite zlen_slice_from in H by lia. lia. }
  assert (Htake : forall a c, 0 <= a <= c -> zlen (take (Z.to_nat (c - a)) (drop (Z.to_nat a) b)) <= c - a).
  { intros. unfold zlen. rewrite length_take. lia. }
  destruct w as [|[w|w|]|]; simpl; try done.
  - destruct (decode_varint _) as [[v n]| |] eqn:E; simpl; try done. pose proof (Hvar _ _ eq_refl).
    destruct (slice b p (p + n)) eqn:S; simpl; try done. apply slice_inv in S as [? ->].
    intros [= <- <-]. split; [lia|]. apply Htake; lia.
  - destruct w as [w|w|]; simpl; try done. destruct w; try done.
    destruct (Z.ltb_spec (zlen b) (p + 4)); [done|].
    destruct (slice b p (p + 4)) eqn:S; simpl; try done. apply slice_inv in S as [? ->].
    intros [= <- <-]. split; [lia|]. apply Htake; lia.
  - destruct w; try done.
    destruct (decode_varint _) as [[v n]| |] eqn:E; simpl; try done.
    pose proof E as Hb%decode_varint_bounds. pose proof (Hvar _ _ eq_refl).
    destruct (Z.ltb_spec (zlen b) (as_u64 (p + n + v))); [done|].
    destruct (slice b (p + n) _) eqn:S; simpl; try done. apply slice_inv in S as [? ->].
    intros [= <- <-]. split; [lia|]. etransitivity; [apply Htake|]; lia.
  - destruct (Z.ltb_spec (zlen b) (p + 8)); [done|].
    destruct (slice b p (p + 8)) eqn:S; simpl; try done. apply slice_inv in S as [? ->].
    intros [= <- <-]. split; [lia|]. apply Htake; lia.
Qed.

Definition in_buffer (it : FieldIterator) : Prop := 0 <= pos it <= zlen (buf it).

Lemma next_progress it f it' : in_buffer it -> next it = Some (Ok (f, it')) ->
  in_buffer it' /\ buf it' = buf it /\ pos it < pos it' /\ zlen (data f) <= pos it' - pos it.
Proof.
  intros Hin. unfold next. destruct (Z.leb_spec (zlen (buf it)) (pos it)); [done|].
  intros [= Hnext]. destruct (decode_varint _) as [[tag n]| |] eqn:Etag; simpl in Hnext; try done.
  apply decode_varint_bounds in Etag. rewrite zlen_slice_from in Etag by done.
  destruct (read_payload _ _ _) as [[d q]| |] eqn:Epay; simpl in Hnext; try done.
  apply read_payload_progress in Epay; [|unfold in_buffer in *; lia].
  injection Hnext as <- <-. unfold in_buffer in *. simpl. split_and!; done || lia.
Qed.

(** Enough fuel: the loop does not depend on the fuel once it covers what is
    left of the buffer, so it obeys the equation of the source loop. *)
Lemma for_fields_fuel_enough {S} (body : Field -> S -> result error S) k1 k2 it s :
  in_buffer it -> zlen (buf it) - pos it < Z.of_nat k1 -> zlen (buf it) - pos it < Z.of_nat k2 ->
  for_fields_fuel k1 body it s = for_fields_fuel k2 body it s.
Proof.
  revert k2 it s; induction k1 as [|k1 IH]; intros [|k2] it s Hin H1 H2;
    unfold in_buffer in *; try lia; [].
  simpl. destruct (next it) as [[[f it']|e|]|] eqn:E; simpl; try done.
  destruct (body f s); simpl; try done.
  apply next_progress in E as (Hin' & Hbuf & Hpos & _); [|done]. unfold in_buffer in *.
  apply IH; rewrite ?Hbuf in *; lia.
Qed.
Lemma for_fields_step {S} (body : Field -> S -> result error S) k it s :
  in_buffer it -> zlen (buf it) - pos it < Z.of_nat k ->
  for_fields_fuel k body it s =
    match next it with
    | None => Ok s
    | Some step => '(field, it') ← step; s' ← body field s; for_fields_fuel k body it' s'
    end.
Proof.
  intros Hin Hk. destruct k as [|k]; [unfold in_buffer in *; lia|]. cbn [for_fields_fuel].
  destruct (next it) as [[[f it']|e|]|] eqn:E; simpl; try done.
  destruct (body f s); simpl; try done.
  apply next_progress in E as (Hin' & Hbuf & Hpos & _); [|done]. unfold in_buffer in *.
  change (for_fields_fuel k body it' a = for_fields_fuel (Datatypes.S k) body it' a).
  apply for_fields_fuel_enough; unfold in_buffer; rewrite ?Hbuf in *; lia.
Qed.
Lemma new_in_buffer b : in_buffer (new b).
Proof. unfold in_buffer. simpl. pose proof (zlen_nonneg b). lia. Qed.
End ProtoFacts.
