(* ===== verification/Rpc.v ===== *)
(** The protobuf encoders of the Mahjong Soul client
    ([wrapper] and [requests] of [src/src/majsoul/rpc.rs]) and the proofs that
    the decoder of [Proto] reads what they write. *)
From S2P Require Import Prelude Text Proto.
#[local] Open Scope string_scope.
#[local] Open Scope list_scope.
#[local] Open Scope Z_scope.

Module Rpc.

(** The bytes [encode_varint] pushes: a [u64] takes at most ten. *)
Fixpoint varint_bytes (fuel : nat) (value : Z) : list Z :=
  match fuel with
  | O => []
  | S fuel =>
    let byte := Z.land value 127 in
    let value := Z.shiftr value 7 in
    if value =? 0 then [byte] else Z.lor byte 128 :: varint_bytes fuel value
  end.
Definition encode_varint (buf : list Z) (value : Z) : list Z := buf ++ varint_bytes 10 value.

(** [wrapper::encode]: field 2 is written even when it is empty. *)
Definition encode (name : string) (data : list Z) : list Z :=
  let buf := [10] in
  let buf := encode_varint buf (Z.of_nat (String.length name)) in
  let buf := buf ++ bytes_of_string name in
  let buf := buf ++ [18] in
  let buf := encode_varint buf (zlen data) in
  buf ++ data.

(** [wrapper::decode]: tags are single bytes here, and a field that is not
    length-delimited is skipped. *)
Fixpoint skip_varint (fuel : nat) (buf : list Z) (pos : Z) : Z :=
  match fuel with
  | O => pos
  | S fuel =>
    if (pos <? zlen buf) && negb (Z.land (nth (Z.to_nat pos) buf 0) 128 =? 0)
    then skip_varint fuel buf (pos + 1) else pos
  end.
Fixpoint decode_fuel (fuel : nat) (buf : list Z) (pos : Z) (name : string) (data : list Z)
  : result error (string * list Z) :=
  match fuel with
  | O => Panic
  | S fuel =>
    if pos <? zlen buf then
      let tag := nth (Z.to_nat pos) buf 0 in
      let pos := pos + 1 in
      let field_num := Z.shiftr tag 3 in
      let wire_type := Z.land tag 7 in
      if negb (wire_type =? 2) then
        let pos := if wire_type =? 0 then skip_varint (length buf) buf pos + 1 else pos in
        decode_fuel fuel buf pos name data
      else
        '(len, bytes_read) ← Proto.decode_varint (Proto.slice_from buf pos);
        let pos := pos + bytes_read in
        let end_ := as_u64 (pos + len) in
        if zlen buf <? end_ then bail "Buffer overflow"
        else
          '(name, data) ← (match field_num with
            | 1 => b ← Proto.slice buf pos end_; Ok (from_utf8_lossy b, data)
            | 2 => b ← Proto.slice buf pos end_; Ok (name, b)
            | _ => Ok (name, data)
            end);
          decode_fuel fuel buf end_ name data
    else Ok (name, data)
  end.
Definition decode (buf : list Z) : result error (string * list Z) :=
  decode_fuel (S (length buf)) buf 0 "" [].

(** ** [requests] *)
Definition encode_string (buf : list Z) (field : Z) (value : string) : list Z :=
  let tag := Z.lor (Z.shiftl field 3) 2 in
  let buf := encode_varint buf tag in
  let buf := encode_varint buf (Z.of_nat (String.length value)) in
  buf ++ bytes_of_string value.
Definition encode_bool (buf : list Z) (field : Z) (value : bool) : list Z :=
  let tag := Z.shiftl field 3 in
  encode_varint buf tag ++ [if value then 1 else 0].
Definition encode_varint_field (buf : list Z) (field value : Z) : list Z :=
  let tag := Z.shiftl field 3 in
  encode_varint (encode_varint buf tag) value.
(** A nested message, as [encode_device] and [encode_client_version] end. *)
Definition encode_message (buf : list Z) (field : Z) (inner : list Z) : list Z :=
  let tag := Z.lor (Z.shiftl field 3) 2 in
  encode_varint (encode_varint buf tag) (zlen inner) ++ inner.

Definition fetch_game_record (uuid version : string) : list Z :=
  let buf := [] in
  let buf := encode_string buf 1 uuid in
  encode_string buf 2 version.
Definition fetch_game_live_list (filter_id : Z) : list Z := encode_varint_field [] 1 filter_id.
Definition build_login_beat_request (contract : string) : list Z := encode_string [] 1 contract.
Definition encode_client_version (buf : list Z) (resource package : string) : list Z :=
  let inner := [] in
  let inner := encode_string inner 1 resource in
  let inner := encode_string inner 2 package in
  encode_message buf 6 inner.
Definition build_request_connection (route_id : string) (timestamp : Z) : list Z :=
  let buf := [] in
  let buf := encode_varint_field buf 2 1 in
  let buf := encode_string buf 3 route_id in
  let buf := encode_varint_field buf 4 timestamp in
  encode_string buf 6 "Web".
Definition build_heartbeat (delay_ms quality_ms : Z) : list Z :=
  let buf := [] in
  let buf := encode_varint_field buf 1 delay_ms in
  let buf := encode_varint_field buf 2 0 in
  let buf := encode_varint_field buf 3 11 in
  encode_varint_field buf 4 quality_ms.
Definition build_first_heartbeat : list Z := build_heartbeat 5000 5000.

(** The machine an account claims to be. [to_lowercase] is [str::to_lowercase]
    (the Unicode tables of the standard library), an argument of the model. *)
Definition CHROME_VERSIONS : list Z := [149; 150; 151].
Definition MAC_SCREENS : list (Z * Z) :=
  [(1512, 982); (1440, 900); (1728, 1117); (1280, 800); (1920, 1080); (2560, 1440)].
Definition MAC_GPUS : list string :=
  ["ANGLE (Apple, ANGLE Metal Renderer: Apple M1, Unspecified Version)";
   "ANGLE (Apple, ANGLE Metal Renderer: Apple M1 Pro, Unspecified Version)";
   "ANGLE (Apple, ANGLE Metal Renderer: Apple M2, Unspecified Version)";
   "ANGLE (Apple, ANGLE Metal Renderer: Apple M3, Unspecified Version)";
   "ANGLE (Apple, ANGLE Metal Renderer: Apple M4, Unspecified Version)";
   "ANGLE (Intel, ANGLE Metal Renderer: Intel(R) UHD Graphics 630, Unspecified Version)";
   "ANGLE (AMD, ANGLE Metal Renderer: AMD Radeon Pro 5500M, Unspecified Version)"].
Record Persona := mkPersona {
  chrome : Z; viewport_width : Z; viewport_height : Z; gpu : string
}.
Definition fnv1a (bytes : list Z) : Z :=
  fold_left (fun hash byte => as_u64 (Z.lxor hash byte * 1099511628211)) bytes
    14695981039346656037.
Definition persona (to_lowercase : string -> string) (account : string) : Persona :=
  let hash := fnv1a (bytes_of_string (to_lowercase account)) in
  let '(width, height) := nth (Z.to_nat (Z.shiftr hash 8 mod 6)) MAC_SCREENS (0, 0) in
  mkPersona (nth (Z.to_nat (hash mod 3)) CHROME_VERSIONS 0) width
    (height - 220 - Z.shiftr hash 16 mod 40)
    (nth (Z.to_nat (Z.shiftr hash 24 mod 7)) MAC_GPUS "").
Definition user_agent (chrome : Z) : string :=
  "Mozilla/5.0 (Macintosh; Intel Mac OS X 10_15_7) AppleWebKit/537.36 (KHTML, like Gecko) Chrome/"
  +:+ pretty chrome +:+ ".0.0.0 Safari/537.36".
Definition encode_device (to_lowercase : string -> string) (buf : list Z) (account : string)
  : list Z :=
  let p := persona to_lowercase account in
  let inner := [] in
  let inner := encode_string inner 1 "pc" in
  let inner := encode_string inner 2 "pc" in
  let inner := encode_string inner 3 "mac" in
  let inner := encode_bool inner 5 true in
  let inner := encode_string inner 6 "Chrome" in
  let inner := encode_string inner 7 "web" in
  let inner := encode_varint_field inner 10 (viewport_width p) in
  let inner := encode_varint_field inner 11 (viewport_height p) in
  let inner := encode_string inner 12 (user_agent (chrome p)) in
  let inner := encode_varint_field inner 13 1 in
  encode_message buf 4 inner.
Definition build_login_request (to_lowercase : string -> string)
  (account password_hash random_key code_version package_version tag : string) : list Z :=
  let buf := [] in
  let buf := encode_string buf 1 account in
  let buf := encode_string buf 2 password_hash in
  let buf := encode_varint_field buf 3 0 in
  let buf := encode_device to_lowercase buf account in
  let buf := encode_string buf 5 random_key in
  let buf := encode_client_version buf code_version package_version in
  let buf := encode_bool buf 7 true in
  let buf := fold_left (fun buf platform => encode_varint_field buf 8 platform)
               [1; 2; 5; 6; 8; 10; 11] buf in
  let buf := encode_varint_field buf 9 0 in
  let buf := encode_string buf 11 ("WebGL_2022-" +:+ code_version) in
  encode_string buf 12 tag.

(** ** Answers of the server *)
Record ServerError := mkServerError { code : Z }.
(** The codes a fresh login cures. *)
Definition is_session_stale (e : ServerError) : bool :=
  existsb (Z.eqb (code e)) [109; 110; 1004; 1201; 1202].
(** [slice::get] of a range: [None] where indexing would panic. *)
Definition slice_get (buf : list Z) (from to : Z) : option (list Z) :=
  result_ok (Proto.slice buf from to).
(** [extract_error_code]: the code of [Error { code = 1 }], bare or nested in field 1. *)
Definition extract_error_code (data : list Z) : option Z :=
  payload ← (match data with
    | 10 :: rest =>
      '(len, len_bytes) ← result_ok (Proto.decode_varint rest);
      let start := 1 + len_bytes in
      let end_ := start + len in
      if u64_max <? end_ then None else slice_get data start end_
    | _ => Some data
    end);
  match payload with
  | 8 :: rest => fst <$> result_ok (Proto.decode_varint rest)
  | _ => None
  end.
(** [ensure_success_response]; the error carries its code for the caller to downcast. *)
Definition ensure_success_response (response : list Z) (operation : string)
  : result (ServerError * error) () :=
  match extract_error_code response with
  | Some code =>
    if code =? 0 then Ok tt
    else Err (mkServerError code,
              [operation +:+ " returned error " +:+ pretty code; "server error code " +:+ pretty code])
  | None => Ok tt
  end.
End Rpc.

(** ** The decoder reads what the encoder writes *)
Section RoundTrip.
Import Proto Rpc.

Lemma below_128 (P : Z -> bool) : forallb P (seqZ 0 128) = true ->
  forall p, 0 <= p < 128 -> P p = true.
Proof. rewrite forallb_forall. intros H p Hp. apply H, list_elem_of_In, elem_of_seqZ. lia. Qed.
Lemma marked_byte p : 0 <= p < 128 ->
  Z.land (Z.lor p 128) 127 = p /\ Z.land (Z.lor p 128) 128 = 128 /\ Z.land p 128 = 0.
Proof.
  intros Hp.
  pose proof (below_128 (fun p => (Z.land (Z.lor p 128) 127 =? p)
    && (Z.land (Z.lor p 128) 128 =? 128) && (Z.land p 128 =? 0)) eq_refl p Hp) as H.
  rewrite !andb_true_iff, !Z.eqb_eq in H. tauto.
Qed.
Lemma split_7 v : Z.lor (Z.land v 127) (Z.shiftl (Z.shiftr v 7) 7) = v.
Proof.
  rewrite <- Z.ldiff_ones_r by lia. change 127 with (Z.ones 7). rewrite Z.lor_comm.
  apply Z.lor_ldiff_and.
Qed.

Lemma varint_loop_bytes fuel v rest acc shift pos :
  0 <= v < 2 ^ (7 * Z.of_nat fuel) -> v < 2 ^ (64 - shift) -> 0 <= shift < 64 ->
  (0 < fuel)%nat ->
  varint_loop (varint_bytes fuel v ++ rest) acc shift pos =
    Ok (Z.lor acc (Z.shiftl v shift), pos + zlen (varint_bytes fuel v)).
Proof.
  revert v acc shift pos; induction fuel as [|fuel IH]; intros v acc shift pos Hv Hs Hshift Hf;
    [lia|]. cbn [varint_bytes].
  pose proof (Z.mod_pos_bound v 128 ltac:(lia)) as Hp.
  assert (Hland : Z.land v 127 = v mod 128) by apply land_127.
  pose proof (Z.div_mod v 128 ltac:(lia)) as Hdm.
  assert (Hshr : Z.shiftr v 7 = v / 128) by (apply (Z.shiftr_div_pow2 v 7); lia).
  pose proof (marked_byte (v mod 128) Hp) as (M1 & M2 & M3).
  assert (0 <= v / 128) by (apply Z.div_pos; lia).
  destruct (Z.eqb_spec (Z.shiftr v 7) 0) as [H0|H0].
  - assert (v mod 128 = v) as Hvv by lia.
    rewrite Hland, Hvv in *. simpl. rewrite land_127, Hvv, u64_shiftr by lia.
    destruct (Z.leb_spec 64 shift); [lia|]. simpl.
    destruct (Z.ltb_spec (2 ^ (64 - shift) - 1) v); [lia|]. by rewrite M3.
  - rewrite Hland. simpl. rewrite M1, M2, u64_shiftr by lia.
    destruct (Z.leb_spec 64 shift); [lia|]. simpl.
    destruct (Z.ltb_spec (2 ^ (64 - shift) - 1) (v mod 128)); [lia|].
    rewrite Hshr in *.
    assert (7 < 64 - shift).
    { destruct (Z_lt_le_dec 7 (64 - shift)); [done|].
      pose proof (Z.pow_le_mono_r 2 (64 - shift) 7 ltac:(lia) ltac:(lia)). lia. }
    assert (2 ^ (64 - shift) = 2 ^ (64 - (shift + 7)) * 128) as Hpow.
    { change 128 with (2 ^ 7). rewrite <- Z.pow_add_r by lia. f_equal. lia. }
    assert (2 ^ (7 * Z.of_nat (S fuel)) = 2 ^ (7 * Z.of_nat fuel) * 128) as Hpow'.
    { change 128 with (2 ^ 7). rewrite <- Z.pow_add_r by lia. f_equal. lia. }
    rewrite IH.
    + f_equal. rewrite zlen_cons. f_equal; [|lia].
      rewrite <- Z.lor_assoc. f_equal.
      rewrite <- (split_7 v) at 3. rewrite Hland, Hshr, Z.shiftl_lor, Z.shiftl_shiftl by lia.
      by rewrite (Z.add_comm 7).
    + split; [lia|]. apply Z.div_lt_upper_bound; lia.
    + apply Z.div_lt_upper_bound; lia.
    + lia.
    + destruct fuel; [|lia]. simpl in Hv. lia.
Qed.
Lemma decode_varint_encoded v rest : in_u64 v ->
  decode_varint (encode_varint [] v ++ rest) = Ok (v, zlen (encode_varint [] v)).
Proof.
  intros Hv. unfold decode_varint, encode_varint. rewrite app_nil_l.
  rewrite varint_loop_bytes; [|unfold in_u64 in *; simpl; lia..].
  by rewrite Z.lor_0_l, Z.shiftl_0_r, Z.add_0_l.
Qed.
Lemma encode_varint_app buf v : encode_varint buf v = buf ++ encode_varint [] v.
Proof. done. Qed.
Lemma zlen_encode_varint v : in_u64 v -> 0 < zlen (encode_varint [] v).
Proof. intros H. pose proof (decode_varint_bounds _ _ _ (decode_varint_encoded v [] H)). lia. Qed.

(** *** Whole messages *)
Definition field_bytes (f : Field) : list Z :=
  encode_varint [] (Z.lor (Z.shiftl (number f) 3) (wire_type f))
  ++ (if wire_type f =? 2 then encode_varint [] (zlen (data f)) ++ data f else data f).
Definition message_bytes (fs : list Field) : list Z := concat (map field_bytes fs).
(** A field the wire format can carry. *)
Definition wf_field (f : Field) : Prop :=
  in_u32 (number f) /\
  (wire_type f = 0 /\ (exists v, in_u64 v /\ data f = encode_varint [] v)
   \/ wire_type f = 1 /\ zlen (data f) = 8
   \/ wire_type f = 2
   \/ wire_type f = 5 /\ zlen (data f) = 4).
Fixpoint run_body {S} (body : Field -> S -> result error S) (fs : list Field) (s : S)
  : result error S :=
  match fs with
  | [] => Ok s
  | f :: fs => s ← body f s; run_body body fs s
  end.

Lemma slice_from_app pre l : slice_from (pre ++ l) (zlen pre) = l.
Proof. unfold slice_from, zlen. by rewrite Nat2Z.id, drop_app_length. Qed.
Lemma slice_app pre l rest : slice (pre ++ l ++ rest) (zlen pre) (zlen pre + zlen l) = Ok l.
Proof.
  rewrite slice_Ok; [|pose proof (zlen_nonneg l); pose proof (zlen_nonneg pre); lia|].
  - unfold zlen. rewrite Nat2Z.id, drop_app_length.
    replace (Z.to_nat _) with (length l) by lia. by rewrite take_app_length.
  - autorewrite with zlen. pose proof (zlen_nonneg rest). lia.
Qed.
Lemma tag_split n w : 0 <= n -> 0 <= w < 8 ->
  Z.shiftr (Z.lor (Z.shiftl n 3) w) 3 = n /\ Z.land (Z.lor (Z.shiftl n 3) w) 7 = w.
Proof.
  intros Hn Hw. rewrite Z.shiftr_lor, Z.land_lor_distr_l, Z.shiftr_shiftl_l by lia.
  replace (Z.shiftl n (3 - 3)) with n by done.
  assert (Z.shiftr w 3 = 0) as -> by (rewrite Z.shiftr_div_pow2 by lia; apply Z.div_small; lia).
  change 7 with (Z.ones 3). rewrite !Z.land_ones, Z.shiftl_mul_pow2, Z.mod_mul by lia.
  rewrite Z.lor_0_r, Z.lor_0_l, Z.mod_small by lia. done.
Qed.
Lemma wf_field_wire f : wf_field f -> 0 <= wire_type f < 8.
Proof. unfold wf_field. intros (_ & [[-> _]|[[-> _]|[->|[-> _]]]]); lia. Qed.
Lemma wf_field_tag f : wf_field f ->
  in_u64 (Z.lor (Z.shiftl (number f) 3) (wire_type f)).
Proof.
  intros Hf. pose proof (wf_field_wire _ Hf). destruct Hf as [Hn _]. unfold in_u32, in_u64 in *.
  apply lor_bound; [lia| |lia]. rewrite Z.shiftl_mul_pow2 by lia. lia.
Qed.

Lemma read_payload_field pre f rest : wf_field f ->
  zlen (pre ++ (if wire_type f =? 2 then encode_varint [] (zlen (data f)) ++ data f else data f)
        ++ rest) < 2 ^ 63 ->
  read_payload (pre ++ (if wire_type f =? 2 then encode_varint [] (zlen (data f)) ++ data f
                        else data f) ++ rest) (wire_type f) (zlen pre)
  = Ok (data f, zlen pre + zlen (if wire_type f =? 2
          then encode_varint [] (zlen (data f)) ++ data f else data f)).
Proof.
  intros (_ & Hw) Hlen. unfold read_payload. pose proof (zlen_nonneg pre).
  pose proof (zlen_nonneg rest). pose proof (zlen_nonneg (data f)).
  destruct Hw as [[E (v & Hv & Hd)]|[[E H8]|[E|[E H4]]]]; rewrite E in *; cbn [Z.eqb Pos.eqb] in *.
  - rewrite Hd, slice_from_app, decode_varint_encoded by done. simpl. by rewrite slice_app.
  - autorewrite with zlen. rewrite <- H8.
    destruct (Z.ltb_spec (zlen pre + (zlen (data f) + zlen rest)) (zlen pre + zlen (data f)));
      [lia|]. by rewrite slice_app.
  - autorewrite with zlen in *. pose proof (zlen_nonneg (encode_varint [] (zlen (data f)))).
    rewrite slice_from_app, <- app_assoc, decode_varint_encoded by (unfold in_u64; lia). simpl.
    unfold as_u64. rewrite as_unsigned_small by lia.
    rewrite (app_assoc pre (encode_varint [] (zlen (data f)))), <- (zlen_app pre), slice_app.
    simpl. rewrite !zlen_app, ?Z.add_assoc.
    zcase; [lia|done].
  - autorewrite with zlen. rewrite <- H4.
    destruct (Z.ltb_spec (zlen pre + (zlen (data f) + zlen rest)) (zlen pre + zlen (data f)));
      [lia|]. by rewrite slice_app.
Qed.

Lemma next_field pre f rest : wf_field f -> zlen (pre ++ field_bytes f ++ rest) < 2 ^ 63 ->
  next (mkIter (pre ++ field_bytes f ++ rest) (zlen pre)) =
    Some (Ok (f, mkIter (pre ++ field_bytes f ++ rest) (zlen (pre ++ field_bytes f)))).
Proof.
  intros Hf Hlen. pose proof (wf_field_wire _ Hf) as Hw. pose proof (wf_field_tag _ Hf) as Ht.
  destruct (tag_split (number f) (wire_type f)) as [T1 T2]; [apply Hf|done|].
  unfold next. cbn [buf pos]. unfold field_bytes in *.
  set (tag := encode_varint [] (Z.lor _ _)) in *.
  set (payload := if wire_type f =? 2 then _ else _) in *.
  destruct (Z.leb_spec (zlen (pre ++ (tag ++ payload) ++ rest)) (zlen pre)) as [Hle|_].
  { autorewrite with zlen in Hle. pose proof (zlen_encode_varint _ Ht).
    fold tag in H. pose proof (zlen_nonneg payload). pose proof (zlen_nonneg rest). lia. }
  f_equal. rewrite slice_from_app, <- !app_assoc. subst tag.
  rewrite decode_varint_encoded by done. simpl mbind. rewrite T1, T2.
  unfold as_u8. rewrite as_u32_small, as_unsigned_small by (apply Hf || lia).
  set (tag := encode_varint [] (Z.lor _ _)) in *.
  rewrite (app_assoc pre), <- zlen_app. subst payload.
  rewrite read_payload_field; [|done|by rewrite <- !app_assoc in *]. simpl.
  rewrite <- !app_assoc, <- zlen_app, <- !app_assoc. by destruct f.
Qed.

Lemma for_fields_message_at {S} (body : Field -> S -> result error S) fs pre s fuel :
  Forall wf_field fs -> zlen (pre ++ message_bytes fs) < 2 ^ 63 ->
  zlen (message_bytes fs) < Z.of_nat fuel ->
  for_fields_fuel fuel body (mkIter (pre ++ message_bytes fs) (zlen pre)) s = run_body body fs s.
Proof.
  intros Hfs. revert pre s; induction Hfs as [|f fs Hf _ IH]; intros pre s Hlen Hfuel.
  - unfold message_bytes. simpl. rewrite app_nil_r. destruct fuel; [unfold zlen in Hfuel; simpl in Hfuel; lia|].
    simpl. unfold next. cbn [buf pos]. by rewrite Z.leb_refl.
  - rewrite for_fields_step.
    2: { unfold in_buffer. cbn [buf pos]. autorewrite with zlen.
         pose proof (zlen_nonneg pre). pose proof (zlen_nonneg (message_bytes (f :: fs))). lia. }
    2: { cbn [buf pos]. autorewrite with zlen. lia. }
    unfold message_bytes in *. simpl concat in *. fold (message_bytes fs) in *.
    rewrite next_field by done. simpl. destruct (body f s) as [s'| |]; simpl; try done.
    rewrite app_assoc in *. apply IH; [done|]. autorewrite with zlen in *.
    pose proof (zlen_nonneg (field_bytes f)). lia.
Qed.
(** Decoding an encoded message runs the body over its fields in order. *)
Lemma for_fields_message {S} (body : Field -> S -> result error S) fs s :
  Forall wf_field fs -> zlen (message_bytes fs) < 2 ^ 63 ->
  for_fields (message_bytes fs) body s = run_body body fs s.
Proof.
  intros Hfs Hlen. unfold for_fields, new. change 0 with (zlen (@nil Z)) at 1.
  rewrite <- (app_nil_l (message_bytes fs)) at 2. apply for_fields_message_at; [done|done|].
  unfold zlen. lia.
Qed.
End RoundTrip.
