(* ===== verification/Wire.v ===== *)
(** What the decoder of game records promises, proved for every encoder the
    program has and for the wire format the server uses: round trips, the
    termination of the field loop, and exactly when decoding panics. *)
From S2P Require Import Prelude Text Proto Rpc.
#[local] Open Scope string_scope.
#[local] Open Scope list_scope.
#[local] Open Scope Z_scope.
Import Proto Rpc.

(** ** The wire format *)
Definition varint_field (n v : Z) : Field := mkField n 0 (encode_varint [] v).
Definition bytes_field (n : Z) (d : list Z) : Field := mkField n 2 d.
Definition text_field (n : Z) (s : string) : Field := bytes_field n (bytes_of_string s).
Definition wrapper_fields (name : string) (d : list Z) : list Field :=
  [text_field 1 name; bytes_field 2 d].

Lemma wf_varint_field n v : in_u32 n -> in_u64 v -> wf_field (varint_field n v).
Proof. intros Hn Hv. split; [done|]. left. eauto. Qed.
Lemma wf_bytes_field n d : in_u32 n -> wf_field (bytes_field n d).
Proof. intros Hn. split; [done|]. auto. Qed.
Lemma wf_text_field n s : in_u32 n -> wf_field (text_field n s).
Proof. apply wf_bytes_field. Qed.

Lemma message_bytes_app fs gs : message_bytes (fs ++ gs) = message_bytes fs ++ message_bytes gs.
Proof. unfold message_bytes. by rewrite map_app, concat_app. Qed.
Lemma message_bytes_nil : message_bytes [] = [].
Proof. done. Qed.
Lemma message_bytes_cons f fs : message_bytes (f :: fs) = field_bytes f ++ message_bytes fs.
Proof. done. Qed.

(** A nested message is never longer than the message around it. *)
Lemma zlen_field_data f : zlen (data f) <= zlen (field_bytes f).
Proof.
  unfold field_bytes. destruct (wire_type f =? 2); autorewrite with zlen;
    repeat match goal with |- context [zlen (encode_varint ?b ?v)] =>
      pose proof (zlen_nonneg (encode_varint b v)); generalize dependent (zlen (encode_varint b v)); intros end; lia.
Qed.
Lemma zlen_nested f fs : f ∈ fs -> zlen (data f) <= zlen (message_bytes fs).
Proof.
  induction fs as [|g fs IH]; [by intros ?%not_elem_of_nil|].
  rewrite message_bytes_cons, zlen_app. pose proof (zlen_nonneg (message_bytes fs)).
  pose proof (zlen_nonneg (field_bytes g)).
  intros [->|Hf]%elem_of_cons; [pose proof (zlen_field_data g)|specialize (IH Hf)]; lia.
Qed.

Lemma encode_fields name d : encode name d = message_bytes (wrapper_fields name d).
Proof.
  unfold encode, message_bytes, wrapper_fields, field_bytes. simpl map. simpl concat.
  assert (Z.of_nat (String.length name) = zlen (bytes_of_string name)) as ->.
  { unfold zlen, bytes_of_string. rewrite length_map. f_equal.
    induction name as [|a s IH]; simpl; [done|by rewrite IH]. }
  cbn [wire_type number data text_field bytes_field Z.eqb Pos.eqb].
  change (encode_varint [] (Z.lor (Z.shiftl 1 3) 2)) with [10].
  change (encode_varint [] (Z.lor (Z.shiftl 2 3) 2)) with [18].
  unfold encode_varint. by rewrite <- !app_assoc, app_nil_r.
Qed.

#[global] Arguments encode_varint : simpl never.
#[global] Arguments message_bytes : simpl never.
#[global] Arguments field_bytes : simpl never.
#[global] Arguments bytes_of_string : simpl never.
#[global] Arguments for_fields : simpl never.
#[global] Arguments extract_string : simpl never.
#[global] Arguments decode_player_account : simpl never.
#[global] Arguments decode_player_result : simpl never.
#[global] Arguments decode_account_level : simpl never.
#[global] Arguments decode_config_mode_id : simpl never.
#[global] Arguments decode_wrapper : simpl never.

Lemma extract_varint_encoded v : in_u64 v -> extract_varint (encode_varint [] v) = Ok v.
Proof.
  intros Hv. unfold extract_varint. rewrite <- (app_nil_r (encode_varint [] v)).
  by rewrite decode_varint_encoded.
Qed.
Lemma in_u32_u64 v : in_u32 v -> in_u64 v.
Proof. unfold in_u32, in_u64. lia. Qed.
Lemma as_u64_range v : in_u64 (as_u64 v).
Proof. apply Z.mod_pos_bound. lia. Qed.
Lemma in_u32_tag n : (0 <=? n) && (n <? 2 ^ 32) = true -> in_u32 n.
Proof. unfold in_u32. lia. Qed.
#[export] Hint Resolve wf_varint_field wf_bytes_field wf_text_field in_u32_u64 as_u64_range : mjai.
#[export] Hint Extern 2 (in_u32 _) => apply in_u32_tag; reflexivity : mjai.
#[export] Hint Extern 3 (in_u64 _) => apply in_u32_u64; apply in_u32_tag; reflexivity : mjai.

(** ** Sub-messages of a record *)
Definition level_fields (id score : Z) : list Field :=
  [varint_field 1 id; varint_field 2 (as_u64 score)].
Definition account_fields (a : PlayerAccountMeta) : list Field :=
  [varint_field 1 (account_id a); varint_field 2 (seat a); text_field 3 (nickname a);
   bytes_field 7 (message_bytes (level_fields (level_id a) (level_score a)));
   bytes_field 8 (message_bytes (level_fields (level3_id a) (level3_score a)))].
Definition result_fields (r : PlayerResult) : list Field :=
  [varint_field 1 (result_seat r); varint_field 2 (as_u64 (total_point r));
   varint_field 3 (as_u64 (part_point_1 r)); varint_field 4 (as_u64 (part_point_2 r));
   varint_field 5 (as_u64 (grading_score r))].
Definition config_fields (mode : Z) : list Field :=
  [bytes_field 3 (message_bytes [varint_field 2 (as_u64 mode)])].
Definition passed_fields (passed : option Z) : list Field :=
  match passed with Some ms => [varint_field 1 ms] | None => [] end.
Definition action_fields (a : RecordAction) : list Field :=
  passed_fields (passed_ms a)
  ++ [bytes_field 3 (message_bytes (wrapper_fields (name a) (action_data a)))].
Definition head_fields (r : GameRecord) : list Field :=
  [text_field 1 (uuid r); varint_field 2 (start_time r); varint_field 3 (end_time r);
   bytes_field 5 (message_bytes (config_fields (mode_id r)))]
  ++ map (fun a => bytes_field 11 (message_bytes (account_fields a))) (player_accounts r)
  ++ [bytes_field 12 (message_bytes
        (map (fun p => bytes_field 1 (message_bytes (result_fields p))) (settlement r)))].
Definition detail_fields (version : Z) (actions : list RecordAction) : list Field :=
  varint_field 2 version :: map (fun a => bytes_field 3 (message_bytes (action_fields a))) actions.
(** A record in the form the server sends it since version 210715. *)
Definition record_fields (version : Z) (r : GameRecord) : list Field :=
  [bytes_field 3 (message_bytes (head_fields r));
   bytes_field 4 (message_bytes (wrapper_fields ".lq.GameDetailRecords"
     (message_bytes (detail_fields version (records r)))))].

Definition wf_text (s : string) : Prop := utf8_valid (bytes_of_string s) = true.
Definition wf_account (a : PlayerAccountMeta) : Prop :=
  in_u64 (account_id a) /\ in_u32 (seat a) /\ wf_text (nickname a) /\
  in_u32 (level_id a) /\ in_i32 (level_score a) /\ in_u32 (level3_id a) /\ in_i32 (level3_score a).
Definition wf_result (r : PlayerResult) : Prop :=
  in_u32 (result_seat r) /\ in_i32 (total_point r) /\ in_i32 (part_point_1 r) /\
  in_i32 (part_point_2 r) /\ in_i32 (grading_score r).
Definition wf_action (a : RecordAction) : Prop :=
  wf_text (name a) /\ name a <> "" /\ (forall ms, passed_ms a = Some ms -> in_u32 ms).
Definition wf_record (r : GameRecord) : Prop :=
  wf_text (uuid r) /\ in_u32 (start_time r) /\ in_u32 (end_time r) /\ in_i32 (mode_id r) /\
  Forall wf_account (player_accounts r) /\ Forall wf_result (settlement r) /\
  Forall wf_action (records r) /\
  player_names r = map nickname (player_accounts r) /\
  StronglySorted (fun a b => (seat a <=? seat b) = true) (player_accounts r) /\
  StronglySorted (fun a b => (result_seat a <=? result_seat b) = true) (settlement r).

Ltac wf_fields :=
  repeat (apply Forall_cons; split; [auto with mjai|]);
  first [apply Forall_nil; exact I | apply Forall_map, Forall_forall; auto with mjai | idtac].
(** Runs the decoder over the fields of a message of known shape. *)
Ltac read_message :=
  rewrite for_fields_message; [cbn [run_body number wire_type data varint_field bytes_field text_field] |
    wf_fields | assumption].

Lemma extract_text s : wf_text s -> extract_string (bytes_of_string s) = s.
Proof. apply from_utf8_lossy_string. Qed.
Lemma in_i32_u32 s : in_i32 s -> as_i32 (as_u32 (as_u64 s)) = s.
Proof.
  intros H. rewrite <- (as_i32_small s H) at 2.
  unfold as_i32, as_signed, as_u32, as_u64, as_unsigned. cbv zeta.
  by rewrite Z.mod_mod, Z.mod_mod_divide by (done || by exists (2 ^ 32)).
Qed.

Lemma wrapper_roundtrip name d :
  wf_text name -> zlen (message_bytes (wrapper_fields name d)) < 2 ^ 63 ->
  decode_wrapper (message_bytes (wrapper_fields name d)) = Ok (name, d).
Proof.
  intros Hname Hlen. unfold decode_wrapper. unfold wrapper_fields in *. read_message.
  simpl. by rewrite extract_text.
Qed.
Lemma level_roundtrip id score : in_u32 id -> in_i32 score ->
  zlen (message_bytes (level_fields id score)) < 2 ^ 63 ->
  decode_account_level (message_bytes (level_fields id score)) = Ok (id, score).
Proof.
  intros Hid Hs Hlen. unfold decode_account_level, level_fields in *. read_message.
  rewrite !extract_varint_encoded by auto with mjai. simpl.
  by rewrite as_u32_small, in_i32_u32.
Qed.
Lemma zlen_nested_lt n d fs B :
  bytes_field n d ∈ fs -> zlen (message_bytes fs) < B -> zlen d < B.
Proof. intros Hin Hlen. pose proof (zlen_nested _ fs Hin). simpl in *. lia. Qed.
(** The bound of the message that is field [i] of a message, from the bound [H] of the latter. *)
Ltac nested i H :=
  eapply zlen_nested_lt; [eapply (list_elem_of_lookup_2 _ i) | exact H]; reflexivity.

Lemma first_field_head {A} (body : Field -> result error (option A)) f v :
  wf_field f -> zlen (message_bytes [f]) < 2 ^ 63 -> body f = Ok (Some v) ->
  first_field (message_bytes [f]) body = Ok (Some v).
Proof.
  intros Hf Hlen Hbody. unfold first_field, new. unfold message_bytes in *. simpl concat in *.
  pose proof (next_field [] f [] Hf Hlen) as Hnext. simpl in Hnext.
  change (zlen []) with 0 in Hnext. cbn [first_field_fuel]. rewrite Hnext. simpl.
  by rewrite Hbody.
Qed.

Lemma account_roundtrip a : wf_account a -> zlen (message_bytes (account_fields a)) < 2 ^ 63 ->
  decode_player_account (message_bytes (account_fields a)) = Ok a.
Proof.
  intros (Hid & Hseat & Hnick & Hl & Hs & Hl3 & Hs3) Hlen. unfold account_fields in *.
  assert (zlen (message_bytes (level_fields (level_id a) (level_score a))) < 2 ^ 63)
    by nested 3%nat Hlen.
  assert (zlen (message_bytes (level_fields (level3_id a) (level3_score a))) < 2 ^ 63)
    by nested 4%nat Hlen.
  unfold decode_player_account. read_message.
  do 2 (rewrite extract_varint_encoded by auto with mjai; simpl).
  do 2 (rewrite level_roundtrip by assumption; cbn [mbind result_bind]).
  rewrite extract_text, as_u32_small by done. by destruct a.
Qed.
Lemma result_roundtrip r : wf_result r -> zlen (message_bytes (result_fields r)) < 2 ^ 63 ->
  decode_player_result (message_bytes (result_fields r)) = Ok r.
Proof.
  intros (Hseat & Ht & H1 & H2 & Hg) Hlen.
  unfold decode_player_result, result_fields in *. read_message.
  do 5 (rewrite extract_varint_encoded by auto with mjai; simpl).
  rewrite as_u32_small, !as_i32_as_u64 by done. by destruct r.
Qed.
Lemma config_roundtrip mode : in_i32 mode -> zlen (message_bytes (config_fields mode)) < 2 ^ 63 ->
  decode_config_mode_id (message_bytes (config_fields mode)) = Ok mode.
Proof.
  intros Hm Hlen. unfold decode_config_mode_id, config_fields in *.
  assert (zlen (message_bytes [varint_field 2 (as_u64 mode)]) < 2 ^ 63) by nested 0%nat Hlen.
  erewrite first_field_head; [|auto with mjai|done|]; [done|]. simpl.
  apply first_field_head; [auto with mjai|done|]. simpl.
  rewrite extract_varint_encoded by auto with mjai. simpl. by rewrite as_i32_as_u64.
Qed.

(** A loop over fields that all have the same shape collects what each decodes to. *)
Lemma run_body_app {S} (body : Field -> S -> result error S) fs gs s :
  run_body body (fs ++ gs) s = s' ← run_body body fs s; run_body body gs s'.
Proof.
  revert s; induction fs as [|f fs IH]; intros s; simpl; [done|].
  destruct (body f s); simpl; done.
Qed.
Lemma run_body_map {S A} (body : Field -> S -> result error S) (field : A -> Field)
  (add : S -> A -> S) (xs : list A) s :
  Forall (fun x => forall s, body (field x) s = Ok (add s x)) xs ->
  run_body body (map field xs) s = Ok (fold_left add xs s).
Proof.
  intros H. revert s; induction H as [|x xs Hx _ IH]; intros s; simpl; [done|].
  by rewrite Hx; simpl.
Qed.
Lemma fold_snoc {A} (xs acc : list A) : fold_left (fun acc x => acc ++ [x]) xs acc = acc ++ xs.
Proof.
  revert acc; induction xs as [|x xs IH]; intros acc; simpl; [by rewrite app_nil_r|].
  by rewrite IH, <- app_assoc.
Qed.
Lemma Forall_nested {A} (P : A -> Prop) n (inner : A -> list Field) xs B :
  Forall P xs -> zlen (message_bytes (map (fun x => bytes_field n (message_bytes (inner x))) xs)) < B ->
  Forall (fun x => P x /\ zlen (message_bytes (inner x)) < B) xs.
Proof.
  intros HP Hlen. rewrite Forall_forall in *. intros x Hx. split; [auto|].
  apply (zlen_nested_lt n _ _ _) with (2 := Hlen).
  apply list_elem_of_In, in_map_iff. exists x. split; [done|]. by apply list_elem_of_In.
Qed.

Lemma head_scalars u start finish mode d :
  wf_text u -> in_u32 start -> in_u32 finish -> in_i32 mode ->
  zlen (message_bytes (config_fields mode)) < 2 ^ 63 ->
  run_body decode_head_field
    [text_field 1 u; varint_field 2 start; varint_field 3 finish;
     bytes_field 5 (message_bytes (config_fields mode))] d =
  Ok (mkDecoding u start finish mode (d_accounts d) (d_result d) (d_compressed d)).
Proof.
  intros Hu Hs He Hm Hc.
  cbn [run_body decode_head_field number wire_type data varint_field bytes_field text_field
       mbind result_bind].
  do 2 (rewrite extract_varint_encoded by auto with mjai; cbn [mbind result_bind]).
  rewrite config_roundtrip by assumption. cbn [mbind result_bind].
  by rewrite extract_text, !as_u32_small.
Qed.
Lemma fold_accounts xs d :
  fold_left (fun d a => d <| d_accounts ::= fun l => l ++ [a] |>) xs d =
    mkDecoding (d_uuid d) (d_start d) (d_end d) (d_mode d) (d_accounts d ++ xs) (d_result d)
      (d_compressed d).
Proof.
  revert d; induction xs as [|a xs IH]; intros d; simpl.
  - rewrite app_nil_r. by destruct d.
  - rewrite IH. simpl. by rewrite <- app_assoc.
Qed.
Lemma head_roundtrip r d :
  wf_record r -> zlen (message_bytes (head_fields r)) < 2 ^ 63 ->
  for_fields (message_bytes (head_fields r)) decode_head_field d =
    Ok (mkDecoding (uuid r) (start_time r) (end_time r) (mode_id r)
          (d_accounts d ++ player_accounts r) (d_result d ++ settlement r) (d_compressed d)).
Proof.
  intros (Hu & Hs & He & Hm & Ha & Hr & _) Hlen.
  pose proof Hlen as Ha'. unfold head_fields in Ha'.
  assert (Hc : zlen (message_bytes (config_fields (mode_id r))) < 2 ^ 63) by nested 3%nat Ha'.
  assert (Hr' : zlen (message_bytes (map (fun p => bytes_field 1 (message_bytes (result_fields p)))
    (settlement r))) < 2 ^ 63) by (refine (zlen_nested_lt 12 _ _ _ _ Ha');
      rewrite !elem_of_app; right; right; apply list_elem_of_here).
  rewrite !message_bytes_app, !zlen_app in Ha'.
  apply (Forall_nested wf_account 11 account_fields _ (2 ^ 63)) in Ha.
  2: { pose proof (zlen_nonneg (message_bytes [bytes_field 12 (message_bytes
         (map (fun p => bytes_field 1 (message_bytes (result_fields p))) (settlement r)))])).
       match goal with H : zlen ?a + (?b + ?c) < _ |- _ => pose proof (zlen_nonneg a) end. lia. }
  pose proof (Forall_nested wf_result 1 result_fields _ _ Hr Hr') as Hrn.
  rewrite for_fields_message; [|unfold head_fields|done].
  2: { rewrite !Forall_app, !Forall_map. split_and!; [wf_fields | | ].
       - apply Forall_forall. auto with mjai.
       - wf_fields. }
  unfold head_fields. rewrite run_body_app, head_scalars by assumption.
  cbn [mbind result_bind]. rewrite run_body_app.
  rewrite (run_body_map _ _ (fun d a => d <| d_accounts ::= fun l => l ++ [a] |>)).
  2: { eapply Forall_impl; [exact Ha|]. intros a [Hwf Hl] d'.
       unfold decode_head_field. cbn [number wire_type data bytes_field].
       by rewrite account_roundtrip. }
  rewrite fold_accounts.
  cbn [run_body decode_head_field number wire_type data bytes_field mbind result_bind].
  rewrite for_fields_message; [|apply Forall_map, Forall_forall; auto with mjai|assumption].
  rewrite (run_body_map _ _ (fun acc p => acc ++ [p])).
  2: { eapply Forall_impl; [exact Hrn|]. intros p [Hwf Hl] acc.
       cbn [number wire_type data bytes_field]. by rewrite result_roundtrip. }
  cbn [mbind result_bind]. by rewrite fold_snoc.
Qed.

Lemma wrapper_cons nm d : exists b l, message_bytes (wrapper_fields nm d) = b :: l.
Proof. rewrite <- encode_fields. unfold encode, encode_varint. cbn. eauto. Qed.
Lemma string_eqb_neq (s t : string) : s <> t -> String.eqb s t = false.
Proof. apply String.eqb_neq. Qed.

Lemma action_roundtrip actions :
  Forall (fun a => wf_action a /\ zlen (message_bytes (action_fields a)) < 2 ^ 63) actions ->
  decode_new_format_actions (map (fun a => message_bytes (action_fields a)) actions) = Ok actions.
Proof.
  induction 1 as [|[nm d passed] actions [(Ht & Hne & Hms) Hlen] _ IH]; [done|].
  cbn [map decode_new_format_actions].
  assert (Hw : zlen (message_bytes (wrapper_fields nm d)) < 2 ^ 63).
  { unfold action_fields in Hlen. cbn [name action_data passed_ms] in *.
    destruct passed; [nested 1%nat Hlen | nested 0%nat Hlen]. }
  destruct (wrapper_cons nm d) as (b & l & Hcons).
  unfold action_fields in *. cbn [name action_data passed_ms] in *.
  destruct passed as [ms|]; cbn [passed_fields app] in *; read_message;
    [pose proof (Hms ms eq_refl); rewrite extract_varint_encoded by auto with mjai|];
    cbn [mbind result_bind]; rewrite Hcons; cbn [mbind result_bind]; rewrite <- Hcons;
    rewrite wrapper_roundtrip by assumption; cbn [mbind result_bind];
    rewrite IH, (string_eqb_neq nm) by done; cbn [mbind result_bind app]; [|done].
  by rewrite as_u32_small.
Qed.

Lemma detail_roundtrip version actions d :
  in_u32 version -> 210715 <= version -> Forall wf_action actions ->
  d = message_bytes (wrapper_fields ".lq.GameDetailRecords" (message_bytes (detail_fields version actions))) ->
  zlen d < 2 ^ 63 ->
  decode_detail_records (Some d) = Ok actions.
Proof.
  intros Hv Hnew Ha -> Hlen. unfold decode_detail_records.
  rewrite wrapper_roundtrip by done. cbn [mbind result_bind].
  assert (Hin : zlen (message_bytes (detail_fields version actions)) < 2 ^ 63)
    by nested 1%nat Hlen.
  rewrite for_fields_message; [|unfold detail_fields; wf_fields|assumption].
  assert (Hacts : zlen (message_bytes (map (fun a => bytes_field 3 (message_bytes (action_fields a)))
    actions)) < 2 ^ 63).
  { unfold detail_fields in Hin. rewrite message_bytes_cons, zlen_app in Hin.
    pose proof (zlen_nonneg (field_bytes (varint_field 2 version))). lia. }
  unfold detail_fields. cbn [run_body number wire_type data varint_field].
  rewrite extract_varint_encoded by auto with mjai. cbn [mbind result_bind].
  rewrite as_u32_small by done.
  rewrite (run_body_map _ _ (fun '(v, raw, acts) a =>
    (v, raw, acts ++ [message_bytes (action_fields a)]))).
  2: { apply Forall_forall. by intros a _ [[? ?] ?]. }
  assert (Hfold : forall acts, fold_left (fun '(v, raw, acts) a =>
      (v, raw, acts ++ [message_bytes (action_fields a)])) actions (version, @nil (list Z), acts) =
      (version, [], acts ++ map (fun a => message_bytes (action_fields a)) actions)).
  { clear. induction actions as [|a actions IH]; intros acts; simpl; [by rewrite app_nil_r|].
    by rewrite IH, <- app_assoc. }
  rewrite Hfold. cbn [mbind result_bind app].
  destruct (Z.ltb_spec version 210715); [lia|]. cbn [andb].
  pose proof (action_roundtrip _ (Forall_nested _ 3 action_fields _ _ Ha Hacts)) as Hact.
  by destruct actions.
Qed.

(** C23: a record in the form the server sends it since version 210715 is read
    back exactly, whatever its players, settlement and actions: nothing is lost,
    reordered or confused between its nested messages. *)
Theorem decode_game_record_roundtrip version r :
  wf_record r -> in_u32 version -> 210715 <= version ->
  zlen (message_bytes (record_fields version r)) < 2 ^ 63 ->
  decode_game_record (message_bytes (record_fields version r)) = Ok r.
Proof.
  intros Hr Hv Hnew Hlen. unfold decode_game_record, decode_record_fields.
  assert (Hhead : zlen (message_bytes (head_fields r)) < 2 ^ 63) by nested 0%nat Hlen.
  assert (Hdetail : zlen (message_bytes (wrapper_fields ".lq.GameDetailRecords"
     (message_bytes (detail_fields version (records r))))) < 2 ^ 63) by nested 1%nat Hlen.
  unfold record_fields in *. read_message.
  rewrite head_roundtrip by assumption. 
  cbn [mbind result_bind set_field d_accounts d_result d_compressed app].
  destruct Hr as (_ & _ & _ & _ & _ & _ & Hact & Hnames & Hsort & Hsort').
  erewrite detail_roundtrip; [|exact Hv|exact Hnew|exact Hact|reflexivity|assumption].
  cbn [mbind result_bind d_uuid d_start d_end d_mode].
  rewrite !sort_by_id by done. rewrite <- Hnames. by destruct r.
Qed.

Definition sample_record : GameRecord :=
  mkRecord "241231-0001" 1735600000 1735601800 12 ["East"; "South"]
    [mkAccount 9 0 "East" 10401 900 20301 (-5); mkAccount 7 1 "South" 10301 0 20301 0]
    [mkPlayerResult 0 45000 30100 0 25; mkPlayerResult 1 (-12000) 19900 0 (-25)]
    [mkAction ".lq.RecordNewRound" [8; 0] (Some 1500); mkAction ".lq.RecordNoTile" [] None].
Lemma decode_game_record_roundtrip_witness :
  decode_game_record (message_bytes (record_fields 210715 sample_record)) = Ok sample_record.
Proof.
  apply decode_game_record_roundtrip; [|unfold in_u32; lia|lia|by vm_compute].
  unfold wf_record, sample_record.
  cbn [uuid start_time end_time mode_id player_accounts settlement records player_names].
  unfold wf_account, wf_result, wf_action, wf_text, in_u32, in_u64, in_i32.
  repeat match goal with
  | |- _ /\ _ => split
  | |- Forall _ (_ :: _) => apply Forall_cons
  | |- Forall _ [] => apply Forall_nil; exact I
  | |- StronglySorted _ _ => constructor
  | |- utf8_valid _ = true => vm_compute; reflexivity
  | |- _ <> "" => discriminate
  | |- forall _, passed_ms _ = _ -> _ => intros ? [=]; subst
  | |- _ => progress cbn
  | |- _ => reflexivity
  | |- _ => lia
  end.
Defined.

(** ** The other encoders *)
Lemma zlen_bytes_of_string s : zlen (bytes_of_string s) = Z.of_nat (String.length s).
Proof.
  unfold zlen, bytes_of_string. rewrite length_map. f_equal.
  induction s as [|a s IH]; simpl; [done|by rewrite IH].
Qed.
Lemma encode_string_field buf n s : encode_string buf n s = buf ++ field_bytes (text_field n s).
Proof.
  unfold encode_string, field_bytes. cbn [number wire_type data text_field bytes_field Z.eqb Pos.eqb].
  rewrite zlen_bytes_of_string. unfold encode_varint. by rewrite <- !app_assoc.
Qed.
Lemma encode_varint_field_field buf n v :
  encode_varint_field buf n v = buf ++ field_bytes (varint_field n v).
Proof.
  unfold encode_varint_field, field_bytes. cbn [number wire_type data varint_field Z.eqb].
  rewrite Z.lor_0_r. unfold encode_varint. by rewrite <- !app_assoc.
Qed.
Lemma encode_bool_field buf n (b : bool) :
  encode_bool buf n b = buf ++ field_bytes (varint_field n (if b then 1 else 0)).
Proof. rewrite <- encode_varint_field_field. by destruct b. Qed.
Lemma encode_message_field buf n inner :
  encode_message buf n inner = buf ++ field_bytes (bytes_field n inner).
Proof.
  unfold encode_message, field_bytes. cbn [number wire_type data bytes_field Z.eqb Pos.eqb].
  unfold encode_varint. by rewrite <- !app_assoc.
Qed.
Create Rewrite HintDb encoders.
#[export] Hint Rewrite encode_string_field encode_varint_field_field encode_bool_field
  encode_message_field : encoders.

(** The fields of a message, in the order the decoder meets them. *)
Definition decode_fields (buf : list Z) : result error (list Field) :=
  for_fields buf (fun field acc => Ok (acc ++ [field])) [].
Lemma decode_fields_message fs : Forall wf_field fs -> zlen (message_bytes fs) < 2 ^ 63 ->
  decode_fields (message_bytes fs) = Ok fs.
Proof.
  intros Hfs Hlen. unfold decode_fields. rewrite for_fields_message by done.
  assert (H : forall acc, run_body (fun field acc => Ok (acc ++ [field])) fs acc = @Ok error _ (acc ++ fs)).
  { clear. induction fs as [|f fs IH]; intros acc; simpl; [by rewrite app_nil_r|].
    by rewrite IH, <- app_assoc. }
  apply H.
Qed.

Definition device_fields (to_lowercase : string -> string) (account : string) : list Field :=
  let p := persona to_lowercase account in
  [text_field 1 "pc"; text_field 2 "pc"; text_field 3 "mac"; varint_field 5 1;
   text_field 6 "Chrome"; text_field 7 "web"; varint_field 10 (viewport_width p);
   varint_field 11 (viewport_height p); text_field 12 (user_agent (chrome p)); varint_field 13 1].
Definition login_fields (to_lowercase : string -> string)
  (account password_hash random_key code_version package_version tag : string) : list Field :=
  [text_field 1 account; text_field 2 password_hash; varint_field 3 0;
   bytes_field 4 (message_bytes (device_fields to_lowercase account)); text_field 5 random_key;
   bytes_field 6 (message_bytes [text_field 1 code_version; text_field 2 package_version]);
   varint_field 7 1]
  ++ map (varint_field 8) [1; 2; 5; 6; 8; 10; 11]
  ++ [varint_field 9 0; text_field 11 ("WebGL_2022-" +:+ code_version); text_field 12 tag].

Lemma fold_varint_fields n vs buf :
  fold_left (fun buf v => encode_varint_field buf n v) vs buf =
    buf ++ message_bytes (map (varint_field n) vs).
Proof.
  revert buf; induction vs as [|v vs IH]; intros buf; simpl; [by rewrite app_nil_r|].
  rewrite IH, encode_varint_field_field, message_bytes_cons. by rewrite <- app_assoc.
Qed.
Lemma persona_bounds low account :
  0 <= viewport_width (persona low account) < 2 ^ 32 /\
  0 <= viewport_height (persona low account) < 2 ^ 32.
Proof.
  unfold persona. set (h := fnv1a _). cbv zeta.
  assert (Hnth : forallb (fun p => (800 <=? fst p) && (fst p <? 3000) && (700 <=? snd p) && (snd p <? 3000))
    MAC_SCREENS = true) by reflexivity.
  destruct (nth (Z.to_nat (Z.shiftr h 8 mod 6)) MAC_SCREENS (0, 0)) as [w k] eqn:E.
  assert (Hin : In (w, k) MAC_SCREENS).
  { rewrite <- E. apply nth_In. pose proof (Z.mod_pos_bound (Z.shiftr h 8) 6). simpl. lia. }
  rewrite forallb_forall in Hnth. specialize (Hnth _ Hin). simpl in Hnth.
  pose proof (Z.mod_pos_bound (Z.shiftr h 16) 40).
  cbn [viewport_width viewport_height]. lia.
Qed.

(** Opens a request into the concatenation of its fields. *)
Ltac open_request :=
  autorewrite with encoders; rewrite ?fold_varint_fields, ?message_bytes_app, ?message_bytes_cons,
    ?message_bytes_nil, ?app_nil_l, ?app_nil_r, <- ?app_assoc.
Lemma device_message low buf account :
  encode_device low buf account =
    buf ++ field_bytes (bytes_field 4 (message_bytes (device_fields low account))).
Proof.
  unfold encode_device, device_fields. cbv zeta. rewrite encode_message_field. f_equal. f_equal. f_equal.
  by open_request.
Qed.
Lemma client_version_message buf resource package :
  encode_client_version buf resource package =
    buf ++ field_bytes (bytes_field 6 (message_bytes [text_field 1 resource; text_field 2 package])).
Proof. unfold encode_client_version. by open_request. Qed.
Lemma login_message low a h k c p t :
  build_login_request low a h k c p t = message_bytes (login_fields low a h k c p t).
Proof.
  unfold build_login_request, login_fields. cbv zeta.
  rewrite device_message, client_version_message. by open_request.
Qed.

Lemma wf_login_fields low a h k c p t : Forall wf_field (login_fields low a h k c p t).
Proof.
  unfold login_fields. rewrite !Forall_app. split_and!; wf_fields.
Qed.
Lemma wf_device_fields low a : Forall wf_field (device_fields low a).
Proof.
  pose proof (persona_bounds low a) as [Hw Hh].
  assert (in_u64 (viewport_width (persona low a))) by (unfold in_u64; lia).
  assert (in_u64 (viewport_height (persona low a))) by (unfold in_u64; lia).
  unfold device_fields. cbv zeta. wf_fields.
Qed.

(** Every request the client builds parses as the message it stands for. The
    login request carries account, password hash, device, key, versions,
    platforms and tag under their field numbers, with the device and the client
    version as nested messages; the fetch, connection and heartbeat requests
    likewise. *)
Theorem requests_parse low account hash key code package tag uuid version route timestamp :
  in_u64 timestamp ->
  zlen (build_login_request low account hash key code package tag) < 2 ^ 63 ->
  zlen (fetch_game_record uuid version) < 2 ^ 63 ->
  zlen (build_request_connection route timestamp) < 2 ^ 63 ->
  decode_fields (build_login_request low account hash key code package tag) =
    Ok (login_fields low account hash key code package tag) /\
  decode_fields (message_bytes (device_fields low account)) = Ok (device_fields low account) /\
  decode_fields (fetch_game_record uuid version) = Ok [text_field 1 uuid; text_field 2 version] /\
  decode_fields (build_request_connection route timestamp) =
    Ok [varint_field 2 1; text_field 3 route; varint_field 4 timestamp; text_field 6 "Web"] /\
  decode_fields build_first_heartbeat =
    Ok [varint_field 1 5000; varint_field 2 0; varint_field 3 11; varint_field 4 5000].
Proof.
  intros Hts Hlogin Hfetch Hconn. rewrite login_message in *.
  assert (fetch_game_record uuid version = message_bytes [text_field 1 uuid; text_field 2 version])
    as Ef by (unfold fetch_game_record; by open_request).
  assert (build_request_connection route timestamp = message_bytes [varint_field 2 1;
    text_field 3 route; varint_field 4 timestamp; text_field 6 "Web"])
    as Ec by (unfold build_request_connection; by open_request).
  rewrite Ef, Ec in *. split_and!.
  - apply decode_fields_message; [apply wf_login_fields|done].
  - apply decode_fields_message; [apply wf_device_fields|]. unfold login_fields in Hlogin.
    nested 3%nat Hlogin.
  - apply decode_fields_message; [wf_fields|done].
  - apply decode_fields_message; [wf_fields|done].
  - by vm_compute.
Qed.
Lemma requests_parse_witness :
  decode_fields (fetch_game_record "241231-1234" "web-0.11") =
    Ok [text_field 1 "241231-1234"; text_field 2 "web-0.11"].
Proof.
  apply (requests_parse (fun s => s) "me" "hash" "key" "0.11" "4.0" "" "241231-1234" "web-0.11" "jp" 7);
    first [by vm_compute | split; by vm_compute].
Defined.

(** ** Varints *)
Lemma varint_loop_width buf value shift pos v n :
  0 <= shift -> varint_loop buf value shift pos = Ok (v, n) -> shift + 7 * (n - pos) <= 70.
Proof.
  revert value shift pos; induction buf as [|byte buf IH]; intros value shift pos Hs; simpl; [done|].
  destruct (Z.leb_spec 64 shift); [done|]. simpl.
  destruct (Z.shiftr u64_max shift <? _); [done|].
  destruct (Z.land byte 128 =? 0); [intros [= _ <-]; lia|]. intros H1. apply IH in H1; lia.
Qed.
Lemma varint_loop_prefix buf value shift pos v n :
  0 <= shift -> varint_loop buf value shift pos = Ok (v, n) ->
  pos < n /\ varint_loop (take (Z.to_nat (n - pos)) buf) value shift pos = Ok (v, n).
Proof.
  revert value shift pos; induction buf as [|byte buf IH]; intros value shift pos Hs; simpl; [done|].
  destruct ((64 <=? shift) || _) eqn:Hguard; [done|].
  destruct (Z.land byte 128 =? 0) eqn:Hlast.
  - intros [= <- <-]. split; [lia|]. replace (Z.to_nat (pos + 1 - pos)) with 1%nat by lia. simpl.
    by rewrite Hguard, Hlast.
  - intros Hrec. apply IH in Hrec as [Hn Hrec]; [|lia]. split; [lia|].
    replace (Z.to_nat (n - pos)) with (S (Z.to_nat (n - (pos + 1)))) by lia. simpl.
    by rewrite Hguard, Hlast.
Qed.

(** Every unsigned 64-bit value is encoded in one to ten bytes, and decoding
    them gives it back together with exactly the number of bytes written,
    whatever follows. *)
Theorem varint_roundtrip v rest :
  in_u64 v ->
  decode_varint (encode_varint [] v ++ rest) = Ok (v, zlen (encode_varint [] v)) /\
  1 <= zlen (encode_varint [] v) <= 10.
Proof.
  intros Hv. split; [by apply decode_varint_encoded|].
  pose proof (decode_varint_encoded v [] Hv) as H. pose proof (zlen_encode_varint v Hv).
  apply varint_loop_width in H; lia.
Qed.
Lemma varint_roundtrip_witness :
  decode_varint (encode_varint [] u64_max ++ [7]) = Ok (u64_max, 10).
Proof.
  destruct (varint_roundtrip u64_max [7]) as [H _];
    [unfold in_u64, u64_max; lia|exact H].
Defined.

(** On any bytes at all, [decode_varint] answers or refuses but never panics;
    an answer is a 64-bit value read from one to ten bytes that lie in the
    buffer, and depends on those bytes only. *)
Theorem decode_varint_safe buf :
  decode_varint buf <> Panic /\
  forall v n, decode_varint buf = Ok (v, n) ->
    in_u64 v /\ 1 <= n <= Z.min 10 (zlen buf) /\
    forall rest, decode_varint (take (Z.to_nat n) buf ++ rest) = Ok (v, n).
Proof.
  split; [apply varint_loop_no_panic|]. intros v n H.
  pose proof (decode_varint_bounds _ _ _ H). pose proof (varint_loop_width _ _ _ _ _ _ (Z.le_refl 0) H).
  split; [unfold in_u64; lia|]. split; [lia|]. intros rest. apply varint_loop_app.
  apply varint_loop_prefix in H as [_ H]; [|done]. by rewrite Z.sub_0_r in H.
Qed.

(** ** When decoding panics *)
Lemma read_payload_panic b w p : 0 <= p <= zlen b -> zlen b < 2 ^ 63 ->
  read_payload b w p = Panic <->
  w = 2 /\ exists len n, decode_varint (slice_from b p) = Ok (len, n) /\ 2 ^ 64 <= p + n + len.
Proof.
  intros Hp Hb.
  assert (Hn : forall v n, decode_varint (slice_from b p) = Ok (v, n) ->
    0 <= v < 2 ^ 64 /\ 0 < n /\ p + n <= zlen b).
  { intros v n H%decode_varint_bounds. rewrite zlen_slice_from in H by lia. lia. }
  pose proof (varint_loop_no_panic (slice_from b p) 0 0 0) as Hnp. fold (decode_varint (slice_from b p)) in Hnp.
  destruct (Z.eq_dec w 2) as [->|Hw].
  - unfold read_payload. destruct (decode_varint _) as [[v n]|e|] eqn:E; [|simpl|done].
    + specialize (Hn v n eq_refl). cbn [mbind result_bind].
      assert (Hmod : as_u64 (p + n + v) = p + n + v /\ p + n + v < 2 ^ 64 \/
                     as_u64 (p + n + v) = p + n + v - 2 ^ 64 /\ 2 ^ 64 <= p + n + v).
      { unfold as_u64, as_unsigned. destruct (Z_lt_le_dec (p + n + v) (2 ^ 64)).
        - left. rewrite Z.mod_small; lia.
        - right. split; [|done]. symmetry. apply (Z.mod_unique_pos _ _ 1); lia. }
      destruct Hmod as [[-> Hlt]|[-> Hge]].
      * split; [|intros (_ & len & m & [= <- <-] & ?); lia].
        destruct (Z.ltb_spec (zlen b) (p + n + v)); [done|]. rewrite slice_Ok by lia. done.
      * split; [eauto|intros _]. destruct (Z.ltb_spec (zlen b) (p + n + v - 2 ^ 64)); [lia|].
        unfold slice. destruct (Z.leb_spec (p + n) (p + n + v - 2 ^ 64)); [lia|done].
    + split; [done|]. by intros (_ & len & m & ? & _).
  - split; [|by intros [? _]]. unfold read_payload.
    destruct w as [|[w|w|]|]; try done.
    + destruct (decode_varint _) as [[v n]|e|] eqn:E; simpl; try done.
      specialize (Hn v n eq_refl). rewrite slice_Ok by lia. done.
    + destruct w as [w|[]|]; try done. destruct (Z.ltb_spec (zlen b) (p + 4)); [done|].
      rewrite slice_Ok by lia. done.
    + destruct w; done.
    + destruct (Z.ltb_spec (zlen b) (p + 8)); [done|]. rewrite slice_Ok by lia. done.
Qed.
(** A length prefix somewhere in the buffer that overflows the position. *)
Definition overflowing_length (b : list Z) : Prop :=
  exists p len n, 0 <= p <= zlen b /\ decode_varint (slice_from b p) = Ok (len, n) /\
    2 ^ 64 <= p + n + len.
Lemma next_panic it : in_buffer it -> zlen (buf it) < 2 ^ 63 ->
  next it = Some Panic -> overflowing_length (buf it).
Proof.
  intros Hin Hb. unfold next. destruct (zlen (buf it) <=? pos it); [done|]. intros [= H].
  pose proof (varint_loop_no_panic (slice_from (buf it) (pos it)) 0 0 0) as Hnp.
  destruct (decode_varint _) as [[tag n]|e|] eqn:E; [|done|done]. cbn [mbind result_bind] in H.
  apply decode_varint_bounds in E. unfold in_buffer in Hin. rewrite zlen_slice_from in E by done.
  assert (Hp : 0 <= pos it + n <= zlen (buf it)) by lia.
  destruct (read_payload _ _ _) as [[d q]|e|] eqn:R; cbn in H; try done.
  apply read_payload_panic in R as (_ & len & m & Hdec & Hlen); [|done|done].
  exists (pos it + n), len, m. done.
Qed.
Lemma for_fields_fuel_panic {S} (body : Field -> S -> result error S) k it s :
  in_buffer it -> zlen (buf it) < 2 ^ 63 -> zlen (buf it) - pos it < Z.of_nat k ->
  for_fields_fuel k body it s = Panic ->
  overflowing_length (buf it) \/
  exists f s', zlen (data f) <= zlen (buf it) /\ body f s' = Panic.
Proof.
  revert it s; induction k as [|k IH]; intros it s Hin Hb Hk.
  { unfold in_buffer in Hin. lia. }
  cbn [for_fields_fuel]. destruct (next it) as [[[f it']|e|]|] eqn:E; cbn; try done.
  2: { intros _. left. by apply next_panic. }
  apply next_progress in E as (Hin' & Hbuf & Hpos & Hdata); [|done].
  unfold in_buffer in *.
  destruct (body f s) as [s'|e|] eqn:Eb; [|done|]; intros H.
  - rewrite <- Hbuf in *. apply (IH it' s'); [done|lia|lia|done].
  - right. exists f, s. split; [rewrite Hbuf in *; lia|done].
Qed.

(** C40: the field loop every decoder is built on terminates on every buffer: it
    panics only where its body does, or on a length prefix that overflows the
    position. Otherwise it obeys the equation of the source's [for] loop. *)
Theorem for_fields_total {S} (b : list Z) (body : Field -> S -> result error S) (s : S) :
  zlen b < 2 ^ 63 ->
  (for_fields b body s = Panic -> overflowing_length b \/
     exists f s', zlen (data f) <= zlen b /\ body f s' = Panic) /\
  (forall it, in_buffer it -> buf it = b ->
     for_fields_fuel (Datatypes.S (length b)) body it s =
     match next it with
     | None => Ok s
     | Some step => '(f, it') ← step; s' ← body f s;
                    for_fields_fuel (Datatypes.S (length b)) body it' s'
     end).
Proof.
  intros Hb. split.
  - intros H. apply (for_fields_fuel_panic body) in H; [done|apply new_in_buffer|done|].
    simpl. unfold zlen. lia.
  - intros it Hin Hbuf. apply for_fields_step; [done|]. unfold in_buffer, zlen in *.
    rewrite Hbuf in *. lia.
Qed.
Lemma for_fields_total_witness :
  for_fields [8; 5; 26; 1; 65] (fun f acc => Ok (acc ++ [number f])) [] = Ok [1; 3].
Proof.
  destruct (for_fields_total [8; 5; 26; 1; 65] (fun f acc => @Ok error _ (acc ++ [number f])) [])
    as [_ H]; [by vm_compute|].
  unfold for_fields. rewrite (H (new [8; 5; 26; 1; 65])); [|by vm_compute|done].
  by vm_compute.
Defined.

(** A record whose first field announces a length that carries the position
    past 2^64 panics the decoder; the guard against buffer overflow does not
    refuse it. *)
Theorem decode_game_record_overflow n len rest :
  in_u32 n -> in_u64 len ->
  let prefix := encode_varint [] (Z.lor (Z.shiftl n 3) 2) ++ encode_varint [] len in
  zlen (prefix ++ rest) < 2 ^ 63 -> 2 ^ 64 <= zlen prefix + len ->
  decode_game_record (prefix ++ rest) = Panic.
Proof.
  intros Hn Hlen prefix Hb Hov. subst prefix.
  destruct (tag_split n 2) as [T1 T2]; [apply Hn|lia|].
  pose proof (wf_field_tag (bytes_field n []) (wf_bytes_field n [] Hn)) as Ht.
  cbn [number wire_type bytes_field] in Ht.
  set (tag := Z.lor _ _) in *. rewrite <- app_assoc in *.
  assert (Hnext : next (new (encode_varint [] tag ++ encode_varint [] len ++ rest)) = Some Panic).
  { pose proof (zlen_encode_varint _ Ht). pose proof (zlen_encode_varint _ Hlen).
    pose proof (zlen_nonneg rest). unfold next, new. cbn [buf pos].
    zcase; [autorewrite with zlen in *; lia|]. f_equal.
    rewrite (decode_varint_encoded _ _ Ht : decode_varint (slice_from _ 0) = _).
    cbn [mbind result_bind]. rewrite T1, T2. change (as_u8 2) with 2.
    assert (read_payload (encode_varint [] tag ++ encode_varint [] len ++ rest) 2
      (0 + zlen (encode_varint [] tag)) = Panic) as ->; [|done].
    apply read_payload_panic; [autorewrite with zlen; lia|done|]. split; [done|].
    exists len, (zlen (encode_varint [] len)). autorewrite with zlen in Hov.
    rewrite Z.add_0_l, slice_from_app, decode_varint_encoded by done. split; [done|lia]. }
  unfold decode_game_record, decode_record_fields, for_fields. cbn [for_fields_fuel]. by rewrite Hnext.
Qed.
Lemma decode_game_record_overflow_witness :
  decode_game_record [26; 255; 255; 255; 255; 255; 255; 255; 255; 255; 1] = Panic.
Proof.
  apply (decode_game_record_overflow 3 u64_max []);
    [split; by vm_compute | unfold in_u64, u64_max; lia | by vm_compute | by vm_compute].
Defined.

(** ** Wrappers *)
Lemma nth_app_head (pre : list Z) b l : nth (Z.to_nat (zlen pre)) (pre ++ b :: l) 0 = b.
Proof. unfold zlen. rewrite Nat2Z.id, app_nth2, Nat.sub_diag by lia. done. Qed.
(** One length-delimited field, as the decoder of envelopes reads it. *)
Lemma decode_fuel_field fuel pre b d rest nm dat :
  Z.land b 7 = 2 -> zlen (pre ++ b :: encode_varint [] (zlen d) ++ d ++ rest) < 2 ^ 63 ->
  decode_fuel (S fuel) (pre ++ b :: encode_varint [] (zlen d) ++ d ++ rest) (zlen pre) nm dat =
  let '(nm, dat) := match Z.shiftr b 3 with
                    | 1 => (from_utf8_lossy d, dat) | 2 => (nm, d) | _ => (nm, dat) end in
  decode_fuel fuel (pre ++ b :: encode_varint [] (zlen d) ++ d ++ rest)
    (zlen (pre ++ b :: encode_varint [] (zlen d) ++ d)) nm dat.
Proof.
  intros Hb Hlen. set (buf := pre ++ _) in *. cbn [decode_fuel].
  assert (Hd : in_u64 (zlen d)).
  { unfold buf in Hlen. autorewrite with zlen in Hlen. pose proof (zlen_nonneg pre).
    pose proof (zlen_nonneg rest). pose proof (zlen_nonneg (encode_varint [] (zlen d))).
    pose proof (zlen_nonneg d). unfold in_u64. lia. }
  pose proof (zlen_nonneg rest). pose proof (zlen_nonneg d). pose proof (zlen_nonneg pre).
  pose proof (zlen_encode_varint _ Hd).
  assert (Hbuf : zlen buf = zlen pre + 1 + zlen (encode_varint [] (zlen d)) + zlen d + zlen rest)
    by (unfold buf; autorewrite with zlen; lia).
  destruct (Z.ltb_spec (zlen pre) (zlen buf)); [|lia].
  assert (nth (Z.to_nat (zlen pre)) buf 0 = b) as -> by apply nth_app_head.
  rewrite Hb. cbn [Z.eqb negb Pos.eqb].
  assert (Hs : slice_from buf (zlen pre + 1) = encode_varint [] (zlen d) ++ d ++ rest).
  { unfold buf. change (b :: encode_varint [] (zlen d) ++ d ++ rest)
      with ([b] ++ encode_varint [] (zlen d) ++ d ++ rest).
    rewrite app_assoc. change 1 with (zlen [b]). rewrite <- zlen_app. apply slice_from_app. }
  rewrite Hs, decode_varint_encoded by done. cbn [mbind result_bind].
  unfold as_u64. rewrite as_unsigned_small by lia.
  destruct (Z.ltb_spec (zlen buf) (zlen pre + 1 + zlen (encode_varint [] (zlen d)) + zlen d)); [lia|].
  assert (Hsl : slice buf (zlen pre + 1 + zlen (encode_varint [] (zlen d)))
      (zlen pre + 1 + zlen (encode_varint [] (zlen d)) + zlen d) = Ok d).
  { replace (zlen pre + 1 + zlen (encode_varint [] (zlen d)))
      with (zlen (pre ++ b :: encode_varint [] (zlen d))) by (autorewrite with zlen; lia).
    replace buf with ((pre ++ b :: encode_varint [] (zlen d)) ++ d ++ rest)
      by (unfold buf; by rewrite <- app_assoc). apply slice_app. }
  rewrite Hsl. cbn [mbind result_bind].
  replace (zlen pre + 1 + zlen (encode_varint [] (zlen d)) + zlen d)
    with (zlen (pre ++ b :: encode_varint [] (zlen d) ++ d)) by (autorewrite with zlen; lia).
  destruct (Z.shiftr b 3) as [|[?|[]|]|]; done.
Qed.

(** An envelope written by [wrapper::encode] is read back, name and payload,
    by both decoders of the program: [wrapper::decode] of the RPC channel and
    [decode_wrapper] of the record decoder. *)
Theorem wrapper_encode_decode name data :
  wf_text name -> zlen (encode name data) < 2 ^ 63 ->
  Rpc.decode (encode name data) = Ok (name, data) /\
  decode_wrapper (encode name data) = Ok (name, data).
Proof.
  intros Hname Hlen. split.
  2: { rewrite encode_fields in *. by apply wrapper_roundtrip. }
  assert (Hbytes : encode name data = [] ++ 10 :: encode_varint [] (zlen (bytes_of_string name)) ++
    bytes_of_string name ++ 18 :: encode_varint [] (zlen data) ++ data).
  { unfold encode. rewrite zlen_bytes_of_string. unfold encode_varint. by rewrite <- !app_assoc. }
  unfold Rpc.decode. rewrite Hbytes in *. set (fuel := length _).
  assert (Hfuel : (2 <= fuel)%nat).
  { unfold fuel. rewrite app_nil_l. simpl. rewrite !length_app. simpl. lia. }
  destruct fuel as [|[|fuel]]; [lia..|]. change 0 with (zlen (@nil Z)) at 1.
  rewrite decode_fuel_field by done. change (Z.shiftr 10 3) with 1. cbv iota beta.
  fold (extract_string (bytes_of_string name)). rewrite extract_text by done.
  clear Hfuel. set (pre := [] ++ 10 :: _ ++ bytes_of_string name).
  replace ([] ++ 10 :: _) with (pre ++ 18 :: encode_varint [] (zlen data) ++ data ++ [])
    in * by (unfold pre; rewrite app_nil_r; by rewrite <- !app_assoc; simpl; rewrite <- !app_assoc).
  rewrite decode_fuel_field by done. change (Z.shiftr 18 3) with 2. cbv iota beta.
  rewrite app_nil_r. cbn [decode_fuel]. by rewrite Z.ltb_irrefl.
Qed.
Lemma wrapper_encode_decode_witness :
  decode_wrapper (encode ".lq.RecordNewRound" [8; 1]) = Ok (".lq.RecordNewRound", [8; 1]).
Proof. apply (wrapper_encode_decode ".lq.RecordNewRound" [8; 1]); by vm_compute. Defined.

(** ** Packed integers *)
Definition packed_bytes (xs : list Z) : list Z := concat (map (fun x => encode_varint [] (as_u64 x)) xs).
Lemma packed_fuel_bytes xs pre fuel :
  Forall in_i32 xs -> zlen (packed_bytes xs) < Z.of_nat fuel ->
  packed_fuel fuel (pre ++ packed_bytes xs) (zlen pre) = Ok xs.
Proof.
  intros Hxs. revert pre fuel; induction Hxs as [|x xs Hx _ IH]; intros pre [|fuel] Hfuel;
    try (match type of Hfuel with zlen ?l < _ => pose proof (zlen_nonneg l) end; lia);
    cbn [packed_fuel].
  - change (packed_bytes []) with (@nil Z). by rewrite app_nil_r, Z.ltb_irrefl.
  - unfold packed_bytes in *. cbn [map concat] in *. fold (packed_bytes xs) in *.
    set (enc := encode_varint [] (as_u64 x)) in *.
    assert (0 < zlen enc) by (apply zlen_encode_varint, as_u64_range).
    autorewrite with zlen in Hfuel. pose proof (zlen_nonneg (packed_bytes xs)).
    destruct (Z.ltb_spec (zlen pre) (zlen (pre ++ enc ++ packed_bytes xs)));
      [|autorewrite with zlen in *; lia].
    rewrite slice_from_app.
    rewrite (decode_varint_encoded _ _ (as_u64_range x) : decode_varint (enc ++ _) = _).
    cbn [mbind result_bind]. rewrite app_assoc, <- zlen_app, IH by lia. cbn [mbind result_bind]. by rewrite as_i32_as_u64.
Qed.
(** A packed list of signed 32-bit integers, negative ones sign-extended to
    64 bits as protobuf writes them, is read back exactly. *)
Theorem decode_packed_roundtrip xs :
  Forall in_i32 xs -> decode_packed_varints (packed_bytes xs) = Ok xs.
Proof.
  intros Hxs. unfold decode_packed_varints. apply (packed_fuel_bytes xs []); [done|].
  unfold zlen. lia.
Qed.
Lemma decode_packed_roundtrip_witness :
  decode_packed_varints (packed_bytes [25000; -12000; 0]) = Ok [25000; -12000; 0].
Proof. apply (decode_packed_roundtrip [25000; -12000; 0]). repeat constructor; by vm_compute. Defined.

(** ** The order of players *)
Lemma bind_Ok {E A B} (m : result E A) (k : A -> result E B) b :
  mbind k m = Ok b -> exists a, m = Ok a /\ k a = Ok b.
Proof. destruct m; simpl; intros; naive_solver. Qed.

(** An example response: two players listed against the seat order. *)
Definition sample_response : list Z :=
  message_bytes [bytes_field 3 (message_bytes
    [bytes_field 11 (message_bytes (account_fields (mkAccount 7 1 "South" 10301 0 20301 0)));
     bytes_field 11 (message_bytes (account_fields (mkAccount 9 0 "East" 10401 900 20301 0)))])].
(** Whatever order the server lists them in, a decoded record has its
    players and its settlement in seat order, and the names in the order of the
    players, so a seat number indexes all three the same way. Players that share
    a seat keep the order of the record. *)
Theorem decode_game_record_order raw r :
  decode_game_record raw = Ok r ->
  StronglySorted (fun a b => (seat a <=? seat b) = true) (player_accounts r) /\
  StronglySorted (fun a b => (result_seat a <=? result_seat b) = true) (settlement r) /\
  player_names r = map nickname (player_accounts r) /\
  exists d, decode_record_fields raw = Ok d /\
    player_accounts r ≡ₚ d_accounts d /\ settlement r ≡ₚ d_result d /\
    forall s, List.filter (fun a => seat a =? s) (player_accounts r) =
              List.filter (fun a => seat a =? s) (d_accounts d).
Proof.
  unfold decode_game_record. intros (d & Hd & (recs & _ & [= <-])%bind_Ok)%bind_Ok.
  cbn [player_accounts settlement player_names]. split_and!; [| |done|].
  - apply (sort_by_sorted (fun a b => seat a <=? seat b)); intros; lia.
  - apply (sort_by_sorted (fun a b => result_seat a <=? result_seat b)); intros; lia.
  - exists d. split_and!; [done|apply sort_by_perm..|].
    intros s. apply sort_by_filter. lia.
Qed.
Lemma decode_game_record_order_witness :
  StronglySorted (fun a b => (seat a <=? seat b) = true)
    (match decode_game_record sample_response with Ok r => player_accounts r | _ => [] end).
Proof.
  destruct (decode_game_record sample_response) as [r| |] eqn:E; [|by vm_compute in E..].
  apply (decode_game_record_order _ _ E).
Defined.
