(* ===== verification/Events.v ===== *)
(** The [Record*] event decoders: [src/src/majsoul/events.rs]. Each function is
    the loop of the source over the fields of the message, with the [let mut]
    variables as the record being built. *)
From S2P Require Import Prelude Text Tiles Proto.
#[local] Open Scope string_scope.
#[local] Open Scope list_scope.
#[local] Open Scope Z_scope.

Module Events.
Import Proto.

(** ** Data *)
Record NewRound := mkNewRound {
  chang : Z; ju : Z; ben : Z; liqibang : Z;
  dora_marker : string;
  nr_doras : list string;
  nr_scores : list Z;
  nr_tiles : list (list string)
}.
Record DealTile := mkDealTile { dt_seat : Z; dt_tile : string; dt_doras : list string }.
Record DiscardTile := mkDiscardTile {
  ds_seat : Z; ds_tile : string; is_liqi : bool; moqie : bool; is_wliqi : bool;
  ds_doras : list string
}.
Inductive ChiPengGangType := Chi | Pon | Daiminkan.
Record ChiPengGang := mkChiPengGang {
  cpg_seat : Z; call_type : ChiPengGangType; cpg_tiles : list string; froms : list Z
}.
Inductive AnGangAddGangType := Kakan | Ankan.
Record AnGangAddGang := mkAnGangAddGang {
  ag_seat : Z; gang_type : AnGangAddGangType; ag_tiles : string; ag_doras : list string
}.
Record FanInfo := mkFanInfo { fan_id : Z; fan_name : string; fan_val : Z }.
Record Meld := mkMeld { meld_kind : string; meld_tiles : list string }.
Record HuleInfo := mkHuleInfo {
  hi_seat : Z; zimo : bool; hi_hand : list string; melds : list Meld; hu_tile : string;
  fu : Z; point_rong : Z; point_zimo_qin : Z; point_zimo_xian : Z; han : Z;
  yiman : bool; hi_riichi : bool; hi_doras : list string; ura_doras : list string;
  yakus : list FanInfo
}.
Record Hule := mkHule {
  hules : list HuleInfo; h_delta_scores : list Z; h_scores : list Z; h_doras : list string
}.
Record NoTile := mkNoTile {
  nt_scores : list Z; nt_delta_scores : list Z; tenpai : list bool;
  liujumanguan : bool; tenpai_hands : list (list string)
}.
Record LiuJu := mkLiuJu { liuju_type : Z; lj_seat : option Z; lj_tiles : list string }.
Record BaBei := mkBaBei { bb_seat : Z; bb_moqie : bool; bb_doras : list string }.
Inductive GameEvent :=
| ENewRound (nr : NewRound)
| EDealTile (dt : DealTile)
| EDiscardTile (dt : DiscardTile)
| EChiPengGang (cpg : ChiPengGang)
| EAnGangAddGang (ag : AnGangAddGang)
| EHule (h : Hule)
| ENoTile (nt : NoTile)
| ELiuJu (lj : LiuJu)
| EBaBei (bb : BaBei).

#[export] Instance NewRound_settable : Settable NewRound := fun r =>
  mkNewRound (chang r) (ju r) (ben r) (liqibang r) (dora_marker r) (nr_doras r) (nr_scores r)
    (nr_tiles r).
#[export] Instance DealTile_settable : Settable DealTile := fun r =>
  mkDealTile (dt_seat r) (dt_tile r) (dt_doras r).
#[export] Instance DiscardTile_settable : Settable DiscardTile := fun r =>
  mkDiscardTile (ds_seat r) (ds_tile r) (is_liqi r) (moqie r) (is_wliqi r) (ds_doras r).
#[export] Instance ChiPengGang_settable : Settable ChiPengGang := fun r =>
  mkChiPengGang (cpg_seat r) (call_type r) (cpg_tiles r) (froms r).
#[export] Instance AnGangAddGang_settable : Settable AnGangAddGang := fun r =>
  mkAnGangAddGang (ag_seat r) (gang_type r) (ag_tiles r) (ag_doras r).
#[export] Instance FanInfo_settable : Settable FanInfo := fun r =>
  mkFanInfo (fan_id r) (fan_name r) (fan_val r).
#[export] Instance HuleInfo_settable : Settable HuleInfo := fun r =>
  mkHuleInfo (hi_seat r) (zimo r) (hi_hand r) (melds r) (hu_tile r) (fu r) (point_rong r)
    (point_zimo_qin r) (point_zimo_xian r) (han r) (yiman r) (hi_riichi r) (hi_doras r)
    (ura_doras r) (yakus r).
#[export] Instance Hule_settable : Settable Hule := fun r =>
  mkHule (hules r) (h_delta_scores r) (h_scores r) (h_doras r).
#[export] Instance LiuJu_settable : Settable LiuJu := fun r =>
  mkLiuJu (liuju_type r) (lj_seat r) (lj_tiles r).
#[export] Instance BaBei_settable : Settable BaBei := fun r =>
  mkBaBei (bb_seat r) (bb_moqie r) (bb_doras r).

(** ** Shared readers *)
Definition tile_of (data : list Z) : result error string :=
  Tiles.tile_str_to_mjai (extract_string data).
Definition flag_of (data : list Z) : result error bool :=
  v ← extract_varint data; Ok (negb (v =? 0)).
Definition u32_of (data : list Z) : result error Z := v ← extract_varint data; Ok (as_u32 v).
Definition i32_of (data : list Z) : result error Z := v ← extract_varint data; Ok (as_i32 v).
Definition push {A} (x : A) (l : list A) : list A := l ++ [x].

(** ** Decoders *)
Definition new_round_field (field : Field) (r : NewRound) : result error NewRound :=
  let seat_tiles i := t ← tile_of (data field); Ok (r <| nr_tiles ::= alter (push t) i |>) in
  match number field, wire_type field with
  | 1, 0 => v ← u32_of (data field); Ok (r <| chang := v |>)
  | 2, 0 => v ← u32_of (data field); Ok (r <| ju := v |>)
  | 3, 0 => v ← u32_of (data field); Ok (r <| ben := v |>)
  | 5, 2 => l ← decode_packed_varints (data field); Ok (r <| nr_scores ::= fun s => s ++ l |>)
  | 5, 0 => v ← i32_of (data field); Ok (r <| nr_scores ::= push v |>)
  | 6, 0 => v ← u32_of (data field); Ok (r <| liqibang := v |>)
  | 7, 2 => seat_tiles 0%nat
  | 8, 2 => seat_tiles 1%nat
  | 9, 2 => seat_tiles 2%nat
  | 10, 2 => seat_tiles 3%nat
  | 16, 2 => t ← tile_of (data field); Ok (r <| nr_doras ::= push t |>)
  | _, _ => Ok r
  end.
Definition parse_new_round (data : list Z) : result error NewRound :=
  r ← for_fields data new_round_field (mkNewRound 0 0 0 0 "" [] [] [[]; []; []; []]);
  Ok (r <| dora_marker := default "" (head (nr_doras r)) |>).

Definition deal_tile_field (field : Field) (r : DealTile) : result error DealTile :=
  match number field, wire_type field with
  | 1, 0 => v ← u32_of (data field); Ok (r <| dt_seat := v |>)
  | 2, 2 => t ← tile_of (data field); Ok (r <| dt_tile := t |>)
  | 6, 2 => t ← tile_of (data field); Ok (r <| dt_doras ::= push t |>)
  | _, _ => Ok r
  end.
Definition parse_deal_tile (data : list Z) : result error DealTile :=
  for_fields data deal_tile_field (mkDealTile 0 "" []).

Definition discard_tile_field (field : Field) (r : DiscardTile) : result error DiscardTile :=
  match number field, wire_type field with
  | 1, 0 => v ← u32_of (data field); Ok (r <| ds_seat := v |>)
  | 2, 2 => t ← tile_of (data field); Ok (r <| ds_tile := t |>)
  | 3, 0 => b ← flag_of (data field); Ok (r <| is_liqi := b |>)
  | 5, 0 => b ← flag_of (data field); Ok (r <| moqie := b |>)
  | 8, 2 => t ← tile_of (data field); Ok (r <| ds_doras ::= push t |>)
  | 9, 0 => b ← flag_of (data field); Ok (r <| is_wliqi := b |>)
  | _, _ => Ok r
  end.
Definition parse_discard_tile (data : list Z) : result error DiscardTile :=
  for_fields data discard_tile_field (mkDiscardTile 0 "" false false false []).

Definition chi_peng_gang_field (field : Field) (r : ChiPengGang) : result error ChiPengGang :=
  match number field, wire_type field with
  | 1, 0 => v ← u32_of (data field); Ok (r <| cpg_seat := v |>)
  | 2, 0 =>
    t ← u32_of (data field);
    Ok (r <| call_type := match t with 0 => Chi | 1 => Pon | 2 => Daiminkan | _ => Chi end |>)
  | 3, 2 => t ← tile_of (data field); Ok (r <| cpg_tiles ::= push t |>)
  | 4, 2 =>
    l ← decode_packed_varints (data field);
    Ok (r <| froms ::= fun s => s ++ map as_u32 l |>)
  | 4, 0 => v ← u32_of (data field); Ok (r <| froms ::= push v |>)
  | _, _ => Ok r
  end.
Definition parse_chi_peng_gang (data : list Z) : result error ChiPengGang :=
  for_fields data chi_peng_gang_field (mkChiPengGang 0 Chi [] []).

Definition an_gang_add_gang_field (field : Field) (r : AnGangAddGang)
  : result error AnGangAddGang :=
  match number field, wire_type field with
  | 1, 0 => v ← u32_of (data field); Ok (r <| ag_seat := v |>)
  | 2, 0 =>
    t ← u32_of (data field);
    Ok (r <| gang_type := match t with 2 => Kakan | 3 => Ankan | _ => Ankan end |>)
  | 3, 2 => t ← tile_of (data field); Ok (r <| ag_tiles := t |>)
  | 6, 2 => t ← tile_of (data field); Ok (r <| ag_doras ::= push t |>)
  | _, _ => Ok r
  end.
Definition parse_an_gang_add_gang (data : list Z) : result error AnGangAddGang :=
  for_fields data an_gang_add_gang_field (mkAnGangAddGang 0 Ankan "" []).

(** [kezi(1z,1z,1z)]. *)
Definition parse_meld (value : string) : result error Meld :=
  '(kind, rest) ← context_opt ("meld " +:+ value +:+ " has no opening bracket")
                    (split_once "("%char value);
  tiles ← context_opt ("meld " +:+ value +:+ " has no closing bracket") (strip_suffix ")"%char rest);
  tiles ← mapM Tiles.tile_str_to_mjai (split_on ","%char tiles);
  Ok (mkMeld kind tiles).

Definition parse_fan_info (data : list Z) : result error FanInfo :=
  for_fields data (fun field fan =>
    match number field, wire_type field with
    | 1, 2 => Ok (fan <| fan_name := extract_string (Proto.data field) |>)
    | 2, 0 => v ← u32_of (Proto.data field); Ok (fan <| fan_val := v |>)
    | 3, 0 => v ← u32_of (Proto.data field); Ok (fan <| fan_id := v |>)
    | _, _ => Ok fan
    end) (mkFanInfo 0 "" 0).

Definition hule_info_field (field : Field) (r : HuleInfo) : result error HuleInfo :=
  match number field, wire_type field with
  | 1, 2 => t ← tile_of (data field); Ok (r <| hi_hand ::= push t |>)
  | 2, 2 => m ← parse_meld (extract_string (data field)); Ok (r <| melds ::= push m |>)
  | 3, 2 => t ← tile_of (data field); Ok (r <| hu_tile := t |>)
  | 4, 0 => v ← u32_of (data field); Ok (r <| hi_seat := v |>)
  | 5, 0 => b ← flag_of (data field); Ok (r <| zimo := b |>)
  | 7, 0 => b ← flag_of (data field); Ok (r <| hi_riichi := b |>)
  | 8, 2 => t ← tile_of (data field); Ok (r <| hi_doras ::= push t |>)
  | 9, 2 => t ← tile_of (data field); Ok (r <| ura_doras ::= push t |>)
  | 10, 0 => b ← flag_of (data field); Ok (r <| yiman := b |>)
  | 11, 0 => v ← u32_of (data field); Ok (r <| han := v |>)
  | 12, 2 => f ← parse_fan_info (data field); Ok (r <| yakus ::= push f |>)
  | 13, 0 => v ← u32_of (data field); Ok (r <| fu := v |>)
  | 15, 0 => v ← i32_of (data field); Ok (r <| point_rong := v |>)
  | 16, 0 => v ← i32_of (data field); Ok (r <| point_zimo_qin := v |>)
  | 17, 0 => v ← i32_of (data field); Ok (r <| point_zimo_xian := v |>)
  | _, _ => Ok r
  end.
Definition parse_hule_info (data : list Z) : result error HuleInfo :=
  for_fields data hule_info_field
    (mkHuleInfo 0 false [] [] "" 0 0 0 0 0 false false [] [] []).

Definition hule_field (field : Field) (r : Hule) : result error Hule :=
  match number field, wire_type field with
  | 1, 2 => h ← parse_hule_info (data field); Ok (r <| hules ::= push h |>)
  | 3, 2 => l ← decode_packed_varints (data field);
            Ok (r <| h_delta_scores ::= fun s => s ++ l |>)
  | 3, 0 => v ← i32_of (data field); Ok (r <| h_delta_scores ::= push v |>)
  | 5, 2 => l ← decode_packed_varints (data field); Ok (r <| h_scores ::= fun s => s ++ l |>)
  | 5, 0 => v ← i32_of (data field); Ok (r <| h_scores ::= push v |>)
  | 7, 2 => t ← tile_of (data field); Ok (r <| h_doras ::= push t |>)
  | _, _ => Ok r
  end.
Definition parse_hule (data : list Z) : result error Hule :=
  for_fields data hule_field (mkHule [] [] [] []).

(** [*total += one] over a zip: a release build wraps. *)
Fixpoint zip_add (totals ones : list Z) : list Z :=
  match totals, ones with
  | t :: totals, o :: ones => as_i32 (t + o) :: zip_add totals ones
  | totals, _ => totals
  end.
(** Adds one payment: [delta_scores] is grown to its length first. *)
Definition add_payment (totals delta : list Z) : list Z :=
  let totals := if Nat.ltb (length totals) (length delta)
                then totals ++ replicate (length delta - length totals) 0 else totals in
  zip_add totals delta.
(** [old_scores.zip(delta_scores.chain(repeat(0)))], summed. *)
Fixpoint zip_scores (old delta : list Z) : list Z :=
  match old, delta with
  | [], _ => []
  | o :: old, [] => as_i32 (o + 0) :: zip_scores old []
  | o :: old, d :: delta => as_i32 (o + d) :: zip_scores old delta
  end.

Record NoTileState := mkNoTileState {
  old_scores : list Z; delta_scores : list Z; s_tenpai : list bool;
  s_hands : list (list string); s_liujumanguan : bool
}.
#[export] Instance NoTileState_settable : Settable NoTileState := fun r =>
  mkNoTileState (old_scores r) (delta_scores r) (s_tenpai r) (s_hands r) (s_liujumanguan r).

(** [NoTilePlayerInfo]: whether the seat waits, and the hand it shows. *)
Definition no_tile_player (data : list Z) : result error (bool * list string) :=
  for_fields data (fun inner '(seat_tenpai, hand) =>
    match number inner, wire_type inner with
    | 3, 0 => b ← flag_of (Proto.data inner); Ok (b, hand)
    | 4, 2 => t ← tile_of (Proto.data inner); Ok (seat_tenpai, push t hand)
    | _, _ => Ok (seat_tenpai, hand)
    end) (false, []).
(** [NoTileScoreInfo]: the two arrays over seats of one payment. *)
Definition no_tile_payment (data : list Z) : result error (list Z * list Z) :=
  for_fields data (fun inner '(old, delta) =>
    match number inner, wire_type inner with
    | 2, 2 => l ← decode_packed_varints (Proto.data inner); Ok (old ++ l, delta)
    | 2, 0 => v ← i32_of (Proto.data inner); Ok (push v old, delta)
    | 3, 2 => l ← decode_packed_varints (Proto.data inner); Ok (old, delta ++ l)
    | 3, 0 => v ← i32_of (Proto.data inner); Ok (old, push v delta)
    | _, _ => Ok (old, delta)
    end) ([], []).
Definition no_tile_field (field : Field) (s : NoTileState) : result error NoTileState :=
  match number field, wire_type field with
  | 1, 0 => b ← flag_of (data field); Ok (s <| s_liujumanguan := b |>)
  | 2, 2 =>
    '(b, hand) ← no_tile_player (data field);
    Ok (s <| s_tenpai ::= push b |> <| s_hands ::= push hand |>)
  | 3, 2 =>
    '(old, delta) ← no_tile_payment (data field);
    Ok (s <| old_scores ::= fun o => match o with [] => old | _ => o end |>
          <| delta_scores ::= fun t => add_payment t delta |>)
  | _, _ => Ok s
  end.
Definition parse_no_tile (data : list Z) : result error NoTile :=
  s ← for_fields data no_tile_field (mkNoTileState [] [] [] [] false);
  Ok (mkNoTile (zip_scores (old_scores s) (delta_scores s)) (delta_scores s) (s_tenpai s)
        (s_liujumanguan s) (s_hands s)).

Definition parse_liu_ju (data : list Z) : result error LiuJu :=
  for_fields data (fun field r =>
    match number field, wire_type field with
    | 1, 0 => v ← u32_of (Proto.data field); Ok (r <| liuju_type := v |>)
    | 3, 0 => v ← u32_of (Proto.data field); Ok (r <| lj_seat := Some v |>)
    | 4, 2 => t ← tile_of (Proto.data field); Ok (r <| lj_tiles ::= push t |>)
    | _, _ => Ok r
    end) (mkLiuJu 0 None []).

Definition parse_babei (data : list Z) : result error BaBei :=
  for_fields data (fun field r =>
    match number field, wire_type field with
    | 1, 0 => v ← u32_of (Proto.data field); Ok (r <| bb_seat := v |>)
    | 6, 2 => t ← tile_of (Proto.data field); Ok (r <| bb_doras ::= push t |>)
    | 8, 0 => b ← flag_of (Proto.data field); Ok (r <| bb_moqie := b |>)
    | _, _ => Ok r
    end) (mkBaBei 0 false []).

Definition parse_record_action (name : string) (data : list Z)
  : result error (option GameEvent) :=
  if String.eqb name ".lq.RecordNewRound" then
    e ← parse_new_round data; Ok (Some (ENewRound e))
  else if String.eqb name ".lq.RecordDealTile" then
    e ← parse_deal_tile data; Ok (Some (EDealTile e))
  else if String.eqb name ".lq.RecordDiscardTile" then
    e ← parse_discard_tile data; Ok (Some (EDiscardTile e))
  else if String.eqb name ".lq.RecordChiPengGang" then
    e ← parse_chi_peng_gang data; Ok (Some (EChiPengGang e))
  else if String.eqb name ".lq.RecordAnGangAddGang" then
    e ← parse_an_gang_add_gang data; Ok (Some (EAnGangAddGang e))
  else if String.eqb name ".lq.RecordHule" then e ← parse_hule data; Ok (Some (EHule e))
  else if String.eqb name ".lq.RecordNoTile" then
    e ← parse_no_tile data; Ok (Some (ENoTile e))
  else if String.eqb name ".lq.RecordLiuJu" then e ← parse_liu_ju data; Ok (Some (ELiuJu e))
  else if String.eqb name ".lq.RecordBaBei" then e ← parse_babei data; Ok (Some (EBaBei e))
  else Ok None.
End Events.
