(* ===== verification/Json.v ===== *)
(** [serde_json::Value] as the program uses it: the value type, the accessors
    and the conversions of the [json!] macro. An object is the list of its
    members; reading takes the first member of that name. *)
From S2P Require Import Prelude Text.
#[local] Open Scope string_scope.
#[local] Open Scope list_scope.
#[local] Open Scope Z_scope.

Module Json.

(** A number is a [u64], a negative [i64], or anything else, kept as its text
    (the integer accessors refuse it). *)
Inductive number := PosInt (n : Z) | NegInt (n : Z) | Float (text : string).
Inductive json :=
| JNull
| JBool (b : bool)
| JNum (n : number)
| JStr (s : string)
| JArr (l : list json)
| JObj (o : list (string * json)).

(** Conversions of [json!]. *)
Definition num (n : Z) : json := if 0 <=? n then JNum (PosInt n) else JNum (NegInt n).
Definition nums (l : list Z) : json := JArr (map num l).
Definition strs (l : list string) : json := JArr (map JStr l).
Definition opt_num (o : option Z) : json := match o with Some n => num n | None => JNull end.

Fixpoint assoc (key : string) (o : list (string * json)) : option json :=
  match o with
  | [] => None
  | (k, v) :: o => if String.eqb k key then Some v else assoc key o
  end.
(** [Value::get] with a string index. *)
Definition get (key : string) (v : json) : option json :=
  match v with JObj o => assoc key o | _ => None end.
Definition as_str (v : json) : option string :=
  match v with JStr s => Some s | _ => None end.
Definition as_array (v : json) : option (list json) :=
  match v with JArr l => Some l | _ => None end.
Definition as_bool (v : json) : option bool :=
  match v with JBool b => Some b | _ => None end.
Definition as_u64 (v : json) : option Z :=
  match v with JNum (PosInt n) => Some n | _ => None end.
Definition as_i64 (v : json) : option Z :=
  match v with
  | JNum (PosInt n) => if n <? 2 ^ 63 then Some n else None
  | JNum (NegInt n) => Some n
  | _ => None
  end.
Definition is_object (v : json) : bool := match v with JObj _ => true | _ => false end.

(** [value[key] = new]: replaces or inserts a member; [null] becomes an
    object, and any other value panics. *)
Fixpoint assoc_set (key : string) (new : json) (o : list (string * json))
  : list (string * json) :=
  match o with
  | [] => [(key, new)]
  | (k, v) :: o => if String.eqb k key then (k, new) :: o else (k, v) :: assoc_set key new o
  end.
Definition index_set (key : string) (new v : json) : result error json :=
  match v with
  | JObj o => Ok (JObj (assoc_set key new o))
  | JNull => Ok (JObj [(key, new)])
  | _ => Panic
  end.
End Json.
Export Json.

Lemma assoc_set_same key new o : assoc key (assoc_set key new o) = Some new.
Proof.
  induction o as [|[k v] o IH]; simpl; [by rewrite String.eqb_refl|].
  destruct (String.eqb k key) eqn:E; simpl; by rewrite E.
Qed.
Lemma assoc_set_other key key' new o : key <> key' ->
  assoc key' (assoc_set key new o) = assoc key' o.
Proof.
  intros Hne. induction o as [|[k v] o IH]; simpl.
  - destruct (String.eqb_spec key key'); [done|done].
  - destruct (String.eqb_spec k key) as [->|]; simpl.
    + destruct (String.eqb_spec key key'); [done|done].
    + by rewrite IH.
Qed.
Lemma as_i64_num n : in_i64 n -> as_i64 (num n) = Some n.
Proof. unfold num, as_i64, in_i64. intros. repeat zcase; auto; lia. Qed.
Lemma as_u64_num n : 0 <= n -> as_u64 (num n) = Some n.
Proof. unfold num, as_u64. intros. zcase; auto; lia. Qed.
