(* ===== verification/Convert.v ===== *)
(** Conversion of a decoded game into mjai events:
    [src/src/majsoul/convert.rs]. *)
From S2P Require Import Prelude Text Tiles Json Proto Events.
#[local] Open Scope string_scope.
#[local] Open Scope list_scope.
#[local] Open Scope Z_scope.

Module Convert.
Import Proto Events.

Definition get_dan_name (level_id : Z) : string :=
  match level_id with
  | 10101 => "初心★1" | 10102 => "初心★2" | 10103 => "初心★3"
  | 10201 => "雀士★1" | 10202 => "雀士★2" | 10203 => "雀士★3"
  | 10301 => "雀傑★1" | 10302 => "雀傑★2" | 10303 => "雀傑★3"
  | 10401 => "雀豪★1" | 10402 => "雀豪★2" | 10403 => "雀豪★3"
  | 10501 => "雀聖★1" | 10502 => "雀聖★2" | 10503 => "雀聖★3"
  | 10601 | 20601 => "魂天"
  | 20101 => "初心★1" | 20102 => "初心★2" | 20103 => "初心★3"
  | 20201 => "雀士★1" | 20202 => "雀士★2" | 20203 => "雀士★3"
  | 20301 => "雀傑★1" | 20302 => "雀傑★2" | 20303 => "雀傑★3"
  | 20401 => "雀豪★1" | 20402 => "雀豪★2" | 20403 => "雀豪★3"
  | 20501 => "雀聖★1" | 20502 => "雀聖★2" | 20503 => "雀聖★3"
  | value =>
    if between 10602 value 10620 then "魂天Lv" +:+ pretty (value - 10600)
    else if between 10701 value 10720 then "魂天Lv" +:+ pretty (value - 10700)
    else if between 20602 value 20620 then "魂天Lv" +:+ pretty (value - 20600)
    else if between 20701 value 20720 then "魂天Lv" +:+ pretty (value - 20700)
    else "Rank " +:+ pretty level_id
  end.

Record GameMetadata := mkMetadata {
  meta_mode_id : Z; room : string; game_length : string; players : Z; year : Z
}.
(** [GameMetadata::of]. *)
Definition metadata_of (record : GameRecord) : option GameMetadata :=
  match Modes.mode_metadata (mode_id record) with
  | Ok (room, game_length, players) =>
    match Modes.uuid_year (uuid record) with
    | Ok year => Some (mkMetadata (mode_id record) room game_length players year)
    | _ => None
    end
  | _ => None
  end.

(** ** Helpers *)
Definition generate_ankan_tiles (tile : string) : result error (list string) :=
  let plain := Ok (replicate 4 tile) in
  if Nat.leb 2 (String.length tile) then
    match chars tile with
    | num :: suit :: _ =>
      if String.eqb num "5"
         && (String.eqb suit "m" || String.eqb suit "p" || String.eqb suit "s") then
        let regular := "5" +:+ suit in
        let red := "5" +:+ suit +:+ "r" in
        Ok [red; regular; regular; regular]
      else plain
    | _ => Panic
    end
  else plain.

Definition called_from (froms : list Z) (seat : Z) (last_discarder : option Z) : Z :=
  match last froms with
  | Some from => from
  | None => default seat last_discarder
  end.

Definition dora_event (marker : string) : json :=
  JObj [("type", JStr "dora"); ("dora_marker", JStr marker)].
(** [push_new_doras]: the events and the announced set after [face_up]. *)
Definition push_new_doras (events : list json) (revealed face_up : list string)
  : list json * list string :=
  (events ++ map dora_event (drop (length revealed) face_up),
   if Nat.ltb (length revealed) (length face_up) then face_up else revealed).

(** ** The conversion loop *)
Record State := mkState {
  mjai_events : list json;
  pending_reach : option Z;
  last_discarder : option Z;
  kan_pending_chankan : option Z;
  revealed_doras : list string;
  previous_ms : Z
}.
#[export] Instance State_settable : Settable State := fun r =>
  mkState (mjai_events r) (pending_reach r) (last_discarder r) (kan_pending_chankan r)
    (revealed_doras r) (previous_ms r).
Definition emit (event : json) (st : State) : State := st <| mjai_events ::= push event |>.
(** [push_new_doras(&mut mjai_events, &mut revealed_doras, &doras)]. *)
Definition announce (face_up : list string) (st : State) : State :=
  let '(events, revealed) := push_new_doras (mjai_events st) (revealed_doras st) face_up in
  st <| mjai_events := events |> <| revealed_doras := revealed |>.
(** [if let Some(actor) = pending_reach.take() { .. reach_accepted .. }]. *)
Definition accept_reach (st : State) : State :=
  match pending_reach st with
  | Some actor =>
    emit (JObj [("type", JStr "reach_accepted"); ("actor", num actor)])
      (st <| pending_reach := None |>)
  | None => st
  end.
Definition end_kyoku : json := JObj [("type", JStr "end_kyoku")].

Definition bakaze (chang : Z) : string :=
  match chang with 0 => "E" | 1 => "S" | 2 => "W" | _ => "N" end.

Definition on_new_round (num_players : nat) (nr : NewRound) (st : State) : State :=
  let st := st <| pending_reach := None |> in
  let tehais := take num_players (nr_tiles nr) in
  let st := emit (JObj [
    ("type", JStr "start_kyoku");
    ("bakaze", JStr (bakaze (chang nr)));
    ("dora_marker", JStr (dora_marker nr));
    ("kyoku", num (as_u32 (ju nr + 1)));
    ("honba", num (ben nr));
    ("kyotaku", num (liqibang nr));
    ("oya", num (ju nr));
    ("scores", nums (nr_scores nr));
    ("tehais", JArr (map strs tehais))]) st in
  st <| revealed_doras := nr_doras nr |>
     <| mjai_events ::= fun l => l ++ map dora_event (drop 1 (nr_doras nr)) |>.

Definition on_deal_tile (dt : DealTile) (st : State) : State :=
  let st := accept_reach st in
  let st := emit (JObj [("type", JStr "tsumo"); ("actor", num (dt_seat dt));
                        ("pai", JStr (dt_tile dt))]) st in
  announce (dt_doras dt) st.

Definition on_discard_tile (dt : DiscardTile) (st : State) : State :=
  let st := st <| last_discarder := Some (ds_seat dt) |> <| kan_pending_chankan := None |> in
  let st :=
    if is_liqi dt || is_wliqi dt
    then emit (JObj [("type", JStr "reach"); ("actor", num (ds_seat dt))]) st
         <| pending_reach := Some (ds_seat dt) |>
    else st in
  let st := emit (JObj [("type", JStr "dahai"); ("actor", num (ds_seat dt));
                        ("pai", JStr (ds_tile dt)); ("tsumogiri", JBool (moqie dt))]) st in
  announce (ds_doras dt) st.

Definition call_name (t : ChiPengGangType) : string :=
  match t with Chi => "chi" | Pon => "pon" | Daiminkan => "daiminkan" end.
Definition on_chi_peng_gang (cpg : ChiPengGang) (st : State) : State :=
  let st := accept_reach st in
  let target := called_from (froms cpg) (cpg_seat cpg) (last_discarder st) in
  emit (JObj [
    ("type", JStr (call_name (call_type cpg)));
    ("actor", num (cpg_seat cpg));
    ("target", num target);
    ("pai", JStr (default "" (last (cpg_tiles cpg))));
    ("consumed", strs (take (length (cpg_tiles cpg) - 1) (cpg_tiles cpg)))]) st.

Definition on_an_gang_add_gang (ag : AnGangAddGang) (st : State) : result error State :=
  let st := st <| kan_pending_chankan :=
    match gang_type ag with Kakan => Some (ag_seat ag) | Ankan => None end |> in
  st ← (match gang_type ag with
        | Ankan =>
          consumed ← generate_ankan_tiles (ag_tiles ag);
          Ok (emit (JObj [("type", JStr "ankan"); ("actor", num (ag_seat ag));
                          ("consumed", strs consumed)]) st)
        | Kakan =>
          Ok (emit (JObj [("type", JStr "kakan"); ("actor", num (ag_seat ag));
                          ("pai", JStr (ag_tiles ag))]) st)
        end);
  Ok (announce (ag_doras ag) st).

(** The seat a win is taken from: the winner itself at a tsumo, otherwise the
    seat holding a kan that can still be robbed, otherwise the last
    discarder. *)
Definition hule_target (st : State) (hule : HuleInfo) : Z :=
  if zimo hule then hi_seat hule
  else match kan_pending_chankan st with
       | Some seat => if negb (seat =? hi_seat hule) then seat
                      else default 0 (last_discarder st)
       | None => default 0 (last_discarder st)
       end.
Definition hora_event (st : State) (h : Hule) (hule : HuleInfo) : json :=
  let dora_markers := match hi_doras hule with [] => h_doras h | _ => hi_doras hule end in
  JObj [
    ("type", JStr "hora");
    ("actor", num (hi_seat hule));
    ("target", num (hule_target st hule));
    ("pai", JStr (hu_tile hule));
    ("hora_tehais", strs (hi_hand hule));
    ("hora_furos", JArr (map (fun meld => JObj [("type", JStr (meld_kind meld));
                                                ("consumed", strs (meld_tiles meld))])
                             (melds hule)));
    ("fu", num (fu hule));
    ("fan", num (han hule));
    ("yakuman", JBool (yiman hule));
    ("riichi", JBool (hi_riichi hule));
    ("dora_markers", strs dora_markers);
    ("uradora_markers", strs (ura_doras hule));
    ("yakus", JArr (map (fun yaku => JArr [JStr (fan_name yaku); num (fan_val yaku)])
                        (yakus hule)));
    ("yaku_ids", nums (map fan_id (yakus hule)));
    ("deltas", nums (h_delta_scores h));
    ("scores", nums (h_scores h));
    ("majsoul_points", JObj [
      ("ron", num (point_rong hule));
      ("tsumo_dealer", num (point_zimo_qin hule));
      ("tsumo_non_dealer", num (point_zimo_xian hule))])].
Definition on_hule (h : Hule) (st : State) : State :=
  let st := st <| pending_reach := None |> in
  let st := foldl (fun st' hule => emit (hora_event st h hule) st') st (hules h) in
  emit end_kyoku st.

Definition on_no_tile (nt : NoTile) (st : State) : State :=
  let st := accept_reach st in
  let st := emit (JObj [
    ("type", JStr "ryukyoku");
    ("reason", JStr "fanpai");
    ("tenpais", JArr (map JBool (tenpai nt)));
    ("liujumanguan", JBool (liujumanguan nt));
    ("tenpai_hands", JArr (map strs (tenpai_hands nt)));
    ("scores", nums (nt_scores nt));
    ("deltas", nums (nt_delta_scores nt))]) st in
  emit end_kyoku st.

Definition liuju_reason (t : Z) : string :=
  match t with
  | 1 => "yao9" | 2 => "kaze4" | 3 => "kan4" | 4 => "reach4" | 5 => "ron3"
  | _ => "unknown"
  end.
Definition on_liu_ju (lj : LiuJu) (st : State) : State :=
  let st := accept_reach st in
  let st := emit (JObj [
    ("type", JStr "ryukyoku");
    ("reason", JStr (liuju_reason (liuju_type lj)));
    ("actor", opt_num (lj_seat lj));
    ("tehai", strs (lj_tiles lj))]) st in
  emit end_kyoku st.

Definition on_babei (bb : BaBei) (st : State) : State :=
  let st := emit (JObj [("type", JStr "nukidora"); ("actor", num (bb_seat bb));
                        ("pai", JStr "N"); ("tsumogiri", JBool (bb_moqie bb))]) st in
  announce (bb_doras bb) st.

Definition on_event (num_players : nat) (event : GameEvent) (st : State) : result error State :=
  match event with
  | ENewRound nr => Ok (on_new_round num_players nr st)
  | EDealTile dt => Ok (on_deal_tile dt st)
  | EDiscardTile dt => Ok (on_discard_tile dt st)
  | EChiPengGang cpg => Ok (on_chi_peng_gang cpg st)
  | EAnGangAddGang ag => on_an_gang_add_gang ag st
  | EHule h => Ok (on_hule h st)
  | ENoTile nt => Ok (on_no_tile nt st)
  | ELiuJu lj => Ok (on_liu_ju lj st)
  | EBaBei bb => Ok (on_babei bb st)
  end.

(** [event["dt_ms"] = ..] over the events of one record: the gap on the first,
    zero on the others. *)
Definition stamp (gap : Z) (events : list json) : result error (list json) :=
  match events with
  | [] => Ok []
  | event :: events =>
    event ← index_set "dt_ms" (num gap) event;
    events ← mapM (index_set "dt_ms" (num 0)) events;
    Ok (event :: events)
  end.

(** One turn of the loop: the event, then its time stamp. *)
Definition step (num_players : nat) (timed : option Z * GameEvent) (st : State)
  : result error State :=
  let stamp_from := length (mjai_events st) in
  st ← on_event num_players (snd timed) st;
  match fst timed with
  | Some passed_ms =>
    let gap := sat_sub passed_ms (previous_ms st) in
    stamped ← stamp gap (drop stamp_from (mjai_events st));
    Ok (st <| mjai_events := take stamp_from (mjai_events st) ++ stamped |>
           <| previous_ms := passed_ms |>)
  | None => Ok st
  end.
Fixpoint steps (num_players : nat) (events : list (option Z * GameEvent)) (st : State)
  : result error State :=
  match events with
  | [] => Ok st
  | timed :: events => st ← step num_players timed st; steps num_players events st
  end.

(** The header event. *)
Definition level_of (three_player : bool) (account : PlayerAccountMeta) : Z * Z :=
  if three_player then (level3_id account, level3_score account)
  else (level_id account, level_score account).
Definition start_game (record : GameRecord) (metadata : option GameMetadata) : json :=
  let three_player := Nat.eqb (length (player_names record)) 3 in
  let levels := map (level_of three_player) (player_accounts record) in
  let majsoul := [
    ("uuid", JStr (uuid record));
    ("start_time", num (start_time record));
    ("end_time", num (end_time record));
    ("account_ids", nums (map account_id (player_accounts record)));
    ("level_ids", nums (map fst levels));
    ("ranks", strs (map (fun level => get_dan_name (fst level)) levels));
    ("level_scores", nums (map snd levels))] in
  let majsoul := majsoul ++ match metadata with
    | Some m => [("mode_id", num (meta_mode_id m)); ("room", JStr (room m));
                 ("game_length", JStr (game_length m)); ("players", num (players m));
                 ("year", num (year m))]
    | None => []
    end in
  JObj [("type", JStr "start_game"); ("names", strs (player_names record));
        ("majsoul", JObj majsoul)].

(** The settlement event. *)
Definition end_game (result : list PlayerResult) : json :=
  JObj [
    ("type", JStr "end_game");
    ("scores", nums (map part_point_1 result));
    ("majsoul_result", JArr (map (fun player => JObj [
      ("seat", num (result_seat player));
      ("total_point", num (total_point player));
      ("part_point_1", num (part_point_1 player));
      ("part_point_2", num (part_point_2 player));
      ("grading_score", num (grading_score player))]) result))].

Definition events_to_mjai (record : GameRecord) (events : list (option Z * GameEvent))
  (metadata : option GameMetadata) : result error (list json) :=
  let num_players := length (player_names record) in
  st ← steps num_players events
         (mkState [start_game record metadata] None None None [] 0);
  Ok (mjai_events st ++ [end_game (settlement record)]).

(** ** Whole records *)
Fixpoint parse_actions (actions : list RecordAction)
  : result error (list (option Z * GameEvent)) :=
  match actions with
  | [] => Ok []
  | action :: actions =>
    event ← parse_record_action (name action) (action_data action);
    rest ← parse_actions actions;
    Ok (match event with Some event => (passed_ms action, event) :: rest | None => rest end)
  end.

Section Bytes.
(** [serde_json::to_string] and the gzip encoder, from other crates. *)
Variable to_string : json -> string.
Variable gzip : list Z -> list Z.

Definition ndjson (events : list json) : list Z :=
  concat (map (fun event => bytes_of_string (to_string event) ++ [10]) events).
Definition convert_record_bytes (raw_data : list Z) (metadata : option GameMetadata)
  : result error (string * list Z) :=
  if zlen raw_data <? 20
  then bail ("record too small (" +:+ pretty (zlen raw_data) +:+ " bytes)")
  else
    record ← context "Failed to decode game record" (decode_game_record raw_data);
    match records record with
    | [] => bail "no game records in decoded record"
    | _ =>
      events ← parse_actions (records record);
      let derived := match metadata with None => metadata_of record | Some _ => None end in
      let metadata := match metadata with Some m => Some m | None => derived end in
      mjai_events ← events_to_mjai record events metadata;
      Ok (uuid record, gzip (ndjson mjai_events))
    end.
End Bytes.
End Convert.
