(* ===== verification/Mjai.v ===== *)
(** The mjai log parser: [src/src/mjai.rs]. *)
From S2P Require Import Prelude Text Json.
#[local] Open Scope string_scope.
#[local] Open Scope list_scope.
#[local] Open Scope Z_scope.

Module Mjai.

Record Metadata := mkMeta {
  players : list string;
  rule : option string;
  event_count : Z;
  played_at : option Z;
  majsoul_uuid : option string
}.
Inductive ParseError := Utf8 | Empty | BadJson (message : string) | NotEvents.

(** [str::lines]: split on line feeds, a final empty piece dropped, one
    carriage return at the end of a line removed. *)
Definition strip_cr (s : string) : string :=
  match strip_suffix "013"%char s with Some t => t | None => s end.
Definition lines (s : string) : list string :=
  let pieces := split_on "010"%char s in
  let pieces := match last pieces with
                | Some "" => take (length pieces - 1) pieces
                | _ => pieces
                end in
  map strip_cr pieces.


Section Parser.
(** [serde_json]: one value, and its printer. The parser answers the error
    message of a text that is not JSON. *)
Variable from_str : string -> json + string.
Variable to_string : json -> string.
(** [DateTime::from_timestamp(seconds, 0)]: whether a second count is a
    representable instant. *)
Variable timestamp_ok : Z -> bool.

Fixpoint parse_lines (ls : list string) : result ParseError (list json) :=
  match ls with
  | [] => Ok []
  | l :: ls =>
    match from_str l with
    | inl v => rest ← parse_lines ls; Ok (v :: rest)
    | inr message => Err (BadJson message)
    end
  end.

(** [mjai::events]. A single array is parsed as one value that has to be an
    array, which is what [from_str::<Vec<Value>>] accepts. *)
Definition events (payload : list Z) : result ParseError (list json) :=
  if utf8_valid payload then
    let text := string_of_bytes payload in
    let trimmed := trim text in
    if String.eqb trimmed "" then Err Empty
    else
      events ←
        (match trimmed with
         | String "["%char _ =>
           match from_str trimmed with
           | inl (JArr l) => Ok l
           | inl _ => Err (BadJson "invalid type: expected a sequence")
           | inr message => Err (BadJson message)
           end
         | _ => parse_lines (List.filter (fun line => negb (String.eqb (trim line) ""))
                               (lines text))
         end);
      match events with
      | [] => Err NotEvents
      | _ => if existsb (fun event => negb (is_object event)) events
             then Err NotEvents else Ok events
      end
  else Err Utf8.

Definition is_type (name : string) (event : json) : bool :=
  match get "type" event ≫= as_str with Some t => String.eqb t name | None => false end.

(** The fields read off the header event. *)
Definition rule_of (start : json) : option string :=
  match get "rule" start with
  | Some (JStr value) => Some (take_chars 256 value)
  | Some other => Some (to_string other)
  | None =>
    header ← get "majsoul" start;
    players ← get "players" header ≫= as_u64;
    room ← get "room" header ≫= as_str;
    length ← get "game_length" header ≫= as_str;
    Some (pretty players +:+ "p-" +:+ room +:+ "-" +:+ length)
  end.
Definition uuid_of (start : json) : option string :=
  uuid ← (get "majsoul" start ≫= get "uuid") ≫= as_str;
  let uuid := trim uuid in
  if negb (String.eqb uuid "") && Nat.leb (String.length uuid) 128 then Some uuid else None.
Definition metadata_of_events (events : list json) : result ParseError Metadata :=
  match events with
  | [] => Panic
  | first :: _ =>
    let start := default first (List.find (is_type "start_game") events) in
    let players := match get "names" start ≫= as_array with
                   | Some names => map (take_chars 128) (omap as_str names)
                   | None => []
                   end in
    let played_at :=
      seconds ← (get "majsoul" start ≫= get "start_time") ≫= as_i64;
      if timestamp_ok seconds then Some seconds else None in
    Ok (mkMeta players (rule_of start) (Z.min (zlen events) u32_max) played_at
          (uuid_of start))
  end.
(** [parse_metadata]: it reads the events exactly as [events] does, then the
    header. *)
Definition parse_metadata (payload : list Z) : result ParseError Metadata :=
  events ← events payload; metadata_of_events events.
End Parser.
End Mjai.

(** ** Facts *)
Lemma concat_cons_empty x k : String.concat "" (x :: k) = x +:+ String.concat "" k.
Proof. destruct k as [|y k]; [by rewrite append_nil_r|done]. Qed.
(** Lines that are written one by one are read back. *)
Lemma lines_concat ls : Forall (fun l => contains "010"%char l = false /\ Mjai.strip_cr l = l) ls ->
  Mjai.lines (String.concat "" (map (fun l => l +:+ String "010"%char "") ls)) = ls.
Proof.
  intros Hls. unfold Mjai.lines.
  assert (Hsplit : split_on "010"%char (String.concat "" (map (fun l => l +:+ String "010"%char "") ls)) = ls ++ [""]).
  { induction Hls as [|l ls [Hl _] _ IH]; [done|]. cbn [map].
    rewrite concat_cons_empty, append_assoc_s, append_cons. change ("" +:+ ?x) with x.
    by rewrite split_on_append, IH. }
  rewrite Hsplit, last_snoc, length_app. cbn [length].
  replace (length ls + 1 - 1)%nat with (length ls) by lia. rewrite take_app_length.
  clear Hsplit. induction Hls as [|l ls [_ Hl] _ IH]; [done|]. cbn [map]. by rewrite Hl, IH.
Qed.
(** Trimming leaves a text that starts with an opening brace. *)
Lemma trim_brace t : exists u, trim (String "{"%char t) = String "{"%char u.
Proof.
  unfold trim. assert (Hc : exists v k, chars (String "{"%char t) = String "{"%char v :: k).
  { unfold chars. cbn [chars_aux]. destruct (chars_aux t) as [v k]. by exists v, k. }
  destruct Hc as (v & k & ->).
  assert (Hs : unicode_space (String "{"%char v) = false).
  { unfold unicode_space. change (bytes_of_string (String "{"%char v)) with (123 :: bytes_of_string v).
    destruct (bytes_of_string v) as [|? [|? [|? ?]]]; reflexivity. }
  cbn [skip_while]. rewrite Hs, reverse_cons.
  assert (Hk : exists k', skip_while unicode_space (reverse k ++ [String "{"%char v]) = k' ++ [String "{"%char v]).
  { induction (reverse k) as [|c l IH]; cbn [app skip_while]; [rewrite Hs; by exists []|].
    destruct (unicode_space c); [done|by exists (c :: l)]. }
  destruct Hk as [k' ->]. rewrite reverse_app. cbn [reverse rev_append app].
  change (reverse [String "{"%char v] ++ reverse k') with (String "{"%char v :: reverse k').
  rewrite concat_cons_empty, append_cons. by eexists.
Qed.
