(* ===== verification/Replay.v ===== *)
(** Per-seat statistics read off an mjai event stream: [src/src/replay.rs].
    Counters are machine integers and wrap as in a release build. *)
From S2P Require Import Prelude Text Json.
#[local] Open Scope string_scope.
#[local] Open Scope list_scope.
#[local] Open Scope Z_scope.

Module Replay.

Definition YAKU_IPPATSU : Z := 30.

(** ** Data *)
Record SeatStats := mkSeat {
  seat : Z; player : string;
  placement : Z; final_score : Z; settled_point : Z; grading_score : Z; level_id : Z;
  busted : bool;
  hands : Z; hands_as_dealer : Z; max_dealer_streak : Z; net_points : Z;
  wins : Z; wins_tsumo : Z; win_points : Z; win_turns : Z; deal_ins : Z; deal_in_points : Z;
  riichi : Z; riichi_wins : Z; riichi_deal_ins : Z; riichi_turns : Z; riichi_first : Z;
  riichi_chasing : Z; riichi_chased : Z; riichi_net : Z;
  called : Z; called_wins : Z; draws : Z;
  draws_tenpai : Z; riichi_ippatsu : Z; riichi_ura_hits : Z; yakuman : Z; max_han : Z
}.
#[export] Instance SeatStats_settable : Settable SeatStats := fun r =>
  mkSeat (seat r) (player r) (placement r) (final_score r) (settled_point r) (grading_score r)
    (level_id r) (busted r) (hands r) (hands_as_dealer r) (max_dealer_streak r) (net_points r)
    (wins r) (wins_tsumo r) (win_points r) (win_turns r) (deal_ins r) (deal_in_points r)
    (riichi r) (riichi_wins r) (riichi_deal_ins r) (riichi_turns r) (riichi_first r)
    (riichi_chasing r) (riichi_chased r) (riichi_net r) (called r) (called_wins r) (draws r)
    (draws_tenpai r) (riichi_ippatsu r) (riichi_ura_hits r) (yakuman r) (max_han r).
(** [SeatStats { seat, player, ..SeatStats::default() }]. *)
Definition fresh_seat (index : nat) (player : string) : SeatStats :=
  mkSeat (as_u8 (Z.of_nat index)) player 0 0 0 0 0 false 0 0 0 0 0 0 0 0 0 0 0 0 0 0 0 0 0 0 0 0 0
    0 0 0 0 0.
Record GameStats := mkStats { seats : Z; detailed : bool; stat_players : list SeatStats }.

(** The scratch state of one hand. *)
Record Hand := mkHand {
  dealer : Z; kyotaku : Z; turns : list Z; riichi_turn : list (option Z);
  ippatsu_open : list bool; hand_called : list bool; deltas : option (list Z)
}.
#[export] Instance Hand_settable : Settable Hand := fun r =>
  mkHand (dealer r) (kyotaku r) (turns r) (riichi_turn r) (ippatsu_open r) (hand_called r)
    (deltas r).
Definition Hand_new (seats : nat) : Hand :=
  mkHand 0 0 (replicate seats 0) (replicate seats None) (replicate seats false)
    (replicate seats false) None.

(** ** Readers *)
Definition kind (event : json) : option string := get "type" event ≫= as_str.
Definition seat_of (event : json) (field : string) (seats : nat) : option nat :=
  seat ← get field event ≫= as_u64;
  if seat <? Z.of_nat seats then Some (Z.to_nat seat) else None.
Definition array (value : option json) : list json := default [] (value ≫= as_array).
Definition int_array (value : option json) : option (list Z) :=
  list ← value ≫= as_array;
  Some (map (fun entry => as_i32 (default 0 (as_i64 entry))) list).
Definition levels (start : json) : list Z :=
  map (fun level => as_u32 (default 0 (as_u64 level)))
    (array (get "majsoul" start ≫= get "level_ids")).

(** [Vec::resize] on pairs of [i32]: a capacity beyond [isize::MAX] bytes
    panics. *)
Definition resize {A} (n : Z) (d : A) (out : list A) : result error (list A) :=
  if n <=? zlen out then Ok (take (Z.to_nat n) out)
  else if 2 ^ 60 <=? n then Panic
  else Ok (out ++ replicate (Z.to_nat n - length out) d).
Definition settle_player (player : json) (out : list (Z * Z)) : result error (list (Z * Z)) :=
  let seat := default 0 (get "seat" player ≫= as_u64) in
  out ← (if zlen out <=? seat then resize (Prelude.as_u64 (seat + 1)) (0, 0) out else Ok out);
  if seat <? zlen out then
    Ok (<[Z.to_nat seat :=
      (as_i32 (default 0 (get "total_point" player ≫= as_i64)),
       as_i32 (default 0 (get "grading_score" player ≫= as_i64)))]> out)
  else Panic.
Fixpoint settle_players (l : list json) (out : list (Z * Z)) : result error (list (Z * Z)) :=
  match l with
  | [] => Ok out
  | player :: l => out ← settle_player player out; settle_players l out
  end.
Definition settlement (end_game : json) : result error (list (Z * Z)) :=
  settle_players (array (get "majsoul_result" end_game)) [].

Definition ippatsu (hora : json) (reconstructed : bool) : bool :=
  match get "yaku_ids" hora ≫= as_array with
  | Some ids => existsb (fun id => match as_u64 id with
                                   | Some n => n =? YAKU_IPPATSU | None => false end) ids
  | None => reconstructed
  end.

Definition normalise (tile : string) : string := trim_end_matches "r"%char tile.
(** [str::split_at(1)]: panics past the end and inside a character. *)
Definition split_at_1 (s : string) : result error (string * string) :=
  match s with
  | String a rest => if char_boundary s 1 then Ok (String a EmptyString, rest) else Panic
  | EmptyString => Panic
  end.
Fixpoint position (x : string) (l : list string) : option nat :=
  match l with
  | [] => None
  | y :: l => if String.eqb y x then Some O else S <$> position x l
  end.
Definition WINDS : list string := ["E"; "S"; "W"; "N"].
Definition DRAGONS : list string := ["P"; "F"; "C"].
Definition dora_from (marker : string) : result error (option string) :=
  match position marker WINDS with
  | Some index => Ok (Some (nth ((index + 1) mod 4) WINDS ""))
  | None =>
    match position marker DRAGONS with
    | Some index => Ok (Some (nth ((index + 1) mod 3) DRAGONS ""))
    | None =>
      '(number, suit) ← split_at_1 (normalise marker);
      match parse_u32 number with
      | None => Ok None
      | Some number => Ok (Some (pretty (number mod 9 + 1) +:+ suit))
      end
    end
  end.
(** The iterator chain of [ura_hit] is lazy: it stops at the first indicator
    that matches. *)
Fixpoint any_dora (markers hand : list string) : result error bool :=
  match markers with
  | [] => Ok false
  | marker :: markers =>
    dora ← dora_from marker;
    match dora with
    | Some dora => if existsb (fun tile => String.eqb (normalise tile) dora) hand
                   then Ok true else any_dora markers hand
    | None => any_dora markers hand
    end
  end.
Definition ura_hit (hora : json) : result error bool :=
  let pai := match get "pai" hora with Some p => [p] | None => [] end in
  let hand := omap as_str (array (get "hora_tehais" hora) ++ pai) in
  any_dora (omap as_str (array (get "uradora_markers" hora))) hand.

(** ** The loop *)
Record State := mkState {
  players : list SeatStats; hand : Hand; started : bool; streak : list Z;
  last_scores : option (list Z)
}.
#[export] Instance State_settable : Settable State := fun r =>
  mkState (players r) (hand r) (started r) (streak r) (last_scores r).

(** [l[i]], which panics out of range; what is read or written there follows. *)
Definition indexed {A} (l : list A) (i : nat) : result error () := if Nat.ltb i (length l) then Ok tt else Panic.
Definition inc16 (n : Z) : Z := as_u16 (n + 1).
Definition at_seat (f : SeatStats -> SeatStats) (seat : nat) (st : State) : State :=
  st <| players ::= alter f seat |>.
Definition set_scores (event : json) (st : State) : State :=
  match int_array (get "scores" event) with
  | Some scores => st <| last_scores := Some scores |>
  | None => st
  end.
Definition declared (h : Hand) (seat : nat) : bool :=
  match riichi_turn h !! seat with Some (Some _) => true | _ => false end.
(** How many seats have declared riichi this hand. *)
Definition riichi_count (h : Hand) : Z :=
  zlen (List.filter (fun at_ : option Z => match at_ with Some _ => true | None => false end)
    (riichi_turn h)).

Definition start_kyoku (seats : nat) (event : json) (st : State) : result error State :=
  let h := (Hand_new seats)
    <| dealer := default 0 (get "oya" event ≫= as_u64) |>
    <| kyotaku := as_i32 (default 0 (get "kyotaku" event ≫= as_i64)) |> in
  let st := set_scores event (st <| started := true |> <| hand := h |>) in
  (* [streak[seat]], for the seat of every player. *)
  _ ← (if Nat.leb (length (players st)) (length (streak st)) then Ok tt else Panic);
  let streak' := imap (fun i n => if Z.of_nat i =? dealer h then inc16 n else 0) (streak st) in
  Ok (st <| streak := streak' |>
     <| players ::= imap (fun i stats =>
          let stats := stats <| hands ::= inc16 |> in
          if Z.of_nat i =? dealer h then
            stats <| hands_as_dealer ::= inc16 |>
                  <| max_dealer_streak ::= fun m => Z.max m (default 0 (streak' !! i)) |>
          else stats) |>).

Definition on_tsumo (seats : nat) (event : json) (st : State) : result error State :=
  match seat_of event "actor" seats with
  | Some seat => _ ← indexed (turns (hand st)) seat; Ok (st <| hand ::= fun h => h <| turns ::= alter inc16 seat |> |>)
  | None => Ok st
  end.
Definition on_dahai (seats : nat) (event : json) (st : State) : result error State :=
  match seat_of event "actor" seats with
  | Some seat =>
    _ ← indexed (riichi_turn (hand st)) seat;
    if declared (hand st) seat
    then _ ← indexed (ippatsu_open (hand st)) seat; Ok (st <| hand ::= fun h => h <| ippatsu_open ::= <[seat := false]> |> |>)
    else Ok st
  | None => Ok st
  end.

(** The other seats that have declared. *)
Definition chased (h : Hand) (seat other : nat) : bool := negb (Nat.eqb other seat) && declared h other.
Definition on_reach_accepted (seats : nat) (event : json) (st : State) : result error State :=
  match seat_of event "actor" seats with
  | None => Ok st
  | Some seat =>
    _ ← indexed (riichi_turn (hand st)) seat;
    if declared (hand st) seat then Ok st
    else
      let earlier := riichi_count (hand st) in
      _ ← indexed (turns (hand st)) seat;
      let turn := default 0 (turns (hand st) !! seat) in
      _ ← indexed (ippatsu_open (hand st)) seat;
      let st := st <| hand ::= fun h => h <| riichi_turn ::= <[seat := Some turn]> |>
                                          <| ippatsu_open ::= <[seat := true]> |> |> in
      _ ← indexed (players st) seat;
      let st := at_seat (fun s => s <| riichi ::= inc16 |>
                                    <| riichi_turns ::= fun t => as_u32 (t + turn) |>) seat st in
      if earlier =? 0 then Ok (at_seat (fun s => s <| riichi_first ::= inc16 |>) seat st)
      else
        let st := at_seat (fun s => s <| riichi_chasing ::= inc16 |>) seat st in
        let others := List.filter (chased (hand st) seat) (seq 0 (length (riichi_turn (hand st)))) in
        _ ← mapM (indexed (players st)) others;
        Ok (st <| players ::= imap (fun other s =>
          if chased (hand st) seat other then s <| riichi_chased ::= inc16 |> else s) |>)
  end.

Definition on_call (seats : nat) (event : json) (st : State) : result error State :=
  st ← match seat_of event "actor" seats with
       | Some seat => _ ← indexed (hand_called (hand st)) seat; Ok (st <| hand ::= fun h => h <| hand_called ::= <[seat := true]> |> |>)
       | None => Ok st
       end;
  Ok (st <| hand ::= fun h => h <| ippatsu_open ::= map (fun _ => false) |> |>).

(** What the winner's riichi adds: one more riichi win, ippatsu, ura dora. *)
Definition hora_riichi (actor : nat) (event : json) (st : State) : result error State :=
  if declared (hand st) actor then
    let st := at_seat (fun s => s <| riichi_wins ::= inc16 |>) actor st in
    _ ← indexed (ippatsu_open (hand st)) actor;
    let st := if ippatsu event (default false (ippatsu_open (hand st) !! actor))
              then at_seat (fun s => s <| riichi_ippatsu ::= inc16 |>) actor st else st in
    match array (get "uradora_markers" event) with
    | [] => Ok st
    | _ => hit ← ura_hit event;
           Ok (if hit : bool then at_seat (fun s => s <| riichi_ura_hits ::= inc16 |>) actor st
               else st)
    end
  else Ok st.
Definition hora_points (actor target : nat) (st : State) : State :=
  let h := hand st in
  let st := match deltas h ≫= lookup actor with
    | Some gain =>
      let sticks := as_i32 (kyotaku h + riichi_count h) in
      at_seat (fun s => s <| win_points ::= fun p =>
        as_i32 (p + as_i32 (gain - as_i32 (1000 * sticks))) |>) actor st
    | None => st
    end in
  if Nat.eqb target actor then st
  else
    let st := at_seat (fun s => s <| deal_ins ::= inc16 |>) target st in
    let st := if declared h target
              then at_seat (fun s => s <| riichi_deal_ins ::= inc16 |>) target st else st in
    match deltas h ≫= lookup target with
    | Some loss => at_seat (fun s => s <| deal_in_points ::= fun p =>
                     as_i32 (p + as_i32 (- loss)) |>) target st
    | None => st
    end.
Definition hora_han (actor : nat) (event : json) (st : State) : State :=
  match get "fan" event ≫= as_u64 with
  | None => st
  | Some han =>
    let han := Z.min han u16_max in
    match get "yakuman" event ≫= as_bool with
    | Some true => at_seat (fun s => s <| yakuman ::= inc16 |>) actor st
    | _ => at_seat (fun s => s <| max_han ::= fun m => Z.max m han |>) actor st
    end
  end.
Definition take_deltas (event : json) (st : State) : State :=
  st <| hand ::= fun h => h <| deltas ::= fun old =>
    match int_array (get "deltas" event) with Some d => Some d | None => old end |> |>.

Definition on_hora (seats : nat) (event : json) (st : State) : result error State :=
  match seat_of event "actor" seats with
  | None => Ok st
  | Some actor =>
    let target := default actor (seat_of event "target" seats) in
    let st := set_scores event (take_deltas event st) in
    _ ← indexed (players st) actor;
    _ ← indexed (turns (hand st)) actor;
    let turn := default 0 (turns (hand st) !! actor) in
    let st := at_seat (fun s => s <| wins ::= inc16 |>
                                  <| win_turns ::= fun t => as_u32 (t + turn) |>) actor st in
    let st := if Nat.eqb target actor
              then at_seat (fun s => s <| wins_tsumo ::= inc16 |>) actor st else st in
    _ ← indexed (hand_called (hand st)) actor;
    let st := if default false (hand_called (hand st) !! actor)
              then at_seat (fun s => s <| called_wins ::= inc16 |>) actor st else st in
    _ ← indexed (riichi_turn (hand st)) actor;
    st ← hora_riichi actor event st;
    _ ← (if Nat.eqb target actor then Ok tt else _ ← indexed (players st) target; indexed (riichi_turn (hand st)) target);
    Ok (hora_han actor event (hora_points actor target st))
  end.

Definition on_ryukyoku (event : json) (st : State) : State :=
  let st := set_scores event (take_deltas event st) in
  let tenpais := get "tenpais" event ≫= as_array in
  st <| players ::= imap (fun i s =>
    let s := s <| draws ::= inc16 |> in
    match (tenpais ≫= lookup i) ≫= as_bool with
    | Some true => s <| draws_tenpai ::= inc16 |>
    | _ => s
    end) |>.

Definition on_end_kyoku (st : State) : result error State :=
  if started st then
    let h := hand st in
    let ds := default [] (deltas h) in
    (* [riichi_turn[seat]] and [called[seat]], for the seat of every player. *)
    _ ← (if Nat.leb (length (players st)) (Nat.min (length (riichi_turn h)) (length (hand_called h))) then Ok tt else Panic);
    Ok (st <| hand ::= fun h => h <| deltas := None |> |>
       <| players ::= imap (fun i s =>
            let decl := declared h i in
            let movement := as_i32 (default 0 (ds !! i) - (if decl then 1000 else 0)) in
            let s := s <| net_points ::= fun n => as_i32 (n + movement) |> in
            let s := if decl then s <| riichi_net ::= fun n => as_i32 (n + movement) |> else s in
            if default false (hand_called h !! i) then s <| called ::= inc16 |> else s) |>)
  else Ok st.

Definition on_end_game (seats : nat) (event : json) (st : State) : result error State :=
  let st := match int_array (get "scores" event) with
            | Some scores => if Nat.eqb (length scores) seats
                             then st <| last_scores := Some scores |> else st
            | None => st
            end in
  settled ← settlement event;
  Ok (st <| players ::= imap (fun i s =>
        match settled !! i with
        | Some (point, grading) => s <| settled_point := point |> <| grading_score := grading |>
        | None => s
        end) |>).

Definition calls : list string := ["pon"; "chi"; "daiminkan"; "kakan"; "ankan"].
Definition on_event (seats : nat) (event : json) (st : State) : result error State :=
  match kind event with
  | None => Ok st
  | Some name =>
    if String.eqb name "start_kyoku" then start_kyoku seats event st
    else if String.eqb name "tsumo" then on_tsumo seats event st
    else if String.eqb name "dahai" then on_dahai seats event st
    else if String.eqb name "reach_accepted" then on_reach_accepted seats event st
    else if existsb (String.eqb name) calls then on_call seats event st
    else if String.eqb name "hora" then on_hora seats event st
    else if String.eqb name "ryukyoku" then Ok (on_ryukyoku event st)
    else if String.eqb name "end_kyoku" then on_end_kyoku st
    else if String.eqb name "end_game" then on_end_game seats event st
    else Ok st
  end.
Fixpoint run (seats : nat) (events : list json) (st : State) : result error State :=
  match events with
  | [] => Ok st
  | event :: events => st ← on_event seats event st; run seats events st
  end.

(** Whether the record carries the scoring detail. *)
Definition is_detailed (events : list json) : bool :=
  existsb (fun event =>
    let has key := match get key event with Some _ => true | None => false end in
    match kind event with
    | Some "hora" => has "yaku_ids"
    | Some "ryukyoku" => has "tenpais"
    | Some "end_game" => has "majsoul_result"
    | _ => false
    end) events.

(** The final scores and the placements they give. *)
Definition score_of (players : list SeatStats) (i : nat) : Z :=
  match players !! i with Some s => final_score s | None => 0 end.
Definition rank_le (players : list SeatStats) (a b : nat) : bool :=
  let ka := as_i32 (- score_of players a) in
  let kb := as_i32 (- score_of players b) in
  (ka <? kb) || ((ka =? kb) && Nat.leb a b).
Definition rank_order (players : list SeatStats) : list nat :=
  sort_by (rank_le players) (seq 0 (length players)).
Fixpoint place (rank : nat) (order : list nat) (players : list SeatStats) : list SeatStats :=
  match order with
  | [] => players
  | seat :: order =>
    place (S rank) order
      (alter (fun s => s <| placement := as_u8 (as_u8 (Z.of_nat rank) + 1) |>) seat players)
  end.
Definition final_scores (scores : list Z) (players : list SeatStats) : list SeatStats :=
  imap (fun i s =>
    let score := default 0 (scores !! i) in
    s <| final_score := score |> <| busted := score <? 0 |>) players.

Definition replay (events : list json) : result error (option GameStats) :=
  match List.find (fun event => match kind event with
                                | Some k => String.eqb k "start_game" | None => false end) events with
  | None => Ok None
  | Some start =>
    match get "names" start ≫= as_array with
    | None => Ok None
    | Some names =>
      let names := map (fun name => default "" (as_str name)) names in
      let seats := length names in
      if Nat.ltb seats 2 then Ok None
      else
        let lv := levels start in
        let players := imap (fun i player =>
          let s := fresh_seat i player in
          match lv !! i with Some level => s <| level_id := level |> | None => s end) names in
        st ← run seats events (mkState players (Hand_new seats) false (replicate seats 0) None);
        if started st then
          let scores := default (replicate seats 0) (last_scores st) in
          let players := final_scores scores (Replay.players st) in
          let players := place 0 (rank_order players) players in
          Ok (Some (mkStats (as_u8 (Z.of_nat seats)) (is_detailed events) players))
        else Ok None
    end
  end.
End Replay.

Lemma seat_of_lt event field seats seat : (0 < seats)%nat -> Replay.seat_of event field seats = Some seat -> (seat < seats)%nat.
Proof.
  intros Hpos. unfold Replay.seat_of. destruct (get field event ≫= as_u64) as [v|]; cbn; [|done].
  destruct (Z.ltb_spec v (Z.of_nat seats)); [|done]. intros [= <-]. lia.
Qed.
Lemma indexed_ok {A} (l : list A) i : (i < length l)%nat -> Replay.indexed l i = Ok tt.
Proof. intros H. unfold Replay.indexed. by rewrite (proj2 (Nat.ltb_lt _ _) H). Qed.
