(* ===== verification/Stats.v ===== *)
(** What the statistics of [src/src/replay.rs] add up to. *)
From S2P Require Import Prelude Text Json Replay.
#[local] Open Scope string_scope.
#[local] Open Scope list_scope.
#[local] Open Scope Z_scope.
Import Replay.

Section Counters.

(** ** One win *)
Definition bump (b : bool) (n : Z) : Z := if b then inc16 n else n.
Definition head_update (turn : Z) (tsumo called : bool) (s : SeatStats) : SeatStats :=
  s <| wins ::= inc16 |> <| win_turns ::= fun t => as_u32 (t + turn) |>
    <| wins_tsumo ::= bump tsumo |> <| called_wins ::= bump called |>.
Definition riichi_update (riichi ippatsu ura : bool) (s : SeatStats) : SeatStats :=
  s <| riichi_wins ::= bump riichi |> <| riichi_ippatsu ::= bump (riichi && ippatsu) |>
    <| riichi_ura_hits ::= bump (riichi && ura) |>.
Definition gain_update (f : Z -> Z) (s : SeatStats) : SeatStats := s <| win_points ::= f |>.
Definition loss_update (declared : bool) (f : Z -> Z) (s : SeatStats) : SeatStats :=
  s <| deal_ins ::= inc16 |> <| riichi_deal_ins ::= bump declared |> <| deal_in_points ::= f |>.
Definition han_update (limit : bool) (f : Z -> Z) (s : SeatStats) : SeatStats :=
  s <| yakuman ::= bump limit |> <| max_han ::= f |>.

Lemma alter_ext (f g : SeatStats -> SeatStats) (i : nat) (l : list SeatStats) :
  (forall s, f s = g s) -> alter f i l = alter g i l.
Proof.
  intros H. apply list_eq. intros j. destruct (decide (i = j)) as [<-|].
  - rewrite !list_lookup_alter_eq. destruct (l !! i); cbn; [by rewrite H|done].
  - by rewrite !list_lookup_alter_ne.
Qed.
Lemma alter_alter (f g : SeatStats -> SeatStats) (i : nat) (l : list SeatStats) :
  alter f i (alter g i l) = alter (fun s => f (g s)) i l.
Proof.
  apply list_eq. intros j. destruct (decide (i = j)) as [<-|].
  - rewrite !list_lookup_alter_eq. by destruct (l !! i).
  - by rewrite !list_lookup_alter_ne.
Qed.
Lemma alter_none (i : nat) (l : list SeatStats) : alter (fun s => s) i l = l.
Proof.
  apply list_eq. intros j. destruct (decide (i = j)) as [<-|].
  - rewrite list_lookup_alter_eq. by destruct (l !! i).
  - by rewrite list_lookup_alter_ne.
Qed.
Lemma alter_commute (f g : SeatStats -> SeatStats) (i j : nat) (l : list SeatStats) :
  i <> j -> alter f i (alter g j l) = alter g j (alter f i l).
Proof.
  intros Hne. apply list_eq. intros k. destruct (decide (k = i)), (decide (k = j)); subst; try done;
    repeat (rewrite list_lookup_alter_eq || rewrite list_lookup_alter_ne by done); done.
Qed.
Lemma players_at_seat f i st : players (at_seat f i st) = alter f i (players st).
Proof. done. Qed.
Lemma hand_at_seat f i st : hand (at_seat f i st) = hand st.
Proof. done. Qed.
(** Closes [alter .. (alter .. l) = alter f i l], the left side possibly bare. *)
Ltac alters :=
  rewrite ?players_at_seat, ?alter_alter;
  lazymatch goal with
  | |- alter _ _ _ = _ => apply alter_ext; by intros []
  | |- ?l = alter _ ?i _ => transitivity (alter (fun s : SeatStats => s) i l);
      [symmetry; apply alter_none|apply alter_ext; by intros []]
  end.

(** Walks a run of a handler past its next indexings, which stayed in range. *)
Ltac in_range H := repeat (match type of H with
  | (indexed ?l ?i ≫= _) = _ => destruct (indexed l i) as [[]| |]; [cbn [mbind result_bind] in H|discriminate H..] end).
Lemma hora_riichi_players actor event st st' : hora_riichi actor event st = Ok st' ->
  hand st' = hand st /\ exists ippatsu ura,
    players st' = alter (riichi_update (declared (hand st) actor) ippatsu ura) actor (players st).
Proof.
  unfold hora_riichi. destruct (declared (hand st) actor).
  - cbv zeta. rewrite hand_at_seat. intros Hrun. in_range Hrun. revert Hrun. destruct (ippatsu event _); destruct (array (get "uradora_markers" event));
      cbn [mbind result_bind]; try destruct (ura_hit event) as [[]| |]; cbn [mbind result_bind];
      intros H; try discriminate H; injection H as <-; (split; [done|]).
    all: first [by exists true, true; alters|by exists true, false; alters
               |by exists false, true; alters|by exists false, false; alters].
  - intros [= <-]. split; [done|]. exists false, false. alters.
Qed.
Lemma hora_points_players actor target st : exists gain loss,
  hand (hora_points actor target st) = hand st /\
  players (hora_points actor target st) =
    (if Nat.eqb target actor then fun l => l
     else alter (loss_update (declared (hand st) target) loss) target)
      (alter (gain_update gain) actor (players st)).
Proof.
  unfold hora_points.
  set (st1 := match deltas (hand st) ≫= lookup actor with Some _ => _ | None => st end).
  assert (exists gain, hand st1 = hand st /\ players st1 = alter (gain_update gain) actor (players st))
    as (gain & Hh & Hp).
  { unfold st1. destruct (deltas (hand st) ≫= lookup actor) as [g|].
    - eexists (fun p => as_i32 (p + as_i32 (g - as_i32 (1000 * as_i32 (kyotaku (hand st) + riichi_count (hand st)))))).
      split; [done|alters].
    - exists (fun p => p). split; [done|alters]. }
  exists gain. rewrite <- Hp, <- Hh. clearbody st1. clear Hp Hh.
  destruct (Nat.eqb target actor); [by exists (fun p => p)|].
  destruct (deltas (hand st1) ≫= lookup target) as [loss|].
  - exists (fun p => as_i32 (p + as_i32 (- loss))).
    destruct (declared (hand st1) target); (split; [done|alters]).
  - exists (fun p => p). destruct (declared (hand st1) target); (split; [done|alters]).
Qed.
Lemma hora_han_players actor event st : exists limit f,
  players (hora_han actor event st) = alter (han_update limit f) actor (players st).
Proof.
  unfold hora_han. destruct (get "fan" event ≫= as_u64) as [han|].
  - destruct (get "yakuman" event ≫= as_bool) as [[]|].
    + exists true, (fun m => m). alters.
    + exists false, (fun m => Z.max m (Z.min han u16_max)). alters.
    + exists false, (fun m => Z.max m (Z.min han u16_max)). alters.
  - exists false, (fun m => m). alters.
Qed.
(** The end of a win: the loser is looked up, and the rest is done. *)
Lemma hora_returns (target actor : nat) (st st' : State) x :
  (_ ← (if Nat.eqb target actor then Ok tt else _ ← indexed (players st) target; indexed (riichi_turn (hand st)) target); Ok x) = Ok st' ->
  x = st'.
Proof.
  destruct (Nat.eqb target actor); [by intros [= <-]|].
  destruct (indexed (players st) target) as [[]| |]; [cbn [mbind result_bind]|done..].
  destruct (indexed (riichi_turn (hand st)) target) as [[]| |]; cbn [mbind result_bind]; [by intros [= <-]|done..].
Qed.
(** All a win does to the counters of its seats. *)
Definition win_update (turn : Z) (tsumo called riichi ippatsu ura limit : bool) (gain f : Z -> Z)
  (s : SeatStats) : SeatStats :=
  han_update limit f (gain_update gain (riichi_update riichi ippatsu ura (head_update turn tsumo called s))).
Lemma on_hora_players seats event st st' actor :
  on_hora seats event st = Ok st' -> seat_of event "actor" seats = Some actor ->
  let target := default actor (seat_of event "target" seats) in
  exists turn called riichi ippatsu ura limit gain f declared loss,
    players st' = (if Nat.eqb target actor then fun l => l else alter (loss_update declared loss) target)
      (alter (win_update turn (Nat.eqb target actor) called riichi ippatsu ura limit gain f) actor (players st)).
Proof.
  intros Hrun Hactor. cbv zeta. unfold on_hora in Hrun. rewrite Hactor in Hrun.
  set (target := default actor (seat_of event "target" seats)) in *. clearbody target.
  set (st0 := set_scores event (take_deltas event st)) in Hrun.
  assert (Hp0 : players st0 = players st)
    by (unfold st0, set_scores; by destruct (int_array (get "scores" event))).
  clearbody st0. cbv zeta in Hrun. in_range Hrun. set (turn := default 0 (turns (hand st0) !! actor)) in Hrun.
  match type of Hrun with (hora_riichi actor event ?x ≫= _) = _ => set (st1 := x) in Hrun end.
  assert (exists called, players st1 = alter (head_update turn (Nat.eqb target actor) called) actor (players st))
    as (called & Hp1).
  { exists (default false (hand_called (hand st0) !! actor)). rewrite <- Hp0. unfold st1.
    destruct (Nat.eqb target actor);
      rewrite ?hand_at_seat;
      destruct (default false (hand_called (hand st0) !! actor)); alters. }
  clearbody st1. destruct (hora_riichi actor event st1) as [st2| |] eqn:E2; [|done..].
  cbn [mbind result_bind] in Hrun. apply hora_returns in Hrun as <-.
  destruct (hora_riichi_players _ _ _ _ E2) as (_ & ippatsu & ura & Hp2).
  destruct (hora_points_players actor target st2) as (gain & loss & _ & Hp3).
  destruct (hora_han_players actor event (hora_points actor target st2)) as (limit & f & ->).
  exists turn, called, (declared (hand st1) actor), ippatsu, ura, limit, gain, f, (declared (hand st2) target), loss.
  rewrite Hp3, Hp2, Hp1. destruct (Nat.eqb_spec target actor) as [->|Hne].
  - rewrite !alter_alter. by apply alter_ext.
  - rewrite alter_commute by done. f_equal. rewrite !alter_alter. by apply alter_ext.
Qed.

(** ** The accounts *)
(** A seat's counters after at most [n] events, at most [c] of them reaching it as
    another seat's win or declaration, with a dealer streak of [k]. *)
Definition seat_ok (n c k : Z) (s : SeatStats) : Prop :=
  (0 <= k <= hands_as_dealer s /\ 0 <= max_dealer_streak s <= hands_as_dealer s /\ hands_as_dealer s <= hands s <= n) /\
  (0 <= wins_tsumo s <= wins s /\ 0 <= called_wins s <= wins s /\ 0 <= yakuman s <= wins s /\
   0 <= riichi_ippatsu s <= riichi_wins s /\ 0 <= riichi_ura_hits s <= riichi_wins s /\
   riichi_wins s <= wins s <= n) /\
  (0 <= riichi_deal_ins s <= deal_ins s /\ deal_ins s <= c) /\
  (0 <= riichi_first s /\ 0 <= riichi_chasing s /\ riichi s = riichi_first s + riichi_chasing s /\
   riichi s <= n /\ 0 <= riichi_chased s <= c /\ c <= n) /\
  (0 <= called s <= n /\ 0 <= draws_tenpai s <= draws s /\ draws s <= n).
(** Wins nobody accounts for: neither drawn nor dealt in. *)
Definition unpaid (s : SeatStats) : Z := wins s - wins_tsumo s - deal_ins s.
Definition total (f : SeatStats -> Z) (l : list SeatStats) : Z := foldr (fun s acc => f s + acc) 0 l.
Definition stats_ok (seats : nat) (n : Z) (st : State) : Prop :=
  length (players st) = seats /\ Forall2 (seat_ok n n) (streak st) (players st) /\
  total unpaid (players st) = 0.

Lemma inc16_small n : 0 <= n < u16_max -> inc16 n = n + 1.
Proof. intros H. apply as_unsigned_small. unfold u16_max in H. lia. Qed.
Lemma bump_small b n : 0 <= n < u16_max -> bump b n = n + Z.b2z b.
Proof. intros H. destruct b; cbn; [by apply inc16_small|lia]. Qed.
Lemma b2z_andb a b : 0 <= Z.b2z (a && b) <= Z.b2z a /\ 0 <= Z.b2z a <= 1.
Proof. by destruct a, b; cbn. Qed.

Lemma total_alter (f : SeatStats -> Z) g (i : nat) l s : l !! i = Some s ->
  total f (alter g i l) = total f l - f s + f (g s).
Proof.
  revert i; induction l as [|x l IH]; intros [|i]; [done|done| |]; cbn [lookup list_lookup].
  - intros [= ->]. cbn. fold (total f l). lia.
  - intros H. specialize (IH i H). cbn in *. fold (total f l) (total f (alter g i l)) in *. lia.
Qed.
Lemma total_alter_same (f : SeatStats -> Z) g (i : nat) l : (forall s, f (g s) = f s) ->
  total f (alter g i l) = total f l.
Proof.
  intros H. revert i; induction l as [|x l IH]; intros [|i]; [done|done| |]; cbn.
  - by rewrite H.
  - f_equal. apply IH.
Qed.
Lemma total_imap (f : SeatStats -> Z) g l : (forall i s, f (g i s) = f s) -> total f (imap g l) = total f l.
Proof.
  revert g; induction l as [|x l IH]; intros g H; cbn; [done|]. fold (total f l).
  fold (total f (imap (g ∘ S) l)). rewrite H, IH; [done|]. intros i s. apply H.
Qed.
Lemma Forall2_alter_step (P Q : Z -> SeatStats -> Prop) f (i : nat) ks l : Forall2 P ks l ->
  (forall k s, P k s -> Q k (f s)) -> (forall k s, P k s -> Q k s) -> Forall2 Q ks (alter f i l).
Proof.
  intros Hall Hf Hq. revert i; induction Hall as [|k s ks l H Hl IH]; intros i; [by constructor|].
  destruct i as [|i]; constructor; [by apply Hf| |by apply Hq|apply IH].
  eapply Forall2_impl; [exact Hl|exact Hq].
Qed.
Lemma Forall2_imap_step (P Q : Z -> SeatStats -> Prop) f ks l : Forall2 P ks l ->
  (forall i k s, P k s -> Q k (f i s)) -> Forall2 Q ks (imap f l).
Proof.
  intros Hall. revert f; induction Hall as [|k s ks l H Hl IH]; intros f Hf; [by constructor|].
  cbn. constructor; [by apply Hf|]. apply IH. intros i. apply Hf.
Qed.

(** Reads the counters of an updated seat off the counters before. *)
Ltac counters :=
  unfold seat_ok, unpaid in *; intros; cbn;
  rewrite ?inc16_small, ?bump_small by lia;
  repeat match goal with
  | |- context [Z.b2z (?a && ?b)] => let H := fresh in pose proof (b2z_andb a b) as H; generalize dependent (Z.b2z (a && b)); intros
  | |- context [Z.b2z ?a] => let H := fresh in pose proof (b2z_andb a a) as [_ H]; generalize dependent (Z.b2z a); intros
  end; lia.
Section Steps.
Context (n : Z).
Hypothesis room : 0 <= n < u16_max.

Lemma seat_ok_mono c c' k s : seat_ok n c k s -> c <= c' <= n + 1 -> seat_ok (n + 1) c' k s.
Proof. counters. Qed.
Lemma win_update_ok turn tsumo called riichi ippatsu ura limit gain f k s :
  seat_ok n n k s ->
  seat_ok (n + 1) n k (win_update turn tsumo called riichi ippatsu ura limit gain f s).
Proof using room. counters. Qed.
Lemma win_update_unpaid turn tsumo called riichi ippatsu ura limit gain f k s :
  seat_ok n n k s ->
  unpaid (win_update turn tsumo called riichi ippatsu ura limit gain f s) = unpaid s + 1 - Z.b2z tsumo.
Proof using room. counters. Qed.
Lemma loss_update_ok declared f k s :
  seat_ok (n + 1) n k s -> seat_ok (n + 1) (n + 1) k (loss_update declared f s) /\
  unpaid (loss_update declared f s) = unpaid s - 1.
Proof using room. intros H. split; revert H; counters. Qed.
Lemma seat_lookup (P : Z -> SeatStats -> Prop) ks l (i : nat) : Forall2 P ks l -> (i < length l)%nat ->
  exists k s, l !! i = Some s /\ P k s.
Proof.
  intros Hall Hlt. destruct (lookup_lt_is_Some_2 l i Hlt) as [s Hs].
  destruct (Forall2_lookup_r _ _ _ _ _ Hall Hs) as (k & _ & H). eauto.
Qed.
Lemma players_ok seats st st' :
  stats_ok seats n st -> streak st' = streak st -> length (players st') = length (players st) ->
  Forall2 (seat_ok (n + 1) (n + 1)) (streak st) (players st') ->
  total unpaid (players st') = 0 -> stats_ok seats (n + 1) st'.
Proof. intros (Hlen & _ & _) Hs Hl Hall Ht. unfold stats_ok. rewrite Hs, Hl. done. Qed.
Lemma same_players_ok seats st st' :
  stats_ok seats n st -> streak st' = streak st -> players st' = players st -> stats_ok seats (n + 1) st'.
Proof.
  intros Hok Hs Hp. pose proof Hok as (Hlen & Hall & Ht). eapply players_ok; [exact Hok|done|by rewrite Hp| |by rewrite Hp].
  rewrite Hp. eapply Forall2_impl; [exact Hall|]. intros k s H. eapply seat_ok_mono; [exact H|lia].
Qed.
(** An update of every seat that leaves the wins alone. *)
Lemma imap_players_ok seats st st' f :
  stats_ok seats n st -> streak st' = streak st -> players st' = imap f (players st) ->
  (forall i k s, seat_ok n n k s -> seat_ok (n + 1) (n + 1) k (f i s)) ->
  (forall i s, unpaid (f i s) = unpaid s) -> stats_ok seats (n + 1) st'.
Proof.
  intros Hok Hs Hp Hf Hu. pose proof Hok as (Hlen & Hall & Ht). eapply players_ok; [exact Hok|done| | |].
  - by rewrite Hp, length_imap.
  - rewrite Hp. by eapply Forall2_imap_step.
  - rewrite Hp. by rewrite total_imap.
Qed.

Lemma on_hora_ok seats event st st' : (0 < seats)%nat ->
  stats_ok seats n st -> on_hora seats event st = Ok st' -> streak st' = streak st -> stats_ok seats (n + 1) st'.
Proof using room.
  intros Hpos Hok Hrun Hs. pose proof Hok as (Hlen & Hall & Ht).
  destruct (seat_of event "actor" seats) as [actor|] eqn:Ea.
  2: { unfold on_hora in Hrun. rewrite Ea in Hrun. injection Hrun as <-. by eapply same_players_ok. }
  pose proof (seat_of_lt _ _ _ _ Hpos Ea) as Hlt. rewrite <- Hlen in Hlt.
  destruct (on_hora_players _ _ _ _ _ Hrun Ea) as
    (turn & called & riichi & ippatsu & ura & limit & gain & f & declared & loss & Hp).
  set (target := default actor (seat_of event "target" seats)) in Hp.
  assert (Htarget : (target < length (players st))%nat).
  { unfold target. destruct (seat_of event "target" seats) as [t|] eqn:Et; cbn; [|done].
    rewrite Hlen. by eapply seat_of_lt. }
  set (win := win_update turn (Nat.eqb target actor) called riichi ippatsu ura limit gain f) in *.
  destruct (seat_lookup _ _ _ actor Hall Hlt) as (ka & sa & Hsa & Hka).
  assert (Hall1 : Forall2 (seat_ok (n + 1) n) (streak st) (alter win actor (players st))).
  { eapply Forall2_alter_step; [exact Hall| |]; intros k s H; [by apply win_update_ok|].
    eapply seat_ok_mono; [exact H|lia]. }
  assert (Htot : total unpaid (alter win actor (players st)) = 1 - Z.b2z (Nat.eqb target actor)).
  { rewrite (total_alter _ _ _ _ sa Hsa), Ht. unfold win. rewrite (win_update_unpaid _ _ _ _ _ _ _ _ _ ka) by done. lia. }
  destruct (Nat.eqb target actor).
  - eapply players_ok; [exact Hok|done|by rewrite Hp, length_alter| |by rewrite Hp, Htot].
    rewrite Hp. eapply Forall2_impl; [exact Hall1|]. intros k s H. revert H. counters.
  - assert (Hlt1 : (target < length (alter win actor (players st)))%nat) by (by rewrite length_alter).
    destruct (seat_lookup _ _ _ target Hall1 Hlt1) as (kt & s & Hst & Hkt).
    eapply players_ok; [exact Hok|done|by rewrite Hp, !length_alter| |].
    + rewrite Hp. eapply Forall2_alter_step; [exact Hall1| |]; intros k s' H; [by apply loss_update_ok|].
      revert H. counters.
    + rewrite Hp, (total_alter _ _ _ _ s Hst), Htot.
      destruct (loss_update_ok declared loss kt s Hkt) as [_ ->]. cbn. lia.
Qed.
Lemma start_kyoku_ok seats event st st' : stats_ok seats n st -> start_kyoku seats event st = Ok st' -> stats_ok seats (n + 1) st'.
Proof using room.
  intros (Hlen & Hall & Ht). unfold start_kyoku. cbv zeta.
  set (h := (Hand_new seats) <| dealer := _ |> <| kyotaku := _ |>).
  set (st1 := set_scores event (st <| started := true |> <| hand := h |>)).
  assert (players st1 = players st /\ streak st1 = streak st) as [Hp Hs]
    by (unfold st1, set_scores; by destruct (int_array (get "scores" event))).
  rewrite <- Hp in Hlen, Hall, Ht. rewrite <- Hs in Hall. clearbody st1. clear Hs Hp. clearbody h.
  set (ks := imap (fun i k => if Z.of_nat i =? dealer h then inc16 k else 0) (streak st1)).
  set (f := fun i stats => if Z.of_nat i =? dealer h then _ else _).
  destruct (Nat.leb _ _); cbn [mbind result_bind]; [intros [= <-]|done].
  unfold stats_ok. change (players (st1 <| streak := ks |> <| players ::= imap f |>)) with (imap f (players st1)).
  change (streak (st1 <| streak := ks |> <| players ::= imap f |>)) with ks. rewrite length_imap.
  split_and!; [done| |].
  - apply Forall2_same_length_lookup_2; [unfold ks; rewrite !length_imap; by eapply Forall2_length|].
    intros i k s Hk Hsi. rewrite list_lookup_imap in Hsi.
    destruct (players st1 !! i) as [s0|] eqn:E0; cbn in Hsi; [|done]. injection Hsi as <-.
    assert (Hki := Hk). unfold ks in Hk. rewrite list_lookup_imap in Hk.
    destruct (streak st1 !! i) as [k0|] eqn:Ek; cbn in Hk; [|done]. injection Hk as <-.
    pose proof (Forall2_lookup_lr _ _ _ _ _ _ Hall Ek E0) as H0. unfold f. rewrite Hki. cbn [default].
    destruct (Z.of_nat i =? dealer h); revert H0; counters.
  - rewrite total_imap; [done|]. intros i s. unfold f. by destruct (Z.of_nat i =? dealer h).
Qed.
Lemma on_reach_accepted_ok seats event st st' :
  stats_ok seats n st -> on_reach_accepted seats event st = Ok st' -> stats_ok seats (n + 1) st'.
Proof using room.
  intros Hok. pose proof Hok as (Hlen & Hall & Ht). unfold on_reach_accepted.
  destruct (seat_of event "actor" seats) as [seat|]; [|intros [= <-]; by eapply same_players_ok].
  intros Hrun. in_range Hrun.
  destruct (declared (hand st) seat); [injection Hrun as <-; by eapply same_players_ok|]. cbv zeta in Hrun. in_range Hrun.
  set (h := st <| hand ::= _ |>) in Hrun.
  destruct (riichi_count (hand st) =? 0).
  - injection Hrun as <-. eapply players_ok; [exact Hok|done|by rewrite !players_at_seat, !length_alter|..];
      rewrite !players_at_seat, alter_alter; change (players h) with (players st).
    + eapply Forall2_alter_step; [exact Hall| |]; intros k s; counters.
    + by rewrite total_alter_same.
  - set (st1 := at_seat _ seat (at_seat _ seat h)) in Hrun.
    assert (H1 : Forall2 (seat_ok (n + 1) n) (streak st) (players st1)).
    { unfold st1. rewrite !players_at_seat, alter_alter. eapply Forall2_alter_step; [exact Hall| |]; intros k s; counters. }
    assert (H2 : total unpaid (players st1) = 0).
    { unfold st1. rewrite !players_at_seat, alter_alter. by rewrite total_alter_same. }
    assert (H3 : length (players st1) = length (players st)) by (unfold st1; by rewrite !players_at_seat, !length_alter).
    assert (H4 : streak st1 = streak st) by done.
    clearbody st1. destruct (mapM _ _); cbn [mbind result_bind] in Hrun; [injection Hrun as <-|done..].
    match goal with |- stats_ok _ _ ?x => set (st2 := x) end.
    eapply players_ok; [exact Hok|done|by unfold st2; cbn; rewrite length_imap| |].
    + unfold st2. eapply Forall2_imap_step; [exact H1|]. intros i k s.
      destruct (chased _ _ _); counters.
    + etransitivity; [apply total_imap|exact H2]. intros i s. by destruct (chased _ _ _).
Qed.
Lemma on_ryukyoku_ok seats event st :
  stats_ok seats n st -> stats_ok seats (n + 1) (on_ryukyoku event st).
Proof using room.
  intros Hok. unfold on_ryukyoku. cbv zeta. set (st1 := set_scores event (take_deltas event st)).
  assert (players st1 = players st /\ streak st1 = streak st) as [Hp Hs]
    by (unfold st1, set_scores; by destruct (int_array (get "scores" event))).
  clearbody st1. match goal with |- stats_ok _ _ (_ <| players ::= imap ?f |>) =>
    eapply (imap_players_ok _ _ _ f Hok); [exact Hs|by rewrite <- Hp|..] end.
  - intros i k s. destruct ((_ ≫= lookup i) ≫= as_bool) as [[]|]; counters.
  - intros i s. by destruct ((_ ≫= lookup i) ≫= as_bool) as [[]|].
Qed.
Lemma on_end_kyoku_ok seats st st' : stats_ok seats n st -> on_end_kyoku st = Ok st' -> stats_ok seats (n + 1) st'.
Proof using room.
  intros Hok. unfold on_end_kyoku. destruct (started st); [|intros [= <-]; by eapply same_players_ok]. cbv zeta.
  destruct (Nat.leb _ _); cbn [mbind result_bind]; [intros [= <-]|done].
  match goal with |- stats_ok _ _ (_ <| players ::= imap ?f |>) =>
    eapply (imap_players_ok _ _ _ f Hok); [done|done|..] end.
  - intros i k s. destruct (declared (hand st) i), (default false _); counters.
  - intros i s. by destruct (declared (hand st) i), (default false _).
Qed.
Lemma on_end_game_ok seats event st st' :
  stats_ok seats n st -> on_end_game seats event st = Ok st' -> stats_ok seats (n + 1) st'.
Proof using room.
  intros Hok. unfold on_end_game. set (st1 := match int_array _ with Some _ => _ | None => st end).
  assert (players st1 = players st /\ streak st1 = streak st) as [Hp Hs]
    by (unfold st1; destruct (int_array _) as [l|]; [by destruct (Nat.eqb _ _)|done]).
  clearbody st1. cbv zeta. destruct (settlement event) as [settled| |]; cbn [mbind result_bind]; [|done..].
  intros [= <-]. match goal with |- stats_ok _ _ (_ <| players ::= imap ?f |>) =>
    eapply (imap_players_ok _ _ _ f Hok); [exact Hs|by rewrite <- Hp|..] end.
  - intros i k s. destruct (settled !! i) as [[]|]; counters.
  - intros i s. by destruct (settled !! i) as [[]|].
Qed.
Lemma on_hora_streak seats event st st' : on_hora seats event st = Ok st' -> streak st' = streak st.
Proof.
  unfold on_hora. destruct (seat_of event "actor" seats) as [actor|]; [|by intros [= <-]]. cbv zeta.
  intros Hrun. in_range Hrun.
  match type of Hrun with (hora_riichi actor event ?x ≫= _) = _ => set (st1 := x) in Hrun end.
  assert (H1 : streak st1 = streak st).
  { unfold st1, set_scores. destruct (int_array _), (Nat.eqb _ _); by case_match. }
  clearbody st1. destruct (hora_riichi actor event st1) as [st2| |] eqn:E; cbn [mbind result_bind] in Hrun; [|done..].
  apply hora_returns in Hrun as <-. assert (H2 : streak st2 = streak st1).
  { unfold hora_riichi in E. destruct (declared _ _); [|by injection E as <-].
    cbv zeta in E. in_range E. destruct (array _); [|destruct (ura_hit event) as [[]| |]]; cbn [mbind result_bind] in E;
      try discriminate E; injection E as <-; by destruct (ippatsu _ _). }
  rewrite <- H1, <- H2. unfold hora_han, hora_points.
  destruct (get "fan" event ≫= as_u64), (get "yakuman" event ≫= as_bool) as [[]|], (Nat.eqb _ _),
    (deltas _ ≫= lookup actor); try done;
    match goal with |- context [declared ?h ?t] => by destruct (declared h t), (deltas h ≫= lookup t) end.
Qed.
(** The events that move no counter. *)
Lemma same_players_tsumo seats event st st' : on_tsumo seats event st = Ok st' -> streak st' = streak st /\ players st' = players st.
Proof. unfold on_tsumo. destruct (seat_of _ _ _); intros Hrun; [in_range Hrun|]; by injection Hrun as <-. Qed.
Lemma same_players_dahai seats event st st' : on_dahai seats event st = Ok st' -> streak st' = streak st /\ players st' = players st.
Proof.
  unfold on_dahai. destruct (seat_of _ _ _); intros Hrun; [in_range Hrun|by injection Hrun as <-].
  destruct (declared _ _); [in_range Hrun|]; by injection Hrun as <-.
Qed.
Lemma same_players_call seats event st st' : on_call seats event st = Ok st' -> streak st' = streak st /\ players st' = players st.
Proof.
  unfold on_call. destruct (seat_of _ _ _) as [seat|]; [|by intros [= <-]].
  destruct (indexed (hand_called (hand st)) seat) as [[]| |]; cbn [mbind result_bind]; [by intros [= <-]|done..].
Qed.
Lemma on_event_ok seats event st st' : (0 < seats)%nat ->
  stats_ok seats n st -> on_event seats event st = Ok st' -> stats_ok seats (n + 1) st'.
Proof using room.
  intros Hpos Hok. unfold on_event. destruct (kind event) as [name|]; [|intros [= <-]; by eapply same_players_ok].
  repeat (case_match; [intros Hrun; first
    [ by eapply on_hora_ok, on_hora_streak | by eapply on_end_game_ok | by eapply start_kyoku_ok | by eapply on_reach_accepted_ok
    | by eapply on_end_kyoku_ok | injection Hrun as <-; by apply on_ryukyoku_ok
    | eapply same_players_ok; [exact Hok|..]; (by eapply same_players_tsumo) || (by eapply same_players_dahai) || (by eapply same_players_call) ]|]).
  intros [= <-]. by eapply same_players_ok.
Qed.
End Steps.

Lemma run_ok seats events n st st' : (0 < seats)%nat -> 0 <= n -> n + zlen events <= u16_max ->
  stats_ok seats n st -> run seats events st = Ok st' -> stats_ok seats (n + zlen events) st'.
Proof.
  intros Hpos. revert n st; induction events as [|event events IH]; intros n st Hn Hroom Hok; cbn [run].
  - intros [= <-]. by rewrite zlen_nil, Z.add_0_r.
  - rewrite zlen_cons in *. pose proof (zlen_nonneg events).
    destruct (on_event seats event st) as [st1| |] eqn:E; cbn [mbind result_bind]; [|done..]. intros Hrun.
    replace (n + (1 + zlen events)) with (n + 1 + zlen events) by lia.
    apply (IH (n + 1) st1); [lia|lia| |done]. by eapply on_event_ok; [lia|..].
Qed.
Lemma place_ok (P : SeatStats -> Prop) rank order l :
  (forall s p, P s -> P (s <| placement := p |>)) -> Forall P l -> Forall P (place rank order l).
Proof.
  intros HP. revert rank l; induction order as [|i order IH]; intros rank l Hl; cbn [place]; [done|].
  apply IH. apply Forall_alter; [done|]. intros s _. apply HP.
Qed.
Lemma place_total f rank order l : (forall s p, f (s <| placement := p |>) = f s) ->
  total f (place rank order l) = total f l.
Proof.
  intros Hf. revert rank l; induction order as [|i order IH]; intros rank l; cbn [place]; [done|].
  rewrite IH, total_alter_same; [done|]. intros s. apply Hf.
Qed.
(** The seats [replay] starts from. *)
Definition starting (start : json) (names : list string) : list SeatStats :=
  imap (fun i player =>
    let s := fresh_seat i player in
    match levels start !! i with Some level => s <| level_id := level |> | None => s end) names.
Lemma starting_ok start names : (0 < length names)%nat ->
  stats_ok (length names) 0 (mkState (starting start names) (Hand_new (length names)) false
    (replicate (length names) 0) None).
Proof.
  intros Hpos. unfold stats_ok. cbn [players streak]. unfold starting. rewrite length_imap. split_and!; [done| |].
  - apply Forall2_same_length_lookup_2; [by rewrite length_imap, length_replicate|].
    intros i k s Hk Hs. apply lookup_replicate in Hk as [-> _]. rewrite list_lookup_imap in Hs.
    destruct (names !! i) as [player|]; cbn in Hs; [|done]. injection Hs as <-.
    destruct (levels start !! i); counters.
  - assert (H : forall g, (forall i p, unpaid (g i p) = 0) -> total unpaid (imap g names) = 0).
    { clear Hpos. induction names as [|x names IH]; intros g Hg; cbn; [done|].
      fold (total unpaid (imap (g ∘ S) names)). rewrite Hg, IH; [done|]. intros i p. apply Hg. }
    apply H. intros i p. by destruct (levels start !! i).
Qed.
Lemma replay_inv events g : replay events = Ok (Some g) ->
  exists start names st, (2 <= length names)%nat /\
    run (length names) events (mkState (starting start names) (Hand_new (length names)) false
      (replicate (length names) 0) None) = Ok st /\
    let scored := final_scores (default (replicate (length names) 0) (last_scores st)) (players st) in
    g = mkStats (as_u8 (Z.of_nat (length names))) (is_detailed events) (place 0 (rank_order scored) scored).
Proof.
  unfold replay. destruct (List.find _ events) as [start|]; [|done].
  destruct (get "names" start ≫= as_array) as [entries|]; [|done]. cbv zeta.
  set (names := map _ entries). destruct (Nat.ltb_spec (length names) 2); [done|].
  fold (starting start names). destruct (run _ _ _) as [st| |] eqn:E; cbn [mbind result_bind]; [|done..].
  destruct (started st); [|done]. intros [= <-]. by exists start, names, st.
Qed.

(** C38: the statistics of a game are consistent. For every seat of a replayed record of
    at most 65535 events: each sub-count is at most its count (tsumo, called, riichi,
    ippatsu, ura and yakuman wins, dealer hands and streaks, tenpai draws, riichi
    deal-ins), no count is more than the number of events, and every riichi is either
    the first or a chasing one; and over the table every win is either a tsumo or
    somebody's deal-in. Nothing is said of the sums of points and turns, which are taken
    from the record and may wrap. *)
Theorem counters_consistent events g :
  zlen events <= u16_max -> replay events = Ok (Some g) ->
  Forall (seat_ok (zlen events) (zlen events) 0) (stat_players g) /\
  total unpaid (stat_players g) = 0.
Proof.
  intros Hroom Hrun. destruct (replay_inv _ _ Hrun) as (start & names & st & Hlen & Hst & ->). cbn [stat_players].
  assert (Hpos : (0 < length names)%nat) by lia.
  destruct (run_ok _ _ 0 _ _ Hpos ltac:(lia) Hroom (starting_ok start names Hpos) Hst) as (_ & Hall & Ht).
  cbn in Hall. set (scored := final_scores _ (players st)). split.
  - apply place_ok; [intros s p; counters|]. apply Forall_forall. intros s Hs.
    apply list_elem_of_lookup in Hs as [i Hi]. unfold scored, final_scores in Hi. rewrite list_lookup_imap in Hi.
    destruct (players st !! i) as [s0|] eqn:E0; cbn in Hi; [|done]. injection Hi as <-.
    destruct (Forall2_lookup_r _ _ _ _ _ Hall E0) as (k & _ & Hk). revert Hk. counters.
  - rewrite place_total by done. unfold scored, final_scores. by rewrite total_imap.
Qed.

(** ** Placements *)
Lemma place_other rank order l (i : nat) : i ∉ order -> place rank order l !! i = l !! i.
Proof.
  revert rank l; induction order as [|j order IH]; intros rank l; cbn [place]; [done|].
  intros [Hne Hin]%not_elem_of_cons. rewrite IH by done. by rewrite list_lookup_alter_ne.
Qed.
Lemma place_lookup rank order l (k i : nat) s : NoDup order -> order !! k = Some i -> l !! i = Some s ->
  place rank order l !! i =
    Some (s <| placement := as_u8 (as_u8 (Z.of_nat (rank + k)) + 1) |>).
Proof.
  intros Hnd. revert rank l k; induction Hnd as [|j order Hj Hnd IH]; intros rank l k; [done|].
  destruct k as [|k]; cbn [lookup list_lookup place].
  - intros [= ->] Hs. rewrite place_other, list_lookup_alter_eq, Hs by done. cbn. by rewrite Nat.add_0_r.
  - intros Hk Hs. replace (rank + S k)%nat with (S rank + k)%nat by lia. apply IH; [done|].
    rewrite list_lookup_alter_ne; [done|]. intros ->. apply Hj. apply list_elem_of_lookup. by exists k.
Qed.
Lemma length_place rank order l : length (place rank order l) = length l.
Proof. revert rank l; induction order as [|j order IH]; intros; cbn; [done|]. by rewrite IH, length_alter. Qed.
Lemma rank_order_perm l : rank_order l ≡ₚ seq 0 (length l).
Proof. apply sort_by_perm. Qed.
Definition rank_key (l : list SeatStats) (i : nat) : Z := as_i32 (- score_of l i).
Lemma rank_le_spec l a b : rank_le l a b = true <->
  rank_key l a < rank_key l b \/ rank_key l a = rank_key l b /\ (a <= b)%nat.
Proof.
  unfold rank_le. cbv zeta. fold (rank_key l a) (rank_key l b).
  by rewrite orb_true_iff, andb_true_iff, Z.ltb_lt, Z.eqb_eq, Nat.leb_le.
Qed.
Lemma rank_order_sorted l : StronglySorted (fun a b => rank_le l a b = true) (rank_order l).
Proof.
  apply sort_by_sorted; [intros x y|intros x y z]; rewrite !rank_le_spec; lia.
Qed.
(** The seat at position [k] of the order is placed at [k + 1]. *)
Lemma place_all l (k i : nat) s : (length l <= 255)%nat -> rank_order l !! k = Some i -> l !! i = Some s ->
  place 0 (rank_order l) l !! i = Some (s <| placement := Z.of_nat k + 1 |>).
Proof.
  intros Hlen Hk Hs. rewrite (place_lookup 0 _ _ k i s); [|rewrite rank_order_perm; apply NoDup_seq|done..].
  assert (k < 255)%nat. { apply lookup_lt_Some in Hk. rewrite rank_order_perm, length_seq in Hk. lia. }
  unfold as_u8. rewrite Nat.add_0_l, (as_unsigned_small 8 (Z.of_nat k)) by lia.
  by rewrite as_unsigned_small by lia.
Qed.
Lemma sorted_positions l a b (i j : nat) : rank_order l !! a = Some i -> rank_order l !! b = Some j ->
  rank_le l j i = false -> (a < b)%nat.
Proof.
  intros Ha Hb Hle. destruct (Nat.lt_trichotomy a b) as [|[->|Hlt]]; [done| |].
  - rewrite Ha in Hb. injection Hb as ->. assert (rank_le l j j = true) as Heq by (rewrite rank_le_spec; lia). congruence.
  - pose proof (rank_order_sorted l) as Hs. revert a b Ha Hb Hlt.
    induction Hs as [|x r Hr IH Hx]; intros a b Ha Hb Hlt; [done|].
    destruct b as [|b], a as [|a]; try lia; cbn in Ha, Hb.
    + injection Hb as ->. rewrite Forall_forall in Hx. rewrite (Hx i) in Hle; [done|].
      apply list_elem_of_lookup. by exists a.
    + assert (S a < S b)%nat; [|lia]. pose proof (IH a b Ha Hb ltac:(lia)). lia.
Qed.
Lemma place_placements l : (length l <= 255)%nat ->
  map placement (place 0 (rank_order l) l) ≡ₚ map Z.of_nat (seq 1 (length l)).
Proof.
  intros Hlen. set (final := place 0 (rank_order l) l).
  assert (Hmap : map placement final ≡ₚ map (fun i => default 0 (placement <$> final !! i)) (rank_order l)).
  { rewrite rank_order_perm. apply reflexive_eq. apply list_eq. intros i. rewrite !list_lookup_fmap.
    destruct (decide (i < length l)%nat) as [Hlt|Hge].
    - rewrite lookup_seq_lt by done. cbn. destruct (lookup_lt_is_Some_2 final i) as [s Hs];
        [unfold final; by rewrite length_place|]. by rewrite Hs.
    - rewrite !lookup_ge_None_2; [done|by rewrite length_seq; lia|]. unfold final. rewrite length_place. lia. }
  rewrite Hmap. apply reflexive_eq. apply list_eq. intros k. rewrite !list_lookup_fmap.
  destruct (decide (k < length l)%nat) as [Hlt|Hge].
  - rewrite lookup_seq_lt by done. destruct (lookup_lt_is_Some_2 (rank_order l) k) as [i Hi];
      [by rewrite rank_order_perm, length_seq|].
    rewrite Hi. cbn. assert (i ∈ rank_order l) as Hin by (apply list_elem_of_lookup; by exists k).
    rewrite rank_order_perm, elem_of_seq in Hin.
    destruct (lookup_lt_is_Some_2 l i ltac:(lia)) as [s Hs].
    unfold final. rewrite (place_all l k i s Hlen Hi Hs). cbn. f_equal. lia.
  - rewrite !lookup_ge_None_2; [done|by rewrite length_seq; lia|]. rewrite rank_order_perm, length_seq. lia.
Qed.
Lemma place_inv l (i : nat) s : (length l <= 255)%nat -> place 0 (rank_order l) l !! i = Some s ->
  exists k s0, rank_order l !! k = Some i /\ l !! i = Some s0 /\ placement s = Z.of_nat k + 1 /\
    final_score s = final_score s0.
Proof.
  intros Hlen Hs. assert (Hi : (i < length l)%nat).
  { apply lookup_lt_Some in Hs. by rewrite length_place in Hs. }
  assert (i ∈ rank_order l) as Hin by (rewrite rank_order_perm, elem_of_seq; lia).
  apply list_elem_of_lookup in Hin as [k Hk]. destruct (lookup_lt_is_Some_2 l i Hi) as [s0 Hs0].
  rewrite (place_all l k i s0 Hlen Hk Hs0) in Hs. injection Hs as <-. by exists k, s0.
Qed.

(** Placements rank the seats by final score. They are a permutation of
    1..n; a higher score always places strictly better, and among equal scores
    the seat nearer the first dealer does. *)
Theorem placements_rank_by_score events g :
  replay events = Ok (Some g) -> (length (stat_players g) <= 255)%nat ->
  Forall (fun s => - 2 ^ 31 < final_score s < 2 ^ 31) (stat_players g) ->
  map placement (stat_players g) ≡ₚ map Z.of_nat (seq 1 (length (stat_players g))) /\
  forall (i j : nat) s t, stat_players g !! i = Some s -> stat_players g !! j = Some t ->
    final_score t < final_score s \/ final_score s = final_score t /\ (i < j)%nat ->
    placement s < placement t.
Proof.
  intros Hrun. destruct (replay_inv _ _ Hrun) as (start & names & st & _ & _ & ->). cbn [stat_players].
  set (l := final_scores _ (players st)). rewrite length_place. intros Hlen Hscores. split; [by apply place_placements|].
  intros i j s t Hi Hj Hlt. rewrite Forall_forall in Hscores.
  assert (Hsb : s ∈ place 0 (rank_order l) l) by (apply list_elem_of_lookup; by exists i).
  assert (Htb : t ∈ place 0 (rank_order l) l) by (apply list_elem_of_lookup; by exists j).
  apply Hscores in Hsb, Htb.
  destruct (place_inv _ _ _ Hlen Hi) as (a & s0 & Ha & Hs0 & -> & Hfs).
  destruct (place_inv _ _ _ Hlen Hj) as (b & t0 & Hb & Ht0 & -> & Hft).
  assert (a < b)%nat; [|lia]. apply (sorted_positions l a b i j Ha Hb).
  apply not_true_is_false. rewrite rank_le_spec. unfold rank_key, score_of. rewrite Hs0, Ht0, <- Hfs, <- Hft.
  rewrite !as_i32_small by (unfold in_i32; lia). lia.
Qed.

(** An ura dora indicator the converter would not have written ends the
    replay. [dora_from] panics exactly on a marker that is no honour and, its
    trailing r dropped, is empty or starts with a character of several bytes. *)
Theorem dora_from_panics marker :
  dora_from marker = Panic <->
  (marker ∉ WINDS) /\ (marker ∉ DRAGONS) /\ char_boundary (normalise marker) 1 = false.
Proof.
  assert (Hpos : forall l, position marker l = None <-> marker ∉ l).
  { induction l as [|x l IH]; cbn; [split; [by intros _ ?%not_elem_of_nil|done]|].
    rewrite not_elem_of_cons. destruct (String.eqb_spec x marker) as [->|Hne]; [intuition done|].
    destruct (position marker l); cbn; [|intuition congruence].
    split; [done|]. intros [_ Hn]. by apply IH in Hn. }
  unfold dora_from. rewrite <- !Hpos. destruct (position marker WINDS); [split; [done|by intros [? _]]|].
  destruct (position marker DRAGONS); [split; [done|by intros (_ & ? & _)]|].
  unfold split_at_1. destruct (normalise marker) as [|a rest].
  - split; [|done]. intros _. by split_and!.
  - destruct (char_boundary (String a rest) 1); cbn [mbind result_bind].
    + destruct (parse_u32 _); (split; [done|by intros (_ & _ & ?)]).
    + by split.
Qed.
End Counters.

(** ** A concrete game *)
Section StatsExamples.
Definition event (name : string) (members : list (string * json)) : json := JObj (("type", JStr name) :: members).
Definition short_game : list json :=
  [event "start_game" [("names", strs ["a"; "b"; "c"])];
   event "start_kyoku" [("oya", num 0); ("kyotaku", num 0)];
   event "tsumo" [("actor", num 1)]; event "reach_accepted" [("actor", num 1)];
   event "reach_accepted" [("actor", num 2)];
   event "hora" [("actor", num 1); ("target", num 2); ("deltas", nums [0; 9000; -8000]);
     ("scores", nums [35000; 43000; 26000]); ("fan", num 3); ("pai", JStr "3p");
     ("hora_tehais", strs ["1m"; "0p"]); ("uradora_markers", strs ["2p"])];
   event "end_kyoku" [];
   event "start_kyoku" [("oya", num 1)];
   event "hora" [("actor", num 0); ("target", num 0); ("scores", nums [35000; 43000; 26000])];
   event "end_kyoku" []].
Definition short_stats : GameStats :=
  match replay short_game with Ok (Some g) => g | _ => mkStats 0 false [] end.
Lemma counters_consistent_witness :
  map (fun s => (wins s, deal_ins s, riichi s, riichi_ura_hits s)) (stat_players short_stats)
    = [(1, 0, 0, 0); (1, 0, 1, 1); (0, 1, 1, 0)] /\
  total unpaid (stat_players short_stats) = 0.
Proof.
  split; [vm_compute; reflexivity|].
  apply (counters_consistent short_game short_stats); [vm_compute; discriminate|vm_compute; reflexivity].
Defined.
Lemma placements_rank_by_score_witness :
  map placement (stat_players short_stats) = [2; 1; 3] /\
  map placement (stat_players short_stats) ≡ₚ map Z.of_nat (seq 1 3).
Proof.
  split; [vm_compute; reflexivity|].
  apply (placements_rank_by_score short_game short_stats); [vm_compute; reflexivity|vm_compute; lia|].
  apply (Forall_fmap final_score (fun z => - 2 ^ 31 < z < 2 ^ 31)).
  replace (final_score <$> stat_players short_stats) with [35000; 43000; 26000] by (vm_compute; reflexivity).
  repeat constructor.
Defined.
End StatsExamples.
