(* ===== verification/Stream.v ===== *)
(** What a converted mjai stream guarantees to those who read it: the event
    discipline of [src/src/majsoul/convert.rs], and what [src/src/mjai.rs] and
    [src/src/replay.rs] make of its output. *)
From S2P Require Import Prelude Text Tiles Json Proto Events Convert Mjai Replay.
#[local] Open Scope string_scope.
#[local] Open Scope list_scope.
#[local] Open Scope Z_scope.
Import Proto Events Convert.

(** ** Reading events *)
Definition kind : json -> option string := Replay.kind.
Definition int_of (v : json) : option Z :=
  match v with JNum (PosInt n) | JNum (NegInt n) => Some n | _ => None end.
Definition int_field (name : string) (e : json) : option Z := get name e ≫= int_of.
Lemma int_of_num n : int_of (num n) = Some n.
Proof. unfold num. by destruct (0 <=? n). Qed.
Definition is_kind (name : string) (e : json) : bool :=
  match kind e with Some k => String.eqb k name | None => false end.

(** ** The time stamps *)
(** [e'] is [e], or [e] with its [dt_ms] written. *)
Definition stamped (e e' : json) : Prop := e' = e \/ exists n, index_set "dt_ms" (num n) e = Ok e'.
Lemma stamped_get key e e' : stamped e e' -> is_object e = true -> key <> "dt_ms" -> get key e' = get key e.
Proof.
  intros [->|[n Hn]] Ho Hk; [done|]. destruct e; try done. injection Hn as <-. cbn. by apply assoc_set_other.
Qed.
Lemma stamped_object e e' : stamped e e' -> is_object e = true -> is_object e' = true.
Proof. intros [->|[n Hn]] Ho; [done|]. destruct e; try done. by injection Hn as <-. Qed.

Definition dt (e : json) : Z := default 0 (get "dt_ms" e ≫= as_u64).
Definition total_dt (l : list json) : Z := foldr (fun e acc => dt e + acc) 0 l.
Lemma total_dt_app l k : total_dt (l ++ k) = total_dt l + total_dt k.
Proof. induction l as [|e l IH]; cbn; [done|]. fold (total_dt (l ++ k)) (total_dt l). lia. Qed.
Lemma index_set_dt n e e' : 0 <= n -> index_set "dt_ms" (num n) e = Ok e' -> dt e' = n.
Proof.
  intros Hn. assert (H : forall o, dt (JObj (assoc_set "dt_ms" (num n) o)) = n).
  { intros o. unfold dt, get. by rewrite assoc_set_same; cbn [mbind option_bind]; rewrite as_u64_num. }
  destruct e; try done; intros [= <-]; [apply (H [])|apply H].
Qed.
Lemma mapM_stamp l l' : mapM (index_set "dt_ms" (num 0)) l = Ok l' -> total_dt l' = 0 /\ Forall2 stamped l l'.
Proof.
  assert (Hset : forall e e', index_set "dt_ms" (num 0) e = Ok e' -> dt e' = 0 /\ stamped e e').
  { intros e e' He. split; [by apply (index_set_dt 0 e)|]. right. by exists 0. }
  set (f := index_set "dt_ms" (num 0)) in *. clearbody f.
  revert l'; induction l as [|e l IH]; intros l'; cbn; [by intros [= <-]|].
  destruct (f e) as [e'| |] eqn:E; cbn; [|done..].
  destruct (mapM f l) as [k| |] eqn:Em; cbn; [|done..]. intros [= <-].
  destruct (IH k eq_refl) as [Ht Hs], (Hset e e' E) as [Hd Hst]. cbn. fold (total_dt k).
  split; [lia|by constructor].
Qed.
Lemma stamp_spec gap l l' : 0 <= gap -> stamp gap l = Ok l' ->
  Forall2 stamped l l' /\ (l <> [] -> total_dt l' = gap).
Proof.
  intros Hgap. destruct l as [|e l]; [intros [= <-]; by split|]. unfold stamp.
  destruct (index_set "dt_ms" (num gap) e) as [e'| |] eqn:E; cbn [mbind result_bind]; [|done..].
  destruct (mapM _ l) as [k| |] eqn:Em; cbn [mbind result_bind]; [|done..]. intros [= <-].
  destruct (mapM_stamp _ _ Em) as [Ht Hs]. split; [constructor; [right; by exists gap|done]|].
  intros _. cbn. fold (total_dt k). rewrite (index_set_dt gap e e') by done. lia.
Qed.

(** ** What each game event emits *)
Definition reach_accepted (actor : Z) : json := JObj [("type", JStr "reach_accepted"); ("actor", num actor)].
Definition accepted_events (st : State) : list json :=
  match pending_reach st with Some actor => [reach_accepted actor] | None => [] end.
Definition doras_after (st : State) (face_up : list string) : list json :=
  map dora_event (drop (length (revealed_doras st)) face_up).
(** The events appended by [on_event]; where the body of an event does not
    matter to its readers here, the handler's own last event stands for it. *)
Lemma accept_reach_spec st :
  mjai_events (accept_reach st) = mjai_events st ++ accepted_events st /\
  pending_reach (accept_reach st) = None /\ last_discarder (accept_reach st) = last_discarder st /\
  kan_pending_chankan (accept_reach st) = kan_pending_chankan st /\
  revealed_doras (accept_reach st) = revealed_doras st /\ previous_ms (accept_reach st) = previous_ms st.
Proof.
  unfold accept_reach, accepted_events. destruct (pending_reach st) eqn:E; cbn; [done|]. by rewrite app_nil_r.
Qed.
Lemma announce_spec face_up st :
  mjai_events (announce face_up st) = mjai_events st ++ doras_after st face_up /\
  pending_reach (announce face_up st) = pending_reach st /\ last_discarder (announce face_up st) = last_discarder st /\
  kan_pending_chankan (announce face_up st) = kan_pending_chankan st /\ previous_ms (announce face_up st) = previous_ms st.
Proof. done. Qed.

(** ** The discipline of the stream *)
(** A reader that follows a stream: whose riichi is still to be accepted, who
    discarded last, whose added kan can still be robbed. *)
Record Watch := mkWatch { reach : option Z; discarder : option Z; kan : option Z }.
Definition ron_from (w : Watch) (winner : Z) : Z :=
  match kan w with
  | Some seat => if negb (seat =? winner) then seat else default 0 (discarder w)
  | None => default 0 (discarder w)
  end.
(** [None] on an event out of order: a draw, call or draw game while a riichi
    waits, an acceptance nobody waits for or of another seat, or a win whose
    target is neither the winner nor the seat it can be taken from. *)
Definition watch (w : Watch) (e : json) : option Watch :=
  let actor := int_field "actor" e in
  let quiet := match reach w with None => Some w | Some _ => None end in
  match kind e with
  | Some "start_kyoku" | Some "end_kyoku" => Some (mkWatch None (discarder w) (kan w))
  | Some "reach" => match actor with Some a => Some (mkWatch (Some a) (discarder w) (kan w)) | None => None end
  | Some "reach_accepted" =>
    match reach w, actor with
    | Some a, Some b => if a =? b then Some (mkWatch None (discarder w) (kan w)) else None
    | _, _ => None
    end
  | Some "dahai" => match actor with Some a => Some (mkWatch (reach w) (Some a) None) | None => None end
  | Some "ankan" => Some (mkWatch (reach w) (discarder w) None)
  | Some "kakan" => match actor with Some a => Some (mkWatch (reach w) (discarder w) (Some a)) | None => None end
  | Some "tsumo" | Some "chi" | Some "pon" | Some "daiminkan" | Some "ryukyoku" => quiet
  | Some "hora" =>
    match actor, int_field "target" e with
    | Some a, Some t =>
      if (t =? a) || (t =? ron_from w a) then Some w else None
    | _, _ => None
    end
  | _ => Some w
  end.
Fixpoint watch_all (w : Watch) (l : list json) : option Watch :=
  match l with [] => Some w | e :: l => watch w e ≫= fun w => watch_all w l end.
Lemma watch_all_app w l k : watch_all w (l ++ k) = watch_all w l ≫= fun w => watch_all w k.
Proof. revert w; induction l as [|e l IH]; intros w; cbn; [done|]. destruct (watch w e); cbn; [apply IH|done]. Qed.
Lemma watch_stamped w e e' : stamped e e' -> is_object e = true -> watch w e' = watch w e.
Proof.
  intros Hs Ho. unfold watch, int_field, kind, Replay.kind.
  by rewrite !(stamped_get _ _ _ Hs Ho) by done.
Qed.
Lemma watch_all_stamped w l l' : Forall2 stamped l l' -> Forall (fun e => is_object e = true) l ->
  watch_all w l' = watch_all w l.
Proof.
  intros Hs. revert w; induction Hs as [|e e' l l' He _ IH]; intros w; [done|].
  intros [Ho Hl]%Forall_cons. cbn. rewrite (watch_stamped w e e') by done. destruct (watch w e); cbn; [by apply IH|done].
Qed.
Lemma watch_doras w l : watch_all w (map dora_event l) = Some w.
Proof. induction l as [|m l IH]; cbn; [done|]. apply IH. Qed.

(** What the reader knows is what the converter's state holds. *)
Definition follows (w : Watch) (st : State) : Prop :=
  w = mkWatch (pending_reach st) (last_discarder st) (kan_pending_chankan st).
Lemma watch_accepted w st : follows w st ->
  watch_all w (accepted_events st) = Some (mkWatch None (last_discarder st) (kan_pending_chankan st)).
Proof.
  intros ->. unfold accepted_events. destruct (pending_reach st) as [a|]; [|done].
  cbn. unfold int_field. cbn. rewrite int_of_num. cbn. by rewrite Z.eqb_refl.
Qed.

(** An event of the body of a stream. *)
Definition body_event (e : json) : Prop :=
  is_object e = true /\ exists k, kind e = Some k /\ k <> "start_game" /\ k <> "end_game".
(** The ura indicators a win carries are ones the statistics can read. *)
Definition readable_marker (m : string) : Prop := Replay.dora_from m <> Panic.
Definition readable_event (e : json) : Prop :=
  is_kind "hora" e = true ->
  Forall readable_marker (omap as_str (Replay.array (get "uradora_markers" e))).
Definition readable_input (event : GameEvent) : Prop :=
  match event with
  | EHule h => Forall (fun hule => Forall readable_marker (ura_doras hule)) (hules h)
  | _ => True
  end.
(** [st'] is [st] after emitting [new], which a reader in step with [st] follows
    to be in step with [st']. *)
Record emits (q : Prop) (new : list json) (st st' : State) : Prop := {
  em_events : mjai_events st' = mjai_events st ++ new;
  em_some : new <> [];
  em_body : Forall body_event new;
  em_readable : q -> Forall readable_event new;
  em_time : previous_ms st' = previous_ms st;
  em_watch : forall w, follows w st -> exists w', watch_all w new = Some w' /\ follows w' st'
}.
Lemma body_dora l : Forall body_event (map dora_event l) /\ Forall readable_event (map dora_event l).
Proof. split; apply Forall_map, Forall_true; intros m; [split; [done|by eexists]|done]. Qed.
Lemma body_accepted st : Forall body_event (accepted_events st) /\ Forall readable_event (accepted_events st).
Proof.
  unfold accepted_events. destruct (pending_reach st); [|done].
  split; (constructor; [|constructor]); [split; [done|by eexists]|done].
Qed.
(** Splits a list of emitted events and closes the parts that are not wins. *)
Ltac body := repeat first
  [ apply Forall_app; split | apply body_dora | apply body_accepted | apply Forall_nil_2
  | apply Forall_cons; split; [first [split; [done|by eexists] | done]|] ].
(** Runs the reader over a list of emitted events. *)
Ltac follow :=
  repeat first
  [ rewrite watch_all_app | rewrite watch_doras | rewrite watch_accepted by done
  | progress cbn [mbind option_bind] ].

Ltac events :=
  unfold announce, push_new_doras, emit, push, set_field;
  cbn [mjai_events pending_reach last_discarder kan_pending_chankan revealed_doras previous_ms].

Lemma on_new_round_emits q np nr st : exists new, emits q new st (on_new_round np nr st).
Proof.
  eexists. split.
  - unfold on_new_round. events. rewrite <- app_assoc. reflexivity.
  - done.
  - body.
  - intros _. body.
  - done.
  - intros w ->. cbn. rewrite watch_doras. by eexists.
Qed.
Lemma on_deal_tile_emits q dt st : exists new, emits q new st (on_deal_tile dt st).
Proof.
  unfold on_deal_tile. destruct (accept_reach_spec st) as (He & Hp & Hd & Hk & Hr & Ht).
  set (st1 := accept_reach st) in *. clearbody st1.
  eexists. split.
  - events. rewrite He, <- !app_assoc. reflexivity.
  - by destruct (accepted_events st).
  - body.
  - intros _; body.
  - done.
  - intros w Hw. rewrite watch_all_app, (watch_accepted w st Hw). cbn. rewrite watch_doras.
    eexists. split; [done|]. unfold follows. events. by rewrite Hp, Hd, Hk.
Qed.
Lemma on_discard_tile_emits q dt st : exists new, emits q new st (on_discard_tile dt st).
Proof.
  unfold on_discard_tile. destruct (is_liqi dt || is_wliqi dt).
  all: eexists; split;
    [ events; rewrite <- ?app_assoc; reflexivity | done | body | intros _; body | done | ].
  all: intros w ->; cbn; unfold int_field; cbn; rewrite ?int_of_num; cbn; unfold int_field; cbn;
    rewrite ?int_of_num; cbn; rewrite watch_doras; by eexists.
Qed.
Lemma on_chi_peng_gang_emits q cpg st : exists new, emits q new st (on_chi_peng_gang cpg st).
Proof.
  unfold on_chi_peng_gang. destruct (accept_reach_spec st) as (He & Hp & Hd & Hk & Hr & Ht).
  set (st1 := accept_reach st) in *. clearbody st1.
  eexists. split.
  - events. rewrite He, <- app_assoc. reflexivity.
  - by destruct (accepted_events st).
  - destruct (call_type cpg); body.
  - intros _. destruct (call_type cpg); body.
  - done.
  - intros w Hw. rewrite watch_all_app, (watch_accepted w st Hw). cbn. unfold follows. events.
    rewrite Hp, Hd, Hk. destruct (call_type cpg); by eexists.
Qed.
Lemma on_an_gang_add_gang_emits q ag st st' : on_an_gang_add_gang ag st = Ok st' ->
  exists new, emits q new st st'.
Proof.
  unfold on_an_gang_add_gang. destruct (gang_type ag).
  - cbn [mbind result_bind]. intros [= <-]. eexists; split;
      [ events; rewrite <- ?app_assoc; reflexivity | done | body | intros _; body | done | ].
    intros w ->. cbn. unfold int_field. cbn. rewrite int_of_num. cbn. rewrite watch_doras. by eexists.
  - destruct (generate_ankan_tiles (ag_tiles ag)) as [consumed| |]; cbn [mbind result_bind]; [|done..].
    intros [= <-]. eexists; split;
      [ events; rewrite <- ?app_assoc; reflexivity | done | body | intros _; body | done | ].
    intros w ->. cbn. rewrite watch_doras. by eexists.
Qed.
Lemma hule_events h hules st st0 :
  foldl (fun st' hule => emit (hora_event st0 h hule) st') st hules =
    st <| mjai_events ::= fun l => l ++ map (hora_event st0 h) hules |>.
Proof.
  revert st; induction hules as [|hule hules IH]; intros st; cbn [foldl map].
  - unfold set_field. rewrite app_nil_r. by destruct st.
  - rewrite IH. unfold emit, push, set_field. cbn [mjai_events]. by rewrite <- app_assoc.
Qed.
Lemma watch_horas w st h hules : follows w st ->
  watch_all w (map (hora_event (st <| pending_reach := None |>) h) hules) = Some w.
Proof.
  intros ->. induction hules as [|hule hules IH]; [done|]. cbn [map watch_all].
  assert (watch (mkWatch (pending_reach st) (last_discarder st) (kan_pending_chankan st))
    (hora_event (st <| pending_reach := None |>) h hule) =
    Some (mkWatch (pending_reach st) (last_discarder st) (kan_pending_chankan st))) as ->; [|done].
  unfold watch, int_field, hora_event, hule_target. cbn. rewrite !int_of_num. unfold ron_from. cbn.
  destruct (zimo hule); [by rewrite Z.eqb_refl|]. by rewrite Z.eqb_refl, orb_true_r.
Qed.
Lemma on_hule_emits h st : exists new, emits (readable_input (EHule h)) new st (on_hule h st).
Proof.
  unfold on_hule. rewrite hule_events.
  exists (map (hora_event (st <| pending_reach := None |>) h) (hules h) ++ [end_kyoku]). split.
  - events. rewrite <- app_assoc. reflexivity.
  - by destruct (hules h).
  - body. apply Forall_map, Forall_true. intros hule. split; [done|by eexists].
  - intros Hq. body. apply Forall_map. eapply Forall_impl; [exact Hq|]. intros hule Hm _.
    assert (Hstr : forall l, omap as_str (map JStr l) = l) by (intros l; induction l; cbn; congruence).
    cbn. by rewrite Hstr.
  - done.
  - intros w Hw. rewrite watch_all_app, watch_horas by done. cbn. eexists. split; [done|].
    by rewrite Hw.
Qed.
Lemma on_no_tile_emits q nt st : exists new, emits q new st (on_no_tile nt st).
Proof.
  unfold on_no_tile. destruct (accept_reach_spec st) as (He & Hp & Hd & Hk & Hr & Ht).
  set (st1 := accept_reach st) in *. clearbody st1. eexists. split.
  - events. rewrite He, <- !app_assoc. reflexivity.
  - by destruct (accepted_events st).
  - body.
  - intros _; body.
  - done.
  - intros w Hw. rewrite watch_all_app, (watch_accepted w st Hw). cbn. eexists. split; [done|].
    unfold follows. events. by rewrite Hp, Hd, Hk.
Qed.
Lemma on_liu_ju_emits q lj st : exists new, emits q new st (on_liu_ju lj st).
Proof.
  unfold on_liu_ju. destruct (accept_reach_spec st) as (He & Hp & Hd & Hk & Hr & Ht).
  set (st1 := accept_reach st) in *. clearbody st1. eexists. split.
  - events. rewrite He, <- !app_assoc. reflexivity.
  - by destruct (accepted_events st).
  - body.
  - intros _; body.
  - done.
  - intros w Hw. rewrite watch_all_app, (watch_accepted w st Hw). cbn. eexists. split; [done|].
    unfold follows. events. by rewrite Hp, Hd, Hk.
Qed.
Lemma on_babei_emits q bb st : exists new, emits q new st (on_babei bb st).
Proof.
  unfold on_babei. eexists. split.
  - events. rewrite <- app_assoc. reflexivity.
  - done.
  - body.
  - intros _; body.
  - done.
  - intros w ->. cbn. rewrite watch_doras. by eexists.
Qed.
Lemma on_event_emits np event st st' : on_event np event st = Ok st' ->
  exists new, emits (readable_input event) new st st'.
Proof.
  destruct event; cbn [on_event]; try intros [= <-].
  - apply on_new_round_emits.
  - apply on_deal_tile_emits.
  - apply on_discard_tile_emits.
  - apply on_chi_peng_gang_emits.
  - apply on_an_gang_add_gang_emits.
  - apply on_hule_emits.
  - apply on_no_tile_emits.
  - apply on_liu_ju_emits.
  - apply on_babei_emits.
Qed.

(** ** Whole streams *)
Lemma body_stamped l l' : Forall2 stamped l l' -> Forall body_event l -> Forall body_event l'.
Proof.
  induction 1 as [|e e' l l' He _ IH]; [done|]. intros [[Ho (k & Hk & Hne)] Hl]%Forall_cons.
  constructor; [|by apply IH]. split; [by eapply stamped_object|]. exists k. split; [|done].
  unfold kind, Replay.kind. by rewrite (stamped_get _ _ _ He Ho).
Qed.
Lemma readable_stamped l l' : Forall2 stamped l l' -> Forall body_event l ->
  Forall readable_event l -> Forall readable_event l'.
Proof.
  induction 1 as [|e e' l l' He _ IH]; [done|]. intros [[Ho _] Hl]%Forall_cons [Hr Hrs]%Forall_cons.
  constructor; [|by apply IH]. unfold readable_event, is_kind, kind, Replay.kind in *.
  by rewrite !(stamped_get _ _ _ He Ho) by done.
Qed.
Lemma body_objects l : Forall body_event l -> Forall (fun e => is_object e = true) l.
Proof. intros H. eapply Forall_impl; [exact H|]. by intros e [Ho _]. Qed.

(** The time stamps of the input, never going back. *)
Fixpoint forward (from : Z) (events : list (option Z * GameEvent)) : Prop :=
  match events with
  | [] => True
  | (Some t, _) :: events => from <= t /\ forward t events
  | (None, _) :: _ => False
  end.
Fixpoint last_time (from : Z) (events : list (option Z * GameEvent)) : Z :=
  match events with
  | [] => from
  | (Some t, _) :: events => last_time t events
  | (None, _) :: events => last_time from events
  end.
Definition readable_inputs (events : list (option Z * GameEvent)) : Prop :=
  Forall (fun timed => readable_input (snd timed)) events.

Lemma step_spec np timed st st' w : follows w st -> step np timed st = Ok st' ->
  exists new, mjai_events st' = mjai_events st ++ new /\ Forall body_event new /\
    (readable_input (snd timed) -> Forall readable_event new) /\
    (exists w', watch_all w new = Some w' /\ follows w' st') /\
    (forall t, fst timed = Some t -> previous_ms st <= t ->
       total_dt new = t - previous_ms st /\ previous_ms st' = t).
Proof.
  intros Hw. unfold step. destruct (on_event np (snd timed) st) as [st1| |] eqn:E; cbn [mbind result_bind]; [|done..].
  destruct (on_event_emits _ _ _ _ E) as [new [He Hne Hb Hr Ht Hwatch]].
  destruct (Hwatch w Hw) as (w' & Hw' & Hf').
  destruct (fst timed) as [t|].
  2: { intros [= <-]. exists new. split_and!; try done. by exists w'. }
  rewrite He, drop_app_length, take_app_length.
  destruct (stamp (sat_sub t (previous_ms st1)) new) as [stamped_| |] eqn:Es; cbn [mbind result_bind]; [|done..].
  assert (Hgap : 0 <= sat_sub t (previous_ms st1)) by (unfold sat_sub; lia).
  destruct (stamp_spec _ _ _ Hgap Es) as [Hst Htot]. intros [= <-].
  exists stamped_. split_and!.
  - done.
  - by eapply body_stamped.
  - intros Hq. eapply readable_stamped; [exact Hst|done|by apply Hr].
  - exists w'. split; [|by rewrite Hf']. rewrite <- Hw'. by apply watch_all_stamped; [|apply body_objects].
  - intros t' [= <-] Hle. split; [|done]. rewrite (Htot Hne), Ht. unfold sat_sub. lia.
Qed.
Lemma steps_spec np events st st' w : follows w st -> steps np events st = Ok st' ->
  exists new, mjai_events st' = mjai_events st ++ new /\ Forall body_event new /\
    (readable_inputs events -> Forall readable_event new) /\
    (exists w', watch_all w new = Some w' /\ follows w' st') /\
    (forward (previous_ms st) events -> total_dt new = last_time (previous_ms st) events - previous_ms st).
Proof.
  revert st w; induction events as [|timed events IH]; intros st w Hw; cbn [steps].
  - intros [= <-]. exists []. rewrite app_nil_r. split_and!; try done; [by exists w|]. unfold last_time. cbn. lia.
  - destruct (step np timed st) as [st1| |] eqn:E; cbn [mbind result_bind]; [|done..]. intros Hrun.
    destruct (step_spec _ _ _ _ _ Hw E) as (new1 & He1 & Hb1 & Hr1 & (w1 & Hw1 & Hf1) & Ht1).
    destruct (IH _ _ Hf1 Hrun) as (new2 & He2 & Hb2 & Hr2 & (w2 & Hw2 & Hf2) & Ht2).
    exists (new1 ++ new2). split_and!.
    + by rewrite He2, He1, app_assoc.
    + by apply Forall_app.
    + intros [Hq Hqs]%Forall_cons. apply Forall_app. split; [by apply Hr1|by apply Hr2].
    + exists w2. split; [|done]. by rewrite watch_all_app, Hw1.
    + destruct timed as [[t|] event]; [|done]. cbn [forward]. intros [Hle Hfw]. rewrite total_dt_app.
      destruct (Ht1 t eq_refl Hle) as [-> Hp]. rewrite Hp in Ht2. rewrite (Ht2 Hfw).
      cbn [last_time]. lia.
Qed.

Lemma converted record events metadata out : events_to_mjai record events metadata = Ok out ->
  exists body, out = start_game record metadata :: body ++ [end_game (settlement record)] /\
    Forall body_event body /\ (readable_inputs events -> Forall readable_event body) /\
    is_Some (watch_all (mkWatch None None None) body) /\
    (forward 0 events -> total_dt body = last_time 0 events).
Proof.
  unfold events_to_mjai. set (st0 := mkState _ _ _ _ _ _).
  destruct (steps _ events st0) as [st| |] eqn:E; cbn [mbind result_bind]; [|done..]. intros [= <-].
  assert (Hw : follows (mkWatch None None None) st0) by done.
  destruct (steps_spec _ _ _ _ _ Hw E) as (body & He & Hb & Hr & (w' & Hw' & _) & Ht).
  exists body. rewrite He. split_and!; try done. intros Hf. rewrite (Ht Hf). cbn. lia.
Qed.

(** ** Who pays for a win

    What the record says, the newest event first: who discarded last, and whose
    added kan nobody discarded or closed a kan after. *)
Definition discards (e : GameEvent) : option Z := match e with EDiscardTile d => Some (ds_seat d) | _ => None end.
Definition last_discard (before : list GameEvent) : option Z := head (omap discards before).
Definition robbable (before : list GameEvent) : option Z :=
  match List.find (fun e => match e with EDiscardTile _ | EAnGangAddGang _ => true | _ => false end) before with
  | Some (EAnGangAddGang ag) => match gang_type ag with Kakan => Some (ag_seat ag) | Ankan => None end
  | _ => None
  end.
(** Nobody but the winner at a tsumo; otherwise whoever's added kan is robbed, and
    otherwise who discarded last; seat 0 when nobody did. *)
Definition payer (before : list GameEvent) (hule : HuleInfo) : Z :=
  if zimo hule then hi_seat hule
  else match robbable before with
       | Some robbed => if decide (robbed = hi_seat hule) then default 0 (last_discard before) else robbed
       | None => default 0 (last_discard before)
       end.
(** The wins of a record, with who pays for each. *)
Fixpoint wins (before events : list GameEvent) : list (Z * Z) :=
  match events with
  | [] => []
  | e :: events =>
    (match e with EHule h => map (fun hule => (hi_seat hule, payer before hule)) (hules h) | _ => [] end) ++ wins (e :: before) events
  end.
(** The same of a stream: the actor and the target of each [hora]. *)
Definition taken (e : json) : option (Z * Z) :=
  if is_kind "hora" e then a ← int_field "actor" e; t ← int_field "target" e; Some (a, t) else None.
Lemma taken_stamped e e' : stamped e e' -> is_object e = true -> taken e' = taken e.
Proof. intros Hs Ho. unfold taken, is_kind, int_field, kind, Replay.kind. by rewrite !(stamped_get _ _ _ Hs Ho) by done. Qed.
Lemma taken_all_stamped l l' : Forall2 stamped l l' -> Forall (fun e => is_object e = true) l -> omap taken l' = omap taken l.
Proof.
  induction 1 as [|e e' l l' He _ IH]; [done|]. intros [Ho Hl]%Forall_cons. cbn. by rewrite (taken_stamped e e'), IH.
Qed.
Lemma taken_doras l : omap taken (map dora_event l) = [].
Proof. induction l as [|m l IH]; [done|exact IH]. Qed.
Lemma taken_accepted st : omap taken (accepted_events st) = [].
Proof. unfold accepted_events. by destruct (pending_reach st). Qed.
Lemma taken_hora st h hule : taken (hora_event st h hule) = Some (hi_seat hule, hule_target st hule).
Proof. unfold taken, int_field, hora_event. cbn. by rewrite !int_of_num. Qed.
(** The converter keeps of the past what [payer] looks for. *)
Definition knows (before : list GameEvent) (st : State) : Prop :=
  last_discarder st = last_discard before /\ kan_pending_chankan st = robbable before.
Lemma knows_payer before st hule : knows before st -> hule_target st hule = payer before hule.
Proof.
  intros [H1 H2]. unfold hule_target, payer. rewrite H1, H2. destruct (zimo hule); [done|].
  destruct (robbable before) as [seat|]; [|done]. by destruct (decide (seat = hi_seat hule)) as [E|E]; [apply Z.eqb_eq in E|apply Z.eqb_neq in E]; rewrite E.
Qed.
Lemma on_hule_wins before h st : knows before st ->
  knows (EHule h :: before) (on_hule h st) /\
  omap taken (mjai_events (on_hule h st)) =
    omap taken (mjai_events st) ++ map (fun hule => (hi_seat hule, payer before hule)) (hules h).
Proof.
  intros Hk. split; unfold on_hule; rewrite hule_events; [by split; events; apply Hk|].
  events. rewrite !omap_app, app_nil_r. f_equal. induction (hules h) as [|hule l IH]; [done|]. cbn [map omap list_omap].
  rewrite taken_hora, IH. by rewrite (knows_payer before).
Qed.
Lemma on_event_wins np event st st' before : knows before st -> on_event np event st = Ok st' ->
  knows (event :: before) st' /\
  omap taken (mjai_events st') = omap taken (mjai_events st) ++
    match event with EHule h => map (fun hule => (hi_seat hule, payer before hule)) (hules h) | _ => [] end.
Proof.
  intros Hk. destruct event as [nr|dt|dt|cpg|ag|h|nt|lj|bb]; cbn [on_event].
  6: { intros [= <-]. by apply on_hule_wins. }
  all: destruct (accept_reach_spec st) as (He & _ & Hd & Hc & _ & _); pose proof (taken_accepted st) as Ha; destruct Hk as [Hk1 Hk2].
  all: try (unfold on_an_gang_add_gang; destruct (gang_type ag) eqn:Eg; [|destruct (generate_ankan_tiles _); [|done..]]; cbn [mbind result_bind]).
  all: intros [= <-].
  all: unfold on_new_round, on_deal_tile, on_discard_tile, on_chi_peng_gang, on_no_tile, on_liu_ju, on_babei; try (destruct (is_liqi dt || is_wliqi dt)).
  all: set (st1 := accept_reach st) in *; clearbody st1.
  all: split; [split; events; rewrite ?Hd, ?Hc; unfold robbable; cbn; rewrite ?Eg; done|].
  all: events; rewrite ?He, ?omap_app, ?taken_doras, ?Ha; cbn; rewrite ?app_nil_r; try done.
  by destruct (call_type cpg); rewrite app_nil_r.
Qed.
Lemma step_wins np timed st st' before : knows before st -> Forall (fun e => is_object e = true) (mjai_events st) -> step np timed st = Ok st' ->
  knows (snd timed :: before) st' /\ Forall (fun e => is_object e = true) (mjai_events st') /\
  omap taken (mjai_events st') = omap taken (mjai_events st) ++
    match snd timed with EHule h => map (fun hule => (hi_seat hule, payer before hule)) (hules h) | _ => [] end.
Proof.
  intros Hk Ho. unfold step. destruct (on_event np (snd timed) st) as [st1| |] eqn:E; cbn [mbind result_bind]; [|done..].
  destruct (on_event_wins _ _ _ _ _ Hk E) as [Hk1 Hw]. destruct (on_event_emits _ _ _ _ E) as [new [He _ Hb _ _ _]].
  assert (Hn : Forall (fun e => is_object e = true) new) by by apply body_objects. destruct (fst timed) as [t|].
  - rewrite He, drop_app_length, take_app_length. destruct (stamp _ new) as [l| |] eqn:Es; cbn [mbind result_bind]; [|done..].
    intros [= <-]. assert (Hgap : 0 <= sat_sub t (previous_ms st1)) by (unfold sat_sub; lia).
    destruct (stamp_spec _ _ _ Hgap Es) as [Hst _]. split; [exact Hk1|].
    events. rewrite He, omap_app in Hw. rewrite omap_app, (taken_all_stamped new l Hst Hn). split; [|done].
    apply Forall_app. split; [done|]. apply body_objects. by eapply body_stamped.
  - intros [= <-]. split_and!; [done| |done]. rewrite He. by apply Forall_app.
Qed.
Lemma steps_wins np events : forall st st' before, knows before st -> Forall (fun e => is_object e = true) (mjai_events st) ->
  steps np events st = Ok st' -> omap taken (mjai_events st') = omap taken (mjai_events st) ++ wins before (map snd events).
Proof.
  induction events as [|timed events IH]; intros st st' before Hk Ho; cbn [steps map wins].
  { intros [= <-]. by rewrite app_nil_r. }
  destruct (step np timed st) as [st1| |] eqn:E; cbn [mbind result_bind]; [|done..]. intros Hrun.
  destruct (step_wins _ _ _ _ _ Hk Ho E) as (Hk1 & Ho1 & Hw). by rewrite (IH _ _ _ Hk1 Ho1 Hrun), Hw, app_assoc.
Qed.

(** C36: the converted stream keeps mjai's order of play, and says who pays. Read from
    the front, no tile is drawn, no call made and no draw game declared while a riichi
    still waits, and every [reach_accepted] answers the last [reach], of the same seat.
    Its wins are those of the record, in their order, each with its target: the winner
    itself if the record calls it self-drawn; otherwise the seat whose added
    kan came after the last discard and the last closed kan, if that is not the winner,
    or else the seat of the last discard (0 if nobody has discarded). The stream opens
    with its one [start_game] and closes with its one [end_game]. *)
Theorem converted_stream_in_order record events metadata out :
  events_to_mjai record events metadata = Ok out ->
  is_Some (watch_all (mkWatch None None None) out) /\
  omap taken out = wins [] (map snd events) /\
  exists body, out = start_game record metadata :: body ++ [end_game (settlement record)] /\
    Forall (fun e => is_kind "start_game" e = false /\ is_kind "end_game" e = false) body.
Proof.
  intros H. destruct (converted _ _ _ _ H) as (body & E & Hb & _ & [w' Hw] & _). split_and!.
  - rewrite E. cbn. rewrite watch_all_app, Hw. cbn. by eexists.
  - unfold events_to_mjai in H. destruct (steps _ events _) as [st| |] eqn:Es; cbn [mbind result_bind] in H; [|done..]. injection H as <-.
    pose proof (fun Hk Ho => steps_wins _ _ _ _ [] Hk Ho Es) as Hs. rewrite omap_app, Hs by (by split || by repeat constructor).
    cbn. by rewrite app_nil_r.
  - exists body. split; [done|]. eapply Forall_impl; [exact Hb|]. intros e (_ & k & Hk & H1 & H2).
    unfold is_kind. rewrite Hk. split; by apply String.eqb_neq.
Qed.

(** The clock of the stream is the clock of the record. When the record's
    time stamps never go back, the [dt_ms] of all events add up to the last of
    them: no gap is lost or counted twice, however many events one record
    becomes. *)
Theorem converted_clock record events metadata out :
  events_to_mjai record events metadata = Ok out -> forward 0 events ->
  total_dt out = last_time 0 events.
Proof.
  intros H Hf. destruct (converted _ _ _ _ H) as (body & -> & _ & _ & _ & Ht).
  cbn. fold (total_dt (body ++ [end_game (settlement record)])). rewrite total_dt_app, (Ht Hf). cbn.
  unfold dt. cbn. lia.
Qed.

(** ** What the index reads off the header *)
(** The header the converter writes is the header the index reads. From any
    converted stream [metadata_of_events] recovers the players, the rule when
    the mode is known, the time the game started and the game's identity. *)
Theorem converted_metadata to_string timestamp_ok record events metadata out :
  events_to_mjai record events metadata = Ok out -> 0 <= start_time record < 2 ^ 32 ->
  (forall m, metadata = Some m -> 0 <= players m) ->
  Mjai.metadata_of_events to_string timestamp_ok out = Ok (Mjai.mkMeta
    (map (take_chars 128) (player_names record))
    ((fun m => pretty (players m) +:+ "p-" +:+ room m +:+ "-" +:+ game_length m) <$> metadata)
    (Z.min (zlen out) u32_max)
    (if timestamp_ok (start_time record) then Some (start_time record) else None)
    (let trimmed := trim (uuid record) in
     if negb (String.eqb trimmed "") && Nat.leb (String.length trimmed) 128 then Some trimmed else None)).
Proof.
  intros H Hstart Hplayers. destruct (converted _ _ _ _ H) as (body & -> & _).
  assert (Hstr : forall l, omap as_str (map JStr l) = l) by (intros l; induction l; cbn; congruence).
  set (tail := body ++ _). unfold Mjai.metadata_of_events.
  assert (List.find (Mjai.is_type "start_game") (start_game record metadata :: tail)
    = Some (start_game record metadata)) as -> by done.
  match goal with |- context [default ?x (Some ?y)] => change (default x (Some y)) with y end.
  cbv zeta. assert (Ht : as_i64 (num (start_time record)) = Some (start_time record))
    by (apply as_i64_num; unfold in_i64; lia).
  set (start := start_game record metadata).
  assert (Hnames : get "names" start ≫= as_array = Some (map JStr (player_names record))) by done.
  assert (Htime : (get "majsoul" start ≫= get "start_time") ≫= as_i64 = Some (start_time record)) by exact Ht.
  assert (Huuid : (get "majsoul" start ≫= get "uuid") ≫= as_str = Some (uuid record)) by done.
  assert (Hrule : Mjai.rule_of to_string start =
    (fun m => pretty (players m) +:+ "p-" +:+ room m +:+ "-" +:+ game_length m) <$> metadata).
  { unfold Mjai.rule_of, start, start_game. cbn. destruct metadata as [m|]; [|done]. cbn.
    rewrite as_u64_num by by apply Hplayers. done. }
  rewrite Hnames, Htime, Hrule, Hstr. unfold Mjai.uuid_of. rewrite Huuid. done.
Qed.

(** ** What the statistics make of it *)
Lemma any_dora_total markers hand : Forall readable_marker markers ->
  exists b, Replay.any_dora markers hand = Ok b.
Proof.
  induction 1 as [|m markers Hm _ IH]; cbn; [by eexists|]. unfold readable_marker in Hm.
  destruct (Replay.dora_from m) as [[d|]|e|] eqn:E; cbn; [|done| |done].
  - destruct (existsb _ hand); [by eexists|done].
  - exfalso. unfold Replay.dora_from in E. repeat case_match; try done.
    unfold Replay.split_at_1 in E. repeat case_match; try done; cbn in E; repeat case_match; done.
Qed.
Lemma settle_player_total seat point p1 p2 grading out : 0 <= seat < 2 ^ 32 ->
  exists out', Replay.settle_player (JObj [("seat", num seat); ("total_point", num point);
    ("part_point_1", num p1); ("part_point_2", num p2); ("grading_score", num grading)]) out = Ok out'.
Proof.
  intros Hseat. unfold Replay.settle_player.
  assert (get "seat" (JObj [("seat", num seat); ("total_point", num point); ("part_point_1", num p1);
    ("part_point_2", num p2); ("grading_score", num grading)]) ≫= as_u64 = Some seat) as ->
    by (apply as_u64_num; lia).
  cbv zeta. change (from_option id 0 (Some seat)) with seat.
  assert (exists out1, (if zlen out <=? seat then Replay.resize (Prelude.as_u64 (seat + 1)) (0, 0) out else Ok out)
    = Ok out1 /\ seat < zlen out1) as (out1 & -> & Hlt).
  { destruct (Z.leb_spec (zlen out) seat) as [Hle|Hgt]; [|by exists out].
    unfold Prelude.as_u64. rewrite as_unsigned_small by lia. unfold Replay.resize.
    destruct (Z.leb_spec (seat + 1) (zlen out)); [lia|].
    destruct (Z.leb_spec (2 ^ 60) (seat + 1)); [lia|]. eexists. split; [done|].
    unfold zlen in *. rewrite length_app, length_replicate. lia. }
  cbn [mbind result_bind]. destruct (Z.ltb_spec seat (zlen out1)); [by eexists|lia].
Qed.
Lemma settlement_total result : Forall (fun r => 0 <= result_seat r < 2 ^ 32) result ->
  exists settled, Replay.settlement (end_game result) = Ok settled.
Proof.
  intros Hall. unfold Replay.settlement, end_game. cbn [get assoc]. cbn.
  generalize (@nil (Z * Z)). induction Hall as [|r result Hr _ IH]; intros out; cbn; [by eexists|].
  destruct (settle_player_total (result_seat r) (total_point r) (part_point_1 r) (part_point_2 r)
    (grading_score r) out Hr) as [out' ->]. cbn. apply IH.
Qed.
(** Every list that is indexed by a seat has one place for each. *)
Record sized (seats : nat) (st : Replay.State) : Prop := mkSized {
  sz_players : length (Replay.players st) = seats; sz_streak : length (Replay.streak st) = seats;
  sz_turns : length (Replay.turns (Replay.hand st)) = seats; sz_riichi : length (Replay.riichi_turn (Replay.hand st)) = seats;
  sz_ippatsu : length (Replay.ippatsu_open (Replay.hand st)) = seats; sz_called : length (Replay.hand_called (Replay.hand st)) = seats
}.
Lemma sized_like seats st st' : sized seats st -> length (Replay.players st') = length (Replay.players st) ->
  length (Replay.streak st') = length (Replay.streak st) -> length (Replay.turns (Replay.hand st')) = length (Replay.turns (Replay.hand st)) ->
  length (Replay.riichi_turn (Replay.hand st')) = length (Replay.riichi_turn (Replay.hand st)) ->
  length (Replay.ippatsu_open (Replay.hand st')) = length (Replay.ippatsu_open (Replay.hand st)) ->
  length (Replay.hand_called (Replay.hand st')) = length (Replay.hand_called (Replay.hand st)) -> sized seats st'.
Proof. intros [] **. constructor; congruence. Qed.
(** A state whose lists are updates of those of a sized one. *)
Ltac sized_update H := apply (sized_like _ _ _ H); unfold Replay.at_seat, set_field; cbn;
  by rewrite ?length_alter, ?length_imap, ?length_insert, ?length_map.
Lemma sized_at_seat seats f i st : sized seats st -> sized seats (Replay.at_seat f i st).
Proof. intros H. sized_update H. Qed.
Lemma sized_at_seat_if seats (b : bool) f i st : sized seats st -> sized seats (if b then Replay.at_seat f i st else st).
Proof. intros H. destruct b; [by apply sized_at_seat|done]. Qed.
Lemma sized_set_scores seats e st : sized seats st -> sized seats (Replay.set_scores e st).
Proof. intros H. unfold Replay.set_scores. destruct (Replay.int_array _); [sized_update H|done]. Qed.
Lemma sized_take_deltas seats e st : sized seats st -> sized seats (Replay.take_deltas e st).
Proof. intros H. sized_update H. Qed.
(** The state after the next update of a seat. *)
Ltac seat_updated H st' :=
  match type of H with sized _ ?x =>
    match goal with |- context [Replay.at_seat ?f ?i x] =>
      apply (sized_at_seat _ f i) in H; set (st' := Replay.at_seat f i x) in *; clearbody st' end end.
Ltac seat_updated_if H st st' :=
  match type of H with sized ?n _ =>
    match goal with |- context [if ?b then Replay.at_seat ?f ?i st else st] =>
      apply (sized_at_seat_if n b f i st) in H; set (st' := if b then Replay.at_seat f i st else st) in *; clearbody st' end end.
Section Totals.
Context (seats : nat) (positive : (0 < seats)%nat) (event : json).
Abbreviation seat_of := (Replay.seat_of event).
(** The seat an event names is in range of them all. *)
Lemma sized_indexed st field seat : sized seats st -> seat_of field seats = Some seat ->
  Replay.indexed (Replay.players st) seat = Ok tt /\ Replay.indexed (Replay.turns (Replay.hand st)) seat = Ok tt /\
  Replay.indexed (Replay.riichi_turn (Replay.hand st)) seat = Ok tt /\ Replay.indexed (Replay.ippatsu_open (Replay.hand st)) seat = Ok tt /\
  Replay.indexed (Replay.hand_called (Replay.hand st)) seat = Ok tt.
Proof.
  intros [Hp Hs Ht Hr Hi Hc] H%seat_of_lt; [|done]. split_and!; apply indexed_ok; by rewrite ?Hp, ?Ht, ?Hr, ?Hi, ?Hc.
Qed.
Lemma on_tsumo_total st : sized seats st -> exists st', Replay.on_tsumo seats event st = Ok st' /\ sized seats st'.
Proof.
  intros H. unfold Replay.on_tsumo. destruct (seat_of "actor" seats) as [seat|] eqn:E; [|by eexists].
  destruct (sized_indexed st _ seat H E) as (_ & -> & _). eexists. split; [done|]. sized_update H.
Qed.
Lemma on_dahai_total st : sized seats st -> exists st', Replay.on_dahai seats event st = Ok st' /\ sized seats st'.
Proof.
  intros H. unfold Replay.on_dahai. destruct (seat_of "actor" seats) as [seat|] eqn:E; [|by eexists].
  destruct (sized_indexed st _ seat H E) as (_ & _ & -> & -> & _). cbn [mbind result_bind].
  destruct (Replay.declared _ _); [|by eexists]. eexists. split; [done|]. sized_update H.
Qed.
Lemma on_call_total st : sized seats st -> exists st', Replay.on_call seats event st = Ok st' /\ sized seats st'.
Proof.
  intros H. unfold Replay.on_call. destruct (seat_of "actor" seats) as [seat|] eqn:E.
  - destruct (sized_indexed st _ seat H E) as (_ & _ & _ & _ & ->). eexists. split; [done|]. sized_update H.
  - eexists. split; [done|]. sized_update H.
Qed.
Lemma others_indexed {A} (l : list A) others : Forall (fun i => (i < length l)%nat) others -> exists u, mapM (Replay.indexed l) others = Ok u.
Proof.
  induction 1 as [|i others Hi _ [u IH]]; cbn; [by eexists|]. rewrite (indexed_ok l i Hi). cbn. rewrite IH. by eexists.
Qed.
Lemma on_reach_accepted_total st : sized seats st -> exists st', Replay.on_reach_accepted seats event st = Ok st' /\ sized seats st'.
Proof.
  intros H. unfold Replay.on_reach_accepted. destruct (seat_of "actor" seats) as [seat|] eqn:E; [|by eexists].
  destruct (sized_indexed st _ seat H E) as (Hp & -> & -> & -> & _). cbn [mbind result_bind].
  destruct (Replay.declared _ _); [by eexists|]. cbv zeta.
  match goal with |- context [Replay.indexed (Replay.players ?x) seat] => change (Replay.players x) with (Replay.players st) end.
  rewrite Hp. cbn [mbind result_bind].
  match goal with |- context [Replay.at_seat _ seat ?x] => assert (H1 : sized seats x) by sized_update H; set (st1 := x) in * end.
  clearbody st1. destruct (Replay.riichi_count _ =? 0).
  - eexists. split; [done|]. by apply sized_at_seat.
  - seat_updated H1 st3.
    destruct (others_indexed (Replay.players st3) (List.filter (Replay.chased (Replay.hand st3) seat) (seq 0 (length (Replay.riichi_turn (Replay.hand st3)))))) as [u ->].
    { apply Forall_forall. intros i [Hi _]%list_elem_of_In%filter_In. apply in_seq in Hi. rewrite (sz_players _ _ H1). rewrite (sz_riichi _ _ H1) in Hi. lia. }
    eexists. split; [done|]. sized_update H1.
Qed.
Lemma start_kyoku_total st : sized seats st -> exists st', Replay.start_kyoku seats event st = Ok st' /\ sized seats st'.
Proof.
  intros H. unfold Replay.start_kyoku. cbv zeta.
  match goal with |- context [Replay.set_scores event ?x] => assert (H1 : sized seats x); [|set (st1 := x) in *; clearbody st1] end.
  { destruct H. constructor; cbn; try done; apply length_replicate. }
  apply (sized_set_scores _ event) in H1. set (st2 := Replay.set_scores event st1) in *. clearbody st2.
  rewrite (sz_players _ _ H1), (sz_streak _ _ H1), Nat.leb_refl. eexists. split; [done|]. sized_update H1.
Qed.
Lemma on_ryukyoku_total st : sized seats st -> sized seats (Replay.on_ryukyoku event st).
Proof.
  intros H. unfold Replay.on_ryukyoku. apply (sized_take_deltas _ event), (sized_set_scores _ event) in H. sized_update H.
Qed.
Lemma on_end_kyoku_total st : sized seats st -> exists st', Replay.on_end_kyoku st = Ok st' /\ sized seats st'.
Proof.
  intros H. unfold Replay.on_end_kyoku. destruct (Replay.started st); [|by eexists]. cbv zeta.
  rewrite (sz_players _ _ H), (sz_riichi _ _ H), (sz_called _ _ H), Nat.min_id, Nat.leb_refl. eexists. split; [done|]. sized_update H.
Qed.
Lemma hora_riichi_total actor st : Forall readable_marker (omap as_str (Replay.array (get "uradora_markers" event))) ->
  sized seats st -> (actor < seats)%nat -> exists st', Replay.hora_riichi actor event st = Ok st' /\ sized seats st'.
Proof.
  intros Hm H Ha. unfold Replay.hora_riichi. destruct (Replay.declared _ _); [|by eexists]. cbv zeta.
  seat_updated H st1. rewrite indexed_ok by by rewrite (sz_ippatsu _ _ H).
  cbn [mbind result_bind]. seat_updated_if H st1 st2.
  destruct (Replay.array (get "uradora_markers" event)) eqn:Ea; [by eexists|].
  unfold Replay.ura_hit. cbv zeta. rewrite Ea. rewrite <- Ea in *.
  destruct (any_dora_total _ (omap as_str (Replay.array (get "hora_tehais" event) ++
    match get "pai" event with Some p => [p] | None => [] end)) Hm) as [b ->]. cbn [mbind result_bind].
  eexists. split; [done|]. destruct b; [by apply sized_at_seat|done].
Qed.
Lemma sized_hora_end actor target st : sized seats st -> sized seats (Replay.hora_han actor event (Replay.hora_points actor target st)).
Proof.
  intros H. assert (Hp : sized seats (Replay.hora_points actor target st)).
  { unfold Replay.hora_points. match goal with |- context [if Nat.eqb target actor then ?x else _] =>
      assert (H1 : sized seats x) by (destruct (_ ≫= lookup actor); [by apply sized_at_seat|done]); set (st1 := x) in * end.
    clearbody st1. destruct (Nat.eqb _ _); [done|]. seat_updated H1 st2.
    destruct (Replay.declared _ _), (_ ≫= lookup target); repeat apply sized_at_seat; done. }
  unfold Replay.hora_han. destruct (get "fan" event ≫= as_u64); [|done].
  destruct (get "yakuman" event ≫= as_bool) as [[]|]; by apply sized_at_seat.
Qed.
Lemma on_hora_total st : Forall readable_marker (omap as_str (Replay.array (get "uradora_markers" event))) ->
  sized seats st -> exists st', Replay.on_hora seats event st = Ok st' /\ sized seats st'.
Proof.
  intros Hm H. unfold Replay.on_hora. destruct (seat_of "actor" seats) as [actor|] eqn:E; [|by eexists].
  cbv zeta. apply (sized_take_deltas _ event), (sized_set_scores _ event) in H.
  assert (Ha : (actor < seats)%nat) by by eapply seat_of_lt.
  assert (Ht : (default actor (seat_of "target" seats) < seats)%nat).
  { destruct (seat_of "target" seats) as [t|] eqn:Et; [by eapply seat_of_lt|done]. }
  set (target := default actor (seat_of "target" seats)) in *. clearbody target.
  set (st1 := Replay.set_scores event _) in *. clearbody st1.
  destruct (sized_indexed st1 _ actor H E) as (-> & -> & _ & _ & _). cbn [mbind result_bind].
  seat_updated H st2. seat_updated_if H st2 st3.
  destruct (sized_indexed st3 _ actor H E) as (_ & _ & _ & _ & ->). cbn [mbind result_bind].
  seat_updated_if H st3 st4. destruct (sized_indexed st4 _ actor H E) as (_ & _ & -> & _). cbn [mbind result_bind].
  destruct (hora_riichi_total actor st4 Hm H Ha) as (st5 & -> & H5). cbn [mbind result_bind].
  rewrite !indexed_ok by (by rewrite ?(sz_players _ _ H5), ?(sz_riichi _ _ H5)).
  destruct (Nat.eqb target actor); (eexists; split; [done|by apply sized_hora_end]).
Qed.
End Totals.
Lemma on_end_game_total seats result st : Forall (fun r => 0 <= result_seat r < 2 ^ 32) result ->
  sized seats st -> exists st', Replay.on_end_game seats (end_game result) st = Ok st' /\ sized seats st'.
Proof.
  intros Hseats H. unfold Replay.on_end_game. destruct (settlement_total result Hseats) as [settled ->]. cbn [mbind result_bind].
  eexists. split; [done|]. set (st1 := match Replay.int_array _ with Some _ => _ | None => st end).
  assert (H1 : sized seats st1) by (unfold st1; destruct (Replay.int_array _); [destruct (Nat.eqb _ _); [sized_update H|done]|done]).
  clearbody st1. sized_update H1.
Qed.
Lemma replay_run_total seats events st result : (0 < seats)%nat -> sized seats st ->
  Forall (fun r => 0 <= result_seat r < 2 ^ 32) result ->
  Forall (fun e => readable_event e /\ (is_kind "end_game" e = true -> e = end_game result)) events ->
  exists st', Replay.run seats events st = Ok st'.
Proof.
  intros Hpos Hsz Hseats Hall. revert st Hsz; induction Hall as [|e events [Hr He] _ IH]; intros st Hsz; cbn [Replay.run]; [by eexists|].
  assert (exists st1, Replay.on_event seats e st = Ok st1 /\ sized seats st1) as (st1 & -> & H1); [|by apply IH].
  unfold Replay.on_event. unfold readable_event, is_kind, kind in *.
  destruct (Replay.kind e) as [name|]; [|by eexists].
  repeat (case_match; [first
    [ by apply start_kyoku_total | by apply on_tsumo_total | by apply on_dahai_total | by apply on_reach_accepted_total | by apply on_call_total
    | by apply on_hora_total; [|apply Hr|] | by eexists; split; [done|apply on_ryukyoku_total] | by apply on_end_kyoku_total
    | rewrite He by done; by apply on_end_game_total ]|]); by eexists.
Qed.

(** C37: whatever the converter writes, the statistics can read. If the ura
    indicators of the wins are tiles [dora_from] accepts and the seats of the settlement
    are 32-bit, [replay] of a converted stream never panics: none of its indexings by
    seat is out of range, whatever seats the record names; and when it answers, the
    game counts as detailed. *)
Theorem converted_stream_replays record events metadata out :
  events_to_mjai record events metadata = Ok out -> readable_inputs events ->
  Forall (fun r => 0 <= result_seat r < 2 ^ 32) (settlement record) ->
  exists game, Replay.replay out = Ok game /\
    forall g, game = Some g -> Replay.detailed g = true.
Proof.
  intros H Hr Hseats. destruct (converted _ _ _ _ H) as (body & -> & Hb & Hread & _).
  set (out := start_game record metadata :: body ++ [end_game (settlement record)]).
  assert (Hdet : Replay.is_detailed out = true).
  { unfold Replay.is_detailed, out. rewrite app_comm_cons, existsb_app. cbn. by rewrite orb_true_r. }
  assert (Hall : Forall (fun e => readable_event e /\
    (is_kind "end_game" e = true -> e = end_game (settlement record))) out).
  { unfold out. constructor; [by split|]. apply Forall_app. split; [|by constructor].
    specialize (Hread Hr). rewrite Forall_forall in *. intros e He. split; [by apply Hread|].
    destruct (Hb e He) as (_ & k & Hk & _ & Hne). unfold is_kind. rewrite Hk. by intros ->%String.eqb_eq. }
  clearbody out. unfold Replay.replay. destruct (List.find _ out) as [start|]; [|by exists None].
  destruct (get "names" start ≫= as_array) as [names|]; [|by exists None]. cbv zeta.
  destruct (Nat.ltb_spec (length (map (fun name => default "" (as_str name)) names)) 2) as [|Hlen]; [by exists None|].
  match goal with |- context [Replay.run ?n out ?s] =>
    destruct (replay_run_total n out s (settlement record)) as [st ->] end; [lia| |done|done|]; cbn [mbind result_bind].
  { constructor; cbn; rewrite ?length_imap, ?length_replicate; done. }
  destruct (Replay.started st); eexists; (split; [done|]); [|done]. by intros g [= <-].
Qed.

(** ** A concrete game *)
Section StreamExamples.
Definition example_record : GameRecord :=
  mkRecord " 241231-0001" 1735600000 1735601800 12 ["East"; "South"] []
    [mkPlayerResult 0 30000 33000 0 15; mkPlayerResult 1 (-30000) 17000 0 (-15)] [].
Definition example_win : HuleInfo :=
  mkHuleInfo 1 false ["1m"] [] "3p" 30 3900 0 0 3 false true [] ["5pr"] [].
Definition example_events : list (option Z * GameEvent) :=
  [(Some 100, ENewRound (mkNewRound 0 0 0 0 "1m" ["1m"] [25000; 25000] [["1m"]; ["2m"]]));
   (Some 700, EDiscardTile (mkDiscardTile 1 "9s" true false false []));
   (Some 700, EDealTile (mkDealTile 0 "3p" ["1m"; "2s"]));
   (Some 2500, EDiscardTile (mkDiscardTile 0 "3p" false true false ["1m"; "2s"]));
   (Some 4000, EHule (mkHule [example_win] [-3900; 3900] [21100; 28900] ["1m"; "2s"]))].
Definition example_metadata : GameMetadata := mkMetadata 12 "玉" "south" 2 2024.
Definition example_stream : list json :=
  match events_to_mjai example_record example_events (Some example_metadata) with Ok l => l | _ => [] end.
Lemma example_converted :
  events_to_mjai example_record example_events (Some example_metadata) = Ok example_stream.
Proof. vm_compute. reflexivity. Qed.

Lemma converted_stream_in_order_witness :
  is_Some (watch_all (mkWatch None None None) example_stream) /\
  omap taken example_stream = wins [] (map snd example_events) /\
  exists body, example_stream = start_game example_record (Some example_metadata) :: body
      ++ [end_game (settlement example_record)] /\
    Forall (fun e => is_kind "start_game" e = false /\ is_kind "end_game" e = false) body.
Proof.
  apply (converted_stream_in_order example_record example_events (Some example_metadata)).
  vm_compute. reflexivity.
Defined.
Lemma converted_clock_witness : total_dt example_stream = 4000.
Proof.
  apply (converted_clock example_record example_events (Some example_metadata) example_stream);
    [vm_compute; reflexivity | cbn; lia].
Defined.
Lemma converted_metadata_witness :
  Mjai.metadata_of_events (fun _ => "") (fun _ => true) example_stream =
    Ok (Mjai.mkMeta ["East"; "South"] (Some "2p-玉-south") 11 (Some 1735600000) (Some "241231-0001")).
Proof.
  rewrite (converted_metadata (fun _ => "") (fun _ => true) example_record example_events
    (Some example_metadata) example_stream).
  - vm_compute. reflexivity.
  - vm_compute. reflexivity.
  - cbn. lia.
  - intros m [= <-]. cbn. lia.
Defined.
Lemma converted_stream_replays_witness :
  exists game, Replay.replay example_stream = Ok game /\ forall g, game = Some g -> Replay.detailed g = true.
Proof.
  apply (converted_stream_replays example_record example_events (Some example_metadata)).
  - vm_compute. reflexivity.
  - repeat constructor; cbn; done.
  - repeat constructor; cbn; lia.
Defined.
End StreamExamples.
