(* ===== verification/Pack.v ===== *)
(** Packs, the files that hold compressed records: [src/src/pack.rs]. A file is
    the list of its bytes, a directory a finite map from file names; object
    storage and the zstd codec are arguments of the operations that use them. *)
From S2P Require Import Prelude Text.
#[local] Open Scope string_scope.
#[local] Open Scope list_scope.
#[local] Open Scope Z_scope.

Module Pack.

(** [b"MJPACK01"]. *)
Definition MAGIC : list Z := [77; 74; 80; 65; 67; 75; 48; 49].
Definition ENTRY_HEADER_LEN : Z := 24.
Definition PACK_PREFIX : string := "packs/".
Definition PACK_SUFFIX : string := ".mjpack".

(** A [Uuid] is its sixteen bytes. *)
Definition Uuid : Type := list Z.
Definition is_nil (id : Uuid) : bool := forallb (Z.eqb 0) id.

Record PackLocation := mkLocation {
  location_key : string; offset : Z; compressed_size : Z; raw_size : Z
}.
Inductive PackError := Io | TooLarge | Corrupt | Object.

(** [u32::to_be_bytes] and [u32::from_be_bytes]. *)
Definition to_be_bytes (n : Z) : list Z :=
  [Z.shiftr n 24 mod 256; Z.shiftr n 16 mod 256; Z.shiftr n 8 mod 256; n mod 256].
Definition from_be_bytes (l : list Z) : Z := fold_left (fun acc b => acc * 256 + b) l 0.

(** [Path::file_name]: the last component that names something. *)
Definition file_name (path : string) : option string :=
  let components := List.filter (fun c => negb (String.eqb c "" || String.eqb c "."))
                      (split_on "/"%char path) in
  name ← last components;
  if String.eqb name ".." then None else Some name.
Definition pack_key (path : string) : option string :=
  name ← file_name path; Some (PACK_PREFIX +:+ name).

(** ** The writing half *)
Abbreviation Directory := (gmap string (list Z)).
Record PackWriter := mkWriter {
  key : string; path : string; file : list Z; size : Z; first_append : option Z
}.
#[export] Instance PackWriter_settable : Settable PackWriter := fun r =>
  mkWriter (key r) (path r) (file r) (size r) (first_append r).

(** [PackWriter::create]: the file is named after the last component of the key
    and must not exist yet. *)
Definition create (dir : Directory) (key : string) : result PackError (PackWriter * Directory) :=
  match file_name key with
  | None => Err Corrupt
  | Some name =>
    match dir !! name with
    | Some _ => Err Io
    | None => Ok (mkWriter key name MAGIC (zlen MAGIC) None, <[name := MAGIC]> dir)
    end
  end.

Section Codec.
(** [zstd::bulk::compress] at level 3 and [zstd::bulk::decompress] with its
    capacity; [None] is an error of the library. *)
Variable compress : list Z -> option (list Z).
Variable decompress_bulk : list Z -> Z -> option (list Z).

(** [PackWriter::append]. [fault] is what the disk does: all writes succeed, or
    the first [n] bytes of the entry reach the file and then a write fails. The
    recorded size only moves on success. *)
Definition append (fault : option nat) (now : Z) (record_id : Uuid) (raw : list Z) (w : PackWriter)
  : PackWriter * result PackError PackLocation :=
  let raw_size := zlen raw in
  if u32_max <? raw_size then (w, Err TooLarge)
  else match compress raw with
  | None => (w, Err Io)
  | Some compressed =>
    let compressed_size := zlen compressed in
    if u32_max <? compressed_size then (w, Err TooLarge)
    else
      let entry := record_id ++ to_be_bytes raw_size ++ to_be_bytes compressed_size ++ compressed in
      match fault with
      | Some n => (w <| file ::= fun f => f ++ take n entry |>, Err Io)
      | None =>
        let offset := size w + ENTRY_HEADER_LEN in
        (w <| file ::= fun f => f ++ entry |>
           <| size := offset + compressed_size |>
           <| first_append ::= fun first => Some (default now first) |>,
         Ok (mkLocation (key w) offset compressed_size raw_size))
      end
  end.

(** [PackWriter::age]: how long the oldest record has waited. *)
Definition age (now : Z) (w : PackWriter) : option Z := (fun first => now - first) <$> first_append w.
(** [PackWriter::seal]. *)
Definition seal (w : PackWriter) : string * string := (key w, path w).

(** ** The reading half *)
Definition decompress (compressed : list Z) (location : PackLocation) : result PackError (list Z) :=
  if negb (zlen compressed =? compressed_size location) then Err Corrupt
  else match decompress_bulk compressed (raw_size location) with
       | None => Err Io
       | Some raw => if negb (zlen raw =? raw_size location) then Err Corrupt else Ok raw
       end.

Record PackStore := mkStore { legacy : Directory; staging : Directory }.
#[export] Instance PackStore_settable : Settable PackStore := fun r =>
  mkStore (legacy r) (staging r).

(** [file.seek(offset); file.read_exact(n)]: a short file is an error. *)
Definition read_at (bytes : list Z) (offset n : Z) : result PackError (list Z) :=
  if offset + n <=? zlen bytes then Ok (take (Z.to_nat n) (drop (Z.to_nat offset) bytes)) else Err Io.

(** [PackStore::read]: the legacy directory, the staging directory, then a
    ranged read of the object. *)
Definition read (get_range : string -> Z -> Z -> result PackError (list Z)) (store : PackStore)
  (location : PackLocation) : result PackError (list Z) :=
  match file_name (location_key location) with
  | None => Err Corrupt
  | Some name =>
    let length := compressed_size location in
    match legacy store !! name, staging store !! name with
    | Some bytes, _ | None, Some bytes =>
      compressed ← read_at bytes (offset location) length; decompress compressed location
    | None, None =>
      compressed ← get_range (location_key location) (offset location) length;
      decompress compressed location
    end
  end.
End Codec.

(** [PackStore::staging_writer]; the date and the fresh identifier are arguments. *)
Definition staging_key (date : string) (partition : Z) (fresh : string) : string :=
  PACK_PREFIX +:+ date +:+ "/" +:+ pretty partition +:+ "-" +:+ fresh +:+ PACK_SUFFIX.
Definition staging_writer (date : string) (partition : Z) (fresh : string) (store : PackStore)
  : result PackError (PackWriter * PackStore) :=
  '(w, dir) ← create (staging store) (staging_key date partition fresh);
  Ok (w, store <| staging := dir |>).

(** [mjpacks]: the sorted names in a directory with the extension [mjpack]. A file
    called [.mjpack] has no extension. *)
Definition is_mjpack (name : string) : bool :=
  ends_with PACK_SUFFIX name && negb (String.eqb name PACK_SUFFIX).
Definition mjpacks (dir : Directory) : list string :=
  sort_by String.leb (List.filter is_mjpack (map fst (map_to_list dir))).
(** [PackStore::discard_staging]. *)
Definition discard_staging (store : PackStore) : Z * PackStore :=
  let names := mjpacks (staging store) in
  (zlen names, store <| staging ::= fun dir => foldr delete dir names |>).

(** ** Scanning *)
(** The loop of [scan_pack]: every turn moves past a header, so the length of
    the file is enough fuel. *)
Fixpoint scan_loop (fuel : nat) (key : string) (bytes : list Z) (position : Z)
  : list (Uuid * PackLocation) :=
  match fuel with
  | O => []
  | S fuel =>
    let length := zlen bytes in
    if position + ENTRY_HEADER_LEN <=? length then
      let header := take 24 (drop (Z.to_nat position) bytes) in
      let record_id := take 16 header in
      let raw_size := from_be_bytes (take 4 (drop 16 header)) in
      let compressed_size := from_be_bytes (take 4 (drop 20 header)) in
      if is_nil record_id || (compressed_size =? 0) then []
      else
        let offset := position + ENTRY_HEADER_LEN in
        if length <? offset + compressed_size then []
        else (record_id, mkLocation key offset compressed_size raw_size)
             :: scan_loop fuel key bytes (offset + compressed_size)
    else []
  end.
Definition scan_pack (path : string) (bytes : list Z)
  : result PackError (string * list (Uuid * PackLocation)) :=
  match pack_key path with
  | None => Err Corrupt
  | Some key =>
    if zlen bytes <? zlen MAGIC then Err Io
    else if negb (bool_decide (take 8 bytes = MAGIC)) then Err Corrupt
    else Ok (key, scan_loop (S (length bytes)) key bytes (zlen MAGIC))
  end.

(** ** Boot-time upload *)
Section Upload.
(** What the bucket holds after a [put]: the client's, or less if the store
    truncated it. *)
Variable put : string -> list Z -> gmap string (list Z) -> result PackError (gmap string (list Z)).

Fixpoint upload_each (names : list string) (local : Directory) (bucket : gmap string (list Z))
  : gmap string (list Z) * result PackError Z :=
  match names with
  | [] => (bucket, Ok 0)
  | name :: names =>
    match pack_key name, local !! name with
    | Some key, Some bytes =>
      if bool_decide (zlen <$> bucket !! key = Some (zlen bytes))
      then upload_each names local bucket
      else match put key bytes bucket with
           | Ok bucket =>
             if bool_decide (zlen <$> bucket !! key = Some (zlen bytes)) then
               let '(bucket, uploaded) := upload_each names local bucket in
               (bucket, (fun n => n + 1) <$> uploaded)
             else (bucket, Err Object)
           | Err e => (bucket, Err e)
           | Panic => (bucket, Panic)
           end
    | _, _ => (bucket, Err Corrupt)
    end
  end.
(** [PackStore::upload_legacy_packs]. *)
Definition upload_legacy_packs (store : PackStore) (bucket : gmap string (list Z))
  : gmap string (list Z) * result PackError Z :=
  upload_each (mjpacks (legacy store)) (legacy store) bucket.
End Upload.
End Pack.

(** ** Facts *)
Section PackFacts.
Import Pack.

#[global] Arguments to_be_bytes : simpl never.
Lemma to_be_bytes_length n : length (to_be_bytes n) = 4%nat.
Proof. done. Qed.
Lemma be_bytes_roundtrip n : in_u32 n -> from_be_bytes (to_be_bytes n) = n.
Proof.
  unfold in_u32, from_be_bytes, to_be_bytes. intros H. cbn [fold_left].
  rewrite !Z.shiftr_div_pow2 by lia.
  pose proof (Z.div_mod n 256 ltac:(lia)). pose proof (Z.div_mod (n / 256) 256 ltac:(lia)).
  pose proof (Z.div_mod (n / 256 / 256) 256 ltac:(lia)).
  rewrite !Z.div_div in * by lia.
  change (2 ^ 8) with 256. change (2 ^ 16) with (256 * 256). change (2 ^ 24) with (256 * 256 * 256).
  assert (0 <= n / (256 * 256 * 256) < 256).
  { split; [apply Z.div_pos; lia|]. apply Z.div_lt_upper_bound; lia. }
  rewrite (Z.mod_small (n / (256 * 256 * 256))) by lia. lia.
Qed.

(** An entry as it lies in the file. *)
Record Entry := mkEntry { e_id : Uuid; e_raw : Z; e_frame : list Z }.
Definition entry_bytes (e : Entry) : list Z :=
  e_id e ++ to_be_bytes (e_raw e) ++ to_be_bytes (zlen (e_frame e)) ++ e_frame e.
Definition wf_entry (e : Entry) : Prop :=
  length (e_id e) = 16%nat /\ is_nil (e_id e) = false /\ in_u32 (e_raw e) /\
  0 < zlen (e_frame e) < 2 ^ 32.
Definition entries_bytes (es : list Entry) : list Z := concat (map entry_bytes es).
Fixpoint locations (key : string) (position : Z) (es : list Entry) : list (Uuid * PackLocation) :=
  match es with
  | [] => []
  | e :: es =>
    (e_id e, mkLocation key (position + 24) (zlen (e_frame e)) (e_raw e))
    :: locations key (position + 24 + zlen (e_frame e)) es
  end.

Lemma zlen_entry e : wf_entry e -> zlen (entry_bytes e) = 24 + zlen (e_frame e).
Proof.
  intros (Hid & _). unfold entry_bytes, zlen in *. rewrite !length_app, !to_be_bytes_length. lia.
Qed.
Lemma drop_pre (pre l : list Z) : drop (Z.to_nat (zlen pre)) (pre ++ l) = l.
Proof. unfold zlen. by rewrite Nat2Z.id, drop_app_length. Qed.

(** The header fields of an entry, whatever follows the header. *)
Lemma header_fields e rest : wf_entry e ->
  let header := take 24 (e_id e ++ to_be_bytes (e_raw e) ++ to_be_bytes (zlen (e_frame e)) ++ rest) in
  take 16 header = e_id e /\ from_be_bytes (take 4 (drop 16 header)) = e_raw e /\
  from_be_bytes (take 4 (drop 20 header)) = zlen (e_frame e).
Proof.
  intros (Hid & _ & Hraw & Hframe) header. subst header.
  assert (Hh : take 24 (e_id e ++ to_be_bytes (e_raw e) ++ to_be_bytes (zlen (e_frame e)) ++ rest) =
          e_id e ++ to_be_bytes (e_raw e) ++ to_be_bytes (zlen (e_frame e))).
  { rewrite !app_assoc. rewrite take_app_length'; [by rewrite <- !app_assoc|].
    rewrite !length_app, !to_be_bytes_length. lia. }
  rewrite Hh. split_and!.
  - by rewrite take_app_length'.
  - rewrite drop_app_length', take_app_length' by done. by apply be_bytes_roundtrip.
  - rewrite app_assoc, drop_app_length' by (rewrite length_app, to_be_bytes_length; lia).
    by rewrite take_ge, be_bytes_roundtrip by (done || unfold in_u32; lia).
Qed.
Lemma scan_entry fuel key pre e rest : wf_entry e ->
  scan_loop (S fuel) key (pre ++ entry_bytes e ++ rest) (zlen pre) =
  (e_id e, mkLocation key (zlen pre + 24) (zlen (e_frame e)) (e_raw e))
  :: scan_loop fuel key (pre ++ entry_bytes e ++ rest) (zlen pre + 24 + zlen (e_frame e)).
Proof.
  intros He. cbn [scan_loop]. unfold ENTRY_HEADER_LEN. rewrite !zlen_app, zlen_entry by done.
  pose proof (zlen_nonneg rest). pose proof He as (_ & Hnil & _ & Hframe).
  destruct (Z.leb_spec (zlen pre + 24) (zlen pre + (24 + zlen (e_frame e) + zlen rest))); [|lia].
  assert (drop (Z.to_nat (zlen pre)) (pre ++ entry_bytes e ++ rest) =
    e_id e ++ to_be_bytes (e_raw e) ++ to_be_bytes (zlen (e_frame e)) ++ e_frame e ++ rest) as ->
    by (rewrite drop_pre; unfold entry_bytes; by rewrite <- !app_assoc).
  destruct (header_fields e (e_frame e ++ rest) He) as (-> & -> & ->). rewrite Hnil. cbn [orb].
  destruct (Z.eqb_spec (zlen (e_frame e)) 0); [lia|].
  destruct (Z.ltb_spec (zlen pre + (24 + zlen (e_frame e) + zlen rest))
              (zlen pre + 24 + zlen (e_frame e))); [lia|done].
Qed.

(** The scan of a run of entries is their locations, then the scan of what follows. *)
Lemma scan_entries fuel key es pre rest : Forall wf_entry es ->
  scan_loop (length es + fuel) key (pre ++ entries_bytes es ++ rest) (zlen pre) =
  locations key (zlen pre) es ++
  scan_loop fuel key (pre ++ entries_bytes es ++ rest) (zlen (pre ++ entries_bytes es)).
Proof.
  intros Hes. revert pre; induction Hes as [|e es He _ IH]; intros pre.
  - simpl. by rewrite app_nil_r.
  - unfold entries_bytes in *. cbn [length map concat Nat.add locations] in *.
    rewrite <- app_comm_cons, <- !app_assoc, scan_entry by done. f_equal.
    replace (zlen pre + 24 + zlen (e_frame e)) with (zlen (pre ++ entry_bytes e))
      by (rewrite zlen_app, zlen_entry by done; lia).
    specialize (IH (pre ++ entry_bytes e)). rewrite <- !app_assoc in IH. rewrite IH.
    by rewrite <- ?app_assoc.
Qed.
(** A scan stops at the end of the file, at a torn entry and at zeroes. *)
Lemma scan_torn fuel key pre e n : wf_entry e -> (n < length (entry_bytes e))%nat ->
  scan_loop fuel key (pre ++ take n (entry_bytes e)) (zlen pre) = [].
Proof.
  intros He Hn. destruct fuel as [|fuel]; [done|]. cbn [scan_loop]. unfold ENTRY_HEADER_LEN.
  pose proof (zlen_entry e He) as Hz. unfold zlen in Hz.
  assert (Ht : zlen (take n (entry_bytes e)) = Z.of_nat n) by (unfold zlen; rewrite length_take; lia).
  rewrite zlen_app, Ht. destruct (Z.leb_spec (zlen pre + 24) (zlen pre + Z.of_nat n)); [|done].
  rewrite drop_pre. pose proof He as (Hid & Hnil & _).
  assert (take n (entry_bytes e) = e_id e ++ to_be_bytes (e_raw e) ++ to_be_bytes (zlen (e_frame e))
            ++ take (n - 24) (e_frame e)) as ->.
  { unfold entry_bytes. rewrite !app_assoc, take_app_ge; rewrite !length_app, !to_be_bytes_length; [|lia].
    do 2 f_equal. lia. }
  destruct (header_fields e (take (n - 24) (e_frame e)) He) as (-> & -> & ->). rewrite Hnil. cbn [orb].
  destruct (zlen (e_frame e) =? 0); [done|]. unfold zlen in *.
  destruct (Z.ltb_spec (Z.of_nat (length pre) + Z.of_nat n)
    (Z.of_nat (length pre) + 24 + Z.of_nat (length (e_frame e)))); [done|lia].
Qed.
Lemma scan_zeroes fuel key pre k : scan_loop fuel key (pre ++ replicate k 0) (zlen pre) = [].
Proof.
  destruct fuel as [|fuel]; [done|]. cbn [scan_loop]. unfold ENTRY_HEADER_LEN.
  rewrite zlen_app, drop_pre. destruct (Z.leb_spec (zlen pre + 24) (zlen pre + zlen (replicate k 0))); [|done].
  rewrite !take_replicate.
  assert (forall n, is_nil (replicate n 0) = true) as -> by (intros n; induction n; done). done.
Qed.
Lemma length_entries es : Forall wf_entry es -> (length es <= length (entries_bytes es))%nat.
Proof.
  induction 1 as [|e es He _ IH]; [done|]. unfold entries_bytes in *. cbn [map concat length].
  rewrite length_app. pose proof (zlen_entry e He) as H. unfold zlen in H. lia.
Qed.

(** Cutting a file of entries leaves its complete entries and a torn one. *)
Lemma take_entries n es : Forall wf_entry es -> exists done torn,
  take n (entries_bytes es) = entries_bytes done ++ torn /\ Forall wf_entry done /\
  (torn = [] \/ exists e k, wf_entry e /\ torn = take k (entry_bytes e) /\ (k < length (entry_bytes e))%nat) /\
  forall key position, locations key position done =
    List.filter (fun '(_, l) => offset l + compressed_size l <=? position + Z.of_nat n)
      (locations key position es).
Proof.
  intros Hes. revert n; induction Hes as [|e es He Hes IH]; intros n.
  { exists [], []. split_and!; [by destruct n|done|by left|done]. }
  pose proof (zlen_entry e He) as Hlen. unfold entries_bytes in *. cbn [map concat].
  destruct (decide (n < length (entry_bytes e))%nat) as [Hn|Hn].
  - exists [], (take n (entry_bytes e)). rewrite take_app_le by lia. split_and!; [done|done|eauto 6|].
    intros key position.
    assert (Hnone : forall es p, position + Z.of_nat n < p + 24 -> Forall wf_entry es ->
      List.filter (fun '(_, l) => offset l + compressed_size l <=? position + Z.of_nat n)
        (locations key p es) = []).
    { clear. induction es as [|e es IH]; intros p Hp Hes; [done|].
      apply Forall_cons in Hes as [He Hes]. destruct He as (_ & _ & _ & Hf). cbn.
      destruct (Z.leb_spec (p + 24 + zlen (e_frame e)) (position + Z.of_nat n)); [lia|].
      apply IH; [lia|done]. }
    cbn [locations List.filter offset compressed_size]. unfold zlen in *.
    destruct (Z.leb_spec (position + 24 + Z.of_nat (length (e_frame e))) (position + Z.of_nat n)); [lia|].
    symmetry. apply Hnone; [|done]. unfold zlen. lia.
  - destruct (IH (n - length (entry_bytes e))%nat) as (done & torn & Htake & Hdone & Htorn & Hloc).
    exists (e :: done), torn. rewrite take_app_ge by lia. rewrite Htake. cbn [map concat].
    split_and!; [by rewrite app_assoc|by constructor|done|]. intros key position.
    cbn [locations List.filter offset compressed_size]. rewrite Hloc. unfold zlen in *.
    destruct (Z.leb_spec (position + 24 + Z.of_nat (length (e_frame e))) (position + Z.of_nat n)); [|lia].
    do 2 f_equal.
    replace (position + 24 + Z.of_nat (length (e_frame e)) + Z.of_nat (n - length (entry_bytes e)))
      with (position + Z.of_nat n) by lia. done.
Qed.

(** *** Writers *)
Section Writers.
Context (compress : list Z -> option (list Z)) (decompress_bulk : list Z -> Z -> option (list Z)).
(** The codec is lossless and never writes an empty frame. *)
Hypothesis codec_roundtrip : forall raw frame,
  compress raw = Some frame -> decompress_bulk frame (zlen raw) = Some raw.
Hypothesis codec_frame : forall raw frame, compress raw = Some frame -> frame <> [].

Fixpoint fill (now : Z) (items : list (Uuid * list Z)) (w : PackWriter)
  : result PackError (PackWriter * list PackLocation) :=
  match items with
  | [] => Ok (w, [])
  | (id, raw) :: items =>
    let '(w, r) := append compress None now id raw w in
    l ← r;
    '(w, ls) ← fill now items w;
    Ok (w, l :: ls)
  end.

Definition writer_ok (es : list Entry) (w : PackWriter) : Prop :=
  file w = MAGIC ++ entries_bytes es /\ size w = zlen (file w) /\ Forall wf_entry es.
Definition wf_id (id : Uuid) : Prop := length id = 16%nat /\ is_nil id = false.

Lemma create_ok dir key w dir' : create dir key = Ok (w, dir') ->
  writer_ok [] w /\ Pack.key w = key /\ file_name key = Some (path w).
Proof.
  unfold create. destruct (file_name key) as [name|]; [|done].
  destruct (dir !! name); [done|]. by intros [= <- <-].
Qed.
Lemma append_ok now id raw es w w' l : writer_ok es w -> wf_id id ->
  append compress None now id raw w = (w', Ok l) ->
  exists frame, compress raw = Some frame /\ Pack.key w' = Pack.key w /\ path w' = path w /\
    writer_ok (es ++ [mkEntry id (zlen raw) frame]) w' /\
    l = mkLocation (Pack.key w) (size w + 24) (zlen frame) (zlen raw).
Proof using codec_frame.
  intros (Hfile & Hsize & Hes) [Hid Hnil]. unfold append.
  destruct (Z.ltb_spec u32_max (zlen raw)); [done|].
  destruct (compress raw) as [frame|] eqn:E; [|done].
  destruct (Z.ltb_spec u32_max (zlen frame)); [done|]. intros [= <- <-].
  exists frame. unfold u32_max in *.
  assert (0 < zlen frame).
  { apply codec_frame in E. destruct frame; [done|]. rewrite zlen_cons. pose proof (zlen_nonneg frame). lia. }
  assert (He : wf_entry (mkEntry id (zlen raw) frame)).
  { split_and!; simpl; try done; unfold in_u32; pose proof (zlen_nonneg raw); lia. }
  unfold writer_ok. split_and!; try done.
  - unfold set_field; cbn [file size key path first_append]. rewrite Hfile. unfold entries_bytes.
    by rewrite map_app, concat_app, <- app_assoc; simpl; rewrite app_nil_r.
  - unfold set_field; cbn [file size key path first_append].
    change (id ++ _) with (entry_bytes (mkEntry id (zlen raw) frame)).
    rewrite zlen_app, zlen_entry, <- Hsize by done. unfold ENTRY_HEADER_LEN. simpl. lia.
  - apply Forall_app. auto.
Qed.
Lemma locations_app key p es fs :
  Forall wf_entry es -> locations key p (es ++ fs) = locations key p es ++ locations key (p + zlen (entries_bytes es)) fs.
Proof.
  intros Hes. revert p; induction Hes as [|e es He _ IH]; intros p.
  - change (entries_bytes []) with (@nil Z). by rewrite Z.add_0_r.
  - unfold entries_bytes in *. cbn [map concat locations app]. rewrite IH, zlen_app, zlen_entry by done.
    do 3 f_equal. lia.
Qed.
Lemma fill_ok now items es w w' ls : writer_ok es w -> Forall (fun item => wf_id (fst item)) items ->
  fill now items w = Ok (w', ls) ->
  exists fs, writer_ok (es ++ fs) w' /\ Pack.key w' = Pack.key w /\ path w' = path w /\
    zip (map fst items) ls = locations (Pack.key w) (zlen (file w)) fs /\
    Forall2 (fun e item => compress (snd item) = Some (e_frame e) /\ e_raw e = zlen (snd item)) fs items /\
    length ls = length items.
Proof using codec_frame.
  revert es w ls; induction items as [|[id raw] items IH]; intros es w ls Hw Hids.
  - intros [= <- <-]. exists []. rewrite app_nil_r. by split_and!.
  - apply Forall_cons in Hids as [Hid Hids]. cbn [fill fst map].
    destruct (append _ _ _ _ _ _) as [w1 [l|e|]] eqn:Ea; cbn; try done.
    destruct (append_ok _ _ _ _ _ _ _ Hw Hid Ea) as (frame & Hc & Hk & Hp & Hw1 & ->).
    destruct (fill now items w1) as [[w2 ls']|e|] eqn:Ef; cbn; try done. intros [= <- <-].
    destruct (IH _ _ _ Hw1 Hids Ef) as (fs & Hw2 & Hk2 & Hp2 & Hzip & Hall & Hlen).
    exists (mkEntry id (zlen raw) frame :: fs). rewrite <- app_assoc in Hw2. cbn [zip_with locations].
    split_and!; [done|congruence|congruence| |by constructor|simpl; congruence].
    destruct Hw as (Hfile & Hsize & _). destruct Hw1 as (Hf1 & Hs1 & Hes1). rewrite Hsize.
    cbn [e_id e_frame e_raw]. f_equal. rewrite Hzip, Hk. f_equal.
    apply Forall_app in Hes1 as [Hes He]. apply Forall_cons in He as [He _].
    assert (zlen (file w1) = zlen (file w) + 24 + zlen frame) as ->; [|done].
    rewrite Hf1, Hfile. unfold entries_bytes. rewrite map_app, concat_app, !zlen_app. cbn [map concat].
    rewrite app_nil_r, zlen_entry by done. cbn [e_frame]. lia.
Qed.

Lemma read_at_app pre l rest : read_at (pre ++ l ++ rest) (zlen pre) (zlen l) = Ok l.
Proof.
  unfold read_at. rewrite !zlen_app. pose proof (zlen_nonneg rest).
  destruct (Z.leb_spec (zlen pre + zlen l) (zlen pre + (zlen l + zlen rest))); [|lia].
  rewrite drop_pre. unfold zlen. by rewrite Nat2Z.id, take_app_length.
Qed.
Lemma locations_read key pre es : Forall wf_entry es -> forall rest,
  Forall2 (fun e '(_, l) =>
    read_at (pre ++ entries_bytes es ++ rest) (offset l) (compressed_size l) = Ok (e_frame e) /\
    compressed_size l = zlen (e_frame e) /\ raw_size l = e_raw e /\ location_key l = key)
    es (locations key (zlen pre) es).
Proof.
  intros Hes. revert pre; induction Hes as [|e es He _ IH]; intros pre rest; [by constructor|].
  unfold entries_bytes in *. cbn [map concat locations]. constructor.
  - cbn [offset compressed_size raw_size location_key]. split_and!; try done.
    set (header := e_id e ++ to_be_bytes (e_raw e) ++ to_be_bytes (zlen (e_frame e))).
    assert (zlen pre + 24 = zlen (pre ++ header)) as ->.
    { destruct He as [Hid _]. unfold header, zlen. rewrite !length_app, !to_be_bytes_length. lia. }
    replace (pre ++ (entry_bytes e ++ concat (map entry_bytes es)) ++ rest)
      with ((pre ++ header) ++ e_frame e ++ (concat (map entry_bytes es) ++ rest))
      by (unfold entry_bytes, header; by rewrite <- !app_assoc).
    apply read_at_app.
  - replace (zlen pre + 24 + zlen (e_frame e)) with (zlen (pre ++ entry_bytes e))
      by (rewrite zlen_app, zlen_entry by done; lia).
    specialize (IH (pre ++ entry_bytes e) rest). rewrite <- !app_assoc in IH.
    by rewrite <- !app_assoc.
Qed.

(** C39: what the scan of a legacy pack recovers. A pack written by appends alone,
    cut anywhere after its magic (a crash during any write), scans to exactly
    the locations [append] returned for the records that are complete in what is
    left, in order; and a tail of zeroes after the last record adds nothing. *)
Theorem scan_pack_recovers dir key dir' w0 now items w ls :
  create dir key = Ok (w0, dir') -> pack_key key = Some key ->
  Forall (fun item => wf_id (fst item)) items -> fill now items w0 = Ok (w, ls) ->
  (forall n, (8 <= n)%nat ->
    scan_pack key (take n (file w)) =
      Ok (key, List.filter (fun '(_, l) => offset l + compressed_size l <=? Z.of_nat n)
                 (zip (map fst items) ls))) /\
  (forall k, scan_pack key (file w ++ replicate k 0) = Ok (key, zip (map fst items) ls)).
Proof using codec_frame.
  intros Hcreate Hkey Hids Hfill. destruct (create_ok _ _ _ _ Hcreate) as (Hw0 & Hk & _).
  destruct (fill_ok _ _ _ _ _ _ Hw0 Hids Hfill) as (es & (Hfile & _ & Hes) & _ & _ & Hzip & _).
  rewrite app_nil_l in *. destruct Hw0 as (Hfile0 & _ & _). rewrite Hfile0, Hk in Hzip.
  rewrite (app_nil_r MAGIC : MAGIC ++ entries_bytes [] = MAGIC) in Hzip.
  assert (Hmagic : forall l, take 8 (MAGIC ++ l) = MAGIC) by done.
  split.
  - intros n Hn. rewrite Hfile, take_app_ge by (simpl; lia).
    destruct (take_entries (n - length MAGIC) es Hes) as (done & torn & Htake & Hdone & Htorn & Hloc).
    unfold scan_pack. rewrite Hkey, Htake.
    destruct (Z.ltb_spec (zlen (MAGIC ++ entries_bytes done ++ torn)) (zlen MAGIC)).
    { rewrite !zlen_app in *. pose proof (zlen_nonneg (entries_bytes done)). pose proof (zlen_nonneg torn). lia. }
    rewrite Hmagic, bool_decide_true by reflexivity. cbn [negb]. do 2 f_equal.
    pose proof (length_entries done Hdone).
    replace (S (length (MAGIC ++ entries_bytes done ++ torn)))
      with (length done + (S (length (MAGIC ++ entries_bytes done ++ torn)) - length done))%nat
      by (rewrite !length_app; lia).
    rewrite scan_entries, Hzip by assumption. rewrite Hloc.
    replace (zlen MAGIC + Z.of_nat (n - length MAGIC)) with (Z.of_nat n) by (change (zlen MAGIC) with 8; simpl; lia).
    rewrite app_assoc.
    destruct Htorn as [-> | (e & k & He & -> & Hk')].
    + rewrite (scan_zeroes _ key (MAGIC ++ entries_bytes done) 0). apply app_nil_r.
    + rewrite scan_torn by assumption. apply app_nil_r.
  - intros k. unfold scan_pack. rewrite Hkey, Hfile, <- app_assoc.
    destruct (Z.ltb_spec (zlen (MAGIC ++ entries_bytes es ++ replicate k 0)) (zlen MAGIC)).
    { rewrite !zlen_app in *. pose proof (zlen_nonneg (entries_bytes es)).
      pose proof (zlen_nonneg (replicate k 0)). lia. }
    rewrite Hmagic, bool_decide_true by reflexivity. cbn [negb]. do 2 f_equal.
    pose proof (length_entries es Hes).
    replace (S (length (MAGIC ++ entries_bytes es ++ replicate k 0%Z)))
      with (length es + (S (length (MAGIC ++ entries_bytes es ++ replicate k 0%Z)) - length es))%nat
      by (rewrite !length_app; lia).
    rewrite scan_entries, Hzip by assumption. rewrite app_assoc, scan_zeroes. apply app_nil_r.
Qed.

(** Every location [append] hands out keeps reading back the very bytes that
    were appended, however many records follow it, while the pack is staged
    locally, after it moved to the legacy directory, and from object storage once
    the local copy is gone. *)
Theorem append_read dir key dir' w0 now items w ls get_range store :
  create dir key = Ok (w0, dir') ->
  Forall (fun item => wf_id (fst item)) items -> fill now items w0 = Ok (w, ls) ->
  (legacy store !! path w = None \/ legacy store !! path w = Some (file w)) ->
  (staging store !! path w = None \/ staging store !! path w = Some (file w)) ->
  (forall offset n, get_range key offset n = read_at (file w) offset n) ->
  Forall2 (fun item l => read decompress_bulk get_range store l = Ok (snd item)) items ls.
Proof using codec_frame codec_roundtrip.
  intros Hcreate Hids Hfill Hleg Hsta Hobj. destruct (create_ok _ _ _ _ Hcreate) as (Hw0 & Hk & Hname).
  destruct (fill_ok _ _ _ _ _ _ Hw0 Hids Hfill)
    as (es & (Hfile & _ & Hes) & _ & Hp & Hzip & Hall & Hlen).
  rewrite app_nil_l in *. destruct Hw0 as (Hfile0 & _ & _).
  rewrite Hfile0, Hk, (app_nil_r MAGIC : MAGIC ++ entries_bytes [] = MAGIC) in Hzip.
  pose proof (locations_read key MAGIC es Hes []) as Hread. rewrite app_nil_r, <- Hfile, <- Hzip in Hread.
  assert (Hgo : forall l e raw, compress raw = Some (e_frame e) -> e_raw e = zlen raw ->
    read_at (file w) (offset l) (compressed_size l) = Ok (e_frame e) ->
    compressed_size l = zlen (e_frame e) -> raw_size l = e_raw e -> location_key l = key ->
    read decompress_bulk get_range store l = Ok raw).
  { intros l e raw Hc Hr Hat Hcs Hrs Hlk. unfold read. rewrite Hlk, Hname, <- Hp, Hobj.
    assert (Hd : decompress decompress_bulk (e_frame e) l = Ok raw).
    { unfold decompress. rewrite Hcs, Z.eqb_refl, Hrs, Hr, (codec_roundtrip _ _ Hc), Z.eqb_refl. done. }
    destruct Hleg as [-> | ->]; [destruct Hsta as [-> | ->]|]; by rewrite Hat. }
  clear Hzip Hfill Hfile. revert items ls Hlen Hall Hread Hids.
  induction es as [|e es IH]; intros [|item items] [|l ls] Hlen Hall Hread Hids;
    try done; try (by inversion Hall).
  inversion Hall as [|? ? ? ? [Hc Hr] Hall']; subst. inversion Hread as [|? ? ? ? Hl Hread']; subst.
  apply Forall_cons in Hes as [_ Hes]. apply Forall_cons in Hids as [_ Hids].
  constructor; [|apply IH; auto]. destruct Hl as (? & ? & ? & ?). by apply (Hgo l e).
Qed.
End Writers.

(** *** Directories *)
Lemma elem_of_mjpacks dir name : name ∈ mjpacks dir <-> is_mjpack name = true /\ is_Some (dir !! name).
Proof.
  unfold mjpacks. rewrite sort_by_perm, list_elem_of_In, filter_In, in_map_iff. split.
  - intros [((n & bytes) & <- & Hin) Hm]. split; [done|].
    apply list_elem_of_In, elem_of_map_to_list in Hin. eauto.
  - intros [Hm [bytes Hin]]. split; [|done]. exists (name, bytes). split; [done|].
    by apply list_elem_of_In, elem_of_map_to_list.
Qed.
Lemma NoDup_mjpacks dir : NoDup (mjpacks dir).
Proof.
  unfold mjpacks. rewrite sort_by_perm. apply NoDup_ListNoDup, List.NoDup_filter, NoDup_ListNoDup.
  apply (NoDup_fst_map_to_list dir).
Qed.
Lemma lookup_discarded (names : list string) (dir : Directory) name :
  foldr delete dir names !! name = if decide (name ∈ names) then None else dir !! name.
Proof.
  induction names as [|n names IH]; cbn [foldr].
  - destruct (decide (name ∈ [])) as [H|]; [by apply not_elem_of_nil in H|done].
  - destruct (decide (name = n)) as [->|Hne].
    + rewrite lookup_delete_eq, decide_True; [done|apply list_elem_of_here].
    + rewrite lookup_delete_ne by done. rewrite IH.
      destruct (decide (name ∈ names)), (decide (name ∈ n :: names)) as [H|H];
        rewrite elem_of_cons in H; done || tauto.
Qed.

(** Dropping the staging packs removes every pack file of the staging
    directory and nothing else; the legacy corpus is not touched, and the count
    reported is the number of files removed. *)
Theorem discard_staging_spec store :
  let '(n, store') := discard_staging store in
  legacy store' = legacy store /\ mjpacks (staging store') = [] /\
  (forall name, is_mjpack name = false -> staging store' !! name = staging store !! name) /\
  exists names, n = zlen names /\ NoDup names /\
    forall name, name ∈ names <-> is_mjpack name = true /\ is_Some (staging store !! name).
Proof.
  unfold discard_staging. unfold set_field; cbn [legacy staging]. split_and!; [done| | |].
  - destruct (mjpacks (foldr delete _ _)) as [|name names] eqn:E; [done|].
    assert (name ∈ name :: names) as Hin by apply list_elem_of_here. rewrite <- E in Hin.
    apply elem_of_mjpacks in Hin as [Hm Hin]. rewrite lookup_discarded in Hin.
    destruct (decide (name ∈ mjpacks (staging store))) as [H|H]; [by destruct Hin|].
    destruct H. by apply elem_of_mjpacks.
  - intros name Hname. rewrite lookup_discarded, decide_False; [done|].
    rewrite elem_of_mjpacks, Hname. by intros [? _].
  - exists (mjpacks (staging store)). split_and!; [done|apply NoDup_mjpacks|apply elem_of_mjpacks].
Qed.

Section Uploading.
Context (put : string -> list Z -> gmap string (list Z) -> result PackError (gmap string (list Z))).
(** A [put] touches the object it names and no other. *)
Hypothesis put_frame : forall key bytes bucket bucket', put key bytes bucket = Ok bucket' ->
  forall other, other <> key -> bucket' !! other = bucket !! other.

Definition stored (local : Directory) (bucket : gmap string (list Z)) (name : string) : Prop :=
  exists bytes, local !! name = Some bytes /\
    zlen <$> bucket !! (PACK_PREFIX +:+ name) = Some (zlen bytes).
Lemma pack_key_name name : file_name name = Some name -> pack_key name = Some (PACK_PREFIX +:+ name).
Proof. unfold pack_key. by intros ->. Qed.
Lemma upload_each_frame names local bucket bucket' r other :
  Forall (fun name => file_name name = Some name) names ->
  upload_each put names local bucket = (bucket', r) ->
  (forall name, name ∈ names -> other <> PACK_PREFIX +:+ name) -> bucket' !! other = bucket !! other.
Proof using put_frame.
  revert bucket bucket' r; induction names as [|name names IH]; intros bucket bucket' r Hok; simpl.
  { by intros [= <- <-]. }
  apply Forall_cons in Hok as [Hname Hok]. rewrite pack_key_name by done. intros Hup Hother.
  assert (Hrest : forall name, name ∈ names -> other <> PACK_PREFIX +:+ name)
    by (intros n Hn; apply Hother; by apply list_elem_of_further).
  destruct (local !! name) as [bytes|]; [|by injection Hup as <- <-].
  destruct (bool_decide _); [by eapply IH|].
  destruct (put _ bytes bucket) as [b|e|] eqn:Eput; [|by injection Hup as <- <-..].
  assert (b !! other = bucket !! other) as <-
    by (eapply put_frame; [exact Eput|]; apply Hother, list_elem_of_here).
  destruct (bool_decide _); [|by injection Hup as <- <-].
  destruct (upload_each put names local b) as [b' u] eqn:Eup. injection Hup as <- <-.
  by eapply IH.
Qed.
Lemma upload_each_stored names local bucket bucket' n :
  Forall (fun name => file_name name = Some name) names -> NoDup names ->
  upload_each put names local bucket = (bucket', Ok n) -> Forall (stored local bucket') names.
Proof using put_frame.
  revert bucket bucket' n; induction names as [|name names IH]; intros bucket bucket' n Hok Hnd Hup;
    [by constructor|].
  apply Forall_cons in Hok as [Hname Hok]. apply NoDup_cons in Hnd as [Hnotin Hnd].
  cbn [upload_each] in Hup. rewrite pack_key_name in Hup by done.
  destruct (local !! name) as [bytes|] eqn:El; [|done].
  assert (Hkeep : forall b u, upload_each put names local b = (bucket', u) ->
    bucket' !! (PACK_PREFIX +:+ name) = b !! (PACK_PREFIX +:+ name)).
  { intros b u Hu. eapply upload_each_frame; [exact Hok|exact Hu|].
    intros n' Hn' Heq. apply (inj (String.append PACK_PREFIX)) in Heq. by subst. }
  destruct (bool_decide _) eqn:Ehave.
  - apply bool_decide_eq_true in Ehave. constructor; [|by eapply IH].
    exists bytes. split; [done|]. by rewrite (Hkeep _ _ Hup).
  - destruct (put _ bytes bucket) as [b|e|] eqn:Eput; try done.
    destruct (bool_decide (zlen <$> b !! _ = _)) eqn:Echeck; [|done].
    apply bool_decide_eq_true in Echeck.
    destruct (upload_each put names local b) as [b' u] eqn:Eup.
    destruct u; simpl in Hup; try done. injection Hup as <- <-.
    constructor; [|by eapply IH]. exists bytes. split; [done|]. by rewrite (Hkeep _ _ Eup).
Qed.
Lemma upload_each_again names local bucket :
  Forall (fun name => file_name name = Some name) names ->
  Forall (stored local bucket) names -> upload_each put names local bucket = (bucket, Ok 0).
Proof.
  induction names as [|name names IH]; [done|]. intros [Hname Hok]%Forall_cons.
  intros [(bytes & Hl & Hb) Hst]%Forall_cons. cbn [upload_each].
  rewrite pack_key_name, Hl, bool_decide_true by done. by apply IH.
Qed.

(** When the boot-time upload reports success, every legacy pack has an object
    of its own size, no other object was touched, and running it again uploads
    nothing and changes nothing. *)
Theorem upload_legacy_packs_idempotent store bucket bucket' n :
  (forall name, is_Some (legacy store !! name) -> file_name name = Some name) ->
  upload_legacy_packs put store bucket = (bucket', Ok n) ->
  (forall name, is_mjpack name = true -> is_Some (legacy store !! name) ->
     stored (legacy store) bucket' name) /\
  (forall other, (forall name, name ∈ mjpacks (legacy store) -> other <> PACK_PREFIX +:+ name) ->
     bucket' !! other = bucket !! other) /\
  upload_legacy_packs put store bucket' = (bucket', Ok 0).
Proof using put_frame.
  intros Hnames Hup. unfold upload_legacy_packs in *.
  assert (Hok : Forall (fun name => file_name name = Some name) (mjpacks (legacy store))).
  { apply Forall_forall. intros name [_ Hin]%elem_of_mjpacks. auto. }
  pose proof (upload_each_stored _ _ _ _ _ Hok (NoDup_mjpacks _) Hup) as Hst. split_and!.
  - intros name Hm Hin. rewrite Forall_forall in Hst. apply Hst. by apply elem_of_mjpacks.
  - intros other Hother. by eapply upload_each_frame.
  - by apply upload_each_again.
Qed.
End Uploading.
End PackFacts.

(** ** The theorems at work *)
Section PackExamples.
Import Pack.
(** A toy codec: a frame is one marker byte and the bytes. *)
Definition toy_compress (raw : list Z) : option (list Z) := Some (40 :: raw).
Definition toy_decompress (frame : list Z) (cap : Z) : option (list Z) :=
  match frame with 40 :: raw => if zlen raw <=? cap then Some raw else None | _ => None end.
Lemma toy_roundtrip raw frame : toy_compress raw = Some frame -> toy_decompress frame (zlen raw) = Some raw.
Proof. intros [= <-]. simpl. by rewrite Z.leb_refl. Qed.
Lemma toy_frame raw frame : toy_compress raw = Some frame -> frame <> [].
Proof. by intros [= <-]. Qed.
Definition toy_items : list (Uuid * list Z) := [(replicate 16 1, [7; 7; 7]); (replicate 16 2, [9])].
Definition toy_writer : PackWriter := mkWriter "packs/a.mjpack" "a.mjpack" MAGIC 8 None.
Definition toy_filled : result PackError (PackWriter * list PackLocation) :=
  fill toy_compress 5 toy_items toy_writer.
Definition toy_file : list Z := match toy_filled with Ok (w, _) => file w | _ => [] end.
Definition toy_locations : list PackLocation := match toy_filled with Ok (_, ls) => ls | _ => [] end.

(** The second entry torn: one record is left. *)
Lemma scan_pack_recovers_witness :
  scan_pack "packs/a.mjpack" (take 50 toy_file) =
    Ok ("packs/a.mjpack", [(replicate 16 1, mkLocation "packs/a.mjpack" 32 4 3)]).
Proof.
  destruct toy_filled as [[w ls]| |] eqn:E; [|by vm_compute in E..].
  assert (Hids : Forall (fun item => wf_id (fst item)) toy_items) by (repeat constructor).
  destruct (scan_pack_recovers toy_compress toy_frame ∅ "packs/a.mjpack" {["a.mjpack" := MAGIC]}
    toy_writer 5 toy_items w ls) as [H _]; [vm_compute; reflexivity|vm_compute; reflexivity|exact Hids|exact E|].
  unfold toy_file. rewrite E. rewrite (H 50%nat) by lia.
  vm_compute in E. injection E as <- <-. vm_compute; reflexivity.
Defined.
Lemma append_read_witness :
  Forall2 (fun item l => read toy_decompress (fun _ o n => read_at toy_file o n)
    (mkStore ∅ ∅) l = Ok (snd item)) toy_items toy_locations.
Proof.
  unfold toy_locations, toy_file.
  destruct toy_filled as [[w ls]| |] eqn:E; [|by vm_compute in E..].
  apply (append_read toy_compress toy_decompress toy_roundtrip toy_frame ∅ "packs/a.mjpack"
    {["a.mjpack" := MAGIC]} toy_writer 5 toy_items w ls); [vm_compute; reflexivity | repeat constructor | exact E | by left | by left | done].
Defined.
Lemma upload_legacy_packs_idempotent_witness :
  upload_legacy_packs (fun k b bucket => Ok (<[k := b]> bucket)) (mkStore {["a.mjpack" := [1; 2]]} ∅)
    {["packs/a.mjpack" := [1; 2]]} = ({["packs/a.mjpack" := [1; 2]]}, Ok 0).
Proof.
  apply (upload_legacy_packs_idempotent (fun k b bucket => Ok (<[k := b]> bucket))
    ltac:(intros k b bu bu' [= <-] o Ho; by apply lookup_insert_ne) (mkStore {["a.mjpack" := [1; 2]]} ∅) ∅
    {["packs/a.mjpack" := [1; 2]]} 1).
  - intros name [bytes H]. cbn [legacy] in H. apply lookup_singleton_Some in H as [<- _]. vm_compute; reflexivity.
  - vm_compute; reflexivity.
Defined.
End PackExamples.
