(* ===== verification/Kafka.v ===== *)
(** The record topic: [src/src/kafka.rs]. A partition is a log of records; the
    broker client (rskafka), the [uuid] and [chrono] text formats are arguments. *)
From S2P Require Import Prelude Text Pack.
#[local] Open Scope string_scope.
#[local] Open Scope list_scope.
#[local] Open Scope Z_scope.

Module Kafka.
Import Pack.

(** 768 KiB. *)
Definition MAX_PRODUCE_BATCH_BYTES : Z := 768 * 1024.

Inductive KafkaError := Broker | Timeout | Malformed (message : string) | Store.

(** [DateTime<Utc>] is the nanoseconds since the epoch. *)
Definition DateTime : Type := Z.
(** [trunc_subsecs(3)]: down to the millisecond. *)
Definition trunc_millis (at_ : DateTime) : DateTime := at_ - at_ mod 1000000.

Record IngestMessage := mkMessage {
  record_id : Uuid; source : string; played_at : option DateTime; raw : list Z;
  majsoul_pb : option (list Z); received_at : DateTime
}.
(** [IngestMessage::new]; the clock is an argument. *)
Definition new (now : DateTime) (record_id : Uuid) (source : string) (played_at : option DateTime)
  (raw : list Z) (majsoul_pb : option (list Z)) : IngestMessage :=
  mkMessage record_id source (trunc_millis <$> played_at) raw majsoul_pb (trunc_millis now).
(** [IngestMessage::reindex]. *)
Definition reindex (record_id : Uuid) (source : string) (received_at : DateTime)
  (played_at : option DateTime) (raw : list Z) (majsoul_pb : option (list Z)) : IngestMessage :=
  mkMessage record_id source (trunc_millis <$> played_at) raw majsoul_pb (trunc_millis received_at).

(** [rskafka::record::Record]. *)
Record Record_ := mkRecord {
  key : option (list Z); value : option (list Z); headers : gmap string (list Z);
  timestamp : DateTime
}.

Section Text.
Variable uuid_to_string : Uuid -> string.
Variable uuid_parse : string -> option Uuid.
Variable to_rfc3339 : DateTime -> string.
Variable parse_from_rfc3339 : string -> option DateTime.

(** [IngestMessage::into_record]. *)
Definition into_record (m : IngestMessage) : Record_ :=
  let headers : gmap string (list Z) := {["source" := bytes_of_string (source m)]} in
  let headers := match played_at m with
                 | Some at_ => <["played_at" := bytes_of_string (to_rfc3339 at_)]> headers
                 | None => headers end in
  let headers := match majsoul_pb m with
                 | Some pb => <["majsoul_pb" := pb]> headers
                 | None => headers end in
  mkRecord (Some (bytes_of_string (uuid_to_string (record_id m)))) (Some (raw m)) headers
    (received_at m).

(** [std::str::from_utf8(..).ok()]. *)
Definition from_utf8 (bytes : list Z) : option string :=
  if utf8_valid bytes then Some (string_of_bytes bytes) else None.
(** [IngestMessage::from_record]. *)
Definition from_record (record : Record_) : result KafkaError IngestMessage :=
  match key record with
  | None => Err (Malformed "message has no record id key")
  | Some key =>
    match from_utf8 key ≫= uuid_parse with
    | None => Err (Malformed "message key is not a record id")
    | Some record_id =>
      match headers record !! "source" ≫= from_utf8 with
      | None => Err (Malformed (uuid_to_string record_id +:+ " carries no source"))
      | Some source =>
        let played_at := (headers record !! "played_at" ≫= from_utf8) ≫= parse_from_rfc3339 in
        let majsoul_pb := headers record !! "majsoul_pb" in
        match value record with
        | None => Err (Malformed (uuid_to_string record_id +:+ " has no body"))
        | Some raw => Ok (mkMessage record_id source played_at raw majsoul_pb (timestamp record))
        end
      end
    end
  end.
End Text.

(** What the broker keeps of a timestamp: milliseconds. *)
Definition wire (record : Record_) : Record_ :=
  mkRecord (key record) (value record) (headers record) (trunc_millis (timestamp record)).

(** ** Producing *)
(** [Kafka::partition_for]: [as_u128] of the identifier. *)
Definition partition_for (partitions : Z) (record_id : Uuid) : Z := from_be_bytes record_id mod partitions.

(** The logs of the topic's partitions. *)
Abbreviation Topic := (list (list Record_)).

(** [produce_chunks]; [approximate_size] is the client's measure of a record. *)
Section Chunks.
Variable approximate_size : Record_ -> Z.
Fixpoint chunk_loop (records : list Record_) (chunks : list (list Record_)) (current : list Record_)
  (current_bytes : Z) : list (list Record_) :=
  match records with
  | [] => match current with [] => chunks | _ => chunks ++ [current] end
  | record :: records =>
    let size := approximate_size record in
    match current with
    | [] => chunk_loop records chunks [record] (current_bytes + size)
    | _ => if MAX_PRODUCE_BATCH_BYTES <? current_bytes + size
           then chunk_loop records (chunks ++ [current]) [record] size
           else chunk_loop records chunks (current ++ [record]) (current_bytes + size)
    end
  end.
Definition produce_chunks (records : list Record_) : list (list Record_) :=
  chunk_loop records [] [] 0.

(** The answer to one produce request: stored and acknowledged, refused without
    being stored, or stored with the acknowledgement lost. *)
Inductive outcome := Acked | Refused | Unacknowledged.

Fixpoint produce_partition (broker : list outcome) (chunks : list (list Record_)) (log : list Record_)
  {struct chunks} : list outcome * list Record_ * result KafkaError () :=
  match chunks with
  | [] => (broker, log, Ok tt)
  | chunk :: chunks =>
    match broker with
    | Acked :: broker => produce_partition broker chunks (log ++ map wire chunk)
    | Unacknowledged :: broker => (broker, log ++ map wire chunk, Err Timeout)
    | Refused :: broker => (broker, log, Err Broker)
    | [] => (broker, log, Err Timeout)
    end
  end.
Fixpoint produce_routed (broker : list outcome) (routed : list (list Record_)) (topic : Topic)
  : Topic * result KafkaError () :=
  match routed, topic with
  | records :: routed, log :: topic =>
    let '(broker, log, r) := produce_partition broker (produce_chunks records) log in
    match r with
    | Ok _ => let '(topic, r) := produce_routed broker routed topic in (log :: topic, r)
    | failed => (log :: topic, failed)
    end
  | _, _ => (topic, Ok tt)
  end.
(** [Kafka::produce_batch]: routed by partition, then chunk by chunk; it stops at
    the first failure and what was stored before stays. *)
Definition produce_batch (record_of : IngestMessage -> Record_) (broker : list outcome)
  (messages : list IngestMessage) (topic : Topic) : Topic * result KafkaError () :=
  let n := zlen topic in
  let routed := map (fun p => map record_of
      (List.filter (fun m => partition_for n (record_id m) =? Z.of_nat p) messages))
    (seq 0 (length topic)) in
  produce_routed broker routed topic.
End Chunks.

(** ** Consuming *)
Record Fetched := mkFetched {
  records : list (Z * Record_); high_watermark : Z; start_offset : Z
}.
Definition is_end_of_log (f : Fetched) : bool := match records f with [] => true | _ => false end.
Definition next_offset (f : Fetched) : Z :=
  match last (records f) with Some (offset, _) => offset + 1 | None => start_offset f end.

(** The answer of the broker to a fetch at an offset. *)
Inductive fetch_answer :=
| Fetch_ok (records : list (Z * Record_)) (high_watermark : Z)
| Fetch_out_of_range
| Fetch_failed (error : KafkaError).
(** [PartitionConsumer::fetch]: an offset the log no longer holds resumes at the
    earliest retained one. *)
Definition fetch (fetch_at : Z -> fetch_answer) (earliest : result KafkaError Z) (offset : Z)
  : result KafkaError Fetched :=
  match fetch_at offset with
  | Fetch_ok records high => Ok (mkFetched records high offset)
  | Fetch_failed e => Err e
  | Fetch_out_of_range =>
    earliest ← earliest;
    match fetch_at earliest with
    | Fetch_ok records high => Ok (mkFetched records high earliest)
    | Fetch_out_of_range => Err Broker
    | Fetch_failed e => Err e
    end
  end.

(** ** Backlog *)
(** [partition_lag], in [i64] arithmetic (offsets are far below its bounds). *)
Definition partition_lag (high_watermark earliest : Z) (committed : option Z) : Z :=
  Z.max (high_watermark - default earliest committed) 0.
(** [Kafka::lag] and [Kafka::max_lag] ([saturating_mul]). *)
Definition lag (samples : list Z) : Z := foldr Z.add 0 samples.
Definition i64_max : Z := 2 ^ 63 - 1.
Definition max_lag (configured partitions : Z) : Z :=
  Z.max (- 2 ^ 63) (Z.min (configured * partitions) i64_max).
(** [Kafka::sample_lag]: partition by partition; a failed call leaves the rest of
    the samples as they were. *)
Fixpoint sample_lag (answers : list (result KafkaError (Z * Z * option Z))) (samples : list Z)
  : list Z * result KafkaError () :=
  match answers, samples with
  | Ok (high, earliest, committed) :: answers, _ :: samples =>
    let '(samples, r) := sample_lag answers samples in
    (partition_lag high earliest committed :: samples, r)
  | Err e :: _, samples => (samples, Err e)
  | Panic :: _, samples => (samples, Panic)
  | _, samples => (samples, Ok tt)
  end.
End Kafka.

(** ** Facts *)
Section KafkaFacts.
Import Pack Kafka.

Lemma trunc_millis_idem at_ : trunc_millis (trunc_millis at_) = trunc_millis at_.
Proof.
  unfold trunc_millis. pose proof (Z.div_mod at_ 1000000 ltac:(lia)).
  replace (at_ - at_ mod 1000000) with (at_ / 1000000 * 1000000) by lia.
  rewrite Z.mod_mul; lia.
Qed.

(** A [Uuid] is sixteen bytes. *)
Definition uuid_ok (id : Uuid) : Prop := length id = 16%nat /\ bytes_ok id.

Section Messages.
Context (uuid_to_string : Uuid -> string) (uuid_parse : string -> option Uuid).
Context (to_rfc3339 : DateTime -> string) (parse_from_rfc3339 : string -> option DateTime).
Context (representable : DateTime -> Prop).
(** The two text formats read back what they print, and print UTF-8. *)
Hypothesis uuid_text : forall id, uuid_ok id -> uuid_parse (uuid_to_string id) = Some id /\
  utf8_valid (bytes_of_string (uuid_to_string id)) = true.
Hypothesis rfc3339_text : forall at_, representable at_ ->
  parse_from_rfc3339 (to_rfc3339 at_) = Some at_ /\
  utf8_valid (bytes_of_string (to_rfc3339 at_)) = true.

Lemma from_utf8_string s : utf8_valid (bytes_of_string s) = true -> from_utf8 (bytes_of_string s) = Some s.
Proof. unfold from_utf8. intros ->. by rewrite string_of_bytes_of_string. Qed.

(** A message survives the topic. Whatever the ingest path builds, be it a
    new record or a re-index, the worker decodes the identical message from the
    stored record, the ingest time included, although the broker keeps
    timestamps to the millisecond only. *)
Theorem message_roundtrip m :
  uuid_ok (record_id m) ->
  utf8_valid (bytes_of_string (source m)) = true ->
  (forall at_, played_at m = Some at_ -> representable at_) ->
  trunc_millis (received_at m) = received_at m ->
  from_record uuid_to_string uuid_parse parse_from_rfc3339
    (wire (into_record uuid_to_string to_rfc3339 m)) = Ok m.
Proof using uuid_text rfc3339_text.
  intros Hid Hsource Hplayed Hms. unfold from_record, into_record, wire.
  cbn [key value headers timestamp]. destruct (uuid_text (record_id m) Hid) as [Hparse Hutf].
  rewrite from_utf8_string by done. cbn [mbind option_bind]. rewrite Hparse, Hms.
  set (h0 := {["source" := _]} : gmap string (list Z)).
  set (h1 := match played_at m with Some _ => _ | None => _ end).
  set (h2 := match majsoul_pb m with Some _ => _ | None => _ end).
  assert (h2 !! "source" = Some (bytes_of_string (source m))) as ->.
  { unfold h2, h1, h0. destruct (majsoul_pb m), (played_at m); by simpl_map. }
  assert (h2 !! "played_at" = (fun at_ => bytes_of_string (to_rfc3339 at_)) <$> played_at m) as ->.
  { unfold h2, h1, h0. destruct (majsoul_pb m), (played_at m); by simpl_map. }
  assert (h2 !! "majsoul_pb" = majsoul_pb m) as ->.
  { unfold h2, h1, h0. destruct (majsoul_pb m), (played_at m); by simpl_map. }
  cbn [mbind option_bind]. rewrite from_utf8_string by done. destruct m as [id src pl rw pb rc].
  cbn in *. destruct pl as [at_|]; cbn; [|done].
  destruct (rfc3339_text at_ (Hplayed at_ eq_refl)) as [Hp Hu].
  by rewrite from_utf8_string; cbn; rewrite ?Hp.
Qed.
(** Both constructors build such messages. *)
Lemma constructors_truncate now id src pl rw pb :
  trunc_millis (received_at (new now id src pl rw pb)) = received_at (new now id src pl rw pb) /\
  trunc_millis (received_at (reindex id src now pl rw pb)) = received_at (reindex id src now pl rw pb).
Proof. by split; apply trunc_millis_idem. Qed.
End Messages.

(** *** Chunks *)
Section Chunking.
Context (approximate_size : Record_ -> Z).
Hypothesis size_nonneg : forall r, 0 <= approximate_size r.
Definition total (l : list Record_) : Z := foldr (fun r acc => approximate_size r + acc) 0 l.
Definition fits (chunk : list Record_) : Prop :=
  chunk <> [] /\ (total chunk <= MAX_PRODUCE_BATCH_BYTES \/ length chunk = 1%nat).
Lemma total_snoc l r : total (l ++ [r]) = total l + approximate_size r.
Proof. induction l as [|x l IH]; simpl; [lia|]. fold (total (l ++ [r])) (total l). lia. Qed.
Lemma chunk_loop_spec records chunks current current_bytes :
  Forall fits chunks -> current_bytes = total current -> (current <> [] -> fits current) ->
  concat (chunk_loop approximate_size records chunks current current_bytes)
    = concat chunks ++ current ++ records /\
  Forall fits (chunk_loop approximate_size records chunks current current_bytes).
Proof using size_nonneg.
  revert chunks current current_bytes; induction records as [|r records IH];
    intros chunks current current_bytes Hchunks Hbytes Hcurrent; cbn [chunk_loop].
  - destruct current as [|c current].
    + by rewrite !app_nil_r.
    + rewrite concat_app, Forall_app. cbn. rewrite !app_nil_r. split; [done|].
      split; [done|]. constructor; [by apply Hcurrent|constructor].
  - assert (Hone : fits [r]) by (split; [done|by right]).
    destruct current as [|c current].
    + cbn in Hbytes. subst. destruct (IH chunks [r] (0 + approximate_size r)) as [H1 H2];
        [done|cbn; lia|done|]. split; [|done]. by rewrite H1.
    + destruct (Z.ltb_spec MAX_PRODUCE_BATCH_BYTES (current_bytes + approximate_size r)).
      * destruct (IH (chunks ++ [c :: current]) [r] (approximate_size r)) as [H1 H2];
          [|cbn; lia|done|split; [|done]].
        { apply Forall_app; split; [done|]. constructor; [by apply Hcurrent|constructor]. }
        rewrite H1, concat_app. cbn. rewrite app_nil_r, <- app_assoc. done.
      * destruct (IH chunks ((c :: current) ++ [r]) (current_bytes + approximate_size r)) as [H1 H2];
          [done|rewrite total_snoc; lia| |split; [|done]].
        { intros _. split; [done|]. left. rewrite total_snoc. lia. }
        rewrite H1. by rewrite <- app_assoc.
Qed.

(** Splitting a partition's records into produce requests loses nothing and
    reorders nothing; no request is empty, and each one stays within the
    broker's bound unless it is a single record that exceeds it alone. *)
Theorem produce_chunks_spec records :
  concat (produce_chunks approximate_size records) = records /\
  Forall fits (produce_chunks approximate_size records).
Proof using size_nonneg.
  destruct (chunk_loop_spec records [] [] 0) as [H1 H2]; [constructor|done|done|]. by split.
Qed.

(** *** Batches *)
(** What one partition's log gains: everything on success, and otherwise whole
    chunks from the front. *)
Lemma produce_partition_spec broker chunks log broker' log' r :
  produce_partition broker chunks log = (broker', log', r) ->
  exists done rest, chunks = done ++ rest /\ log' = log ++ map wire (concat done) /\
    (r = Ok tt /\ rest = [] \/ exists e, r = Err e).
Proof.
  revert broker log; induction chunks as [|chunk chunks IH]; intros broker log; cbn.
  - intros [= <- <- <-]. exists [], []. cbn. rewrite app_nil_r. auto.
  - destruct broker as [|[] broker].
    + intros [= <- <- <-]. exists [], (chunk :: chunks). cbn. rewrite app_nil_r. eauto.
    + intros H. destruct (IH _ _ H) as (done & rest & -> & -> & Hr).
      exists (chunk :: done), rest. cbn. by rewrite map_app, app_assoc.
    + intros [= <- <- <-]. exists [], (chunk :: chunks). cbn. rewrite app_nil_r. eauto.
    + intros [= <- <- <-]. exists [chunk], chunks. cbn. rewrite app_nil_r. eauto.
Qed.
Lemma produce_routed_ok broker routed topic topic' :
  length routed = length topic ->
  produce_routed approximate_size broker routed topic = (topic', Ok tt) ->
  topic' = zip_with (fun log records => log ++ map wire records) topic routed.
Proof using size_nonneg.
  revert broker topic topic'; induction routed as [|records routed IH]; intros broker [|log topic] topic' Hlen;
    cbn; try done; [by intros [= <-]|].
  destruct (produce_partition _ _ _) as [[b' log'] r] eqn:E.
  destruct (produce_partition_spec _ _ _ _ _ _ E) as (dn & rest & Hch & -> & [[-> ->]|[e ->]]); [|done].
  destruct (produce_routed _ b' routed topic) as [t r] eqn:Er. intros Heq; injection Heq as <- ->.
  rewrite (IH b' topic t) by (done || by injection Hlen). f_equal. rewrite app_nil_r in Hch. subst.
  by rewrite (proj1 (produce_chunks_spec records)).
Qed.
Lemma produce_routed_extends broker routed topic topic' r :
  length routed = length topic ->
  produce_routed approximate_size broker routed topic = (topic', r) ->
  Forall2 (fun log log' => exists new, log' = log ++ new) topic topic'.
Proof.
  assert (Hrefl : forall l : list (list Record_), Forall2 (fun log log' => exists new, log' = log ++ new) l l).
  { intros l; induction l; constructor; [|done]. exists []. by rewrite app_nil_r. }
  revert broker topic topic'; induction routed as [|records routed IH]; intros broker [|log topic] topic' Hlen;
    cbn; try done; [intros [= <- _]; constructor|].
  destruct (produce_partition _ _ _) as [[b' log'] r'] eqn:E.
  destruct (produce_partition_spec _ _ _ _ _ _ E) as (dn & rest & _ & -> & [[-> _]|[e ->]]).
  - destruct (produce_routed _ b' routed topic) as [t r''] eqn:Er. intros [= <- <-].
    constructor; [by eexists|]. apply (IH b' topic t); [by injection Hlen|done].
  - intros [= <- <-]. constructor; [by eexists|apply Hrefl].
Qed.

(** [produce_batch] never removes or reorders what a partition holds, and when
    it reports success every message of the batch is in the log of the partition
    its identifier selects, those of one partition in the order of the batch. *)
Theorem produce_batch_spec record_of broker messages topic topic' r :
  produce_batch approximate_size record_of broker messages topic = (topic', r) ->
  Forall2 (fun log log' => exists new, log' = log ++ new) topic topic' /\
  (r = Ok tt -> forall p log, topic !! p = Some log ->
     topic' !! p = Some (log ++ map (fun m => wire (record_of m))
       (List.filter (fun m => partition_for (zlen topic) (record_id m) =? Z.of_nat p) messages))).
Proof using size_nonneg.
  unfold produce_batch. set (routed := map _ (seq 0 (length topic))). intros H.
  assert (Hlen : length routed = length topic) by (unfold routed; by rewrite length_map, length_seq).
  split; [by eapply produce_routed_extends|]. intros -> p log Hp.
  rewrite (produce_routed_ok _ _ _ _ Hlen H), lookup_zip_with, Hp. cbn.
  assert (Hrt : routed !! p = Some (map record_of
    (List.filter (fun m => partition_for (zlen topic) (record_id m) =? Z.of_nat p) messages))).
  { unfold routed. rewrite list_lookup_fmap, lookup_seq_lt; [done|]. by apply lookup_lt_Some in Hp. }
  rewrite Hrt. cbn. by rewrite map_map.
Qed.
End Chunking.
End KafkaFacts.

(** ** Concrete messages *)
Section KafkaExamples.
Import Pack Kafka.
(** An identifier printed as two letters per byte. *)
Definition letters (id : Uuid) : list Z := flat_map (fun b => [97 + b / 16; 97 + b mod 16]) id.
Definition toy_uuid_text (id : Uuid) : string := string_of_bytes (letters id).
Fixpoint unletters (l : list Z) : Uuid :=
  match l with a :: b :: l => (16 * (a - 97) + (b - 97)) :: unletters l | _ => [] end.
Definition toy_uuid_parse (s : string) : option Uuid :=
  let id := unletters (bytes_of_string s) in
  if Nat.eqb (length id) 16 then Some id else None.
Lemma letters_ascii id : bytes_ok id -> Forall (fun b => 0 <= b < 128) (letters id).
Proof.
  induction 1 as [|b id Hb _ IH]; cbn; [constructor|].
  pose proof (Z.mod_pos_bound b 16 ltac:(lia)). pose proof (Z.div_mod b 16 ltac:(lia)).
  repeat (constructor; [lia|]). done.
Qed.
Lemma unletters_letters id : unletters (letters id) = id.
Proof.
  induction id as [|b id IH]; cbn; [done|]. pose proof (Z.div_mod b 16 ltac:(lia)).
  fold (letters id). rewrite IH. f_equal. lia.
Qed.
Lemma toy_uuid_roundtrip id : uuid_ok id -> toy_uuid_parse (toy_uuid_text id) = Some id /\
  utf8_valid (bytes_of_string (toy_uuid_text id)) = true.
Proof.
  intros [Hlen Hok]. pose proof (letters_ascii id Hok) as Ha. unfold toy_uuid_parse, toy_uuid_text.
  rewrite bytes_of_string_of_bytes by (eapply Forall_impl; [exact Ha|]; cbn; lia).
  rewrite unletters_letters, Hlen. cbn. split; [done|by apply ascii_utf8_valid].
Qed.
(** Two instants and their texts. *)
Definition toy_rfc3339 (at_ : DateTime) : string := if at_ =? 0 then "1970" else "later".
Definition toy_rfc3339_parse (s : string) : option DateTime :=
  if String.eqb s "1970" then Some 0 else Some 5000000.
Lemma message_roundtrip_witness :
  from_record toy_uuid_text toy_uuid_parse toy_rfc3339_parse
    (wire (into_record toy_uuid_text toy_rfc3339
      (new 1234567 (replicate 16 200) "mjai" (Some 5000001) [1; 2; 3] (Some []))))
  = Ok (mkMessage (replicate 16 200) "mjai" (Some 5000000) [1; 2; 3] (Some []) 1000000).
Proof.
  apply (message_roundtrip toy_uuid_text toy_uuid_parse toy_rfc3339 toy_rfc3339_parse
    (fun at_ => at_ = 0 \/ at_ = 5000000) toy_uuid_roundtrip).
  - by intros at_ [-> | ->].
  - split; [done|]. apply Forall_forall. intros b Hb. apply elem_of_replicate in Hb as [-> _]. lia.
  - done.
  - intros at_ [= <-]. by right.
  - done.
Defined.

Definition toy_size (r : Record_) : Z := match value r with Some v => zlen v * 300000 | None => 0 end.
Lemma toy_size_nonneg r : 0 <= toy_size r.
Proof. unfold toy_size. destruct (value r) as [v|]; [pose proof (zlen_nonneg v)|]; lia. Qed.
Definition toy_record_of (m : IngestMessage) : Record_ := mkRecord None (Some (raw m)) ∅ 0.
Definition toy_sized (n : nat) : IngestMessage := mkMessage (replicate 16 (Z.of_nat n)) "" None (replicate n 0) None 0.
Lemma produce_chunks_spec_witness :
  map (map toy_size) (produce_chunks toy_size (map (fun n => toy_record_of (toy_sized n)) [1; 1; 1; 3; 0]%nat))
    = [[300000; 300000]; [300000]; [900000]; [0]] /\
  concat (produce_chunks toy_size (map (fun n => toy_record_of (toy_sized n)) [1; 1; 1; 3; 0]%nat))
    = map (fun n => toy_record_of (toy_sized n)) [1; 1; 1; 3; 0]%nat.
Proof. split; [vm_compute; reflexivity|]. apply (produce_chunks_spec toy_size toy_size_nonneg). Defined.
Definition toy_batch : Topic * result KafkaError () :=
  produce_batch toy_size toy_record_of [Acked; Unacknowledged] (map toy_sized [1; 2; 3]%nat) [[]; []].
Definition toy_batch_ok : Topic * result KafkaError () :=
  produce_batch toy_size toy_record_of [Acked; Acked; Acked] (map toy_sized [1; 2; 3]%nat) [[]; []].
Lemma produce_batch_spec_witness :
  toy_batch.2 = Err Timeout /\ map (@length Record_) toy_batch.1 = [1; 1]%nat /\
  toy_batch_ok.1 !! 1%nat = Some [toy_record_of (toy_sized 1); toy_record_of (toy_sized 3)].
Proof.
  split_and!; [vm_compute; reflexivity..|].
  rewrite (proj2 (produce_batch_spec toy_size toy_size_nonneg toy_record_of [Acked; Acked; Acked]
    (map toy_sized [1; 2; 3]%nat) [[]; []] toy_batch_ok.1 (Ok tt) ltac:(vm_compute; reflexivity)) eq_refl 1%nat [] eq_refl).
  vm_compute. reflexivity.
Defined.
End KafkaExamples.
