(* ===== verification/Ingest.v ===== *)
(** The ingest half of the record pipeline: the idempotency claims of
    [src/src/catalog.rs] and the claim-then-produce protocol of
    [src/src/indexer.rs]. PostgreSQL is a table keyed by the hash of the scoped
    key; every statement on it is one atomic operation. *)
From S2P Require Import Prelude Text Json Mjai Pack Kafka.
#[local] Open Scope string_scope.
#[local] Open Scope list_scope.
#[local] Open Scope Z_scope.

Module Ingest.
Import Pack Kafka.

(** ** Claims *)
Inductive KeyScope := Game | Caller.
#[export] Instance KeyScope_eq_dec : EqDecision KeyScope.
Proof. solve_decision. Defined.
Definition content_must_match (scope : KeyScope) : bool :=
  match scope with Caller => true | Game => false end.
Definition expires (scope : KeyScope) : bool :=
  match scope with Caller => true | Game => false end.

(** A row of [ingest_idempotency]; its [state] and [updated_at] are never read. *)
Record Claim := mkClaim {
  claim_id : Uuid; content_sha256 : string; claim_expires : bool; created_at : DateTime
}.
#[export] Instance Claim_settable : Settable Claim := fun r =>
  mkClaim (claim_id r) (content_sha256 r) (claim_expires r) (created_at r).
Abbreviation Claims := (gmap string Claim).
Inductive CatalogError := Conflict | Pending | StoreDown.
Inductive IdempotencyClaim := NewClaim | Existing (id : Uuid).

Section Hashed.
(** PostgreSQL's [sha256] of the key. *)
Variable key_hash : string -> string.

(** [INSERT .. ON CONFLICT (key_hash) DO NOTHING RETURNING]. *)
Definition claim_insert (now : DateTime) (key : string) (id : Uuid) (sha256 : string)
  (scope : KeyScope) (claims : Claims) : bool * Claims :=
  match claims !! key_hash key with
  | Some _ => (false, claims)
  | None => (true, <[key_hash key := mkClaim id sha256 (expires scope) now]> claims)
  end.
(** The [SELECT] of the request that lost the insert. *)
Definition claim_lookup (key : string) (sha256 : string) (scope : KeyScope) (claims : Claims)
  : result CatalogError IdempotencyClaim :=
  match claims !! key_hash key with
  | None => Err Pending
  | Some row =>
    if content_must_match scope && negb (String.eqb (content_sha256 row) sha256)
    then Err Conflict else Ok (Existing (claim_id row))
  end.
(** The replies to the two statements of a claim, and what other requests did to
    the table between them. *)
Record Store := mkStore_ { st_insert : reply; st_lookup : reply; between : Claims -> Claims }.
(** [Catalog::claim]. *)
Definition catalog_claim (store : Store) (now : DateTime) (key : string) (id : Uuid)
  (sha256 : string) (scope : KeyScope) (claims : Claims)
  : Claims * result CatalogError IdempotencyClaim :=
  let '(claimed, after) := claim_insert now key id sha256 scope claims in
  let claims := if took_effect (st_insert store) then after else claims in
  if negb (answered (st_insert store)) then (claims, Err StoreDown)
  else if claimed : bool then (claims, Ok NewClaim)
  else
    let claims := between store claims in
    (claims, if answered (st_lookup store) then claim_lookup key sha256 scope claims
             else Err StoreDown).
(** [Catalog::abandon_claim]: [DELETE .. WHERE key_hash = .. AND record_id = ..]. *)
Definition abandon_claim (key : string) (id : Uuid) (claims : Claims) : Claims :=
  match claims !! key_hash key with
  | Some row => if bool_decide (claim_id row = id) then delete (key_hash key) claims else claims
  | None => claims
  end.
(** [Catalog::adopt_game_claims]: [ON CONFLICT DO UPDATE SET expires = false]. *)
Fixpoint adopt_game_claims (now : DateTime) (claims_to_adopt : list (string * Uuid * string))
  (claims : Claims) : Claims :=
  match claims_to_adopt with
  | [] => claims
  | (key, id, sha256) :: rest =>
    adopt_game_claims now rest
      (match claims !! key_hash key with
       | Some row => <[key_hash key := row <| claim_expires := false |>]> claims
       | None => <[key_hash key := mkClaim id sha256 false now]> claims
       end)
  end.
(** [Catalog::prune]: 30 days. *)
Definition IDEMPOTENCY_RETENTION : Z := 30 * 86400 * 1000000000.
Definition prune (now : DateTime) (claims : Claims) : Claims :=
  filter (fun '(_, row) => ~ (claim_expires row = true /\ created_at row < now - IDEMPOTENCY_RETENTION))
    claims.

(** ** Claiming a record *)
Definition MAJSOUL_GAME_SCOPE : string := "majsoul-watch".
Definition NUL : string := String "000"%char EmptyString.
(** [game_scope_key]. *)
Definition game_scope_key (majsoul_uuid : string) : string := MAJSOUL_GAME_SCOPE +:+ NUL +:+ majsoul_uuid.
Definition caller_scope_key (source idempotency_key : string) : string :=
  source +:+ NUL +:+ idempotency_key.

Inductive IngestError :=
| MalformedRecord (e : Mjai.ParseError)
| CatalogFailed (e : CatalogError)
| Produce (e : KafkaError)
| Backlogged (lag : Z).
Record Claimed := mkClaimed {
  cl_id : Uuid; cl_sha256 : string; cl_key : string; message : option IngestMessage
}.
Definition is_duplicate (c : Claimed) : bool := match message c with None => true | _ => false end.
Definition raw_len (c : Claimed) : Z := match message c with Some m => zlen (raw m) | None => 0 end.
Record Accepted := mkAccepted { acc_id : Uuid; acc_sha256 : string; duplicate : bool }.

(** The JSON reader and printer, [DateTime::from_timestamp] and the content
    hash, from other crates. *)
Variable from_str : string -> json + string.
Variable to_string : json -> string.
Variable timestamp_ok : Z -> bool.
Variable sha256_hex : list Z -> string.

(** The scoping rule of [claim]. *)
Definition scoped_key (source idempotency_key : string) (majsoul_uuid : option string)
  : string * KeyScope :=
  match majsoul_uuid with
  | Some uuid => (game_scope_key uuid, Game)
  | None => (caller_scope_key source idempotency_key, Caller)
  end.
(** [claim]; [fresh] is the new identifier, [lag] and [max_lag] the sampled
    backlog and its ceiling. *)
Definition claim (lag max_lag : Z) (now : DateTime) (fresh : Uuid) (source idempotency_key : string)
  (played_at : option DateTime) (raw : list Z) (majsoul_pb : option (list Z))
  (store : Store) (claims : Claims) : Claims * result IngestError Claimed :=
  if max_lag <=? lag then (claims, Err (Backlogged lag))
  else match Mjai.parse_metadata from_str to_string timestamp_ok raw with
  | Err e => (claims, Err (MalformedRecord e))
  | Panic => (claims, Panic)
  | Ok metadata =>
    let sha256 := sha256_hex raw in
    let '(key, scope) := scoped_key source idempotency_key (Mjai.majsoul_uuid metadata) in
    let '(claims, outcome) := catalog_claim store now key fresh sha256 scope claims in
    (claims, match outcome with
             | Err e => Err (CatalogFailed e)
             | Panic => Panic
             | Ok (Existing id) => Ok (mkClaimed id sha256 key None)
             | Ok NewClaim =>
               Ok (mkClaimed fresh sha256 key
                     (Some (Kafka.new now fresh source played_at raw majsoul_pb)))
             end)
  end.

(** ** Producing what was claimed *)
(** The messages of a batch, with the keys to release if producing fails. *)
Definition to_produce (claimed : list Claimed) : list ((string * Uuid) * IngestMessage) :=
  omap (fun c => (fun m => ((cl_key c, record_id m), m)) <$> message c) claimed.
(** [released] says, claim by claim, whether the [DELETE] went through. *)
Fixpoint release (keys : list (string * Uuid)) (released : list bool) (claims : Claims) : Claims :=
  match keys with
  | [] => claims
  | (key, id) :: keys =>
    let ok := default false (head released) in
    release keys (tail released) (if ok : bool then abandon_claim key id claims else claims)
  end.

Section Broker.
Variable produce_batch : list IngestMessage -> Topic -> Topic * result KafkaError ().
(** [produce_claimed]. *)
Definition produce_claimed (released : list bool) (claimed : list Claimed) (claims : Claims)
  (topic : Topic) : Claims * Topic * result IngestError () :=
  match to_produce claimed with
  | [] => (claims, topic, Ok tt)
  | entries =>
    let '(topic, r) := produce_batch (map snd entries) topic in
    match r with
    | Ok _ => (claims, topic, Ok tt)
    | Err e => (release (map fst entries) released claims, topic, Err (Produce e))
    | Panic => (claims, topic, Panic)
    end
  end.
(** [abandon_claimed]: a duplicate's claim belongs to another request. *)
Definition abandon_claimed (released : list bool) (claimed : list Claimed) (claims : Claims) : Claims :=
  release (omap (fun c => match message c with Some _ => Some (cl_key c, cl_id c) | None => None end)
             claimed) released claims.
(** [ingest_one]. *)
Definition ingest_one (lag max_lag : Z) (now : DateTime) (fresh : Uuid)
  (source idempotency_key : string) (played_at : option DateTime) (raw : list Z)
  (majsoul_pb : option (list Z)) (store : Store) (released : list bool)
  (claims : Claims) (topic : Topic) : Claims * Topic * result IngestError Accepted :=
  let '(claims, c) := claim lag max_lag now fresh source idempotency_key played_at raw majsoul_pb
                        store claims in
  match c with
  | Err e => (claims, topic, Err e)
  | Panic => (claims, topic, Panic)
  | Ok claimed =>
    let accepted := mkAccepted (cl_id claimed) (cl_sha256 claimed) (is_duplicate claimed) in
    let '(claims, topic, r) := produce_claimed released [claimed] claims topic in
    (claims, topic, match r with Ok _ => Ok accepted | Err e => Err e | Panic => Panic end)
  end.
End Broker.
(** [reindex_one]: no claim; the message carries the stored identity. *)
Definition reindex_one (produce : IngestMessage -> Topic -> Topic * result KafkaError ())
  (record_id : Uuid) (source : string) (received_at : DateTime) (played_at : option DateTime)
  (raw : list Z) (majsoul_pb : option (list Z)) (topic : Topic) : Topic * result IngestError () :=
  match Mjai.parse_metadata from_str to_string timestamp_ok raw with
  | Err e => (topic, Err (MalformedRecord e))
  | Panic => (topic, Panic)
  | Ok _ =>
    let '(topic, r) := produce (reindex record_id source received_at played_at raw majsoul_pb) topic in
    (topic, match r with Ok _ => Ok tt | Err e => Err (Produce e) | Panic => Panic end)
  end.
End Hashed.
End Ingest.

(** ** Facts *)
Section IngestFacts.
Import Pack Kafka Ingest.

Fixpoint nul_free (s : string) : bool :=
  match s with
  | EmptyString => true
  | String a s => negb (Ascii.eqb a "000"%char) && nul_free s
  end.
Lemma caller_scope_key_inj s1 s2 k1 k2 : nul_free s1 = true -> nul_free s2 = true ->
  caller_scope_key s1 k1 = caller_scope_key s2 k2 -> s1 = s2 /\ k1 = k2.
Proof.
  unfold caller_scope_key, NUL. revert s2; induction s1 as [|a s1 IH]; intros [|b s2];
    cbn [nul_free]; unfold String.append; fold String.append; try done.
  - by intros _ _ [= ->].
  - intros _ Hb [= <- _]. done.
  - intros Ha _ [= -> _]. done.
  - intros [_ H1]%andb_prop [_ H2]%andb_prop [= -> Heq]. destruct (IH s2 H1 H2 Heq) as [-> ->]. done.
Qed.

(** What makes two records the same record. A record naming its game is
    claimed by the game alone, whoever brings it; any other by the source and
    the key its caller chose. For sources without NUL the three namespaces meet
    nowhere else, except that a caller calling itself [majsoul-watch] shares the
    games' namespace. *)
Theorem scoped_keys_collide source1 key1 game1 source2 key2 game2 :
  nul_free source1 = true -> nul_free source2 = true ->
  fst (scoped_key source1 key1 game1) = fst (scoped_key source2 key2 game2) <->
  match game1, game2 with
  | Some g1, Some g2 => g1 = g2
  | None, None => source1 = source2 /\ key1 = key2
  | Some g, None => source2 = MAJSOUL_GAME_SCOPE /\ key2 = g
  | None, Some g => source1 = MAJSOUL_GAME_SCOPE /\ key1 = g
  end.
Proof.
  intros H1 H2. assert (Hg : nul_free MAJSOUL_GAME_SCOPE = true) by reflexivity.
  assert (Hkey : forall s k s' k', nul_free s = true -> nul_free s' = true ->
    caller_scope_key s k = caller_scope_key s' k' <-> s = s' /\ k = k').
  { intros s k s' k' Hs Hs'. split; [by apply caller_scope_key_inj|]. by intros [-> ->]. }
  destruct game1 as [g1|], game2 as [g2|]; cbn [fst scoped_key];
    change (game_scope_key ?g) with (caller_scope_key MAJSOUL_GAME_SCOPE g); rewrite Hkey by done;
    intuition congruence.
Qed.

Section Hashed.
Context (key_hash : string -> string).
Abbreviation abandon_claim := (abandon_claim key_hash).
Abbreviation adopt := (adopt_game_claims key_hash).

Lemma abandon_claim_None key id claims h :
  claims !! h = None -> abandon_claim key id claims !! h = None.
Proof.
  intros H. unfold Ingest.abandon_claim. destruct (claims !! key_hash key); [|done].
  case_bool_decide; [|done]. by rewrite lookup_delete_None; right.
Qed.
Lemma abandon_claim_other key id claims h row :
  claims !! h = Some row -> claim_id row <> id -> abandon_claim key id claims !! h = Some row.
Proof.
  intros H Hid. unfold Ingest.abandon_claim. destruct (claims !! key_hash key) as [row'|] eqn:E; [|done].
  case_bool_decide as Hd; [|done]. destruct (decide (h = key_hash key)) as [->|Hne]; [congruence|].
  by rewrite lookup_delete_ne.
Qed.
Lemma abandon_claim_own key id claims row :
  claims !! key_hash key = Some row -> claim_id row = id -> abandon_claim key id claims !! key_hash key = None.
Proof.
  intros H Hid. unfold Ingest.abandon_claim. rewrite H. case_bool_decide; [|done]. apply lookup_delete_eq.
Qed.

(** A claim no [prune] removes. *)
Definition permanent (row : Claim) : Prop := claim_expires row = false.
Lemma prune_permanent now claims h row :
  claims !! h = Some row -> permanent row -> prune now claims !! h = Some row.
Proof.
  intros H Hp. apply map_lookup_filter_Some. split; [done|]. unfold permanent in Hp. cbn. intros [? _]. congruence.
Qed.
(** Adopting keeps every holder, and never makes a claim expire. *)
Lemma adopt_keeps now l claims h row : claims !! h = Some row ->
  exists row', adopt now l claims !! h = Some row' /\ claim_id row' = claim_id row /\
    (permanent row -> permanent row').
Proof.
  revert claims row; induction l as [|[[key id] sha] l IH]; intros claims row H; cbn; [eauto|].
  set (claims' := match claims !! key_hash key with Some r => _ | None => _ end).
  assert (exists row1, claims' !! h = Some row1 /\ claim_id row1 = claim_id row /\
    (permanent row -> permanent row1)) as (row1 & H1 & Hid & Hp).
  { unfold claims'. destruct (decide (h = key_hash key)) as [->|Hne].
    - rewrite H, lookup_insert_eq. by eexists.
    - destruct (claims !! key_hash key); rewrite lookup_insert_ne by done; eauto. }
  destruct (IH _ _ H1) as (row' & H2 & Hid' & Hp'). exists row'. split_and!; [done|congruence|auto].
Qed.
Lemma adopt_claims now l claims key id sha : (key, id, sha) ∈ l ->
  exists row, adopt now l claims !! key_hash key = Some row /\ permanent row.
Proof.
  revert claims; induction l as [|[[key' id'] sha'] l IH]; intros claims; [by intros ?%not_elem_of_nil|].
  intros [[= <- <- <-]|Hin]%elem_of_cons; cbn; [|by apply IH].
  set (claims' := match claims !! key_hash key with Some r => _ | None => _ end).
  assert (exists row, claims' !! key_hash key = Some row /\ permanent row) as (row & Hrow & Hp).
  { unfold claims'. destruct (claims !! key_hash key); rewrite lookup_insert_eq; by eexists. }
  destruct (adopt_keeps now l _ _ _ Hrow) as (row' & ? & _ & ?). eauto.
Qed.

(** A stored game is never forgotten. After [adopt_game_claims], no [prune],
    however late, frees the key of an adopted game, and whoever held a key
    before still holds it. *)
Theorem adopted_claims_survive_prune adopted_at pruned_at l claims key id sha :
  (key, id, sha) ∈ l ->
  exists row, prune pruned_at (adopt adopted_at l claims) !! key_hash key = Some row /\
    claim_expires row = false /\
    forall holder, claims !! key_hash key = Some holder -> claim_id row = claim_id holder.
Proof.
  intros Hin. destruct (adopt_claims adopted_at l claims _ _ _ Hin) as (row & Hrow & Hp).
  exists row. split_and!; [by apply prune_permanent|done|]. intros holder Hh.
  destruct (adopt_keeps adopted_at l _ _ _ Hh) as (row' & Hr' & Hid & _). congruence.
Qed.

Section Requests.
Context (from_str : string -> json + string) (to_string : json -> string) (timestamp_ok : Z -> bool).
Context (sha256_hex : list Z -> string).
Context (produce_batch : list IngestMessage -> Topic -> Topic * result KafkaError ()).
Abbreviation ingest_one := (ingest_one key_hash from_str to_string timestamp_ok sha256_hex produce_batch).
(** The key a payload is claimed under. *)
Definition key_of (source idempotency_key : string) (raw : list Z) : option (string * KeyScope) :=
  match Mjai.parse_metadata from_str to_string timestamp_ok raw with
  | Ok metadata => Some (scoped_key source idempotency_key (Mjai.majsoul_uuid metadata))
  | _ => None
  end.

(** What an answer to an ingest means. Accepted as new: the fresh identifier
    holds the key and the broker acknowledged this very record. Accepted as a
    duplicate: the key was held, nothing was produced, and a caller's key held
    this content. Refused before producing: the topic is untouched. Refused by
    the broker with the release done: the key is free for the retry. *)
Theorem ingest_one_spec lag max_lag now fresh source key played_at raw pb store released claims topic
  claims' topic' r :
  ingest_one lag max_lag now fresh source key played_at raw pb store released claims topic
    = (claims', topic', r) ->
  match r with
  | Ok acc => acc_sha256 acc = sha256_hex raw /\
    exists k scope row, key_of source key raw = Some (k, scope) /\
      claims' !! key_hash k = Some row /\ claim_id row = acc_id acc /\
      if duplicate acc
      then topic' = topic /\ (scope = Caller -> content_sha256 row = sha256_hex raw)
      else acc_id acc = fresh /\ content_sha256 row = sha256_hex raw /\ claim_expires row = expires scope /\
           produce_batch [Kafka.new now fresh source played_at raw pb] topic = (topic', Ok tt)
  | Err (Backlogged _) | Err (MalformedRecord _) => topic' = topic /\ claims' = claims
  | Err (CatalogFailed _) => topic' = topic
  | Err (Produce e) => produce_batch [Kafka.new now fresh source played_at raw pb] topic = (topic', Err e) /\
      exists k scope, key_of source key raw = Some (k, scope) /\
        (head released = Some true -> claims' !! key_hash k = None)
  | Panic => True
  end.
Proof.
  unfold Ingest.ingest_one, claim, key_of. destruct (max_lag <=? lag); [by intros [= <- <- <-]|].
  destruct (Mjai.parse_metadata _ _ _ raw) as [md|e|]; [|by intros [= <- <- <-]..].
  destruct (scoped_key source key _) as [k scope]. unfold catalog_claim, claim_insert.
  destruct (claims !! key_hash k) as [held|] eqn:Ek.
  - assert (Hsame : (if took_effect (st_insert store) then claims else claims) = claims) by (by destruct took_effect).
    rewrite Hsame. destruct (answered (st_insert store)); cbn [negb]; [|by intros [= <- <- <-]].
    destruct (answered (st_lookup store)); [|by intros [= <- <- <-]]. unfold claim_lookup.
    destruct (between store claims !! key_hash k) as [row|] eqn:Er; [|by intros [= <- <- <-]].
    destruct (content_must_match scope && _) eqn:Em; [by intros [= <- <- <-]|]. cbn.
    intros [= <- <- <-]. split; [done|]. exists k, scope, row. cbn. split_and!; try done. intros ->. cbn in Em.
    apply negb_false_iff in Em. by apply String.eqb_eq.
  - destruct (st_insert store); cbn; try by intros [= <- <- <-].
    destruct (produce_batch _ topic) as [t [[]|e|]] eqn:Ep; intros [= <- <- <-]; cbn; [| |done].
    + split; [done|]. eexists _, _, _. rewrite lookup_insert_eq. by split_and!.
    + split; [done|]. exists k, scope. split; [done|]. intros Hrel. rewrite Hrel. cbn.
      eapply abandon_claim_own; [apply lookup_insert_eq|done].
Qed.

(** A claim that could not be released turns the retry into a false
    duplicate. When the broker refused a record and the release failed too, the
    same record sent again is answered as accepted, under the identifier of the
    lost copy, while nothing is produced. *)
Theorem failed_release_loses_the_retry lag max_lag now fresh source key played_at raw pb claims topic
  claims' topic' e now' fresh' released' produce_again :
  ingest_one lag max_lag now fresh source key played_at raw pb (mkStore_ Done Done id) [false] claims topic
    = (claims', topic', Err (Produce e)) ->
  Ingest.ingest_one key_hash from_str to_string timestamp_ok sha256_hex produce_again
    lag max_lag now' fresh' source key played_at raw pb (mkStore_ Done Done id) released' claims' topic'
    = (claims', topic', Ok (mkAccepted fresh (sha256_hex raw) true)).
Proof.
  unfold Ingest.ingest_one, claim. destruct (max_lag <=? lag); [done|].
  destruct (Mjai.parse_metadata _ _ _ raw) as [md|err|]; [|done..].
  destruct (scoped_key source key _) as [k scope]. unfold catalog_claim, claim_insert.
  destruct (claims !! key_hash k) as [held|] eqn:Ek; cbn.
  - unfold claim_lookup. rewrite Ek. cbn. destruct (_ && _); done.
  - destruct (produce_batch _ topic) as [t [[]|e'|]]; cbn; [done| |done].
    intros [= <- <- _].
    rewrite lookup_insert_eq. cbn. unfold claim_lookup. rewrite lookup_insert_eq. cbn.
    rewrite String.eqb_refl, andb_false_r. done.
Qed.
End Requests.
End Hashed.
End IngestFacts.

(** ** Concrete requests *)
Section IngestExamples.
Import Pack Kafka Ingest.
Definition line_reader (text : string) : json + string :=
  match text with
  | String "{"%char _ => inl (JObj [("type", JStr "start_game");
      ("majsoul", JObj [("uuid", JStr " 230101-game ")])])
  | _ => inr "expected value"
  end.
Definition payload : list Z := bytes_of_string "{}".
Definition accepts (ms : list IngestMessage) (t : Topic) : Topic * result KafkaError () :=
  (t ++ [map (fun m => mkRecord None (Some (raw m)) ∅ 0) ms], Ok tt).
Definition refuses (ms : list IngestMessage) (t : Topic) : Topic * result KafkaError () := (t, Err Broker).
Abbreviation request := (fun produce => ingest_one (fun key => key) line_reader (fun _ => "") (fun _ => true)
  (fun _ => "digest") produce).

Lemma scoped_keys_collide_witness :
  fst (scoped_key MAJSOUL_GAME_SCOPE "230101-game" None) = fst (scoped_key "archive" "x" (Some "230101-game")).
Proof. apply (scoped_keys_collide MAJSOUL_GAME_SCOPE "230101-game" None "archive" "x" (Some "230101-game")); done. Defined.
Lemma adopted_claims_survive_prune_witness :
  exists row, prune (10 * IDEMPOTENCY_RETENTION)
      (adopt_game_claims (fun key => key) 0 [("k", replicate 16 2, "s")]
         {["k" := mkClaim (replicate 16 1) "s" true 0]}) !! "k" = Some row /\
    claim_expires row = false /\
    forall holder, ({["k" := mkClaim (replicate 16 1) "s" true 0]} : Claims) !! "k" = Some holder ->
      claim_id row = claim_id holder.
Proof.
  apply (adopted_claims_survive_prune (fun key => key) 0 (10 * IDEMPOTENCY_RETENTION)
    [("k", replicate 16 2, "s")] _ "k" (replicate 16 2) "s"). apply list_elem_of_here.
Defined.
Lemma ingest_one_spec_witness :
  let run := request accepts 0 10 5 (replicate 16 1) "archive" "x" None payload None
               (mkStore_ Done Done id) [] ∅ [] in
  run.2 = Ok (mkAccepted (replicate 16 1) "digest" false) /\
  exists k scope row,
    key_of line_reader (fun _ => "") (fun _ => true) "archive" "x" payload = Some (k, scope) /\
    run.1.1 !! k = Some row /\ claim_id row = replicate 16 1.
Proof.
  split; [vm_compute; reflexivity|].
  destruct (request accepts 0 10 5 (replicate 16 1) "archive" "x" None payload None
    (mkStore_ Done Done id) [] ∅ []) as [[claims' topic'] r] eqn:E.
  pose proof (ingest_one_spec (fun key => key) line_reader (fun _ => "") (fun _ => true) (fun _ => "digest")
    accepts 0 10 5 (replicate 16 1) "archive" "x" None payload None (mkStore_ Done Done id) [] ∅ []
    claims' topic' r E) as H.
  assert (r = Ok (mkAccepted (replicate 16 1) "digest" false)) as ->.
  { replace r with (snd (claims', topic', r)) by done. rewrite <- E. vm_compute; reflexivity. }
  destruct H as (_ & k & scope & row & H1 & H2 & H3 & _). by exists k, scope, row.
Defined.
Definition leaked : Claims :=
  (request refuses 0 10 5 (replicate 16 1) "archive" "x" None payload None (mkStore_ Done Done id) [false] ∅ []).1.1.
Lemma failed_release_loses_the_retry_witness :
  request accepts 0 10 6 (replicate 16 2) "archive" "x" None payload None (mkStore_ Done Done id) [] leaked [] =
    (leaked, [], Ok (mkAccepted (replicate 16 1) "digest" true)).
Proof.
  apply (failed_release_loses_the_retry (fun key => key) line_reader (fun _ => "") (fun _ => true)
    (fun _ => "digest") refuses 0 10 5 (replicate 16 1) "archive" "x" None payload None ∅ [] leaked [] Broker).
  vm_compute; reflexivity.
Defined.
End IngestExamples.
