(* ===== verification/Requests.v ===== *)
(** Concurrent ingests: the claim-then-produce protocol of
    [src/src/indexer.rs] with every request, prune and adoption interleaved at
    the grain of one PostgreSQL statement or one produce call. *)
From S2P Require Import Prelude Text Json Mjai Pack Kafka Ingest.
#[local] Open Scope string_scope.
#[local] Open Scope list_scope.
#[local] Open Scope Z_scope.

Module Requests.
Import Pack Kafka Ingest.

(** What a client sent, and the identifier the server drew for it. *)
Record Request := mkRequest {
  rq_id : Uuid; rq_source : string; rq_key : string; rq_raw : list Z
}.
(** Where a request stands: its insert was refused and it has yet to look the
    holder up; it holds the claim; its produce failed and it has yet to release;
    or it was answered. *)
Inductive Phase := Looking | Holding | Releasing | AcceptedNew | AcceptedDuplicate (id : Uuid) | Failed.
Record Sys := mkSys { claims : Claims; topic : list Uuid; requests : list (Request * Phase) }.
#[export] Instance Sys_settable : Settable Sys := fun r => mkSys (claims r) (topic r) (requests r).

Section Protocol.
Variable key_hash : string -> string.
Variable from_str : string -> json + string.
Variable to_string : json -> string.
Variable timestamp_ok : Z -> bool.
Variable sha256_hex : list Z -> string.

Definition scoped (rq : Request) : option (string * KeyScope) :=
  key_of from_str to_string timestamp_ok (rq_source rq) (rq_key rq) (rq_raw rq).
Definition move (i : nat) (rq : Request) (phase : Phase) (sys : Sys) : Sys :=
  sys <| requests ::= <[i := (rq, phase)]> |>.
Definition stored_by (o : outcome) (id : Uuid) (topic : list Uuid) : list Uuid :=
  match o with Refused => topic | Acked | Unacknowledged => topic ++ [id] end.

Inductive step : Sys -> Sys -> Prop :=
(** [claim]: the insert, whose answer may be lost. *)
| Begin now rq k scope r claimed claims' sys :
    scoped rq = Some (k, scope) ->
    rq_id rq ∉ map (fun p => rq_id (fst p)) (requests sys) ->
    claim_insert key_hash now k (rq_id rq) (sha256_hex (rq_raw rq)) scope (claims sys) = (claimed, claims') ->
    step sys (sys <| claims := if took_effect r then claims' else claims sys |>
                  <| requests ::= fun l => l ++ [(rq, if negb (answered r) then Failed
                                                      else if claimed : bool then Holding else Looking)] |>)
(** [claim]: the lookup of the request that lost the insert. *)
| Look i rq k scope sys :
    requests sys !! i = Some (rq, Looking) -> scoped rq = Some (k, scope) ->
    step sys (move i rq match claim_lookup key_hash k (sha256_hex (rq_raw rq)) scope (claims sys) with
                        | Ok (Existing id) => AcceptedDuplicate id
                        | _ => Failed
                        end sys)
(** [produce_claimed]: the produce. *)
| Produce i rq o sys :
    requests sys !! i = Some (rq, Holding) ->
    step sys (move i rq (match o with Acked => AcceptedNew | _ => Releasing end) sys
                <| topic ::= stored_by o (rq_id rq) |>)
(** [abandon_claimed]: a batch that gives up before producing. *)
| GiveUp i rq sys :
    requests sys !! i = Some (rq, Holding) -> step sys (move i rq Releasing sys)
(** The release, which may fail. *)
| Release i rq k scope (ok : bool) sys :
    requests sys !! i = Some (rq, Releasing) -> scoped rq = Some (k, scope) ->
    step sys (move i rq Failed sys
                <| claims ::= fun c => if ok then abandon_claim key_hash k (rq_id rq) c else c |>)
(** The request dies: its client sees no answer. *)
| Crash i rq phase sys :
    requests sys !! i = Some (rq, phase) -> (phase = Looking \/ phase = Holding \/ phase = Releasing) ->
    step sys (move i rq Failed sys)
| Prune now sys : step sys (sys <| claims ::= prune now |>)
| Adopt now l sys : step sys (sys <| claims ::= adopt_game_claims key_hash now l |>).
Definition initial : Sys := mkSys ∅ [] [].
Inductive reachable : Sys -> Prop :=
| Reach_initial : reachable initial
| Reach_step sys sys' : reachable sys -> step sys sys' -> reachable sys'.
End Protocol.
End Requests.

Section RequestFacts.
Import Pack Kafka Ingest Requests.
Context (key_hash : string -> string) (from_str : string -> json + string) (to_string : json -> string).
Context (timestamp_ok : Z -> bool) (sha256_hex : list Z -> string).
Abbreviation step := (step key_hash from_str to_string timestamp_ok sha256_hex).
Abbreviation reachable := (reachable key_hash from_str to_string timestamp_ok sha256_hex).
Abbreviation scoped := (scoped from_str to_string timestamp_ok).

(** A request that still holds, or has won, the key of its game. *)
Definition holds (phase : Phase) : Prop := phase = Holding \/ phase = AcceptedNew.
Definition claim_held (claims : Claims) (rq : Request) : Prop :=
  forall k, scoped rq = Some (k, Game) ->
    exists row, claims !! key_hash k = Some row /\ claim_id row = rq_id rq /\ permanent row.
Definition ids (sys : Sys) : list Uuid := map (fun p => rq_id (fst p)) (requests sys).
Definition sys_ok (sys : Sys) : Prop :=
  NoDup (ids sys) /\
  (forall i rq phase, requests sys !! i = Some (rq, phase) -> holds phase -> claim_held (claims sys) rq) /\
  (forall i rq, requests sys !! i = Some (rq, AcceptedNew) -> rq_id rq ∈ topic sys).

Lemma ids_move i rq phase phase' sys : requests sys !! i = Some (rq, phase) ->
  ids (move i rq phase' sys) = ids sys.
Proof.
  intros H. unfold ids, move, set_field. cbn. rewrite list_fmap_insert. apply list_insert_id.
  by rewrite list_lookup_fmap, H.
Qed.
Lemma ids_inj sys i j rq rq' p p' : NoDup (ids sys) ->
  requests sys !! i = Some (rq, p) -> requests sys !! j = Some (rq', p') -> rq_id rq = rq_id rq' -> i = j.
Proof.
  intros Hnd Hi Hj Heq. eapply NoDup_lookup; [exact Hnd|..]; unfold ids; rewrite list_lookup_fmap.
  - by rewrite Hi.
  - rewrite Hj. cbn. by rewrite Heq.
Qed.
(** Moving one request on keeps the invariant if the claims of all the others,
    and its own while it holds, stay. *)
Lemma move_ok i rq phase phase' (f : Claims -> Claims) (g : list Uuid -> list Uuid) sys :
  sys_ok sys -> requests sys !! i = Some (rq, phase) ->
  (forall j rq' p, requests sys !! j = Some (rq', p) -> holds p -> (j = i -> holds phase') ->
     claim_held (claims sys) rq' -> claim_held (f (claims sys)) rq') ->
  (holds phase' -> holds phase) ->
  (forall id, id ∈ topic sys -> id ∈ g (topic sys)) ->
  (phase' = AcceptedNew -> phase <> AcceptedNew -> rq_id rq ∈ g (topic sys)) ->
  sys_ok (move i rq phase' sys <| claims ::= f |> <| topic ::= g |>).
Proof.
  intros (Hnd & Hheld & Htop) Hi Hf Hph Hg Hnew. pose proof (lookup_lt_Some _ _ _ Hi) as Hlt.
  pose proof (ids_move i rq phase phase' sys Hi) as Hids. unfold ids, move, set_field in *. cbn in *.
  unfold sys_ok, ids. cbn. rewrite Hids. split_and!; [done| |].
  - intros j rq' p Hj Hp. destruct (decide (i = j)) as [<-|Hne].
    + rewrite list_lookup_insert_eq in Hj by done. injection Hj as <- <-.
      apply (Hf i rq phase Hi); [by apply Hph|done|]. by eapply Hheld; [|apply Hph].
    + rewrite list_lookup_insert_ne in Hj by done. apply (Hf j rq' p Hj Hp); [by intros ->|].
      by eapply Hheld.
  - intros j rq' Hj. destruct (decide (i = j)) as [<-|Hne].
    + rewrite list_lookup_insert_eq in Hj by done. injection Hj as <- ->.
      destruct phase; try (by apply Hnew); apply Hg. by eapply Htop.
    + rewrite list_lookup_insert_ne in Hj by done. apply Hg. by eapply Htop.
Qed.
Lemma begin_ok now rq k scope r claimed claims' sys :
  sys_ok sys -> scoped rq = Some (k, scope) -> rq_id rq ∉ ids sys ->
  claim_insert key_hash now k (rq_id rq) (sha256_hex (rq_raw rq)) scope (claims sys) = (claimed, claims') ->
  sys_ok (sys <| claims := if took_effect r then claims' else claims sys |>
              <| requests ::= fun l => l ++ [(rq, if negb (answered r) then Failed
                                                  else if claimed : bool then Holding else Looking)] |>).
Proof.
  intros (Hnd & Hheld & Htop) Hk Hfresh Hins. set (claims1 := if took_effect r then claims' else claims sys).
  assert (Hkeep : forall h row, claims sys !! h = Some row -> claims1 !! h = Some row).
  { unfold claims1, claim_insert in *. intros h row Hr. destruct (took_effect r); [|done].
    destruct (claims sys !! key_hash k) eqn:Ek; injection Hins as _ <-; [done|].
    destruct (decide (h = key_hash k)) as [->|]; [congruence|]. by rewrite lookup_insert_ne. }
  unfold sys_ok, ids, set_field. cbn. rewrite map_app. cbn. split_and!.
  - apply NoDup_app. split_and!; [done| |apply NoDup_singleton].
    intros id Hin ->%list_elem_of_singleton. done.
  - intros j rq' p Hj Hp. apply lookup_app_Some in Hj as [Hj|[_ Hj]].
    + intros k' Hk'. destruct (Hheld j rq' p Hj Hp k' Hk') as (row & ? & ? & ?). eauto.
    + apply list_lookup_singleton_Some in Hj as [_ [= <- <-]]. intros k' Hk'. rewrite Hk in Hk'.
      injection Hk' as <- ->. unfold claims1, claim_insert in *. destruct r; cbn in *; try by destruct Hp.
      destruct (claims sys !! key_hash k); injection Hins as <- <-; [by destruct Hp|].
      rewrite lookup_insert_eq. by eexists.
  - intros j rq' Hj. apply lookup_app_Some in Hj as [Hj|[_ Hj]]; [by eapply Htop|].
    apply list_lookup_singleton_Some in Hj as [_ [= <- Hp]]. destruct (negb _), claimed; done.
Qed.
Lemma claims_ok (f : Claims -> Claims) sys : sys_ok sys ->
  (forall h row, claims sys !! h = Some row -> permanent row ->
     exists row', f (claims sys) !! h = Some row' /\ claim_id row' = claim_id row /\ permanent row') ->
  sys_ok (sys <| claims ::= f |>).
Proof.
  intros (Hnd & Hheld & Htop) Hf. unfold sys_ok, ids, set_field. cbn. split_and!; [done| |done].
  intros i rq p Hi Hp k Hk. destruct (Hheld i rq p Hi Hp k Hk) as (row & Hr & Hid & Hpm).
  destruct (Hf _ _ Hr Hpm) as (row' & ? & ? & ?). exists row'. split_and!; [done|congruence|done].
Qed.
Lemma requests_step_ok sys sys' : sys_ok sys -> step sys sys' -> sys_ok sys'.
Proof.
  intros Hok Hstep. destruct Hstep as [now rq k scope r claimed claims' sys Hk Hfresh Hins
    |i rq k scope sys Hi Hk|i rq o sys Hi|i rq sys Hi|i rq k scope ok sys Hi Hk|i rq phase sys Hi Hp|now sys|now l sys].
  - by eapply begin_ok.
  - apply (move_ok i rq Looking _ (fun c => c) (fun t => t)); try done;
      destruct (claim_lookup _ _ _ _ _) as [[]| |]; try done; by intros [|].
  - apply (move_ok i rq Holding _ (fun c => c)); try done.
    + intros _. by left.
    + intros id Hin. destruct o; cbn; [|done|]; apply elem_of_app; by left.
    + intros Ho _. destruct o; try done. cbn. apply elem_of_app. right. by apply list_elem_of_singleton.
  - apply (move_ok i rq Holding _ (fun c => c) (fun t => t)); try done. by intros [|].
  - apply (move_ok i rq Releasing _ _ (fun t => t)); try done; [|by intros [|]].
    intros j rq' p Hj Hp Hne Hheld k' Hk'. destruct (Hheld k' Hk') as (row & Hr & Hid & Hpm).
    destruct ok; [|by exists row]. exists row. split_and!; [|done|done].
    apply abandon_claim_other; [done|]. rewrite Hid. intros Heq.
    assert (j = i) as -> by (destruct Hok as [Hnd _]; by eapply ids_inj). by destruct (Hne eq_refl).
  - apply (move_ok i rq phase _ (fun c => c) (fun t => t)); try done. by intros [|].
  - apply claims_ok; [done|]. intros h row Hr Hpm. exists row. split_and!; [by apply prune_permanent|done|done].
  - apply claims_ok; [done|]. intros h row Hr Hpm.
    destruct (adopt_keeps key_hash now l _ _ _ Hr) as (row' & ? & ? & ?). exists row'. auto.
Qed.
Lemma requests_reachable_ok sys : reachable sys -> sys_ok sys.
Proof.
  induction 1 as [|sys sys' _ IH Hstep]; [|by eapply requests_step_ok].
  split_and!; [constructor|done|done].
Qed.

(** The game a request's payload names. *)
Definition names_game (rq : Request) (game : string) : Prop :=
  exists metadata, Mjai.parse_metadata from_str to_string timestamp_ok (rq_raw rq) = Ok metadata /\
    Mjai.majsoul_uuid metadata = Some game.
(** C3: one game is one record. Over all interleavings of concurrent requests,
    failed or unacknowledged produces, failed releases, crashes, prunes and
    adoptions, at most one request that carries a given game is ever answered as
    newly accepted, and its record is in the topic. *)
Theorem one_game_one_record sys i j rq rq' game :
  reachable sys ->
  requests sys !! i = Some (rq, AcceptedNew) -> requests sys !! j = Some (rq', AcceptedNew) ->
  names_game rq game -> names_game rq' game ->
  i = j /\ rq_id rq ∈ topic sys.
Proof.
  intros Hr Hi Hj (md & Hmd & Hg) (md' & Hmd' & Hg'). destruct (requests_reachable_ok _ Hr) as (Hnd & Hheld & Htop).
  split; [|by eapply Htop]. eapply ids_inj; [exact Hnd|exact Hi|exact Hj|].
  destruct (Hheld i rq _ Hi (or_intror eq_refl) (game_scope_key game)) as (row & Hrow & <- & _).
  { unfold Requests.scoped, key_of. by rewrite Hmd, Hg. }
  destruct (Hheld j rq' _ Hj (or_intror eq_refl) (game_scope_key game)) as (row' & Hrow' & <- & _).
  { unfold Requests.scoped, key_of. by rewrite Hmd', Hg'. }
  congruence.
Qed.
(** An answered duplicate can be a lost record. Two requests for one key: the
    second is told that the first already has the record, then the broker
    refuses the first one's produce and the claim is released. Both are
    answered, the second with success, and the record is in neither the topic
    nor the claims. *)
Theorem duplicate_of_a_lost_record rq rq' k scope :
  scoped rq = Some (k, scope) -> scoped rq' = Some (k, scope) -> rq_id rq <> rq_id rq' ->
  (scope = Caller -> sha256_hex (rq_raw rq) = sha256_hex (rq_raw rq')) ->
  exists sys, reachable sys /\ topic sys = [] /\ claims sys = ∅ /\
    requests sys = [(rq, Failed); (rq', AcceptedDuplicate (rq_id rq))].
Proof.
  intros Hk Hk' Hid Hsha. set (row := mkClaim (rq_id rq) (sha256_hex (rq_raw rq)) (expires scope) 0).
  set (held := <[key_hash k := row]> (∅ : Claims)).
  assert (Hlook : claim_lookup key_hash k (sha256_hex (rq_raw rq')) scope held = Ok (Existing (rq_id rq))).
  { unfold claim_lookup, held. rewrite lookup_insert_eq. destruct scope; cbn; [done|].
    by rewrite Hsha, String.eqb_refl. }
  assert (H1 : reachable (mkSys held [] [(rq, Holding)])).
  { eapply Reach_step; [apply Reach_initial|].
    apply (Begin _ _ _ _ _ 0 rq k scope Done true held initial Hk); [by apply not_elem_of_nil|done]. }
  assert (H2 : reachable (mkSys held [] [(rq, Holding); (rq', Looking)])).
  { eapply Reach_step; [exact H1|].
    apply (Begin _ _ _ _ _ 0 rq' k scope Done false held (mkSys held [] [(rq, Holding)]) Hk').
    - cbn. by intros ?%list_elem_of_singleton.
    - unfold claim_insert, held. cbn. by rewrite lookup_insert_eq. }
  assert (H3 : reachable (mkSys held [] [(rq, Holding); (rq', AcceptedDuplicate (rq_id rq))])).
  { eapply Reach_step; [exact H2|].
    pose proof (Look key_hash from_str to_string timestamp_ok sha256_hex 1 rq' k scope
      (mkSys held [] [(rq, Holding); (rq', Looking)]) eq_refl Hk') as H. cbn in H. by rewrite Hlook in H. }
  assert (H4 : reachable (mkSys held [] [(rq, Releasing); (rq', AcceptedDuplicate (rq_id rq))])).
  { eapply Reach_step; [exact H3|]. by apply (Produce _ _ _ _ _ 0 rq Refused
      (mkSys held [] [(rq, Holding); (rq', AcceptedDuplicate (rq_id rq))])). }
  eexists. split_and!.
  - eapply Reach_step; [exact H4|]. by apply (Release _ _ _ _ _ 0 rq k scope true
      (mkSys held [] [(rq, Releasing); (rq', AcceptedDuplicate (rq_id rq))])).
  - done.
  - unfold set_field, held. cbn. unfold abandon_claim. rewrite lookup_insert_eq. cbn.
    rewrite bool_decide_eq_true_2 by done. by rewrite delete_insert_eq, delete_empty.
  - done.
Qed.
End RequestFacts.

(** ** Concrete runs *)
Section RequestExamples.
Import Pack Kafka Ingest Requests.
Definition game_request (n : Z) : Request := mkRequest (replicate 16 n) "archive" "member" payload.
Abbreviation example_reachable :=
  (reachable (fun key => key) line_reader (fun _ => "") (fun _ => true) (fun _ => "digest")).
Lemma game_request_scoped n :
  Requests.scoped line_reader (fun _ => "") (fun _ => true) (game_request n)
    = Some (game_scope_key "230101-game", Game).
Proof. vm_compute. reflexivity. Qed.
Lemma duplicate_of_a_lost_record_witness :
  exists sys, example_reachable sys /\ topic sys = [] /\ claims sys = ∅ /\
    requests sys = [(game_request 1, Failed); (game_request 2, AcceptedDuplicate (replicate 16 1))].
Proof.
  apply (duplicate_of_a_lost_record (fun key => key) line_reader (fun _ => "") (fun _ => true) (fun _ => "digest")
    (game_request 1) (game_request 2) (game_scope_key "230101-game") Game
    (game_request_scoped 1) (game_request_scoped 2)); done.
Defined.
Definition accepted_once : Sys :=
  mkSys {[game_scope_key "230101-game" := mkClaim (replicate 16 1) "digest" false 0]} [replicate 16 1]
    [(game_request 1, AcceptedNew)].
Lemma accepted_once_reachable : example_reachable accepted_once.
Proof.
  eapply Reach_step; [eapply Reach_step; [apply Reach_initial|]|].
  - eapply (Begin _ _ _ _ _ 0 (game_request 1) _ Game Done true); [apply game_request_scoped| |reflexivity].
    by apply not_elem_of_nil.
  - by apply (Produce _ _ _ _ _ 0 (game_request 1) Acked).
Qed.
Lemma one_game_one_record_witness :
  0%nat = 0%nat /\ replicate 16 1 ∈ topic accepted_once.
Proof.
  apply (one_game_one_record (fun key => key) line_reader (fun _ => "") (fun _ => true) (fun _ => "digest")
    accepted_once 0 0 (game_request 1) (game_request 1) "230101-game" accepted_once_reachable eq_refl eq_refl);
    (eexists; split; vm_compute; reflexivity).
Defined.
End RequestExamples.
