(* ===== verification/Indexer.v ===== *)
(** The worker half of the record pipeline: [PackWorker] of
    [src/src/indexer.rs] with the index rows of [src/src/catalog.rs]. Every call
    to the disk, the bucket, ClickHouse and PostgreSQL can fail, before or after
    it took effect; what happens is an argument of the step. *)
From S2P Require Import Prelude Text Json Mjai Replay Pack Kafka.
#[local] Open Scope string_scope.
#[local] Open Scope list_scope.
#[local] Open Scope Z_scope.

Module Indexer.
Import Pack Kafka.

(** ** Index rows *)
Record PbLocation := mkPb { pb_offset : Z; pb_compressed_size : Z; pb_raw_size : Z }.
(** [PbLocation::from_columns] and [PbLocation::in_pack]. *)
Definition from_columns (offset compressed_size raw_size : Z) : option PbLocation :=
  if (0 <? raw_size) && (0 <? offset) then Some (mkPb offset compressed_size raw_size) else None.
Definition in_pack (pack_key : string) (pb : PbLocation) : PackLocation :=
  mkLocation pack_key (pb_offset pb) (pb_compressed_size pb) (pb_raw_size pb).

Record Row := mkRow {
  id : Uuid; row_source : string; sha256 : string; row_received_at : DateTime;
  row_played_at : option DateTime; players : list string; rule : option string;
  event_count : Z; storage : PackLocation; row_pb : option PbLocation
}.
Record PlayerGame := mkPlayerGame {
  pg_record_id : Uuid; pg_played_at : DateTime; pg_rule : option string; pg_seats : Z;
  pg_detailed : bool; stats : Replay.SeatStats
}.
(** [PlayerGame::of]. *)
Definition player_games_of (record : Row) (game : Replay.GameStats) : list PlayerGame :=
  let played_at := default (row_received_at record) (row_played_at record) in
  map (fun stats => mkPlayerGame (id record) (trunc_millis played_at) (rule record)
                      (Replay.seats game) (Replay.detailed game) stats)
    (List.filter (fun stats => negb (String.eqb (Replay.player stats) "")) (Replay.stat_players game)).

(** What [insert_batch] stores of a row ([record_json]): instants to the
    millisecond, an absent rule as the empty string, the event count in sixteen
    bits, no protobuf as zeroes. *)
Definition stored_row (r : Row) : Row :=
  mkRow (id r) (row_source r) (sha256 r) (trunc_millis (row_received_at r))
    (trunc_millis <$> row_played_at r) (players r)
    (match rule r with Some "" => None | other => other end)
    (Z.min (event_count r) u16_max) (storage r)
    (match row_pb r with
     | Some pb => from_columns (pb_offset pb) (pb_compressed_size pb) (pb_raw_size pb)
     | None => None end).

Inductive IndexError := PackFailed (e : PackError) | ObjectFailed | IndexFailed | KafkaFailed | ReadBack
| Truncated.

Section Worker.
(** zstd, the JSON reader and printer, [from_timestamp], SHA-256 in hex, and the
    decoder of a stored record ([IngestMessage::from_record] at the [uuid] and
    [chrono] text formats). *)
Variable compress : list Z -> option (list Z).
Variable from_str : string -> json + string.
Variable to_string : json -> string.
Variable timestamp_ok : Z -> bool.
Variable sha256_hex : list Z -> string.
Variable from_record : Record_ -> result KafkaError IngestMessage.

(** ** [append_batch] *)
Definition pb_of (l : PackLocation) : PbLocation :=
  mkPb (offset l) (compressed_size l) (raw_size l).
Definition row_of (m : IngestMessage) (metadata : Mjai.Metadata) (location : PackLocation)
  (pb : option PbLocation) : Row :=
  mkRow (record_id m) (source m) (sha256_hex (raw m)) (received_at m)
    (match played_at m with
     | Some at_ => Some at_
     | None => (fun seconds => seconds * 1000000000) <$> Mjai.played_at metadata
     end)
    (Mjai.players metadata) (Mjai.rule metadata) (Mjai.event_count metadata) location pb.
(** The state of the loop: the writer, the rows and the scores. [disk] is the
    fate of each successive [append]. *)
Record Batch := mkBatch {
  writer : PackWriter; b_rows : list Row; b_games : list PlayerGame; disk : list (option nat)
}.
Definition append_frame (now : Z) (record_id : Uuid) (bytes : list Z) (b : Batch)
  : Batch * result IndexError PackLocation :=
  let fault := default None (head (disk b)) in
  let '(w, r) := append compress fault now record_id bytes (writer b) in
  (mkBatch w (b_rows b) (b_games b) (tail (disk b)),
   match r with Ok l => Ok l | Err e => Err (PackFailed e) | Panic => Panic end).
Definition append_message (now : Z) (m : IngestMessage) (b : Batch)
  : Batch * result IndexError () :=
  let events := default [] (result_ok (Mjai.events from_str (raw m))) in
  match Mjai.parse_metadata from_str to_string timestamp_ok (raw m) with
  | Err _ => (b, Ok tt)
  | Panic => (b, Panic)
  | Ok metadata =>
    let '(b, location) := append_frame now (record_id m) (raw m) b in
    match location with
    | Err e => (b, Err e)
    | Panic => (b, Panic)
    | Ok location =>
      let '(b, pb) := match majsoul_pb m with
        | Some pb => let '(b, r) := append_frame now (record_id m) pb b in
                     (b, Some <$> (pb_of <$> r))
        | None => (b, Ok None)
        end in
      match pb with
      | Err e => (b, Err e)
      | Panic => (b, Panic)
      | Ok pb =>
        let row := row_of m metadata location pb in
        match Replay.replay events with
        | Ok game => (mkBatch (writer b) (b_rows b ++ [row])
                       (b_games b ++ match game with Some g => player_games_of row g | None => [] end)
                       (disk b), Ok tt)
        | _ => (b, Panic)
        end
      end
    end
  end.
Fixpoint append_batch (now : Z) (messages : list IngestMessage) (b : Batch)
  : Batch * result IndexError () :=
  match messages with
  | [] => (b, Ok tt)
  | m :: messages =>
    let '(b, r) := append_message now m b in
    match r with
    | Ok _ => append_batch now messages b
    | failed => (b, failed)
    end
  end.

(** ** [PackWorker] *)
Record PackWorker := mkWorker {
  cursor : Z; committed : Z; at_end_of_log : bool; seal_failures : Z;
  open_ : option PackWriter; rows : list Row; player_games : list PlayerGame
}.
#[export] Instance PackWorker_settable : Settable PackWorker := fun r =>
  mkWorker (cursor r) (committed r) (at_end_of_log r) (seal_failures r) (open_ r) (rows r)
    (player_games r).
(** What the worker shares with the rest of the deployment. *)
Record World := mkWorld {
  stored_offset : option Z; bucket : gmap string (list Z); index : list Row;
  index_games : list PlayerGame
}.
#[export] Instance World_settable : Settable World := fun r =>
  mkWorld (stored_offset r) (bucket r) (index r) (index_games r).

(** [PackWorker::start]. *)
Definition start (w : World) : PackWorker :=
  let committed := default 0 (stored_offset w) in
  mkWorker committed committed false 0 None [] [].
(** [PackWorker::decode]. *)
Definition decode (records : list (Z * Record_)) : list IngestMessage :=
  omap (fun '(_, r) => result_ok (from_record r)) records.

(** [PackWorker::append]; [fresh] is the writer [staging_writer] opens, or its
    failure. *)
Definition worker_append (now : Z) (fresh : result PackError PackWriter)
  (disk : list (option nat)) (messages : list IngestMessage) (s : PackWorker)
  : PackWorker * result IndexError () :=
  match messages with
  | [] => (s, Ok tt)
  | _ =>
    match (match open_ s with Some w => Ok w | None => fresh end) with
    | Err e => (s, Err (PackFailed e))
    | Panic => (s, Panic)
    | Ok w =>
      let '(b, r) := append_batch now messages (mkBatch w (rows s) (player_games s) disk) in
      (s <| open_ := Some (writer b) |> <| rows := b_rows b |> <| player_games := b_games b |>, r)
    end
  end.
(** [PackWorker::discard]. *)
Definition discard (s : PackWorker) : PackWorker :=
  s <| open_ := None |> <| rows := [] |> <| player_games := [] |> <| cursor := committed s |>.

(** The fate of the calls of one seal. A [put] that answers may still have
    stored only the first [put_kept] bytes. *)
Record SealFate := mkFate {
  sync : bool; read_back : bool; put : reply; put_kept : option nat; head_ : bool;
  insert : reply; insert_games : reply; commit : reply
}.

(** [PackWorker::upload_and_index]: seal, upload, verify, insert, commit. *)
Definition upload_and_index (f : SealFate) (writer : PackWriter) (s : PackWorker) (w : World)
  : PackWorker * World * result IndexError () :=
  if negb (sync f) then (s, w, Err (PackFailed Io))
  else
    let '(key, _) := seal writer in
    if negb (read_back f) then (s, w, Err ReadBack)
    else
      let bytes := file writer in
      let kept := match put_kept f with Some n => take n bytes | None => bytes end in
      let w := if took_effect (put f) then w <| bucket ::= <[key := kept]> |> else w in
      if negb (answered (put f)) then (s, w, Err ObjectFailed)
      else if negb (head_ f) then (s, w, Err ObjectFailed)
      else if negb (bool_decide (zlen <$> bucket w !! key = Some (zlen bytes))) then (s, w, Err Truncated)
      else
        let w := if took_effect (insert f) then w <| index ::= fun l => l ++ map stored_row (rows s) |>
                 else w in
        if negb (answered (insert f)) then (s, w, Err IndexFailed)
        else
          let w := if took_effect (insert_games f)
                   then w <| index_games ::= fun l => l ++ player_games s |> else w in
          if negb (answered (insert_games f)) then (s, w, Err IndexFailed)
          else
            let w := if took_effect (commit f) then w <| stored_offset := Some (cursor s) |> else w in
            if negb (answered (commit f)) then (s, w, Err KafkaFailed)
            else (s <| committed := cursor s |> <| rows := [] |> <| player_games := [] |>, w, Ok tt).
(** [PackWorker::seal]: the open pack is taken out whatever comes of it. *)
Definition worker_seal (f : SealFate) (s : PackWorker) (w : World)
  : PackWorker * World * result IndexError () :=
  match open_ s with
  | None => (s, w, Ok tt)
  | Some writer => upload_and_index f writer (s <| open_ := None |>) w
  end.

(** [should_seal] and [PackWorker::pack_is_ready]; times in nanoseconds. *)
Definition should_seal (size target age max_age idle_age : Z) (at_end_of_log : bool) : bool :=
  (target <=? size) || (max_age <=? age) || (at_end_of_log && (idle_age <=? age)).
Record Limits := mkLimits { pack_target_bytes : Z; pack_max_age : Z; pack_idle : Z }.
Definition pack_is_ready (limits : Limits) (now : Z) (s : PackWorker) : bool :=
  match open_ s with
  | None => false
  | Some writer =>
    match age now writer with
    | None => false
    | Some age => should_seal (size writer) (pack_target_bytes limits) age (pack_max_age limits)
                    (pack_idle limits) (at_end_of_log s)
    end
  end.
(** [seal_backoff], in seconds. *)
Definition RETRY_DELAY : Z := 2.
Definition MAX_SEAL_BACKOFF : Z := 64.
Definition seal_backoff (consecutive_failures : Z) : Z :=
  let doublings := Z.min (sat_sub consecutive_failures 1) 16 in
  Z.min (RETRY_DELAY * Z.min (2 ^ doublings) u32_max) MAX_SEAL_BACKOFF.

(** One turn of the loop of [PackWorker::run]. *)
Record Turn := mkTurn {
  t_shutdown : bool;
  t_fetched : option (result KafkaError Fetched);
  t_now : Z;
  t_fresh : result PackError PackWriter;
  t_disk : list (option nat);
  t_stopping : bool;
  t_fate : SealFate
}.
Inductive next_turn := Running (s : PackWorker) | Stopped (s : PackWorker) | Died.

(** The second half of a turn: seal if the pack is due, or if stopping. *)
Definition turn_seal (limits : Limits) (t : Turn) (s : PackWorker) (w : World) : next_turn * World :=
  let stopping := t_stopping t in
  let '(s, w) :=
    if (stopping || pack_is_ready limits (t_now t) s) && (match open_ s with Some _ => true | None => false end)
    then match worker_seal (t_fate t) s w with
         | (s, w, Ok _) => (s <| seal_failures := 0 |>, w)
         | (s, w, _) => (discard s <| seal_failures ::= fun n => sat_add_u32 n 1 |>, w)
         end
    else (s, w) in
  (if stopping then Stopped s else Running s, w).
Definition turn (limits : Limits) (t : Turn) (s : PackWorker) (w : World) : next_turn * World :=
  if t_shutdown t then turn_seal limits t s w
  else match t_fetched t with
  | Some (Ok fetched) =>
    let next := next_offset fetched in
    let s := s <| at_end_of_log := is_end_of_log fetched |> in
    let messages := decode (records fetched) in
    match worker_append (t_now t) (t_fresh t) (t_disk t) messages s with
    | (s, Ok _) => turn_seal limits t (s <| cursor := next |>) w
    | (s, Err _) => (Running (discard s), w)
    | (_, Panic) => (Died, w)
    end
  | Some (Err _) => turn_seal limits t s w
  | Some Panic => (Died, w)
  | None => turn_seal limits t s w
  end.
(** [PackWorker::drain]: to the end of the log, then one seal. *)
Fixpoint drain (fates : list Turn) (f : SealFate) (fetch : Z -> result KafkaError Fetched)
  (s : PackWorker) (w : World) : PackWorker * World * result IndexError Z :=
  match fates with
  | [] => (s, w, Err KafkaFailed)
  | t :: fates =>
    match fetch (cursor s) with
    | Err _ => (s, w, Err KafkaFailed)
    | Panic => (s, w, Panic)
    | Ok fetched =>
      if is_end_of_log fetched then
        let indexed := zlen (rows s) in
        let '(s, w, r) := worker_seal f s w in
        (s, w, (fun _ => indexed) <$> r)
      else
        match worker_append (t_now t) (t_fresh t) (t_disk t) (decode (records fetched)) s with
        | (s, Ok _) => drain fates f fetch (s <| cursor := next_offset fetched |>) w
        | (s, Err e) => (s, w, Err e)
        | (s, Panic) => (s, w, Panic)
        end
    end
  end.
End Worker.
End Indexer.
