(* ===== verification/Pipeline.v ===== *)
(** The safety of the record pipeline: whatever fails and whenever the process
    dies, a committed Kafka offset never passes a record that cannot be read back
    through the index. *)
From S2P Require Import Prelude Text Json Mjai Replay Pack Kafka Indexer.
#[local] Open Scope string_scope.
#[local] Open Scope list_scope.
#[local] Open Scope Z_scope.
Import Pack Kafka Indexer.

Section Safety.
Context (compress : list Z -> option (list Z)) (decompress_bulk : list Z -> Z -> option (list Z)).
Context (from_str : string -> json + string) (to_string : json -> string) (timestamp_ok : Z -> bool).
Context (sha256_hex : list Z -> string) (from_record : Record_ -> result KafkaError IngestMessage).
Context (limits : Limits).
(** The codec is lossless, and a decoded identifier is sixteen bytes. *)
Hypothesis codec_roundtrip : forall raw frame,
  compress raw = Some frame -> decompress_bulk frame (zlen raw) = Some raw.
Hypothesis from_record_id : forall r m, from_record r = Ok m -> length (record_id m) = 16%nat.

Abbreviation append_message := (append_message compress from_str to_string timestamp_ok sha256_hex).
Abbreviation append_batch := (append_batch compress from_str to_string timestamp_ok sha256_hex).
Abbreviation worker_append := (worker_append compress from_str to_string timestamp_ok sha256_hex).
Abbreviation turn := (turn compress from_str to_string timestamp_ok sha256_hex from_record limits).
Abbreviation parses := (fun m => exists md, Mjai.parse_metadata from_str to_string timestamp_ok (raw m) = Ok md).

(** ** What a location is worth *)
(** The frame at [l] of a pack file decompresses to [raw]. *)
Definition readable_in (file : list Z) (key : string) (l : PackLocation) (raw : list Z) : Prop :=
  location_key l = key /\ 0 < offset l /\ raw_size l = zlen raw /\
  exists frame, decompress_bulk frame (zlen raw) = Some raw /\ compressed_size l = zlen frame /\
    read_at file (offset l) (compressed_size l) = Ok frame.
Definition get_range (bucket : gmap string (list Z)) (key : string) (offset n : Z)
  : result PackError (list Z) :=
  match bucket !! key with Some bytes => read_at bytes offset n | None => Err Object end.
(** What a reader gets once nothing is left on the local disk. *)
Definition readable (bucket : gmap string (list Z)) (l : PackLocation) (raw : list Z) : Prop :=
  read decompress_bulk (get_range bucket) (mkStore ∅ ∅) l = Ok raw.

Lemma read_at_extend file ext o n d : 0 <= o -> 0 <= n ->
  read_at file o n = Ok d -> read_at (file ++ ext) o n = Ok d.
Proof.
  unfold read_at. rewrite zlen_app. intros Ho Hn. pose proof (zlen_nonneg ext).
  destruct (Z.leb_spec (o + n) (zlen file)); [|done]. intros [= <-].
  destruct (Z.leb_spec (o + n) (zlen file + zlen ext)); [|lia]. f_equal. unfold zlen in *.
  rewrite drop_app_le by lia. rewrite take_app_le; [done|]. rewrite length_drop. lia.
Qed.
Lemma readable_in_extend file ext key l raw :
  readable_in file key l raw -> readable_in (file ++ ext) key l raw.
Proof.
  intros (Hk & Ho & Hr & frame & Hd & Hc & Hat). split_and!; try done. exists frame.
  split_and!; try done. apply read_at_extend; [lia|rewrite Hc; apply zlen_nonneg|done].
Qed.
Lemma readable_in_bucket file key l raw bucket path :
  readable_in file key l raw -> file_name key = Some path -> bucket !! key = Some file ->
  readable bucket l raw.
Proof.
  intros (<- & _ & Hr & frame & Hd & Hc & Hat) Hname Hb. unfold readable, read, get_range.
  rewrite Hname, Hb. cbn [legacy staging]. rewrite !lookup_empty, Hat. cbn [mbind result_bind].
  unfold decompress. by rewrite Hc, Z.eqb_refl, Hr, Hd, Z.eqb_refl.
Qed.

(** ** One batch *)
Definition writer_ok (w : PackWriter) : Prop := size w = zlen (file w).
Definition grew (w w' : PackWriter) : Prop :=
  Pack.key w' = Pack.key w /\ path w' = path w /\ exists ext, file w' = file w ++ ext.
Lemma grew_refl w : grew w w.
Proof. split_and!; try done. exists []. by rewrite app_nil_r. Qed.
Lemma grew_trans w1 w2 w3 : grew w1 w2 -> grew w2 w3 -> grew w1 w3.
Proof.
  intros (K1 & P1 & e1 & F1) (K2 & P2 & e2 & F2). split_and!; try congruence.
  exists (e1 ++ e2). by rewrite F2, F1, app_assoc.
Qed.

Lemma append_frame_spec now id bytes b b' l :
  length id = 16%nat -> writer_ok (writer b) ->
  append_frame compress now id bytes b = (b', Ok l) ->
  writer_ok (writer b') /\ grew (writer b) (writer b') /\
  b_rows b' = b_rows b /\ b_games b' = b_games b /\
  readable_in (file (writer b')) (Pack.key (writer b)) l bytes.
Proof using codec_roundtrip.
  intros Hid Hok. unfold append_frame, append.
  destruct (u32_max <? zlen bytes); [done|]. destruct (compress bytes) as [frame|] eqn:Ec; [|done].
  destruct (u32_max <? zlen frame); [done|].
  destruct (default None (head (disk b))); [done|].
  set (header := id ++ to_be_bytes (zlen bytes) ++ to_be_bytes (zlen frame)).
  assert (Hh : zlen header = 24) by (unfold header, zlen; rewrite !length_app, Hid; done).
  replace (id ++ to_be_bytes (zlen bytes) ++ to_be_bytes (zlen frame) ++ frame) with (header ++ frame)
    by (unfold header; by rewrite <- !app_assoc).
  clearbody header. intros [= <- <-].
  cbn [writer b_rows b_games]. unfold set_field; cbn [file size Pack.key path first_append].
  unfold writer_ok in *. cbn [file size]. rewrite !zlen_app, Hh. unfold ENTRY_HEADER_LEN.
  split_and!; try done; [lia|unfold grew; cbn; by eauto|].
  unfold readable_in. split_and!; cbn [offset location_key raw_size compressed_size]; try done.
  - rewrite Hok. pose proof (zlen_nonneg (file (writer b))). lia.
  - exists frame. split_and!; [by apply codec_roundtrip|done|].
    rewrite Hok, app_assoc.
    replace (zlen (file (writer b)) + 24) with (zlen (file (writer b) ++ header))
      by (rewrite zlen_app; lia).
    rewrite <- (app_nil_r frame) at 1. apply read_at_app.
Qed.

(** A row that leads to its message in a pack file. *)
Definition row_ok (file : list Z) (pack_key : string) (m : IngestMessage) (row : Row) : Prop :=
  id row = record_id m /\ row_source row = source m /\ sha256 row = sha256_hex (raw m) /\
  row_received_at row = received_at m /\ readable_in file pack_key (storage row) (raw m) /\
  match majsoul_pb m with
  | Some pb => exists p, row_pb row = Some p /\ readable_in file pack_key (in_pack pack_key p) pb
  | None => row_pb row = None
  end.
Lemma row_ok_extend file ext pack_key m row :
  row_ok file pack_key m row -> row_ok (file ++ ext) pack_key m row.
Proof.
  intros (? & ? & ? & ? & Hr & Hpb). split_and!; try done; [by apply readable_in_extend|].
  destruct (majsoul_pb m); [|done]. destruct Hpb as (p & ? & ?). exists p.
  split; [done|by apply readable_in_extend].
Qed.
Lemma row_ok_grew w w' m row : grew w w' ->
  row_ok (file w) (Pack.key w) m row -> row_ok (file w') (Pack.key w') m row.
Proof. intros (-> & _ & ext & ->). apply row_ok_extend. Qed.

Lemma append_message_spec now m b b' :
  length (record_id m) = 16%nat -> writer_ok (writer b) ->
  append_message now m b = (b', Ok tt) ->
  writer_ok (writer b') /\ grew (writer b) (writer b') /\
  (b_rows b' = b_rows b /\ ~ parses m \/
   exists row, b_rows b' = b_rows b ++ [row] /\ row_ok (file (writer b')) (Pack.key (writer b')) m row).
Proof using codec_roundtrip.
  intros Hid Hok. unfold Indexer.append_message.
  destruct (Mjai.parse_metadata _ _ _ (raw m)) as [md|e|]; [|intros [= <-]|done].
  2: { split_and!; [done|apply grew_refl|]. left. split; [done|]. by intros [? [=]]. }
  destruct (append_frame compress now (record_id m) (raw m) b) as [b1 [l|e|]] eqn:E1; try done.
  destruct (append_frame_spec _ _ _ _ _ _ Hid Hok E1) as (Hok1 & Hg1 & Hr1 & _ & Hread1).
  destruct (majsoul_pb m) as [pb|] eqn:Epb.
  - destruct (append_frame compress now (record_id m) pb b1) as [b2 [l2|e|]] eqn:E2; cbn; try done.
    destruct (append_frame_spec _ _ _ _ _ _ Hid Hok1 E2) as (Hok2 & Hg2 & Hr2 & _ & Hread2).
    destruct (Replay.replay _) as [game|e|]; [|done..]. intros [= <-]. cbn [writer b_rows].
    split_and!; [done|by eapply grew_trans|]. right. eexists. split; [by rewrite Hr2, Hr1|].
    pose proof Hg1 as (K1 & _). pose proof Hg2 as (K2 & _ & ext & F2).
    unfold row_ok, row_of. cbn. rewrite Epb, K2, K1. split_and!; try done.
    + rewrite F2. by apply readable_in_extend.
    + eexists. split; [done|]. destruct Hread2 as (Hk & Ho & Hs & fr & Hfr). rewrite K1 in *.
      split_and!; try done. by exists fr.
  - cbn. destruct (Replay.replay _) as [game|e|]; [|done..]. intros [= <-]. cbn [writer b_rows].
    split_and!; [done|done|]. right. eexists. split; [by rewrite Hr1|].
    pose proof Hg1 as (K1 & _). unfold row_ok, row_of. cbn. rewrite Epb, K1. by split_and!.
Qed.

Lemma append_batch_spec now messages b b' :
  Forall (fun m => length (record_id m) = 16%nat) messages -> writer_ok (writer b) ->
  append_batch now messages b = (b', Ok tt) ->
  writer_ok (writer b') /\ grew (writer b) (writer b') /\
  exists new, b_rows b' = b_rows b ++ new /\
    (forall m, m ∈ messages -> parses m ->
       exists row, row ∈ new /\ row_ok (file (writer b')) (Pack.key (writer b')) m row) /\
    (forall row, row ∈ new -> location_key (storage row) = Pack.key (writer b')).
Proof using codec_roundtrip.
  intros Hids. revert b; induction Hids as [|m messages Hid _ IH]; intros b Hok; cbn.
  - intros [= <-]. split_and!; [done|apply grew_refl|]. exists []. rewrite app_nil_r.
    split_and!; [done|by intros m ?%not_elem_of_nil|by intros m ?%not_elem_of_nil].
  - destruct (append_message now m b) as [b1 [[]|e|]] eqn:E1; try done. intros E2.
    destruct (append_message_spec _ _ _ _ Hid Hok E1) as (Hok1 & Hg1 & Hrow).
    destruct (IH b1 Hok1 E2) as (Hok2 & Hg2 & new & Hnew & Hall & Hkeys).
    split_and!; [done|by eapply grew_trans|].
    destruct Hrow as [[Hsame Hno]|(row & Hr & Hrow)].
    + exists new. rewrite Hnew, Hsame. split_and!; [done| |done].
      intros m' [->|Hm']%elem_of_cons Hp; [done|by apply Hall].
    + exists (row :: new). rewrite Hnew, Hr, <- app_assoc. split_and!; [done| |].
      * intros m' [->|Hm']%elem_of_cons Hp.
        -- exists row. split; [apply list_elem_of_here|]. by eapply row_ok_grew.
        -- destruct (Hall m' Hm' Hp) as (row' & ? & ?). exists row'. split; [by apply list_elem_of_further|done].
      * intros row' [->|Hin]%elem_of_cons; [|by apply Hkeys].
        destruct Hrow as (_ & _ & _ & _ & (Hk & _) & _). rewrite Hk. by destruct Hg2 as (-> & _).
Qed.

(** ** The system *)
(** A partition's log, the shared stores, and the worker if one is running. *)
Record Sys := mkSys { log : list Record_; world : World; worker : option PackWorker }.
Definition commit_point (w : World) : Z := default 0 (stored_offset w).

(** What a fetch at an offset inside the retained log answers: a run of records,
    or nothing at its end. *)
Definition fetch_ok (log : list Record_) (offset : Z) (f : Fetched) : Prop :=
  start_offset f = offset /\ exists n : nat,
    records f = imap (fun i r => (offset + Z.of_nat i, r)) (take n (drop (Z.to_nat offset) log)).
(** The writer [staging_writer] opens: created under a key no object has. *)
Definition fresh_writer (w : World) (r : result PackError PackWriter) : Prop :=
  match r with
  | Ok writer => exists dir key dir', create dir key = Ok (writer, dir') /\ bucket w !! key = None
  | Err _ => True
  | Panic => False
  end.
(** What everybody else may do meanwhile: workers of other partitions add objects
    and rows, the collector deletes objects no row refers to. *)
Definition env_step (w w' : World) (worker : option PackWorker) : Prop :=
  stored_offset w' = stored_offset w /\
  (forall row, row ∈ index w -> row ∈ index w') /\
  (forall row, row ∈ index w ->
     bucket w' !! location_key (storage row) = bucket w !! location_key (storage row)) /\
  (forall row, row ∈ index w' -> is_Some (bucket w' !! location_key (storage row))) /\
  (forall s writer, worker = Some s -> open_ s = Some writer -> bucket w' !! Pack.key writer = None).

Inductive step : Sys -> Sys -> Prop :=
| Step_produce log r w s : step (mkSys log w s) (mkSys (log ++ [r]) w s)
| Step_env log w w' s : env_step w w' s -> step (mkSys log w s) (mkSys log w' s)
| Step_crash log w s : step (mkSys log w s) (mkSys log w None)
| Step_start log w : step (mkSys log w None) (mkSys log w (Some (start w)))
| Step_turn log w s t next w' :
    (forall f, t_fetched t = Some (Ok f) -> fetch_ok log (cursor s) f) ->
    fresh_writer w (t_fresh t) ->
    turn t s w = (next, w') ->
    step (mkSys log w (Some s))
         (mkSys log w' (match next with Running s' => Some s' | Stopped _ | Died => None end)).
Definition initial (sys : Sys) : Prop :=
  worker sys = None /\ stored_offset (world sys) = None /\ index (world sys) = [].
Inductive reachable : Sys -> Prop :=
| Reach_initial sys : initial sys -> reachable sys
| Reach_step sys sys' : reachable sys -> step sys sys' -> reachable sys'.

(** ** The invariant *)
(** The record of message [m] can be found and read through the index alone. *)
Definition stored (w : World) (m : IngestMessage) : Prop :=
  exists row, row ∈ index w /\ id row = record_id m /\ row_source row = source m /\
    sha256 row = sha256_hex (raw m) /\ row_received_at row = trunc_millis (received_at m) /\
    readable (bucket w) (storage row) (raw m) /\
    forall pb, majsoul_pb m = Some pb -> pb <> [] -> exists p, row_pb row = Some p /\
      readable (bucket w) (in_pack (location_key (storage row)) p) pb.
(** Every record below [n] that decodes and parses is stored. *)
Definition covered (w : World) (log : list Record_) (n : Z) : Prop :=
  forall o r m, Z.of_nat o < n -> log !! o = Some r -> from_record r = Ok m -> parses m -> stored w m.
(** Every such record between the commit and the cursor is in the open pack. *)
Definition pending (s : PackWorker) (log : list Record_) : Prop :=
  forall o r m, committed s <= Z.of_nat o < cursor s -> log !! o = Some r ->
    from_record r = Ok m -> parses m ->
    exists writer row, open_ s = Some writer /\ row ∈ rows s /\ row_ok (file writer) (Pack.key writer) m row.
Definition worker_ok (w : World) (log : list Record_) (s : PackWorker) : Prop :=
  0 <= committed s <= cursor s /\ cursor s <= zlen log /\ covered w log (committed s) /\
  pending s log /\
  (forall row, row ∈ rows s -> exists writer, open_ s = Some writer /\ location_key (storage row) = Pack.key writer) /\
  (forall writer, open_ s = Some writer -> writer_ok writer /\
     file_name (Pack.key writer) = Some (path writer) /\ bucket w !! Pack.key writer = None).
Definition world_ok (w : World) (log : list Record_) : Prop :=
  0 <= commit_point w <= zlen log /\ covered w log (commit_point w) /\
  (forall row, row ∈ index w -> is_Some (bucket w !! location_key (storage row))).
Definition sys_ok (sys : Sys) : Prop :=
  world_ok (world sys) (log sys) /\ forall s, worker sys = Some s -> worker_ok (world sys) (log sys) s.

(** *** Shared stores only gain *)
Definition improves (w w' : World) : Prop :=
  (forall row, row ∈ index w -> row ∈ index w') /\
  (forall row, row ∈ index w ->
     bucket w' !! location_key (storage row) = bucket w !! location_key (storage row)).
Lemma readable_improves w w' l raw :
  bucket w' !! location_key l = bucket w !! location_key l ->
  readable (bucket w) l raw -> readable (bucket w') l raw.
Proof. unfold readable, read, get_range. by intros ->. Qed.
Lemma stored_improves w w' m : improves w w' -> stored w m -> stored w' m.
Proof.
  intros [Hrows Hb] (row & Hin & ? & ? & ? & ? & Hread & Hpb). exists row. split_and!; auto.
  - by apply (readable_improves w w'); [apply Hb|].
  - intros pb Hm Hne. destruct (Hpb pb Hm Hne) as (p & ? & ?). exists p. split; [done|].
    by apply (readable_improves w w'); [apply Hb|].
Qed.
Lemma covered_improves w w' log n : improves w w' -> covered w log n -> covered w' log n.
Proof. intros H Hc o r m Ho Hl Hr Hp. eapply stored_improves, Hc; eauto. Qed.
Lemma improves_refl w : improves w w.
Proof. by split. Qed.
Lemma improves_trans w1 w2 w3 : improves w1 w2 -> improves w2 w3 -> improves w1 w3.
Proof. intros [R1 B1] [R2 B2]. split; intros row H; [auto|]. rewrite B2, B1; auto. Qed.

Lemma lookup_log_app (log : list Record_) r o r' :
  (o < length log)%nat -> (log ++ [r]) !! o = Some r' -> log !! o = Some r'.
Proof. intros Ho. by rewrite lookup_app_l. Qed.
Lemma covered_produce w log r n : n <= zlen log -> covered w log n -> covered w (log ++ [r]) n.
Proof.
  intros Hn Hc o r' m Ho Hl. apply (Hc o r' m Ho). eapply lookup_log_app; [|done]. unfold zlen in Hn. lia.
Qed.

(** A row made for [m] and stored once its pack is in the bucket. *)
Lemma stored_row_ok w file pack_key path m row :
  row_ok file pack_key m row -> file_name pack_key = Some path -> bucket w !! pack_key = Some file ->
  stored_row row ∈ index w -> stored w m.
Proof.
  intros (? & ? & ? & Hrec & Hread & Hpb) Hname Hb Hin. exists (stored_row row).
  pose proof Hread as (Hk & _). unfold stored_row. cbn. split_and!; try done.
  - by rewrite Hrec.
  - by eapply readable_in_bucket.
  - intros pb Hm Hne. rewrite Hm in Hpb. destruct Hpb as (p & -> & Hp).
    pose proof Hp as (_ & Ho & Hsize & _). cbn in Ho, Hsize. unfold from_columns.
    assert (0 < zlen pb) by (destruct pb; [done|]; rewrite zlen_cons; pose proof (zlen_nonneg pb); lia).
    destruct (Z.ltb_spec 0 (pb_raw_size p)); [|lia]. destruct (Z.ltb_spec 0 (pb_offset p)); [|lia].
    cbn. eexists. split; [done|]. rewrite Hk. eapply readable_in_bucket; [|done|done]. by destruct p.
Qed.

(** *** One seal *)
Definition preserved (w w' : World) (log : list Record_) : Prop := improves w w' /\ world_ok w' log.
Lemma preserved_same_bucket w w' log :
  world_ok w log -> (forall row, row ∈ index w -> row ∈ index w') -> bucket w' = bucket w ->
  (forall row, row ∈ index w' -> is_Some (bucket w' !! location_key (storage row))) ->
  0 <= commit_point w' <= zlen log -> covered w' log (commit_point w') -> preserved w w' log.
Proof. intros Hw Hrows Hb Hrefs Hc Hcov. split; [|done]. split; [done|]. by rewrite Hb. Qed.
Lemma discard_ok w log s :
  0 <= committed s <= zlen log -> covered w log (committed s) -> worker_ok w log (discard s).
Proof.
  intros Hc Hcov. unfold worker_ok, discard, set_field. cbn. split_and!; try lia; try done.
  - intros o r m Ho. cbn in Ho. lia.
  - by intros row ?%not_elem_of_nil.
Qed.
Lemma committed_bound w log s : worker_ok w log s -> 0 <= committed s <= zlen log.
Proof. intros (? & ? & _). lia. Qed.

Lemma put_preserved w log key kept :
  world_ok w log -> bucket w !! key = None -> preserved w (w <| bucket ::= <[key := kept]> |>) log.
Proof.
  intros (Hc & Hcov & Hrefs) Hfresh.
  assert (Himp : improves w (w <| bucket ::= <[key := kept]> |>)).
  { split; [done|]. intros row Hin. unfold set_field. cbn. apply lookup_insert_ne.
    intros ->. destruct (Hrefs row Hin). congruence. }
  split; [done|]. split; [exact Hc|]. split; [by eapply covered_improves|].
  intros row Hin. destruct Himp as [_ Hb]. rewrite (Hb row Hin). by apply Hrefs.
Qed.
Lemma insert_preserved w log s key :
  world_ok w log -> is_Some (bucket w !! key) ->
  (forall row, row ∈ rows s -> location_key (storage row) = key) ->
  preserved w (w <| index ::= fun l => l ++ map stored_row (rows s) |>) log.
Proof.
  intros (Hc & Hcov & Hrefs) Hkey Hrows.
  assert (Himp : improves w (w <| index ::= fun l => l ++ map stored_row (rows s) |>)).
  { split; [|done]. intros row Hin. unfold set_field. cbn. apply elem_of_app. by left. }
  split; [done|]. split; [exact Hc|]. split; [by eapply covered_improves|].
  intros row Hin. unfold set_field in *. cbn in *. apply elem_of_app in Hin as [Hin|Hin]; [by apply Hrefs|].
  apply list_elem_of_fmap in Hin as (r & -> & Hr). cbn. by rewrite (Hrows r Hr).
Qed.
Lemma commit_preserved w log n :
  world_ok w log -> 0 <= n <= zlen log -> covered w log n ->
  preserved w (w <| stored_offset := Some n |>) log.
Proof.
  intros (Hc & Hcov & Hrefs) Hn Hcn. split; [by split|]. split; [exact Hn|]. split; [|done].
  change (commit_point _) with n. eapply covered_improves; [|exact Hcn]. by split.
Qed.
Lemma preserved_trans w1 w2 w3 log : preserved w1 w2 log -> preserved w2 w3 log -> preserved w1 w3 log.
Proof. intros [I1 _] [I2 W]. split; [by eapply improves_trans|done]. Qed.

(** Everything up to the cursor is stored once the pack and the rows are. *)
Lemma sealed_covered w w' log s writer :
  worker_ok w log s -> open_ s = Some writer -> improves w w' ->
  bucket w' !! Pack.key writer = Some (file writer) ->
  (forall row, row ∈ rows s -> stored_row row ∈ index w') -> covered w' log (cursor s).
Proof.
  intros (Hc & Hlen & Hcov & Hpend & _ & Hopen) Ho Himp Hb Hin o r m Hlt Hl Hr Hp.
  destruct (Z_lt_le_dec (Z.of_nat o) (committed s)) as [Hold|Hnew].
  - eapply stored_improves, Hcov; eauto.
  - destruct (Hpend o r m ltac:(lia) Hl Hr Hp) as (wr & row & Ho' & Hrow & Hok).
    rewrite Ho in Ho'. injection Ho' as <-. destruct (Hopen writer Ho) as (_ & Hname & _).
    eapply stored_row_ok; eauto.
Qed.

(** Names the state of the world after a call that may have taken effect. *)
Ltac name_world w b before :=
  match goal with
  | |- context [if b then ?after else before] => set (w := if b then after else before)
  end.
Lemma seal_spec f s w s' w' r log :
  world_ok w log -> worker_ok w log s -> worker_seal f s w = (s', w', r) ->
  preserved w w' log /\ r <> Panic /\
  match r with Ok _ => worker_ok w' log s' | _ => worker_ok w' log (discard s') end.
Proof.
  intros Hw Hs. pose proof (committed_bound _ _ _ Hs) as Hcb.
  unfold worker_seal. destruct (open_ s) as [writer|] eqn:Eo; [|intros [= <- <- <-]].
  2: { split_and!; [by split; [apply improves_refl|]|done|done]. }
  pose proof Hs as (Hcc & Hlen & Hcov & _ & Hkeys & Hopen). destruct (Hopen writer Eo) as (_ & _ & Hfresh).
  assert (Herr : forall w1 e, preserved w w1 log ->
    preserved w w1 log /\ @Err IndexError () e <> Panic /\ worker_ok w1 log (discard (s <| open_ := None |>))).
  { intros w1 e Hp. split_and!; try done. apply discard_ok; [done|].
    eapply covered_improves; [apply Hp|done]. }
  assert (Hsame : preserved w w log) by (split; [apply improves_refl|done]).
  unfold upload_and_index, seal. cbv zeta. destruct (sync f); cbn [negb]; [|intros [= <- <- <-]; by apply Herr].
  destruct (read_back f); cbn [negb]; [|intros [= <- <- <-]; by apply Herr].
  set (kept := match put_kept f with Some n => take n (file writer) | None => file writer end).
  name_world w1 (took_effect (put f)) w.
  assert (H1 : preserved w w1 log) by (unfold w1; destruct (took_effect (put f)); [by apply put_preserved|done]).
  destruct (answered (put f)) eqn:Eput; cbn [negb]; [|intros [= <- <- <-]; by apply Herr].
  destruct (head_ f); cbn [negb]; [|intros [= <- <- <-]; by apply Herr].
  assert (Hb1 : bucket w1 !! Pack.key writer = Some kept).
  { unfold w1. destruct (put f); try done. unfold set_field. cbn. apply lookup_insert_eq. }
  rewrite Hb1. cbn [fmap option_fmap option_map].
  destruct (bool_decide_reflect (Some (zlen kept) = Some (zlen (file writer)))) as [Hk|Hk];
    cbn [negb]; [|intros [= <- <- <-]; by apply Herr].
  assert (kept = file writer) as Hkept.
  { unfold kept in *. destruct (put_kept f) as [n|]; [|done]. injection Hk as Hk.
    unfold zlen in Hk. rewrite length_take in Hk. apply take_ge. lia. }
  clearbody w1. clearbody kept. subst kept.
  name_world w2 (took_effect (insert f)) w1.
  assert (H2 : preserved w w2 log).
  { eapply preserved_trans; [exact H1|]. unfold w2. destruct (took_effect (insert f)); [|by split; [apply improves_refl|apply H1]].
    apply (insert_preserved _ _ _ (Pack.key writer)); [apply H1|by eexists|].
    intros row Hin. cbn in Hin. destruct (Hkeys row Hin) as (wr & Hwr & ->). congruence. }
  destruct (answered (insert f)) eqn:Eins; cbn [negb]; [|intros [= <- <- <-]; by apply Herr].
  assert (Hi2 : forall row, row ∈ rows s -> stored_row row ∈ index w2).
  { intros row Hin. unfold w2. destruct (insert f); try done. unfold set_field. cbn.
    apply elem_of_app. right. by apply list_elem_of_fmap_2. }
  assert (Hb2 : bucket w2 = bucket w1) by (unfold w2; by destruct (took_effect (insert f))).
  name_world w3 (took_effect (insert_games f)) w2.
  assert (Hw3 : bucket w3 = bucket w2 /\ index w3 = index w2 /\ stored_offset w3 = stored_offset w2)
    by (unfold w3; by destruct (took_effect (insert_games f))).
  clearbody w3.
  assert (H3 : preserved w w3 log).
  { destruct Hw3 as (B & I & S). eapply preserved_trans; [exact H2|]. destruct H2 as [_ (C & Cv & R)].
    assert (Himp : improves w2 w3) by (split; [by rewrite I|by rewrite B]).
    split; [done|]. unfold world_ok, commit_point in *. rewrite S. split_and!; [lia|lia|by eapply covered_improves|].
    by rewrite B, I. }
  destruct (answered (insert_games f)); cbn [negb]; [|intros [= <- <- <-]; by apply Herr].
  name_world w4 (took_effect (commit f)) w3.
  assert (Hcov3 : covered w3 log (cursor s)).
  { destruct Hw3 as (B & I & _). eapply (sealed_covered w); eauto; [apply H3|by rewrite B, Hb2|by rewrite I]. }
  assert (H4 : preserved w w4 log).
  { eapply preserved_trans; [exact H3|]. unfold w4. destruct (took_effect (commit f));
      [apply commit_preserved; [apply H3|cbn; lia|done]|by split; [apply improves_refl|apply H3]]. }
  assert (Hcov4 : covered w4 log (cursor s)).
  { eapply covered_improves; [|exact Hcov3]. unfold w4. destruct (took_effect (commit f)); by split. }
  destruct (answered (commit f)); cbn [negb]; intros [= <- <- <-]; [|by apply Herr].
  split_and!; [done|done|]. unfold worker_ok, set_field. cbn. split_and!; try lia; try done.
  - intros o r m Ho. cbn in Ho. lia.
  - by intros row ?%not_elem_of_nil.
Qed.

(** *** One turn *)
Lemma fetch_next log c f : 0 <= c <= zlen log -> fetch_ok log c f ->
  exists n, next_offset f = c + Z.of_nat n /\ (Z.to_nat c + n <= length log)%nat /\
    records f = imap (fun i r => (c + Z.of_nat i, r)) (take n (drop (Z.to_nat c) log)).
Proof.
  intros Hc (Hs & n & Hrec). exists (length (take n (drop (Z.to_nat c) log))).
  rewrite length_take, length_drop. unfold zlen in Hc. split_and!; [|lia|].
  - unfold next_offset. rewrite Hrec, Hs.
    destruct (take n (drop (Z.to_nat c) log)) as [|x l _] eqn:E using rev_ind.
    + apply (f_equal length) in E. rewrite length_take, length_drop in E. cbn in *. lia.
    + apply (f_equal length) in E. rewrite length_take, length_drop, length_app in E. cbn in E.
      rewrite imap_app. cbn. rewrite last_snoc. lia.
  - rewrite Hrec. f_equal. destruct (decide (n <= length log - Z.to_nat c)%nat) as [Hn|Hn].
    + by rewrite Nat.min_l.
    + rewrite Nat.min_r, !take_ge by (rewrite ?length_drop; lia). done.
Qed.
Lemma elem_of_decode log c f o r m : 0 <= c <= zlen log -> fetch_ok log c f ->
  c <= Z.of_nat o < next_offset f -> log !! o = Some r -> from_record r = Ok m ->
  m ∈ decode from_record (records f).
Proof.
  intros Hc Hf Ho Hl Hr. destruct (fetch_next _ _ _ Hc Hf) as (n & Hn & Hlen & ->).
  unfold decode. apply list_elem_of_omap. exists (Z.of_nat o, r). split; [|by rewrite Hr].
  apply list_elem_of_lookup. exists (o - Z.to_nat c)%nat. rewrite list_lookup_imap, lookup_take_lt by lia.
  rewrite lookup_drop. replace (Z.to_nat c + (o - Z.to_nat c))%nat with o by lia. rewrite Hl. cbn.
  do 2 f_equal. lia.
Qed.
Lemma decode_ids records : Forall (fun m => length (record_id m) = 16%nat) (decode from_record records).
Proof using from_record_id.
  apply Forall_forall. intros m Hm. apply list_elem_of_omap in Hm as ([o r] & _ & Hr). cbn in Hr.
  destruct (from_record r) eqn:E; cbn in Hr; try done. injection Hr as <-. by eapply from_record_id.
Qed.

Lemma worker_append_committed now fresh disk messages s s' r :
  worker_append now fresh disk messages s = (s', r) -> committed s' = committed s.
Proof.
  unfold Indexer.worker_append. destruct messages as [|m messages]; [by intros [= <- <-]|].
  destruct (match open_ s with Some w => Ok w | None => fresh end); [|by intros [= <- <-]..].
  destruct (Indexer.append_batch _ _ _ _ _ _ _ _) as [b r']. by intros [= <- <-].
Qed.
Lemma worker_append_spec w log now fresh disk f s s' :
  worker_ok w log s -> fresh_writer w fresh -> fetch_ok log (cursor s) f ->
  worker_append now fresh disk (decode from_record (records f)) s = (s', Ok tt) ->
  worker_ok w log (s' <| cursor := next_offset f |>).
Proof using codec_roundtrip from_record_id.
  intros (Hcc & Hlen & Hcov & Hpend & Hkeys & Hopen) Hfresh Hf Happ.
  assert (Hcb : 0 <= cursor s <= zlen log) by lia.
  destruct (fetch_next _ _ _ Hcb Hf) as (n & Hnext & Hn & _).
  pose proof (fun o r m => elem_of_decode _ _ _ o r m Hcb Hf) as Hdec.
  pose proof (decode_ids (records f)) as Hids.
  unfold Indexer.worker_append in Happ. generalize dependent (decode from_record (records f)).
  intros messages Happ Hdec Hids. destruct (decide (messages = [])) as [->|Hne].
  { injection Happ as <-. unfold worker_ok, set_field. cbn. rewrite Hnext in *.
    split_and!; try lia; try done; [unfold zlen in *; lia|].
    intros o r m Ho Hl Hr Hp. cbn in *. destruct (Z_lt_le_dec (Z.of_nat o) (cursor s)).
    - apply (Hpend o r m); auto. lia.
    - exfalso. apply (not_elem_of_nil m), (Hdec o r m); auto; lia. }
  destruct messages as [|m0 ms]; [done|]. clear Hne. set (messages := m0 :: ms) in *. clearbody messages.
  destruct (match open_ s with Some w => Ok w | None => fresh end) as [wr|e|] eqn:Ew; try done.
  assert (Hwr : writer_ok wr /\ file_name (Pack.key wr) = Some (path wr) /\ bucket w !! Pack.key wr = None).
  { destruct (open_ s) as [wr'|] eqn:Eo; [injection Ew as <-; by apply Hopen|]. subst fresh.
    destruct Hfresh as (dir & k & dir' & Hcr & Hb).
    destruct (create_ok _ _ _ _ Hcr) as ((_ & Hsz & _) & Hk & Hnm). rewrite Hk. done. }
  destruct Hwr as (Hok & Hname & Hbk).
  set (b0 := mkBatch wr (rows s) (player_games s) disk) in *.
  destruct (append_batch now _ b0) as [b r'] eqn:Eb. injection Happ as <- ->.
  destruct (append_batch_spec _ _ b0 _ Hids Hok Eb) as (Hok' & Hg & new & Hnew & Hall & Hnk).
  pose proof Hg as (Kg & Pg & ext & Fg). cbn [writer b_rows b0] in *.
  unfold worker_ok, set_field. cbn. rewrite Hnext in *.
  split_and!; try lia; try done; [unfold zlen in *; lia| | |].
  - intros o r m Ho Hl Hr Hp. cbn in *. exists (writer b). rewrite Hnew.
    destruct (Z_lt_le_dec (Z.of_nat o) (cursor s)).
    + destruct (Hpend o r m ltac:(lia) Hl Hr Hp) as (wr' & row & Ho' & Hrow & Hrok).
      rewrite Ho' in Ew. injection Ew as ->. exists row. split; [done|].
      split; [apply elem_of_app; by left|]. by eapply row_ok_grew.
    + destruct (Hall m (Hdec o r m ltac:(lia) Hl Hr) Hp) as (row & Hrow & Hrok). exists row.
      split; [done|]. split; [apply elem_of_app; by right|done].
  - intros row Hrow. exists (writer b). split; [done|]. rewrite Hnew in Hrow.
    apply elem_of_app in Hrow as [Hrow|Hrow]; [|by apply Hnk].
    destruct (Hkeys row Hrow) as (wr' & Ho' & ->). rewrite Ho' in Ew. injection Ew as ->. by rewrite Kg.
  - intros wr' [= <-]. rewrite Kg, Pg. split_and!; [|done|done]. done.
Qed.

Lemma turn_seal_spec t s w next w' log :
  world_ok w log -> worker_ok w log s -> turn_seal limits t s w = (next, w') ->
  preserved w w' log /\ forall s', next = Running s' -> worker_ok w' log s'.
Proof.
  intros Hw Hs. unfold turn_seal.
  destruct (_ && _).
  - destruct (worker_seal (t_fate t) s w) as [[s1 w1] r] eqn:E.
    destruct (seal_spec _ _ _ _ _ _ _ Hw Hs E) as (Hp & Hnp & Hok).
    destruct r as [u|e|]; [| |done]; destruct (t_stopping t); intros [= <- <-]; split; try done;
      by intros s' [= <-].
  - destruct (t_stopping t); intros [= <- <-]; (split; [by split; [apply improves_refl|]|]); [done|].
    by intros s' [= <-].
Qed.
Lemma turn_spec t s w next w' log :
  world_ok w log -> worker_ok w log s -> fresh_writer w (t_fresh t) ->
  (forall f, t_fetched t = Some (Ok f) -> fetch_ok log (cursor s) f) ->
  turn t s w = (next, w') ->
  preserved w w' log /\ forall s', next = Running s' -> worker_ok w' log s'.
Proof using codec_roundtrip from_record_id.
  intros Hw Hs Hfresh Hfetch. unfold Indexer.turn.
  destruct (t_shutdown t); [by apply turn_seal_spec|].
  assert (Hsame : preserved w w log) by (by split; [apply improves_refl|]).
  destruct (t_fetched t) as [[f|e|]|] eqn:Ef; try (by apply turn_seal_spec).
  2: { intros [= <- <-]. by split. }
  specialize (Hfetch f eq_refl). set (s0 := s <| at_end_of_log := is_end_of_log f |>).
  assert (Hs0 : worker_ok w log s0) by exact Hs.
  destruct (worker_append _ _ _ _ s0) as [s1 [[]|e|]] eqn:Ea.
  - intros Hts. eapply turn_seal_spec; [done| |exact Hts]. by eapply worker_append_spec.
  - intros [= <- <-]. split; [done|]. intros s' [= <-].
    pose proof (worker_append_committed _ _ _ _ _ _ _ Ea) as Hc. cbn in Hc.
    apply discard_ok; rewrite Hc; [by eapply committed_bound|]. by destruct Hs as (_ & _ & ? & _).
  - intros [= <- <-]. by split.
Qed.

Lemma step_ok sys sys' : sys_ok sys -> step sys sys' -> sys_ok sys'.
Proof using codec_roundtrip from_record_id.
  intros [Hw Hs] Hstep. destruct Hstep as [lg r w s|lg w w' s He|lg w s|lg w|lg w s t next w' Hf Hfr Ht];
    cbn [log world worker] in *.
  - destruct Hw as (Hc & Hcov & Hrefs). assert (zlen (lg ++ [r]) = zlen lg + 1) by (by rewrite zlen_app).
    split; cbn [log world worker].
    + split_and!; [lia|lia|by apply covered_produce; [lia|]|done].
    + intros s' Hs'. destruct (Hs s' Hs') as (? & ? & ? & Hpend & ? & ?). split_and!; try done; try lia.
      * by apply covered_produce; [lia|].
      * intros o r' m Ho Hl. apply (Hpend o r' m Ho). eapply lookup_log_app; [|done]. unfold zlen in *. lia.
  - destruct He as (Hso & Hrows & Hb & Hrefs & Hopen). assert (Himp : improves w w') by (by split).
    destruct Hw as (Hc & Hcov & _). unfold commit_point in *. split; cbn [log world worker].
    + unfold world_ok, commit_point. rewrite Hso. split_and!; [lia|lia|by eapply covered_improves|done].
    + intros s' ->. destruct (Hs s' eq_refl) as (? & ? & ? & ? & ? & Ho). split_and!; try done; try lia.
      * by eapply covered_improves.
      * intros wr Hwr. destruct (Ho wr Hwr) as (? & ? & _). split_and!; [done|done|by eapply Hopen].
  - by split.
  - split; [done|]. cbn [log world worker]. intros s' [= <-]. destruct Hw as (Hc & Hcov & _).
    unfold start. fold (commit_point w). unfold worker_ok. cbn. split_and!; try lia; try done.
    + intros o r m Ho. cbn in Ho. lia.
    + by intros row ?%not_elem_of_nil.
  - destruct (turn_spec _ _ _ _ _ _ Hw (Hs s eq_refl) Hfr Hf Ht) as [Hp Hnext].
    split; cbn [log world worker]; [apply Hp|]. intros s' Hs'. apply Hnext.
    destruct next; try done. by injection Hs' as ->.
Qed.
Lemma reachable_ok sys : reachable sys -> sys_ok sys.
Proof using codec_roundtrip from_record_id.
  induction 1 as [[lg w s] (Hw & Ho & Hi)|sys sys' _ IH Hstep]; [|by eapply step_ok].
  cbn in *. subst s. split; [|done]. unfold world_ok, commit_point. cbn. rewrite Ho, Hi. cbn.
  pose proof (zlen_nonneg lg). split_and!; [lia|lia| |by intros row ?%not_elem_of_nil].
  intros o r m Hlt. lia.
Qed.

(** C1: no acknowledged record is lost by the worker. In every state the pipeline
    can reach, through failed or half-done calls to the disk, the bucket, the
    index and the offset store, crashes and restarts at any point, other workers
    and the object collector, every record of the log below the committed offset
    that decodes and parses has an index row carrying its identity and hash, and
    that row's pack object, read back alone, yields the record's exact bytes (and
    those of its protobuf, when one was kept). *)
Theorem committed_records_are_stored sys o r m :
  reachable sys -> Z.of_nat o < commit_point (world sys) -> log sys !! o = Some r ->
  from_record r = Ok m -> parses m -> stored (world sys) m.
Proof using codec_roundtrip from_record_id.
  intros Hr Ho Hl Hm Hp. destruct (reachable_ok _ Hr) as [(_ & Hcov & _) _]. by eapply Hcov.
Qed.
(** ** A record that cannot be replayed *)
(** A message that parses, but whose events make [replay] panic. *)
Definition poisonous (m : IngestMessage) : Prop :=
  parses m /\ Replay.replay (default [] (result_ok (Mjai.events from_str (raw m)))) = Panic.
Lemma append_message_poison now m b b' :
  poisonous m -> append_message now m b <> (b', Ok tt).
Proof.
  intros [[md Hmd] Hreplay]. unfold Indexer.append_message. rewrite Hmd, Hreplay.
  destruct (append_frame compress now (record_id m) (raw m) b) as [b1 [l|e|]]; try done.
  destruct (majsoul_pb m); [|done]. by destruct (append_frame _ _ _ _ b1) as [b2 [l2|e|]].
Qed.
Lemma append_batch_poison now messages m b b' :
  m ∈ messages -> poisonous m -> append_batch now messages b <> (b', Ok tt).
Proof.
  intros Hin Hp. revert b; induction Hin as [m messages|m m' messages Hin IH]; intros b; cbn.
  - destruct (append_message now m b) as [b1 [[]|e|]] eqn:E; try done.
    by apply append_message_poison in E.
  - destruct (append_message now m' b) as [b1 [[]|e|]]; try done. by apply IH.
Qed.
(** Neither the commit nor a worker's cursor has passed a poisonous record. *)
Definition stuck_before (sys : Sys) (o : nat) : Prop :=
  commit_point (world sys) <= Z.of_nat o /\
  forall s, worker sys = Some s -> committed s <= cursor s <= Z.of_nat o.
Definition stuck (sys : Sys) : Prop := forall o r m,
  log sys !! o = Some r -> from_record r = Ok m -> poisonous m -> stuck_before sys o.
Lemma seal_commit_point f s w s' w' r :
  worker_seal f s w = (s', w', r) ->
  (commit_point w' = commit_point w \/ commit_point w' = cursor s) /\
  (s' = s \/ cursor s' = cursor s /\ committed s' = cursor s \/ s' = s <| open_ := None |>).
Proof.
  unfold worker_seal. destruct (open_ s) as [wr|]; [|intros [= <- <- <-]; auto].
  unfold upload_and_index. cbv zeta. destruct (seal wr) as [key path_].
  repeat match goal with
  | |- (if negb ?b then _ else _) = _ -> _ => destruct b; cbn [negb]; [|intros [= <- <- <-]; unfold commit_point; repeat case_match; cbn; auto]
  end. intros [= <- <- <-]. unfold commit_point; repeat case_match; cbn; auto.
Qed.
Lemma turn_seal_stuck t s w next w' o :
  commit_point w <= o -> committed s <= cursor s <= o -> turn_seal limits t s w = (next, w') ->
  commit_point w' <= o /\ forall s', next = Running s' -> committed s' <= cursor s' <= o.
Proof.
  intros Hw Hs. unfold turn_seal. destruct (_ && _).
  - destruct (worker_seal (t_fate t) s w) as [[s1 w1] r] eqn:E.
    destruct (seal_commit_point _ _ _ _ _ _ E) as [Hc Hs1].
    assert (committed s1 <= cursor s1 <= o).
    { destruct Hs1 as [->|[[-> ->]| ->]]; [done|lia|done]. }
    destruct r, (t_stopping t); intros [= <- <-]; (split; [lia|]); try done; intros s' [= <-]; cbn; lia.
  - destruct (t_stopping t); intros [= <- <-]; (split; [done|]); [done|]. by intros s' [= <-].
Qed.
Lemma turn_stuck t s w next w' lg o r m :
  lg !! o = Some r -> from_record r = Ok m -> poisonous m -> 0 <= cursor s ->
  commit_point w <= Z.of_nat o -> committed s <= cursor s <= Z.of_nat o ->
  (forall f, t_fetched t = Some (Ok f) -> fetch_ok lg (cursor s) f) ->
  turn t s w = (next, w') ->
  commit_point w' <= Z.of_nat o /\
  forall s', next = Running s' -> committed s' <= cursor s' <= Z.of_nat o.
Proof.
  intros Hl Hr Hp Hpos Hw Hs Hfetch. unfold Indexer.turn.
  destruct (t_shutdown t); [by apply turn_seal_stuck|].
  destruct (t_fetched t) as [[f|e|]|] eqn:Ef; try (by apply turn_seal_stuck).
  2: { intros [= <- <-]. by split. }
  specialize (Hfetch f eq_refl). set (s0 := s <| at_end_of_log := is_end_of_log f |>).
  destruct (worker_append _ _ _ _ s0) as [s1 [[]|e|]] eqn:Ea.
  - pose proof (worker_append_committed _ _ _ _ _ _ _ Ea) as Hc. cbn in Hc.
    apply turn_seal_stuck; [done|]. cbn. rewrite Hc.
    pose proof (lookup_lt_Some _ _ _ Hl) as Hlt.
    assert (Hcb : 0 <= cursor s <= zlen lg) by (unfold zlen; lia).
    destruct (fetch_next _ _ _ Hcb Hfetch) as (n & Hn & _).
    destruct (Z_le_gt_dec (next_offset f) (Z.of_nat o)); [lia|]. exfalso.
    pose proof (elem_of_decode _ _ _ o r m Hcb Hfetch ltac:(lia) Hl Hr) as Hin.
    unfold Indexer.worker_append in Ea. destruct (decode from_record (records f)) as [|m0 ms]; [by apply not_elem_of_nil in Hin|].
    destruct (match open_ s0 with Some w => Ok w | None => t_fresh t end) as [wr|e|]; try done.
    destruct (Indexer.append_batch _ _ _ _ _ _ _ _) as [b r'] eqn:Eb. injection Ea as <- ->.
    by eapply append_batch_poison in Eb.
  - pose proof (worker_append_committed _ _ _ _ _ _ _ Ea) as Hc. cbn in Hc.
    intros [= <- <-]. split; [done|]. intros s' [= <-]. cbn. lia.
  - intros [= <- <-]. by split.
Qed.
Lemma step_stuck sys sys' : sys_ok sys -> stuck sys -> step sys sys' -> stuck sys'.
Proof.
  intros [(Hc & _) Hok] Hst Hstep o r m Hl Hr Hp. unfold stuck_before.
  destruct Hstep as [lg r0 w s|lg w w' s He|lg w s|lg w|lg w s t next w' Hf Hfr Ht];
    cbn [log world worker] in *.
  - apply lookup_app_Some in Hl as [Hl|[Hle Hl]]; [by destruct (Hst o r m Hl Hr Hp)|].
    apply list_lookup_singleton_Some in Hl as [Ho _]. unfold zlen in *. split; [lia|].
    intros s' Hs. destruct (Hok s' Hs) as (? & ? & _). unfold zlen in *. lia.
  - destruct (Hst o r m Hl Hr Hp) as [H1 H2]. destruct He as (Hso & _). unfold commit_point in *.
    rewrite Hso. by split.
  - by destruct (Hst o r m Hl Hr Hp).
  - destruct (Hst o r m Hl Hr Hp) as [H1 _]. split; [done|]. intros s [= <-]. unfold start. cbn.
    unfold commit_point in H1. cbn in H1. lia.
  - destruct (Hst o r m Hl Hr Hp) as [H1 H2]. destruct (Hok s eq_refl) as (? & _).
    assert (Hpos : 0 <= cursor s) by lia.
    destruct (turn_stuck _ _ _ _ _ _ _ _ _ Hl Hr Hp Hpos H1 (H2 s eq_refl) Hf Ht) as [H3 H4].
    split; [done|]. intros s' Hs'. apply H4. destruct next; try done. by injection Hs' as ->.
Qed.
(** One record whose events make [replay] panic stops its partition for good.
    Whatever is retried or restarted, no reachable state has committed an offset
    past it, so nothing behind it is ever acknowledged as stored. *)
Theorem poison_record_blocks_partition sys o r m :
  reachable sys -> log sys !! o = Some r -> from_record r = Ok m -> poisonous m ->
  commit_point (world sys) <= Z.of_nat o.
Proof using codec_roundtrip from_record_id.
  intros Hreach Hl Hr Hp. assert (Hst : stuck sys); [|by destruct (Hst o r m Hl Hr Hp)].
  clear Hl Hr Hp. induction Hreach as [[lg w s] (Hw & Ho & Hi)|sys sys' Hs IH Hstep].
  - cbn in *. subst s. intros o' r' m' _ _ _. split; [|done]. unfold commit_point. cbn. rewrite Ho. cbn. lia.
  - eapply step_stuck; [by apply reachable_ok|done|done].
Qed.
(** ** Progress *)
Definition fits_frame (bytes : list Z) : Prop :=
  zlen bytes <= u32_max /\ exists frame, compress bytes = Some frame /\ zlen frame <= u32_max.
(** A message nothing in the worker chokes on. *)
Definition serviceable (m : IngestMessage) : Prop :=
  is_panic (Mjai.parse_metadata from_str to_string timestamp_ok (raw m)) = false /\
  (parses m -> fits_frame (raw m) /\ (forall pb, majsoul_pb m = Some pb -> fits_frame pb) /\
     exists game, Replay.replay (default [] (result_ok (Mjai.events from_str (raw m)))) = Ok game).
Lemma append_frame_ok now id bytes b : fits_frame bytes -> disk b = [] ->
  exists b' l, append_frame compress now id bytes b = (b', Ok l) /\ disk b' = [].
Proof.
  intros (Hs & frame & Hc & Hf) Hd. unfold append_frame, append. rewrite Hd. cbn [head default].
  destruct (Z.ltb_spec u32_max (zlen bytes)); [lia|]. rewrite Hc.
  destruct (Z.ltb_spec u32_max (zlen frame)); [lia|]. cbn. by eexists _, _.
Qed.
Lemma append_message_ok now m b : serviceable m -> disk b = [] ->
  exists b', append_message now m b = (b', Ok tt) /\ disk b' = [].
Proof.
  intros [Hnp Hgood] Hd. unfold Indexer.append_message.
  destruct (Mjai.parse_metadata _ _ _ (raw m)) as [md|e|]; [|by eexists|done].
  destruct Hgood as (Hraw & Hpb & game & Hgame); [by eexists|].
  destruct (append_frame_ok now (record_id m) _ b Hraw Hd) as (b1 & l & -> & Hd1).
  destruct (majsoul_pb m) as [pb|].
  - destruct (append_frame_ok now (record_id m) pb b1 (Hpb pb eq_refl) Hd1) as (b2 & l2 & -> & Hd2).
    cbn. rewrite Hgame. by eexists.
  - cbn. rewrite Hgame. by eexists.
Qed.
Lemma append_batch_ok now messages b : Forall serviceable messages -> disk b = [] ->
  exists b', append_batch now messages b = (b', Ok tt).
Proof.
  intros Hall. revert b; induction Hall as [|m messages Hm _ IH]; intros b Hd; cbn; [by eexists|].
  destruct (append_message_ok now m b Hm Hd) as (b1 & -> & Hd1). by apply IH.
Qed.
Lemma worker_append_ok now wr messages s : Forall serviceable messages ->
  exists s', worker_append now (Ok wr) [] messages s = (s', Ok tt) /\ cursor s' = cursor s /\
    (open_ s' = None -> open_ s = None /\ messages = []).
Proof.
  intros Hall. unfold Indexer.worker_append. destruct messages as [|m messages]; [by exists s|].
  set (w := match open_ s with Some w => Ok w | None => Ok wr end).
  assert (exists w0, w = Ok w0) as [w0 ->] by (unfold w; destruct (open_ s); by eexists).
  destruct (append_batch_ok now (m :: messages) (mkBatch w0 (rows s) (player_games s) []) Hall eq_refl)
    as [b' Hb]. rewrite Hb. by eexists.
Qed.
(** Every call of the seal answers, and the upload is whole. *)
Definition all_done : SealFate := mkFate true true Done None true Done Done Done.
Lemma worker_seal_ok s w : exists s' w', worker_seal all_done s w = (s', w', Ok tt) /\
  cursor s' = cursor s /\ (open_ s <> None -> stored_offset w' = Some (cursor s)).
Proof.
  unfold worker_seal. destruct (open_ s) as [wr|]; [|by exists s, w].
  unfold upload_and_index, all_done. cbv zeta. destruct (seal wr) as [key path_]; cbn.
  rewrite lookup_insert_eq. cbn.
  destruct (bool_decide_reflect (Some (zlen (file wr)) = Some (zlen (file wr)))); [|done]. cbn.
  by eexists _, _.
Qed.

(** The consumer serves every offset of the log, and nothing only at its end. *)
Definition serves (log : list Record_) (fetch : Z -> result KafkaError Fetched) : Prop :=
  forall offset, 0 <= offset <= zlen log -> exists f, fetch offset = Ok f /\ fetch_ok log offset f /\
    (is_end_of_log f = true <-> offset = zlen log).
(** C2: nothing stays unprocessed for lack of a fault. When the broker serves the
    log, every message is one the worker can pack, and the calls succeed, a
    drain ends: it reaches the end of the log, and the committed offset follows
    it there unless not one of the records it read decodes to a message. *)
Theorem drain_commits_to_the_end lg fetch fates s w :
  serves lg fetch ->
  Forall (fun r => forall m, from_record r = Ok m -> serviceable m) lg ->
  Forall (fun t => (exists wr, t_fresh t = Ok wr) /\ t_disk t = []) fates ->
  0 <= cursor s <= zlen lg -> zlen lg - cursor s < zlen fates ->
  exists s' w' n,
    drain compress from_str to_string timestamp_ok sha256_hex from_record fates all_done fetch s w
      = (s', w', Ok n) /\
    cursor s' = zlen lg /\
    (stored_offset w' = Some (zlen lg) \/
     open_ s = None /\ forall o r m, cursor s <= Z.of_nat o -> lg !! o = Some r -> from_record r <> Ok m).
Proof.
  intros Hserves Hgood Hfates. revert s; induction Hfates as [|t fates [[wr Hwr] Hdisk] _ IH];
    intros s Hcur Hlen; [unfold zlen in *; cbn in Hlen; lia|].
  cbn [drain]. destruct (Hserves (cursor s) Hcur) as (f & -> & Hf & Hend).
  destruct (is_end_of_log f) eqn:Ee.
  - destruct (worker_seal_ok s w) as (s' & w' & -> & Hc & Ho). eexists _, _, _. split; [done|].
    assert (cursor s = zlen lg) as Heq by (by apply Hend). split; [congruence|].
    destruct (open_ s) eqn:Eo; [left; rewrite <- Heq; by apply Ho|]. right. split; [done|].
    intros o r m Hle Hl. apply lookup_lt_Some in Hl. unfold zlen in *. lia.
  - destruct (fetch_next _ _ _ Hcur Hf) as (n & Hnext & Hn & Hrec).
    assert (Hdec : Forall serviceable (decode from_record (records f))).
    { apply Forall_forall. intros m Hm. apply list_elem_of_omap in Hm as ([o r] & Hin & Hr). cbn in Hr.
      destruct (from_record r) as [m'| |] eqn:Er; [|done..]. injection Hr as ->.
      rewrite Hrec in Hin. apply list_elem_of_lookup in Hin as [i Hi]. rewrite list_lookup_imap in Hi.
      destruct (take n _ !! i) eqn:Et; [|done]. injection Hi as _ ->. rewrite Forall_forall in Hgood.
      apply (Hgood r); [|done]. apply list_elem_of_lookup. apply lookup_take_Some in Et as [Et _].
      rewrite lookup_drop in Et. by eexists. }
    assert (n <> O).
    { intros ->. rewrite take_0 in Hrec. cbn in Hrec. unfold is_end_of_log in Ee. by rewrite Hrec in Ee. }
    rewrite Hwr, Hdisk. destruct (worker_append_ok (t_now t) wr _ s Hdec) as (s1 & -> & Hc1 & Hopen).
    rewrite zlen_cons in Hlen. unfold zlen in *.
    edestruct (IH (s1 <| cursor := next_offset f |>)) as (s' & w' & k & Hd & Hcs & Hst);
      [cbn; lia|cbn; lia|].
    eexists _, _, _. split; [exact Hd|]. split; [done|].
    destruct Hst as [Hst|[Ho Hnone]]; [by left|]. right. cbn in Ho. destruct (Hopen Ho) as [Hos Hm0].
    split; [done|]. intros o r m Hle Hl Hr. destruct (Z_lt_le_dec (Z.of_nat o) (next_offset f)).
    + apply (not_elem_of_nil m). rewrite <- Hm0. by eapply elem_of_decode.
    + by eapply Hnone.
Qed.
End Safety.

(** ** Concrete runs *)
Section PipelineExamples.
(** A text format of identifiers, a JSON reader that answers one start event, or
    a win whose only ura indicator is empty when the text begins with p. *)
Definition toy_uuid (s : string) : option Uuid :=
  if decide (length (bytes_of_string s) = 16%nat) then Some (bytes_of_string s) else None.
Definition toy_from_record : Record_ -> result KafkaError IngestMessage :=
  Kafka.from_record string_of_bytes toy_uuid (fun _ => None).
Lemma toy_from_record_id r m : toy_from_record r = Ok m -> length (record_id m) = 16%nat.
Proof.
  unfold toy_from_record, Kafka.from_record. intros H. repeat case_match; try done. injection H as <-.
  cbn. destruct (from_utf8 _) as [text|]; cbn in *; [|done]. unfold toy_uuid in *. case_decide; [|done].
  by simplify_eq.
Qed.
Definition toy_game : json := JObj [("type", JStr "start_game"); ("names", strs ["a"; "b"])].
Definition toy_events (text : string) : list json :=
  match text with
  | String "p"%char _ => [toy_game; JObj [("type", JStr "start_kyoku")];
      JObj [("type", JStr "reach_accepted"); ("actor", num 0)];
      JObj [("type", JStr "hora"); ("actor", num 0); ("pai", JStr "1m"); ("uradora_markers", strs [""])]]
  | _ => [toy_game]
  end.
(** The text after the bracket names the game. *)
Definition toy_from_str (text : string) : json + string :=
  match text with
  | String "["%char text => inl (JArr (toy_events text))
  | _ => inr "not an array"
  end.
Definition toy_message (text : string) : IngestMessage :=
  mkMessage (replicate 16 65) "bucket" None (bytes_of_string text) (Some [5; 6]) 0.
Definition toy_record (text : string) : Record_ :=
  into_record string_of_bytes (fun _ => "") (toy_message text).
Definition toy_limits : Limits := mkLimits 1000 1000 1000.
Definition toy_fate : SealFate := mkFate true true Done None true Done Done Done.
Definition toy_turn (r : Record_) : Turn :=
  mkTurn false (Some (Ok (mkFetched [(0, r)] 1 0))) 7
    (match create ∅ "packs/a.mjpack" with Ok (w, _) => Ok w | _ => Err Io end) [] true toy_fate.
Definition toy_world : World := mkWorld None ∅ [] [].
Abbreviation toy_step := (step toy_compress toy_from_str (fun _ => "") (fun _ => true) (fun _ => "h")
  toy_from_record toy_limits).
Abbreviation toy_reachable := (reachable toy_compress toy_from_str (fun _ => "") (fun _ => true)
  (fun _ => "h") toy_from_record toy_limits).
Definition toy_after (r : Record_) : next_turn * World :=
  turn toy_compress toy_from_str (fun _ => "") (fun _ => true) (fun _ => "h") toy_from_record toy_limits
    (toy_turn r) (start toy_world) toy_world.
Definition toy_sys (r : Record_) : Sys :=
  mkSys [r] (snd (toy_after r))
    (match fst (toy_after r) with Running s => Some s | Stopped _ | Died => None end).
Lemma toy_sys_reachable r : toy_reachable (toy_sys r).
Proof.
  eapply Reach_step; [|eapply (Step_turn _ _ _ _ _ _ _ [r] toy_world (start toy_world) (toy_turn r)
    (fst (toy_after r)) (snd (toy_after r)))].
  - eapply Reach_step; [|apply Step_start].
    eapply Reach_step; [|apply (Step_produce _ _ _ _ _ _ _ [])].
    by apply Reach_initial.
  - intros f [= <-]. split; [done|]. by exists 1%nat.
  - exists ∅, "packs/a.mjpack". eexists. split; vm_compute; reflexivity.
  - unfold toy_after. by destruct (turn _ _ _ _ _ _ _ _ _ _).
Qed.

Lemma committed_records_are_stored_witness :
  commit_point (world (toy_sys (toy_record "[x"))) = 1 /\
  stored toy_decompress (fun _ => "h") (world (toy_sys (toy_record "[x"))) (toy_message "[x").
Proof.
  split; [vm_compute; reflexivity|].
  apply (committed_records_are_stored toy_compress toy_decompress toy_from_str (fun _ => "")
    (fun _ => true) (fun _ => "h") toy_from_record toy_limits toy_roundtrip toy_from_record_id
    (toy_sys (toy_record "[x")) 0 (toy_record "[x")).
  - apply toy_sys_reachable.
  - vm_compute; reflexivity.
  - reflexivity.
  - vm_compute; reflexivity.
  - eexists. vm_compute; reflexivity.
Defined.
Lemma poison_record_blocks_partition_witness :
  commit_point (world (toy_sys (toy_record "[p"))) <= 0.
Proof.
  apply (poison_record_blocks_partition toy_compress toy_decompress toy_from_str (fun _ => "")
    (fun _ => true) (fun _ => "h") toy_from_record toy_limits toy_roundtrip toy_from_record_id
    (toy_sys (toy_record "[p")) 0 (toy_record "[p") (toy_message "[p")).
  - apply toy_sys_reachable.
  - reflexivity.
  - vm_compute; reflexivity.
  - split; [eexists|]; vm_compute; reflexivity.
Defined.
Definition toy_fetch (offset : Z) : result KafkaError Fetched :=
  Ok (if offset =? 0 then mkFetched [(0, toy_record "[x")] 1 0 else mkFetched [] 1 offset).
Lemma toy_serves : serves [toy_record "[x"] toy_fetch.
Proof.
  intros o Ho. unfold zlen in Ho. cbn in Ho. assert (o = 0 \/ o = 1) as [-> | ->] by lia.
  - eexists. split; [reflexivity|]. split; [|done]. split; [done|]. by exists 1%nat.
  - eexists. split; [reflexivity|]. split; [|done]. split; [done|]. by exists O.
Qed.
Lemma drain_commits_to_the_end_witness :
  exists s' w' n,
    drain toy_compress toy_from_str (fun _ => "") (fun _ => true) (fun _ => "h") toy_from_record
      (replicate 2 (toy_turn (toy_record "[x") )) all_done toy_fetch (start toy_world) toy_world
      = (s', w', Ok n) /\ cursor s' = 1 /\
    (stored_offset w' = Some 1 \/
     open_ (start toy_world) = None /\ forall o r m, cursor (start toy_world) <= Z.of_nat o ->
       [toy_record "[x"] !! o = Some r -> toy_from_record r <> Ok m).
Proof.
  apply (drain_commits_to_the_end toy_compress toy_from_str (fun _ => "") (fun _ => true) (fun _ => "h")
    toy_from_record [toy_record "[x"] toy_fetch).
  - exact toy_serves.
  - constructor; [|constructor]. intros m Hm. assert (toy_from_record (toy_record "[x") = Ok (toy_message "[x"))
      as Heq by (vm_compute; reflexivity). rewrite Heq in Hm. injection Hm as <-.
    split; [vm_compute; reflexivity|]. intros _. split; [|split].
    + split; [vm_compute; done|]. eexists. split; [reflexivity|vm_compute; done].
    + intros pb [= <-]. split; [vm_compute; done|]. eexists. split; [reflexivity|vm_compute; done].
    + eexists. vm_compute; reflexivity.
  - repeat constructor; eexists; vm_compute; reflexivity.
  - vm_compute. done.
  - vm_compute. done.
Defined.
End PipelineExamples.
