(* ===== verification/Search.v ===== *)
(** The record queries of [src/src/catalog.rs], their cursors, and the exports
    [src/src/api.rs] builds from them. ClickHouse is the list of the rows in the
    order they were inserted; a statement is the function it denotes. *)
From S2P Require Import Prelude Text Pack Kafka Indexer.
#[local] Open Scope string_scope.
#[local] Open Scope list_scope.
#[local] Open Scope Z_scope.

Module Search.
Import Pack Kafka Indexer.

Definition DAY : Z := 86400 * 1000000000.
Definition MAX_QUERY_WINDOW_DAYS : Z := 90.
Definition parse_i64 : string -> option Z := parse_int (- 2 ^ 63) (2 ^ 63 - 1).
(** [DateTime::timestamp_millis], and the smallest whole millisecond not before. *)
Definition timestamp_millis (value : DateTime) : Z := value / 1000000.
Definition ceil_millis (value : DateTime) : Z :=
  if (value mod 1000000000) mod 1000000 =? 0 then timestamp_millis value else timestamp_millis value + 1.

Inductive CatalogError := WindowTooWide (days : Z) | RangeInverted | Index.

(** ** Filters *)
Record RecordFilter := mkFilter {
  f_source : option string; f_player : option string; f_rule : option string;
  received_from : option DateTime; received_to : option DateTime;
  played_from : option DateTime; played_to : option DateTime;
  missing_pb : bool; stored_pb : bool
}.
Definition no_filter : RecordFilter := mkFilter None None None None None None None false false.

Record Cursor := mkCursor { c_received_at : DateTime; c_record_id : Uuid }.

Section Queries.
(** The instants [chrono] can represent; the text of a [Uuid]; how ClickHouse
    orders the values of a UUID column. *)
Variable in_range : DateTime -> bool.
Variable uuid_to_string : Uuid -> string.
Variable uuid_parse : string -> option Uuid.
Variable uuid_ltb : Uuid -> Uuid -> bool.

(** [RecordFilter::bounded]. Subtracting the window from an instant it takes out
    of range panics. *)
Definition bounded (now : DateTime) (f : RecordFilter) : result CatalogError RecordFilter :=
  let window := MAX_QUERY_WINDOW_DAYS * DAY in
  let to := default now (received_to f) in
  if negb (in_range (to - window)) then Panic
  else
    let from := default (to - window) (received_from f) in
    if window <? to - from then Err (WindowTooWide MAX_QUERY_WINDOW_DAYS)
    else Ok (mkFilter (f_source f) (f_player f) (f_rule f) (Some from) (received_to f)
                      (played_from f) (played_to f) (missing_pb f) (stored_pb f)).

(** ** Cursors *)
Definition cursor_to_string (c : Cursor) : string :=
  pretty (timestamp_millis (c_received_at c)) +:+ "_" +:+ uuid_to_string (c_record_id c).
Definition cursor_from_str (value : string) : result string Cursor :=
  match split_once "_"%char value with
  | None => Err "malformed cursor"
  | Some (millis, record_id) =>
    match (m ← parse_i64 millis; if in_range (m * 1000000) then Some (m * 1000000) else None) with
    | None => Err "malformed cursor timestamp"
    | Some at_ =>
      match uuid_parse record_id with
      | None => Err "malformed cursor id"
      | Some id => Ok (mkCursor at_ id)
      end
    end
  end.

(** ** The statement of a page *)
Definition opt_test {A} (o : option A) (test : A -> bool) : bool :=
  match o with Some a => test a | None => true end.
(** [pb_size = 0]. *)
Definition no_pb (r : Row) : bool :=
  match row_pb r with Some pb => pb_raw_size pb =? 0 | None => true end.
(** A bound on [played_at] is not true of a row that has none. *)
Definition matches (f : RecordFilter) (r : Row) : bool :=
  let played test := match row_played_at r with Some p => test (timestamp_millis p) | None => false end in
  opt_test (f_source f) (String.eqb (row_source r))
  && opt_test (f_player f) (fun player => existsb (String.eqb player) (players r))
  && opt_test (f_rule f) (String.eqb (default "" (rule r)))
  && (negb (missing_pb f) || no_pb r)
  && (negb (stored_pb f) || negb (no_pb r))
  && opt_test (received_from f) (fun v => timestamp_millis v <=? timestamp_millis (row_received_at r))
  && opt_test (played_from f) (fun v => played (fun p => timestamp_millis v <=? p))
  && opt_test (received_to f) (fun v => timestamp_millis (row_received_at r) <? ceil_millis v)
  && opt_test (played_to f) (fun v => played (fun p => p <? ceil_millis v)).
(** [RECORDS_BEFORE]. *)
Definition records_before (c : Cursor) (r : Row) : bool :=
  let at_ := timestamp_millis (c_received_at c) in
  let received := timestamp_millis (row_received_at r) in
  (received <=? at_) && ((received <? at_) || ((received =? at_) && uuid_ltb (id r) (c_record_id c))).
(** [ORDER BY received_at DESC, record_id DESC]. *)
Definition row_key (r : Row) : Z * Uuid := (timestamp_millis (row_received_at r), id r).
Definition key_ltb : Z * Uuid -> Z * Uuid -> bool := lex_ltb uuid_ltb.
Definition row_geb (a b : Row) : bool := negb (key_ltb (row_key a) (row_key b)).
(** [FINAL]: of the rows of one sorting key the one inserted last. *)
Definition same_sorting_key (a b : Row) : bool :=
  bool_decide (row_key a = row_key b) && String.eqb (row_source a) (row_source b).
Fixpoint final (rows : list Row) : list Row :=
  match rows with
  | [] => []
  | r :: rows => if existsb (same_sorting_key r) rows then final rows else r :: final rows
  end.
Definition selected (f : RecordFilter) (cursor : option Cursor) (rows : list Row) : list Row :=
  sort_by row_geb
    (List.filter (fun r => matches f r && opt_test cursor (fun c => records_before c r)) (final rows)).

(** [Catalog::page]: one row more than asked for tells whether there is a next
    page. [rows] is [None] when the statement fails; a limit out of the range of
    its parameter fails too. *)
Definition page (f : RecordFilter) (cursor : option Cursor) (limit : Z) (rows : option (list Row))
  : result CatalogError (list Row * option Cursor) :=
  match rows with
  | None => Err Index
  | Some rows =>
    let asked := as_u64 (limit + 1) in
    if u32_max <? asked then Err Index
    else
      let records := take (Z.to_nat asked) (selected f cursor rows) in
      if limit <? zlen records then
        let records := take (Z.to_nat limit) records in
        match last records with
        | None => Panic
        | Some r => Ok (records, Some (mkCursor (row_received_at r) (id r)))
        end
      else Ok (records, None)
  end.
Definition search (now : DateTime) (f : RecordFilter) (cursor : option Cursor) (limit : Z)
  (rows : option (list Row)) : result CatalogError (list Row * option Cursor) :=
  f ← bounded now f; page f cursor limit rows.
Definition scan (f : RecordFilter) (cursor : option Cursor) (limit : Z) (rows : option (list Row))
  : result CatalogError (list Row * option Cursor) := page f cursor limit rows.
(** [Catalog::get]: the row indexed last. *)
Definition get (record_id : Uuid) (rows : list Row) : option Row :=
  last (List.filter (fun r => bool_decide (id r = record_id)) rows).

(** ** Exports *)
Inductive DownloadFormat := TarGz | ManifestJsonl.
Definition format_as_str (format : DownloadFormat) : string :=
  match format with TarGz => "tar.gz" | ManifestJsonl => "manifest.jsonl" end.
Inductive JobState := Queued | Running | Completed | Failed_.
(** A row of [download_jobs]. *)
Record Job := mkJob {
  job_state : JobState; record_count : Z; result_object_key : option string; job_error : option string
}.
Inductive Entry := TarEntry (name : string) (raw : list Z) | Line (text : string).
Record ExportFile := mkFile { contents : list Entry; finished : bool }.
Record World := mkWorld { jobs : gmap Uuid Job; export_dir : gmap string ExportFile }.
(** What one page of an export meets: the rows of the index, if the statement is
    answered; the fate of the progress report; and whether the disk takes each of its
    entries. *)
Record PageFate := mkPage { seen : option (list Row); progress : reply; disk : nat -> bool }.

Definition EXPORT_PAGE_SIZE : Z := 1000.
(** The pack reader and [serde_json::to_writer] of a record. *)
Variable read : PackLocation -> result string (list Z).
Variable record_line : Row -> string.

(** [Catalog::create_job], [start_job], [record_job_progress], [finish_job]. *)
Definition create_job (job : Uuid) (w : World) : World :=
  mkWorld (<[job := mkJob Queued 0 None None]> (jobs w)) (export_dir w).
Definition update_job (fault : reply) (job : Uuid) (f : Job -> Job) (w : World) : World :=
  if took_effect fault then mkWorld (alter f job (jobs w)) (export_dir w) else w.
Definition start_job (j : Job) : Job :=
  mkJob Running (record_count j) (result_object_key j) (job_error j).
Definition record_job_progress (written : Z) (j : Job) : Job :=
  mkJob (job_state j) (as_i64 written) (result_object_key j) (job_error j).
Definition finish_job (outcome : result string (Z * string)) (j : Job) : Job :=
  match outcome with
  | Ok (count, object_key) => mkJob Completed (as_i64 count) (Some object_key) None
  | Err error => mkJob Failed_ (record_count j) None (Some error)
  | Panic => j
  end.
(** [ExportWriter::append]. *)
Definition append_entry (format : DownloadFormat) (r : Row) : result string Entry :=
  match format with
  | TarGz => raw ← read (storage r); Ok (TarEntry (uuid_to_string (id r) +:+ ".mjson") raw)
  | ManifestJsonl => Ok (Line (record_line r +:+ String "010"%char ""))
  end.
(** The loop over the records of a page: a read or a write that fails leaves what is
    written (of an entry that could not be written whole, the part that was is not
    told). *)
Fixpoint append_page (format : DownloadFormat) (disk : nat -> bool) (rows : list Row) (written : list Entry)
  : list Entry * result string unit :=
  match rows with
  | [] => (written, Ok tt)
  | r :: rows =>
    match append_entry format r with
    | Ok e =>
      if disk 0%nat then append_page format (fun i => disk (S i)) rows (written ++ [e]) else (written, Err "write")
    | Err e => (written, Err e)
    | Panic => (written, Panic)
    end
  end.
(** [ExportWriter::finish]: only an archive has something to flush. *)
Definition finish_writer (format : DownloadFormat) (flushed : bool) : result string () :=
  match format with TarGz => if flushed then Ok tt else Err "finish" | ManifestJsonl => Ok tt end.
(** [write_export] over the pages it asks for: [None] while it still runs. *)
Fixpoint write_export (job : Uuid) (format : DownloadFormat) (f : RecordFilter) (flushed : bool) (pages : list PageFate)
  (cursor : option Cursor) (written : list Entry) (w : World)
  : World * list Entry * option (result string Z) :=
  match pages with
  | [] => (w, written, None)
  | fate :: pages =>
    match scan f cursor EXPORT_PAGE_SIZE (seen fate) with
    | Err _ => (w, written, Some (Err "record index is unavailable"))
    | Panic => (w, written, Some Panic)
    | Ok (rows, next) =>
      match append_page format (disk fate) rows written with
      | (written, Err e) => (w, written, Some (Err e))
      | (written, Panic) => (w, written, Some Panic)
      | (written, Ok _) =>
        let w := update_job (progress fate) job (record_job_progress (zlen written)) w in
        match next with
        | Some next => write_export job format f flushed pages (Some next) written w
        | None => (w, written, Some ((fun _ => zlen written) <$> finish_writer format flushed))
        end
      end
    end
  end.
Definition export_name (job : Uuid) (format : DownloadFormat) : string :=
  uuid_to_string job +:+ "." +:+ format_as_str format.
(** [run_export]; the file is created before the first page, and a job whose
    outcome is unknown (the process is gone, or a panic took the task) keeps its
    row. *)
Definition run_export (job : Uuid) (format : DownloadFormat) (f : RecordFilter) (started : reply)
  (created flushed : bool) (pages : list PageFate) (recorded : reply) (w : World) : World :=
  let w := update_job started job start_job w in
  if negb (answered started) then w
  else if negb created then update_job recorded job (finish_job (Err "create")) w
  else
    let '(w, written, outcome) := write_export job format f flushed pages None [] w in
    let done := match outcome with Some (Ok _) => true | _ => false end in
    let w := mkWorld (jobs w) (<[export_name job format := mkFile written done]> (export_dir w)) in
    match outcome with
    | Some (Ok count) =>
      update_job recorded job
        (finish_job (Ok (count, "exports/" +:+ uuid_to_string job +:+ "." +:+ format_as_str format))) w
    | Some (Err e) => update_job recorded job (finish_job (Err e)) w
    | _ => w
    end.
(** [download_file]: the export that exists under the job's name. *)
Inductive DownloadError := NotFound | NotReady | Internal.
Definition download_url (job : Uuid) (j : Job) : option string :=
  (fun _ => "/api/v1/downloads/" +:+ uuid_to_string job +:+ "/file") <$> result_object_key j.
Definition download_file (job : Uuid) (w : World) : result DownloadError ExportFile :=
  match jobs w !! job with
  | None => Err NotFound
  | Some j =>
    match job_state j with
    | Completed =>
      match download_url job j with
      | None => Err Internal
      | Some url =>
        let format :=
          match find "manifest" url with
          | Some _ => ManifestJsonl
          | None => match export_dir w !! export_name job TarGz with
                    | Some _ => TarGz | None => ManifestJsonl end
          end in
        match export_dir w !! export_name job format with Some file => Ok file | None => Err NotFound end
      end
    | _ => Err NotReady
    end
  end.
End Queries.
End Search.

Import Pack Kafka Indexer Search.

(** ** Golden cases *)
Example ceil_millis_cases :
  map ceil_millis [0; 1; 999999; 1000000; 1000001; -1] = [0; 1; 1; 1; 2; 0].
Proof. reflexivity. Qed.

Section Facts.
Context (uuid_ltb : Uuid -> Uuid -> bool) `{!StrictTotal uuid_ltb}.
Abbreviation key_ltb := (Search.key_ltb uuid_ltb).
Abbreviation row_geb := (row_geb uuid_ltb).
Abbreviation selected := (selected uuid_ltb).
Abbreviation page := (page uuid_ltb).
#[local] Instance key_total : StrictTotal key_ltb.
Proof. unfold Search.key_ltb. apply _. Qed.

(** ** Keys *)
Definition cursor_key (c : Cursor) : Z * Uuid := (timestamp_millis (c_received_at c), c_record_id c).
Lemma records_before_key c r : records_before uuid_ltb c r = key_ltb (row_key r) (cursor_key c).
Proof.
  unfold records_before, Search.key_ltb, lex_ltb, row_key, cursor_key; cbn [fst snd].
  repeat zcase; cbn; try done; lia.
Qed.
(** What a descending page is sorted by. *)
Definition newer (a b : Row) : Prop := key_ltb (row_key b) (row_key a) = true.
Lemma row_geb_newer a b : row_geb a b = true -> row_key a <> row_key b -> newer a b.
Proof.
  unfold Search.row_geb, newer. intros H%negb_true_iff Hne.
  destruct (ltb_total key_ltb (row_key a) (row_key b)) as [E|[E|E]]; congruence.
Qed.
Lemma row_geb_total a b : row_geb a b = true \/ row_geb b a = true.
Proof.
  unfold Search.row_geb. destruct (key_ltb (row_key a) (row_key b)) eqn:E; [right|by left].
  by rewrite (ltb_asym key_ltb _ _ E).
Qed.
Lemma row_geb_trans a b c : row_geb a b = true -> row_geb b c = true -> row_geb a c = true.
Proof.
  unfold Search.row_geb. rewrite !negb_true_iff. intros H1 H2. by apply (ltb_le_trans key_ltb _ (row_key b)).
Qed.

(** ** The rows of a page *)
Lemma final_elem rows r : r ∈ final rows -> r ∈ rows.
Proof.
  induction rows as [|a rows IH]; cbn [final]; [done|].
  destruct (existsb _ rows); intros H; [right; auto|].
  apply elem_of_cons in H as [->|H]; [left|right; auto].
Qed.
Lemma same_sorting_key_spec a b :
  same_sorting_key a b = true <-> row_key a = row_key b /\ row_source a = row_source b.
Proof. unfold same_sorting_key. by rewrite andb_true_iff, bool_decide_eq_true, String.eqb_eq. Qed.
(** Rows of one record and one instant come from one source: a record keeps its
    source when it is indexed again. *)
Definition one_source (rows : list Row) : Prop :=
  forall a b, a ∈ rows -> b ∈ rows -> row_key a = row_key b -> row_source a = row_source b.
Lemma final_nodup rows : one_source rows -> NoDup (map row_key (final rows)).
Proof.
  induction rows as [|a rows IH]; cbn [final]; intros H; [constructor|].
  assert (Ht : one_source rows) by (intros x y Hx Hy; apply H; by right).
  destruct (existsb _ rows) eqn:E; [auto|]. cbn [map]. constructor; [|auto].
  intros (b & Hk & Hb%final_elem)%list_elem_of_fmap.
  assert (Hs : existsb (same_sorting_key a) rows = true); [|congruence].
  apply existsb_exists. exists b. split; [by apply list_elem_of_In|].
  apply same_sorting_key_spec. split; [done|]. apply H; [left|by right|done].
Qed.
(** A replaced row leaves the newer one in its place. *)
Lemma final_key rows r : r ∈ rows -> exists r', r' ∈ final rows /\ row_key r' = row_key r /\ row_source r' = row_source r.
Proof.
  revert r. induction rows as [|a rows IH]; intros r; [by intros ?%not_elem_of_nil|]. cbn [final].
  intros [->|H]%elem_of_cons.
  - destruct (existsb _ rows) eqn:E; [|exists a; split; [left|done]].
    apply existsb_exists in E as (b & Hb%list_elem_of_In & [Hk Hs]%same_sorting_key_spec).
    destruct (IH b Hb) as (r' & H1 & H2 & H3). exists r'; split; [done|]. split; congruence.
  - destruct (IH r H) as (r' & H1 & H2). exists r'. destruct (existsb _ rows); [done|]. split; [by right|done].
Qed.
Definition in_page (f : RecordFilter) (cursor : option Cursor) (rows : list Row) (r : Row) : Prop :=
  r ∈ final rows /\ matches f r = true /\ forall c, cursor = Some c -> key_ltb (row_key r) (cursor_key c) = true.
Lemma selected_elem f cursor rows r : r ∈ selected f cursor rows <-> in_page f cursor rows r.
Proof.
  unfold Search.selected, in_page. rewrite sort_by_perm. rewrite list_elem_of_In, filter_In, andb_true_iff.
  rewrite <- list_elem_of_In. apply and_iff_compat_l, and_iff_compat_l. destruct cursor as [c|]; cbn [opt_test].
  - rewrite records_before_key. split; [by intros H _ [= <-]|auto].
  - by split.
Qed.
Lemma selected_nodup f cursor rows : one_source rows -> NoDup (map row_key (selected f cursor rows)).
Proof.
  intros H. unfold Search.selected. rewrite sort_by_perm.
  pose proof (final_nodup rows H) as Hn. induction (final rows) as [|a l IH]; [constructor|].
  cbn [map] in Hn. apply NoDup_cons in Hn as [Ha Hn]. cbn [List.filter]. destruct (_ && _); [|auto].
  cbn [map]. constructor; [|auto]. intros (b & Hk & Hb)%list_elem_of_fmap. apply Ha.
  apply list_elem_of_fmap. exists b. split; [done|]. apply list_elem_of_In in Hb.
  apply filter_In in Hb as [Hb _]. by apply list_elem_of_In.
Qed.
Lemma sorted_newer l : StronglySorted (fun a b => row_geb a b = true) l -> NoDup (map row_key l) ->
  StronglySorted newer l.
Proof.
  induction 1 as [|a l _ IH Hf]; cbn [map]; [constructor|]. intros [Ha Hn]%NoDup_cons.
  constructor; [auto|]. rewrite Forall_forall in Hf |- *. intros b Hb. apply row_geb_newer; [auto|].
  intros Hk. apply Ha, list_elem_of_fmap. by exists b.
Qed.
Lemma selected_sorted f cursor rows : one_source rows -> StronglySorted newer (selected f cursor rows).
Proof.
  intros H. apply sorted_newer; [|by apply selected_nodup].
  apply sort_by_sorted; [apply row_geb_total|apply row_geb_trans].
Qed.

Definition row_cursor (r : Row) : Cursor := mkCursor (row_received_at r) (id r).
Lemma page_spec f cursor limit rows : 0 < limit < u32_max ->
  let s := selected f cursor rows in
  (zlen s <= limit /\ page f cursor limit (Some rows) = Ok (s, None)) \/
  (exists r, limit < zlen s /\ last (take (Z.to_nat limit) s) = Some r /\
     page f cursor limit (Some rows) = Ok (take (Z.to_nat limit) s, Some (row_cursor r))).
Proof.
  intros Hl s. unfold Search.page. fold s. cbv zeta. unfold u32_max in Hl.
  unfold as_u64. rewrite as_unsigned_small by lia. destruct (Z.ltb_spec u32_max (limit + 1)); [unfold u32_max in *; lia|].
  unfold zlen in *. rewrite length_take.
  destruct (Z.ltb_spec limit (Z.of_nat (Z.to_nat (limit + 1) `min` length s))).
  - right. rewrite take_take, Nat.min_l by lia.
    destruct (last (take (Z.to_nat limit) s)) as [r|] eqn:E; [exists r; split; [lia|done]|].
    apply last_None in E. apply (f_equal length) in E. rewrite length_take in E. cbn in E. lia.
  - left. split; [lia|]. by rewrite take_ge by lia.
Qed.
Lemma sorted_split l k : StronglySorted newer (l ++ k) -> forall r, last l = Some r ->
  (forall a, a ∈ l -> a = r \/ newer a r) /\ (forall b, b ∈ k -> newer r b).
Proof.
  intros Hs r Hr. apply last_Some in Hr as [l' ->]. rewrite <- app_assoc in Hs.
  apply StronglySorted_app in Hs as (H1 & _ & H2). cbn [app] in H1, H2. split.
  - intros a [Ha| ->%list_elem_of_singleton]%elem_of_app; [right|by left]. apply H1; [done|left].
  - inversion_clear H2 as [|?? _ Hf]. rewrite Forall_forall in Hf. intros b Hb. auto.
Qed.
Lemma newer_irrefl r : ~ newer r r.
Proof. unfold newer. by rewrite (ltb_irrefl key_ltb). Qed.
Lemma newer_trans a b c : newer a b -> newer b c -> newer a c.
Proof. unfold newer. intros H K. by apply (ltb_trans key_ltb _ (row_key b)). Qed.

(** ** Following the cursors *)
Definition below (cursor : option Cursor) (k : Z * Uuid) : Prop :=
  forall c, cursor = Some c -> key_ltb k (cursor_key c) = true.
Lemma cursor_key_row r : cursor_key (row_cursor r) = row_key r.
Proof. done. Qed.
(** What a page leaves to the next one: every row left out comes after its last
    row, and the rows after it were left out. *)
Lemma rest_below f cursor rows n r k : one_source rows ->
  last (take n (selected f cursor rows)) = Some r ->
  in_page f cursor rows k -> k ∈ take n (selected f cursor rows) \/ newer r k.
Proof.
  intros H1 Hr Hk. apply selected_elem in Hk.
  pose proof (selected_sorted f cursor rows H1) as Hs. rewrite <- (take_drop n) in Hs, Hk.
  apply elem_of_app in Hk as [Hk|Hk]; [by left|right]. by apply (sorted_split _ _ Hs r Hr).
Qed.

(** Two listings in the order of a page that hold the same rows are the same. *)
Lemma newer_unique l k : StronglySorted newer l -> StronglySorted newer k ->
  (forall r, r ∈ l <-> r ∈ k) -> l = k.
Proof.
  intros Hl. revert k. induction Hl as [|a l Hl IH Ha]; intros k Hk Hlk.
  - destruct k as [|b k]; [done|]. exfalso. apply (not_elem_of_nil b), Hlk. left.
  - destruct Hk as [|b k Hk Hb]; [exfalso; apply (not_elem_of_nil a), Hlk; left|].
    rewrite Forall_forall in Ha, Hb.
    assert (a = b) as <-.
    { assert (H1 : a ∈ b :: k) by (apply Hlk; left). assert (H2 : b ∈ a :: l) by (apply Hlk; left).
      apply elem_of_cons in H1 as [->|H1]; [done|]. apply elem_of_cons in H2 as [->|H2]; [done|].
      exfalso. apply (newer_irrefl a). eauto using newer_trans. }
    f_equal. apply IH; [done|]. intros r. specialize (Hlk r). rewrite !elem_of_cons in Hlk.
    split; intros H.
    + destruct (proj1 Hlk (or_intror H)) as [->|?]; [|done]. exfalso. apply (newer_irrefl a). auto.
    + destruct (proj2 Hlk (or_intror H)) as [->|?]; [|done]. exfalso. apply (newer_irrefl a). auto.
Qed.
Lemma selected_rest f cursor rows n r : one_source rows ->
  last (take n (selected f cursor rows)) = Some r ->
  drop n (selected f cursor rows) = selected f (Some (row_cursor r)) rows.
Proof.
  intros H1 Hr. pose proof (selected_sorted f cursor rows H1) as Hs. rewrite <- (take_drop n) in Hs.
  pose proof (proj2 (proj2 (proj1 (StronglySorted_app _ _ _) Hs))) as Hd.
  destruct (sorted_split _ _ Hs r Hr) as [Hbefore Hafter].
  apply newer_unique; [done|by apply selected_sorted|]. intros k. rewrite selected_elem. split.
  - intros Hk. assert (Hin : k ∈ selected f cursor rows).
    { rewrite <- (take_drop n). apply elem_of_app. by right. }
    apply selected_elem in Hin as (Hf & Hm & _). split_and!; [done|done|]. intros c [= <-].
    by apply (Hafter k Hk).
  - intros (Hf & Hm & Hc). specialize (Hc _ eq_refl). rewrite cursor_key_row in Hc.
    assert (Hin : k ∈ selected f cursor rows).
    { apply selected_elem. split_and!; [done|done|]. intros c Hcc. eapply (ltb_trans key_ltb); [exact Hc|].
      assert (Hrp : r ∈ selected f cursor rows).
      { rewrite <- (take_drop n). apply elem_of_app. left. apply last_Some in Hr as [l ->].
        apply elem_of_app. right. left. }
      apply selected_elem in Hrp as (_ & _ & H). by apply H. }
    rewrite <- (take_drop n) in Hin. apply elem_of_app in Hin as [Hin|Hin]; [exfalso|done].
    destruct (Hbefore k Hin) as [->|Hn]; [by apply (newer_irrefl r)|].
    apply (newer_irrefl r), (newer_trans _ k); done.
Qed.

(** ** Exports *)
Section Export.
Context (uuid_to_string : Uuid -> string) (read : PackLocation -> result string (list Z)).
Context (record_line : Row -> string).
Abbreviation append_entry := (append_entry uuid_to_string read record_line).
Abbreviation append_page := (append_page uuid_to_string read record_line).
Abbreviation write_export := (write_export uuid_to_string uuid_ltb read record_line).
Abbreviation run_export := (run_export uuid_to_string uuid_ltb read record_line).

Lemma append_page_ok format disk rows written written' : append_page format disk rows written = (written', Ok tt) ->
  exists es, mapM (append_entry format) rows = Ok es /\ written' = written ++ es.
Proof.
  revert disk written. induction rows as [|r rows IH]; intros disk written; cbn [Search.append_page].
  - intros [= <-]. exists []. by rewrite app_nil_r.
  - destruct (append_entry format r) as [e| |] eqn:E; [|done|done]. destruct (disk 0%nat); [|done]. intros (es & Hes & ->)%IH.
    exists (e :: es). rewrite <- app_assoc. split; [|done]. cbn [mapM]. rewrite E. cbn. by rewrite Hes.
Qed.
Lemma append_page_served format rows : (forall r, r ∈ rows -> exists e, append_entry format r = Ok e) ->
  forall disk written, (forall i, disk i = true) -> exists written', append_page format disk rows written = (written', Ok tt).
Proof.
  induction rows as [|r rows IH]; intros H disk written Hd; cbn [Search.append_page]; [by eexists|].
  destruct (H r) as [e ->]; [left|]. rewrite Hd. apply IH; [|done]. intros x Hx. apply H. by right.
Qed.
Lemma mapM_result_app {A B} (g : A -> result string B) l k es fs :
  mapM g l = Ok es -> mapM g k = Ok fs -> mapM g (l ++ k) = Ok (es ++ fs).
Proof.
  revert es. induction l as [|a l IH]; intros es; cbn [mapM app].
  - intros [= <-] H. exact H.
  - destruct (g a) as [b| |] eqn:E; cbn; [|done|done].
    destruct (mapM g l) as [bs| |] eqn:E2; cbn; [|done|done]. intros [= <-] H.
    by rewrite (IH bs eq_refl H).
Qed.
(** What an export says about the indexes its pages saw. *)
Definition covers (f : RecordFilter) (cursor : option Cursor) (pages : list PageFate) (rows : list Row) : Prop :=
  StronglySorted newer rows /\
  (forall r, r ∈ rows -> below cursor (row_key r) /\
     exists fate index, fate ∈ pages /\ seen fate = Some index /\ r ∈ final index /\ matches f r = true) /\
  (forall k, below cursor k ->
     (forall fate index, fate ∈ pages -> seen fate = Some index ->
        exists r, r ∈ final index /\ matches f r = true /\ row_key r = k) ->
     k ∈ map row_key rows).
Lemma covers_last f cursor fate index pages : one_source index -> seen fate = Some index ->
  covers f cursor (fate :: pages) (selected f cursor index).
Proof.
  intros H1 Hs. split; [by apply selected_sorted|]. split.
  - intros r (Hr & Hm & Hc)%selected_elem. split; [done|]. exists fate, index. split; [left|done].
  - intros k Hk Hall. destruct (Hall fate index) as (r & Hr & Hm & <-); [left|done|].
    apply list_elem_of_fmap. exists r. split; [done|]. by apply selected_elem.
Qed.
Lemma covers_next f cursor fate index pages n r rows : one_source index -> seen fate = Some index ->
  last (take n (selected f cursor index)) = Some r ->
  covers f (Some (row_cursor r)) pages rows ->
  covers f cursor (fate :: pages) (take n (selected f cursor index) ++ rows).
Proof.
  intros H1 Hs Hr (Hsort & Hrows & Hall).
  pose proof (selected_sorted f cursor index H1) as Hsel.
  assert (Hin : forall a, a ∈ take n (selected f cursor index) -> in_page f cursor index a).
  { intros a Ha. apply selected_elem. rewrite <- (take_drop n). apply elem_of_app. by left. }
  assert (Hrin : r ∈ take n (selected f cursor index)).
  { apply last_Some in Hr as [l ->]. apply elem_of_app. right. left. }
  rewrite <- (take_drop n) in Hsel. pose proof (sorted_split _ _ Hsel r Hr) as [Hbefore _].
  assert (Hnew : forall k, k ∈ rows -> newer r k).
  { intros k Hk. destruct (Hrows k Hk) as [Hb _]. by apply (Hb (row_cursor r)). }
  split_and!.
  - apply StronglySorted_app. split_and!; 
      [|exact (proj1 (proj2 (proj1 (StronglySorted_app _ _ _) Hsel)))|done].
    intros a b Ha Hb. destruct (Hbefore a Ha) as [->|Ha']; [auto|]. eauto using newer_trans.
  - intros a [Ha|Ha]%elem_of_app.
    + destruct (Hin a Ha) as (Hf & Hm & Hc). split; [done|]. exists fate, index. split; [left|done].
    + destruct (Hrows a Ha) as [_ (fate' & index' & Hf & Hrest)]. split.
      * intros c Hc. eapply (ltb_trans key_ltb); [exact (Hnew a Ha)|]. by apply (Hin r Hrin).
      * exists fate', index'. split; [by right|done].
  - intros k Hk Hp. rewrite map_app. apply elem_of_app.
    destruct (Hp fate index) as (a & Hf & Hm & <-); [left|done|].
    destruct (rest_below f cursor index n r a H1 Hr) as [Ha|Ha]; [by split_and!| |].
    + left. apply list_elem_of_fmap. by exists a.
    + right. apply Hall; [by intros c [= <-]|]. intros fate' index' Hf'. apply Hp. by right.
Qed.
Lemma write_export_covers job format f flushed pages cursor written w w' written' n :
  (forall fate index, fate ∈ pages -> seen fate = Some index -> one_source index) ->
  write_export job format f flushed pages cursor written w = (w', written', Some (Ok n)) ->
  n = zlen written' /\ exists rows es, covers f cursor pages rows /\
    mapM (append_entry format) rows = Ok es /\ written' = written ++ es.
Proof.
  revert cursor written w. induction pages as [|fate pages IH]; intros cursor written w Hp;
    cbn [Search.write_export]; [done|].
  unfold Search.scan. destruct (seen fate) as [index|] eqn:Es; [|done].
  assert (H1 : one_source index) by (eapply Hp; [left|done]).
  destruct (page_spec f cursor EXPORT_PAGE_SIZE index) as [[_ E]|(r & _ & Hr & E)];
    [unfold EXPORT_PAGE_SIZE, u32_max; lia| |]; rewrite E.
  - destruct (append_page format (disk fate) _ written) as [written2 [[]| |]] eqn:Ea; [|done|done].
    destruct (finish_writer format flushed) as [[]| |]; cbn; [intros [= <- <- <-]|done..].
    apply append_page_ok in Ea as (es & Hes & ->). split; [done|]. exists (selected f cursor index), es.
    split; [by apply covers_last|done].
  - destruct (append_page format (disk fate) _ written) as [written2 [[]| |]] eqn:Ea; [|done|done]. intros Hw.
    apply append_page_ok in Ea as (es & Hes & ->).
    apply IH in Hw as (Hn & rows & es2 & Hc & Hm & ->); [|intros x i Hx; apply Hp; by right].
    split; [done|]. exists (take (Z.to_nat EXPORT_PAGE_SIZE) (selected f cursor index) ++ rows), (es ++ es2).
    split; [by apply covers_next with r|]. split; [by apply mapM_result_app|]. by rewrite app_assoc.
Qed.
Lemma write_export_finishes job format f flushed index pages :
  one_source index -> (forall r, r ∈ final index -> matches f r = true -> exists e, append_entry format r = Ok e) ->
  Forall (fun fate => seen fate = Some index /\ forall i, disk fate i = true) pages -> finish_writer format flushed = Ok tt ->
  forall cursor written w, pages <> [] ->
  zlen (selected f cursor index) <= EXPORT_PAGE_SIZE * zlen pages ->
  exists w' written', write_export job format f flushed pages cursor written w = (w', written', Some (Ok (zlen written'))).
Proof.
  intros H1 Hread Hseen Hfl. induction Hseen as [|fate pages [Hs Hd] _ IH]; [done|]. intros cursor written w _ Hlen.
  cbn [Search.write_export]. rewrite Hs. unfold Search.scan.
  assert (Hall : forall l, (forall a, a ∈ l -> a ∈ selected f cursor index) -> forall written,
    exists written', append_page format (disk fate) l written = (written', Ok tt)).
  { intros l Hl written'. apply append_page_served; [|done]. intros a Ha.
    destruct (proj1 (selected_elem f cursor index a) (Hl a Ha)) as (Hf & Hm & _). auto. }
  destruct (page_spec f cursor EXPORT_PAGE_SIZE index) as [[_ E]|(r & Hlt & Hr & E)];
    [unfold EXPORT_PAGE_SIZE, u32_max; lia| |]; rewrite E.
  - destruct (Hall (selected f cursor index)) with written as [written' ->]; [done|]. rewrite Hfl. by eexists _, _.
  - destruct (Hall (take (Z.to_nat EXPORT_PAGE_SIZE) (selected f cursor index))) with written as [written' ->].
    { intros a Ha. rewrite <- (take_drop (Z.to_nat EXPORT_PAGE_SIZE)). apply elem_of_app. by left. }
    pose proof (f_equal length (selected_rest f cursor index _ r H1 Hr)) as Hrest. rewrite length_drop in Hrest.
    rewrite zlen_cons in Hlen. unfold zlen, EXPORT_PAGE_SIZE in *.
    apply IH; [intros ->; cbn in Hlen; lia|lia].
Qed.

Lemma update_job_state fault job g w : (forall j, job_state (g j) = job_state j) ->
  export_dir (update_job fault job g w) = export_dir w /\
  job_state <$> jobs (update_job fault job g w) !! job = job_state <$> jobs w !! job.
Proof.
  intros Hg. unfold update_job. destruct (took_effect fault); [|done]. cbn. split; [done|].
  rewrite lookup_alter, decide_True by done. destruct (jobs w !! job); [|done]. cbn. by rewrite Hg.
Qed.
Lemma write_export_world job format f flushed pages cursor written w w' written' r :
  write_export job format f flushed pages cursor written w = (w', written', r) ->
  export_dir w' = export_dir w /\ job_state <$> jobs w' !! job = job_state <$> jobs w !! job.
Proof.
  revert cursor written w. induction pages as [|fate pages IH]; intros cursor written w; cbn [Search.write_export].
  { by intros [= <- _ _]. }
  destruct (Search.scan _ f cursor _ _) as [[rows next]| |]; [|by intros [= <- _ _]..].
  destruct (append_page format (disk fate) rows written) as [written2 [[]| |]]; [|by intros [= <- _ _]..].
  set (w1 := update_job _ _ _ w).
  assert (H : export_dir w1 = export_dir w /\ job_state <$> jobs w1 !! job = job_state <$> jobs w !! job)
    by by apply update_job_state.
  destruct next as [c|]; [|by intros [= <- _ _]].
  intros [H1 H2]%IH. destruct H. split; congruence.
Qed.
Lemma export_name_inj job : export_name uuid_to_string job TarGz <> export_name uuid_to_string job ManifestJsonl.
Proof.
  unfold export_name, format_as_str. intros H.
  apply (f_equal String.length) in H. rewrite !length_append in H. cbn in H. lia.
Qed.
(** C29: a completed export is the corpus it was asked for, whatever is indexed
    while it runs. Each record of the file was indexed and matched the filter when
    its page was read, no two entries are of one record, and every record that
    matched throughout is there, with the bytes its location reads back as; the
    job reports how many there are, and the download hands out this file. *)
Theorem export_holds_every_match job format f started created flushed pages recorded w j0 j :
  contains "m"%char (uuid_to_string job) = false ->
  (forall fate index, fate ∈ pages -> seen fate = Some index -> one_source index) ->
  jobs w !! job = Some j0 -> job_state j0 = Queued ->
  export_dir w !! export_name uuid_to_string job TarGz = None ->
  let w' := run_export job format f started created flushed pages recorded w in
  jobs w' !! job = Some j -> job_state j = Completed ->
  exists rows entries, covers f None pages rows /\ mapM (append_entry format) rows = Ok entries /\
    download_file uuid_to_string job w' = Ok (mkFile entries true) /\ record_count j = as_i64 (zlen entries).
Proof.
  intros Hm Hp Hj0 Hq Hfresh. unfold Search.run_export.
  set (w1 := update_job started job start_job w).
  assert (Hw1 : export_dir w1 = export_dir w /\ forall j, jobs w1 !! job = Some j -> job_state j <> Completed).
  { subst w1. unfold update_job. destruct (took_effect started); cbn; (split; [done|]); intros i.
    - rewrite lookup_alter, decide_True by done. rewrite Hj0. cbn. by intros [= <-].
    - rewrite Hj0. intros [= <-]. by rewrite Hq. }
  assert (Hstay : forall g, (forall i, job_state (g i) <> Completed) ->
    jobs (update_job recorded job g w1) !! job = Some j -> job_state j <> Completed).
  { intros g Hg. unfold update_job. destruct (took_effect recorded); [|apply Hw1]. cbn.
    rewrite lookup_alter, decide_True by done. destruct (jobs w1 !! job); [|done]. by intros [= <-]. }
  destruct (answered started); cbn [negb]; [|intros H1 H2; exfalso; by apply (proj2 Hw1 j H1)].
  destruct created; cbn [negb]; [|intros H1 H2; exfalso; by eapply Hstay; [|exact H1|exact H2]].
  destruct (write_export job format f flushed pages None [] w1) as [[w2 written] outcome] eqn:E.
  destruct (write_export_world _ _ _ _ _ _ _ _ _ _ _ E) as [Hdir Hstate].
  assert (Hlive : forall i, jobs w2 !! job = Some i -> job_state i <> Completed).
  { intros i Hi Hc. rewrite Hi in Hstate. cbn in Hstate. destruct (jobs w1 !! job) as [i1|] eqn:E1; [|done].
    apply (proj2 Hw1 i1 eq_refl). cbn in Hstate. congruence. }
  destruct outcome as [[n|e|]|]; cbn.
  - apply write_export_covers in E as (-> & rows & es & Hc & Hes & ->); [|done]. cbn [app].
    unfold update_job. destruct (took_effect recorded); cbn [jobs export_dir];
      [|intros H1 H2; exfalso; by apply (Hlive j H1)].
    rewrite lookup_alter, decide_True by done. destruct (jobs w2 !! job) as [i|] eqn:Ei; [|done].
    intros [= <-] _. exists rows, es. split; [done|]. split; [done|]. split; [|done].
    unfold download_file. cbn [jobs export_dir]. rewrite lookup_alter, decide_True by done. rewrite Ei. cbn.
    rewrite find_absent.
    2: { rewrite !contains_append, Hm. done. }
    destruct format.
    + rewrite lookup_insert_eq. by rewrite lookup_insert_eq.
    + assert (Hn : forall e, <[export_name uuid_to_string job ManifestJsonl := e]> (export_dir w2)
          !! export_name uuid_to_string job TarGz = None).
      { intros e. rewrite lookup_insert_ne; [|exact (fun H => export_name_inj job (eq_sym H))].
        by rewrite Hdir, (proj1 Hw1). }
      rewrite Hn. by rewrite lookup_insert_eq.
  - unfold update_job. destruct (took_effect recorded); cbn [jobs]; [|intros H1 H2; exfalso; by apply (Hlive j H1)].
    rewrite lookup_alter, decide_True by done. destruct (jobs w2 !! job) as [i|] eqn:Ei; [|done]. by intros [= <-].
  - intros H1 H2; exfalso; by apply (Hlive j H1).
  - intros H1 H2; exfalso; by apply (Hlive j H1).
Qed.
(** An export ends. On an index that stays as it is and whose matching records
    can be read, with a disk that takes what is written, as many pages as hold them at a thousand each are enough, and the
    export then reports the records it wrote. *)
Theorem export_finishes job format f flushed index pages w :
  one_source index -> (forall r, r ∈ final index -> matches f r = true -> exists e, append_entry format r = Ok e) ->
  Forall (fun fate => seen fate = Some index /\ forall i, disk fate i = true) pages -> finish_writer format flushed = Ok tt -> pages <> [] ->
  zlen (List.filter (matches f) (final index)) <= EXPORT_PAGE_SIZE * zlen pages ->
  exists w' written, write_export job format f flushed pages None [] w = (w', written, Some (Ok (zlen written))).
Proof.
  intros H1 Hread Hseen Hfl Hne Hlen. eapply write_export_finishes; [done|done|done|done|done|].
  unfold zlen in *. unfold Search.selected. rewrite length_sort_by. cbn [opt_test].
  rewrite (filter_ext _ (matches f)); [done|]. intros r. apply andb_true_r.
Qed.
End Export.
End Facts.

(** ** Cursors *)
Section Cursors.
Context (in_range : DateTime -> bool) (uuid_to_string : Uuid -> string) (uuid_parse : string -> option Uuid).
Context (uuid_ltb : Uuid -> Uuid -> bool) `{!StrictTotal uuid_ltb}.
Abbreviation cursor_to_string := (cursor_to_string uuid_to_string).
Abbreviation cursor_from_str := (cursor_from_str in_range uuid_parse).

Lemma cursor_round_trip c : in_i64 (timestamp_millis (c_received_at c)) -> c_received_at c mod 1000000 = 0 ->
  in_range (c_received_at c) = true -> uuid_parse (uuid_to_string (c_record_id c)) = Some (c_record_id c) ->
  cursor_from_str (cursor_to_string c) = Ok c.
Proof.
  intros Hi Hm Hr Hu. unfold Search.cursor_from_str, Search.cursor_to_string.
  change ("_" +:+ uuid_to_string (c_record_id c)) with (String "_"%char (uuid_to_string (c_record_id c))).
  rewrite split_once_append.
  2: { apply pretty_contains_signed; [done|]. vm_compute. intros [_ H]. by apply H. }
  unfold parse_i64. rewrite parse_int_pretty_signed by (unfold in_i64 in Hi; lia). cbn [mbind option_bind].
  assert (E : timestamp_millis (c_received_at c) * 1000000 = c_received_at c).
  { unfold timestamp_millis. pose proof (Z.div_mod (c_received_at c) 1000000 ltac:(lia)). lia. }
  rewrite E, Hr, Hu. by destruct c.
Qed.
(** The token of a page leads to the next page. Whatever a page answers is a
    run of matching rows, no more than asked for; when it offers a cursor, the
    token the client sends back reads as the place after the last row it was
    shown, and the page asked for there starts at the row that follows, with none
    skipped and none shown twice. *)
Theorem next_page_continues f cursor limit rows out c :
  (forall r, r ∈ rows -> uuid_parse (uuid_to_string (id r)) = Some (id r) /\
     row_received_at r mod 1000000 = 0 /\ in_range (row_received_at r) = true /\
     in_i64 (timestamp_millis (row_received_at r))) ->
  one_source rows -> 0 < limit < u32_max ->
  page uuid_ltb f cursor limit (Some rows) = Ok (out, Some c) ->
  zlen out = limit /\ cursor_from_str (cursor_to_string c) = Ok c /\
  selected uuid_ltb f cursor rows = out ++ selected uuid_ltb f (Some c) rows.
Proof.
  intros Hrows H1 Hl Hp.
  destruct (page_spec uuid_ltb f cursor limit rows Hl) as [[_ E]|(r & Hlt & Hr & E)]; [congruence|].
  rewrite Hp in E. injection E as -> ->. split; [unfold zlen in *; rewrite length_take; lia|]. split.
  - destruct (Hrows r) as (Hu & Hm & Hir & Hi); [|by apply cursor_round_trip].
    assert (Hs : r ∈ selected uuid_ltb f cursor rows).
    { rewrite <- (take_drop (Z.to_nat limit)). apply elem_of_app. left. apply last_Some in Hr as [l ->].
      apply elem_of_app. right. left. }
    apply selected_elem in Hs as [Hs _]. by apply final_elem.
  - rewrite <- (take_drop (Z.to_nat limit) (selected uuid_ltb f cursor rows)) at 1. f_equal.
    by apply selected_rest.
Qed.
End Cursors.

(** ** Witnesses: an index of three rows, two of one millisecond, one indexed
    twice. *)
Abbreviation toy_ltb := (code_ltb (A := Uuid)).
Definition toy_row (i at_ : Z) (pb : option PbLocation) : Row :=
  mkRow (replicate 16 i) "live" "" (at_ * 1000000) None ["a"] None 1 (mkLocation "p" i 1 1) pb.
Definition toy_rows : list Row := [toy_row 1 5 None; toy_row 2 5 None; toy_row 3 4 None; toy_row 1 5 (Some (mkPb 9 1 1))].
Definition toy_text (u : Uuid) : string := pretty (default 0 (head u)).
Definition toy_text_parse (s : string) : option Uuid := replicate 16 <$> parse_i64 s.
Example toy_page :
  option_map (fun p => (map id p.1, c_record_id <$> p.2))
    (result_ok (page toy_ltb no_filter None 2 (Some toy_rows)))
  = Some ([replicate 16 2; replicate 16 1], Some (replicate 16 1)).
Proof. vm_compute. reflexivity. Qed.
Lemma toy_one_source : one_source toy_rows.
Proof.
  assert (H : forall a, a ∈ toy_rows -> row_source a = "live"); [|intros a b Ha Hb _; by rewrite (H a Ha), (H b Hb)].
  intros a Ha. unfold toy_rows in Ha. rewrite !elem_of_cons in Ha.
  destruct Ha as [->|[->|[->|[->|Ha]]]]; [reflexivity..|]. by apply not_elem_of_nil in Ha.
Qed.
Definition toy_read (l : PackLocation) : result string (list Z) := Ok [offset l].
Definition toy_world : World := mkWorld {[ [7] := mkJob Queued 0 None None ]} ∅.
Lemma export_holds_every_match_witness :
  exists rows entries,
    covers toy_ltb no_filter None [mkPage (Some toy_rows) Done (fun _ => true)] rows /\
    mapM (append_entry toy_text toy_read (fun _ => "") TarGz) rows = Ok entries /\
    download_file toy_text [7] (run_export toy_text toy_ltb toy_read (fun _ => "") [7] TarGz no_filter
      Done true true [mkPage (Some toy_rows) Done (fun _ => true)] Done toy_world) = Ok (mkFile entries true) /\
    record_count (mkJob Completed 3 (Some "exports/7.tar.gz") None) = as_i64 (zlen entries).
Proof.
  apply (export_holds_every_match toy_ltb toy_text toy_read (fun _ => "") [7] TarGz no_filter
    Done true true [mkPage (Some toy_rows) Done (fun _ => true)] Done toy_world (mkJob Queued 0 None None)).
  - reflexivity.
  - intros fate index ->%list_elem_of_singleton [= <-]. exact toy_one_source.
  - reflexivity.
  - reflexivity.
  - reflexivity.
  - vm_compute. reflexivity.
  - reflexivity.
Defined.
Lemma export_finishes_witness :
  exists w' written, write_export toy_text toy_ltb toy_read (fun _ => "") [7] TarGz no_filter true
    [mkPage (Some toy_rows) Done (fun _ => true)] None [] toy_world = (w', written, Some (Ok (zlen written))).
Proof.
  apply (export_finishes toy_ltb toy_text toy_read (fun _ => "") [7] TarGz no_filter true
    toy_rows).
  - exact toy_one_source.
  - intros r _ _. eexists. reflexivity.
  - repeat constructor.
  - done.
  - done.
  - vm_compute. congruence.
Defined.
Lemma next_page_continues_witness :
  exists out c, page toy_ltb no_filter None 2 (Some toy_rows) = Ok (out, Some c) /\
    cursor_from_str (fun _ => true) toy_text_parse (cursor_to_string toy_text c) = Ok c /\
    selected toy_ltb no_filter None toy_rows = out ++ selected toy_ltb no_filter (Some c) toy_rows.
Proof.
  assert (E : exists out c, page toy_ltb no_filter None 2 (Some toy_rows) = Ok (out, Some c)).
  { eexists _, _. vm_compute. reflexivity. }
  destruct E as (out & c & E). exists out, c. split; [exact E|].
  refine (proj2 (next_page_continues (fun _ => true) toy_text toy_text_parse toy_ltb no_filter None 2 toy_rows out c
    _ toy_one_source _ E)).
  - intros r Hr. unfold toy_rows in Hr. rewrite !elem_of_cons in Hr.
    destruct Hr as [->|[->|[->|[->|Hr]]]]; [split_and!; try reflexivity; vm_compute; split; congruence..|].
    by apply not_elem_of_nil in Hr.
  - vm_compute. split; reflexivity.
Defined.

(** A search that names no start asks anew, at every page, for the ninety days
    before that moment: a record that was inside the window when the first page
    was read and not when the next one is never reaches the client. *)
Example the_window_slides_between_pages :
  let old := toy_row 3 0 None in let young := toy_row 1 5 None in
  let now := MAX_QUERY_WINDOW_DAYS * DAY in
  let first := search (fun _ => true) toy_ltb now no_filter None 1 (Some [old; young]) in
  (matches no_filter old,
   option_map (fun p => (map id p.1, option_map (fun c =>
     search (fun _ => true) toy_ltb (now + 1000000) no_filter (Some c) 1 (Some [old; young])) p.2)) (result_ok first))
  = (true, Some ([id young], Some (Ok ([], None)))).
Proof. vm_compute. reflexivity. Qed.
