(* ===== verification/Objects.v ===== *)
(** The S3 client: [src/src/objects.rs]. Requests are built and signed as values;
    what the store answers is an argument of every operation. *)
From S2P Require Import Prelude Text Pack.
#[local] Open Scope string_scope.
#[local] Open Scope list_scope.
#[local] Open Scope Z_scope.

Module Objects.

Definition EMPTY_PAYLOAD_SHA256 : string :=
  "e3b0c44298fc1c149afbf4c8996fb92427ae41e4649b934ca495991b7852b855".
Definition LIST_PAGE_SIZE : string := "1000".

(** The client, less its connection pools and its upload semaphore. *)
Record Objects := mkObjects {
  endpoint : string; host : string; bucket : string; region : string;
  access_key : string; secret_key : string
}.
Record ObjectEntry := mkEntry { entry_key : string; entry_size : Z; last_modified : Z }.
Inductive ObjectError :=
| Transport
| Server (status : Z) (body : string)
| Malformed (message : string).

(** What goes on the wire, and what comes back: [Host] is derived from the URL
    by the HTTP client. A body that breaks off is [None]. *)
Record Request := mkRequest {
  method : string; url : string; headers : list (string * string); payload : list Z
}.
Record Response := mkResponse {
  status : Z; content_range : option string; content_length : option string;
  body : option (list Z)
}.

(** ** Percent encoding *)
Definition hex_digit (n : Z) : Ascii.ascii :=
  ascii_of_byte (if n <? 10 then 48 + n else 55 + n).
Definition unreserved (b : Z) : bool :=
  between 65 b 90 || between 97 b 122 || between 48 b 57
  || (b =? 45) || (b =? 95) || (b =? 46) || (b =? 126).
Definition percent (a : Ascii.ascii) : string :=
  let b := byte_of_ascii a in
  String "%"%char (String (hex_digit (b / 16)) (String (hex_digit (b mod 16)) EmptyString)).
Fixpoint uri_encode (input : string) (encode_slash : bool) : string :=
  match input with
  | EmptyString => EmptyString
  | String a input =>
    if unreserved (byte_of_ascii a) then String a (uri_encode input encode_slash)
    else if Ascii.eqb a "/"%char && negb encode_slash then String a (uri_encode input encode_slash)
    else percent a +:+ uri_encode input encode_slash
  end.

(** The order of pairs of strings: [(String, String)]'s [Ord]. *)
Definition pair_leb (p q : string * string) : bool :=
  match String.compare (fst p) (fst q) with
  | Lt => true
  | Eq => String.leb (snd p) (snd q)
  | Gt => false
  end.
Definition query_piece (p : string * string) : string := fst p +:+ "=" +:+ snd p.
Definition canonical_query (params : list (string * string)) : string :=
  let encoded := map (fun p => (uri_encode (fst p) true, uri_encode (snd p) true)) params in
  String.concat "&" (map query_piece (sort_by pair_leb encoded)).

(** ** Signing *)
Definition newline : string := String "010"%char EmptyString.
Definition canonical_request (method path query : string) (headers : list (string * string))
  (payload_hash : string) : string * string :=
  let headers := map (fun p => (fst p, String.concat " " (split_whitespace (snd p)))) headers in
  let headers := sort_by (fun l r => String.leb (fst l) (fst r)) headers in
  let canonical_headers :=
    String.concat "" (map (fun p => fst p +:+ ":" +:+ snd p +:+ newline) headers) in
  let signed_headers := String.concat ";" (map fst headers) in
  (method +:+ newline +:+ uri_encode path false +:+ newline +:+ query +:+ newline
   +:+ canonical_headers +:+ newline +:+ signed_headers +:+ newline +:+ payload_hash,
   signed_headers).

Section Client.
(** SHA-256 in hexadecimal, HMAC-SHA256, and [hex::encode]; the display of a
    status and the debug form of a string, which error messages quote. *)
Variable sha256_hex : list Z -> string.
Variable hmac : list Z -> string -> list Z.
Variable hex_encode : list Z -> string.
Variable show_status : Z -> string.
Variable show_debug : string -> string.
(** [DateTime::parse_from_rfc3339], as an instant. *)
Variable parse_from_rfc3339 : string -> option Z.
Context (self : Objects).

Definition signature (secret_key region timestamp canonical : string) : string :=
  let date := stake 8 timestamp in
  let string_to_sign :=
    "AWS4-HMAC-SHA256" +:+ newline +:+ timestamp +:+ newline
    +:+ date +:+ "/" +:+ region +:+ "/s3/aws4_request" +:+ newline
    +:+ sha256_hex (bytes_of_string canonical) in
  let key := hmac (bytes_of_string ("AWS4" +:+ secret_key)) date in
  let key := hmac key region in
  let key := hmac key "s3" in
  let key := hmac key "aws4_request" in
  hex_encode (hmac key string_to_sign).

Definition object_path (key : string) : string :=
  "/" +:+ bucket self +:+ "/" +:+ trim_start_matches "/"%char key.

(** [Objects::signed], with the body the caller adds. *)
Definition signed (timestamp method path query : string) (extra_headers : list (string * string))
  (payload_hash : string) (payload : list Z) : Request :=
  let headers := [("host", host self); ("x-amz-content-sha256", payload_hash);
                  ("x-amz-date", timestamp)] ++ extra_headers in
  let '(canonical, signed_headers) := canonical_request method path query headers payload_hash in
  let signature := signature (secret_key self) (region self) timestamp canonical in
  let encoded_path := uri_encode path false in
  let url := if String.eqb query "" then endpoint self +:+ encoded_path
             else endpoint self +:+ encoded_path +:+ "?" +:+ query in
  mkRequest method url
    (List.filter (fun h => negb (String.eqb (fst h) "host")) headers
     ++ [("authorization",
          "AWS4-HMAC-SHA256 Credential=" +:+ access_key self +:+ "/" +:+ stake 8 timestamp +:+ "/"
          +:+ region self +:+ "/s3/aws4_request, SignedHeaders=" +:+ signed_headers
          +:+ ", Signature=" +:+ signature)])
    payload.

(** [Response::text] of a body: a body that broke off reads as an error. *)
Definition text (r : Response) : option string := from_utf8_lossy <$> body r.
(** [Objects::success]. *)
Definition success (r : Response) : result ObjectError Response :=
  if between 200 (status r) 299 then Ok r
  else Err (Server (status r) (trim (default "" (text r)))).
Definition answered_by (r : option Response) : result ObjectError Response :=
  match r with Some r => Ok r | None => Err Transport end.

Definition show_range (offset last : Z) : string := pretty offset +:+ "-" +:+ pretty last.

Definition put_request (timestamp key : string) (bytes : list Z) : Request :=
  signed timestamp "PUT" (object_path key) "" [] (sha256_hex bytes) bytes.
Definition put (send : Request -> option Response) (timestamp key : string) (bytes : list Z)
  : result ObjectError unit :=
  response ← answered_by (send (put_request timestamp key bytes));
  response ← success response; Ok tt.

(** The last byte of a range: [offset + length - 1] of a release build. *)
Definition range_last (offset length : Z) : Z := as_u64 (offset + length - 1).
Definition get_range_request (timestamp key : string) (offset length : Z) : Request :=
  signed timestamp "GET" (object_path key) ""
    [("range", "bytes=" +:+ show_range offset (range_last offset length))] EMPTY_PAYLOAD_SHA256 [].
Definition get_range (send : Request -> option Response) (timestamp key : string) (offset length : Z)
  : result ObjectError (list Z) :=
  if length =? 0 then Ok []
  else
    let last := range_last offset length in
    response ← answered_by (send (get_range_request timestamp key offset length));
    response ← success response;
    if negb (status response =? 206) then
      Err (Malformed ("range request for " +:+ key +:+ " answered with HTTP "
                      +:+ show_status (status response) +:+ " instead of 206"))
    else
      let expected := "bytes " +:+ show_range offset last +:+ "/" in
      let content_range := default "" (content_range response) in
      if negb (String.prefix expected content_range) then
        Err (Malformed ("range request for " +:+ key +:+ " wanted " +:+ expected +:+ "* but got "
                        +:+ show_debug content_range))
      else
        match body response with
        | None => Err Transport
        | Some bytes =>
          if negb (zlen bytes =? length) then
            Err (Malformed ("range request for " +:+ key +:+ " wanted " +:+ pretty length
                            +:+ " bytes but got " +:+ pretty (zlen bytes)))
          else Ok bytes
        end.

Definition head_request (timestamp key : string) : Request :=
  signed timestamp "HEAD" (object_path key) "" [] EMPTY_PAYLOAD_SHA256 [].
Definition head (send : Request -> option Response) (timestamp key : string)
  : result ObjectError (option Z) :=
  response ← answered_by (send (head_request timestamp key));
  if status response =? 404 then Ok None
  else
    response ← success response;
    match content_length response ≫= parse_u64 with
    | Some n => Ok (Some n)
    | None => Err (Malformed ("HEAD " +:+ key +:+ " answered without a Content-Length"))
    end.

Definition delete_request (timestamp key : string) : Request :=
  signed timestamp "DELETE" (object_path key) "" [] EMPTY_PAYLOAD_SHA256 [].
Definition delete (send : Request -> option Response) (timestamp key : string)
  : result ObjectError unit :=
  response ← answered_by (send (delete_request timestamp key));
  response ← success response; Ok tt.

(** ** Listing *)
Definition element (xml tag : string) : option string :=
  i ← find ("<" +:+ tag +:+ ">") xml;
  let rest := sdrop (i + String.length tag + 2) xml in
  j ← find ("</" +:+ tag +:+ ">") rest;
  Some (stake j rest).

Definition ENTITIES : list (string * string) :=
  [("&amp;", "&"); ("&lt;", "<"); ("&gt;", ">");
   ("&quot;", String "034"%char EmptyString); ("&apos;", "'")].
(** The loop of [unescape]; every turn consumes an entity. *)
Fixpoint unescape_fuel (fuel : nat) (whole rest : string) : result ObjectError string :=
  match fuel, find "&" rest with
  | S fuel, Some index =>
    let tail := sdrop index rest in
    match List.find (fun e => String.prefix (fst e) tail) ENTITIES with
    | None => Err (Malformed ("unsupported XML entity in listing text " +:+ show_debug whole))
    | Some (entity, replacement) =>
      out ← unescape_fuel fuel whole (sdrop (String.length entity) tail);
      Ok (stake index rest +:+ replacement +:+ out)
    end
  | _, _ => Ok rest
  end.
Definition unescape (text : string) : result ObjectError string :=
  unescape_fuel (String.length text) text text.

Definition ok_or {A} (message : string) (o : option A) : result ObjectError A :=
  match o with Some a => Ok a | None => Err (Malformed message) end.
(** One [<Contents>] block. *)
Definition parse_entry (block : string) : result ObjectError ObjectEntry :=
  let block := default "" (hd_error (split_str "</Contents>" block)) in
  text ← ok_or "listing entry without a <Key>" (element block "Key");
  key ← unescape text;
  size ← ok_or ("listing entry " +:+ key +:+ " without a <Size>")
           (size ← element block "Size"; parse_u64 (trim size));
  stamp ← ok_or ("listing entry " +:+ key +:+ " without a <LastModified>")
            (stamp ← element block "LastModified"; parse_from_rfc3339 (trim stamp));
  Ok (mkEntry key size stamp).
Fixpoint parse_entries (blocks : list string) : result ObjectError (list ObjectEntry) :=
  match blocks with
  | [] => Ok []
  | block :: blocks =>
    entry ← parse_entry block; entries ← parse_entries blocks; Ok (entry :: entries)
  end.
Definition parse_list_page (xml : string) : result ObjectError (list ObjectEntry * option string) :=
  entries ← parse_entries (tail (split_str "<Contents>" xml));
  let truncated := match element xml "IsTruncated" with
                   | Some flag => String.eqb (to_ascii_lowercase (trim flag)) "true"
                   | None => false
                   end in
  if negb truncated then Ok (entries, None)
  else
    next ← ok_or "truncated listing without a <NextContinuationToken>"
             (element xml "NextContinuationToken");
    next ← unescape next;
    Ok (entries, Some next).

Definition list_request (timestamp prefix : string) (token : option string) : Request :=
  let params := [("list-type", "2"); ("max-keys", LIST_PAGE_SIZE); ("prefix", prefix)] ++
                match token with Some t => [("continuation-token", t)] | None => [] end in
  signed timestamp "GET" ("/" +:+ bucket self) (canonical_query params) [] EMPTY_PAYLOAD_SHA256 [].
(** One request of [Objects::list]. *)
Definition list_page (send : Request -> option Response) (timestamp prefix : string)
  (token : option string) : result ObjectError (list ObjectEntry * option string) :=
  response ← answered_by (send (list_request timestamp prefix token));
  response ← success response;
  match text response with
  | None => Err Transport
  | Some xml => parse_list_page xml
  end.
(** The loop of [Objects::list] over [clock], the times of its requests. It has
    no bound of its own: [None] when the fuel runs out. *)
Fixpoint list_loop (send : Request -> option Response) (clock : nat -> string) (prefix : string)
  (fuel : nat) (token : option string) (entries : list ObjectEntry)
  : option (result ObjectError (list ObjectEntry)) :=
  match fuel with
  | O => None
  | S fuel =>
    match list_page send (clock fuel) prefix token with
    | Err e => Some (Err e)
    | Panic => Some Panic
    | Ok (page, next) =>
      let entries := entries ++ page in
      match next with
      | Some next =>
        if decide (Some next = token) then
          Some (Err (Malformed "listing repeated its continuation token without advancing"))
        else list_loop send clock prefix fuel (Some next) entries
      | None => Some (Ok entries)
      end
    end
  end.
Definition list_ (send : Request -> option Response) (clock : nat -> string) (prefix : string)
  (fuel : nat) : option (result ObjectError (list ObjectEntry)) :=
  list_loop send clock prefix fuel None [].
End Client.
End Objects.

Import Objects.

(** ** Golden cases: the canonical requests the S3 documentation publishes. *)
Example canonical_request_documented :
  canonical_request "GET" "/test.txt" ""
    [("host", "examplebucket.s3.amazonaws.com"); ("range", "bytes=0-9");
     ("x-amz-content-sha256", EMPTY_PAYLOAD_SHA256); ("x-amz-date", "20130524T000000Z")]
    EMPTY_PAYLOAD_SHA256
  = (String.concat newline ["GET"; "/test.txt"; ""; "host:examplebucket.s3.amazonaws.com";
       "range:bytes=0-9"; "x-amz-content-sha256:" +:+ EMPTY_PAYLOAD_SHA256;
       "x-amz-date:20130524T000000Z"; ""; "host;range;x-amz-content-sha256;x-amz-date";
       EMPTY_PAYLOAD_SHA256],
     "host;range;x-amz-content-sha256;x-amz-date").
Proof. vm_compute. reflexivity. Qed.
Example canonical_query_documented :
  canonical_query [("prefix", "packs/2026/"); ("list-type", "2");
    ("continuation-token", "1ueGcxLPRx1Tr/XYExHnhbYLgveDs2J/wm36Hy4vbOwM="); ("max-keys", "1000")]
  = "continuation-token=1ueGcxLPRx1Tr%2FXYExHnhbYLgveDs2J%2Fwm36Hy4vbOwM%3D&list-type=2&max-keys=1000&prefix=packs%2F2026%2F".
Proof. vm_compute. reflexivity. Qed.

(** ** Percent encoding is undone by percent decoding *)
Definition hex_value (a : Ascii.ascii) : option Z :=
  let b := byte_of_ascii a in
  if between 48 b 57 then Some (b - 48) else if between 65 b 70 then Some (b - 55) else None.
(** What a server does with a path or with a query value. *)
Fixpoint percent_decode (s : string) : option string :=
  match s with
  | EmptyString => Some EmptyString
  | String "%" (String h (String l s)) =>
    hi ← hex_value h; lo ← hex_value l; rest ← percent_decode s;
    Some (String (ascii_of_byte (hi * 16 + lo)) rest)
  | String "%" _ => None
  | String a s => String a <$> percent_decode s
  end.

Lemma percent_decode_char a s : a <> "%"%char ->
  percent_decode (String a s) = String a <$> percent_decode s.
Proof. intros H. destruct a as [[] [] [] [] [] [] [] []]; try reflexivity. by destruct H. Qed.
Lemma percent_halves a : let b := byte_of_ascii a in exists hi lo,
  hex_value (hex_digit (b / 16)) = Some hi /\ hex_value (hex_digit (b mod 16)) = Some lo /\
  ascii_of_byte (hi * 16 + lo) = a.
Proof.
  destruct a as [[] [] [] [] [] [] [] []]; cbv zeta; eexists _, _;
    (split; [vm_compute; reflexivity|split; [vm_compute; reflexivity|vm_compute; reflexivity]]).
Qed.
Lemma percent_decode_escape a s :
  percent_decode (percent a +:+ s) = String a <$> percent_decode s.
Proof.
  pose proof (percent_halves a) as (hi & lo & Hi & Lo & E). unfold percent. cbv zeta.
  rewrite !append_cons. change (EmptyString +:+ s) with s. cbn [percent_decode]. rewrite Hi, Lo.
  cbn [mbind option_bind]. by rewrite E.
Qed.
Lemma uri_encode_roundtrip s slash : percent_decode (uri_encode s slash) = Some s.
Proof.
  induction s as [|a s IH]; [done|]. cbn [uri_encode].
  destruct (unreserved (byte_of_ascii a)) eqn:E;
    [|destruct (Ascii.eqb a "/" && negb slash) eqn:E'].
  - rewrite percent_decode_char, IH; [done|]. by intros ->.
  - apply andb_true_iff in E' as [->%Ascii.eqb_eq _]. by rewrite percent_decode_char, IH.
  - by rewrite percent_decode_escape, IH.
Qed.
(** What is neither unreserved nor a percent sign does not survive in a query. *)
Lemma uri_encode_contains c s :
  unreserved (byte_of_ascii c) = false -> c <> "%"%char -> contains c (uri_encode s true) = false.
Proof.
  intros Hc Hp. assert (Hd : forall n, 0 <= n < 16 -> hex_digit n <> c).
  { intros n Hn <-. revert Hc. destruct n as [|p|p]; [done| |lia].
    do 4 (destruct p as [p|p|]; try done); lia. }
  induction s as [|a s IH]; [done|]. cbn [uri_encode]. rewrite andb_false_r.
  destruct (unreserved (byte_of_ascii a)) eqn:E.
  - cbn [contains]. rewrite IH, orb_false_r. apply Ascii.eqb_neq. intros ->. congruence.
  - rewrite contains_append, IH, orb_false_r. pose proof (byte_of_ascii_range a).
    pose proof (Z.div_mod (byte_of_ascii a) 16 ltac:(lia)).
    pose proof (Z.mod_pos_bound (byte_of_ascii a) 16 ltac:(lia)).
    unfold percent. cbn [contains]. rewrite orb_false_r.
    rewrite !(proj2 (Ascii.eqb_neq _ _)); try (apply Hd; lia); done.
Qed.

(** ** The query *)
Lemma compare_eq s t : String.compare s t = Eq <-> s = t.
Proof.
  split; [apply String.compare_eq_iff|]. intros ->. pose proof (String.compare_antisym t t).
  by destruct (String.compare t t).
Qed.
Lemma pair_leb_spec p q : pair_leb p q = true <->
  (fst p <> fst q /\ String.leb (fst p) (fst q) = true) \/
  (fst p = fst q /\ String.leb (snd p) (snd q) = true).
Proof.
  unfold pair_leb, String.leb at 2. destruct (String.compare (fst p) (fst q)) eqn:E.
  - apply compare_eq in E. split; [by right|]. by intros [[]|[_ ?]].
  - split; [|done]. left. split; [|done]. intros E2%compare_eq. congruence.
  - split; [done|]. intros [[_ ?]|[H'%compare_eq _]]; congruence.
Qed.
#[local] Instance pair_leb_antisym : AntiSymm (=) (fun p q => pair_leb p q = true).
Proof.
  intros [a b] [c d] [[H1 L1]|[H1 L1]]%pair_leb_spec [[H2 L2]|[H2 L2]]%pair_leb_spec;
    cbn [fst snd] in *; subst; try done.
  - destruct H1. by apply String.leb_antisym.
  - f_equal. by apply String.leb_antisym.
Qed.
Lemma pair_leb_total p q : pair_leb p q = true \/ pair_leb q p = true.
Proof.
  rewrite !pair_leb_spec. destruct (decide (fst p = fst q)) as [E|E].
  - destruct (String.leb_total (snd p) (snd q)); [left|right]; by right.
  - destruct (String.leb_total (fst p) (fst q)); [left|right]; left; by split.
Qed.
Lemma pair_leb_trans p q r : pair_leb p q = true -> pair_leb q r = true -> pair_leb p r = true.
Proof.
  rewrite !pair_leb_spec. intros [[N1 L1]|[E1 L1]] [[N2 L2]|[E2 L2]].
  - left. split; [|by eapply leb_trans_s]. intros E. rewrite E in L1. destruct N2.
    by apply String.leb_antisym.
  - left. rewrite <- E2. done.
  - left. rewrite E1. done.
  - right. split; [congruence|by eapply leb_trans_s].
Qed.

(** How a server reads a query: pieces between ampersands, each a name and a
    value around the first equals sign, percent-decoded. *)
Definition decode_param (piece : string) : option (string * string) :=
  '(name, value) ← split_once "="%char piece;
  name ← percent_decode name; value ← percent_decode value; Some (name, value).
Definition decode_query (query : string) : list (option (string * string)) :=
  map decode_param (split_on "&"%char query).

Abbreviation encode_param := (fun p => (uri_encode (fst p) true, uri_encode (snd p) true)).
Lemma decode_encode_param p : decode_param (query_piece (encode_param p)) = Some p.
Proof.
  unfold decode_param, query_piece. cbn [fst snd].
  change (uri_encode p.1 true +:+ "=" +:+ uri_encode p.2 true)
    with (uri_encode p.1 true +:+ String "="%char (uri_encode p.2 true)).
  rewrite split_once_append by by apply uri_encode_contains. cbn.
  rewrite !uri_encode_roundtrip. by destruct p.
Qed.
Lemma query_piece_contains p : contains "&"%char (query_piece (encode_param p)) = false.
Proof.
  unfold query_piece. cbn [fst snd]. by rewrite !contains_append, !uri_encode_contains by done.
Qed.

(** The query string that is signed and sent carries exactly the caller's
    parameters, whatever bytes they hold, and does not depend on the order in
    which the caller lists them. *)
Theorem canonical_query_spec params :
  params <> [] ->
  decode_query (canonical_query params) ≡ₚ map Some params /\
  forall params', params' ≡ₚ params -> canonical_query params' = canonical_query params.
Proof.
  intros Hne. split.
  - unfold decode_query, canonical_query. cbv zeta.
    assert (exists qs, qs ≡ₚ params /\
        sort_by pair_leb (map encode_param params) = map encode_param qs) as (qs & Hq & ->).
    { pose proof (sort_by_perm pair_leb (map encode_param params)) as Hp.
      destruct (Permutation_map_inv _ _ Hp) as (qs & Heq & Hq). by exists qs. }
    rewrite map_map, split_on_concat.
    + rewrite map_map, (map_ext _ Some) by apply decode_encode_param. by rewrite Hq.
    + intros E%map_eq_nil. subst. by apply Permutation_nil in Hq.
    + apply Forall_map, Forall_true. intros p. apply query_piece_contains.
  - intros params' Hp. unfold canonical_query. cbv zeta. do 2 f_equal.
    apply (StronglySorted_unique (fun p q => pair_leb p q = true)).
    + apply sort_by_sorted; [apply pair_leb_total|apply pair_leb_trans].
    + apply sort_by_sorted; [apply pair_leb_total|apply pair_leb_trans].
    + rewrite !sort_by_perm. by apply Permutation_map.
Qed.
Lemma canonical_query_spec_witness :
  [("prefix", "packs/&"); ("list-type", "2")] <> [] /\
  decode_query (canonical_query [("prefix", "packs/&"); ("list-type", "2")])
    ≡ₚ [Some ("prefix", "packs/&"); Some ("list-type", "2")] /\
  canonical_query [("list-type", "2"); ("prefix", "packs/&")] = "list-type=2&prefix=packs%2F%26".
Proof.
  destruct (canonical_query_spec [("prefix", "packs/&"); ("list-type", "2")]) as [H1 H2]; [done|].
  split; [done|]. split; [exact H1|]. rewrite H2; [vm_compute; reflexivity|]. apply Permutation_swap.
Defined.

(** ** Documents

    A listing page as a store prints it: tags and the text between them. *)
Inductive token := Tag (name : string) | Txt (s : string).
Definition print_token (t : token) : string :=
  match t with Tag name => "<" +:+ name +:+ ">" | Txt s => s end.
Fixpoint print (ts : list token) : string :=
  match ts with [] => "" | t :: ts => print_token t +:+ print ts end.
Definition token_ok (t : token) : Prop :=
  match t with
  | Tag name => contains "<"%char name = false /\ contains ">"%char name = false
  | Txt s => contains "<"%char s = false
  end.
Lemma print_app ts ts' : print (ts ++ ts') = print ts +:+ print ts'.
Proof. induction ts as [|t ts IH]; [done|]. simpl. by rewrite IH, append_assoc_s. Qed.

Lemma prefix_same p s t : String.prefix (p +:+ s) (p +:+ t) = String.prefix s t.
Proof.
  induction p as [|a p IH]; [done|]. rewrite !append_cons. simpl.
  by destruct (Ascii.ascii_dec a a).
Qed.
(** A tag is found at itself and nowhere inside another token. *)
Lemma find_token name t s : token_ok (Tag name) -> token_ok t -> t <> Tag name ->
  find (print_token (Tag name)) (print_token t +:+ s)
  = Nat.add (String.length (print_token t)) <$> find (print_token (Tag name)) s.
Proof.
  intros [N1 N2] Ht Hne. destruct t as [m|u]; [|by apply find_skip]. destruct Ht as [M1 M2].
  cbn [print_token]. change ("<" +:+ ?x) with (String "<"%char x). rewrite append_cons.
  cbn [find String.length].
  assert (Hp : String.prefix (String "<"%char (name +:+ ">")) (String "<"%char ((m +:+ ">") +:+ s)) = false).
  { apply not_true_is_false. intros [v Hv]%prefix_true. rewrite append_cons in Hv. injection Hv as Hv.
    rewrite !append_assoc_s in Hv.
    change (">" +:+ s) with (String ">"%char s) in Hv. change (">" +:+ v) with (String ">"%char v) in Hv.
    pose proof (split_once_append _ _ s M2) as E1. pose proof (split_once_append _ _ v N2) as E2.
    rewrite Hv in E1. congruence. }
  rewrite Hp, find_skip by (by rewrite contains_append, M1). by destruct (find _ s).
Qed.
Lemma find_tag name ts s : token_ok (Tag name) -> Forall token_ok ts -> (Tag name ∉ ts) ->
  find (print_token (Tag name)) (print ts +:+ s)
  = Nat.add (String.length (print ts)) <$> find (print_token (Tag name)) s.
Proof.
  intros Hn. induction 1 as [|t ts Ht Hts IH]; cbn [print]; intros Hin.
  - change ("" +:+ s) with s. by destruct (find _ s).
  - rewrite append_assoc_s, find_token by (done || (intros ->; apply Hin; left)).
    rewrite IH by (intros ?; apply Hin; by right). rewrite length_append.
    destruct (find _ s); simpl; [|done]. f_equal. lia.
Qed.

(** The first element of that name in a document has the text [s]. *)
Definition has (name s : string) (ts : list token) : Prop :=
  exists a b, ts = a ++ [Tag name; Txt s; Tag ("/" +:+ name)] ++ b /\ (Tag name ∉ a).

Lemma element_has name s ts rest :
  Forall token_ok ts -> has name s ts -> element (print ts +:+ rest) name = Some s.
Proof.
  intros Hok (a & b & -> & Ha). apply Forall_app in Hok as [Ha_ok Hok].
  inversion Hok as [|? ? Hn Hok']; subst. inversion Hok' as [|? ? Hs Hok'']; subst.
  inversion Hok'' as [|? ? Hc Hb]; subst.
  unfold element. rewrite print_app, append_assoc_s.
  change ("<" +:+ name +:+ ">") with (print_token (Tag name)).
  rewrite find_tag by done. cbn [app print]. rewrite append_assoc_s, find_here.
  cbn [fmap option_fmap option_map mbind option_bind].
  rewrite <- append_assoc_s, sdrop_append; cycle 1.
  { rewrite length_append. cbn [print_token]. rewrite !length_append. simpl. lia. }
  change ("</" +:+ name +:+ ">") with (print_token (Tag ("/" +:+ name))).
  cbn [print_token]. rewrite append_assoc_s.
  change ("<" +:+ ?x) with (String "<"%char x). rewrite find_skip by done.
  rewrite append_assoc_s, find_here. cbn [fmap option_fmap option_map].
  cbn [mbind option_bind]. by rewrite stake_append by lia.
Qed.
Lemma element_none name ts :
  token_ok (Tag name) -> Forall token_ok ts -> (Tag name ∉ ts) -> element (print ts) name = None.
Proof.
  intros Hn Hts Hin. unfold element. change ("<" +:+ name +:+ ">") with (print_token (Tag name)).
  by rewrite <- (append_nil_r (print ts)), find_tag.
Qed.

(** Splitting at the opening tags of a sequence of blocks. *)
Lemma split_str_tag name ts rest :
  token_ok (Tag name) -> Forall token_ok ts -> (Tag name ∉ ts) ->
  split_str (print_token (Tag name)) (print ts +:+ print_token (Tag name) +:+ rest)
  = print ts :: split_str (print_token (Tag name)) rest.
Proof.
  intros Hn Hts Hin. erewrite split_str_step; [|done|by rewrite find_tag, find_here].
  rewrite stake_append by (simpl; lia). f_equal. f_equal.
  rewrite <- append_assoc_s, sdrop_append; [done|]. rewrite length_append. simpl. lia.
Qed.
Lemma split_str_blocks name pre blocks :
  token_ok (Tag name) -> Forall token_ok pre -> (Tag name ∉ pre) ->
  Forall (fun ts => Forall token_ok ts /\ (Tag name ∉ ts)) blocks ->
  split_str (print_token (Tag name)) (print (pre ++ flat_map (cons (Tag name)) blocks))
  = print pre :: map print blocks.
Proof.
  intros Hn. revert pre. induction blocks as [|ts blocks IH]; intros pre Hpre Hin Hb.
  - cbn [flat_map map]. rewrite app_nil_r. apply split_str_none.
    by rewrite <- (append_nil_r (print pre)), find_tag.
  - apply Forall_cons in Hb as [[Hts Htn] Hb]. cbn [flat_map map]. rewrite print_app.
    cbn [app print]. rewrite split_str_tag by done. f_equal. by apply IH.
Qed.

(** ** Entities *)
(** How an XML printer writes text. *)
Definition escape_char (a : Ascii.ascii) : string :=
  match List.find (fun e => String.eqb (snd e) (String a EmptyString)) ENTITIES with
  | Some (entity, _) => entity
  | None => String a EmptyString
  end.
Fixpoint escape (s : string) : string :=
  match s with EmptyString => EmptyString | String a s => escape_char a +:+ escape s end.

Section Facts.
Context (sha256_hex : list Z -> string) (hmac : list Z -> string -> list Z)
  (hex_encode : list Z -> string) (show_status : Z -> string) (show_debug : string -> string)
  (parse_from_rfc3339 : string -> option Z) (self : Objects).
Abbreviation unescape_fuel := (unescape_fuel show_debug).
Abbreviation unescape := (unescape show_debug).
Abbreviation parse_list_page := (parse_list_page show_debug parse_from_rfc3339).
Abbreviation list_request := (list_request sha256_hex hmac hex_encode self).
Abbreviation list_page := (list_page sha256_hex hmac hex_encode show_debug parse_from_rfc3339 self).
Abbreviation list_loop := (list_loop sha256_hex hmac hex_encode show_debug parse_from_rfc3339 self).
Abbreviation list_ := (list_ sha256_hex hmac hex_encode show_debug parse_from_rfc3339 self).
Abbreviation get_range_request := (get_range_request sha256_hex hmac hex_encode self).
Abbreviation get_range := (get_range sha256_hex hmac hex_encode show_status show_debug self).

Lemma escape_char_ok a : contains "<"%char (escape_char a) = false.
Proof. destruct a as [[] [] [] [] [] [] [] []]; vm_compute; reflexivity. Qed.
Lemma escape_ok s : token_ok (Txt (escape s)).
Proof.
  cbn [token_ok]. induction s as [|a s IH]; [done|]. cbn [escape].
  by rewrite contains_append, escape_char_ok, IH.
Qed.
Lemma unescape_char f w a s : a <> "&"%char ->
  unescape_fuel (S f) w (String a s) = String a <$> unescape_fuel (S f) w s.
Proof.
  intros Ha. cbn [Objects.unescape_fuel find String.prefix].
  destruct (Ascii.ascii_dec "&" a) as [<-|_]; [done|].
  destruct (find "&" s) as [i|]; [|done]. cbn [fmap option_fmap option_map sdrop stake].
  destruct (List.find _ _) as [[entity by_]|]; [|done].
  by destruct (unescape_fuel f w _).
Qed.
Lemma unescape_entity f w entity c s : (entity, String c EmptyString) ∈ ENTITIES ->
  unescape_fuel (S f) w (entity +:+ s) = String c <$> unescape_fuel f w s.
Proof.
  intros H. cbn [Objects.unescape_fuel].
  assert (Hf : find "&" (entity +:+ s) = Some O /\
    List.find (fun e => String.prefix (fst e) (entity +:+ s)) ENTITIES
    = Some (entity, String c EmptyString)).
  { unfold ENTITIES in H |- *. repeat (apply elem_of_cons in H as [[= -> ->]|H]; [by destruct s|]).
    by apply elem_of_nil in H. }
  destruct Hf as [-> Hl]. cbn [sdrop stake]. rewrite Hl. rewrite sdrop_append by done.
  by destruct (unescape_fuel f w s).
Qed.
Lemma unescape_escape s : unescape (escape s) = Ok s.
Proof.
  unfold Objects.unescape. generalize (escape s) at 2 as w. intros w.
  assert (Hle : (String.length (escape s) <= String.length (escape s))%nat) by done.
  revert Hle. generalize (String.length (escape s)) at 2 3 as f. induction s as [|a s IH]; intros f Hf.
  - by destruct f.
  - cbn [escape] in *. unfold escape_char in *. rewrite length_append in Hf.
    destruct (List.find _ ENTITIES) as [[entity c]|] eqn:E.
    + apply List.find_some in E as [Hin Heq%String.eqb_eq]. cbn [snd] in Heq. subst c.
      destruct f as [|f].
      { exfalso. unfold ENTITIES in Hin. simpl in Hin.
        destruct Hin as [[= <- _]|[[= <- _]|[[= <- _]|[[= <- _]|[[= <- _]|[]]]]]]; simpl in Hf; lia. }
      rewrite (unescape_entity f w entity a) by by apply list_elem_of_In.
      rewrite IH; [done|].
      assert (entity <> "") by (intros ->; simpl in Hin; intuition discriminate).
      destruct entity; [done|]. simpl in Hf. lia.
    + destruct f as [|f]; [simpl in Hf; lia|]. rewrite append_cons.
      change (EmptyString +:+ ?x) with x. rewrite unescape_char.
      * rewrite IH; [done|]. simpl in Hf. lia.
      * intros ->. by apply List.find_none with (x := ("&amp;", "&")) in E; [|left].
Qed.

(** ** Listing pages *)
(** What a block says of an entry: its fields in any order, among others. *)
Definition block_of (e : ObjectEntry) (ts : list token) : Prop :=
  exists fields rest stamp,
    ts = fields ++ [Tag "/Contents"] ++ rest /\ (Tag "/Contents" ∉ fields) /\
    has "Key" (escape (entry_key e)) fields /\
    has "Size" (pretty (entry_size e)) fields /\ in_u64 (entry_size e) /\
    has "LastModified" stamp fields /\ plain stamp = true /\
    parse_from_rfc3339 stamp = Some (last_modified e).
(** A page that lists [es] and names [next] as the token that continues it. *)
Definition page_of (es : list ObjectEntry) (next : option string) (ts : list token) : Prop :=
  exists pre blocks, ts = pre ++ flat_map (cons (Tag "Contents")) blocks /\
    Forall token_ok ts /\ (Tag "Contents" ∉ pre) /\
    Forall (fun block => Tag "Contents" ∉ block) blocks /\ Forall2 block_of es blocks /\
    match next with
    | Some t => has "IsTruncated" "true" ts /\ has "NextContinuationToken" (escape t) ts
    | None => has "IsTruncated" "false" ts
    end.

Lemma parse_entry_block e ts : Forall token_ok ts -> block_of e ts ->
  parse_entry show_debug parse_from_rfc3339 (print ts) = Ok e.
Proof.
  intros Hok (fields & rest & stamp & -> & Hc & Hk & Hs & Hsz & Hl & Hp & Hr).
  apply Forall_app in Hok as [Hf _].
  assert (Hb : default "" (hd_error (split_str "</Contents>"
      (print (fields ++ [Tag "/Contents"] ++ rest)))) = print fields).
  { rewrite print_app. cbn [app print]. change "</Contents>" with (print_token (Tag "/Contents")).
    by rewrite split_str_tag. }
  unfold parse_entry. rewrite Hb. cbv zeta.
  pose proof (element_has _ _ _ "" Hf Hk) as Ek. pose proof (element_has _ _ _ "" Hf Hs) as Es.
  pose proof (element_has _ _ _ "" Hf Hl) as El. rewrite append_nil_r in Ek, Es, El.
  rewrite Ek. cbn [ok_or mbind result_bind]. rewrite unescape_escape. cbn [mbind result_bind].
  rewrite Es. cbn [mbind option_bind]. unfold in_u64 in Hsz.
  rewrite trim_plain by (apply pretty_plain; lia). unfold parse_u64.
  rewrite parse_int_pretty by lia. cbn [ok_or mbind result_bind].
  rewrite El. cbn [mbind option_bind]. rewrite trim_plain, Hr by done. by destruct e.
Qed.
Lemma parse_entries_blocks es blocks :
  Forall (Forall token_ok) blocks -> Forall2 block_of es blocks ->
  parse_entries show_debug parse_from_rfc3339 (map print blocks) = Ok es.
Proof.
  intros Hok. induction 1 as [|e ts es blocks He _ IH]; [done|].
  apply Forall_cons in Hok as [Hts Hok]. cbn [map parse_entries].
  rewrite (parse_entry_block e ts Hts He). cbn [mbind result_bind]. by rewrite IH.
Qed.
Lemma parse_list_page_complete es next ts :
  page_of es next ts -> parse_list_page (print ts) = Ok (es, next).
Proof.
  intros (pre & blocks & Hts & Hok & Hpre & Hb & He & Hn).
  assert (Hblocks : Forall (Forall token_ok) blocks).
  { rewrite Hts in Hok. apply Forall_app in Hok as [_ Hok]. clear -Hok.
    induction blocks as [|b blocks IH]; [constructor|]. cbn [flat_map] in Hok.
    apply Forall_app in Hok as [[_ Hb]%Forall_cons Hok]. constructor; auto. }
  unfold Objects.parse_list_page. rewrite Hts at 1.
  change "<Contents>" with (print_token (Tag "Contents")).
  rewrite split_str_blocks; [|done| |done|by apply Forall_and].
  2: { rewrite Hts in Hok. by apply Forall_app in Hok as [? _]. }
  cbn [tail]. rewrite (parse_entries_blocks es) by done. cbn [mbind result_bind].
  rewrite <- (append_nil_r (print ts)). destruct next as [t|].
  - destruct Hn as [Ht Hn]. rewrite (element_has _ _ _ "" Hok Ht), (element_has _ _ _ "" Hok Hn).
    change (negb (to_ascii_lowercase (trim "true") =? "true")%string) with false.
    cbn [ok_or mbind result_bind]. by rewrite unescape_escape.
  - rewrite (element_has _ _ _ "" Hok Hn). done.
Qed.

(** The store answers the request for [token] with a page of [es], whenever it
    is asked. *)
Definition answers (send : Request -> option Response) (prefix : string) (token : option string)
  (es : list ObjectEntry) (next : option string) : Prop :=
  forall timestamp, exists r ts, send (list_request timestamp prefix token) = Some r /\
    200 <= status r <= 299 /\ body r = Some (bytes_of_string (print ts)) /\
    utf8_valid (bytes_of_string (print ts)) = true /\ page_of es next ts.
(** A listing served in [n] pages from the page of [token] on. *)
Inductive listing (send : Request -> option Response) (prefix : string)
  : option string -> nat -> list ObjectEntry -> Prop :=
| listing_last token es : answers send prefix token es None -> listing send prefix token 1 es
| listing_more token es t n rest :
  answers send prefix token es (Some t) -> Some t <> token ->
  listing send prefix (Some t) n rest -> listing send prefix token (S n) (es ++ rest).

Lemma list_page_answers send clock prefix token es next :
  answers send prefix token es next -> list_page send clock prefix token = Ok (es, next).
Proof.
  intros H. destruct (H clock) as (r & ts & Hsend & Hs & Hb & Hu & Hp).
  unfold Objects.list_page. rewrite Hsend. cbn [answered_by mbind result_bind]. unfold success.
  rewrite (proj2 (between_spec _ _ _) Hs). cbn [mbind result_bind]. unfold text. rewrite Hb.
  cbn [fmap option_fmap option_map]. rewrite from_utf8_lossy_string by done.
  by apply parse_list_page_complete.
Qed.

(** A listing returns every object of the prefix, each once and with its
    size and time, however many pages the store cuts it into and whatever
    characters the keys hold; the requests it takes are as many as the pages. *)
Theorem list_returns_every_object send clock prefix n es :
  listing send prefix None n es ->
  forall fuel, (n <= fuel)%nat -> list_ send clock prefix fuel = Some (Ok es).
Proof.
  unfold Objects.list_. intros Hl.
  assert (H : forall fuel before, (n <= fuel)%nat ->
    list_loop send clock prefix fuel None before = Some (Ok (before ++ es))); [|intros; by apply H].
  induction Hl as [token es Ha|token es t n rest Ha Ht Hl IH]; intros fuel before Hf;
    (destruct fuel as [|fuel]; [lia|]); cbn [Objects.list_loop];
    rewrite (list_page_answers _ _ _ _ _ _ Ha); [done|].
  rewrite decide_False by done. rewrite IH by lia. by rewrite app_assoc.
Qed.

(** ** Ranged reads *)
(** A store that labels its partial answers as HTTP asks: a 206 for [url] whose
    [Content-Range] names bytes [o] to [l] carries exactly those bytes of the
    object, all of which exist. Nothing is assumed of other answers. *)
Definition honest_ranges (send : Request -> option Response) (at_url : string) (file : list Z) : Prop :=
  forall req r o l s d,
    send req = Some r -> url req = at_url -> status r = 206 -> content_range r = Some s ->
    String.prefix ("bytes " +:+ show_range o l +:+ "/") s = true -> body r = Some d -> 0 <= o ->
    l < zlen file /\ d = take (Z.to_nat (l - o + 1)) (drop (Z.to_nat o) file).
(** A store that honours the [Range] header of the client. *)
Definition serves_ranges (send : Request -> option Response) (key : string) (file : list Z) : Prop :=
  forall timestamp offset length, 0 <= offset -> 0 < length -> offset + length <= zlen file ->
    exists r, send (get_range_request timestamp key offset length) = Some r /\ status r = 206 /\
      content_range r
        = Some ("bytes " +:+ show_range offset (offset + length - 1) +:+ "/" +:+ pretty (zlen file)) /\
      body r = Some (take (Z.to_nat length) (drop (Z.to_nat offset) file)).

Lemma read_at_slice file offset n d :
  0 <= offset -> 0 < n -> zlen d = n -> forall last, last < zlen file ->
  d = take (Z.to_nat (last - offset + 1)) (drop (Z.to_nat offset) file) ->
  (last = offset + n - 1 \/ last < offset) -> Pack.read_at file offset n = Ok d.
Proof.
  intros Ho Hn Hlen last Hlast Hd [->|Hlt].
  - unfold Pack.read_at. destruct (Z.leb_spec (offset + n) (zlen file)); [|lia].
    rewrite Hd. do 3 f_equal. lia.
  - rewrite Hd in Hlen. replace (Z.to_nat (last - offset + 1)) with O in Hlen by lia.
    unfold zlen in Hlen. simpl in Hlen. lia.
Qed.

(** C28: a ranged read of the bucket hands out the bytes asked for or an error,
    never other bytes: it agrees with a read of the file itself under every
    answer of a store that labels its partial answers, including one that
    ignores the range and sends the whole object; and on a store that honours
    ranges it succeeds on every range inside the object. *)
Theorem get_range_refines_read_at send timestamp key file offset length :
  in_u64 offset -> 0 < length -> in_u64 length -> zlen file <= u64_max ->
  (honest_ranges send (url (get_range_request timestamp key offset length)) file ->
     match get_range send timestamp key offset length with
     | Ok d => Pack.read_at file offset length = Ok d
     | Err _ => True
     | Panic => False
     end) /\
  (serves_ranges send key file -> offset + length <= zlen file ->
     exists d, get_range send timestamp key offset length = Ok d /\
       Pack.read_at file offset length = Ok d).
Proof.
  unfold u64_max. intros Ho Hl Hlu Hf. unfold in_u64 in *. split.
  - intros Hon. unfold Objects.get_range.
    destruct (Z.eqb_spec length 0); [lia|]. cbv zeta.
    destruct (send _) as [resp|] eqn:Hsend; cbn [answered_by mbind result_bind]; [|done].
    unfold success. destruct (between 200 _ _); cbn [mbind result_bind]; [|done].
    destruct (Z.eqb_spec (status resp) 206) as [H206|]; cbn [negb]; [|done].
    destruct (String.prefix _ _) eqn:Hp; cbn [negb]; [|done].
    destruct (body resp) as [d|] eqn:Hb; [|done].
    destruct (Z.eqb_spec (zlen d) length) as [Hd|]; cbn [negb]; [|done].
    destruct (content_range resp) as [s|] eqn:Hs; [|done]. cbn [default from_option id] in Hp.
    destruct (Hon _ _ _ _ _ _ Hsend eq_refl H206 Hs Hp Hb ltac:(lia)) as [Hlast Hslice].
    apply (read_at_slice file offset length d) with (range_last offset length); try done; [lia|].
    unfold range_last, as_u64, as_unsigned in *.
    destruct (Z_lt_le_dec (offset + length - 1) (2 ^ 64)).
    + left. rewrite Z.mod_small; lia.
    + right. rewrite <- (Z_mod_plus_full (offset + length - 1) (-1) (2 ^ 64)), Z.mod_small; lia.
  - intros Hserve Hle. exists (take (Z.to_nat length) (drop (Z.to_nat offset) file)).
    unfold Pack.read_at. destruct (Z.leb_spec (offset + length) (zlen file)); [|lia]. split; [|done].
    destruct (Hserve timestamp offset length ltac:(lia) Hl Hle) as (r & Hsend & H206 & Hs & Hb).
    unfold Objects.get_range. destruct (Z.eqb_spec length 0); [lia|]. cbv zeta. rewrite Hsend.
    cbn [answered_by mbind result_bind]. unfold success. rewrite H206.
    change (between 200 206 299) with true. cbn [mbind result_bind]. rewrite H206, Hs, Hb.
    unfold range_last, as_u64, as_unsigned. rewrite Z.mod_small by lia.
    cbn [negb Z.eqb Pos.eqb default from_option id].
    rewrite <- !append_assoc_s. rewrite prefix_append. cbn [negb].
    assert (Hz : zlen (take (Z.to_nat length) (drop (Z.to_nat offset) file)) = length).
    { unfold zlen in *. rewrite length_take, length_drop. lia. }
    by rewrite Hz, Z.eqb_refl.
Qed.
End Facts.

(** The label of a partial answer names one range. *)
Lemma show_range_inj o l o' l' s t : 0 <= o -> 0 <= o' -> 0 <= l' ->
  show_range o l +:+ String "/"%char s = show_range o' l' +:+ String "/"%char t -> o = o' /\ l = l'.
Proof.
  unfold show_range. rewrite !append_assoc_s. intros Ho Ho' Hl' E.
  assert (Hd : forall n c, 0 <= n -> byte_of_ascii c < 48 -> contains c (pretty n) = false)
    by (intros n c Hn Hc; apply pretty_contains; [done|unfold digit_char; lia]).
  change ("-" +:+ ?x) with (String "-"%char x) in E.
  pose proof (split_once_append "-"%char (pretty o) (pretty l +:+ String "/"%char s) ltac:(by apply Hd)) as E1.
  rewrite E, split_once_append in E1 by by apply Hd. injection E1 as E1 E2.
  split; [by apply (inj pretty)|].
  assert (Hl : contains "/"%char (pretty l) = false).
  { destruct l as [|p|p]; [by apply Hd|by apply Hd|].
    change (pretty (Z.neg p)) with (String "-"%char (pretty (Z.pos p))). cbn [contains]. by apply Hd. }
  pose proof (split_once_append "/"%char (pretty l) s Hl) as E3.
  rewrite <- E2, split_once_append in E3 by by apply Hd. injection E3 as E3 _. by apply (inj pretty).
Qed.

(** ** Witnesses: a store of one object, and one that lists in two pages. *)
Definition toy : Objects := mkObjects "http://s3:9000" "s3:9000" "mjai" "us-east-1" "key" "secret".
Definition toy_hmac (key : list Z) (data : string) : list Z := [zlen key].
Definition toy_hash (bytes : list Z) : string := pretty (zlen bytes).
Definition toy_show (n : Z) : string := pretty n.
Definition toy_rfc3339 (s : string) : option Z :=
  if String.eqb s "2026-07-27T10:11:12Z" then Some 1785147072 else None.
Definition toy_range_store (r : Request) : option Response :=
  Some (mkResponse 206 (Some "bytes 0-0/1") (Some "1") (Some [7])).
Definition toy_entry (key : string) : list token :=
  [Tag "Key"; Txt key; Tag "/Key"; Tag "LastModified"; Txt "2026-07-27T10:11:12Z"; Tag "/LastModified";
   Tag "Size"; Txt "12"; Tag "/Size"; Tag "/Contents"].
Definition toy_page (flag : string) (extra : list token) (key : string) : list token :=
  [Tag "ListBucketResult"; Tag "IsTruncated"; Txt flag; Tag "/IsTruncated"] ++ extra ++
  [Tag "Contents"] ++ toy_entry key ++ [Tag "/ListBucketResult"].
Definition toy_page1 : list token := toy_page "true"
  [Tag "NextContinuationToken"; Txt "a/b="; Tag "/NextContinuationToken"] "packs/a&amp;b.mjpack".
Definition toy_page2 : list token := toy_page "false" [] "packs/c.mjpack".
Definition toy_list_store (r : Request) : option Response :=
  let page := match find "continuation-token=a%2Fb%3D&" (url r) with Some _ => toy_page2 | None => toy_page1 end in
  Some (mkResponse 200 None None (Some (bytes_of_string (print page)))).

Lemma toy_honest at_url : honest_ranges toy_range_store at_url [7].
Proof.
  intros req r o l s d [= <-] _ _ [= <-] [t Ht]%prefix_true [= <-] Ho.
  assert (E : show_range o l +:+ String "/"%char t = show_range 0 0 +:+ String "/"%char "1").
  { apply (inj (String.append "bytes ")). rewrite <- append_assoc_s, !append_assoc_s in *.
    symmetry. exact Ht. }
  apply show_range_inj in E as [-> ->]; done.
Qed.
Lemma get_range_refines_read_at_witness :
  honest_ranges toy_range_store
    (url (get_range_request toy_hash toy_hmac toy_hash toy "20260727T000000Z" "k" 0 1)) [7] /\
  exists d, get_range toy_hash toy_hmac toy_hash toy_show id toy toy_range_store "20260727T000000Z" "k" 0 1
    = Ok d /\ Pack.read_at [7] 0 1 = Ok d.
Proof.
  destruct (get_range_refines_read_at toy_hash toy_hmac toy_hash toy_show id toy
    toy_range_store "20260727T000000Z" "k" [7] 0 1) as [_ H];
    [unfold in_u64; lia|lia|unfold in_u64; lia|done|].
  split; [apply toy_honest|]. apply H; [|vm_compute; discriminate].
  intros ts offset length Ho Hl Hle. change (zlen [7]) with 1 in Hle.
  replace offset with 0 by lia. replace length with 1 by lia.
  eexists. split; [reflexivity|]. done.
Defined.


Lemma has_here name s ts : has name s (Tag name :: Txt s :: Tag ("/" +:+ name) :: ts).
Proof. exists [], ts. split; [done|apply not_elem_of_nil]. Qed.
Lemma has_later name s t ts : t <> Tag name -> has name s ts -> has name s (t :: ts).
Proof.
  intros Hne (a & b & -> & Ha). exists (t :: a), b. split; [done|].
  by apply not_elem_of_cons.
Qed.
Ltac find_element := repeat first [apply has_here | apply has_later; [discriminate|]].
Ltac absent := repeat (apply not_elem_of_cons; split; [discriminate|]); apply not_elem_of_nil.

Lemma toy_block key text :
  escape key = text ->
  block_of toy_rfc3339 (mkEntry key 12 1785147072) (toy_entry text ++ [Tag "/ListBucketResult"]).
Proof.
  intros <-. exists (take 9 (toy_entry (escape key))), [Tag "/ListBucketResult"], "2026-07-27T10:11:12Z".
  split_and!; [reflexivity|absent|find_element|find_element|unfold in_u64; simpl; lia|find_element| |];
    vm_compute; reflexivity.
Qed.
Lemma list_returns_every_object_witness :
  listing toy_hash toy_hmac toy_hash toy_rfc3339 toy toy_list_store "packs/" None 2
    [mkEntry "packs/a&b.mjpack" 12 1785147072; mkEntry "packs/c.mjpack" 12 1785147072] /\
  list_ toy_hash toy_hmac toy_hash id toy_rfc3339 toy toy_list_store
    (fun _ => "20260727T101112Z") "packs/" 2
  = Some (Ok [mkEntry "packs/a&b.mjpack" 12 1785147072; mkEntry "packs/c.mjpack" 12 1785147072]).
Proof.
  assert (H : listing toy_hash toy_hmac toy_hash toy_rfc3339 toy toy_list_store "packs/" None 2
    ([mkEntry "packs/a&b.mjpack" 12 1785147072] ++ [mkEntry "packs/c.mjpack" 12 1785147072])).
  { apply listing_more with (t := "a/b="); [|discriminate|apply listing_last].
    - intros ts. exists (mkResponse 200 None None (Some (bytes_of_string (print toy_page1)))), toy_page1.
      split_and!; [vm_compute; reflexivity|simpl; lia|simpl; lia|reflexivity|vm_compute; reflexivity|].
      exists (take 7 toy_page1), [drop 8 toy_page1].
      split_and!; [reflexivity|repeat constructor|absent|repeat constructor; absent| |find_element|].
      + constructor; [by apply toy_block|constructor].
      + change (escape "a/b=") with "a/b=". find_element.
    - intros ts. exists (mkResponse 200 None None (Some (bytes_of_string (print toy_page2)))), toy_page2.
      split_and!; [vm_compute; reflexivity|simpl; lia|simpl; lia|reflexivity|vm_compute; reflexivity|].
      exists (take 4 toy_page2), [drop 5 toy_page2].
      split_and!; [reflexivity|repeat constructor|absent|repeat constructor; absent| |find_element].
      constructor; [by apply toy_block|constructor]. }
  split; [exact H|].
  by apply (list_returns_every_object toy_hash toy_hmac toy_hash id toy_rfc3339 toy
    toy_list_store (fun _ => "20260727T101112Z") "packs/" 2 _ H 2).
Defined.
