(* ===== verification/Gc.v ===== *)
(** The collector of orphaned packs: [src/src/gc.rs]. *)
From S2P Require Import Prelude Text Pack Objects Indexer Pipeline.
#[local] Open Scope string_scope.
#[local] Open Scope list_scope.
#[local] Open Scope Z_scope.

Module Gc.
Import Objects.

(** [orphans]: an age that is negative is no duration, and fails the test. *)
Definition orphan (referenced : gset string) (now grace : Z) (e : ObjectEntry) : bool :=
  ends_with Pack.PACK_SUFFIX (entry_key e)
  && negb (bool_decide (entry_key e ∈ referenced))
  && (let age := now - last_modified e in (0 <=? age) && (grace <=? age)).
Definition orphans (listed : list ObjectEntry) (referenced : gset string) (now grace : Z)
  : list string :=
  if bool_decide (referenced = ∅) then []
  else map entry_key (List.filter (orphan referenced now grace) listed).

(** The loop of [collect]: [replies] are what the store does of the successive
    deletes; the first failure ends the run. *)
Fixpoint delete_each {A} (keys : list string) (replies : list reply) (bucket : gmap string A)
  (deleted : Z) : gmap string A * result ObjectError Z :=
  match keys with
  | [] => (bucket, Ok deleted)
  | key :: keys =>
    let r := default Done (hd_error replies) in
    let bucket := if took_effect r then base.delete key bucket else bucket in
    if answered r then delete_each keys (tail replies) bucket (deleted + 1)
    else (bucket, Err Transport)
  end.
(** [collect]: [indexed] is what ClickHouse answers, [listed] what the bucket
    does, [now] the clock once both are in. *)
Definition collect {A} (indexed : result ObjectError (list string))
  (listed : result ObjectError (list ObjectEntry)) (now grace : Z) (replies : list reply)
  (bucket : gmap string A) : gmap string A * result ObjectError Z :=
  match indexed with
  | Err e => (bucket, Err e)
  | Panic => (bucket, Panic)
  | Ok keys =>
    let referenced := list_to_set keys : gset string in
    if bool_decide (referenced = ∅) then (bucket, Ok 0)
    else match listed with
         | Err e => (bucket, Err e)
         | Panic => (bucket, Panic)
         | Ok listed => delete_each (orphans listed referenced now grace) replies bucket 0
         end
  end.
End Gc.

Import Indexer Objects Gc.

Section Facts.
Context {A : Type}.
Implicit Types (bucket : gmap string A).

Lemma elem_of_orphans listed referenced now grace key :
  key ∈ orphans listed referenced now grace <->
  referenced <> ∅ /\ exists e, e ∈ listed /\ entry_key e = key /\
    ends_with Pack.PACK_SUFFIX key = true /\ (key ∉ referenced) /\
    0 <= now - last_modified e /\ grace <= now - last_modified e.
Proof.
  unfold orphans. case_bool_decide as Hr; [by split; [intros ?%elem_of_nil|intros [? _]]|].
  rewrite list_elem_of_In, in_map_iff. split.
  - intros (e & <- & Hin). apply filter_In in Hin as [Hin Ho]. unfold orphan in Ho.
    rewrite !andb_true_iff, negb_true_iff, bool_decide_eq_false, !Z.leb_le in Ho.
    split; [done|]. exists e. rewrite list_elem_of_In. destruct Ho as [[? ?] [? ?]]. by split_and!.
  - intros (_ & e & Hin & <- & Hs & Hn & Ha & Hg). exists e. split; [done|].
    rewrite list_elem_of_In in Hin. apply filter_In. split; [done|]. unfold orphan.
    rewrite !andb_true_iff, negb_true_iff, bool_decide_eq_false, !Z.leb_le. done.
Qed.

(** What a run of deletes leaves: it removes among [keys] only, all of them when
    it succeeds. *)
Lemma delete_each_spec keys replies bucket n bucket' r :
  delete_each keys replies bucket n = (bucket', r) ->
  (forall key, bucket' !! key = bucket !! key \/ (key ∈ keys /\ bucket' !! key = None)) /\
  match r with
  | Ok m => m = n + zlen keys /\ forall key, key ∈ keys -> bucket' !! key = None
  | Err e => e = Transport /\ keys <> []
  | Panic => False
  end.
Proof.
  revert replies bucket n. induction keys as [|k keys IH]; intros replies bucket n; cbn [delete_each].
  - intros [= <- <-]. split; [by left|]. rewrite zlen_nil. split; [lia|]. by intros key ?%elem_of_nil.
  - set (rep := default Done (hd_error replies)).
    set (bucket1 := if took_effect rep then base.delete k bucket else bucket).
    assert (H1 : forall key, bucket1 !! key = bucket !! key \/ (key = k /\ bucket1 !! key = None)).
    { intros key. unfold bucket1. destruct (took_effect rep); [|by left].
      destruct (decide (key = k)) as [->|]; [right; by rewrite lookup_delete_eq|].
      left. by rewrite lookup_delete_ne. }
    destruct (answered rep) eqn:Ha.
    + intros Hd. destruct (IH _ _ _ Hd) as [Hk Hr]. split.
      * intros key. destruct (Hk key) as [->|[? ?]]; [|right; split; [by right|done]].
        destruct (H1 key) as [|[-> ?]]; [by left|right; split; [left|done]].
      * destruct r; [|by destruct Hr as [-> _]|done]. destruct Hr as [-> Hr]. rewrite zlen_cons.
        split; [lia|]. intros key [->|Hin]%elem_of_cons; [|by apply Hr].
        destruct (Hk k) as [->|[_ ?]]; [|done]. unfold bucket1.
        assert (took_effect rep = true) as -> by by destruct rep. by rewrite lookup_delete_eq.
    + intros [= <- <-]. split; [|done]. intros key. destruct (H1 key) as [|[-> ?]]; [by left|].
      right. split; [left|done].
Qed.
End Facts.

(** What the collector may be wrong about: the index it asked and the listing it
    got are older than the deletes. Every pack an index row names was either
    named already when the index was asked, or was uploaded too recently. *)
Definition snapshot_ok (keys : list string) (listed : list ObjectEntry) (now grace : Z)
  (index : list Indexer.Row) : Prop :=
  forall row, row ∈ index -> Pack.location_key (Indexer.storage row) ∈ keys \/
    forall e, e ∈ listed -> entry_key e = Pack.location_key (Indexer.storage row) ->
      now - last_modified e < grace.

(** The collector, whatever fails while it runs and whatever the workers
    uploaded and indexed meanwhile, only deletes listed packs that no row names
    and that are older than the grace period, deletes nothing when the index or
    the listing could not be read or the index is empty, and on success leaves
    none of the orphans it listed. *)
Theorem collect_spec {A} indexed listed now grace replies (bucket bucket' : gmap string A) r :
  collect indexed listed now grace replies bucket = (bucket', r) ->
  (forall key, bucket' !! key = bucket !! key \/
     bucket' !! key = None /\ exists keys entries e, indexed = Ok keys /\ listed = Ok entries /\
       (key ∉ keys) /\ keys <> [] /\ e ∈ entries /\ entry_key e = key /\
       ends_with Pack.PACK_SUFFIX key = true /\ grace <= now - last_modified e) /\
  match indexed, listed with
  | Ok [], _ => bucket' = bucket /\ r = Ok 0
  | Ok keys, Ok entries =>
    (forall n, r = Ok n -> n = zlen (orphans entries (list_to_set keys) now grace) /\
       forall key, key ∈ orphans entries (list_to_set keys) now grace -> bucket' !! key = None) /\
    (r = Err Transport \/ exists n, r = Ok n)
  | Ok _, Err e | Err e, _ => bucket' = bucket /\ r = Err e
  | _, _ => bucket' = bucket /\ r = Panic
  end.
Proof.
  unfold collect. destruct indexed as [keys|e|];
    [|intros [= <- <-]; split; [by left|done]|intros [= <- <-]; split; [by left|done]].
  case_bool_decide as Hk.
  { intros [= <- <-]. split; [by left|]. destruct keys as [|k keys]; [done|]. set_solver. }
  destruct keys as [|k keys]; [done|].
  destruct listed as [entries|e|];
    [|intros [= <- <-]; split; [by left|done]|intros [= <- <-]; split; [by left|done]].
  intros Hd. apply delete_each_spec in Hd as [Hb Hr]. split.
  - intros key. destruct (Hb key) as [|[Hin Hn]]; [by left|right]. split; [done|].
    apply elem_of_orphans in Hin as (_ & e & He & Hke & Hs & Hnot & _ & Hg).
    exists (k :: keys), entries, e. split_and!; try done. set_solver.
  - destruct r as [n|e|]; [|destruct Hr as [-> _]|done].
    + destruct Hr as [-> Hr]. split; [|by right; eexists]. intros m [= <-]. split; [apply Z.add_0_l|done].
    + split; [done|by left].
Qed.

Section Pipeline.
(** A run of the collector is one of the steps the pipeline's safety proof
    grants to its environment: it keeps the object of every index row, and the
    pack a worker is filling stays free of an object, also when the run ends
    midway through its deletes. *)
Theorem collect_is_env_step keys entries now grace replies w bucket' r worker :
  collect (Ok keys) (Ok entries) now grace replies (Indexer.bucket w) = (bucket', r) ->
  snapshot_ok keys entries now grace (Indexer.index w) ->
  (forall row, row ∈ Indexer.index w ->
     is_Some (Indexer.bucket w !! Pack.location_key (Indexer.storage row))) ->
  (forall s writer, worker = Some s -> Indexer.open_ s = Some writer ->
     Indexer.bucket w !! Pack.key writer = None) ->
  env_step w (w <| Indexer.bucket := bucket' |>) worker.
Proof.
  intros Hc Hsnap Hobj Hopen. apply collect_spec in Hc as [Hb _].
  assert (Hkeep : forall row, row ∈ Indexer.index w ->
    bucket' !! Pack.location_key (Indexer.storage row)
    = Indexer.bucket w !! Pack.location_key (Indexer.storage row)).
  { intros row Hrow. destruct (Hb (Pack.location_key (Indexer.storage row)))
      as [|(Hn & ks & es & e & [= <-] & [= <-] & Hnot & _ & He & Hke & _ & Hg)]; [done|].
    destruct (Hsnap row Hrow) as [|Hyoung]; [done|]. specialize (Hyoung e He Hke). lia. }
  split_and!; unfold set_field; cbn [Indexer.stored_offset Indexer.index Indexer.bucket]; try done.
  - intros row Hrow. rewrite Hkeep by done. by apply Hobj.
  - intros s writer Hs Hw. destruct (Hb (Pack.key writer)) as [->|[-> _]]; [by eapply Hopen|done].
Qed.
End Pipeline.

(** ** Witnesses *)
Definition toy_bucket : gmap string (list Z) :=
  <["packs/a.mjpack" := [1]]> (<["packs/b.mjpack" := [2]]> (<["packs/c.mjpack" := [3]]> ∅)).
Definition toy_listed : list ObjectEntry :=
  [mkEntry "packs/a.mjpack" 1 0; mkEntry "packs/b.mjpack" 1 0; mkEntry "packs/c.mjpack" 1 90].
Lemma collect_spec_witness :
  collect (Ok ["packs/a.mjpack"]) (Ok toy_listed) 100 50 [] toy_bucket
    = (base.delete "packs/b.mjpack" toy_bucket, Ok 1) /\
  base.delete "packs/b.mjpack" toy_bucket !! "packs/b.mjpack" = None.
Proof.
  assert (E : collect (Ok ["packs/a.mjpack"]) (Ok toy_listed) 100 50 [] toy_bucket
    = (base.delete "packs/b.mjpack" toy_bucket, Ok 1)) by (vm_compute; reflexivity).
  split; [exact E|].
  destruct (collect_spec _ _ _ _ _ _ _ _ E) as [_ [H _]]. destruct (H 1 eq_refl) as [_ Hd].
  apply Hd. vm_compute. constructor.
Defined.
(** "Every failure short-circuits with nothing deleted" does not hold of the
    deletes themselves: the second of two fails after the first took effect. *)
Example collect_fails_midway :
  collect (Ok ["packs/c.mjpack"]) (Ok toy_listed) 100 50 [Done; Failed] toy_bucket
  = (base.delete "packs/a.mjpack" toy_bucket, Err Transport).
Proof. vm_compute. reflexivity. Qed.
Definition toy_row : Row :=
  mkRow (replicate 16 1) "batch" "" 0 None [] None 1 (Pack.mkLocation "packs/a.mjpack" 32 1 1) None.
Definition toy_world : World := mkWorld None toy_bucket [toy_row] [].
Lemma collect_is_env_step_witness :
  snapshot_ok ["packs/a.mjpack"] toy_listed 100 50 [toy_row] /\
  env_step toy_world
    (toy_world <| Indexer.bucket := fst (collect (Ok ["packs/a.mjpack"]) (Ok toy_listed) 100 50 [Failed]
                                           toy_bucket) |>) None.
Proof.
  assert (Hs : snapshot_ok ["packs/a.mjpack"] toy_listed 100 50 [toy_row]).
  { intros row ->%list_elem_of_singleton. left. left. }
  split; [exact Hs|].
  apply (collect_is_env_step ["packs/a.mjpack"] toy_listed 100 50 [Failed] toy_world _
    (snd (collect (Ok ["packs/a.mjpack"]) (Ok toy_listed) 100 50 [Failed] toy_bucket))); try done.
  intros row ->%list_elem_of_singleton. vm_compute. by eexists.
Defined.
