(* ===== verification/Recovery.v ===== *)
(** Rebuilding the index of the legacy packs: [src/src/recovery.rs], with the
    three index queries of [src/src/catalog.rs] it asks. *)
From S2P Require Import Prelude Text Json Mjai Pack Indexer.
#[local] Open Scope string_scope.
#[local] Open Scope list_scope.
#[local] Open Scope Z_scope.

Module Recovery.
Import Pack Indexer.

Definition RECOVERED_SOURCE : string := "recovered".

Definition row_key (r : Row) : string := location_key (storage r).
(** [Catalog::indexed_ids]: [SELECT DISTINCT record_id]. *)
Definition indexed_ids (rows : list Row) (pack_key : string) : list Uuid :=
  remove_dups (map id (List.filter (fun r => String.eqb (row_key r) pack_key) rows)).
(** [Catalog::indexed_counts]: a group for every requested key that has a row. *)
Definition indexed_counts (rows : list Row) (pack_keys : list string) : gmap string Z :=
  list_to_map (omap (fun key =>
    match indexed_ids rows key with [] => None | ids => Some (key, zlen ids) end) pack_keys).

(** What the index answers while one pack is recovered: the query, the insert. *)
Record Faults := mkFaults { ids_query : bool; insert : reply }.

Section Recover.
Variable decompress_bulk : list Z -> Z -> option (list Z).
Variable get_range : string -> Z -> Z -> result PackError (list Z).
Variable from_str : string -> json + string.
Variable to_string : json -> string.
Variable timestamp_ok : Z -> bool.
Variable sha256_hex : list Z -> string.
(** The modification time of a file of the legacy directory. *)
Variable modified : string -> Z.

Abbreviation read := (read decompress_bulk get_range).
Abbreviation parse_metadata := (Mjai.parse_metadata from_str to_string timestamp_ok).

Definition recovered_row (entry_id : Uuid) (location : PackLocation) (received_at : Z) (raw : list Z)
  (metadata : Mjai.Metadata) : Row :=
  mkRow entry_id RECOVERED_SOURCE (sha256_hex raw) received_at None (Mjai.players metadata)
    (Mjai.rule metadata) (Mjai.event_count metadata) location None.
Fixpoint recover_entries (store : PackStore) (known : list Uuid) (received_at : Z)
  (entries : list (Uuid * PackLocation)) : result IndexError (list Row) :=
  match entries with
  | [] => Ok []
  | (entry_id, location) :: entries =>
    if bool_decide (entry_id ∈ known) then recover_entries store known received_at entries
    else match read store location with
         | Panic => Panic
         | Err _ => recover_entries store known received_at entries
         | Ok raw =>
           match parse_metadata raw with
           | Panic => Panic
           | Err _ => recover_entries store known received_at entries
           | Ok metadata =>
             rest ← recover_entries store known received_at entries;
             Ok (recovered_row entry_id location received_at raw metadata :: rest)
           end
         end
  end.
(** [Catalog::insert_batch]: an empty batch asks nothing of the index. *)
Definition insert_batch (fault : reply) (batch rows : list Row) : list Row * result IndexError () :=
  match batch with
  | [] => (rows, Ok tt)
  | _ => (if took_effect fault then rows ++ map stored_row batch else rows,
          if answered fault then Ok tt else Err IndexFailed)
  end.
(** One turn of the loop over the packs. *)
Definition recover_pack (store : PackStore) (indexed : gmap string Z) (name : string)
  (faults : Faults) (rows : list Row) : list Row * result IndexError Z :=
  match scan_pack name (default [] (legacy store !! name)) with
  | Err e => (rows, Err (PackFailed e))
  | Panic => (rows, Panic)
  | Ok (key, entries) =>
    if zlen entries <=? default 0 (indexed !! key) then (rows, Ok 0)
    else if negb (ids_query faults) then (rows, Err IndexFailed)
    else match recover_entries store (indexed_ids rows key) (modified name) entries with
         | Err e => (rows, Err e)
         | Panic => (rows, Panic)
         | Ok batch =>
           let '(rows, r) := insert_batch (insert faults) batch rows in
           (rows, (fun _ => zlen batch) <$> r)
         end
  end.
Fixpoint recover_each (store : PackStore) (indexed : gmap string Z) (names : list string)
  (faults : list Faults) (rows : list Row) : list Row * result IndexError Z :=
  match names with
  | [] => (rows, Ok 0)
  | name :: names =>
    let '(rows, r) := recover_pack store indexed name (default (mkFaults true Done) (head faults)) rows in
    match r with
    | Ok n => let '(rows, r) := recover_each store indexed names (tail faults) rows in
              (rows, (fun m => n + m) <$> r)
    | Err e => (rows, Err e)
    | Panic => (rows, Panic)
    end
  end.
(** [recover]; [counts_query] is whether the first query is answered, which is not
    sent when there is no key to ask about. *)
Definition recover (store : PackStore) (counts_query : bool) (faults : list Faults) (rows : list Row)
  : list Row * result IndexError Z :=
  let names := mjpacks (legacy store) in
  let keys := omap pack_key names in
  if match keys with [] => true | _ => counts_query end then
    recover_each store (indexed_counts rows keys) names faults rows
  else (rows, Err IndexFailed).
End Recover.
End Recovery.

Import Pack Indexer Recovery.

(** ** The parser never panics *)
Lemma parse_lines_no_panic from_str ls : Mjai.parse_lines from_str ls <> Panic.
Proof.
  induction ls as [|l ls IH]; cbn [Mjai.parse_lines]; [done|]. destruct (from_str l); [|done].
  by destruct (Mjai.parse_lines from_str ls).
Qed.
Lemma parse_metadata_no_panic from_str to_string timestamp_ok raw :
  Mjai.parse_metadata from_str to_string timestamp_ok raw <> Panic.
Proof.
  unfold Mjai.parse_metadata. destruct (Mjai.events from_str raw) as [events|e|] eqn:E; try done.
  - cbn [mbind result_bind]. destruct events as [|first rest]; [|done].
    exfalso. revert E. unfold Mjai.events. destruct (utf8_valid raw); [|done]. cbv zeta.
    destruct (String.eqb _ _); [done|]. match goal with |- (?m ≫= _) = _ -> _ => destruct m as [l| |] end;
      try done. cbn [mbind result_bind]. destruct l; [done|]. by destruct (existsb _ _).
  - exfalso. revert E. unfold Mjai.events. destruct (utf8_valid raw); [|done]. cbv zeta.
    destruct (String.eqb _ _); [done|].
    match goal with |- (?m ≫= _) = _ -> _ => assert (Hm : m <> Panic) end.
    { set (ls := List.filter _ _). pose proof (parse_lines_no_panic from_str ls) as Hp. clearbody ls.
      destruct (trim (string_of_bytes raw)) as [|a s]; [done|].
      destruct a as [[] [] [] [] [] [] [] []]; try done.
      by destruct (from_str _) as [[]|]. }
    match goal with |- (?m ≫= _) = _ -> _ => destruct m as [l| |] end; try done.
    cbn [mbind result_bind]. destruct l; [done|]. by destruct (existsb _ _).
Qed.

(** ** What the index knows of a pack *)
Lemma elem_of_indexed_ids rows key entry_id :
  entry_id ∈ indexed_ids rows key <-> exists r, r ∈ rows /\ row_key r = key /\ id r = entry_id.
Proof.
  unfold indexed_ids. rewrite elem_of_remove_dups, list_elem_of_In, in_map_iff. split.
  - intros (r & <- & [Hin He%String.eqb_eq]%filter_In). exists r. by rewrite list_elem_of_In.
  - intros (r & Hin & Hk & <-). exists r. split; [done|]. apply filter_In.
    by rewrite <- list_elem_of_In, String.eqb_eq.
Qed.
Lemma indexed_ids_app rows new key entry_id :
  entry_id ∈ indexed_ids rows key -> entry_id ∈ indexed_ids (rows ++ new) key.
Proof. rewrite !elem_of_indexed_ids. intros (r & Hr & ? & ?). exists r. rewrite elem_of_app. auto. Qed.
Lemma indexed_counts_lookup rows keys key :
  default 0 (indexed_counts rows keys !! key) <= zlen (indexed_ids rows key).
Proof.
  unfold indexed_counts. destruct (list_to_map _ !! key) as [n|] eqn:E; [|apply zlen_nonneg].
  apply elem_of_list_to_map_2, list_elem_of_omap in E as (k & _ & Hk).
  change (default 0 (Some n)) with n. destruct (indexed_ids rows k) as [|i l] eqn:El; [done|].
  injection Hk as <- <-. by rewrite El.
Qed.
Lemma NoDup_indexed_ids rows key : NoDup (indexed_ids rows key).
Proof. apply NoDup_remove_dups. Qed.
(** As many distinct entries of a pack indexed as it has: then all of them are. *)
Lemma all_indexed rows key (ids : list Uuid) :
  (forall i, i ∈ indexed_ids rows key -> i ∈ ids) -> zlen ids <= zlen (indexed_ids rows key) ->
  forall i, i ∈ ids -> i ∈ indexed_ids rows key.
Proof.
  intros Hsub Hlen i Hi.
  assert (Hs : indexed_ids rows key ⊆+ ids) by (apply NoDup_submseteq; [apply NoDup_indexed_ids|done]).
  unfold zlen in Hlen. apply submseteq_length_Permutation in Hs; [|lia]. by rewrite Hs.
Qed.
Lemma scan_loop_key fuel key bytes position i l :
  (i, l) ∈ scan_loop fuel key bytes position -> location_key l = key.
Proof.
  revert position. induction fuel as [|fuel IH]; intros position; cbn [scan_loop]; [by intros ?%elem_of_nil|].
  cbv zeta. destruct (_ <=? _); [|by intros ?%elem_of_nil].
  destruct (_ || _); [by intros ?%elem_of_nil|]. destruct (_ <? _); [by intros ?%elem_of_nil|].
  intros [[= -> ->]|H]%elem_of_cons; [done|by eapply IH].
Qed.
Lemma scan_pack_key name bytes key entries i l :
  scan_pack name bytes = Ok (key, entries) ->
  pack_key name = Some key /\ ((i, l) ∈ entries -> location_key l = key).
Proof.
  unfold scan_pack. destruct (pack_key name) as [k|]; [|done]. destruct (_ <? _); [done|].
  destruct (negb _); [done|]. generalize (S (length bytes)). intros fuel [= <- <-].
  split; [done|]. apply scan_loop_key.
Qed.

Section Facts.
Context (decompress_bulk : list Z -> Z -> option (list Z))
  (get_range : string -> Z -> Z -> result PackError (list Z)) (from_str : string -> json + string)
  (to_string : json -> string) (timestamp_ok : Z -> bool) (sha256_hex : list Z -> string)
  (modified : string -> Z) (store : PackStore).
Abbreviation parse_metadata := (Mjai.parse_metadata from_str to_string timestamp_ok).
Abbreviation recover_entries :=
  (recover_entries decompress_bulk get_range from_str to_string timestamp_ok sha256_hex store).
Abbreviation recover_pack :=
  (recover_pack decompress_bulk get_range from_str to_string timestamp_ok sha256_hex modified store).
Abbreviation recover_each :=
  (recover_each decompress_bulk get_range from_str to_string timestamp_ok sha256_hex modified store).
Abbreviation recover :=
  (recover decompress_bulk get_range from_str to_string timestamp_ok sha256_hex modified store).

(** An entry that can be read back and parsed, as [raw]. *)
Definition recoverable (l : PackLocation) (raw : list Z) (metadata : Mjai.Metadata) : Prop :=
  read decompress_bulk get_range store l = Ok raw /\ parse_metadata raw = Ok metadata.
(** The index has the recoverable entries of the pack file [name]. *)
Definition has_pack (rows : list Row) (name : string) : Prop :=
  forall key entries i l raw md,
    scan_pack name (default [] (legacy store !! name)) = Ok (key, entries) ->
    (i, l) ∈ entries -> recoverable l raw md -> i ∈ indexed_ids rows key.
(** A row the scan made, as it is stored. *)
Definition recovered (row : Row) : Prop :=
  exists name key entries i l raw md, name ∈ mjpacks (legacy store) /\
    scan_pack name (default [] (legacy store !! name)) = Ok (key, entries) /\
    (i, l) ∈ entries /\ recoverable l raw md /\
    row = stored_row (recovered_row sha256_hex i l (modified name) raw md).

Lemma recover_entries_spec known received_at entries batch :
  recover_entries known received_at entries = Ok batch ->
  (forall row, row ∈ batch -> exists i l raw md, (i, l) ∈ entries /\ (i ∉ known) /\
     recoverable l raw md /\ row = recovered_row sha256_hex i l received_at raw md) /\
  (forall i l raw md, (i, l) ∈ entries -> (i ∉ known) -> recoverable l raw md ->
     exists row, row ∈ batch /\ id row = i /\ storage row = l).
Proof.
  revert batch. induction entries as [|[i l] entries IH]; intros batch; cbn [Recovery.recover_entries].
  { intros [= <-]. split; by intros * ?%elem_of_nil. }
  assert (Hskip : (i ∈ known \/ forall raw md, ~ recoverable l raw md) ->
    recover_entries known received_at entries = Ok batch ->
    (forall row, row ∈ batch -> exists i' l' raw md, (i', l') ∈ (i, l) :: entries /\ (i' ∉ known) /\
       recoverable l' raw md /\ row = recovered_row sha256_hex i' l' received_at raw md) /\
    (forall i' l' raw md, (i', l') ∈ (i, l) :: entries -> (i' ∉ known) -> recoverable l' raw md ->
       exists row, row ∈ batch /\ id row = i' /\ storage row = l')).
  { intros Hs E. destruct (IH _ E) as [Hin Hall]. split.
    - intros row Hr. destruct (Hin row Hr) as (i' & l' & raw & md & ? & ?).
      exists i', l', raw, md. by split; [right|].
    - intros i' l' raw md [[= -> ->]|Hi]%elem_of_cons Hk Hr; [|by eapply Hall].
      destruct Hs as [|Hs]; [done|by destruct (Hs raw md)]. }
  case_bool_decide as Hk; [by apply Hskip; left|].
  destruct (read _ _ store l) as [raw|e|] eqn:Er; [|apply Hskip; right; intros raw md [? _]; congruence|done].
  destruct (parse_metadata raw) as [md|e|] eqn:Ep;
    [|apply Hskip; right; intros raw' md' [? ?]; congruence|done].
  destruct (recover_entries known received_at entries) as [rest| |]; try done.
  cbn [mbind result_bind]. intros [= <-]. destruct (IH _ eq_refl) as [Hin Hall]. split.
  - intros row [->|Hr]%elem_of_cons.
    + exists i, l, raw, md. by split; [left|].
    + destruct (Hin row Hr) as (i' & l' & raw' & md' & ? & ?).
      exists i', l', raw', md'. by split; [right|].
  - intros i' l' raw' md' [[= -> ->]|Hi]%elem_of_cons Hk' Hr.
    + eexists. split; [left|done].
    + destruct (Hall i' l' raw' md' Hi Hk' Hr) as (row & ? & ?). exists row. by split; [right|].
Qed.

(** One pack: rows are only added, each recovered from an entry of the pack;
    once the turn succeeds the pack is indexed. *)
Lemma recover_pack_spec indexed name faults rows rows' r :
  name ∈ mjpacks (legacy store) ->
  (forall key entries, scan_pack name (default [] (legacy store !! name)) = Ok (key, entries) ->
     zlen entries <= default 0 (indexed !! key) -> has_pack rows name) ->
  recover_pack indexed name faults rows = (rows', r) ->
  exists new, rows' = rows ++ new /\ Forall recovered new /\
    (forall n, r = Ok n -> n = zlen new /\ has_pack rows' name) /\
    (has_pack rows name -> new = []).
Proof.
  intros Hname Hskip. unfold Recovery.recover_pack.
  destruct (scan_pack name _) as [[key entries]|e|] eqn:Escan.
  2,3: intros [= <- <-]; exists []; rewrite app_nil_r; by split_and!.
  destruct (Z.leb_spec (zlen entries) (default 0 (indexed !! key))) as [Hle|Hlt].
  { intros [= <- <-]. exists []. rewrite app_nil_r. split_and!; try done. intros n [= <-].
    split; [done|]. by eapply Hskip. }
  destruct (ids_query faults); cbn [negb];
    [|intros [= <- <-]; exists []; rewrite app_nil_r; by split_and!].
  destruct (recover_entries _ _ entries) as [batch|e|] eqn:Erec.
  2,3: intros [= <- <-]; exists []; rewrite app_nil_r; by split_and!.
  destruct (recover_entries_spec _ _ _ _ Erec) as [Hin Hall].
  assert (Hnil : has_pack rows name -> batch = []).
  { intros Hp. destruct batch as [|row batch]; [done|].
    destruct (Hin row ltac:(left)) as (i & l & raw & md & Hi & Hk & Hr & _).
    destruct Hk. by eapply Hp. }
  assert (Hrec : Forall recovered (map stored_row batch)).
  { apply Forall_map, Forall_forall. intros row Hr.
    destruct (Hin row Hr) as (i & l & raw & md & Hi & _ & Hrr & ->).
    by exists name, key, entries, i, l, raw, md. }
  assert (Hdone : has_pack (rows ++ map stored_row batch) name).
  { intros key' entries' i l raw md E' Hi Hr. rewrite Escan in E'. injection E' as <- <-.
    destruct (decide (i ∈ indexed_ids rows key)); [by apply indexed_ids_app|].
    destruct (Hall i l raw md Hi ltac:(done) Hr) as (row & Hrow & Hid & Hst).
    apply elem_of_indexed_ids. exists (stored_row row). split_and!; [|by unfold row_key; cbn; rewrite Hst; eapply scan_pack_key|done].
    apply elem_of_app. right. by apply list_elem_of_fmap_2. }
  unfold insert_batch. destruct batch as [|row batch].
  - intros [= <- <-]. exists []. rewrite app_nil_r in *. split_and!; try done. by intros n [= <-].
  - intros [= <- <-]. destruct (took_effect (insert faults)) eqn:Et.
    + exists (map stored_row (row :: batch)). split_and!; try done.
      * intros n. destruct (answered _); [|done]. intros [= <-]. split; [|done].
        unfold zlen. by rewrite length_map.
      * intros Hp. by rewrite Hnil.
    + exists []. rewrite app_nil_r. split_and!; try done. by destruct (insert faults).
Qed.

Lemma has_pack_app rows new name : has_pack rows name -> has_pack (rows ++ new) name.
Proof. intros H key entries i l raw md Es Hi Hr. apply indexed_ids_app. by eapply H. Qed.
(** The packs in turn; [indexed] was counted on [rows0], before the first. *)
Lemma recover_each_spec indexed rows0 names : forall faults rows rows' r,
  (forall name, name ∈ names -> name ∈ mjpacks (legacy store)) ->
  (forall name key entries, name ∈ names ->
     scan_pack name (default [] (legacy store !! name)) = Ok (key, entries) ->
     zlen entries <= default 0 (indexed !! key) -> has_pack rows0 name) ->
  (exists grown, rows = rows0 ++ grown) ->
  recover_each indexed names faults rows = (rows', r) ->
  exists new, rows' = rows ++ new /\ Forall recovered new /\
    (forall n, r = Ok n -> n = zlen new /\ Forall (has_pack rows') names) /\
    (Forall (has_pack rows) names -> new = []).
Proof.
  induction names as [|name names IH]; intros faults rows rows' r Hn Hskip [grown Hg]; cbn [Recovery.recover_each].
  { intros [= <- <-]. exists []. rewrite app_nil_r. split_and!; try done. by intros n [= <-]. }
  destruct (recover_pack indexed name _ rows) as [rows1 r1] eqn:E1.
  apply recover_pack_spec in E1 as (new1 & -> & Hrec1 & Hok1 & Hnil1); [|by apply Hn; left|].
  2: { intros key entries Es Hle. rewrite Hg. apply has_pack_app. by eapply Hskip; [left|..]. }
  destruct r1 as [n1|e|].
  2,3: intros [= <- <-]; exists new1; split_and!; try done; intros [Hp _]%Forall_cons; by apply Hnil1.
  destruct (recover_each indexed names _ _) as [rows2 r2] eqn:E2. intros [= <- <-].
  destruct (Hok1 n1 eq_refl) as [-> Hp1].
  apply IH in E2 as (new2 & -> & Hrec2 & Hok2 & Hnil2);
    [|intros; apply Hn; by right|intros * Hin; apply Hskip; by right|exists (grown ++ new1); by rewrite Hg, app_assoc].
  exists (new1 ++ new2). rewrite app_assoc. split_and!; [done|by apply Forall_app| |].
  - intros n. destruct r2 as [n2| |]; try done. intros [= <-]. destruct (Hok2 n2 eq_refl) as [-> Hp2].
    rewrite zlen_app. split; [done|]. constructor; [by apply has_pack_app|done].
  - intros [Hp Hps]%Forall_cons. rewrite (Hnil1 Hp), Hnil2; [done|].
    eapply Forall_impl; [exact Hps|]. intros name'. apply has_pack_app.
Qed.

(** Every id the index has under a legacy pack is one of an entry of the file. *)
Definition index_sound (rows : list Row) : Prop :=
  forall name key entries, name ∈ mjpacks (legacy store) ->
    scan_pack name (default [] (legacy store !! name)) = Ok (key, entries) ->
    forall i, i ∈ indexed_ids rows key -> i ∈ map fst entries.

(** C27: as long as every id that the index has under the key of a legacy pack is
    one of an entry of its file: the boot-time scan only adds rows, each recovered
    from an entry of a legacy pack that can be read and parsed, also when the index
    fails midway; when it succeeds its count is the number of rows added and every
    entry that can be read and parsed is indexed, the packs skipped on their counts
    included; and another scan, whatever fails during it, changes nothing. (A row
    under that key with another id can make a pack look complete: Example
    [foreign_row_hides_an_entry].) *)
Theorem recover_spec counts_query faults rows rows' r :
  index_sound rows ->
  recover counts_query faults rows = (rows', r) ->
  exists new, rows' = rows ++ new /\ Forall recovered new /\
    forall n, r = Ok n -> n = zlen new /\ Forall (has_pack rows') (mjpacks (legacy store)) /\
      forall counts_query' faults', exists r',
        recover counts_query' faults' rows' = (rows', r') /\ forall m, r' = Ok m -> m = 0.
Proof.
  intros Hsound. unfold Recovery.recover. destruct (match omap pack_key _ with [] => true | _ => counts_query end).
  2: { intros [= <- <-]. exists []. by rewrite app_nil_r. }
  intros Hrec. apply recover_each_spec with (rows0 := rows) in Hrec as (new & -> & Hnew & Hok & _);
    [|done| |exists []; by rewrite app_nil_r].
  - exists new. split_and!; try done. intros n Hn. destruct (Hok n Hn) as [-> Hps]. split_and!; try done.
    intros counts_query' faults'. destruct (match omap pack_key _ with [] => true | _ => counts_query' end); [|by eexists].
    destruct (recover_each _ _ faults' _) as [rows2 r2] eqn:E2. exists r2.
    apply recover_each_spec with (rows0 := rows ++ new) in E2 as (new2 & -> & _ & Hok2 & Hnil);
      [|done| |exists []; by rewrite app_nil_r].
    + rewrite Hnil, app_nil_r by done. split; [done|]. intros m Hm.
      destruct (Hok2 m Hm) as [-> _]. by rewrite Hnil.
    + intros name key entries Hin _ _. by apply (proj1 (Forall_forall _ _) Hps).
  - intros name key entries Hname Es Hle key' entries' i l raw md Es' Hi _.
    rewrite Es in Es'. injection Es' as <- <-.
    pose proof (indexed_counts_lookup rows (omap pack_key (mjpacks (legacy store))) key) as Hc.
    apply all_indexed with (ids := map fst entries).
    + by eapply Hsound.
    + unfold zlen in *. rewrite length_map. lia.
    + apply list_elem_of_fmap. by exists (i, l).
Qed.
End Facts.

(** ** Witness: a corpus of one pack with one record, and an empty index. *)
Definition toy_pack : list Z := MAGIC ++ replicate 16 1 ++ to_be_bytes 1 ++ to_be_bytes 1 ++ [91].
Definition toy_store : PackStore := mkStore {["a.mjpack" := toy_pack]} ∅.
Definition toy_from_str (s : string) : json + string := inl (JArr [JObj []]).
Abbreviation toy_recover := (recover (fun compressed _ => Some compressed) (fun _ _ _ => Err Object)
  toy_from_str (fun _ => "") (fun _ => true) (fun _ => "") (fun _ => 0) toy_store).
Definition toy_recovered : Row :=
  stored_row (mkRow (replicate 16 1) "recovered" "" 0 None [] None 1 (mkLocation "packs/a.mjpack" 32 1 1) None).
Lemma recover_spec_witness :
  toy_recover true [] [] = ([toy_recovered], Ok 1) /\
  exists r, toy_recover true [] [toy_recovered] = ([toy_recovered], r) /\ forall m, r = Ok m -> m = 0.
Proof.
  assert (E : toy_recover true [] [] = ([toy_recovered], Ok 1)) by (vm_compute; reflexivity).
  split; [exact E|].
  assert (Hs : index_sound toy_store []) by (intros name key entries _ _ i Hi; exact (False_ind _ (proj1 (elem_of_nil i) Hi))).
  pose proof (recover_spec (fun compressed _ => Some compressed) (fun _ _ _ => Err Object) toy_from_str
    (fun _ => "") (fun _ => true) (fun _ => "") (fun _ => 0) toy_store true [] [] [toy_recovered] (Ok 1)
    Hs E) as (new & _ & _ & H).
  exact (proj2 (proj2 (H 1 eq_refl)) true []).
Defined.
(** A boot without a legacy pack asks the index nothing. *)
Example no_pack_no_query :
  recover (fun compressed _ => Some compressed) (fun _ _ _ => Err Object) toy_from_str (fun _ => "") (fun _ => true) (fun _ => "") (fun _ => 0)
    (mkStore ∅ ∅) false [] [] = ([], Ok 0).
Proof. vm_compute. reflexivity. Qed.
(** A row under the key of the pack with an id that is not of the pack: the pack is
    skipped on its count, and its entry is not indexed. *)
Example foreign_row_hides_an_entry :
  let foreign := mkRow (replicate 16 2) "console" "" 0 None [] None 1 (mkLocation "packs/a.mjpack" 32 1 1) None in
  toy_recover true [] [foreign] = ([foreign], Ok 0).
Proof. vm_compute. reflexivity. Qed.
