(* ===== verification/Refetch.v ===== *)
(** The counter between the backfill, which wants old records fetched, and the
    collectors, which hold a session: [src/src/refetch.rs]. A one-shot channel is
    its number; the broker's lock makes every operation one step. *)
From S2P Require Import Prelude.
#[local] Open Scope string_scope.
#[local] Open Scope list_scope.
#[local] Open Scope Z_scope.

Module Refetch.

Definition CLAIM_TIMEOUT : Z := 180.
Inductive RefetchError := Unserved | Refused (why : string).
Definition FetchResult : Type := result RefetchError (list Z).

Record Request := mkRequest { uuid : string; answer : nat }.
Abbreviation Queue := (list Request).

(** [RefetchBroker::claim]: the first request whose receiver is still there; the
    ones before it are dropped. *)
Fixpoint claim (is_closed : nat -> bool) (queue : Queue) : option Request * Queue :=
  match queue with
  | [] => (None, [])
  | request :: queue =>
    if is_closed (answer request) then claim is_closed queue else (Some request, queue)
  end.
(** [RefetchBroker::waiting]. *)
Definition waiting (is_closed : nat -> bool) (queue : Queue) : nat :=
  length (List.filter (fun request => negb (is_closed (answer request))) queue).

(** The two ends of a channel: the receiver waits, got its result, or is gone;
    [fetch] turns the end of its wait into its answer. *)
Inductive Channel := Waiting | Sent (r : FetchResult) | SenderGone | ReceiverGone.
Definition is_closed (channels : gmap nat Channel) (c : nat) : bool :=
  match channels !! c with Some ReceiverGone => true | _ => false end.
(** What [fetch] returns, once its channel or its patience has come to an end. *)
Definition fetch_returns (timed_out : bool) (c : Channel) : option FetchResult :=
  match c with
  | Sent r => Some r
  | SenderGone => Some (Err Unserved)
  | Waiting => if timed_out then Some (Err Unserved) else None
  | ReceiverGone => None
  end.

(** The broker, the channels made so far and the requests collectors hold. *)
Record Broker := mkBroker {
  queue : Queue; channels : gmap nat Channel; pending : list Request; fresh : nat
}.
#[export] Instance Broker_settable : Settable Broker := fun r =>
  mkBroker (queue r) (channels r) (pending r) (fresh r).
Definition empty : Broker := mkBroker [] ∅ [] 0.

(** The first half of [RefetchBroker::fetch]. *)
Definition push (u : string) (b : Broker) : Broker :=
  b <| queue ::= fun q => q ++ [mkRequest u (fresh b)] |>
    <| channels ::= <[fresh b := Waiting]> |> <| fresh ::= S |>.
(** The wait ends: after the answer, or after [CLAIM_TIMEOUT], or because the
    walk that asked was stopped. *)
Definition abandon (c : nat) (b : Broker) : Broker :=
  b <| channels ::= alter (fun s => match s with Waiting => ReceiverGone | s => s end) c |>.
Definition take_next (b : Broker) : option Request * Broker :=
  let '(r, q) := claim (is_closed (channels b)) (queue b) in
  (r, b <| queue := q |> <| pending ::= fun p => match r with Some r => r :: p | None => p end |>).
(** [PendingFetch::answer], and the drop of one that was not answered. *)
Definition send (r : FetchResult) (s : Channel) : Channel :=
  match s with Waiting => Sent r | s => s end.
Definition hang_up (s : Channel) : Channel := match s with Waiting => SenderGone | s => s end.
Definition release (request : Request) (b : Broker) : Broker :=
  b <| pending ::= List.filter (fun p => negb (Nat.eqb (answer p) (answer request))) |>.
Definition answer_with (request : Request) (r : FetchResult) (b : Broker) : Broker :=
  release request b <| channels ::= alter (send r) (answer request) |>.
Definition drop_pending (request : Request) (b : Broker) : Broker :=
  release request b <| channels ::= alter hang_up (answer request) |>.
(** A request dropped out of the queue takes its sender with it; its receiver is
    already gone then, so nothing is left to tell. *)

Inductive step : Broker -> Broker -> Prop :=
| Step_push u b : step b (push u b)
| Step_abandon c b : step b (abandon c b)
| Step_claim b : step b (snd (take_next b))
| Step_answer request r b : request ∈ pending b -> step b (answer_with request r b)
| Step_drop request b : request ∈ pending b -> step b (drop_pending request b).
Inductive reachable : Broker -> Prop :=
| Reach_empty : reachable empty
| Reach_step b b' : reachable b -> step b b' -> reachable b'.
End Refetch.

Import Refetch.

(** ** The queue *)
Lemma claim_spec closed q :
  match claim closed q with
  | (Some r, rest) => exists dropped, q = dropped ++ r :: rest /\
      Forall (fun r => closed (answer r) = true) dropped /\ closed (answer r) = false
  | (None, rest) => rest = [] /\ Forall (fun r => closed (answer r) = true) q
  end.
Proof.
  induction q as [|r q IH]; cbn [claim]; [done|]. destruct (closed (answer r)) eqn:E.
  - destruct (claim closed q) as [[r'|] rest].
    + destruct IH as (dropped & -> & Hd & Hr). exists (r :: dropped). by split_and!; [|constructor|].
    + destruct IH as [-> Hq]. by split; [|constructor].
  - by exists [].
Qed.
Lemma waiting_app closed q1 q2 : waiting closed (q1 ++ q2) = (waiting closed q1 + waiting closed q2)%nat.
Proof. unfold waiting. by rewrite List.filter_app, length_app. Qed.
Lemma waiting_dropped closed q : Forall (fun r => closed (answer r) = true) q -> waiting closed q = O.
Proof.
  induction 1 as [|r q Hr _ IH]; [done|]. unfold waiting in *. cbn [List.filter]. by rewrite Hr.
Qed.

(** [n] claims in a row. *)
Fixpoint claims (closed : nat -> bool) (n : nat) (q : Queue) : list (option Request) * Queue :=
  match n with
  | O => ([], q)
  | S n => let '(r, q) := claim closed q in let '(rs, q) := claims closed n q in (r :: rs, q)
  end.
(** What [waiting] reports is what [claim] will serve: as many claims as it
    reports serve every request whose waiter is still there, in the order they
    were left and none twice, and the next claim finds nothing. *)
Theorem claims_serve_waiting closed q :
  let live := List.filter (fun r => negb (closed (answer r))) q in
  claims closed (waiting closed q) q = (map Some live, snd (claims closed (waiting closed q) q)) /\
  claim closed (snd (claims closed (waiting closed q) q)) = (None, []).
Proof.
  cbv zeta. remember (length q) as n eqn:Hn. revert q Hn. induction (lt_wf n) as [n _ IH]. intros q ->.
  pose proof (claim_spec closed q) as Hc. destruct (claim closed q) as [[r|] rest] eqn:E.
  - destruct Hc as (dropped & -> & Hd & Hr).
    assert (Hw : waiting closed (dropped ++ r :: rest) = S (waiting closed rest)).
    { rewrite waiting_app, waiting_dropped by done. unfold waiting. cbn [List.filter]. by rewrite Hr. }
    assert (Hf : List.filter (fun r => negb (closed (answer r))) (dropped ++ r :: rest)
                 = r :: List.filter (fun r => negb (closed (answer r))) rest).
    { rewrite List.filter_app. pose proof (waiting_dropped closed dropped Hd) as H0.
      apply length_zero_iff_nil in H0. rewrite H0. cbn [app List.filter]. by rewrite Hr. }
    rewrite Hw, Hf. cbn [claims]. rewrite E.
    assert (Hlt : (length rest < length (dropped ++ r :: rest))%nat) by (rewrite length_app; simpl; lia).
    destruct (IH _ Hlt rest eq_refl) as [H1 H2]. rewrite H1. cbn [snd map].
    by rewrite H1 in H2.
  - destruct Hc as [-> Hd]. pose proof (waiting_dropped closed q Hd) as H0. rewrite H0.
    unfold waiting in H0. apply length_zero_iff_nil in H0. rewrite H0. by cbn.
Qed.

(** ** The broker *)
Definition ids (l : list Request) : list nat := map answer l.
Definition wf (b : Broker) : Prop :=
  StronglySorted lt (ids (queue b)) /\
  NoDup (ids (queue b) ++ ids (pending b)) /\
  (forall c, c ∈ ids (queue b) ++ ids (pending b) -> (c < fresh b)%nat) /\
  (forall c, (c < fresh b)%nat <-> is_Some (channels b !! c)) /\
  (forall c, channels b !! c = Some Waiting -> c ∈ ids (queue b) ++ ids (pending b)).
(** A receiver that has ended stays as it ended. *)
Definition settled (s : Channel) : Prop := s <> Waiting.

Lemma ids_filter c l : ids (List.filter (fun p => negb (Nat.eqb (answer p) c)) l)
  = List.filter (fun i => negb (Nat.eqb i c)) (ids l).
Proof.
  unfold ids. induction l as [|r l IH]; [done|]. cbn [List.filter map]. rewrite <- IH.
  by destruct (Nat.eqb (answer r) c).
Qed.
Lemma elem_of_ids_filter c c' l :
  c' ∈ ids (List.filter (fun p => negb (Nat.eqb (answer p) c)) l) <-> c' ∈ ids l /\ c' <> c.
Proof.
  rewrite ids_filter, !list_elem_of_In, filter_In, negb_true_iff, Nat.eqb_neq. done.
Qed.
Lemma NoDup_app_filter {A} (p : A -> bool) (l k : list A) : NoDup (l ++ k) -> NoDup (l ++ List.filter p k).
Proof.
  rewrite !NoDup_app. intros (H1 & H2 & H3). split_and!; [done| |].
  - intros x Hx Hk. apply list_elem_of_In, filter_In in Hk as [Hk _]. by eapply H2, list_elem_of_In.
  - by apply NoDup_ListNoDup, List.NoDup_filter, NoDup_ListNoDup.
Qed.
Lemma alter_is_Some (f : Channel -> Channel) (m : gmap nat Channel) c i :
  is_Some (alter f c m !! i) <-> is_Some (m !! i).
Proof. rewrite lookup_alter_is_Some. done. Qed.
(** Letting go of a request whose waiter no longer waits keeps the invariant. *)
Lemma wf_settle f b request :
  (forall s, f s <> Waiting) -> wf b ->
  wf (release request b <| channels ::= alter f (answer request) |>).
Proof.
  intros Hf (Hs & Hn & Hlt & Hdom & Hw). unfold wf, release, set_field.
  cbn [queue pending fresh channels]. split_and!.
  - done.
  - rewrite ids_filter. by apply NoDup_app_filter.
  - intros c. rewrite elem_of_app, elem_of_ids_filter. intros Hc. apply Hlt, elem_of_app. tauto.
  - intros c. by rewrite alter_is_Some.
  - intros c. rewrite lookup_alter. destruct (decide (answer request = c)) as [<-|Hne].
    + destruct (channels b !! answer request) as [s|]; cbn; [|done]. intros [= E]. by destruct (Hf s).
    + intros Hc. specialize (Hw c Hc). rewrite elem_of_app in *. rewrite elem_of_ids_filter.
      destruct Hw; [by left|right]. done.
Qed.

Lemma wf_claim b : wf b -> wf (snd (take_next b)).
Proof.
  intros (Hs & Hn & Hlt & Hdom & Hw). unfold take_next.
  pose proof (claim_spec (is_closed (channels b)) (queue b)) as Hc.
  destruct (claim _ _) as [[r|] rest]; unfold wf, set_field; cbn [snd queue pending channels fresh].
  - destruct Hc as (dropped & Hq & Hd & Hr). unfold ids in *. rewrite Hq in *.
    rewrite !map_app, !map_cons in *. rewrite <- app_assoc in Hn.
    assert (Hp : map answer rest ++ answer r :: map answer (pending b)
                 ≡ₚ (answer r :: map answer rest) ++ map answer (pending b)) by solve_Permutation.
    split_and!.
    + apply StronglySorted_app in Hs as (_ & _ & Hs). by inversion Hs.
    + rewrite Hp. by apply NoDup_app in Hn as (_ & _ & ?).
    + intros c Hin. apply Hlt. rewrite Hp in Hin. rewrite !elem_of_app in *. tauto.
    + done.
    + intros c Hch. specialize (Hw c Hch). rewrite Hp. rewrite !elem_of_app in *.
      destruct Hw as [[Hdr|]|]; [|by left|by right]. exfalso.
      apply list_elem_of_fmap in Hdr as (d & -> & Hdr).
      pose proof (proj1 (Forall_forall _ _) Hd d Hdr) as Hcl. unfold is_closed in Hcl. by rewrite Hch in Hcl.
  - destruct Hc as [-> Hd]. split_and!; [constructor|by apply NoDup_app in Hn as (_ & _ & ?)| |done|].
    + intros c Hin. apply Hlt, elem_of_app. by right.
    + intros c Hch. specialize (Hw c Hch). rewrite elem_of_app in *. destruct Hw as [Hdr|]; [|by right].
      exfalso. apply list_elem_of_fmap in Hdr as (d & -> & Hdr).
      pose proof (proj1 (Forall_forall _ _) Hd d Hdr) as Hcl. unfold is_closed in Hcl. by rewrite Hch in Hcl.
Qed.
Lemma reachable_wf b : reachable b -> wf b.
Proof.
  induction 1 as [|b b' _ IH Hstep].
  { unfold wf. cbn. split_and!; [constructor|constructor| | |].
    - by intros c ?%elem_of_nil.
    - intros c. rewrite lookup_empty. split; [lia|by intros []].
    - intros c. by rewrite lookup_empty. }
  destruct Hstep as [u b|c b|b|request r b Hin|request b Hin].
  - destruct IH as (Hs & Hn & Hlt & Hdom & Hw). unfold wf, push, set_field, ids in *.
    cbn [queue pending channels fresh]. rewrite map_app. cbn [map answer]. split_and!.
    + apply StronglySorted_app. split_and!; [|done|by repeat constructor].
      intros c c' Hc ->%list_elem_of_singleton. apply Hlt, elem_of_app. by left.
    + assert (Hp : (map answer (queue b) ++ [fresh b]) ++ map answer (pending b)
          ≡ₚ fresh b :: (map answer (queue b) ++ map answer (pending b))) by solve_Permutation.
      rewrite Hp. constructor; [|done]. intros Hc%Hlt. lia.
    + intros c. rewrite !elem_of_app, list_elem_of_singleton. intros [[Hc| ->]|Hc]; [|lia|];
        (assert (c < fresh b)%nat; [apply Hlt, elem_of_app; tauto|lia]).
    + intros c. destruct (decide (c = fresh b)) as [->|Hne].
      * rewrite lookup_insert_eq. split; [by eexists|lia].
      * rewrite lookup_insert_ne, <- Hdom by done. lia.
    + intros c. destruct (decide (c = fresh b)) as [->|Hne].
      * intros _. rewrite !elem_of_app, list_elem_of_singleton. tauto.
      * rewrite lookup_insert_ne by done. intros Hc%Hw. rewrite !elem_of_app in *. tauto.
  - destruct IH as (Hs & Hn & Hlt & Hdom & Hw). unfold wf, abandon, set_field.
    cbn [queue pending channels fresh]. split_and!; try done.
    + intros c'. by rewrite alter_is_Some.
    + intros c'. rewrite lookup_alter. case_decide as Hc; [|apply Hw].
      destruct (channels b !! c') as [s|] eqn:E; rewrite <- Hc in *; rewrite E; [|done]. by destruct s.
  - by apply wf_claim.
  - apply wf_settle; [|done]. intros s. by destruct s.
  - apply wf_settle; [|done]. intros s. by destruct s.
Qed.

(** A wait that ended stays as it ended. *)
Lemma settled_stays b b' c s : wf b -> step b b' -> channels b !! c = Some s -> settled s -> channels b' !! c = Some s.
Proof.
  intros (_ & _ & _ & Hdom & _) Hstep Hc Hne. destruct Hstep as [u b|c' b|b|request r b _|request b _].
  - cbn. rewrite lookup_insert_ne; [done|]. intros <-. assert (fresh b < fresh b)%nat; [|lia]. apply Hdom. by eexists.
  - cbn. rewrite lookup_alter. case_decide as Hd; [rewrite Hd|]; rewrite Hc; by destruct s.
  - unfold take_next. by destruct (claim _ _).
  - cbn. rewrite lookup_alter. case_decide as Hd; [rewrite Hd|]; rewrite Hc; by destruct s.
  - cbn. rewrite lookup_alter. case_decide as Hd; [rewrite Hd|]; rewrite Hc; by destruct s.
Qed.
(** C33: no waiter is stranded and none is answered twice: in every state the
    broker can reach, a request still waited for is either in the queue or held
    by exactly one collector; a wait that ended stays as it ended; and the
    collector that holds a request releases its waiter, with the answer when it
    gives one and as unserved when it goes away. *)
Theorem no_waiter_is_stranded b :
  reachable b ->
  NoDup (ids (queue b) ++ ids (pending b)) /\
  (forall c, channels b !! c = Some Waiting -> c ∈ ids (queue b) \/ c ∈ ids (pending b)) /\
  (forall b' c s, step b b' -> channels b !! c = Some s -> s <> Waiting -> channels b' !! c = Some s) /\
  (forall request r, request ∈ pending b -> channels b !! answer request = Some Waiting ->
     channels (answer_with request r b) !! answer request = Some (Sent r) /\
     (channels (drop_pending request b) !! answer request) ≫= fetch_returns false
       = Some (Err Unserved)).
Proof.
  intros Hb. destruct (reachable_wf b Hb) as (Hs & Hn & Hlt & Hdom & Hw). split_and!; [done| | |].
  - intros c Hc. by apply elem_of_app, Hw.
  - intros b' c s. by apply settled_stays.
  - intros request r _ Hc. cbn. by rewrite !lookup_alter_eq, Hc.
Qed.

(** ** Witness: two requests, the first given up on; a collector serves the
    second. *)
Definition toy_broker : Broker := snd (take_next (abandon 0 (push "b" (push "a" empty)))).
Lemma toy_reachable : reachable toy_broker.
Proof.
  eapply Reach_step; [|apply Step_claim]. eapply Reach_step; [|apply Step_abandon].
  eapply Reach_step; [|apply Step_push]. eapply Reach_step; [|apply Step_push]. apply Reach_empty.
Qed.
Lemma no_waiter_is_stranded_witness :
  reachable toy_broker /\ pending toy_broker = [mkRequest "b" 1] /\
  channels (answer_with (mkRequest "b" 1) (Ok [7]) toy_broker) !! 1%nat = Some (Sent (Ok [7])).
Proof.
  split; [exact toy_reachable|]. split; [reflexivity|].
  destruct (no_waiter_is_stranded toy_broker toy_reachable) as (_ & _ & _ & H).
  apply (H (mkRequest "b" 1) (Ok [7])); [left|reflexivity].
Defined.
