(* ===== verification/WatchLog.v ===== *)
(** The in-memory log of the collectors, which keeps registered secrets out:
    [src/src/watch_log.rs]. *)
From S2P Require Import Prelude Text.
#[local] Open Scope string_scope.
#[local] Open Scope list_scope.
#[local] Open Scope Z_scope.

Module WatchLog.

Definition WATCH_LOG_CAPACITY : nat := 500.
Definition MAX_MESSAGE_CHARS : nat := 2048.
Definition MIN_SECRET_CHARS : nat := 4.

Inductive WatchLogLevel := Debug | Info | Warn | Error.
Record WatchLogEntry := mkEntry {
  seq : Z; timestamp : Z; level : WatchLogLevel; source : string; message : string
}.
Record WatchLogBuffer := mkBuffer {
  entries : list WatchLogEntry; next_seq : Z; secrets : list string
}.
#[export] Instance WatchLogBuffer_settable : Settable WatchLogBuffer := fun r =>
  mkBuffer (entries r) (next_seq r) (secrets r).
Definition new : WatchLogBuffer := mkBuffer [] 1 [].

Definition register_secret (secret : string) (log : WatchLogBuffer) : WatchLogBuffer :=
  if Nat.ltb (length (chars secret)) MIN_SECRET_CHARS then log
  else if bool_decide (secret ∈ secrets log) then log
  else log <| secrets ::= fun l => l ++ [secret] |>.

(** The loop over the secrets, and the cut at the character limit. *)
Definition redact_one (message secret : string) : string :=
  match find secret message with Some _ => replace secret "***" message | None => message end.
Definition redact (secrets : list string) (message : string) : string :=
  fold_left redact_one secrets message.
Definition truncate (message : string) : string :=
  if Nat.ltb MAX_MESSAGE_CHARS (length (chars message)) then take_chars MAX_MESSAGE_CHARS message
  else message.
Definition append (now : Z) (level : WatchLogLevel) (source message : string) (log : WatchLogBuffer)
  : WatchLogBuffer :=
  let message := truncate (redact (secrets log) message) in
  let kept := if Nat.eqb (length (entries log)) WATCH_LOG_CAPACITY then drop 1 (entries log)
              else entries log in
  log <| entries := kept ++ [mkEntry (next_seq log) now level source message] |>
      <| next_seq := as_u64 (next_seq log + 1) |>.

(** [partition_point] of a predicate that holds up to some point and not after. *)
Fixpoint partition_point (p : WatchLogEntry -> bool) (l : list WatchLogEntry) : nat :=
  match l with e :: l => if p e then S (partition_point p l) else O | [] => O end.
Definition entries_after (after : Z) (limit : nat) (log : WatchLogBuffer) : list WatchLogEntry :=
  let start := partition_point (fun entry => seq entry <=? after) (entries log) in
  take limit (drop start (entries log)).

Inductive step : WatchLogBuffer -> WatchLogBuffer -> Prop :=
| Step_register secret log : step log (register_secret secret log)
| Step_append now level source message log :
    next_seq log < u64_max -> step log (append now level source message log).
Inductive reachable : WatchLogBuffer -> Prop :=
| Reach_new : reachable new
| Reach_step log log' : reachable log -> step log log' -> reachable log'.
(** [log'] comes after [log]. *)
Inductive later (log : WatchLogBuffer) : WatchLogBuffer -> Prop :=
| Later_now : later log log
| Later_step log1 log2 : later log log1 -> step log1 log2 -> later log log2.
End WatchLog.

Import WatchLog.

(** ** Redaction *)
Lemma chars_aux_concat s : fst (chars_aux s) +:+ String.concat "" (snd (chars_aux s)) = s.
Proof.
  assert (Hc : forall x l, String.concat "" (x :: l) = x +:+ String.concat "" l).
  { intros x [|y l]; [by rewrite append_nil_r|]. done. }
  induction s as [|a s IH]; [done|]. cbn [chars_aux].
  destruct (chars_aux s) as [tail cs]. cbn [fst snd] in IH.
  destruct (is_cont _); cbn [fst snd]; [by rewrite append_cons, IH|].
  rewrite Hc. change ("" +:+ ?x) with x. by rewrite append_cons, IH.
Qed.
Lemma infix_take_chars n s : infix (take_chars n s) s.
Proof.
  unfold take_chars, chars. set (cs := snd (chars_aux s)).
  assert (Ht : exists t, String.concat "" cs = String.concat "" (take n cs) +:+ t).
  { clearbody cs. assert (Hc : forall x l, String.concat "" (x :: l) = x +:+ String.concat "" l).
    { intros x [|y l]; [by rewrite append_nil_r|]. done. }
    revert n. induction cs as [|c cs IH]; intros [|n]; try (by eexists).
    destruct (IH n) as [t Ht]. exists t. cbn [take]. by rewrite !Hc, Ht, append_assoc_s. }
  destruct Ht as [t Ht]. exists (fst (chars_aux s)), t.
  pose proof (chars_aux_concat s) as E. fold cs in E. by rewrite Ht in E.
Qed.

Definition star_free (s : string) : Prop := contains "*"%char s = false.
Lemma redact_one_clean p secret message : p <> "" -> star_free p -> secret <> "" ->
  ~ infix p message -> ~ infix p (redact_one message secret).
Proof.
  intros Hp Hs Hsec Hn. unfold redact_one. destruct (find secret message); [|done].
  unfold replace. intros Hi. apply infix_concat in Hi; [|done|done|].
  - pose proof (split_str_pieces secret message Hsec) as Hpieces.
    apply Exists_exists in Hi as (piece & Hin & Hi). destruct Hn.
    eapply infix_trans; [exact Hi|]. by eapply (proj1 (Forall_forall _ _) Hpieces).
  - intros a. cbn [contains]. rewrite orb_false_r, orb_true_iff, !Ascii.eqb_eq. by intros [<-|<-].
Qed.
Lemma redact_one_self secret message : secret <> "" -> star_free secret ->
  ~ infix secret (redact_one message secret).
Proof.
  intros Hsec Hs. unfold redact_one. destruct (find secret message) eqn:F.
  - unfold replace. intros Hi. apply infix_concat in Hi; [|done|done|].
    + apply Exists_exists in Hi as (piece & Hin & Hi).
      by apply (proj1 (Forall_forall _ _) (split_str_pieces secret message Hsec) piece Hin).
    + intros a. cbn [contains]. rewrite orb_false_r, orb_true_iff, !Ascii.eqb_eq. by intros [<-|<-].
  - by apply find_infix.
Qed.
Lemma redact_clean p secrets message : p ∈ secrets -> Forall (fun s => s <> "") secrets -> star_free p ->
  ~ infix p (redact secrets message).
Proof.
  intros Hin Hne Hs. pose proof (proj1 (Forall_forall _ _) Hne p Hin) as Hp. unfold redact.
  assert (Hkeep : forall l m, Forall (fun s => s <> "") l -> ~ infix p m -> ~ infix p (fold_left redact_one l m)).
  { induction l as [|s l IH]; intros m Hl Hm; [done|]. apply Forall_cons in Hl as [Hs' Hl].
    cbn [fold_left]. apply IH; [done|]. by apply redact_one_clean. }
  revert message. induction secrets as [|s secrets IH]; intros message; [by apply elem_of_nil in Hin|].
  apply Forall_cons in Hne as [Hs1 Hne]. cbn [fold_left]. apply elem_of_cons in Hin as [<-|Hin].
  - apply Hkeep; [done|]. by apply redact_one_self.
  - by apply IH.
Qed.

(** ** The invariant *)
Definition wf (log : WatchLogBuffer) : Prop :=
  (length (entries log) <= WATCH_LOG_CAPACITY)%nat /\
  Forall (fun s => s <> "") (secrets log) /\
  1 <= next_seq log /\ zlen (entries log) < next_seq log /\
  (forall i e, entries log !! i = Some e -> seq e = next_seq log - zlen (entries log) + Z.of_nat i).

Lemma log_wf_step log log' : wf log -> step log log' -> wf log'.
Proof.
  intros Hwf Hstep. destruct Hstep as [secret lg|now level source message lg Hmax]; destruct Hwf as (Hcap & Hne & H1 & Hlt & Hseq).
  - unfold register_secret. destruct (Nat.ltb_spec (length (chars secret)) MIN_SECRET_CHARS) as [|Hlen]; [by unfold wf|].
    case_bool_decide; [by unfold wf|]. unfold wf, set_field. cbn [entries secrets next_seq].
    split_and!; try done. apply Forall_app. split; [done|]. constructor; [|constructor]. intros ->. vm_compute in Hlen. lia.
  - unfold append. cbv zeta. unfold wf, set_field. cbn [entries secrets next_seq].
    set (kept := if Nat.eqb _ _ then _ else _).
    assert (Hkept : (length kept < WATCH_LOG_CAPACITY)%nat /\ zlen kept <= zlen (entries lg) /\
      forall i e, kept !! i = Some e -> seq e = next_seq lg - zlen kept + Z.of_nat i).
    { unfold kept. destruct (Nat.eqb_spec (length (entries lg)) WATCH_LOG_CAPACITY) as [E|E].
      - assert (Hl : length (drop 1 (entries lg)) = (length (entries lg) - 1)%nat) by apply length_drop.
        unfold zlen. rewrite Hl. unfold WATCH_LOG_CAPACITY in *. split_and!; [lia|lia|].
        intros i e. rewrite lookup_drop. intros He%Hseq. rewrite He. unfold zlen. lia.
      - split_and!; [lia|done|done]. }
    destruct Hkept as (Hk1 & Hk2 & Hk3). clearbody kept. unfold u64_max in Hmax.
    unfold as_u64, as_unsigned. rewrite Z.mod_small by lia. rewrite zlen_app, length_app.
    change (zlen [_]) with 1. cbn [length]. split_and!; [lia|done|lia|lia|].
    intros i e Hi. apply lookup_app_Some in Hi as [Hi|[Hi He]].
    + rewrite (Hk3 _ _ Hi). lia.
    + apply list_lookup_singleton_Some in He as [Hz <-]. cbn [seq]. unfold zlen. lia.
Qed.
Lemma log_reachable_wf log : reachable log -> wf log.
Proof.
  induction 1 as [|log log' _ IH Hstep]; [|by eapply log_wf_step].
  unfold wf. cbn. unfold WATCH_LOG_CAPACITY. split_and!; [lia|constructor|lia|done|done].
Qed.

(** Every entry of a later log that is not of the earlier one was appended with
    the secrets of the earlier one registered. *)
Lemma later_step_secret log log' secret : step log log' -> secret ∈ secrets log -> secret ∈ secrets log'.
Proof.
  intros [s lg|now level source message lg _] Hin.
  - unfold register_secret. destruct (Nat.ltb _ _); [done|]. case_bool_decide; [done|].
    cbn. apply elem_of_app. by left.
  - done.
Qed.
Lemma registered_secret_clean log secret log' :
  reachable log -> (MIN_SECRET_CHARS <= length (chars secret))%nat -> star_free secret ->
  later (register_secret secret log) log' ->
  forall e, e ∈ entries log' -> next_seq log <= seq e -> ~ infix secret (message e).
Proof.
  intros Hr Hlen Hs Hl.
  assert (Hreg : secret ∈ secrets (register_secret secret log)).
  { unfold register_secret. destruct (Nat.ltb_spec (length (chars secret)) MIN_SECRET_CHARS); [lia|].
    case_bool_decide; [done|]. cbn. apply elem_of_app. right. by left. }
  assert (Hsame : next_seq (register_secret secret log) = next_seq log /\
                  entries (register_secret secret log) = entries log).
  { unfold register_secret. destruct (Nat.ltb _ _); [done|]. by case_bool_decide. }
  assert (Hr0 : reachable (register_secret secret log)) by (eapply Reach_step; [done|constructor]).
  assert (H : reachable log' /\ secret ∈ secrets log' /\ next_seq log <= next_seq log' /\
    forall e, e ∈ entries log' -> next_seq log <= seq e -> ~ infix secret (message e)); [|by apply H].
  induction Hl as [|log1 log2 _ (Hr1 & Hin & Hnext & IH) Hstep].
  - destruct Hsame as [-> ->]. split_and!; [done|done|lia|].
    intros e He Hseq. exfalso. destruct (log_reachable_wf log Hr) as (_ & _ & _ & _ & Hw).
    apply list_elem_of_lookup in He as [i Hi]. pose proof (lookup_lt_Some _ _ _ Hi).
    rewrite (Hw i e Hi) in Hseq. unfold zlen in Hseq. lia.
  - assert (Hr2 : reachable log2) by (by eapply Reach_step). pose proof (later_step_secret _ _ _ Hstep Hin).
    split; [done|]. split; [done|]. pose proof (log_reachable_wf _ Hr1) as (_ & Hne & H1 & _ & _).
    destruct Hstep as [s lg|now level source msg lg Hmax].
    + unfold register_secret. destruct (Nat.ltb _ _); [done|]. by case_bool_decide.
    + unfold append, set_field, as_u64, as_unsigned, u64_max in *. cbn [entries next_seq] in *.
      rewrite Z.mod_small by lia. split; [lia|]. intros e [He|He]%elem_of_app Hseq.
      * apply IH; [|done]. destruct (Nat.eqb _ _); [|done].
        rewrite <- (take_drop 1 (entries lg)). apply elem_of_app. by right.
      * apply list_elem_of_singleton in He as ->. cbn [message]. unfold truncate.
        pose proof (redact_clean secret (secrets lg) msg Hin Hne Hs) as Hclean.
        destruct (Nat.ltb _ _); [|done]. intros Hi. apply Hclean.
        eapply infix_trans; [exact Hi|apply infix_take_chars].
Qed.
(** No log entry repeats a registered secret: whatever is logged after a
    secret of at least four characters was registered, the entry that is kept
    does not contain it, also when the text that replaces another secret or the
    cut at the length limit changed the message around it. (A secret with an
    asterisk in it could be put together by the replacement text.) *)
Theorem registered_secrets_stay_out log secret log' :
  reachable log -> (MIN_SECRET_CHARS <= length (chars secret))%nat -> star_free secret ->
  later (register_secret secret log) log' ->
  forall e, e ∈ entries log' -> next_seq log <= seq e -> ~ infix secret (message e).
Proof. apply registered_secret_clean. Qed.

(** ** Reading with a cursor *)
Lemma partition_point_spec base after l :
  (forall i e, l !! i = Some e -> seq e = base + Z.of_nat i) ->
  drop (partition_point (fun e => seq e <=? after) l) l = List.filter (fun e => negb (seq e <=? after)) l.
Proof.
  revert base. induction l as [|e l IH]; intros base Hseq; [done|]. cbn [partition_point List.filter].
  pose proof (Hseq O e eq_refl) as He. destruct (Z.leb_spec (seq e) after) as [Hle|Hgt]; cbn [negb drop].
  - apply (IH (base + 1)). intros i e' Hi. rewrite (Hseq (S i) e' Hi). lia.
  - f_equal. symmetry. apply forallb_filter_id, forallb_forall. intros e' He'.
    apply list_elem_of_In, list_elem_of_lookup in He' as [i Hi]. rewrite (Hseq (S i) e' Hi).
    destruct (Z.leb_spec (base + Z.of_nat (S i)) after); [lia|done].
Qed.
(** In every log the service can reach, at most 500 entries are kept, their
    sequence numbers are consecutive up to the last one given out, and a client
    that asks with the last number it saw gets the next entries in order, none
    skipped and none twice unless they have left the buffer. *)
Theorem cursor_reads_in_order log after limit :
  reachable log ->
  (length (entries log) <= WATCH_LOG_CAPACITY)%nat /\
  entries_after after limit log
    = take limit (List.filter (fun e => negb (seq e <=? after)) (entries log)) /\
  forall i e, entries_after after limit log !! i = Some e ->
    seq e = Z.max (after + 1) (next_seq log - zlen (entries log)) + Z.of_nat i /\ seq e < next_seq log.
Proof.
  intros Hr. destruct (log_reachable_wf log Hr) as (Hcap & _ & _ & _ & Hseq).
  set (base := next_seq log - zlen (entries log)) in *. split; [done|]. split.
  - unfold entries_after. cbv zeta. by rewrite (partition_point_spec base).
  - intros i e. unfold entries_after. cbv zeta.
    assert (Hstart : forall l b, (forall i e, l !! i = Some e -> seq e = b + Z.of_nat i) ->
      partition_point (fun e => seq e <=? after) l = O /\ after < b \/
      b + Z.of_nat (partition_point (fun e => seq e <=? after) l) = after + 1 /\ b <= after \/
      partition_point (fun e => seq e <=? after) l = length l).
    { induction l as [|e' l IH]; intros b Hb; [by right; right|]. cbn [partition_point].
      pose proof (Hb O e' eq_refl) as He. destruct (Z.leb_spec (seq e') after); [|left; split; [done|lia]].
      right. destruct (IH (b + 1)) as [[-> ?]|[[E ?]| ->]];
        [intros j e2 Hj; rewrite (Hb (S j) e2 Hj); lia|left; lia|left; lia|by right]. }
    intros Hi. assert (Hlt : (i < limit)%nat).
    { apply lookup_lt_Some in Hi. rewrite length_take in Hi. lia. }
    rewrite lookup_take in Hi. rewrite decide_True in Hi by done. rewrite lookup_drop in Hi.
    pose proof (lookup_lt_Some _ _ _ Hi). rewrite (Hseq _ _ Hi).
    destruct (Hstart _ _ Hseq) as [[E ?]|[[E ?]|E]]; [rewrite E| |rewrite E in *; lia];
      unfold base, zlen in *; lia.
Qed.

(** ** Witnesses *)
Definition toy_log : WatchLogBuffer :=
  append 9 Warn "collector" "login hunter2 failed" (register_secret "hunter2" new).
Lemma toy_reachable_log : reachable (register_secret "hunter2" new) /\ reachable toy_log.
Proof.
  assert (H : reachable (register_secret "hunter2" new)) by (eapply Reach_step; [apply Reach_new|constructor]).
  split; [done|]. eapply Reach_step; [exact H|]. by apply Step_append.
Qed.
Lemma registered_secrets_stay_out_witness :
  map message (entries toy_log) = ["login *** failed"] /\
  forall e, e ∈ entries toy_log -> 1 <= seq e -> ~ infix "hunter2" (message e).
Proof.
  split; [vm_compute; reflexivity|].
  apply (registered_secrets_stay_out new "hunter2" toy_log Reach_new);
    [vm_compute; lia|reflexivity|].
  eapply Later_step; [apply Later_now|by apply Step_append].
Defined.
Lemma cursor_reads_in_order_witness :
  reachable toy_log /\ (length (entries toy_log) <= WATCH_LOG_CAPACITY)%nat /\
  entries_after 0 10 toy_log = entries toy_log /\ entries_after 1 10 toy_log = [].
Proof.
  split; [apply toy_reachable_log|].
  destruct (cursor_reads_in_order toy_log 0 10 (proj2 toy_reachable_log)) as (H1 & H2 & _).
  split; [exact H1|]. split; [rewrite H2; vm_compute; reflexivity|vm_compute; reflexivity].
Defined.
