(* ===== verification/Watch.v ===== *)
(** The registry of the games being watched: [src/src/watch.rs]. A hash map is
    a finite map; the order in which it is walked is an argument. *)
From S2P Require Import Prelude Text.
#[local] Open Scope string_scope.
#[local] Open Scope list_scope.
#[local] Open Scope Z_scope.

Module Watch.

Definition MAX_RECENT_RECORDS : nat := 10000.
Inductive WatchEventKind :=
| EvLive | EvPending | EvFetching | EvConverting | EvCompleted | EvFetchFailed | EvConversionFailed.
Record WatchEvent := mkEvent {
  ev_uuid : string; event : WatchEventKind; ev_mode_id : option Z; ev_started_at : option Z;
  ev_message : option string; ev_record_id : option (list Z)
}.
Inductive UuidState := Live | Pending | Fetching | Fetched | UuidFailed.
Inductive ConversionState := Waiting | Converting | Completed | ConversionFailed.
#[export] Instance UuidState_dec : EqDecision UuidState.
Proof. solve_decision. Defined.
#[export] Instance ConversionState_dec : EqDecision ConversionState.
Proof. solve_decision. Defined.
Record WatchRecord := mkRecord {
  uuid : string; uuid_state : UuidState; conversion_state : ConversionState; mode_id : option Z;
  started_at : option Z; updated_at : Z; attempts : Z; message : option string;
  record_id : option (list Z)
}.
#[export] Instance WatchRecord_settable : Settable WatchRecord := fun r =>
  mkRecord (uuid r) (uuid_state r) (conversion_state r) (mode_id r) (started_at r) (updated_at r)
    (attempts r) (message r) (record_id r).
Inductive WatchError := InvalidUuid.
Abbreviation WatchRegistry := (gmap string WatchRecord).
Record WatchSummary := mkSummary {
  total : nat; live : nat; pending : nat; converting : nat; completed : nat; failed : nat;
  items : list WatchRecord
}.

(** [is_ascii_graphic], without the slash. *)
Definition uuid_byte (b : Z) : bool := between 33 b 126 && negb (b =? 47).
Definition valid_uuid (u : string) : bool :=
  negb (String.eqb u "") && Nat.leb (String.length u) 96 && forallb uuid_byte (bytes_of_string u).

Definition or_else {A} (new old : option A) : option A := match new with Some _ => new | None => old end.
(** The transition of one event on one record. *)
Definition transition (kind : WatchEventKind) (r : WatchRecord) : WatchRecord :=
  match kind with
  | EvLive => r <| uuid_state := Live |> <| conversion_state := Waiting |>
  | EvPending => r <| uuid_state := Pending |> <| conversion_state := Waiting |>
  | EvFetching => r <| uuid_state := Fetching |> <| attempts ::= fun n => sat_add_u32 n 1 |>
  | EvConverting => r <| uuid_state := Fetched |> <| conversion_state := Converting |>
  | EvCompleted => r <| uuid_state := Fetched |> <| conversion_state := Completed |>
  | EvFetchFailed => r <| uuid_state := UuidFailed |> <| conversion_state := Waiting |>
  | EvConversionFailed => r <| uuid_state := Fetched |> <| conversion_state := ConversionFailed |>
  end.
(** The assignments every event makes. *)
Definition touched (now : Z) (e : WatchEvent) (r : WatchRecord) : WatchRecord :=
  mkRecord (uuid r) (uuid_state r) (conversion_state r) (or_else (ev_mode_id e) (mode_id r))
    (or_else (ev_started_at e) (started_at r)) now (attempts r) (ev_message e)
    (or_else (ev_record_id e) (record_id r)).
Definition updated (now : Z) (e : WatchEvent) (old : option WatchRecord) : WatchRecord :=
  transition (event e) (touched now e (default
    (mkRecord (ev_uuid e) Live Waiting (ev_mode_id e) (ev_started_at e) now 0 None None) old)).
Definition terminal (r : WatchRecord) : bool :=
  bool_decide (uuid_state r = UuidFailed)
  || match conversion_state r with Completed | ConversionFailed => true | _ => false end.
(** [Iterator::min_by_key]: the first of the least. *)
Fixpoint min_by_updated (l : list WatchRecord) : option WatchRecord :=
  match l with
  | [] => None
  | r :: l => match min_by_updated l with
              | Some m => if updated_at m <? updated_at r then Some m else Some r
              | None => Some r
              end
  end.

Section Registry.
(** [HashMap::values], in the order the table has. *)
Variable values : WatchRegistry -> list WatchRecord.

Definition evict (records : WatchRegistry) : WatchRegistry :=
  if Nat.ltb MAX_RECENT_RECORDS (size records) then
    match min_by_updated (List.filter terminal (values records)) with
    | Some oldest => delete (uuid oldest) records
    | None => records
    end
  else records.
Definition apply (now : Z) (e : WatchEvent) (records : WatchRegistry)
  : WatchRegistry * result WatchError WatchRecord :=
  if negb (valid_uuid (ev_uuid e)) then (records, Err InvalidUuid)
  else
    let record := updated now e (records !! ev_uuid e) in
    (evict (<[ev_uuid e := record]> records), Ok record).

Definition state_matches (state : string) (r : WatchRecord) : bool :=
  if String.eqb state "live" then bool_decide (uuid_state r = Live)
  else if String.eqb state "pending" then
    bool_decide (uuid_state r = Pending) || bool_decide (uuid_state r = Fetching)
  else if String.eqb state "fetching" then bool_decide (uuid_state r = Fetching)
  else if String.eqb state "converting" then bool_decide (conversion_state r = Converting)
  else if String.eqb state "completed" then bool_decide (conversion_state r = Completed)
  else if String.eqb state "failed" then
    bool_decide (uuid_state r = UuidFailed) || bool_decide (conversion_state r = ConversionFailed)
  else true.
Definition count (p : WatchRecord -> bool) (l : list WatchRecord) : nat := length (List.filter p l).
Definition summary (state : option string) (limit : nat) (records : WatchRegistry) : WatchSummary :=
  let all := sort_by (fun a b => updated_at b <=? updated_at a) (values records) in
  mkSummary (length all)
    (count (fun r => bool_decide (uuid_state r = Live)) all)
    (count (fun r => bool_decide (uuid_state r = Pending) || bool_decide (uuid_state r = Fetching)) all)
    (count (fun r => bool_decide (conversion_state r = Converting)) all)
    (count (fun r => bool_decide (conversion_state r = Completed)) all)
    (count (fun r => bool_decide (uuid_state r = UuidFailed)
                     || bool_decide (conversion_state r = ConversionFailed)) all)
    (take limit (List.filter (fun r => match state with Some s => state_matches s r | None => true end) all)).
End Registry.
End Watch.

Import Watch.

Section Facts.
Context (values : WatchRegistry -> list WatchRecord).
Hypothesis values_spec : forall m, values m ≡ₚ map snd (map_to_list m).

Definition reachable_registry : WatchRegistry -> Prop := fun m =>
  exists events : list (Z * WatchEvent),
    m = fold_left (fun m '(now, e) => fst (apply values now e m)) events ∅.

(** The registry is keyed by valid identifiers, the attempts are a [u32], and a
    table above the limit has nothing that could be evicted. *)
Definition wf (m : WatchRegistry) : Prop :=
  map_Forall (fun k r => uuid r = k /\ valid_uuid k = true /\ 0 <= attempts r <= u32_max) m /\
  ((size m <= MAX_RECENT_RECORDS)%nat \/ map_Forall (fun _ r => terminal r = false) m).

Lemma elem_of_values m r : r ∈ values m <-> exists k, m !! k = Some r.
Proof using values_spec.
  rewrite values_spec, list_elem_of_In, in_map_iff. split.
  - intros ([k r'] & <- & Hin%list_elem_of_In%elem_of_map_to_list). by exists k.
  - intros [k Hk%elem_of_map_to_list%list_elem_of_In]. by exists (k, r).
Qed.
Lemma min_by_updated_spec l :
  match min_by_updated l with
  | Some m => m ∈ l /\ forall r, r ∈ l -> updated_at m <= updated_at r
  | None => l = []
  end.
Proof.
  induction l as [|r l IH]; [done|]. cbn [min_by_updated]. destruct (min_by_updated l) as [m|].
  - destruct IH as [Hm Hle]. destruct (Z.ltb_spec (updated_at m) (updated_at r)).
    + split; [by right|]. intros r' [->|Hr]%elem_of_cons; [lia|by apply Hle].
    + split; [left|]. intros r' [->|Hr]%elem_of_cons; [lia|]. specialize (Hle r' Hr). lia.
  - subst. split; [left|]. intros r' ->%list_elem_of_singleton. lia.
Qed.
(** Eviction takes out at most one record, a terminal one none of the terminal
    ones is older than. *)
Lemma evict_spec m :
  map_Forall (fun k r => uuid r = k) m ->
  (evict values m = m /\ ((size m <= MAX_RECENT_RECORDS)%nat \/ map_Forall (fun _ r => terminal r = false) m)) \/
  exists k r, evict values m = delete k m /\ m !! k = Some r /\ terminal r = true /\
    (MAX_RECENT_RECORDS < size m)%nat /\
    forall k' r', m !! k' = Some r' -> terminal r' = true -> updated_at r <= updated_at r'.
Proof using values_spec.
  intros Hk. unfold evict. destruct (Nat.ltb_spec MAX_RECENT_RECORDS (size m)) as [Hlt|Hle]; [|auto].
  pose proof (min_by_updated_spec (List.filter terminal (values m))) as Hmin.
  destruct (min_by_updated _) as [r|].
  - right. destruct Hmin as [[Hin Ht]%list_elem_of_In%filter_In Hmin].
    apply list_elem_of_In, elem_of_values in Hin as [k Hm]. exists k, r.
    rewrite (Hk k r Hm). split_and!; try done. intros k' r' Hm' Ht'. apply Hmin.
    apply list_elem_of_In, filter_In. split; [|done]. apply list_elem_of_In, elem_of_values. eauto.
  - left. split; [done|]. right. intros k r Hm. apply not_true_is_false. intros Ht.
    assert (Hin : r ∈ List.filter terminal (values m)).
    { apply list_elem_of_In, filter_In. split; [|done]. apply list_elem_of_In, elem_of_values. eauto. }
    rewrite Hmin in Hin. by apply elem_of_nil in Hin.
Qed.
Lemma updated_wf now e old : (forall r, old = Some r -> uuid r = ev_uuid e /\ 0 <= attempts r <= u32_max) ->
  uuid (updated now e old) = ev_uuid e /\ 0 <= attempts (updated now e old) <= u32_max.
Proof.
  intros H. unfold updated. set (r := default _ old).
  assert (Hr : uuid r = ev_uuid e /\ 0 <= attempts r <= u32_max).
  { unfold r. destruct old as [r'|]; [by apply H|]. split; [done|]. unfold u32_max. simpl. lia. }
  clearbody r. destruct (event e); try exact Hr.
  split; [apply Hr|]. change (0 <= sat_add_u32 (attempts r) 1 <= u32_max). unfold sat_add_u32. lia.
Qed.
Lemma wf_apply now e m : wf m -> wf (fst (apply values now e m)).
Proof using values_spec.
  intros [Hk Hcap]. unfold apply. destruct (valid_uuid (ev_uuid e)) eqn:Hv; cbn [negb fst]; [|by split].
  set (r := updated now e (m !! ev_uuid e)).
  assert (Hr : uuid r = ev_uuid e /\ 0 <= attempts r <= u32_max).
  { apply updated_wf. intros r' Hr'. destruct (Hk _ _ Hr') as (? & _ & ?). done. }
  assert (Hk' : map_Forall (fun k r => uuid r = k /\ valid_uuid k = true /\ 0 <= attempts r <= u32_max)
                  (<[ev_uuid e := r]> m)).
  { apply map_Forall_insert_2; [|done]. by destruct Hr. }
  destruct (evict_spec (<[ev_uuid e := r]> m)) as [[-> Hc]|(k & r' & -> & Hm & Ht & Hlt & Hmin)].
  - intros k r' Hm. by destruct (Hk' k r' Hm).
  - by split.
  - split; [by apply map_Forall_delete|].
    rewrite map_size_delete, Hm. destruct Hcap as [Hcap|Hnone].
    + left. rewrite map_size_insert in *. destruct (m !! ev_uuid e); unfold id; cbn [Nat.pred]; lia.
    + right. intros k' r'' Hm'. apply lookup_delete_Some in Hm' as [Hne Hm'].
      destruct (decide (k' = ev_uuid e)) as [->|He].
      * destruct (decide (k = ev_uuid e)) as [->|Hke]; [done|].
        rewrite lookup_insert_ne in Hm by done. by rewrite (Hnone k r' Hm) in Ht.
      * rewrite lookup_insert_ne in Hm' by done. by apply (Hnone k').
Qed.
Lemma reachable_registry_wf m : reachable_registry m -> wf m.
Proof using values_spec.
  intros [events ->]. assert (H0 : wf ∅).
  { split; [apply map_Forall_empty|right; apply map_Forall_empty]. }
  revert H0. generalize (∅ : WatchRegistry) as m. induction events as [|[now e] events IH]; intros m Hm; [done|].
  cbn [fold_left]. by apply IH, wf_apply.
Qed.

(** The state an event puts a record in, by itself: the record of the game
    before does not matter to it, but for the conversion while fetching. *)
Definition state_after (kind : WatchEventKind) (before : ConversionState) : UuidState * ConversionState :=
  match kind with
  | EvLive => (Live, Waiting) | EvPending => (Pending, Waiting) | EvFetching => (Fetching, before)
  | EvConverting => (Fetched, Converting) | EvCompleted => (Fetched, Completed)
  | EvFetchFailed => (UuidFailed, Waiting) | EvConversionFailed => (Fetched, ConversionFailed)
  end.

(** An event with a valid identifier puts that game, and no other, in the
    state of the event, keeping what the event does not say; the registry then
    stays within its limit by dropping one finished game, of those the one
    untouched for longest, and goes over the limit only while every game in it
    is unfinished; an event with an invalid identifier changes nothing. *)
Theorem apply_spec now e m :
  reachable_registry m ->
  let '(m', r) := apply values now e m in
  if valid_uuid (ev_uuid e) then
    exists record, r = Ok record /\ uuid record = ev_uuid e /\ updated_at record = now /\
      (uuid_state record, conversion_state record)
        = state_after (event e) (default Waiting (conversion_state <$> m !! ev_uuid e)) /\
      message record = ev_message e /\
      mode_id record = or_else (ev_mode_id e) (m !! ev_uuid e ≫= mode_id) /\
      record_id record = or_else (ev_record_id e) (m !! ev_uuid e ≫= record_id) /\
      (m' = <[ev_uuid e := record]> m \/
       exists k old, m' = delete k (<[ev_uuid e := record]> m) /\
         <[ev_uuid e := record]> m !! k = Some old /\ terminal old = true /\
         forall k' r', <[ev_uuid e := record]> m !! k' = Some r' -> terminal r' = true ->
           updated_at old <= updated_at r') /\
      ((size m' <= MAX_RECENT_RECORDS)%nat \/ map_Forall (fun _ r => terminal r = false) m')
  else m' = m /\ r = Err InvalidUuid.
Proof using values_spec.
  intros Hreach. pose proof (reachable_registry_wf m Hreach) as Hwf.
  pose proof (wf_apply now e m Hwf) as [_ Hcap]. unfold apply in *.
  destruct (valid_uuid (ev_uuid e)) eqn:Hv; cbn [negb fst] in *; [|done].
  set (r := updated now e (m !! ev_uuid e)) in *. exists r. split; [done|].
  assert (Hk : map_Forall (fun k r => uuid r = k) (<[ev_uuid e := r]> m)).
  { apply map_Forall_insert_2.
    - apply updated_wf. intros r' Hr'. by destruct (proj1 Hwf _ _ Hr') as (? & _ & ?).
    - intros k r' Hm. by destruct (proj1 Hwf k r' Hm). }
  split; [by apply (Hk (ev_uuid e) r), lookup_insert_eq|].
  assert (Hfields : updated_at r = now /\ (uuid_state r, conversion_state r)
        = state_after (event e) (default Waiting (conversion_state <$> m !! ev_uuid e)) /\
      message r = ev_message e /\ mode_id r = or_else (ev_mode_id e) (m !! ev_uuid e ≫= mode_id) /\
      record_id r = or_else (ev_record_id e) (m !! ev_uuid e ≫= record_id)).
  { unfold r, updated. destruct (m !! ev_uuid e) as [old|]; destruct (event e); split_and!; try done;
      cbn; unfold or_else; by repeat case_match. }
  destruct Hfields as (? & ? & ? & ? & ?). split_and!; try done.
  destruct (evict_spec _ Hk) as [[E _]|(k & old & E & Hm & Ht & _ & Hmin)]; rewrite E; [by left|right].
  by exists k, old.
Qed.

Lemma count_disjoint (p q : WatchRecord -> bool) l :
  (forall r, p r = true -> q r = true -> False) ->
  (length (List.filter p l) + length (List.filter q l) <= length l)%nat.
Proof.
  intros H. induction l as [|r l IH]; [done|]. cbn [List.filter length].
  destruct (p r) eqn:Hp, (q r) eqn:Hq; cbn [length]; try lia. by destruct (H r).
Qed.
(** The summary counts every game once in the total and shows the newest
    games first: its items are, in order of their last event, the first [limit]
    of the games in the state asked for. *)
Theorem summary_spec state limit m :
  let s := summary values state limit m in
  total s = size m /\ (live s + pending s <= total s)%nat /\ (converting s + completed s <= total s)%nat /\
  (length (items s) <= limit)%nat /\
  StronglySorted (fun a b => updated_at b <= updated_at a) (items s) /\
  (forall r, r ∈ items s -> (exists k, m !! k = Some r) /\
     forall wanted, state = Some wanted -> state_matches wanted r = true) /\
  forall k r, m !! k = Some r -> (forall wanted, state = Some wanted -> state_matches wanted r = true) ->
    r ∈ items s \/ length (items s) = limit /\ Forall (fun i => updated_at r <= updated_at i) (items s).
Proof using values_spec.
  cbv zeta. unfold summary. set (le := fun a b => updated_at b <=? updated_at a).
  set (keep := fun r => match state with Some s => state_matches s r | None => true end).
  cbn [total live pending converting completed items].
  assert (Hperm : sort_by le (values m) ≡ₚ map snd (map_to_list m)) by (by rewrite sort_by_perm, values_spec).
  assert (Hsorted : StronglySorted (fun a b => le a b = true) (sort_by le (values m))).
  { apply sort_by_sorted; unfold le; intros *; rewrite !Z.leb_le; lia. }
  set (all := sort_by le (values m)) in *. clearbody all. unfold count.
  assert (Hlen : length all = size m) by (rewrite Hperm, length_map; apply length_map_to_list).
  assert (Hin : forall r, r ∈ all <-> exists k, m !! k = Some r).
  { intros r. rewrite <- elem_of_values. by rewrite Hperm, values_spec. }
  assert (Hfs : StronglySorted (fun a b => updated_at b <= updated_at a) (List.filter keep all)).
  { apply StronglySorted_list_filter. eapply StronglySorted_impl; [exact Hsorted|].
    intros a b. unfold le. by rewrite Z.leb_le. }
  assert (Hkeep : forall r, keep r = true <-> forall wanted, state = Some wanted -> state_matches wanted r = true).
  { intros r. unfold keep. destruct state as [s|]; split; try done; [by intros ? ? [= <-]|auto]. }
  split_and!; [done|apply count_disjoint; by intros [? [] ? ? ? ? ? ? ?]
    |apply count_disjoint; by intros [? ? [] ? ? ? ? ? ?]|rewrite length_take; lia| | |].
  - rewrite <- (take_drop limit (List.filter keep all)) in Hfs. by apply StronglySorted_app in Hfs as (_ & ? & _).
  - intros r Hr. assert (Hr' : r ∈ List.filter keep all).
    { rewrite <- (take_drop limit (List.filter keep all)). apply elem_of_app. by left. }
    apply list_elem_of_In, filter_In in Hr' as [Hr'%list_elem_of_In%Hin Hk]. split; [done|]. by apply Hkeep.
  - intros k r Hm Hk. assert (Hr : r ∈ List.filter keep all).
    { apply list_elem_of_In, filter_In. split; [apply list_elem_of_In, Hin; eauto|by apply Hkeep]. }
    rewrite <- (take_drop limit (List.filter keep all)) in Hr, Hfs. apply elem_of_app in Hr as [Hr|Hr]; [by left|].
    right. apply StronglySorted_app in Hfs as (Hbefore & _ & _). split.
    + rewrite length_take. apply list_elem_of_lookup in Hr as [i Hi].
      pose proof (lookup_lt_Some _ _ _ Hi) as Hlt. rewrite length_drop in Hlt. lia.
    + apply Forall_forall. intros i Hi. by apply Hbefore.
Qed.
End Facts.

(** ** Witness: a game seen live, then fetched. *)
Definition toy_values (m : WatchRegistry) : list WatchRecord := map snd (map_to_list m).
Definition toy_event (kind : WatchEventKind) : WatchEvent := mkEvent "260723-a" kind (Some 16) None None None.
Definition toy_registry : WatchRegistry := fst (apply toy_values 5 (toy_event EvLive) ∅).
Lemma toy_reachable_registry : reachable_registry toy_values toy_registry.
Proof. by exists [(5, toy_event EvLive)]. Qed.
Lemma apply_spec_witness :
  reachable_registry toy_values toy_registry /\
  exists record, snd (apply toy_values 9 (toy_event EvFetching) toy_registry) = Ok record /\
    uuid record = "260723-a" /\ updated_at record = 9.
Proof.
  split; [exact toy_reachable_registry|].
  pose proof (apply_spec toy_values (fun m => reflexivity _) 9 (toy_event EvFetching) toy_registry
    toy_reachable_registry) as H.
  destruct (apply toy_values 9 (toy_event EvFetching) toy_registry) as [m' r].
  change (valid_uuid (ev_uuid (toy_event EvFetching))) with true in H. cbv iota in H.
  destruct H as (record & Hr & Hu & Hn & _). exists record. by split_and!.
Defined.
Lemma summary_spec_witness :
  (forall m, toy_values m ≡ₚ map snd (map_to_list m)) /\
  total (summary toy_values (Some "live") 10 toy_registry) = size toy_registry.
Proof.
  split; [intros m; reflexivity|].
  apply (summary_spec toy_values (fun m => reflexivity _) (Some "live") 10 toy_registry).
Defined.
