(* ===== verification/F64.v ===== *)
(** [f64]: IEEE 754 binary64 rounding to nearest even, on the floats of the
    standard library, and the order of [f64::total_cmp]. *)
From Stdlib Require Export SpecFloat.
From S2P Require Import Prelude.
#[local] Open Scope Z_scope.

Module F64.

Definition f64 : Type := spec_float.
Definition f64_of (n : Z) : f64 := binary_normalize 53 1024 n 0 false.
Definition f64_add : f64 -> f64 -> f64 := SFadd 53 1024.
Definition f64_sub : f64 -> f64 -> f64 := SFsub 53 1024.
Definition f64_mul : f64 -> f64 -> f64 := SFmul 53 1024.
Definition f64_div : f64 -> f64 -> f64 := SFdiv 53 1024.
(** The order of [f64::total_cmp]: the bits as a signed integer, the magnitude of
    a negative one complemented. *)
Definition total_key (x : f64) : Z :=
  match x with
  | S754_zero s => if s then -1 else 0
  | S754_finite s m e => let bits := (e + 1074) * 2 ^ 52 + Zpos m in if s then -1 - bits else bits
  | S754_infinity s => let bits := 2047 * 2 ^ 52 in if s then -1 - bits else bits
  | S754_nan => 2047 * 2 ^ 52 + 2 ^ 51
  end.
End F64.
