(* ===== verification/Mihomo.v ===== *)
(** The manager of the proxy core: its subscriptions, the outbound of each node
    and the addresses sessions dial, the traffic sampler, and the configuration
    it writes ([src/src/mihomo.rs]). *)
From Stdlib Require Import SpecFloat.
From S2P Require Import Prelude Text Json F64.
#[local] Open Scope string_scope.
#[local] Open Scope list_scope.
#[local] Open Scope Z_scope.

Module Mihomo.
Import Json F64.

Definition LEGACY_PROVIDER : string := "majsoul".
Definition GROUP_NAME : string := "MAJSOUL".
Definition HEALTH_URL : string := "https://game.maj-soul.com/1/version.json".
Definition HEALTH_EXPECTED_STATUS : string := "200".
Definition HEALTH_TIMEOUT_MS : Z := 10000.
Definition HEALTH_LAZY : bool := false.
Definition LANE_ATTEMPTS : nat := 12.

(** ** The lanes and the outbounds *)
Inductive MihomoLane := Watch | Refetch.
Definition group (lane : MihomoLane) : string :=
  match lane with Watch => "MAJSOUL-WATCH" | Refetch => "MAJSOUL-REFETCH" end.
Definition port (lane : MihomoLane) : Z := match lane with Watch => 7891 | Refetch => 7892 end.
Definition listener (lane : MihomoLane) : string :=
  match lane with Watch => "majsoul-watch-in" | Refetch => "majsoul-refetch-in" end.
Definition ALL : list MihomoLane := [Watch; Refetch].
Definition OUTBOUND_PORT_BASE : Z := 7900.
Definition RESERVED_PORTS : list Z := [9090].
Definition MAX_OUTBOUNDS : Z := u16_max - OUTBOUND_PORT_BASE.
Definition outbound_group (slot : Z) : string := "MAJSOUL-OUT-" +:+ pretty slot.
Definition outbound_port (slot : Z) : Z := as_u16 (OUTBOUND_PORT_BASE + slot).

(** [OutboundSlots]: node name to slot. *)
Abbreviation OutboundSlots := (gmap string Z).
Definition free (taken : gset Z) (slot : Z) : bool :=
  negb (bool_decide (slot ∈ taken)) && negb (existsb (Z.eqb (outbound_port slot)) RESERVED_PORTS).
(** The first free slot of [n] from [slot] on: [(1..=MAX_OUTBOUNDS).find]. *)
Fixpoint find_from (n : nat) (taken : gset Z) (slot : Z) : option Z :=
  match n with
  | O => None
  | S n => if free taken slot then Some slot else find_from n taken (slot + 1)
  end.
Definition find_slot (taken : gset Z) : option Z := find_from (Z.to_nat MAX_OUTBOUNDS) taken 1.
Fixpoint assign (nodes : list string) (taken : gset Z) (assignments : OutboundSlots) : OutboundSlots :=
  match nodes with
  | [] => assignments
  | node :: nodes =>
    match assignments !! node with
    | Some _ => assign nodes taken assignments
    | None =>
      match find_slot taken with
      | Some slot => assign nodes ({[slot]} ∪ taken) (<[node := slot]> assignments)
      | None => assignments
      end
    end
  end.
Definition kept (nodes : list string) (before : OutboundSlots) : OutboundSlots :=
  filter (fun '(node, _) => node ∈ nodes) before.
Definition refile (nodes : list string) (before : OutboundSlots) : OutboundSlots * bool :=
  let kept := kept nodes before in
  let after := assign nodes (map_img kept) kept in
  (after, bool_decide (after <> before)).

(** ** Subscriptions *)
Record StoredSubscription := mkStored {
  id : string; label : string; prefix : option string; url : string; update_interval_secs : Z
}.
Definition prefix_of (s : StoredSubscription) : string := default "" (prefix s).
Inductive MihomoError := InvalidConfig (why : string) | Controller (why : string) | Io | JsonError | Http.

(** What [serde] reads of a struct: the fields of an object by name, or of an
    array by position, which may then hold no more than the fields. *)
Definition field (fields i : nat) (name : string) (v : json) : result unit (option json) :=
  match v with
  | JObj o => Ok (assoc name o)
  | JArr l => if Nat.ltb fields (length l) then Err tt else Ok (nth_error l i)
  | _ => Err tt
  end.
Definition string_value (v : json) : result unit string :=
  match v with JStr s => Ok s | _ => Err tt end.
Definition with_default {A} (d : A) (read : json -> result unit A) (v : option json) : result unit A :=
  match v with Some v => read v | None => Ok d end.
Definition required {A} (read : json -> result unit A) (v : option json) : result unit A :=
  match v with Some v => read v | None => Err tt end.
Definition optional (v : json) : result unit (option string) :=
  match v with JNull => Ok None | JStr s => Ok (Some s) | _ => Err tt end.
Definition u64_value (v : json) : result unit Z :=
  match as_u64 v with Some n => Ok n | None => Err tt end.
Definition read_stored (v : json) : result unit StoredSubscription :=
  id ← field 5 0 "id" v; id ← with_default LEGACY_PROVIDER string_value id;
  label ← field 5 1 "label" v; label ← with_default LEGACY_PROVIDER string_value label;
  prefix ← field 5 2 "prefix" v; prefix ← with_default None optional prefix;
  url ← field 5 3 "url" v; url ← required string_value url;
  interval ← field 5 4 "update_interval_secs" v; interval ← required u64_value interval;
  Ok (mkStored id label prefix url interval).
Definition read_list {A} (read : json -> result unit A) (v : json) : result unit (list A) :=
  match v with JArr l => mapM read l | _ => Err tt end.
Definition read_subscriptions (v : json) : result unit (list StoredSubscription) :=
  l ← field 1 0 "subscriptions" v; with_default [] (read_list read_stored) l.
Definition write_stored (s : StoredSubscription) : json :=
  JObj [("id", JStr (id s)); ("label", JStr (label s));
        ("prefix", match prefix s with Some p => JStr p | None => JNull end);
        ("url", JStr (url s)); ("update_interval_secs", num (update_interval_secs s))].
Definition write_subscriptions (l : list StoredSubscription) : json :=
  JObj [("subscriptions", JArr (map write_stored l))].

Record Url := mkUrl { scheme : string; host_str : option string; url_port : option Z }.
Record SubscriptionUpdate := mkUpdate {
  new_url : string; new_interval : Z; new_label : option string; replaces : option string
}.
Definition MAX_SUBSCRIPTIONS : nat := 16.

(** ** Nodes *)
(** [str::parse::<f64>] on digits and dots: the decimal, rounded to nearest. *)
Definition is_digit (c : string) : bool :=
  match c with String a "" => match digit_value a with Some _ => true | None => false end | _ => false end.
Definition decimal (whole fraction : string) : option f64 :=
  if String.eqb (whole +:+ fraction) "" then None
  else match digits_value 0 (whole +:+ fraction) with
       | Some (Zpos m) => Some (SFdiv 53 1024 (S754_finite false m 0)
                                 (S754_finite false (Z.to_pos (10 ^ Z.of_nat (String.length fraction))) 0))
       | Some _ => Some (S754_zero false)
       | None => None
       end.
Definition parse_f64 (s : string) : option f64 :=
  match split_on "."%char s with
  | [whole] => decimal whole ""
  | [whole; fraction] => decimal whole fraction
  | _ => None
  end.
Definition numeric (c : string) : bool := is_digit c || String.eqb c ".".
Fixpoint take_while (p : string -> bool) (l : list string) : list string :=
  match l with c :: l => if p c then c :: take_while p l else [] | [] => [] end.
Definition between_marker (c : string) : bool := existsb (String.eqb c) [" "; ":"; "："; "="; "率"; "数"].
Definition number_after (rest : list string) : option f64 :=
  parse_f64 (String.concat "" (take_while numeric (skip_while between_marker rest))).
(** [before] is reversed: the character next to the marker comes first. *)
Definition number_before (before : list string) : option f64 :=
  parse_f64 (String.concat "" (rev (take_while numeric before))).
Definition is_marker (c : string) : bool := existsb (String.eqb c) ["x"; "X"; "×"; "倍"].
Definition plausible (v : f64) : bool := SFltb (S754_zero false) v && SFleb v (f64_of 10).
Definition better (found : option f64) (candidate : option f64) : option f64 :=
  match candidate with
  | Some v => if plausible v then Some (match found with Some best => if SFltb best v then v else best | None => v end)
              else found
  | None => found
  end.
Fixpoint multiplier_from (before rest : list string) (found : option f64) : option f64 :=
  match rest with
  | [] => found
  | c :: rest =>
    multiplier_from (c :: before) rest
      (if is_marker c then better (better found (number_after rest)) (number_before before) else found)
  end.
Definition node_multiplier (name : string) : f64 :=
  default (f64_of 1) (multiplier_from [] (chars name) None).

Record MihomoNode := mkNode {
  n_name : string; node_type : string; multiplier : f64; bytes : Z; alive : option bool;
  delay_ms : option Z; selected : bool; subscription : string
}.
(** The ceiling of [MihomoManager::new]: none when the setting is not positive. *)
Definition ceiling (max_multiplier : f64) : f64 :=
  if SFltb (S754_zero false) max_multiplier then max_multiplier else S754_infinity false.
Definition delay_of (n : MihomoNode) : Z := default u64_max (delay_ms n).
Definition faster (a b : MihomoNode) : bool :=
  (delay_of a <? delay_of b) || ((delay_of a =? delay_of b) && String.leb (n_name a) (n_name b)).
Definition usable_nodes (max_multiplier : f64) (nodes : list MihomoNode) : list string :=
  map n_name (sort_by faster
    (List.filter (fun n => SFleb (multiplier n) max_multiplier)
      (List.filter (fun n => default false (alive n)) nodes))).

(** ** The manager

    Beside the fields of [MihomoManager]: its three files, and, for each group,
    the node the proxy core last said it is on, in the answer to a selection or
    in its list of proxies. *)
Record Traffic := mkTraffic { total : gmap string Z; counted : gmap string Z }.
Record Manager := mkManager {
  slots : OutboundSlots; slots_ready : bool; lanes_ready : bool; leased : list string;
  subscriptions : list StoredSubscription; traffic : Traffic;
  outbounds_json : option OutboundSlots; subscription_json : option (list StoredSubscription);
  config_yaml : option string; confirmed : gmap string string
}.
#[export] Instance Manager_settable : Settable Manager := fun r =>
  mkManager (slots r) (slots_ready r) (lanes_ready r) (leased r) (subscriptions r) (traffic r)
    (outbounds_json r) (subscription_json r) (config_yaml r) (confirmed r).
Record MihomoLaneStatus := mkLane {
  lane : MihomoLane; lane_group : string; lane_url : string; lane_node : option string;
  effective_node : option string; follows_shared : bool; lane_available : bool
}.
Record MihomoOutboundStatus := mkOutbound {
  node : string; out_group : string; out_url : string; out_node : option string; available : bool
}.
Record SubscriptionStatus := mkStatus {
  st_id : string; st_label : string; host : option string; st_interval : Z; st_prefix : option string;
  nodes : nat; healthy : nat
}.

(** One connection of the core: its identifier, the node it leaves by and the
    bytes it carried. *)
Definition connection (v : json) : option (string * string * Z) :=
  match get "id" v ≫= as_str, ((get "chains" v ≫= as_array) ≫= head) ≫= as_str with
  | Some id, Some node =>
    Some (id, node, Prelude.as_u64 (default 0 (get "download" v ≫= as_u64) + default 0 (get "upload" v ≫= as_u64)))
  | _, _ => None
  end.
Definition count_one (t : Traffic) (c : string * string * Z) : Traffic :=
  let '(id, node, carried) := c in
  let fresh := sat_sub carried (default 0 (counted t !! id)) in
  mkTraffic (if 0 <? fresh then <[node := Prelude.as_u64 (default 0 (total t !! node) + fresh)]> (total t) else total t)
            (<[id := carried]> (counted t)).
Definition sample (live : list (string * string * Z)) (t : Traffic) : Traffic :=
  let t := fold_left count_one live t in
  mkTraffic (total t) (filter (fun '(id, _) => id ∈ map (fun c => c.1.1) live) (counted t)).
Definition sample_traffic (value : json) (s : Manager) : Manager * result MihomoError unit :=
  match get "connections" value ≫= as_array with
  | Some live => (s <| traffic ::= sample (omap connection live) |>, Ok tt)
  | None => (s, Err (Controller "missing connections array"))
  end.

(** Reading a file. *)
Inductive Read (A : Type) := NotFound | Unreadable | Holds (a : A).
Arguments NotFound {A}. Arguments Unreadable {A}. Arguments Holds {A} _.

Section Manager.
(** [serde_json] and the [url] crate, the settings, and [redacted_host]'s parse. *)
Variable to_string : json -> string.
Variable parse_url : string -> result string Url.
Variable set_port : string -> Z -> option string.
Variable controller_secret proxy_url : string.

Definition port_url (port : Z) : option string := set_port proxy_url port.
Definition proxy_url_for (lane : MihomoLane) (s : Manager) : string :=
  if negb (lanes_ready s) then proxy_url else default proxy_url (port_url (port lane)).
Definition proxy_url_for_node (node : string) (s : Manager) : option string :=
  if negb (slots_ready s) then None
  else slot ← slots s !! trim node; port_url (outbound_port slot).

(** *** The configuration *)
Definition nl : string := String (Ascii.ascii_of_nat 10) "".
Definition lines (l : list string) : string := String.concat "" (map (fun line => line +:+ nl) l).
Definition provider_lines (s : StoredSubscription) : list string :=
  ["  " +:+ id s +:+ ":"; "    type: http"; "    url: " +:+ to_string (JStr (url s));
   "    path: ./providers/" +:+ id s +:+ ".yaml"; "    interval: " +:+ pretty (update_interval_secs s)]
  ++ (if String.eqb (prefix_of s) "" then []
      else ["    override:"; "      additional-prefix: " +:+ to_string (JStr (prefix_of s))])
  ++ ["    health-check:"; "      enable: true"; "      url: " +:+ HEALTH_URL; "      interval: 300";
      "      timeout: " +:+ pretty HEALTH_TIMEOUT_MS; "      lazy: " +:+ (if HEALTH_LAZY then "true" else "false");
      "      expected-status: " +:+ HEALTH_EXPECTED_STATUS].
Definition provider_use (subs : list StoredSubscription) : list string :=
  match subs with [] => [] | _ => "    use:" :: map (fun s => "      - " +:+ id s) subs end.
Definition group_lines (subs : list StoredSubscription) (name : string) : list string :=
  ["  - name: " +:+ name; "    type: select"; "    proxies:"; "      - " +:+ GROUP_NAME; "      - DIRECT"]
  ++ provider_use subs.
Definition listener_lines (l : string * Z * string) : list string :=
  let '(name, port, group) := l in
  ["  - name: " +:+ name; "    type: mixed"; "    port: " +:+ pretty port; "    listen: 0.0.0.0";
   "    proxy: " +:+ group].
(** The slots in order, the groups and the listeners of the configuration. *)
Definition slot_list (assigned : OutboundSlots) : list Z := sort_by Z.leb (map snd (map_to_list assigned)).
Definition groups (assigned : OutboundSlots) : list string :=
  map group ALL ++ map outbound_group (slot_list assigned).
Definition listeners (assigned : OutboundSlots) : list (string * Z * string) :=
  map (fun lane => (listener lane, port lane, group lane)) ALL
  ++ map (fun slot => ("majsoul-out-" +:+ pretty slot +:+ "-in", outbound_port slot, outbound_group slot)) (slot_list assigned).
Definition quote : string := String (Ascii.ascii_of_nat 34) "".
Definition runtime_config (subs : list StoredSubscription) (assigned : OutboundSlots) : string :=
  lines (
    ["mixed-port: 7890"; "allow-lan: true"; "bind-address: " +:+ quote +:+ "*" +:+ quote; "mode: rule";
     "log-level: info"; "ipv6: false"; "external-controller: 0.0.0.0:9090";
     "# Selections survive a restart. Without it mihomo resets every select group to";
     "# its first entry — DIRECT — whenever the container comes back, so a deployment";
     "# would silently start collecting from the host's own address until somebody";
     "# noticed and re-picked. That was true of the single group before the split and";
     "# would have been true of all three after it.";
     "profile:"; "  store-selected: true"; "secret: " +:+ to_string (JStr controller_secret)]
    ++ (match subs with [] => [] | _ => [""; "proxy-providers:"] ++ concat (map provider_lines subs) end)
    ++ [""; "proxy-groups:"; "  - name: " +:+ GROUP_NAME; "    type: select"; "    proxies:"; "      - DIRECT"]
    ++ provider_use subs
    ++ concat (map (group_lines subs) (groups assigned))
    ++ ["listeners:"] ++ concat (map listener_lines (listeners assigned))
    ++ ["rules:"; "  - MATCH," +:+ GROUP_NAME]).
(** Each write either succeeds or leaves the file as it was. *)
Definition write_runtime_config (ok : bool) (s : Manager) : Manager * result MihomoError unit :=
  if ok then (s <| config_yaml := Some (runtime_config (subscriptions s) (slots s)) |>, Ok tt) else (s, Err Io).

(** *** The outbounds *)
Record Writes := mkWrites { outbounds_ok : bool; config_ok : bool }.
Definition set_outbound_nodes (w : Writes) (nodes : list string) (s : Manager) : Manager * result MihomoError bool :=
  let wanted := fold_left (fun wanted node => if bool_decide (node ∈ wanted) then wanted else wanted ++ [node])
                  (leased s) nodes in
  let '(after, changed) := refile wanted (slots s) in
  let s := s <| slots := after |> in
  if changed then
    if outbounds_ok w then
      let s := s <| outbounds_json := Some after |> <| slots_ready := false |> in
      match write_runtime_config (config_ok w) s with
      | (s, Ok _) => (s, Ok true)
      | (s, Err e) => (s, Err e)
      | (s, Panic) => (s, Panic)
      end
    else (s, Err Io)
  else (s, Ok false).
Definition lease_outbound_nodes (w : Writes) (nodes held : list string) (s : Manager) : Manager * result MihomoError bool :=
  set_outbound_nodes w held (s <| leased := nodes |>).
Definition release_outbound_nodes (w : Writes) (held : list string) (s : Manager) : Manager * result MihomoError bool :=
  set_outbound_nodes w held (s <| leased := [] |>).
(** [accepted]: whether the core takes the selection of a node in a group. The
    assignments are those the manager had when the selections began. *)
Definition select_all (accepted : string -> Z -> bool) (assignments : list (string * Z)) (s : Manager) : Manager :=
  s <| confirmed ::= fun c => fold_left (fun c '(node, slot) =>
         if accepted node slot then <[outbound_group slot := node]> c else c) assignments c |>
    <| slots_ready := forallb (fun '(node, slot) => accepted node slot) assignments |>.
Definition apply_outbound_selections (accepted : string -> Z -> bool) (s : Manager) : Manager :=
  select_all accepted (map_to_list (slots s)) s.
(** The selections in their steps, between which others use the manager: the
    assignments still to select, and whether the core took all those so far. *)
Record Selecting := mkSelecting { to_select : list (string * Z); all_accepted : bool }.
Definition begin_selections (s : Manager) : Selecting := mkSelecting (map_to_list (slots s)) true.
Definition select_next (accepted : bool) (t : Selecting) (s : Manager) : option (Selecting * Manager) :=
  match to_select t with
  | [] => None
  | (node, slot) :: rest =>
    Some (mkSelecting rest (all_accepted t && accepted),
          if accepted then s <| confirmed ::= <[outbound_group slot := node]> |> else s)
  end.
Definition end_selections (t : Selecting) (s : Manager) : option Manager :=
  match to_select t with [] => Some (s <| slots_ready := all_accepted t |>) | _ => None end.
(** An attempt: whether the core reloads, and the list of proxies it then
    answers, if it does. *)
Record Attempt := mkAttempt { reloaded : bool; proxies : option json; accepts : string -> Z -> bool }.
Definition lane_groups_present (value : option json) : bool :=
  match value ≫= get "proxies" with
  | Some (JObj proxies) => forallb (fun lane => match assoc (group lane) proxies with Some _ => true | None => false end) ALL
  | _ => false
  end.
Fixpoint attempt (remaining : nat) (attempts : list Attempt) (s : Manager) : Manager :=
  match remaining, attempts with
  | S remaining, a :: attempts =>
    if reloaded a && lane_groups_present (proxies a)
    then apply_outbound_selections (accepts a) (s <| lanes_ready := true |>)
    else attempt remaining attempts s
  | _, _ => s
  end.
Definition apply_runtime_config : list Attempt -> Manager -> Manager := attempt LANE_ATTEMPTS.

(** *** What the core has *)
Definition now_of (proxies : list (string * json)) (group : string) : option string :=
  (assoc group proxies ≫= get "now") ≫= as_str.
Definition lane_status (shared : option string) (proxies : list (string * json)) (s : Manager) (lane : MihomoLane)
  : MihomoLaneStatus :=
  let selected := now_of proxies (group lane) in
  let follows := bool_decide (selected = Some GROUP_NAME) in
  mkLane lane (group lane) (proxy_url_for lane s) selected (if follows then shared else selected) follows
    (match assoc (group lane) proxies with Some _ => true | None => false end).
Definition outbound_status (proxies : list (string * json)) (entry : string * Z) : MihomoOutboundStatus :=
  let '(node, slot) := entry in
  mkOutbound node (outbound_group slot) (default proxy_url (port_url (outbound_port slot)))
    (now_of proxies (outbound_group slot))
    (match assoc (outbound_group slot) proxies with Some _ => true | None => false end).
Definition by_name (a b : string * Z) : bool := String.leb a.1 b.1.
Definition pointed (o : MihomoOutboundStatus) : bool :=
  available o && bool_decide (out_node o = Some (node o)).
(** [provider_node_names]: the answers of the providers, in configured order. *)
Definition provider_node_names (providers : string -> option json) (s : Manager) : list (string * string) :=
  concat (map (fun sub =>
    match providers (id sub) with
    | None => []
    | Some value =>
      map (fun name => (name, id sub))
        (omap (fun node => get "name" node ≫= as_str) (default [] (get "proxies" value ≫= as_array)))
    end) (subscriptions s)).
Definition node_of (carried : gmap string Z) (selected : option string) (proxies : list (string * json))
  (named : string * string) : option MihomoNode :=
  let '(name, sub) := named in
  node ← assoc name proxies;
  Some (mkNode name (default "Unknown" (get "type" node ≫= as_str)) (node_multiplier name)
    (default 0 (carried !! name)) (get "alive" node ≫= as_bool)
    ((((get "history" node ≫= as_array) ≫= last) ≫= get "delay") ≫= as_u64)
    (bool_decide (selected = Some name)) sub).
Definition shown_before (a b : MihomoNode) : bool :=
  if Bool.eqb (selected a) (selected b) then faster a b else selected a.
Definition read_nodes (value : result MihomoError json) (providers : string -> option json) (s : Manager)
  : Manager * result MihomoError (option string * list MihomoLaneStatus * list MihomoOutboundStatus * list MihomoNode) :=
  match value with
  | Ok value =>
    match get "proxies" value with
    | Some (JObj proxies) =>
      let shared := now_of proxies GROUP_NAME in
      let lanes := map (lane_status shared proxies s) ALL in
      let outbounds := map (outbound_status proxies) (sort_by by_name (map_to_list (slots s))) in
      let s := s <| lanes_ready := forallb lane_available lanes |> <| slots_ready := forallb pointed outbounds |>
                 <| confirmed := list_to_map (omap (fun '(group, v) => pair group <$> (get "now" v ≫= as_str)) proxies) |> in
      let nodes := sort_by shown_before (omap (node_of (total (traffic s)) shared proxies) (provider_node_names providers s)) in
      (s, Ok (shared, lanes, outbounds, nodes))
    | _ => (s, Err (Controller "missing proxies object"))
    end
  | Err e => (s, Err e)
  | Panic => (s, Panic)
  end.

(** *** The status *)
Record MihomoStatus := mkMihomoStatus {
  core_available : bool; subscription_configured : bool; sub_statuses : list SubscriptionStatus;
  selected_node : option string; lane_statuses : list MihomoLaneStatus;
  outbound_statuses : list MihomoOutboundStatus; all_nodes : list MihomoNode; failure : option MihomoError
}.
Definition redacted_host (value : string) : option string :=
  match parse_url value with
  | Ok url =>
    host ← host_str url;
    Some (match url_port url with Some port => host +:+ ":" +:+ pretty port | None => host end)
  | _ => None
  end.
Definition subscription_status (nodes : list MihomoNode) (s : StoredSubscription) : SubscriptionStatus :=
  let mine := List.filter (fun n => String.eqb (subscription n) (id s)) nodes in
  let '(all, up) := fold_left (fun '(all, up) n =>
    (S all, if default false (alive n) then S up else up)) mine (0%nat, 0%nat) in
  mkStatus (id s) (label s) (redacted_host (url s)) (update_interval_secs s) (prefix s) all up.
Definition status_value (available : bool) (selected : option string) (lanes : list MihomoLaneStatus)
  (outbounds : list MihomoOutboundStatus) (nodes : list MihomoNode) (error : option MihomoError) (s : Manager)
  : MihomoStatus :=
  mkMihomoStatus available (match subscriptions s with [] => false | _ => true end)
    (map (subscription_status nodes) (subscriptions s)) selected lanes outbounds nodes error.
(** What the core answers: to a reload, to a request for its proxies and to one
    for the nodes of a provider. *)
Record Answers := mkAnswers {
  reload : result MihomoError unit; polled : result MihomoError json; providers : string -> option json
}.
Definition status (a : Answers) (s : Manager) : Manager * result MihomoError MihomoStatus :=
  match read_nodes (polled a) (providers a) s with
  | (s, Ok (selected, lanes, outbounds, nodes)) => (s, Ok (status_value true selected lanes outbounds nodes None s))
  | (s, Err error) => (s, Ok (status_value false None [] [] [] (Some error) s))
  | (s, Panic) => (s, Panic)
  end.

(** *** Changing the subscriptions *)
Definition validate_subscription (u : SubscriptionUpdate) : result MihomoError unit :=
  match parse_url (new_url u) with
  | Ok url =>
    if negb (String.eqb (scheme url) "https" || String.eqb (scheme url) "http")
       || match host_str url with None => true | Some _ => false end
    then Err (InvalidConfig "subscription URL must be HTTP or HTTPS")
    else if negb ((300 <=? new_interval u) && (new_interval u <=? 604800))
    then Err (InvalidConfig "update interval must be between 300 and 604800 seconds")
    else Ok tt
  | Err e => Err (InvalidConfig e)
  | Panic => Panic
  end.
Definition commit_subscriptions (persisted : reply) (config_ok : bool) (a : Answers)
  (next previous : list StoredSubscription) (s : Manager) : Manager * result MihomoError MihomoStatus :=
  let s := if took_effect persisted then s <| subscription_json := Some next |> else s in
  if negb (answered persisted) then (s, Err Io)
  else
    match write_runtime_config config_ok (s <| subscriptions := next |>) with
    | (s, Ok _) => match reload a with Ok _ => status a s | Err e => (s, Err e) | Panic => (s, Panic) end
    | (s, Err e) => (s <| subscriptions := previous |>, Err e)
    | (s, Panic) => (s, Panic)
    end.
Definition label_for (u : SubscriptionUpdate) : string :=
  match new_label u with
  | Some l => if String.eqb (trim l) "" then default LEGACY_PROVIDER (redacted_host (new_url u)) else trim l
  | None => default LEGACY_PROVIDER (redacted_host (new_url u))
  end.
(** Replaces the first of that id. *)
Fixpoint replace_first (wanted : string) (label url : string) (interval : Z) (l : list StoredSubscription)
  : option (list StoredSubscription) :=
  match l with
  | [] => None
  | s :: l => if String.eqb (id s) wanted then Some (mkStored (id s) label (prefix s) url interval :: l)
              else cons s <$> replace_first wanted label url interval l
  end.
(** The identifiers drawn, six characters each, up to the first that is free. *)
Definition fresh_id (draws : list string) (l : list StoredSubscription) : option string :=
  List.find (fun drawn => forallb (fun s => negb (String.eqb (id s) ("majsoul-" +:+ drawn))) l) draws.
Definition next_subscriptions (draws : list string) (u : SubscriptionUpdate) (l : list StoredSubscription)
  : result MihomoError (list StoredSubscription) :=
  match replaces u ≫= fun wanted => replace_first wanted (label_for u) (new_url u) (new_interval u) l with
  | Some next => Ok next
  | None =>
    if Nat.leb MAX_SUBSCRIPTIONS (length l)
    then Err (InvalidConfig ("最多 " +:+ pretty (Z.of_nat MAX_SUBSCRIPTIONS) +:+ " 条订阅，先删掉一条再加"))
    else match fresh_id draws l with
         | Some drawn => Ok (l ++ [mkStored ("majsoul-" +:+ drawn) (label_for u) (Some ("[" +:+ drawn +:+ "] "))
                                     (new_url u) (new_interval u)])
         | None => Panic
         end
  end.
Definition update_subscription (draws : list string) (persisted : reply) (config_ok : bool) (a : Answers)
  (u : SubscriptionUpdate) (s : Manager) : Manager * result MihomoError MihomoStatus :=
  match validate_subscription u with
  | Ok _ =>
    match next_subscriptions draws u (subscriptions s) with
    | Ok next => commit_subscriptions persisted config_ok a next (subscriptions s) s
    | Err e => (s, Err e)
    | Panic => (s, Panic)
    end
  | Err e => (s, Err e)
  | Panic => (s, Panic)
  end.
Definition remove_subscription (wanted : string) (persisted : reply) (config_ok : bool) (a : Answers) (s : Manager)
  : Manager * result MihomoError MihomoStatus :=
  let next := List.filter (fun sub => negb (String.eqb (id sub) wanted)) (subscriptions s) in
  if Nat.eqb (length next) (length (subscriptions s)) then (s, Err (InvalidConfig "没有这条订阅"))
  else commit_subscriptions persisted config_ok a next (subscriptions s) s.
(** [refresh_subscription] and [health_check]: one request per provider. *)
Definition for_each_provider (answer : string -> result MihomoError unit) (s : Manager) : result MihomoError unit :=
  match map id (subscriptions s) with
  | [] => Err (InvalidConfig "configure a subscription before refreshing it")
  | providers =>
    let '(ok, last) := fold_left (fun '(ok, last) id =>
      match answer id with Ok _ => (S ok, last) | Err e => (ok, Some e) | Panic => (ok, last) end) providers (0%nat, None) in
    match last with Some e => if Nat.eqb ok 0 then Err e else Ok tt | None => Ok tt end
  end.
Definition is_control (c : string) : bool :=
  match bytes_of_string c with
  | [b] => (b <? 32) || (b =? 127)
  | [b; b'] => (b =? 194) && (b' <? 160)
  | _ => false
  end.
(** [select], which changes nothing of the manager but through the status. *)
Definition select (name : string) (answer : result MihomoError unit) (a : Answers) (s : Manager)
  : Manager * result MihomoError MihomoStatus :=
  if String.eqb name "" || Nat.ltb 256 (String.length name) || existsb is_control (chars name)
  then (s, Err (InvalidConfig "proxy node name is invalid"))
  else match answer with Ok _ => status a s | Err e => (s, Err e) | Panic => (s, Panic) end.

(** *** The start of the process *)
Variable from_str : string -> option json.
Definition load_subscriptions (bytes : string) : result MihomoError (list StoredSubscription) :=
  match from_str bytes with
  | None => Err JsonError
  | Some value =>
    match (match get "url" value with
           | Some _ => legacy ← read_stored value; Ok [legacy]
           | None => read_subscriptions value
           end) with
    | Ok l => Ok l | Err _ => Err JsonError | Panic => Panic
    end
  end.
(** [MihomoManager::new]: an outbounds file that does not parse reads as empty. *)
Definition boot (config_ok : bool) (saved : Read string) (outbounds : Read (option OutboundSlots)) : result MihomoError Manager :=
  subs ← (match saved with
          | Holds bytes => l ← load_subscriptions bytes; Ok (Some l) | NotFound => Ok None | Unreadable => Err Io
          end);
  assigned ← (match outbounds with Holds m => Ok m | NotFound => Ok None | Unreadable => Err Io end);
  let s := mkManager (default ∅ assigned) false false [] (default [] subs) (mkTraffic ∅ ∅) assigned subs None ∅ in
  match write_runtime_config config_ok s with (s, Ok _) => Ok s | (_, Err e) => Err e | (_, Panic) => Panic end.
End Manager.
End Mihomo.

Import Json F64 Mihomo.
Example multiplier_tests :
  map node_multiplier ["[88bdd3] 香港Y08 | x0.8"; "香港Y10 | IEPL"; "日本 IEPL 2x"; "美国 [1.5x] 中转"; "台湾 ×3";
    "韩国 倍率:5"; "香港 2倍"; "香港 x2 | 中转 x1"; "Relay x86 box"; "Osaka 443"]
  = [f64_div (f64_of 8) (f64_of 10); f64_of 1; f64_of 2; f64_div (f64_of 3) (f64_of 2); f64_of 3;
     f64_of 5; f64_of 2; f64_of 2; f64_of 1; f64_of 1].
Proof. vm_compute. reflexivity. Qed.

(** ** The slots

    A slot has a port of its own, above the lanes and off the reserved ones, and
    no two nodes have the same. *)
Definition proper_slot (slot : Z) : Prop := 1 <= slot <= MAX_OUTBOUNDS /\ outbound_port slot ∉ RESERVED_PORTS.
Definition wf_slots (m : OutboundSlots) : Prop :=
  map_Forall (fun _ slot => proper_slot slot) m /\
  forall n n' slot, m !! n = Some slot -> m !! n' = Some slot -> n = n'.
Lemma outbound_port_slot slot : 1 <= slot <= MAX_OUTBOUNDS -> outbound_port slot = 7900 + slot.
Proof. unfold outbound_port, MAX_OUTBOUNDS, OUTBOUND_PORT_BASE, u16_max. intros H. unfold as_u16, as_unsigned. apply Z.mod_small. lia. Qed.
Lemma reserved_spec slot : existsb (Z.eqb (outbound_port slot)) RESERVED_PORTS = false <-> outbound_port slot ∉ RESERVED_PORTS.
Proof.
  unfold RESERVED_PORTS. cbn. rewrite orb_false_r, Z.eqb_neq, elem_of_cons. split; [|tauto].
  intros H [?|?%elem_of_nil]; done.
Qed.
Lemma free_spec taken slot : free taken slot = true <-> slot ∉ taken /\ outbound_port slot ∉ RESERVED_PORTS.
Proof.
  unfold free. rewrite andb_true_iff, !negb_true_iff, bool_decide_eq_false, reserved_spec. done.
Qed.
Lemma find_from_spec taken n : forall slot,
  match find_from n taken slot with
  | Some x => slot <= x < slot + Z.of_nat n /\ free taken x = true /\ forall y, slot <= y < x -> free taken y = false
  | None => forall y, slot <= y < slot + Z.of_nat n -> free taken y = false
  end.
Proof.
  induction n as [|n IH]; intros slot; cbn [find_from]; [lia|]. destruct (free taken slot) eqn:E.
  - split; [lia|]. split; [done|]. lia.
  - specialize (IH (slot + 1)). destruct (find_from n taken (slot + 1)) as [x|].
    + destruct IH as (H1 & H2 & H3). split; [lia|]. split; [done|]. intros y Hy.
      destruct (decide (y = slot)) as [->|]; [done|]. apply H3. lia.
    + intros y Hy. destruct (decide (y = slot)) as [->|]; [done|]. apply IH. lia.
Qed.
(** The lowest free slot, or none when every slot is taken. *)
Lemma find_free taken :
  match find_slot taken with
  | Some slot => proper_slot slot /\ slot ∉ taken /\ forall s, proper_slot s -> s < slot -> s ∈ taken
  | None => forall s, proper_slot s -> s ∈ taken
  end.
Proof.
  assert (Hn : forall s, free taken s = false -> proper_slot s -> s ∈ taken).
  { intros s Hf [_ Hp]. destruct (decide (s ∈ taken)) as [|Hn]; [done|].
    assert (free taken s = true) by by apply free_spec. congruence. }
  pose proof (find_from_spec taken (Z.to_nat MAX_OUTBOUNDS) 1) as H. rewrite Z2Nat.id in H by done. unfold find_slot.
  destruct (find_from _ _ _) as [slot|].
  - destruct H as (H1 & [H2 H2']%free_spec & H3). split; [split; [lia|done]|]. split; [done|].
    intros s Hs Hlt. apply Hn, Hs. apply H3. destruct Hs. lia.
  - intros s Hs. apply Hn, Hs. apply H. destruct Hs. lia.
Qed.
Lemma wf_slots_insert m node slot :
  wf_slots m -> proper_slot slot -> (forall n, m !! n <> Some slot) -> wf_slots (<[node := slot]> m).
Proof.
  intros [Hp Hi] Hs Hn. split; [by apply map_Forall_insert_2|]. intros n n' s.
  rewrite !lookup_insert_Some. intros [[<- <-]|[_ H]] [[<- E]|[_ H']]; try done.
  - by destruct (Hn n').
  - subst s. by destruct (Hn n).
  - by apply (Hi n n' s).
Qed.
(** What [assign] adds to [m]: a node without a slot gets the lowest free one,
    and goes without only when every slot is taken. *)
Record Assigned (nodes : list string) (m after : OutboundSlots) : Prop := mkAssigned {
  assigned_wf : wf_slots after;
  assigned_kept : m ⊆ after;
  assigned_new : forall n slot, after !! n = Some slot -> m !! n = Some slot \/ n ∈ nodes /\ m !! n = None /\
    forall s, proper_slot s -> s < slot -> exists n', after !! n' = Some s;
  assigned_all : (forall s, proper_slot s -> exists n', after !! n' = Some s) \/ forall n, n ∈ nodes -> is_Some (after !! n)
}.
Lemma assign_spec nodes : forall taken m,
  wf_slots m -> (forall slot, slot ∈ taken <-> exists n, m !! n = Some slot) -> Assigned nodes m (assign nodes taken m).
Proof.
  induction nodes as [|node nodes IH]; intros taken m Hwf Ht; cbn [assign].
  { constructor; [done..|intros n slot H; by left|]. right. by intros n ?%elem_of_nil. }
  destruct (m !! node) as [slot|] eqn:E.
  - destruct (IH taken m Hwf Ht) as [A B C D]. constructor; [done|done| |].
    + intros n s [H|(H1 & H2)]%C; [by left|right]. split; [by right|done].
    + destruct D as [D|D]; [by left|right]. intros n [->|H]%elem_of_cons; [|by apply D].
      eapply lookup_weaken_is_Some; [by eexists|done].
  - pose proof (find_free taken) as Hf. destruct (find_slot taken) as [slot|].
    + destruct Hf as (Hp & Hn & Hlow).
      assert (Hnew : forall n, m !! n <> Some slot) by (intros n Hm; apply Hn, Ht; by exists n).
      destruct (IH ({[slot]} ∪ taken) (<[node := slot]> m)) as [A B C D]; [by apply wf_slots_insert| |].
      { intros s. rewrite elem_of_union, elem_of_singleton, Ht. split.
        - intros [->|(n & Hs)]; [exists node; apply lookup_insert_eq|exists n].
          rewrite lookup_insert_ne; [done|]. congruence.
        - intros (n & [[_ ->]|[_ H]]%lookup_insert_Some); [by left|right]. by exists n. }
      constructor; [done| | |].
      * etransitivity; [apply insert_subseteq, E|done].
      * intros n s [[[<- <-]|[Hne H]]%lookup_insert_Some|(H1 & H2 & H3)]%C; [right|by left|right].
        -- split; [by left|]. split; [done|]. intros s' Hs' Hlt. destruct (proj1 (Ht s') (Hlow s' Hs' Hlt)) as [n' Hn'].
           exists n'. eapply lookup_weaken; [|exact B]. rewrite lookup_insert_ne; [done|]. congruence.
        -- split; [by right|]. apply lookup_insert_None in H2 as [H2 _]. done.
      * destruct D as [D|D]; [by left|right]. intros n [->|H]%elem_of_cons; [|by apply D].
        eapply lookup_weaken_is_Some; [|exact B]. rewrite lookup_insert_eq. by eexists.
    + constructor; [done..|intros n s H; by left|]. left. intros s Hs. by apply Ht, Hf.
Qed.
(** With fewer nodes than slots, no node goes without. *)
Definition proper_slots : list Z := seqZ 1 1189 ++ seqZ 1191 56445.
Lemma proper_slots_spec s : s ∈ proper_slots -> proper_slot s.
Proof.
  unfold proper_slots. rewrite elem_of_app, !elem_of_seqZ. intros H.
  assert (Hr : 1 <= s <= MAX_OUTBOUNDS) by (unfold MAX_OUTBOUNDS, OUTBOUND_PORT_BASE, u16_max; lia).
  split; [done|]. apply reserved_spec. rewrite outbound_port_slot by done. unfold RESERVED_PORTS. cbn [existsb].
  rewrite orb_false_r. apply Z.eqb_neq. lia.
Qed.
Lemma slots_exhausted (m : OutboundSlots) :
  wf_slots m -> (forall s, proper_slot s -> exists n, m !! n = Some s) -> MAX_OUTBOUNDS - 1 <= Z.of_nat (size m).
Proof.
  intros [_ Hi] Hall.
  assert (H : (length proper_slots <= length (map snd (map_to_list m)))%nat).
  { apply NoDup_incl_length.
    - apply NoDup_ListNoDup. unfold proper_slots. apply NoDup_app. split_and!; [apply NoDup_seqZ| |apply NoDup_seqZ].
      intros s. rewrite !elem_of_seqZ. lia.
    - intros s Hs%list_elem_of_In%proper_slots_spec. destruct (Hall s Hs) as [n Hn].
      apply in_map_iff. exists (n, s). split; [done|]. by apply list_elem_of_In, elem_of_map_to_list. }
  rewrite length_map, length_map_to_list in H. unfold proper_slots in H. rewrite length_app, !length_seqZ in H.
  unfold MAX_OUTBOUNDS, OUTBOUND_PORT_BASE, u16_max. lia.
Qed.
Lemma kept_lookup nodes before n slot : kept nodes before !! n = Some slot <-> before !! n = Some slot /\ n ∈ nodes.
Proof. unfold kept. apply map_lookup_filter_Some. Qed.
Lemma refile_assigned nodes before : wf_slots before -> Assigned nodes (kept nodes before) (fst (refile nodes before)).
Proof.
  intros [Hp Hi]. unfold refile. cbn [fst]. apply assign_spec.
  - split; [intros n s [H _]%kept_lookup; by apply (Hp n)|]. intros n n' s [H _]%kept_lookup [H' _]%kept_lookup.
    by apply (Hi n n' s).
  - intros slot. by rewrite elem_of_map_img.
Qed.

(** Filing the outbounds anew gives exactly the nodes asked for a port: a
    node that had one keeps it, so a session never finds another country behind
    the port it dials; a new one gets the lowest port that is free; no two nodes
    share one and none is the controller's, one of the lanes' or out of range;
    and no node goes without unless more are asked for than there are ports. *)
Theorem refile_spec nodes before :
  wf_slots before ->
  let '(after, changed) := refile nodes before in
  wf_slots after /\
  (forall n, is_Some (after !! n) -> n ∈ nodes) /\
  (forall n slot, n ∈ nodes -> before !! n = Some slot -> after !! n = Some slot) /\
  (forall n slot, after !! n = Some slot -> before !! n = None ->
     forall s, proper_slot s -> s < slot -> exists n', after !! n' = Some s) /\
  (Z.of_nat (size (list_to_set nodes : gset string)) < MAX_OUTBOUNDS -> forall n, n ∈ nodes -> is_Some (after !! n)) /\
  (forall n slot, after !! n = Some slot -> 7900 < outbound_port slot <= u16_max /\ outbound_port slot <> 9090) /\
  (changed = false <-> after = before).
Proof.
  intros Hwf. pose proof (refile_assigned nodes before Hwf) as [A B C D].
  assert (Ec : snd (refile nodes before) = bool_decide (fst (refile nodes before) <> before)) by done.
  destruct (refile nodes before) as [after changed]. cbn [fst snd] in *. subst changed.
  assert (Hin : forall n, is_Some (after !! n) -> n ∈ nodes).
  { intros n [slot [H|[H _]]%C]; [|done]. by apply kept_lookup in H as [_ H]. }
  split_and!; [done|done| | | | |].
  - intros n slot Hn Hb. eapply lookup_weaken; [|exact B]. by apply kept_lookup.
  - intros n slot [H|(_ & _ & H)]%C Hb; [|done]. apply kept_lookup in H as [H _]. congruence.
  - intros Hlt n Hn. destruct D as [D|D]; [|by apply D]. apply slots_exhausted in D; [|done].
    destruct (after !! n) as [slot|] eqn:E; [by eexists|exfalso].
    assert (Hs : (size (dom after) <= size (list_to_set nodes ∖ {[n]} : gset string))%nat).
    { apply subseteq_size. intros n' Hn'. apply elem_of_dom in Hn'. rewrite elem_of_difference, elem_of_list_to_set, elem_of_singleton.
      split; [by apply Hin|]. intros ->. rewrite E in Hn'. by destruct Hn'. }
    rewrite size_dom, size_difference in Hs by (apply singleton_subseteq_l, elem_of_list_to_set, Hn).
    rewrite size_singleton in Hs. unfold MAX_OUTBOUNDS, OUTBOUND_PORT_BASE, u16_max in *. lia.
  - intros n slot H. destruct A as [A _]. destruct (A n slot H) as [Hr Hp]. rewrite outbound_port_slot in * by done.
    unfold MAX_OUTBOUNDS, OUTBOUND_PORT_BASE in Hr. split; [lia|]. intros E. apply Hp. rewrite E. by left.
  - rewrite bool_decide_eq_false. destruct (decide (after = before)); tauto.
Qed.

(** ** Where a session dials *)
Section Facts.
Context (to_string : json -> string) (parse_url : string -> result string Url) (set_port : string -> Z -> option string).
Context (controller_secret proxy_url : string) (from_str : string -> option json).
Abbreviation read_nodes := (read_nodes set_port proxy_url).
Abbreviation status := (status parse_url set_port proxy_url).
Abbreviation set_outbound_nodes := (set_outbound_nodes to_string controller_secret).
Abbreviation boot := (boot to_string controller_secret from_str).

(** What the process does with its manager. *)
Inductive Op :=
| SetNodes (w : Writes) (nodes : list string)
| Lease (w : Writes) (nodes held : list string)
| Release (w : Writes) (held : list string)
| Applied (attempts : list Attempt)
| Asked (a : Answers)
| Sampled (value : json)
| Updated (draws : list string) (persisted : reply) (config_ok : bool) (a : Answers) (u : SubscriptionUpdate)
| Removed (wanted : string) (persisted : reply) (config_ok : bool) (a : Answers).
Definition perform (op : Op) (s : Manager) : Manager :=
  match op with
  | SetNodes w nodes => fst (set_outbound_nodes w nodes s)
  | Lease w nodes held => fst (lease_outbound_nodes to_string controller_secret w nodes held s)
  | Release w held => fst (release_outbound_nodes to_string controller_secret w held s)
  | Applied attempts => apply_runtime_config attempts s
  | Asked a => fst (status a s)
  | Sampled value => fst (sample_traffic value s)
  | Updated draws persisted ok a u =>
    fst (update_subscription to_string parse_url set_port controller_secret proxy_url draws persisted ok a u s)
  | Removed wanted persisted ok a =>
    fst (remove_subscription to_string parse_url set_port controller_secret proxy_url wanted persisted ok a s)
  end.
(** The file of the outbounds can be written. *)
Definition writable (op : Op) : Prop :=
  match op with SetNodes w _ | Lease w _ _ | Release w _ => outbounds_ok w = true | _ => True end.
Inductive reachable : Manager -> Prop :=
| Reach_boot ok saved outbounds s :
    (forall m, outbounds = Holds (Some m) -> wf_slots m) -> boot ok saved outbounds = Ok s -> reachable s
| Reach_op op s : reachable s -> writable op -> reachable (perform op s).

(** The same, with the selections in their steps: any number of them may be under
    way, in tasks of their own, while everything else goes on. *)
Record Live := mkLive { manager : Manager; selecting : gmap nat Selecting }.
Inductive Happening :=
| Does (op : Op) | Reloaded (i : nat) (a : Attempt) | Selected (i : nat) (accepted : bool) | Ended (i : nat).
Definition happen (e : Happening) (l : Live) : option Live :=
  let s := manager l in
  match e with
  | Does (Applied _) => None
  | Does op => Some (mkLive (perform op s) (selecting l))
  | Reloaded i a =>
    match selecting l !! i with
    | Some _ => None
    | None =>
      if reloaded a && lane_groups_present (proxies a)
      then let s := s <| lanes_ready := true |> in Some (mkLive s (<[i := begin_selections s]> (selecting l)))
      else Some l
    end
  | Selected i accepted =>
    t ← selecting l !! i; '(t, s) ← select_next accepted t s; Some (mkLive s (<[i := t]> (selecting l)))
  | Ended i => t ← selecting l !! i; s ← end_selections t s; Some (mkLive s (delete i (selecting l)))
  end.
Fixpoint happens (es : list Happening) (l : Live) : option Live :=
  match es with [] => Some l | e :: es => happen e l ≫= happens es end.
Definition all_writable (es : list Happening) : Prop :=
  Forall (fun e => match e with Does op => writable op | _ => True end) es.
(** While selections are under way, no filing moves a slot, and no poll finds the
    group of a slot off the node it was last seen on. *)
Definition quiet (s s' : Manager) : Prop :=
  slots s' = slots s /\
  map_Forall (fun n slot => confirmed s !! outbound_group slot = Some n -> confirmed s' !! outbound_group slot = Some n) (slots s).
#[export] Instance quiet_dec s s' : Decision (quiet s s').
Proof. unfold quiet. apply _. Defined.
Fixpoint undisturbed (es : list Happening) (l : Live) : Prop :=
  match es with
  | [] => True
  | e :: es =>
    match happen e l with
    | Some l' =>
      match e with Does _ => selecting l = ∅ \/ quiet (manager l) (manager l') | _ => True end /\ undisturbed es l'
    | None => True
    end
  end.
#[export] Instance undisturbed_dec es : forall l, Decision (undisturbed es l).
Proof.
  induction es as [|e es IH]; intros l; cbn [undisturbed]; [apply _|]. destruct (happen e l) as [l'|]; [|apply _].
  apply and_dec; [destruct e; apply _|apply IH].
Defined.

(** The core was last seen with the group of each slot on the node of the slot. *)
Definition pointed_right (m : OutboundSlots) (c : gmap string string) : Prop :=
  forall n slot, m !! n = Some slot -> c !! outbound_group slot = Some n.
(** What holds of the manager; the last as long as [calm] does. *)
Record Inv (calm : Prop) (s : Manager) : Prop := mkInv {
  inv_wf : wf_slots (slots s);
  inv_file : forall m, outbounds_json s = Some m -> wf_slots m;
  inv_pointed : calm -> slots_ready s = true -> pointed_right (slots s) (confirmed s)
}.
Lemma outbound_group_inj slot slot' : outbound_group slot = outbound_group slot' -> slot = slot'.
Proof.
  unfold outbound_group. intros H. apply (f_equal (sdrop 12)) in H.
  rewrite !(sdrop_append 12 "MAJSOUL-OUT-") in H by done. by apply (inj pretty) in H.
Qed.
Lemma selections_point (accepted : string -> Z -> bool) n slot l : forall c : gmap string string,
  (forall n', (n', slot) ∈ l -> n' = n /\ accepted n' slot = true) ->
  (n, slot) ∈ l \/ c !! outbound_group slot = Some n ->
  fold_left (fun (c : gmap string string) '(node, slot) =>
    if accepted node slot then <[outbound_group slot := node]> c else c) l c !! outbound_group slot = Some n.
Proof.
  induction l as [|[n1 slot1] l IH]; intros c Ha Hc; cbn [fold_left].
  - destruct Hc as [H%elem_of_nil|H]; done.
  - apply IH; [intros n' H; apply Ha; by right|]. destruct (decide (slot1 = slot)) as [->|Hne].
    + destruct (Ha n1 ltac:(by left)) as [-> ->]. right. apply lookup_insert_eq.
    + destruct Hc as [[[= -> ->]|H]%elem_of_cons|H]; [done|by left|right].
      destruct (accepted n1 slot1); [|done]. rewrite lookup_insert_ne; [done|].
      intros E. by apply outbound_group_inj in E.
Qed.
Lemma inv_apply {calm} accepted s : Inv calm s -> Inv calm (apply_outbound_selections accepted s).
Proof.
  intros [[Hp Hi] Hf Hc]. constructor; [done|done|]. cbn. intros _ Ha n slot Hn.
  apply selections_point; [|left; by apply elem_of_map_to_list].
  intros n' Hn'. split.
  - apply elem_of_map_to_list in Hn'. by apply (Hi n' n slot).
  - rewrite forallb_forall in Ha. apply (Ha (n', slot)). by apply list_elem_of_In.
Qed.
Lemma now_confirmed proxies g n : now_of proxies g = Some n ->
  (list_to_map (omap (fun '(group, v) => pair group <$> (get "now" v ≫= as_str)) proxies) : gmap string string) !! g = Some n.
Proof.
  unfold now_of. induction proxies as [|[k v] proxies IH]; [done|]. cbn [assoc omap list_omap].
  destruct (String.eqb_spec k g) as [->|Hne].
  - intros H. cbn in H. rewrite H. cbn. apply lookup_insert_eq.
  - intros H%IH. destruct (get "now" v ≫= as_str); cbn; [|done]. by rewrite lookup_insert_ne.
Qed.
Lemma inv_read_nodes {calm} value providers s : Inv calm s -> Inv calm (fst (read_nodes value providers s)).
Proof.
  intros Hs. unfold Mihomo.read_nodes. destruct value as [value|e|]; [|done..].
  destruct (get "proxies" value) as [[| | | | |proxies]|]; try done.
  destruct Hs as [Hw Hf Hc]. constructor; [done|done|]. cbn [fst]. unfold set_field. cbn [slots_ready slots confirmed].
  intros _ Ha n slot Hn. apply now_confirmed. rewrite forallb_forall in Ha.
  specialize (Ha (outbound_status set_port proxy_url proxies (n, slot))). unfold pointed, outbound_status in Ha.
  cbn [available out_node node] in Ha. rewrite andb_true_iff, bool_decide_eq_true in Ha. apply Ha.
  apply in_map_iff. exists (n, slot). split; [done|]. apply list_elem_of_In. rewrite sort_by_perm.
  by apply elem_of_map_to_list.
Qed.
Lemma inv_status {calm} a s : Inv calm s -> Inv calm (fst (status a s)).
Proof.
  intros H%(inv_read_nodes (polled a) (providers a)). unfold Mihomo.status.
  by destruct (read_nodes (polled a) (providers a) s) as [s' [[[[? ?] ?] ?]| |]].
Qed.
Lemma refile_wf nodes before : wf_slots before -> wf_slots (fst (refile nodes before)).
Proof. intros H. by apply (refile_assigned nodes before H). Qed.
Lemma refile_unchanged nodes before : snd (refile nodes before) = false -> fst (refile nodes before) = before.
Proof. unfold refile. cbn. rewrite bool_decide_eq_false. intros H. by destruct (decide (assign nodes (map_img (kept nodes before)) (kept nodes before) = before)). Qed.
Lemma inv_set_nodes {calm} w nodes s : outbounds_ok w = true -> Inv calm s -> Inv calm (fst (set_outbound_nodes w nodes s)).
Proof.
  intros Hw [Hs Hf Hc]. unfold Mihomo.set_outbound_nodes. set (wanted := fold_left _ _ _). clearbody wanted.
  pose proof (refile_wf wanted (slots s) Hs) as Hwf. pose proof (refile_unchanged wanted (slots s)) as Hu.
  destruct (refile wanted (slots s)) as [after changed]. cbn [fst snd] in *. destruct changed.
  - rewrite Hw. unfold write_runtime_config. destruct (config_ok w); constructor; cbn; try done; by intros m [= <-].
  - rewrite (Hu eq_refl). constructor; cbn; done.
Qed.
Lemma inv_commit_subs {calm} persisted ok a next previous s :
  Inv calm s -> Inv calm (fst (commit_subscriptions to_string parse_url set_port controller_secret proxy_url persisted ok a next previous s)).
Proof.
  intros [Hs Hf Hc]. unfold commit_subscriptions, write_runtime_config.
  destruct (took_effect persisted), (answered persisted), ok; cbn [negb]; try (constructor; done);
    destruct (reload a); try (constructor; done); apply inv_status; constructor; done.
Qed.
Lemma inv_perform {calm} op s : writable op -> Inv calm s -> Inv calm (perform op s).
Proof.
  intros Hw Hs. destruct op as [w nodes|w nodes held|w held|attempts|a|value|draws persisted ok a u|wanted persisted ok a];
    cbn [perform writable] in *.
  - by apply inv_set_nodes.
  - unfold lease_outbound_nodes. apply inv_set_nodes; [done|]. destruct Hs. by constructor.
  - unfold release_outbound_nodes. apply inv_set_nodes; [done|]. destruct Hs. by constructor.
  - unfold apply_runtime_config. generalize LANE_ATTEMPTS as n. induction attempts as [|b attempts IH]; intros [|n]; try done.
    cbn [attempt]. destruct (reloaded b && lane_groups_present (proxies b)); [|by apply IH].
    apply inv_apply. destruct Hs. by constructor.
  - by apply inv_status.
  - unfold sample_traffic. destruct (get "connections" value ≫= as_array); [|done]. destruct Hs. by constructor.
  - unfold update_subscription. destruct (validate_subscription parse_url u); [|done..].
    destruct (next_subscriptions _ _ _ _); [by apply inv_commit_subs|done..].
  - unfold remove_subscription. destruct (Nat.eqb _ _); [done|by apply inv_commit_subs].
Qed.
Lemma wf_empty : wf_slots ∅.
Proof. split; [apply map_Forall_empty|]. intros n n' slot H. by rewrite lookup_empty in H. Qed.
Lemma reachable_inv s : reachable s -> Inv True s.
Proof.
  induction 1 as [ok saved outbounds s Hf Hb|op s _ IH Hw]; [|by apply inv_perform].
  unfold Mihomo.boot in Hb. destruct (match saved with Holds bytes => _ | _ => _ end) as [subs| |]; [|done..].
  destruct outbounds as [| |m]; [|done|]; unfold write_runtime_config in Hb; cbn in Hb; destruct ok; try done;
    injection Hb as <-; constructor; cbn; try done; try apply wf_empty.
  - destruct m as [m|]; cbn; [by apply Hf|apply wf_empty].
  - intros m' ->. by apply Hf.
Qed.

(** *** With the selections in their steps *)
(** What selections under way have done so far. *)
Definition underway (s : Manager) (t : Selecting) : Prop :=
  (forall n slot, (n, slot) ∈ to_select t -> slots s !! n = Some slot) /\
  (all_accepted t = true -> forall n slot, slots s !! n = Some slot -> (n, slot) ∉ to_select t ->
     confirmed s !! outbound_group slot = Some n).
Definition Going (calm : Prop) (l : Live) : Prop :=
  Inv calm (manager l) /\ (calm -> map_Forall (fun _ t => underway (manager l) t) (selecting l)).
Lemma underway_quiet s s' t : quiet s s' -> underway s t -> underway s' t.
Proof. intros [E H] [H1 H2]. split; intros; rewrite E in *; eauto. Qed.
Lemma quiet_confirmed (s : Manager) n slot : wf_slots (slots s) -> slots s !! n = Some slot ->
  quiet s (s <| confirmed ::= <[outbound_group slot := n]> |>).
Proof.
  intros [_ Hi] Hs. split; [done|]. intros n' slot' Hs' Hc. unfold set_field. cbn.
  destruct (decide (slot' = slot)) as [->|Hne]; [rewrite (Hi _ _ _ Hs' Hs); apply lookup_insert_eq|].
  rewrite lookup_insert_ne; [done|]. intros E. by apply outbound_group_inj in E.
Qed.
Lemma inv_quiet calm s s' : outbounds_json s' = outbounds_json s -> slots_ready s' = slots_ready s -> slots s' = slots s ->
  (calm -> quiet s s') -> Inv calm s -> Inv calm s'.
Proof.
  intros E1 E2 E3 Hq [H1 H2 H3]. constructor; [by rewrite E3|by rewrite E1|]. rewrite E2, E3. intros Hc Hr n slot Hn.
  apply (Hq Hc); [done|]. by apply H3.
Qed.
Lemma going_ended calm i l l' : Going calm l -> happen (Ended i) l = Some l' -> Going calm l'.
Proof.
  intros [Hi Ht]. cbn [happen]. destruct (selecting l !! i) as [t|] eqn:E; [|done]. cbn [mbind option_bind].
  unfold end_selections. destruct (to_select t) eqn:Et; [|done]. intros [= <-]. split.
  - destruct Hi as [H1 H2 _]. constructor; [done|done|]. intros Hc Ha n slot Hn.
    destruct (Ht Hc i t E) as [_ H]. apply (H Ha n slot Hn). rewrite Et. apply not_elem_of_nil.
  - intros Hc j t' Hj. cbn in Hj. apply lookup_delete_Some in Hj as [_ Hj]. by apply (Ht Hc j).
Qed.
Lemma going_selected calm i accepted l l' : Going calm l -> happen (Selected i accepted) l = Some l' -> Going calm l'.
Proof.
  intros [Hi Ht]. cbn [happen]. destruct (selecting l !! i) as [t|] eqn:E; [|done]. cbn [mbind option_bind].
  unfold select_next. destruct (to_select t) as [|[n slot] rest] eqn:Et; [done|]. intros [= <-].
  set (s' := if accepted then _ else _).
  assert (Hq : calm -> quiet (manager l) s').
  { intros Hc. unfold s'. destruct accepted; [|by split; [|intros ???]]. apply quiet_confirmed; [apply Hi|].
    apply (Ht Hc i t E). rewrite Et. by left. }
  assert (Es : slots s' = slots (manager l)) by by unfold s'; destruct accepted.
  split; [by apply (inv_quiet calm (manager l)); try done; unfold s'; destruct accepted|].
  intros Hc j t' Hj. cbn [selecting manager] in *. apply lookup_insert_Some in Hj as [[<- <-]|[_ Hj]].
  - destruct (Ht Hc i t E) as [H1 H2]. rewrite Et in H1, H2. split; cbn [to_select all_accepted]; rewrite Es.
    + intros n' slot' Hin. apply H1. by right.
    + intros [Ha ->]%andb_true_iff n' slot' Hn Hout. destruct (decide ((n', slot') = (n, slot))) as [[= -> ->]|Hne].
      * unfold s', set_field. cbn. apply lookup_insert_eq.
      * apply (Hq Hc); [done|]. apply (H2 Ha n' slot' Hn). intros [?|?]%elem_of_cons; done.
  - apply (underway_quiet (manager l)); [by apply Hq|]. by apply (Ht Hc j).
Qed.
Lemma going_reloaded calm i a l l' : Going calm l -> happen (Reloaded i a) l = Some l' -> Going calm l'.
Proof.
  intros [Hi Ht]. cbn [happen]. destruct (selecting l !! i); [done|].
  destruct (reloaded a && lane_groups_present (proxies a)); [|by intros [= <-]]. intros [= <-]. split.
  - destruct Hi as [H1 H2 H3]. by constructor.
  - intros Hc j t Hj. cbn [selecting manager] in *. apply lookup_insert_Some in Hj as [[<- <-]|[_ Hj]].
    + split; cbn.
      * intros n slot. apply elem_of_map_to_list.
      * intros _ n slot Hn Hout. by apply elem_of_map_to_list in Hn.
    + apply (underway_quiet (manager l)); [by split; [|intros ???]|]. by apply (Ht Hc j).
Qed.
Lemma going_does calm op l l' : writable op -> Going calm l ->
  (calm -> selecting l = ∅ \/ quiet (manager l) (manager l')) -> happen (Does op) l = Some l' -> Going calm l'.
Proof.
  intros Hw [Hi Ht] Hq H. assert (E : l' = mkLive (perform op (manager l)) (selecting l)) by (destruct op; try done; by injection H).
  subst l'. split; [by apply inv_perform|]. intros Hc i t Hj. cbn in Hj. destruct (Hq Hc) as [E|Hq']; [by rewrite E in Hj|].
  apply (underway_quiet (manager l)); [done|]. by apply (Ht Hc i).
Qed.
Lemma going_happens calm es : forall l l', all_writable es -> (calm -> undisturbed es l) -> Going calm l ->
  happens es l = Some l' -> Going calm l'.
Proof.
  induction es as [|e es IH]; intros l l' Hw Hu Hg; cbn [happens]; [by intros [= <-]|].
  apply Forall_cons in Hw as [Hw1 Hw]. destruct (happen e l) as [l1|] eqn:E; [|done]. cbn.
  assert (Hu' : calm -> undisturbed es l1) by (intros Hc; specialize (Hu Hc); cbn [undisturbed] in Hu; rewrite E in Hu; apply Hu).
  apply IH; [done|done|]. destruct e as [op|i a|i accepted|i].
  - apply (going_does calm op l l1); [done|done| |done]. intros Hc. specialize (Hu Hc). cbn [undisturbed] in Hu. rewrite E in Hu. apply Hu.
  - by eapply going_reloaded.
  - by eapply going_selected.
  - by eapply going_ended.
Qed.
Lemma going_boot ok saved outbounds s : (forall m, outbounds = Holds (Some m) -> wf_slots m) -> boot ok saved outbounds = Ok s ->
  forall calm, Going calm (mkLive s ∅).
Proof.
  intros Hf Hb calm. destruct (reachable_inv s (Reach_boot ok saved outbounds s Hf Hb)) as [H1 H2 H3]. split; [|done].
  constructor; [done|done|]. intros _. by apply H3.
Qed.
(** A reload that nothing comes between is that of [apply_runtime_config]. *)
Lemma selections_in_steps accepted i todo : forall (s : Manager) live good, live !! i = Some (mkSelecting todo good) ->
  happens (map (fun '(node, slot) => Selected i (accepted node slot)) todo ++ [Ended i]) (mkLive s live) =
  Some (mkLive ((select_all accepted todo s) <| slots_ready ::= andb good |>) (delete i live)).
Proof.
  induction todo as [|[n slot] todo IH]; intros s live good Hl; cbn [map app happens happen selecting manager]; rewrite Hl;
    cbn [mbind option_bind select_next end_selections to_select all_accepted].
  - unfold select_all, set_field. destruct s, good; reflexivity.
  - rewrite (IH _ _ (good && accepted n slot)) by apply lookup_insert_eq. rewrite delete_insert_eq. do 2 f_equal.
    unfold select_all. cbn [fold_left forallb]. destruct (accepted n slot), s, good; reflexivity.
Qed.
Lemma reload_in_steps i a (s : Manager) live : live !! i = None -> reloaded a && lane_groups_present (proxies a) = true ->
  happens (Reloaded i a :: map (fun '(node, slot) => Selected i (accepts a node slot)) (map_to_list (slots s)) ++ [Ended i]) (mkLive s live) =
  Some (mkLive (apply_runtime_config [a] s) live).
Proof.
  intros Hi Hr. cbn [happens happen selecting manager]. rewrite Hi, Hr. cbn [mbind option_bind].
  change (map_to_list (slots s)) with (to_select (begin_selections (s <| lanes_ready := true |>))) at 1.
  rewrite (selections_in_steps _ _ _ _ _ true) by apply lookup_insert_eq. rewrite delete_insert_id by done.
  unfold apply_runtime_config. destruct LANE_ATTEMPTS eqn:E; [done|]. cbn [attempt]. rewrite Hr. by destruct s.
Qed.


Lemma assign_stable nodes (m : OutboundSlots) :
  (forall s, proper_slot s -> exists n, m !! n = Some s) \/ (forall n, n ∈ nodes -> is_Some (m !! n)) ->
  assign nodes (map_img m) m = m.
Proof.
  induction nodes as [|node nodes IH]; intros H; [done|]. cbn [assign]. destruct (m !! node) as [slot|] eqn:E.
  - apply IH. destruct H as [H|H]; [by left|right]. intros n Hn. apply H. by right.
  - destruct H as [H|H]; [|destruct (H node ltac:(by left)) as [slot ?]; congruence].
    pose proof (find_free (map_img m)) as Hf. destruct (find_slot _) as [slot|]; [|done].
    destruct Hf as (Hp & Hn & _). exfalso. apply Hn, elem_of_map_img. by apply H.
Qed.
(** Filing the same nodes again changes nothing. *)
Lemma refile_again nodes before : wf_slots before ->
  refile nodes (fst (refile nodes before)) = (fst (refile nodes before), false).
Proof.
  intros Hwf. destruct (refile_assigned nodes before Hwf) as [_ _ C D]. set (after := fst (refile nodes before)) in *.
  clearbody after. assert (Hk : kept nodes after = after).
  { apply map_eq. intros n. apply option_eq. intros slot. rewrite kept_lookup. split; [by intros [? _]|]. intros H. split; [done|].
    destruct (C n slot H) as [[_ H']%kept_lookup|[H' _]]; done. }
  unfold refile. rewrite Hk, (assign_stable nodes after D). f_equal. apply bool_decide_eq_false. intros H. by apply H.
Qed.
(** When the file of the outbounds cannot be written, saving fails but the
    slots have moved: the addresses of the nodes go on being given out, now for
    the ports of a filing the proxy core was never told of, and saving the same
    nodes again reports that nothing changed and writes nothing, so the files
    stay behind for as long as the same nodes are saved. *)
Theorem failed_save_moves_the_ports w w' ns s s' :
  reachable s -> outbounds_ok w = false -> set_outbound_nodes w ns s = (s', Err Io) ->
  slots s' <> slots s /\ slots_ready s' = slots_ready s /\ confirmed s' = confirmed s /\
  outbounds_json s' = outbounds_json s /\ config_yaml s' = config_yaml s /\
  set_outbound_nodes w' ns s' = (s', Ok false).
Proof.
  intros [Hwf _ _]%reachable_inv Hw. unfold Mihomo.set_outbound_nodes. set (wanted := fold_left _ (leased s) ns).
  pose proof (refile_again wanted (slots s) Hwf) as Ha.
  assert (Hc : snd (refile wanted (slots s)) = true -> fst (refile wanted (slots s)) <> slots s).
  { unfold refile. cbn. apply bool_decide_eq_true. }
  destruct (refile wanted (slots s)) as [after changed]. cbn [fst snd] in *. rewrite Hw. destruct changed; [|done].
  intros [= <-]. unfold set_field. cbn [slots leased slots_ready confirmed outbounds_json config_yaml]. fold wanted. rewrite Ha.
  split_and!; auto.
Qed.
End Facts.

(** Saving the pool of accounts leaves the outbounds of a lease alone. *)
Lemma wanted_elem nodes (leased : list string) n :
  n ∈ leased -> n ∈ fold_left (fun wanted node => if bool_decide (node ∈ wanted) then wanted else wanted ++ [node]) leased nodes.
Proof.
  assert (Hk : forall l w, n ∈ w -> n ∈ fold_left (fun wanted node => if bool_decide (node ∈ wanted) then wanted else wanted ++ [node]) l w).
  { induction l as [|m l IH]; intros w H; [done|]. cbn [fold_left]. apply IH. case_bool_decide; [done|].
    apply elem_of_app. by left. }
  revert nodes. induction leased as [|m l IH]; intros nodes; [by intros ?%elem_of_nil|].
  cbn [fold_left]. intros [->|H]%elem_of_cons; [|by apply IH]. apply Hk. case_bool_decide; [done|].
  apply elem_of_app. right. by left.
Qed.
Lemma lease_survives to_string secret w nodes s n slot :
  wf_slots (slots s) -> n ∈ leased s -> slots s !! n = Some slot ->
  let s' := fst (set_outbound_nodes to_string secret w nodes s) in
  slots s' !! n = Some slot /\ leased s' = leased s.
Proof.
  intros Hwf Hn Hs. cbv zeta. unfold set_outbound_nodes, write_runtime_config. set (wanted := fold_left _ _ _).
  pose proof (refile_assigned wanted (slots s) Hwf) as [_ B _ _].
  assert (Hk : fst (refile wanted (slots s)) !! n = Some slot).
  { eapply lookup_weaken; [|exact B]. apply kept_lookup. split; [done|]. by apply wanted_elem. }
  destruct (refile wanted (slots s)) as [after changed]. cbn [fst] in Hk.
  destruct changed, (outbounds_ok w), (config_ok w); done.
Qed.

(** ** The configuration

    No two listeners, the controller and the shared port bind the same port, and
    each listener leads to a group that is declared. *)
Definition bound_ports (m : OutboundSlots) : list Z := 7890 :: 9090 :: map (fun l => l.1.2) (listeners m).
Lemma slot_list_elem m slot : slot ∈ slot_list m <-> exists n, m !! n = Some slot.
Proof.
  unfold slot_list. rewrite sort_by_perm, list_elem_of_fmap. split.
  - intros ([n s] & -> & H%elem_of_map_to_list). by exists n.
  - intros [n H]. exists (n, slot). split; [done|]. by apply elem_of_map_to_list.
Qed.
Lemma NoDup_snd (m : OutboundSlots) : wf_slots m -> NoDup (map snd (map_to_list m)).
Proof.
  intros [_ Hi]. apply (NoDup_fmap_2_strong snd); [|apply NoDup_map_to_list].
  intros [n s] [n' s'] H%elem_of_map_to_list H'%elem_of_map_to_list E. cbn in E. subst s'. by rewrite (Hi n n' s H H').
Qed.
Theorem config_is_consistent m :
  wf_slots m -> NoDup (bound_ports m) /\ NoDup (groups m) /\ forall l, l ∈ listeners m -> l.2 ∈ groups m.
Proof.
  intros Hwf. pose proof (NoDup_snd m Hwf) as Hn. destruct Hwf as [Hp _].
  assert (Hs : NoDup (slot_list m)) by (unfold slot_list; by rewrite sort_by_perm).
  assert (Hr : forall slot, slot ∈ slot_list m -> outbound_port slot = 7900 + slot /\ 7900 < outbound_port slot /\ outbound_port slot <> 9090).
  { intros slot [n H]%slot_list_elem. destruct (Hp n slot H) as [H1 H2]. rewrite outbound_port_slot in * by done.
    split; [done|]. split; [lia|]. intros E. apply H2. rewrite E. by left. }
  unfold bound_ports, listeners, groups. rewrite map_app, !map_map. cbn [fst snd ALL map app]. split_and!.
  - assert (Hx : forall p, p <= 7900 \/ p = 9090 -> p ∉ map outbound_port (slot_list m)).
    { intros p Hp' (slot & -> & H)%list_elem_of_fmap. specialize (Hr slot H). lia. }
    repeat (constructor; [rewrite ?elem_of_cons; cbn; intros H; repeat (destruct H as [H|H]; [discriminate|]);
      revert H; apply Hx; cbn; lia|]).
    apply (NoDup_fmap_2_strong outbound_port); [|done].
    intros x y Hx' Hy E. pose proof (Hr x Hx'). pose proof (Hr y Hy). lia.
  - assert (Hx : forall g, String.prefix "MAJSOUL-OUT-" g = false -> g ∉ map outbound_group (slot_list m)).
    { intros g Hg (slot & -> & H)%list_elem_of_fmap. unfold outbound_group in Hg. by rewrite prefix_append in Hg. }
    repeat (constructor; [rewrite ?elem_of_cons; cbn; intros H; repeat (destruct H as [H|H]; [discriminate|]);
      revert H; by apply Hx|]).
    apply (NoDup_fmap_2_strong outbound_group); [|done]. intros x y _ _. apply outbound_group_inj.
  - intros l. rewrite !elem_of_cons. intros [->|[->|(slot & -> & H)%list_elem_of_fmap]]; [by left|right; by left|right; right].
    apply list_elem_of_fmap. by exists slot.
Qed.

(** ** The subscriptions

    The identifiers differ, and a prefix is that of its identifier, drawn with
    six characters. *)
Definition prefixed (s : StoredSubscription) : Prop :=
  forall p, prefix s = Some p -> exists drawn, String.length drawn = 6%nat /\
    id s = "majsoul-" +:+ drawn /\ p = "[" +:+ drawn +:+ "] ".
Record apart (l : list StoredSubscription) : Prop := mkApart {
  apart_ids : NoDup (map id l); apart_prefixes : Forall prefixed l
}.
Lemma replace_first_spec wanted lb u i l next :
  replace_first wanted lb u i l = Some next ->
  map id next = map id l /\ map prefix next = map prefix l.
Proof.
  revert next. induction l as [|s l IH]; intros next; cbn [replace_first]; [done|].
  destruct (String.eqb (id s) wanted); [by intros [= <-]|].
  destruct (replace_first wanted lb u i l) as [next'|]; [|done]. intros [= <-].
  destruct (IH next' eq_refl) as [E1 E2]. cbn [map]. by rewrite E1, E2.
Qed.
Lemma prefixed_same l l' : map id l = map id l' -> map prefix l = map prefix l' -> Forall prefixed l -> Forall prefixed l'.
Proof.
  revert l'. induction l as [|s l IH]; intros [|s' l'] Ei Ep H; try done. injection Ei as Ei1 Ei2. injection Ep as Ep1 Ep2.
  inversion_clear H as [|? ? H1 H2]. constructor; [|by apply IH]. unfold prefixed in *. by rewrite <- Ei1, <- Ep1.
Qed.
Lemma in_by_index (l l' : list StoredSubscription) s :
  map id l' = map id l -> map prefix l' = map prefix l -> s ∈ l -> exists s', s' ∈ l' /\ id s' = id s /\ prefix s' = prefix s.
Proof.
  revert l'. induction l as [|s1 l IH]; intros [|s2 l'] Ei Ep; try done; [by intros ?%elem_of_nil|].
  injection Ei as Ei1 Ei2. injection Ep as Ep1 Ep2. intros [->|H]%elem_of_cons.
  - exists s2. split; [by left|done].
  - destruct (IH l' Ei2 Ep2 H) as (s' & ? & ?). exists s'. split; [by right|done].
Qed.
(** Changing the subscriptions never renames a node: a subscription that was
    there keeps its identifier and its prefix, whatever its link and label
    become; the identifiers stay distinct and, for a new one, free, there are
    never more than sixteen; and no two prefixed subscriptions can name a node
    the same, whatever names their providers choose. *)
Theorem subscriptions_stay_apart parse_url draws u l next :
  apart l -> Forall (fun drawn => String.length drawn = 6%nat) draws ->
  next_subscriptions parse_url draws u l = Ok next ->
  apart next /\ (length next <= Nat.max MAX_SUBSCRIPTIONS (length l))%nat /\
  (forall s, s ∈ l -> exists s', s' ∈ next /\ id s' = id s /\ prefix s' = prefix s) /\
  (forall s s' p p' n n', s ∈ next -> s' ∈ next -> prefix s = Some p -> prefix s' = Some p' ->
     p +:+ n = p' +:+ n' -> id s = id s').
Proof.
  intros [Hi Hp] Hd. unfold next_subscriptions.
  assert (Hnames : forall next, apart next -> forall s s' p p' n n', s ∈ next -> s' ∈ next ->
    prefix s = Some p -> prefix s' = Some p' -> p +:+ n = p' +:+ n' -> id s = id s').
  { intros l' [_ Hl] s s' p p' n n' Hs Hs' E E' Hn. rewrite Forall_forall in Hl.
    destruct (Hl s Hs p E) as (d & Ld & -> & ->), (Hl s' Hs' p' E') as (d' & Ld' & -> & ->). f_equal.
    injection Hn as Hn. change ((d +:+ "] ") +:+ n = (d' +:+ "] ") +:+ n') in Hn.
    rewrite !append_assoc_s in Hn. apply (f_equal (stake 6)) in Hn. by rewrite !stake_append in Hn. }
  destruct (replaces u ≫= _) as [next'|] eqn:Er.
  - intros [= <-]. destruct (replaces u) as [wanted|]; [|done]. apply replace_first_spec in Er as [Ei Ep].
    assert (Ha : apart next') by (constructor; [by rewrite Ei|by apply (prefixed_same l)]).
    split_and!; [done| |intros s; by apply in_by_index|by apply Hnames].
    rewrite <- (length_map id next'), Ei, length_map. lia.
  - destruct (Nat.leb_spec MAX_SUBSCRIPTIONS (length l)); [done|].
    unfold fresh_id. destruct (List.find _ draws) as [drawn|] eqn:Ef; [|done]. intros [= <-].
    apply find_some in Ef as [Hin%list_elem_of_In Hfree]. rewrite forallb_forall in Hfree.
    set (new := mkStored _ _ _ _ _).
    assert (Ha : apart (l ++ [new])).
    { constructor.
      - rewrite map_app. apply NoDup_app. split_and!; [done| |by apply NoDup_singleton].
        intros i (s & -> & Hs)%list_elem_of_fmap [= E]%list_elem_of_singleton. cbn in E.
        specialize (Hfree s ltac:(by apply list_elem_of_In)). by rewrite E, String.eqb_refl in Hfree.
      - apply Forall_app. split; [done|]. constructor; [|done]. intros p [= <-]. exists drawn.
        split; [|done]. by apply (proj1 (Forall_forall _ _) Hd). }
    split_and!; [done|rewrite length_app; cbn; lia| |by apply Hnames].
    intros s Hs. exists s. split; [|done]. apply elem_of_app. by left.
Qed.

(** What was saved is read back, and so is the file of the version with one
    subscription, whose nodes keep their names. *)
Lemma read_stored_spec s : in_u64 (update_interval_secs s) -> read_stored (write_stored s) = Ok s.
Proof.
  intros [Hi _]. destruct s as [i l [p|] u n]; cbn in Hi; unfold read_stored, write_stored, u64_value;
    cbn -[num as_u64]; unfold u64_value; by rewrite as_u64_num.
Qed.
Theorem saved_subscriptions_are_read_back from_str saved legacy l i u :
  from_str saved = Some (write_subscriptions l) ->
  from_str legacy = Some (JObj [("url", JStr u); ("update_interval_secs", num i)]) ->
  Forall (fun s => in_u64 (update_interval_secs s)) l -> in_u64 i ->
  load_subscriptions from_str saved = Ok l /\
  load_subscriptions from_str legacy = Ok [mkStored "majsoul" "majsoul" None u i].
Proof.
  intros E1 E2 Hl [Hi _]. unfold load_subscriptions. rewrite E1, E2. split.
  - unfold write_subscriptions, read_subscriptions. cbn -[mapM].
    assert (E : mapM read_stored (map write_stored l) = Ok l); [|by rewrite E].
    clear E1. induction Hl as [|s l Hs _ IH]; [done|]. cbn [map mapM]. rewrite read_stored_spec by done. cbn. by rewrite IH.
  - unfold read_stored, u64_value. cbn -[num as_u64]. unfold u64_value. by rewrite as_u64_num.
Qed.

(** ** The traffic

    [seen] is the last that was reported of every connection there ever was: its
    node and what it had carried. *)
Abbreviation Seen := (gmap string (string * Z)).
Definition ids (live : list (string * string * Z)) : gset string := list_to_set (map (fun c => c.1.1) live).
Definition report (seen : Seen) (c : string * string * Z) : Seen := <[c.1.1 := (c.1.2, c.2)]> seen.
(** Connections as the core has them: none comes back once it is gone, moves to
    another node or carries less than before. *)
Fixpoint steady_sample (live : list (string * string * Z)) (seen : Seen) (gone : gset string) : Prop :=
  match live with
  | [] => True
  | (id, node, carried) :: live =>
    id ∉ gone /\ 0 <= carried /\ (forall n c, seen !! id = Some (n, c) -> n = node /\ c <= carried) /\
    steady_sample live (report seen (id, node, carried)) gone
  end.
Fixpoint steady (samples : list (list (string * string * Z))) (seen : Seen) (gone : gset string) : Prop :=
  match samples with
  | [] => True
  | live :: samples =>
    steady_sample live seen gone /\
    steady samples (fold_left report live seen) (gone ∪ (dom seen ∖ ids live))
  end.
Definition share (node : string) (v : string * Z) : Z := if String.eqb v.1 node then v.2 else 0.
Definition carried_by (node : string) (seen : Seen) : Z := map_fold (fun _ v acc => share node v + acc) 0 seen.
Lemma carried_by_fresh node id v (seen : Seen) : seen !! id = None ->
  carried_by node (<[id := v]> seen) = share node v + carried_by node seen.
Proof.
  intros H. unfold carried_by. rewrite (map_fold_insert_L (fun _ v acc => share node v + acc)); [done| |done]. intros. lia.
Qed.
Lemma carried_by_report node id n c (seen : Seen) :
  (forall n' c', seen !! id = Some (n', c') -> n' = n) ->
  carried_by node (<[id := (n, c)]> seen) =
  carried_by node seen + (if String.eqb n node then c - default 0 (snd <$> seen !! id) else 0).
Proof.
  intros H. destruct (seen !! id) as [[n' c']|] eqn:E.
  - rewrite (H n' c' eq_refl) in E. rewrite <- (insert_delete_id seen id (n, c') E) at 2. rewrite <- insert_delete_eq.
    rewrite !carried_by_fresh by apply lookup_delete_eq. unfold share. cbn. destruct (String.eqb n node); lia.
  - rewrite carried_by_fresh by done. unfold share. cbn. destruct (String.eqb n node); lia.
Qed.
(** The totals are what was seen, the marks are those of the connections that
    are not gone. *)
Record counts (t : Traffic) (seen : Seen) (gone : gset string) : Prop := mkCounts {
  counts_total : forall node, default 0 (total t !! node) = Prelude.as_u64 (carried_by node seen);
  counts_marks : forall id, id ∉ gone -> counted t !! id = snd <$> seen !! id
}.
Lemma as_u64_add a b : Prelude.as_u64 (Prelude.as_u64 a + b) = Prelude.as_u64 (a + b).
Proof. unfold Prelude.as_u64, as_unsigned. apply Zplus_mod_idemp_l. Qed.
Lemma counts_one t seen gone id node carried :
  counts t seen gone -> id ∉ gone -> 0 <= carried ->
  (forall n c, seen !! id = Some (n, c) -> n = node /\ c <= carried) ->
  counts (count_one t (id, node, carried)) (report seen (id, node, carried)) gone.
Proof.
  intros [Ht Hm] Hg H0 Hs. unfold report, count_one. cbn [fst snd].
  assert (Ec : sat_sub carried (default 0 (counted t !! id)) = carried - default 0 (snd <$> seen !! id)).
  { rewrite (Hm id Hg). unfold sat_sub. destruct (seen !! id) as [[n c]|]; cbn; [|lia].
    destruct (Hs n c eq_refl). lia. }
  rewrite Ec. set (fresh := carried - _) in *. assert (Hf : 0 <= fresh) by (unfold sat_sub in Ec; lia).
  constructor; cbn [total counted].
  - intros n. rewrite carried_by_report by (intros n' c' H; by apply (Hs n' c')). fold fresh.
    destruct (Z.ltb_spec 0 fresh) as [Hlt|Hle].
    + destruct (String.eqb_spec node n) as [->|Hne].
      * rewrite lookup_insert_eq. cbn [default from_option Datatypes.id]. by rewrite Ht, as_u64_add.
      * rewrite lookup_insert_ne by done. rewrite Ht. f_equal. lia.
    + rewrite Ht. f_equal. destruct (String.eqb node n); lia.
  - intros i Hi. destruct (decide (i = id)) as [->|Hne]; [by rewrite !lookup_insert_eq|].
    rewrite !lookup_insert_ne by done. by apply Hm.
Qed.
Lemma counts_live live gone : forall t seen,
  counts t seen gone -> steady_sample live seen gone ->
  counts (fold_left count_one live t) (fold_left report live seen) gone.
Proof.
  induction live as [|[[id node] carried] live IH]; intros t seen Hc Hs; [done|].
  destruct Hs as (Hg & H0 & Hm & Hs). cbn [fold_left]. apply IH; [by apply counts_one|done].
Qed.
Lemma seen_reported live : forall (seen : Seen) id,
  is_Some (fold_left report live seen !! id) <-> is_Some (seen !! id) \/ id ∈ ids live.
Proof.
  induction live as [|c live IH]; intros seen id; cbn [fold_left].
  { unfold ids. cbn. rewrite elem_of_empty. tauto. }
  rewrite IH. unfold report, ids. cbn [map list_to_set]. rewrite lookup_insert_is_Some', elem_of_union, elem_of_singleton.
  split; [intros [[<-|]|]|intros [|[->|]]]; tauto.
Qed.
Lemma counts_sample live t seen gone :
  counts t seen gone -> steady_sample live seen gone ->
  counts (sample live t) (fold_left report live seen) (gone ∪ (dom seen ∖ ids live)).
Proof.
  intros Hc Hs. destruct (counts_live live gone t seen Hc Hs) as [Ht Hm]. unfold sample. constructor; [done|].
  cbn [counted]. intros id. rewrite elem_of_union, elem_of_difference, elem_of_dom. intros Hid.
  rewrite map_lookup_filter. destruct (decide (id ∈ map (fun c => c.1.1) live)) as [Hin|Hout].
  - rewrite (Hm id) by tauto. destruct (fold_left report live seen !! id) as [v|]; [|done]. cbn.
    rewrite option_guard_True by done. done.
  - assert (E : fold_left report live seen !! id = None).
    { apply eq_None_not_Some. rewrite seen_reported. unfold ids. rewrite elem_of_list_to_set. unfold ids in Hid.
      rewrite elem_of_list_to_set in Hid. tauto. }
    rewrite E. rewrite (Hm id) by tauto. by rewrite E.
Qed.
(** The totals are exact: over any samples of connections that each stay on
    their node, never carry less and never come back once gone, what is counted
    for a node is the sum, over all the connections there were, of what each was
    last seen to have carried, and nothing is counted twice (on 64 bits). *)
Theorem traffic_is_counted_once samples node :
  steady samples ∅ ∅ ->
  default 0 (total (fold_left (fun t live => sample live t) samples (mkTraffic ∅ ∅)) !! node)
  = Prelude.as_u64 (carried_by node (fold_left report (concat samples) ∅)).
Proof.
  assert (H : forall t seen gone, counts t seen gone -> steady samples seen gone ->
    exists gone', counts (fold_left (fun t live => sample live t) samples t) (fold_left report (concat samples) seen) gone').
  { induction samples as [|live samples IH]; intros t seen gone Hc Hs; [by exists gone|].
    destruct Hs as [H1 H2]. cbn [fold_left concat]. rewrite fold_left_app. eapply IH; [|exact H2]. by apply counts_sample. }
  intros Hs. destruct (H (mkTraffic ∅ ∅) ∅ ∅) as [gone' [Ht _]]; [|done|apply Ht]. constructor; [|done].
  intros n. unfold carried_by. by rewrite map_fold_empty.
Qed.
(** An identifier that is used again counts nothing until it has carried as much
    as the one before. *)
Example reused_identifier_is_not_counted :
  default 0 (total (fold_left (fun t live => sample live t) [[("a", "n", 100)]; [("a", "n", 40)]] (mkTraffic ∅ ∅)) !! "n") = 100.
Proof. vm_compute. reflexivity. Qed.

(** ** Witnesses *)
Definition toy_slots : OutboundSlots := <["jp" := 1]> (<["hk" := 2]> ∅).
Lemma toy_wf : wf_slots toy_slots.
Proof.
  unfold toy_slots. apply wf_slots_insert; [apply wf_slots_insert; [apply wf_empty| |]| |].
  - split; [vm_compute; split; discriminate|]. apply reserved_spec. vm_compute. reflexivity.
  - intros n. rewrite lookup_empty. done.
  - split; [vm_compute; split; discriminate|]. apply reserved_spec. vm_compute. reflexivity.
  - intros n [[_ H]|[_ H]]%lookup_insert_Some; [done|]. by rewrite lookup_empty in H.
Qed.
Lemma refile_spec_witness : fst (refile ["jp"; "sg"] toy_slots) !! "sg" = Some 2 /\
  fst (refile ["jp"; "sg"] toy_slots) !! "jp" = Some 1.
Proof.
  split; [vm_compute; reflexivity|].
  apply (refile_spec ["jp"; "sg"] toy_slots toy_wf); [by left|reflexivity].
Defined.
Lemma config_is_consistent_witness : wf_slots toy_slots /\ NoDup (groups toy_slots).
Proof. split; [exact toy_wf|]. apply (config_is_consistent toy_slots toy_wf). Defined.

(** A manager that booted, was given a node and told the core. *)
Definition toy_to_string (_ : json) : string := "{}".
Definition toy_from_str (_ : string) : option json := None.
Definition toy_parse_url (_ : string) : result string Url := Ok (mkUrl "https" (Some "example.com") None).
Definition toy_set_port (_ : string) (p : Z) : option string := Some ("http://mihomo:" +:+ pretty p).
Definition toy_writes : Writes := mkWrites true true.
Definition toy_proxies : json := JObj [("proxies", JObj [("MAJSOUL-WATCH", JObj []); ("MAJSOUL-REFETCH", JObj [])])].
Definition toy_ops : list Op :=
  [SetNodes toy_writes ["jp"]; Applied [mkAttempt false None (fun _ _ => true);
    mkAttempt true (Some toy_proxies) (fun _ _ => true)]].
Abbreviation toy_perform := (perform toy_to_string toy_parse_url toy_set_port "secret" "http://mihomo:7890").
Definition toy_booted : Manager := mkManager ∅ false false [] [] (mkTraffic ∅ ∅) None None
  (Some (runtime_config toy_to_string "secret" [] ∅)) ∅.
Definition toy_manager : Manager := fold_left (fun s op => toy_perform op s) toy_ops toy_booted.
Lemma toy_manager_reachable :
  reachable toy_to_string toy_parse_url toy_set_port "secret" "http://mihomo:7890" toy_from_str toy_manager.
Proof.
  apply Reach_op; [apply Reach_op; [|reflexivity]|exact I].
  apply (Reach_boot _ _ _ _ _ _ true NotFound NotFound); [done|reflexivity].
Qed.
(** Two selections under way at once, and a poll between them. *)
Definition toy_attempt : Attempt := mkAttempt true (Some toy_proxies) (fun _ _ => true).
Definition toy_pointed (node : string) : json :=
  JObj [("proxies", JObj [("MAJSOUL-WATCH", JObj []); ("MAJSOUL-REFETCH", JObj []); ("MAJSOUL-OUT-1", JObj [("now", JStr node)])])].
Definition toy_poll (node : string) : Answers := mkAnswers (Ok tt) (Ok (toy_pointed node)) (fun _ => None).
Definition toy_happenings : list Happening :=
  [Does (SetNodes toy_writes ["jp"]); Reloaded 0 (mkAttempt false None (fun _ _ => true)); Reloaded 0 toy_attempt; Reloaded 1 toy_attempt;
   Selected 0 true; Does (Asked (toy_poll "jp")); Selected 1 false; Ended 1; Ended 0].
Abbreviation toy_happens := (happens toy_to_string toy_parse_url toy_set_port "secret" "http://mihomo:7890").
Abbreviation toy_undisturbed := (undisturbed toy_to_string toy_parse_url toy_set_port "secret" "http://mihomo:7890").
Lemma toy_calm : toy_undisturbed toy_happenings (mkLive toy_booted ∅).
Proof. apply (bool_decide_unpack (toy_undisturbed toy_happenings (mkLive toy_booted ∅))). vm_compute. exact I. Qed.
Lemma toy_dialled : (fun l => (proxy_url_for_node toy_set_port "http://mihomo:7890" "jp" (manager l), slots (manager l) !! "jp"))
  <$> toy_happens toy_happenings (mkLive toy_booted ∅) = Some (Some "http://mihomo:7901", Some 1).
Proof. vm_compute. reflexivity. Qed.
(** The file cannot be written as [jp] makes way for [hk]: the old port is now
    given out for the new node, which the core was never told. *)
Definition toy_unwritable : Writes := mkWrites false true.
Lemma failed_save_moves_the_ports_witness :
  let s' := fst (set_outbound_nodes toy_to_string "secret" toy_unwritable ["hk"] toy_manager) in
  slots_ready s' = true /\ confirmed s' !! "MAJSOUL-OUT-1" = Some "jp" /\
  proxy_url_for_node toy_set_port "http://mihomo:7890" "hk" s' = Some "http://mihomo:7901" /\
  set_outbound_nodes toy_to_string "secret" toy_writes ["hk"] s' = (s', Ok false).
Proof.
  cbv zeta.
  destruct (failed_save_moves_the_ports _ _ _ _ _ _ toy_unwritable toy_writes ["hk"] toy_manager
    (fst (set_outbound_nodes toy_to_string "secret" toy_unwritable ["hk"] toy_manager))
    toy_manager_reachable eq_refl) as (_ & Hr & Hc & _ & _ & Ha); [vm_compute; reflexivity|].
  split; [rewrite Hr; vm_compute; reflexivity|]. split; [rewrite Hc; vm_compute; reflexivity|].
  split; [vm_compute; reflexivity|exact Ha].
Defined.
(** The selections of one filing end after the next filing: the ports are opened
    although the core was told nothing of the new node. *)
Example stale_selections_open_the_ports :
  (fun l => (slots_ready (manager l), slots (manager l) !! "hk", confirmed (manager l) !! outbound_group 1,
             proxy_url_for_node toy_set_port "http://mihomo:7890" "hk" (manager l)))
    <$> toy_happens [Does (SetNodes toy_writes ["jp"]); Reloaded 0 toy_attempt; Selected 0 true; Does (SetNodes toy_writes ["hk"]); Ended 0]
          (mkLive toy_booted ∅)
  = Some (true, Some 1, Some "jp", Some "http://mihomo:7901").
Proof. vm_compute. reflexivity. Qed.
(** A poll that finds a group off its node is forgotten when the selections that
    were under way end. *)
Example selections_end_over_a_poll :
  (fun l => (slots_ready (manager l), confirmed (manager l) !! outbound_group 1))
    <$> toy_happens [Does (SetNodes toy_writes ["jp"]); Reloaded 0 toy_attempt; Selected 0 true; Does (Asked (toy_poll GROUP_NAME)); Ended 0]
          (mkLive toy_booted ∅)
  = Some (true, Some GROUP_NAME).
Proof. vm_compute. reflexivity. Qed.
Lemma subscriptions_stay_apart_witness :
  exists next, next_subscriptions toy_parse_url ["88bdd3"] (mkUpdate "https://example.com" 3600 None None)
    [mkStored "majsoul" "majsoul" None "u" 3600] = Ok next /\ apart next.
Proof.
  eexists. split; [reflexivity|].
  eapply (subscriptions_stay_apart toy_parse_url ["88bdd3"] (mkUpdate "https://example.com" 3600 None None)
    [mkStored "majsoul" "majsoul" None "u" 3600]); [|repeat constructor|reflexivity].
  constructor; [apply NoDup_singleton|]. constructor; [|done]. intros p. discriminate.
Defined.
(** A subscription whose configuration cannot be written is refused, but is in
    the file, and so in force after a restart. *)
Example refused_subscription_is_saved :
  let s := toy_perform (Updated ["88bdd3"] Done false (mkAnswers (Ok tt) (Err Http) (fun _ => None))
    (mkUpdate "https://example.com" 3600 None None)) toy_booted in
  subscriptions s = [] /\ length (default [] (subscription_json s)) = 1%nat.
Proof. vm_compute. by split. Qed.
Definition toy_saved : list StoredSubscription := [mkStored "majsoul-88bdd3" "a" (Some "[88bdd3] ") "u" 3600].
Lemma saved_subscriptions_are_read_back_witness :
  load_subscriptions (fun s => if String.eqb s "new" then Some (write_subscriptions toy_saved)
    else Some (JObj [("url", JStr "u"); ("update_interval_secs", num 3600)])) "new" = Ok toy_saved.
Proof.
  refine (proj1 (saved_subscriptions_are_read_back _ "new" "old" toy_saved 3600 "u" eq_refl eq_refl _ _)).
  - constructor; [|constructor]. split; reflexivity || (vm_compute; discriminate).
  - split; reflexivity || (vm_compute; discriminate).
Defined.
Lemma traffic_is_counted_once_witness :
  steady [[("a", "n", 100); ("b", "n", 5)]; [("a", "n", 140)]] ∅ ∅ /\
  default 0 (total (fold_left (fun t live => sample live t) [[("a", "n", 100); ("b", "n", 5)]; [("a", "n", 140)]]
    (mkTraffic ∅ ∅)) !! "n") = 145.
Proof.
  assert (H : steady [[("a", "n", 100); ("b", "n", 5)]; [("a", "n", 140)]] ∅ ∅).
  { repeat split; try match goal with E : _ !! _ = Some _ |- _ => vm_compute in E; simplify_eq end;
      first [done|lia|set_solver]. }
  split; [exact H|]. rewrite (traffic_is_counted_once _ "n" H). vm_compute. reflexivity.
Defined.
