(* ===== verification/Accounts.v ===== *)
(** The accounts a deployment logs in with: [src/src/accounts.rs], with the
    redaction of secrets of [src/src/watch_service.rs] and the account files of
    [src/src/managed_watch.rs]. *)
From S2P Require Import Prelude Text Mjai.
#[local] Open Scope string_scope.
#[local] Open Scope list_scope.
#[local] Open Scope Z_scope.

Module Accounts.

Inductive AccountPurpose := Watch | Refetch.
#[export] Instance AccountPurpose_dec : EqDecision AccountPurpose.
Proof. solve_decision. Defined.
Definition purpose_parse (value : string) : option AccountPurpose :=
  if String.eqb value "watch" then Some Watch
  else if String.eqb value "refetch" then Some Refetch else None.

Record StoredAccount := mkAccount {
  id : string; username : string; password : string; purpose : AccountPurpose; note : string;
  enabled : bool; node : string; banned_at : option Z
}.
#[export] Instance StoredAccount_settable : Settable StoredAccount := fun r =>
  mkAccount (id r) (username r) (password r) (purpose r) (note r) (enabled r) (node r) (banned_at r).
Record AccountDocument := mkDocument {
  revision : Z; accounts : list StoredAccount; updated_at : option Z
}.
#[export] Instance AccountDocument_settable : Settable AccountDocument := fun r =>
  mkDocument (revision r) (accounts r) (updated_at r).
Definition default_document : AccountDocument := mkDocument 0 [] None.
(** The arms of [WatchServiceError] this module gives. *)
Inductive PoolError :=
| InvalidConfig (message : string)
| RevisionConflict (submitted current : Z)
| Io.

(** [REDACTED_USERINFO], [redacted_secret] and [restored_secret]. *)
Definition REDACTED : string := "***".
Definition redacted_secret (value : option string) : option string :=
  value ← value; if String.eqb value "" then None else Some REDACTED.
Definition restored_secret (submitted stored : option string) : option string :=
  match submitted with
  | Some value => if String.eqb value REDACTED then stored else Some value
  | None => None
  end.
(** [AccountDocument::published]. *)
Definition published_account (a : StoredAccount) : StoredAccount :=
  a <| password ::= fun p => default "" (redacted_secret (Some p)) |>.
Definition published (d : AccountDocument) : AccountDocument :=
  d <| accounts ::= map published_account |>.

(** [PoolRef]. *)
Inductive PoolRef := All (purpose : AccountPurpose) | One (purpose : AccountPurpose) (username : string).
Definition ref_parse (target : string) : option PoolRef :=
  match split_once "/"%char target with
  | Some (purpose, username) =>
    if String.eqb username "" then None
    else purpose ← purpose_parse purpose; Some (One purpose username)
  | None => All <$> purpose_parse target
  end.

Inductive AccountState := Unknown | LoggedIn | Banned | RefusedLogin | Unreachable.
#[export] Instance AccountState_dec : EqDecision AccountState.
Proof. solve_decision. Defined.
Definition is_terminal (s : AccountState) : bool := bool_decide (s = Banned).
Record AccountHealth := mkHealth { state : AccountState; at_ : option Z; detail : string; failures : Z }.
Definition default_health : AccountHealth := mkHealth Unknown None "" 0.

(** The pool: the document in memory, the file a restart reads, the verdicts of
    this process. *)
Record AccountPool := mkPool {
  document : AccountDocument; file : option AccountDocument; health : gmap string AccountHealth
}.
Definition eq_ignore_ascii_case (a b : string) : bool :=
  String.eqb (to_ascii_lowercase a) (to_ascii_lowercase b).

Section Pool.
(** [str::to_lowercase], at the Unicode tables of the standard library. *)
Variable to_lowercase : string -> string.

Definition has_whitespace (s : string) : bool := existsb unicode_space (chars s).
(** [AccountDocument::validate]: the checks of one row, then the next. *)
Fixpoint validate_from (seen : gset string) (l : list StoredAccount) : result PoolError unit :=
  match l with
  | [] => Ok tt
  | account :: l =>
    let username := trim (username account) in
    if String.eqb username "" then Err (InvalidConfig "账号不能为空")
    else if has_whitespace username || contains "/"%char username then
      Err (InvalidConfig ("账号 " +:+ username +:+ " 含有空白或 /，这两个都是引用里的分隔符"))
    else if String.eqb (trim (password account)) "" then
      Err (InvalidConfig ("账号 " +:+ username +:+ " 没有密码"))
    else if bool_decide (to_lowercase username ∈ seen) then
      Err (InvalidConfig ("账号 " +:+ username +:+ " 出现了两次；雀魂一个账号只能开一个会话，两处同时用会互相把对方踢下线"))
    else validate_from ({[to_lowercase username]} ∪ seen) l
  end.
Definition validate (d : AccountDocument) : result PoolError unit := validate_from ∅ (accounts d).

(** [AccountPool::open] on what the file holds. *)
Definition open (file : option AccountDocument) : result PoolError AccountPool :=
  match file with
  | Some d => _ ← validate d; Ok (mkPool d file ∅)
  | None => Ok (mkPool default_document None ∅)
  end.
(** [persist_secret_json] and the assignment after it: the file is replaced by a
    rename, so it either has the new document or the old one. *)
Definition store (written : bool) (next : AccountDocument) (pool : AccountPool)
  : AccountPool * result PoolError unit :=
  if written then (mkPool next (Some next) (health pool), Ok tt) else (pool, Err Io).

Definition record_login (now : Z) (username : string) (s : AccountState) (detail : string)
  (pool : AccountPool) : AccountPool :=
  let key := to_lowercase username in
  let entry := default default_health (health pool !! key) in
  let failures := if bool_decide (s = LoggedIn) then 0 else sat_add_u32 (failures entry) 1 in
  mkPool (document pool) (file pool) (<[key := mkHealth s (Some now) detail failures]> (health pool)).

(** [Iterator::find] with a change: the first row that satisfies [p]. *)
Fixpoint update_first (p : StoredAccount -> bool) (f : StoredAccount -> StoredAccount)
  (l : list StoredAccount) : list StoredAccount :=
  match l with
  | [] => []
  | a :: l => if p a then f a :: l else a :: update_first p f l
  end.
Definition bumped (now : Z) (d : AccountDocument) : AccountDocument :=
  mkDocument (sat_add_u64 (revision d) 1) (accounts d) (Some now).
Definition retire_banned (now : Z) (written : bool) (name : string) (pool : AccountPool)
  : AccountPool * result PoolError bool :=
  let p := fun a => eq_ignore_ascii_case (username a) (trim name) in
  match List.find p (accounts (document pool)) with
  | None => (pool, Ok false)
  | Some account =>
    if negb (bool_decide (purpose account = Refetch)) || negb (enabled account) then (pool, Ok false)
    else
      let retired := update_first p (fun a => a <| enabled := false |> <| banned_at := Some now |>)
                       (accounts (document pool)) in
      let next := bumped now ((document pool) <| accounts := retired |>) in
      let '(pool, r) := store written next pool in
      (pool, (fun _ => true) <$> r)
  end.
(** [AccountPool::health]: a row for every account of the document. *)
Definition health_of (pool : AccountPool) : gmap string AccountHealth :=
  list_to_map (reverse (map (fun a =>
    (username a, default default_health (health pool !! to_lowercase (username a))))
    (accounts (document pool)))).

(** The loop of [append]; [fresh] names the rows that come without an id. *)
Fixpoint append_rows (fresh : nat -> string) (rows : list StoredAccount) (seen : gset string)
  : list StoredAccount :=
  match rows with
  | [] => []
  | account :: rows =>
    let name := trim (username account) in
    if String.eqb name "" || bool_decide (to_lowercase name ∈ seen) then append_rows fresh rows seen
    else
      let account := account <| username := name |>
                       <| id ::= fun i => if String.eqb i "" then fresh (length rows) else i |> in
      account :: append_rows fresh rows ({[to_lowercase name]} ∪ seen)
  end.
Definition append (now : Z) (fresh : nat -> string) (written : bool) (rows : list StoredAccount)
  (pool : AccountPool) : AccountPool * result PoolError Z :=
  let old := accounts (document pool) in
  let seen := list_to_set (map (fun a => to_lowercase (trim (username a))) old) : gset string in
  let added := append_rows fresh rows seen in
  if bool_decide (added = []) then (pool, Ok 0)
  else
    let next := (document pool) <| accounts := old ++ added |> in
    match validate next with
    | Ok _ => let '(pool, r) := store written (bumped now next) pool in
              (pool, (fun _ => zlen added) <$> r)
    | Err e => (pool, Err e)
    | Panic => (pool, Panic)
    end.

(** One submitted row of [update]. *)
Definition restore_row (fresh : string) (stored : list StoredAccount) (account : StoredAccount)
  : StoredAccount :=
  let previous := List.find (fun s => negb (String.eqb (id s) "") && String.eqb (id s) (id account))
                    stored in
  mkAccount (if String.eqb (id account) "" then fresh else id account)
    (trim (username account))
    (default "" (restored_secret (Some (password account)) (password <$> previous)))
    (purpose account) (note account) (enabled account) (node account)
    (if enabled account then None else previous ≫= banned_at).
Definition asterisks_message (name : string) : string :=
  "账号 " +:+ name +:+ " 是新加的，密码栏里的 *** 不是密码，请输入真正的密码".
Definition update (now : Z) (fresh : nat -> string) (written : bool) (next : AccountDocument)
  (pool : AccountPool) : AccountPool * result PoolError AccountDocument :=
  let current := document pool in
  if negb (revision next =? revision current) then
    (pool, Err (RevisionConflict (revision next) (revision current)))
  else
    let rows := imap (fun i a => restore_row (fresh i) (accounts current) a) (accounts next) in
    match List.find (fun a => String.eqb (password a) "***") rows with
    | Some account => (pool, Err (InvalidConfig (asterisks_message (username account))))
    | None =>
      match validate (next <| accounts := rows |>) with
      | Err e => (pool, Err e)
      | Panic => (pool, Panic)
      | Ok _ =>
        let next := mkDocument (sat_add_u64 (revision current) 1) rows (Some now) in
        let '(pool, r) := store written next pool in
        (pool, (fun _ => published next) <$> r)
      end
    end.

(** [AccountPool::resolve], [reserved] and [node_for]. *)
Definition resolve (reference : PoolRef) (pool : AccountPool) : list (string * string) :=
  map (fun a => (username a, password a))
    (List.filter (fun a => match reference with
       | All p => bool_decide (purpose a = p)
       | One p name => bool_decide (purpose a = p) && eq_ignore_ascii_case (username a) name
       end) (List.filter enabled (accounts (document pool)))).
Definition reserved (p : AccountPurpose) (pool : AccountPool) : gset string :=
  list_to_set (map username (List.filter (fun a => bool_decide (purpose a = p)) (accounts (document pool)))).
Definition node_for (name : string) (pool : AccountPool) : option string :=
  account ← List.find (fun a => eq_ignore_ascii_case (username a) name) (accounts (document pool));
  let node := trim (node account) in if String.eqb node "" then None else Some node.

(** [Vec::dedup]. *)
Fixpoint dedup (l : list string) : list string :=
  match l with
  | x :: ((y :: _) as l') => if String.eqb x y then dedup l' else x :: dedup l'
  | _ => l
  end.
Definition is_refetch (a : StoredAccount) : bool := bool_decide (purpose a = Refetch).
Definition refetch_bindings (pool : AccountPool) : list (string * string) :=
  omap (fun a => let node := trim (node a) in
                 if String.eqb node "" then None else Some (username a, node))
    (List.filter (fun a => enabled a && is_refetch a) (accounts (document pool))).
Definition refetch_nodes (pool : AccountPool) : list string :=
  let nodes := map (fun a => trim (node a))
    (List.filter (fun a => enabled a && is_refetch a) (accounts (document pool))) in
  dedup (sort_by String.leb (List.filter (fun n => negb (String.eqb n "")) nodes)).
(** [rebind_nodes] and [spread_over] read the document, change their copy and
    hand it to [update]; [seen] is the copy they read. *)
Definition rebind (moves : list (string * string)) (l : list StoredAccount) : list StoredAccount * Z :=
  fold_left (fun '(l, moved) '(name, target) =>
    let p := fun a => eq_ignore_ascii_case (username a) name && is_refetch a in
    match List.find p l with
    | Some a => if String.eqb (node a) target then (l, moved)
                else (update_first p (fun a => a <| node := target |>) l, moved + 1)
    | None => (l, moved)
    end) moves (l, 0).
Definition rebind_nodes (now : Z) (fresh : nat -> string) (written : bool) (seen : AccountDocument)
  (moves : list (string * string)) (pool : AccountPool) : AccountPool * result PoolError Z :=
  match moves with
  | [] => (pool, Ok 0)
  | _ =>
    let '(rows, moved) := rebind moves (accounts seen) in
    let '(pool, r) := update now fresh written (seen <| accounts := rows |>) pool in
    (pool, (fun _ => moved) <$> r)
  end.
Fixpoint spread (nodes : list string) (index : nat) (l : list StoredAccount) : list StoredAccount :=
  match l with
  | [] => []
  | a :: l =>
    if is_refetch a then
      (a <| node := match nodes with [] => "" | _ => nth (index mod length nodes) nodes "" end |>)
      :: spread nodes (S index) l
    else a :: spread nodes index l
  end.
Definition spread_over (now : Z) (fresh : nat -> string) (written : bool) (seen : AccountDocument)
  (nodes : list string) (pool : AccountPool) : AccountPool * result PoolError Z :=
  let count := zlen (List.filter is_refetch (accounts seen)) in
  let '(pool, r) := update now fresh written
                      (seen <| accounts := spread nodes 0 (accounts seen) |>) pool in
  (pool, (fun _ => count) <$> r).

Definition export_refetch (pool : AccountPool) : string :=
  String.concat "" (map (fun a => trim (username a) +:+ "," +:+ password a +:+ String "010"%char "")
    (List.filter (fun a => is_refetch a && bool_decide (banned_at a = None)) (accounts (document pool)))).
Definition taken_from_a_collector (next : AccountDocument) (in_use : gset string) (pool : AccountPool)
  : option string :=
  username <$> List.find (fun a =>
    bool_decide (to_lowercase (username a) ∈ in_use)
    && negb (existsb (fun kept => eq_ignore_ascii_case (username kept) (username a)) (accounts next)))
    (accounts (document pool)).
Definition secrets (pool : AccountPool) : list string := map password (accounts (document pool)).

(** The text format of [load_accounts]: one account a line, tab or comma. *)
Definition account_line (line : string) : option (string * string) :=
  let line := trim line in
  if String.eqb line "" || String.prefix "#" line then None
  else
    let delimiter := if contains "009"%char line then "009"%char else ","%char in
    '(name, secret) ← split_once delimiter line;
    let name := trim name in let secret := trim secret in
    if String.eqb name "" || String.eqb secret "" then None else Some (name, secret).
Definition account_lines (content : string) : list (string * string) :=
  omap account_line (Mjai.lines content).
End Pool.
End Accounts.

Import Accounts.

Section Facts.
Context (to_lowercase : string -> string).
Abbreviation validate_from := (validate_from to_lowercase).
Abbreviation validate := (validate to_lowercase).
Abbreviation update := (update to_lowercase).
Abbreviation append := (append to_lowercase).
Abbreviation rebind_nodes := (rebind_nodes to_lowercase).
Abbreviation spread_over := (spread_over to_lowercase).

(** ** What a valid document is *)
Definition account_key (a : StoredAccount) : string := to_lowercase (trim (username a)).
Definition row_valid (a : StoredAccount) : Prop :=
  trim (username a) <> "" /\ has_whitespace (trim (username a)) = false /\
  contains "/"%char (trim (username a)) = false /\ trim (password a) <> "".
Lemma validate_from_spec seen l :
  validate_from seen l = Ok tt <->
  Forall row_valid l /\ NoDup (map account_key l) /\ Forall (fun a => account_key a ∉ seen) l.
Proof.
  revert seen. induction l as [|a l IH]; intros seen; cbn [Accounts.validate_from map].
  { split; [intros _; split_and!; constructor|done]. }
  cbv zeta. fold (account_key a). rewrite !Forall_cons, NoDup_cons. unfold row_valid at 1.
  destruct (String.eqb_spec (trim (username a)) "") as [|H1]; [naive_solver|].
  destruct (has_whitespace _) eqn:H2; [cbn [orb]; naive_solver|].
  destruct (contains _ _) eqn:H3; [cbn [orb]; naive_solver|]. cbn [orb].
  destruct (String.eqb_spec (trim (password a)) "") as [|H4]; [naive_solver|].
  case_bool_decide as H5; [naive_solver|]. rewrite IH.
  assert (Hiff : Forall (fun b => account_key b ∉ ({[account_key a]} ∪ seen : gset string)) l <->
    (account_key a ∉ map account_key l) /\ Forall (fun b => account_key b ∉ seen) l).
  { rewrite !Forall_forall. split.
    - intros H. split; [|set_solver]. intros (b & Hb & Hin)%list_elem_of_fmap.
      apply (H b Hin). rewrite Hb. set_solver.
    - intros [Hn Hs] b Hb. apply not_elem_of_union. split; [|by apply Hs].
      intros Hk%elem_of_singleton. apply Hn. rewrite <- Hk. by apply list_elem_of_fmap_2. }
  rewrite Hiff. naive_solver.
Qed.
Lemma validate_spec d :
  validate d = Ok tt <-> Forall row_valid (accounts d) /\ NoDup (map account_key (accounts d)).
Proof.
  unfold Accounts.validate. rewrite validate_from_spec. split; [naive_solver|]. intros [? ?].
  split_and!; try done. apply Forall_true. set_solver.
Qed.
Lemma validate_no_panic d : validate d <> Panic.
Proof.
  unfold Accounts.validate. generalize (∅ : gset string). induction (accounts d) as [|a l IH]; intros seen; [done|].
  cbn [Accounts.validate_from]. repeat (case_match; try done).
Qed.
(** The checks look at names and passwords only. *)
Definition login (a : StoredAccount) : string * string := (username a, password a).
Lemma validate_same_logins l l' rev upd rev' upd' : map login l = map login l' ->
  validate (mkDocument rev l upd) = Ok tt -> validate (mkDocument rev' l' upd') = Ok tt.
Proof.
  rewrite !validate_spec. cbn [accounts]. intros Hl [Hv Hn]. split.
  - revert l' Hl Hn. induction Hv as [|a l Ha Hv IH]; intros [|a' l'] Hl Hn; try done.
    injection Hl as Hu Hp Hl. constructor.
    + unfold row_valid in *. by rewrite <- Hu, <- Hp.
    + apply IH; [done|]. by apply NoDup_cons in Hn as [_ ?].
  - assert (E : forall k, map account_key k = map (fun p => to_lowercase (trim (fst p))) (map login k))
      by (intros k; rewrite map_map; done).
    by rewrite E, <- Hl, <- E.
Qed.

(** ** Every operation *)
Inductive operation :=
| Update (now : Z) (fresh : nat -> string) (written : bool) (next : AccountDocument)
| Append (now : Z) (fresh : nat -> string) (written : bool) (rows : list StoredAccount)
| Retire (now : Z) (written : bool) (name : string)
| Rebind (now : Z) (fresh : nat -> string) (written : bool) (seen : AccountDocument)
    (moves : list (string * string))
| Spread (now : Z) (fresh : nat -> string) (written : bool) (seen : AccountDocument) (nodes : list string)
| Login (now : Z) (name : string) (s : AccountState) (why : string)
| Reopen.
Definition erase {A} (p : AccountPool * result PoolError A) : AccountPool * result PoolError unit :=
  (fst p, (fun _ => tt) <$> snd p).
Definition run (o : operation) (pool : AccountPool) : AccountPool * result PoolError unit :=
  match o with
  | Update now fresh written next => erase (update now fresh written next pool)
  | Append now fresh written rows => erase (append now fresh written rows pool)
  | Retire now written name => erase (retire_banned now written name pool)
  | Rebind now fresh written seen moves => erase (rebind_nodes now fresh written seen moves pool)
  | Spread now fresh written seen nodes => erase (spread_over now fresh written seen nodes pool)
  | Login now name s why => (record_login to_lowercase now name s why pool, Ok tt)
  | Reopen => match open to_lowercase (file pool) with
              | Ok pool => (pool, Ok tt) | Err e => (pool, Err e) | Panic => (pool, Panic) end
  end.
Inductive reachable_pool : AccountPool -> Prop :=
| Reach_open file pool : open to_lowercase file = Ok pool -> reachable_pool pool
| Reach_run o pool : reachable_pool pool -> reachable_pool (fst (run o pool)).

(** What is on disk is what is in memory, and it is valid. *)
Definition wf (pool : AccountPool) : Prop :=
  validate (document pool) = Ok tt /\ default default_document (file pool) = document pool.
Lemma store_wf written next pool : wf pool -> validate next = Ok tt -> wf (fst (store written next pool)).
Proof. intros Hw Hv. unfold store. by destruct written. Qed.
Lemma update_wf now fresh written next pool : wf pool -> wf (fst (update now fresh written next pool)).
Proof.
  intros Hw. unfold Accounts.update. cbv zeta. destruct (negb _); [done|].
  destruct (List.find _ _); [done|]. destruct (validate _) as [[]|e|] eqn:Hv; try done.
  pose proof (store_wf written (mkDocument (sat_add_u64 (revision (document pool)) 1)
    (imap (fun i a => restore_row (fresh i) (accounts (document pool)) a) (accounts next)) (Some now)) pool Hw) as Hs.
  destruct (store _ _ pool) as [pool' r]. apply Hs. by eapply validate_same_logins; [|exact Hv].
Qed.
Lemma update_first_logins p f l : (forall a, login (f a) = login a) ->
  map login (update_first p f l) = map login l.
Proof.
  intros Hf. induction l as [|a l IH]; [done|]. cbn [update_first]. destruct (p a); cbn [map]; [by rewrite Hf|].
  by rewrite IH.
Qed.
Lemma run_wf o pool : wf pool -> wf (fst (run o pool)).
Proof.
  intros Hw. destruct o as [now fresh written next|now fresh written rows|now written name
    |now fresh written seen moves|now fresh written seen nodes|now name s why|]; cbn [run fst erase].
  - by apply update_wf.
  - unfold Accounts.append. cbv zeta. case_bool_decide; [done|]. destruct (validate _) as [[]|e|] eqn:Hv; try done.
    match goal with |- context [store written ?d pool] =>
      pose proof (store_wf written d pool Hw) as Hs; destruct (store written d pool) end.
    apply Hs. by eapply validate_same_logins; [|exact Hv].
  - unfold retire_banned. destruct (List.find _ _); [|done]. destruct (_ || _); [done|]. cbv zeta.
    match goal with |- context [store written ?d pool] =>
      pose proof (store_wf written d pool Hw) as Hs; destruct (store written d pool) end.
    apply Hs. destruct Hw as [Hv _]. destruct pool as [[rev l upd] f h].
    apply (validate_same_logins l _ rev upd); [|exact Hv]. symmetry. by apply update_first_logins.
  - unfold Accounts.rebind_nodes. destruct moves; [done|]. destruct (rebind _ _) as [rows moved].
    match goal with |- context [update now fresh written ?d pool] =>
      pose proof (update_wf now fresh written d pool Hw) as Hs; by destruct (update now fresh written d pool) end.
  - unfold Accounts.spread_over. cbv zeta.
    match goal with |- context [update now fresh written ?d pool] =>
      pose proof (update_wf now fresh written d pool Hw) as Hs; by destruct (update now fresh written d pool) end.
  - done.
  - destruct Hw as [Hv Hf]. destruct (file pool) as [d|] eqn:Ef; cbn [open].
    + cbn in Hf. subst d. rewrite Hv. by split.
    + by split.
Qed.
Lemma reachable_pool_wf pool : reachable_pool pool -> wf pool.
Proof.
  induction 1 as [file pool Ho|o pool _ IH]; [|by apply run_wf].
  destruct file as [d|]; cbn [open] in Ho; [|injection Ho as <-; by split].
  destruct (validate d) as [[]| |] eqn:Hv; try done. by injection Ho as <-.
Qed.

(** An operation that is refused, or whose write fails, changes nothing. *)
Lemma store_error written next pool e : snd (store written next pool) = Err e -> fst (store written next pool) = pool.
Proof. unfold store. by destruct written. Qed.
Lemma update_error now fresh written next pool e :
  snd (update now fresh written next pool) = Err e -> fst (update now fresh written next pool) = pool.
Proof.
  unfold Accounts.update. cbv zeta. destruct (negb _); [done|]. destruct (List.find _ _); [done|].
  destruct (validate _); try done. match goal with |- context [store written ?d pool] =>
    pose proof (store_error written d pool) as Hs; destruct (store written d pool) as [pool' r] end.
  cbn [fst snd] in *. destruct r as [|e'|]; try done. intros _. by apply (Hs e').
Qed.
Lemma run_error o pool e : wf pool -> snd (run o pool) = Err e -> fst (run o pool) = pool.
Proof.
  intros Hw. destruct o as [now fresh written next|now fresh written rows|now written name
    |now fresh written seen moves|now fresh written seen nodes|now name s why|]; cbn [run fst snd erase].
  - pose proof (update_error now fresh written next pool) as Hu.
    destruct (update now fresh written next pool) as [p r]. cbn [fst snd] in *.
    destruct r as [|e'|]; try done. intros _. by apply (Hu e').
  - unfold Accounts.append. cbv zeta. case_bool_decide; [done|]. destruct (validate _); try done.
    match goal with |- context [store written ?d pool] =>
      pose proof (store_error written d pool) as Hs; destruct (store written d pool) as [p r] end.
    cbn [fst snd] in *. destruct r as [|e'|]; try done. intros _. by apply (Hs e').
  - unfold retire_banned. destruct (List.find _ _); [|done]. destruct (_ || _); [done|]. cbv zeta.
    match goal with |- context [store written ?d pool] =>
      pose proof (store_error written d pool) as Hs; destruct (store written d pool) as [p r] end.
    cbn [fst snd] in *. destruct r as [|e'|]; try done. intros _. by apply (Hs e').
  - unfold Accounts.rebind_nodes. destruct moves; [done|]. destruct (rebind _ _) as [rows moved].
    match goal with |- context [update now fresh written ?d pool] =>
      pose proof (update_error now fresh written d pool) as Hs; destruct (update now fresh written d pool) as [p' r] end.
    cbn [fst snd] in *. destruct r as [|e'|]; try done. intros _. by apply (Hs e').
  - unfold Accounts.spread_over. cbv zeta.
    match goal with |- context [update now fresh written ?d pool] =>
      pose proof (update_error now fresh written d pool) as Hs; destruct (update now fresh written d pool) as [p' r] end.
    cbn [fst snd] in *. destruct r as [|e'|]; try done. intros _. by apply (Hs e').
  - done.
  - destruct Hw as [Hv Hf]. destruct (file pool) as [d|]; cbn [open]; [|done].
    cbn in Hf. subst d. by rewrite Hv.
Qed.
Lemma key_inj d a b : validate d = Ok tt -> a ∈ accounts d -> b ∈ accounts d ->
  account_key a = account_key b -> a = b.
Proof.
  intros [_ Hn]%validate_spec Ha Hb Hk. apply list_elem_of_lookup in Ha as [i Hi], Hb as [j Hj].
  assert (i = j) as ->; [|congruence].
  apply (NoDup_lookup (map account_key (accounts d)) i j (account_key a)); [done| |].
  - by rewrite list_lookup_fmap, Hi.
  - by rewrite list_lookup_fmap, Hj, Hk.
Qed.
Lemma elem_of_resolve reference pool name secret :
  (name, secret) ∈ resolve reference pool -> exists a, a ∈ accounts (document pool) /\
    username a = name /\ password a = secret /\ enabled a = true /\
    match reference with
    | All p => purpose a = p
    | One p n => purpose a = p /\ eq_ignore_ascii_case (username a) n = true
    end.
Proof.
  unfold resolve. intros (a & [= -> ->] & Ha)%list_elem_of_fmap.
  apply list_elem_of_In, filter_In in Ha as [Ha Hp]. apply filter_In in Ha as [Ha He].
  exists a. split_and!; try done; [by apply list_elem_of_In|]. destruct reference as [p|p n].
  - by apply bool_decide_eq_true in Hp.
  - apply andb_true_iff in Hp as [Hp Hn]. by apply bool_decide_eq_true in Hp.
Qed.
Lemma elem_of_reserved p pool held : held ∈ reserved p pool <->
  exists b, b ∈ accounts (document pool) /\ purpose b = p /\ username b = held.
Proof.
  unfold reserved. rewrite elem_of_list_to_set, list_elem_of_fmap. split.
  - intros (b & -> & [Hb Hp%bool_decide_eq_true]%list_elem_of_In%filter_In). exists b. by rewrite list_elem_of_In.
  - intros (b & Hb & Hp & <-). exists b. split; [done|]. apply list_elem_of_In, filter_In.
    by rewrite <- list_elem_of_In, bool_decide_eq_true.
Qed.

(** C32: whatever the console, the registrar and the pool do to the accounts, and
    whichever of their writes fail: the names kept from the re-fetch pool are those
    of all the accounts filed under collection, enabled or not, and none of them is,
    under any spelling of its case, one that a reference to the accounts filed under
    re-fetching resolves to; a refused or failed operation changes nothing; and a
    restart finds the same accounts. What a collector's own reference names is not
    decided here. *)
Theorem purposes_share_no_account pool :
  reachable_pool pool ->
  (forall held, held ∈ reserved Watch pool <->
     exists b, b ∈ accounts (document pool) /\ purpose b = Watch /\ username b = held) /\
  (forall reference name secret held, match reference with All p | One p _ => p = Refetch end ->
     (name, secret) ∈ resolve reference pool -> held ∈ reserved Watch pool ->
     to_lowercase (trim name) <> to_lowercase (trim held)) /\
  (forall o e, snd (run o pool) = Err e -> fst (run o pool) = pool) /\
  exists pool', open to_lowercase (file pool) = Ok pool' /\ document pool' = document pool.
Proof.
  intros Hr. pose proof (reachable_pool_wf pool Hr) as Hw. split_and!.
  - intros held. apply elem_of_reserved.
  - intros reference name secret held Href (a & Ha & <- & _ & _ & Hp)%elem_of_resolve (b & Hb & Hpb & <-)%elem_of_reserved Hk.
    pose proof (key_inj _ a b (proj1 Hw) Ha Hb Hk). subst b. destruct reference; destruct_and?; congruence.
  - intros o e. by apply run_error.
  - destruct Hw as [Hv Hf]. destruct (file pool) as [d|]; cbn [open].
    + cbn in Hf. subst d. rewrite Hv. by eexists.
    + by eexists.
Qed.

(** ** The console's edits *)
(** What a save of the published row, edited, should store: the row with the
    edit, the password and the ban nobody was shown. *)
Definition kept (edit : StoredAccount -> StoredAccount) (a : StoredAccount) : StoredAccount :=
  let e := edit (published_account a) in
  mkAccount (id a) (trim (username e)) (password a) (purpose e) (note e) (enabled e) (node e)
    (if enabled e then None else banned_at a).
Lemma find_by_id (l : list StoredAccount) (a : StoredAccount) : NoDup (map id l) -> a ∈ l -> id a <> "" ->
  List.find (fun s => negb (String.eqb (id s) "") && String.eqb (id s) (id a)) l = Some a.
Proof.
  intros Hn Ha Hid. destruct (List.find _ l) as [b|] eqn:Hf.
  - apply List.find_some in Hf as [Hb [_ Heq%String.eqb_eq]%andb_true_iff]. apply list_elem_of_In in Hb.
    apply list_elem_of_lookup in Ha as [i Hi], Hb as [j Hj].
    assert (i = j) as ->; [|congruence]. apply (NoDup_lookup (map id l) i j (id a)); [done| |].
    + by rewrite list_lookup_fmap, Hi.
    + by rewrite list_lookup_fmap, Hj, <- Heq.
  - apply List.find_none with (x := a) in Hf; [|by apply list_elem_of_In].
    rewrite String.eqb_refl, andb_true_r in Hf. apply negb_false_iff, String.eqb_eq in Hf. done.
Qed.
Lemma restored_kept fresh (l : list StoredAccount) edit a :
  NoDup (map id l) -> a ∈ l -> id a <> "" -> password a <> "" ->
  id (edit (published_account a)) = id a -> password (edit (published_account a)) = REDACTED ->
  restore_row fresh l (edit (published_account a)) = kept edit a.
Proof.
  intros Hn Ha Hid Hpw Hei Hep. unfold restore_row, kept. cbv zeta.
  set (e := edit (published_account a)) in *. rewrite Hei, Hep, (find_by_id l a Hn Ha Hid).
  destruct (String.eqb_spec (id a) ""); [done|]. cbn. f_equal.
Qed.
Lemma imap_map_ext {A B} (f : nat -> A -> B) (g : A -> B) (l : list A) :
  (forall i a, a ∈ l -> f i a = g a) -> imap f l = map g l.
Proof.
  revert f. induction l as [|a l IH]; intros f H; [done|]. rewrite imap_cons. cbn [map]. f_equal.
  - apply H. left.
  - apply IH. intros i b Hb. apply H. by right.
Qed.

(** A password survives the console that never saw it: saving the published
    document with any edit of the names, notes, purposes, switches and nodes
    stores exactly those edits, with every password and every ban of a row that
    stays off as they were; what goes back to the console shows no password; and
    saving the same page again is refused as stale. *)
Theorem console_round_trip now fresh edit pool :
  reachable_pool pool ->
  NoDup (map id (accounts (document pool))) ->
  Forall (fun a => id a <> "" /\ password a <> REDACTED) (accounts (document pool)) ->
  (forall a, id (edit a) = id a /\ password (edit a) = password a) ->
  let page := (published (document pool)) <| accounts ::= map edit |> in
  let rows := map (kept edit) (accounts (document pool)) in
  validate ((document pool) <| accounts := rows |>) = Ok tt ->
  exists pool', update now fresh true page pool = (pool', Ok (published (document pool'))) /\
    document pool' = mkDocument (sat_add_u64 (revision (document pool)) 1) rows (Some now) /\
    Forall (fun a => password a = REDACTED) (accounts (published (document pool'))) /\
    (0 <= revision (document pool) < u64_max ->
     snd (update now fresh true page pool')
     = Err (RevisionConflict (revision (document pool)) (revision (document pool) + 1))).
Proof.
  intros Hr Hids Hrows Hedit page rows Hvalid.
  pose proof (reachable_pool_wf pool Hr) as [Hv _]. apply validate_spec in Hv as [Hrv _].
  assert (Hne : forall a, a ∈ accounts (document pool) -> password a <> "").
  { intros a Ha Hp. destruct (proj1 (Forall_forall _ _) Hrv a Ha) as (_ & _ & _ & Hn). apply Hn.
    by rewrite Hp. }
  assert (Himap : imap (fun i a => restore_row (fresh i) (accounts (document pool)) a) (accounts page) = rows).
  { unfold page, published, set_field. cbn [accounts]. rewrite map_map, imap_fmap.
    apply imap_map_ext. intros i a Ha. unfold compose.
    destruct (proj1 (Forall_forall _ _) Hrows a Ha) as [Hid _].
    destruct (Hedit (published_account a)) as [Hei Hep].
    apply restored_kept; auto. rewrite Hep. unfold published_account, set_field. cbn [password].
    cbn [redacted_secret mbind option_bind]. destruct (String.eqb_spec (password a) ""); [|done].
    by destruct (Hne a Ha). }
  assert (Hstars : List.find (fun a => String.eqb (password a) "***") rows = None).
  { destruct (List.find _ rows) as [b|] eqn:Hf; [|done]. apply List.find_some in Hf as [Hb Heq%String.eqb_eq].
    apply in_map_iff in Hb as (a & <- & Ha%list_elem_of_In). exfalso.
    destruct (proj1 (Forall_forall _ _) Hrows a Ha) as [_ Hn]. exact (Hn Heq). }
  set (doc := mkDocument (sat_add_u64 (revision (document pool)) 1) rows (Some now)).
  exists (mkPool doc (Some doc) (health pool)). unfold Accounts.update at 1. cbv zeta.
  change (revision page) with (revision (document pool)). rewrite Z.eqb_refl. cbn [negb].
  rewrite Himap, Hstars.
  assert (Hvalid' : validate (page <| accounts := rows |>) = Ok tt)
    by (eapply validate_same_logins; [|exact Hvalid]; done).
  rewrite Hvalid'. cbn [store]. split; [reflexivity|]. cbn [document]. split; [done|]. split.
  - apply Forall_map, Forall_forall. intros b Hb. unfold rows in Hb.
    apply list_elem_of_fmap in Hb as (a & -> & Ha). unfold published_account, kept, set_field. cbn [password].
    cbn. destruct (String.eqb_spec (password a) ""); [|done]. by destruct (Hne a Ha).
  - intros Hrev. assert (Es : sat_add_u64 (revision (document pool)) 1 = revision (document pool) + 1)
      by (unfold sat_add_u64, u64_max in *; lia).
    unfold Accounts.update. cbv zeta. unfold doc. cbn [document revision].
    change (revision page) with (revision (document pool)). rewrite Es.
    destruct (Z.eqb_spec (revision (document pool)) (revision (document pool) + 1)); [lia|done].
Qed.

(** The validator's messages are not the one for a row of asterisks. *)
Lemma validate_message d name : validate d <> Err (InvalidConfig (asterisks_message name)).
Proof.
  assert (Hm : ends_with "的密码" (asterisks_message name) = true).
  { unfold asterisks_message. by rewrite <- append_assoc_s, ends_with_append by (vm_compute; lia). }
  unfold Accounts.validate. generalize (∅ : gset string).
  induction (accounts d) as [|a l IH]; intros seen; cbn [Accounts.validate_from]; [done|]. cbv zeta.
  repeat case_match; try apply IH; intros E;
    apply (f_equal (fun r => match r with Err (InvalidConfig m) => m | _ => "" end)) in E;
    cbv beta iota in E; rewrite <- E in Hm; clear -Hm;
    revert Hm; rewrite <- ?append_assoc_s, ?ends_with_append by (vm_compute; lia); vm_compute; discriminate.
Qed.

(** The message written for a new row whose password is still the three
    asterisks is never given: with no stored row of its id the asterisks restore
    to nothing, so such a row is refused as having no password, the answer the
    message was to replace (when its name is otherwise fine). *)
Theorem asterisks_message_is_dead now fresh written next pool row :
  Forall (fun a => password a <> REDACTED) (accounts (document pool)) ->
  row ∈ accounts next -> password row = REDACTED ->
  Forall (fun a => id a = "" \/ id a <> id row) (accounts (document pool)) ->
  revision next = revision (document pool) ->
  exists e, update now fresh written next pool = (pool, Err e) /\
    forall name, e <> InvalidConfig (asterisks_message name).
Proof.
  intros Hstored Hrow Hpw Hid Hrev. unfold Accounts.update. cbv zeta. rewrite Hrev, Z.eqb_refl. cbn [negb].
  set (rows := imap _ (accounts next)).
  assert (Hfind : List.find (fun a => String.eqb (password a) "***") rows = None).
  { destruct (List.find _ rows) as [b|] eqn:Hf; [exfalso|done].
    apply List.find_some in Hf as [Hb Heq%String.eqb_eq]. apply list_elem_of_In, elem_of_lookup_imap in Hb
      as (i & a & -> & _). cbn [restore_row password] in Heq. unfold restored_secret in Heq.
    destruct (String.eqb_spec (password a) REDACTED) as [_|Hne]; [|by apply Hne].
    destruct (List.find _ _) as [s|] eqn:Hs; [|done]. cbn in Heq.
    apply List.find_some in Hs as [Hs _]. apply list_elem_of_In in Hs.
    by apply (proj1 (Forall_forall _ _) Hstored s Hs). }
  rewrite Hfind. destruct (validate _) as [[]|e|] eqn:Hv.
  - exfalso. apply validate_spec in Hv as [Hv _]. cbn [accounts] in Hv.
    apply list_elem_of_lookup in Hrow as [i Hi].
    assert (Hin : restore_row (fresh i) (accounts (document pool)) row ∈ rows).
    { apply list_elem_of_lookup. exists i. unfold rows. by rewrite list_lookup_imap, Hi. }
    destruct (proj1 (Forall_forall _ _) Hv _ Hin) as (_ & _ & _ & Hne). apply Hne.
    cbn [restore_row password]. rewrite Hpw. cbn [restored_secret]. rewrite String.eqb_refl.
    assert (Hnone : List.find (fun s => negb (String.eqb (id s) "") && String.eqb (id s) (id row))
      (accounts (document pool)) = None).
    { match goal with |- ?found = None => destruct found as [s|] eqn:Hs end; [exfalso|done].
      apply List.find_some in Hs as [Hs [H1%negb_true_iff%String.eqb_neq H2%String.eqb_eq]%andb_true_iff].
      apply list_elem_of_In in Hs. by destruct (proj1 (Forall_forall _ _) Hid s Hs). }
    by rewrite Hnone.
  - exists e. split; [done|]. intros name ->. by eapply validate_message.
  - by apply validate_no_panic in Hv.
Qed.
End Facts.

(** ** Export and import *)
(** A login the text format can carry: visible ASCII, a name without a comma that
    does not look like a comment. *)
Definition carried (a : StoredAccount) : Prop :=
  plain (trim (username a)) = true /\ trim (username a) <> "" /\
  contains ","%char (trim (username a)) = false /\ String.prefix "#" (trim (username a)) = false /\
  plain (password a) = true /\ password a <> "".

Lemma plain_contains c s : plain s = true -> ~ 33 <= byte_of_ascii c <= 126 -> contains c s = false.
Proof.
  intros Hs Hc. induction s as [|a s IH]; [done|]. cbn [plain contains] in *.
  apply andb_true_iff in Hs as [Ha%between_spec Hs]. rewrite (IH Hs), orb_false_r.
  apply Ascii.eqb_neq. by intros ->.
Qed.
Lemma strip_cr_plain s : plain s = true -> Mjai.strip_cr s = s.
Proof.
  intros Hs. unfold Mjai.strip_cr. assert (H : strip_suffix "013"%char s = None); [|by rewrite H].
  pose proof (plain_contains "013"%char s Hs ltac:(vm_compute; intros [H _]; by apply H)) as Hc. clear Hs.
  induction s as [|a s IH]; [done|]. cbn [contains] in Hc. apply orb_false_iff in Hc as [Ha Hc].
  cbn [strip_suffix]. destruct s as [|b s]; [by rewrite Ha|]. by rewrite (IH Hc).
Qed.
Lemma lines_of_lines ls : Forall (fun l => plain l = true) ls ->
  Mjai.lines (String.concat "" (map (fun l => l +:+ String "010"%char "") ls)) = ls.
Proof.
  intros Hls. apply lines_concat. refine (Forall_impl _ _ _ Hls _). intros l Hl. split; [|by apply strip_cr_plain].
  apply plain_contains; [done|]. vm_compute. intros [H _]. by apply H.
Qed.
(** The export of the re-fetch accounts, read back as an account file, gives
    each of them once, in order, with its password, provided the names and
    passwords are of the kind the format can carry. *)
Theorem export_reads_back pool :
  let exported := List.filter (fun a => is_refetch a && bool_decide (banned_at a = None))
                    (accounts (document pool)) in
  Forall carried exported ->
  account_lines (export_refetch pool) = map (fun a => (trim (username a), password a)) exported.
Proof.
  intros exported Hc. unfold account_lines, export_refetch. fold exported. clearbody exported.
  set (line := fun a => trim (username a) +:+ "," +:+ password a).
  assert (Hmap : map (fun a => trim (username a) +:+ "," +:+ password a +:+ String "010"%char "") exported
    = map (fun l => l +:+ String "010"%char "") (map line exported)).
  { rewrite map_map. apply map_ext. intros a. unfold line. by rewrite !append_assoc_s. }
  rewrite Hmap, lines_of_lines; clear Hmap.
  - induction Hc as [|a l (Hpn & Hne & Hcomma & Hhash & Hpp & Hpne) _ IH]; [done|]. cbn [map omap list_omap].
    assert (Hline : plain (line a) = true).
    { unfold line. by rewrite !plain_append, Hpn, Hpp. }
    assert (Hone : account_line (line a) = Some (trim (username a), password a)).
    { unfold account_line. rewrite (trim_plain _ Hline).
      assert (String.eqb (line a) "" = false) as ->.
      { apply String.eqb_neq. unfold line. by destruct (trim (username a)). }
      assert (String.prefix "#" (line a) = false) as ->.
      { unfold line. destruct (trim (username a)) as [|c s]; [done|].
        rewrite append_cons. cbn [String.prefix] in Hhash |- *.
        destruct (Ascii.ascii_dec "#" c); [|done]. by destruct s. }
      assert (contains "009"%char (line a) = false) as ->.
      { apply plain_contains; [done|]. vm_compute. intros [H _]. by apply H. }
      cbn [orb]. unfold line. change ("," +:+ ?x) with (String ","%char x).
      rewrite split_once_append by done. cbn [mbind option_bind].
      rewrite (trim_plain _ Hpn), (trim_plain _ Hpp).
      rewrite !(proj2 (String.eqb_neq _ _)) by done. done. }
    change (omap account_line (line a :: map line l) = (trim (username a), password a)
      :: map (fun a => (trim (username a), password a)) l).
    unfold omap in *. cbn [list_omap]. rewrite Hone. f_equal. exact IH.
  - apply Forall_map. eapply Forall_impl; [exact Hc|]. intros a (Hpn & _ & _ & _ & Hpp & _).
    unfold line. by rewrite !plain_append, Hpn, Hpp.
Qed.

(** ** Witnesses *)
Definition toy_fresh (i : nat) : string := "id" +:+ pretty i.
Definition toy_row (i name secret : string) (p : AccountPurpose) : StoredAccount :=
  mkAccount i name secret p "" true "" None.
Definition toy_document : AccountDocument := mkDocument 3
  [toy_row "1" "live@x" "pw1" Watch; toy_row "2" "old@x" "pw,2" Refetch] None.
Definition toy_pool : AccountPool := mkPool toy_document (Some toy_document) ∅.
Lemma toy_pool_reachable : reachable_pool to_ascii_lowercase toy_pool.
Proof. by apply (Reach_open to_ascii_lowercase (Some toy_document)). Qed.
Lemma purposes_share_no_account_witness :
  ("old@x", "pw,2") ∈ resolve (All Refetch) toy_pool /\ "live@x" ∈ reserved Watch toy_pool /\
  to_ascii_lowercase (trim "old@x") <> to_ascii_lowercase (trim "live@x").
Proof.
  assert (H1 : ("old@x", "pw,2") ∈ resolve (All Refetch) toy_pool) by (vm_compute; left).
  assert (H2 : "live@x" ∈ reserved Watch toy_pool) by (apply elem_of_list_to_set; vm_compute; left).
  split; [exact H1|]. split; [exact H2|].
  exact (proj1 (proj2 (purposes_share_no_account to_ascii_lowercase toy_pool toy_pool_reachable)) (All Refetch) _ _ _ eq_refl H1 H2).
Defined.
Definition toy_edit (a : StoredAccount) : StoredAccount :=
  mkAccount (id a) ("new-" +:+ username a) (password a) (purpose a) "renamed" (enabled a) "hk" (banned_at a).
Lemma console_round_trip_witness :
  exists pool', update to_ascii_lowercase 9 toy_fresh true
      ((published toy_document) <| accounts ::= map toy_edit |>) toy_pool
    = (pool', Ok (published (document pool'))) /\
    map password (accounts (document pool')) = ["pw1"; "pw,2"].
Proof.
  destruct (console_round_trip to_ascii_lowercase 9 toy_fresh toy_edit toy_pool toy_pool_reachable)
    as (pool' & H1 & H2 & _).
  - repeat constructor; vm_compute; set_solver.
  - repeat constructor; vm_compute; discriminate.
  - done.
  - vm_compute. reflexivity.
  - exists pool'. split; [exact H1|]. rewrite H2. vm_compute. reflexivity.
Defined.
Lemma asterisks_message_is_dead_witness :
  exists e, update to_ascii_lowercase 9 toy_fresh true
      (mkDocument 3 [toy_row "" "third@x" "***" Refetch] None) toy_pool = (toy_pool, Err e) /\
    forall name, e <> InvalidConfig (asterisks_message name).
Proof.
  apply (asterisks_message_is_dead to_ascii_lowercase 9 toy_fresh true
    (mkDocument 3 [toy_row "" "third@x" "***" Refetch] None) toy_pool (toy_row "" "third@x" "***" Refetch)).
  - repeat constructor; vm_compute; discriminate.
  - left.
  - reflexivity.
  - constructor; [|constructor; [|constructor]]; right; vm_compute; discriminate.
  - reflexivity.
Defined.
Lemma export_reads_back_witness :
  account_lines (export_refetch toy_pool) = [("old@x", "pw,2")].
Proof.
  rewrite (export_reads_back toy_pool); [vm_compute; reflexivity|].
  repeat constructor; vm_compute; discriminate.
Defined.
(** The export keeps the spaces around a password, reading it back does not. *)
Example export_loses_padding :
  account_lines (export_refetch (mkPool (mkDocument 0 [toy_row "1" "a@x" " pw " Refetch] None) None ∅))
  = [("a@x", "pw")].
Proof. vm_compute. reflexivity. Qed.
