(* ===== verification/Auth.v ===== *)
(** The users of the console, their passwords, sessions and e-mail verification:
    [src/src/auth.rs]. *)
From S2P Require Import Prelude Text.
#[local] Open Scope string_scope.
#[local] Open Scope list_scope.
#[local] Open Scope Z_scope.

Module Auth.

Inductive UserRole := Admin | Member.
Inductive UserStatus := PendingVerification | Active | Disabled.
#[export] Instance UserRole_dec : EqDecision UserRole.
Proof. solve_decision. Defined.
#[export] Instance UserStatus_dec : EqDecision UserStatus.
Proof. solve_decision. Defined.
Definition Uuid : Type := list Z.
(** Instants and durations in nanoseconds. *)
Definition HOUR : Z := 3600 * 1000000000.

Record UserView := mkView {
  v_id : Uuid; v_email : string; v_name : string; v_role : UserRole; v_status : UserStatus;
  v_email_verified_at : option Z; v_last_login_at : option Z; v_created_at : Z
}.
Record StoredUser := mkUser {
  id : Uuid; email : string; name : string; role : UserRole; status : UserStatus;
  password_hash : string; email_verified_at : option Z; last_login_at : option Z; created_at : Z
}.
Definition view (u : StoredUser) : UserView :=
  mkView (id u) (email u) (name u) (role u) (status u) (email_verified_at u) (last_login_at u) (created_at u).
Record Verification := mkVerification { user_id : Uuid; token_hash : string; expires_at : Z }.
Record StoredAuth := mkAuth {
  registration_enabled : bool; users : list StoredUser; verifications : list Verification
}.
Record Session := mkSession { session_user : Uuid; session_expires : Z }.
Inductive AuthError :=
| InvalidCredentials | EmailNotVerified | DisabledAccount | RegistrationDisabled | EmailUnavailable
| EmailExists | InvalidVerification | NotFound | Forbidden | InvalidInput (message : string)
| Io | Email.

(** The store: the state in memory, the file a restart reads, the sessions of
    this process, and whether e-mail can be delivered. *)
Record AuthStore := mkStore {
  state : StoredAuth; file : option StoredAuth; sessions : gmap string Session;
  email_configured : bool
}.

(** ** Input checks *)
Definition normalize_email (value : string) : result AuthError string :=
  let value := to_ascii_lowercase (trim value) in
  if Nat.ltb 254 (String.length value) || negb (contains "@"%char value) || String.prefix "@" value
  then Err (InvalidInput "email address is invalid") else Ok value.
Definition validate_name (value : string) : result AuthError string :=
  let value := trim value in
  if String.eqb value "" || Nat.ltb 80 (length (chars value))
  then Err (InvalidInput "name must be between 1 and 80 characters") else Ok value.
Definition validate_password (value : string) : result AuthError unit :=
  if Nat.ltb (String.length value) 10 || Nat.ltb 128 (String.length value)
  then Err (InvalidInput "password must be between 10 and 128 characters") else Ok tt.
Definition non_empty (value : option string) : option string :=
  value ← value; let value := trim value in if String.eqb value "" then None else Some value.

Section Store.
(** HMAC-SHA256, and SHA-256 in hexadecimal; the [hex] codec. *)
Variable hmac : list Z -> list Z -> list Z.
Variable sha256_hex : list Z -> string.
Variable hex_encode : list Z -> string.
Variable hex_decode : string -> option (list Z).

(** ** Passwords *)
Definition xor_bytes (l k : list Z) : list Z := zip_with Z.lxor l k.
(** One round: the next block, xored into the result. *)
Definition pbkdf2_round (password : list Z) (st : list Z * list Z) : list Z * list Z :=
  let '(previous, result) := st in
  let previous := hmac password previous in (previous, xor_bytes result previous).
Definition pbkdf2_sha256 (password salt : list Z) (iterations : Z) : list Z :=
  let first := hmac password (salt ++ [0; 0; 0; 1]) in
  snd (N.iter (Z.to_N (iterations - 1)) (pbkdf2_round password) (first, first)).
Definition ITERATIONS : Z := 120000.
Definition hash_password (salt : list Z) (value : string) : result AuthError string :=
  _ ← validate_password value;
  let hash := pbkdf2_sha256 (bytes_of_string value) salt ITERATIONS in
  Ok ("pbkdf2-sha256$" +:+ pretty ITERATIONS +:+ "$" +:+ hex_encode salt +:+ "$" +:+ hex_encode hash).
Definition verify_password (hash value : string) : result AuthError unit :=
  if Nat.ltb 128 (String.length value) then Err InvalidCredentials
  else match split_on "$"%char hash with
  | [scheme; iterations; salt; expected] =>
    if negb (String.eqb scheme "pbkdf2-sha256") then Err InvalidCredentials
    else match parse_u32 iterations with
    | None => Err InvalidCredentials
    | Some iterations =>
      if negb (between 10000 iterations 1000000) then Err InvalidCredentials
      else match hex_decode salt, hex_decode expected with
      | Some salt, Some expected =>
        if bool_decide (expected = pbkdf2_sha256 (bytes_of_string value) salt iterations)
        then Ok tt else Err InvalidCredentials
      | _, _ => Err InvalidCredentials
      end
    end
  | _ => Err InvalidCredentials
  end.
Definition hash_token (value : string) : string := sha256_hex (bytes_of_string value).

(** ** Storage *)
Fixpoint update_user_in (f : StoredUser -> StoredUser) (p : StoredUser -> bool) (l : list StoredUser)
  : list StoredUser :=
  match l with
  | [] => []
  | u :: l => if p u then f u :: l else u :: update_user_in f p l
  end.
(** [persist] after the state in memory changed: a write that fails leaves the
    file behind the memory. *)
Definition persist (written : bool) (next : StoredAuth) (s : AuthStore) : AuthStore * result AuthError unit :=
  if written then (mkStore next (Some next) (sessions s) (email_configured s), Ok tt)
  else (mkStore next (file s) (sessions s) (email_configured s), Err Io).
Definition with_sessions (f : gmap string Session -> gmap string Session) (s : AuthStore) : AuthStore :=
  mkStore (state s) (file s) (f (sessions s)) (email_configured s).
(** [AuthStore::new]: the file, or a first administrator. *)
Definition new (now : Z) (written : bool) (fresh : Uuid) (salt : list Z) (admin_email admin_password : string)
  (file : option StoredAuth) (email_api_url : option string) : result AuthError AuthStore :=
  let configured := match non_empty email_api_url with Some _ => true | None => false end in
  match file with
  | Some st => Ok (mkStore st file ∅ configured)
  | None =>
    email ← normalize_email admin_email;
    hash ← hash_password salt admin_password;
    let admin := mkUser fresh email "Administrator" Admin Active hash (Some now) None now in
    let st := mkAuth false [admin] [] in
    if written then Ok (mkStore st (Some st) ∅ configured) else Err Io
  end.

(** ** Sessions *)
Definition login (now : Z) (written : bool) (token : string) (request_email password : string) (s : AuthStore)
  : AuthStore * result AuthError (string * Z * UserView) :=
  match normalize_email request_email with
  | Err e => (s, Err e)
  | Panic => (s, Panic)
  | Ok address =>
    match List.find (fun u => String.eqb (email u) address) (users (state s)) with
    | None => (s, Err InvalidCredentials)
    | Some u =>
      match verify_password (password_hash u) password with
      | Err e => (s, Err e)
      | Panic => (s, Panic)
      | Ok _ =>
        match status u with
        | PendingVerification => (s, Err EmailNotVerified)
        | Disabled => (s, Err DisabledAccount)
        | Active =>
          let touch := fun u => mkUser (id u) (email u) (name u) (role u) (status u) (password_hash u)
                                 (email_verified_at u) (Some now) (created_at u) in
          let next := mkAuth (registration_enabled (state s))
            (update_user_in touch (fun u => String.eqb (email u) address) (users (state s)))
            (verifications (state s)) in
          match persist written next s with
          | (s, Ok _) =>
            let expires := now + 7 * 24 * HOUR in
            (with_sessions <[hash_token token := mkSession (id u) expires]> s,
             Ok (token, expires, view (touch u)))
          | (s, Err e) => (s, Err e)
          | (s, Panic) => (s, Panic)
          end
        end
      end
    end
  end.
Definition user_for_session (now : Z) (token : string) (s : AuthStore) : result AuthError UserView :=
  match sessions s !! hash_token token with
  | None => Err InvalidCredentials
  | Some session =>
    if session_expires session <=? now then Err InvalidCredentials
    else match List.find (fun u => bool_decide (id u = session_user session)) (users (state s)) with
         | None => Err InvalidCredentials
         | Some u => if bool_decide (status u = Active) then Ok (view u) else Err DisabledAccount
         end
  end.
Definition logout (token : string) (s : AuthStore) : AuthStore :=
  with_sessions (delete (hash_token token)) s.
Definition require_admin (now : Z) (token : string) (s : AuthStore) : result AuthError UserView :=
  user ← user_for_session now token s;
  if bool_decide (v_role user = Admin) then Ok user else Err Forbidden.

(** ** Registration *)
(** [register] up to the delivery of the message: the user and the link. *)
Definition register_begin (now : Z) (written : bool) (fresh : Uuid) (token : string) (salt : list Z)
  (request_name request_email password : string) (s : AuthStore) : AuthStore * result AuthError Uuid :=
  if negb (registration_enabled (state s)) then (s, Err RegistrationDisabled)
  else if negb (email_configured s) then (s, Err EmailUnavailable)
  else
    let checked :=
      _ ← validate_password password;
      address ← normalize_email request_email;
      name ← validate_name request_name;
      Ok (address, name) in
    match checked with
    | Err e => (s, Err e)
    | Panic => (s, Panic)
    | Ok (address, name) =>
      if existsb (fun u => String.eqb (email u) address) (users (state s)) then (s, Err EmailExists)
      else match hash_password salt password with
           | Err e => (s, Err e)
           | Panic => (s, Panic)
           | Ok hash =>
             let user := mkUser fresh address name Member PendingVerification hash None None now in
             let link := mkVerification fresh (hash_token token) (now + 24 * HOUR) in
             let '(s, r) := persist written (mkAuth (registration_enabled (state s))
               (users (state s) ++ [user]) (verifications (state s) ++ [link])) s in
             (s, (fun _ => fresh) <$> r)
           end
    end.
(** The rest of [register]: a message that could not be delivered takes the user
    back out. *)
Definition register_end (written delivered : bool) (user : Uuid) (s : AuthStore)
  : AuthStore * result AuthError unit :=
  if delivered then (s, Ok tt)
  else
    match persist written (mkAuth (registration_enabled (state s))
      (List.filter (fun u => negb (bool_decide (id u = user))) (users (state s)))
      (List.filter (fun v => negb (bool_decide (user_id v = user))) (verifications (state s)))) s with
    | (s, Ok _) => (s, Err Email)
    | (s, Err e) => (s, Err e)
    | (s, Panic) => (s, Panic)
    end.
Definition verify_email (now : Z) (written : bool) (token : string) (s : AuthStore)
  : AuthStore * result AuthError unit :=
  let hash := hash_token token in
  match List.find (fun v => String.eqb (token_hash v) hash && (now <? expires_at v))
          (verifications (state s)) with
  | None => (s, Err InvalidVerification)
  | Some v =>
    if existsb (fun u => bool_decide (id u = user_id v)) (users (state s)) then
      let activate := fun u => mkUser (id u) (email u) (name u) (role u) Active (password_hash u)
                                 (Some now) (last_login_at u) (created_at u) in
      persist written (mkAuth (registration_enabled (state s))
        (update_user_in activate (fun u => bool_decide (id u = user_id v)) (users (state s)))
        (List.filter (fun i => negb (bool_decide (user_id i = user_id v))) (verifications (state s)))) s
    else (s, Err InvalidVerification)
  end.

(** ** Administration *)
Definition list_users (now : Z) (token : string) (s : AuthStore) : result AuthError (list UserView) :=
  _ ← require_admin now token s; Ok (map view (users (state s))).
Definition create_user (now : Z) (written : bool) (fresh : Uuid) (salt : list Z) (token : string)
  (request_name request_email password : string) (request_role : UserRole) (s : AuthStore)
  : AuthStore * result AuthError UserView :=
  let checked :=
    _ ← require_admin now token s;
    _ ← validate_password password;
    normalize_email request_email in
  match checked with
  | Err e => (s, Err e)
  | Panic => (s, Panic)
  | Ok address =>
    if existsb (fun u => String.eqb (email u) address) (users (state s)) then (s, Err EmailExists)
    else
      let made := name ← validate_name request_name; hash ← hash_password salt password;
                  Ok (mkUser fresh address name request_role Active hash (Some now) None now) in
      match made with
      | Err e => (s, Err e)
      | Panic => (s, Panic)
      | Ok user =>
        let '(s, r) := persist written (mkAuth (registration_enabled (state s))
          (users (state s) ++ [user]) (verifications (state s))) s in
        (s, (fun _ => view user) <$> r)
      end
  end.
(** [update_user] once the administrator is known: the part under the lock. *)
Definition update_user_as (admin : Uuid) (written : bool) (target : Uuid) (new_name : option string)
  (new_role : option UserRole) (new_status : option UserStatus) (s : AuthStore)
  : AuthStore * result AuthError UserView :=
  match List.find (fun u => bool_decide (id u = target)) (users (state s)) with
  | None => (s, Err NotFound)
  | Some u =>
    if bool_decide (id u = admin) && bool_decide (new_status = Some Disabled) then
      (s, Err (InvalidInput "you cannot disable your own account"))
    else if bool_decide (id u = admin) && bool_decide (new_role = Some Member) then
      (s, Err (InvalidInput "you cannot remove your own administrator role"))
    else
      match (match new_name with Some n => Some <$> validate_name n | None => Ok None end) with
      | Err e => (s, Err e)
      | Panic => (s, Panic)
      | Ok n =>
        let change := fun u => mkUser (id u) (email u) (default (name u) n) (default (role u) new_role)
          (default (status u) new_status) (password_hash u) (email_verified_at u) (last_login_at u)
          (created_at u) in
        let '(s, r) := persist written (mkAuth (registration_enabled (state s))
          (update_user_in change (fun u => bool_decide (id u = target)) (users (state s)))
          (verifications (state s))) s in
        (s, (fun _ => view (change u)) <$> r)
      end
  end.
Definition update_user (now : Z) (written : bool) (token : string) (target : Uuid)
  (new_name : option string) (new_role : option UserRole) (new_status : option UserStatus) (s : AuthStore)
  : AuthStore * result AuthError UserView :=
  match require_admin now token s with
  | Ok admin => update_user_as (v_id admin) written target new_name new_role new_status s
  | Err e => (s, Err e)
  | Panic => (s, Panic)
  end.
Definition update_settings (now : Z) (written : bool) (token : string) (enabled : bool) (s : AuthStore)
  : AuthStore * result AuthError (bool * bool) :=
  match require_admin now token s with
  | Err e => (s, Err e)
  | Panic => (s, Panic)
  | Ok _ =>
    if enabled && negb (email_configured s) then (s, Err EmailUnavailable)
    else
      let '(s, r) := persist written (mkAuth enabled (users (state s)) (verifications (state s))) s in
      (s, (fun _ => (enabled, email_configured s)) <$> r)
  end.
Definition registration_status (s : AuthStore) : bool * bool :=
  (registration_enabled (state s), email_configured s).
End Store.
End Auth.

Import Auth.
#[local] Opaque pbkdf2_sha256.

Section Facts.
Context (hmac : list Z -> list Z -> list Z) (sha256_hex : list Z -> string)
  (hex_encode : list Z -> string) (hex_decode : string -> option (list Z)).
Abbreviation hash_password := (hash_password hmac hex_encode).
Abbreviation verify_password := (verify_password hmac hex_decode).
Abbreviation pbkdf2_sha256 := (pbkdf2_sha256 hmac).

Section Passwords.
(** The codec is lossless and prints hexadecimal digits. *)
Hypothesis hex_roundtrip : forall l, hex_decode (hex_encode l) = Some l.
Hypothesis hex_plain : forall l, contains "$"%char (hex_encode l) = false.

(** A stored password verifies against the password it was made from, and
    against another one only if the two derive the same key under its salt;
    longer input than a password can have is refused before it is hashed. *)
Theorem password_roundtrip salt password hash attempt :
  hash_password salt password = Ok hash ->
  (10 <= String.length password <= 128)%nat /\
  verify_password hash password = Ok tt /\
  (verify_password hash attempt = Ok tt <->
     (String.length attempt <= 128)%nat /\
     pbkdf2_sha256 (bytes_of_string attempt) salt ITERATIONS
     = pbkdf2_sha256 (bytes_of_string password) salt ITERATIONS).
Proof using hex_roundtrip hex_plain.
  unfold Auth.hash_password, validate_password. destruct (_ || _) eqn:Hlen; [done|].
  apply orb_false_iff in Hlen as [H10%Nat.ltb_ge H128%Nat.ltb_ge]. cbn [mbind result_bind]. cbv zeta.
  set (key := Auth.pbkdf2_sha256 hmac (bytes_of_string password) salt ITERATIONS).
  intros [= <-]. split; [lia|].
  assert (Hsplit : split_on "$"%char ("pbkdf2-sha256$" +:+ pretty ITERATIONS +:+ "$" +:+ hex_encode salt
    +:+ "$" +:+ hex_encode key) = ["pbkdf2-sha256"; pretty ITERATIONS; hex_encode salt; hex_encode key]).
  { change ("pbkdf2-sha256$" +:+ ?x) with ("pbkdf2-sha256" +:+ String "$"%char x).
    rewrite split_on_append by done. f_equal. change ("$" +:+ ?x) with (String "$"%char x).
    rewrite split_on_append by done. f_equal. change ("$" +:+ ?x) with (String "$"%char x).
    rewrite split_on_append by done. f_equal. by apply split_on_piece. }
  assert (Hv : forall value, (String.length value <= 128)%nat ->
    verify_password ("pbkdf2-sha256$" +:+ pretty ITERATIONS +:+ "$" +:+ hex_encode salt
      +:+ "$" +:+ hex_encode key) value
    = if bool_decide (key = pbkdf2_sha256 (bytes_of_string value) salt ITERATIONS)
      then Ok tt else Err InvalidCredentials).
  { intros value Hle. unfold Auth.verify_password. rewrite (proj2 (Nat.ltb_ge _ _)) by done.
    rewrite Hsplit. cbn [String.eqb negb Ascii.eqb Bool.eqb].
    change (negb ("pbkdf2-sha256" =? "pbkdf2-sha256")%string) with false. cbv iota.
    unfold parse_u32. rewrite parse_int_pretty by (unfold ITERATIONS; lia).
    change (negb (between 10000 ITERATIONS 1000000)) with false. cbv iota. by rewrite !hex_roundtrip. }
  split.
  - rewrite Hv by exact H128. rewrite bool_decide_eq_true_2; reflexivity.
  - destruct (Nat.leb_spec (String.length attempt) 128) as [Hle|Hgt].
    + rewrite Hv by exact Hle. case_bool_decide as He.
      * split; [intros _; split; [exact Hle|exact (eq_sym He)]|intros _; reflexivity].
      * split; [discriminate|]. intros [_ He']. destruct He. exact (eq_sym He').
    + unfold Auth.verify_password. rewrite (proj2 (Nat.ltb_lt _ _)) by done. split; [done|lia].
Qed.
End Passwords.

(** ** The store over time *)
Abbreviation login := (login hmac sha256_hex hex_decode).
Abbreviation register_begin := (register_begin hmac sha256_hex hex_encode).
Abbreviation create_user := (create_user hmac sha256_hex hex_encode).
Abbreviation user_for_session := (user_for_session sha256_hex).
Abbreviation verify_email := (verify_email sha256_hex).
Abbreviation update_settings := (update_settings sha256_hex).

(** What a request does, [update_user] and [register] split where another request
    may come in between; an identifier made up for a user is new. *)
Inductive step (s : AuthStore) : AuthStore -> Prop :=
| Step_login now written token address password : step s (fst (login now written token address password s))
| Step_logout token : step s (logout sha256_hex token s)
| Step_register now written fresh token salt name address password :
    (fresh ∉ map id (users (state s))) ->
    step s (fst (register_begin now written fresh token salt name address password s))
| Step_delivery written delivered user : step s (fst (register_end written delivered user s))
| Step_verify now written token : step s (fst (verify_email now written token s))
| Step_create now written fresh salt token name address password role :
    (fresh ∉ map id (users (state s))) ->
    step s (fst (create_user now written fresh salt token name address password role s))
| Step_update admin written target n r t : step s (fst (update_user_as admin written target n r t s))
| Step_settings now written token enabled : step s (fst (update_settings now written token enabled s))
| Step_restart st : file s = Some st -> step s (mkStore st (file s) ∅ (email_configured s)).

Definition auth_wf (st : StoredAuth) : Prop :=
  NoDup (map id (users st)) /\ NoDup (map email (users st)).
Definition wf (s : AuthStore) : Prop :=
  auth_wf (state s) /\ match file s with Some st => auth_wf st | None => True end.
Inductive reachable : AuthStore -> Prop :=
| Reach_new now written fresh salt admin_email admin_password f url s :
    match f with Some st => auth_wf st | None => True end ->
    new hmac hex_encode now written fresh salt admin_email admin_password f url = Ok s -> reachable s
| Reach_step s s' : reachable s -> step s s' -> reachable s'.

Lemma persist_wf written next s : wf s -> auth_wf next -> wf (fst (persist written next s)).
Proof. intros [_ Hf] Hn. unfold persist. by destruct written. Qed.
Lemma update_user_in_map {A} (g : StoredUser -> A) f p l : (forall u, g (f u) = g u) ->
  map g (update_user_in f p l) = map g l.
Proof.
  intros H. induction l as [|u l IH]; [done|]. cbn [update_user_in].
  destruct (p u); cbn [map]; by rewrite ?H, ?IH.
Qed.
Lemma auth_wf_update st f p en vs :
  (forall u, id (f u) = id u /\ email (f u) = email u) -> auth_wf st ->
  auth_wf (mkAuth en (update_user_in f p (users st)) vs).
Proof.
  intros Hf [Hi He]. unfold auth_wf. cbn [users].
  by rewrite !update_user_in_map by (intros; apply Hf).
Qed.
Lemma NoDup_map_filter {A B} (g : A -> B) p (l : list A) : NoDup (map g l) -> NoDup (map g (List.filter p l)).
Proof.
  induction l as [|x l IH]; [done|]. cbn [map List.filter]. intros [Hx Hl]%NoDup_cons.
  destruct (p x); [|by apply IH]. cbn [map]. apply NoDup_cons. split; [|by apply IH].
  intros (y & Hy & [Hin _]%list_elem_of_In%filter_In)%list_elem_of_fmap. apply Hx. rewrite Hy.
  by apply list_elem_of_fmap_2, list_elem_of_In.
Qed.
Lemma auth_wf_add st u en vs :
  auth_wf st -> (id u ∉ map id (users st)) -> existsb (fun w => String.eqb (email w) (email u)) (users st) = false ->
  auth_wf (mkAuth en (users st ++ [u]) vs).
Proof.
  intros [Hi He] Hid Hem. unfold auth_wf. cbn [users]. rewrite !map_app. cbn [map].
  assert (Happ : forall {B} (l : list B) x, NoDup l -> (x ∉ l) -> NoDup (l ++ [x])).
  { intros B l x Hl Hx. apply NoDup_app. split_and!; [done| |apply NoDup_singleton].
    intros y Hy ->%list_elem_of_singleton. done. }
  split; apply Happ; try done. intros (w & Hw & Hin)%list_elem_of_fmap.
  apply not_true_iff_false in Hem. apply Hem, existsb_exists. exists w.
  split; [by apply list_elem_of_In|]. by rewrite Hw, String.eqb_refl.
Qed.
Ltac persisted Hw :=
  match goal with |- context [persist ?w ?next ?s] =>
    let Hp := fresh "Hp" in pose proof (persist_wf w next s Hw) as Hp;
    destruct (persist w next s) as [? [| |]]; cbn [fst] in *; apply Hp
  end.
Lemma step_wf s s' : wf s -> step s s' -> wf s'.
Proof.
  intros Hw Hstep. destruct Hstep as [now written token address password|token
    |now written fresh token salt name address password Hfresh|written delivered user|now written token
    |now written fresh salt token name address password role Hfresh|admin written target n r t
    |now written token enabled|st Hst].
  - unfold Auth.login. destruct (normalize_email address) as [a| |]; try done.
    destruct (List.find _ _) as [u|]; [|done]. destruct (verify_password _ _); try done.
    destruct (status u); try done. cbv zeta. persisted Hw.
    all: apply auth_wf_update; [done|apply Hw].
  - done.
  - unfold Auth.register_begin. destruct (negb _); [done|]. destruct (negb _); [done|]. cbv zeta.
    match goal with |- context [match ?c with Ok _ => _ | Err _ => _ | Panic => _ end] =>
      destruct c as [[a n]| |] end; try done.
    destruct (existsb _ _) eqn:Hex; [done|]. destruct (hash_password _ _); try done.
    persisted Hw. all: by apply auth_wf_add; [apply Hw| |].
  - unfold register_end. destruct delivered; [done|]. persisted Hw.
    all: split; apply NoDup_map_filter; apply Hw.
  - unfold Auth.verify_email. cbv zeta. destruct (List.find _ _) as [v|]; [|done]. destruct (existsb _ _); [|done].
    apply persist_wf; [done|]. apply auth_wf_update; [done|apply Hw].
  - unfold Auth.create_user. cbv zeta.
    match goal with |- context [match ?c with Ok _ => _ | Err _ => _ | Panic => _ end] =>
      destruct c as [a| |] end; try done.
    destruct (existsb _ _) eqn:Hex; [done|].
    destruct (validate_name name) as [n| |]; cbn [mbind result_bind]; try done.
    destruct (hash_password _ _); cbn [mbind result_bind]; try done.
    persisted Hw. all: by apply auth_wf_add; [apply Hw| |].
  - unfold update_user_as. destruct (List.find _ _) as [u|]; [|done]. destruct (_ && _); [done|].
    destruct (_ && _); [done|].
    match goal with |- context [match ?c with Ok _ => _ | Err _ => _ | Panic => _ end] =>
      destruct c as [a| |] end; try done.
    cbv zeta. persisted Hw. all: apply auth_wf_update; [done|apply Hw].
  - unfold Auth.update_settings. destruct (require_admin _ _ _ _); try done. destruct (_ && _); [done|].
    persisted Hw. all: apply Hw.
  - destruct Hw as [_ Hf]. split; [|done]. cbn [state]. by rewrite Hst in Hf.
Qed.
Lemma auth_reachable_wf s : reachable s -> wf s.
Proof.
  induction 1 as [now written fresh salt ae ap f url s Hf Hnew|s s' _ IH Hstep]; [|by eapply step_wf].
  unfold new in Hnew. destruct f as [st|]; [by injection Hnew as <-|].
  destruct (normalize_email ae); cbn [mbind result_bind] in Hnew; try done.
  destruct (hash_password salt ap); cbn [mbind result_bind] in Hnew; try done.
  destruct written; [|done]. injection Hnew as <-.
  assert (Ha : auth_wf (mkAuth false [mkUser fresh a "Administrator" Admin Active a0 (Some now) None now] [])).
  { split; apply NoDup_singleton. }
  by split.
Qed.

Lemma NoDup_map_eq {A B} (g : A -> B) (l : list A) a b : NoDup (map g l) -> a ∈ l -> b ∈ l -> g a = g b -> a = b.
Proof.
  intros Hn Ha Hb Hg. apply list_elem_of_lookup in Ha as [i Hi], Hb as [j Hj].
  assert (i = j) as ->; [|congruence]. apply (NoDup_lookup (map g l) i j (g a)); [done| |].
  - by rewrite list_lookup_fmap, Hi.
  - rewrite list_lookup_fmap, Hj. cbn. by rewrite Hg.
Qed.
Lemma find_unique {A} (p : A -> bool) l a : a ∈ l -> p a = true ->
  (forall b, b ∈ l -> p b = true -> b = a) -> List.find p l = Some a.
Proof.
  intros Ha Hp Hu. destruct (List.find p l) as [b|] eqn:Hf.
  - apply List.find_some in Hf as [Hb Hpb]. f_equal. apply Hu; [by apply list_elem_of_In|done].
  - apply List.find_none with (x := a) in Hf; [congruence|by apply list_elem_of_In].
Qed.
Lemma elem_of_update_user_in f p l u : u ∈ update_user_in f p l ->
  u ∈ l \/ exists w, w ∈ l /\ p w = true /\ u = f w.
Proof.
  induction l as [|w l IH]; cbn [update_user_in]; [by intros ?%elem_of_nil|].
  destruct (p w) eqn:Hp; intros [->|Hin]%elem_of_cons.
  - right. exists w. by split_and!; [left| |].
  - left. by right.
  - left. left.
  - destruct (IH Hin) as [|(w' & ? & ? & ?)]; [left; by right|]. right. exists w'.
    by split_and!; [right| |].
Qed.
Lemma update_user_in_find f p l w : List.find p l = Some w -> f w ∈ update_user_in f p l.
Proof.
  induction l as [|u l IH]; [done|]. cbn [List.find update_user_in].
  destruct (p u); [intros [= <-]; left|]. intros H. right. by apply IH.
Qed.
(** The first match of an identifier is the user of it. *)
Lemma update_user_in_unique f i l u : (forall w, id (f w) = id w) -> NoDup (map id l) ->
  u ∈ update_user_in f (fun w => bool_decide (id w = i)) l -> id u = i ->
  exists w, w ∈ l /\ id w = i /\ u = f w.
Proof.
  intros Hf. induction l as [|w l IH]; cbn [update_user_in map]; [by intros _ ?%elem_of_nil|].
  intros [Hw Hn]%NoDup_cons. case_bool_decide as Hi.
  - intros [->|Hin]%elem_of_cons Hu; [exists w; by split_and!; [left| |]|].
    exfalso. apply Hw. rewrite Hi, <- Hu. by apply list_elem_of_fmap_2.
  - intros [->|Hin]%elem_of_cons Hu; [done|]. destruct (IH Hn Hin Hu) as (w' & ? & ? & ?).
    exists w'. by split_and!; [right| |].
Qed.

(** In every state the store can reach an address has one user; a log-in
    that succeeds is by that user, active, with the right password, and opens a
    session that answers as this user for seven days and not a moment longer,
    until it is logged out. *)
Theorem login_opens_a_session s now written token address password s' tok expires v :
  reachable s ->
  login now written token address password s = (s', Ok (tok, expires, v)) ->
  NoDup (map email (users (state s))) /\
  exists u, u ∈ users (state s) /\ normalize_email address = Ok (email u) /\ status u = Active /\
    verify_password (password_hash u) password = Ok tt /\ v_id v = id u /\
    tok = token /\ expires = now + 7 * 24 * HOUR /\
    (forall t, t < expires -> user_for_session t token s' = Ok v) /\
    (forall t, expires <= t -> user_for_session t token s' = Err InvalidCredentials) /\
    (forall t, user_for_session t token (logout sha256_hex token s') = Err InvalidCredentials) /\
    (forall t other, hash_token sha256_hex other <> hash_token sha256_hex token ->
       sessions s' !! hash_token sha256_hex other = sessions s !! hash_token sha256_hex other /\
       user_for_session t other (logout sha256_hex token s') = user_for_session t other s').
Proof.
  intros Hr. pose proof (auth_reachable_wf s Hr) as [[Hids Hem] _]. unfold Auth.login.
  destruct (normalize_email address) as [a| |] eqn:Ha; try done.
  destruct (List.find _ _) as [u|] eqn:Hf; [|done].
  destruct (verify_password (password_hash u) password) as [[]| |] eqn:Hv; try done.
  destruct (status u) eqn:Hst; try done. cbv zeta.
  set (touch := fun u => mkUser _ _ _ _ _ _ _ _ _).
  unfold persist. destruct written; [|done]. intros [= <- <- <- <-]. split; [done|].
  pose proof (List.find_some _ _ Hf) as [Hu Heq%String.eqb_eq]. apply list_elem_of_In in Hu.
  set (all := update_user_in touch _ (users (state s))).
  assert (Hall : List.find (fun w => bool_decide (id w = id u)) all = Some (touch u)).
  { apply find_unique; [by apply update_user_in_find|by apply bool_decide_eq_true_2|].
    intros b Hb Hbi%bool_decide_eq_true. apply (NoDup_map_eq id all b (touch u)); [|done| |done].
    - unfold all. by rewrite update_user_in_map by done.
    - by apply update_user_in_find. }
  exists u. split_and!; try done; [by rewrite Heq| | | |].
  - intros t Ht. unfold Auth.user_for_session. cbn [with_sessions sessions state users].
    rewrite lookup_insert_eq. cbn [session_expires session_user].
    destruct (Z.leb_spec (now + 7 * 24 * HOUR) t); [lia|]. fold all. rewrite Hall.
    unfold touch. cbn [status]. rewrite Hst. by rewrite bool_decide_eq_true_2.
  - intros t Ht. unfold Auth.user_for_session. cbn [with_sessions sessions]. rewrite lookup_insert_eq.
    cbn [session_expires]. destruct (Z.leb_spec (now + 7 * 24 * HOUR) t); [done|lia].
  - intros t. unfold Auth.user_for_session, logout. cbn [with_sessions sessions].
    by rewrite lookup_delete_eq.
  - intros t other Hne. unfold Auth.user_for_session, logout. cbn [with_sessions sessions state].
    by rewrite lookup_insert_ne, lookup_delete_ne, lookup_insert_ne.
Qed.

(** C35: disabling a user ends every session it has, under whatever token, at
    once. *)
Theorem disabled_user_is_out s admin written target n r s' v :
  reachable s ->
  update_user_as admin written target n r (Some Disabled) s = (s', Ok v) ->
  v_id v = target /\ v_status v = Disabled /\
  forall now token w, user_for_session now token s' = Ok w -> v_id w <> target.
Proof.
  intros Hr. pose proof (auth_reachable_wf s Hr) as [[Hids _] _]. unfold update_user_as.
  destruct (List.find _ _) as [u|] eqn:Hf; [|done]. destruct (_ && _); [done|].
  destruct (_ && _); [done|].
  match goal with |- context [match ?c with Ok _ => _ | Err _ => _ | Panic => _ end] =>
    destruct c as [a| |] end; try done.
  cbv zeta. set (change := fun u => mkUser _ _ _ _ _ _ _ _ _).
  unfold persist. destruct written; [|done]. intros [= <- <-].
  apply List.find_some in Hf as [_ Hid%bool_decide_eq_true]. split_and!; [done|done|].
  intros now token w. unfold Auth.user_for_session. cbn [sessions state users].
  destruct (sessions s !! _) as [session|]; [|done]. destruct (_ <=? _); [done|].
  set (p := fun w => bool_decide (id w = target)).
  destruct (List.find _ _) as [x|] eqn:Hx; [|done]. case_bool_decide as Hact; [|done].
  intros [= <-] Hw. apply List.find_some in Hx as [Hx _]. apply list_elem_of_In in Hx.
  apply (update_user_in_unique change target) in Hx as (y & _ & _ & ->); try done.
Qed.

(** A verification link undoes an administrator's decision: a user who was
    disabled while the link was outstanding is active again once the link is
    opened, with the password the registration set. *)
Theorem verification_overrides_disable s now token link u :
  reachable s ->
  List.find (fun v => String.eqb (token_hash v) (hash_token sha256_hex token) && (now <? expires_at v))
    (verifications (state s)) = Some link ->
  u ∈ users (state s) -> id u = user_id link -> status u = Disabled ->
  exists s' u', verify_email now true token s = (s', Ok tt) /\ u' ∈ users (state s') /\
    id u' = id u /\ email u' = email u /\ status u' = Active /\ password_hash u' = password_hash u.
Proof.
  intros Hr Hlink Hu Hid _. pose proof (auth_reachable_wf s Hr) as [[Hids _] _].
  unfold Auth.verify_email. cbv zeta. rewrite Hlink.
  assert (Hex : existsb (fun w => bool_decide (id w = user_id link)) (users (state s)) = true).
  { apply existsb_exists. exists u. split; [by apply list_elem_of_In|]. by apply bool_decide_eq_true_2. }
  rewrite Hex. set (activate := fun u => mkUser _ _ _ _ _ _ _ _ _). unfold persist.
  eexists _, (activate u). split; [reflexivity|]. cbn [state users]. split; [|done].
  apply update_user_in_find, find_unique; [done|by apply bool_decide_eq_true_2|].
  intros b Hb Hbi%bool_decide_eq_true. apply (NoDup_map_eq id (users (state s))); congruence.
Qed.
End Facts.

(** ** Witnesses: a console whose hashes are short. *)
Definition toy_hmac (key data : list Z) : list Z := [zlen data mod 256].
Definition toy_encode (l : list Z) : string := pretty (Zpos (encode l)).
Definition toy_decode (s : string) : option (list Z) :=
  match digits_value 0 s with Some (Zpos p) => decode p | _ => None end.
Lemma toy_codec l : toy_decode (toy_encode l) = Some l.
Proof.
  unfold toy_decode, toy_encode.
  destruct (pretty_N_go_value (Npos (encode l)) EmptyString tt) as (E & _).
  change (pretty (Z.pos (encode l))) with (pretty_N_go (Npos (encode l)) EmptyString).
  rewrite E. cbn [digits_value Z.of_N]. apply decode_encode.
Qed.
Lemma toy_codec_plain l : contains "$"%char (toy_encode l) = false.
Proof. apply pretty_contains; [done|]. vm_compute. intros [H _]. by apply H. Qed.
Lemma password_roundtrip_witness :
  exists hash, hash_password toy_hmac toy_encode [1; 2] "correct horse" = Ok hash /\
    verify_password toy_hmac toy_decode hash "correct horse" = Ok tt.
Proof.
  eexists. split; [reflexivity|].
  exact (proj1 (proj2 (password_roundtrip toy_hmac toy_encode toy_decode toy_codec toy_codec_plain [1; 2]
    "correct horse" _ "correct horse" eq_refl))).
Defined.

Definition toy_digest (bytes : list Z) : string := string_of_bytes bytes.
Definition toy_user (i : Z) (address : string) (r : UserRole) (s : UserStatus) : StoredUser :=
  mkUser [i] address "someone" r s "pbkdf2-sha256$10000$1$396" None None 0.
(** A deployment that was opened for registration, with one user who registered
    and has not opened the link yet. *)
Definition toy_auth : StoredAuth := mkAuth true
  [toy_user 1 "admin@x" Admin Active; toy_user 2 "new@x" Member PendingVerification]
  [mkVerification [2] "link" (24 * HOUR)].
Definition toy_store : AuthStore := mkStore toy_auth (Some toy_auth) ∅ true.
Lemma toy_reachable_store : reachable toy_hmac toy_digest toy_encode toy_decode toy_store.
Proof.
  apply Reach_new with (now := 0) (written := true) (fresh := []) (salt := []) (admin_email := "")
    (admin_password := "") (f := Some toy_auth) (url := Some "https://mail"); [|reflexivity].
  split; vm_compute; repeat constructor; set_solver.
Qed.
(** The administrator disables the user. *)
Definition toy_disabled : AuthStore * result AuthError UserView :=
  update_user_as [1] true [2] None None (Some Disabled) toy_store.
Lemma toy_reachable_disabled : reachable toy_hmac toy_digest toy_encode toy_decode (fst toy_disabled).
Proof. eapply Reach_step; [exact toy_reachable_store|]. apply Step_update. Qed.
Lemma disabled_user_is_out_witness :
  status <$> (users (state (fst toy_disabled)) !! 1%nat) = Some Disabled /\
  forall now token w, user_for_session toy_digest now token (fst toy_disabled) = Ok w -> v_id w <> [2].
Proof.
  split; [reflexivity|].
  apply (disabled_user_is_out toy_hmac toy_digest toy_encode toy_decode toy_store [1] true [2] None None
    (fst toy_disabled) (view (toy_user 2 "new@x" Member Disabled)) toy_reachable_store eq_refl).
Defined.
Lemma verification_overrides_disable_witness :
  exists s' u', verify_email toy_digest 7 true "link" (fst toy_disabled) = (s', Ok tt) /\
    u' ∈ users (state s') /\ id u' = [2] /\ status u' = Active.
Proof.
  destruct (verification_overrides_disable toy_hmac toy_digest toy_encode toy_decode (fst toy_disabled) 7 "link"
    (mkVerification [2] "link" (24 * HOUR)) (toy_user 2 "new@x" Member Disabled) toy_reachable_disabled)
    as (s' & u' & H1 & H2 & H3 & _ & H5 & _).
  - vm_compute. reflexivity.
  - vm_compute. right. left.
  - reflexivity.
  - reflexivity.
  - exists s', u'. by split_and!.
Defined.
Lemma login_opens_a_session_witness :
  exists s' v, login toy_hmac toy_digest toy_decode 5 true "token" " Admin@X" "pw" toy_store
      = (s', Ok ("token", 5 + 7 * 24 * HOUR, v)) /\
    user_for_session toy_digest 6 "token" s' = Ok v.
Proof.
  assert (E : exists s' v, login toy_hmac toy_digest toy_decode 5 true "token" " Admin@X" "pw" toy_store
      = (s', Ok ("token", 5 + 7 * 24 * HOUR, v))).
  { eexists _, _. vm_compute. reflexivity. }
  destruct E as (s' & v & E). exists s', v. split; [exact E|].
  destruct (login_opens_a_session _ _ _ _ _ _ _ _ _ _ _ _ _ _ toy_reachable_store E)
    as (_ & u & _ & _ & _ & _ & _ & _ & _ & H & _).
  apply H. vm_compute. reflexivity.
Defined.

(** The guard against disabling oneself lets the third status through: the only
    administrator sets its own account to unverified and is no administrator any
    more. *)
Example administrator_locks_itself_out :
  let '(s, opened) := login toy_hmac toy_digest toy_decode 5 true "token" "admin@x" "pw" toy_store in
  let '(s, updated) := update_user toy_digest 6 true "token" [1] None None (Some PendingVerification) s in
  (is_panic opened, v_status <$> result_ok updated, require_admin toy_digest 7 "token" s)
  = (false, Some PendingVerification, Err DisabledAccount).
Proof. vm_compute. reflexivity. Qed.
(** A write that fails is reported, and the change it could not store is in force
    until the next restart. *)
Example failed_write_still_applies :
  let '(s, r) := update_user_as [1] false [2] None None (Some Active) toy_store in
  (result_ok r, status <$> (users (state s) !! 1%nat), (fun st => status <$> (users st !! 1%nat)) <$> file s)
  = (None, Some Active, Some (Some PendingVerification)).
Proof. vm_compute. reflexivity. Qed.
