(* ===== verification/Reconvert.v ===== *)
(** What becomes of a record that was fetched again: the conversion, the guards
    and the two ways a walk of [src/src/refetch_service.rs] stores it. *)
From S2P Require Import Prelude Text Json Proto Rpc Wire Events Convert Mjai Replay Stream Pack Kafka Ingest Indexer Refetch.
#[local] Open Scope string_scope.
#[local] Open Scope list_scope.
#[local] Open Scope Z_scope.

Module Reconvert.
Import Proto Convert.

Inductive Unconvertible := NoUuid | ConvertFailed | WrongGame | Truncated.
Record Rejected := mkRejected { why : Unconvertible; detail : string }.
Inductive Outcome :=
| Replaced | Refused | Unreadable | Unconvertible_ (why : Unconvertible) | Duplicate | Unserved.
Definition label (why : Unconvertible) : string :=
  match why with
  | NoUuid => "库里读不出 uuid" | ConvertFailed => "转换器读不了"
  | WrongGame => "抓回来是另一局" | Truncated => "重转的不完整"
  end.
(** The counter of each cause, and its text for the console. *)
Record UnconvertibleCounts := mkCounts { no_uuid : Z; convert_failed : Z; wrong_game : Z; truncated : Z }.
#[export] Instance UnconvertibleCounts_settable : Settable UnconvertibleCounts := fun r =>
  mkCounts (no_uuid r) (convert_failed r) (wrong_game r) (truncated r).
Definition bump (why : Unconvertible) (c : UnconvertibleCounts) : UnconvertibleCounts :=
  let one n := Prelude.as_u64 (n + 1) in
  match why with
  | NoUuid => c <| no_uuid ::= one |> | ConvertFailed => c <| convert_failed ::= one |>
  | WrongGame => c <| wrong_game ::= one |> | Truncated => c <| truncated ::= one |>
  end.
Definition summary (c : UnconvertibleCounts) : string :=
  String.concat "，" (map (fun '(why, n) => label why +:+ " " +:+ pretty n +:+ " 条")
    (List.filter (fun '(_, n) => 0 <? n)
       [(NoUuid, no_uuid c); (ConvertFailed, convert_failed c); (WrongGame, wrong_game c);
        (Truncated, truncated c)])).
(** The texts of [mjai::ParseError]. *)
Definition parse_error_text (e : Mjai.ParseError) : string :=
  match e with
  | Mjai.Utf8 => "mjson must be UTF-8" | Mjai.Empty => "mjson is empty"
  | Mjai.BadJson message => "invalid JSON: " +:+ message
  | Mjai.NotEvents => "mjson must contain JSON object events"
  end.

Section Reconvert.
(** [serde_json], its equality of values, and the gzip codec. *)
Variable from_str : string -> json + string.
Variable to_string : json -> string.
Variable value_eqb : json -> json -> bool.
Variable gzip : list Z -> list Z.
Variable gunzip : list Z -> list Z + string.
Abbreviation events := (Mjai.events from_str).
Abbreviation convert_record_bytes := (convert_record_bytes to_string gzip).

(** ** The header of a stored record *)
Definition majsoul_header (raw : list Z) : option (string * GameMetadata) :=
  events ← result_ok (events raw);
  start ← List.find (Mjai.is_type "start_game") events;
  majsoul ← get "majsoul" start;
  uuid ← get "uuid" majsoul ≫= as_str;
  let int key := default 0 (get key majsoul ≫= as_i64) in
  let text key := default "" (get key majsoul ≫= as_str) in
  Some (uuid, mkMetadata (as_i32 (int "mode_id")) (text "room") (text "game_length")
                (as_u8 (default 0 (get "players" majsoul ≫= as_u64))) (as_i32 (int "year"))).

(** ** Conversion of a game that is not stored yet *)
Definition converted_fresh (pb : list Z) (expected_uuid : string) : result unit (option (list Z)) :=
  match convert_record_bytes pb None with
  | Panic => Panic
  | Err _ => Ok None
  | Ok (uuid, compressed) =>
    if negb (String.eqb uuid expected_uuid) then Ok None
    else match gunzip compressed with inl mjai => Ok (Some mjai) | inr _ => Ok None end
  end.

(** ** Conversion of a game in the place of a stored record *)
Definition kind (event : json) : string := default "?" (get "type" event ≫= as_str).
Definition hands (events : list json) : nat :=
  length (List.filter (fun e => String.eqb (kind e) "end_kyoku") events).
Definition closed (events : list json) : bool :=
  bool_decide (kind <$> last events = Some "end_game").
(** [zip] and [position]: where two streams first differ. *)
Fixpoint first_difference (i : nat) (a b : list json) : option nat :=
  match a, b with
  | x :: a, y :: b => if negb (value_eqb x y) then Some i else first_difference (S i) a b
  | _, _ => None
  end.
(** The detail of a conversion that is not a whole game. The slice that names the
    stored events past the common prefix panics when the new stream is the longer
    one. *)
Definition truncated_detail (fresh before : list json) : result Rejected string :=
  let head := "重转 " +:+ pretty (zlen fresh) +:+ " 个事件，库里那条有 " +:+ pretty (zlen before) +:+ " 个；" in
  match first_difference 0 fresh before with
  | Some i =>
    Ok (head +:+ "第 " +:+ pretty (Z.of_nat i) +:+ " 个起就不一样了，库里是 "
        +:+ default "" (kind <$> before !! i) +:+ "，重转是 " +:+ default "（没有）" (kind <$> fresh !! i))
  | None =>
    if Nat.ltb (length before) (length fresh) then Panic
    else Ok (head +:+ "前 " +:+ pretty (zlen fresh) +:+ " 个完全一致，库里末尾多出 "
             +:+ String.concat "、" (map kind (drop (length fresh) before)))
  end.
Definition reconverted (pb : list Z) (metadata : GameMetadata) (stored : list Z) (expected_uuid : string)
  : result Rejected (list Z) :=
  let failed message := Err (mkRejected ConvertFailed message) in
  match convert_record_bytes pb (Some metadata) with
  | Panic => Panic
  | Err e => failed (default "" (head e))
  | Ok (uuid, compressed) =>
    if negb (String.eqb uuid expected_uuid) then
      Err (mkRejected WrongGame ("要的是 " +:+ expected_uuid +:+ "，回来的是 " +:+ uuid))
    else match gunzip compressed with
    | inr e => failed ("解压失败：" +:+ e)
    | inl mjai =>
      match events mjai with
      | Panic => Panic
      | Err e => failed ("重转结果解析不出事件：" +:+ parse_error_text e)
      | Ok fresh_events =>
        match events stored with
        | Panic => Panic
        | Err e => failed ("库里那条解析不出事件：" +:+ parse_error_text e)
        | Ok before_events =>
          if negb (Nat.eqb (hands fresh_events) (hands before_events)) || negb (closed fresh_events) then
            detail ← truncated_detail fresh_events before_events; Err (mkRejected Truncated detail)
          else Ok mjai
        end
      end
    end
  end.

(** ** One record of the repair walk

    [raw] is what the pack reader answers, [fetched] what the broker does,
    [sessions] how many sessions are logged in. Waiting for the packing backlog
    only delays. *)
Definition unserved (sessions : Z) : result unit Outcome := if sessions =? 0 then Err tt else Ok Unserved.
Definition one_record {S} (reindex : list Z -> list Z -> S -> S * result Ingest.IngestError ())
  (raw : option (list Z)) (fetched : string -> Refetch.FetchResult) (sessions : Z) (s : S) : S * result unit Outcome :=
  match raw with
  | None => (s, Ok Unreadable)
  | Some raw =>
    match majsoul_header raw with
    | None => (s, Ok (Unconvertible_ NoUuid))
    | Some (uuid, metadata) =>
      match fetched uuid with
      | Err Refetch.Unserved => (s, unserved sessions)
      | Err (Refetch.Refused _) => (s, Ok Refused)
      | Panic => (s, Panic)
      | Ok pb =>
        match reconverted pb metadata raw uuid with
        | Panic => (s, Err tt)
        | Err rejected => (s, Ok (Unconvertible_ (why rejected)))
        | Ok mjai =>
          let '(s, r) := reindex mjai pb s in
          (s, match r with Ok _ => Ok Replaced | Err _ => Err tt | Panic => Panic end)
        end
      end
    end
  end.

(** ** One game of the sweep

    The record is ingested again while the topic is backlogged: [None] when the
    attempts run out. *)
Fixpoint ingest_until {S} (attempts : nat) (ingest : S -> S * result Ingest.IngestError Ingest.Accepted) (s : S)
  : S * option (result Ingest.IngestError Ingest.Accepted) :=
  match attempts with
  | O => (s, None)
  | Datatypes.S attempts =>
    match ingest s with
    | (s, Err (Ingest.Backlogged _)) => ingest_until attempts ingest s
    | (s, r) => (s, Some r)
    end
  end.
Definition one_game {S} (attempts : nat)
  (ingest : list Z -> list Z -> S -> S * result Ingest.IngestError Ingest.Accepted)
  (fetched : Refetch.FetchResult) (sessions : Z) (uuid : string) (s : S) : S * option (result unit Outcome) :=
  match fetched with
  | Err Refetch.Unserved => (s, Some (unserved sessions))
  | Err (Refetch.Refused _) => (s, Some (Ok Refused))
  | Panic => (s, Some Panic)
  | Ok pb =>
    match converted_fresh pb uuid with
    | Panic | Err _ => (s, Some (Err tt))
    | Ok None => (s, Some (Ok (Unconvertible_ ConvertFailed)))
    | Ok (Some mjai) =>
      let '(s, r) := ingest_until attempts (ingest mjai pb) s in
      (s, (fun r => match r with
                    | Ok accepted => Ok (if Ingest.duplicate accepted then Duplicate else Replaced)
                    | Err _ => Err tt
                    | Panic => Err tt
                    end) <$> r)
    end
  end.
End Reconvert.
End Reconvert.

Import Proto Rpc Convert Reconvert.

Section Facts.
Context (from_str : string -> json + string) (to_string : json -> string) (value_eqb : json -> json -> bool).
Context (gzip : list Z -> list Z) (gunzip : list Z -> list Z + string).
Hypothesis gunzip_gzip : forall l, gunzip (gzip l) = inl l.
Hypothesis value_eqb_refl : forall v, value_eqb v v = true.
Abbreviation events := (Mjai.events from_str).
Abbreviation reconverted := (reconverted from_str to_string value_eqb gzip gunzip).
Abbreviation majsoul_header := (majsoul_header from_str).
Abbreviation converts pb meta u out :=
  (convert_record_bytes to_string gzip pb meta = Ok (u, gzip (ndjson to_string out))).

(** A value prints as one line that parses back; the stream of values printed is
    UTF-8, as every [String] is. *)
Definition printable (v : json) : Prop :=
  from_str (to_string v) = inl v /\ contains "010"%char (to_string v) = false /\
  Mjai.strip_cr (to_string v) = to_string v /\ exists t, to_string v = String "{"%char t.
Definition printed (out : list json) : Prop :=
  Forall printable out /\ utf8_valid (ndjson to_string out) = true.

Lemma ndjson_text out : string_of_bytes (ndjson to_string out)
  = String.concat "" (map (fun l => l +:+ String "010"%char "") (map to_string out)).
Proof.
  unfold ndjson. induction out as [|v out IH]; [done|]. cbn [map concat].
  rewrite concat_cons_empty, <- IH, !string_of_bytes_app, string_of_bytes_of_string. done.
Qed.
(** What the converter writes is what the reader reads. *)
Lemma events_ndjson out : printed out -> out <> [] -> Forall (fun e => is_object e = true) out ->
  events (ndjson to_string out) = Ok out.
Proof.
  intros [Hp Hu] Hne Ho. unfold Mjai.events. rewrite Hu, ndjson_text.
  destruct out as [|v out]; [done|]. set (text := String.concat _ _).
  assert (Htext : exists t, text = String "{"%char t).
  { pose proof (Forall_inv Hp) as (_ & _ & _ & t & Ht). subst text. cbn [map].
    rewrite concat_cons_empty, Ht, !append_cons. by eexists. }
  destruct Htext as [t Ht]. rewrite Ht. destruct (trim_brace t) as [u ->]. rewrite <- Ht. cbn [String.eqb].
  assert (Hlines : Mjai.lines text = map to_string (v :: out)).
  { apply lines_concat. apply Forall_map. refine (Forall_impl _ _ _ Hp _). by intros e (_ & ? & ? & _). }
  rewrite Hlines.
  assert (Hf : List.filter (fun line => negb (String.eqb (trim line) "")) (map to_string (v :: out))
    = map to_string (v :: out)).
  { clear - Hp. induction Hp as [|e l (_ & _ & _ & w & Hw) _ IH]; [done|]. cbn [map List.filter].
    rewrite Hw. destruct (trim_brace w) as [x ->]. cbn [String.eqb negb]. by rewrite IH. }
  change (String.eqb (String "{"%char u) "") with false. cbv iota. rewrite Hf.
  assert (Hl : forall l, Forall printable l -> Mjai.parse_lines from_str (map to_string l) = Ok l).
  { clear. induction 1 as [|e l (He & _) _ IH]; [done|]. cbn [map Mjai.parse_lines]. by rewrite He, IH. }
  rewrite (Hl _ Hp). cbn [mbind result_bind].
  assert (Hob : existsb (fun event => negb (is_object event)) (v :: out) = false); [|by rewrite Hob].
  clear - Ho. induction Ho as [|e l He _ IH]; [done|]. cbn [existsb]. by rewrite He, IH.
Qed.

(** ** Conversions *)
(** [pb] decodes to [record], whose actions convert to [out] under the header
    [meta]. *)
Definition conversion (pb : list Z) (meta : option GameMetadata) (record : GameRecord) (out : list json) : Prop :=
  20 <= zlen pb /\ decode_game_record pb = Ok record /\ records record <> [] /\
  exists evs, parse_actions (records record) = Ok evs /\ events_to_mjai record evs meta = Ok out.
Lemma conversion_bytes pb m record out : conversion pb (Some m) record out ->
  convert_record_bytes to_string gzip pb (Some m) = Ok (uuid record, gzip (ndjson to_string out)).
Proof.
  intros (Hlen & Hd & Hr & evs & He & Ho). unfold Convert.convert_record_bytes.
  destruct (Z.ltb_spec (zlen pb) 20); [lia|]. rewrite Hd. cbn [context mbind result_bind].
  destruct (records record) as [|a l] eqn:E; [done|]. rewrite He. cbn [mbind result_bind]. rewrite Ho. done.
Qed.
Lemma conversion_stream pb meta record out : conversion pb meta record out ->
  (exists body, out = start_game record meta :: body ++ [end_game (settlement record)]) /\
  Forall (fun e => is_object e = true) out.
Proof.
  intros (_ & _ & _ & evs & _ & Ho). destruct (converted _ _ _ _ Ho) as (body & -> & Hb & _).
  split; [by exists body|]. apply Forall_cons. split; [done|]. apply Forall_app. split; [exact (body_objects _ Hb)|].
  by apply Forall_singleton.
Qed.
Lemma conversion_closed pb meta record out : conversion pb meta record out -> closed out = true.
Proof.
  intros H. destruct (conversion_stream _ _ _ _ H) as [[body ->] _]. unfold closed.
  rewrite app_comm_cons, last_snoc. done.
Qed.
Lemma conversion_events pb meta record out : conversion pb meta record out -> printed out ->
  events (ndjson to_string out) = Ok out.
Proof.
  intros H Hp. destruct (conversion_stream _ _ _ _ H) as [[body Hb] Ho]. apply events_ndjson; [done|by subst|done].
Qed.
Lemma first_difference_prefix i a k : first_difference value_eqb i (a ++ k) a = None.
Proof using value_eqb_refl.
  revert i. induction a as [|x a IH]; intros i; cbn [app first_difference]; [by destruct k|].
  rewrite value_eqb_refl. apply IH.
Qed.

(** C31: what replaces a stored record. The stored record is replaced exactly when
    the fetched one is the same game and converts to as many hands; the last test
    of the guard, that the new stream is closed, holds of every conversion. A
    record with another number of hands is refused with a reason, except when the
    stored stream is a proper prefix of the new one: then the slice that would
    name the stored events past the new ones panics. *)
Theorem replacement_spec pb m record out stored before expected :
  conversion pb (Some m) record out -> printed out -> events stored = Ok before ->
  (uuid record <> expected ->
     exists d, reconverted pb m stored expected = Err (mkRejected WrongGame d)) /\
  (uuid record = expected -> hands out = hands before ->
     reconverted pb m stored expected = Ok (ndjson to_string out)) /\
  (uuid record = expected -> hands out <> hands before ->
     (length out <= length before)%nat \/ first_difference value_eqb 0 out before <> None ->
     exists d, reconverted pb m stored expected = Err (mkRejected Truncated d)) /\
  (uuid record = expected -> forall rest, out = before ++ rest -> (0 < hands rest)%nat ->
     reconverted pb m stored expected = Panic).
Proof using gunzip_gzip value_eqb_refl.
  intros Hc Hp Hb. pose proof (conversion_closed _ _ _ _ Hc) as Hcl.
  unfold Reconvert.reconverted. rewrite (conversion_bytes _ _ _ _ Hc).
  split_and!.
  - intros Hne. apply String.eqb_neq in Hne. rewrite Hne. cbn [negb]. by eexists.
  - intros -> Hh. rewrite String.eqb_refl, gunzip_gzip, (conversion_events _ _ _ _ Hc Hp), Hb. cbn [negb].
    apply Nat.eqb_eq in Hh. by rewrite Hh, Hcl.
  - intros -> Hh Hd. rewrite String.eqb_refl, gunzip_gzip, (conversion_events _ _ _ _ Hc Hp), Hb. cbn [negb].
    apply Nat.eqb_neq in Hh. rewrite Hh. cbn [negb orb]. unfold truncated_detail.
    destruct (first_difference value_eqb 0 out before) as [i|]; [by eexists|].
    destruct Hd as [Hd|Hd]; [|done]. destruct (Nat.ltb_spec (length before) (length out)); [lia|]. by eexists.
  - intros -> rest Hout Hr. rewrite String.eqb_refl, gunzip_gzip, (conversion_events _ _ _ _ Hc Hp), Hb. cbn [negb].
    assert (Hh : hands out = (hands before + hands rest)%nat).
    { rewrite Hout. unfold hands. by rewrite List.filter_app, length_app. }
    assert (Hne : Nat.eqb (hands out) (hands before) = false) by (apply Nat.eqb_neq; lia).
    rewrite Hne. cbn [negb orb]. unfold truncated_detail. rewrite Hout, first_difference_prefix.
    assert (Hlen : (length before < length (before ++ rest))%nat).
    { rewrite length_app. destruct rest; [cbn in Hr; lia|cbn; lia]. }
    apply Nat.ltb_lt in Hlen. by rewrite Hlen.
Qed.
(** A repair is a fixed point. A record stored from a conversion names the
    game and the header it was made with, so fetching the same bytes again and
    converting them under that header stores the record that is already there. *)
Theorem reconversion_is_idempotent pb m record out :
  conversion pb (Some m) record out -> printed out ->
  in_i32 (meta_mode_id m) -> in_i32 (year m) -> 0 <= players m < 256 ->
  majsoul_header (ndjson to_string out) = Some (uuid record, m) /\
  reconverted pb m (ndjson to_string out) (uuid record) = Ok (ndjson to_string out).
Proof using gunzip_gzip value_eqb_refl.
  intros Hc Hp Hm Hy Hn. pose proof (conversion_events _ _ _ _ Hc Hp) as He. split.
  - destruct (conversion_stream _ _ _ _ Hc) as [[body Hb] _]. unfold Reconvert.majsoul_header.
    rewrite He, Hb. cbn [result_ok mbind option_bind List.find].
    assert (Hs : Mjai.is_type "start_game" (start_game record (Some m)) = true) by done.
    rewrite Hs. unfold start_game. cbn. unfold in_i32 in *.
    rewrite !as_i64_num by (unfold in_i64; lia). rewrite as_u64_num by lia. cbn.
    rewrite !as_i32_small by done. unfold as_u8. rewrite as_unsigned_small by lia. by destruct m.
  - by apply (replacement_spec pb m record out (ndjson to_string out) out (uuid record)).
Qed.
End Facts.

(** ** Witnesses: the sample record of [Wire], with a printer that tells its
    events apart. *)
Fixpoint toy_print (v : json) : string :=
  match v with
  | JNull => "null" | JBool b => if b then "true" else "false"
  | JNum (PosInt n) => pretty n | JNum (NegInt n) => pretty n | JNum _ => "num"
  | JStr s => "'" +:+ s +:+ "'"
  | JArr l => "[" +:+ String.concat "," (map toy_print l) +:+ "]"
  | JObj o => "{" +:+ String.concat "," (map (fun '(k, v) => k +:+ ":" +:+ toy_print v) o) +:+ "}"
  end.
Definition toy_eqb (v w : json) : bool := String.eqb (toy_print v) (toy_print w).
Lemma toy_eqb_refl v : toy_eqb v v = true.
Proof. apply String.eqb_refl. Qed.
Definition toy_pb : list Z := message_bytes (record_fields 210715 sample_record).
Definition toy_meta : GameMetadata := mkMetadata 12 "jade" "south" 2 2024.
Definition toy_events : list (option Z * Events.GameEvent) := Eval vm_compute in
  match parse_actions (records sample_record) with Ok evs => evs | _ => [] end.
Definition toy_stream : list json := Eval vm_compute in
  match events_to_mjai sample_record toy_events (Some toy_meta) with Ok out => out | _ => [] end.
Definition toy_from_str (s : string) : json + string :=
  match List.find (fun v => String.eqb (toy_print v) s) toy_stream with Some v => inl v | None => inr "?" end.
Lemma toy_conversion : conversion toy_pb (Some toy_meta) sample_record toy_stream.
Proof.
  split; [vm_compute; congruence|]. split; [vm_compute; reflexivity|]. split; [discriminate|].
  exists toy_events. split; vm_compute; reflexivity.
Qed.
Lemma toy_printed : printed toy_from_str toy_print toy_stream.
Proof.
  split; [|vm_compute; reflexivity].
  repeat (apply Forall_cons; split; [split_and!; [vm_compute; reflexivity..|eexists; vm_compute; reflexivity]|]).
  constructor.
Qed.
Abbreviation toy_reconverted := (reconverted toy_from_str toy_print toy_eqb (fun l => l) inl).
Lemma reconversion_is_idempotent_witness :
  toy_reconverted toy_pb toy_meta (ndjson toy_print toy_stream) "241231-0001"
    = Ok (ndjson toy_print toy_stream).
Proof.
  refine (proj2 (reconversion_is_idempotent toy_from_str toy_print toy_eqb (fun l => l) inl (fun l => eq_refl)
    toy_eqb_refl toy_pb toy_meta sample_record toy_stream toy_conversion toy_printed _ _ _));
    unfold in_i32; cbn; lia.
Defined.
(** The stored record stops before the hand is over. *)
Definition toy_torn : list json := take 1 toy_stream.
Lemma toy_torn_events : Mjai.events toy_from_str (ndjson toy_print toy_torn) = Ok toy_torn.
Proof. vm_compute. reflexivity. Qed.
Lemma replacement_spec_witness :
  hands toy_stream = 1%nat /\ hands toy_torn = 0%nat /\
  toy_reconverted toy_pb toy_meta (ndjson toy_print toy_torn) "241231-0001" = Panic.
Proof.
  split; [reflexivity|]. split; [reflexivity|].
  refine (proj2 (proj2 (proj2 (replacement_spec toy_from_str toy_print toy_eqb (fun l => l) inl (fun l => eq_refl)
    toy_eqb_refl toy_pb toy_meta sample_record toy_stream (ndjson toy_print toy_torn) toy_torn "241231-0001"
    toy_conversion toy_printed toy_torn_events))) _ (drop 1 toy_stream) _ _); [reflexivity|reflexivity|].
  vm_compute. lia.
Defined.
(** The repair walk meets such a record: the panic becomes the error that ends the
    run, on every run, before the records behind it. *)
Example torn_record_ends_the_repair :
  one_record toy_from_str toy_print toy_eqb (fun l => l) inl (fun _ _ s => (s, Ok tt))
    (Some (ndjson toy_print toy_torn)) (fun _ => Ok toy_pb) 1 tt = (tt, Err tt).
Proof. vm_compute. reflexivity. Qed.
