(* ===== verification/Uploads.v ===== *)
(** The ingest requests of [src/src/api.rs]: one record, and an archive of them,
    which is staged, walked member by member, claimed, and handed to the topic in
    chunks. *)
From S2P Require Import Prelude Text Json Mjai Pack Kafka Ingest Reconvert Recovery.
#[local] Open Scope string_scope.
#[local] Open Scope list_scope.
#[local] Open Scope Z_scope.

Module Uploads.
Import Pack Kafka Ingest.
Definition MAX_REPORTED_ERRORS : Z := 100.
Record Limits := mkLimits { max_record_bytes : Z; max_batch_bytes : Z; max_batch_records : Z }.
Inductive ApiError := BadRequest (message : string) | PayloadTooLarge (limit : Z) | Conflict_ (message : string) | Internal (message : string).
Definition error_text (e : ApiError) : string :=
  match e with
  | BadRequest m | Conflict_ m | Internal m => m
  | PayloadTooLarge n => "payload exceeds " +:+ pretty n +:+ " bytes"
  end.
Record IngestResponse := mkResponse { i_id : Uuid; i_duplicate : bool; i_sha256 : string }.
Record BatchIngestResponse := mkBatch { accepted : Z; duplicates : Z; rejected : Z; errors : list string }.
#[export] Instance BatchIngestResponse_settable : Settable BatchIngestResponse := fun r =>
  mkBatch (accepted r) (duplicates r) (rejected r) (errors r).

(** A member of an archive as the reader of tar files gives it: one that is torn,
    one that is no file, one whose name cannot be read, and a file with its name,
    the size of its header and what is read of it. *)
Inductive Member := Torn (error : string) | NoFile | Unnamed (error : string) | File (path : string) (size : Z) (contents : list Z + string).
Inductive Archive := Unopened (error : string) | Short | NotRewound (error : string) | NotTar (error : string) | Members (l : list Member).

Inductive Frame := Data (length : Z) (written : option string) | Trailer | Broken (error : string).

(** What the member at each place meets: what others did to the claims and to the
    topic since the one before; the backlog, the clock and a new identifier; the two
    statements of the claim; the broker, and whether the [DELETE] of each claim that
    is given back goes through, for a chunk and for the record in hand. *)
Record Fate := mkFate {
  others : Claims * Topic -> Claims * Topic; lag : Z; max_lag : Z; now : DateTime; fresh : Uuid; store : Store;
  broker : list IngestMessage -> Topic -> Topic * result KafkaError (); deletes : nat -> bool; deletes_own : bool
}.
(** The walk: its answer, the chunk in hand with its size; the claims and the topic;
    and, of the past, the messages the broker acknowledged. *)
Record Walk := mkWalk {
  response : BatchIngestResponse; pending : list Claimed; pending_bytes : Z; claims : Claims; topic : Topic;
  handed : list IngestMessage
}.
#[export] Instance Walk_settable : Settable Walk := fun w =>
  mkWalk (response w) (pending w) (pending_bytes w) (claims w) (topic w) (handed w).

Definition claims_of (w : Walk) : Claims := claims w.
Definition topic_of (w : Walk) : Topic := topic w.

Section Uploads_.
Variable key_hash : string -> string.
Variable from_str : string -> json + string.
Variable to_string : json -> string.
Variable timestamp_ok : Z -> bool.
Variable sha256_hex : list Z -> string.
(** The errors of the broker and of the store, the instants of RFC 3339, and the
    bytes that come out of a gzip stream when at most so many are read. *)
Variable kafka_text : KafkaError -> string.
Variable store_text : string.
Variable rfc3339 : string -> option DateTime.
Variable gunzip_prefix : Z -> list Z -> list Z + string.
Variable limits : Limits.

Definition of_catalog (e : CatalogError) : ApiError :=
  match e with
  | Conflict => Conflict_ "idempotency key was already used with different content"
  | Pending => Conflict_ "the first request with this idempotency key is still being processed"
  | StoreDown => Internal ("idempotency store is unavailable: " +:+ store_text)
  end.
Definition of_ingest (e : IngestError) : ApiError :=
  match e with
  | MalformedRecord e => BadRequest (Reconvert.parse_error_text e)
  | CatalogFailed e => of_catalog e
  | Produce e => Internal ("could not hand the record to the record topic: " +:+ kafka_text e)
  | Backlogged lag => Internal (pretty lag +:+ " records are still waiting to be packed and indexed; retry later")
  end.
Definition map_error {A} (r : result IngestError A) : result ApiError A :=
  match r with Ok a => Ok a | Err e => Err (of_ingest e) | Panic => Panic end.
Definition required_header (name : string) (value : option string) : result ApiError string :=
  match value with
  | Some v => if String.eqb v "" then Err (BadRequest ("missing " +:+ name +:+ " header")) else Ok v
  | None => Err (BadRequest ("missing " +:+ name +:+ " header"))
  end.
Definition collector_headers (key source played_at : option string) : result ApiError (string * string * option DateTime) :=
  key ← required_header "idempotency-key" key;
  source ← required_header "x-mjai-source" source;
  if Nat.ltb 256 (String.length key) || Nat.ltb 128 (String.length source) then Err (BadRequest "collector headers are too long")
  else match played_at with
       | None => Ok (key, source, None)
       | Some text => match rfc3339 text with
                      | Some at_ => Ok (key, source, Some at_)
                      | None => Err (BadRequest "X-Mjai-Played-At must be RFC 3339")
                      end
       end.
Definition check_record_size (body : list Z) : result ApiError () :=
  if zlen body =? 0 then Err (BadRequest "record is empty")
  else if max_record_bytes limits <? zlen body then Err (PayloadTooLarge (max_record_bytes limits))
  else Ok tt.

(** ** One record *)
Definition ingest_one (f : Fate) (key source : string) (played_at : option DateTime) (body : list Z) (claims : Claims) (topic : Topic)
  : Claims * Topic * result ApiError IngestResponse :=
  match check_record_size body with
  | Err e => (claims, topic, Err e)
  | Panic => (claims, topic, Panic)
  | Ok _ =>
    let '(claims, topic, r) := Ingest.ingest_one key_hash from_str to_string timestamp_ok sha256_hex (broker f) (lag f) (max_lag f) (now f) (fresh f)
                                 source key played_at body None (store f) [deletes f 0] claims topic in
    (claims, topic, a ← map_error r; Ok (mkResponse (acc_id a) (duplicate a) (acc_sha256 a)))
  end.
Definition ingest (f : Fate) (key source played_at : option string) (body : list Z) (claims : Claims) (topic : Topic)
  : Claims * Topic * result ApiError (Z * IngestResponse) :=
  if (zlen body =? 0) || (max_record_bytes limits <? zlen body) then (claims, topic, Err (PayloadTooLarge (max_record_bytes limits)))
  else match collector_headers key source played_at with
  | Err e => (claims, topic, Err e)
  | Panic => (claims, topic, Panic)
  | Ok (key, source, played_at) =>
    let '(claims, topic, r) := ingest_one f key source played_at body claims topic in
    (claims, topic, response ← r; Ok (if i_duplicate response then 200 else 202, response))
  end.

(** ** An archive *)
Definition inflate_member (raw : list Z) (limit : Z) : list Z + string :=
  match gunzip_prefix (limit + 1) raw with
  | inr e => inr e
  | inl inflated => if limit <? zlen inflated then inr ("decompresses past the " +:+ pretty limit +:+ " byte record limit") else inl inflated
  end.
Definition push_batch_error (error : string) (errors : list string) : list string :=
  if zlen errors <? MAX_REPORTED_ERRORS then errors ++ [error] else errors.
Definition reject (error : string) (w : Walk) : Walk :=
  w <| response ::= fun r => r <| rejected ::= fun n => Prelude.as_u64 (n + 1) |> <| errors ::= push_batch_error error |> |>.
(** The chunk in hand goes to the topic; its claims are given back when it does not
    arrive. *)
Definition flags (deletes : nat -> bool) (l : list Claimed) : list bool := map deletes (seq 0 (length l)).
Definition produce_batch_chunk (f : Fate) (w : Walk) : Walk * result ApiError () :=
  let chunk := pending w in
  let '(claims, topic, r) := produce_claimed key_hash (broker f) (flags (deletes f) chunk) chunk (claims w) (topic w) in
  (mkWalk (response w) [] 0 claims topic
     (match r with Ok _ => handed w ++ map snd (to_produce chunk) | _ => handed w end), map_error r).
Definition give_back (deletes : nat -> bool) (l : list Claimed) (w : Walk) : Walk :=
  w <| claims ::= abandon_claimed key_hash (flags deletes l) l |>.
(** The record in hand joins the chunk, which goes out first when it would grow past
    the bound. *)
Definition join (f : Fate) (c : Claimed) (w : Walk) : Walk * result ApiError () :=
  let '(w, r) := if MAX_PRODUCE_BATCH_BYTES <? Prelude.as_u64 (pending_bytes w + raw_len c) then produce_batch_chunk f w else (w, Ok tt) in
  match r with
  | Ok _ => (w <| pending_bytes ::= fun n => Prelude.as_u64 (n + raw_len c) |> <| pending ::= fun l => l ++ [c] |>, Ok tt)
  | Err e => (give_back (fun _ => deletes_own f) [c] w, Err e)
  | Panic => (w, Panic)
  end.
Definition is_internal (e : ApiError) : bool := match e with Internal _ => true | _ => false end.
Definition claim_member (f : Fate) (batch_key source : string) (played_at : option DateTime) (path : string) (raw : list Z) (w : Walk)
  : Walk * result ApiError () :=
  let '(claims, r) :=
    match check_record_size raw with
    | Ok _ => let '(claims, r) := claim key_hash from_str to_string timestamp_ok sha256_hex (lag f) (max_lag f) (now f) (fresh f) source
                                    (batch_key +:+ "/" +:+ path) played_at raw None (store f) (claims w) in (claims, map_error r)
    | Err e => (claims w, Err e)
    | Panic => (claims w, Panic)
    end in
  let w := mkWalk (response w) (pending w) (pending_bytes w) claims (topic w) (handed w) in
  match r with
  | Err (Internal e) => (w, Err (Internal (path +:+ ": " +:+ e)))
  | Err e => (reject (path +:+ ": " +:+ error_text e) w, Ok tt)
  | Panic => (w, Panic)
  | Ok c =>
    if is_duplicate c then (w <| response ::= fun r => r <| duplicates ::= fun n => Prelude.as_u64 (n + 1) |> |>, Ok tt)
    else join f c (w <| response ::= fun r => r <| accepted ::= fun n => Prelude.as_u64 (n + 1) |> |>)
  end.
Definition is_gzip (raw : list Z) : bool := match raw with 31 :: 139 :: _ => true | _ => false end.
Definition process_member (f : Fate) (batch_key source : string) (played_at : option DateTime) (m : Member) (w : Walk)
  : Walk * result ApiError () :=
  match m with
  | Torn e => (w, Err (BadRequest ("invalid tar entry: " +:+ e)))
  | NoFile => (w, Ok tt)
  | Unnamed e => (w, Err (BadRequest e))
  | File path size contents =>
    if (size =? 0) || (max_record_bytes limits <? size) then (reject (path +:+ ": invalid size " +:+ pretty size) w, Ok tt)
    else match contents with
    | inr e => (reject (path +:+ ": " +:+ e) w, Ok tt)
    | inl raw =>
      match (if is_gzip raw then inflate_member raw (max_record_bytes limits) else inl raw) with
      | inr e => (reject (path +:+ ": " +:+ e) w, Ok tt)
      | inl raw => claim_member f batch_key source played_at path raw w
      end
    end
  end.
Definition elsewhere (f : Fate) (w : Walk) : Walk :=
  let '(claims, topic) := others f (claims w, topic w) in mkWalk (response w) (pending w) (pending_bytes w) claims topic (handed w).
(** The members from the place [index] on, and the chunk that is left. *)
Fixpoint walk_members (batch_key source : string) (played_at : option DateTime) (fates : nat -> Fate) (index : nat) (l : list Member) (w : Walk)
  : Walk * result ApiError () :=
  let w := elsewhere (fates index) w in
  match l with
  | [] => produce_batch_chunk (fates index) w
  | m :: l =>
    if max_batch_records limits <=? Z.of_nat index then (w, Err (BadRequest ("batch exceeds " +:+ pretty (max_batch_records limits) +:+ " records")))
    else match process_member (fates index) batch_key source played_at m w with
         | (w, Ok _) => walk_members batch_key source played_at fates (S index) l w
         | (w, Err e) => (w, Err e)
         | (w, Panic) => (w, Panic)
         end
  end.
Definition no_response : BatchIngestResponse := mkBatch 0 0 0 [].
Definition process_batch_archive (batch_key source : string) (played_at : option DateTime) (fates : nat -> Fate) (returned : nat -> bool)
  (a : Archive) (claims : Claims) (topic : Topic) : Walk * result ApiError BatchIngestResponse :=
  let w := mkWalk no_response [] 0 claims topic [] in
  match a with
  | Unopened e => (w, Err (BadRequest e))
  | Short => (w, Err (BadRequest "batch archive is empty"))
  | NotRewound e => (w, Err (Internal e))
  | NotTar e => (w, Err (BadRequest ("invalid tar archive: " +:+ e)))
  | Members l =>
    match walk_members batch_key source played_at fates 0 l w with
    | (w, Ok _) => (w, Ok (response w))
    | (w, Err e) => (give_back returned (pending w) (w <| pending := [] |>), Err e)
    | (w, Panic) => (w, Panic)
    end
  end.
Definition batch_status (r : BatchIngestResponse) : Z :=
  if (accepted r =? 0) && (duplicates r =? 0) && (0 <? rejected r) then 422 else 202.

(** *** The upload

    The frames of the body, and how the writes of a staging file end. *)
Fixpoint upload (received : Z) (frames : list Frame) (flushed : option string) : result ApiError () :=
  match frames with
  | [] => match flushed with None => Ok tt | Some e => Err (Internal e) end
  | Broken e :: _ => Err (BadRequest e)
  | Trailer :: frames => upload received frames flushed
  | Data n written :: frames =>
    let received := received + n in
    if (u64_max <? received) || (max_batch_bytes limits <? received) then Err (PayloadTooLarge (max_batch_bytes limits))
    else match written with Some e => Err (Internal e) | None => upload received frames flushed end
  end.
(** [staged] are the files of the staging directory; [made] is the outcome of its
    creation and of the new file's. *)
Definition ingest_batch (key source played_at : option string) (name : string) (made : (option string * option string)) (frames : list Frame)
  (flushed : option string) (fates : nat -> Fate) (returned : nat -> bool) (removed : bool) (a : Archive)
  (staged : gset string) (claims : Claims) (topic : Topic)
  : gset string * Claims * Topic * result ApiError (Z * BatchIngestResponse) :=
  let remove staged := if removed then staged ∖ {[name]} else staged in
  match collector_headers key source played_at with
  | Err e => (staged, claims, topic, Err e)
  | Panic => (staged, claims, topic, Panic)
  | Ok (key, source, played_at) =>
    match made with
    | (Some e, _) | (None, Some e) => (staged, claims, topic, Err (Internal e))
    | (None, None) =>
      let staged := {[name]} ∪ staged in
      match upload 0 frames flushed with
      | Err e => (remove staged, claims, topic, Err e)
      | Panic => (staged, claims, topic, Panic)
      | Ok _ =>
        let '(w, r) := process_batch_archive key source played_at fates returned a claims topic in
        match r with
        | Ok response => (remove staged, claims_of w, topic_of w, Ok (batch_status response, response))
        | Err e => (remove staged, claims_of w, topic_of w, Err e)
        | Panic => (staged, claims_of w, topic_of w, Err (Internal "task panicked"))
        end
      end
    end
  end.
End Uploads_.
End Uploads.

Import Pack Kafka Ingest Uploads.

Section Facts.
Context (key_hash : string -> string) (from_str : string -> json + string) (to_string : json -> string) (timestamp_ok : Z -> bool)
  (sha256_hex : list Z -> string) (kafka_text : KafkaError -> string) (store_text : string) (gunzip_prefix : Z -> list Z -> list Z + string) (limits : Limits).
Abbreviation release := (release key_hash).
Abbreviation produce_batch_chunk := (produce_batch_chunk key_hash kafka_text store_text).
Abbreviation give_back := (give_back key_hash).
Abbreviation join := (join key_hash kafka_text store_text).
Abbreviation claim_member := (claim_member key_hash from_str to_string timestamp_ok sha256_hex kafka_text store_text limits).
Abbreviation process_member := (process_member key_hash from_str to_string timestamp_ok sha256_hex kafka_text store_text gunzip_prefix limits).
Abbreviation walk_members := (walk_members key_hash from_str to_string timestamp_ok sha256_hex kafka_text store_text gunzip_prefix limits).
Abbreviation process_batch_archive := (process_batch_archive key_hash from_str to_string timestamp_ok sha256_hex kafka_text store_text gunzip_prefix limits).

(** ** Claims that are given back *)
Lemma abandon_claim_Some key id claims h row : abandon_claim key_hash key id claims !! h = Some row ->
  claims !! h = Some row /\ (key_hash key = h -> claim_id row <> id).
Proof.
  unfold abandon_claim. destruct (claims !! key_hash key) as [r|] eqn:E.
  - case_bool_decide as Hd.
    + intros [Hne H]%lookup_delete_Some. by split.
    + intros H. split; [done|]. intros <-. congruence.
  - intros H. split; [done|]. intros <-. congruence.
Qed.
Lemma release_Some keys : forall flags claims h row, Forall (eq true) flags -> (length keys <= length flags)%nat ->
  release keys flags claims !! h = Some row ->
  claims !! h = Some row /\ forall key id, (key, id) ∈ keys -> key_hash key = h -> claim_id row <> id.
Proof.
  induction keys as [|[key id] keys IH]; intros flags claims h row Hf Hl; cbn [Ingest.release].
  { intros H. split; [done|]. by intros key id Hk%not_elem_of_nil. }
  destruct flags as [|b flags]; [cbn in Hl; lia|]. apply Forall_cons in Hf as [<- Hf]. cbn [head tail default].
  intros H. destruct (IH flags _ h row Hf ltac:(cbn in Hl; lia) H) as [H1 H2]. cbn in H1. apply abandon_claim_Some in H1 as [H1 H3].
  split; [done|]. intros key' id' [[= -> ->]|Hin]%elem_of_cons; [done|by apply H2].
Qed.
Lemma release_sub keys : forall flags claims h row, release keys flags claims !! h = Some row -> claims !! h = Some row.
Proof.
  induction keys as [|[key id] keys IH]; intros flags claims h row; [done|]. intros H. apply IH in H.
  revert H. destruct (head flags) as [[]|]; cbn; try done. by intros [H _]%abandon_claim_Some.
Qed.
Lemma flags_true deletes l : Forall (eq true) (flags deletes l) \/ exists i, deletes i = false.
Proof.
  unfold flags. induction (seq 0 (length l)) as [|i l' IH]; [by left|]. cbn. destruct (deletes i) eqn:E; [|right; by exists i].
  destruct IH as [IH|IH]; [left; by constructor|by right].
Qed.
Lemma flags_length deletes l : length (flags deletes l) = length l.
Proof. unfold flags. by rewrite length_map, length_seq. Qed.

(** ** The walk

    The identifiers of this import are those its fates give. *)
Section Walks.
Context (fates : nat -> Fate) (returned : nat -> bool).
Hypothesis fresh_inj : forall i j, fresh (fates i) = fresh (fates j) -> i = j.
(** No row with an identifier of this import appears by the hand of others, and the
    broker does not panic. *)
Definition apart (g : Claims -> Claims) : Prop :=
  forall claims h row i, g claims !! h = Some row -> claim_id row = fresh (fates i) -> claims !! h = Some row.
Definition kind (f : Fate) : Prop :=
  apart (between (store f)) /\ (forall topic, apart (fun claims => fst (others f (claims, topic)))) /\
  forall ms topic, snd (broker f ms topic) <> Panic.
Definition carries (c : Claimed) : Prop := exists m, message c = Some m /\ record_id m = cl_id c.
(** What can leave a claim behind: the answer of its own insert is lost, so that the
    import does not know that it has it; or a [DELETE] that gives claims back does not
    go through, in the walk or at its end. *)
Definition undeleted : Prop :=
  (exists j, deletes_own (fates j) = false \/ exists k, deletes (fates j) k = false) \/ exists k, returned k = false.
Definition excused (i : nat) : Prop := st_insert (store (fates i)) = Lost \/ undeleted.
(** Every row of this import is of a message the broker has, or of a record in the
    chunk or in hand, or is excused. *)
Record Inv (used : nat) (hand : list Claimed) (w : Walk) : Prop := mkInv {
  i_rows : forall h row i, claims w !! h = Some row -> claim_id row = fresh (fates i) -> (i < used)%nat /\
    ((exists m, m ∈ handed w /\ record_id m = claim_id row) \/
     (exists c, c ∈ pending w ++ hand /\ key_hash (cl_key c) = h /\ cl_id c = claim_id row) \/ excused i);
  i_carries : Forall carries (pending w ++ hand)
}.
Lemma inv_sub used used' hand w w' : Inv used hand w -> (used <= used')%nat -> pending w' = pending w -> handed w' = handed w ->
  (forall h row i, claims w' !! h = Some row -> claim_id row = fresh (fates i) -> claims w !! h = Some row) -> Inv used' hand w'.
Proof.
  intros [Hr Hc] Hu E1 E2 Hs. constructor; [|by rewrite E1]. intros h row i Hw Hi. rewrite E1, E2.
  destruct (Hr h row i (Hs h row i Hw Hi) Hi) as [? ?]. split; [lia|done].
Qed.
Lemma to_produce_in c l : c ∈ l -> carries c -> exists m, ((cl_key c, cl_id c), m) ∈ to_produce l /\ record_id m = cl_id c.
Proof.
  intros Hc (m & Hm & Hid). exists m. split; [|done]. unfold to_produce. apply list_elem_of_omap. exists c. split; [done|]. rewrite Hm. cbn. by rewrite Hid.
Qed.
Lemma to_produce_length l : Forall carries l -> length (to_produce l) = length l.
Proof. induction 1 as [|c l (m & Hm & _) _ IH]; [done|]. unfold to_produce in *. cbn. rewrite Hm. cbn. by rewrite IH. Qed.
(** A chunk that goes out leaves nothing behind, whether it arrives or not. *)
Lemma inv_chunk used hand j w w' r (f := fates j) : kind f -> Inv used hand w -> produce_batch_chunk f w = (w', r) -> r <> Panic ->
  Inv used hand w' /\ pending w' = [] /\ pending_bytes w' = 0 /\ response w' = response w /\
  (r = Ok tt -> length (handed w') = (length (handed w) + length (pending w))%nat).
Proof.
  intros _ [Hr Hc]. unfold Uploads.produce_batch_chunk, produce_claimed. apply Forall_app in Hc as [Hc Hh].
  pose proof (to_produce_length _ Hc) as Hlen.
  assert (Hok : forall t, Inv used hand (mkWalk (response w) [] 0 (claims w) t (handed w ++ map snd (to_produce (pending w))))).
  { intros t. constructor; [|done]. cbn. intros h row i Hw Hi. destruct (Hr h row i Hw Hi) as [Hu [(m & Hm & Hid)|[(c & Hin & Hk & Hid)|He]]]; split; try done; [| |by right; right].
    - left. exists m. split; [apply elem_of_app; by left|done].
    - apply elem_of_app in Hin as [Hin|Hin]; [|right; left; by exists c]. left.
      assert (Hcc : carries c) by (eapply Forall_forall in Hc; [exact Hc|done]).
      destruct (to_produce_in c (pending w) Hin Hcc) as (m & Hm & Hmid). exists m. split; [|congruence].
      apply elem_of_app. right. apply list_elem_of_fmap. by exists ((cl_key c, cl_id c), m). }
  destruct (to_produce (pending w)) as [|x l] eqn:Et.
  - intros [= <- <-] _. split; [apply Hok|]. split_and!; try done. cbn in *. intros _. rewrite app_nil_r. lia.
  - destruct (broker f _ _) as [t [[]|e|]] eqn:Eb; intros [= <- <-] Hp; [| |done].
    + split; [apply Hok|]. split_and!; try done. intros _. cbn in Hlen |- *. rewrite length_app. cbn. rewrite length_map. lia.
    + split; [|by split_and!]. constructor; [|done]. intros h row i Hw Hi. cbn [handed pending].
      change (release (map fst (x :: l)) (flags (deletes f) (pending w)) (claims w) !! h = Some row) in Hw.
      pose proof (release_sub _ _ _ _ _ Hw) as Hw'. destruct (Hr h row i Hw' Hi) as [Hu _]. split; [done|].
      destruct (flags_true (deletes f) (pending w)) as [Hft|Hbad]; [|right; right; right; left; exists j; by right].
      apply release_Some in Hw as [Hw Hn]; [|done|rewrite flags_length, length_map, Hlen; done].
      destruct (Hr h row i Hw Hi) as [_ [Hm|[(c & Hin & Hk & Hid)|He]]]; [by left|right; left|by right; right].
      apply elem_of_app in Hin as [Hin|Hin]; [exfalso|by exists c].
      assert (Hcc : carries c) by (eapply Forall_forall in Hc; [exact Hc|done]).
      destruct (to_produce_in c (pending w) Hin Hcc) as (m & Hm & _). rewrite Et in Hm.
      apply (Hn (cl_key c) (cl_id c)); [|done|done]. apply list_elem_of_fmap. by exists ((cl_key c, cl_id c), m).
Qed.
(** What is counted as accepted is what the broker has and what is in hand. *)
Definition tallied (hand : list Claimed) (w : Walk) : Prop :=
  accepted (response w) = Prelude.as_u64 (Z.of_nat (length (handed w) + length (pending w) + length hand)).
Definition settled {A} (hand : list Claimed) (w : Walk) (r : result ApiError A) : Prop := match r with Ok _ => tallied hand w | _ => True end.
Lemma inv_give_back used hand deletes l w : ((exists i, deletes i = false) -> undeleted) -> Forall carries l -> Inv used (hand ++ l) w ->
  Inv used hand (give_back deletes l w).
Proof.
  intros Hd Hl [Hr Hc]. constructor; [|by rewrite app_assoc in Hc; apply Forall_app in Hc as [? _]].
  intros h row i Hw Hi. change (release (omap (fun c => match message c with Some _ => Some (cl_key c, cl_id c) | None => None end) l)
    (flags deletes l) (claims w) !! h = Some row) in Hw.
  assert (Hlen : forall l, (length (omap (fun c => match message c with Some _ => Some (cl_key c, cl_id c) | None => None end) l) <= length l)%nat).
  { induction l0 as [|c l0 IH]; [done|]. cbn. destruct (message c); cbn; lia. }
  pose proof (release_sub _ _ _ _ _ Hw) as Hw'. destruct (Hr h row i Hw' Hi) as [Hu _]. split; [done|].
  destruct (flags_true deletes l) as [Hft|Hbad]; [|right; right; right; by apply Hd].
  apply release_Some in Hw as [Hw Hn]; [|done|by rewrite flags_length].
  destruct (Hr h row i Hw Hi) as [_ [Hm|[(c & Hin & Hk & Hid)|He]]]; [by left| |by right; right].
  rewrite app_assoc in Hin. apply elem_of_app in Hin as [Hin|Hin]; [right; left; by exists c|exfalso].
  eapply Forall_forall in Hl as (m & Hm & _); [|exact Hin]. apply (Hn (cl_key c) (cl_id c)); [|done|done].
  apply list_elem_of_omap. exists c. split; [done|]. by rewrite Hm.
Qed.
Lemma inv_join used j c w w' r (f := fates j) : kind f -> Inv used [c] w -> carries c -> join f c w = (w', r) -> r <> Panic ->
  Inv used [] w' /\ (tallied [c] w -> settled [] w' r).
Proof.
  intros Hk H Hc. unfold Uploads.join.
  assert (Hadd : forall w, Inv used [c] w ->
    Inv used [] (w <| pending_bytes ::= fun n => Prelude.as_u64 (n + raw_len c) |> <| pending ::= fun l => l ++ [c] |>)).
  { intros v [Hr Hca]. constructor; cbn; by rewrite app_nil_r. }
  destruct (_ <? _).
  - destruct (produce_batch_chunk f w) as [w1 r1] eqn:Ep. intros Hj Hp.
    assert (Hp1 : r1 <> Panic) by (intros ->; by injection Hj as <- <-).
    destruct (inv_chunk used [c] j w w1 r1 Hk H Ep Hp1) as (Hi & Hpe & _ & Hre & Hlen). destruct r1 as [[]|e|]; [| |done]; injection Hj as <- <-.
    + split; [by apply Hadd|]. intros Ht. unfold settled, tallied in *. cbn. rewrite Hre, Ht, Hpe, (Hlen eq_refl). cbn. f_equal. lia.
    + split; [|done]. apply (inv_give_back used [] _ [c]); [|by constructor|done]. intros [k E]. left. exists j. by left.
  - intros [= <- <-] _. split; [by apply Hadd|]. intros Ht. unfold settled, tallied in *. cbn. rewrite Ht, length_app. cbn. f_equal. lia.
Qed.
Lemma catalog_claim_rows f key sha scope claims claims' r : kind f ->
  catalog_claim key_hash (store f) (now f) key (fresh f) sha scope claims = (claims', r) ->
  match r with
  | Ok NewClaim => claims' = <[key_hash key := mkClaim (fresh f) sha (expires scope) (now f)]> claims
  | _ => forall h row i, claims' !! h = Some row -> claim_id row = fresh (fates i) ->
    claims !! h = Some row \/ (claim_id row = fresh f /\ st_insert (store f) = Lost)
  end.
Proof.
  intros (Hb' & _ & _). assert (Hb : forall claims h row i, between (store f) claims !! h = Some row -> claim_id row = fresh (fates i) ->
    claims !! h = Some row \/ (claim_id row = fresh f /\ st_insert (store f) = Lost)) by (intros cl h row i H1 H2; left; by eapply Hb').
  unfold catalog_claim, claim_insert. destruct (claims !! key_hash key) as [row0|] eqn:E.
  - assert (Ec : (if took_effect (st_insert (store f)) then claims else claims) = claims) by (by destruct (took_effect _)).
    rewrite Ec. destruct (answered (st_insert (store f))); cbn; [|intros [= <- <-] h row i H _; by left].
    intros [= <- <-]. destruct (answered (st_lookup (store f))); [|exact (Hb claims)].
    unfold claim_lookup. destruct (between (store f) claims !! key_hash key); [|exact (Hb claims)]. destruct (_ && _); exact (Hb claims).
  - destruct (st_insert (store f)) eqn:Es; cbn; intros [= <- <-]; [done|intros h row i H _; by left|].
    intros h row i Hw _. destruct (decide (key_hash key = h)) as [<-|Hne].
    + rewrite lookup_insert_eq in Hw. injection Hw as <-. by right.
    + rewrite lookup_insert_ne in Hw by done. by left.
Qed.
Lemma catalog_claim_spec f i source key played raw w claims' r : kind f -> f = fates i -> Inv i [] w ->
  claim key_hash from_str to_string timestamp_ok sha256_hex (lag f) (max_lag f) (now f) (fresh f) source key played raw None (store f) (claims w) = (claims', r) ->
  let w' := mkWalk (response w) (pending w) (pending_bytes w) claims' (topic w) (handed w) in
  match r with
  | Ok c => if is_duplicate c then Inv (S i) [] w' else carries c /\ Inv (S i) [c] w'
  | _ => Inv (S i) [] w'
  end.
Proof.
  intros Hk Hf H. unfold claim. cbv zeta.
  assert (Hsame : forall claims', (forall h row j, claims' !! h = Some row -> claim_id row = fresh (fates j) ->
      claims w !! h = Some row \/ (claim_id row = fresh f /\ st_insert (store f) = Lost)) ->
    Inv (S i) [] (mkWalk (response w) (pending w) (pending_bytes w) claims' (topic w) (handed w))).
  { intros cl Hs. destruct H as [Hr Hca]. constructor; [|exact Hca]. cbn [claims handed pending]. intros h row j Hw Hj.
    destruct (Hs h row j Hw Hj) as [Hw'|[Hf' Hl]].
    - destruct (Hr h row j Hw' Hj) as [? ?]. split; [lia|done].
    - rewrite Hj, Hf in Hf'. apply fresh_inj in Hf' as ->. split; [lia|]. right. right. left. by rewrite <- Hf. }
  destruct (_ <=? _); [intros [= <- <-]; apply Hsame; intros; by left|].
  destruct (Mjai.parse_metadata _ _ _ _) as [md|e|]; [|intros [= <- <-]; apply Hsame; intros; by left|intros [= <- <-]; apply Hsame; intros; by left].
  destruct (scoped_key _ _ _) as [k scope]. destruct (catalog_claim _ _ _ _ _ _ _ _) as [cl [[|id]|e|]] eqn:Ec;
    pose proof (catalog_claim_rows f _ _ _ _ _ _ Hk Ec) as Hc; intros [= <- <-]; try (by apply Hsame).
  cbn. split; [eexists; by split|]. rewrite Hc. destruct H as [Hr Hca]. constructor; cbn [claims handed pending].
  - intros h row j Hw Hj. destruct (decide (key_hash k = h)) as [<-|Hne].
    + rewrite lookup_insert_eq in Hw. injection Hw as <-. cbn in Hj. rewrite Hf in Hj. apply fresh_inj in Hj as <-. split; [lia|]. right. left.
      eexists. split; [apply elem_of_app; right; left|]. by split.
    + rewrite lookup_insert_ne in Hw by done. destruct (Hr h row j Hw Hj) as [Hu [Hm|[(c & Hin & Hx)|He]]]; (split; [lia|]); [by left|right; left|by right; right].
      exists c. split; [|done]. rewrite app_nil_r in Hin. apply elem_of_app. by left.
  - rewrite app_nil_r in Hca. apply Forall_app. split; [done|]. constructor; [|constructor]. eexists. by split.
Qed.
Lemma inv_claim_member f i key source played path raw w w' r : kind f -> f = fates i -> Inv i [] w ->
  claim_member f key source played path raw w = (w', r) -> r <> Panic -> Inv (S i) [] w' /\ (tallied [] w -> settled [] w' r).
Proof.
  intros Hk Hf H. unfold Uploads.claim_member.
  assert (Hrej : forall cl e, Inv (S i) [] (mkWalk (response w) (pending w) (pending_bytes w) cl (topic w) (handed w)) ->
    let w' := reject e (mkWalk (response w) (pending w) (pending_bytes w) cl (topic w) (handed w)) in
    Inv (S i) [] w' /\ (tallied [] w -> settled [] w' (Ok tt : result ApiError ()))).
  { intros cl e Hi. split; [|done]. eapply inv_sub; [exact Hi|lia|done|done|done]. }
  assert (Hend : forall cl r0, (match r0 with
      | Ok c => if is_duplicate c then Inv (S i) [] (mkWalk (response w) (pending w) (pending_bytes w) cl (topic w) (handed w))
                else carries c /\ Inv (S i) [c] (mkWalk (response w) (pending w) (pending_bytes w) cl (topic w) (handed w))
      | _ => Inv (S i) [] (mkWalk (response w) (pending w) (pending_bytes w) cl (topic w) (handed w)) end) ->
    forall w0, w0 = mkWalk (response w) (pending w) (pending_bytes w) cl (topic w) (handed w) ->
    (match r0 with
     | Err (Internal e) => (w0, Err (Internal (path +:+ ": " +:+ e)))
     | Err e => (reject (path +:+ ": " +:+ error_text e) w0, Ok tt)
     | Panic => (w0, Panic)
     | Ok c => if is_duplicate c then (w0 <| response ::= fun r => r <| duplicates ::= fun n => Prelude.as_u64 (n + 1) |> |>, Ok tt)
               else join f c (w0 <| response ::= fun r => r <| accepted ::= fun n => Prelude.as_u64 (n + 1) |> |>)
     end) = (w', r) -> r <> Panic -> Inv (S i) [] w' /\ (tallied [] w -> settled [] w' r)).
  { intros cl [c|[]|] Hi w0 ->; try (intros [= <- <-] _; by apply Hrej); [|by intros [= <- <-] _|by intros [= <- <-]].
    destruct (is_duplicate c).
    - intros [= <- <-] _. split; [|done]. eapply inv_sub; [exact Hi|lia|done|done|done].
    - destruct Hi as [Hc Hi]. intros Hj Hp. subst f. apply (inv_join (S i) i c _ w' r Hk) in Hj as [H1 H2]; [|eapply inv_sub; [exact Hi|lia|done|done|done]|exact Hc|exact Hp].
      split; [exact H1|]. intros Ht. apply H2. unfold tallied in *. cbn. rewrite Ht.
      unfold Prelude.as_u64, as_unsigned. rewrite Zplus_mod_idemp_l. cbn [handed pending length]. f_equal. lia. }
  assert (Hid : Inv (S i) [] (mkWalk (response w) (pending w) (pending_bytes w) (claims w) (topic w) (handed w))).
  { eapply inv_sub; [exact H|lia|done|done|done]. }
  destruct (check_record_size limits raw) as [[]|e|].
  - destruct (claim _ _ _ _ _ _ _ _ _ _ _ _ _ _ _ _) as [cl rc] eqn:Ec. pose proof (catalog_claim_spec f i _ _ _ _ w cl rc Hk Hf H Ec) as Hs. cbv zeta in Hs.
    intros Hm Hp. refine (Hend cl (map_error kafka_text store_text rc) _ _ eq_refl Hm Hp). by destruct rc.
  - intros Hm Hp. exact (Hend (claims w) (Err e) Hid _ eq_refl Hm Hp).
  - intros [= <- <-]. done.
Qed.
Lemma inv_process_member f i key source played m w w' r : kind f -> f = fates i -> Inv i [] w ->
  process_member f key source played m w = (w', r) -> r <> Panic -> Inv (S i) [] w' /\ (tallied [] w -> settled [] w' r).
Proof.
  intros Hk Hf H. assert (Hid : forall v, pending v = pending w -> handed v = handed w -> claims v = claims w -> Inv (S i) [] v).
  { intros v E1 E2 E3. apply (inv_sub i (S i) [] w); [done|lia|done|done|]. rewrite E3. done. }
  destruct m as [e| |e|path size contents]; cbn [Uploads.process_member].
  1-3: intros [= <- <-] _; split; [by apply Hid|done].
  destruct (_ || _); [intros [= <- <-] _; by split; [apply Hid|]|].
  destruct contents as [raw|e]; [|intros [= <- <-] _; by split; [apply Hid|]].
  destruct (if is_gzip raw then _ else _) as [raw'|e]; [by apply inv_claim_member|intros [= <- <-] _; by split; [apply Hid|]].
Qed.
Lemma inv_elsewhere i f w : kind f -> Inv i [] w -> Inv i [] (elsewhere f w).
Proof.
  intros (_ & Ho & _) H. unfold elsewhere. pose proof (Ho (topic w) (claims w)) as Ho'. cbn beta in Ho'.
  destruct (others f (claims w, topic w)) as [cl t] eqn:E. apply (inv_sub i i [] w); [done|lia|done|done|exact Ho'].
Qed.
Lemma inv_walk key source played l : forall i w w' r, (forall j, kind (fates j)) -> Inv i [] w -> tallied [] w ->
  walk_members key source played fates i l w = (w', r) -> r <> Panic -> exists used, Inv used [] w' /\ settled [] w' r /\
    (r = Ok tt -> pending w' = []).
Proof.
  induction l as [|m l IH]; intros i w w' r Hk H Ht; cbn [Uploads.walk_members].
  all: assert (He : Inv i [] (elsewhere (fates i) w)) by (by apply inv_elsewhere).
  all: assert (Het : tallied [] (elsewhere (fates i) w)) by (unfold elsewhere; by destruct (others (fates i) (claims w, topic w))).
  - intros Hp Hnp. destruct (inv_chunk i [] i _ _ _ (Hk i) He Hp Hnp) as (Hi & Hpe & _ & Hre & Hlen). exists i. split; [done|]. split; [|by intros _].
    destruct r as [[]|e|]; [|done..]. unfold settled, tallied in *. rewrite Hre, Het, Hpe, (Hlen eq_refl). cbn. f_equal. lia.
  - destruct (_ <=? _); [intros [= <- <-] _; exists i; by split_and!|].
    destruct (process_member _ _ _ _ _ _) as [w1 r1] eqn:Em. intros Hw Hnp.
    assert (Hn1 : r1 <> Panic) by (intros ->; by injection Hw as <- <-).
    destruct (inv_process_member _ i _ _ _ _ _ _ _ (Hk i) eq_refl He Em Hn1) as [H1 H2]. destruct r1 as [[]|e|]; [|injection Hw as <- <-; exists (S i); by split_and!|done].
    exact (IH (S i) w1 w' r Hk H1 (H2 Het) Hw Hnp).
Qed.
(** *** Nothing panics *)
Lemma chunk_no_panic f w : kind f -> snd (produce_batch_chunk f w) <> Panic.
Proof.
  intros (_ & _ & Hb). unfold Uploads.produce_batch_chunk, produce_claimed. destruct (to_produce (pending w)) as [|x l]; [done|].
  pose proof (Hb (map snd (x :: l)) (topic w)) as H. destruct (broker f _ _) as [t [| |]]; done.
Qed.
Lemma join_no_panic f c w : kind f -> snd (join f c w) <> Panic.
Proof.
  intros Hk. unfold Uploads.join. destruct (_ <? _); [|done]. pose proof (chunk_no_panic f w Hk) as H.
  by destruct (produce_batch_chunk f w) as [w1 [| |]].
Qed.
Lemma catalog_claim_no_panic st at_ key id sha scope cl : snd (catalog_claim key_hash st at_ key id sha scope cl) <> Panic.
Proof.
  unfold catalog_claim. destruct (claim_insert _ _ _ _ _ _ _) as [[] ?]; destruct (answered (st_insert st)); try done. cbn.
  destruct (answered (st_lookup st)); [|done]. unfold claim_lookup. destruct (_ !! _); [|done]. by destruct (_ && _).
Qed.
Lemma claim_no_panic a b at_ id source key played raw pb st cl :
  snd (claim key_hash from_str to_string timestamp_ok sha256_hex a b at_ id source key played raw pb st cl) <> Panic.
Proof.
  unfold claim. destruct (_ <=? _); [done|]. pose proof (parse_metadata_no_panic from_str to_string timestamp_ok raw) as H.
  destruct (Mjai.parse_metadata _ _ _ _) as [md|e|]; [|done..]. cbv zeta. destruct (scoped_key _ _ _) as [k scope].
  pose proof (catalog_claim_no_panic st at_ k id (sha256_hex raw) scope cl) as Hc. by destruct (catalog_claim _ _ _ _ _ _ _ _) as [? [[]| |]].
Qed.
Lemma claim_member_no_panic f key source played path raw w : kind f -> snd (claim_member f key source played path raw w) <> Panic.
Proof.
  intros Hk. unfold Uploads.claim_member, check_record_size.
  destruct (_ =? _); [done|]. destruct (_ <? _); [done|]. cbn.
  pose proof (claim_no_panic (lag f) (max_lag f) (now f) (fresh f) source (key +:+ "/" +:+ path) played raw None (store f) (claims w)) as H.
  destruct (claim _ _ _ _ _ _ _ _ _ _ _ _ _ _ _ _) as [cl [c|e|]]; [|by destruct e as [|[]| |]|done]. cbn. destruct (is_duplicate c); [done|by apply join_no_panic].
Qed.
Lemma process_member_no_panic f key source played m w : kind f -> snd (process_member f key source played m w) <> Panic.
Proof.
  intros Hk. destruct m as [e| |e|path size contents]; cbn [Uploads.process_member]; try done. destruct (_ || _); [done|].
  destruct contents as [raw|e]; [|done]. destruct (if is_gzip raw then _ else _); [by apply claim_member_no_panic|done].
Qed.
Lemma walk_no_panic key source played l : forall i w, (forall j, kind (fates j)) -> snd (walk_members key source played fates i l w) <> Panic.
Proof.
  induction l as [|m l IH]; intros i w Hk; cbn [Uploads.walk_members]; [by apply chunk_no_panic|]. destruct (_ <=? _); [done|].
  pose proof (process_member_no_panic (fates i) key source played m (elsewhere (fates i) w) (Hk i)) as H.
  destruct (process_member _ _ _ _ _ _) as [w1 [| |]]; [by apply IH|done..].
Qed.
Lemma import_no_panic key source played a cl t : (forall j, kind (fates j)) ->
  snd (process_batch_archive key source played fates returned a cl t) <> Panic.
Proof.
  intros Hk. destruct a as [e| |e|e|l]; cbn [Uploads.process_batch_archive]; try done.
  pose proof (walk_no_panic key source played l 0 (mkWalk no_response [] 0 cl t []) Hk) as H. by destruct (walk_members _ _ _ _ _ _ _) as [w1 [| |]].
Qed.

(** C4: Whatever way an import of an archive ends - to the end of the archive, past a
    limit, at a torn member, at a database or a broker that fails - a claim it took
    outlives it only for one of three reasons: the broker has acknowledged the
    record; the answer to the INSERT of that very claim was lost, so that the import
    never knew it had it; or a DELETE by which it gives claims back did not go
    through. Nothing else leaves a claim for a record that is nowhere, which would
    tell a second attempt that it is a duplicate. An import that is accepted says
    how many records the broker acknowledged. (Identifiers of claims are drawn at
    random: no other request writes a row with one of this import's, and none was
    there before. The broker's client does not panic.) *)
Theorem no_claim_outlives_its_record key source played a cl t w r :
  (forall j, kind (fates j)) ->
  (forall h row i, cl !! h = Some row -> claim_id row <> fresh (fates i)) ->
  process_batch_archive key source played fates returned a cl t = (w, r) ->
  (forall h row i, claims w !! h = Some row -> claim_id row = fresh (fates i) ->
     (exists m, m ∈ handed w /\ record_id m = claim_id row) \/
     st_insert (store (fates i)) = Lost \/
     (exists j, deletes_own (fates j) = false \/ exists k, deletes (fates j) k = false) \/ (exists k, returned k = false)) /\
  forall response, r = Ok response -> accepted response = Prelude.as_u64 (zlen (handed w)).
Proof.
  intros Hk Hcl Hpba. assert (Hnp : r <> Panic) by (pose proof (import_no_panic key source played a cl t Hk) as H; by rewrite Hpba in H).
  revert Hpba Hnp. assert (H0 : forall used, Inv used [] (mkWalk no_response [] 0 cl t [])).
  { intros used. constructor; [|constructor]. intros h row i Hw Hi. by apply Hcl with (i := i) in Hw. }
  assert (Hfin : forall used v h row i, Inv used [] v -> pending v = [] -> claims v !! h = Some row -> claim_id row = fresh (fates i) ->
    (exists m, m ∈ handed v /\ record_id m = claim_id row) \/ excused i).
  { intros used v h row i [Hrows _] Hp Hw Hi. destruct (Hrows h row i Hw Hi) as [_ [Hm|[(c & Hin & _)|He]]]; [by left| |by right].
    rewrite Hp in Hin. by apply not_elem_of_nil in Hin. }
  destruct a as [e| |e|e|l]; cbn [Uploads.process_batch_archive].
  1-4: intros [= <- <-] _; split; [|done]; intros h row i; by apply (Hfin 0%nat).
  destruct (walk_members _ _ _ _ _ _ _) as [w1 r1] eqn:Ew. intros Hp Hnp.
  assert (Hn1 : r1 <> Panic) by (intros ->; by injection Hp as <- <-).
  destruct (inv_walk key source played l 0 _ w1 r1 Hk (H0 0%nat) eq_refl Ew Hn1) as (used & Hi & Hs & Hpe).
  destruct r1 as [[]|e|]; [| |done]; injection Hp as <- <-.
  - split; [intros h row i; by apply (Hfin used), Hpe|]. intros response [= <-]. unfold settled, tallied in Hs. rewrite Hs, (Hpe eq_refl). cbn.
    unfold zlen. f_equal. lia.
  - split; [|done]. intros h row i. apply (Hfin used); [|done]. pose proof (i_carries _ _ _ Hi) as Hc. rewrite app_nil_r in Hc.
    apply (inv_give_back used [] returned (pending w1)); [intros Hx; by right|done|]. destruct Hi as [H1 _]. constructor; cbn; [|done].
    intros h' row' i' Hw Hid. destruct (H1 h' row' i' Hw Hid) as [Hu Hx]. split; [done|]. by rewrite app_nil_r in Hx.
Qed.

(** Nor does an import leave its archive in the staging directory. *)
Theorem import_leaves_no_file rfc3339 key source played name made frames flushed a staged cl t :
  (forall j, kind (fates j)) -> name ∉ staged ->
  fst (fst (fst (ingest_batch key_hash from_str to_string timestamp_ok sha256_hex kafka_text store_text rfc3339 gunzip_prefix limits
    key source played name made frames flushed fates returned true a staged cl t))) = staged.
Proof.
  intros Hk Hn. unfold ingest_batch. assert (Hs : ({[name]} ∪ staged) ∖ {[name]} = staged) by set_solver.
  assert (Hh : collector_headers rfc3339 key source played <> Panic).
  { unfold collector_headers, required_header. destruct key as [k|]; [|done]. destruct (String.eqb k ""); [done|]. destruct source as [s|]; [|done]. cbn.
    destruct (String.eqb s ""); [done|]. cbn. destruct (_ || _); [done|]. destruct played as [text|]; [|done]. by destruct (rfc3339 text). }
  destruct (collector_headers _ _ _ _) as [[[k s] p]|e|]; [|done..].
  destruct made as [[e|] [e'|]]; try done.
  assert (Hu : forall n, upload limits n frames flushed <> Panic).
  { induction frames as [|[len written| |e] frames IH]; intros n; cbn; [by destruct flushed| |apply IH|done].
    destruct (_ || _); [done|]. destruct written; [done|apply IH]. }
  specialize (Hu 0). destruct (upload _ _ _ _) as [[]|e|]; [|exact Hs|done].
  pose proof (import_no_panic k s p a cl t Hk) as Hp. destruct (process_batch_archive _ _ _ _ _ _ _ _) as [w [r|e|]]; [exact Hs|exact Hs|done].
Qed.
End Walks.
End Facts.

(** ** Witnesses: two games; a broker that takes what it is given, and one that does
    not. *)
Definition toy_reader (text : string) : json + string :=
  match text with
  | String "{"%char _ => inl (JObj [("type", JStr "start_game"); ("majsoul", JObj [("uuid", JStr text)])])
  | _ => inr "expected value"
  end.
Definition toy_game (name : string) : Member := File name 5 (inl (bytes_of_string ("{" +:+ name))).
Definition toy_broker (up : bool) (ms : list IngestMessage) (t : Topic) : Topic * result KafkaError () := if up then accepts ms t else refuses ms t.
Definition toy_fate (up : bool) (inserted : reply) (i : nat) : Fate :=
  mkFate Datatypes.id 0 10 5 [Z.of_nat i] (mkStore_ inserted Done Datatypes.id) (toy_broker up) (fun _ => true) true.
Definition toy_limits : Limits := mkLimits 1000 100000 10.
Definition toy_import (up : bool) (inserted : reply) (l : list Member) (claims : Claims) : Walk * result ApiError BatchIngestResponse :=
  process_batch_archive (fun key => key) toy_reader (fun _ => "") (fun _ => true) (fun _ => "digest") (fun _ => "broker") "pool timed out"
    (fun _ l => inl l) toy_limits "batch" "archive" None (toy_fate up inserted) (fun _ => true) (Members l) claims [].
Lemma toy_kind up i : kind (toy_fate up Done) (toy_fate up Done i).
Proof. split_and!; [by intros ??????|by intros ???????|]. intros ms t. by destruct up. Qed.
Lemma toy_fresh up inserted i j : fresh (toy_fate up inserted i) = fresh (toy_fate up inserted j) -> i = j.
Proof. intros [= H]. lia. Qed.
Lemma no_claim_outlives_its_record_witness :
  let out := toy_import false Done [toy_game "a"; NoFile; toy_game "b"] ∅ in
  (exists e, snd out = Err e) /\ handed (fst out) = [] /\
  forall h row i, claims (fst out) !! h = Some row -> claim_id row = fresh (toy_fate false Done i) ->
    exists m, m ∈ handed (fst out) /\ record_id m = claim_id row.
Proof.
  destruct (toy_import false Done [toy_game "a"; NoFile; toy_game "b"] ∅) as [w r] eqn:E.
  assert (Hr : exists e, r = Err e).
  { replace r with (snd (w, r)) by done. rewrite <- E. vm_compute. eexists. reflexivity. }
  split; [exact Hr|]. split; [replace w with (fst (w, r)) by done; rewrite <- E; vm_compute; reflexivity|].
  assert (Hnone : forall h row i, (∅ : Claims) !! h = Some row -> claim_id row <> fresh (toy_fate false Done i)) by (intros ???; by rewrite lookup_empty).
  intros h row i Hw Hi.
  destruct (proj1 (no_claim_outlives_its_record (fun key => key) toy_reader (fun _ => "") (fun _ => true) (fun _ => "digest") (fun _ => "broker") "pool timed out"
    (fun _ l => inl l) toy_limits (toy_fate false Done) (fun _ => true) (toy_fresh false Done) "batch" "archive" None
    (Members [toy_game "a"; NoFile; toy_game "b"]) ∅ [] w r (toy_kind false) Hnone E) h row i Hw Hi)
    as [H|[H|[(j & [H|[k H]])|[k H]]]]; [exact H|discriminate H..].
Defined.
(** The answer of an insert is lost: its claim is not given back, for no record is in
    hand yet, and the second attempt is told that the record is a duplicate. *)
Example lost_insert_keeps_its_claim :
  let first := toy_import true Lost [toy_game "a"] ∅ in
  let second := toy_import true Done [toy_game "a"] (claims (fst first)) in
  (snd first, handed (fst first), snd second, handed (fst second))
  = (Err (Internal "a: idempotency store is unavailable: pool timed out"), [], Ok (mkBatch 0 1 0 []), []).
Proof. vm_compute. reflexivity. Qed.
(** Folders count towards the limit on records. *)
Example folders_are_records :
  snd (toy_import true Done (replicate 10 NoFile ++ [toy_game "a"]) ∅) = Err (BadRequest "batch exceeds 10 records").
Proof. vm_compute. reflexivity. Qed.
