(* ===== verification/Sweep.v ===== *)
(** The sweep over the games known by uuid: [one_known_games_pass],
    [PendingPages] and [WalkTally] of [src/src/refetch_service.rs], with the list
    and the bookmark of [src/src/catalog.rs]. *)
From S2P Require Import Prelude Text Json Proto Convert Mjai Pack Kafka Ingest Refetch Reconvert.
#[local] Open Scope string_scope.
#[local] Open Scope list_scope.
#[local] Open Scope Z_scope.

Module Sweep.
Import Kafka Reconvert.

Definition PAGE_SIZE : nat := 1000.
Definition MAX_PASSES : Z := 12.
Definition MAX_STUMBLES : Z := 10.

(** A row of [mjai.game_uuids], and a place in it. *)
Record SweepPosition := mkPosition { started_at : DateTime; uuid : string }.
Definition position_key (p : SweepPosition) : Z * string := (started_at p / 1000000, uuid p).
#[export] Instance SweepPosition_dec : EqDecision SweepPosition.
Proof. solve_decision. Defined.

(** ** Pages that are not finished *)
Record PageCommit := mkPage {
  position : SweepPosition; rows : Z; present : Z; outstanding : nat; page_unserved : bool
}.
Record PendingPages := mkPending { pages : list PageCommit; done_ : nat }.
Record Committed := mkCommitted { c_position : SweepPosition; c_rows : Z; c_present : Z }.
Definition push (page : PageCommit) (p : PendingPages) : nat * PendingPages :=
  ((done_ p + length (pages p))%nat, mkPending (pages p ++ [page]) (done_ p)).
(** A game of a page that already left is dropped (a debug build asserts). *)
Definition answered (page : nat) (unserved : bool) (p : PendingPages) : PendingPages :=
  if Nat.ltb page (done_ p) then p
  else mkPending (alter (fun e => mkPage (position e) (rows e) (present e) (outstanding e - 1)
                                    (page_unserved e || unserved)) (page - done_ p)%nat (pages p)) (done_ p).
Definition finished_page (p : PageCommit) : bool := Nat.eqb (outstanding p) 0 && negb (page_unserved p).
Fixpoint committable_from (l : list PageCommit) (n : nat) (acc : option Committed)
  : list PageCommit * nat * option Committed :=
  match l with
  | [] => ([], n, acc)
  | p :: l' =>
    if finished_page p then
      committable_from l' (S n) (Some (mkCommitted (position p)
        (match acc with Some c => c_rows c | None => 0 end + rows p)
        (match acc with Some c => c_present c | None => 0 end + present p)))
    else (l, n, acc)
  end.
Definition committable (p : PendingPages) : PendingPages * option Committed :=
  let '(l, n, c) := committable_from (pages p) (done_ p) None in (mkPending l n, c).

(** ** Rounds *)
Record PassOutcome := mkOutcome { scanned : Z; replaced : Z; finished : bool }.
Inductive WalkStop := Done | Stalled | Exhausted.
Record WalkTally := mkTally { passes : Z; stumbles : Z }.
Definition after (outcome : PassOutcome) (t : WalkTally) : WalkTally * option WalkStop :=
  let stumbles := if finished outcome || (0 <? replaced outcome) then 0 else as_u32 (stumbles t + 1) in
  if MAX_STUMBLES <=? stumbles then (mkTally (passes t) stumbles, Some Stalled)
  else if negb (finished outcome) then (mkTally (passes t) stumbles, None)
  else
    let passes := as_u32 (passes t + 1) in
    (mkTally passes stumbles,
     if replaced outcome =? 0 then Some Done
     else if MAX_PASSES <=? passes then Some Exhausted else None).
(** The loop of [walk] over the rounds' outcomes: what it stops with and after
    how many; [None] while it goes on. *)
Fixpoint walk (outcomes : list PassOutcome) (t : WalkTally) : option WalkStop :=
  match outcomes with
  | [] => None
  | o :: outcomes => match after o t with (_, Some stop) => Some stop | (t, None) => walk outcomes t end
  end.

(** ** One pass *)
Record Progress := mkProgress {
  p_scanned : Z; p_present : Z; p_replaced : Z; p_duplicates : Z; p_refused : Z; p_unconvertible : Z;
  p_unreadable : Z; p_position : option DateTime; p_unconvertible_by : UnconvertibleCounts
}.
#[export] Instance Progress_settable : Settable Progress := fun r =>
  mkProgress (p_scanned r) (p_present r) (p_replaced r) (p_duplicates r) (p_refused r) (p_unconvertible r)
    (p_unreadable r) (p_position r) (p_unconvertible_by r).
(** The variables of the pass, the bookmark in PostgreSQL and the counters the
    console reads. A game is tagged with the number of its page. *)
Record Walk := mkWalk {
  reading_from : option SweepPosition; pending : PendingPages;
  queued : list (nat * string); fetching : list (nat * string);
  listed_everything : bool; unserved : Z; w_scanned : Z; w_replaced : Z;
  cursor : option SweepPosition; progress : Progress
}.
#[export] Instance Walk_settable : Settable Walk := fun r =>
  mkWalk (reading_from r) (pending r) (queued r) (fetching r) (listed_everything r) (unserved r) (w_scanned r)
    (w_replaced r) (cursor r) (progress r).
Definition start (stored : option SweepPosition) (sweep_from : option DateTime) (p : Progress) : Walk :=
  mkWalk (match stored with Some c => Some c | None => (fun at_ => mkPosition at_ "") <$> sweep_from end)
    (mkPending [] 0) [] [] false 0 0 0 stored p.

(** What a turn of the loop meets: a newer generation; the list and the claims as
    the two databases answer ([None] is a failed query); the fate of the bookmark;
    and which of the games in the air lands, with what. *)
Record Turn := mkTurn {
  superseded : bool; table : option (list SweepPosition); claimed : option (string -> bool);
  bookmark : reply; landing : nat; landed : result unit Outcome
}.
Inductive Next := Going (w : Walk) | Ended (w : Walk) (r : result unit PassOutcome).
Definition interrupted (w : Walk) : PassOutcome := mkOutcome (w_scanned w) (w_replaced w) false.

Section Pass.
(** How ClickHouse orders strings, the claim hash of a game, and how many games
    may be in the air. *)
Variable string_ltb : string -> string -> bool.
Variable in_flight : nat.

Definition position_ltb (a b : SweepPosition) : bool := lex_ltb string_ltb (position_key a) (position_key b).
Fixpoint dedup (l : list SweepPosition) : list SweepPosition :=
  match l with
  | [] => []
  | a :: l => match l with
              | [] => [a]
              | b :: _ => if bool_decide (a = b) then dedup l else a :: dedup l
              end
  end.
(** [Catalog::game_uuid_listings] of the rows of the table in its order. *)
Definition game_uuid_listings (from : option SweepPosition) (limit : nat) (table : list SweepPosition)
  : list SweepPosition :=
  dedup (take limit (List.filter (fun r => match from with Some p => position_ltb p r | None => true end) table)).
Definition unclaimed (uuids : list string) (held : string -> bool) : list string :=
  List.filter (fun u => negb (held u)) uuids.
(** The read-ahead. *)
Definition read_page (t : Turn) (w : Walk) : result unit Walk :=
  if negb (listed_everything w) && (unserved w =? 0) && Nat.ltb (length (queued w)) in_flight then
    match table t with
    | None => Err tt
    | Some table =>
      let page := game_uuid_listings (reading_from w) PAGE_SIZE table in
      match last page with
      | None => Ok (w <| listed_everything := true |>)
      | Some p =>
        match claimed t with
        | None => Err tt
        | Some held =>
          let wanted := unclaimed (map uuid page) held in
          let '(number, pages) := push (mkPage p (zlen page) (zlen page - zlen wanted) (length wanted) false)
                                    (pending w) in
          Ok (mkWalk (Some p) pages (queued w ++ map (pair number) wanted) (fetching w) (listed_everything w)
                (unserved w) (w_scanned w) (w_replaced w) (cursor w) (progress w))
        end
      end
    end
  else Ok w.
(** The bookmark; a write that fails is reported and forgotten. *)
Definition commit_pages (t : Turn) (w : Walk) : Walk :=
  match committable (pending w) with
  | (pages, None) => w <| pending := pages |>
  | (pages, Some c) =>
    let p := progress w in
    mkWalk (reading_from w) pages (queued w) (fetching w) (listed_everything w) (unserved w)
      (Prelude.as_u64 (w_scanned w + c_rows c)) (w_replaced w)
      (if took_effect (bookmark t) then Some (c_position c) else cursor w)
      (mkProgress (Prelude.as_u64 (p_scanned p + c_rows c)) (Prelude.as_u64 (p_present p + c_present c)) (p_replaced p) (p_duplicates p)
         (p_refused p) (p_unconvertible p) (p_unreadable p) (Some (started_at (c_position c)))
         (p_unconvertible_by p))
  end.
(** Slots that are free are filled from the front of the queue. *)
Definition spawn (w : Walk) : Walk :=
  let free := (in_flight - length (fetching w))%nat in
  w <| fetching := fetching w ++ take free (queued w) |> <| queued := drop free (queued w) |>.
Definition count_outcome (o : Outcome) (p : Progress) : Progress :=
  match o with
  | Replaced => p <| p_replaced ::= fun n => Prelude.as_u64 (n + 1) |>
  | Duplicate => p <| p_duplicates ::= fun n => Prelude.as_u64 (n + 1) |>
  | Refused | Reconvert.Unserved => p <| p_refused ::= fun n => Prelude.as_u64 (n + 1) |>
  | Unconvertible_ why =>
    p <| p_unconvertible ::= fun n => Prelude.as_u64 (n + 1) |> <| p_unconvertible_by ::= bump why |>
  | Unreadable => p <| p_unreadable ::= fun n => Prelude.as_u64 (n + 1) |>
  end.
Definition is_replaced (o : Outcome) : bool := match o with Replaced => true | _ => false end.
Definition is_unserved (o : Outcome) : bool := match o with Reconvert.Unserved => true | _ => false end.
(** A game comes back. An error of its own costs that game and is booked as
    answered. *)
Definition land (game : nat * string) (i : nat) (r : Outcome + unit) (w : Walk) : Walk :=
  let rest := delete i (fetching w) in
  match r with
  | inr _ =>
    w <| fetching := rest |> <| pending := answered (fst game) false (pending w) |>
      <| progress ::= (fun p => p <| p_refused ::= fun n => Prelude.as_u64 (n + 1) |>) |>
  | inl o =>
    let gone := is_unserved o in
    mkWalk (reading_from w) (answered (fst game) gone (pending w)) (if gone then [] else queued w) rest
      (listed_everything w) (if gone then Prelude.as_u64 (unserved w + 1) else unserved w) (w_scanned w)
      (if is_replaced o then Prelude.as_u64 (w_replaced w + 1) else w_replaced w) (cursor w) (count_outcome o (progress w))
  end.
(** What follows the loop: short of the end, or back to the beginning. *)
Definition pass_end (cleared : reply) (w : Walk) : Walk * result unit PassOutcome :=
  if 0 <? unserved w then (w, Ok (interrupted w))
  else
    let w := if took_effect cleared then w <| cursor := None |> else w in
    (w, if Prelude.answered cleared then Ok (mkOutcome (w_scanned w) (w_replaced w) true) else Err tt).
(** A turn up to the games in the air. *)
Definition before_landing (t : Turn) (w : Walk) : result unit Walk :=
  w ← read_page t w; Ok (spawn (commit_pages t w)).
Definition turn (t : Turn) (w : Walk) : Next :=
  if superseded t then Ended w (Ok (interrupted w))
  else match before_landing t w with
  | Err e => Ended w (Err e)
  | Panic => Ended w Panic
  | Ok w =>
    match fetching w with
    | [] =>
      match queued w with
      | [] => if listed_everything w || (0 <? unserved w)
              then let '(w, r) := pass_end (bookmark t) w in Ended w r else Going w
      | _ => Going w
      end
    | _ =>
      match fetching w !! landing t with
      | None => Going w
      | Some game =>
        match landed t with
        | Panic => Ended w (Err tt)
        | Ok o => Going (land game (landing t) (inl o) w)
        | Err e => Going (land game (landing t) (inr e) w)
        end
      end
    end
  end.
Fixpoint pass (turns : list Turn) (w : Walk) : Walk * option (result unit PassOutcome) :=
  match turns with
  | [] => (w, None)
  | t :: turns => match turn t w with Going w => pass turns w | Ended w r => (w, Some r) end
  end.
End Pass.
End Sweep.

Import Kafka Reconvert Sweep.

Section Facts.
Context (string_ltb : string -> string -> bool) `{!StrictTotal string_ltb} (in_flight : nat).
Abbreviation position_ltb := (position_ltb string_ltb).
Abbreviation game_uuid_listings := (game_uuid_listings string_ltb).
Abbreviation read_page := (read_page string_ltb in_flight).
Abbreviation before_landing := (before_landing string_ltb in_flight).
Abbreviation turn := (turn string_ltb in_flight).
Abbreviation pass := (pass string_ltb in_flight).

(** ** The list in its order *)
Definition after_pos (from : option SweepPosition) (r : SweepPosition) : Prop :=
  match from with Some p => position_ltb p r = true | None => True end.
(** [r] is not after [p]. *)
Definition upto (p : option SweepPosition) (r : SweepPosition) : Prop :=
  match p with Some p => position_ltb p r = false | None => False end.
Definition in_order (l : list SweepPosition) : Prop :=
  StronglySorted (fun a b => position_ltb b a = false) l.
Lemma after_or_upto p r : after_pos p r \/ upto p r.
Proof. destruct p as [p|]; cbn; [|by left]. destruct (position_ltb p r); tauto. Qed.
Lemma listing_dedup_cons a l : dedup (a :: l) = dedup l \/ dedup (a :: l) = a :: dedup l.
Proof. destruct l as [|b l]; [by right|]. cbn [dedup]. case_bool_decide; [by left|by right]. Qed.
Lemma listing_dedup_elem l r : r ∈ dedup l <-> r ∈ l.
Proof.
  induction l as [|a l IH]; [done|]. cbn [dedup]. destruct l as [|b l]; [done|].
  case_bool_decide as E; [|rewrite !elem_of_cons, IH, !elem_of_cons; tauto].
  rewrite IH, !elem_of_cons. subst. tauto.
Qed.
Lemma dedup_last l : last (dedup l) = last l.
Proof.
  induction l as [|a l IH]; [done|]. cbn [dedup]. destruct l as [|b l]; [done|].
  case_bool_decide as E; [by rewrite IH|]. rewrite last_cons, IH. destruct (last (b :: l)) eqn:El; [done|].
  by apply last_None in El.
Qed.
(** A page reaches from where it was asked for to its last row, and leaves no
    game out in between. *)
Lemma listing_covers from n tb p : in_order tb -> last (game_uuid_listings from n tb) = Some p ->
  forall r, r ∈ tb -> after_pos from r -> upto (Some p) r ->
  exists r', r' ∈ game_uuid_listings from n tb /\ uuid r' = uuid r.
Proof.
  intros Hs Hp r Hr Hfrom Hup. unfold Sweep.game_uuid_listings in *. rewrite dedup_last in Hp.
  set (s := List.filter _ tb) in *.
  assert (Hin : r ∈ s).
  { apply list_elem_of_In, filter_In. split; [by apply list_elem_of_In|]. by destruct from. }
  assert (Hss : in_order s).
  { subst s. clear - Hs. induction Hs as [|a l _ IH Hf]; cbn [List.filter]; [constructor|].
    destruct (match from with Some _ => _ | None => _ end); [|done]. constructor; [done|].
    rewrite Forall_forall in *. intros b Hb%list_elem_of_In. apply filter_In in Hb as [Hb _].
    by apply Hf, list_elem_of_In. }
  rewrite <- (take_drop n s) in Hin, Hss. apply elem_of_app in Hin as [Hin|Hin].
  { exists r. split; [by apply listing_dedup_elem|done]. }
  exists p. split; [apply listing_dedup_elem; by apply last_Some_elem_of|].
  apply StronglySorted_app in Hss as (H & _ & _).
  assert (Hpr : position_ltb r p = false) by (apply H; [by apply last_Some_elem_of|done]).
  cbn in Hup. pose proof (ltb_antisym (lex_ltb string_ltb) (position_key p) (position_key r) Hup Hpr) as E.
  by injection E.
Qed.
Lemma listing_empty from n tb : (0 < n)%nat -> last (game_uuid_listings from n tb) = None ->
  forall r, r ∈ tb -> ~ after_pos from r.
Proof.
  intros Hn Hp r Hr Hfrom. unfold Sweep.game_uuid_listings in Hp. rewrite dedup_last in Hp.
  apply last_None in Hp. set (s := List.filter _ tb) in *.
  assert (Hin : r ∈ s).
  { apply list_elem_of_In, filter_In. split; [by apply list_elem_of_In|]. by destruct from. }
  destruct s as [|a s]; [by apply not_elem_of_nil in Hin|]. destruct n; [lia|done].
Qed.

(** ** The invariant

    [rows_] are rows the list held throughout, [from] the place the pass started
    at, [settled] the games that were found claimed or came back. *)
Section Invariant.
Context (rows_ : list SweepPosition) (from : option SweepPosition).
Implicit Types (settled : string -> Prop) (fl : list (nat * string)) (pgs : list PageCommit).

Definition covered settled (p : option SweepPosition) : Prop :=
  forall r, r ∈ rows_ -> after_pos from r -> upto p r -> settled (uuid r).
Definition count (n : nat) fl : nat := length (List.filter (fun g => Nat.eqb (fst g) n) fl).
Definition page_ok settled (prev : option SweepPosition) (n : nat) (pg : PageCommit) fl : Prop :=
  (count n fl <= outstanding pg)%nat /\
  (outstanding pg = count n fl -> page_unserved pg = false ->
   forall r, r ∈ rows_ -> after_pos prev r -> upto (Some (position pg)) r -> settled (uuid r) \/ (n, uuid r) ∈ fl).
Definition prev_of (base : option SweepPosition) pgs (k : nat) : option SweepPosition :=
  match k with O => base | S k => position <$> pgs !! k end.
Definition chain settled (base : option SweepPosition) (done : nat) pgs fl : Prop :=
  forall k pg, pgs !! k = Some pg -> page_ok settled (prev_of base pgs k) (done + k) pg fl.
Definition flight (w : Walk) : list (nat * string) := queued w ++ fetching w.
Record Inv settled (w : Walk) : Prop := mkInv {
  inv_base : exists base, covered settled base /\
    chain settled base (done_ (pending w)) (pages (pending w)) (flight w) /\
    reading_from w = prev_of base (pages (pending w)) (length (pages (pending w)));
  inv_numbers : forall g, g ∈ flight w ->
    (done_ (pending w) <= fst g < done_ (pending w) + length (pages (pending w)))%nat;
  inv_cursor : covered settled (cursor w);
  inv_listed : listed_everything w = true -> forall r, r ∈ rows_ -> ~ after_pos (reading_from w) r;
  inv_served : unserved w = 0 -> forall k pg, pages (pending w) !! k = Some pg ->
    outstanding pg = count (done_ (pending w) + k) (flight w) /\ page_unserved pg = false
}.
Lemma count_app n a b : count n (a ++ b) = (count n a + count n b)%nat.
Proof. unfold count. by rewrite List.filter_app, length_app. Qed.
Lemma count_perm n a b : a ≡ₚ b -> count n a = count n b.
Proof.
  unfold count. induction 1 as [|x a b _ IH|x y a|a b c _ IH1 _ IH2]; cbn [List.filter]; [done| | |congruence].
  - destruct (Nat.eqb _ _); cbn; congruence.
  - by destruct (Nat.eqb (fst x) n), (Nat.eqb (fst y) n).
Qed.
Lemma count_zero n fl : count n fl = O -> forall g, g ∈ fl -> fst g <> n.
Proof.
  unfold count. intros H g Hg E. apply length_zero_iff_nil in H.
  assert (Hin : In g (List.filter (fun g => Nat.eqb (fst g) n) fl)); [|by rewrite H in Hin].
  apply filter_In. split; [by apply list_elem_of_In|by apply Nat.eqb_eq].
Qed.
Lemma count_none n fl : (forall g, g ∈ fl -> fst g <> n) -> count n fl = O.
Proof.
  unfold count. induction fl as [|g fl IH]; intros H; [done|]. cbn [List.filter].
  destruct (Nat.eqb_spec (fst g) n) as [E|_]; [exfalso; apply (H g); [left|done]|].
  apply IH. intros x Hx. apply H. by right.
Qed.
Lemma count_pair n us : count n (map (pair n) us) = length us.
Proof. unfold count. induction us as [|u us IH]; [done|]. cbn. by rewrite Nat.eqb_refl, <- IH. Qed.
Lemma page_ok_perm settled prev n pg a b : a ≡ₚ b -> page_ok settled prev n pg a -> page_ok settled prev n pg b.
Proof.
  intros Hp [H1 H2]. unfold page_ok. rewrite <- (count_perm n a b Hp). split; [done|].
  intros E U r Hr Ha Hu. rewrite <- Hp. auto.
Qed.
Lemma covered_mono (settled settled' : string -> Prop) p :
  (forall u, settled u -> settled' u) -> covered settled p -> covered settled' p.
Proof. intros H Hc r Hr Ha Hu. by apply H, Hc. Qed.
(** More games settled, none of them changing what is in the air. *)
Lemma inv_mono (settled settled' : string -> Prop) w :
  (forall u, settled u -> settled' u) -> Inv settled w -> Inv settled' w.
Proof.
  intros H [(base & Hb & Hc & Hr) Hn Hcur Hl Hu]. split; try done.
  - exists base. split; [by apply (covered_mono settled)|]. split; [|done].
    intros k pg Hk. destruct (Hc k pg Hk) as [H1 H2]. split; [done|]. intros E U r Hr' Ha Hup.
    destruct (H2 E U r Hr' Ha Hup); auto.
  - by apply (covered_mono settled).
Qed.
Lemma inv_start stored seed p settled :
  from = reading_from (start stored seed p) -> (stored <> None -> stored = from) ->
  Inv settled (start stored seed p).
Proof.
  intros Hf Hs. assert (Hc : covered settled from).
  { intros r _ Ha Hu. exfalso. destruct from as [c|]; cbn in Ha, Hu; congruence. }
  split; cbn; try done.
  - exists from. split; [done|]. split; [by intros k pg Hk|]. by rewrite Hf.
  - by intros g Hg%not_elem_of_nil.
  - destruct stored as [c|]; [|by intros r _ _ Hu]. by rewrite (Hs ltac:(done)).
Qed.

(** *** Spawning only moves games *)
Lemma flight_spawn w : flight (spawn in_flight w) ≡ₚ flight w.
Proof.
  unfold flight, spawn. cbn. set (n := (in_flight - length (fetching w))%nat).
  rewrite <- (take_drop n (queued w)) at 3. rewrite <- !app_assoc.
  rewrite (Permutation_app_comm (drop n (queued w))), <- app_assoc.
  rewrite (Permutation_app_comm (fetching w)), <- app_assoc. apply Permutation_app_head. done.
Qed.
Lemma inv_spawn settled w : Inv settled w -> Inv settled (spawn in_flight w).
Proof.
  intros [(base & Hb & Hc & Hr) Hn Hcur Hl Hu]. pose proof (flight_spawn w) as Hp. split; try done.
  - exists base. split; [done|]. split; [|done]. intros k pg Hk.
    apply (page_ok_perm _ _ _ _ _ _ (symmetry Hp)). by apply Hc.
  - intros g Hg. rewrite Hp in Hg. by apply Hn.
  - intros U k pg Hk. rewrite (count_perm _ _ _ Hp). by apply Hu.
Qed.

(** *** Reading a page *)
(** The games of the page a turn reads that it finds claimed. *)
Definition held_by (t : Turn) (w : Walk) : list string :=
  if negb (listed_everything w) && (unserved w =? 0) && Nat.ltb (length (queued w)) in_flight then
    match table t, claimed t with
    | Some tb, Some held => List.filter held (map uuid (game_uuid_listings (reading_from w) PAGE_SIZE tb))
    | _, _ => []
    end
  else [].
Definition fair (t : Turn) : Prop := forall tb, table t = Some tb -> in_order tb /\ forall r, r ∈ rows_ -> r ∈ tb.
Lemma inv_read settled t w w' : fair t -> (forall u, u ∈ held_by t w -> settled u) ->
  Inv settled w -> read_page t w = Ok w' -> Inv settled w'.
Proof.
  intros Hfair Hheld Hinv. unfold Sweep.read_page, held_by in *.
  destruct (negb (listed_everything w) && (unserved w =? 0) && Nat.ltb (length (queued w)) in_flight) eqn:Econd;
    [|by intros [= <-]].
  apply andb_true_iff in Econd as [[Hlist Hun%Z.eqb_eq]%andb_true_iff _].
  destruct (table t) as [tb|] eqn:Et; [|done]. destruct (Hfair tb Et) as [Horder Hrows].
  set (page := game_uuid_listings (reading_from w) PAGE_SIZE tb) in *.
  destruct Hinv as [(base & Hb & Hc & Hr) Hn Hcur Hl Hu].
  destruct (last page) as [p|] eqn:Ep.
  2: { intros [= <-]. split; try done; [by exists base|].
       intros _ r Hr0. apply (listing_empty (reading_from w) PAGE_SIZE tb ltac:(unfold PAGE_SIZE; lia) Ep). by apply Hrows. }
  destruct (claimed t) as [held|]; [|done]. set (wanted := unclaimed (map uuid page) held).
  destruct (pending w) as [pgs d] eqn:Epg. cbn [push pages done_] in *. intros [= <-].
  set (pg := mkPage p _ _ _ _). set (n := (d + length pgs)%nat).
  assert (Hnew : forall k, (k < length pgs)%nat -> count (d + k) (map (pair n) wanted) = O).
  { intros k Hk. apply count_none. intros g (u & -> & _)%list_elem_of_fmap. cbn. subst n. lia. }
  assert (Hold : count n (flight w) = O) by (apply count_none; intros g Hg%Hn; subst n; lia).
  assert (Hfl : (queued w ++ map (pair n) wanted) ++ fetching w ≡ₚ flight w ++ map (pair n) wanted).
  { unfold flight. rewrite <- !app_assoc. apply Permutation_app_head, Permutation_app_comm. }
  split; cbn [pending pages done_ reading_from cursor listed_everything unserved].
  - exists base. split; [done|]. split.
    + intros k q Hk. apply (page_ok_perm _ _ _ _ _ _ (symmetry Hfl)).
      destruct (decide (k < length pgs)%nat) as [Hlt|Hge].
      * rewrite lookup_app_l in Hk by done. destruct (Hc k q Hk) as [H1 H2].
        assert (Hprev : prev_of base (pgs ++ [pg]) k = prev_of base pgs k).
        { destruct k as [|k]; [done|]. cbn. by rewrite lookup_app_l by lia. }
        rewrite Hprev. unfold page_ok. rewrite count_app, (Hnew k Hlt), Nat.add_0_r. split; [done|].
        intros E U r Hr0 Ha Hup. destruct (H2 E U r Hr0 Ha Hup); [by left|]. right. apply elem_of_app. by left.
      * apply lookup_app_Some in Hk as [Hk|[_ Hk]]; [by apply lookup_lt_Some in Hk|].
        apply list_lookup_singleton_Some in Hk as [Hk <-]. assert (k = length pgs) as -> by lia.
        assert (Hprev : prev_of base (pgs ++ [pg]) (length pgs) = reading_from w).
        { rewrite Hr. destruct (length pgs) as [|k] eqn:E; [done|]. cbn. by rewrite lookup_app_l by lia. }
        rewrite Hprev. fold n. unfold page_ok. rewrite count_app, Hold, count_pair. split; [done|].
        intros _ _ r Hr0 Ha Hup. destruct (listing_covers (reading_from w) PAGE_SIZE tb p Horder Ep r) as (r' & Hin & <-);
          [by apply Hrows|done|done|]. fold page in Hin.
        assert (Hu0 : uuid r' ∈ map uuid page) by (apply list_elem_of_fmap; by exists r').
        destruct (held (uuid r')) eqn:Eh.
        -- left. apply Hheld. apply list_elem_of_In, filter_In. split; [by apply list_elem_of_In|done].
        -- right. apply elem_of_app. right. apply list_elem_of_fmap. exists (uuid r'). split; [done|].
           apply list_elem_of_In, filter_In. split; [by apply list_elem_of_In|by rewrite Eh].
    + rewrite length_app. cbn [length]. rewrite Nat.add_1_r. cbn [prev_of].
      by rewrite lookup_app_r, Nat.sub_diag by lia.
  - intros g Hg. unfold flight in Hg. cbn [queued fetching] in Hg. rewrite Hfl in Hg. rewrite length_app. cbn [length].
    apply elem_of_app in Hg as [Hg%Hn|(u & -> & _)%list_elem_of_fmap]; cbn; subst n; lia.
  - done.
  - intros Hle. by rewrite Hle in Hlist.
  - intros _ k q Hk. change (flight _) with ((queued w ++ map (pair n) wanted) ++ fetching w).
    rewrite (count_perm _ _ _ Hfl), count_app. destruct (decide (k < length pgs)%nat) as [Hlt|Hge].
    + rewrite lookup_app_l in Hk by done. rewrite (Hnew k Hlt), Nat.add_0_r. by apply (Hu Hun).
    + apply lookup_app_Some in Hk as [Hk|[_ Hk]]; [by apply lookup_lt_Some in Hk|].
      apply list_lookup_singleton_Some in Hk as [Hk <-]. assert (k = length pgs) as -> by lia.
      fold n. by rewrite Hold, count_pair.
Qed.

(** *** Committing the finished pages *)
Lemma prev_of_cons base pg pgs k : prev_of base (pg :: pgs) (S k) = prev_of (Some (position pg)) pgs k.
Proof. by destruct k. Qed.
Lemma page_done settled base n pg fl :
  covered settled base -> finished_page pg = true -> page_ok settled base n pg fl ->
  count n fl = O /\ covered settled (Some (position pg)).
Proof.
  intros Hb [Ho%Nat.eqb_eq Hu%negb_true_iff]%andb_true_iff [H1 H2].
  assert (H0 : count n fl = O) by lia. split; [done|]. intros r Hr Ha Hup.
  destruct (after_or_upto base r) as [Hab|Hub]; [|by apply Hb].
  destruct (H2 ltac:(congruence) Hu r Hr Hab Hup) as [?|Hin]; [done|].
  exfalso. by apply (count_zero n fl H0 _ Hin).
Qed.
(** The pages that leave are finished ones, and the cursor covers them. *)
Lemma committable_spec settled fl l : forall base n acc l' n' c,
  committable_from l n acc = (l', n', c) -> covered settled base -> chain settled base n l fl ->
  exists gone base', l = gone ++ l' /\ n' = (n + length gone)%nat /\ covered settled base' /\
    chain settled base' n' l' fl /\ base' = prev_of base l (length gone) /\
    (forall k, (k < length gone)%nat -> count (n + k) fl = O) /\
    ((gone = [] /\ c = acc) \/ exists x, c = Some x /\ base' = Some (c_position x)) /\
    match l' with q :: _ => finished_page q = false | [] => True end.
Proof.
  induction l as [|pg l IH]; intros base n acc l' n' c; cbn [committable_from].
  { intros [= <- <- <-] Hb Hc. exists [], base. cbn. rewrite Nat.add_0_r. split_and!; try done; try (intros; lia). by left. }
  destruct (finished_page pg) eqn:Ef.
  2: { intros [= <- <- <-] Hb Hc. exists [], base. cbn. rewrite Nat.add_0_r. split_and!; try done; try (intros; lia). by left. }
  intros E Hb Hc. pose proof (Hc O pg eq_refl) as H0. rewrite Nat.add_0_r in H0.
  destruct (page_done settled base n pg fl Hb Ef H0) as [Hz Hcov].
  assert (Hc' : chain settled (Some (position pg)) (S n) l fl).
  { intros k q Hk. rewrite <- (prev_of_cons base). replace (S n + k)%nat with (n + S k)%nat by lia. by apply Hc. }
  destruct (IH _ _ _ _ _ _ E Hcov Hc') as (gone & base' & -> & -> & Hcov' & Hch & -> & Hcount & Hacc & Hfirst).
  exists (pg :: gone), (prev_of base (pg :: gone ++ l') (S (length gone))). cbn [length app].
  rewrite prev_of_cons. split_and!; try done; [lia| |].
  - intros [|k] Hk; [by rewrite Nat.add_0_r|]. replace (n + S k)%nat with (S n + k)%nat by lia. apply Hcount. lia.
  - right. destruct Hacc as [[-> ->]|(x & -> & Hx)]; [by eexists|by exists x].
Qed.
Lemma chain_shift base pgs gone l' : pgs = gone ++ l' ->
  prev_of base pgs (length pgs) = prev_of (prev_of base pgs (length gone)) l' (length l').
Proof.
  intros ->. rewrite length_app. destruct l' as [|q l']; cbn [length].
  - by rewrite Nat.add_0_r.
  - rewrite Nat.add_succ_r. cbn [prev_of]. rewrite lookup_app_r by lia. by rewrite Nat.add_comm, Nat.add_sub.
Qed.
Lemma inv_commit settled t w : Inv settled w ->
  Inv settled (commit_pages t w) /\ flight (commit_pages t w) = flight w /\
  unserved (commit_pages t w) = unserved w /\ listed_everything (commit_pages t w) = listed_everything w /\
  match pages (pending (commit_pages t w)) with q :: _ => finished_page q = false | [] => True end.
Proof.
  intros [(base & Hb & Hc & Hr) Hn Hcur Hl Hu]. unfold commit_pages, committable.
  destruct (committable_from _ _ _) as [[l' n'] c] eqn:E.
  destruct (committable_spec settled (flight w) _ _ _ _ _ _ _ E Hb Hc)
    as (gone & base' & Hpgs & -> & Hcov & Hch & Hbase & Hcount & Hacc & Hfirst).
  assert (Hr' : reading_from w = prev_of base' l' (length l')).
  { rewrite Hr, Hbase. by apply chain_shift. }
  assert (Hn' : forall g, g ∈ flight w ->
    (done_ (pending w) + length gone <= fst g < done_ (pending w) + length gone + length l')%nat).
  { intros g Hg. pose proof (Hn g Hg) as Hb'. rewrite Hpgs, length_app in Hb'.
    destruct (decide (fst g < done_ (pending w) + length gone)%nat) as [Hlt|]; [exfalso|lia].
    apply (count_zero _ _ (Hcount (fst g - done_ (pending w))%nat ltac:(lia)) g Hg). lia. }
  assert (Hu' : unserved w = 0 -> forall k pg, l' !! k = Some pg ->
    outstanding pg = count (done_ (pending w) + length gone + k) (flight w) /\ page_unserved pg = false).
  { intros U k pg Hk. rewrite <- Nat.add_assoc. apply (Hu U). rewrite Hpgs, lookup_app_r by lia.
    by replace (length gone + k - length gone)%nat with k by lia. }
  destruct c as [x|]; (split; [|done]); split; cbn; try done; try by exists base'.
  destruct (took_effect (bookmark t)); [|done]. destruct Hacc as [[_ ?]|(y & [= <-] & Hx)]; [done|].
  intros r Hr0 Ha Hup. apply Hcov; [done|done|]. by rewrite Hx.
Qed.

(** *** A game comes back *)
Definition book (unserved : bool) (e : PageCommit) : PageCommit :=
  mkPage (position e) (rows e) (present e) (outstanding e - 1) (page_unserved e || unserved).
Lemma answered_eq n gone p : (done_ p <= n)%nat ->
  answered n gone p = mkPending (alter (book gone) (n - done_ p)%nat (pages p)) (done_ p).
Proof. intros H. unfold answered. destruct (Nat.ltb_spec n (done_ p)); [lia|done]. Qed.
Lemma prev_of_alter base gone j pgs k : prev_of base (alter (book gone) j pgs) k = prev_of base pgs k.
Proof.
  destruct k as [|k]; [done|]. cbn. destruct (decide (j = k)) as [->|Hne].
  - rewrite list_lookup_alter_eq. by destruct (pgs !! k).
  - by rewrite list_lookup_alter_ne.
Qed.
Lemma count_cons n g fl : count n (g :: fl) = ((if decide (fst g = n) then 1 else 0) + count n fl)%nat.
Proof. unfold count. cbn [List.filter]. destruct (Nat.eqb_spec (fst g) n), (decide (fst g = n)); done. Qed.
(** The page of the game that came back, and the other pages, when [kept] is
    what stays in the air of what was there beside it. *)
Lemma page_ok_book settled prev n pg g gone kept lost fl :
  fl ≡ₚ g :: lost ++ kept -> (gone = false -> lost = [] /\ settled (snd g)) ->
  page_ok settled prev n pg fl ->
  page_ok settled prev n (if decide (fst g = n) then book gone pg else pg) kept.
Proof.
  intros Hfl Hgone [H1 H2]. rewrite (count_perm n _ _ Hfl), count_cons, count_app in H1, H2.
  unfold page_ok. destruct (decide (fst g = n)) as [E|Hne]; cbn [outstanding page_unserved position book].
  - split; [lia|]. intros Ho [Hu ->]%orb_false_iff r Hr Ha Hup. destruct (Hgone eq_refl) as [-> Hs].
    cbn [count List.filter length] in *. change (count n []) with O in *.
    destruct (H2 ltac:(lia) Hu r Hr Ha Hup) as [?|Hin]; [by left|]. rewrite Hfl in Hin. cbn [app] in Hin.
    apply elem_of_cons in Hin as [<-|Hin]; [left; exact Hs|by right].
  - split; [lia|]. intros Ho Hu r Hr Ha Hup. assert (Hz : count n lost = O) by lia.
    destruct (H2 ltac:(lia) Hu r Hr Ha Hup) as [?|Hin]; [by left|]. rewrite Hfl in Hin.
    apply elem_of_cons in Hin as [<-|Hin]; [done|]. apply elem_of_app in Hin as [Hin|Hin]; [|by right].
    by apply (count_zero n lost Hz) in Hin.
Qed.
Lemma inv_land settled g i r w : fetching w !! i = Some g -> 0 <= unserved w < u64_max ->
  (r <> inl Reconvert.Unserved -> settled (snd g)) -> Inv settled w -> Inv settled (land g i r w).
Proof.
  intros Hi Hbound Hs [(base & Hb & Hc & Hr) Hn Hcur Hl Hu].
  pose proof (delete_Permutation _ _ _ Hi) as Hdel. set (rest := delete i (fetching w)) in *.
  set (gone := match r with inl o => is_unserved o | inr _ => false end).
  set (kept := (if gone then [] else queued w) ++ rest). set (lost := if gone then queued w else []).
  assert (Hfl : flight w ≡ₚ g :: lost ++ kept).
  { unfold flight, lost, kept. rewrite Hdel. destruct gone; cbn [app]; by rewrite Permutation_middle. }
  assert (Hg : g ∈ flight w) by (rewrite Hfl; left). pose proof (Hn g Hg) as Hng.
  assert (Hgone : gone = false -> lost = [] /\ settled (snd g)).
  { intros E. unfold lost. rewrite E. split; [done|]. apply Hs. intros ->. by subst gone. }
  assert (Hpend : pending (land g i r w) = mkPending (alter (book gone) (fst g - done_ (pending w))%nat
                    (pages (pending w))) (done_ (pending w))).
  { rewrite <- answered_eq by lia. by destruct r as [o|]. }
  assert (Hflight : flight (land g i r w) = kept) by by destruct r as [o|].
  assert (Hread : reading_from (land g i r w) = reading_from w) by by destruct r.
  assert (Hlook : forall k pg, alter (book gone) (fst g - done_ (pending w))%nat (pages (pending w)) !! k = Some pg ->
    exists q, pages (pending w) !! k = Some q /\
      pg = if decide (fst g = done_ (pending w) + k)%nat then book gone q else q).
  { intros k pg Hk. destruct (decide (fst g = done_ (pending w) + k)%nat) as [E|Hne].
    - replace (fst g - done_ (pending w))%nat with k in Hk by lia. rewrite list_lookup_alter_eq in Hk.
      apply fmap_Some in Hk as (q & Hq & ->). by exists q.
    - rewrite list_lookup_alter_ne in Hk by lia. by exists pg. }
  split; rewrite ?Hpend, ?Hflight, ?Hread; cbn [pages done_].
  - exists base. split; [done|]. split.
    + intros k pg Hk. rewrite prev_of_alter. destruct (Hlook k pg Hk) as (q & Hq & ->).
      apply (page_ok_book settled _ _ q g gone kept lost (flight w)); [done|done|by apply Hc].
    + by rewrite length_alter, prev_of_alter.
  - intros x Hx. rewrite length_alter. apply Hn. rewrite Hfl. right. apply elem_of_app. by right.
  - by destruct r.
  - by destruct r.
  - intros U. assert (Hgf : gone = false /\ unserved w = 0).
    { subst gone. destruct r as [o|]; cbn in U; [|done]. destruct (is_unserved o); [|done].
      unfold Prelude.as_u64, u64_max in *. rewrite as_unsigned_small in U by lia. lia. }
    destruct Hgf as [Hgf Hu0]. destruct (Hgone Hgf) as [Hlost _]. intros k pg Hk.
    destruct (Hlook k pg Hk) as (q & Hq & ->). destruct (Hu Hu0 k q Hq) as [Hq1 Hq2].
    rewrite (count_perm _ _ _ Hfl), count_cons, Hlost in Hq1. cbn [app] in Hq1.
    destruct (decide (fst g = done_ (pending w) + k)%nat); cbn [outstanding page_unserved book];
      rewrite ?Hgf, ?orb_false_r; split; (done || lia).
Qed.

(** *** A turn, with what it finds out

    What became of a game: found claimed, come back, or lost to an error of its
    own. *)
Inductive Fate := Held | Came (o : Outcome) | Broken.
Definition turn_log (t : Turn) (w : Walk) : list (string * Fate) :=
  if superseded t then []
  else map (fun u => (u, Held)) (held_by t w) ++
    match before_landing t w with
    | Ok w => match fetching w !! landing t with
              | Some g => match landed t with
                          | Ok o => [(snd g, Came o)] | Err _ => [(snd g, Broken)] | Panic => [] end
              | None => []
              end
    | _ => []
    end.
Definition settled_in (log : list (string * Fate)) (u : string) : Prop :=
  exists f, (u, f) ∈ log /\ f <> Came Reconvert.Unserved.
Fixpoint pass_log (turns : list Turn) (w : Walk) : list (string * Fate) :=
  match turns with
  | [] => []
  | t :: turns => turn_log t w ++ match turn t w with Going w => pass_log turns w | Ended _ _ => [] end
  end.
Lemma settled_app log log' u : settled_in log u \/ settled_in log' u -> settled_in (log ++ log') u.
Proof. intros [(f & H & Hf)|(f & H & Hf)]; exists f; (split; [apply elem_of_app; tauto|done]). Qed.
Lemma read_page_keeps t w w' : read_page t w = Ok w' -> unserved w' = unserved w /\ cursor w' = cursor w.
Proof.
  unfold Sweep.read_page. destruct (_ && _ && _); [|by intros [= <-]]. destruct (table t); [|done].
  destruct (last _); [|by intros [= <-]]. destruct (claimed t); [|done]. destruct (push _ _). by intros [= <-].
Qed.
Lemma inv_before settled t w w' : fair t -> (forall u, u ∈ held_by t w -> settled u) -> Inv settled w ->
  before_landing t w = Ok w' -> Inv settled w' /\ unserved w' = unserved w /\
  match pages (pending w') with q :: _ => finished_page q = false | [] => True end.
Proof.
  intros Hf Hh Hi. unfold Sweep.before_landing. destruct (read_page t w) as [w1| |] eqn:E; cbn; [|done..].
  intros [= <-]. destruct (read_page_keeps t w w1 E) as [Hu _].
  destruct (inv_commit settled t w1 (inv_read settled t w w1 Hf Hh Hi E)) as (H1 & _ & H2 & _ & H3).
  split; [by apply inv_spawn|]. split; [by rewrite <- Hu, <- H2|exact H3].
Qed.
(** Nothing in the air, nothing queued, nothing unserved: every page is done. *)
Lemma inv_end settled w : Inv settled w -> fetching w = [] -> queued w = [] -> unserved w = 0 ->
  listed_everything w = true -> match pages (pending w) with q :: _ => finished_page q = false | [] => True end ->
  forall r, r ∈ rows_ -> after_pos from r -> settled (uuid r).
Proof.
  intros [(base & Hb & Hc & Hr) Hn _ Hl Hu] Hf Hq Hz Hle Hfirst r Hr0 Ha.
  destruct (pages (pending w)) as [|q l] eqn:E.
  - cbn in Hr. destruct (after_or_upto base r) as [H|H]; [|by apply Hb].
    exfalso. apply (Hl Hle r Hr0). by rewrite Hr.
  - destruct (Hu Hz O q) as [H1 H2]; [done|]. exfalso.
    unfold flight in H1. rewrite Hf, Hq in H1. cbn in H1. unfold finished_page in Hfirst.
    by rewrite H1, H2 in Hfirst.
Qed.
Lemma turn_inv log t w : fair t -> Inv (settled_in log) w -> 0 <= unserved w < u64_max ->
  let log' := log ++ turn_log t w in
  match turn t w with
  | Going w' => Inv (settled_in log') w' /\ 0 <= unserved w' <= unserved w + 1
  | Ended w' r => covered (settled_in log') (cursor w') /\
      forall o, r = Ok o -> finished o = true -> forall x, x ∈ rows_ -> after_pos from x -> settled_in log' (uuid x)
  end.
Proof.
  intros Hf Hi Hb log'. set (S := settled_in log'). unfold Sweep.turn.
  assert (Hmono : Inv S w) by (apply (inv_mono (settled_in log)); [intros u Hu; apply settled_app; by left|done]).
  destruct (superseded t) eqn:Esup.
  { split; [apply inv_cursor; done|]. by intros o [= <-]. }
  assert (Hh : forall u, u ∈ held_by t w -> S u).
  { intros u Hu. subst S log'. apply settled_app. right. unfold turn_log. rewrite Esup. exists Held. split; [|done].
    apply elem_of_app. left. apply list_elem_of_fmap. by exists u. }
  destruct (before_landing t w) as [w1|e|] eqn:E; [|split; [by apply inv_cursor|done]..].
  destruct (inv_before S t w w1 Hf Hh Hmono E) as (Hi1 & Hu1 & Hfirst).
  destruct (fetching w1) as [|g0 l] eqn:Ef.
  - destruct (queued w1) eqn:Eq; [|split; [done|lia]].
    destruct (listed_everything w1 || (0 <? unserved w1)) eqn:El; [|split; [done|lia]].
    unfold pass_end. destruct (Z.ltb_spec 0 (unserved w1)).
    { split; [by apply inv_cursor|]. by intros o [= <-]. }
    rewrite orb_false_r in El. split.
    + destruct (took_effect (bookmark t)); [by intros x _ _ Hx|by apply inv_cursor].
    + intros o _ _. apply (inv_end S w1 Hi1 Ef Eq ltac:(lia) El Hfirst).
  - rewrite <- Ef. destruct (fetching w1 !! landing t) as [g|] eqn:Eg; [|split; [done|lia]].
    assert (Hlog : forall f, landed t <> Panic ->
      f = match landed t with Ok o => Came o | _ => Broken end -> f <> Came Reconvert.Unserved -> S (snd g)).
    { intros f Hp Hfe Hne. subst S log'. apply settled_app. right. exists f. split; [|done]. unfold turn_log.
      rewrite Esup, E, Eg. apply elem_of_app. right. subst f. destruct (landed t); [left..|done]. }
    destruct (landed t) as [o|e|] eqn:El; [| |split; [by apply inv_cursor|done]].
    + split.
      * apply inv_land; [done|lia| |done]. intros Hne. apply (Hlog (Came o)); [done|done|congruence].
      * cbn. destruct (is_unserved o); [|lia]. unfold Prelude.as_u64. rewrite as_unsigned_small; [lia|].
        unfold u64_max in Hb. lia.
    + split; [|cbn; lia]. apply inv_land; [done|lia| |done]. intros _. by apply (Hlog Broken).
Qed.
Lemma pass_inv turns : Forall fair turns -> forall log w w' r, Inv (settled_in log) w ->
  0 <= unserved w -> unserved w + zlen turns <= u64_max -> pass turns w = (w', r) ->
  covered (settled_in (log ++ pass_log turns w)) (cursor w') /\
  forall o, r = Some (Ok o) -> finished o = true ->
    forall x, x ∈ rows_ -> after_pos from x -> settled_in (log ++ pass_log turns w) (uuid x).
Proof.
  induction 1 as [|t turns Ht _ IH]; intros log w w' r Hi Hu Hlen; cbn [Sweep.pass pass_log].
  - intros [= <- <-]. rewrite app_nil_r. split; [by apply inv_cursor|done].
  - rewrite zlen_cons in Hlen. pose proof (zlen_nonneg turns).
    pose proof (turn_inv log t w Ht Hi ltac:(lia)) as Hturn. cbv zeta in Hturn.
    rewrite app_assoc. destruct (turn t w) as [w1|w1 r1].
    + intros Hp. apply (IH _ w1); [by apply Hturn|lia|lia|done].
    + intros [= <- <-]. rewrite app_nil_r. split; [by apply Hturn|]. intros o [= ->]. by apply Hturn.
Qed.
End Invariant.

(** C5: the bookmark of the sweep passes no game that is still open. Of the games the
    list holds throughout, each one from where the pass started up to the bookmark in
    PostgreSQL was found claimed when its page was read, or was asked for and came
    back: with an outcome other than that no session took it, or with an error, in
    whatever order the games in the air came back and whatever the databases did
    meanwhile. So a game that came back as unserved holds the bookmark before it. One
    that ended in an error does not: the walk books it as refused, and a game nobody
    served while no session at all was logged in ends in an error
    ([silent_pool_is_walked_past]). A pass of at most [2^64] turns that reports the
    end has settled all games in this sense. *)
Theorem sweep_leaves_nothing_behind rows_ stored seed p turns w r :
  Forall (fair rows_) turns -> zlen turns <= u64_max ->
  pass turns (start stored seed p) = (w, r) ->
  let from := reading_from (start stored seed p) in
  let log := pass_log turns (start stored seed p) in
  (forall x, x ∈ rows_ -> after_pos from x -> upto (cursor w) x -> settled_in log (uuid x)) /\
  (forall o, r = Some (Ok o) -> finished o = true ->
     forall x, x ∈ rows_ -> after_pos from x -> settled_in log (uuid x)).
Proof.
  intros Hf Hlen Hp from log.
  assert (Hi : Inv rows_ from (settled_in []) (start stored seed p)).
  { apply inv_start; [done|]. intros Hs. subst from. by destruct stored. }
  destruct (pass_inv rows_ from turns Hf [] _ w r Hi ltac:(cbn; lia) ltac:(cbn; lia) Hp) as [H1 H2].
  split; [|done]. intros x Hx Ha Hup. by apply H1.
Qed.
End Facts.

(** ** Rounds *)
(** A round that neither reached the end nor stored anything. *)
Definition wasted (o : PassOutcome) : Prop := finished o = false /\ replaced o <= 0.
Definition completed (l : list PassOutcome) : Z := zlen (List.filter finished l).
Definition tally_of (pre : list PassOutcome) (t : WalkTally) : Prop :=
  passes t = completed pre /\ 0 <= stumbles t < MAX_STUMBLES /\ passes t < MAX_PASSES /\
  exists a b, pre = a ++ b /\ zlen b = stumbles t /\ Forall wasted b.
Definition stop_reason (pre : list PassOutcome) (last : PassOutcome) (stop : WalkStop) : Prop :=
  match stop with
  | Done => finished last = true /\ replaced last = 0
  | Stalled => exists a b, pre ++ [last] = a ++ b /\ zlen b = MAX_STUMBLES /\ Forall wasted b
  | Exhausted => finished last = true /\ 0 < replaced last /\ completed (pre ++ [last]) = MAX_PASSES
  end.
Lemma completed_snoc pre o : completed (pre ++ [o]) = completed pre + (if finished o then 1 else 0).
Proof.
  unfold completed. rewrite List.filter_app, zlen_app. cbn [List.filter]. by destruct (finished o).
Qed.
Lemma after_spec pre t o : tally_of pre t -> 0 <= replaced o ->
  match after o t with
  | (t', None) => tally_of (pre ++ [o]) t'
  | (_, Some stop) => stop_reason pre o stop
  end.
Proof.
  intros (Hp & Hs & Hm & a & b & -> & Hb & Hw) Ho. unfold after, MAX_STUMBLES, MAX_PASSES in *.
  assert (Hc : 0 <= completed (a ++ b)) by apply zlen_nonneg.
  assert (Hsmall : forall z, 0 <= z <= 20 -> as_u32 z = z) by (intros; apply as_u32_small; unfold in_u32; lia).
  destruct (finished o) eqn:Ef; cbn [orb negb].
  - change (10 <=? 0) with false. cbv iota. rewrite Hsmall by lia.
    destruct (Z.eqb_spec (replaced o) 0) as [H0|H0]; [done|].
    destruct (Z.leb_spec 12 (passes t + 1)).
    + cbn. rewrite completed_snoc, Ef. unfold MAX_PASSES. split_and!; [done|lia|lia].
    + unfold tally_of. rewrite completed_snoc, Ef. cbn. unfold MAX_STUMBLES, MAX_PASSES.
      split_and!; [lia..|]. exists ((a ++ b) ++ [o]), []. by rewrite app_nil_r.
  - destruct (Z.ltb_spec 0 (replaced o)) as [Hr|Hr]; cbn [orb].
    + change (10 <=? 0) with false. cbv iota. unfold tally_of. rewrite completed_snoc, Ef. cbn.
      unfold MAX_STUMBLES, MAX_PASSES. split_and!; [lia..|]. exists ((a ++ b) ++ [o]), []. by rewrite app_nil_r.
    + rewrite Hsmall by lia.
      assert (Hsuf : (a ++ b) ++ [o] = a ++ (b ++ [o]) /\ zlen (b ++ [o]) = stumbles t + 1 /\ Forall wasted (b ++ [o])).
      { rewrite <- app_assoc, zlen_app, Hb. split_and!; [done|done|]. apply Forall_app. split; [done|].
        apply Forall_singleton. split; [done|lia]. }
      destruct Hsuf as (H1 & H2 & H3). destruct (Z.leb_spec 10 (stumbles t + 1)).
      * cbn. exists a, (b ++ [o]). unfold MAX_STUMBLES. split_and!; [done|lia|done].
      * unfold tally_of. rewrite completed_snoc, Ef. cbn. unfold MAX_STUMBLES, MAX_PASSES.
        split_and!; [lia..|]. by exists a, (b ++ [o]).
Qed.
(** A walk stops for the reason it gives. It ends as done only with a round
    that read its whole list and stored nothing, as stalled only with ten rounds in
    a row that neither reached the end nor stored anything, and as exhausted only
    when twelve rounds are complete; a round that was interrupted never ends it
    otherwise. *)
Theorem walk_stops_for_its_reason outcomes stop :
  Forall (fun o => 0 <= replaced o) outcomes ->
  walk outcomes (mkTally 0 0) = Some stop ->
  exists pre last rest, outcomes = pre ++ last :: rest /\ stop_reason pre last stop /\
    forall p, p `prefix_of` pre -> walk p (mkTally 0 0) = None.
Proof.
  intros Hpos. assert (H : forall l pre t, Forall (fun o => 0 <= replaced o) l -> tally_of pre t ->
    (forall p q, p `prefix_of` q -> walk (q) t = None -> walk p t = None) /\
    (walk l t = Some stop -> exists a last rest, l = a ++ last :: rest /\ stop_reason (pre ++ a) last stop /\
       walk a t = None)).
  { induction l as [|o l IH]; intros pre t Hl Ht.
    - split; [|done]. intros p q. revert p t Ht. clear. intros p t _. revert p t.
      induction q as [|x q IHq]; intros p t Hp; [by apply prefix_nil_inv in Hp as ->|].
      destruct p as [|y p]; [done|]. apply prefix_cons_inv_1 in Hp as Hy. subst y.
      apply prefix_cons_inv_2 in Hp. cbn [walk]. destruct (after x t) as [t' [s|]]; [done|]. by apply IHq.
    - apply Forall_cons in Hl as [Ho Hl]. destruct (IH pre t Hl Ht) as [Hpre _]. split; [done|].
      pose proof (after_spec pre t o Ht Ho) as Ha. cbn [walk]. destruct (after o t) as [t' [s|]] eqn:E.
      + intros [= ->]. exists [], o, l. by rewrite app_nil_r.
      + intros Hw. destruct (proj2 (IH (pre ++ [o]) t' Hl Ha) Hw) as (a & last & rest & -> & Hs & Hn).
        exists (o :: a), last, rest. split; [done|]. rewrite <- app_assoc in Hs. split; [exact Hs|].
        cbn [walk]. by rewrite E. }
  intros Hw. destruct (H outcomes [] (mkTally 0 0) Hpos) as [Hpre Hex].
  { split_and!; try done. by exists [], []. }
  destruct (Hex Hw) as (a & last & rest & -> & Hs & Hn). exists a, last, rest. split_and!; [done|done|].
  intros p Hp. by apply (Hpre p a).
Qed.

(** ** Witnesses: a list of two games, nothing claimed. *)
Definition toy_table : list SweepPosition := [mkPosition 1000000 "a"; mkPosition 2000000 "b"].
Definition toy_turn (r : result unit Outcome) : Turn :=
  mkTurn false (Some toy_table) (Some (fun _ => false)) Prelude.Done 0 r.
Definition toy_start : Walk := start None None (mkProgress 0 0 0 0 0 0 0 None (mkCounts 0 0 0 0)).
Abbreviation toy_ltb := (code_ltb (A := string)).
Lemma toy_fair r : fair toy_ltb toy_table (toy_turn r).
Proof.
  intros tb [= <-]. split; [|done]. unfold in_order, toy_table.
  repeat constructor; vm_compute; reflexivity.
Qed.
(** The first game is stored, nobody serves the second: the bookmark stays where
    it is, and the round is interrupted. *)
Definition toy_turns : list Turn :=
  [toy_turn (Ok Replaced); toy_turn (Ok Reconvert.Unserved); toy_turn (Ok Replaced)].
Lemma sweep_leaves_nothing_behind_witness :
  let '(w, r) := pass toy_ltb 2 toy_turns toy_start in
  r = Some (Ok (mkOutcome 0 1 false)) /\
  forall x, x ∈ toy_table -> upto toy_ltb (cursor w) x ->
    settled_in (pass_log toy_ltb 2 toy_turns toy_start) (uuid x).
Proof.
  destruct (pass toy_ltb 2 toy_turns toy_start) as [w r] eqn:E. split.
  - revert E. vm_compute. by intros [= _ <-].
  - intros x Hx. refine (proj1 (sweep_leaves_nothing_behind toy_ltb 2 toy_table None None _ toy_turns w r _ _ E)
      x Hx I); [repeat (apply Forall_cons; split; [apply toy_fair|]); constructor|vm_compute; congruence].
Defined.
Lemma walk_stops_for_its_reason_witness :
  exists pre last rest,
    [mkOutcome 9 0 false; mkOutcome 9 3 true; mkOutcome 9 0 true] = pre ++ last :: rest /\
    stop_reason pre last Done.
Proof.
  destruct (walk_stops_for_its_reason [mkOutcome 9 0 false; mkOutcome 9 3 true; mkOutcome 9 0 true] Done)
    as (pre & last & rest & H1 & H2 & _); [repeat constructor; cbn; lia|reflexivity|].
  by exists pre, last, rest.
Defined.

(** With nobody logged in, a request nobody serves is an error of its game
    ([one_game]), and the pass books such a game as answered: the bookmark passes
    every game of the list without one request having been served, the round
    counts as complete, and the walk reports that the game no longer offers what
    is missing. *)
Definition toy_silent : Turn :=
  toy_turn (default Panic (snd (one_game (fun _ => "") (fun l => l) inl 1
    (fun _ _ s => (s, Err (Ingest.Backlogged 0))) (Err Refetch.Unserved) 0 "a" tt))).
Example silent_pool_is_walked_past :
  let '(w, r) := pass toy_ltb 2 [toy_silent; toy_silent; toy_silent] toy_start in
  (p_scanned (progress w), p_refused (progress w), r, snd (after (mkOutcome 2 0 true) (mkTally 0 0)))
  = (2, 2, Some (Ok (mkOutcome 2 0 true)), Some Done).
Proof. vm_compute. reflexivity. Qed.
(** With one session left the same silence holds the bookmark. *)
Example one_session_holds_the_bookmark :
  let served := toy_turn (default Panic (snd (one_game (fun _ => "") (fun l => l) inl 1
    (fun _ _ s => (s, Err (Ingest.Backlogged 0))) (Err Refetch.Unserved) 1 "a" tt))) in
  let '(w, r) := pass toy_ltb 2 [served; served; served] toy_start in
  (p_scanned (progress w), unserved w, r) = (0, 2, Some (Ok (mkOutcome 0 0 false))).
Proof. vm_compute. reflexivity. Qed.
