(* ===== verification/Balance.v ===== *)
(** The pool of re-fetch sessions and its exits: how many requests a walk keeps in
    the air, the balancing of the accounts over the nodes, and the rate meter of
    [src/src/refetch_service.rs]. *)
From S2P Require Import Prelude Text F64 Accounts.
#[local] Open Scope string_scope.
#[local] Open Scope list_scope.
#[local] Open Scope Z_scope.

Module Balance.
Import F64.

(** ** Requests in the air *)
Definition MIN_IN_FLIGHT : Z := 1000.
Definition QUEUE_PER_SESSION : Z := 4.
Definition MAX_REQUEST_DELAY_MS : Z := 60000.
Definition CLAIM_TIMEOUT_MS : Z := 180000.
Definition sat_mul_usize (a b : Z) : Z := Z.min (a * b) u64_max.
Definition in_flight_for (workers request_delay_ms : Z) : Z :=
  let workers := Z.max workers 1 in
  let patience := CLAIM_TIMEOUT_MS / 3 in
  let ceiling := sat_mul_usize workers (1 + patience / Z.max request_delay_ms 1) in
  Z.min (Z.max (sat_mul_usize workers QUEUE_PER_SESSION) MIN_IN_FLIGHT) ceiling.

(** ** What each exit did *)
Record NodeTally := mkTally { fetched : Z; failed : Z; nanos : Z; sessions : Z }.
#[export] Instance NodeTally_settable : Settable NodeTally := fun r =>
  mkTally (fetched r) (failed r) (nanos r) (sessions r).
Definition default_tally : NodeTally := mkTally 0 0 0 0.
Abbreviation tallies := (gmap string NodeTally).
Definition record_node (node : option string) (was_fetched : bool) (took_nanos : Z) (tally : tallies) : tallies :=
  match node with
  | None => tally
  | Some node =>
    let entry := default default_tally (tally !! node) in
    let entry := entry <| nanos ::= fun n => sat_add_u64 n (Prelude.as_u64 took_nanos) |> in
    <[node := if was_fetched then entry <| fetched ::= fun n => Prelude.as_u64 (n + 1) |>
              else entry <| failed ::= fun n => Prelude.as_u64 (n + 1) |>]> tally
  end.
Definition node_session (node : option string) (arriving : bool) (tally : tallies) : tallies :=
  match node with
  | None => tally
  | Some node =>
    let entry := default default_tally (tally !! node) in
    <[node := entry <| sessions ::= fun n => if arriving then sat_add_u64 n 1 else sat_sub n 1 |>]> tally
  end.

(** ** The balancing *)
Definition MIN_PER_NODE : nat := 1.
Definition MOVE_SHARE : nat := 8.
Definition MAX_NODE_SHARE : Z := 4.
Definition BALANCE_BAND : f64 := Eval vm_compute in f64_div (f64_of 1) (f64_of 4).
Abbreviation binding := (string * string)%type.
Definition holders (bindings : list binding) : gmap string (list string) :=
  fold_left (fun m '(username, node) => <[node := default [] (m !! node) ++ [username]]> m) bindings ∅.
Record Rank := mkRank { r_node : string; held : nat; produced : f64 }.
Definition rank_le (a b : Rank) : bool :=
  (total_key (produced b) <? total_key (produced a))
  || ((total_key (produced b) =? total_key (produced a)) && String.leb (r_node a) (r_node b)).
Definition produced_by (tally : tallies) (node : string) : f64 :=
  let counted := default default_tally (tally !! node) in
  f64_div (f64_of (fetched counted)) (f64_of (Z.max (sessions counted) 1)).
Definition median (ranked : list Rank) : f64 :=
  let middle := (length ranked / 2)%nat in
  let at_ i := from_option produced S754_nan (ranked !! i) in
  if Nat.eqb (length ranked mod 2) 0
  then f64_div (f64_add (at_ (middle - 1)%nat) (at_ middle)) (f64_of 2)
  else at_ middle.
(** Accounts freed from the worst exits; [ranked] is worst first. *)
Fixpoint free_from (held_by : string -> list string) (poor : f64) (budget : nat) (ranked : list Rank)
  (spare : list string) : list string :=
  match ranked with
  | [] => spare
  | r :: ranked =>
    if Nat.leb budget (length spare) || SFleb poor (produced r) then spare
    else
      let give := Nat.min (held r - MIN_PER_NODE) (budget - length spare) in
      free_from held_by poor budget ranked (spare ++ take give (rev (held_by (r_node r))))
  end.
(** The seats of one exit: [None] when nobody is left to move. *)
Fixpoint seat_from (node : string) (room : nat) (spare : list string) (moves : list binding)
  : list binding * option (list string) :=
  match room with
  | O => (moves, Some spare)
  | S room =>
    match spare with
    | [] => (moves, None)
    | username :: spare => seat_from node room spare (moves ++ [(username, node)])
    end
  end.
(** Handed to the best exits; [ranked] is best first. *)
Fixpoint hand_out (rich : f64) (cap : nat) (ranked : list Rank) (spare : list string) (moves : list binding)
  : list binding :=
  match ranked with
  | [] => moves
  | r :: ranked =>
    if SFleb (produced r) rich then moves
    else match seat_from (r_node r) (Nat.min (cap - held r) (held r)) spare moves with
         | (moves, Some spare) => hand_out rich cap ranked spare moves
         | (moves, None) => moves
         end
  end.
Definition poor_below (median : f64) : f64 := f64_mul median (f64_sub (f64_of 1) BALANCE_BAND).
Definition rich_above (median : f64) : f64 := f64_mul median (f64_add (f64_of 1) BALANCE_BAND).
Definition budget_of (bindings : list binding) : nat := Nat.max (length bindings / MOVE_SHARE) 1.

Section Rebalance.
(** The order a [HashMap] is walked in. *)
Variable walk : gmap string (list string) -> list (string * list string).

Definition ranking (bindings : list binding) (tally : tallies) : list Rank :=
  sort_by rank_le (map (fun '(node, held) => mkRank node (length held) (produced_by tally node))
                     (walk (holders bindings))).
Definition rebalance (bindings : list binding) (tally : tallies) (cap : nat) : list binding :=
  let held_by := fun node => default [] (holders bindings !! node) in
  if Nat.ltb (size (holders bindings)) 2 then []
  else
    let ranked := ranking bindings tally in
    let median := median ranked in
    let spare := free_from held_by (poor_below median) (budget_of bindings) (rev ranked) [] in
    hand_out (rich_above median) cap ranked spare [].

(** One round of [balance_forever]: the counters start over and the accounts
    move. *)
Definition reset (entry : NodeTally) : NodeTally := mkTally 0 0 0 (sessions entry).
Definition cap_for (bindings : list binding) (tally : tallies) : Z :=
  Z.max (Prelude.as_u64 (zlen bindings * MAX_NODE_SHARE) / Z.max (Z.of_nat (size tally)) 1) MAX_NODE_SHARE.
Definition balance_round (to_lowercase : string -> string) (now : Z) (fresh : nat -> string) (written : bool)
  (tally : tallies) (pool : Accounts.AccountPool) : tallies * (Accounts.AccountPool * result Accounts.PoolError Z) :=
  let bindings := Accounts.refetch_bindings pool in
  let moves := rebalance bindings tally (Z.to_nat (cap_for bindings tally)) in
  (reset <$> tally,
   match moves with
   | [] => (pool, Ok 0)
   | _ => Accounts.rebind_nodes to_lowercase now fresh written (Accounts.document pool) moves pool
   end).
End Rebalance.

(** ** The console's table *)
Record RefetchNodeStatus := mkStatus {
  st_node : string; st_accounts : Z; st_sessions : Z; st_fetched : Z; st_failed : Z; took_ms : Z
}.
Definition held_counts (bindings : list binding) : gmap string Z :=
  fold_left (fun m '(_, node) => <[node := default 0 (m !! node) + 1]> m) bindings ∅.
Definition status_le (a b : RefetchNodeStatus) : bool :=
  (st_fetched b <? st_fetched a) || ((st_fetched b =? st_fetched a) && String.leb (st_node a) (st_node b)).
Definition node_status (walk : gmap string Z -> list (string * Z)) (bindings : list binding) (tally : tallies)
  : list RefetchNodeStatus :=
  sort_by status_le (map (fun '(node, accounts) =>
    let counted := default default_tally (tally !! node) in
    let answered := Prelude.as_u64 (fetched counted + failed counted) in
    mkStatus node accounts (sessions counted) (fetched counted) (failed counted)
      (nanos counted / Z.max answered 1 / 1000000)) (walk (held_counts bindings))).

(** ** The rate meter

    [second] is the whole seconds since the first completion. *)
Definition WINDOW_SECS : nat := 30.
Record RateWindow := mkRate { buckets : list (Z * Z); started : bool }.
Definition default_rate : RateWindow := mkRate (repeat (0, 0) WINDOW_SECS) false.
Definition hit (second : Z) (w : RateWindow) : RateWindow :=
  mkRate (alter (fun slot => if fst slot =? second then (fst slot, as_u32 (snd slot + 1)) else (second, 1))
            (Z.to_nat (second mod 30)) (buckets w)) true.
Definition live (now : Z) (w : RateWindow) : Z :=
  as_u32 (fold_right (fun slot n => snd slot + n) 0
            (List.filter (fun slot => sat_sub now (fst slot) <? 30) (buckets w))).
Definition qps_at (now : Z) (w : RateWindow) : f64 :=
  if live now w <? 2 then f64_of 0 else f64_div (f64_of (live now w)) (f64_of 30).
Definition qps (now : Z) (w : RateWindow) : f64 := if started w then qps_at now w else f64_of 0.
End Balance.

Import F64 Balance.

(** ** The tests of the source, evaluated *)
Definition spread_of (l : list (string * nat)) : list binding :=
  flat_map (fun '(node, n) => map (fun i => (node +:+ "-" +:+ pretty (Z.of_nat i), node)) (seq 0 n)) l.
Definition tally_of (l : list (string * (Z * Z))) : gmap string NodeTally :=
  list_to_map (map (fun '(node, (f, s)) => (node, mkTally f 0 0 s)) l).
Example dead_exits_give_to_fast_ones :
  let moves := rebalance map_to_list (spread_of [("fast", 50); ("ok", 50); ("slow", 50); ("dead", 50)]%nat)
    (tally_of [("fast", (4000, 50)); ("ok", (1000, 50)); ("slow", (1000, 50)); ("dead", (0, 50))]) 200 in
  (length moves, forallb (fun '(u, n) => String.prefix "dead-" u && String.eqb n "fast") moves) = (25%nat, true).
Proof. vm_compute. reflexivity. Qed.
Example two_seats_under_the_cap :
  length (rebalance map_to_list (spread_of [("fast", 20); ("slow", 60)]%nat)
    (tally_of [("fast", (4000, 20)); ("slow", (60, 60))]) 22) = 2%nat.
Proof. vm_compute. reflexivity. Qed.
Example lucky_exit_doubles_at_most :
  rebalance map_to_list (spread_of [("lucky", 1); ("good", 60); ("ok", 60); ("dead", 60)]%nat)
    (tally_of [("lucky", (200, 1)); ("good", (4920, 60)); ("ok", (4280, 60)); ("dead", (0, 60))]) 28
  = [("dead-59", "lucky")].
Proof. vm_compute. reflexivity. Qed.

(** ** Who holds what *)
Definition users_on (n : string) (l : list binding) : list string :=
  map fst (List.filter (fun b => String.eqb (snd b) n) l).
Definition held_on (n : string) (l : list binding) : nat := length (users_on n l).
Lemma users_on_app n l k : users_on n (l ++ k) = users_on n l ++ users_on n k.
Proof. unfold users_on. by rewrite List.filter_app, map_app. Qed.
Lemma elem_users_on n l u : u ∈ users_on n l <-> (u, n) ∈ l.
Proof.
  unfold users_on. rewrite list_elem_of_fmap. split.
  - intros ([u' n'] & -> & H%list_elem_of_In). apply filter_In in H as [H Hn%String.eqb_eq].
    cbn in Hn. subst. by apply list_elem_of_In.
  - intros H. exists (u, n). split; [done|]. apply list_elem_of_In, filter_In.
    split; [by apply list_elem_of_In|]. apply String.eqb_refl.
Qed.
Lemma users_on_nodup n l : NoDup (map fst l) -> NoDup (users_on n l).
Proof.
  induction l as [|[u m] l IH]; [constructor|]. cbn [map fst]. intros [Hu Hn]%NoDup_cons.
  unfold users_on. cbn [List.filter snd]. destruct (String.eqb m n); [|by apply IH].
  cbn [map fst]. apply NoDup_cons. split; [|by apply IH]. intros H%elem_users_on. apply Hu.
  apply list_elem_of_fmap. by exists (u, n).
Qed.
Lemma one_node u n n' (l : list binding) : NoDup (map fst l) -> (u, n) ∈ l -> (u, n') ∈ l -> n = n'.
Proof.
  intros Hn [i Hi]%list_elem_of_lookup [j Hj]%list_elem_of_lookup.
  assert (i = j) as ->; [|congruence].
  by apply (NoDup_lookup (map fst l) i j u); [done|rewrite list_lookup_fmap, ?Hi, ?Hj..].
Qed.
Lemma holders_snoc l u m :
  holders (l ++ [(u, m)]) = <[m := default [] (holders l !! m) ++ [u]]> (holders l).
Proof. unfold holders. by rewrite fold_left_app. Qed.
Lemma holders_lookup l n : holders l !! n = match users_on n l with [] => None | us => Some us end.
Proof.
  induction l as [|[u m] l IH] using rev_ind; [done|].
  rewrite holders_snoc, users_on_app.
  unfold users_on at 2. cbn [List.filter snd]. destruct (String.eqb_spec m n) as [->|Hm]; cbn [map fst].
  - rewrite lookup_insert_eq, IH. by destruct (users_on n l).
  - by rewrite lookup_insert_ne, app_nil_r.
Qed.
Lemma held_by_users l n : default [] (holders l !! n) = users_on n l.
Proof. rewrite holders_lookup. by destruct (users_on n l). Qed.

(** ** The two loops *)
Definition seats (cap : nat) (r : Rank) : nat := Nat.min (cap - held r) (held r).
(** What the first loop may take: everything but the first account of exits below
    the band. *)
Definition freed held_by poor (ranked : list Rank) (u : string) : Prop :=
  exists r, r ∈ ranked /\ SFleb poor (produced r) = false /\
    u ∈ take (held r - MIN_PER_NODE) (rev (held_by (r_node r))).
Lemma take_min_elem {A} (a b : nat) (l : list A) u : u ∈ take (Nat.min a b) l -> u ∈ take a l.
Proof. rewrite <- take_take. intros H. rewrite take_take, Nat.min_comm, <- take_take in H. by apply elem_of_take in H as (i & H & _); apply list_elem_of_lookup; exists i. Qed.
Lemma free_from_spec held_by poor budget ranked : NoDup (map r_node ranked) ->
  (forall n, NoDup (held_by n)) -> (forall n n' u, u ∈ held_by n -> u ∈ held_by n' -> n = n') ->
  forall spare, exists extra, free_from held_by poor budget ranked spare = spare ++ extra /\
    NoDup extra /\ (forall u, u ∈ extra -> freed held_by poor ranked u) /\
    (length (spare ++ extra) <= Nat.max budget (length spare))%nat.
Proof.
  intros Hn Hnd Hone. induction ranked as [|r ranked IH]; intros spare; cbn [free_from].
  { exists []. rewrite app_nil_r. split_and!; [done|constructor|by intros u Hu%not_elem_of_nil|lia]. }
  destruct (Nat.leb_spec budget (length spare)) as [Hb|Hb]; cbn [orb].
  { exists []. rewrite app_nil_r. split_and!; [done|constructor|by intros u Hu%not_elem_of_nil|lia]. }
  destruct (SFleb poor (produced r)) eqn:Ep.
  { exists []. rewrite app_nil_r. split_and!; [done|constructor|by intros u Hu%not_elem_of_nil|lia]. }
  cbn [map] in Hn. apply NoDup_cons in Hn as [Hr Hn]. cbv zeta.
  set (own := take _ (rev (held_by (r_node r)))).
  destruct (IH Hn (spare ++ own)) as (extra & He & Hnx & Hfx & Hlx).
  assert (Hown : forall u, u ∈ own -> u ∈ take (held r - MIN_PER_NODE) (rev (held_by (r_node r))))
    by (intros u; apply take_min_elem).
  assert (Hheld : forall n m u, u ∈ take m (rev (held_by n)) -> u ∈ held_by n).
  { intros n m u Hu. apply list_elem_of_In, in_rev, list_elem_of_In.
    rewrite <- (take_drop m (rev (held_by n))). apply elem_of_app. by left. }
  exists (own ++ extra). rewrite He, app_assoc. split_and!; [done|..].
  - apply NoDup_app. split_and!; [|intros u Hu Hx|done].
    + apply (sublist_NoDup _ (rev (held_by (r_node r)))); [|apply sublist_take].
      apply NoDup_ListNoDup, NoDup_rev, NoDup_ListNoDup, Hnd.
    + destruct (Hfx u Hx) as (r' & Hr' & _ & Hu'). apply Hr. apply list_elem_of_fmap. exists r'.
      split; [|done]. apply (Hone _ _ u); [apply (Hheld _ _ _ (Hown u Hu))|apply (Hheld _ _ _ Hu')].
  - intros u [Hu|Hu]%elem_of_app.
    + exists r. split_and!; [left|done|by apply Hown].
    + destruct (Hfx u Hu) as (r' & ? & ? & ?). exists r'. split_and!; [by right|done|done].
  - assert (Hlo : (length own <= budget - length spare)%nat)
      by (unfold own; rewrite length_take; lia).
    rewrite !length_app in *. lia.
Qed.
Lemma seat_from_spec node room spare moves :
  seat_from node room spare moves = (moves ++ map (fun u => (u, node)) (take room spare),
    if Nat.ltb (length spare) room then None else Some (drop room spare)).
Proof.
  revert spare moves. induction room as [|room IH]; intros spare moves; cbn [seat_from].
  - by rewrite app_nil_r.
  - destruct spare as [|u spare]; [by rewrite app_nil_r|]. rewrite IH. cbn [take map length drop].
    by rewrite <- app_assoc.
Qed.
Lemma held_on_same node us : held_on node (map (fun u => (u, node)) us) = length us.
Proof.
  unfold held_on, users_on. rewrite length_map.
  induction us as [|u us IH]; [done|]. cbn [map List.filter snd]. rewrite String.eqb_refl. cbn. by rewrite IH.
Qed.
Lemma hand_out_spec rich cap ranked : NoDup (map r_node ranked) -> forall spare moves, exists given,
  hand_out rich cap ranked spare moves = moves ++ given /\ map fst given `prefix_of` spare /\
  (forall u n, (u, n) ∈ given -> exists r, r ∈ ranked /\ r_node r = n /\ SFleb (produced r) rich = false) /\
  (forall r, r ∈ ranked -> (held_on (r_node r) given <= seats cap r)%nat).
Proof.
  intros Hn. induction ranked as [|r ranked IH]; intros spare moves; cbn [hand_out].
  { exists []. rewrite app_nil_r. split_and!; [done|apply prefix_nil|by intros u n H%not_elem_of_nil
      |by intros r H%not_elem_of_nil]. }
  cbn [map] in Hn. apply NoDup_cons in Hn as [Hr Hn].
  destruct (SFleb (produced r) rich) eqn:Er.
  { exists []. rewrite app_nil_r. split_and!; [done|apply prefix_nil|by intros u n H%not_elem_of_nil|].
    intros r' _. cbn. lia. }
  fold (seats cap r). rewrite seat_from_spec. set (own := map _ (take _ spare)).
  assert (Hfst : map fst own = take (seats cap r) spare)
    by (unfold own; rewrite map_map; cbn [fst]; apply map_id).
  assert (Hown : forall u n, (u, n) ∈ own -> n = r_node r)
    by (intros u n (x & [= _ ->] & _)%list_elem_of_fmap; done).
  assert (Hown0 : (held_on (r_node r) own <= seats cap r)%nat)
    by (unfold own; rewrite held_on_same, length_take; lia).
  assert (Hother : forall r', r' ∈ ranked -> held_on (r_node r') own = 0%nat).
  { intros r' Hr'. unfold held_on. destruct (users_on (r_node r') own) as [|u us] eqn:E; [done|].
    assert (Hu : u ∈ users_on (r_node r') own) by (rewrite E; left).
    apply elem_users_on, Hown in Hu. destruct Hr. rewrite <- Hu. by apply list_elem_of_fmap_2. }
  destruct (Nat.ltb (length spare) (seats cap r)).
  - exists own. split_and!; [done|rewrite Hfst; apply prefix_take| |].
    + intros u n Hu. exists r. split_and!; [left|symmetry; by eapply Hown|done].
    + intros r' [->|Hr']%elem_of_cons; [done|]. rewrite Hother by done. lia.
  - destruct (IH Hn (drop (seats cap r) spare) (moves ++ own)) as (given & He & Hp & Ht & Hs).
    exists (own ++ given). rewrite He, app_assoc. split_and!; [done|..].
    + rewrite map_app, Hfst. rewrite <- (take_drop (seats cap r) spare) at 2. by apply prefix_app.
    + intros u n [Hu|Hu]%elem_of_app.
      * exists r. split_and!; [left|symmetry; by eapply Hown|done].
      * destruct (Ht u n Hu) as (r' & ? & ? & ?). exists r'. split_and!; [by right|done|done].
    + assert (Hsplit : forall n, held_on n (own ++ given) = (held_on n own + held_on n given)%nat)
        by (intros n; unfold held_on; by rewrite users_on_app, length_app).
      intros r' [->|Hr']%elem_of_cons; rewrite Hsplit.
      * assert (held_on (r_node r) given = 0%nat); [|lia].
        unfold held_on. destruct (users_on (r_node r) given) as [|u us] eqn:E; [done|].
        assert (Hu : u ∈ users_on (r_node r) given) by (rewrite E; left).
        apply elem_users_on in Hu. destruct (Ht _ _ Hu) as (r'' & Hr'' & En & _).
        destruct Hr. rewrite <- En. by apply list_elem_of_fmap_2.
      * rewrite (Hother r' Hr'). by apply Hs.
Qed.

(** ** After a round *)
(** The bindings with the moves applied. *)
Definition moved (moves l : list binding) : list binding :=
  map (fun b => (fst b, default (snd b) ((list_to_map moves : gmap string string) !! fst b))) l.
Lemma moved_fst moves l : map fst (moved moves l) = map fst l.
Proof. unfold moved. rewrite map_map. done. Qed.
Lemma elem_moved moves l u n : NoDup (map fst moves) -> (u, n) ∈ moved moves l <->
  (u, n) ∈ l /\ u ∉ map fst moves \/ (u, n) ∈ moves /\ u ∈ map fst l.
Proof.
  intros Hn. unfold moved. rewrite list_elem_of_fmap. split.
  - intros ([u' n'] & [= -> ->] & Hl).
    destruct ((list_to_map moves : gmap string string) !! u') as [m|] eqn:E; cbn [default from_option id].
    + right. split; [by apply elem_of_list_to_map|]. apply list_elem_of_fmap. by exists (u', n').
    + left. split; [done|]. by apply not_elem_of_list_to_map.
  - intros [[Hl Hu]|[Hm Hu]].
    + exists (u, n). split; [|done]. cbn. by rewrite (proj1 (not_elem_of_list_to_map moves u) Hu).
    + apply list_elem_of_fmap in Hu as ([u' n0] & -> & Hl). exists (u', n0). split; [|done].
      cbn. by rewrite (proj1 (elem_of_list_to_map moves u' n Hn) Hm).
Qed.
Lemma held_on_moved n moves l : NoDup (map fst l) -> NoDup (map fst moves) ->
  (held_on n (moved moves l) <= held_on n l + held_on n moves)%nat.
Proof.
  intros Hl Hm. unfold held_on. rewrite <- length_app. apply NoDup_incl_length.
  - apply NoDup_ListNoDup, users_on_nodup. by rewrite moved_fst.
  - intros u Hu%list_elem_of_In. apply list_elem_of_In, elem_of_app. apply elem_users_on, elem_moved in Hu; [|done].
    rewrite !elem_users_on. tauto.
Qed.
Lemma last_stays (u : string) us : NoDup (u :: us) -> u ∉ take (length (u :: us) - 1) (rev (u :: us)).
Proof.
  intros [Hu _]%NoDup_cons. cbn [length rev]. rewrite Nat.sub_1_r. cbn [Nat.pred].
  rewrite take_app_le, take_ge by (rewrite length_rev; lia).
  intros H. apply Hu, list_elem_of_In, in_rev. by apply list_elem_of_In.
Qed.

(** ** The ranking *)
Lemma rank_le_total a b : rank_le a b = true \/ rank_le b a = true.
Proof.
  unfold rank_le. destruct (Z.lt_total (total_key (produced a)) (total_key (produced b))) as [H|[H|H]].
  - right. apply Z.ltb_lt in H. by rewrite H.
  - rewrite H, Z.ltb_irrefl, Z.eqb_refl. cbn. apply String.leb_total.
  - left. apply Z.ltb_lt in H. by rewrite H.
Qed.
Lemma exit_rank_le_spec a b : rank_le a b = true <->
  total_key (produced b) < total_key (produced a) \/
  total_key (produced b) = total_key (produced a) /\ String.leb (r_node a) (r_node b) = true.
Proof. unfold rank_le. by rewrite orb_true_iff, andb_true_iff, Z.ltb_lt, Z.eqb_eq. Qed.
Lemma rank_le_trans a b c : rank_le a b = true -> rank_le b c = true -> rank_le a c = true.
Proof.
  rewrite !exit_rank_le_spec. intros [H|[H1 H2]] [K|[K1 K2]]; [left; lia..|right].
  split; [lia|]. by apply (leb_trans_s _ (r_node b)).
Qed.

Section Rounds.
Context (walk : gmap string (list string) -> list (string * list string)).
Hypothesis walk_perm : forall m, walk m ≡ₚ map_to_list m.
Abbreviation ranking := (ranking walk).
Abbreviation rebalance := (rebalance walk).

Lemma ranking_nodes l tally : NoDup (map r_node (ranking l tally)).
Proof using walk_perm.
  unfold Balance.ranking. rewrite sort_by_perm, map_map.
  assert (E : map (fun x : string * list string => r_node (let '(node, held) := x in
    mkRank node (length held) (produced_by tally node))) (walk (holders l)) = map fst (walk (holders l)))
    by (apply map_ext; by intros []).
  rewrite E, walk_perm. apply NoDup_fst_map_to_list.
Qed.
Lemma ranking_elem l tally r : r ∈ ranking l tally <->
  r = mkRank (r_node r) (held_on (r_node r) l) (produced_by tally (r_node r)) /\ (0 < held_on (r_node r) l)%nat.
Proof using walk_perm.
  unfold Balance.ranking. rewrite sort_by_perm, walk_perm, list_elem_of_fmap. split.
  - intros ([n us] & -> & H%elem_of_map_to_list). rewrite holders_lookup in H. cbn [r_node].
    unfold held_on. destruct (users_on n l) as [|u us']; [done|]. injection H as <-. split; [done|cbn; lia].
  - intros [E Hp]. exists (r_node r, users_on (r_node r) l). split; [exact E|].
    apply elem_of_map_to_list. rewrite holders_lookup. unfold held_on in Hp.
    destruct (users_on (r_node r) l); [cbn in Hp; lia|done].
Qed.
(** The ranking does not depend on the order the map is walked in. *)
Lemma ranking_unique walk' l tally : (forall m, walk' m ≡ₚ map_to_list m) ->
  Balance.ranking walk' l tally = ranking l tally.
Proof using walk_perm.
  intros Hw. unfold Balance.ranking. apply (StronglySorted_unique_strong (fun a b => rank_le a b = true)).
  - intros a b Ha Hb. rewrite !exit_rank_le_spec. intros H1 H2.
    assert (En : r_node a = r_node b)
      by (destruct H1 as [?|[? ?]], H2 as [?|[? ?]]; [lia..|by apply String.leb_antisym]).
    rewrite sort_by_perm, Hw in Ha. rewrite sort_by_perm, walk_perm in Hb.
    apply list_elem_of_fmap in Ha as ([na ua] & -> & Ha%elem_of_map_to_list).
    apply list_elem_of_fmap in Hb as ([nb ub] & -> & Hb%elem_of_map_to_list). cbn in En. congruence.
  - apply sort_by_sorted; [apply rank_le_total|apply rank_le_trans].
  - apply sort_by_sorted; [apply rank_le_total|apply rank_le_trans].
  - rewrite !sort_by_perm, Hw, walk_perm. done.
Qed.
Lemma held_on_pos n l : (0 < held_on n l)%nat <-> exists u, (u, n) ∈ l.
Proof.
  unfold held_on. split.
  - intros H. destruct (users_on n l) as [|u us] eqn:E; [cbn in H; lia|]. exists u.
    apply elem_users_on. rewrite E. left.
  - intros [u Hu%elem_users_on]. destruct (users_on n l); [by apply not_elem_of_nil in Hu|cbn; lia].
Qed.
(** The moves of a round: bounded, once each, to seats, and never the first
    account of an exit. *)
Lemma moves_spec l tally cap : NoDup (map fst l) ->
  let moves := rebalance l tally cap in
  let middle := median (ranking l tally) in
  NoDup (map fst moves) /\ (length moves <= budget_of l)%nat /\
  (forall n, held_on n moves = 0%nat \/ (held_on n moves <= Nat.min (cap - held_on n l) (held_on n l))%nat) /\
  (forall u target, (u, target) ∈ moves -> exists from, (u, from) ∈ l /\ (0 < held_on target l)%nat /\
     SFleb (poor_below middle) (produced_by tally from) = false /\
     SFleb (produced_by tally target) (rich_above middle) = false /\
     u ∈ take (held_on from l - 1) (rev (users_on from l))).
Proof using walk_perm.
  intros Hl moves middle. unfold moves, Balance.rebalance. cbv zeta.
  destruct (Nat.ltb _ 2).
  { cbn. split_and!; [constructor|lia|by left|by intros u t H%not_elem_of_nil]. }
  fold middle. set (ranked := ranking l tally). set (held_by := fun n => default [] (holders l !! n)).
  assert (Hby : forall n, held_by n = users_on n l) by (intros n; apply held_by_users).
  assert (Hr : NoDup (map r_node ranked)) by apply ranking_nodes.
  destruct (free_from_spec held_by (poor_below middle) (budget_of l) (rev ranked)) with (spare := @nil string)
    as (spare & Es & Hns & Hfs & Hls).
  { rewrite map_rev. by apply NoDup_ListNoDup, NoDup_rev, NoDup_ListNoDup. }
  { intros n. rewrite Hby. by apply users_on_nodup. }
  { intros n n' u. rewrite !Hby, !elem_users_on. by apply one_node. }
  cbn [app length] in Es, Hls. rewrite Es.
  destruct (hand_out_spec (rich_above middle) cap ranked Hr spare []) as (given & Eg & Hp & Ht & Hs).
  rewrite Eg. cbn [app]. destruct Hp as [rest Hp].
  assert (Hgive : forall u, u ∈ map fst given -> u ∈ spare) by (intros u Hu; rewrite Hp; apply elem_of_app; by left).
  split_and!.
  - rewrite Hp in Hns. by apply NoDup_app in Hns as [? _].
  - apply (f_equal length) in Hp. rewrite length_app, length_map in Hp. cbn [app] in Hls.
    assert (budget_of l <> 0%nat) by (unfold budget_of; lia). lia.
  - intros n. destruct (held_on n given) as [|k] eqn:E; [by left|right].
    assert (Hpos : (0 < held_on n given)%nat) by lia. apply held_on_pos in Hpos as [u Hu].
    destruct (Ht u n Hu) as (r & Hr0 & En & _). pose proof (Hs r Hr0) as Hcap. rewrite En, E in Hcap.
    apply ranking_elem in Hr0 as [Er _]. unfold seats in Hcap. rewrite Er in Hcap. cbn [held] in Hcap.
    by rewrite En in Hcap.
  - intros u target Hu. destruct (Ht u target Hu) as (r & Hr0 & En & Hrich).
    apply ranking_elem in Hr0 as [Er Hpos]. rewrite En in Er, Hpos.
    destruct (Hfs u) as (d & Hd & Hpoor & Htake); [apply Hgive, list_elem_of_fmap; by exists (u, target)|].
    assert (Hd' : d ∈ ranked) by (apply list_elem_of_In, in_rev; by apply list_elem_of_In).
    apply ranking_elem in Hd' as [Ed _]. rewrite Ed in Hpoor, Htake. cbn [held produced r_node] in *.
    rewrite Hby in Htake. exists (r_node d). split_and!; try done.
    + apply elem_users_on, list_elem_of_In, in_rev, list_elem_of_In.
      rewrite <- (take_drop (held_on (r_node d) l - MIN_PER_NODE) (rev (users_on (r_node d) l))).
      apply elem_of_app. by left.
    + by rewrite Er in Hrich.
Qed.

(** C26: a round of the balancer moves accounts without ever emptying an exit.
    Every exit that had accounts keeps at least one and no other exit appears; no
    exit ends with more than it had, unless it at most doubled and stayed within
    the cap; at most an eighth of the pool (or one account) moves, each account
    once, from an exit whose sessions bring back less than three quarters of the
    median to one whose sessions bring back more than five quarters; and the
    moves do not depend on the order a hash map is walked in. *)
Theorem rebalance_spec l tally cap :
  NoDup (map fst l) ->
  let moves := rebalance l tally cap in
  let middle := median (ranking l tally) in
  (forall n, (0 < held_on n (moved moves l))%nat <-> (0 < held_on n l)%nat) /\
  (forall n, (held_on n (moved moves l) <= Nat.max (held_on n l) (Nat.min cap (2 * held_on n l)))%nat) /\
  NoDup (map fst moves) /\ (length moves <= budget_of l)%nat /\
  (forall u target, (u, target) ∈ moves -> exists from, (u, from) ∈ l /\ (0 < held_on target l)%nat /\
     SFleb (poor_below middle) (produced_by tally from) = false /\
     SFleb (produced_by tally target) (rich_above middle) = false) /\
  (forall walk', (forall m, walk' m ≡ₚ map_to_list m) -> Balance.rebalance walk' l tally cap = moves).
Proof using walk_perm.
  intros Hl moves middle. destruct (moves_spec l tally cap Hl) as (Hm & Hlen & Hseat & Hmove).
  fold moves in Hm, Hlen, Hseat, Hmove.
  split_and!; [intros n|intros n|done|done| |intros walk' Hw].
  - rewrite !held_on_pos. split.
    + intros (u & [[Hu _]|[Hu _]]%elem_moved); [by exists u| |done].
      destruct (Hmove u n Hu) as (_ & _ & Hpos & _). by apply held_on_pos in Hpos.
    + intros (u & Hu). apply elem_users_on in Hu. destruct (users_on n l) as [|h us] eqn:E; [by apply not_elem_of_nil in Hu|].
      assert (Hh : (h, n) ∈ l) by (apply elem_users_on; rewrite E; left).
      exists h. apply elem_moved; [done|]. left. split; [done|].
      intros ([h' t] & -> & Ht)%list_elem_of_fmap. destruct (Hmove h' t Ht) as (from & Hf & _ & _ & _ & Hin).
      cbn [fst] in *. assert (from = n) as -> by (by eapply (one_node h'); [exact Hl|..]).
      unfold held_on in Hin. rewrite E in Hin. revert Hin. apply last_stays. rewrite <- E. by apply users_on_nodup.
  - pose proof (held_on_moved n moves l Hl Hm). destruct (Hseat n) as [H0|H0]; lia.
  - intros u target Ht. destruct (Hmove u target Ht) as (from & ? & ? & ? & ? & _). by exists from.
  - unfold moves, Balance.rebalance. by rewrite (ranking_unique walk' l tally Hw).
Qed.
End Rounds.

(** ** The document of accounts after a round *)
Import Accounts.
Definition assign_one (b : binding) (a : StoredAccount) : StoredAccount :=
  if String.eqb (username a) (fst b) && is_refetch a then a <| node := snd b |> else a.
Definition assign (moves : list binding) (a : StoredAccount) : StoredAccount :=
  fold_left (fun a b => assign_one b a) moves a.
(** What a binding is read from. *)
Definition bound (a : StoredAccount) : option binding :=
  if enabled a && is_refetch a then
    let n := trim (node a) in if String.eqb n "" then None else Some (username a, n)
  else None.
Lemma refetch_bindings_bound pool : refetch_bindings pool = omap bound (accounts (document pool)).
Proof.
  unfold refetch_bindings. induction (accounts (document pool)) as [|a l IH]; [done|].
  cbn [List.filter omap list_omap]. unfold bound at 1. destruct (enabled a && is_refetch a); cbn; [|exact IH].
  destruct (String.eqb (trim (node a)) ""); [exact IH|]. f_equal. exact IH.
Qed.
Lemma nodes_dedup_elem l x : x ∈ Accounts.dedup l <-> x ∈ l.
Proof.
  induction l as [|a l IH]; [done|]. cbn [Accounts.dedup]. destruct l as [|b l]; [done|].
  destruct (String.eqb_spec a b) as [->|]; [|by rewrite !elem_of_cons, IH, !elem_of_cons].
  rewrite IH, !elem_of_cons. tauto.
Qed.
Lemma refetch_nodes_elem pool n : n ∈ refetch_nodes pool <-> (0 < held_on n (refetch_bindings pool))%nat.
Proof.
  rewrite held_on_pos, refetch_bindings_bound. unfold refetch_nodes.
  rewrite nodes_dedup_elem, sort_by_perm, list_elem_of_In, filter_In, in_map_iff.
  setoid_rewrite list_elem_of_omap. setoid_rewrite filter_In. unfold bound. split.
  - intros ((a & <- & Ha & Hr) & Hn). apply negb_true_iff in Hn. exists (username a), a.
    split; [by apply list_elem_of_In|]. by rewrite Hr, Hn.
  - intros (u & a & Ha & Hb). destruct (enabled a && is_refetch a) eqn:Hr; [|done].
    destruct (String.eqb (trim (node a)) "") eqn:Hn; [done|]. injection Hb as _ <-.
    rewrite Hn. split; [|done]. exists a. split_and!; [done|by apply list_elem_of_In|done].
Qed.

Section Documents.
Context (to_lowercase : string -> string).
(** [str::to_lowercase] refines the comparison that ignores the case of ASCII. *)
Hypothesis lowercase_ascii : forall a b, to_ascii_lowercase a = to_ascii_lowercase b -> to_lowercase a = to_lowercase b.
Abbreviation account_key := (account_key to_lowercase).
Implicit Types (l : list StoredAccount) (moves : list binding).

Definition trimmed (a : StoredAccount) : Prop := trim (username a) = username a.
Lemma same_account l a b : Forall trimmed l -> NoDup (map account_key l) -> a ∈ l -> b ∈ l ->
  eq_ignore_ascii_case (username a) (username b) = true -> a = b.
Proof using lowercase_ascii.
  intros Ht Hn Ha Hb He%String.eqb_eq%lowercase_ascii. rewrite Forall_forall in Ht.
  apply list_elem_of_lookup in Ha as [i Hi], Hb as [j Hj].
  assert (i = j) as ->; [|congruence].
  apply (NoDup_lookup (map account_key l) i j (account_key a)); [done|by rewrite list_lookup_fmap, Hi|].
  rewrite list_lookup_fmap, Hj. cbn. f_equal. unfold Accounts.account_key.
  rewrite !Ht; [done|by eapply list_elem_of_lookup_2..].
Qed.
Lemma update_first_map (p : StoredAccount -> bool) f l : NoDup (map account_key l) ->
  (forall a b, a ∈ l -> b ∈ l -> p a = true -> p b = true -> a = b) ->
  update_first p f l = map (fun a => if p a then f a else a) l.
Proof.
  induction l as [|a l IH]; [done|]. cbn [map]. intros [Ha Hn]%NoDup_cons Hu. cbn [update_first].
  destruct (p a) eqn:Ep.
  - f_equal. symmetry. rewrite <- (map_id l) at 2. apply map_ext_in. intros b Hb%list_elem_of_In.
    destruct (p b) eqn:Eb; [|done]. destruct Ha.
    rewrite (Hu a b); [by apply list_elem_of_fmap_2|by left|by right|done|done].
  - f_equal. apply IH; [done|]. intros b c Hb Hc. apply Hu; by right.
Qed.
Lemma rebind_assign moves l : Forall trimmed l -> NoDup (map account_key l) ->
  (forall u n, (u, n) ∈ moves -> exists a, a ∈ l /\ username a = u) ->
  fst (rebind moves l) = map (assign moves) l.
Proof using lowercase_ascii.
  intros Ht Hn Hm. unfold rebind. generalize 0. revert l Ht Hn Hm.
  induction moves as [|[u n] moves IH]; intros l Ht Hn Hm z; cbn [fold_left].
  { cbn. symmetry. apply map_id. }
  set (p := fun a => eq_ignore_ascii_case (username a) u && is_refetch a).
  destruct (Hm u n) as (b & Hb & Hbu); [left|].
  assert (Hp : forall a, a ∈ l -> p a = String.eqb (username a) u && is_refetch a).
  { intros a Ha. unfold p. f_equal. destruct (String.eqb_spec (username a) u) as [->|Hne]; [apply String.eqb_refl|].
    destruct (eq_ignore_ascii_case (username a) u) eqn:E; [|done]. destruct Hne. rewrite <- Hbu in E |- *.
    by rewrite (same_account l a b). }
  assert (Hone : map (assign_one (u, n)) l = map (fun a => if p a then a <| node := n |> else a) l).
  { apply map_ext_in. intros a Ha%list_elem_of_In. rewrite (Hp a Ha). done. }
  assert (Hstep : (match List.find p l with
      | Some a => if String.eqb (node a) n then (l, z) else (update_first p (fun a => a <| node := n |>) l, z + 1)
      | None => (l, z)
      end).1 = map (assign_one (u, n)) l).
  { rewrite Hone. assert (Huniq : forall a c, a ∈ l -> c ∈ l -> p a = true -> p c = true -> a = c).
    { intros a c Ha Hc. rewrite (Hp a Ha), (Hp c Hc). intros [E1%String.eqb_eq _]%andb_true_iff [E2%String.eqb_eq _]%andb_true_iff.
      apply (same_account l); [done..|]. rewrite E1, E2. apply String.eqb_refl. }
    destruct (List.find p l) as [a|] eqn:Ef.
    - apply List.find_some in Ef as [Ha%list_elem_of_In Hpa]. destruct (String.eqb_spec (node a) n) as [En|_].
      + cbn [fst]. rewrite <- (map_id l) at 1. apply map_ext_in. intros c Hc%list_elem_of_In.
        destruct (p c) eqn:Ec; [|done]. assert (c = a) as -> by by apply Huniq.
        rewrite <- En. by destruct a.
      + cbn [fst]. by apply update_first_map.
    - cbn [fst]. rewrite <- (map_id l) at 1. apply map_ext_in. intros c Hc.
      by rewrite (List.find_none _ _ Ef c Hc). }
  destruct (match List.find p l with Some _ => _ | None => _ end) as [l1 z1]. cbn [fst] in Hstep. subst l1.
  rewrite IH.
  - rewrite map_map. done.
  - apply Forall_map. refine (Forall_impl _ _ _ Ht _). intros a. unfold trimmed, assign_one. by case_match.
  - rewrite map_map. erewrite map_ext; [exact Hn|]. intros a. unfold assign_one. by case_match.
  - intros u' n' Hin. destruct (Hm u' n') as (a & Ha & Hau); [by right|]. exists (assign_one (u, n) a).
    split; [by apply list_elem_of_fmap_2|]. unfold assign_one. by case_match.
Qed.
Lemma assign_same moves a :
  username (assign moves a) = username a /\ enabled (assign moves a) = enabled a /\
  is_refetch (assign moves a) = is_refetch a.
Proof.
  unfold assign. revert a. induction moves as [|b moves IH]; intros a; [done|]. cbn [fold_left].
  destruct (IH (assign_one b a)) as (-> & -> & ->). unfold assign_one. by case_match.
Qed.
Lemma assign_other moves a : username a ∉ map fst moves -> assign moves a = a.
Proof.
  unfold assign. induction moves as [|[u n] moves IH]; [done|]. cbn [map fst fold_left].
  intros [Hu Hm]%not_elem_of_cons. unfold assign_one at 2. cbn [fst].
  rewrite (proj2 (String.eqb_neq _ _) Hu). by apply IH.
Qed.
Lemma assign_node moves a : NoDup (map fst moves) -> is_refetch a = true ->
  node (assign moves a) = default (node a) ((list_to_map moves : gmap string string) !! username a).
Proof.
  unfold assign. revert a. induction moves as [|[u n] moves IH]; intros a Hn Hr; [done|].
  cbn [map fst] in Hn. apply NoDup_cons in Hn as [Hu Hn]. cbn [fold_left list_to_map foldr]. cbn [fst snd uncurry].
  destruct (decide (u = username a)) as [->|Hne].
  - rewrite lookup_insert_eq. change (fold_left (fun a b => assign_one b a) moves) with (assign moves).
    rewrite assign_other; unfold assign_one; cbn [fst]; by rewrite String.eqb_refl, Hr.
  - rewrite lookup_insert_ne by done. unfold assign_one at 2. cbn [fst].
    rewrite (proj2 (String.eqb_neq _ _)) by congruence. by apply IH.
Qed.
Lemma bound_inv a u n : bound a = Some (u, n) ->
  username a = u /\ trim n = n /\ n <> "" /\ is_refetch a = true /\ enabled a = true.
Proof.
  unfold bound. destruct (enabled a && is_refetch a) eqn:E; [|done]. apply andb_true_iff in E as [H1 H2].
  destruct (String.eqb_spec (trim (node a)) "") as [|Hne]; [done|]. intros [= <- <-].
  split_and!; [done|apply trim_trim|done..].
Qed.
(** The rows after the moves are bound as the moved bindings say. *)
Lemma bound_assign moves l : NoDup (map username l) -> NoDup (map fst moves) ->
  (forall u n, (u, n) ∈ moves -> u ∈ map fst (omap bound l) /\ trim n = n /\ n <> "") ->
  omap bound (map (assign moves) l) = moved moves (omap bound l).
Proof.
  intros Hl Hm Hmoves.
  assert (Hstep : forall a, a ∈ l -> bound (assign moves a) =
    (fun b : binding => (fst b, default (snd b) ((list_to_map moves : gmap string string) !! fst b))) <$> bound a).
  { intros a Ha. destruct (assign_same moves a) as (Hu & He & Hr). unfold bound at 1.
    rewrite He, Hr, Hu. unfold bound. destruct (enabled a && is_refetch a) eqn:E; [|done].
    apply andb_true_iff in E as [He' Hr']. rewrite assign_node by done.
    destruct ((list_to_map moves : gmap string string) !! username a) as [n|] eqn:El; cbn.
    - pose proof (elem_of_list_to_map_2 _ _ _ El) as (Hin & Ht & Hne)%Hmoves. rewrite Ht.
      destruct (String.eqb_spec n ""); [done|].
      assert (Hb : exists m, bound a = Some (username a, m)).
      { apply list_elem_of_fmap in Hin as ([u m] & Eu & Hin). cbn in Eu. subst u.
        apply list_elem_of_omap in Hin as (b & Hb & Eb). exists m.
        assert (a = b) as ->; [|done]. destruct (bound_inv b _ _ Eb) as [Eu _].
        apply list_elem_of_lookup in Ha as [i Hi], Hb as [j Hj].
        assert (i = j) as ->; [|congruence].
        apply (NoDup_lookup (map username l) i j (username a)); [done|by rewrite list_lookup_fmap, Hi|].
        rewrite list_lookup_fmap, Hj. cbn. by rewrite Eu. }
      destruct Hb as [m Hb]. unfold bound in Hb. rewrite He', Hr' in Hb. cbn in Hb.
      destruct (String.eqb (trim (node a)) ""); [done|]. cbn. by rewrite El.
    - destruct (String.eqb (trim (node a)) ""); [done|]. cbn. by rewrite El. }
  clear Hl Hmoves. unfold moved. induction l as [|a l IH]; [done|]. cbn [map omap list_omap].
  rewrite Hstep by left. destruct (bound a); cbn [fmap option_fmap option_map map];
    rewrite IH by (intros; apply Hstep; by right); done.
Qed.
(** [update] keeps what a binding is read from. *)
Lemma bound_restore fresh stored a : trimmed a -> bound (restore_row fresh stored a) = bound a.
Proof. intros Ht. unfold bound, restore_row, is_refetch. cbn. by rewrite Ht. Qed.
Lemma update_bindings now fresh written d pool : Forall trimmed (accounts d) ->
  let '(pool', r) := update to_lowercase now fresh written d pool in
  (pool' = pool \/ refetch_bindings pool' = omap bound (accounts d)) /\
  forall x, r = Ok x -> refetch_bindings pool' = omap bound (accounts d).
Proof.
  intros Ht. unfold update. cbv zeta. destruct (negb _); [by split; [left|]|].
  destruct (List.find _ _); [by split; [left|]|]. destruct (validate _ _); [|by split; [left|]..].
  unfold store. destruct written; [|by split; [left|]].
  rewrite refetch_bindings_bound. cbn [document accounts].
  assert (E : omap bound (imap (fun i a => restore_row (fresh i) (accounts (document pool)) a) (accounts d))
    = omap bound (accounts d)); [|rewrite E; split; [by right|done]].
  generalize (accounts (document pool)) as stored. intros stored. revert fresh.
  induction Ht as [|b l Hb _ IH]; intros fresh; [done|]. rewrite imap_cons. cbn [omap list_omap].
  rewrite (bound_restore _ _ _ Hb). pose proof (IH (fun i => fresh (S i))) as IH'. unfold compose.
  by rewrite IH'.
Qed.
Lemma usernames_nodup l : Forall trimmed l -> NoDup (map account_key l) ->
  NoDup (map username l) /\ NoDup (map fst (omap bound l)).
Proof.
  intros Ht Hn. assert (Hu : NoDup (map username l)).
  { apply (NoDup_fmap_1 to_lowercase). change (NoDup (map to_lowercase (map username l))).
    rewrite map_map. erewrite map_ext_in; [exact Hn|]. intros a Ha%list_elem_of_In. unfold Accounts.account_key.
    rewrite Forall_forall in Ht. by rewrite (Ht a Ha). }
  split; [done|]. apply (sublist_NoDup _ (map username l)); [done|]. clear.
  induction l as [|a l IH]; [constructor|]. cbn [omap list_omap map].
  destruct (bound a) as [[u n]|] eqn:E; [|by constructor].
  destruct (bound_inv a u n E) as [<- _]. by constructor.
Qed.

(** A round of the balancer never changes the set of exits. Whatever the
    counters say and whether the write succeeds or not, the accounts' document
    names the same exits after the round as before it, so the proxy core is not
    reconfigured; when the write succeeds, exactly the moves of [rebalance_spec]
    are in force; and the counters start over with the live sessions kept. *)
Theorem round_keeps_the_exits walk now fresh written tally pool :
  (forall m, walk m ≡ₚ map_to_list m) ->
  reachable_pool to_lowercase pool -> Forall trimmed (accounts (document pool)) ->
  let bindings := refetch_bindings pool in
  let moves := rebalance walk bindings tally (Z.to_nat (cap_for bindings tally)) in
  let '(tally', (pool', r)) := balance_round walk to_lowercase now fresh written tally pool in
  (forall n, n ∈ refetch_nodes pool' <-> n ∈ refetch_nodes pool) /\
  (forall x, r = Ok x -> refetch_bindings pool' = moved moves bindings) /\
  (forall n t, tally' !! n = Some t -> exists t0, tally !! n = Some t0 /\
     t = mkTally 0 0 0 (sessions t0)).
Proof using lowercase_ascii.
  intros Hw Hp Ht bindings moves. unfold balance_round. fold bindings moves.
  destruct (reachable_pool_wf to_lowercase pool Hp) as [[_ Hk]%validate_spec _].
  destruct (usernames_nodup _ Ht Hk) as [Hu Hb]. rewrite <- refetch_bindings_bound in Hb. fold bindings in Hb.
  destruct (rebalance_spec walk Hw bindings tally (Z.to_nat (cap_for bindings tally)) Hb)
    as (Hkeep & _ & Hm & _ & Hmoves & _). fold moves in Hkeep, Hm, Hmoves.
  assert (Htally : forall n t, (reset <$> tally) !! n = Some t ->
    exists t0, tally !! n = Some t0 /\ t = mkTally 0 0 0 (sessions t0)).
  { intros n t. rewrite lookup_fmap. destruct (tally !! n) as [t0|]; [|done]. intros [= <-]. by exists t0. }
  assert (Hin : forall u n, (u, n) ∈ moves -> u ∈ map fst (omap bound (accounts (document pool))) /\
    (exists a, a ∈ accounts (document pool) /\ username a = u) /\ trim n = n /\ n <> "").
  { intros u n H. destruct (Hmoves u n H) as (from & Hf & Hpos & _). unfold bindings in Hf, Hpos.
    rewrite refetch_bindings_bound in Hf, Hpos. apply held_on_pos in Hpos as (v & Hv).
    apply list_elem_of_omap in Hv as (c & _ & Ec). split; [apply list_elem_of_fmap; by exists (u, from)|].
    apply list_elem_of_omap in Hf as (a & Ha & Ea). split; [exists a; split; [done|]; by apply bound_inv in Ea as [? _]|].
    by apply bound_inv in Ec as (_ & ? & ? & _). }
  pose proof (rebind_assign moves (accounts (document pool)) Ht Hk (fun u n H => proj1 (proj2 (Hin u n H)))) as Hrb.
  pose proof (bound_assign moves (accounts (document pool)) Hu Hm) as Hba.
  rewrite <- refetch_bindings_bound in Hba. fold bindings in Hba. clearbody moves.
  set (run := match moves with [] => (pool, Ok 0) | _ => _ end).
  assert (Hrun : (fst run = pool \/ refetch_bindings (fst run) = moved moves bindings) /\
    forall x, snd run = Ok x -> refetch_bindings (fst run) = moved moves bindings).
  { subst run. destruct moves as [|b moves].
    - cbn [fst snd]. split; [by left|]. intros _ _. unfold moved. cbn.
      rewrite <- (map_id (refetch_bindings pool)) at 1. apply map_ext. by intros [].
    - unfold rebind_nodes. destruct (rebind _ _) as [rows moved_] eqn:Er. cbn [fst] in Hrb.
      assert (Htr : Forall trimmed (accounts ((document pool) <| accounts := rows |>))).
      { cbn. rewrite Hrb. apply Forall_map. refine (Forall_impl _ _ _ Ht _). intros a.
        unfold trimmed. by rewrite (proj1 (assign_same _ a)). }
      pose proof (update_bindings now fresh written _ pool Htr) as Hup.
      destruct (update _ _ _ _ _ pool) as [pool' r]. cbn [fst snd accounts] in *. cbn in Hup. rewrite Hrb in Hup.
      rewrite Hba in Hup by (intros u n H; destruct (Hin u n H) as (Hu' & _ & ? & ?); split;
        [unfold bindings; by rewrite refetch_bindings_bound|done]).
      split; [apply Hup|]. destruct r as [x| |]; [|done..]. intros _ _. by apply (proj2 Hup x). }
  clearbody run. destruct run as [pool' r]. cbn [fst snd] in Hrun. split_and!; [|by apply Hrun|done].
  intros n. rewrite !refetch_nodes_elem. destruct Hrun as [[-> | ->] _]; [done|apply Hkeep].
Qed.
End Documents.

(** ** The queue of the broker *)
(** The requests kept in the air cover every session, and the ones behind them
    drain within a third of the broker's claim time-out, at every pacing the
    configuration allows and for every size of the pool: [workers] sessions that
    take one request per [delay] milliseconds empty the queue of the rest in
    [(in flight - workers) * delay / workers] milliseconds. *)
Theorem queue_fits_the_claim_timeout workers delay :
  1 <= workers <= u64_max -> 0 <= delay <= MAX_REQUEST_DELAY_MS ->
  let n := in_flight_for workers delay in
  workers <= n <= Z.max (4 * workers) 1000 /\
  (n - workers) * delay <= workers * (CLAIM_TIMEOUT_MS / 3).
Proof.
  intros Hw Hd n. subst n. unfold u64_max, MAX_REQUEST_DELAY_MS in *. unfold in_flight_for, sat_mul_usize, QUEUE_PER_SESSION, MIN_IN_FLIGHT, CLAIM_TIMEOUT_MS, u64_max.
  change (180000 / 3) with 60000. rewrite (Z.max_l workers 1) by lia.
  set (p := 60000 / Z.max delay 1).
  assert (Hp : 0 <= p /\ p * delay <= 60000).
  { split; [apply Z.div_pos; lia|]. destruct (Z.eq_dec delay 0) as [->|]; [lia|].
    unfold p. rewrite Z.max_l by lia. rewrite Z.mul_comm. apply Z.mul_div_le. lia. }
  assert (workers <= workers * (1 + p)) by nia.
  split; [lia|].
  transitivity ((workers * p) * delay); [|nia].
  apply Z.mul_le_mono_nonneg_r; lia.
Qed.

(** ** The rate meter *)
Section Rate.
Implicit Types (ss : list Z) (now s : Z).
Definition hits ss : RateWindow := fold_left (fun w s => hit s w) ss default_rate.
Definition class ss (i : nat) : list Z := List.filter (fun s => Z.to_nat (s mod 30) =? i)%nat ss.
Definition occurrences s ss : Z := zlen (List.filter (Z.eqb s) ss).
Definition slot_of ss (i : nat) : Z * Z :=
  match last (class ss i) with Some s => (s, occurrences s ss) | None => (0, 0) end.
Lemma class_snoc ss s i : class (ss ++ [s]) i = class ss i ++ (if (Z.to_nat (s mod 30) =? i)%nat then [s] else []).
Proof. unfold class. rewrite List.filter_app. cbn [List.filter]. by destruct (_ =? _)%nat. Qed.
Lemma occurrences_snoc ss s t : occurrences t (ss ++ [s]) = occurrences t ss + (if t =? s then 1 else 0).
Proof. unfold occurrences. rewrite List.filter_app, zlen_app. cbn [List.filter]. by destruct (t =? s). Qed.
Lemma class_elem ss i s : s ∈ class ss i <-> s ∈ ss /\ Z.to_nat (s mod 30) = i.
Proof. unfold class. by rewrite list_elem_of_In, filter_In, Nat.eqb_eq, <- list_elem_of_In. Qed.
(** In an increasing list the last of a class is its greatest. *)
Lemma class_last ss i m : StronglySorted Z.le ss -> last (class ss i) = Some m ->
  m ∈ class ss i /\ forall s, s ∈ class ss i -> s <= m.
Proof.
  intros Hs Hl. split; [by apply last_Some_elem_of|].
  assert (Hsc : StronglySorted Z.le (class ss i)).
  { clear Hl. unfold class. induction Hs as [|a l _ IH Hf]; cbn [List.filter]; [constructor|].
    destruct (_ =? _)%nat; [|done]. constructor; [done|]. rewrite Forall_forall in *.
    intros b Hb%list_elem_of_In. apply filter_In in Hb as [Hb _]. by apply Hf, list_elem_of_In. }
  apply last_Some in Hl as [l' E]. rewrite E in *. intros s [Hin|Hin]%elem_of_app.
  - apply StronglySorted_app in Hsc as (H & _ & _). by apply H; [|left].
  - apply list_elem_of_singleton in Hin. lia.
Qed.
Lemma occurrences_none s ss : s ∉ ss -> occurrences s ss = 0.
Proof.
  intros H. unfold occurrences. induction ss as [|a ss IH]; [done|]. apply not_elem_of_cons in H as [Ha H].
  cbn [List.filter]. destruct (Z.eqb_spec s a); [done|]. by apply IH.
Qed.
Lemma occurrences_le s ss : 0 <= occurrences s ss <= zlen ss.
Proof.
  split; [apply zlen_nonneg|]. unfold occurrences, zlen. pose proof (List.filter_length_le (Z.eqb s) ss). lia.
Qed.
Lemma hits_slots ss : StronglySorted Z.le ss -> Forall (fun s => 0 <= s) ss -> zlen ss < 2 ^ 32 ->
  buckets (hits ss) = map (slot_of ss) (seq 0 30).
Proof.
  unfold hits. induction ss as [|s ss IH] using rev_ind; [done|]. intros Hs H0 Hlen.
  rewrite fold_left_app. cbn [fold_left hit buckets]. rewrite zlen_app in Hlen. change (zlen [s]) with 1 in Hlen.
  apply StronglySorted_app in Hs as (Hle & Hs & _). apply Forall_app in H0 as [H0 _].
  rewrite (IH Hs H0 ltac:(lia)). apply list_eq. intros i. rewrite list_lookup_fmap.
  destruct (decide (i < 30)%nat) as [Hi|Hi]; cycle 1.
  { rewrite (lookup_ge_None_2 (seq 0 30)) by (rewrite length_seq; lia). cbn [fmap option_fmap option_map].
    apply lookup_ge_None_2. rewrite length_alter, length_map, length_seq. lia. }
  rewrite lookup_seq_lt by done. cbn [fmap option_fmap option_map Nat.add].
  assert (Hslot : forall k, (k < 30)%nat -> map (slot_of ss) (seq 0 30) !! k = Some (slot_of ss k)).
  { intros k Hk. rewrite list_lookup_fmap, lookup_seq_lt by done. done. }
  unfold slot_of at 2. rewrite class_snoc.
  destruct (decide (Z.to_nat (s mod 30) = i)) as [Ei|Ei]; cycle 1.
  { rewrite list_lookup_alter_ne, (Hslot i Hi) by done. rewrite (proj2 (Nat.eqb_neq _ _) Ei), app_nil_r.
    unfold slot_of. destruct (last (class ss i)) as [m|] eqn:El; [|done]. rewrite occurrences_snoc.
    destruct (Z.eqb_spec m s) as [->|]; [|by rewrite Z.add_0_r].
    apply last_Some_elem_of, class_elem in El as [_ ?]. done. }
  rewrite Ei, list_lookup_alter_eq, (Hslot i Hi), Nat.eqb_refl, last_snoc. cbn [fmap option_fmap option_map].
  f_equal. rewrite occurrences_snoc, Z.eqb_refl. pose proof (occurrences_le s ss).
  unfold slot_of. destruct (last (class ss i)) as [m|] eqn:El; cbn [fst snd].
  - destruct (Z.eqb_spec m s) as [->|Hne]; [by rewrite as_u32_small by (unfold in_u32; lia)|].
    rewrite occurrences_none; [done|]. intros Hin. destruct (class_last ss i m Hs El) as [Hm Hmax].
    apply class_elem in Hm as [Hm _]. assert (s <= m) by (apply Hmax, class_elem; done).
    specialize (Hle m s Hm ltac:(left)). lia.
  - assert (Hn : s ∉ ss).
    { intros Hin. apply last_None in El. assert (Hc : s ∈ class ss i) by by apply class_elem.
      rewrite El in Hc. by apply not_elem_of_nil in Hc. }
    rewrite (occurrences_none s ss Hn). destruct (Z.eqb_spec 0 s) as [<-|]; done.
Qed.

Definition in_window now s : bool := now - s <? 30.
Lemma filter_filter {A} (p q : A -> bool) l : List.filter p (List.filter q l) = List.filter (fun x => q x && p x) l.
Proof. induction l as [|a l IH]; [done|]. cbn [List.filter]. destruct (q a); cbn [List.filter andb]; by rewrite IH. Qed.
Lemma slot_contribution now ss i : StronglySorted Z.le ss -> Forall (fun s => 0 <= s <= now) ss ->
  (if sat_sub now (fst (slot_of ss i)) <? 30 then snd (slot_of ss i) else 0)
  = zlen (List.filter (in_window now) (class ss i)).
Proof.
  intros Hs Hb. rewrite Forall_forall in Hb. unfold slot_of.
  destruct (last (class ss i)) as [m|] eqn:El; cbn [fst snd]; cycle 1.
  { apply last_None in El. rewrite El. by destruct (_ <? _). }
  destruct (class_last ss i m Hs El) as [[Hm Em]%class_elem Hmax]. pose proof (Hb m Hm) as Hbm.
  unfold sat_sub, class at 1. rewrite filter_filter. destruct (Z.ltb_spec (Z.max (now - m) 0) 30).
  - unfold occurrences. f_equal. apply filter_ext_in. intros s Hin%list_elem_of_In.
    pose proof (Hb s Hin) as Hbs. unfold in_window. apply eq_true_iff_eq.
    rewrite andb_true_iff, Nat.eqb_eq, Z.ltb_lt, Z.eqb_eq. split; [intros <-; split; [done|lia]|].
    intros [E Hw]. assert (s <= m) by (apply Hmax, class_elem; done).
    pose proof (Z.mod_pos_bound m 30 ltac:(lia)). pose proof (Z.mod_pos_bound s 30 ltac:(lia)).
    assert (Emod : m mod 30 = s mod 30) by lia.
    pose proof (Z.div_mod m 30 ltac:(lia)). pose proof (Z.div_mod s 30 ltac:(lia)). lia.
  - assert (E : List.filter (fun s => (Z.to_nat (s mod 30) =? i)%nat && in_window now s) ss = []); [|by rewrite E].
    destruct (List.filter _ ss) as [|a l] eqn:E; [done|]. exfalso.
    assert (Ha : In a (a :: l)) by by left. rewrite <- E in Ha. apply filter_In in Ha as [Ha Hc].
    apply andb_true_iff in Hc as [Hc%Nat.eqb_eq Hw%Z.ltb_lt]. apply list_elem_of_In in Ha.
    assert (a <= m) by (apply Hmax, class_elem; done). lia.
Qed.
Definition sum_over (f : nat -> Z) (l : list nat) : Z := fold_right (fun i n => f i + n) 0 l.
Lemma sum_slots p (f : nat -> Z * Z) l :
  fold_right (fun slot n => snd slot + n) 0 (List.filter p (map f l))
  = sum_over (fun i => if p (f i) then snd (f i) else 0) l.
Proof.
  induction l as [|i l IH]; [done|]. cbn [map List.filter sum_over fold_right].
  destruct (p (f i)); cbn [fold_right]; by rewrite IH.
Qed.
Lemma sum_ext f g l : (forall i, i ∈ l -> f i = g i) -> sum_over f l = sum_over g l.
Proof.
  intros H. induction l as [|i l IH]; [done|]. cbn [sum_over fold_right]. rewrite (H i) by left.
  f_equal. apply IH. intros j Hj. apply H. by right.
Qed.
Lemma sum_one f k c l : NoDup l -> k ∈ l ->
  sum_over (fun i => (if (k =? i)%nat then c else 0) + f i) l = c + sum_over f l.
Proof.
  induction l as [|i l IH]; [by intros _ ?%not_elem_of_nil|].
  intros [Hi Hn]%NoDup_cons. cbn [sum_over fold_right]. destruct (Nat.eqb_spec k i) as [->|Hne].
  - intros _. fold (sum_over f l). fold (sum_over (fun j => (if (i =? j)%nat then c else 0) + f j) l).
    rewrite (sum_ext (fun j => (if (i =? j)%nat then c else 0) + f j) f); [lia|].
    intros j Hj. destruct (Nat.eqb_spec i j) as [->|]; [done|lia].
  - intros [?|Hk]%elem_of_cons; [done|]. fold (sum_over f l).
    fold (sum_over (fun j => (if (k =? j)%nat then c else 0) + f j) l). rewrite (IH Hn Hk). lia.
Qed.
Lemma sum_classes p ss : sum_over (fun i => zlen (List.filter p (class ss i))) (seq 0 30)
  = zlen (List.filter p ss).
Proof.
  induction ss as [|s ss IH]; [done|].
  rewrite (sum_ext _ (fun i => (if (Z.to_nat (s mod 30) =? i)%nat then (if p s then 1 else 0) else 0)
    + zlen (List.filter p (class ss i)))).
  - rewrite sum_one, IH; [cbn [List.filter]; destruct (p s); rewrite ?zlen_cons; lia|apply NoDup_seq|].
    apply elem_of_seq. pose proof (Z.mod_pos_bound s 30 ltac:(lia)). lia.
  - intros i _. unfold class. cbn [List.filter]. destruct (_ =? i)%nat; cbn [List.filter]; [|done].
    destruct (p s); rewrite ?zlen_cons; lia.
Qed.

(** The meter counts every record of the last thirty seconds and no other,
    however fast they land. After any completions, in the order their seconds
    passed, the rate at second [now] is their number among the last thirty seconds
    over thirty, and zero for fewer than two. *)
Theorem rate_counts_the_window ss now :
  StronglySorted Z.le ss -> Forall (fun s => 0 <= s <= now) ss -> zlen ss < 2 ^ 32 ->
  let recent := zlen (List.filter (fun s => now - s <? 30) ss) in
  qps now (hits ss) = if recent <? 2 then f64_of 0 else f64_div (f64_of recent) (f64_of 30).
Proof.
  intros Hs Hb Hlen recent.
  assert (Hlive : live now (hits ss) = recent).
  { unfold live. rewrite hits_slots; [|done|refine (Forall_impl _ _ _ Hb _); lia|done].
    rewrite sum_slots, (sum_ext _ (fun i => zlen (List.filter (in_window now) (class ss i)))).
    - rewrite sum_classes. change recent with (zlen (List.filter (in_window now) ss)). apply as_u32_small. unfold in_u32, zlen in *.
      pose proof (List.filter_length_le (in_window now) ss). lia.
    - intros i _. by apply slot_contribution. }
  unfold qps, qps_at. rewrite Hlive. destruct (started (hits ss)) eqn:E; [done|].
  destruct ss as [|s ss _] using rev_ind; [done|]. unfold hits in E. rewrite fold_left_app in E. done.
Qed.
End Rate.

(** ** Witnesses *)
Definition toy_spread : list binding := spread_of [("fast", 4); ("slow", 9)]%nat.
Definition toy_tally : gmap string NodeTally := tally_of [("fast", (400, 4)); ("slow", (9, 9))].
Lemma toy_spread_nodup : NoDup (map fst toy_spread).
Proof. apply (bool_decide_unpack _). vm_compute. exact I. Qed.
Lemma rebalance_spec_witness :
  rebalance map_to_list toy_spread toy_tally 200 = [("slow-8", "fast")] /\
  (held_on "fast" (moved (rebalance map_to_list toy_spread toy_tally 200) toy_spread) <= 8)%nat.
Proof.
  split; [vm_compute; reflexivity|].
  exact (proj1 (proj2 (rebalance_spec map_to_list (fun m => Permutation_refl _) toy_spread toy_tally 200
    toy_spread_nodup)) "fast").
Defined.
Definition pool_row (i name exit : string) : StoredAccount := mkAccount i name "pw" Refetch "" true exit None.
Definition toy_document : AccountDocument := mkDocument 1
  [pool_row "1" "a@x" "fast"; pool_row "2" "b@x" "slow"; pool_row "3" "c@x" "slow"] None.
Definition toy_pool : AccountPool := mkPool toy_document (Some toy_document) ∅.
Lemma round_keeps_the_exits_witness :
  let '(_, (pool', r)) := balance_round map_to_list to_ascii_lowercase 9 toy_fresh true
    (tally_of [("fast", (50, 1)); ("slow", (2, 2))]) toy_pool in
  r = Ok 1 /\ refetch_bindings pool' = [("a@x", "fast"); ("b@x", "slow"); ("c@x", "fast")] /\
  "slow" ∈ refetch_nodes pool'.
Proof.
  pose proof (round_keeps_the_exits to_ascii_lowercase (fun a b H => H) map_to_list 9 toy_fresh true
    (tally_of [("fast", (50, 1)); ("slow", (2, 2))]) toy_pool (fun m => Permutation_refl _)
    (Reach_open to_ascii_lowercase (Some toy_document) toy_pool eq_refl)
    ltac:(repeat constructor)) as H.
  cbv zeta in H. destruct (balance_round _ _ _ _ _ _ _) as [t [pool' r]] eqn:E.
  assert (Hr : r = Ok 1) by (apply (f_equal (fun p => snd (snd p))) in E; vm_compute in E; by symmetry).
  destruct H as (Hnodes & Hb & _). split; [exact Hr|]. split.
  - rewrite (Hb 1 Hr). vm_compute. reflexivity.
  - apply Hnodes. vm_compute. right. left.
Defined.
Lemma queue_fits_the_claim_timeout_witness :
  in_flight_for 278 1500 = 1112 /\ (1112 - 278) * 1500 <= 278 * 60000.
Proof.
  split; [reflexivity|].
  refine (proj2 (queue_fits_the_claim_timeout 278 1500 _ _)); [unfold u64_max; lia|unfold MAX_REQUEST_DELAY_MS; lia].
Defined.
Lemma rate_counts_the_window_witness :
  qps 30 (hits [0; 1; 1; 1; 30]) = f64_div (f64_of 4) (f64_of 30).
Proof.
  refine (rate_counts_the_window [0; 1; 1; 1; 30] 30 _ _ _);
    [repeat constructor; lia|repeat constructor; lia|vm_compute; reflexivity].
Defined.
