(* ===== verification/Version.v ===== *)
(** The client version a login carries, and the search for the lowest one the
    server still accepts: the functions of
    [src/src/managed_watch.rs] from [load_client_version] to
    [search_version_floor]. *)
From S2P Require Import Prelude Text.
#[local] Open Scope string_scope.
#[local] Open Scope list_scope.
#[local] Open Scope Z_scope.

Module Version.

Definition CN_CODE_VERSION : string := "0.16.257".
Definition CN_PACKAGE_VERSION : string := "4.0.45".
Definition VERSION_SEARCH_SPAN : Z := 4096.

(** [0.<minor>.<patch>] as one number; the product and the sum wrap. *)
Definition parse_version (version : string) : option Z :=
  match split_on "."%char version with
  | [zero; minor; patch] =>
    if negb (String.eqb zero "0") then None
    else
      minor ← parse_u32 minor; patch ← parse_u32 patch;
      if 1000 <=? patch then None else Some (as_u32 (minor * 1000 + patch))
  | _ => None
  end.
Definition format_version (value : Z) : string :=
  "0." +:+ pretty (value / 1000) +:+ "." +:+ pretty (value mod 1000).
(** The order of [Option<u32>]. *)
Definition newer (a b : option Z) : bool :=
  match a, b with Some x, Some y => y <? x | Some _, None => true | None, _ => false end.

(** ** The cache all logins of the process share

    The file's content, [None] when it cannot be read. *)
Definition load_client_version (cache : option string) : option string :=
  stored ← cache; let stored := trim stored in
  _ ← parse_version stored; Some stored.
Definition adopted_client_version (cache : option string) : option string :=
  stored ← load_client_version cache;
  if newer (parse_version stored) (parse_version CN_CODE_VERSION) then Some stored else None.
Definition current_client_versions (cache package : option string) : string * string :=
  (default CN_CODE_VERSION (adopted_client_version cache), default CN_PACKAGE_VERSION package).
Definition effective_code_version (cache : option string) (pinned : option string) : string :=
  match pinned with Some v => v | None => fst (current_client_versions cache None) end.
(** The rename of a complete file, or nothing. *)
Definition store_client_version (written : bool) (version : string) (cache : option string) : option string :=
  if written then Some version else cache.

(** ** The search

    [probe] is one login: [Ok false] is a refusal with code 151. The probes made
    come back beside the answer. *)
Section Search.
Variable probe : Z -> result error bool.

Fixpoint escalate (steps : list Z) (rejected too_low : Z) : list Z * result error (Z * option Z) :=
  match steps with
  | [] => ([], Ok (too_low, None))
  | step :: steps =>
    let candidate := as_u32 (rejected + step) in
    match probe candidate with
    | Ok true => ([candidate], Ok (too_low, Some candidate))
    | Ok false => let '(probed, r) := escalate steps rejected candidate in (candidate :: probed, r)
    | Err e => ([candidate], Err e)
    | Panic => ([candidate], Panic)
    end
  end.
(** [step] from 4 while it stays in the span, times four each turn. *)
Fixpoint steps_from (fuel : nat) (step : Z) : list Z :=
  match fuel with
  | O => []
  | S fuel => if step <=? VERSION_SEARCH_SPAN then step :: steps_from fuel (step * 4) else []
  end.
Fixpoint bisect (fuel : nat) (too_low accepted : Z) : list Z * result error Z :=
  if too_low + 1 <? accepted then
    match fuel with
    | O => ([], Err ["out of fuel"])
    | S fuel =>
      let middle := too_low + (accepted - too_low) / 2 in
      match probe middle with
      | Ok true => let '(probed, r) := bisect fuel too_low middle in (middle :: probed, r)
      | Ok false => let '(probed, r) := bisect fuel middle accepted in (middle :: probed, r)
      | Err e => ([middle], Err e)
      | Panic => ([middle], Panic)
      end
    end
  else ([], Ok accepted).
Definition search_version_floor (rejected : Z) : list Z * result error Z :=
  match probe rejected with
  | Ok true => ([rejected], Ok rejected)
  | Ok false =>
    let '(probed, r) := escalate (steps_from 32 4) rejected rejected in
    match r with
    | Ok (too_low, Some accepted) =>
      let '(more, r) := bisect 32 too_low accepted in (rejected :: probed ++ more, r)
    | Ok (_, None) => (rejected :: probed, bail "no accepted client version within the search span")
    | Err e => (rejected :: probed, Err e)
    | Panic => (rejected :: probed, Panic)
    end
  | Err e => ([rejected], Err e)
  | Panic => ([rejected], Panic)
  end.
End Search.

(** A login with a version: the text of its failure, or nothing. *)
Definition refused_version (failure : string) : bool :=
  match find "151" failure with Some _ => true | None => false end.
Definition probe_version (login : string -> option string) (version : string) : result error bool :=
  match login version with
  | None => Ok true
  | Some failure => if refused_version failure then Ok false else Err [failure]
  end.
Definition discover_version_floor (login : string -> option string) (rejected : string) : result error string :=
  match parse_version rejected with
  | None => bail ("unparsable client version " +:+ rejected)
  | Some value =>
    floor ← snd (search_version_floor (fun v => probe_version login (format_version v)) value);
    Ok (format_version floor)
  end.
(** What a login that failed tries next, and the cache after it. *)
Definition refreshed_client_version (login : string -> option string) (written : bool)
  (current : option string) (failure : string) (cache : option string) : option string * option string :=
  if negb (refused_version failure) then (None, cache)
  else
    let rejected := effective_code_version cache current in
    let shared :=
      shared ← load_client_version cache;
      if newer (parse_version shared) (parse_version rejected) then Some shared else None in
    match shared with
    | Some shared => (Some shared, cache)
    | None =>
      match discover_version_floor login rejected with
      | Ok version => (Some version, store_client_version written version cache)
      | _ => (None, cache)
      end
    end.
End Version.

Import Version.
Example version_tests :
  (parse_version "0.16.257", format_version 17002, parse_version "0.16.257.w", parse_version "1.0.0",
   parse_version "WebGL_2022-0.16.257") = (Some 16257, "0.17.2", None, None, None).
Proof. vm_compute. reflexivity. Qed.

(** ** Versions as numbers *)
Lemma digits_plain (c : Ascii.ascii) : ~ digit_char c -> forall n, 0 <= n -> contains c (pretty n) = false.
Proof. intros Hc n Hn. by apply pretty_contains. Qed.
Lemma dot_not_digit : ~ digit_char "."%char.
Proof. unfold digit_char. vm_compute. intros [H _]. by apply H. Qed.
Lemma parse_format v : in_u32 v -> parse_version (format_version v) = Some v.
Proof.
  unfold in_u32. intros Hv. unfold format_version, parse_version.
  pose proof (Z.div_mod v 1000 ltac:(lia)) as E. pose proof (Z.mod_pos_bound v 1000 ltac:(lia)) as Hm.
  assert (Hd : 0 <= v / 1000 <= 2 ^ 32 - 1) by (split; [apply Z.div_pos; lia|apply Z.div_le_upper_bound; lia]).
  change ("0." +:+ ?x) with ("0" +:+ String "."%char x). rewrite split_on_append by done.
  change ("." +:+ ?x) with (String "."%char x).
  rewrite split_on_append by (apply digits_plain; [apply dot_not_digit|lia]).
  rewrite split_on_piece by (apply digits_plain; [apply dot_not_digit|lia]).
  cbn [String.eqb negb]. unfold parse_u32. rewrite !parse_int_pretty by lia. cbn.
  destruct (Z.leb_spec 1000 (v mod 1000)); [lia|]. rewrite as_u32_small; [f_equal; lia|unfold in_u32; lia].
Qed.

(** ** The search *)
Section Boundary.
Context (probe : Z -> result error bool).
Abbreviation escalate := (escalate probe).
Abbreviation bisect := (bisect probe).
Abbreviation search_version_floor := (search_version_floor probe).

(** What a search that ends well has seen: its answer accepted, and the version
    below refused. *)
Definition boundary (v : Z) : Prop := probe v = Ok true /\ probe (v - 1) = Ok false.
Lemma bisect_unfold fuel tl acc : bisect fuel tl acc =
  if tl + 1 <? acc then
    match fuel with
    | O => ([], Err ["out of fuel"])
    | S fuel =>
      let middle := tl + (acc - tl) / 2 in
      match probe middle with
      | Ok true => let '(probed, r) := bisect fuel tl middle in (middle :: probed, r)
      | Ok false => let '(probed, r) := bisect fuel middle acc in (middle :: probed, r)
      | Err e => ([middle], Err e)
      | Panic => ([middle], Panic)
      end
    end
  else ([], Ok acc).
Proof. by destruct fuel. Qed.
Lemma bisect_spec k : forall fuel tl acc, (k <= fuel)%nat -> probe tl = Ok false -> probe acc = Ok true ->
  tl < acc <= tl + 2 ^ Z.of_nat k ->
  let '(probed, r) := bisect fuel tl acc in
  (length probed <= k)%nat /\ Forall (fun v => tl < v < acc) probed /\
  (forall v, r = Ok v -> tl < v <= acc /\ boundary v) /\
  ((forall v, v ∈ probed -> exists b, probe v = Ok b) -> exists v, r = Ok v).
Proof.
  induction k as [|k IH]; intros fuel tl acc Hf Htl Hacc Hb; rewrite bisect_unfold;
    destruct (Z.ltb_spec (tl + 1) acc) as [Hlt|Hge]; (destruct fuel as [|fuel]; [try lia|]); cbv zeta.
  all: try (change (2 ^ Z.of_nat 0) with 1 in Hb; lia).
  all: try (split_and!; [cbn; lia|constructor| |by eexists]; intros v [= <-];
    split; [lia|split; [done|]]; by replace (acc - 1) with tl by lia).
  set (mid := tl + (acc - tl) / 2).
  assert (Hmid : tl < mid < acc /\ acc - mid <= 2 ^ Z.of_nat k /\ mid - tl <= 2 ^ Z.of_nat k).
  { unfold mid. rewrite Nat2Z.inj_succ, Z.pow_succ_r in Hb by lia.
    pose proof (Z.div_mod (acc - tl) 2 ltac:(lia)). pose proof (Z.mod_pos_bound (acc - tl) 2 ltac:(lia)). lia. }
  destruct (probe mid) as [[]|e|] eqn:Em.
  - pose proof (IH fuel tl mid ltac:(lia) Htl Em ltac:(lia)) as H.
    destruct (bisect fuel tl mid) as [probed r]. destruct H as (Hlen & Hall & Hok & Hend). split_and!.
    + cbn. lia.
    + constructor; [lia|]. refine (Forall_impl _ _ _ Hall _). lia.
    + intros v Hv. destruct (Hok v Hv) as [? ?]. split; [lia|done].
    + intros Hp. apply Hend. intros v Hv. apply Hp. by right.
  - pose proof (IH fuel mid acc ltac:(lia) Em Hacc ltac:(lia)) as H.
    destruct (bisect fuel mid acc) as [probed r]. destruct H as (Hlen & Hall & Hok & Hend). split_and!.
    + cbn. lia.
    + constructor; [lia|]. refine (Forall_impl _ _ _ Hall _). lia.
    + intros v Hv. destruct (Hok v Hv) as [? ?]. split; [lia|done].
    + intros Hp. apply Hend. intros v Hv. apply Hp. by right.
  - split_and!; [cbn; lia|by repeat constructor; lia|done|].
    intros Hp. destruct (Hp mid) as [b Hb']; [left|congruence].
  - split_and!; [cbn; lia|by repeat constructor; lia|done|].
    intros Hp. destruct (Hp mid) as [b Hb']; [left|congruence].
Qed.
Lemma escalate_spec rejected : 0 <= rejected -> rejected + VERSION_SEARCH_SPAN < 2 ^ 32 ->
  forall steps tl, Forall (fun s => tl < rejected + s <= rejected + VERSION_SEARCH_SPAN) steps ->
  StronglySorted Z.lt steps -> rejected <= tl -> probe tl = Ok false ->
  let '(probed, r) := escalate steps rejected tl in
  (length probed <= length steps)%nat /\ Forall (fun v => rejected <= v <= rejected + VERSION_SEARCH_SPAN) probed /\
  (forall low acc, r = Ok (low, Some acc) -> probe low = Ok false /\ probe acc = Ok true /\
     tl <= low < acc /\ acc <= rejected + VERSION_SEARCH_SPAN) /\
  (forall low, r = Ok (low, None) -> Forall (fun s => probe (rejected + s) = Ok false) steps) /\
  ((forall v, v ∈ probed -> exists b, probe v = Ok b) -> exists x, r = Ok x).
Proof.
  intros Hr Hspan. unfold VERSION_SEARCH_SPAN in *.
  induction steps as [|s steps IH]; intros tl Hs Hsort Htl Hlow; cbn [Version.escalate].
  { split_and!; [done|constructor|by intros ? ? [=]|constructor|by eexists]. }
  apply Forall_cons in Hs as [Hs Hss]. apply StronglySorted_inv in Hsort as [Hsort Hgt].
  rewrite as_u32_small by (unfold in_u32; lia).
  destruct (probe (rejected + s)) as [[]|e|] eqn:Es.
  - split_and!; [cbn; lia|repeat constructor; lia| |by intros ? [=]|by eexists]. intros low acc [= <- <-]. split_and!; [done|done|lia..].
  - pose proof (IH (rejected + s)) as H. destruct (escalate steps rejected (rejected + s)) as [probed r].
    destruct H as (Hlen & Hrange & Hsome & Hnone & Hend); [|done|lia|done|].
    { rewrite Forall_forall in *. intros t Ht. specialize (Hss t Ht). specialize (Hgt t Ht). lia. }
    split_and!; [cbn; lia|by constructor; [lia|]| | |].
    + intros low acc E. destruct (Hsome low acc E) as (? & ? & ? & ?). split_and!; [done|done|lia..].
    + intros low E. constructor; [done|]. by apply (Hnone low).
    + intros Hp. apply Hend. intros v Hv. apply Hp. by right.
  - split_and!; [cbn; lia|repeat constructor; lia|done|done|]. intros Hp. destruct (Hp (rejected + s)) as [b Hb]; [left|congruence].
  - split_and!; [cbn; lia|repeat constructor; lia|done|done|]. intros Hp. destruct (Hp (rejected + s)) as [b Hb]; [left|congruence].
Qed.
Lemma steps_are : steps_from 32 4 = [4; 16; 64; 256; 1024; 4096].
Proof. reflexivity. Qed.
Lemma search_spec rejected : 0 <= rejected -> rejected + VERSION_SEARCH_SPAN < 2 ^ 32 ->
  let '(probed, r) := search_version_floor rejected in
  (length probed <= 19)%nat /\ Forall (fun v => rejected <= v <= rejected + VERSION_SEARCH_SPAN) probed /\
  (forall v, r = Ok v -> rejected <= v <= rejected + VERSION_SEARCH_SPAN /\ probe v = Ok true /\
     (v = rejected \/ rejected < v /\ probe (v - 1) = Ok false)) /\
  ((forall v, v ∈ probed -> exists b, probe v = Ok b) ->
     (exists v, r = Ok v) \/
     (exists e, r = Err e) /\ Forall (fun s => probe (rejected + s) = Ok false) [4; 16; 64; 256; 1024; 4096]).
Proof.
  intros Hr Hspan. unfold Version.search_version_floor. rewrite steps_are.
  destruct (probe rejected) as [[]|e|] eqn:E0.
  - split_and!; [cbn; lia|unfold VERSION_SEARCH_SPAN; repeat constructor; lia| |by left; eexists]. intros v [= <-]. unfold VERSION_SEARCH_SPAN. split_and!; [lia..|done|by left].
  - pose proof (escalate_spec rejected Hr Hspan [4; 16; 64; 256; 1024; 4096] rejected) as H.
    destruct (escalate _ rejected rejected) as [probed r].
    destruct H as (Hlen & Hrange & Hsome & Hnone & Hend); [|repeat constructor; lia|lia|done|].
    { unfold VERSION_SEARCH_SPAN in *. repeat constructor; lia. }
    destruct r as [[low [acc|]]|e|].
    + destruct (Hsome low acc eq_refl) as (Hl & Ha & Hlt & Hle). unfold VERSION_SEARCH_SPAN in *.
      pose proof (bisect_spec 12 32 low acc ltac:(lia) Hl Ha) as H.
      destruct (bisect 32 low acc) as [more r]. destruct H as (Hm & Hbr & Hok & Hend2).
      { change (2 ^ Z.of_nat 12) with 4096. lia. }
      split_and!.
      * cbn [length]. rewrite length_app. cbn in Hlen. lia.
      * constructor; [lia|]. apply Forall_app. split; [done|]. refine (Forall_impl _ _ _ Hbr _). lia.
      * intros v Hv. destruct (Hok v Hv) as (? & ? & ?). split_and!; [lia..|done|right; split; [lia|done]].
      * intros Hp. left. apply Hend2. intros v Hv. apply Hp. right. apply elem_of_app. by right.
    + split_and!; [cbn in *; lia|by constructor; [unfold VERSION_SEARCH_SPAN; lia|]|done|]. intros _. right. split; [by eexists|]. by apply (Hnone low).
    + split_and!; [cbn in *; lia|by constructor; [unfold VERSION_SEARCH_SPAN; lia|]|done|]. intros Hp. destruct Hend as [x Hx]; [|done].
      intros v Hv. apply Hp. by right.
    + split_and!; [cbn in *; lia|by constructor; [unfold VERSION_SEARCH_SPAN; lia|]|done|]. intros Hp. destruct Hend as [x Hx]; [|done].
      intros v Hv. apply Hp. by right.
  - split_and!; [cbn; lia|unfold VERSION_SEARCH_SPAN; repeat constructor; lia|done|]. intros Hp. destruct (Hp rejected) as [b Hb]; [left|congruence].
  - split_and!; [cbn; lia|unfold VERSION_SEARCH_SPAN; repeat constructor; lia|done|]. intros Hp. destruct (Hp rejected) as [b Hb]; [left|congruence].
Qed.

Lemma version_floor_spec rejected :
  0 <= rejected -> rejected + VERSION_SEARCH_SPAN < 2 ^ 32 ->
  let '(probed, r) := search_version_floor rejected in
  (length probed <= 19)%nat /\
  (forall v, r = Ok v -> probe v = Ok true /\ (v = rejected \/ probe (v - 1) = Ok false)) /\
  (forall floor,
     (forall v, rejected <= v <= rejected + VERSION_SEARCH_SPAN -> probe v = Ok (floor <=? v)) ->
     if floor <=? rejected + VERSION_SEARCH_SPAN then r = Ok (Z.max floor rejected)
     else exists e, r = Err e).
Proof.
  intros Hr Hspan. pose proof (search_spec rejected Hr Hspan) as H.
  destruct (search_version_floor rejected) as [probed r]. destruct H as (Hlen & Hrange & Hok & Hend).
  split_and!; [done|intros v Hv; destruct (Hok v Hv) as (_ & ? & [?|[_ ?]]); tauto|].
  intros floor Hf. rewrite Forall_forall in Hrange.
  assert (Hle : forall v b, rejected <= v <= rejected + VERSION_SEARCH_SPAN -> probe v = Ok b -> (floor <=? v) = b)
    by (intros v b Hv E; rewrite (Hf v Hv) in E; by injection E).
  destruct Hend as [[v Hv]|[He Hall]]; [intros v Hv; eexists; by apply Hf, Hrange|..].
  - destruct (Hok v Hv) as (Hb & H1 & H2). apply Hle, Z.leb_le in H1; [|done].
    destruct (Z.leb_spec floor (rejected + VERSION_SEARCH_SPAN)); [|lia]. rewrite Hv. f_equal.
    destruct H2 as [->|[Hlt H2]]; [lia|]. apply Hle, Z.leb_gt in H2; lia.
  - assert (H4 : probe (rejected + 4096) = Ok false).
    { rewrite Forall_forall in Hall. apply Hall. do 5 right. left. }
    unfold VERSION_SEARCH_SPAN in *. apply Hle, Z.leb_gt in H4; [|lia].
    destruct (Z.leb_spec floor (rejected + 4096)); [lia|done].
Qed.

(** The version search. Whatever the server answers, the search makes at most
    nineteen logins, and a version it returns was accepted in one of them, with
    the version right below refused in another unless it is the one the search
    started from. Where the server accepts exactly the versions from its floor
    up, the answer is that floor (or the start, when the server accepts it), as
    long as the floor is within 4096 of the start, and an error beyond. *)
Theorem version_floor_is_found rejected :
  0 <= rejected -> rejected + VERSION_SEARCH_SPAN < 2 ^ 32 ->
  let '(probed, r) := search_version_floor rejected in
  (length probed <= 19)%nat /\
  (forall v, r = Ok v -> probe v = Ok true /\ (v = rejected \/ probe (v - 1) = Ok false)) /\
  (forall floor,
     (forall v, rejected <= v <= rejected + VERSION_SEARCH_SPAN -> probe v = Ok (floor <=? v)) ->
     if floor <=? rejected + VERSION_SEARCH_SPAN then r = Ok (Z.max floor rejected)
     else exists e, r = Err e).
Proof. apply version_floor_spec. Qed.
End Boundary.

(** ** The shared floor

    A server that accepts the versions from [floor] up and refuses the others with
    a text that carries the code. *)
Definition serves_from (floor : Z) (login : string -> option string) : Prop :=
  forall v, in_u32 v -> refused_version <$> login (format_version v) = (if floor <=? v then None else Some true).
Lemma discover_floor floor login rejected value : serves_from floor login ->
  parse_version rejected = Some value -> 0 <= value -> value + VERSION_SEARCH_SPAN < 2 ^ 32 ->
  value < floor <= value + VERSION_SEARCH_SPAN ->
  discover_version_floor login rejected = Ok (format_version floor).
Proof.
  intros Hs Hp H0 Hspan Hf. unfold discover_version_floor. rewrite Hp.
  set (probe := fun v => probe_version login (format_version v)).
  pose proof (version_floor_spec probe value H0 Hspan) as H.
  destruct (search_version_floor probe value) as [probed r]. destruct H as (_ & _ & H).
  specialize (H floor). destruct (Z.leb_spec floor (value + VERSION_SEARCH_SPAN)); [|lia].
  rewrite Z.max_l in H by lia. rewrite H; [done|]. intros v Hv. unfold probe, probe_version.
  assert (Hu : in_u32 v) by (unfold in_u32; lia). specialize (Hs v Hu).
  destruct (login (format_version v)) as [text|]; cbn in Hs; destruct (floor <=? v); try done.
  by injection Hs as ->.
Qed.
Lemma parse_version_range s v : parse_version s = Some v -> in_u32 v.
Proof.
  unfold parse_version. destruct (split_on _ s) as [|zero [|minor [|patch [|? ?]]]]; try done.
  destruct (negb _); [done|]. destruct (parse_u32 minor) as [m|]; [|done]. destruct (parse_u32 patch) as [k|]; [|done].
  cbn [mbind option_bind]. destruct (1000 <=? k); [done|]. intros [= <-]. apply as_u32_range.
Qed.
Lemma format_version_trim v : in_u32 v -> trim (format_version v) = format_version v.
Proof.
  intros Hv. apply trim_plain. unfold format_version. rewrite !plain_append, !pretty_plain; [done|..].
  - pose proof (Z.mod_pos_bound v 1000 ltac:(lia)). lia.
  - apply Z.div_pos; unfold in_u32 in Hv; lia.
Qed.
Lemma load_format v : in_u32 v -> load_client_version (Some (format_version v)) = Some (format_version v).
Proof.
  intros Hv. unfold load_client_version. cbn. by rewrite format_version_trim, parse_format.
Qed.

(** One search serves every session. When a login is refused for its version
    and the cache holds nothing newer, the search answers with the server's floor
    and publishes it; from then on every login that pins no version carries one
    the server accepts, and every session refused with an older version takes the
    published floor without a single login of its own. *)
Theorem one_search_serves_all floor login current failure cache value :
  serves_from floor login -> refused_version failure = true ->
  parse_version (effective_code_version cache current) = Some value ->
  value < floor <= value + VERSION_SEARCH_SPAN -> value + VERSION_SEARCH_SPAN < 2 ^ 32 ->
  newer (load_client_version cache ≫= parse_version) (Some value) = false ->
  let '(next, cache') := refreshed_client_version login true current failure cache in
  next = Some (format_version floor) /\
  (exists v, parse_version (effective_code_version cache' None) = Some v /\ floor <= v) /\
  (forall login' written current' failure' value', refused_version failure' = true ->
     parse_version (effective_code_version cache' current') = Some value' -> value' < floor ->
     refreshed_client_version login' written current' failure' cache' = (next, cache')).
Proof.
  intros Hs Hfail Hp Hf Hspan Hold. pose proof (parse_version_range _ _ Hp) as Hr. unfold in_u32 in Hr.
  assert (Hu : in_u32 floor) by (unfold in_u32; lia).
  assert (E : refreshed_client_version login true current failure cache
    = (Some (format_version floor), Some (format_version floor))).
  { unfold refreshed_client_version. rewrite Hfail. cbn [negb]. cbv zeta.
    assert (Hnone : (shared ← load_client_version cache;
      if newer (parse_version shared) (parse_version (effective_code_version cache current))
      then Some shared else None) = None).
    { rewrite Hp. destruct (load_client_version cache) as [shared|]; [|done]. cbn in Hold |- *. by rewrite Hold. }
    by rewrite Hnone, (discover_floor floor login _ value Hs Hp ltac:(lia) Hspan Hf). }
  rewrite E. split; [done|]. split.
  - unfold effective_code_version, current_client_versions, adopted_client_version. cbn [fst].
    rewrite load_format by done. cbn [mbind option_bind]. rewrite parse_format by done.
    change (parse_version CN_CODE_VERSION) with (Some 16257). cbn [newer].
    destruct (Z.ltb_spec 16257 floor); cbn [default from_option id].
    + exists floor. by rewrite parse_format.
    + exists 16257. split; [done|lia].
  - intros login' written current' failure' value' Hfail' Hp' Hlt. unfold refreshed_client_version.
    rewrite Hfail'. cbn [negb]. cbv zeta. rewrite load_format by done. cbn [mbind option_bind].
    rewrite parse_format, Hp' by done. cbn [newer]. by rewrite (proj2 (Z.ltb_lt _ _)) by done.
Qed.

(** ** Witnesses *)
Lemma version_floor_is_found_witness :
  search_version_floor (fun v => Ok (16254 <=? v)) 16240
    = ([16240; 16244; 16256; 16250; 16253; 16254], Ok 16254) /\
  snd (search_version_floor (fun v => Ok (16254 <=? v)) 16240) = Ok 16254.
Proof.
  split; [vm_compute; reflexivity|].
  pose proof (version_floor_is_found (fun v => Ok (16254 <=? v)) 16240 ltac:(lia)
    ltac:(unfold VERSION_SEARCH_SPAN; lia)) as H.
  destruct (search_version_floor _ 16240) as [probed r]. destruct H as (_ & _ & H).
  exact (H 16254 (fun v _ => eq_refl)).
Defined.
Definition toy_login (version : string) : option string :=
  match parse_version version with Some v => if 16300 <=? v then None else Some "code 151" | None => Some "code 151" end.
Lemma toy_server_serves : serves_from 16300 toy_login.
Proof. intros v Hv. unfold toy_login. rewrite parse_format by done. by destruct (16300 <=? v). Qed.
Lemma one_search_serves_all_witness :
  refreshed_client_version toy_login true None "server error code 151" None
    = (Some "0.16.300", Some "0.16.300") /\
  effective_code_version (Some "0.16.300") None = "0.16.300" /\
  refreshed_client_version (fun _ => None) true (Some "0.16.299") "server error code 151" (Some "0.16.300")
    = (Some "0.16.300", Some "0.16.300").
Proof.
  pose proof (one_search_serves_all 16300 toy_login None "server error code 151" None 16257 toy_server_serves eq_refl
    eq_refl ltac:(unfold VERSION_SEARCH_SPAN; lia) ltac:(unfold VERSION_SEARCH_SPAN; lia) eq_refl) as H.
  assert (E : refreshed_client_version toy_login true None "server error code 151" None
    = (Some "0.16.300", Some "0.16.300")) by (vm_compute; reflexivity).
  rewrite E in H. destruct H as (_ & _ & H). split; [exact E|]. split; [reflexivity|].
  apply (H (fun _ => None) true (Some "0.16.299") "server error code 151" 16299); [reflexivity|reflexivity|lia].
Defined.
(** A floor of a server that a pinned version is far below is out of the span. *)
Example pinned_far_below : snd (search_version_floor (fun v => Ok (16254 <=? v)) 9009)
  = Err ["no accepted client version within the search span"].
Proof. vm_compute. reflexivity. Qed.
