(* ===== verification/Collector.v ===== *)
(** A live collector: the polling of the games being played, the queue of the
    finished ones and their hand-over to ingest, of
    [src/src/managed_watch.rs]. *)
From S2P Require Import Prelude Text Tiles Json Proto Rpc Wire Convert Pack Kafka Ingest Refetch Watch Accounts.
#[local] Open Scope string_scope.
#[local] Open Scope list_scope.
#[local] Open Scope Z_scope.

Module Collector.
Import Proto Rpc Modes.

Definition FILTER_ID_OFFSET : Z := 200.
Definition SETTLE_SECS : Z := 120.
Definition GIVE_UP_SECS : Z := 10800.
Definition BANNED_CODE : Z := 503.

Record LiveGame := mkGame { uuid : string; mode_id : Z; start_time : Z; queued_at : option Z }.
#[export] Instance LiveGame_settable : Settable LiveGame := fun r =>
  mkGame (uuid r) (mode_id r) (start_time r) (queued_at r).
#[export] Instance LiveGame_dec : EqDecision LiveGame.
Proof. solve_decision. Defined.

(** ** The list of games being played *)
Definition is_ok {E A} (r : result E A) : bool := match r with Ok _ => true | _ => false end.
(** A game this collector can name: known mode, dated identifier. *)
Definition usable (uuid : string) (mode_id : Z) : bool :=
  negb (String.eqb uuid "") && is_ok (mode_metadata mode_id) && is_ok (uuid_year uuid).
Definition parse_live_config (data : list Z) (mode_id : Z) : result error Z :=
  for_fields data (fun config mode_id =>
    match number config, wire_type config with
    | 3, 2 => for_fields (Proto.data config) (fun meta mode_id =>
                match number meta, wire_type meta with
                | 2, 0 => v ← extract_varint (Proto.data meta); Ok (as_i32 v)
                | _, _ => Ok mode_id
                end) mode_id
    | _, _ => Ok mode_id
    end) mode_id.
Definition parse_live_head (data : list Z) (fallback_mode_id : Z) : result error (option LiveGame) :=
  '(uuid, start_time, mode_id) ← for_fields data (fun field '(uuid, start_time, mode_id) =>
    match number field, wire_type field with
    | 1, 2 => Ok (extract_string (Proto.data field), start_time, mode_id)
    | 2, 0 => v ← extract_varint (Proto.data field); Ok (uuid, as_u32 v, mode_id)
    | 3, 2 => mode_id ← parse_live_config (Proto.data field) mode_id; Ok (uuid, start_time, mode_id)
    | _, _ => Ok (uuid, start_time, mode_id)
    end) ("", 0, 0);
  let mode_id := if mode_id =? 0 then fallback_mode_id else mode_id in
  Ok (if usable uuid mode_id then Some (mkGame uuid mode_id start_time None) else None).
Definition parse_live_list (data : list Z) (fallback_mode_id : Z) : result error (list LiveGame) :=
  for_fields data (fun field games =>
    match number field, wire_type field with
    | 1, 2 =>
      _ ← for_fields (Proto.data field) (fun e (_ : unit) =>
            match number e, wire_type e with
            | 1, 0 => v ← extract_varint (Proto.data e);
                      if negb (v =? 0) then bail "fetchGameLiveList returned an error" else Ok tt
            | _, _ => Ok tt
            end) tt;
      Ok games
    | 2, 2 => game ← parse_live_head (Proto.data field) fallback_mode_id;
              Ok (match game with Some g => games ++ [g] | None => games end)
    | _, _ => Ok games
    end) [].
(** [fetch_live_list] on what the session answered: the frame, or the games a
    module read out of it. *)
Definition builtin_listing (response : result unit (list Z)) (fallback_mode_id : Z) : result unit (list LiveGame) :=
  match response with
  | Ok response =>
    match ensure_success_response response "fetchGameLiveList" with
    | Ok _ => match parse_live_list response fallback_mode_id with
              | Ok games => Ok games | Err _ => Err tt | Panic => Panic end
    | Err _ => Err tt
    | Panic => Panic
    end
  | Err e => Err e
  | Panic => Panic
  end.
Definition module_listing (games : result unit (list LiveGame)) : result unit (list LiveGame) :=
  games ← games; Ok (List.filter (fun g => usable (uuid g) (mode_id g)) games).

Definition metadata_for (game : LiveGame) : result error Convert.GameMetadata :=
  '(room, game_length, players) ← mode_metadata (mode_id game);
  year ← uuid_year (uuid game);
  Ok (Convert.mkMetadata (mode_id game) room game_length players year).
Definition event (game : LiveGame) (kind : Watch.WatchEventKind) (message : option string)
  (record_id : option (list Z)) : Watch.WatchEvent :=
  Watch.mkEvent (uuid game) kind (Some (mode_id game)) (Some (start_time game)) message record_id.

(** ** Failures *)
(** A failed request: the code Mahjong Soul answered, if it did, and its text. *)
Record Failure := mkFailure { server : option ServerError; text : string }.
Definition ends_the_session (e : Failure) : bool :=
  match server e with None => true | Some server => is_session_stale server end.
Definition login_verdict (e : Failure) : Accounts.AccountState :=
  match server e with
  | Some server => if code server =? BANNED_CODE then Accounts.Banned else Accounts.RefusedLogin
  | None => Accounts.Unreachable
  end.
Definition masked_account (username : string) : string :=
  let '(local, domain) := match split_once "@"%char username with
                          | Some (local, domain) => (local, "@" +:+ domain)
                          | None => (username, "")
                          end in
  take_chars 2 local +:+ "***" +:+ domain.

(** ** The state

    [file] is the state file, [discovered] the discovery log with whether each
    line was written, [fates] the games that left the queue, in order. *)
Inductive Fate := Stored (id : list Z) | GaveUp.
Record Collector := mkCollector {
  tracked : gmap string LiveGame; pending : gmap string LiveGame;
  file : option (list LiveGame * list LiveGame); registry : Watch.WatchRegistry;
  discovered : list (string * bool); fates : list (LiveGame * Fate)
}.
#[export] Instance Collector_settable : Settable Collector := fun r =>
  mkCollector (tracked r) (pending r) (file r) (registry r) (discovered r) (fates r).
(** A statement of the session: it ends with a value, an error that ends the
    session, or a panic; what it changed stays changed. *)
Definition Task (A : Type) : Type := Collector -> Collector * result unit A.
#[export] Instance Task_ret : MRet Task := fun A a s => (s, Ok a).
#[export] Instance Task_bind : MBind Task := fun A B f m s =>
  match m s with (s, Ok a) => f a s | (s, Err e) => (s, Err e) | (s, Panic) => (s, Panic) end.
Definition lift {A} (r : result unit A) : Task A := fun s => (s, r).
Definition gets {A} (f : Collector -> A) : Task A := fun s => (s, Ok (f s)).
Definition modify (f : Collector -> Collector) : Task unit := fun s => (f s, Ok tt).
Fixpoint for_each {A} (f : A -> Task unit) (l : list A) : Task unit :=
  match l with [] => mret tt | a :: l => f a ≫= fun _ => for_each f l end.

(** What one poll meets: the clock, the list of each mode by filter and mode
    ([builtin_listing] or [module_listing] of what the session answers), the
    answers to the requests, what ingest says (an error by its
    text), and which writes succeed. The save after the
    lists is [None], the one after a game its identifier. *)
Record Poll := mkPoll {
  now : Z; listing : Z -> Z -> result unit (list LiveGame); fetched : string -> result Failure (list Z);
  stored : string -> list Z -> list Z -> result string Ingest.Accepted;
  log_written : string -> bool; saved : option string -> bool
}.

Section Polling.
(** [serde_json], the gzip codec, and the order of the hash maps. *)
Variable to_string : json -> string.
Variable gzip : list Z -> list Z.
Variable gunzip : list Z -> list Z + string.
Variable order : gmap string LiveGame -> list LiveGame.
Variable values : Watch.WatchRegistry -> list Watch.WatchRecord.

Definition apply (p : Poll) (game : LiveGame) (kind : Watch.WatchEventKind) (message : option string)
  (record_id : option (list Z)) : Task unit := fun s =>
  let '(reg, r) := Watch.apply values (now p * 1000000000) (event game kind message record_id) (registry s) in
  (s <| registry := reg |>, match r with Ok _ => Ok tt | Err _ => Err tt | Panic => Panic end).
Definition append_discovered (p : Poll) (game : LiveGame) : Task unit :=
  modify (fun s => s <| discovered ::= fun l => l ++ [(uuid game, log_written p (uuid game))] |>).
Definition persist_state (ok : bool) : Task unit := fun s =>
  if ok then (s <| file := Some (order (tracked s), order (pending s)) |>, Ok tt) else (s, Err tt).
Definition leave (game : LiveGame) (fate : Fate) : Task unit :=
  modify (fun s => s <| pending ::= delete (uuid game) |> <| fates ::= fun l => l ++ [(game, fate)] |>).

(** The lists of the modes. *)
Definition see (p : Poll) (game : LiveGame) (live_now : gmap string LiveGame) : Task (gmap string LiveGame) :=
  _ ← apply p game Watch.EvLive None None;
  t ← gets tracked;
  _ ← (match t !! uuid game with None => append_discovered p game | Some _ => mret tt end);
  mret (<[uuid game := game]> live_now).
Fixpoint see_all (p : Poll) (games : list LiveGame) (live_now : gmap string LiveGame) : Task (gmap string LiveGame) :=
  match games with
  | [] => mret live_now
  | game :: games => see p game live_now ≫= see_all p games
  end.
Fixpoint list_modes (p : Poll) (modes : list Z) (live_now : gmap string LiveGame) : Task (gmap string LiveGame) :=
  match modes with
  | [] => mret live_now
  | mode :: modes =>
    games ← lift (listing p (as_u32 (mode + FILTER_ID_OFFSET)) mode);
    see_all p games live_now ≫= list_modes p modes
  end.
(** A game that left the lists joins the queue. *)
Definition finished_message : string := "牌局已结束，等待牌谱生成".
Definition queue_finished (p : Poll) (live_now : gmap string LiveGame) (game : LiveGame) : Task unit :=
  match live_now !! uuid game with
  | Some _ => mret tt
  | None =>
    let queued := game <| queued_at := Some (now p) |> in
    _ ← apply p queued Watch.EvPending (Some finished_message) None;
    modify (fun s => s <| pending ::= fun q => match q !! uuid game with
                                              | Some _ => q | None => <[uuid game := queued]> q end |>)
  end.
(** One game of the queue. *)
Definition waited (p : Poll) (game : LiveGame) : option Z := sat_sub (now p) <$> queued_at game.
Definition settling (p : Poll) (game : LiveGame) : bool :=
  match waited p game with Some w => w <? SETTLE_SECS | None => false end.
Definition overdue (p : Poll) (game : LiveGame) : bool :=
  match waited p game with Some w => GIVE_UP_SECS <? w | None => false end.
Definition ingest (p : Poll) (game_uuid : string) (compressed majsoul_pb : list Z) : result string (list Z) :=
  match gunzip compressed with
  | inl raw => match stored p game_uuid raw majsoul_pb with
               | Ok accepted => Ok (Ingest.acc_id accepted) | Err e => Err e | Panic => Panic end
  | inr e => Err e
  end.
Definition convert_and_ingest (p : Poll) (game : LiveGame) (metadata : Convert.GameMetadata) (raw : list Z)
  : result string (list Z) :=
  match Convert.convert_record_bytes to_string gzip raw (Some metadata) with
  | Ok (_, compressed) => ingest p (uuid game) compressed raw
  | Err e => Err (String.concat ": " e)
  | Panic => Panic
  end.
Definition submitted_message : string := "已转换并提交到打包队列".
Definition process (p : Poll) (game : LiveGame) : Task unit :=
  if settling p game then mret tt
  else
    _ ← apply p game Watch.EvFetching None None;
    match fetched p (uuid game) with
    | Err e =>
      _ ← apply p game Watch.EvFetchFailed (Some (text e)) None;
      if ends_the_session e then lift (Err tt)
      else if overdue p game then _ ← leave game GaveUp; persist_state (saved p (Some (uuid game)))
      else mret tt
    | Panic => lift Panic
    | Ok raw =>
      _ ← apply p game Watch.EvConverting None None;
      metadata ← lift (match metadata_for game with Ok m => Ok m | Err _ => Err tt | Panic => Panic end);
      _ ← (match convert_and_ingest p game metadata raw with
           | Ok id =>
             _ ← apply p game Watch.EvCompleted (Some submitted_message) (Some id);
             leave game (Stored id)
           | Err e =>
             _ ← apply p game Watch.EvConversionFailed (Some e) None;
             if overdue p game then leave game GaveUp else mret tt
           | Panic => lift Panic
           end);
      persist_state (saved p (Some (uuid game)))
    end.
(** One turn of the loop of [watch_session], up to the re-fetches. *)
Definition poll (modes : list Z) (p : Poll) : Task unit :=
  live_now ← list_modes p modes ∅;
  t ← gets tracked;
  _ ← for_each (queue_finished p live_now) (order t);
  _ ← modify (fun s => s <| tracked := live_now |>);
  _ ← persist_state (saved p None);
  q ← gets pending;
  for_each (process p) (order q).
(** The start of the collector, after the process was restarted. *)
Definition keyed_by_uuid (l : list LiveGame) : gmap string LiveGame :=
  fold_left (fun m g => <[uuid g := g]> m) l ∅.
Definition load_state (path : option (list LiveGame * list LiveGame)) : list LiveGame * list LiveGame :=
  match path with Some state => state | None => ([], []) end.
Definition restart (s : Collector) : Collector :=
  let '(t, q) := load_state (file s) in
  s <| tracked := keyed_by_uuid t |> <| pending := keyed_by_uuid q |> <| registry := ∅ |>.
(** The life of a collector: polls, each in the session of the last or in a new
    one, and restarts. *)
Inductive Step := Polled (p : Poll) | Restarted.
Definition step (modes : list Z) (s : Collector) (e : Step) : Collector :=
  match e with Polled p => fst (poll modes p s) | Restarted => restart s end.
Definition life (modes : list Z) (s : Collector) (steps : list Step) : Collector := fold_left (step modes) steps s.
End Polling.

(** ** The idle part of the interval: [serve_refetches]

    A turn claims a request and sends it what the session answers; the deadline
    ends the list. Before the claim, and while the answer is awaited, the walks
    of the backfill leave requests and stop waiting for them. *)
Inductive Other := Left (u : string) | Stopped (c : nat).
Definition other (b : Refetch.Broker) (o : Other) : Refetch.Broker :=
  match o with Left u => Refetch.push u b | Stopped c => Refetch.abandon c b end.
Record Turn := mkTurn { idle : list Other; meanwhile : list Other; fetch : string -> result Failure (list Z) }.
Fixpoint serve_refetches (turns : list Turn) (b : Refetch.Broker) (served : nat) : Refetch.Broker * result unit nat :=
  match turns with
  | [] => (b, Ok served)
  | turn :: turns =>
    match Refetch.take_next (fold_left other (idle turn) b) with
    | (None, b) => serve_refetches turns b served
    | (Some request, b) =>
      let b := fold_left other (meanwhile turn) b in
      match fetch turn (Refetch.uuid request) with
      | Ok raw => serve_refetches turns (Refetch.answer_with request (Ok raw) b) (S served)
      | Err e =>
        let b := Refetch.answer_with request (Err (Refetch.Refused (text e))) b in
        if ends_the_session e then (b, Err tt) else serve_refetches turns b served
      | Panic => (Refetch.drop_pending request b, Panic)
      end
    end
  end.
End Collector.

Import Proto Rpc Modes Collector.

(** ** Reasoning about a session

    [triple P m Q F]: from a state with [P], [m] ends in [Q] with a value, or in
    [F] with an error or a panic. *)
Definition triple {A} (P : Collector -> Prop) (m : Task A) (Q : A -> Collector -> Prop) (F : Collector -> Prop) : Prop :=
  forall s, P s -> let '(s', r) := m s in match r with Ok a => Q a s' | _ => F s' end.
Lemma triple_ret {A} (a : A) (Q : A -> Collector -> Prop) F : triple (Q a) (mret a) Q F.
Proof. by intros s. Qed.
Lemma triple_bind {A B} P (m : Task A) (f : A -> Task B) R Q F :
  triple P m R F -> (forall a, triple (R a) (f a) Q F) -> triple P (m ≫= f) Q F.
Proof.
  intros Hm Hf s Hs. specialize (Hm s Hs). unfold mbind, Task_bind.
  destruct (m s) as [s' [a|e|]]; [|done..]. exact (Hf a s' Hm).
Qed.
Lemma triple_weaken {A} (P P' : Collector -> Prop) (m : Task A) (Q Q' : A -> Collector -> Prop) (F F' : Collector -> Prop) :
  triple P' m Q' F' -> (forall s, P s -> P' s) -> (forall a s, Q' a s -> Q a s) -> (forall s, F' s -> F s) ->
  triple P m Q F.
Proof.
  intros H HP HQ HF s Hs. specialize (H s (HP s Hs)). destruct (m s) as [s' [a|e|]]; auto.
Qed.
Lemma triple_modify f (P : Collector -> Prop) (Q : unit -> Collector -> Prop) F :
  (forall s, P s -> Q tt (f s)) -> triple P (modify f) Q F.
Proof. intros H s Hs. exact (H s Hs). Qed.
Lemma triple_gets {A} (f : Collector -> A) (P : Collector -> Prop) Q F :
  (forall s, P s -> Q (f s) s) -> triple P (gets f) Q F.
Proof. intros H s Hs. exact (H s Hs). Qed.
Lemma triple_lift {A} (r : result unit A) (P : Collector -> Prop) (Q : A -> Collector -> Prop) F :
  (forall a s, r = Ok a -> P s -> Q a s) -> (forall s, P s -> F s) -> triple P (lift r) Q F.
Proof. intros HQ HF s Hs. unfold lift. destruct r; auto. Qed.
(** A loop: [I done] holds when [done] are behind. *)
Lemma triple_for_each {A} (f : A -> Task unit) (I : list A -> Collector -> Prop) F l :
  (forall done a rest, l = done ++ a :: rest -> triple (I done) (f a) (fun _ => I (done ++ [a])) F) ->
  triple (I []) (for_each f l) (fun _ => I l) F.
Proof.
  assert (H : forall todo done, l = done ++ todo ->
    (forall done a rest, l = done ++ a :: rest -> triple (I done) (f a) (fun _ => I (done ++ [a])) F) ->
    triple (I done) (for_each f todo) (fun _ => I l) F).
  { induction todo as [|a todo IH]; intros done E Hf; cbn [for_each].
    - rewrite app_nil_r in E. subst done. apply (triple_ret tt (fun _ => I l)).
    - apply (triple_bind _ _ _ (fun _ => I (done ++ [a]))); [by eapply Hf|]. intros _.
      apply IH; [by rewrite <- app_assoc|done]. }
  intros Hf. by apply (H l []).
Qed.

Section Facts.
Context (to_string : json -> string) (gzip : list Z -> list Z) (gunzip : list Z -> list Z + string).
Context (order : gmap string LiveGame -> list LiveGame) (values : Watch.WatchRegistry -> list Watch.WatchRecord).
Hypothesis order_perm : forall m, order m ≡ₚ map snd (map_to_list m).
Abbreviation poll := (poll to_string gzip gunzip order values).
Abbreviation process := (process to_string gzip gunzip order values).
Abbreviation step := (step to_string gzip gunzip order values).
Abbreviation life := (life to_string gzip gunzip order values).
Abbreviation convert_and_ingest := (convert_and_ingest to_string gzip gunzip).
Abbreviation apply := (Collector.apply values).
Implicit Types (s : Collector) (p : Poll) (u : string) (g : LiveGame).

(** ** Where a game is *)
Definition keyed (m : gmap string LiveGame) : Prop := map_Forall (fun u g => uuid g = u) m.
Definition in_memory s u : Prop := is_Some (tracked s !! u) \/ is_Some (pending s !! u).
Definition on_disk s u : Prop :=
  exists t q g, file s = Some (t, q) /\ g ∈ t ++ q /\ uuid g = u.
Definition settled s u : Prop := exists g f, (g, f) ∈ fates s /\ uuid g = u.
Definition noted s u : Prop := u ∈ map fst (discovered s).
(** Why a game may leave the queue. *)
Definition justified p g (f : Fate) : Prop :=
  settling p g = false /\
  match f with
  | Stored id => exists raw metadata, fetched p (uuid g) = Ok raw /\ metadata_for g = Ok metadata /\
      convert_and_ingest p g metadata raw = Ok id
  | GaveUp => overdue p g = true /\
      ((exists e, fetched p (uuid g) = Err e /\ ends_the_session e = false) \/
       exists raw metadata e, fetched p (uuid g) = Ok raw /\ metadata_for g = Ok metadata /\
         convert_and_ingest p g metadata raw = Err e)
  end.
Record Inv s : Prop := mkInv {
  inv_tracked : keyed (tracked s); inv_pending : keyed (pending s);
  inv_disk : forall u, on_disk s u -> in_memory s u \/ settled s u;
  inv_noted : forall u, in_memory s u \/ on_disk s u \/ settled s u -> noted s u
}.
(** What a poll that began at [s0] has done so far. *)
Record Since p s0 s : Prop := mkSince {
  since_inv : Inv s;
  since_fates : exists l, fates s = fates s0 ++ l /\ Forall (fun '(g, f) => justified p g f) l;
  since_memory : forall u, in_memory s0 u -> in_memory s u \/ settled s u;
  since_disk : forall u, on_disk s0 u -> on_disk s u \/ settled s u
}.
Lemma since_refl p s : Inv s -> Since p s s.
Proof. intros H. constructor; [done|exists []; by rewrite app_nil_r|auto..]. Qed.
Lemma order_elem m g : keyed m -> g ∈ order m <-> m !! uuid g = Some g.
Proof using order_perm.
  intros Hk. rewrite order_perm, list_elem_of_fmap. split.
  - intros ([u g'] & -> & H%elem_of_map_to_list). cbn. by rewrite (Hk u g' H).
  - intros H. exists (uuid g, g). split; [done|]. by apply elem_of_map_to_list.
Qed.
Lemma on_disk_saved s u : keyed (tracked s) -> keyed (pending s) ->
  on_disk (s <| file := Some (order (tracked s), order (pending s)) |>) u <-> in_memory s u.
Proof using order_perm.
  intros Ht Hq. unfold on_disk, in_memory. cbn. split.
  - intros (t & q & g & [= <- <-] & Hg & <-). apply elem_of_app in Hg as [Hg|Hg];
      apply order_elem in Hg; [left|done|right|done]; by eexists.
  - intros [[g Hg]|[g Hg]].
    + pose proof (Ht u g Hg) as E. exists (order (tracked s)), (order (pending s)), g. split_and!; [done| |done].
      apply elem_of_app. left. apply order_elem; [done|by rewrite E].
    + pose proof (Hq u g Hg) as E. exists (order (tracked s)), (order (pending s)), g. split_and!; [done| |done].
      apply elem_of_app. right. apply order_elem; [done|by rewrite E].
Qed.

(** ** Nothing is lost *)
Lemma inv_ext s s' :
  tracked s' = tracked s -> pending s' = pending s -> file s' = file s -> fates s' = fates s ->
  (forall u, noted s u -> noted s' u) -> Inv s -> Inv s'.
Proof.
  intros Et Ep Ef Ea Hn [H1 H2 H3 H4]. constructor; unfold on_disk, in_memory, settled in *;
    rewrite ?Et, ?Ep, ?Ef, ?Ea; auto.
Qed.
Lemma since_ext p s0 s s' :
  tracked s' = tracked s -> pending s' = pending s -> file s' = file s -> fates s' = fates s ->
  (forall u, noted s u -> noted s' u) -> Since p s0 s -> Since p s0 s'.
Proof.
  intros Et Ep Ef Ea Hn [H1 H2 H3 H4]. constructor; [by apply (inv_ext s)|by rewrite Ea|..];
    unfold on_disk, in_memory, settled in *; rewrite ?Et, ?Ep, ?Ef, ?Ea; auto.
Qed.
Lemma triple_apply (P : Collector -> Prop) p g k m r :
  (forall s reg, P s -> P (s <| registry := reg |>)) -> triple P (apply p g k m r) (fun _ => P) P.
Proof.
  intros H s Hs. unfold Collector.apply. destruct (Watch.apply _ _ _ _) as [reg []]; by apply H.
Qed.
Lemma since_registry p s0 s reg : Since p s0 s -> Since p s0 (s <| registry := reg |>).
Proof. by apply since_ext. Qed.
(** The games of [live_now], each noted. *)
Definition live_noted (live_now : gmap string LiveGame) s : Prop :=
  keyed live_now /\ forall u, is_Some (live_now !! u) -> noted s u.
Lemma live_noted_mono live s s' : (forall u, noted s u -> noted s' u) -> live_noted live s -> live_noted live s'.
Proof. intros H [? ?]. split; auto. Qed.
Definition listed p s0 (live : gmap string LiveGame) s : Prop := Since p s0 s /\ live_noted live s.
Lemma see_noted p s0 g live : triple (listed p s0 live) (see values p g live) (listed p s0) (Since p s0).
Proof.
  unfold see. apply (triple_bind _ _ _ (fun _ => listed p s0 live)).
  { eapply triple_weaken; [apply (triple_apply (listed p s0 live))|..]; try done.
    - intros s reg [? ?]. split; [by apply since_registry|by apply (live_noted_mono live s)].
    - by intros s [? _]. }
  intros _. apply (triple_bind _ _ _ (fun t s => listed p s0 live s /\ t = tracked s)); [by apply triple_gets|].
  intros t. apply (triple_bind _ _ _ (fun _ s => listed p s0 live s /\ noted s (uuid g))).
  - destruct (t !! uuid g) eqn:E.
    + intros s [[Hs Hl] ->]. split; [by split|]. apply (inv_noted s); [apply Hs|]. left. left. by eexists.
    + apply triple_modify. intros s [[Hs Hl] _].
      assert (Hn : forall u, noted s u -> noted (s <| discovered ::= fun l => l ++ [(uuid g, log_written p (uuid g))] |>) u).
      { intros u Hu. unfold noted. cbn. rewrite map_app. apply elem_of_app. by left. }
      split; [split; [by apply (since_ext p s0 s)|by apply (live_noted_mono live s)]|].
      unfold noted. cbn. rewrite map_app. apply elem_of_app. right. by left.
  - intros []. apply (triple_weaken _ _ _ _ _ _ _ (triple_ret _ (listed p s0) (Since p s0))); try done.
    intros s [[Hs [Hk Hl]] Hg]. split; [done|]. split.
    + apply map_Forall_insert_2; [done|exact Hk].
    + intros u. destruct (decide (u = uuid g)) as [->|Hne]; [done|]. rewrite lookup_insert_ne by done. apply Hl.
Qed.
Lemma see_all_noted p s0 games : forall live,
  triple (listed p s0 live) (see_all values p games live) (listed p s0) (Since p s0).
Proof.
  induction games as [|g games IH]; intros live; [apply triple_ret|].
  apply (triple_bind _ _ _ (listed p s0)); [apply see_noted|exact IH].
Qed.
Lemma list_modes_noted p s0 modes : forall live,
  triple (listed p s0 live) (list_modes values p modes live) (listed p s0) (Since p s0).
Proof.
  induction modes as [|mode modes IH]; intros live; [apply triple_ret|].
  apply (triple_bind _ _ _ (fun _ => listed p s0 live)); [apply triple_lift; [done|by intros s [? _]]|].
  intros games. apply (triple_bind _ _ _ (listed p s0)); [apply see_all_noted|exact IH].
Qed.
(** A finished game is queued, and still tracked. *)
Definition queued_up p s0 (live t : gmap string LiveGame) (done : list LiveGame) s : Prop :=
  listed p s0 live s /\ tracked s = t /\
  forall g, g ∈ done -> is_Some (live !! uuid g) \/ is_Some (pending s !! uuid g).
Lemma queue_finished_since p s0 live t done g :
  t !! uuid g = Some g ->
  triple (queued_up p s0 live t done) (queue_finished values p live g)
    (fun _ => queued_up p s0 live t (done ++ [g])) (Since p s0).
Proof.
  intros Ht. unfold queue_finished. destruct (live !! uuid g) as [g'|] eqn:E.
  - intros s (Hl & Et & Hd). split_and!; [done..|]. intros g1 [H| ->%list_elem_of_singleton]%elem_of_app; [auto|].
    left. by eexists.
  - apply (triple_bind _ _ _ (fun _ => queued_up p s0 live t done)).
    { eapply triple_weaken; [apply (triple_apply (queued_up p s0 live t done))|..]; try done.
      - intros s reg ([Hs Hl] & ? & ?). split_and!; [split; [by apply since_registry|]|done|done].
        by apply (live_noted_mono live s).
      - by intros s ([? _] & _). }
    intros _. apply triple_modify. intros s ([Hs Hl] & Et & Hd).
    destruct (pending s !! uuid g) as [q|] eqn:Eq.
    + assert (Hext : Since p s0 (s <| pending ::= fun q => match q !! uuid g with
          | Some _ => q | None => <[uuid g := g <| queued_at := Some (now p) |>]> q end |>)).
      { apply (since_ext p s0 s); try done. cbn. by rewrite Eq. }
      split_and!; [split; [done|by apply (live_noted_mono live s)]|done|]. cbn. rewrite Eq.
      intros g1 [H| ->%list_elem_of_singleton]%elem_of_app; [auto|]. right. by eexists.
    + assert (Hin : forall u, in_memory s u -> in_memory (s <| pending := <[uuid g := g <| queued_at := Some (now p) |>]> (pending s) |>) u).
      { intros u [H|H]; [by left|right]. cbn. rewrite lookup_insert_is_Some'. by right. }
      assert (Hg : noted s (uuid g)).
      { apply (inv_noted s); [apply Hs|]. left. left. rewrite Et, Ht. by eexists. }
      assert (Hext : Since p s0 (s <| pending := <[uuid g := g <| queued_at := Some (now p) |>]> (pending s) |>)).
      { destruct Hs as [[H1 H2 H3 H4] H5 H6 H7]. constructor; [constructor|done|..].
        - done.
        - by apply map_Forall_insert_2.
        - intros u Hu. destruct (H3 u Hu) as [?|?]; [left|by right]. by apply Hin.
        - intros u Hu. change (noted s u). destruct Hu as [[Hu|Hu]|Hu]; [apply H4; left; by left| |apply H4; by right].
          cbn in Hu. rewrite lookup_insert_is_Some' in Hu. destruct Hu as [<-|Hu]; [exact Hg|].
          apply H4. left. by right.
        - intros u Hu. destruct (H6 u Hu) as [?|?]; [left|by right]. by apply Hin.
        - exact H7. }
      assert (Es : s <| pending ::= fun q => match q !! uuid g with
          | Some _ => q | None => <[uuid g := g <| queued_at := Some (now p) |>]> q end |>
        = s <| pending := <[uuid g := g <| queued_at := Some (now p) |>]> (pending s) |>).
      { unfold set_field. cbn. by rewrite Eq. }
      rewrite Es. split_and!; [split; [done|by apply (live_noted_mono live s)]|done|].
      cbn. intros g1 [H| ->%list_elem_of_singleton]%elem_of_app.
      * destruct (Hd g1 H) as [?|?]; [by left|right]. rewrite lookup_insert_is_Some'. by right.
      * right. rewrite lookup_insert_eq. by eexists.
Qed.
(** The turn from the games tracked to the games listed. *)
Lemma turn_since p s0 live t :
  triple (queued_up p s0 live t (order t)) (modify (fun s => s <| tracked := live |>))
    (fun _ => Since p s0) (Since p s0).
Proof using order_perm.
  apply triple_modify. intros s ([Hs [Hk Hl]] & Et & Hd).
  assert (Hin : forall u, in_memory s u -> in_memory (s <| tracked := live |>) u).
  { intros u [[g Hg]|H]; [|by right]. pose proof (inv_tracked s (since_inv _ _ _ Hs)) as Ht.
    pose proof (Ht u g Hg) as E. assert (Hg' : g ∈ order t).
    { apply order_elem; rewrite <- Et; [done|by rewrite E]. }
    destruct (Hd g Hg') as [H|H]; rewrite E in H; [by left|by right]. }
  destruct Hs as [[H1 H2 H3 H4] H5 H6 H7]. constructor; [constructor|done|..].
  - exact Hk.
  - exact H2.
  - intros u Hu. destruct (H3 u Hu) as [?|?]; [left|by right]. by apply Hin.
  - intros u [[Hu|Hu]|Hu]; change (noted s u); [by apply Hl|apply H4; left; by right|apply H4; by right].
  - intros u Hu. destruct (H6 u Hu) as [?|?]; [left|by right]. by apply Hin.
  - exact H7.
Qed.
Lemma persist_since p s0 ok (X : Collector -> Prop) :
  (forall s f, X s -> X (s <| file := f |>)) ->
  triple (fun s => Since p s0 s /\ X s) (persist_state order ok) (fun _ s => Since p s0 s /\ X s) (Since p s0).
Proof using order_perm.
  intros HX s [Hs Hx]. unfold persist_state. destruct ok; [|exact Hs]. split; [|by apply HX].
  destruct Hs as [[H1 H2 H3 H4] H5 H6 H7].
  pose proof (fun u => on_disk_saved s u H1 H2) as Hd.
  constructor; [constructor|done|..].
  - exact H1.
  - exact H2.
  - intros u Hu%Hd. by left.
  - intros u [Hu|[Hu%Hd|Hu]]; change (noted s u); [apply H4; by left|apply H4; by left|apply H4; by right; right].
  - exact H6.
  - intros u Hu. destruct (H7 u Hu) as [H|H]; [|by right]. destruct (H3 u H) as [?|?]; [left|by right]. by apply Hd.
Qed.
Lemma leave_since p s0 g f :
  justified p g f ->
  triple (fun s => Since p s0 s /\ noted s (uuid g)) (leave g f) (fun _ => Since p s0) (Since p s0).
Proof.
  intros Hj. apply triple_modify. intros s [Hs Hg].
  set (s' := s <| pending ::= delete (uuid g) |> <| fates ::= fun l => l ++ [(g, f)] |>).
  assert (Hset : forall u, settled s u -> settled s' u).
  { intros u (g1 & f1 & H & E). exists g1, f1. split; [|done]. apply elem_of_app. by left. }
  assert (Hself : settled s' (uuid g)).
  { exists g, f. split; [|done]. apply elem_of_app. right. by left. }
  assert (Hin : forall u, in_memory s u -> in_memory s' u \/ settled s' u).
  { intros u [H|H]; [left; by left|]. destruct (decide (u = uuid g)) as [->|Hne]; [by right|].
    left. right. unfold s'. cbn. by rewrite lookup_delete_ne. }
  destruct Hs as [[H1 H2 H3 H4] (l & El & Hl) H6 H7]. constructor; [constructor|..].
  - exact H1.
  - by apply map_Forall_delete.
  - intros u Hu. destruct (H3 u Hu) as [?|?]; [by apply Hin|right; by apply Hset].
  - intros u Hu. change (noted s u). destruct Hu as [[Hu|Hu]|[Hu|(g1 & f1 & Hu & E)]].
    + apply H4. left. by left.
    + apply H4. left. right. cbn in Hu. destruct Hu as [x Hx]. apply lookup_delete_Some in Hx as [_ Hx]. by eexists.
    + apply H4. right. by left.
    + cbn in Hu. apply elem_of_app in Hu as [Hu|[= -> ->]%list_elem_of_singleton].
      * apply H4. right. right. by exists g1, f1.
      * by subst u.
  - exists (l ++ [(g, f)]). cbn. rewrite El, app_assoc. split; [done|]. apply Forall_app. split; [done|]. by constructor.
  - intros u Hu. destruct (H6 u Hu) as [?|?]; [by apply Hin|right; by apply Hset].
  - intros u Hu. destruct (H7 u Hu) as [?|?]; [by left|right; by apply Hset].
Qed.
(** The queue, worked through. *)
Definition working p s0 (batch : list LiveGame) s : Prop :=
  Since p s0 s /\ forall g, g ∈ batch -> noted s (uuid g).
Lemma working_apply p s0 batch g k m r :
  triple (working p s0 batch) (apply p g k m r) (fun _ => working p s0 batch) (Since p s0).
Proof.
  eapply triple_weaken; [apply (triple_apply (working p s0 batch))|..]; try done.
  - intros s reg [? ?]. split; [by apply since_registry|done].
  - by intros s [? _].
Qed.
Lemma working_persist p s0 batch ok :
  triple (working p s0 batch) (persist_state order ok) (fun _ => working p s0 batch) (Since p s0).
Proof using order_perm. by apply (persist_since p s0 ok (fun s => forall g, g ∈ batch -> noted s (uuid g))). Qed.
Lemma working_leave p s0 batch g f :
  justified p g f -> g ∈ batch ->
  triple (working p s0 batch) (leave g f) (fun _ => working p s0 batch) (Since p s0).
Proof.
  intros Hj Hg s [Hs Hn]. pose proof (leave_since p s0 g f Hj s (conj Hs (Hn g Hg))) as H.
  unfold leave, modify in *. by split.
Qed.
Lemma working_lift {A} p s0 batch (r : result unit A) :
  triple (working p s0 batch) (lift r) (fun a s => r = Ok a /\ working p s0 batch s) (Since p s0).
Proof. apply triple_lift; [done|by intros s [? _]]. Qed.
Lemma working_ret p s0 batch :
  triple (working p s0 batch) (mret tt) (fun _ => working p s0 batch) (Since p s0).
Proof. by intros s Hs. Qed.
Lemma triple_pure {A} (Q : Prop) P (m : Task A) R F :
  (Q -> triple P m R F) -> triple (fun s => Q /\ P s) m R F.
Proof. intros H s [HQ HP]. exact (H HQ s HP). Qed.
Lemma process_since p s0 batch g :
  g ∈ batch -> triple (working p s0 batch) (process p g) (fun _ => working p s0 batch) (Since p s0).
Proof using order_perm.
  intros Hg. unfold Collector.process. destruct (settling p g) eqn:Hs; [apply working_ret|].
  apply (triple_bind _ _ _ (fun _ => working p s0 batch)); [apply working_apply|]. intros _.
  destruct (fetched p (uuid g)) as [raw|e|] eqn:Hf.
  - apply (triple_bind _ _ _ (fun _ => working p s0 batch)); [apply working_apply|]. intros _.
    apply (triple_bind _ _ _ (fun m s => metadata_for g = Ok m /\ working p s0 batch s)).
    { eapply triple_weaken; [apply working_lift|done|..]; [|done]. intros m s [Hm ?]. split; [|done].
      by destruct (metadata_for g) as [m'| |]; simplify_eq. }
    intros m. apply triple_pure. intros Hm.
    apply (triple_bind _ _ _ (fun _ => working p s0 batch)); [|intros _; apply working_persist].
    destruct (convert_and_ingest p g m raw) as [id|e|] eqn:Hc.
    + apply (triple_bind _ _ _ (fun _ => working p s0 batch)); [apply working_apply|]. intros _.
      apply working_leave; [|done]. split; [done|]. by exists raw, m.
    + apply (triple_bind _ _ _ (fun _ => working p s0 batch)); [apply working_apply|]. intros _.
      destruct (overdue p g) eqn:Ho; [|apply working_ret]. apply working_leave; [|done].
      split; [done|]. split; [done|]. right. by exists raw, m, e.
    + by intros s [? _].
  - apply (triple_bind _ _ _ (fun _ => working p s0 batch)); [apply working_apply|]. intros _.
    destruct (ends_the_session e) eqn:He; [by intros s [? _]|].
    destruct (overdue p g) eqn:Ho; [|apply working_ret].
    apply (triple_bind _ _ _ (fun _ => working p s0 batch)); [|intros _; apply working_persist].
    apply working_leave; [|done]. split; [done|]. split; [done|]. left. by exists e.
  - by intros s [? _].
Qed.
Lemma poll_since modes p s0 : Inv s0 ->
  triple (fun s => s = s0) (poll modes p) (fun _ => Since p s0) (Since p s0).
Proof using order_perm.
  intros Hi. unfold Collector.poll.
  apply (triple_bind _ _ _ (listed p s0)).
  { eapply triple_weaken; [apply list_modes_noted| |done|done]. intros s ->.
    split; [by apply since_refl|]. split; [apply map_Forall_empty|]. intros u [x Hx]. by rewrite lookup_empty in Hx. }
  intros live. apply (triple_bind _ _ _ (fun t s => keyed t /\ listed p s0 live s /\ tracked s = t)).
  { apply triple_gets. intros s [Hs ?]. split; [apply Hs|done]. }
  intros t. apply triple_pure. intros Ht.
  apply (triple_bind _ _ _ (fun _ => queued_up p s0 live t (order t))).
  { eapply triple_weaken; [apply (triple_for_each _ (queued_up p s0 live t) (Since p s0) (order t))| |done|done].
    - intros done g rest E. apply queue_finished_since. apply order_elem; [done|]. rewrite E.
      apply elem_of_app. right. by left.
    - intros s [Hl Et]. split_and!; [done..|]. by intros g ?%elem_of_nil. }
  intros _. apply (triple_bind _ _ _ (fun _ => Since p s0)); [apply turn_since|]. intros _.
  apply (triple_bind _ _ _ (fun _ s => Since p s0 s /\ True)).
  { eapply triple_weaken; [apply (persist_since p s0 _ (fun _ => True))|..]; done. }
  intros _. apply (triple_bind _ _ _ (fun q => working p s0 (order q))).
  { apply triple_gets. intros s [Hs _]. split; [done|]. intros g Hg. apply order_elem in Hg; [|apply Hs].
    apply (inv_noted s); [apply Hs|]. left. right. by eexists. }
  intros q. eapply triple_weaken; [|done| |done].
  { apply (triple_for_each _ (fun _ => working p s0 (order q)) (Since p s0)). intros done g rest E.
    apply process_since. rewrite E. apply elem_of_app. right. by left. }
  by intros [] s [? _].
Qed.
Lemma step_polled modes s p : Inv s -> Since p s (step modes s (Polled p)).
Proof using order_perm.
  intros Hi. pose proof (poll_since modes p s Hi s eq_refl) as H. cbn [Collector.step].
  by destruct (poll modes p s) as [s' [a|e|]].
Qed.

(** ** The life of a collector *)
Lemma keyed_by_uuid_spec l :
  keyed (keyed_by_uuid l) /\ forall u, is_Some (keyed_by_uuid l !! u) <-> exists g, g ∈ l /\ uuid g = u.
Proof.
  unfold keyed_by_uuid. assert (H : forall m, keyed m ->
    let m' := fold_left (fun m g => <[uuid g := g]> m) l m in
    keyed m' /\ forall u, is_Some (m' !! u) <-> is_Some (m !! u) \/ exists g, g ∈ l /\ uuid g = u).
  { induction l as [|g l IH]; intros m Hm; cbn [fold_left].
    - split; [done|]. intros u. split; [by left|]. intros [?|(g & H%elem_of_nil & _)]; done.
    - destruct (IH (<[uuid g := g]> m)) as [Hk Hu]; [by apply map_Forall_insert_2|]. split; [done|].
      intros u. rewrite Hu, lookup_insert_is_Some'. split.
      + intros [[<-|H]|(g' & H & E)]; [right; exists g; by split; [left|]|by left|right].
        exists g'. by split; [right|].
      + intros [H|(g' & [->|H]%elem_of_cons & E)]; [left; by right|left; by left|right; by exists g']. }
  destruct (H ∅ (map_Forall_empty _)) as [Hk Hu]. split; [done|]. intros u. rewrite Hu. split; [|by right].
  intros [[x Hx]|?]; [by rewrite lookup_empty in Hx|done].
Qed.
Lemma in_memory_restart s u : in_memory (restart s) u <-> on_disk s u.
Proof.
  unfold in_memory, restart, on_disk. destruct (file s) as [[t q]|] eqn:E; cbn.
  - rewrite (proj2 (keyed_by_uuid_spec t)), (proj2 (keyed_by_uuid_spec q)). split.
    + intros [(g & Hg & <-)|(g & Hg & <-)]; exists t, q, g; (split_and!; [done| |done]); apply elem_of_app; auto.
    + intros (t' & q' & g & [= <- <-] & [H|H]%elem_of_app & E'); [left|right]; by exists g.
  - split; [|by intros (? & ? & ? & ? & _)]. intros [[x Hx]|[x Hx]]; by rewrite lookup_empty in Hx.
Qed.
Lemma inv_restart s : Inv s -> Inv (restart s).
Proof.
  intros [H1 H2 H3 H4]. pose proof (fun u => in_memory_restart s u) as Hm.
  assert (E : file (restart s) = file s /\ fates (restart s) = fates s /\ discovered (restart s) = discovered s /\
    keyed (tracked (restart s)) /\ keyed (pending (restart s))).
  { unfold restart. destruct (file s) as [[t q]|] eqn:Ef; cbn; split_and!;
      first [done|apply keyed_by_uuid_spec|apply map_Forall_empty]. }
  destruct E as (Ef & Ea & Ed & Ht & Hq). constructor; [done..| |].
  - intros u Hu. left. apply Hm. unfold on_disk in *. by rewrite Ef in Hu.
  - intros u Hu. unfold noted. rewrite Ed. apply H4. destruct Hu as [Hu|[Hu|Hu]].
    + right. left. by apply Hm.
    + right. left. unfold on_disk in *. by rewrite Ef in Hu.
    + right. right. unfold settled in *. by rewrite Ea in Hu.
Qed.
Record Kept (steps : list Step) s s' : Prop := mkKept {
  kept_inv : Inv s';
  kept_fates : exists l, fates s' = fates s ++ l /\
    Forall (fun '(g, f) => exists p, Polled p ∈ steps /\ justified p g f) l;
  kept_disk : forall u, on_disk s u -> on_disk s' u \/ settled s' u;
  kept_memory : Restarted ∉ steps -> forall u, in_memory s u -> in_memory s' u \/ settled s' u
}.
Lemma kept_step modes e s : Inv s -> Kept [e] s (step modes s e).
Proof using order_perm.
  intros Hi. destruct e as [p|].
  - destruct (step_polled modes s p Hi) as [H1 (l & E & Hl) H3 H4]. constructor; [done| |done|by intros _].
    exists l. split; [done|]. refine (Forall_impl _ _ _ Hl _). intros [g f] H. exists p. split; [by left|done].
  - cbn [Collector.step]. constructor; [by apply inv_restart|..].
    + exists []. rewrite app_nil_r. split; [|done]. unfold restart. by destruct (file s) as [[]|].
    + intros u Hu. left. unfold on_disk, restart in *. by destruct (file s) as [[]|] eqn:E; cbn; rewrite ?E.
    + intros H. destruct H. by left.
Qed.
Lemma kept_trans l1 l2 s1 s2 s3 : Kept l1 s1 s2 -> Kept l2 s2 s3 -> Kept (l1 ++ l2) s1 s3.
Proof.
  intros [A1 (a & Ea & Ha) A3 A4] [B1 (b & Eb & Hb) B3 B4].
  assert (Hset : forall u, settled s2 u -> settled s3 u).
  { intros u (g & f & H & E). exists g, f. split; [|done]. rewrite Eb. apply elem_of_app. by left. }
  constructor; [done|..].
  - exists (a ++ b). rewrite Eb, Ea, app_assoc. split; [done|]. apply Forall_app. split.
    + refine (Forall_impl _ _ _ Ha _). intros [g f] (p & H & J). exists p. split; [|done]. apply elem_of_app. by left.
    + refine (Forall_impl _ _ _ Hb _). intros [g f] (p & H & J). exists p. split; [|done]. apply elem_of_app. by right.
  - intros u Hu. destruct (A3 u Hu) as [H|H]; [by apply B3|right; by apply Hset].
  - intros Hr u Hu. rewrite elem_of_app in Hr. destruct (A4 ltac:(tauto) u Hu) as [H|H]; [|right; by apply Hset].
    apply B4; [tauto|done].
Qed.
Lemma kept_life modes steps : forall s, Inv s -> Kept steps s (life modes s steps).
Proof using order_perm.
  induction steps as [|e steps IH]; intros s Hi.
  - constructor; [done| |auto..]. exists []. by rewrite app_nil_r.
  - cbn [Collector.life fold_left]. pose proof (kept_step modes e s Hi) as H.
    apply (kept_trans [e] steps _ _ _ H). apply IH, H.
Qed.
Definition no_games : Collector := mkCollector ∅ ∅ None ∅ [] [].
Lemma inv_no_games : Inv no_games.
Proof.
  constructor; [apply map_Forall_empty..| |].
  - by intros u (? & ? & ? & ? & _).
  - intros u [[[x Hx]|[x Hx]]|[(? & ? & ? & ? & _)|(? & ? & H%elem_of_nil & _)]]; try done; by rewrite lookup_empty in Hx.
Qed.

(** ** What a poll does

    Where a queued game goes, from what the poll met alone. *)
Definition leaves p g : option Fate :=
  if settling p g then None
  else match fetched p (uuid g) with
       | Ok raw =>
         match metadata_for g with
         | Ok m => match convert_and_ingest p g m raw with
                   | Ok id => Some (Stored id)
                   | Err _ => if overdue p g then Some GaveUp else None
                   | Panic => None
                   end
         | _ => None
         end
       | Err _ => if overdue p g then Some GaveUp else None
       | Panic => None
       end.
Definition finished p g : LiveGame := g <| queued_at := Some (now p) |>.
Definition noting p g : string * bool := (uuid g, log_written p (uuid g)).
Definition unseen (t : gmap string LiveGame) g : bool := bool_decide (t !! uuid g = None).
Definition departures p (l : list LiveGame) : list (LiveGame * Fate) :=
  omap (fun g => pair g <$> leaves p g) l.
Definition without_departed p (l : list LiveGame) (q : gmap string LiveGame) : gmap string LiveGame :=
  fold_left (fun q g => match leaves p g with Some _ => delete (uuid g) q | None => q end) l q.

Lemma bind_ok {A B} (m : Task A) (f : A -> Task B) s s' b :
  (m ≫= f) s = (s', Ok b) -> exists a s1, m s = (s1, Ok a) /\ f a s1 = (s', Ok b).
Proof. unfold mbind, Task_bind. destruct (m s) as [s1 [a|e|]]; intros H; simplify_eq. by exists a, s1. Qed.
Lemma apply_ok p g k m r s s' :
  apply p g k m r s = (s', Ok tt) -> exists reg, s' = s <| registry := reg |>.
Proof. unfold Collector.apply. destruct (Watch.apply _ _ _ _) as [reg x]. intros [= <- _]. by exists reg. Qed.
(** A session up to its registry and its discovery log. *)
Definition same s s' : Prop :=
  tracked s' = tracked s /\ pending s' = pending s /\ file s' = file s /\ fates s' = fates s.
Lemma see_ok p g live s s' live' :
  see values p g live s = (s', Ok live') ->
  same s s' /\ live' = <[uuid g := g]> live /\
  discovered s' = discovered s ++ map (noting p) (List.filter (unseen (tracked s)) [g]).
Proof.
  unfold see. intros ([] & s1 & [reg ->]%apply_ok & (t & s2 & [= <- <-] & ([] & s3 & H & [= <- <-])%bind_ok)%bind_ok)%bind_ok.
  cbn in H |- *. unfold unseen. destruct (tracked s !! uuid g); injection H as <-; (split; [done|]); split;
    [done|by rewrite app_nil_r|done..].
Qed.
Lemma same_trans s1 s2 s3 : same s1 s2 -> same s2 s3 -> same s1 s3.
Proof. intros (A & B & C & D) (E & F & G & H). split_and!; congruence. Qed.
Lemma see_all_ok p games : forall live s s' live',
  see_all values p games live s = (s', Ok live') ->
  same s s' /\ live' = fold_left (fun m g => <[uuid g := g]> m) games live /\
  discovered s' = discovered s ++ map (noting p) (List.filter (unseen (tracked s)) games).
Proof.
  induction games as [|g games IH]; intros live s s' live' H; cbn [see_all] in H.
  - injection H as <- <-. by rewrite app_nil_r.
  - apply bind_ok in H as (l1 & s1 & (H1 & -> & E1)%see_ok & (H2 & -> & E2)%IH).
    split; [by apply (same_trans s s1)|]. split; [done|]. rewrite E2, E1, <- app_assoc, <- map_app.
    rewrite (proj1 H1), <- List.filter_app. done.
Qed.
Lemma list_modes_ok p modes : forall live s s' live',
  list_modes values p modes live s = (s', Ok live') ->
  exists lists, Forall2 (fun mode games => listing p (as_u32 (mode + FILTER_ID_OFFSET)) mode = Ok games) modes lists /\
  same s s' /\ live' = fold_left (fun m g => <[uuid g := g]> m) (concat lists) live /\
  discovered s' = discovered s ++ map (noting p) (List.filter (unseen (tracked s)) (concat lists)).
Proof.
  induction modes as [|mode modes IH]; intros live s s' live' H; cbn [list_modes] in H.
  - injection H as <- <-. exists []. by rewrite app_nil_r.
  - apply bind_ok in H as (games & s1 & [= -> Hg] & (l1 & s2 & (H1 & -> & E1)%see_all_ok & (lists & Hf & H2 & -> & E2)%IH)%bind_ok).
    exists (games :: lists). split; [by constructor|]. split; [by apply (same_trans _ s2)|]. cbn [concat].
    rewrite fold_left_app. split; [done|]. rewrite E2, E1, <- app_assoc, <- map_app, (proj1 H1), <- List.filter_app. done.
Qed.
Lemma for_each_ok {A} (f : A -> Task unit) (I : list A -> Collector -> Prop) l s s' :
  (forall done a rest s s', l = done ++ a :: rest -> I done s -> f a s = (s', Ok tt) -> I (done ++ [a]) s') ->
  I [] s -> for_each f l s = (s', Ok tt) -> I l s'.
Proof.
  intros Hf Hs H. pose proof (triple_for_each f I (fun _ => True) l) as T.
  assert (Hf' : forall done a rest, l = done ++ a :: rest -> triple (I done) (f a) (fun _ => I (done ++ [a])) (fun _ => True)).
  { intros done a rest E s1 H1. destruct (f a s1) as [s2 [[]|e|]] eqn:E'; [by eapply Hf|done..]. }
  specialize (T Hf' s Hs). by rewrite H in T.
Qed.
(** The queue once the games of [done] were looked at. *)
Definition queueing p (live t q : gmap string LiveGame) (done : list LiveGame) u : option LiveGame :=
  match q !! u with
  | Some g => Some g
  | None => match live !! u, t !! u with
            | None, Some g => if decide (g ∈ done) then Some (finished p g) else None
            | _, _ => None
            end
  end.
Lemma queueing_snoc p live t q done g u :
  keyed t -> t !! uuid g = Some g -> u <> uuid g -> queueing p live t q (done ++ [g]) u = queueing p live t q done u.
Proof.
  intros Hk Hg Hu. unfold queueing. destruct (q !! u), (live !! u), (t !! u) as [g'|] eqn:E; try done.
  assert (g' <> g) by (intros ->; apply Hu; by rewrite (Hk u g E)).
  apply decide_ext. rewrite elem_of_app, list_elem_of_singleton. tauto.
Qed.
Lemma queue_finished_ok p live t q done g s s' :
  keyed t -> t !! uuid g = Some g -> (forall u, pending s !! u = queueing p live t q done u) ->
  queue_finished values p live g s = (s', Ok tt) ->
  (forall u, pending s' !! u = queueing p live t q (done ++ [g]) u) /\
  s' = s <| registry := registry s' |> <| pending := pending s' |>.
Proof.
  intros Hk Hg Hp. unfold queue_finished. destruct (live !! uuid g) as [g'|] eqn:E.
  - intros [= <-]. split; [|by destruct s]. intros u. rewrite Hp. destruct (decide (u = uuid g)) as [->|Hu].
    + unfold queueing. by rewrite E.
    + symmetry. by apply queueing_snoc.
  - intros ([] & s1 & [reg ->]%apply_ok & [= <-])%bind_ok. split; [|by destruct s]. intros u.
    assert (Hin : g ∈ done ++ [g]) by (apply elem_of_app; right; by left).
    unfold set_field. cbn. destruct (pending s !! uuid g) as [old|] eqn:Eq.
    + rewrite Hp. destruct (decide (u = uuid g)) as [->|Hu]; [|symmetry; by apply queueing_snoc].
      rewrite Hp in Eq. revert Eq. unfold queueing. rewrite E, Hg. destruct (q !! uuid g); [done|].
      destruct (decide (g ∈ done)), (decide (g ∈ done ++ [g])); done.
    + destruct (decide (u = uuid g)) as [->|Hu].
      * rewrite lookup_insert_eq. rewrite Hp in Eq. revert Eq. unfold queueing. rewrite E, Hg.
        destruct (q !! uuid g); [done|]. by destruct (decide (g ∈ done ++ [g])).
      * rewrite lookup_insert_ne by done. rewrite Hp. symmetry. by apply queueing_snoc.
Qed.
Lemma queue_all_ok p live s s' :
  keyed (tracked s) -> for_each (queue_finished values p live) (order (tracked s)) s = (s', Ok tt) ->
  s' = s <| registry := registry s' |>
         <| pending := pending s ∪ (finished p <$> tracked s ∖ live) |>.
Proof using order_perm.
  intros Hk H.
  apply (for_each_ok _ (fun done s1 => (forall u, pending s1 !! u = queueing p live (tracked s) (pending s) done u) /\
    s1 = s <| registry := registry s1 |> <| pending := pending s1 |>)) in H as [Hp E].
  - enough (Eq : pending s' = pending s ∪ (finished p <$> tracked s ∖ live)) by (by rewrite <- Eq).
    apply map_eq. intros u. rewrite Hp, lookup_union, lookup_fmap, lookup_difference.
    unfold queueing. destruct (pending s !! u); [by destruct (live !! u), (tracked s !! u)|].
    destruct (live !! u) eqn:El; [by destruct (tracked s !! u)|]. destruct (tracked s !! u) as [g|] eqn:Et; [|done].
    rewrite decide_True; [done|]. apply order_elem; [done|]. by rewrite (Hk u g Et).
  - intros done g rest s1 s2 El [Hp E] Hf. assert (Hg : tracked s !! uuid g = Some g).
    { apply order_elem; [done|]. rewrite El. apply elem_of_app. right. by left. }
    destruct (queue_finished_ok _ _ _ _ _ _ _ _ Hk Hg Hp Hf) as [Hp' E']. split; [done|]. rewrite E', E. done.
  - split; [|by destruct s]. intros u. unfold queueing. destruct (pending s !! u) eqn:E, (live !! u), (tracked s !! u); done.
Qed.
(** One game, then the batch. *)
Lemma persist_ok ok s s' :
  persist_state order ok s = (s', Ok tt) -> s' = s <| file := Some (order (tracked s), order (pending s)) |>.
Proof. unfold persist_state. destruct ok; intros [= <-]; done. Qed.
Definition processed p g s : Collector :=
  match leaves p g with
  | Some f => s <| pending := delete (uuid g) (pending s) |> <| fates := fates s ++ [(g, f)] |>
  | None => s
  end.
Definition saved_state s : Prop := file s = Some (order (tracked s), order (pending s)).
Lemma process_ok p g s s' :
  saved_state s -> process p g s = (s', Ok tt) ->
  tracked s' = tracked s /\ pending s' = pending (processed p g s) /\ fates s' = fates (processed p g s) /\
  discovered s' = discovered s /\ saved_state s'.
Proof.
  intros Hs. unfold Collector.process, processed, leaves, saved_state.
  destruct (settling p g); [by intros [= <-]|].
  intros ([] & s1 & [reg ->]%apply_ok & H)%bind_ok. destruct (fetched p (uuid g)) as [raw|e|].
  - apply bind_ok in H as ([] & s1 & [reg1 ->]%apply_ok & (m & s2 & [= <- Hm] & H)%bind_ok).
    destruct (metadata_for g) as [m'| |]; simplify_eq/=.
    apply bind_ok in H as ([] & s2 & H & ->%persist_ok).
    destruct (convert_and_ingest p g m raw) as [id|e|]; [| |done].
    + apply bind_ok in H as ([] & s3 & [reg2 ->]%apply_ok & [= <-]). done.
    + apply bind_ok in H as ([] & s3 & [reg2 ->]%apply_ok & H).
      destruct (overdue p g); injection H as <-; done.
  - apply bind_ok in H as ([] & s1 & [reg1 ->]%apply_ok & H). destruct (ends_the_session e); [done|].
    destruct (overdue p g).
    + apply bind_ok in H as ([] & s2 & [= <-] & ->%persist_ok). done.
    + injection H as <-. done.
  - done.
Qed.
Lemma process_all_ok p l s s' :
  saved_state s -> for_each (process p) l s = (s', Ok tt) ->
  tracked s' = tracked s /\ pending s' = without_departed p l (pending s) /\
  fates s' = fates s ++ departures p l /\ discovered s' = discovered s /\ saved_state s'.
Proof.
  intros Hs H. unfold without_departed, departures.
  apply (for_each_ok _ (fun done s1 => tracked s1 = tracked s /\ pending s1 = without_departed p done (pending s) /\
    fates s1 = fates s ++ departures p done /\ discovered s1 = discovered s /\ saved_state s1)) in H; [done| |].
  - intros done g rest s1 s2 _ (A & B & C & D & E) Hf. destruct (process_ok p g s1 s2 E Hf) as (A' & B' & C' & D' & E').
    unfold without_departed, departures in *. rewrite fold_left_app, omap_app. cbn [fold_left omap list_omap].
    rewrite A', B', C', D', <- B. unfold processed. destruct (leaves p g); cbn; split_and!; try congruence.
    + by rewrite C, <- app_assoc.
    + by rewrite app_nil_r.
  - by rewrite app_nil_r.
Qed.
Lemma without_departed_kept p l q u g :
  keyed q -> without_departed p l q !! u = Some g <-> q !! u = Some g /\ forall g', g' ∈ l -> uuid g' = u -> leaves p g' = None.
Proof.
  revert q. unfold without_departed. induction l as [|g1 l IH]; intros q Hk; cbn [fold_left].
  { split; [|tauto]. intros H. split; [done|]. by intros g' ?%elem_of_nil. }
  destruct (leaves p g1) eqn:E.
  - rewrite IH by by apply map_Forall_delete. rewrite lookup_delete_Some. split.
    + intros [[Hne Hg] Hl]. split; [done|]. by intros g' [->|?]%elem_of_cons; [|apply Hl].
    + intros [Hg Hl]. split_and!; [|done|].
      * intros Hu. specialize (Hl g1 ltac:(by left) Hu). congruence.
      * intros g' ?. apply Hl. by right.
  - rewrite IH by done. split; intros [Hg Hl]; (split; [done|]).
    + by intros g' [->|?]%elem_of_cons; [|apply Hl].
    + intros g' ?. apply Hl. by right.
Qed.
Lemma without_departed_filter p q :
  keyed q -> without_departed p (order q) q = filter (fun '(_, g) => leaves p g = None) q.
Proof using order_perm.
  intros Hk. apply map_eq. intros u. apply option_eq. intros g.
  rewrite without_departed_kept, map_lookup_filter_Some by done. split; intros [Hg H]; (split; [done|]).
  - apply H; [apply order_elem; [done|]|]; by rewrite (Hk u g Hg).
  - intros g' Hg' <-. apply order_elem in Hg'; [|done]. congruence.
Qed.

(** ** When a game finished

    A poll found a game finished at [t]: it was followed, and no mode listed it any
    more. *)
Definition found_finished modes steps u (t : Z) : Prop :=
  exists l1 p l2 lists, steps = l1 ++ Polled p :: l2 /\ now p = t /\ is_Some (tracked (life modes no_games l1) !! u) /\
    Forall2 (fun mode games => listing p (as_u32 (mode + FILTER_ID_OFFSET)) mode = Ok games) modes lists /\
    u ∉ map uuid (concat lists).
Definition dated modes steps g : Prop := exists t, queued_at g = Some t /\ found_finished modes steps (uuid g) t.
Lemma dated_later modes steps more g : dated modes steps g -> dated modes (steps ++ more) g.
Proof.
  intros (t & Hg & l1 & p & l2 & lists & -> & H). exists t. split; [done|]. exists l1, p, (l2 ++ more), lists.
  by rewrite <- app_assoc.
Qed.
(** The queue and the state file hold games of [D] alone, and so do the games that
    left since there were [gone]. *)
Record Dates (D : LiveGame -> Prop) (gone : list (LiveGame * Fate)) s : Prop := mkDates {
  dates_keyed : keyed (pending s);
  dates_queue : forall u g, pending s !! u = Some g -> D g;
  dates_file : forall t q g, file s = Some (t, q) -> g ∈ q -> D g;
  dates_gone : exists l, fates s = gone ++ l /\ Forall (fun '(g, _) => D g) l
}.
Lemma dates_ext D gone s s' : pending s' = pending s -> file s' = file s -> fates s' = fates s -> Dates D gone s -> Dates D gone s'.
Proof. intros E1 E2 E3 [H0 H1 H2 H3]. constructor; by rewrite ?E1, ?E2, ?E3. Qed.
Section Dated.
Context (D : LiveGame -> Prop) (gone : list (LiveGame * Fate)) (followed : gmap string LiveGame).
Definition dating s : Prop := Dates D gone s /\ tracked s = followed.
Lemma dating_apply p g k m r : triple dating (apply p g k m r) (fun _ => dating) dating.
Proof. apply triple_apply. intros s reg [H E]. split; [by apply (dates_ext _ _ s)|done]. Qed.
Lemma dates_apply p g k m r : triple (Dates D gone) (apply p g k m r) (fun _ => Dates D gone) (Dates D gone).
Proof. apply triple_apply. intros s reg H. by apply (dates_ext _ _ s). Qed.
Lemma dating_see p g live : triple dating (see values p g live) (fun _ => dating) dating.
Proof.
  unfold see. apply (triple_bind _ _ _ (fun _ => dating)); [apply dating_apply|]. intros _.
  apply (triple_bind _ _ _ (fun _ => dating)); [by apply triple_gets|]. intros t.
  apply (triple_bind _ _ _ (fun _ => dating)); [|intros _; by intros s].
  destruct (t !! uuid g); [by intros s|]. apply triple_modify. intros s [H E]. split; [by apply (dates_ext _ _ s)|done].
Qed.
Lemma dating_list_modes p modes : forall live, triple dating (list_modes values p modes live) (fun _ => dating) dating.
Proof.
  assert (Hall : forall games live, triple dating (see_all values p games live) (fun _ => dating) dating).
  { induction games as [|g games IH]; intros live; [by intros s|]. apply (triple_bind _ _ _ (fun _ => dating)); [apply dating_see|exact IH]. }
  induction modes as [|mode modes IH]; intros live; [by intros s|].
  apply (triple_bind _ _ _ (fun _ => dating)); [by apply triple_lift|]. intros games.
  apply (triple_bind _ _ _ (fun _ => dating)); [apply Hall|exact IH].
Qed.
Lemma dates_queue_finished p live g : (live !! uuid g = None -> D (g <| queued_at := Some (now p) |>)) ->
  triple (Dates D gone) (queue_finished values p live g) (fun _ => Dates D gone) (Dates D gone).
Proof.
  intros Hg. unfold queue_finished. destruct (live !! uuid g); [by intros s|].
  apply (triple_bind _ _ _ (fun _ => Dates D gone)); [apply dates_apply|]. intros _. apply triple_modify.
  intros s [H0 H1 H2 H3]. constructor; [| |done..]; cbn; destruct (pending s !! uuid g); [done|by apply map_Forall_insert_2|apply H1|].
  intros u g'  [[<- <-]|[_ H]]%lookup_insert_Some; [by apply Hg|by eapply H1].
Qed.
Lemma dates_persist ok : triple (Dates D gone) (persist_state order ok) (fun _ => Dates D gone) (Dates D gone).
Proof using order_perm.
  intros s [H0 H1 H2 H3]. unfold persist_state. destruct ok; [|done]. constructor; [done..| |done]. cbn.
  intros t q g [= _ <-] Hg. apply order_elem in Hg; [|done]. by eapply H1.
Qed.
Lemma dates_process p g : D g ->
  triple (Dates D gone) (process p g) (fun _ => Dates D gone) (Dates D gone).
Proof using order_perm.
  intros Hg. set (P := Dates D gone).
  assert (Happ : forall k m r, triple P (apply p g k m r) (fun _ => P) P) by (intros; apply dates_apply).
  assert (Hleave : forall f, triple P (leave g f) (fun _ => P) P).
  { intros f. apply triple_modify. intros s [H0 H1 H2 (l & El & Hl)]. constructor; cbn; [by apply map_Forall_delete| |done|].
    - intros u g' [_ H]%lookup_delete_Some. by eapply H1.
    - exists (l ++ [(g, f)]). rewrite El, app_assoc. split; [done|]. apply Forall_app. split; [done|]. by constructor. }
  assert (Hret : triple P (mret tt) (fun _ => P) P) by (by intros s).
  assert (Hlift : forall A (r : result unit A), triple P (lift r) (fun _ => P) P) by (intros; by apply triple_lift).
  unfold Collector.process. destruct (settling p g); [apply Hret|].
  apply (triple_bind _ _ _ (fun _ => P)); [apply Happ|]. intros _. destruct (fetched p (uuid g)) as [raw|e|].
  - apply (triple_bind _ _ _ (fun _ => P)); [apply Happ|]. intros _.
    apply (triple_bind _ _ _ (fun _ => P)); [apply Hlift|]. intros m.
    apply (triple_bind _ _ _ (fun _ => P)); [|intros _; apply dates_persist].
    destruct (convert_and_ingest p g m raw); [| |apply Hlift];
      (apply (triple_bind _ _ _ (fun _ => P)); [apply Happ|]; intros _); [apply Hleave|].
    destruct (overdue p g); [apply Hleave|apply Hret].
  - apply (triple_bind _ _ _ (fun _ => P)); [apply Happ|]. intros _. destruct (ends_the_session e); [apply Hlift|].
    destruct (overdue p g); [|apply Hret]. apply (triple_bind _ _ _ (fun _ => P)); [apply Hleave|intros _; apply dates_persist].
  - apply Hlift.
Qed.
End Dated.
Lemma poll_dates D modes p s0 : Inv s0 -> Dates D (fates s0) s0 ->
  (forall g lists, Forall2 (fun mode games => listing p (as_u32 (mode + FILTER_ID_OFFSET)) mode = Ok games) modes lists ->
     uuid g ∉ map uuid (concat lists) -> is_Some (tracked s0 !! uuid g) -> D (g <| queued_at := Some (now p) |>)) ->
  Dates D (fates s0) (fst (poll modes p s0)).
Proof using order_perm.
  intros Hi Hd Hnew. set (P := Dates D (fates s0)).
  assert (H : triple (fun s => s = s0) (poll modes p) (fun _ => P) P).
  { unfold Collector.poll.
    apply (triple_bind _ _ _ (fun live s => dating D (fates s0) (tracked s0) s /\ exists lists,
      Forall2 (fun mode games => listing p (as_u32 (mode + FILTER_ID_OFFSET)) mode = Ok games) modes lists /\ live = keyed_by_uuid (concat lists))).
    { intros s ->. pose proof (dating_list_modes D (fates s0) (tracked s0) p modes ∅ s0 (conj Hd eq_refl)) as Hl.
      destruct (list_modes values p modes ∅ s0) as [s1 [live|e|]] eqn:E; [|apply Hl..]. split; [exact Hl|].
      apply list_modes_ok in E as (lists & Hf & _ & -> & _). by exists lists. }
    intros live. apply (triple_bind _ _ _ (fun t s => P s /\ t = tracked s0 /\ exists lists,
      Forall2 (fun mode games => listing p (as_u32 (mode + FILTER_ID_OFFSET)) mode = Ok games) modes lists /\ live = keyed_by_uuid (concat lists))).
    { apply triple_gets. by intros s [[? ?] ?]. }
    intros t s [Hs [-> (lists & Hf & ->)]]. revert s Hs.
    change (triple P (for_each (queue_finished values p (keyed_by_uuid (concat lists))) (order (tracked s0)) ≫= (fun _ =>
      modify (fun s => s <| tracked := keyed_by_uuid (concat lists) |>) ≫= (fun _ => persist_state order (saved p None) ≫= (fun _ =>
      gets pending ≫= (fun q => for_each (process p) (order q)))))) (fun _ => P) P).
    apply (triple_bind _ _ _ (fun _ => P)).
    { apply (triple_for_each _ (fun _ => P) P). intros done g rest E. apply dates_queue_finished. intros Hg. apply (Hnew g lists); [done| |].
      - intros (g' & Eg & Hg')%list_elem_of_fmap. pose proof (proj2 (proj2 (keyed_by_uuid_spec (concat lists)) (uuid g'))) as H.
        rewrite <- Eg, Hg in H. destruct H as [x Hx]; [by exists g'|done].
      - assert (Hin : g ∈ order (tracked s0)) by (rewrite E; apply elem_of_app; right; by left).
        apply order_elem in Hin; [|apply Hi]. by eexists. }
    intros _. apply (triple_bind _ _ _ (fun _ => P)); [apply triple_modify; intros s Hs; by apply (dates_ext _ _ s)|]. intros _.
    apply (triple_bind _ _ _ (fun _ => P)); [apply dates_persist|]. intros _.
    apply (triple_bind _ _ _ (fun q s => P s /\ forall g, g ∈ order q -> D g)).
    { apply triple_gets. intros s Hs. split; [done|]. intros g Hg. apply order_elem in Hg; [|apply Hs]. by eapply (dates_queue _ _ _ Hs). }
    intros q s [Hs Hq]. revert s Hs. apply (triple_for_each _ (fun _ => P) P). intros done g rest E. apply dates_process, Hq.
    rewrite E. apply elem_of_app. right. by left. }
  specialize (H s0 eq_refl). by destruct (poll modes p s0) as [s1 [[]|e|]].
Qed.
Lemma dates_mono (D D' : LiveGame -> Prop) gone s : (forall g, D g -> D' g) -> Dates D gone s -> Dates D' gone s.
Proof.
  intros H [H0 H1 H2 (l & E & Hl)]. constructor; [done|eauto..|]. exists l. split; [done|].
  eapply Forall_impl; [exact Hl|]. intros [g f]. apply H.
Qed.
Lemma life_snoc modes steps e s : life modes s (steps ++ [e]) = step modes (life modes s steps) e.
Proof. unfold Collector.life. by rewrite fold_left_app. Qed.
Lemma keyed_by_uuid_elem l u g : keyed_by_uuid l !! u = Some g -> g ∈ l.
Proof.
  unfold keyed_by_uuid. assert (H : forall m : gmap string LiveGame, fold_left (fun m g => <[uuid g := g]> m) l m !! u = Some g -> m !! u = Some g \/ g ∈ l).
  { induction l as [|a l IH]; intros m Hm; [by left|]. cbn [fold_left] in Hm. apply IH in Hm as [Hm|Hm]; [|right; by right].
    apply lookup_insert_Some in Hm as [[_ ->]|[_ Hm]]; [right; by left|by left]. }
  intros [Hm|Hm]%H; [by rewrite lookup_empty in Hm|done].
Qed.
(** One step of a life whose games are all dated. *)
Lemma step_dates modes steps e : let s := life modes no_games steps in
  Inv s -> Dates (dated modes steps) (fates s) s -> Dates (dated modes (steps ++ [e])) (fates s) (step modes s e).
Proof using order_perm.
  cbv zeta. intros Hi Hd. apply (dates_mono _ (dated modes (steps ++ [e]))) in Hd; [|intros g; apply dated_later].
  destruct e as [p|]; cbn [Collector.step].
  - apply poll_dates; [done..|]. intros g lists Hf Hu Ht. exists (now p). split; [done|].
    exists steps, p, [], lists. by split_and!.
  - destruct Hd as [H0 H1 H2 _]. unfold restart. destruct (file _) as [[t q]|] eqn:Ef; cbn; constructor; cbn;
      try (by exists []; rewrite app_nil_r); try apply map_Forall_empty; try (intros u g; by rewrite lookup_empty).
    + apply keyed_by_uuid_spec.
    + intros u g Hg%keyed_by_uuid_elem. by eapply H2.
    + intros t' q' g. rewrite Ef. intros [= <- <-] Hg. by eapply H2.
    + intros t' q' g. by rewrite Ef.
Qed.
Lemma life_dates modes steps : let s := life modes no_games steps in Inv s /\ Dates (dated modes steps) (fates s) s.
Proof using order_perm.
  cbv zeta. induction steps as [|e steps [Hi Hd]] using rev_ind.
  - split; [apply inv_no_games|]. constructor; [apply map_Forall_empty|..|by exists []].
    + intros u g H. cbn in H. by rewrite lookup_empty in H.
    + done.
  - rewrite life_snoc. split; [apply (kept_step modes e _ Hi)|].
    destruct (step_dates modes steps e Hi Hd) as [H0 H1 H2 _]. constructor; [done..|]. exists []. by rewrite app_nil_r.
Qed.
Lemma left_when modes before after g f : let s := life modes no_games before in
  (g, f) ∈ fates (life modes s after) -> (g, f) ∈ fates s \/
  exists a1 p a2, after = a1 ++ Polled p :: a2 /\ justified p g f /\ dated modes (before ++ a1 ++ [Polled p]) g.
Proof using order_perm.
  cbv zeta. induction after as [|e after IH] using rev_ind; [by left|]. rewrite life_snoc.
  assert (El : life modes (life modes no_games before) after = life modes no_games (before ++ after)).
  { unfold Collector.life. by rewrite fold_left_app. }
  destruct (life_dates modes (before ++ after)) as [Hi Hd]. cbv zeta in Hi, Hd.
  destruct (step_dates modes (before ++ after) e Hi Hd) as [_ _ _ (l & E & Hl)].
  rewrite El in *. rewrite E. intros [H|H]%elem_of_app.
  { destruct (IH H) as [?|(a1 & p & a2 & -> & Hx)]; [by left|right]. exists a1, p, (a2 ++ [e]). by rewrite <- app_assoc. }
  right. destruct e as [p|].
  - destruct (step_polled modes _ p Hi) as [_ (l' & E' & Hl') _ _]. cbn [Collector.step] in *.
    rewrite E in E'. apply app_inv_head in E' as <-. exists after, p, []. split; [done|].
    split; [exact (proj1 (Forall_forall _ _) Hl' _ H)|]. rewrite app_assoc. exact (proj1 (Forall_forall _ _) Hl _ H).
  - exfalso. cbn [Collector.step] in E. unfold restart in E. destruct (file _) as [[t q]|]; cbn in E;
      (rewrite <- (app_nil_r (fates _)) in E at 1; apply app_inv_head in E as <-; by apply elem_of_nil in H).
Qed.
Lemma settled_waited p g t : queued_at g = Some t -> settling p g = false -> t + SETTLE_SECS <= now p.
Proof. unfold settling, waited. intros -> H%Z.ltb_ge. unfold sat_sub, SETTLE_SECS in *. lia. Qed.
Lemma overdue_waited p g t : queued_at g = Some t -> overdue p g = true -> t + GIVE_UP_SECS < now p.
Proof. unfold overdue, waited. intros -> H%Z.ltb_lt. unfold sat_sub, GIVE_UP_SECS in *. lia. Qed.


(** C8: a poll that no error ended does this and nothing else: the games it
    follows are those the modes listed; the ones that are no longer listed join
    the queue at the time of the poll, those already queued keeping theirs; each
    game of the queue goes where [leaves] says, stored, dropped or kept; the
    state file holds what is followed and what is queued then; and of the games
    listed, those not followed before are noted, in order. *)
Theorem poll_refines modes before p s' :
  let s := life modes no_games before in
  poll modes p s = (s', Ok tt) ->
  exists lists,
    Forall2 (fun mode games => listing p (as_u32 (mode + FILTER_ID_OFFSET)) mode = Ok games) modes lists /\
    let live := keyed_by_uuid (concat lists) in
    let queue := pending s ∪ (finished p <$> tracked s ∖ live) in
    tracked s' = live /\
    pending s' = filter (fun '(_, g) => leaves p g = None) queue /\
    fates s' = fates s ++ departures p (order queue) /\
    file s' = Some (order (tracked s'), order (pending s')) /\
    discovered s' = discovered s ++ map (noting p) (List.filter (unseen (tracked s)) (concat lists)).
Proof using order_perm.
  cbv zeta. pose proof (kept_inv _ _ _ (kept_life modes before no_games inv_no_games)) as Hi.
  set (s := life modes no_games before) in *. clearbody s. destruct Hi as [Ht Hq _ _].
  unfold Collector.poll.
  intros (live & s1 & (lists & Hl & (E1 & E2 & E3 & E4) & -> & E5)%list_modes_ok & H)%bind_ok.
  apply bind_ok in H as (t & s2 & [= <- <-] & H). apply bind_ok in H as ([] & s3 & H3 & H).
  apply bind_ok in H as ([] & s4 & [= <-] & H). apply bind_ok in H as ([] & s5 & ->%persist_ok & H).
  apply bind_ok in H as (q & s6 & [= <- <-] & H).
  apply queue_all_ok in H3; [|by rewrite E1]. apply process_all_ok in H as (F1 & F2 & F3 & F4 & F5); [|done].
  exists lists. fold (keyed_by_uuid (concat lists)) in *. rewrite H3 in F1, F2, F3, F4. cbn in F1, F2, F3, F4.
  rewrite E1, E2, E4, E5 in *. split; [done|]. split_and!; [done| |done|exact F5|done].
  rewrite F2. apply without_departed_filter. intros u g Hu. apply lookup_union_Some_raw in Hu as [Hu|[_ Hu]].
  - by apply Hq.
  - apply lookup_fmap_Some in Hu as (g' & <- & [Hu _]%lookup_difference_Some). by apply (Ht u g').
Qed.
End Facts.

(** ** The idle time *)
Lemma others_spec os : forall b, Refetch.reachable b ->
  Refetch.reachable (fold_left other os b) /\ Refetch.pending (fold_left other os b) = Refetch.pending b.
Proof.
  induction os as [|o os IH]; intros b Hb; [done|]. cbn [fold_left].
  assert (H : Refetch.reachable (other b o) /\ Refetch.pending (other b o) = Refetch.pending b).
  { destruct o; (split; [eapply Refetch.Reach_step; [exact Hb|constructor]|done]). }
  destruct H as [H1 H2]. destruct (IH _ H1) as [H3 H4]. split; [done|]. by rewrite H4.
Qed.
Lemma take_next_pending b :
  Refetch.pending (snd (Refetch.take_next b)) =
  match fst (Refetch.take_next b) with Some r => r :: Refetch.pending b | None => Refetch.pending b end.
Proof. unfold Refetch.take_next. by destruct (Refetch.claim _ _) as [[r|] q]. Qed.
Lemma answered request (b b' : Refetch.Broker) (held : list Refetch.Request) :
  Refetch.reachable b -> Refetch.pending b = request :: held ->
  Refetch.pending b' = Refetch.pending (Refetch.release request b) ->
  (request ∈ Refetch.pending b -> Refetch.step b b') ->
  Refetch.reachable b' /\ forall r, r ∈ Refetch.pending b' -> r ∈ held.
Proof.
  intros Hb E Hp Hs. split.
  - eapply Refetch.Reach_step; [exact Hb|]. apply Hs. rewrite E. by left.
  - intros r. rewrite Hp. cbn. rewrite E.
    intros [Hr Hne]%list_elem_of_In%filter_In. apply list_elem_of_In, elem_of_cons in Hr as [->|Hr]; [|done].
    by rewrite Nat.eqb_refl in Hne.
Qed.
(** The idle time of a poll leaves no request behind: every request the
    collector claims is answered, with the record or the refusal of the server,
    before the next is claimed and before a failed session is torn down, so
    that a waiter who still waits is in the queue or with another collector. *)
Theorem claimed_requests_are_answered turns b served :
  Refetch.reachable b ->
  let '(b', r) := serve_refetches turns b served in
  Refetch.reachable b' /\
  (forall request, request ∈ Refetch.pending b' -> request ∈ Refetch.pending b) /\
  (forall c, Refetch.channels b' !! c = Some Refetch.Waiting ->
     c ∈ ids (Refetch.queue b') \/ c ∈ ids (Refetch.pending b)).
Proof.
  intros Hb.
  assert (H : let '(b', r) := serve_refetches turns b served in Refetch.reachable b' /\
    forall request, request ∈ Refetch.pending b' -> request ∈ Refetch.pending b).
  { revert b served Hb. induction turns as [|turn turns IH]; intros b served Hb; cbn [serve_refetches]; [done|].
    destruct (others_spec (idle turn) b Hb) as [H1 E1].
    pose proof (Refetch.Reach_step _ _ H1 (Refetch.Step_claim _)) as H2.
    pose proof (take_next_pending (fold_left other (idle turn) b)) as E2.
    destruct (Refetch.take_next _) as [[request|] b1]; cbn [snd] in H2, E2.
    - destruct (others_spec (meanwhile turn) b1 H2) as [H3 E3]. rewrite E2, E1 in E3.
      set (b2 := fold_left other (meanwhile turn) b1) in *.
      destruct (fetch turn (Refetch.uuid request)) as [raw|e|].
      + destruct (answered request b2 (Refetch.answer_with request (Ok raw) b2) (Refetch.pending b)) as [H4 H5]; [done..| |].
        { by apply Refetch.Step_answer. }
        specialize (IH _ (S served) H4). destruct (serve_refetches turns _ _) as [b' r]. naive_solver.
      + destruct (answered request b2 (Refetch.answer_with request (Err (Refetch.Refused (text e))) b2) (Refetch.pending b))
          as [H4 H5]; [done..| |].
        { by apply Refetch.Step_answer. }
        destruct (ends_the_session e); [done|].
        specialize (IH _ served H4). destruct (serve_refetches turns _ _) as [b' r]. naive_solver.
      + apply (answered request b2 (Refetch.drop_pending request b2)); [done..|]. by apply Refetch.Step_drop.
    - specialize (IH b1 served H2). rewrite E2, E1 in IH. exact IH. }
  destruct (serve_refetches turns b served) as [b' r]. destruct H as [H1 H2]. split_and!; [done..|].
  intros c Hc. destruct (reachable_wf b' H1) as (_ & _ & _ & _ & Hw). specialize (Hw c Hc).
  apply elem_of_app in Hw as [?|Hw]; [by left|right]. unfold ids in *.
  apply list_elem_of_fmap in Hw as (request & -> & Hr). apply list_elem_of_fmap. exists request. auto.
Qed.

(** ** Witness: a game is listed, ends, is refused once and then stored. *)
Definition toy_order (m : gmap string LiveGame) : list LiveGame := map snd (map_to_list m).
Definition toy_values (m : Watch.WatchRegistry) : list Watch.WatchRecord := map snd (map_to_list m).
Definition toy_raw : list Z := message_bytes (record_fields 210715 sample_record).
Definition toy_id : list Z := repeat 7 16.
(** The live list with one jade game, as the server sends it. *)
Definition toy_listing : list Z :=
  message_bytes [bytes_field 1 []; bytes_field 2 (message_bytes [text_field 1 "260723-a"; varint_field 2 5;
    bytes_field 3 (message_bytes [bytes_field 3 (message_bytes [varint_field 2 12])])])].
Definition toy_game : LiveGame := mkGame "260723-a" 12 5 None.
Example toy_listing_parses : builtin_listing (Ok toy_listing) 16 = Ok [toy_game].
Proof. vm_compute. reflexivity. Qed.
Definition toy_poll (now : Z) (games : list LiveGame) (answers : result Failure (list Z)) : Poll :=
  mkPoll now (fun _ _ => Ok games) (fun _ => answers)
    (fun _ _ _ => Ok (Ingest.mkAccepted toy_id "" false)) (fun _ => true) (fun _ => true).
Definition unwritten : result Failure (list Z) := Err (mkFailure (Some (mkServerError 1203)) "1203").
Abbreviation toy_life := (life (fun _ => "{}") (fun l => l) inl toy_order toy_values [12]).
Definition toy_before : list Step := [Polled (toy_poll 1000 [toy_game] unwritten)].
Definition toy_after : list Step :=
  [Restarted; Polled (toy_poll 2000 [] unwritten); Polled (toy_poll 2060 [] unwritten);
   Polled (toy_poll 2120 [] unwritten); Polled (toy_poll 2180 [] (Ok toy_raw))].
Example toy_stored : fates (toy_life (toy_life no_games toy_before) toy_after)
  = [(toy_game <| queued_at := Some 2000 |>, Stored toy_id)].
Proof. vm_compute. reflexivity. Qed.
Lemma poll_refines_witness :
  let s := toy_life no_games [Polled (toy_poll 1000 [toy_game] unwritten); Polled (toy_poll 2000 [] unwritten)] in
  let p := toy_poll 2180 [] (Ok toy_raw) in
  let s' := fst (poll (fun _ => "{}") (fun l => l) inl toy_order toy_values [12] p s) in
  snd (poll (fun _ => "{}") (fun l => l) inl toy_order toy_values [12] p s) = Ok tt /\
  file s' = Some (toy_order (tracked s'), toy_order (pending s')) /\ discovered s' = discovered s.
Proof.
  cbv zeta. split; [vm_compute; reflexivity|].
  pose proof (poll_refines (fun _ => "{}") (fun l => l) inl toy_order toy_values (fun m => reflexivity _) [12]
    [Polled (toy_poll 1000 [toy_game] unwritten); Polled (toy_poll 2000 [] unwritten)] (toy_poll 2180 [] (Ok toy_raw))
    (fst (poll (fun _ => "{}") (fun l => l) inl toy_order toy_values [12] (toy_poll 2180 [] (Ok toy_raw))
      (toy_life no_games [Polled (toy_poll 1000 [toy_game] unwritten); Polled (toy_poll 2000 [] unwritten)])))) as H.
  destruct H as (lists & Hl & _ & _ & _ & Hf & Hd); [vm_compute; reflexivity|].
  split; [exact Hf|]. rewrite Hd. apply Forall2_cons_inv_l in Hl as (games & rest & Hg & ->%Forall2_nil_inv_l & ->).
  injection Hg as <-. cbn [concat List.filter app map]. apply app_nil_r.
Defined.
Lemma claimed_requests_are_answered_witness :
  Refetch.reachable toy_broker /\
  Refetch.reachable (fst (serve_refetches [mkTurn [Left "c"] [] (fun _ => Ok [7])] toy_broker 0)).
Proof.
  split; [exact toy_reachable|].
  exact (proj1 (claimed_requests_are_answered [mkTurn [Left "c"] [] (fun _ => Ok [7])] toy_broker 0 toy_reachable)).
Defined.
