(* ===== verification/Service.v ===== *)
(** What the services of the console share: their phases, the actions on them
    and their errors ([src/src/watch_service.rs]). *)
From S2P Require Import Prelude Text.
#[local] Open Scope string_scope.
#[local] Open Scope list_scope.
#[local] Open Scope Z_scope.

Module Service.
Inductive ServicePhase := Stopped | Starting | Running | Reloading | Stopping | Failed.
#[export] Instance ServicePhase_dec : EqDecision ServicePhase.
Proof. solve_decision. Defined.
Inductive WatchAction := Start | Stop | Reload.
(** The errors of other crates are their texts. *)
Inductive WatchServiceError :=
| InvalidConfig (why : string)
| RevisionConflict (submitted current : Z)
| ModuleNotInstalled (kind version : string)
| InvalidModule (why : string)
| ModuleFailed (why : string)
| Io (why : string)
| Json (why : string).
(** The [Display] of [thiserror]. *)
Definition to_string (e : WatchServiceError) : string :=
  match e with
  | InvalidConfig why => "invalid watch configuration: " +:+ why
  | RevisionConflict submitted current =>
    "watch configuration has moved on: this edit was made against r" +:+ pretty submitted
    +:+ ", the service is at r" +:+ pretty current
  | ModuleNotInstalled kind version => "module not installed: " +:+ kind +:+ "/" +:+ version
  | InvalidModule why => "module package is invalid: " +:+ why
  | ModuleFailed why => "module call failed: " +:+ why
  | Io why => "watch service IO error: " +:+ why
  | Json why => "watch service serialization error: " +:+ why
  end.
End Service.
