(* ===== verification/Paipuya.v ===== *)
(** The sync of the catalogue of a third-party site: its configuration, the
    pacing of the requests, the walk of one mode from its cursor, and the workers
    of a run ([src/src/paipuya.rs]), with the cursor table of
    [src/src/catalog.rs]. *)
From S2P Require Import Prelude Text Tiles Json Proto Service Accounts.
#[local] Open Scope string_scope.
#[local] Open Scope list_scope.
#[local] Open Scope Z_scope.

Module Paipuya.
Import Modes Service.

(** Moments and durations are in nanoseconds. *)
Abbreviation DateTime := Z.
Definition second : Z := 1000000000.
Definition num_seconds (delta : Z) : Z := Z.quot delta second.
Definition timestamp_millis (at_ : DateTime) : Z := at_ / 1000000.

Definition ALL_MODES : list Z := [8; 9; 11; 12; 15; 16; 21; 22; 23; 24; 25; 26].
Definition MAX_PAGE : nat := 500.
Definition MAX_CONCURRENCY : nat := 8.
Definition MIN_REQUEST_INTERVAL_MS : Z := 200.

(** ** The pacing

    [next] is the earliest moment the next request may leave. [acquired] is the
    clock when the lock is held, [woken] when the caller is released: not before
    [next]. *)
Record Tick := mkTick { acquired : DateTime; woken : DateTime }.
Definition released (next : DateTime) (t : Tick) : DateTime := if acquired t <? next then woken t else acquired t.
Definition tick (interval next : Z) (t : Tick) : DateTime := released next t + interval.
Fixpoint ticks (interval next : Z) (l : list Tick) : list DateTime :=
  match l with [] => [] | t :: l => released next t :: ticks interval (tick interval next t) l end.

(** ** Configuration *)
Record PaipuyaConfig := mkConfig {
  revision : Z; enabled : bool; base_url : string; api_key : option string; api_key_header : string;
  modes : list Z; start_from : DateTime; sync_until : option DateTime; request_interval_ms : Z;
  concurrency : nat; page_size : nat
}.
#[export] Instance PaipuyaConfig_settable : Settable PaipuyaConfig := fun r =>
  mkConfig (revision r) (enabled r) (base_url r) (api_key r) (api_key_header r) (modes r) (start_from r)
    (sync_until r) (request_interval_ms r) (concurrency r) (page_size r).
(** The scheme of a URL and whether a text names a header, of other crates. *)
Definition validate (scheme : string -> result string string) (header_name : string -> bool) (c : PaipuyaConfig)
  : result WatchServiceError unit :=
  match scheme (base_url c) with
  | Err e => Err (InvalidConfig ("invalid base URL: " +:+ e))
  | Panic => Panic
  | Ok scheme =>
    if negb (String.eqb scheme "http" || String.eqb scheme "https")
    then Err (InvalidConfig "base URL must use http or https")
    else if String.eqb (api_key_header c) "" || negb (header_name (api_key_header c))
    then Err (InvalidConfig "api_key_header is not a valid header name")
    else if match sync_until c with Some until => num_seconds (until - start_from c) <? 10 | None => false end
    then Err (InvalidConfig "结束时间要比开始时间至少晚 10 秒（牌谱屋不接受更窄的区间）")
    else match List.find (fun mode => match mode_metadata mode with Ok _ => false | _ => true end) (modes c) with
         | Some mode => Err (InvalidConfig ("mode " +:+ pretty mode +:+ " is not one of the ranked modes 牌谱屋 covers"))
         | None =>
           if request_interval_ms c <? MIN_REQUEST_INTERVAL_MS
           then Err (InvalidConfig ("request_interval_ms must be at least " +:+ pretty MIN_REQUEST_INTERVAL_MS))
           else if negb (Nat.leb 1 (concurrency c) && Nat.leb (concurrency c) MAX_CONCURRENCY)
           then Err (InvalidConfig ("concurrency must be between 1 and " +:+ pretty (Z.of_nat MAX_CONCURRENCY)))
           else if negb (Nat.leb 1 (page_size c) && Nat.leb (page_size c) MAX_PAGE)
           then Err (InvalidConfig ("page_size must be between 1 and " +:+ pretty (Z.of_nat MAX_PAGE)))
           else Ok tt
         end
  end.
Definition published (c : PaipuyaConfig) : PaipuyaConfig := c <| api_key ::= Accounts.redacted_secret |>.
Definition selected_modes (c : PaipuyaConfig) : list Z :=
  match modes c with [] => ALL_MODES | l => l end.
Definition mode_path (mode : Z) : string := if mode <? 20 then "pl4" else "pl3".
Definition CATALOGUE_START : DateTime := 1566518400 * second.
Definition default_config : PaipuyaConfig :=
  mkConfig 1 false "https://5-data.amae-koromo.com" None "authorization" [] CATALOGUE_START None 1000 4 MAX_PAGE.
(** [PaipuyaSupervisor::new] on what the file holds, with what is written to it:
    [serde_json] reads the bytes. *)
Inductive ConfigFile := Bytes (content : string) | NotFound | Unreadable (why : string).
Definition load (parse : string -> result string PaipuyaConfig) scheme header_name (file : ConfigFile)
  (persisted : result WatchServiceError unit) : result WatchServiceError PaipuyaConfig :=
  match file with
  | Bytes content =>
    match parse content with
    | Panic => Panic
    | Err e => Err (Json e)
    | Ok c => match validate scheme header_name c with Ok _ => Ok c | Err e => Err e | Panic => Panic end
    end
  | NotFound => _ ← persisted; Ok default_config
  | Unreadable why => Err (Io why)
  end.
(** [update_config]: the document and its file. *)
Definition update_config scheme header_name (persisted : result WatchServiceError unit) (next current : PaipuyaConfig)
  : PaipuyaConfig * result WatchServiceError PaipuyaConfig :=
  match validate scheme header_name next with
  | Ok _ =>
    if negb (revision next =? revision current)
    then (current, Err (RevisionConflict (revision next) (revision current)))
    else
      let next := next <| api_key ::= fun key => Accounts.restored_secret key (api_key current) |>
                       <| revision := sat_add_u64 (revision current) 1 |> in
      match persisted with
      | Ok _ => (next, Ok (published next))
      | Err e => (current, Err e)
      | Panic => (current, Panic)
      end
  | Err e => (current, Err e)
  | Panic => (current, Panic)
  end.

(** ** The games of the site *)
Record ApiPlayer := mkPlayer { account_id : Z; nickname : string; score : Z }.
Record ApiGame := mkApiGame {
  uuid : string; mode_id : Z; start_time : Z; end_time : Z; players : list ApiPlayer
}.
Record PaipuyaGame := mkGame {
  g_uuid : string; g_mode : Z; started_at : DateTime; ended_at : DateTime; g_players : list string;
  account_ids : list Z; scores : list Z
}.
Definition sweep_from (cursor : option DateTime) (start_from : DateTime) : DateTime :=
  match cursor with Some cursor => Z.max cursor start_from | None => start_from end.
Definition rule_token (mode : Z) : string :=
  match mode_metadata mode with
  | Ok (room, length, players) => pretty players +:+ "p-" +:+ room +:+ "-" +:+ length
  | _ => "mode-" +:+ pretty mode
  end.

(** ** The state

    The games of the catalogue, the cursor and the total of each mode, and what
    the run has counted. *)
Record Progress := mkProgress {
  synced : Z; without_uuid : Z; requests : Z; refused : Z; p_cursors : gmap Z DateTime
}.
#[export] Instance Progress_settable : Settable Progress := fun r =>
  mkProgress (synced r) (without_uuid r) (requests r) (refused r) (p_cursors r).
Definition no_progress : Progress := mkProgress 0 0 0 0 ∅.
Record Store := mkStore { games : list PaipuyaGame; cursors : gmap Z (DateTime * Z); progress : Progress }.
#[export] Instance Store_settable : Settable Store := fun r => mkStore (games r) (cursors r) (progress r).
Definition insert_paipuya_games (r : reply) (l : list PaipuyaGame) (s : Store) : Store * bool :=
  match l with
  | [] => (s, true)
  | _ => (if took_effect r then s <| games ::= fun g => g ++ l |> else s, answered r)
  end.
Definition paipuya_cursor (mode : Z) (s : Store) : option DateTime := fst <$> cursors s !! mode.
Definition set_paipuya_cursor (r : reply) (mode : Z) (next_from : DateTime) (added : Z) (s : Store) : Store * bool :=
  (if took_effect r
   then s <| cursors ::= fun c => <[mode := (next_from, default 0 (snd <$> c !! mode) + added)]> c |>
   else s, answered r).
Definition rewind_paipuya_cursors (next_from : DateTime) (s : Store) : Store * nat :=
  (s <| cursors ::= fmap (fun '(_, total) => (next_from, total)) |>, size (cursors s)).

(** [paipuya_cursors], in the order of the modes. *)
Definition paipuya_cursors (s : Store) : list (Z * (DateTime * Z)) :=
  map (fun '(mode, (next_from, total)) => (mode, (next_from, Prelude.as_u64 (Z.max total 0))))
    (sort_by (fun a b => fst a <=? fst b) (map_to_list (cursors s))).
(** What one turn of [sync_mode] meets: the clock, the answer of the site, and
    the two writes. *)
Inductive Response := Unreachable | Status (code : Z) | Unparsable | Page (l : list ApiGame).
Record Turn := mkTurn { now : DateTime; response : Response; inserted : reply; moved : reply }.
Inductive After := Continue (from : DateTime) | Finished | Aborted.

Section Sync.
(** [Utc::timestamp_opt]. *)
Variable timestamp_opt : Z -> option DateTime.
Variable config : PaipuyaConfig.

Definition into_game (g : ApiGame) : option PaipuyaGame :=
  if String.eqb (uuid g) "" || match players g with [] => true | _ => false end then None
  else match timestamp_opt (start_time g) with
       | None => None
       | Some started =>
         Some (mkGame (uuid g) (mode_id g) started (default started (timestamp_opt (end_time g)))
           (map nickname (players g)) (map account_id (players g)) (map score (players g)))
       end.
(** The games of a page, how many are not one, and the newest start. *)
Definition read_one (acc : list PaipuyaGame * Z * DateTime) (g : ApiGame) : list PaipuyaGame * Z * DateTime :=
  let '(games, without, newest) := acc in
  match into_game g with
  | Some game => (games ++ [game], without, Z.max newest (started_at game))
  | None => (games, without + 1, match timestamp_opt (start_time g) with
                                 | Some started => Z.max newest started | None => newest end)
  end.
Definition read_page (from : DateTime) (page : list ApiGame) : list PaipuyaGame * Z * DateTime :=
  fold_left read_one page ([], 0, from).
Definition limit : nat := Nat.min (page_size config) MAX_PAGE.
Definition page_url (mode : Z) (from to : DateTime) : string :=
  trim_end_matches "/"%char (base_url config) +:+ "/api/v2/" +:+ mode_path mode +:+ "/games/"
  +:+ pretty (timestamp_millis from) +:+ "/" +:+ pretty (timestamp_millis to)
  +:+ "?mode=" +:+ pretty mode +:+ "&limit=" +:+ pretty (Z.of_nat limit).
Definition fetch_page (r : Response) (s : Store) : Store * option (list ApiGame) :=
  match r with
  | Page l => (s, Some l)
  | Status _ => (s <| progress ::= fun p => p <| refused ::= Z.succ |> |>, None)
  | Unreachable | Unparsable => (s, None)
  end.
Definition right_edge (t : Turn) : DateTime := default (now t) (sync_until config).
Definition sync_turn (mode : Z) (from : DateTime) (t : Turn) (s : Store) : Store * After :=
  if num_seconds (right_edge t - from) <? 10 then (s, Finished)
  else
    match fetch_page (response t) s with
    | (s, None) => (s, Aborted)
    | (s, Some page) =>
      let s := s <| progress ::= fun p => p <| requests ::= Z.succ |> |> in
      let full := Nat.leb (page_size config) (length page) in
      let '(found, without, newest) := read_page from page in
      let count := zlen found in
      match insert_paipuya_games (inserted t) found s with
      | (s, false) => (s, Aborted)
      | (s, true) =>
        if (newest <=? from) && negb full then (s, Finished)
        else
          let next := if from <? newest then newest else from + second in
          match set_paipuya_cursor (moved t) mode next count s with
          | (s, false) => (s, Aborted)
          | (s, true) =>
            let s := s <| progress ::= fun p =>
              p <| synced ::= Z.add count |> <| without_uuid ::= Z.add without |> <| p_cursors ::= <[mode := next]> |> |> in
            (s, if full then Continue next else Finished)
          end
      end
    end.
(** The loop; [None] while it has not ended. *)
Fixpoint sync_loop (mode : Z) (from : DateTime) (turns : list Turn) (s : Store) : Store * option After :=
  match turns with
  | [] => (s, None)
  | t :: turns =>
    match sync_turn mode from t s with
    | (s, Continue from) => sync_loop mode from turns s
    | (s, after) => (s, Some after)
    end
  end.
Definition sync_mode (mode : Z) (turns : list Turn) (s : Store) : Store * option After :=
  sync_loop mode (sweep_from (paipuya_cursor mode s) (start_from config)) turns s.
End Sync.

(** ** The workers

    A run is what one [start] spawned: the queue its workers drain, and the modes
    that were swept or given up. A run is alive while it is in [runs]; [handles]
    is the one whose tasks [stop_tasks] can abort. *)
Inductive Worker := Looking | Sweeping (mode : Z) | Ended.
Record Run := mkRun {
  run_config : PaipuyaConfig; queue : list Z; workers : list Worker; swept : list Z; given_up : list Z
}.
#[export] Instance Run_settable : Settable Run := fun r =>
  mkRun (run_config r) (queue r) (workers r) (swept r) (given_up r).
Record Supervisor := mkSupervisor {
  generation : nat; phase : ServicePhase; active_revision : option Z; last_error : option string;
  runs : gmap nat Run; handles : option nat
}.
#[export] Instance Supervisor_settable : Settable Supervisor := fun r =>
  mkSupervisor (generation r) (phase r) (active_revision r) (last_error r) (runs r) (handles r).
Definition is_ended (w : Worker) : bool := match w with Ended => true | _ => false end.
Definition stop_tasks (s : Supervisor) : Supervisor :=
  s <| runs ::= fun m => match handles s with Some g => delete g m | None => m end |> <| handles := None |>.
Definition spawn (c : PaipuyaConfig) (s : Supervisor) : Supervisor :=
  let g := S (generation s) in
  s <| generation := g |> <| phase := Running |> <| active_revision := Some (revision c) |> <| last_error := None |>
    <| runs ::= <[g := mkRun c (selected_modes c) (repeat Looking (concurrency c)) [] []]> |> <| handles := Some g |>.
Definition start (c : PaipuyaConfig) (s : Supervisor) : Supervisor := spawn c (stop_tasks s).
Definition stop (s : Supervisor) : Supervisor :=
  stop_tasks (s <| generation ::= S |>) <| phase := Stopped |> <| active_revision := None |>.
Definition complete (g : nat) (s : Supervisor) : Supervisor :=
  if negb (Nat.eqb (generation s) g) then s
  else if decide (phase s = Failed) then s
  else s <| phase := Stopped |>.
Definition fail (message : string) (s : Supervisor) : Supervisor :=
  s <| phase := Failed |> <| last_error := Some message |>.
(** A worker that leaves its loop; the last to leave completes the run. *)
Definition leave (g i : nat) (r : Run) (s : Supervisor) : Supervisor :=
  let r := r <| workers ::= <[i := Ended]> |> in
  let s := s <| runs ::= <[g := r]> |> in
  if forallb is_ended (workers r) then complete g s else s.
(** A turn of the loop: the next mode, which a worker of an older generation
    drops. *)
Definition pop (g i : nat) (r : Run) (s : Supervisor) : Supervisor :=
  match last (queue r) with
  | None => leave g i r s
  | Some mode =>
    let r := r <| queue ::= removelast (A:=Z) |> in
    if Nat.eqb (generation s) g then s <| runs ::= <[g := r <| workers ::= <[i := Sweeping mode]> |>]> |>
    else leave g i (r <| given_up ::= cons mode |>) s
  end.
Definition synced_mode (g i : nat) (mode : Z) (r : Run) (s : Supervisor) : Supervisor :=
  s <| runs ::= <[g := r <| workers ::= <[i := Looking]> |> <| swept ::= cons mode |>]> |>.
Definition stopped_short (g i : nat) (mode : Z) (why : string) (r : Run) (s : Supervisor) : Supervisor :=
  leave g i (r <| given_up ::= cons mode |>) (fail ("模式 " +:+ pretty mode +:+ " 同步中止：" +:+ why) s).
(** [apply_action]. *)
Definition apply_action (c : PaipuyaConfig) (action : WatchAction) (s : Supervisor) : Supervisor :=
  match action with Start | Reload => start c s | Stop => stop s end.
Definition start_if_enabled (c : PaipuyaConfig) (s : Supervisor) : Supervisor :=
  if enabled c then start c s else s.
(** [reset_cursors], on the supervisor and on the store. *)
Definition reset_cursors (c : PaipuyaConfig) (s : Supervisor) (store : Store) : Supervisor * Store * nat :=
  let s := if decide (phase s = Stopped) then s else stop s in
  let '(store, moved) := rewind_paipuya_cursors (start_from c) store in (s, store, moved).
(** [status]: the stored positions are left out when the database does not
    answer. *)
Record PaipuyaModeProgress := mkModeProgress {
  m_mode : Z; m_rule : string; m_next_from : DateTime; m_synced : Z
}.
Record PaipuyaStatus := mkStatus {
  st_phase : ServicePhase; st_revision : option Z; st_error : option string; has_key : bool; st_progress : Progress;
  window_start : DateTime; window_end : option DateTime; st_modes : list PaipuyaModeProgress
}.
Definition status (c : PaipuyaConfig) (s : Supervisor) (store : Store) (database : bool) : PaipuyaStatus :=
  mkStatus (phase s) (active_revision s) (last_error s) (match api_key c with Some _ => true | None => false end)
    (progress store) (start_from c) (sync_until c)
    (if database
     then map (fun '(mode, (next_from, total)) => mkModeProgress mode (rule_token mode) next_from total) (paipuya_cursors store)
     else []).
(** Actions that come one after the other, among the steps of the workers. *)
Inductive step : Supervisor -> Supervisor -> Prop :=
| Step_action c action s : (1 <= concurrency c)%nat -> step s (apply_action c action s)
| Step_reset c s store : step s (fst (fst (reset_cursors c s store)))
| Step_pop g i r s : runs s !! g = Some r -> workers r !! i = Some Looking -> step s (pop g i r s)
| Step_synced g i mode r s :
    runs s !! g = Some r -> workers r !! i = Some (Sweeping mode) -> step s (synced_mode g i mode r s)
| Step_stopped_short g i mode why r s :
    runs s !! g = Some r -> workers r !! i = Some (Sweeping mode) -> step s (stopped_short g i mode why r s).
Definition initial : Supervisor := mkSupervisor 0 Stopped None None ∅ None.
Inductive reachable : Supervisor -> Prop :=
| Reach_initial : reachable initial
| Reach_step s s' : reachable s -> step s s' -> reachable s'.
End Paipuya.

Import Modes Service Paipuya.

(** ** The pacing *)
(** The sleep of a tick ends no sooner than it was to. *)
Fixpoint punctual (interval next : Z) (l : list Tick) : Prop :=
  match l with
  | [] => True
  | t :: l => (acquired t < next -> next <= woken t) /\ punctual interval (tick interval next t) l
  end.
Lemma ticks_after interval l : 0 <= interval -> forall next,
  punctual interval next l ->
  forall j b, ticks interval next l !! j = Some b -> next + Z.of_nat j * interval <= b.
Proof.
  intros Hi. induction l as [|t l IH]; intros next Hp j b; [done|]. destruct Hp as [Ht Hp]. cbn [ticks].
  assert (Hr : next <= released next t).
  { unfold released. destruct (Z.ltb_spec (acquired t) next); lia. }
  destruct j as [|j]; cbn; [intros [= <-]; lia|]. intros Hj. specialize (IH _ Hp j b Hj). unfold tick in IH. lia.
Qed.
(** However many workers ask, and however late each is woken, the n-th
    request after another is let go no sooner than n intervals after it. *)
Theorem pacer_spaces_the_requests interval next l i j a b :
  0 <= interval -> punctual interval next l ->
  ticks interval next l !! i = Some a -> ticks interval next l !! (i + j)%nat = Some b ->
  a + Z.of_nat j * interval <= b.
Proof.
  intros Hi. revert next i. induction l as [|t l IH]; intros next i Hp; [done|]. destruct Hp as [Ht Hp]. cbn [ticks].
  destruct i as [|i]; cbn; [|by apply IH]. intros [= <-]. destruct j as [|j]; cbn.
  - intros [= <-]. lia.
  - intros Hb. pose proof (ticks_after interval l Hi _ Hp j b Hb) as H. unfold tick in H. lia.
Qed.

(** ** The walk of one mode *)
Section Facts.
Context (timestamp_opt : Z -> option DateTime) (config : PaipuyaConfig) (mode : Z).
(** The seconds of a [DateTime]: [chrono] knows those of the next 34,000 years. *)
Definition horizon : Z := 2 ^ 40.
Hypothesis timestamp_spec : forall s,
  (forall t, timestamp_opt s = Some t -> t = s * second) /\ (0 <= s < horizon -> is_Some (timestamp_opt s)).
(** What the site lists of the mode, oldest first, and how it answers: the first
    of the games that start between the two moments, as many as asked for. *)
Context (listing : list ApiGame).
Hypothesis listing_sorted : StronglySorted (fun a b => start_time a <= start_time b) listing.
Definition in_range (from to : DateTime) (g : ApiGame) : bool :=
  (timestamp_millis from <=? 1000 * start_time g) && (1000 * start_time g <=? timestamp_millis to).
Definition answer (from to : DateTime) : list ApiGame :=
  firstn (limit config) (List.filter (in_range from to) listing).
(** The turns of a run against that site, until it ends. *)
Fixpoint honest (from : DateTime) (turns : list Turn) (s : Store) : Prop :=
  match turns with
  | [] => True
  | t :: turns =>
    0 <= right_edge config t < horizon * second /\
    (forall page, response t = Page page -> page = answer from (right_edge config t)) /\
    match sync_turn timestamp_opt config mode from t s with
    | (s, Continue from) => honest from turns s
    | _ => True
    end
  end.
(** The settings: valid, from a full second on. *)
Record settings : Prop := mkSettings {
  page_valid : (1 <= page_size config <= MAX_PAGE)%nat;
  start_valid : exists s, 0 <= s /\ start_from config = s * second;
  window_valid : forall edge, sync_until config = Some edge -> start_from config + 10 * second <= edge
}.
Hypothesis Hset : settings.
Abbreviation into_game := (into_game timestamp_opt).
Abbreviation sync_turn := (sync_turn timestamp_opt config mode).
(** The games that start in the second of this one fit a page. *)
Definition fits (g : ApiGame) : Prop :=
  (length (List.filter (fun x => (start_time x =? start_time g)%Z) listing) <= page_size config)%nat.
(** Every game from the start of the window to before [upto] is stored, if its
    second fits a page. *)
Definition covered (upto : DateTime) s : Prop :=
  forall g game, g ∈ listing -> into_game g = Some game -> fits g -> start_from config <= started_at game < upto -> game ∈ games s.
Definition whole (from : DateTime) : Prop := exists s, 0 <= s /\ from = s * second.

Lemma into_game_started g game : into_game g = Some game -> timestamp_opt (start_time g) = Some (started_at game).
Proof.
  unfold Paipuya.into_game. destruct (_ || _); [done|]. destruct (timestamp_opt (start_time g)); [|done].
  by intros [= <-].
Qed.
Lemma read_one_spec found without newest g :
  exists w n, read_one timestamp_opt (found, without, newest) g = (found ++ omap into_game [g], w, n) /\
    newest <= n /\ (n = newest \/ timestamp_opt (start_time g) = Some n) /\
    forall t, timestamp_opt (start_time g) = Some t -> t <= n.
Proof.
  unfold read_one. cbn [omap list_omap]. destruct (into_game g) as [game|] eqn:E.
  - rewrite (into_game_started g game E). eexists _, _. split; [done|]. split; [lia|].
    split; [|intros t [= <-]; lia]. destruct (Z.max_spec newest (started_at game)) as [[_ ->]|[_ ->]]; auto.
  - rewrite app_nil_r. destruct (timestamp_opt (start_time g)) as [t|]; eexists _, _; (split; [done|]); (split; [lia|]).
    + split; [|intros t' [= <-]; lia]. destruct (Z.max_spec newest t) as [[_ ->]|[_ ->]]; auto.
    + split; [by left|done].
Qed.
Lemma read_page_from page : forall found without newest,
  exists w n, fold_left (read_one timestamp_opt) page (found, without, newest) = (found ++ omap into_game page, w, n) /\
    newest <= n /\ (n = newest \/ exists g, g ∈ page /\ timestamp_opt (start_time g) = Some n) /\
    forall g t, g ∈ page -> timestamp_opt (start_time g) = Some t -> t <= n.
Proof.
  induction page as [|g page IH]; intros found without newest; cbn [fold_left].
  { exists without, newest. rewrite app_nil_r. split; [done|]. split; [lia|]. split; [by left|by intros ? ? ?%elem_of_nil]. }
  destruct (read_one_spec found without newest g) as (w1 & n1 & -> & H1 & H2 & H3).
  destruct (IH (found ++ omap into_game [g]) w1 n1) as (w & n & -> & H4 & H5 & H6). exists w, n.
  rewrite <- app_assoc. split; [by cbn; destruct (into_game g)|]. split; [lia|]. split.
  - destruct H5 as [->|(g' & Hg' & Ht)]; [|right; exists g'; split; [by right|done]].
    destruct H2 as [->|H2]; [by left|right; exists g; split; [by left|done]].
  - intros g' t [->|Hg']%elem_of_cons Ht; [specialize (H3 t Ht); lia|by apply (H6 g')].
Qed.
Lemma read_page_spec from page :
  exists w n, read_page timestamp_opt from page = (omap into_game page, w, n) /\
    from <= n /\ (n = from \/ exists g, g ∈ page /\ timestamp_opt (start_time g) = Some n) /\
    forall g t, g ∈ page -> timestamp_opt (start_time g) = Some t -> t <= n.
Proof. exact (read_page_from page [] 0 from). Qed.

(** *** What a page leaves out *)
Lemma range_elem from to g : g ∈ List.filter (in_range from to) listing <->
  g ∈ listing /\ timestamp_millis from <= 1000 * start_time g <= timestamp_millis to.
Proof.
  rewrite list_elem_of_In, filter_In, <- list_elem_of_In. unfold in_range. rewrite andb_true_iff, !Z.leb_le. done.
Qed.
Lemma millis_whole s : timestamp_millis (s * second) = 1000 * s.
Proof. unfold timestamp_millis, second. replace (s * 1000000000) with (1000 * s * 1000000) by lia. by rewrite Z.div_mul. Qed.
Lemma millis_le s to : s * second <= to <-> 1000 * s <= timestamp_millis to.
Proof.
  unfold timestamp_millis, second. split; intros H.
  - apply Z.div_le_lower_bound; lia.
  - pose proof (Z.mul_div_le to 1000000 ltac:(lia)). lia.
Qed.
(** A game that starts before one of the page, in the range, is in the page. *)
Lemma page_prefix from to g e :
  g ∈ List.filter (in_range from to) listing -> e ∈ answer from to -> start_time g < start_time e -> g ∈ answer from to.
Proof.
  intros Hg He Hlt. unfold answer in *. pose proof (StronglySorted_list_filter _ (in_range from to) _ listing_sorted) as Hs.
  set (F := List.filter (in_range from to) listing) in *. clearbody F. set (n := limit config) in *.
  rewrite <- (take_drop n F) in Hs, Hg. apply StronglySorted_app in Hs as (Hb & _ & _).
  apply elem_of_app in Hg as [Hg|Hg]; [done|exfalso]. specialize (Hb e g He Hg). lia.
Qed.
(** A page that is not full holds the whole range. *)
Lemma short_page from to g :
  length (answer from to) <> limit config -> g ∈ List.filter (in_range from to) listing -> g ∈ answer from to.
Proof.
  intros Hl Hg. unfold answer in *. rewrite length_take in Hl. rewrite take_ge; [done|lia].
Qed.
(** A full page of one second holds that second, if it fits a page. *)
Lemma full_second from to s g :
  from = s * second -> (forall e, e ∈ answer from to -> start_time e = s) ->
  g ∈ List.filter (in_range from to) listing -> start_time g = s -> fits g -> g ∈ answer from to.
Proof.
  intros Hfrom Hall Hg Hgs Hfit. unfold fits in Hfit. rewrite Hgs in Hfit. destruct (decide (length (answer from to) = limit config)) as [Hl|Hl]; [|by apply short_page].
  unfold answer in *. set (F := List.filter (in_range from to) listing) in *.
  rewrite <- (take_drop (limit config) F) in Hg. apply elem_of_app in Hg as [Hg|Hg]; [done|exfalso].
  assert (Hsub : (length (List.filter (fun g => (start_time g =? s)%Z) F) <= page_size config)%nat).
  { etransitivity; [|apply Hfit]. unfold F. clear. induction listing as [|x l IH]; [done|].
    cbn [List.filter]. destruct (in_range from to x); cbn [List.filter]; destruct (start_time x =? s)%Z; cbn [length]; lia. }
  assert (Hlim : limit config = page_size config).
  { unfold limit. pose proof (page_valid Hset). lia. }
  rewrite <- (take_drop (limit config) F), List.filter_app, length_app in Hsub.
  assert (E1 : List.filter (fun g => (start_time g =? s)%Z) (take (limit config) F) = take (limit config) F).
  { clear - Hall. induction (take (limit config) F) as [|x l IH]; [done|]. cbn [List.filter].
    rewrite (Hall x) by by left. rewrite Z.eqb_refl. f_equal. apply IH. intros e He. apply Hall. by right. }
  rewrite E1, Hl in Hsub.
  assert (Hin : g ∈ List.filter (fun g => (start_time g =? s)%Z) (drop (limit config) F)).
  { apply list_elem_of_In, filter_In. split; [by apply list_elem_of_In|by apply Z.eqb_eq]. }
  destruct (List.filter _ (drop _ F)); [by apply elem_of_nil in Hin|cbn [length] in Hsub; lia].
Qed.

Lemma game_second g game : into_game g = Some game -> started_at game = start_time g * second.
Proof. intros H%into_game_started. by apply (timestamp_spec (start_time g)). Qed.
Lemma second_pos : 0 < second.
Proof. done. Qed.
(** The moments of a page of the range. *)
Lemma answer_second from s to e :
  from = s * second -> 0 <= s -> 0 <= to < horizon * second -> e ∈ answer from to ->
  s <= start_time e /\ start_time e * second <= to /\ timestamp_opt (start_time e) = Some (start_time e * second).
Proof.
  intros -> Hs Hto He. assert (Hr : e ∈ List.filter (in_range (s * second) to) listing).
  { unfold answer in He. rewrite <- (take_drop (limit config)). apply elem_of_app. by left. }
  apply range_elem in Hr as [_ [H1 H2]]. rewrite millis_whole in H1. apply millis_le in H2.
  assert (Hb : 0 <= start_time e < horizon) by (pose proof second_pos; nia).
  split; [lia|]. split; [done|]. destruct (timestamp_spec (start_time e)) as [Hv Hk].
  destruct (Hk Hb) as [t Ht]. by rewrite Ht, (Hv t Ht).
Qed.
(** The games a turn leaves out start no sooner than the next one asks for. *)
Lemma page_covers from to s found w n :
  from = s * second -> 0 <= s -> 0 <= to < horizon * second -> from + 10 * second <= to ->
  read_page timestamp_opt from (answer from to) = (found, w, n) ->
  let full := Nat.leb (page_size config) (length (answer from to)) in
  let next := if from <? n then n else from + second in
  found = omap into_game (answer from to) /\ whole next /\ from + second <= next <= to /\
  (n <=? from = false \/ full = true ->
    forall g game, g ∈ listing -> into_game g = Some game -> fits g -> from <= started_at game < next -> g ∈ answer from to) /\
  (full = false -> forall g game, g ∈ listing -> into_game g = Some game -> fits g -> from <= started_at game <= to -> g ∈ answer from to).
Proof.
  intros Hfrom Hs Hto Hten Hread. destruct (read_page_spec from (answer from to)) as (w' & n' & E & Hn & Hw & Hm).
  rewrite Hread in E. injection E as -> <- <-. cbv zeta.
  assert (Hin : forall g game, g ∈ listing -> into_game g = Some game -> from <= started_at game <= to ->
    g ∈ List.filter (in_range from to) listing).
  { intros g game Hg Hi Hr. apply range_elem. split; [done|]. rewrite (game_second g game Hi) in Hr. subst from.
    rewrite millis_whole, <- millis_le. unfold second in *. lia. }
  assert (Hpage : limit config = page_size config) by (unfold limit; pose proof (page_valid Hset); lia).
  assert (Hshort : Nat.leb (page_size config) (length (answer from to)) = false -> length (answer from to) <> limit config).
  { rewrite Nat.leb_gt, Hpage. lia. }
  destruct (Z.ltb_spec from n) as [Hlt|Hge].
  - destruct Hw as [->|(e & He & Ht)]; [lia|]. destruct (answer_second from s to e Hfrom Hs Hto He) as (H1 & H2 & H3).
    rewrite H3 in Ht. injection Ht as <-. split; [done|]. split; [exists (start_time e); unfold second in *; lia|].
    split; [unfold second in *; lia|]. split; [|intros Hf g game Hg Hi _ Hr; by apply short_page; [apply Hshort|apply (Hin g game)]].
    intros _ g game Hg Hi _ Hr. apply (page_prefix from to g e); [apply (Hin g game); [done|done|unfold second in *; lia]|done|].
    rewrite (game_second g game Hi) in Hr. unfold second in *. lia.
  - split; [done|]. split; [exists (s + 1); unfold second in *; lia|]. split; [unfold second in *; lia|].
    split; [|intros Hf g game Hg Hi _ Hr; by apply short_page; [apply Hshort|apply (Hin g game)]].
    intros _ g game Hg Hi Hf Hr. rewrite (game_second g game Hi) in Hr. apply (full_second from to s g Hfrom).
    + intros e He. destruct (answer_second from s to e Hfrom Hs Hto He) as (H1 & H2 & H3).
      specialize (Hm e _ He H3). subst from. assert (n = s * second) as -> by lia. unfold second in *. lia.
    + apply (Hin g game); [done|done|]. rewrite (game_second g game Hi). unfold second in *. lia.
    + unfold second in *. lia.
    + exact Hf.
Qed.

(** *** One turn *)
Lemma covered_weaken upto upto' s s' : upto' <= upto -> (forall game, game ∈ games s -> game ∈ games s') -> covered upto s -> covered upto' s'.
Proof. intros Hle Hg H g game Hin Hi Hf Hr. apply Hg, (H g game Hin Hi Hf). lia. Qed.
Lemma covered_next from next s s' :
  covered from s -> (forall game, game ∈ games s -> game ∈ games s') ->
  (forall g game, g ∈ listing -> into_game g = Some game -> fits g -> from <= started_at game < next -> game ∈ games s') ->
  covered next s'.
Proof.
  intros H Hg Hn g game Hin Hi Hf Hr. destruct (Z.lt_ge_cases (started_at game) from).
  - apply Hg, (H g game Hin Hi Hf). lia.
  - apply (Hn g game Hin Hi Hf). lia.
Qed.
Lemma insert_spec r l s :
  let '(s', ok) := insert_paipuya_games r l s in
  cursors s' = cursors s /\ (forall game, game ∈ games s -> game ∈ games s') /\
  (ok = true -> forall game, game ∈ l -> game ∈ games s').
Proof.
  destruct l as [|game l]; cbn [insert_paipuya_games]; [split_and!; [done..|]; by intros _ ? ?%elem_of_nil|].
  destruct r; cbn; split_and!; try done; intros; apply elem_of_app; auto.
Qed.
(** The cursor is a full second of the window, and covers what is before it. *)
Definition cursor_ok s : Prop :=
  forall c, paipuya_cursor mode s = Some c -> whole c /\ covered c s.
Lemma set_cursor_spec r next added s :
  let '(s', ok) := set_paipuya_cursor r mode next added s in
  games s' = games s /\ (paipuya_cursor mode s' = Some next \/ paipuya_cursor mode s' = paipuya_cursor mode s).
Proof.
  unfold set_paipuya_cursor, paipuya_cursor. destruct (took_effect r); cbn; [|by auto].
  split; [done|]. left. by rewrite lookup_insert_eq.
Qed.
Lemma narrow delta : (num_seconds delta <? 10) = false <-> 10 * second <= delta.
Proof.
  unfold num_seconds, second. rewrite Z.ltb_ge. pose proof (Z.quot_rem' delta 1000000000) as H.
  destruct (Z.lt_ge_cases delta 0) as [Hn|Hn].
  - pose proof (Z.rem_bound_abs delta 1000000000 ltac:(lia)). lia.
  - pose proof (Z.rem_bound_pos delta 1000000000 Hn ltac:(lia)). lia.
Qed.
Definition state_ok (from : DateTime) s : Prop := whole from /\ covered from s /\ cursor_ok s.
Lemma sync_turn_spec from t s :
  state_ok from s -> 0 <= right_edge config t < horizon * second ->
  (forall page, response t = Page page -> page = answer from (right_edge config t)) ->
  let '(s', after) := sync_turn from t s in
  cursor_ok s' /\
  match after with
  | Continue next => state_ok next s' /\ from + second <= next <= right_edge config t
  | Finished => covered (right_edge config t - 10 * second) s'
  | Aborted => True
  end.
Proof.
  intros ((c & Hc & ->) & Hcov & Hcur) Hto Hpage. unfold Paipuya.sync_turn. set (to := right_edge config t) in *.
  destruct (num_seconds (to - c * second) <? 10) eqn:En.
  { split; [done|]. apply (covered_weaken (c * second) _ s); [|done..]. apply not_false_iff_true in En. rewrite narrow in En. lia. }
  apply narrow in En. destruct (response t) as [| | |page]; try by (split; [|done]).
  specialize (Hpage page eq_refl). subst page. cbn [fetch_page].
  destruct (read_page timestamp_opt (c * second) (answer (c * second) to)) as [[found w] n] eqn:Er.
  destruct (page_covers _ _ c _ _ _ eq_refl Hc Hto ltac:(lia) Er) as (-> & Hw & Hnext & Hfull & Hshort).
  set (full := Nat.leb (page_size config) (length (answer (c * second) to))) in *.
  set (next := if c * second <? n then n else c * second + second) in *.
  set (s1 := s <| progress ::= _ |>). pose proof (insert_spec (inserted t) (omap into_game (answer (c * second) to)) s1) as Hi.
  destruct (insert_paipuya_games _ _ s1) as [s2 ok]. destruct Hi as (Ec & Hkeep & Hnew).
  assert (Hk : forall game, game ∈ games s -> game ∈ games s2) by exact Hkeep.
  assert (Hcur2 : cursor_ok s2).
  { intros c2. unfold paipuya_cursor. rewrite Ec. intros E. destruct (Hcur c2 E) as [H1 H2]. split; [done|].
    by apply (covered_weaken c2 _ s). }
  destruct ok; [|by split]. specialize (Hnew eq_refl).
  assert (Hst : forall g game, g ∈ answer (c * second) to -> into_game g = Some game -> game ∈ games s2).
  { intros g game Hg Hg'. apply Hnew, list_elem_of_omap. by exists g. }
  destruct ((n <=? c * second) && negb full) eqn:Ee.
  { split; [done|]. apply andb_true_iff in Ee as [_ Ee]. apply negb_true_iff in Ee.
    apply (covered_weaken to _ s2); [unfold second; lia|done|]. apply (covered_next (c * second) _ s); [done..|].
    intros g game Hg Hi Hf Hr. apply (Hst g game); [|done]. apply (Hshort Ee g game Hg Hi Hf). lia. }
  pose proof (set_cursor_spec (moved t) next (zlen (omap into_game (answer (c * second) to))) s2) as Hset2.
  assert (Hcov2 : covered next s2).
  { apply (covered_next (c * second) _ s); [done..|]. intros g game Hg Hi Hf Hr. apply (Hst g game); [|done].
    apply (Hfull ltac:(destruct (n <=? c * second), full; auto) g game Hg Hi Hf). done. }
  destruct (set_paipuya_cursor _ _ _ _ s2) as [s3 ok3]. destruct Hset2 as [Eg Hcc].
  assert (Hcur3 : cursor_ok s3).
  { intros c3 E. destruct Hcc as [Hcc|Hcc]; rewrite Hcc in E.
    - injection E as <-. split; [done|]. unfold covered. rewrite Eg. exact Hcov2.
    - unfold covered. rewrite Eg. by apply Hcur2. }
  assert (Hcov3 : covered next s3) by (unfold covered; rewrite Eg; exact Hcov2).
  destruct ok3; [|by split]. set (s4 := s3 <| progress ::= _ |>).
  split; [exact Hcur3|]. destruct full eqn:Ef; [by split|].
  apply (covered_weaken to _ s4); [unfold second; lia|done|]. apply (covered_next (c * second) _ s); [done| |].
  - intros game Hgame. change (game ∈ games s3). rewrite Eg. by apply Hk.
  - intros g game Hg Hi Hf Hr. change (game ∈ games s3). rewrite Eg. apply (Hst g game); [|done].
    apply (Hshort eq_refl g game Hg Hi Hf). lia.
Qed.

(** *** A run, and all of them *)
Lemma sync_loop_spec turns : forall from s,
  state_ok from s -> honest from turns s ->
  let '(s', r) := sync_loop timestamp_opt config mode from turns s in
  cursor_ok s' /\
  (r = Some Finished -> exists t, t ∈ turns /\ covered (right_edge config t - 10 * second) s') /\
  (forall edge, sync_until config = Some edge -> r = None -> from + Z.of_nat (length turns) * second <= Z.max from edge).
Proof.
  induction turns as [|t turns IH]; intros from s Hok Hh; cbn [sync_loop].
  { split; [apply Hok|]. split; [done|]. intros edge _ _. cbn. lia. }
  destruct Hh as (Hto & Hpage & Hh). pose proof (sync_turn_spec from t s Hok Hto Hpage) as Ht.
  destruct (sync_turn from t s) as [s1 [next| |]]; destruct Ht as [Hc Ht].
  - destruct Ht as [Hok' Hnext]. specialize (IH next s1 Hok' Hh).
    destruct (sync_loop _ _ _ _ _ _) as [s2 r]. destruct IH as (H1 & H2 & H3). split; [done|]. split.
    + intros Hr. destruct (H2 Hr) as (t' & Ht' & Hcov). exists t'. split; [by right|done].
    + intros edge Hu Hr. specialize (H3 edge Hu Hr). unfold right_edge in Hnext. rewrite Hu in Hnext.
      cbn [default from_option id] in Hnext. cbn [length]. unfold second in *. lia.
  - split; [done|]. split; [|done]. intros _. exists t. split; [by left|done].
  - by split.
Qed.
Lemma start_ok s : cursor_ok s -> state_ok (sweep_from (paipuya_cursor mode s) (start_from config)) s.
Proof.
  intros Hc. destruct (start_valid Hset) as (c0 & Hc0 & Es). unfold sweep_from.
  destruct (paipuya_cursor mode s) as [c|] eqn:E.
  - destruct (Hc c E) as [(k & Hk & ->) Hcov]. rewrite Es. split.
    + destruct (Z.max_spec (k * second) (c0 * second)) as [[_ ->]|[_ ->]]; [by exists c0|by exists k].
    + split; [|done]. intros g game Hg Hi Hf Hr. apply (Hcov g game Hg Hi Hf). rewrite Es in *. lia.
  - split; [by exists c0|]. split; [|done]. intros g game _ _ _ Hr. lia.
Qed.
(** What happens to the store: runs of this mode, runs of others, and rewinds
    of all the cursors. *)
Inductive Event := Ran (turns : list Turn) | OtherRan (other : Z) (turns : list Turn) | Rewound.
Definition happens (e : Event) s : Store :=
  match e with
  | Ran turns => fst (sync_mode timestamp_opt config mode turns s)
  | OtherRan other turns => fst (sync_mode timestamp_opt config other turns s)
  | Rewound => fst (rewind_paipuya_cursors (start_from config) s)
  end.
Definition honest_event (e : Event) s : Prop :=
  match e with
  | Ran turns => honest (sweep_from (paipuya_cursor mode s) (start_from config)) turns s
  | OtherRan other _ => other <> mode
  | Rewound => True
  end.
Fixpoint honest_history (events : list Event) s : Prop :=
  match events with [] => True | e :: events => honest_event e s /\ honest_history events (happens e s) end.
Lemma other_turn other from t s : other <> mode ->
  let '(s', _) := Paipuya.sync_turn timestamp_opt config other from t s in
  paipuya_cursor mode s' = paipuya_cursor mode s /\ forall game, game ∈ games s -> game ∈ games s'.
Proof.
  intros Hne. unfold Paipuya.sync_turn. destruct (_ <? 10); [done|]. destruct (response t) as [| | |page]; try done.
  cbn [fetch_page]. destruct (read_page _ _ _) as [[found w] n]. set (s1 := s <| progress ::= _ |>).
  pose proof (insert_spec (inserted t) found s1) as Hi. destruct (insert_paipuya_games _ _ _) as [s2 ok].
  destruct Hi as (Ec & Hk & _). assert (H2 : paipuya_cursor mode s2 = paipuya_cursor mode s) by (unfold paipuya_cursor; by rewrite Ec).
  destruct ok; [|done]. destruct (_ && _); [done|]. unfold set_paipuya_cursor, paipuya_cursor in *.
  destruct (moved t); cbn; rewrite ?lookup_insert_ne by done; done.
Qed.
Lemma other_run other turns : other <> mode -> forall from s,
  let '(s', _) := sync_loop timestamp_opt config other from turns s in
  paipuya_cursor mode s' = paipuya_cursor mode s /\ forall game, game ∈ games s -> game ∈ games s'.
Proof.
  intros Hne. induction turns as [|t turns IH]; intros from s; cbn [sync_loop]; [done|].
  pose proof (other_turn other from t s Hne) as Ht. destruct (Paipuya.sync_turn _ _ _ _ _ _) as [s1 [next| |]]; try done.
  specialize (IH next s1). destruct (sync_loop _ _ _ _ _ _) as [s2 r]. destruct Ht as [E1 H1], IH as [E2 H2].
  split; [congruence|auto].
Qed.
Lemma happens_ok e s : honest_event e s -> cursor_ok s -> cursor_ok (happens e s).
Proof.
  intros Hh Hc. destruct e as [turns|other turns|]; cbn [happens honest_event] in *.
  - pose proof (sync_loop_spec turns _ s (start_ok s Hc) Hh) as H. unfold sync_mode.
    destruct (sync_loop _ _ _ _ _ _) as [s' r]. apply H.
  - unfold sync_mode. pose proof (other_run other turns Hh (sweep_from (paipuya_cursor other s) (start_from config)) s) as H.
    destruct (sync_loop _ _ _ _ _ _) as [s' r]. destruct H as [E H]. cbn [fst]. intros c Hc'. rewrite E in Hc'.
    destruct (Hc c Hc') as [H1 H2]. split; [done|]. by apply (covered_weaken c _ s).
  - cbn. intros c. unfold paipuya_cursor, set_field. cbn [cursors]. rewrite lookup_fmap.
    destruct (cursors s !! mode) as [[c' total]|]; [|done]. intros [= <-]. split.
    + destruct (start_valid Hset) as (k & ? & ->). by exists k.
    + intros g game _ _ _ Hr. lia.
Qed.
Definition nothing : Store := mkStore [] ∅ no_progress.
Lemma history_ok events : forall s, cursor_ok s -> honest_history events s -> cursor_ok (fold_left (fun s e => happens e s) events s).
Proof.
  induction events as [|e events IH]; intros s Hc Hh; [done|]. destruct Hh as [H1 H2]. cbn [fold_left].
  apply IH; [by apply happens_ok|done].
Qed.

(** C13: while the site lists the same games of the mode, sorted by their start,
    and answers a page with the first of the range asked for, and the settings are
    ones the code accepts whose window starts on a full second: over any runs, of
    this mode and of the others, each going on from the cursor, whatever requests
    and writes fail and however often the cursors are rewound, the catalogue has
    every game that starts from the start of the window to before the cursor,
    except those without a uuid or without a player and those of a second with
    more games than a page, which the sync may skip; a run that finishes has, with
    the same exceptions, every game up to ten seconds before the edge it walked
    to; and a run towards a fixed edge ends, in no more requests than the window
    has seconds. *)
Theorem sync_misses_no_game events turns :
  let s := fold_left (fun s e => happens e s) events nothing in
  honest_history events nothing -> honest_event (Ran turns) s ->
  let '(s', r) := sync_mode timestamp_opt config mode turns s in
  (forall c, paipuya_cursor mode s' = Some c -> covered c s') /\
  (r = Some Finished -> exists t, t ∈ turns /\ covered (right_edge config t - 10 * second) s') /\
  (forall edge, sync_until config = Some edge ->
     edge - start_from config < Z.of_nat (length turns) * second -> r <> None).
Proof.
  cbv zeta. set (s := fold_left _ events nothing). intros Hh Ht.
  assert (Hc : cursor_ok s) by by apply history_ok. pose proof (start_ok s Hc) as Hok.
  pose proof (sync_loop_spec turns _ s Hok Ht) as H. unfold sync_mode. destruct (sync_loop _ _ _ _ _ _) as [s' r].
  destruct H as (H1 & H2 & H3). split_and!; [intros c E; by destruct (H1 c E)|done|].
  intros edge Hu Hlt Hr. specialize (H3 edge Hu Hr). assert (Hge : start_from config <= sweep_from (paipuya_cursor mode s) (start_from config)).
  { unfold sweep_from. destruct (paipuya_cursor mode s); lia. }
  pose proof (window_valid Hset edge Hu). unfold second in *. lia.
Qed.

End Facts.

(** ** The workers *)
Definition sweeping (w : Worker) : option Z := match w with Sweeping mode => Some mode | _ => None end.
(** Every mode of a run is waiting, being swept, swept or stopped short. *)
Definition accounted (r : Run) : Prop :=
  queue r ++ omap sweeping (workers r) ++ swept r ++ given_up r ≡ₚ selected_modes (run_config r).
(** What holds of the run, if there is one. *)
Record run_ok (s : Supervisor) (r : Run) : Prop := mkRunOk {
  ok_accounted : accounted r;
  ok_failed : given_up r <> [] -> phase s = Failed;
  ok_ended : Ended ∈ workers r -> phase s = Failed \/ queue r = [];
  ok_stopped : phase s = Stopped -> queue r = [] /\ forallb is_ended (workers r) = true;
  ok_over : forallb is_ended (workers r) = true -> phase s = Stopped \/ phase s = Failed
}.
Record inv (s : Supervisor) : Prop := mkInv {
  inv_handles : forall g, is_Some (runs s !! g) -> handles s = Some g /\ generation s = g;
  inv_run : forall g r, runs s !! g = Some r -> run_ok s r
}.

Lemma sweeping_at ws i w : ws !! i = Some w ->
  exists rest, omap sweeping ws ≡ₚ option_list (sweeping w) ++ rest /\
    forall w', omap sweeping (<[i := w']> ws) ≡ₚ option_list (sweeping w') ++ rest.
Proof.
  intros Hi. assert (Hl : (i < length ws)%nat) by by eapply lookup_lt_Some.
  exists (omap sweeping (take i ws) ++ omap sweeping (drop (S i) ws)). split; [|intros w'].
  - rewrite <- (take_drop_middle ws i w Hi) at 1. rewrite omap_app. cbn. destruct (sweeping w); cbn; [|done].
    symmetry. apply Permutation_middle.
  - rewrite insert_take_drop by done. rewrite omap_app. cbn. destruct (sweeping w'); cbn; [|done].
    symmetry. apply Permutation_middle.
Qed.
Lemma ended_insert ws i : (i < length ws)%nat -> Ended ∈ <[i := Ended]> ws.
Proof. intros H. apply (list_elem_of_lookup_2 _ i). by rewrite list_lookup_insert_eq. Qed.
Lemma busy_not_over ws i w : ws !! i = Some w -> w <> Ended -> forallb is_ended ws = false.
Proof.
  intros Hi Hw. apply not_true_iff_false. intros H. rewrite forallb_forall in H.
  specialize (H w ltac:(apply list_elem_of_In; by eapply list_elem_of_lookup_2)). by destruct w.
Qed.
Lemma busy_insert ws i w : (i < length ws)%nat -> w <> Ended -> forallb is_ended (<[i := w]> ws) = false.
Proof. intros H. apply (busy_not_over _ i). by rewrite list_lookup_insert_eq. Qed.
Lemma inv_at s g r : inv s -> runs s !! g = Some r -> generation s = g /\ run_ok s r.
Proof. intros [H1 H2] Hr. split; [by apply (H1 g)|by apply (H2 g)]. Qed.
(** A step of a run leaves a state that is fine when the run is. *)
Lemma inv_update s s' g r : inv s -> is_Some (runs s !! g) ->
  runs s' = <[g := r]> (runs s) -> handles s' = handles s -> generation s' = generation s -> run_ok s' r -> inv s'.
Proof.
  intros [H1 H2] Hg Er Eh Eg Hok. split.
  - intros g' Hg'. rewrite Eh, Eg. apply H1. rewrite Er in Hg'. apply lookup_insert_is_Some' in Hg' as [<-|Hg']; done.
  - intros g' r' Hr'. destruct (H1 g Hg) as [E _]. rewrite Er in Hr'. destruct (decide (g' = g)) as [->|Hne].
    + rewrite lookup_insert_eq in Hr'. by injection Hr' as <-.
    + rewrite lookup_insert_ne in Hr' by done. destruct (H1 g' ltac:(by eexists)). congruence.
Qed.
(** The end of a worker: nothing is left to take, or the run has failed. *)
Lemma leave_ok s0 s g i r w :
  inv s0 -> is_Some (runs s0 !! g) -> runs s = runs s0 -> handles s = handles s0 -> generation s = generation s0 ->
  generation s = g -> workers r !! i = Some w -> accounted (r <| workers ::= <[i := Ended]> |>) ->
  phase s <> Stopped -> phase s = Failed \/ (queue r = [] /\ given_up r = []) ->
  inv (leave g i r s).
Proof.
  intros Hinv Hg Er Eh Eg Egen Hw Hacc Hph Hq. set (r' := r <| workers ::= <[i := Ended]> |>) in *.
  assert (Hin : Ended ∈ workers r') by by apply ended_insert; eapply lookup_lt_Some.
  assert (E : leave g i r s = (s <| runs ::= <[g := r']> |>) <| phase ::= fun p =>
    if forallb is_ended (workers r') && bool_decide (p <> Failed) then Stopped else p |>).
  { unfold leave. fold r'. cbv zeta. destruct (forallb is_ended (workers r')); [|by destruct s].
    unfold complete. cbn [generation set_field]. unfold set_field. cbn [generation phase]. rewrite Egen, Nat.eqb_refl. cbn [negb].
    destruct (decide (phase s = Failed)) as [Hf|Hf]; [rewrite bool_decide_false by tauto|rewrite bool_decide_true by done]; by destruct s. }
  rewrite E. apply (inv_update s0 _ g r' Hinv Hg); [unfold set_field; cbn; by rewrite Er|done|done|].
  remember (forallb is_ended (workers r')) as b eqn:Ee. unfold set_field. cbn. split; cbn [phase]; rewrite <- ?Ee.
  - done.
  - intros Hne. destruct Hq as [->|[_ Hq]]; [|done]. rewrite bool_decide_false by tauto. by rewrite andb_false_r.
  - intros _. destruct Hq as [->|[Hq _]]; [|by right]. left. rewrite bool_decide_false by tauto. by rewrite andb_false_r.
  - destruct b; cbn [andb]; [|done]. case_bool_decide as Hf; [|done]. intros _.
    split; [|done]. destruct Hq as [Hq|[Hq _]]; [done|exact Hq].
  - intros ->. cbn [andb]. case_bool_decide as Hf; [by left|right]. by destruct (decide (phase s = Failed)).
Qed.
Lemma phase_busy s g r i w : inv s -> runs s !! g = Some r -> workers r !! i = Some w -> w <> Ended -> phase s <> Stopped.
Proof.
  intros Hinv Hr Hw Hne Hp. destruct (inv_at s g r Hinv Hr) as [_ Hok].
  destruct (ok_stopped s r Hok Hp) as [_ He]. by rewrite (busy_not_over _ i w Hw Hne) in He.
Qed.
Lemma inv_pop s g i r : inv s -> runs s !! g = Some r -> workers r !! i = Some Looking -> inv (pop g i r s).
Proof.
  intros Hinv Hr Hw. destruct (inv_at s g r Hinv Hr) as [Hgen [Hacc Hfail Hend Hst Hov]].
  assert (Hl : (i < length (workers r))%nat) by by eapply lookup_lt_Some.
  pose proof (phase_busy s g r i _ Hinv Hr Hw ltac:(done)) as Hph.
  destruct (sweeping_at _ _ _ Hw) as (rest & E1 & E2). unfold pop. destruct (last (queue r)) as [mode|] eqn:El.
  - apply last_Some in El as [rest' Eq]. rewrite Hgen, Nat.eqb_refl.
    set (r0 := r <| queue ::= _ |>).
    eapply (inv_update s _ g); [done|by eexists|done..|]. unfold r0, set_field. cbn. rewrite Eq, removelast_last. split; cbn.
    + unfold accounted in *. cbn. rewrite E2. cbn. rewrite <- Hacc, Eq, E1. cbn. by rewrite <- !app_assoc.
    + exact Hfail.
    + intros Hin. left. destruct (Hend) as [Hf|Hf]; [|done|by rewrite Hf in Eq; destruct rest'].
      apply list_elem_of_lookup in Hin as [j Hj]. destruct (decide (i = j)) as [<-|Hne].
      * by rewrite list_lookup_insert_eq in Hj.
      * rewrite list_lookup_insert_ne in Hj by done. by eapply list_elem_of_lookup_2.
    + done.
    + by rewrite busy_insert.
  - apply last_None in El. apply (leave_ok s s g i r Looking); try done; [|].
    + unfold accounted in *. unfold set_field. cbn. rewrite E2, <- Hacc, E1. done.
    + destruct (decide (given_up r = [])); [by right|left; by apply Hfail].
Qed.
Lemma inv_synced s g i mode r : inv s -> runs s !! g = Some r -> workers r !! i = Some (Sweeping mode) -> inv (synced_mode g i mode r s).
Proof.
  intros Hinv Hr Hw. destruct (inv_at s g r Hinv Hr) as [Hgen [Hacc Hfail Hend Hst Hov]].
  assert (Hl : (i < length (workers r))%nat) by by eapply lookup_lt_Some.
  pose proof (phase_busy s g r i _ Hinv Hr Hw ltac:(done)) as Hph.
  destruct (sweeping_at _ _ _ Hw) as (rest & E1 & E2). unfold synced_mode.
  eapply (inv_update s _ g); [done|by eexists|done..|]. unfold set_field. cbn. split; cbn.
  - unfold accounted in *. cbn. rewrite E2, <- Hacc, E1. cbn. apply Permutation_app_head.
    rewrite <- Permutation_middle. done.
  - exact Hfail.
  - intros Hin. apply Hend. apply list_elem_of_lookup in Hin as [j Hj]. destruct (decide (i = j)) as [<-|Hne].
    + by rewrite list_lookup_insert_eq in Hj.
    + rewrite list_lookup_insert_ne in Hj by done. by eapply list_elem_of_lookup_2.
  - done.
  - by rewrite busy_insert.
Qed.
Lemma inv_stopped_short s g i mode why r :
  inv s -> runs s !! g = Some r -> workers r !! i = Some (Sweeping mode) -> inv (stopped_short g i mode why r s).
Proof.
  intros Hinv Hr Hw. destruct (inv_at s g r Hinv Hr) as [Hgen [Hacc Hfail Hend Hst Hov]].
  destruct (sweeping_at _ _ _ Hw) as (rest & E1 & E2). unfold stopped_short.
  apply (leave_ok s _ g i _ (Sweeping mode)); try done; [|by left].
  unfold accounted in *. unfold set_field. cbn. rewrite E2, <- Hacc, E1. cbn. apply Permutation_app_head.
  rewrite app_assoc, <- Permutation_middle. by rewrite <- app_assoc.
Qed.
Lemma inv_empty s : runs s = ∅ -> inv s.
Proof. intros E. split; rewrite E; [intros g Hg|intros g r Hr]; rewrite lookup_empty in *; [by destruct Hg|done]. Qed.
Lemma stop_tasks_empty s : inv s -> runs (stop_tasks s) = ∅.
Proof.
  intros [H _]. apply map_empty. intros g. unfold stop_tasks, set_field. cbn. apply eq_None_not_Some. intros Hg.
  destruct (handles s) as [h|] eqn:E.
  - rewrite lookup_delete_is_Some in Hg. destruct Hg as [Hne Hg]. destruct (H g Hg). congruence.
  - by destruct (H g Hg).
Qed.
Lemma inv_started c s : (1 <= concurrency c)%nat -> inv s -> inv (start c s).
Proof.
  intros Hc Hinv. unfold start, spawn. pose proof (stop_tasks_empty s Hinv) as He. unfold set_field. cbn.
  unfold stop_tasks, set_field in He. cbn in He. rewrite He.
  assert (Hso : omap sweeping (repeat Looking (concurrency c)) = []) by (clear; by induction (concurrency c)).
  split; cbn [runs handles generation].
  - intros g [r Hr]. apply lookup_singleton_Some in Hr as [<- _]. done.
  - intros g r Hr. apply lookup_singleton_Some in Hr as [<- <-]. split; cbn; try done.
    + unfold accounted. cbn. by rewrite Hso, !app_nil_r.
    + intros Hin%list_elem_of_In%repeat_spec. done.
    + destruct (concurrency c); [lia|done].
Qed.
Lemma inv_stop s : inv s -> inv (stop s).
Proof. intros [H1 H2]. apply inv_empty. exact (stop_tasks_empty s (mkInv s H1 H2)). Qed.
Lemma reachable_supervisor s : reachable s -> inv s.
Proof.
  induction 1 as [|s s' _ IH Hs]; [by apply inv_empty|]. destruct Hs.
  - destruct action; [by apply inv_started|by apply inv_stop|by apply inv_started].
  - unfold reset_cursors. cbn. destruct (decide _); [done|by apply inv_stop].
  - by apply inv_pop.
  - by apply inv_synced.
  - by apply inv_stopped_short.
Qed.
(** The console never reads as finished a sweep that is not: whatever the
    workers and the actions do, there is one run at most, of the present
    generation; each selected mode of it is waiting, being swept, swept or
    stopped short; when the phase is back to stopped every mode was swept to its
    end, when a mode stopped short the phase is failed, and when the last worker
    has left it is one of the two. *)
Theorem finished_runs_swept_every_mode s g r :
  reachable s -> runs s !! g = Some r ->
  handles s = Some g /\ generation s = g /\ accounted r /\
  (phase s = Stopped -> swept r ≡ₚ selected_modes (run_config r)) /\
  (given_up r <> [] -> phase s = Failed) /\
  (forallb is_ended (workers r) = true -> phase s = Stopped \/ phase s = Failed).
Proof.
  intros Hs%reachable_supervisor Hr. destruct (inv_handles s Hs g ltac:(by eexists)) as [Hh Hg].
  destruct (inv_run s Hs g r Hr) as [Hacc Hfail Hend Hst Hov]. split_and!; try done.
  intros Hp. destruct (Hst Hp) as [Hq He]. unfold accounted in Hacc. rewrite Hq in Hacc.
  assert (Hg0 : given_up r = []) by (destruct (given_up r); [done|by rewrite Hfail in Hp]).
  assert (Hw : omap sweeping (workers r) = []).
  { clear - He. induction (workers r) as [|w l IH]; [done|]. cbn in *. destruct w; [done..|by apply IH]. }
  by rewrite Hw, Hg0, app_nil_r in Hacc.
Qed.

(** ** Witnesses *)
Definition toy_opt (s : Z) : option DateTime := Some (s * second).
Definition toy_game (id : string) (s : Z) : ApiGame := mkApiGame id 8 s s [mkPlayer 1 "a" 25000].
(** The second game has no identifier, and is counted as not one. *)
Definition toy_listing : list ApiGame := [toy_game "g1" 3; toy_game "" 40; toy_game "g2" 70; toy_game "g3" 97].
Definition toy_config : PaipuyaConfig :=
  mkConfig 1 true "https://site/" None "x-key" [8; 9] 0 (Some (100 * second)) 500 2 1.
Definition toy_turn (from : Z) (i m : reply) : Turn :=
  mkTurn 0 (Page (answer toy_config toy_listing (from * second) (100 * second))) i m.
Lemma toy_opt_spec s : (forall t, toy_opt s = Some t -> t = s * second) /\ (0 <= s < horizon -> is_Some (toy_opt s)).
Proof. split; [by intros t [= <-]|by eexists]. Qed.
Lemma toy_sorted : StronglySorted (fun a b => start_time a <= start_time b) toy_listing.
Proof. repeat constructor; by vm_compute. Qed.
Lemma toy_settings : settings toy_config.
Proof. split; [cbn; unfold MAX_PAGE; lia|by exists 0|intros edge [= <-]; by vm_compute]. Qed.
(** A run whose second write of the cursor fails, then a run of another mode,
    and one that goes on. *)
Definition toy_events : list Event :=
  [Ran [toy_turn 0 Done Done; toy_turn 3 Done Prelude.Failed]; OtherRan 9 [mkTurn 0 (Page [toy_game "h" 50]) Done Done]].
Definition toy_turns : list Turn :=
  map (fun s => toy_turn s Done Done) [3; 4; 40; 41; 70; 71; 97].
Ltac honest_turn :=
  cbn [honest]; split; [by vm_compute|]; split; [by intros page [= <-]; vm_compute|];
  match goal with |- match ?x with _ => _ end => let y := eval vm_compute in x in change x with y; cbn iota end.
Lemma toy_honest_events : honest_history toy_opt toy_config 8 toy_listing toy_events nothing.
Proof.
  split; [|split; [done|exact I]]. unfold honest_event, toy_events. change (sweep_from _ _) with 0.
  do 2 honest_turn. exact I.
Qed.
Definition toy_store : Store := fold_left (fun s e => happens toy_opt toy_config 8 e s) toy_events nothing.
Lemma toy_turns_honest : honest_event toy_opt toy_config 8 toy_listing (Ran toy_turns) toy_store.
Proof.
  unfold honest_event, toy_turns. cbn [map]. replace (sweep_from _ _) with (3 * second) by (by vm_compute).
  do 6 honest_turn. split; [by vm_compute|]. split; [by intros page [= <-]; vm_compute|by destruct (Paipuya.sync_turn _ _ _ _ _ _) as [? []]].
Qed.
(** All the listing is stored, the games of the overlap twice. *)
Example toy_run : map g_uuid (games (fst (sync_mode toy_opt toy_config 8 toy_turns toy_store))) = ["g1"; "g1"; "h"; "g1"; "g2"; "g2"; "g3"] /\
  snd (sync_mode toy_opt toy_config 8 toy_turns toy_store) = Some Finished.
Proof. by vm_compute. Qed.
Lemma sync_misses_no_game_witness :
  exists s' c, sync_mode toy_opt toy_config 8 toy_turns toy_store = (s', Some Finished) /\
  paipuya_cursor 8 s' = Some c /\ covered toy_opt toy_config toy_listing c s'.
Proof.
  pose proof (sync_misses_no_game toy_opt toy_config 8 toy_opt_spec toy_listing toy_sorted toy_settings toy_events toy_turns
    toy_honest_events toy_turns_honest) as H. fold toy_store in H.
  assert (E : snd (sync_mode toy_opt toy_config 8 toy_turns toy_store) = Some Finished) by (by vm_compute).
  assert (Ec : paipuya_cursor 8 (fst (sync_mode toy_opt toy_config 8 toy_turns toy_store)) = Some (97 * second)) by (by vm_compute).
  destruct (sync_mode _ _ _ _ _) as [s' r]. cbn [fst snd] in *. destruct H as [H _].
  exists s', (97 * second). rewrite E. split; [done|]. split; [done|]. by apply H.
Defined.
Lemma pacer_spaces_the_requests_witness :
  ticks 500 0 [mkTick 3 0; mkTick 10 520; mkTick 1300 0] = [3; 520; 1300] /\ 3 + Z.of_nat 2 * 500 <= 1300.
Proof.
  split; [done|]. apply (pacer_spaces_the_requests 500 0 [mkTick 3 0; mkTick 10 520; mkTick 1300 0] 0 2); try done.
Defined.
(** Two workers sweep two modes. *)
Lemma finished_runs_swept_every_mode_witness :
  exists s r, reachable s /\ runs s !! 1%nat = Some r /\ phase s = Stopped /\ swept r ≡ₚ [8; 9].
Proof.
  set (r0 := mkRun toy_config [8; 9] [Looking; Looking] [] []).
  set (r1 := mkRun toy_config [8] [Sweeping 9; Looking] [] []).
  set (r2 := mkRun toy_config [] [Sweeping 9; Sweeping 8] [] []).
  set (r3 := mkRun toy_config [] [Sweeping 9; Looking] [8] []).
  set (r4 := mkRun toy_config [] [Sweeping 9; Ended] [8] []).
  set (r5 := mkRun toy_config [] [Looking; Ended] [9; 8] []).
  set (s0 := start toy_config initial).
  set (s1 := pop 1 0 r0 s0). set (s2 := pop 1 1 r1 s1). set (s3 := synced_mode 1 1 8 r2 s2).
  set (s4 := pop 1 1 r3 s3). set (s5 := synced_mode 1 0 9 r4 s4). set (s6 := pop 1 0 r5 s5).
  assert (H : reachable s6).
  { apply (Reach_step s5); [|by apply Step_pop]. apply (Reach_step s4); [|by apply Step_synced].
    apply (Reach_step s3); [|by apply Step_pop]. apply (Reach_step s2); [|by apply Step_synced].
    apply (Reach_step s1); [|by apply Step_pop]. apply (Reach_step s0); [|by apply Step_pop].
    apply (Reach_step initial); [constructor|]. apply (Step_action toy_config Start). cbn. lia. }
  assert (Hp : phase s6 = Stopped) by done.
  exists s6, (mkRun toy_config [] [Ended; Ended] [9; 8] []). split; [done|]. split; [done|]. split; [done|].
  by destruct (finished_runs_swept_every_mode s6 1 _ H eq_refl) as (_ & _ & _ & Hs & _); apply Hs.
Defined.

(** ** What the walk and the actions do not do *)
(** A second with more games than a page: the sync asks for it once, takes a page
    of it and goes on to the next second; the other game is never asked for. *)
Example a_crowded_second_is_cut :
  let listing := [toy_game "g1" 40; toy_game "g2" 40; toy_game "g3" 70] in
  let turn from := mkTurn 0 (Page (answer toy_config listing (from * second) (100 * second))) Done Done in
  let '(s, r) := sync_mode toy_opt toy_config 8 (map turn [0; 40; 41; 70; 71]) nothing in
  r = Some Finished /\ map g_uuid (games s) = ["g1"; "g1"; "g3"; "g3"].
Proof. by vm_compute. Qed.
(** The end of a bounded window: a full page leaves the cursor less than ten
    seconds before the end, the mode is reported as synced to it, and the games
    after the cursor are never asked for. *)
Example the_last_seconds_are_left_out :
  let listing := [toy_game "g1" 95; toy_game "g2" 97] in
  let page from := Page (answer toy_config listing (from * second) (100 * second)) in
  let '(s, r) := sync_mode toy_opt toy_config 8 [mkTurn 0 (page 0) Done Done; mkTurn 0 (page 95) Done Done] nothing in
  r = Some Finished /\ map g_uuid (games s) = ["g1"] /\ paipuya_cursor 8 s = Some (95 * second).
Proof. by vm_compute. Qed.
(** Two starts at once: the run of the first keeps sweeping beside the second's,
    and a stop ends the second only. *)
Example overlapping_starts_leave_a_run :
  let s := spawn toy_config (spawn toy_config (stop_tasks (stop_tasks initial))) in
  map fst (map_to_list (runs s)) = [2%nat; 1%nat] /\ map fst (map_to_list (runs (stop s))) = [1%nat].
Proof. by vm_compute. Qed.
