(* ===== verification/Register.v ===== *)
(** The service that registers accounts: a batch of jobs, each in a process of a
    module, whose accounts go into the pool; the exits a batch borrows from the
    proxy manager ([src/src/register_service.rs]). *)
From S2P Require Import Prelude Text Json Service Accounts Version WatchLog Mihomo.
#[local] Open Scope string_scope.
#[local] Open Scope list_scope.
#[local] Open Scope Z_scope.

Module Register.
Import Service Json.

Definition LOG_SOURCE : string := "register".
Definition MAX_BATCH : nat := 200.
Definition GIVE_UP_AFTER : nat := 3.
Definition MAX_CONCURRENCY : nat := 16.

(** ** The request *)
Record CloudMailConfig := mkCloud {
  cloud_url : string; token : string; admin_email : string; admin_password : string; domain : string
}.
Record TempMailConfig := mkTemp { temp_url : string; api_key : string }.
Record AccountRegisterRequest := mkRequest {
  mailboxes : list string; cloud_mail : option CloudMailConfig; temp_mail : option TempMailConfig; count : nat;
  purpose : Accounts.AccountPurpose; note : string; proxy : option string; mimic : bool; poll_tries : Z;
  poll_interval : number; concurrency : nat; random_node : bool
}.
Definition is_blank (s : string) : bool := String.eqb (trim s) "".
Definition validate_cloud (c : CloudMailConfig) : result WatchServiceError unit :=
  if is_blank (cloud_url c) then Err (InvalidConfig "Cloud Mail 的地址是空的")
  else if negb (String.prefix "http" (trim (cloud_url c))) then Err (InvalidConfig "Cloud Mail 地址要带 http:// 或 https://")
  else if is_blank (token c) && negb (negb (is_blank (admin_email c)) && negb (String.eqb (admin_password c) ""))
  then Err (InvalidConfig "Cloud Mail 要么给开放 API 令牌，要么给管理员邮箱和密码")
  else Ok tt.
Definition validate_temp (t : TempMailConfig) : result WatchServiceError unit :=
  if is_blank (api_key t) then Err (InvalidConfig "临时邮箱的 API key 是空的")
  else if negb (is_blank (temp_url t)) && negb (String.prefix "http" (trim (temp_url t)))
  then Err (InvalidConfig "临时邮箱地址要带 http:// 或 https://")
  else Ok tt.
(** A line of the list that names a mailbox. *)
Definition is_mailbox (line : string) : bool := negb (String.eqb line "") && negb (String.prefix "#" line).
Definition too_many (count : nat) : WatchServiceError :=
  InvalidConfig ("一次最多 " +:+ pretty (Z.of_nat MAX_BATCH) +:+ " 个，这次是 " +:+ pretty (Z.of_nat count)
                 +:+ "；一个号要几分钟，分批跑").
Definition jobs_for (r : AccountRegisterRequest) : result WatchServiceError (list (option string)) :=
  match (match cloud_mail r, temp_mail r with
         | Some cloud, _ => Some (validate_cloud cloud)
         | None, Some temp => Some (validate_temp temp)
         | None, None => None
         end) with
  | Some validated =>
    _ ← validated;
    if Nat.eqb (count r) 0 then Err (InvalidConfig "要注册几个？填个数量")
    else if Nat.ltb MAX_BATCH (count r) then Err (too_many (count r))
    else Ok (repeat None (count r))
  | None =>
    let boxes := List.filter is_mailbox (map trim (mailboxes r)) in
    if Nat.eqb (length boxes) 0
    then Err (InvalidConfig "一个邮箱凭据都没有；每行一个，行首 # 会被跳过。或者换个来源，让它现开")
    else if Nat.ltb MAX_BATCH (length boxes) then Err (too_many (length boxes))
    else Ok (map Some boxes)
  end.
(** [json!] of the settings of a source, and the source a run uses. *)
Definition opt_str (o : option string) : json := match o with Some s => JStr s | None => JNull end.
Definition cloud_json (c : CloudMailConfig) : json :=
  JObj [("base_url", JStr (cloud_url c)); ("token", JStr (token c)); ("admin_email", JStr (admin_email c));
        ("admin_password", JStr (admin_password c)); ("domain", JStr (domain c))].
Definition temp_json (t : TempMailConfig) : json :=
  JObj [("base_url", JStr (temp_url t)); ("api_key", JStr (api_key t))].
Definition probe_params (r : AccountRegisterRequest) : option json :=
  match cloud_mail r, temp_mail r with
  | Some cloud, _ => Some (JObj [("cloud_mail", cloud_json cloud); ("proxy", opt_str (proxy r))])
  | None, Some temp => Some (JObj [("temp_mail", temp_json temp); ("proxy", opt_str (proxy r))])
  | None, None =>
    credential ← List.find is_mailbox (map trim (mailboxes r));
    Some (JObj [("mailbox", JStr credential); ("proxy", opt_str (proxy r))])
  end.
(** The address a credential starts with. *)
Definition separator (c : string) : bool := unicode_space c || String.eqb c "," || String.eqb c "-".
Definition is_address (part : string) : bool :=
  match split_once "@"%char part with
  | Some (local, domain) =>
    negb (String.eqb local "") && contains "."%char domain && negb (String.prefix "." domain)
  | None => false
  end.
Definition address_of (credential : string) : option string :=
  List.find is_address (map (String.concat "") (split_chars separator (chars (trim credential)))).
Definition register_mail_secrets (r : AccountRegisterRequest) (log : WatchLog.WatchLogBuffer) : WatchLog.WatchLogBuffer :=
  let log := fold_left (fun log credential =>
    if is_mailbox (trim credential) then WatchLog.register_secret (trim credential) log else log) (mailboxes r) log in
  let log := match temp_mail r with
             | Some temp => WatchLog.register_secret (trim (api_key temp)) log | None => log end in
  match cloud_mail r with
  | Some cloud => WatchLog.register_secret (admin_password cloud) (WatchLog.register_secret (trim (token cloud)) log)
  | None => log
  end.
Definition reported_email (answer : json) (fallback : string) : string :=
  match get "email" answer ≫= as_str with
  | Some email => if String.eqb email "" then fallback else email
  | None => fallback
  end.
Definition version_hint (reason current : string) : string :=
  match find "151" reason with
  | None => ""
  | Some _ => String (Ascii.ascii_of_nat 10)
      ("151 = 雀魂把客户端版本的下限抬过去了，跟账号、邮箱、出口都无关。这批报的是 " +:+ current
       +:+ "。注册这边没有能登录的账号，探不出新的下限；让牌谱补抓或者采集跑一次，它们撞到同一堵墙会自动探出来存下，之后注册开跑就读到了。")
  end.

(** ** The exits *)
Definition concurrency_for (asked jobs : nat) : nat :=
  Nat.min (Nat.max 1 (Nat.min asked MAX_CONCURRENCY)) (Nat.max jobs 1).
Definition nodes_to_borrow (held alive : list string) (want : nat) : list string :=
  fold_left (fun borrowed node =>
    if Nat.leb want (length borrowed) then borrowed
    else if bool_decide (node ∈ held) || bool_decide (node ∈ borrowed) then borrowed
    else borrowed ++ [node]) alive [].
Definition swap {A} (i j : nat) (l : list A) : list A :=
  match l !! i, l !! j with Some x, Some y => <[j := x]> (<[i := y]> l) | _, _ => l end.
(** [draws]: the random numbers, for each index from the last to the second. *)
Fixpoint shuffle_from (index : nat) (draws : nat -> nat) (l : list string) : list string :=
  match index with
  | O => l
  | S index' => shuffle_from index' draws (swap index (draws index mod S index)%nat l)
  end.
Definition shuffle (draws : nat -> nat) (nodes : list string) : list string := shuffle_from (length nodes - 1) draws nodes.
Definition usable_exits (outbounds : list Mihomo.MihomoOutboundStatus) : list string :=
  map Mihomo.node (List.filter Mihomo.pointed outbounds).

(** ** The state

    [progress] is what the console polls. A batch is the run of one request: its
    exits, the jobs it launched, which are tasks until they give their permit
    back, and the failures since the last success. *)
Record AccountRegisterOutcome := mkOutcome {
  email : string; ok : bool; account_id : option Z; nickname : option string; stage : string; detail : string
}.
#[export] Instance AccountRegisterOutcome_settable : Settable AccountRegisterOutcome := fun r =>
  mkOutcome (email r) (ok r) (account_id r) (nickname r) (stage r) (detail r).
Record AccountRegisterProgress := mkProgress {
  running : bool; total : nat; done : nat; succeeded : nat; failed : nat; current : option string;
  message : option string; outcomes : list AccountRegisterOutcome
}.
#[export] Instance AccountRegisterProgress_settable : Settable AccountRegisterProgress := fun r =>
  mkProgress (running r) (total r) (done r) (succeeded r) (failed r) (current r) (message r) (outcomes r).
Definition no_progress : AccountRegisterProgress := mkProgress false 0 0 0 0 None None [].
Inductive Task :=
| Started (address : string) (mailbox : option string) (node : option string)
| Asking (address : string) (mailbox : option string) (proxy node : option string)
| Settled (outcome : AccountRegisterOutcome)
| Pushed (ok : bool)
| Noted.
Inductive Stage :=
| Claimed | Leasing | Applying | Reading | Preparing | Looping | Draining (stopped : bool)
| Returning (outcome : result WatchServiceError string).
Record Batch := mkBatch {
  request : AccountRegisterRequest; jobs : list (option string); b_generation : nat; at_ : Stage;
  exits : list string; cloud : json; versions : string * string;
  launched : nat; streak : nat; tasks : gmap nat Task
}.
#[export] Instance Batch_settable : Settable Batch := fun r =>
  mkBatch (request r) (jobs r) (b_generation r) (at_ r) (exits r) (cloud r) (versions r) (launched r) (streak r) (tasks r).
Record RegisterService := mkService {
  accounts : Accounts.AccountPool; mihomo : Mihomo.Manager; logs : WatchLog.WatchLogBuffer;
  progress : AccountRegisterProgress; generation : nat; batch : option Batch
}.
#[export] Instance RegisterService_settable : Settable RegisterService := fun r =>
  mkService (accounts r) (mihomo r) (logs r) (progress r) (generation r) (batch r).

(** [finish] counts an outcome; [note_result] is the streak of failures. *)
Definition finish (o : AccountRegisterOutcome) (p : AccountRegisterProgress) : AccountRegisterProgress :=
  if ok o then p <| done ::= S |> <| succeeded ::= S |> else p <| done ::= S |> <| failed ::= S |>.
Definition note_result (ok : bool) (streak : nat) : nat := if ok then O else S streak.
Definition last_failure (p : AccountRegisterProgress) : string :=
  match List.find (fun o => negb (ok o)) (rev (outcomes p)) with
  | Some o => "[" +:+ stage o +:+ "] " +:+ detail o
  | None => "（没记下原因）"
  end.
(** The button: the claim of the progress, and the read of the generation the
    batch then runs under. *)
Definition start (module : result WatchServiceError (string * string)) (r : AccountRegisterRequest) (s : RegisterService)
  : RegisterService * result WatchServiceError unit :=
  match jobs_for r with
  | Err e => (s, Err e)
  | Panic => (s, Panic)
  | Ok jobs =>
    let s := s <| logs ::= register_mail_secrets r |> in
    match module with
    | Err e => (s, Err e)
    | Panic => (s, Panic)
    | Ok _ =>
      if running (progress s) then (s, Err (InvalidConfig "已经有一批在注册了，等它结束或者先停掉"))
      else (s <| progress := no_progress <| running := true |> <| total := length jobs |> |>
              <| batch := Some (mkBatch r jobs 0 Claimed [] JNull ("", "") 0 0 ∅) |>, Ok tt)
    end
  end.
Definition with_batch (f : Batch -> Batch) (s : RegisterService) : RegisterService := s <| batch ::= fmap f |>.
Definition begin_ (b : Batch) (s : RegisterService) : RegisterService :=
  with_batch (fun b => b <| b_generation := generation s |>
    <| at_ := if random_node (request b) then Leasing else Preparing |>) s.
Definition stop (s : RegisterService) : RegisterService * bool :=
  if running (progress s) then (s <| generation ::= S |>, true) else (s, false).

Section Batch.
(** The texts of the errors of the pool and of the proxy manager. *)
Variable pool_error : Accounts.PoolError -> string.
Variable mihomo_error : Mihomo.MihomoError -> string.
(** [str::to_lowercase], and what the proxy manager takes of other crates. *)
Variable to_lowercase : string -> string.
Variable to_json : json -> string.
Variable parse_url : string -> result string Mihomo.Url.
Variable set_port : string -> Z -> option string.
Variable controller_secret proxy_url : string.
Abbreviation append := (Accounts.append to_lowercase).
Abbreviation lease_outbound_nodes := (Mihomo.lease_outbound_nodes to_json controller_secret).
Abbreviation release_outbound_nodes := (Mihomo.release_outbound_nodes to_json controller_secret).
Abbreviation status := (Mihomo.status parse_url set_port proxy_url).
Abbreviation proxy_url_for_node := (Mihomo.proxy_url_for_node set_port proxy_url).

(** *** One account *)
Definition blank_outcome (address : string) : AccountRegisterOutcome := mkOutcome address false None None "" "".
(** How the account is stored: when, under which identifier, whether the file of
    the pool can be written. *)
Record Storing := mkStoring { clock : Z; fresh : nat -> string; written : bool }.
Definition described (nickname : option string) (id : option Z) : string :=
  match nickname, id with
  | Some nickname, Some id => "昵称 " +:+ nickname +:+ "，account_id " +:+ pretty id
  | Some nickname, None => "昵称 " +:+ nickname
  | None, Some id => "account_id " +:+ pretty id +:+ "，昵称没设上"
  | None, None => "注册成功，但昵称和 account_id 都没拿到"
  end.
Definition settle (w : Storing) (address : string) (answer : WatchServiceError + json) (r : AccountRegisterRequest)
  (node : option string) (pool : Accounts.AccountPool) : Accounts.AccountPool * AccountRegisterOutcome :=
  match answer with
  | inr value =>
    let reported := reported_email value address in
    let outcome := (blank_outcome address) <| email := reported |> in
    if negb (default false (get "ok" value ≫= as_bool)) then
      (pool, outcome <| stage := default "unknown" (get "stage" value ≫= as_str) |>
                     <| detail := default "模块没有说明失败原因" (get "error" value ≫= as_str) |>)
    else
      let password := default "" (get "password" value ≫= as_str) in
      let outcome := outcome <| account_id := get "account_id" value ≫= as_u64 |>
                             <| nickname := get "nickname" value ≫= as_str |> in
      if String.eqb password "" then
        (pool, outcome <| stage := "password" |> <| detail := "模块说成功但没给密码，这个号没法用" |>)
      else
        let stored := Accounts.mkAccount "" reported password (purpose r) (note r) false (default "" node) None in
        match append (clock w) (fresh w) (written w) [stored] pool with
        | (pool, Ok 1) => (pool, outcome <| ok := true |> <| detail := described (nickname outcome) (account_id outcome) |>)
        | (pool, Ok _) => (pool, outcome <| stage := "pool" |> <| detail := "账号池里已经有这个邮箱了，没有重复写入" |>)
        | (pool, Err e) => (pool, outcome <| stage := "pool" |> <| detail := "写进账号池失败：" +:+ pool_error e |>)
        | (pool, Panic) => (pool, outcome)
        end
  | inl e => (pool, (blank_outcome address) <| stage := "module" |> <| detail := to_string e |>)
  end.
(** What the module is asked. *)
Definition register_params (b : Batch) (mailbox proxy : option string) : json :=
  JObj [("mailbox", opt_str mailbox); ("cloud_mail", cloud b);
        ("temp_mail", match temp_mail (request b) with Some temp => temp_json temp | None => JNull end);
        ("proxy", opt_str proxy); ("mimic", JBool (mimic (request b))); ("poll_tries", num (poll_tries (request b)));
        ("poll_interval", JNum (poll_interval (request b))); ("client_version", JStr (fst (versions b)));
        ("package_version", JStr (snd (versions b)))].
Definition set_task (i : nat) (t : Task) (s : RegisterService) : RegisterService :=
  with_batch (fun b => b <| tasks ::= <[i := t]> |>) s.
Definition settle_task (w : Storing) (i : nat) (address : string) (answer : WatchServiceError + json)
  (r : AccountRegisterRequest) (node : option string) (s : RegisterService) : RegisterService :=
  let '(pool, outcome) := settle w address answer r node (accounts s) in
  set_task i (Settled outcome) (s <| accounts := pool |> <| progress ::= finish outcome |>).
(** [one_account], in the steps between which others run: the choice of the
    proxy, the answer of the module, and the three writes after it. *)
Definition dial (w : Storing) (b : Batch) (i : nat) (address : string) (mailbox node : option string) (s : RegisterService)
  : RegisterService :=
  match node with
  | Some name =>
    match proxy_url_for_node name (mihomo s) with
    | Some url => set_task i (Asking address mailbox (Some url) (Some name)) (s <| progress ::= fun p => p <| current := Some address |> |>)
    | None =>
      settle_task w i address
        (inl (InvalidConfig ("出口 " +:+ name +:+ " 的监听不见了（这期间账号池被保存过就会这样），这个号没跑 —— 免得从本机地址出去")))
        (request b) None s
    end
  | None =>
    set_task i (Asking address mailbox (proxy (request b)) None) (s <| progress ::= fun p => p <| current := Some address |> |>)
  end.
Definition answered (w : Storing) (b : Batch) (i : nat) (address : string) (node : option string)
  (answer : WatchServiceError + json) (s : RegisterService) : RegisterService :=
  settle_task w i address answer (request b) node s.
Definition push (i : nat) (o : AccountRegisterOutcome) (s : RegisterService) : RegisterService :=
  set_task i (Pushed (ok o)) (s <| progress ::= fun p => p <| outcomes ::= fun l => l ++ [o] |> |>).
Definition note_task (i : nat) (ok : bool) (s : RegisterService) : RegisterService :=
  set_task i Noted (with_batch (fun b => b <| streak ::= note_result ok |>) s).
Definition give_back (i : nat) (s : RegisterService) : RegisterService := with_batch (fun b => b <| tasks ::= delete i |>) s.

(** *** The exits of a batch *)
Record Released := mkReleased { release_writes : Mihomo.Writes; reapplied : list Mihomo.Attempt }.
Definition release_exits (l : Released) (pool : Accounts.AccountPool) (m : Mihomo.Manager) : Mihomo.Manager :=
  match release_outbound_nodes (release_writes l) (Accounts.refetch_nodes pool) m with
  | (m, Ok true) => Mihomo.apply_runtime_config (reapplied l) m
  | (m, _) => m
  end.
Definition status_of (a : Mihomo.Answers) (m : Mihomo.Manager) : Mihomo.Manager * (list Mihomo.MihomoNode * list Mihomo.MihomoOutboundStatus) :=
  match status a m with
  | (m, Ok st) => (m, (Mihomo.all_nodes st, Mihomo.outbound_statuses st))
  | (m, _) => (m, ([], []))
  end.
(** [lease_exits], in the steps between which others run: the choice of the
    nodes and their registration, the reload of the core, and what it then has. *)
Definition ask_exits (a : Mihomo.Answers) (draws : nat -> nat) (w : Mihomo.Writes) (want : nat) (pool : Accounts.AccountPool)
  (m : Mihomo.Manager) : Mihomo.Manager * result WatchServiceError unit :=
  let '(m, (nodes, _)) := status_of a m in
  let alive := map Mihomo.n_name (List.filter (fun n => default false (Mihomo.alive n)) nodes) in
  if Nat.eqb (length alive) 0
  then (m, Err (InvalidConfig "mihomo 里一个活着的节点都没有：订阅可能还没拉到，或者节点全都测不通"))
  else
    let held := Accounts.refetch_nodes pool in
    let borrowed := nodes_to_borrow held (shuffle draws alive) want in
    match lease_outbound_nodes w borrowed held m with
    | (m, Ok _) => (m, Ok tt)
    | (m, Err e) => (m, Err (InvalidConfig ("登记出口失败：" +:+ mihomo_error e)))
    | (m, Panic) => (m, Panic)
    end.
Definition take_exits (a : Mihomo.Answers) (r : Released) (pool : Accounts.AccountPool) (m : Mihomo.Manager)
  : Mihomo.Manager * result WatchServiceError (list string) :=
  let '(m, (_, outbounds)) := status_of a m in
  match usable_exits outbounds with
  | [] => (release_exits r pool m,
           Err (InvalidConfig "出口登记了但 mihomo 没把监听建起来，这批没跑；看一眼代理页，多半是订阅或者 mihomo 本身有问题"))
  | ready => (m, Ok ready)
  end.

(** *** The batch *)
(** The end of the run: what the console then reads. *)
Definition over (outcome : result WatchServiceError string) (s : RegisterService) : RegisterService :=
  s <| batch := None |>
    <| progress ::= fun p => p <| running := false |> <| current := None |>
         <| message := match outcome with
                       | Ok text => Some text
                       | Err e => Some ("注册中断：" +:+ to_string e)
                       | Panic => None
                       end |> |>.
(** The end of [registered]: the exits of a batch that has some are given back
    before the run is over. *)
Definition return_with (b : Batch) (outcome : result WatchServiceError string) (s : RegisterService) : RegisterService :=
  if random_node (request b) then with_batch (fun b => b <| at_ := Returning outcome |>) s else over outcome s.
Definition width (b : Batch) : nat := concurrency_for (concurrency (request b)) (length (jobs b)).
Definition lease (a : Mihomo.Answers) (draws : nat -> nat) (w : Mihomo.Writes) (b : Batch) (s : RegisterService)
  : RegisterService :=
  let '(m, r) := ask_exits a draws w (width b) (accounts s) (mihomo s) in
  let s := s <| mihomo := m |> in
  match r with
  | Ok _ => with_batch (fun b => b <| at_ := Applying |>) s
  | Err e => over (Err e) s
  | Panic => over Panic s
  end.
Definition apply_exits (attempts : list Mihomo.Attempt) (s : RegisterService) : RegisterService :=
  with_batch (fun b => b <| at_ := Reading |>) (s <| mihomo ::= Mihomo.apply_runtime_config attempts |>).
Definition take (a : Mihomo.Answers) (l : Released) (s : RegisterService) : RegisterService :=
  let '(m, r) := take_exits a l (accounts s) (mihomo s) in
  let s := s <| mihomo := m |> in
  match r with
  | Ok ready => with_batch (fun b => b <| exits := ready |> <| at_ := Preparing |>) s
  | Err e => over (Err e) s
  | Panic => over Panic s
  end.
(** The worker of the module, the account of the mail service and the probe of
    the others, which may fail; the versions are those of the cache. *)
Definition prepare (ready : result WatchServiceError json) (cache package : option string) (b : Batch) (s : RegisterService)
  : RegisterService :=
  match ready with
  | Ok resolved =>
    with_batch (fun b => b <| cloud := resolved |> <| versions := Version.current_client_versions cache package |>
                           <| at_ := Looping |>) s
  | Err e => return_with b (Err e) s
  | Panic => return_with b Panic s
  end.
Definition exit_for (b : Batch) (index : nat) : option string :=
  match exits b with [] => None | l => l !! (index mod length l)%nat end.
Definition address_for (b : Batch) (index : nat) (mailbox : option string) : string :=
  match mailbox with
  | Some credential => default "（读不出邮箱）" (address_of credential)
  | None => "第 " +:+ pretty (Z.of_nat (index + 1)) +:+ "/" +:+ pretty (Z.of_nat (length (jobs b))) +:+ " 个（正在开邮箱）"
  end.
(** A turn of the loop over the jobs, [None] while no permit is free. *)
Definition turn (b : Batch) (s : RegisterService) : option RegisterService :=
  match jobs b !! launched b with
  | None => Some (with_batch (fun b => b <| at_ := Draining false |>) s)
  | Some mailbox =>
    if negb (Nat.ltb (size (tasks b)) (width b)) then None
    else if negb (Nat.eqb (generation s) (b_generation b))
    then Some (with_batch (fun b => b <| at_ := Draining true |>) s)
    else if Nat.leb GIVE_UP_AFTER (streak b)
    then Some (with_batch (fun b => b <| at_ := Draining false |>) s)
    else
      let index := launched b in
      let task := Started (address_for b index mailbox) mailbox (exit_for b index) in
      Some (with_batch (fun b => b <| launched ::= S |> <| tasks ::= <[index := task]> |>) s)
  end.
Definition closing (b : Batch) (stopped : bool) (p : AccountRegisterProgress) : string :=
  if stopped then "已停止"
  else if Nat.leb GIVE_UP_AFTER (streak b) then
    let reason := last_failure p in
    "连着 " +:+ pretty (Z.of_nat GIVE_UP_AFTER) +:+ " 个都失败了，剩下 "
    +:+ pretty (Z.of_nat (length (jobs b) - launched b)) +:+ " 个没有再试。最后一个的原因：" +:+ reason
    +:+ version_hint reason (fst (versions b))
  else "注册结束：成功 " +:+ pretty (Z.of_nat (succeeded p)) +:+ "，失败 " +:+ pretty (Z.of_nat (failed p)).
Definition drained (b : Batch) (stopped : bool) (s : RegisterService) : RegisterService :=
  return_with b (Ok (closing b stopped (progress s))) s.
Definition returned (l : Released) (outcome : result WatchServiceError string) (s : RegisterService) : RegisterService :=
  over outcome (s <| mihomo ::= release_exits l (accounts s) |>).

(** *** The steps

    Beside those of the batch: the button, the account pool and the proxy
    manager as others change them. *)
Definition saves (w : Mihomo.Writes) : Prop := Mihomo.outbounds_ok w = true /\ Mihomo.config_ok w = true.
Inductive step : RegisterService -> RegisterService -> Prop :=
| Step_start module r s : step s (fst (start module r s))
| Step_stop s : step s (fst (stop s))
| Step_pool pool s : step s (s <| accounts := pool |>)
| Step_mihomo op s :
    Mihomo.writable op -> match op with Mihomo.Lease _ _ _ | Mihomo.Release _ _ => False | _ => True end ->
    step s (s <| mihomo ::= Mihomo.perform to_json parse_url set_port controller_secret proxy_url op |>)
| Step_begin b s : batch s = Some b -> at_ b = Claimed -> step s (begin_ b s)
| Step_lease a draws w b s : batch s = Some b -> at_ b = Leasing -> saves w -> step s (lease a draws w b s)
| Step_apply attempts b s : batch s = Some b -> at_ b = Applying -> step s (apply_exits attempts s)
| Step_take a l b s : batch s = Some b -> at_ b = Reading -> saves (release_writes l) -> step s (take a l s)
| Step_prepare ready cache package b s : batch s = Some b -> at_ b = Preparing -> step s (prepare ready cache package b s)
| Step_turn b s s' : batch s = Some b -> at_ b = Looping -> turn b s = Some s' -> step s s'
| Step_dial w b i address mailbox node s :
    batch s = Some b -> tasks b !! i = Some (Started address mailbox node) -> step s (dial w b i address mailbox node s)
| Step_answered w b i address mailbox proxy node answer s :
    batch s = Some b -> tasks b !! i = Some (Asking address mailbox proxy node) -> step s (answered w b i address node answer s)
| Step_push b i o s : batch s = Some b -> tasks b !! i = Some (Settled o) -> step s (push i o s)
| Step_note b i ok s : batch s = Some b -> tasks b !! i = Some (Pushed ok) -> step s (note_task i ok s)
| Step_give_back b i s : batch s = Some b -> tasks b !! i = Some Noted -> step s (give_back i s)
| Step_drained b stopped s : batch s = Some b -> at_ b = Draining stopped -> tasks b = ∅ -> step s (drained b stopped s)
| Step_returned l b outcome s :
    batch s = Some b -> at_ b = Returning outcome -> saves (release_writes l) -> step s (returned l outcome s).
Inductive reachable (from_str : string -> option json) : RegisterService -> Prop :=
| Reach_initial pool m log :
    Mihomo.reachable to_json parse_url set_port controller_secret proxy_url from_str m -> Mihomo.leased m = [] ->
    reachable from_str (mkService pool m log no_progress 0 None)
| Reach_step s s' : reachable from_str s -> step s s' -> reachable from_str s'.
End Batch.
End Register.

Import Service Register.

(** ** The jobs, the width and the borrowed nodes *)
Lemma nodes_to_borrow_from (held : list string) want alive : forall borrowed : list string,
  NoDup borrowed -> (length borrowed <= want)%nat ->
  let l := fold_left (fun borrowed node =>
    if Nat.leb want (length borrowed) then borrowed
    else if bool_decide (node ∈ held) || bool_decide (node ∈ borrowed) then borrowed
    else borrowed ++ [node]) alive borrowed in
  NoDup l /\ (length l <= want)%nat /\ (forall n, n ∈ borrowed -> n ∈ l) /\
  (forall n, n ∈ l -> n ∈ borrowed \/ n ∈ alive /\ n ∉ held) /\
  ((length l < want)%nat -> forall n, n ∈ alive -> n ∈ held \/ n ∈ l).
Proof.
  induction alive as [|node alive IH]; intros borrowed Hn Hl; cbn [fold_left].
  { split_and!; [done|done|done|by left|intros _ n Hn'; by apply elem_of_nil in Hn']. }
  destruct (Nat.leb_spec want (length borrowed)) as [Hw|Hw].
  { destruct (IH borrowed Hn Hl) as (H1 & H2 & H3 & H4 & H5). split_and!; [done..| |].
    - intros n Hx. destruct (H4 n Hx) as [?|[? ?]]; [by left|right; split; [by right|done]].
    - intros Hlt. pose proof (submseteq_length _ _ (NoDup_submseteq _ _ Hn H3)). lia. }
  destruct (bool_decide_reflect (node ∈ held)) as [Hh|Hh]; cbn [orb].
  { destruct (IH borrowed Hn Hl) as (H1 & H2 & H3 & H4 & H5). split_and!; [done..| |].
    - intros n Hx. destruct (H4 n Hx) as [?|[? ?]]; [by left|right; split; [by right|done]].
    - intros Hlt n [->|Hx]%elem_of_cons; [by left|by apply H5]. }
  destruct (bool_decide_reflect (node ∈ borrowed)) as [Hb|Hb].
  { destruct (IH borrowed Hn Hl) as (H1 & H2 & H3 & H4 & H5). split_and!; [done..| |].
    - intros n Hx. destruct (H4 n Hx) as [?|[? ?]]; [by left|right; split; [by right|done]].
    - intros Hlt n [->|Hx]%elem_of_cons; [right; by apply H3|by apply H5]. }
  destruct (IH (borrowed ++ [node])) as (H1 & H2 & H3 & H4 & H5).
  { apply NoDup_app. split_and!; [done| |apply NoDup_singleton]. intros x Hx ->%list_elem_of_singleton. done. }
  { rewrite length_app. cbn. lia. }
  split_and!; [done|done| | |].
  - intros n Hx. apply H3, elem_of_app. by left.
  - intros n Hx. destruct (H4 n Hx) as [[?| ->%list_elem_of_singleton]%elem_of_app|[? ?]];
      [by left|right; split; [by left|done]|right; split; [by right|done]].
  - intros Hlt n [->|Hx]%elem_of_cons; [right; apply H3, elem_of_app; right; by left|by apply H5].
Qed.

(** ** Sums over the tasks *)
Definition weight {A} (w : A -> nat) (m : gmap nat A) : nat := map_fold (fun _ a n => (w a + n)%nat) 0%nat m.
Lemma weight_empty {A} (w : A -> nat) : weight w ∅ = 0%nat.
Proof. apply map_fold_empty. Qed.
Lemma weight_fresh {A} (w : A -> nat) i a m : m !! i = None -> weight w (<[i := a]> m) = (w a + weight w m)%nat.
Proof. intros H. unfold weight. apply (map_fold_insert_L (fun _ a n => (w a + n)%nat)); [intros; lia|done]. Qed.
Lemma weight_delete {A} (w : A -> nat) i a m : m !! i = Some a -> weight w m = (w a + weight w (delete i m))%nat.
Proof. intros H. rewrite <- (weight_fresh w i a (delete i m)) by apply lookup_delete_eq. by rewrite insert_delete_id. Qed.
Lemma weight_insert {A} (w : A -> nat) i a b m :
  m !! i = Some a -> (w a + weight w (<[i := b]> m) = w b + weight w m)%nat.
Proof.
  intros H. rewrite <- (insert_delete_eq m i b), weight_fresh by apply lookup_delete_eq. rewrite (weight_delete w i a m H). lia.
Qed.
Lemma weight_size {A} (m : gmap nat A) : weight (fun _ => 1%nat) m = size m.
Proof.
  induction m as [|i a m Hi IH] using map_ind; [by rewrite weight_empty, map_size_empty|].
  rewrite weight_fresh, map_size_insert_None by done. lia.
Qed.
Lemma weight_le {A} (v w : A -> nat) m : (forall a, (v a <= w a)%nat) -> (weight v m <= weight w m)%nat.
Proof.
  intros H. induction m as [|i a m Hi IH] using map_ind; [by rewrite !weight_empty|].
  rewrite !weight_fresh by done. specialize (H a). lia.
Qed.

(** ** The invariant of the service *)
(** What a task still owes: its outcome, its place in the list, its note. *)
Definition uncounted (t : Task) : nat := match t with Started _ _ _ | Asking _ _ _ _ => 1 | _ => 0 end.
Definition unpushed (t : Task) : nat := match t with Settled _ => 1 | _ => 0 end.
Definition unnoted (t : Task) : nat := match t with Noted => 0 | _ => 1 end.
Definition good (t : Task) : nat := match t with Settled o => if ok o then 1 else 0 | Pushed ok => if ok then 1 else 0 | _ => 0 end.
Definition goes_out (exits : list string) (t : Task) : Prop :=
  match t with
  | Started _ _ node => exists name, node = Some name /\ name ∈ exits
  | Asking _ _ proxy node => is_Some proxy /\ exists name, node = Some name /\ name ∈ exits
  | _ => True
  end.
Definition early (st : Stage) : bool :=
  match st with Claimed | Leasing | Applying | Reading | Preparing => true | _ => false end.
Definition unleased (b : Batch) : bool :=
  negb (random_node (request b)) || match at_ b with Claimed | Leasing => true | _ => false end.
Record batch_ok (p : AccountRegisterProgress) (b : Batch) : Prop := mkBatchOk {
  ok_jobs : jobs_for (request b) = Ok (jobs b);
  ok_total : total p = length (jobs b);
  ok_launched : (launched b <= length (jobs b))%nat;
  ok_tasks : forall i, is_Some (tasks b !! i) -> (i < launched b)%nat;
  ok_width : (size (tasks b) <= width b)%nat;
  ok_done : (done p + weight uncounted (tasks b) = launched b)%nat;
  ok_outcomes : (length (outcomes p) + weight unpushed (tasks b) = done p)%nat;
  ok_early : early (at_ b) = true -> launched b = 0%nat;
  ok_good : (0 < weight good (tasks b) -> 0 < succeeded p)%nat;
  ok_streak : succeeded p = 0%nat -> launched b = (streak b + weight unnoted (tasks b))%nat;
  ok_bound : succeeded p = 0%nat -> (launched b <= GIVE_UP_AFTER - 1 + width b)%nat;
  ok_exits : random_node (request b) = true -> match at_ b with
               | Claimed | Leasing | Applying | Reading => True
               | _ => exits b <> [] /\ map_Forall (fun _ t => goes_out (exits b) t) (tasks b)
               end;
  ok_random : match at_ b with Leasing | Applying | Reading | Returning _ => random_node (request b) = true | _ => True end;
  ok_empty : match at_ b with Returning _ => tasks b = ∅ | _ => True end
}.

Lemma task_ok p p' b i t t' k :
  batch_ok p b -> tasks b !! i = Some t -> total p' = total p ->
  (done p' + uncounted t' = done p + uncounted t)%nat ->
  (length (outcomes p') + unpushed t' + done p = length (outcomes p) + unpushed t + done p')%nat ->
  (0 < good t' -> 0 < good t \/ 0 < succeeded p')%nat -> (succeeded p <= succeeded p')%nat ->
  (succeeded p' = 0%nat -> k + unnoted t' = streak b + unnoted t)%nat ->
  (goes_out (exits b) t -> goes_out (exits b) t') ->
  batch_ok p' (b <| tasks ::= <[i := t']> |> <| streak := k |>).
Proof.
  intros [Hj Ht Hl Hk Hw Hd Ho He Hg Hs Hb Hx Hra Hm] Hi Ht' Hd' Ho' Hg' Hmono Hs' Hout.
  pose proof (weight_insert uncounted i t t' _ Hi) as E1. pose proof (weight_insert unpushed i t t' _ Hi) as E2.
  pose proof (weight_insert unnoted i t t' _ Hi) as E3. pose proof (weight_insert good i t t' _ Hi) as E4.
  pose proof (weight_delete good i t _ Hi) as E5.
  split; cbn; try done.
  - congruence.
  - intros j [->|Hj']%lookup_insert_is_Some'; [|by apply Hk]. apply Hk. by eexists.
  - change (size (<[i:=t']> (tasks b)) <= width b)%nat. rewrite map_size_insert_Some; [done|by eexists].
  - lia.
  - lia.
  - intros Hpos. destruct (good t') eqn:Eg; [|destruct (Hg' ltac:(lia)); [|done]]; specialize (Hg ltac:(lia)); lia.
  - intros Hz. specialize (Hs ltac:(lia)). specialize (Hs' Hz). lia.
  - intros Hz. apply Hb. lia.
  - intros Hr. specialize (Hx Hr). destruct (at_ b); try done; destruct Hx as [Hne Hx]; (split; [done|]);
      apply map_Forall_insert_2; [apply Hout, (Hx i t Hi)|done| | | | | | ]; try done; apply Hout, (Hx i t Hi).
  - destruct (at_ b); try done. by rewrite Hm, lookup_empty in Hi.
Qed.
Lemma give_ok p b i : batch_ok p b -> tasks b !! i = Some Noted -> batch_ok p (b <| tasks ::= delete i |>).
Proof.
  intros [Hj Ht Hl Hk Hw Hd Ho He Hg Hs Hb Hx Hra Hm] Hi.
  pose proof (weight_delete uncounted i _ _ Hi) as E1. pose proof (weight_delete unpushed i _ _ Hi) as E2.
  pose proof (weight_delete unnoted i _ _ Hi) as E3. pose proof (weight_delete good i _ _ Hi) as E4. cbn in E1, E2, E3, E4.
  split; cbn; try done.
  - intros j [_ Hj']%lookup_delete_is_Some. by apply Hk.
  - change (size (delete i (tasks b)) <= width b)%nat. rewrite map_size_delete_Some by (by eexists). lia.
  - by rewrite <- E1.
  - by rewrite <- E2.
  - by rewrite <- E4.
  - by rewrite <- E3.
  - intros Hr. specialize (Hx Hr). destruct (at_ b); try done; destruct Hx as [Hne Hx]; (split; [done|by apply map_Forall_delete]).
  - destruct (at_ b); try done. by rewrite Hm, delete_empty.
Qed.
Lemma exit_for_elem b i : exits b <> [] -> exists name, exit_for b i = Some name /\ name ∈ exits b.
Proof.
  intros Hne. unfold exit_for. destruct (exits b) as [|x l] eqn:E; [done|].
  destruct (lookup_lt_is_Some_2 (x :: l) (i mod length (x :: l))) as [name Hname].
  { apply Nat.mod_upper_bound. done. }
  exists name. split; [done|]. by eapply list_elem_of_lookup_2.
Qed.
Lemma launch_ok p b mailbox :
  batch_ok p b -> at_ b = Looping -> jobs b !! launched b = Some mailbox -> (size (tasks b) < width b)%nat ->
  (streak b < GIVE_UP_AFTER)%nat ->
  batch_ok p (b <| launched ::= S |> <| tasks ::= <[launched b := Started (address_for b (launched b) mailbox) mailbox (exit_for b (launched b))]> |>).
Proof.
  intros [Hj Ht Hl Hk Hw Hd Ho He Hg Hs Hb Hx Hra Hm] Hat Hjob Hsize Hstreak.
  assert (Hfresh : tasks b !! launched b = None).
  { apply eq_None_not_Some. intros Hi. specialize (Hk _ Hi). lia. }
  set (t := Started _ _ _).
  pose proof (weight_fresh uncounted (launched b) t _ Hfresh) as E1. pose proof (weight_fresh unpushed (launched b) t _ Hfresh) as E2.
  pose proof (weight_fresh unnoted (launched b) t _ Hfresh) as E3. pose proof (weight_fresh good (launched b) t _ Hfresh) as E4.
  unfold t in *. cbn [uncounted unpushed unnoted good] in *.
  split; unfold set_field; cbn -[weight Nat.sub]; try done.
  - by apply lookup_lt_Some in Hjob.
  - intros j [<-|Hj']%lookup_insert_is_Some'; [lia|]. specialize (Hk _ Hj'). lia.
  - change (size (<[launched b := t]> (tasks b)) <= width b)%nat. rewrite map_size_insert_None by done. lia.
  - rewrite E1. lia.
  - by rewrite E2.
  - by rewrite Hat.
  - by rewrite E4.
  - intros Hz. rewrite E3. specialize (Hs Hz). lia.
  - intros Hz. specialize (Hs Hz). pose proof (weight_le unnoted (fun _ => 1%nat) (tasks b)) as Hle. rewrite weight_size in Hle.
    change (S (launched b) <= GIVE_UP_AFTER - 1 + width b)%nat.
    specialize (Hle ltac:(intros []; cbn; lia)). unfold GIVE_UP_AFTER in *. lia.
  - intros Hr. specialize (Hx Hr). rewrite Hat in *. destruct Hx as [Hne Hx]. split; [done|].
    apply map_Forall_insert_2; [|done]. cbn. by apply exit_for_elem.
  - by rewrite Hat.
Qed.
(** A change of the stage alone. *)
Lemma stage_ok p b st :
  batch_ok p b -> (early st = true -> early (at_ b) = true) ->
  (random_node (request b) = true -> match st with Claimed | Leasing | Applying | Reading => True
     | _ => exits b <> [] /\ map_Forall (fun _ t => goes_out (exits b) t) (tasks b) end) ->
  match st with Leasing | Applying | Reading | Returning _ => random_node (request b) = true | _ => True end ->
  match st with Returning _ => tasks b = ∅ | _ => True end ->
  batch_ok p (b <| at_ := st |>).
Proof. intros [Hj Ht Hl Hk Hw Hd Ho He Hg Hs Hb Hx Hra Hm] He' Hx' Hm'. split; cbn; try done. intros Hearly. by apply He, He'. Qed.
(** The parts of the batch the launched tasks do not see. *)
Lemma early_tasks p b : batch_ok p b -> early (at_ b) = true -> tasks b = ∅.
Proof.
  intros H He. pose proof (ok_early p b H He) as H0. apply map_empty. intros i. apply eq_None_not_Some. intros Hi.
  pose proof (ok_tasks p b H i Hi). lia.
Qed.

#[local] Existing Instance Mihomo.Manager_settable.
Section Facts.
Context (pool_error : Accounts.PoolError -> string) (mihomo_error : Mihomo.MihomoError -> string).
Context (to_lowercase : string -> string) (to_json : json -> string) (parse_url : string -> result string Mihomo.Url).
Context (set_port : string -> Z -> option string) (controller_secret proxy_url : string) (from_str : string -> option json).
Abbreviation set_outbound_nodes := (Mihomo.set_outbound_nodes to_json controller_secret).
Abbreviation perform := (Mihomo.perform to_json parse_url set_port controller_secret proxy_url).
Abbreviation core_reachable := (Mihomo.reachable to_json parse_url set_port controller_secret proxy_url from_str).
Abbreviation mihomo_status := (Mihomo.status parse_url set_port proxy_url).
Abbreviation status_of := (status_of parse_url set_port proxy_url).
Abbreviation release_exits := (release_exits to_json controller_secret).
Abbreviation ask_exits := (ask_exits mihomo_error to_json parse_url set_port controller_secret proxy_url).
Abbreviation take_exits := (take_exits to_json parse_url set_port controller_secret proxy_url).
Abbreviation step := (step pool_error mihomo_error to_lowercase to_json parse_url set_port controller_secret proxy_url).
Abbreviation reachable :=
  (reachable pool_error mihomo_error to_lowercase to_json parse_url set_port controller_secret proxy_url from_str).
Abbreviation settle := (settle pool_error to_lowercase).
Abbreviation dial := (dial pool_error to_lowercase set_port proxy_url).

(** *** What the batch borrows of the proxy manager *)
Lemma set_nodes_leased w nodes m : Mihomo.leased (fst (set_outbound_nodes w nodes m)) = Mihomo.leased m.
Proof.
  unfold Mihomo.set_outbound_nodes. destruct (Mihomo.refile _ _) as [after []]; [|done].
  destruct (Mihomo.outbounds_ok w); [|done]. unfold Mihomo.write_runtime_config. by destruct (Mihomo.config_ok w).
Qed.
Lemma status_leased a m : Mihomo.leased (fst (mihomo_status a m)) = Mihomo.leased m.
Proof.
  unfold Mihomo.status, Mihomo.read_nodes. destruct (Mihomo.polled a) as [v|e|]; [|done..].
  by destruct (get "proxies" v) as [[]|].
Qed.
Lemma apply_leased attempts : forall m, Mihomo.leased (Mihomo.apply_runtime_config attempts m) = Mihomo.leased m.
Proof.
  unfold Mihomo.apply_runtime_config. generalize Mihomo.LANE_ATTEMPTS. induction attempts as [|a l IH]; intros [|n] m; try done.
  cbn [Mihomo.attempt]. destruct (_ && _); [done|apply IH].
Qed.
Lemma commit_leased persisted ok a next previous m :
  Mihomo.leased (fst (Mihomo.commit_subscriptions to_json parse_url set_port controller_secret proxy_url persisted ok a next previous m))
  = Mihomo.leased m.
Proof.
  unfold Mihomo.commit_subscriptions. destruct (Prelude.answered persisted), (took_effect persisted); cbn [negb]; try done;
    unfold Mihomo.write_runtime_config; destruct ok; try done; destruct (Mihomo.reload a); try done; by rewrite status_leased.
Qed.
Lemma perform_leased op m :
  match op with Mihomo.Lease _ _ _ | Mihomo.Release _ _ => False | _ => True end ->
  Mihomo.leased (perform op m) = Mihomo.leased m.
Proof.
  destruct op; try done; intros _; cbn [Mihomo.perform].
  - apply set_nodes_leased.
  - apply apply_leased.
  - apply status_leased.
  - unfold Mihomo.sample_traffic. by destruct (get "connections" value ≫= as_array).
  - unfold Mihomo.update_subscription. destruct (Mihomo.validate_subscription _ _); try done.
    destruct (Mihomo.next_subscriptions _ _ _ _); try done. apply commit_leased.
  - unfold Mihomo.remove_subscription. destruct (Nat.eqb _ _); [done|]. apply commit_leased.
Qed.
Lemma status_of_spec a m : core_reachable m -> core_reachable (fst (status_of a m)) /\ Mihomo.leased (fst (status_of a m)) = Mihomo.leased m.
Proof.
  intros H. pose proof (Mihomo.Reach_op _ _ _ _ _ _ (Mihomo.Asked a) m H I) as Hr. cbn [Mihomo.perform] in Hr.
  pose proof (status_leased a m) as Hl. unfold Register.status_of. by destruct (mihomo_status a m) as [m' []].
Qed.
Lemma reload_spec attempts m : core_reachable m -> core_reachable (Mihomo.apply_runtime_config attempts m).
Proof. intros H. exact (Mihomo.Reach_op _ _ _ _ _ _ (Mihomo.Applied attempts) m H I). Qed.
Lemma saved_nodes w nodes m : saves w -> exists m' changed, set_outbound_nodes w nodes m = (m', Ok changed).
Proof.
  intros [H1 H2]. unfold Mihomo.set_outbound_nodes, Mihomo.write_runtime_config. rewrite H1, H2.
  destruct (Mihomo.refile _ _) as [after []]; by eexists _, _.
Qed.
Lemma release_spec l pool m : saves (release_writes l) -> core_reachable m ->
  core_reachable (release_exits l pool m) /\ Mihomo.leased (release_exits l pool m) = [].
Proof.
  intros Hw H. unfold Register.release_exits, Mihomo.release_outbound_nodes.
  pose proof (Mihomo.Reach_op _ _ _ _ _ _ (Mihomo.Release (release_writes l) (Accounts.refetch_nodes pool)) m H (proj1 Hw)) as Hr.
  cbn [Mihomo.perform] in Hr. unfold Mihomo.release_outbound_nodes in Hr.
  destruct (saved_nodes (release_writes l) (Accounts.refetch_nodes pool) (m <| Mihomo.leased := [] |>) Hw) as (m' & c & E).
  pose proof (set_nodes_leased (release_writes l) (Accounts.refetch_nodes pool) (m <| Mihomo.leased := [] |>)) as Hl.
  rewrite E in *. cbn [fst] in *. destruct c; [|by split]. split; [by apply reload_spec|by rewrite apply_leased].
Qed.
Lemma ask_spec a draws w want pool m : saves w -> core_reachable m ->
  let '(m', r) := ask_exits a draws w want pool m in
  core_reachable m' /\ (Mihomo.leased m = [] -> match r with Ok _ => True | _ => Mihomo.leased m' = [] end).
Proof.
  intros Hw H. unfold Register.ask_exits. destruct (status_of_spec a m H) as [H1 H2].
  destruct (status_of a m) as [m1 [nodes outs]]. cbn [fst] in *. destruct (Nat.eqb _ 0); [split; [done|congruence]|].
  set (held := Accounts.refetch_nodes pool). set (borrowed := nodes_to_borrow _ _ _).
  pose proof (Mihomo.Reach_op _ _ _ _ _ _ (Mihomo.Lease w borrowed held) m1 H1 (proj1 Hw)) as Hr.
  cbn [Mihomo.perform] in Hr. unfold Mihomo.lease_outbound_nodes in *.
  destruct (saved_nodes w held (m1 <| Mihomo.leased := borrowed |>) Hw) as (m' & c & E). rewrite E in *. by split.
Qed.
Lemma take_spec a l pool m : saves (release_writes l) -> core_reachable m ->
  let '(m', r) := take_exits a l pool m in
  core_reachable m' /\ match r with Ok ready => ready <> [] | _ => Mihomo.leased m' = [] end.
Proof.
  intros Hw H. unfold Register.take_exits. destruct (status_of_spec a m H) as [H1 H2].
  destruct (status_of a m) as [m1 [nodes outs]]. cbn [fst] in *. destruct (usable_exits outs); [|done].
  by apply release_spec.
Qed.

(** *** The invariant *)
Record inv (s : RegisterService) : Prop := mkInv {
  i_core : core_reachable (mihomo s);
  i_sum : done (progress s) = (succeeded (progress s) + failed (progress s))%nat;
  i_running : running (progress s) = match batch s with Some _ => true | None => false end;
  i_idle : match batch s with Some b => unleased b = true | None => True end -> Mihomo.leased (mihomo s) = [];
  i_generation : forall b, batch s = Some b -> (b_generation b <= generation s)%nat;
  i_batch : forall b, batch s = Some b -> batch_ok (progress s) b
}.
(** A step of one task: the batch keeps its stage, the exits are not touched. *)
Lemma inv_task s s' b b' :
  inv s -> batch s = Some b -> batch s' = Some b' -> mihomo s' = mihomo s -> generation s' = generation s ->
  at_ b' = at_ b -> request b' = request b -> b_generation b' = b_generation b ->
  running (progress s') = running (progress s) ->
  done (progress s') = (succeeded (progress s') + failed (progress s'))%nat ->
  batch_ok (progress s') b' -> inv s'.
Proof.
  intros [H1 H2 H3 H4 H5 H6] Hb Hb' Em Eg Ea Er Ebg Erun Hsum Hok. split.
  - by rewrite Em.
  - done.
  - by rewrite Erun, H3, Hb, Hb'.
  - rewrite Hb', Em. unfold unleased. rewrite Ea, Er. rewrite Hb in H4. exact H4.
  - intros b0. rewrite Hb', Eg. intros [= <-]. rewrite Ebg. by apply H5.
  - intros b0. rewrite Hb'. by intros [= <-].
Qed.
Lemma finish_sum o p : done p = (succeeded p + failed p)%nat -> done (finish o p) = (succeeded (finish o p) + failed (finish o p))%nat.
Proof. intros H. unfold finish, set_field. destruct (ok o); cbn; lia. Qed.
Lemma settle_task_inv w b i t address answer r node s :
  inv s -> batch s = Some b -> tasks b !! i = Some t -> uncounted t = 1%nat ->
  inv (settle_task pool_error to_lowercase w i address answer r node s).
Proof.
  intros Hinv Hb Hi Hu. pose proof (i_batch s Hinv b Hb) as Hok. unfold settle_task.
  destruct (settle w address answer r node (accounts s)) as [pool o].
  eapply (inv_task s _ b (b <| tasks ::= <[i := Settled o]> |>)); try done.
  - unfold set_task, with_batch, set_field. cbn. by rewrite Hb.
  - unfold set_task, with_batch, set_field, finish. cbn. by destruct (ok o).
  - unfold set_task, with_batch, set_field. cbn. apply finish_sum, Hinv.
  - change (batch_ok (finish o (progress s)) (b <| tasks ::= <[i := Settled o]> |> <| streak := streak b |>)).
    assert (Hp : unpushed t = 0%nat /\ unnoted t = 1%nat) by (destruct t; cbn in *; done). destruct Hp as [Hp Hn].
    apply (task_ok (progress s) _ b i t); try done; unfold finish, set_field; destruct (ok o) eqn:Eo; cbn; rewrite ?Eo; try done; try lia;
      rewrite ?Hu, ?Hp, ?Hn; try lia.
Qed.
Lemma started_asking address mailbox proxy node exits :
  goes_out exits (Started address mailbox node) -> is_Some proxy -> goes_out exits (Asking address mailbox proxy node).
Proof. intros H Hp. by split. Qed.
Lemma dial_inv w b i address mailbox node s :
  inv s -> batch s = Some b -> tasks b !! i = Some (Started address mailbox node) -> inv (dial w b i address mailbox node s).
Proof.
  intros Hinv Hb Hi. pose proof (i_batch s Hinv b Hb) as Hok.
  assert (Hask : forall proxy, (goes_out (exits b) (Started address mailbox node) -> is_Some proxy) ->
    inv (set_task i (Asking address mailbox proxy node) (s <| progress ::= fun p => p <| current := Some address |> |>))).
  { intros proxy Hp. eapply (inv_task s _ b (b <| tasks ::= <[i := Asking address mailbox proxy node]> |>)); try done.
    - unfold set_task, with_batch, set_field. cbn. by rewrite Hb.
    - apply Hinv.
    - change (batch_ok ((progress s) <| current := Some address |>)
        (b <| tasks ::= <[i := Asking address mailbox proxy node]> |> <| streak := streak b |>)).
      eapply (task_ok (progress s)); try done; [cbn; lia|]. intros Hg. split; [by apply Hp|exact Hg]. }
  unfold Register.dial. destruct node as [name|].
  - destruct (Mihomo.proxy_url_for_node _ _ _ _) as [url|]; [by apply Hask|].
    by apply (settle_task_inv w b i (Started address mailbox (Some name))).
  - apply Hask. by intros (name & ? & _).
Qed.
Lemma push_inv b i o s : inv s -> batch s = Some b -> tasks b !! i = Some (Settled o) -> inv (push i o s).
Proof.
  intros Hinv Hb Hi. pose proof (i_batch s Hinv b Hb) as Hok.
  eapply (inv_task s _ b (b <| tasks ::= <[i := Pushed (ok o)]> |>)); try done.
  - unfold push, set_task, with_batch, set_field. cbn. by rewrite Hb.
  - apply Hinv.
  - change (batch_ok ((progress s) <| outcomes ::= fun l => l ++ [o] |>)
      (b <| tasks ::= <[i := Pushed (ok o)]> |> <| streak := streak b |>)).
    eapply (task_ok (progress s)); try done.
    + unfold set_field. cbn. rewrite length_app. cbn. lia.
    + cbn. destruct (ok o); [by left|lia].
Qed.
Lemma note_inv b i well s : inv s -> batch s = Some b -> tasks b !! i = Some (Pushed well) -> inv (note_task i well s).
Proof.
  intros Hinv Hb Hi. pose proof (i_batch s Hinv b Hb) as Hok.
  eapply (inv_task s _ b (b <| tasks ::= <[i := Noted]> |> <| streak := note_result well (streak b) |>)); try done.
  - unfold note_task, set_task, with_batch, set_field. cbn. by rewrite Hb.
  - apply Hinv.
  - eapply (task_ok (progress s)); try done; [cbn; lia|]. intros Hz. destruct well; cbn; [|lia].
    pose proof (weight_delete good i _ _ Hi) as Hw. cbn in Hw. pose proof (ok_good _ _ Hok ltac:(rewrite Hw; lia)). unfold note_task, set_task, with_batch, set_field in Hz. cbn in Hz. lia.
Qed.
Lemma give_back_inv b i s : inv s -> batch s = Some b -> tasks b !! i = Some Noted -> inv (give_back i s).
Proof.
  intros Hinv Hb Hi. pose proof (i_batch s Hinv b Hb) as Hok.
  eapply (inv_task s _ b (b <| tasks ::= delete i |>)); try done.
  - unfold give_back, with_batch, set_field. cbn. by rewrite Hb.
  - apply Hinv.
  - by apply give_ok.
Qed.
Lemma over_inv outcome s :
  core_reachable (mihomo s) -> done (progress s) = (succeeded (progress s) + failed (progress s))%nat ->
  Mihomo.leased (mihomo s) = [] -> inv (over outcome s).
Proof. intros Hc Hs Hl. by split. Qed.
(** The batch is replaced, the progress is not. *)
Lemma inv_batch s s' b' :
  inv s -> progress s' = progress s -> batch s' = Some b' -> running (progress s) = true ->
  core_reachable (mihomo s') -> (unleased b' = true -> Mihomo.leased (mihomo s') = []) ->
  (b_generation b' <= generation s')%nat -> batch_ok (progress s) b' -> inv s'.
Proof.
  intros [H1 H2 H3 H4 H5 H6] Ep Eb Hr Hc Hl Hg Hok. split; rewrite ?Ep, ?Eb; try done.
  - intros b0 [= <-]. done.
  - intros b0 [= <-]. done.
Qed.
Lemma inv_runs s b : inv s -> batch s = Some b -> running (progress s) = true.
Proof. intros Hinv Hb. by rewrite (i_running s Hinv), Hb. Qed.
Lemma unleased_stage s b st :
  inv s -> batch s = Some b -> unleased (b <| at_ := st |>) = true ->
  (random_node (request b) = true -> match st with Claimed | Leasing => unleased b = true | _ => True end) ->
  Mihomo.leased (mihomo s) = [].
Proof.
  intros Hinv Hb Hu Hst. pose proof (i_idle s Hinv) as Hi. rewrite Hb in Hi. apply Hi. unfold unleased, set_field in *. cbn in *.
  destruct (random_node (request b)); [|done]. cbn in *. destruct st; try done; by apply Hst.
Qed.
Lemma start_inv module r s : inv s -> inv (fst (start module r s)).
Proof.
  intros Hinv. unfold start. destruct (jobs_for r) as [jobs|e|] eqn:Ej; [|done..].
  assert (Hlog : inv (s <| logs ::= register_mail_secrets r |>)) by (destruct Hinv; by split).
  destruct module as [m|e|]; [|done..]. destruct (running _) eqn:Er; [done|]. cbn [fst].
  destruct Hinv as [H1 H2 H3 H4 H5 H6]. change (running (progress s) = false) in Er.
  assert (Hb : batch s = None) by (rewrite Er in H3; by destruct (batch s)).
  rewrite Hb in H4. split; unfold set_field; cbn; try done.
  - intros _. by apply H4.
  - intros b [= <-]. cbn. lia.
  - intros b [= <-]. split; unfold set_field; cbn; try done; try lia; rewrite ?weight_empty, ?map_size_empty; try done; try lia.
    intros i. rewrite lookup_empty. by intros [].
Qed.
Lemma begin_inv b s : inv s -> batch s = Some b -> at_ b = Claimed -> inv (begin_ b s).
Proof.
  intros Hinv Hb Hat. pose proof (i_batch s Hinv b Hb) as Hok.
  assert (Ht : tasks b = ∅) by (eapply early_tasks; [done|by rewrite Hat]).
  eapply (inv_batch s _ (b <| b_generation := generation s |> <| at_ := if random_node (request b) then Leasing else Preparing |>));
    [done|done|unfold begin_, with_batch, set_field; cbn; by rewrite Hb|by eapply inv_runs|apply Hinv| |done|].
  - intros _. pose proof (i_idle s Hinv) as Hi. rewrite Hb in Hi. apply Hi. unfold unleased. rewrite Hat. apply orb_true_r.
  - destruct Hok as [Hj Htt Hl Hk Hw Hd Ho He Hg Hs Hbd Hx Hra Hm]. split; unfold set_field; cbn; try done.
    + intros _. apply He. by rewrite Hat.
    + by intros ->.
    + by destruct (random_node (request b)).
    + by destruct (random_node (request b)).
Qed.
Lemma lease_inv a draws w b s : inv s -> batch s = Some b -> at_ b = Leasing -> saves w ->
  inv (lease mihomo_error to_json parse_url set_port controller_secret proxy_url a draws w b s).
Proof.
  intros Hinv Hb Hat Hw. pose proof (i_batch s Hinv b Hb) as Hok. unfold lease.
  pose proof (ask_spec a draws w (width b) (accounts s) (mihomo s) Hw (i_core s Hinv)) as Ha.
  assert (Hl : Mihomo.leased (mihomo s) = []).
  { pose proof (i_idle s Hinv) as Hi. rewrite Hb in Hi. apply Hi. unfold unleased. rewrite Hat. apply orb_true_r. }
  destruct (ask_exits _ _ _ _ _ _) as [m r]. destruct Ha as [Hm Hl']. specialize (Hl' Hl).
  destruct r as [[]|e|]; [|by apply over_inv; [done|apply Hinv|done]..].
  eapply (inv_batch s _ (b <| at_ := Applying |>)); try done.
  - unfold with_batch, set_field. cbn. by rewrite Hb.
  - by eapply inv_runs.
  - intros Hu. unfold unleased, set_field in Hu. cbn in Hu. destruct (random_node (request b)) eqn:Er; [done|].
    pose proof (ok_random _ _ Hok) as Hr. rewrite Hat in Hr. congruence.
  - apply (i_generation s Hinv b Hb).
  - apply stage_ok; [done|by rewrite Hat|done| |done]. pose proof (ok_random _ _ Hok) as Hr. by rewrite Hat in Hr.
Qed.

Lemma apply_inv attempts b s : inv s -> batch s = Some b -> at_ b = Applying -> inv (apply_exits attempts s).
Proof.
  intros Hinv Hb Hat. pose proof (i_batch s Hinv b Hb) as Hok. pose proof (ok_random _ _ Hok) as Hr. rewrite Hat in Hr.
  eapply (inv_batch s _ (b <| at_ := Reading |>)); try done.
  - unfold apply_exits, with_batch, set_field. cbn. by rewrite Hb.
  - by eapply inv_runs.
  - by apply reload_spec, Hinv.
  - unfold unleased, set_field. cbn. by rewrite Hr.
  - apply (i_generation s Hinv b Hb).
  - apply stage_ok; try done. by rewrite Hat.
Qed.
Lemma take_inv a l b s : inv s -> batch s = Some b -> at_ b = Reading -> saves (release_writes l) ->
  inv (take to_json parse_url set_port controller_secret proxy_url a l s).
Proof.
  intros Hinv Hb Hat Hw. pose proof (i_batch s Hinv b Hb) as Hok. pose proof (ok_random _ _ Hok) as Hr. rewrite Hat in Hr.
  unfold take. pose proof (take_spec a l (accounts s) (mihomo s) Hw (i_core s Hinv)) as Ht.
  destruct (take_exits _ _ _ _) as [m r]. destruct Ht as [Hm Hl].
  destruct r as [ready|e|]; [|by apply over_inv; [done|apply Hinv|done]..].
  assert (Htasks : tasks b = ∅) by (eapply early_tasks; [done|by rewrite Hat]).
  eapply (inv_batch s _ (b <| exits := ready |> <| at_ := Preparing |>)); try done.
  - unfold with_batch, set_field. cbn. by rewrite Hb.
  - by eapply inv_runs.
  - unfold unleased, set_field. cbn. by rewrite Hr.
  - apply (i_generation s Hinv b Hb).
  - destruct Hok as [Hj Ht Hla Hk Hwi Hd Ho He Hg Hs Hbd Hx Hra Hm']. split; unfold set_field; cbn; try done.
    + intros _. apply He. by rewrite Hat.
    + intros _. rewrite Htasks. split; [done|apply map_Forall_empty].
Qed.
(** A stage after the exits are there. *)
Lemma inv_later s b st :
  inv s -> batch s = Some b -> (match at_ b with Preparing | Looping | Draining _ | Returning _ => True | _ => False end) ->
  match st with Looping | Draining _ => True | Returning _ => random_node (request b) = true /\ tasks b = ∅ | _ => False end ->
  inv (with_batch (fun b => b <| at_ := st |>) s).
Proof.
  intros Hinv Hb Hat Hst. pose proof (i_batch s Hinv b Hb) as Hok.
  eapply (inv_batch s _ (b <| at_ := st |>)); try done.
  - unfold with_batch, set_field. cbn. by rewrite Hb.
  - by eapply inv_runs.
  - apply Hinv.
  - intros Hu. eapply (unleased_stage s b st); try done. by destruct st.
  - apply (i_generation s Hinv b Hb).
  - apply stage_ok; [done|by destruct st| |destruct st; tauto|destruct st; tauto].
    intros Hr. pose proof (ok_exits _ _ Hok Hr) as Hx. by destruct st, (at_ b).
Qed.
Lemma return_inv b outcome s :
  inv s -> batch s = Some b -> (match at_ b with Preparing | Looping | Draining _ | Returning _ => True | _ => False end) ->
  tasks b = ∅ -> inv (return_with b outcome s).
Proof.
  intros Hinv Hb Hat Ht. unfold return_with. destruct (random_node (request b)) eqn:Hr.
  - by apply (inv_later s b).
  - apply over_inv; [apply Hinv|apply Hinv|]. pose proof (i_idle s Hinv) as Hi. rewrite Hb in Hi. apply Hi. unfold unleased. by rewrite Hr.
Qed.
Lemma prepare_inv ready cache package b s : inv s -> batch s = Some b -> at_ b = Preparing -> inv (prepare ready cache package b s).
Proof.
  intros Hinv Hb Hat. pose proof (i_batch s Hinv b Hb) as Hok. assert (Ht : tasks b = ∅) by (eapply early_tasks; [done|by rewrite Hat]).
  unfold prepare. destruct ready as [resolved|e|]; [|by apply return_inv; [..|rewrite Hat|]..].
  assert (Hinv' : inv (with_batch (fun b => b <| cloud := resolved |> <| versions := Version.current_client_versions cache package |>) s)).
  { eapply (inv_batch s _ (b <| cloud := resolved |> <| versions := Version.current_client_versions cache package |>)); try done.
    - unfold with_batch, set_field. cbn. by rewrite Hb.
    - by eapply inv_runs.
    - apply Hinv.
    - pose proof (i_idle s Hinv) as Hi. by rewrite Hb in Hi.
    - apply (i_generation s Hinv b Hb).
    - by destruct Hok. }
  pose proof (inv_later _ (b <| cloud := resolved |> <| versions := Version.current_client_versions cache package |>) Looping Hinv') as H.
  unfold with_batch, set_field in *. cbn in *. rewrite Hb in *. cbn in *. apply H; [done|by rewrite Hat|done].
Qed.
Lemma launch_inv b s s' : inv s -> batch s = Some b -> at_ b = Looping -> turn b s = Some s' -> inv s'.
Proof.
  intros Hinv Hb Hat. pose proof (i_batch s Hinv b Hb) as Hok. unfold turn.
  destruct (jobs b !! launched b) as [mailbox|] eqn:Ej; [|intros [= <-]; apply (inv_later s b); [done..|by rewrite Hat|done]].
  destruct (Nat.ltb_spec (size (tasks b)) (width b)) as [Hsize|]; cbn [negb]; [|done].
  destruct (Nat.eqb _ _); cbn [negb]; [|intros [= <-]; apply (inv_later s b); [done..|by rewrite Hat|done]].
  destruct (Nat.leb_spec GIVE_UP_AFTER (streak b)) as [|Hstreak]; [intros [= <-]; apply (inv_later s b); [done..|by rewrite Hat|done]|].
  intros [= <-]. pose proof (launch_ok _ b mailbox Hok Hat Ej Hsize Hstreak) as Hl.
  eapply (inv_task s _ b); [done|done| | | | | | | | |exact Hl]; [|done..|apply Hinv].
  unfold with_batch, set_field. cbn. by rewrite Hb.
Qed.
Lemma returned_inv l outcome b s : inv s -> batch s = Some b -> saves (release_writes l) ->
  inv (returned to_json controller_secret l outcome s).
Proof.
  intros Hinv Hb Hw. destruct (release_spec l (accounts s) (mihomo s) Hw (i_core s Hinv)) as [H1 H2].
  by apply over_inv; [|apply Hinv|].
Qed.
Lemma reachable_service s : reachable s -> inv s.
Proof.
  induction 1 as [pool m log Hm Hl|s s' _ IH Hs]; [by split|]. destruct Hs.
  - by apply start_inv.
  - unfold stop. destruct (running _); [|done]. destruct IH as [H1 H2 H3 H4 H5 H6]. split; try done.
    intros b Hb. specialize (H5 b Hb). cbn. lia.
  - destruct IH as [H1 H2 H3 H4 H5 H6]. by split.
  - destruct IH as [H1 H2 H3 H4 H5 H6]. split; try done; unfold set_field; cbn.
    + by apply Mihomo.Reach_op.
    + rewrite perform_leased by done. exact H4.
  - by eapply begin_inv.
  - by eapply lease_inv.
  - by eapply apply_inv.
  - by eapply take_inv.
  - by eapply prepare_inv.
  - by eapply launch_inv.
  - by eapply dial_inv.
  - by eapply settle_task_inv.
  - by eapply push_inv.
  - by eapply note_inv.
  - by eapply give_back_inv.
  - unfold drained. apply return_inv; try done. match goal with H : at_ b = _ |- _ => by rewrite H end.
  - by eapply returned_inv.
Qed.

(** *** The theorems *)
Lemma jobs_for_length r jobs : jobs_for r = Ok jobs -> (1 <= length jobs <= MAX_BATCH)%nat.
Proof.
  assert (H : forall v : result WatchServiceError unit,
    (_ ← v; if Nat.eqb (count r) 0 then Err (InvalidConfig "要注册几个？填个数量")
            else if Nat.ltb MAX_BATCH (count r) then Err (too_many (count r)) else Ok (repeat None (count r))) = Ok jobs ->
    (1 <= length jobs <= MAX_BATCH)%nat).
  { intros [[]|e|]; cbn [mbind result_bind]; try done. destruct (Nat.eqb_spec (count r) 0); [done|].
    destruct (Nat.ltb_spec MAX_BATCH (count r)); [done|]. intros [= <-]. rewrite repeat_length. lia. }
  unfold jobs_for. destruct (cloud_mail r) as [c|]; [apply H|]. destruct (temp_mail r) as [t|]; [apply H|].
  cbv zeta. set (l := List.filter _ _). destruct (Nat.eqb_spec (length l) 0); [done|].
  destruct (Nat.ltb_spec MAX_BATCH (length l)); [done|]. intros [= <-]. rewrite length_map. lia.
Qed.
Lemma width_bound b : (1 <= width b <= MAX_CONCURRENCY)%nat.
Proof. unfold width, concurrency_for, MAX_CONCURRENCY. lia. Qed.
(** Whatever the order in which the accounts of a batch come to an end, are
    stopped and are joined by other requests: the console counts each account
    launched once, as in the air, stored or failed; no more are in the air than
    the width, which is sixteen at most, and none twice; a batch no account of
    which succeeds launches two more than its width at most; and the service is
    running exactly while there is a batch, without one nothing is borrowed. *)
Theorem batch_is_accounted_for s :
  reachable s ->
  let p := progress s in
  done p = (succeeded p + failed p)%nat /\
  match batch s with
  | None => running p = false /\ Mihomo.leased (mihomo s) = []
  | Some b =>
    running p = true /\ (1 <= total p <= MAX_BATCH)%nat /\ jobs_for (request b) = Ok (jobs b) /\
    (done p + weight uncounted (tasks b) = launched b)%nat /\ (launched b <= total p)%nat /\
    (length (outcomes p) + weight unpushed (tasks b) = done p)%nat /\
    (size (tasks b) <= width b <= MAX_CONCURRENCY)%nat /\
    (succeeded p = 0%nat -> (launched b <= GIVE_UP_AFTER - 1 + width b)%nat)
  end.
Proof.
  intros Hs%reachable_service. cbv zeta. split; [apply Hs|]. pose proof (i_running s Hs) as Hr. pose proof (i_idle s Hs) as Hi.
  destruct (batch s) as [b|] eqn:Hb; [|by auto]. destruct (i_batch s Hs b Hb). pose proof (jobs_for_length _ _ ok_jobs0).
  pose proof (width_bound b). split_and!; try done; lia.
Qed.

(** C25: an account of a batch that asked for its own exits never leaves by the
    address of the host: when its turn comes it dials the port that the proxy
    manager has for one of the exits the batch holds; or, when that port is
    gone, it is reported as failed and nothing is stored. While the file of the
    outbounds could always be written and no save or poll came between the
    selections of a reload, as everywhere here (otherwise the ports move under it:
    Mihomo.failed_save_moves_the_ports and the Examples beside it), the proxy core
    was last seen with that port on that exit. *)
Theorem no_account_leaves_from_the_host w b i address mailbox node s :
  reachable s -> batch s = Some b -> random_node (request b) = true -> early (at_ b) = false ->
  tasks b !! i = Some (Started address mailbox node) ->
  let s' := dial w b i address mailbox node s in
  exists name b', node = Some name /\ name ∈ exits b /\ batch s' = Some b' /\ accounts s' = accounts s /\
  ((exists url slot, tasks b' !! i = Some (Asking address mailbox (Some url) (Some name)) /\
      Mihomo.slots (mihomo s) !! trim name = Some slot /\ set_port proxy_url (Mihomo.outbound_port slot) = Some url /\
      Mihomo.confirmed (mihomo s) !! Mihomo.outbound_group slot = Some (trim name)) \/
   (exists o, tasks b' !! i = Some (Settled o) /\ ok o = false)).
Proof.
  intros Hs%reachable_service Hb Hr He Hi. cbv zeta. pose proof (ok_exits _ _ (i_batch s Hs b Hb) Hr) as Hx.
  assert (Hg : goes_out (exits b) (Started address mailbox node)).
  { destruct (at_ b); try done; destruct Hx as [_ Hx]; exact (Hx i _ Hi). }
  destruct Hg as (name & -> & Hname). exists name. unfold Register.dial.
  destruct (Mihomo.proxy_url_for_node _ _ _ _) as [url|] eqn:Eu.
  - eexists. split_and!; [done|done|unfold set_task, with_batch, set_field; cbn; by rewrite Hb|done|]. left.
    pose proof (reachable_inv _ _ _ _ _ _ _ (i_core s Hs)) as [_ _ Hc].
    unfold Mihomo.proxy_url_for_node, Mihomo.port_url in Eu. destruct (Mihomo.slots_ready (mihomo s)) eqn:Hready; [|done]. cbn [negb] in Eu.
    destruct (Mihomo.slots (mihomo s) !! trim name) as [slot|] eqn:Eslot; [|done]. exists url, slot.
    split_and!; [|done|done|by apply (Hc I)]. unfold set_field. cbn. by rewrite lookup_insert_eq.
  - eexists. split_and!; [done|done|unfold settle_task, set_task, with_batch, set_field; cbn; by rewrite Hb|done|]. right.
    eexists. split; [unfold set_field; cbn; by rewrite lookup_insert_eq|done].
Qed.

(** An account the module registered is kept or reported, and only then: a
    success is counted exactly when the row was written to the pool and its file,
    with the address and the password the module gave, switched off, on the node
    it registered from; otherwise the pool is as it was. *)
Theorem registered_accounts_are_kept w address answer r node pool :
  let '(pool', o) := settle w address answer r node pool in
  match ok o with
  | true => exists value password row, answer = inr value /\ get "ok" value ≫= as_bool = Some true /\
      get "password" value ≫= as_str = Some password /\ email o = reported_email value address /\
      Accounts.accounts (Accounts.document pool') = Accounts.accounts (Accounts.document pool) ++ [row] /\
      Accounts.file pool' = Some (Accounts.document pool') /\
      Accounts.username row = trim (email o) /\ Accounts.password row = password /\ Accounts.enabled row = false /\
      Accounts.node row = default "" node /\ Accounts.purpose row = purpose r /\ Accounts.note row = note r
  | false => pool' = pool
  end.
Proof.
  unfold Register.settle. destruct answer as [e|value]; [done|]. cbv zeta.
  destruct (get "ok" value ≫= as_bool) as [[]|] eqn:Eok; try done. cbn [default from_option id negb].
  destruct (String.eqb_spec (default "" (get "password" value ≫= as_str)) "") as [|Hp]; [done|].
  destruct (get "password" value ≫= as_str) as [password|] eqn:Epw; [|done]. cbn [default from_option id] in *.
  unfold Accounts.append. cbv zeta. cbn [Accounts.append_rows].
  set (row0 := Accounts.mkAccount _ _ _ _ _ _ _ _). change (Accounts.username row0) with (reported_email value address).
  destruct (_ || _); [by rewrite bool_decide_true|]. rewrite bool_decide_false by done.
  destruct (Accounts.validate _ _) as [u|e|]; try done.
  unfold Accounts.store. destruct (written w); cbn; [|done]. eexists value, password, _. by split_and!.
Qed.

(** *** A stop *)
(** The batch of generation [g], if it is there and has begun, has launched [n]. *)
Definition frozen (g n : nat) (s : RegisterService) : Prop :=
  (g < generation s)%nat /\ forall b, batch s = Some b -> at_ b <> Claimed -> b_generation b = g -> launched b = n.
Lemma step_frozen g n s s' : frozen g n s -> step s s' -> frozen g n s'.
Proof.
  intros [Hg Hf] Hs. destruct Hs.
  - unfold start. destruct (jobs_for r) as [jobs|e|]; [|done..]. destruct module as [m|e|]; [|done..].
    destruct (running _); [done|]. split; [done|]. by intros b [= <-].
  - unfold stop. destruct (running _); [|done]. split; [cbn; lia|done].
  - done.
  - done.
  - split; [done|]. intros b'. unfold begin_, with_batch, set_field. cbn. rewrite H. intros [= <-]. cbn. lia.
  - unfold lease. destruct (ask_exits _ _ _ _ _ _) as [m [[]|e|]]; (split; [done|]); intros b'; [|done..].
    unfold with_batch, set_field. cbn. rewrite H. intros [= <-] _. apply (Hf b H). congruence.
  - split; [done|]. intros b'. unfold apply_exits, with_batch, set_field. cbn. rewrite H. intros [= <-] _. apply (Hf b H). congruence.
  - unfold take. destruct (take_exits _ _ _ _) as [m [ready|e|]]; (split; [done|]); intros b'; [|done..].
    unfold with_batch, set_field. cbn. rewrite H. intros [= <-] _. apply (Hf b H). congruence.
  - unfold prepare, return_with. destruct ready as [resolved|e|], (random_node (request b)); (split; [done|]); intros b'; try done;
      unfold with_batch, set_field; cbn; rewrite H; intros [= <-] _; apply (Hf b H); congruence.
  - unfold turn in *. destruct (jobs b !! launched b); cycle 1.
    { simplify_eq. split; [done|]. intros b'. unfold with_batch, set_field. cbn. rewrite H. intros [= <-] _. apply (Hf b H). congruence. }
    destruct (negb (Nat.ltb _ _)); [done|]. destruct (Nat.eqb_spec (generation s) (b_generation b)); cbn [negb] in *; cycle 1.
    { simplify_eq. split; [done|]. intros b'. unfold with_batch, set_field. cbn. rewrite H. intros [= <-] _. apply (Hf b H). congruence. }
    destruct (Nat.leb _ _); simplify_eq; (split; [done|]); intros b'; unfold with_batch, set_field; cbn; rewrite H; intros [= <-] _; cbn; lia.
  - unfold Register.dial. destruct node as [name|]; [destruct (Mihomo.proxy_url_for_node _ _ _ _) as [url|]|];
      (split; [done|]); intros b'; unfold settle_task, set_task, with_batch, set_field; cbn; rewrite H; intros [= <-]; apply (Hf b H).
  - unfold Register.answered, settle_task. destruct (settle _ _ _ _ _ _) as [pool o]. split; [done|]. intros b'.
    unfold set_task, with_batch, set_field. cbn. rewrite H. intros [= <-]. apply (Hf b H).
  - split; [done|]. intros b'. unfold push, set_task, with_batch, set_field. cbn. rewrite H. intros [= <-]. apply (Hf b H).
  - split; [done|]. intros b'. unfold note_task, set_task, with_batch, set_field. cbn. rewrite H. intros [= <-]. apply (Hf b H).
  - split; [done|]. intros b'. unfold give_back, with_batch, set_field. cbn. rewrite H. intros [= <-]. apply (Hf b H).
  - unfold drained, return_with. destruct (random_node (request b)); (split; [done|]); intros b'; [|done].
    unfold with_batch, set_field. cbn. rewrite H. intros [= <-] _. apply (Hf b H). congruence.
  - done.
Qed.
(** A stop ends the batch it finds: of a batch that has begun, no account is
    launched after the console's stop, whatever happens next, while those in the
    air go on to their end. *)
Theorem stop_launches_nothing_more s b s' b' :
  reachable s -> batch s = Some b -> at_ b <> Claimed ->
  rtc step (fst (stop s)) s' -> batch s' = Some b' -> at_ b' <> Claimed -> b_generation b' = b_generation b ->
  snd (stop s) = true /\ launched b' = launched b.
Proof.
  intros Hs%reachable_service Hb Hat Hrun Hb' Hat' Hg.
  assert (Hrunning : running (progress s) = true) by by eapply inv_runs.
  assert (Hf : frozen (b_generation b) (launched b) (fst (stop s))).
  { unfold stop. rewrite Hrunning. split; [pose proof (i_generation s Hs b Hb); cbn; lia|]. intros b0. cbn. rewrite Hb. by intros [= <-]. }
  split; [unfold stop; by rewrite Hrunning|].
  assert (Hf' : frozen (b_generation b) (launched b) s') by (clear - Hf Hrun; induction Hrun; eauto using step_frozen).
  by apply Hf'.
Qed.
End Facts.

(** ** The borrowed nodes *)
Lemma swap_perm {A} i j (l : list A) : swap i j l ≡ₚ l.
Proof.
  unfold swap. destruct (l !! i) as [x|] eqn:Hi; [|done]. destruct (l !! j) as [y|] eqn:Hj; [|done].
  by apply Permutation_insert_swap.
Qed.

Lemma shuffle_perm draws nodes : shuffle draws nodes ≡ₚ nodes.
Proof.
  unfold shuffle. generalize (length nodes - 1)%nat. intros n. revert nodes. induction n as [|n IH]; intros l; [done|].
  cbn [shuffle_from]. by rewrite IH, swap_perm.
Qed.
(** Whatever the random numbers, the nodes a batch borrows are alive ones the
    pool does not hold, each once and no more than asked for; and when they are
    fewer, every such node is among them. *)
Theorem borrowed_nodes_spec held alive draws want :
  let l := nodes_to_borrow held (shuffle draws alive) want in
  NoDup l /\ (length l <= want)%nat /\ (forall n, n ∈ l -> n ∈ alive /\ n ∉ held) /\
  ((length l < want)%nat -> forall n, n ∈ alive -> n ∉ held -> n ∈ l).
Proof.
  cbv zeta. destruct (nodes_to_borrow_from held want (shuffle draws alive) []) as (H1 & H2 & _ & H4 & H5);
    [constructor|cbn; lia|]. split_and!; [done|done| |].
  - intros n Hn. destruct (H4 n Hn) as [H%elem_of_nil|[H Hh]]; [done|]. by rewrite shuffle_perm in H.
  - intros Hlt n Hn Hh. rewrite <- (shuffle_perm draws) in Hn. by destruct (H5 Hlt n Hn).
Qed.

(** ** Runs *)
Section Runs.
Context (pool_error : Accounts.PoolError -> string) (mihomo_error : Mihomo.MihomoError -> string).
Context (to_lowercase : string -> string) (to_json : json -> string) (parse_url : string -> result string Mihomo.Url).
Context (set_port : string -> Z -> option string) (controller_secret proxy_url : string) (from_str : string -> option json).
(** The steps by name, each when it can be made. *)
Inductive Act :=
| AStart (r : AccountRegisterRequest) | AStop | ABegin
| ALease (a : Mihomo.Answers) (draws : nat -> nat) | AApply (attempts : list Mihomo.Attempt) | ATake (a : Mihomo.Answers) (l : Released)
| APrepare | ATurn | ADial (i : nat) | AAnswer (i : nat) (answer : WatchServiceError + json) | APush (i : nat) | ANote (i : nat)
| AGive (i : nat) | ADrain | AReturn (l : Released).
Definition written_well : Mihomo.Writes := Mihomo.mkWrites true true.
Definition storing : Storing := mkStoring 0 (fun i => "id" +:+ pretty i) true.
Definition act (a : Act) (s : RegisterService) : RegisterService :=
  match a, batch s with
  | AStart r, _ => fst (start (Ok ("register", "1")) r s)
  | AStop, _ => fst (stop s)
  | ABegin, Some b => match at_ b with Claimed => begin_ b s | _ => s end
  | ALease a draws, Some b =>
    match at_ b with
    | Leasing => lease mihomo_error to_json parse_url set_port controller_secret proxy_url a draws written_well b s | _ => s end
  | AApply attempts, Some b => match at_ b with Applying => apply_exits attempts s | _ => s end
  | ATake a l, Some b =>
    match at_ b with
    | Reading => if Mihomo.outbounds_ok (release_writes l) && Mihomo.config_ok (release_writes l)
                 then take to_json parse_url set_port controller_secret proxy_url a l s else s
    | _ => s end
  | APrepare, Some b => match at_ b with Preparing => prepare (Ok JNull) None None b s | _ => s end
  | ATurn, Some b => match at_ b with Looping => default s (turn b s) | _ => s end
  | ADial i, Some b =>
    match tasks b !! i with
    | Some (Started address mailbox node) => dial pool_error to_lowercase set_port proxy_url storing b i address mailbox node s | _ => s end
  | AAnswer i answer, Some b =>
    match tasks b !! i with
    | Some (Asking address mailbox proxy node) => answered pool_error to_lowercase storing b i address node answer s | _ => s end
  | APush i, Some b => match tasks b !! i with Some (Settled o) => push i o s | _ => s end
  | ANote i, Some b => match tasks b !! i with Some (Pushed ok) => note_task i ok s | _ => s end
  | AGive i, Some b => match tasks b !! i with Some Noted => give_back i s | _ => s end
  | ADrain, Some b => match at_ b with Draining stopped => if decide (tasks b = ∅) then drained b stopped s else s | _ => s end
  | AReturn l, Some b =>
    match at_ b with
    | Returning outcome => if Mihomo.outbounds_ok (release_writes l) && Mihomo.config_ok (release_writes l)
                           then returned to_json controller_secret l outcome s else s
    | _ => s end
  | _, None => s
  end.
Lemma act_step a s :
  act a s = s \/ step pool_error mihomo_error to_lowercase to_json parse_url set_port controller_secret proxy_url s (act a s).
Proof.
  assert (Hw : saves written_well) by done.
  destruct a; cbn [act]; try (right; constructor); (destruct (batch s) as [b|] eqn:Hb; [|by left]); repeat case_match; try (by left);
    try (right; by econstructor).
  - right. eapply Step_take; [done|done|]. by apply andb_true_iff.
  - destruct (turn b s) as [s'|] eqn:Et; [right; by eapply Step_turn|by left].
  - right. eapply Step_returned; [done|done|]. by apply andb_true_iff.
Qed.
Definition acts (l : list Act) (s : RegisterService) : RegisterService := fold_left (fun s a => act a s) l s.
Lemma acts_rtc l : forall s,
  rtc (step pool_error mihomo_error to_lowercase to_json parse_url set_port controller_secret proxy_url) s (acts l s).
Proof.
  induction l as [|a l IH]; intros s; [done|]. cbn [acts fold_left]. destruct (act_step a s) as [->|H]; [apply IH|].
  eapply rtc_l; [exact H|apply IH].
Qed.
Lemma acts_reachable l s :
  reachable pool_error mihomo_error to_lowercase to_json parse_url set_port controller_secret proxy_url from_str s ->
  reachable pool_error mihomo_error to_lowercase to_json parse_url set_port controller_secret proxy_url from_str (acts l s).
Proof.
  intros Hs. pose proof (acts_rtc l s) as H. induction H as [|s1 s2 s3 H12 _ IH]; [done|]. apply IH. by eapply Reach_step.
Qed.
End Runs.

(** ** Witnesses *)
Definition toy_subscription : Mihomo.StoredSubscription := Mihomo.mkStored "majsoul" "l" None "u" 3600.
Definition toy_from_str (_ : string) : option json := Some (Mihomo.write_subscriptions [toy_subscription]).
Definition toy_core : Mihomo.Manager :=
  match Mihomo.boot toy_to_string "secret" toy_from_str true (Mihomo.Holds "saved") Mihomo.NotFound with
  | Ok m => m | _ => toy_manager end.
Definition toy_providers (_ : string) : option json :=
  Some (JObj [("proxies", JArr [JObj [("name", JStr "jp")]; JObj [("name", JStr "hk")]])]).
Definition toy_group (group now : string) : string * json := (group, JObj [("now", JStr now)]).
Definition toy_listing : json :=
  JObj [("proxies", JObj [("jp", JObj [("alive", JBool true)]); ("hk", JObj [("alive", JBool true)]);
                          ("MAJSOUL-WATCH", JObj []); ("MAJSOUL-REFETCH", JObj []);
                          toy_group "MAJSOUL-OUT-1" "hk"; toy_group "MAJSOUL-OUT-2" "jp"])].
Definition toy_answers : Mihomo.Answers := Mihomo.mkAnswers (Ok tt) (Ok toy_listing) toy_providers.
Definition toy_released : Released := mkReleased written_well [].
Definition toy_request (wide many : nat) (own : bool) : AccountRegisterRequest :=
  mkRequest [] None (Some (mkTemp "" "key1")) many Accounts.Refetch "n" None true 40 (Float "3.0") wide own.
Definition toy_pool : Accounts.AccountPool := Accounts.mkPool Accounts.default_document None ∅.
Definition toy_service : RegisterService := mkService toy_pool toy_core WatchLog.new no_progress 0 None.
Abbreviation toy_acts :=
  (acts (fun _ => "pool") (fun _ => "mihomo") Text.to_ascii_lowercase toy_to_string toy_parse_url toy_set_port "secret" "http://mihomo:7890").
Abbreviation toy_reachable :=
  (reachable (fun _ => "pool") (fun _ => "mihomo") Text.to_ascii_lowercase toy_to_string toy_parse_url toy_set_port "secret"
     "http://mihomo:7890" toy_from_str).
Lemma toy_service_reachable : toy_reachable toy_service.
Proof.
  constructor; [|by vm_compute].
  apply (Mihomo.Reach_boot toy_to_string toy_parse_url toy_set_port "secret" "http://mihomo:7890" toy_from_str true
           (Mihomo.Holds "saved") Mihomo.NotFound); [done|by vm_compute].
Qed.
Definition born (n : string) : WatchServiceError + json :=
  inr (JObj [("ok", JBool true); ("email", JStr (n +:+ "@x.com")); ("password", JStr "pw"); ("account_id", num 7)]).
Definition refused : WatchServiceError + json := inr (JObj [("ok", JBool false); ("stage", JStr "signup")]).
Definition toy_leased : list Act :=
  [ABegin; ALease toy_answers (fun i => i); AApply [Mihomo.mkAttempt true (Some toy_listing) (fun _ _ => true)];
   ATake toy_answers toy_released; APrepare].
(** All of an account but the module's answer, from its turn to the free permit. *)
Definition whole (i : nat) (answer : WatchServiceError + json) : list Act :=
  [ATurn; ADial i; AAnswer i answer; APush i; ANote i; AGive i].
Definition toy_midway : RegisterService :=
  toy_acts (AStart (toy_request 2 3 true) :: toy_leased ++ whole 0 (born "a") ++ [ATurn; ATurn]) toy_service.
Example toy_midway_run :
  (exits <$> batch toy_midway) = Some ["hk"; "jp"] /\ (launched <$> batch toy_midway) = Some 3%nat /\
  succeeded (progress toy_midway) = 1%nat /\
  map (fun a => (Accounts.username a, Accounts.node a)) (Accounts.accounts (Accounts.document (accounts toy_midway))) = [("a@x.com", "hk")].
Proof. by vm_compute. Qed.
Definition toy_wide : RegisterService := toy_acts (AStart (toy_request 2 9 true) :: toy_leased ++ whole 0 (born "a") ++ [ATurn; ATurn]) toy_service.
Lemma toy_midway_reachable : toy_reachable toy_midway.
Proof. apply acts_reachable, toy_service_reachable. Qed.
Lemma toy_wide_reachable : toy_reachable toy_wide.
Proof. apply acts_reachable, toy_service_reachable. Qed.
#[local] Opaque toy_midway toy_wide.
Lemma batch_is_accounted_for_witness :
  done (progress toy_midway) = 1%nat /\ succeeded (progress toy_midway) = 1%nat /\ running (progress toy_midway) = true.
Proof.
  assert (E1 : done (progress toy_midway) = 1%nat) by (vm_compute; reflexivity).
  assert (E2 : succeeded (progress toy_midway) = 1%nat) by (vm_compute; reflexivity).
  assert (E3 : match batch toy_midway with Some _ => true | None => false end = true) by (vm_compute; reflexivity).
  pose proof (batch_is_accounted_for _ _ _ _ _ _ _ _ _ toy_midway toy_midway_reachable) as H.
  revert E1 E2 E3 H. generalize toy_midway. intros s E1 E2 E3 [_ H]. split; [exact E1|]. split; [exact E2|].
  destruct (batch s); [exact (proj1 H)|discriminate].
Defined.
Lemma no_account_leaves_from_the_host_witness :
  exists b address mailbox s', batch toy_midway = Some b /\ tasks b !! 1%nat = Some (Started address mailbox (Some "jp")) /\
    s' = dial (fun _ => "pool") Text.to_ascii_lowercase toy_set_port "http://mihomo:7890" storing b 1 address mailbox (Some "jp") toy_midway /\
    accounts s' = accounts toy_midway.
Proof.
  assert (Hb : exists b address mailbox, batch toy_midway = Some b /\ tasks b !! 1%nat = Some (Started address mailbox (Some "jp")) /\
    random_node (request b) = true /\ early (at_ b) = false).
  { vm_compute. do 3 eexists. split; [reflexivity|]. split; [reflexivity|]. split; reflexivity. }
  pose proof (fun b address mailbox =>
    no_account_leaves_from_the_host (fun _ => "pool") (fun _ => "mihomo") Text.to_ascii_lowercase toy_to_string toy_parse_url toy_set_port
      "secret" "http://mihomo:7890" toy_from_str storing b 1 address mailbox (Some "jp") toy_midway toy_midway_reachable) as H.
  revert Hb H. generalize toy_midway. intros s (b & address & mailbox & Hb & Ht & Hr & He) H.
  destruct (H b address mailbox Hb Hr He Ht) as (name & b' & _ & _ & _ & Ha & _).
  exists b, address, mailbox. eexists. split; [exact Hb|]. split; [exact Ht|]. split; [reflexivity|exact Ha].
Defined.
(** The batch is stopped; the two accounts in the air end, and it launches no
    other. *)
Definition toy_stopped : RegisterService :=
  toy_acts [ADial 1; AAnswer 1 refused; APush 1; ANote 1; AGive 1; ATurn; ADial 2; AAnswer 2 (born "c")] (fst (stop toy_wide)).
Lemma stop_launches_nothing_more_witness :
  exists b', batch toy_stopped = Some b' /\ done (progress toy_stopped) = 3%nat /\ launched b' = 3%nat.
Proof.
  assert (Hb : exists b, batch toy_wide = Some b /\ at_ b = Looping /\ launched b = 3%nat /\ b_generation b = 0%nat).
  { vm_compute. eexists. split; [reflexivity|]. split; [reflexivity|]. split; reflexivity. }
  assert (Hb' : exists b, batch toy_stopped = Some b /\ at_ b = Draining true /\ done (progress toy_stopped) = 3%nat /\ b_generation b = 0%nat).
  { vm_compute. eexists. split; [reflexivity|]. split; [reflexivity|]. split; reflexivity. }
  assert (Hs : rtc (step (fun _ => "pool") (fun _ => "mihomo") Text.to_ascii_lowercase toy_to_string toy_parse_url toy_set_port "secret"
                "http://mihomo:7890") (fst (stop toy_wide)) toy_stopped) by apply acts_rtc.
  pose proof (fun b b' => stop_launches_nothing_more _ _ _ _ _ _ _ _ _ toy_wide b toy_stopped b' toy_wide_reachable) as H.
  revert Hb Hb' Hs H. generalize toy_stopped, toy_wide. intros s' s (b & Hb & Ha & Hl & Hg) (b' & Hb' & Ha' & Hd & Hg') Hs H.
  exists b'. split; [exact Hb'|]. split; [exact Hd|]. rewrite <- Hl.
  apply (H b b' Hb ltac:(congruence) Hs Hb'); congruence.
Defined.

(** ** What the service does not do *)
(** Three accounts are refused while a fourth is in the air; the fourth succeeds,
    and the batch ends as any other though it launched four of nine. *)
Example late_success_hides_the_rest :
  let s := toy_acts (AStart (toy_request 2 9 false) :: [ABegin; APrepare; ATurn; ADial 0] ++
    concat (map (fun i => whole i refused) [1; 2; 3]%nat) ++
    [ATurn; AAnswer 0 (born "a"); APush 0; ANote 0; AGive 0; ADrain]) toy_service in
  message (progress s) = Some "注册结束：成功 1，失败 3" /\ total (progress s) = 9%nat /\ done (progress s) = 4%nat.
Proof. vm_compute. repeat split. Qed.
(** [start] reads the generation after it has let go of the progress: a stop in
    between is answered as done, and the batch goes on. *)
Example stop_before_the_generation_is_lost :
  let s := toy_acts [AStart (toy_request 1 2 false)] toy_service in
  snd (stop s) = true /\
  (launched <$> batch (toy_acts [ABegin; APrepare; ATurn] (fst (stop s)))) = Some 1%nat.
Proof. vm_compute. repeat split. Qed.
(** Two exits and two accounts in the air: both on the same one. *)
Example two_accounts_share_an_exit :
  let s := toy_acts (AStart (toy_request 2 3 true) :: toy_leased ++ [ATurn; ADial 0] ++ whole 1 (born "b") ++ [ATurn; ADial 2]) toy_service in
  exists b address address' mailbox mailbox' url, batch s = Some b /\ tasks b !! 0%nat = Some (Asking address mailbox (Some url) (Some "hk")) /\
    tasks b !! 2%nat = Some (Asking address' mailbox' (Some url) (Some "hk")).
Proof. vm_compute. do 6 eexists. split; [reflexivity|]. split; reflexivity. Qed.
(** A lease whose file cannot be written ends the batch and is not given back. *)
Example failed_lease_is_kept :
  let s := toy_acts [AStart (toy_request 2 3 true); ABegin] toy_service in
  match batch s with
  | Some b =>
    let s' := lease (fun _ => "disk full") toy_to_string toy_parse_url toy_set_port "secret" "http://mihomo:7890" toy_answers (fun i => i)
                (Mihomo.mkWrites false true) b s in
    batch s' = None /\ running (progress s') = false /\ Mihomo.leased (mihomo s') = ["hk"; "jp"]
  | None => False
  end.
Proof. vm_compute. repeat split. Qed.
(** The dash of an address ends it. *)
Example dashed_address : address_of "some-one@x.com----key" = Some "one@x.com" /\ address_of "a@my-mail.com----key" = None.
Proof. vm_compute. repeat split. Qed.
