(* ===== verification/Seats.v ===== *)
(** The seat rows of the index ([src/src/catalog.rs]): how a page of them is split
    over inserts. *)
From S2P Require Import Prelude Text Json Replay Pack Kafka Indexer.
#[local] Open Scope string_scope.
#[local] Open Scope list_scope.
#[local] Open Scope Z_scope.

Module Seats.
Import Pack Kafka Indexer.

Definition MAX_MONTHS_PER_INSERT : nat := 64.
Abbreviation YearMonth := (Z * Z)%type.
(** The order of the keys of the [BTreeMap]. *)
Definition month_ltb (a b : YearMonth) : bool := lex_ltb Z.ltb a b.

Section Blocks.
(** [Datelike] of an instant, its text for ClickHouse, the text of a UUID, and
    [serde_json]. *)
Variable year_month : DateTime -> YearMonth.
Variable clickhouse_timestamp : DateTime -> string.
Variable uuid_text : Uuid -> string.
Variable to_string : json -> string.

Definition player_game_json (game : PlayerGame) : string :=
  let stats := stats game in
  let flag (b : bool) := num (if b then 1 else 0) in
  to_string (JObj [
    ("record_id", JStr (uuid_text (pg_record_id game)));
    ("seat", num (Replay.seat stats));
    ("player", JStr (Replay.player stats));
    ("played_at", JStr (clickhouse_timestamp (pg_played_at game)));
    ("rule", JStr (default "" (pg_rule game)));
    ("seats", num (pg_seats game));
    ("detailed", flag (pg_detailed game));
    ("placement", num (Replay.placement stats));
    ("final_score", num (Replay.final_score stats));
    ("settled_point", num (Replay.settled_point stats));
    ("grading_score", num (Replay.grading_score stats));
    ("level_id", num (Replay.level_id stats));
    ("busted", flag (Replay.busted stats));
    ("hands", num (Replay.hands stats));
    ("hands_as_dealer", num (Replay.hands_as_dealer stats));
    ("max_dealer_streak", num (Replay.max_dealer_streak stats));
    ("net_points", num (Replay.net_points stats));
    ("wins", num (Replay.wins stats));
    ("wins_tsumo", num (Replay.wins_tsumo stats));
    ("win_points", num (Replay.win_points stats));
    ("win_turns", num (Replay.win_turns stats));
    ("deal_ins", num (Replay.deal_ins stats));
    ("deal_in_points", num (Replay.deal_in_points stats));
    ("riichi", num (Replay.riichi stats));
    ("riichi_wins", num (Replay.riichi_wins stats));
    ("riichi_deal_ins", num (Replay.riichi_deal_ins stats));
    ("riichi_turns", num (Replay.riichi_turns stats));
    ("riichi_first", num (Replay.riichi_first stats));
    ("riichi_chasing", num (Replay.riichi_chasing stats));
    ("riichi_chased", num (Replay.riichi_chased stats));
    ("riichi_net", num (Replay.riichi_net stats));
    ("called", num (Replay.called stats));
    ("called_wins", num (Replay.called_wins stats));
    ("draws", num (Replay.draws stats));
    ("draws_tenpai", num (Replay.draws_tenpai stats));
    ("riichi_ippatsu", num (Replay.riichi_ippatsu stats));
    ("riichi_ura_hits", num (Replay.riichi_ura_hits stats));
    ("yakuman", num (Replay.yakuman stats));
    ("max_han", num (Replay.max_han stats))]).

(** [by_month.entry(…).or_default().push(…)], in the order of the keys. *)
Fixpoint push_month {A} (k : YearMonth) (x : A) (l : list (YearMonth * list A)) : list (YearMonth * list A) :=
  match l with
  | [] => [(k, [x])]
  | (k', rows) :: l =>
    if decide (k = k') then (k', rows ++ [x]) :: l
    else if month_ltb k k' then (k, [x]) :: (k', rows) :: l else (k', rows) :: push_month k x l
  end.
Definition by_month {A} (f : PlayerGame -> A) (games : list PlayerGame) : list (YearMonth * list A) :=
  fold_left (fun l game => push_month (year_month (pg_played_at game)) (f game) l) games [].
Fixpoint batches {A} (months : nat) (batch : list A) (by_month : list (list A)) : list (list A) :=
  match by_month with
  | [] => match batch with [] => [] | _ => [batch] end
  | rows :: by_month =>
    if Nat.eqb (S months) MAX_MONTHS_PER_INSERT then (batch ++ rows) :: batches 0 [] by_month
    else batches (S months) (batch ++ rows) by_month
  end.
Definition month_blocks (games : list PlayerGame) : list string :=
  map (String.concat (String "010"%char "")) (batches 0 [] (map snd (by_month player_game_json games))).

(** The rows behind each block, and what the inserts leave in the table: a reply
    for each, the first that is not answered ending the write. *)
Definition month_groups (games : list PlayerGame) : list (list PlayerGame) :=
  batches 0 [] (map snd (by_month (fun game => game) games)).
Fixpoint insert_blocks (replies : nat -> reply) (i : nat) (blocks : list (list PlayerGame)) (table : list PlayerGame)
  : list PlayerGame * bool :=
  match blocks with
  | [] => (table, true)
  | block :: blocks =>
    let table := if took_effect (replies i) then table ++ block else table in
    if answered (replies i) then insert_blocks replies (S i) blocks table else (table, false)
  end.
Definition insert_player_games (replies : nat -> reply) (games table : list PlayerGame) : list PlayerGame * bool :=
  insert_blocks replies 0 (month_groups games) table.
End Blocks.
End Seats.

Import Pack Kafka Indexer Seats.

#[local] Instance Zltb_total : StrictTotal Z.ltb.
Proof. split; intros; rewrite ?Z.ltb_irrefl; [done|rewrite !Z.ltb_lt in *; lia|rewrite !Z.ltb_lt; lia]. Qed.

#[local] Instance month_total : StrictTotal month_ltb.
Proof. apply lex_strict_total, Zltb_total. Qed.

Section Facts.
Context (year_month : DateTime -> YearMonth).
Definition month_of (game : PlayerGame) : YearMonth := year_month (pg_played_at game).
Abbreviation by_month := (by_month year_month (fun game => game)).
(** The map of the months: in order, and the rows of a month are its own. *)
Definition of_month (entry : YearMonth * list PlayerGame) : Prop :=
  entry.2 <> [] /\ Forall (fun game => month_of game = entry.1) entry.2.
Definition monthly (l : list (YearMonth * list PlayerGame)) : Prop :=
  StronglySorted (fun a b => month_ltb a b = true) (map fst l) /\ Forall of_month l.

Lemma push_month_keys {A} k (x : A) l k' : k' ∈ map fst (push_month k x l) -> k' = k \/ k' ∈ map fst l.
Proof.
  induction l as [|[k1 rows] l IH]; cbn; [by intros ->%list_elem_of_singleton; left|]. case_decide; [cbn; tauto|].
  destruct (month_ltb k k1); cbn; rewrite !elem_of_cons; tauto.
Qed.
Lemma push_month_spec x l : monthly l ->
  monthly (push_month (month_of x) x l) /\ concat (map snd (push_month (month_of x) x l)) ≡ₚ concat (map snd l) ++ [x].
Proof.
  intros [Hs Hm]. induction l as [|[k rows] l IH]; cbn [push_month].
  { split; [|done]. split; [repeat constructor|]. repeat constructor. done. }
  cbn [map fst] in Hs. apply StronglySorted_inv in Hs as [Hs Hk]. apply Forall_cons in Hm as [[Hr Hm1] Hm]. cbn [fst snd] in *.
  case_decide as E; [|destruct (month_ltb (month_of x) k) eqn:El].
  - split; [split; [by constructor|constructor; [|done]]|].
    + split; [by destruct rows|]. apply Forall_app. by repeat constructor.
    + cbn. rewrite <- !app_assoc. apply Permutation_app_head, Permutation_app_comm.
  - split; [split; constructor|].
    + by constructor.
    + constructor; [done|]. eapply Forall_impl; [exact Hk|]. intros k' Hk'. by apply (ltb_trans month_ltb _ k).
    + by repeat constructor.
    + by repeat constructor.
    + cbn. by rewrite <- Permutation_cons_append.
  - destruct (IH Hs Hm) as ((Hs' & Hm') & Hp). split; [split; constructor|]; [done| |done|done|].
    + apply Forall_forall. intros k' [->|Hk']%push_month_keys; [|by eapply Forall_forall in Hk].
      cbn [fst]. destruct (ltb_total month_ltb k (month_of x)) as [?|[?|?]]; congruence.
    + cbn. rewrite Hp. by rewrite app_assoc.
Qed.
Lemma by_month_spec games : monthly (by_month games) /\ concat (map snd (by_month games)) ≡ₚ games.
Proof.
  induction games as [|x games [IHm IHp]] using rev_ind; [split; [split; constructor|done]|].
  unfold Seats.by_month in *. rewrite fold_left_app. cbn. destruct (push_month_spec x _ IHm) as [Hm Hp].
  split; [exact Hm|]. unfold month_of in Hp. by rewrite Hp, IHp.
Qed.
(** The same map holds the texts of the rows. *)
Lemma by_month_map {A} (f : PlayerGame -> A) games :
  Seats.by_month year_month f games = map (fun '(k, rows) => (k, map f rows)) (by_month games).
Proof.
  induction games as [|x games IH] using rev_ind; [done|]. unfold Seats.by_month in *. rewrite !fold_left_app, IH. cbn.
  generalize (fold_left (fun l game => push_month (year_month (pg_played_at game)) game l) games []). intros l.
  induction l as [|[k rows] l IHl]; [done|]. cbn. case_decide; [cbn; by rewrite map_app|].
  destruct (month_ltb _ k); [done|]. cbn. by rewrite IHl.
Qed.
Lemma batches_map {A B} (f : A -> B) l : forall n batch,
  batches n (map f batch) (map (map f) l) = map (map f) (batches n batch l).
Proof.
  induction l as [|rows l IH]; intros n batch; cbn [batches map]; [by destruct batch|].
  rewrite <- map_app. destruct (Nat.eqb _ _); cbn [map]; [|apply IH]. by rewrite <- (IH 0%nat []).
Qed.
(** The batches are runs of months, [MAX_MONTHS_PER_INSERT] at most in each. *)
Lemma batches_runs (l : list (YearMonth * list PlayerGame)) : Forall (fun e => e.2 <> []) l ->
  forall pre, Forall (fun e => e.2 <> []) pre -> (length pre < MAX_MONTHS_PER_INSERT)%nat ->
  exists runs, batches (length pre) (concat (map snd pre)) (map snd l) = map (fun run => concat (map snd run)) runs /\
    concat runs = pre ++ l /\ Forall (fun run => run <> [] /\ (length run <= MAX_MONTHS_PER_INSERT)%nat) runs.
Proof.
  induction 1 as [|e l He Hl IH]; intros pre Hp Hn; cbn [batches map].
  - destruct Hp as [|[k rows] pre Hr Hp]; [by exists []|]. exists [(k, rows) :: pre]. cbn in *.
    destruct rows; [done|]. cbn. rewrite !app_nil_r. split_and!; [done..|]. constructor; [|constructor]. split; [done|cbn; lia].
  - replace (concat (map snd pre) ++ e.2) with (concat (map snd (pre ++ [e]))) by (rewrite map_app, concat_app; cbn; by rewrite app_nil_r).
    assert (Hlen : length (pre ++ [e]) = S (length pre)) by (rewrite length_app; cbn; lia).
    destruct (Nat.eqb_spec (S (length pre)) MAX_MONTHS_PER_INSERT) as [E|E].
    + destruct (IH [] (Forall_nil_2 _) ltac:(unfold MAX_MONTHS_PER_INSERT; cbn; lia)) as (runs & Eb & Hc & Hf). cbn in Eb. rewrite Eb.
      exists ((pre ++ [e]) :: runs). cbn. rewrite Hc, <- app_assoc. split_and!; [done..|].
      constructor; [|done]. split; [by destruct pre|lia].
    + rewrite <- Hlen. destruct (IH (pre ++ [e])) as (runs & -> & Hc & Hf); [by apply Forall_app; repeat constructor|lia|].
      exists runs. rewrite Hc, <- app_assoc. done.
Qed.

(** How many months a block spans. *)
Definition span (block : list PlayerGame) : nat := length (remove_dups (map month_of block)).
Lemma run_month_elem (run : list (YearMonth * list PlayerGame)) game : Forall of_month run -> game ∈ concat (map snd run) ->
  month_of game ∈ map fst run.
Proof.
  intros H Hg. apply list_elem_of_In, in_concat in Hg as (rows & Hr & Hg). apply in_map_iff in Hr as (e & <- & He).
  apply list_elem_of_In in He, Hg. eapply Forall_forall in H as [_ H]; [|exact He]. eapply Forall_forall in H; [|exact Hg].
  cbn in H. rewrite H. by apply list_elem_of_fmap_2.
Qed.
Lemma run_months (run : list (YearMonth * list PlayerGame)) : Forall of_month run ->
  (span (concat (map snd run)) <= length run)%nat.
Proof.
  intros H. unfold span. rewrite <- (length_map fst run). apply submseteq_length, NoDup_submseteq; [apply NoDup_remove_dups|].
  intros k Hk. rewrite elem_of_remove_dups in Hk. apply list_elem_of_fmap in Hk as (game & -> & Hg). by apply run_month_elem.
Qed.
Lemma month_groups_runs games : exists runs, month_groups year_month games = map (fun run => concat (map snd run)) runs /\
  concat runs = by_month games /\ Forall (fun run => run <> [] /\ (length run <= MAX_MONTHS_PER_INSERT)%nat) runs /\
  Forall (Forall of_month) runs /\ NoDup (map fst (concat runs)).
Proof.
  destruct (by_month_spec games) as [[Hs Hm] _].
  destruct (batches_runs (by_month games)) with (pre := @nil (YearMonth * list PlayerGame)) as (runs & E & Hc & Hf);
    [eapply Forall_impl; [exact Hm|by intros e [? _]]|constructor|unfold MAX_MONTHS_PER_INSERT; cbn; lia|].
  exists runs. unfold month_groups. cbn in E, Hc. rewrite E, Hc. split_and!; [done..| |].
  - rewrite <- Hc in Hm. clear -Hm. induction runs as [|run runs IH]; [constructor|]. cbn in Hm. apply Forall_app in Hm as [? ?]. constructor; auto.
  - clear -Hs. induction Hs as [|k l _ IH Hk]; constructor; [|done]. intros H. eapply Forall_forall in Hk; [|exact H].
    by rewrite (ltb_irrefl month_ltb) in Hk.
Qed.
Lemma runs_apart (runs : list (list (YearMonth * list PlayerGame))) i j a b (k : YearMonth) : NoDup (map fst (concat runs)) ->
  runs !! i = Some a -> runs !! j = Some b -> k ∈ map fst a -> k ∈ map fst b -> i = j.
Proof.
  revert i j. induction runs as [|run runs IH]; intros [|i] [|j] Hn; cbn; intros Ha Hb Hka Hkb; simplify_eq; [done| | |].
  - exfalso. cbn in Hn. rewrite map_app in Hn. apply NoDup_app in Hn as (_ & Hd & _). apply (Hd k Hka).
    apply list_elem_of_lookup_2 in Hb. apply list_elem_of_fmap in Hkb as (e & -> & He). apply list_elem_of_fmap_2.
    apply list_elem_of_In, in_concat. exists b. by rewrite <- !list_elem_of_In.
  - exfalso. cbn in Hn. rewrite map_app in Hn. apply NoDup_app in Hn as (_ & Hd & _). apply (Hd k Hkb).
    apply list_elem_of_lookup_2 in Ha. apply list_elem_of_fmap in Hka as (e & -> & He). apply list_elem_of_fmap_2.
    apply list_elem_of_In, in_concat. exists a. by rewrite <- !list_elem_of_In.
  - f_equal. cbn in Hn. rewrite map_app in Hn. apply NoDup_app in Hn as (_ & _ & Hn). by apply (IH i j).
Qed.

Lemma concat_groups games : concat (month_groups year_month games) ≡ₚ games.
Proof.
  destruct (by_month_spec games) as [_ Hp]. destruct (month_groups_runs games) as (runs & E & Hc & _).
  rewrite E, <- Hp, <- Hc. clear. induction runs as [|run runs IH]; [done|]. cbn. by rewrite map_app, concat_app, IH.
Qed.
Lemma insert_blocks_spec replies blocks : forall i table table' ok, insert_blocks replies i blocks table = (table', ok) ->
  table ⊆ table' /\ (ok = true -> table' = table ++ concat blocks).
Proof.
  induction blocks as [|block blocks IH]; intros i table table' ok; cbn [insert_blocks concat].
  { intros [= <- <-]. by rewrite app_nil_r. }
  assert (Hsub : table ⊆ (if took_effect (replies i) then table ++ block else table)).
  { intros x Hx. destruct (took_effect _); [apply elem_of_app; by left|done]. }
  destruct (replies i); cbn in *; [|intros [= <- <-]; split; [done|discriminate]..].
  intros [H1 H2]%IH. split; [by intros x Hx; apply H1, Hsub|]. intros ->. rewrite H2 by done. by rewrite app_assoc.
Qed.
(** An answered write holds every row; one that is not answered takes none away. *)
Lemma insert_player_games_spec replies games table table' ok :
  insert_player_games year_month replies games table = (table', ok) -> table ⊆ table' /\ (ok = true -> games ⊆ table').
Proof.
  intros [H1 H2]%insert_blocks_spec. split; [done|]. intros ->. rewrite H2 by done. intros x Hx. apply elem_of_app. right.
  by rewrite concat_groups.
Qed.

(** A page of seat rows is written whole: each block is the text of rows of at
    most 64 months, no block is empty, no month is split over two, and the blocks
    hold each row once. *)
Theorem blocks_hold_whole_months clickhouse_timestamp uuid_text to_string games : let groups := month_groups year_month games in
  month_blocks year_month clickhouse_timestamp uuid_text to_string games =
    map (fun group => String.concat (String "010"%char "") (map (player_game_json clickhouse_timestamp uuid_text to_string) group)) groups /\
  concat groups ≡ₚ games /\
  Forall (fun group => group <> [] /\ (span group <= MAX_MONTHS_PER_INSERT)%nat) groups /\
  forall i j a b x y, groups !! i = Some a -> groups !! j = Some b -> x ∈ a -> y ∈ b -> month_of x = month_of y -> i = j.
Proof.
  destruct (month_groups_runs games) as (runs & E & Hc & Hf & Hm & Hn). cbv zeta. split_and!.
  - unfold month_groups, month_blocks. rewrite <- (map_map (map _)). f_equal. rewrite by_month_map, <- (batches_map _ _ 0 []), !map_map. cbn [map]. f_equal.
    apply map_ext. by intros [k rows].
  - apply concat_groups.
  - rewrite E, Forall_map. apply Forall_forall. intros run Hr. eapply Forall_forall in Hm; [|exact Hr]. eapply Forall_forall in Hf as [Hf1 Hf2]; [|exact Hr].
    split; [|pose proof (run_months _ Hm); lia]. destruct Hm as [|[k rows] run [Hr1 _] _]; [done|]. cbn in *. by destruct rows.
  - intros i j a b x y Ha Hb Hx Hy Exy. rewrite E in Ha, Hb. apply list_lookup_fmap_Some in Ha as (ra & -> & Ha), Hb as (rb & -> & Hb).
    assert (Hr : forall i run, runs !! i = Some run -> Forall of_month run).
    { intros k run Hk. exact (Forall_lookup_1 _ _ _ _ Hm Hk). }
    apply (runs_apart runs i j ra rb (month_of x)); [done..| |rewrite Exy]; apply run_month_elem; eauto.
Qed.
End Facts.

(** Sixty-five months take two statements; the rows of one month in one page take
    one, in the order they came. *)
Definition toy_game (month i : Z) : PlayerGame := mkPlayerGame [i] month None 4 false (Replay.fresh_seat 0 "a").
Definition toy_months (at_ : DateTime) : YearMonth := (at_ / 12, at_ mod 12).
Example months_over_two_statements :
  map length (month_groups toy_months (map (fun i => toy_game (Z.of_nat i) 0) (seq 0 65))) = [64%nat; 1%nat] /\
  month_groups toy_months [toy_game 3 1; toy_game 2 2; toy_game 3 3] = [[toy_game 2 2; toy_game 3 1; toy_game 3 3]] /\
  month_groups toy_months [] = [].
Proof. vm_compute. repeat split. Qed.
