(* ===== verification/Backfill.v ===== *)
(** The passes over the records already indexed, each run once per deployment
    ([src/src/backfill.rs]): the metadata, the claims by game, the scores and the
    conversions. *)
From S2P Require Import Prelude Text Json Convert Mjai Replay Pack Kafka Ingest Indexer Search Reconvert Seats.
#[local] Open Scope string_scope.
#[local] Open Scope list_scope.
#[local] Open Scope Z_scope.

Module Backfill.
Import Pack Kafka Indexer.

Definition NAME : string := "records_rule_played_at".
Definition GAME_CLAIMS_NAME : string := "game_scoped_claims".
Definition PLAYER_STATS_NAME : string := "player_game_stats_v2".
Definition RECONVERT_NAME : string := "reconvert_stored_pb_v1".
Definition PAGE_SIZE : Z := 1000.

Record Progress := mkProgress { scanned : nat; rewritten_ : nat; unreadable : nat; unparsable : nat }.
#[export] Instance Progress_settable : Settable Progress := fun p =>
  mkProgress (scanned p) (rewritten_ p) (unreadable p) (unparsable p).
Definition no_progress : Progress := mkProgress 0 0 0 0.
Definition is_complete (p : Progress) : bool := Nat.eqb (unreadable p) 0.
Definition rewritten (row : Row) (metadata : Mjai.Metadata) : option Row :=
  let rule_ := match Mjai.rule metadata with Some r => Some r | None => rule row end in
  let played := match Mjai.played_at metadata with
                | Some seconds => Some (seconds * 1000000000) | None => row_played_at row end in
  if bool_decide (rule_ = rule row /\ played = row_played_at row) then None
  else Some (mkRow (id row) (row_source row) (sha256 row) (row_received_at row) played (players row) rule_
               (event_count row) (storage row) (row_pb row)).

(** The rows of the index in the order they were inserted, the claims, the scores,
    the topic, and the table [completed_backfills]. *)
Record World := mkWorld {
  index : list Row; claims : Ingest.Claims; player_games : list PlayerGame; topic : Topic; completed : gset string
}.
#[export] Instance World_settable : Settable World := fun w =>
  mkWorld (index w) (claims w) (player_games w) (topic w) (completed w).

(** What a page of a pass meets: whether the statement is answered; what the read
    of the location of the row at each index gives, and of its protobuf; the order
    in which the reads of so many rows end; what others did in the meantime; the fate of the write, and of
    each insert of the scores; the fates of the broker. *)
Record Fate := mkFate {
  queried : bool; reads : nat -> PackLocation -> option (list Z); pb_reads : nat -> PbLocation -> option (list Z);
  order : nat -> list nat;
  others : World -> World; wrote : reply; writes : nat -> reply; now : DateTime;
  produce : IngestMessage -> Topic -> Topic * result KafkaError ()
}.

Section Passes.
(** [serde_json], its equality, the gzip codec, the instants of [chrono] and their
    months, SHA-256 of a key, and how ClickHouse orders identifiers. *)
Variable from_str : string -> json + string.
Variable to_string : json -> string.
Variable value_eqb : json -> json -> bool.
Variable gzip : list Z -> list Z.
Variable gunzip : list Z -> list Z + string.
Variable timestamp_ok : Z -> bool.
Variable year_month : DateTime -> Seats.YearMonth.
Variable key_hash : string -> string.
Variable uuid_ltb : Uuid -> Uuid -> bool.
Abbreviation parse_metadata := (Mjai.parse_metadata from_str to_string timestamp_ok).

(** ** The walk all passes share

    [step] is what is done with a page: [None] when the task panics. *)
Definition Step : Type := Fate -> list Row -> Progress -> World -> World * option (result string Progress).
Fixpoint walk (f : Search.RecordFilter) (step : Step) (fates : list Fate) (cursor : option Search.Cursor) (p : Progress) (w : World)
  : World * option (result string Progress) :=
  match fates with
  | [] => (w, None)
  | fate :: fates =>
    match Search.scan uuid_ltb f cursor PAGE_SIZE (if queried fate then Some (index w) else None) with
    | Err _ => (w, Some (Err "catalog"))
    | Panic => (w, Some Panic)
    | Ok (page, next) =>
      match step fate page p (others fate w) with
      | (w, Some (Ok p)) =>
        match next with
        | Some next => walk f step fates (Some next) p w
        | None => (w, Some (Ok p))
        end
      | (w, r) => (w, r)
      end
    end
  end.

(** ** The metadata: the rows of a page in their order *)
Definition insert_batch (r : reply) (records : list Row) (w : World) : World * bool :=
  match records with
  | [] => (w, true)
  | _ => (if took_effect r then w <| index ::= fun l => l ++ map stored_row records |> else w, answered r)
  end.
Fixpoint rewrite_rows (i : nat) (reads : nat -> PackLocation -> option (list Z)) (page : list Row) (p : Progress) (batch : list Row)
  : result unit (Progress * list Row) :=
  match page with
  | [] => Ok (p, batch)
  | row :: page =>
    match reads i (storage row) with
    | None => rewrite_rows (S i) reads page (p <| unreadable ::= S |>) batch
    | Some raw =>
      match parse_metadata raw with
      | Panic => Panic
      | Err _ => rewrite_rows (S i) reads page (p <| unparsable ::= S |>) batch
      | Ok metadata =>
        rewrite_rows (S i) reads page p
          (match rewritten row metadata with Some r => batch ++ [r] | None => batch end)
      end
    end
  end.
Definition counted (page : list Row) (written : nat) (p : Progress) : Progress :=
  p <| scanned ::= fun n => (n + length page)%nat |> <| rewritten_ ::= fun n => (n + written)%nat |>.
Definition metadata_page : Step := fun fate page p w =>
  match rewrite_rows 0 (reads fate) page p [] with
  | Ok (p, batch) =>
    match insert_batch (wrote fate) batch w with
    | (w, true) => (w, Some (Ok (counted page (length batch) p)))
    | (w, false) => (w, Some (Err "index"))
    end
  | _ => (w, Some Panic)
  end.
Definition scan : list Fate -> option Search.Cursor -> Progress -> World -> World * option (result string Progress) :=
  walk Search.no_filter metadata_page.

(** ** The claims: the rows of a page in the order the reads end *)
Definition adopt_game_claims (r : reply) (now : DateTime) (l : list (string * Uuid * string)) (w : World) : World * bool :=
  match l with
  | [] => (w, true)
  | _ => (if took_effect r then w <| claims ::= Ingest.adopt_game_claims key_hash now l |> else w, answered r)
  end.
Fixpoint claim_rows (order : list nat) (reads : nat -> PackLocation -> option (list Z)) (page : list Row) (p : Progress)
  (seen : gset string) (l : list (string * Uuid * string)) : result unit (Progress * list (string * Uuid * string)) :=
  match order with
  | [] => Ok (p, l)
  | i :: order =>
    match page !! i with
    | None => Panic
    | Some row =>
      match reads i (storage row) with
      | None => claim_rows order reads page (p <| unreadable ::= S |>) seen l
      | Some raw =>
        match parse_metadata raw with
        | Panic => Panic
        | Ok metadata =>
          match Mjai.majsoul_uuid metadata with
          | None => claim_rows order reads page (p <| unparsable ::= S |>) seen l
          | Some uuid =>
            let key := Ingest.game_scope_key uuid in
            if decide (key ∈ seen) then claim_rows order reads page p seen l
            else claim_rows order reads page p ({[key]} ∪ seen) (l ++ [(key, id row, sha256 row)])
          end
        | Err _ => claim_rows order reads page (p <| unparsable ::= S |>) seen l
        end
      end
    end
  end.
Definition claims_page : Step := fun fate page p w =>
  match claim_rows (order fate (length page)) (reads fate) page p ∅ [] with
  | Ok (p, l) =>
    match adopt_game_claims (wrote fate) (now fate) l w with
    | (w, true) => (w, Some (Ok (counted page (length l) p)))
    | (w, false) => (w, Some (Err "catalog"))
    end
  | _ => (w, Some Panic)
  end.
Definition scan_game_claims : list Fate -> option Search.Cursor -> Progress -> World -> World * option (result string Progress) :=
  walk Search.no_filter claims_page.

(** ** The scores *)
Fixpoint score_rows (order : list nat) (reads : nat -> PackLocation -> option (list Z)) (page : list Row) (p : Progress) (games : list PlayerGame)
  : result unit (Progress * list PlayerGame) :=
  match order with
  | [] => Ok (p, games)
  | i :: order =>
    match page !! i with
    | None => Panic
    | Some row =>
      match reads i (storage row) with
      | None => score_rows order reads page (p <| unreadable ::= S |>) games
      | Some raw =>
        match Mjai.events from_str raw with
        | Panic => Panic
        | Err _ => score_rows order reads page (p <| unparsable ::= S |>) games
        | Ok events =>
          match Replay.replay events with
          | Ok (Some scored) => score_rows order reads page p (games ++ player_games_of row scored)
          | Ok None => score_rows order reads page (p <| unparsable ::= S |>) games
          | _ => Panic
          end
        end
      end
    end
  end.
Definition score_page : Step := fun fate page p w =>
  match score_rows (order fate (length page)) (reads fate) page p [] with
  | Ok (p, games) =>
    match Seats.insert_player_games year_month (writes fate) games (player_games w) with
    | (table, true) => (w <| player_games := table |>, Some (Ok (counted page (length games) p)))
    | (table, false) => (w <| player_games := table |>, Some (Err "index"))
    end
  | _ => (w, Some Panic)
  end.
Definition score : list Fate -> option Search.Cursor -> Progress -> World -> World * option (result string Progress) :=
  walk Search.no_filter score_page.

(** ** The conversions

    Waiting for the packing backlog only delays. *)
Definition stored_pb : Search.RecordFilter := Search.mkFilter None None None None None None None false true.
Fixpoint reconvert_rows (order : list nat) (fate : Fate) (page : list Row) (p : Progress) (w : World)
  : World * option (result string Progress) :=
  match order with
  | [] => (w, Some (Ok p))
  | i :: order =>
    match page !! i with
    | None => (w, Some Panic)
    | Some row =>
      match row_pb row with
      | None => reconvert_rows order fate page p w
      | Some location =>
        match reads fate i (storage row), pb_reads fate i location with
        | Some stored, Some pb =>
          match Reconvert.majsoul_header from_str stored with
          | None => reconvert_rows order fate page (p <| unparsable ::= S |>) w
          | Some (uuid, metadata) =>
            match Reconvert.reconverted from_str to_string value_eqb gzip gunzip pb metadata stored uuid with
            | Panic => (w, Some (Err "task"))
            | Err _ => reconvert_rows order fate page (p <| unparsable ::= S |>) w
            | Ok fresh =>
              let '(t, r) := Ingest.reindex_one from_str to_string timestamp_ok (produce fate) (id row) (row_source row)
                               (row_received_at row) (row_played_at row) fresh (Some pb) (topic w) in
              match r with
              | Ok _ => reconvert_rows order fate page (p <| rewritten_ ::= S |>) (w <| topic := t |>)
              | Err _ => (w <| topic := t |>, Some (Err "produce"))
              | Panic => (w <| topic := t |>, Some Panic)
              end
            end
          end
        | _, _ => reconvert_rows order fate page (p <| unreadable ::= S |>) w
        end
      end
    end
  end.
Definition reconvert_page : Step := fun fate page p w =>
  match reconvert_rows (order fate (length page)) fate page p w with
  | (w, Some (Ok p)) => (w, Some (Ok (p <| scanned ::= fun n => (n + length page)%nat |>)))
  | r => r
  end.
Definition reconvert : list Fate -> option Search.Cursor -> Progress -> World -> World * option (result string Progress) :=
  walk stored_pb reconvert_page.

(** ** The passes

    [known] is what the marker reads as, [None] when it cannot be read. *)
Definition already_done (answers : bool) (name : string) (w : World) : option bool :=
  if answers then Some (bool_decide (name ∈ completed w)) else None.
Definition mark_done (r : reply) (name : string) (w : World) : World :=
  if took_effect r then w <| completed ::= fun s => {[name]} ∪ s |> else w.
Definition finish (name : string) (mark : reply) (out : World * option (result string Progress)) : World :=
  match out with
  | (w, Some (Ok p)) => if is_complete p then mark_done mark name w else w
  | (w, _) => w
  end.
Definition rewrite_record_metadata (answers : bool) (fates : list Fate) (mark : reply) (w : World) : World :=
  match already_done answers NAME w with
  | Some false => finish NAME mark (scan fates None no_progress w)
  | _ => w
  end.
Definition write_game_scoped_claims (answers : bool) (fates : list Fate) (mark : reply) (w : World) : World :=
  match already_done answers GAME_CLAIMS_NAME w with
  | Some false => finish GAME_CLAIMS_NAME mark (scan_game_claims fates None no_progress w)
  | _ => w
  end.
Definition score_indexed_records (answers : bool) (fates : list Fate) (mark : reply) (w : World) : World :=
  match already_done answers PLAYER_STATS_NAME w with
  | Some false => finish PLAYER_STATS_NAME mark (score fates None no_progress w)
  | _ => w
  end.
Definition reconvert_stored_records (answers : bool) (fates : list Fate) (mark : reply) (w : World) : World :=
  match already_done answers RECONVERT_NAME w with
  | Some false =>
    match reconvert fates None no_progress w with
    | (w, Some (Ok _)) => mark_done mark RECONVERT_NAME w
    | (w, _) => w
    end
  | _ => w
  end.
End Passes.
End Backfill.

Import Pack Kafka Indexer Search Backfill.

(** ** Rows read back *)
(** A row is read back when none of its sorting key comes after it. *)
Lemma final_split rows r : r ∈ final rows <-> exists a b, rows = a ++ r :: b /\ existsb (same_sorting_key r) b = false.
Proof.
  induction rows as [|x rows IH]; cbn [final].
  { split; [by intros ?%elem_of_nil|]. intros (a & b & H & _). by destruct a. }
  destruct (existsb (same_sorting_key x) rows) eqn:E.
  - rewrite IH. split.
    + intros (a & b & -> & H). by exists (x :: a), b.
    + intros ([|y a] & b & H & Hb); cbn in H; simplify_eq; [congruence|]. by exists a, b.
  - rewrite elem_of_cons, IH. split.
    + intros [->|(a & b & -> & H)]; [by exists [], rows|by exists (x :: a), b].
    + intros ([|y a] & b & H & Hb); cbn in H; simplify_eq; [by left|right; by exists a, b].
Qed.
Lemma final_app l k r : r ∈ final l -> existsb (same_sorting_key r) k = false -> r ∈ final (l ++ k).
Proof.
  rewrite !final_split. intros (a & b & -> & Hb) Hk. exists a, (b ++ k). rewrite <- app_assoc. split; [done|].
  by rewrite existsb_app, Hb, Hk.
Qed.
Lemma final_of_app l k r : r ∈ final (l ++ k) -> r ∈ k \/ r ∈ final l /\ existsb (same_sorting_key r) k = false.
Proof.
  rewrite !final_split. intros (a & b & H & Hb). apply app_eq_app in H as [m [[-> H]|[-> ->]]].
  - destruct m as [|x m]; cbn in H; simplify_eq; [left; by left|]. rewrite existsb_app in Hb. apply orb_false_iff in Hb as [H1 H2].
    right. split; [by exists a, m|done].
  - left. apply elem_of_app. right. by left.
Qed.
Lemma one_source_app l k : one_source (l ++ k) -> one_source l.
Proof. intros H a b Ha Hb. apply H; apply elem_of_app; by left. Qed.

(** ** The walk *)
Section Walk.
Context (uuid_ltb : Uuid -> Uuid -> bool) `{!StrictTotal uuid_ltb}.
Context (f : RecordFilter) (step : Step).
Abbreviation walk := (walk uuid_ltb f step).
(** What the pass does for a row, and what others keep. *)
Context (Q : Row -> World -> Prop) (G : Row -> Prop) (courteous : Fate -> Prop).
Hypothesis others_spec : forall fate w, courteous fate ->
  (exists k, index (others fate w) = index w ++ k /\ Forall G k) /\ forall r, Q r w -> Q r (others fate w).
Hypothesis step_spec : forall fate page p w w' p', courteous fate -> step fate page p w = (w', Some (Ok p')) ->
  (unreadable p <= unreadable p')%nat /\ (forall r, Q r w -> Q r w') /\
  exists k, index w' = index w ++ k /\ Forall G k /\
    (unreadable p' = unreadable p -> forall r, r ∈ page -> existsb (same_sorting_key r) k = false -> Q r w').

Lemma walk_spec fates : forall cursor p w w' p', Forall courteous fates ->
  walk fates cursor p w = (w', Some (Ok p')) -> one_source (index w') ->
  (unreadable p <= unreadable p')%nat /\ (forall r, Q r w -> Q r w') /\
  exists k, index w' = index w ++ k /\ Forall G k /\
    (unreadable p' = unreadable p -> forall r, in_page uuid_ltb f cursor (index w) r ->
       existsb (same_sorting_key r) k = false -> Q r w').
Proof.
  induction fates as [|fate fates IH]; intros cursor p w w' p' Hc; cbn [Backfill.walk] in *; [done|].
  apply Forall_cons in Hc as [Hc1 Hc]. unfold Search.scan in *. destruct (queried fate); [|done].
  destruct (others_spec fate w Hc1) as [(k1 & E1 & HG1) HQ1].
  destruct (page_spec uuid_ltb f cursor PAGE_SIZE (index w)) as [[_ E]|(r & _ & Hr & E)];
    [unfold PAGE_SIZE, u32_max; lia| |]; rewrite E in *;
    destruct (step fate _ p (others fate w)) as [w1 [[p1|e|]|]] eqn:Es; try done;
    destruct (step_spec _ _ _ _ _ _ Hc1 Es) as (Hu1 & Hk1 & k2 & E2 & HG2 & HQ2).
  - intros [= <- <-] H1. split; [done|]. split; [auto|]. exists (k1 ++ k2). rewrite E2, E1, app_assoc. split; [done|]. split; [by apply Forall_app|].
    intros Hu x Hx. rewrite existsb_app. intros [_ Hx2]%orb_false_iff. apply HQ2; [done| |done]. by apply selected_elem.
  - intros Hw H1. destruct (IH _ _ _ _ _ Hc Hw H1) as (Hu3 & Hk3 & k3 & E3 & HG3 & HQ3).
    assert (H1' : one_source (index w)) by (rewrite E3, E2, E1, <- !app_assoc in H1; by apply one_source_app in H1).
    split; [lia|]. split; [auto|]. exists (k1 ++ k2 ++ k3). rewrite E3, E2, E1, <- !app_assoc. split; [done|]. split; [by rewrite !Forall_app|].
    intros Hu x Hx. rewrite !existsb_app. intros [Hx1 [Hx2 Hx3]%orb_false_iff]%orb_false_iff.
    destruct (rest_below uuid_ltb f cursor (index w) _ r x H1' Hr Hx) as [Hin|Hnew].
    + apply Hk3, HQ2; [lia|done|done].
    + apply HQ3; [lia| |done]. destruct Hx as (Hf & Hm & _). split_and!; [|done|intros c [= <-]; exact Hnew].
      rewrite E2, E1. by apply final_app; [apply final_app|].
Qed.
End Walk.

(** The table of the passes is not touched before the end. *)
Lemma walk_completed uuid_ltb f (step : Step) fates : forall cursor p w,
  Forall (fun fate => forall w, completed (others fate w) = completed w) fates ->
  (forall fate page p w, completed (fst (step fate page p w)) = completed w) ->
  completed (fst (walk uuid_ltb f step fates cursor p w)) = completed w.
Proof.
  induction fates as [|fate fates IH]; intros cursor p w Hc Hs; cbn [Backfill.walk]; [done|].
  apply Forall_cons in Hc as [Hc1 Hc]. destruct (Search.scan _ _ _ _ _) as [[page next]|e|]; [|done..].
  pose proof (Hs fate page p (others fate w)) as H. rewrite Hc1 in H.
  destruct (step fate page p (others fate w)) as [w1 [[p1|e|]|]]; try exact H. destruct next; [|exact H].
  rewrite IH; [exact H|done|done].
Qed.
Lemma finish_completed name mark w o : name ∉ completed w -> name ∈ completed (finish name mark (w, o)) ->
  exists p, o = Some (Ok p) /\ unreadable p = 0%nat.
Proof.
  intros H. destruct o as [[p|e|]|]; [|done..]. unfold finish, is_complete. destruct (Nat.eqb_spec (unreadable p) 0); [eauto|done].
Qed.
Lemma finish_index name mark w o : index (finish name mark (w, o)) = index w.
Proof. destruct o as [[p|e|]|]; [|done..]. unfold finish. destruct (is_complete p); [|done]. by destruct mark. Qed.

(** A pass that wrote its marker read every row of the index it found. *)
Section Marked.
Context (uuid_ltb : Uuid -> Uuid -> bool) `{!StrictTotal uuid_ltb} (step : Step) (name : string).
Context (Q : Row -> World -> Prop) (G : Row -> Prop) (courteous : Fate -> Prop).
Hypothesis others_spec : forall fate w, courteous fate ->
  (exists k, index (others fate w) = index w ++ k /\ Forall G k) /\ completed (others fate w) = completed w /\
  forall r, Q r w -> Q r (others fate w).
Hypothesis step_completed : forall fate page p w, completed (fst (step fate page p w)) = completed w.
Hypothesis step_spec : forall fate page p w w' p', courteous fate -> step fate page p w = (w', Some (Ok p')) ->
  (unreadable p <= unreadable p')%nat /\ (forall r, Q r w -> Q r w') /\
  exists k, index w' = index w ++ k /\ Forall G k /\
    (unreadable p' = unreadable p -> forall r, r ∈ page -> existsb (same_sorting_key r) k = false -> Q r w').
Hypothesis mark_spec : forall r w s, Q r w -> Q r (w <| completed := s |>).

Lemma marked_spec fates mark w : Forall courteous fates -> name ∉ completed w ->
  let w' := finish name mark (walk uuid_ltb no_filter step fates None no_progress w) in
  one_source (index w') -> name ∈ completed w' ->
  exists k, index w' = index w ++ k /\ Forall G k /\
    forall r, r ∈ final (index w) -> existsb (same_sorting_key r) k = false -> Q r w'.
Proof.
  intros Hc Hn w' H1 Hd. unfold w' in *. clear w'.
  pose proof (walk_completed uuid_ltb no_filter step fates None no_progress w) as Hw.
  destruct (walk _ _ _ _ _ _ w) as [w1 o] eqn:E. rewrite finish_index in *. cbn [fst] in Hw.
  assert (Hw1 : completed w1 = completed w).
  { apply Hw; [|done]. eapply Forall_impl; [exact Hc|]. intros fate Hf v. by apply others_spec. }
  apply finish_completed in Hd as (p & -> & Hu); [|by rewrite Hw1].
  edestruct (walk_spec uuid_ltb no_filter step Q G courteous) as (_ & _ & k & Ek & Hk & Hin);
    [|exact step_spec|exact Hc|exact E|done|].
  - intros fate v Hf. by destruct (others_spec fate v Hf) as (? & _ & ?).
  - exists k. split_and!; [done..|]. intros r Hr Hx. unfold finish, is_complete, mark_done. rewrite Hu. cbn [Nat.eqb].
    pose proof (Hin Hu r) as H. destruct (took_effect mark); [|by apply H].
    apply (mark_spec r w1 ({[name]} ∪ completed w1)). by apply H.
Qed.
End Marked.
Lemma trunc_seconds n : trunc_millis (n * 1000000000) = n * 1000000000.
Proof. unfold trunc_millis. replace (n * 1000000000) with (n * 1000 * 1000000) by lia. rewrite Z.mod_mul by lia. lia. Qed.
Lemma stored_row_key r : row_key (stored_row r) = (timestamp_millis (trunc_millis (row_received_at r)), id r).
Proof. done. Qed.
Lemma trunc_key at_ : timestamp_millis (trunc_millis at_) = timestamp_millis at_.
Proof.
  unfold timestamp_millis, trunc_millis. pose proof (Z.div_mod at_ 1000000 ltac:(lia)) as H.
  replace (at_ - at_ mod 1000000) with (at_ / 1000000 * 1000000) by lia. by rewrite Z.div_mul.
Qed.

Section Facts.
Context (from_str : string -> json + string) (to_string : json -> string) (timestamp_ok : Z -> bool) (year_month : DateTime -> Seats.YearMonth).
Context (key_hash : string -> string) (uuid_ltb : Uuid -> Uuid -> bool) `{!StrictTotal uuid_ltb}.
(** The bytes a location holds; they never change. *)
Context (bytes : PackLocation -> list Z).
Abbreviation parse_metadata := (Mjai.parse_metadata from_str to_string timestamp_ok).
Definition honest (fate : Fate) : Prop :=
  (forall n, order fate n ≡ₚ seq 0 n) /\ forall i location raw, reads fate i location = Some raw -> raw = bytes location.
(** The row holds what the parser derives from its bytes, as far as the index can. *)
Definition current (r : Row) : Prop :=
  forall metadata, parse_metadata (bytes (storage r)) = Ok metadata ->
    match rewritten r metadata with None => True | Some r' => stored_row r' = r end.

Lemma rewritten_spec r metadata r' : rewritten r metadata = Some r' ->
  id r' = id r /\ row_source r' = row_source r /\ row_received_at r' = row_received_at r /\ storage r' = storage r /\
  row_pb r' = row_pb r /\ players r' = players r /\ event_count r' = event_count r /\ sha256 r' = sha256 r /\
  rule r' = match Mjai.rule metadata with Some r => Some r | None => rule r end /\
  row_played_at r' = match Mjai.played_at metadata with Some seconds => Some (seconds * 1000000000) | None => row_played_at r end.
Proof. unfold rewritten. case_bool_decide; [done|]. intros [= <-]. by cbn. Qed.
Lemma rewritten_key r metadata r' : rewritten r metadata = Some r' -> same_sorting_key r (stored_row r') = true.
Proof.
  intros H. apply rewritten_spec in H as (E1 & E2 & E3 & _). apply same_sorting_key_spec. split; [|done].
  rewrite stored_row_key, trunc_key, E1, E3. done.
Qed.
Lemma from_columns_again o c z pb : from_columns o c z = Some pb ->
  from_columns (pb_offset pb) (pb_compressed_size pb) (pb_raw_size pb) = Some pb.
Proof. unfold from_columns. destruct (_ && _) eqn:E; [|done]. intros [= <-]. cbn. by rewrite E. Qed.
Lemma stored_row_again r : stored_row (stored_row r) = stored_row r.
Proof.
  unfold stored_row. cbn. f_equal.
  - apply trunc_millis_idem.
  - destruct (row_played_at r); [|done]. cbn. by rewrite trunc_millis_idem.
  - by destruct (rule r) as [[]|].
  - lia.
  - destruct (row_pb r) as [pb|]; [|done]. destruct (from_columns _ _ _) eqn:E; [|done]. by eapply from_columns_again.
Qed.
Lemma stored_row_ext a b :
  id a = id b -> row_source a = row_source b -> sha256 a = sha256 b -> row_received_at a = row_received_at b ->
  trunc_millis <$> row_played_at a = trunc_millis <$> row_played_at b -> players a = players b ->
  match rule a with Some "" => None | other => other end = match rule b with Some "" => None | other => other end ->
  event_count a = event_count b -> storage a = storage b -> row_pb a = row_pb b -> stored_row a = stored_row b.
Proof. intros E1 E2 E3 E4 E5 E6 E7 E8 E9 E10. unfold stored_row. by rewrite E1, E2, E3, E4, E5, E6, E7, E8, E9, E10. Qed.
Lemma rewritten_current r metadata r' :
  parse_metadata (bytes (storage r)) = Ok metadata -> rewritten r metadata = Some r' -> current (stored_row r').
Proof.
  intros Hp H metadata' Hp'. destruct (rewritten_spec _ _ _ H) as (_ & _ & _ & Es & _ & _ & _ & _ & Er & Ep).
  cbn [storage stored_row] in Hp'. rewrite Es, Hp in Hp'. injection Hp' as <-.
  destruct (rewritten (stored_row r') metadata) as [r2|] eqn:E2; [|done].
  apply rewritten_spec in E2 as (F1 & F2 & F3 & F4 & F5 & F6 & F7 & F8 & F9 & F10).
  transitivity (stored_row (stored_row r')); [|apply stored_row_again]. apply stored_row_ext; try done.
  - rewrite F10. cbn [row_played_at stored_row]. rewrite Ep. destruct (Mjai.played_at metadata) as [n|]; [|done].
    cbn. by rewrite !trunc_seconds.
  - rewrite F9. cbn [rule stored_row]. rewrite Er. by destruct (Mjai.rule metadata) as [[]|], (rule r) as [[]|].
Qed.

(** *** The metadata *)
(** Others add rows that are current, and leave the tables of the passes. *)
Definition courteous (fate : Fate) : Prop :=
  honest fate /\ forall w, (exists k, index (others fate w) = index w ++ k /\ Forall current k) /\
    completed (others fate w) = completed w.
Abbreviation rewrite_rows := (rewrite_rows from_str to_string timestamp_ok).
Abbreviation metadata_page := (metadata_page from_str to_string timestamp_ok).

Lemma rewrite_rows_spec reads page : (forall i location raw, reads i location = Some raw -> raw = bytes location) ->
  forall i p batch p' batch', rewrite_rows i reads page p batch = Ok (p', batch') ->
  (unreadable p <= unreadable p')%nat /\ exists k, batch' = batch ++ k /\
    Forall (fun r' => current (stored_row r')) k /\
    (unreadable p' = unreadable p -> forall r metadata r', r ∈ page -> parse_metadata (bytes (storage r)) = Ok metadata ->
       rewritten r metadata = Some r' -> r' ∈ k).
Proof.
  intros Hr. induction page as [|row page IH]; intros i p batch p' batch'; cbn [Backfill.rewrite_rows].
  { intros [= <- <-]. split; [done|]. exists []. rewrite app_nil_r. split_and!; [done..|]. by intros _ r m r' ?%elem_of_nil. }
  destruct (reads i (storage row)) as [raw|] eqn:E.
  2:{ intros (Hu & k & -> & Hk & Hin)%IH. cbn in Hu. split; [lia|]. exists k. split_and!; [done..|]. lia. }
  apply Hr in E as ->. destruct (parse_metadata _) as [metadata|e|] eqn:E; [| |done].
  - intros (Hu & k & -> & Hk & Hin)%IH. split; [done|]. destruct (rewritten row metadata) as [r'|] eqn:Er.
    + exists (r' :: k). rewrite <- app_assoc. split_and!; [done|constructor; [by eapply rewritten_current|done]|].
      intros H r m r1 [->|Hr1]%elem_of_cons Hm H1; [|right; eauto].
      assert (r1 = r') as -> by congruence. left.
    + exists k. split_and!; [done..|]. intros H r m r1 [->|Hr1]%elem_of_cons Hm H1; [congruence|eauto].
  - intros (Hu & k & -> & Hk & Hin)%IH. split; [done|]. exists k. split_and!; [done..|].
    intros H r m r1 [->|Hr1]%elem_of_cons Hm H1; [congruence|eauto].
Qed.
Lemma existsb_key r l r' : same_sorting_key r r' = true -> r' ∈ l -> existsb (same_sorting_key r) l = true.
Proof. intros H Hr. apply existsb_exists. exists r'. by rewrite <- list_elem_of_In. Qed.
Lemma insert_batch_spec r records w w' : insert_batch r records w = (w', true) ->
  w' = w <| index ::= fun l => l ++ map stored_row records |>.
Proof.
  unfold insert_batch. destruct records as [|row records].
  - intros [= <-]. destruct w. unfold set_field; cbn. by rewrite app_nil_r.
  - destruct r; cbn; [|done..]. by intros [= <-].
Qed.
Lemma metadata_page_spec fate page p w w' p' : courteous fate -> metadata_page fate page p w = (w', Some (Ok p')) ->
  (unreadable p <= unreadable p')%nat /\
  exists k, index w' = index w ++ k /\ Forall current k /\
    (unreadable p' = unreadable p -> forall r, r ∈ page -> existsb (same_sorting_key r) k = false ->
       forall metadata, parse_metadata (bytes (storage r)) = Ok metadata -> rewritten r metadata = None).
Proof.
  intros [[_ Hr] _]. unfold Backfill.metadata_page.
  destruct (rewrite_rows 0 (reads fate) page p []) as [[p1 batch]|e|] eqn:E; [|done..].
  apply (rewrite_rows_spec _ _ Hr) in E as (Hu & k & -> & Hk & Hin). cbn [app].
  destruct (insert_batch (wrote fate) k w) as [w1 [|]] eqn:Ei; [|done]. apply insert_batch_spec in Ei as ->.
  intros [= <- <-]. split; [done|]. exists (map stored_row k). split; [done|]. split; [by apply Forall_map|].
  intros H r Hr1 Hx metadata Hm. destruct (rewritten r metadata) as [r'|] eqn:Er; [|done]. exfalso.
  rewrite (existsb_key r _ (stored_row r')) in Hx; [done|by eapply rewritten_key|].
  apply list_elem_of_fmap. eauto.
Qed.

Abbreviation rewrite_record_metadata := (rewrite_record_metadata from_str to_string timestamp_ok uuid_ltb).
Lemma metadata_page_completed fate page p w : completed (fst (metadata_page fate page p w)) = completed w.
Proof.
  unfold Backfill.metadata_page. destruct (rewrite_rows _ _ _ _ _) as [[p1 batch]|e|]; [|done..].
  unfold insert_batch. destruct batch; [done|]. by destruct (wrote fate).
Qed.
(** Once the marker is written, the parser derives nothing newer for any row of
    the index, and no row has gone. *)
Theorem marked_index_is_current answers fates mark w : Forall courteous fates -> NAME ∉ completed w ->
  let w' := rewrite_record_metadata answers fates mark w in
  one_source (index w') -> NAME ∈ completed w' ->
  (forall r, r ∈ final (index w') -> forall metadata, parse_metadata (bytes (storage r)) = Ok metadata ->
     rewritten r metadata = None \/ exists r', rewritten r metadata = Some r' /\ stored_row r' = r) /\
  forall r, r ∈ index w -> exists r', r' ∈ final (index w') /\ row_key r' = row_key r /\ row_source r' = row_source r.
Proof.
  intros Hc Hn w' H1 Hd. unfold w', Backfill.rewrite_record_metadata, already_done in *. clear w'.
  destruct answers; [|done]. rewrite bool_decide_eq_false_2 in * by done. unfold scan in *.
  edestruct (marked_spec uuid_ltb metadata_page NAME
    (fun r _ => forall metadata, parse_metadata (bytes (storage r)) = Ok metadata -> rewritten r metadata = None) current courteous)
    as (k & Ek & Hk & Hin); [| | | |exact Hc|exact Hn|exact H1|exact Hd|].
  - intros fate v Hf. by destruct (proj2 Hf v).
  - intros. apply metadata_page_completed.
  - intros fate page p0 v v' p' Hf Hs. destruct (metadata_page_spec _ _ _ _ _ _ Hf Hs) as (? & k & ? & ? & ?).
    split; [done|]. split; [done|]. by exists k.
  - done.
  - split.
    + intros r Hr metadata Hm. rewrite Ek in Hr. apply final_of_app in Hr as [Hr|[Hr Hx]].
      * rewrite Forall_forall in Hk. specialize (Hk r Hr metadata Hm). destruct (rewritten r metadata); eauto.
      * left. by eapply Hin.
    + intros r Hr. apply final_key. rewrite Ek. apply elem_of_app. by left.
Qed.

(** *** The claims *)
(** Others add rows, and free no permanent claim. *)
Definition claims_courteous (fate : Fate) : Prop :=
  honest fate /\ forall w, (exists k, index (others fate w) = index w ++ k) /\ completed (others fate w) = completed w /\
    forall h row, claims w !! h = Some row -> Ingest.permanent row ->
      exists row', claims (others fate w) !! h = Some row' /\ Ingest.permanent row'.
Definition has_claim (uuid : string) (claims : Ingest.Claims) : Prop :=
  exists row, claims !! key_hash (Ingest.game_scope_key uuid) = Some row /\ Ingest.permanent row.
Abbreviation claim_rows := (claim_rows from_str to_string timestamp_ok).
Abbreviation claims_page := (claims_page from_str to_string timestamp_ok key_hash).

Lemma claim_rows_spec reads page : (forall i location raw, reads i location = Some raw -> raw = bytes location) ->
  forall order p seen l p' l', claim_rows order reads page p seen l = Ok (p', l') ->
  (unreadable p <= unreadable p')%nat /\ exists k, l' = l ++ k /\
    (unreadable p' = unreadable p -> forall i row metadata uuid, i ∈ order -> page !! i = Some row ->
       parse_metadata (bytes (storage row)) = Ok metadata -> Mjai.majsoul_uuid metadata = Some uuid ->
       Ingest.game_scope_key uuid ∈ seen \/ exists id sha, (Ingest.game_scope_key uuid, id, sha) ∈ k).
Proof.
  intros Hr o. induction o as [|i o IH]; intros p seen l p' l'; cbn [Backfill.claim_rows].
  { intros [= <- <-]. split; [done|]. exists []. rewrite app_nil_r. split; [done|]. by intros _ i r m u ?%elem_of_nil. }
  destruct (page !! i) as [row|] eqn:Ei; [|done]. destruct (reads i (storage row)) as [raw|] eqn:E.
  2:{ intros (Hu & k & -> & Hin)%IH. cbn in Hu. split; [lia|]. exists k. split; [done|]. lia. }
  apply Hr in E as ->. destruct (parse_metadata _) as [metadata|e|] eqn:E; [| |done].
  - destruct (Mjai.majsoul_uuid metadata) as [uuid|] eqn:Eu; [case_decide as Hs|].
    + intros (Hu & k & -> & Hin)%IH. split; [done|]. exists k. split; [done|].
      intros H j r m u [->|Hj]%elem_of_cons Hp Hm H1; [left|eauto]. by assert (u = uuid) as -> by congruence.
    + intros (Hu & k & -> & Hin)%IH. split; [done|]. exists ((Ingest.game_scope_key uuid, id row, sha256 row) :: k).
      rewrite <- app_assoc. split; [done|]. intros H j r m u [->|Hj]%elem_of_cons Hp Hm H1.
      * assert (u = uuid) as -> by congruence. right. do 2 eexists. left.
      * destruct (Hin H j r m u Hj Hp Hm H1) as [[Hs1%elem_of_singleton|?]%elem_of_union|(x & sha & ?)]; [right|by left|right].
        -- rewrite Hs1. do 2 eexists. left.
        -- exists x, sha. by right.
    + intros (Hu & k & -> & Hin)%IH. split; [done|]. exists k. split; [done|].
      intros H j r m u [->|Hj]%elem_of_cons Hp Hm H1; [congruence|eauto].
  - intros (Hu & k & -> & Hin)%IH. split; [done|]. exists k. split; [done|].
    intros H j r m u [->|Hj]%elem_of_cons Hp Hm H1; [congruence|eauto].
Qed.
Lemma honest_order fate (page : list Row) r : honest fate -> r ∈ page ->
  exists i, i ∈ order fate (length page) /\ page !! i = Some r.
Proof.
  intros [Ho _] [i Hi]%list_elem_of_lookup_1. exists i. split; [|done]. rewrite (Ho _), elem_of_seq.
  apply lookup_lt_Some in Hi. lia.
Qed.
Lemma claims_page_spec fate page p w w' p' : honest fate -> claims_page fate page p w = (w', Some (Ok p')) ->
  (unreadable p <= unreadable p')%nat /\ (forall uuid, has_claim uuid (claims w) -> has_claim uuid (claims w')) /\
  index w' = index w /\ (unreadable p' = unreadable p -> forall r metadata uuid, r ∈ page ->
     parse_metadata (bytes (storage r)) = Ok metadata -> Mjai.majsoul_uuid metadata = Some uuid -> has_claim uuid (claims w')).
Proof.
  intros Hf. pose proof (proj2 Hf) as Hr. unfold Backfill.claims_page.
  destruct (claim_rows _ _ page p ∅ []) as [[p1 l]|e|] eqn:E; [|done..].
  apply (claim_rows_spec _ _ Hr) in E as (Hu & k & -> & Hin). cbn [app].
  destruct (adopt_game_claims key_hash (wrote fate) (now fate) k w) as [w1 [|]] eqn:Ei; [|done].
  assert (index w1 = index w /\ claims w1 = Ingest.adopt_game_claims key_hash (now fate) k (claims w)) as [E1 E2].
  { unfold adopt_game_claims in Ei. destruct k; [by injection Ei as <-|]. by destruct (wrote fate); injection Ei as <-. }
  intros [= <- <-]. split; [done|]. split_and!; [|done|].
  - intros uuid (row & Hrow & Hp). rewrite E2. destruct (Ingest.adopt_keeps key_hash (now fate) k _ _ _ Hrow) as (row' & ? & _ & ?).
    exists row'. auto.
  - intros H r metadata uuid Hin1 Hm Hu1. destruct (honest_order _ _ _ Hf Hin1) as (i & Hi & Hp). rewrite E2.
    destruct (Hin H i r metadata uuid Hi Hp Hm Hu1) as [Hs|(x & sha & Hk)]; [by apply not_elem_of_empty in Hs|].
    by eapply Ingest.adopt_claims.
Qed.
Lemma claims_page_completed fate page p w : completed (fst (claims_page fate page p w)) = completed w.
Proof.
  unfold Backfill.claims_page. destruct (claim_rows _ _ _ _ _ _) as [[p1 l]|e|]; [|done..].
  unfold adopt_game_claims. destruct l; [done|]. by destruct (wrote fate).
Qed.

(** C22: The pass over the claims, if rows of one record and one instant come from
    one source, the bytes read back are those stored, and what others do meanwhile
    only adds rows, does not set the marker and takes no permanent claim back (the
    release of an ingest that failed, Ingest.abandon_claim, can): once the marker
    is written, every row of the index that the pass found, was not written again
    meanwhile, and can be parsed and names a game, has a permanent claim on that
    game, which no [prune] frees. *)
Theorem marked_games_keep_their_claims answers fates mark w : Forall claims_courteous fates -> GAME_CLAIMS_NAME ∉ completed w ->
  let w' := write_game_scoped_claims from_str to_string timestamp_ok key_hash uuid_ltb answers fates mark w in
  one_source (index w') -> GAME_CLAIMS_NAME ∈ completed w' ->
  exists k, index w' = index w ++ k /\
    forall r metadata uuid, r ∈ final (index w) -> existsb (same_sorting_key r) k = false ->
      parse_metadata (bytes (storage r)) = Ok metadata -> Mjai.majsoul_uuid metadata = Some uuid ->
      forall at_, exists row, Ingest.prune at_ (claims w') !! key_hash (Ingest.game_scope_key uuid) = Some row.
Proof.
  intros Hc Hn w' H1 Hd. unfold w', write_game_scoped_claims, already_done in *. clear w'.
  destruct answers; [|done]. rewrite bool_decide_eq_false_2 in * by done. unfold scan_game_claims in *.
  edestruct (marked_spec uuid_ltb claims_page GAME_CLAIMS_NAME
    (fun r w => forall metadata uuid, parse_metadata (bytes (storage r)) = Ok metadata -> Mjai.majsoul_uuid metadata = Some uuid ->
       has_claim uuid (claims w)) (fun _ => True) claims_courteous)
    as (k & Ek & _ & Hin); [| | | |exact Hc|exact Hn|exact H1|exact Hd|].
  - intros fate v Hf. destruct (proj2 Hf v) as ((k & Hk) & ? & Hh). split; [|split; [done|]].
    + exists k. split; [done|]. by apply Forall_true.
    + intros r Hq m u Hm Hu. destruct (Hq m u Hm Hu) as (row & Hrow & Hp). by apply (Hh _ row).
  - intros. apply claims_page_completed.
  - intros fate page p v v' p' Hf Hs. destruct (claims_page_spec _ _ _ _ _ _ (proj1 Hf) Hs) as (? & Hk & Hi & Hin).
    split; [done|]. split; [intros r Hq m u ? ?; eauto|]. exists []. rewrite Hi, app_nil_r. split_and!; [done|constructor|].
    intros Hz r Hr _ m u. by apply Hin.
  - done.
  - exists k. split; [done|]. intros r m u Hr Hx Hm Hu at_. destruct (Hin r Hr Hx m u Hm Hu) as (row & Hrow & Hp).
    exists row. by apply Ingest.prune_permanent.
Qed.

(** *** The scores *)
(** Others add rows, and take no score away. *)
Definition scores_courteous (fate : Fate) : Prop :=
  honest fate /\ forall w, (exists k, index (others fate w) = index w ++ k) /\ completed (others fate w) = completed w /\
    player_games w ⊆ player_games (others fate w).
Definition is_scored (r : Row) (games : list PlayerGame) : Prop :=
  forall events scored, Mjai.events from_str (bytes (storage r)) = Ok events -> Replay.replay events = Ok (Some scored) ->
    player_games_of r scored ⊆ games.
Abbreviation score_rows := (score_rows from_str).
Abbreviation score_page := (score_page from_str year_month).

Lemma score_rows_spec reads page : (forall i location raw, reads i location = Some raw -> raw = bytes location) ->
  forall order p games p' games', score_rows order reads page p games = Ok (p', games') ->
  (unreadable p <= unreadable p')%nat /\ games ⊆ games' /\
  (unreadable p' = unreadable p -> forall i row, i ∈ order -> page !! i = Some row -> is_scored row games').
Proof.
  intros Hr o. induction o as [|i o IH]; intros p games p' games'; cbn [Backfill.score_rows].
  { intros [= <- <-]. split_and!; [done..|]. by intros _ i r ?%elem_of_nil. }
  destruct (page !! i) as [row|] eqn:Ei; [|done]. destruct (reads i (storage row)) as [raw|] eqn:E.
  2:{ intros (Hu & Hk & Hin)%IH. cbn in Hu. split; [lia|]. split; [done|]. lia. }
  apply Hr in E as ->. destruct (Mjai.events _ _) as [events|e|] eqn:E; [destruct (Replay.replay events) as [[scored|]|e|] eqn:Es| |]; try done;
    intros (Hu & Hk & Hin)%IH; (split; [done|]).
  - split; [by intros g Hg; apply Hk, elem_of_app; left|]. intros H j r [->|Hj]%elem_of_cons Hp; [|eauto].
    intros ev sc H1 H2 g Hg. assert (r = row) as -> by congruence. assert (sc = scored) as -> by congruence.
    apply Hk, elem_of_app. by right.
  - split; [done|]. intros H j r [->|Hj]%elem_of_cons Hp; [|eauto]. intros ev sc H1 H2. congruence.
  - split; [done|]. intros H j r [->|Hj]%elem_of_cons Hp; [|eauto]. intros ev sc H1 H2. congruence.
Qed.
Lemma score_page_spec fate page p w w' p' : honest fate -> score_page fate page p w = (w', Some (Ok p')) ->
  (unreadable p <= unreadable p')%nat /\ player_games w ⊆ player_games w' /\ index w' = index w /\
  (unreadable p' = unreadable p -> forall r, r ∈ page -> is_scored r (player_games w')).
Proof.
  intros Hf. unfold Backfill.score_page. destruct (score_rows _ _ page p []) as [[p1 games]|e|] eqn:E; [|done..].
  apply (score_rows_spec _ _ (proj2 Hf)) in E as (Hu & _ & Hin).
  destruct (Seats.insert_player_games _ _ _ _) as [table [|]] eqn:Ei; [|done]. apply Seats.insert_player_games_spec in Ei as [H1 H2].
  intros [= <- <-]. cbn. split_and!; [done..|]. intros Hz r Hr. destruct (honest_order _ _ _ Hf Hr) as (i & Hi & Hp).
  intros ev sc E1 E2 g Hg. apply H2; [done|]. by apply (Hin Hz i r Hi Hp ev sc E1 E2).
Qed.
Lemma score_page_completed fate page p w : completed (fst (score_page fate page p w)) = completed w.
Proof.
  unfold Backfill.score_page. destruct (score_rows _ _ _ _ _) as [[p1 l]|e|]; [|done..].
  by destruct (Seats.insert_player_games _ _ _ _) as [table [|]].
Qed.

(** Once the marker is written, every row the pass found that replays is scored,
    for every named seat. *)
Theorem marked_records_are_scored answers fates mark w : Forall scores_courteous fates -> PLAYER_STATS_NAME ∉ completed w ->
  let w' := score_indexed_records from_str year_month uuid_ltb answers fates mark w in
  one_source (index w') -> PLAYER_STATS_NAME ∈ completed w' ->
  exists k, index w' = index w ++ k /\
    forall r, r ∈ final (index w) -> existsb (same_sorting_key r) k = false -> is_scored r (player_games w').
Proof.
  intros Hc Hn w' H1 Hd. unfold w', score_indexed_records, already_done in *. clear w'.
  destruct answers; [|done]. rewrite bool_decide_eq_false_2 in * by done. unfold score in *.
  edestruct (marked_spec uuid_ltb score_page PLAYER_STATS_NAME (fun r w => is_scored r (player_games w)) (fun _ => True) scores_courteous)
    as (k & Ek & _ & Hin); [| | | |exact Hc|exact Hn|exact H1|exact Hd|].
  - intros fate v Hf. destruct (proj2 Hf v) as ((k & Hk) & ? & Hh). split; [|split; [done|]].
    + exists k. split; [done|]. by apply Forall_true.
    + intros r Hq ev sc E1 E2 g Hg. by apply Hh, (Hq ev sc E1 E2).
  - intros. apply score_page_completed.
  - intros fate page p v v' p' Hf Hs. destruct (score_page_spec _ _ _ _ _ _ (proj1 Hf) Hs) as (? & Hk & Hi & Hin).
    split; [done|]. split; [intros r Hq ev sc E1 E2 g Hg; by apply Hk, (Hq ev sc E1 E2)|].
    exists []. rewrite Hi, app_nil_r. split_and!; [done|constructor|]. intros Hz r Hr _. by apply Hin.
  - done.
  - exists k. split; [done|]. exact Hin.
Qed.
End Facts.

(** ** Witnesses: a record whose mode and start the old parser lost, and one that
    does not parse. *)
Import Reconvert.
Definition toy_bytes (l : PackLocation) : list Z :=
  if offset l <? 3 then Convert.ndjson toy_print toy_stream else if offset l =? 4 then Convert.ndjson toy_print toy_torn else [].
Definition toy_fate (others : World -> World) : Fate :=
  mkFate true (fun _ l => Some (toy_bytes l)) (fun _ _ => Some toy_pb) (seq 0) others Done (fun _ => Done) 0
    (fun _ t => (t ++ [[]], Ok ())).
Definition toy_w (rows : list Row) : World := mkWorld rows ∅ [] [] ∅.
Definition toy_metadata (fates : list Fate) (rows : list Row) : World :=
  rewrite_record_metadata toy_from_str toy_print (fun _ => true) toy_ltb true fates Done (toy_w rows).
Definition toy_view (w : World) : list (Z * option string * bool) * bool :=
  (map (fun r => (offset (storage r), rule r, bool_decide (row_pb r = None))) (final (index w)), bool_decide (NAME ∈ completed w)).
Example metadata_is_rewritten :
  toy_view (toy_metadata [toy_fate (fun w => w)] [toy_row 1 5 None; toy_row 3 4 None])
  = ([(3, None, true); (1, Some "2p-jade-south", true)], true).
Proof. vm_compute. reflexivity. Qed.
(** A record fetched again and indexed while its page is read loses the new
    place of its bytes, and its protobuf. *)
Definition toy_refetched : Row := mkRow (replicate 16 1) "live" "" 5000000 None ["a"] (Some "2p-jade-south") 1 (mkLocation "q" 2 1 1) (Some (mkPb 9 1 1)).
Example refetched_row_is_undone :
  toy_view (toy_metadata [] [toy_row 1 5 None; toy_refetched]) = ([(2, Some "2p-jade-south", false)], false) /\
  toy_view (toy_metadata [toy_fate (fun w => w <| index ::= fun l => l ++ [toy_refetched] |>)] [toy_row 1 5 None])
  = ([(1, Some "2p-jade-south", true)], true).
Proof. vm_compute. repeat split. Qed.
(** An empty rule is written at every run. *)
Example empty_rule_is_rewritten_again :
  let metadata := Mjai.mkMeta [] (Some "") 1 None None in
  option_map (fun r => rewritten (stored_row r) metadata) (rewritten (toy_row 1 5 None) metadata)
  = Some (rewritten (toy_row 1 5 None) metadata).
Proof. vm_compute. reflexivity. Qed.
(** The conversions are marked done although no record was read; and a record
    whose conversion is longer than its stream ends the pass on every start. *)
Definition toy_reconvert (fate : Fate) (rows : list Row) : World :=
  reconvert_stored_records toy_from_str toy_print toy_eqb (fun l => l) inl (fun _ => true) toy_ltb true [fate] Done (toy_w rows).
Definition toy_blind : Fate := mkFate true (fun _ _ => None) (fun _ _ => None) (seq 0) (fun w => w) Done (fun _ => Done) 0 (fun m t => (t, Ok ())).
Definition toy_pb_row (i at_ : Z) : Row := toy_row i at_ (Some (mkPb 9 1 1)).
Example unread_conversions_are_marked : completed (toy_reconvert toy_blind [toy_pb_row 1 5]) = {[RECONVERT_NAME]}.
Proof. vm_compute. reflexivity. Qed.
Example torn_record_ends_the_pass :
  let done rows := let w := toy_reconvert (toy_fate (fun w => w)) rows in (length (topic w), bool_decide (RECONVERT_NAME ∈ completed w)) in
  done [toy_pb_row 1 4] = (1%nat, true) /\ done [toy_pb_row 4 5; toy_pb_row 1 4] = (0%nat, false).
Proof. vm_compute. repeat split. Qed.

Lemma toy_reads_bytes : honest toy_bytes (toy_fate (fun w => w)).
Proof. split; [done|]. intros i l raw [= <-]. done. Qed.
Definition toy_stale : list Row := [toy_row 1 5 None; toy_row 3 4 None].
Lemma toy_live rows : forallb (fun r => String.eqb (row_source r) "live") rows = true -> one_source rows.
Proof.
  intros H a b Ha Hb _. rewrite forallb_forall in H. apply list_elem_of_In in Ha, Hb.
  apply H, String.eqb_eq in Ha. apply H, String.eqb_eq in Hb. congruence.
Qed.
Definition toy_done : World := toy_metadata [toy_fate (fun w => w)] toy_stale.
Lemma marked_index_is_current_witness :
  (NAME ∈ completed toy_done) /\
  forall r, r ∈ final (index toy_done) -> forall metadata,
    Mjai.parse_metadata toy_from_str toy_print (fun _ => true) (toy_bytes (storage r)) = Ok metadata ->
    rewritten r metadata = None \/ exists r', rewritten r metadata = Some r' /\ stored_row r' = r.
Proof.
  assert (Hd : NAME ∈ completed toy_done) by (refine (bool_decide_eq_true_1 _ _); vm_compute; reflexivity).
  split; [exact Hd|].
  apply (marked_index_is_current toy_from_str toy_print (fun _ => true) toy_ltb toy_bytes true [toy_fate (fun w => w)] Done (toy_w toy_stale)).
  - constructor; [|constructor]. split; [apply toy_reads_bytes|]. intros w. split; [|reflexivity].
    exists []. split; [symmetry; apply app_nil_r|constructor].
  - apply not_elem_of_empty.
  - apply toy_live. vm_compute. reflexivity.
  - exact Hd.
Defined.
Lemma marked_games_keep_their_claims_witness :
  exists row, Ingest.prune 9 (claims (write_game_scoped_claims toy_from_str toy_print (fun _ => true) (fun k => k) toy_ltb true
    [toy_fate (fun w => w)] Done (toy_w toy_stale))) !! Ingest.game_scope_key "241231-0001" = Some row.
Proof.
  destruct (marked_games_keep_their_claims toy_from_str toy_print (fun _ => true) (fun k => k) toy_ltb toy_bytes true
    [toy_fate (fun w => w)] Done (toy_w toy_stale)) as (k & Ek & H).
  - constructor; [|constructor]. split; [apply toy_reads_bytes|]. intros w. split_and!; [|reflexivity|].
    + exists []. symmetry. apply app_nil_r.
    + intros h row Hr Hp. exists row. split; [exact Hr|exact Hp].
  - apply not_elem_of_empty.
  - apply toy_live. vm_compute. reflexivity.
  - refine (bool_decide_eq_true_1 _ _). vm_compute. reflexivity.
  - assert (k = []) as ->.
    { apply (app_inv_head toy_stale). rewrite app_nil_r. etransitivity; [symmetry; exact Ek|]. vm_compute. reflexivity. }
    refine (H (toy_row 1 5 None) _ "241231-0001" _ _ _ _ 9);
      [apply list_elem_of_In; vm_compute; left; reflexivity|reflexivity|vm_compute; reflexivity|reflexivity].
Defined.
Lemma marked_records_are_scored_witness :
  is_scored toy_from_str toy_bytes (toy_row 1 5 None) (player_games (score_indexed_records toy_from_str toy_months toy_ltb true
    [toy_fate (fun w => w)] Done (toy_w toy_stale))).
Proof.
  destruct (marked_records_are_scored toy_from_str toy_months toy_ltb toy_bytes true
    [toy_fate (fun w => w)] Done (toy_w toy_stale)) as (k & Ek & H).
  - constructor; [|constructor]. split; [apply toy_reads_bytes|]. intros w. split_and!; [|reflexivity|].
    + exists []. symmetry. apply app_nil_r.
    + intros g Hg. exact Hg.
  - apply not_elem_of_empty.
  - apply toy_live. vm_compute. reflexivity.
  - refine (bool_decide_eq_true_1 _ _). vm_compute. reflexivity.
  - assert (k = []) as ->.
    { apply (app_inv_head toy_stale). rewrite app_nil_r. etransitivity; [symmetry; exact Ek|]. vm_compute. reflexivity. }
    apply H; [apply list_elem_of_In; vm_compute; left; reflexivity|reflexivity].
Defined.
