(* ===== verification/Repair.v ===== *)
(** The repair of the records without a protobuf: [one_pass] of
    [src/src/refetch_service.rs] over the listing of [src/src/catalog.rs], and the
    run that repeats it, with what it says when it stops. *)
From S2P Require Import Prelude Text Json Convert Mjai Pack Kafka Ingest Indexer Refetch Reconvert Search Sweep Backfill.
#[local] Open Scope string_scope.
#[local] Open Scope list_scope.
#[local] Open Scope Z_scope.

Module Repair.
Import Pack Kafka Indexer Reconvert.
#[local] Existing Instance Sweep.Progress_settable.

(** ** What a run opens with *)
Definition count_missing_pb (rows : list Row) : Z := zlen (List.filter Search.no_pb (Search.final rows)).
(** [counted] are the rows as the count finds them, [None] when it cannot be read. *)
Definition announce_missing_pb (counted : option (list Row)) (backlog : option Z) : option Z * option string :=
  match counted with
  | Some rows => let n := count_missing_pb rows in (Some n, if n =? 0 then Some "没有需要补抓的记录" else None)
  | None => (backlog, None)
  end.
(** The marker of the claims, the size of the list, the bookmark and the rows after
    it, as the databases answer. *)
Definition announce_known_games (marked : option bool) (games : option Z) (resuming : option (option Sweep.SweepPosition))
  (ahead : option Sweep.SweepPosition -> option Z) (backlog : option Z) : option Z * result string (option string) :=
  match marked with
  | None => (backlog, Err "catalog")
  | Some false => (backlog, Err "对局幂等认领回填还没跑完，现在按牌谱屋缺口补抓会把已有的对局再存一份且无法合并；等这次启动的回填结束后再启动（日志里搜「对局幂等认领」）")
  | Some true =>
    match games with
    | None => (backlog, Err "catalog")
    | Some games =>
      if games =? 0 then (backlog, Ok (Some "对局 uuid 清单是空的，没有可抓的对局；用 majsoul2mjai 枚举出完整 uuid 后导入 mjai.game_uuids 再来"))
      else match resuming with
           | None => (backlog, Err "catalog")
           | Some from => (match ahead from with Some n => Some n | None => backlog end, Ok None)
           end
    end
  end.

(** ** One pass *)
Definition missing_pb : Search.RecordFilter := Search.mkFilter None None None None None None None true false.
(** A record in the air, and one that came back. *)
Inductive Task := Running (row : Row) | Came (row : Row) (r : result unit Outcome).
(** The stream of the rows, the records in the air, the counters; the index and the
    topic, which others write to as well; and, of the past, what each record that
    was counted came back with. *)
Record Pass := mkPass {
  next_cursor : option (option Search.Cursor); buffered : list Row; exhausted : bool; air : list Task;
  scanned : Z; replaced : Z; progress : Sweep.Progress; index : list Row; topic : Topic; counted : list (Row * Outcome)
}.
#[export] Instance Pass_settable : Settable Pass := fun p =>
  mkPass (next_cursor p) (buffered p) (exhausted p) (air p) (scanned p) (replaced p) (progress p) (index p) (topic p) (counted p).
Definition start (rows : list Row) (t : Topic) (p : Sweep.Progress) : Pass :=
  mkPass (Some None) [] false [] 0 0 p rows t [].
Definition interrupted (p : Pass) : Sweep.PassOutcome := Sweep.mkOutcome (scanned p) (replaced p) false.
Definition finished (p : Pass) : Sweep.PassOutcome := Sweep.mkOutcome (scanned p) (replaced p) true.
Inductive Event :=
(* the stream is asked for its next row *)
| Pull (superseded queried : bool)
(* a record in the air is worked: what the pack, the broker and the topic answer *)
| Worked (i : nat) (raw : option (list Z)) (fetched : string -> Refetch.FetchResult) (sessions : Z)
    (produce : IngestMessage -> Topic -> Topic * result KafkaError ())
(* its outcome is counted *)
| Landed (i : nat) (superseded : bool)
| Over
(* rows others insert, and the topic after what they produced *)
| Others (k : list Row) (t : Topic).
Inductive Next := Going (p : Pass) | Ended (p : Pass) (r : result unit Sweep.PassOutcome).

Section Pass_.
Variable from_str : string -> json + string.
Variable to_string : json -> string.
Variable value_eqb : json -> json -> bool.
Variable gzip : list Z -> list Z.
Variable gunzip : list Z -> list Z + string.
Variable timestamp_ok : Z -> bool.
Variable uuid_ltb : Uuid -> Uuid -> bool.
Variable in_flight : nat.

Definition pull (superseded queried : bool) (p : Pass) : Next :=
  match buffered p with
  | row :: rows => Going (p <| buffered := rows |> <| air := air p ++ [Running row] |>)
  | [] =>
    match next_cursor p with
    | None => Going (p <| exhausted := true |>)
    | Some cursor =>
      match Search.scan uuid_ltb missing_pb cursor (Z.of_nat Sweep.PAGE_SIZE) (if queried then Some (index p) else None) with
      | Ok (page, next) => Going (p <| next_cursor := Some <$> next |> <| buffered := page |>)
      | Err _ => Ended p (if superseded then Ok (interrupted p) else Err tt)
      | Panic => Ended p Panic
      end
    end
  end.
Definition reindex (produce : IngestMessage -> Topic -> Topic * result KafkaError ()) (row : Row) (mjai pb : list Z) : Topic -> Topic * result Ingest.IngestError () :=
  Ingest.reindex_one from_str to_string timestamp_ok produce (id row) (row_source row) (row_received_at row) (row_played_at row) mjai (Some pb).
Definition work (i : nat) (row : Row) (raw : option (list Z)) (fetched : string -> Refetch.FetchResult) (sessions : Z)
  (produce : IngestMessage -> Topic -> Topic * result KafkaError ()) (p : Pass) : Next :=
  let '(t, r) := one_record from_str to_string value_eqb gzip gunzip (reindex produce row) raw fetched sessions (topic p) in
  let p := p <| topic := t |> in
  match r with
  | Panic => Ended p Panic
  | r => Going (p <| air := <[i := Came row r]> (air p) |>)
  end.
Definition land (i : nat) (row : Row) (r : result unit Outcome) (superseded : bool) (p : Pass) : Next :=
  if superseded then Ended p (Ok (interrupted p))
  else match r with
  | Ok o =>
    Going (p <| air := delete i (air p) |> <| scanned ::= fun n => Prelude.as_u64 (n + 1) |>
             <| replaced ::= fun n => if Sweep.is_replaced o then Prelude.as_u64 (n + 1) else n |>
             <| progress ::= fun q => (Sweep.count_outcome o q) <| Sweep.p_scanned ::= fun n => Prelude.as_u64 (n + 1) |> |>
             <| counted ::= fun l => l ++ [(row, o)] |>)
  | Err e => Ended p (Err e)
  | Panic => Ended p Panic
  end.
Definition step (e : Event) (p : Pass) : option Next :=
  match e with
  | Pull superseded queried =>
    if negb (exhausted p) && Nat.ltb (length (air p)) in_flight then Some (pull superseded queried p) else None
  | Worked i raw fetched sessions produce =>
    match air p !! i with Some (Running row) => Some (work i row raw fetched sessions produce p) | _ => None end
  | Landed i superseded => match air p !! i with Some (Came row r) => Some (land i row r superseded p) | _ => None end
  | Over => if exhausted p && Nat.eqb (length (air p)) 0 then Some (Ended p (Ok (finished p))) else None
  | Others k t => Some (Going (p <| index := index p ++ k |> <| topic := t |>))
  end.
Fixpoint pass (es : list Event) (p : Pass) : option (Pass * option (result unit Sweep.PassOutcome)) :=
  match es with
  | [] => Some (p, None)
  | e :: es =>
    match step e p with
    | Some (Going p) => pass es p
    | Some (Ended p r) => Some (p, Some r)
    | None => None
    end
  end.

(** ** The run *)
Definition closing (known : bool) (stop : Sweep.WalkStop) (scanned : Z) : string :=
  match stop with
  | Sweep.Done =>
    match known, (scanned =? 0)%Z with
    | false, true => "补抓完成：索引里已经没有缺少原始牌谱的记录"
    | false, false => "补抓结束：剩下的记录雀魂都不再提供，或者重转结果不能替换原记录"
    | true, true => "本轮没有要抓的对局：走到的这一段本地都有了"
    | true, false => "补抓结束：这一轮缺的对局雀魂都不再提供"
    end
  | Sweep.Stalled => "连着 " +:+ pretty Sweep.MAX_STUMBLES +:+ " 轮没有会话接手，先停下来；账号池恢复后重新启动会从同一处接着走"
  | Sweep.Exhausted => "补抓已跑满 " +:+ pretty Sweep.MAX_PASSES +:+ " 轮仍有记录在变，先停下来；重新启动会接着跑"
  end.
(** A round: what happens in it, and whether a newer run has begun by its end. The
    rest before the next one is the beginning of that one. *)
Fixpoint rounds (l : list (list Event * bool)) (t : Sweep.WalkTally) (p : Pass) : option (Pass * option (result unit string)) :=
  match l with
  | [] => Some (p, None)
  | (es, superseded) :: l =>
    match pass es (start (index p) (topic p) (progress p)) with
    | Some (p, Some (Ok o)) =>
      if superseded : bool then Some (p, Some (Ok "配置已更换，本轮结束"))
      else match Sweep.after o t with
           | (t, None) => rounds l t p
           | (_, Some stop) => Some (p, Some (Ok (closing false stop (Sweep.scanned o))))
           end
    | Some (p, Some (Err e)) => Some (p, Some (Err e))
    | Some (p, Some Panic) => Some (p, Some Panic)
    | Some (p, None) => Some (p, None)
    | None => None
    end
  end.
Definition walk (counted_rows : option (list Row)) (l : list (list Event * bool)) (p : Pass) : option (Pass * option (result unit string)) :=
  match announce_missing_pb counted_rows None with
  | (_, Some done) => Some (p, Some (Ok done))
  | (_, None) => rounds l (Sweep.mkTally 0 0) p
  end.
End Pass_.
End Repair.

Import Pack Kafka Indexer Reconvert Repair.

Section Facts.
Context (from_str : string -> json + string) (to_string : json -> string) (value_eqb : json -> json -> bool).
Context (gzip : list Z -> list Z) (gunzip : list Z -> list Z + string) (timestamp_ok : Z -> bool).
Context (uuid_ltb : Uuid -> Uuid -> bool) `{!StrictTotal uuid_ltb} (in_flight : nat).
Abbreviation step := (step from_str to_string value_eqb gzip gunzip timestamp_ok uuid_ltb in_flight).
Abbreviation pass := (pass from_str to_string value_eqb gzip gunzip timestamp_ok uuid_ltb in_flight).
Abbreviation rounds := (rounds from_str to_string value_eqb gzip gunzip timestamp_ok uuid_ltb in_flight).
Abbreviation key_ltb := (Search.key_ltb uuid_ltb).

(** The rows the pass has met, in the air or not. *)
Definition row_of (t : Task) : Row := match t with Running row | Came row _ => row end.
Definition met (p : Pass) : list Row := map fst (counted p) ++ map row_of (air p) ++ buffered p.
(** [k] are the rows inserted since the pass began. *)
Definition owed (rows k : list Row) (r : Row) : Prop :=
  r ∈ Search.final rows /\ Search.no_pb r = true /\ existsb (Search.same_sorting_key r) k = false.
Record Inv (rows : list Row) (p : Pass) : Prop := mkInv {
  i_index : exists k, index p = rows ++ k /\
    forall r, owed rows k r -> r ∈ met p \/ exists c, next_cursor p = Some c /\ Search.below uuid_ltb c (Search.row_key r);
  i_known : Forall (fun r => r ∈ index p /\ Search.no_pb r = true) (met p);
  i_once : NoDup (map Search.row_key (met p));
  i_past : forall c, next_cursor p = Some c -> Forall (fun r => ~ Search.below uuid_ltb c (Search.row_key r)) (met p);
  i_end : exhausted p = true -> next_cursor p = None /\ buffered p = [];
  i_scanned : scanned p = Prelude.as_u64 (zlen (counted p));
  i_replaced : replaced p = Prelude.as_u64 (zlen (List.filter (fun x => Sweep.is_replaced x.2) (counted p)))
}.
Lemma matches_missing_pb r : Search.matches missing_pb r = Search.no_pb r.
Proof. unfold Search.matches. cbn. by rewrite !andb_true_r. Qed.
Lemma inv_same rows p p' : Inv rows p -> met p' ≡ₚ met p -> index p' = index p -> next_cursor p' = next_cursor p ->
  (exhausted p' = true -> exhausted p = true /\ buffered p' = buffered p \/ next_cursor p' = None /\ buffered p' = []) ->
  scanned p' = Prelude.as_u64 (zlen (counted p')) ->
  replaced p' = Prelude.as_u64 (zlen (List.filter (fun x => Sweep.is_replaced x.2) (counted p'))) -> Inv rows p'.
Proof.
  intros [(k & Hk & Ho) Hkn Hon Hpa He _ _] Hm Ei En Ee H1 H2. constructor; [| | | | |done|done].
  - exists k. rewrite Ei. split; [done|]. intros r Hr. rewrite Hm, En. by apply Ho.
  - by rewrite Hm, Ei.
  - by rewrite Hm.
  - rewrite En. intros c Hc. rewrite Hm. by apply Hpa.
  - intros Hx. destruct (Ee Hx) as [[Hx' ->]|H]; [|done]. rewrite En. by apply He.
Qed.
Lemma inv_more rows p c page next : Inv rows p -> buffered p = [] -> next_cursor p = Some c -> exhausted p = false ->
  (forall r, r ∈ page -> Search.in_page uuid_ltb missing_pb c (index p) r) -> NoDup (map Search.row_key page) ->
  (forall r, Search.in_page uuid_ltb missing_pb c (index p) r -> r ∈ page \/
     exists c', next = Some c' /\ Search.below uuid_ltb (Some c') (Search.row_key r)) ->
  (forall c', next = Some c' -> (exists r, r ∈ page /\ Search.cursor_key c' = Search.row_key r) /\
     Forall (fun r => ~ Search.below uuid_ltb (Some c') (Search.row_key r)) page) ->
  Inv rows (p <| next_cursor := Some <$> next |> <| buffered := page |>).
Proof.
  intros [(k & Hk & Ho) Hkn Hon Hpa He H1 H2] Hb Hc Hx Hin Hnd Hrest Hnext.
  assert (Em : met (p <| next_cursor := Some <$> next |> <| buffered := page |>) = met p ++ page).
  { unfold met. cbn. rewrite Hb, app_nil_r. by rewrite app_assoc. }
  assert (Hp : Forall (fun r => ~ Search.below uuid_ltb c (Search.row_key r)) (met p)) by by apply Hpa.
  constructor; [| | | | |done|done]; rewrite ?Em.
  - exists k. split; [done|]. intros r Hr. destruct (Ho r Hr) as [Hm|(c' & Hc' & Hbe)]; [left; by apply elem_of_app; left|].
    rewrite Hc in Hc'. injection Hc' as <-. destruct Hr as (Hf & Hn & He').
    destruct (Hrest r) as [Hr|(c' & -> & Hbe')]; [|left; by apply elem_of_app; right|right; by exists (Some c')].
    split; [rewrite Hk; by apply final_app|]. split; [by rewrite matches_missing_pb|exact Hbe].
  - apply Forall_app. split; [done|]. apply Forall_forall. intros r Hr. destruct (Hin r Hr) as (Hf & Hm & _).
    split; [by apply Search.final_elem|]. by rewrite matches_missing_pb in Hm.
  - rewrite map_app. apply NoDup_app. split_and!; [done| |done]. intros x (r & -> & Hr)%list_elem_of_fmap (r' & Ek & Hr')%list_elem_of_fmap.
    eapply Forall_forall in Hp; [|exact Hr]. apply Hp. rewrite Ek. exact (proj2 (proj2 (Hin r' Hr'))).
  - intros c' Hc'. cbn in Hc'. destruct next as [c1|]; [|done]. injection Hc' as <-.
    destruct (Hnext c1 eq_refl) as [(r0 & Hr0 & Ek) Hpg]. apply Forall_app. split; [|done].
    eapply Forall_impl; [exact Hp|]. cbn. intros x Hn Hbe. apply Hn. intros c0 Ec.
    apply (ltb_trans key_ltb _ (Search.cursor_key c1)); [by apply Hbe|]. rewrite Ek. by apply (Hin r0 Hr0).
  - cbn. by rewrite Hx.
Qed.
Lemma inv_scan rows p c page next : Inv rows p -> Search.one_source (index p) -> buffered p = [] -> next_cursor p = Some c -> exhausted p = false ->
  Search.scan uuid_ltb missing_pb c (Z.of_nat Sweep.PAGE_SIZE) (Some (index p)) = Ok (page, next) ->
  Inv rows (p <| next_cursor := Some <$> next |> <| buffered := page |>).
Proof.
  intros H H1 Hb Hc Hx Hs. unfold Search.scan in Hs.
  pose proof (Search.selected_nodup uuid_ltb missing_pb c (index p) H1) as Hn.
  pose proof (Search.selected_sorted uuid_ltb missing_pb c (index p) H1) as Hso.
  destruct (Search.page_spec uuid_ltb missing_pb c (Z.of_nat Sweep.PAGE_SIZE) (index p)) as [[_ E]|(r & _ & Hr & E)];
    [split; vm_compute; reflexivity| |]; rewrite E in Hs; injection Hs as <- <-.
  - apply (inv_more rows p c); [done..| |done| |done].
    + intros r. by rewrite Search.selected_elem.
    + intros r Hr. left. by apply Search.selected_elem.
  - set (s := Search.selected uuid_ltb missing_pb c (index p)) in *. rewrite Nat2Z.id in *.
    rewrite <- (take_drop Sweep.PAGE_SIZE s), map_app in Hn. apply NoDup_app in Hn as (Hn & _ & _).
    apply (inv_more rows p c); [done..| |done| |].
    + intros x Hxx. apply (Search.selected_elem uuid_ltb). change (x ∈ s). rewrite <- (take_drop Sweep.PAGE_SIZE s). apply elem_of_app. by left.
    + intros x Hxx. destruct (Search.rest_below uuid_ltb missing_pb c (index p) _ r x H1 Hr Hxx) as [?|Hnew]; [by left|right].
      exists (Search.row_cursor r). split; [done|]. by intros ? [= <-].
    + intros c' [= <-]. split; [exists r; split; [by apply last_Some_elem_of|done]|].
      rewrite <- (take_drop Sweep.PAGE_SIZE s) in Hso. destruct (Search.sorted_split uuid_ltb _ _ Hso r Hr) as [Hle _].
      apply Forall_forall. intros x Hxx Hbe. specialize (Hbe _ eq_refl). rewrite Search.cursor_key_row in Hbe.
      destruct (Hle x Hxx) as [->|Hnw]; [by rewrite (ltb_irrefl key_ltb) in Hbe|].
      pose proof (ltb_trans key_ltb _ _ _ Hbe Hnw) as Hbad. by rewrite (ltb_irrefl key_ltb) in Hbad.
Qed.
Lemma inv_step rows e p p' : Inv rows p -> Search.one_source (index p') -> step e p = Some (Going p') -> Inv rows p'.
Proof.
  intros H H1. destruct e as [sup queried|i raw fetched sessions produce|i sup| |k t]; cbn [Repair.step].
  - destruct (exhausted p) eqn:Ex; [done|]. destruct (Nat.ltb _ _); [|done]. cbn. unfold pull.
    destruct (buffered p) as [|row b] eqn:Eb; [destruct (next_cursor p) as [c|] eqn:Ec|].
    + destruct (Search.scan _ _ _ _ _) as [[page next]|e|] eqn:Es; try done. destruct queried; [|done]. intros [= <-].
      by apply (inv_scan rows p c).
    + intros [= <-]. apply (inv_same rows p); [exact H|unfold met; cbn; by rewrite Eb|done|done|intros _; by right|apply H..].
    + intros [= <-]. apply (inv_same rows p); [exact H| |done|done|cbn; by rewrite Ex|apply H..].
      unfold met. cbn. rewrite Eb, map_app. cbn. by rewrite <- app_assoc.
  - destruct (air p !! i) as [[row|]|] eqn:Ei; try done. unfold work. destruct (one_record _ _ _ _ _ _ _ _ _ _) as [t r].
    assert (Em : map row_of (<[i := Came row r]> (air p)) = map row_of (air p)).
    { change (map row_of) with (fmap (M := list) row_of). rewrite list_fmap_insert. apply list_insert_id. by rewrite list_lookup_fmap, Ei. }
    assert (Hi : Inv rows (p <| topic := t |> <| air := <[i := Came row r]> (air p) |>)).
    { apply (inv_same rows p); [exact H|unfold met; cbn; by rewrite Em|done|done|intros Hx; by left|apply H..]. }
    destruct r; intros [= <-]; exact Hi.
  - destruct (air p !! i) as [[|row r]|] eqn:Ei; try done. unfold land. destruct sup; [done|]. destruct r as [o|e|]; [|done..]. intros [= <-].
    apply (inv_same rows p); [exact H| |done|done|intros Hx; by left| |]; cbn.
    + unfold met. cbn. rewrite map_app, <- app_assoc. apply Permutation_app_head. cbn.
      by rewrite (delete_Permutation (air p) i (Came row (Ok o)) Ei) at 2.
    + unfold zlen. rewrite (i_scanned _ _ H), length_app. unfold Prelude.as_u64, as_unsigned, zlen. rewrite Zplus_mod_idemp_l. cbn. f_equal. lia.
    + rewrite (i_replaced _ _ H), List.filter_app. cbn. destruct (Sweep.is_replaced o); [|by rewrite app_nil_r].
      unfold Prelude.as_u64, as_unsigned, zlen. rewrite length_app, Zplus_mod_idemp_l. cbn. f_equal. lia.
  - destruct (_ && _); [|done]. intros [= ].
  - intros [= <-]. destruct H as [(k0 & Hk & Ho) Hkn Hon Hpa He H2 H3]. constructor; try done.
    + exists (k0 ++ k). cbn. rewrite Hk, app_assoc. split; [done|]. intros r (Hf & Hn & Hx). rewrite existsb_app in Hx.
      apply orb_false_iff in Hx as [Hx _]. by apply Ho.
    + eapply Forall_impl; [exact Hkn|]. cbn. intros r [Hr Hn]. split; [|done]. apply elem_of_app. by left.
Qed.
Lemma index_step e p n : step e p = Some n -> exists k, index (match n with Going p | Ended p _ => p end) = index p ++ k.
Proof.
  destruct e as [sup queried|i raw fetched sessions produce|i sup| |k t]; cbn [Repair.step].
  - destruct (_ && _); [|done]. intros [= <-]. exists []. rewrite app_nil_r. unfold pull.
    destruct (buffered p); [destruct (next_cursor p)|]; try done. by destruct (Search.scan _ _ _ _ _) as [[? ?]|?|].
  - destruct (air p !! i) as [[row|]|]; try done. intros [= <-]. exists []. rewrite app_nil_r. unfold work.
    destruct (one_record _ _ _ _ _ _ _ _ _ _) as [t []]; done.
  - destruct (air p !! i) as [[|row r]|]; try done. intros [= <-]. exists []. rewrite app_nil_r. unfold land.
    destruct sup; [done|]. by destruct r.
  - destruct (_ && _); [|done]. intros [= <-]. exists []. by rewrite app_nil_r.
  - intros [= <-]. by exists k.
Qed.
Lemma index_pass es : forall p p' r, pass es p = Some (p', r) -> exists k, index p' = index p ++ k.
Proof.
  induction es as [|e es IH]; intros p p' r; cbn [Repair.pass].
  { intros [= <- <-]. exists []. by rewrite app_nil_r. }
  destruct (step e p) as [[p1|p1 r1]|] eqn:E; [| |done]; destruct (index_step _ _ _ E) as [k Hk].
  - intros H. destruct (IH _ _ _ H) as [k' ->]. rewrite Hk. exists (k ++ k'). by rewrite app_assoc.
  - intros [= <- <-]. by exists k.
Qed.
Lemma ended_finished e p p' o : step e p = Some (Ended p' (Ok o)) -> Sweep.finished o = true ->
  p' = p /\ exhausted p = true /\ air p = [] /\ o = finished p.
Proof.
  destruct e as [sup queried|i raw fetched sessions produce|i sup| |k t]; cbn [Repair.step]; try done.
  - destruct (_ && _); [|done]. unfold pull. destruct (buffered p); [|done]. destruct (next_cursor p); [|done].
    destruct (Search.scan _ _ _ _ _) as [[? ?]|?|]; try done. destruct sup; [|done]. by intros [= <- <-].
  - destruct (air p !! i) as [[row|]|]; try done. unfold work. by destruct (one_record _ _ _ _ _ _ _ _ _ _) as [t []].
  - destruct (air p !! i) as [[|row r]|]; try done. unfold land. destruct sup; [by intros [= <- <-]|]. by destruct r.
  - destruct (exhausted p) eqn:Ex; [|done]. destruct (Nat.eqb_spec (length (air p)) 0) as [El|]; [|done]. intros [= <- <-] _.
    split_and!; [done|done| |done]. by apply length_zero_iff_nil.
Qed.
Lemma repair_pass_inv rows es : forall p p' o, Inv rows p -> Search.one_source (index p') -> pass es p = Some (p', Some (Ok o)) ->
  Sweep.finished o = true -> Inv rows p' /\ exhausted p' = true /\ air p' = [] /\ o = finished p'.
Proof.
  induction es as [|e es IH]; intros p p' o H H1; cbn [Repair.pass]; [done|].
  destruct (step e p) as [[p1|p1 r1]|] eqn:E; [| |done].
  - intros Hp. apply (IH p1); [|done..]. apply (inv_step _ e p); [done| |done].
    destruct (index_pass _ _ _ _ Hp) as [k Hk]. rewrite Hk in H1. by apply one_source_app in H1.
  - intros [= <- ->] Hf. by destruct (ended_finished _ _ _ _ E Hf) as (-> & ? & ? & ->).
Qed.
Lemma repair_inv_start rows t q : Inv rows (start rows t q).
Proof.
  constructor; try done; [|constructor].
  - exists []. rewrite app_nil_r. split; [done|]. intros r _. right. by exists None.
Qed.
Lemma counted_bound rows p : Inv rows p -> (length (counted p) <= length (index p))%nat.
Proof.
  intros H. pose proof (i_once _ _ H) as Hn. pose proof (i_known _ _ H) as Hk. unfold met in *. rewrite map_app in Hn.
  apply NoDup_app in Hn as (Hn & _ & _). apply Forall_app in Hk as [Hk _].
  rewrite <- (length_map fst (counted p)), <- (length_map Search.row_key (map fst _)), <- (length_map Search.row_key (index p)).
  apply NoDup_incl_length; [by apply NoDup_ListNoDup|]. intros x Hx. apply list_elem_of_In in Hx.
  apply list_elem_of_fmap in Hx as (r & -> & Hr). eapply Forall_forall in Hk as [Hr' _]; [|exact Hr].
  apply list_elem_of_In, list_elem_of_fmap. by exists r.
Qed.

(** C6: A pass of the repair that comes to its end has asked for every record that
    had no protobuf as it began and was not written again meanwhile, none of them
    twice, and counted what each came back with. *)
Theorem repair_reaches_every_record rows t q es p o : pass es (start rows t q) = Some (p, Some (Ok o)) ->
  Sweep.finished o = true -> Search.one_source (index p) ->
  NoDup (map (fun x => Search.row_key x.1) (counted p)) /\
  Sweep.scanned o = Prelude.as_u64 (zlen (counted p)) /\
  Sweep.replaced o = Prelude.as_u64 (zlen (List.filter (fun x => Sweep.is_replaced x.2) (counted p))) /\
  exists k, index p = rows ++ k /\ forall r, r ∈ Search.final rows -> Search.no_pb r = true ->
    existsb (Search.same_sorting_key r) k = false -> exists out, (r, out) ∈ counted p.
Proof.
  intros Hp Hf H1. destruct (repair_pass_inv rows es _ _ _ (repair_inv_start rows t q) H1 Hp Hf) as (H & Hx & Ha & ->).
  destruct (i_end _ _ H Hx) as [Hc Hb]. assert (Em : met p = map fst (counted p)) by (unfold met; rewrite Ha, Hb; cbn; by rewrite app_nil_r).
  split_and!; [|apply H|apply H|].
  - pose proof (i_once _ _ H) as Hn. by rewrite Em, map_map in Hn.
  - destruct (i_index _ _ H) as (k & Hk & Ho). exists k. split; [done|]. intros r Hr Hn He.
    destruct (Ho r (conj Hr (conj Hn He))) as [Hm|(c & Hc' & _)]; [|congruence]. rewrite Em in Hm.
    apply list_elem_of_fmap in Hm as ([r' out] & -> & Hin). by exists out.
Qed.

Lemma after_done o t t' : Sweep.after o t = (t', Some Sweep.Done) -> Sweep.finished o = true.
Proof.
  unfold Sweep.after. destruct (Sweep.finished o); [done|]. destruct (_ <=? _); [done|]. done.
Qed.
(** The run that says that nothing is left is right: at the beginning of its last
    round every record of the index either had its protobuf or has since been
    written again. *)
Theorem done_means_none_left l : forall t p p', rounds l t p = Some (p', Some (Ok (closing false Sweep.Done 0))) ->
  Search.one_source (index p') -> zlen (index p') < 2 ^ 64 ->
  exists rows k, index p' = rows ++ k /\ index p `prefix_of` rows /\
    forall r, r ∈ Search.final rows -> Search.no_pb r = true -> existsb (Search.same_sorting_key r) k = true.
Proof.
  induction l as [|[es superseded] l IH]; intros t p p'; cbn [Repair.rounds]; [done|].
  destruct (pass es _) as [[p1 [[o|e|]|]]|] eqn:Ep; try done. destruct superseded; [done|].
  destruct (index_pass _ _ _ _ Ep) as [k1 Hk1]. cbn in Hk1.
  destruct (Sweep.after o t) as [t1 [stop|]] eqn:Ea.
  - intros [= -> Hc] H1 Hlt. assert (Hs : stop = Sweep.Done /\ Sweep.scanned o = 0).
    { destruct stop; [|done..]. unfold closing in Hc. by destruct (Z.eqb_spec (Sweep.scanned o) 0). }
    destruct Hs as [-> Hs]. apply after_done in Ea.
    destruct (repair_pass_inv (index p) es _ _ _ (repair_inv_start _ _ _) H1 Ep Ea) as (H & Hx & Ha & ->).
    destruct (i_end _ _ H Hx) as [Hn Hb]. pose proof (counted_bound _ _ H) as Hle.
    assert (Hz : counted p' = []).
    { cbn in Hs. rewrite (i_scanned _ _ H) in Hs. unfold Prelude.as_u64 in Hs. rewrite as_unsigned_small in Hs by (unfold zlen in *; lia).
      unfold zlen in Hs. apply length_zero_iff_nil. lia. }
    destruct (i_index _ _ H) as (k & Hk & Ho). exists (index p), k. split_and!; [done|done|].
    intros r Hr Hpb. destruct (existsb _ k) eqn:He; [done|].
    destruct (Ho r (conj Hr (conj Hpb He))) as [Hm|(c & Hc' & _)]; [|congruence].
    unfold met in Hm. rewrite Hz, Ha, Hb in Hm. by apply not_elem_of_nil in Hm.
  - intros Hr H1 Hlt. destruct (IH _ _ _ Hr H1 Hlt) as (rows & k & Hk & Hpre & Hall). exists rows, k. split_and!; [done| |done].
    etransitivity; [|exact Hpre]. rewrite Hk1. by apply prefix_app_r.
Qed.

(** ** What the repair writes *)
Lemma pass_open rows es : forall p p', Inv rows p -> Search.one_source (index p') -> pass es p = Some (p', None) -> Inv rows p'.
Proof.
  induction es as [|e es IH]; intros p p' H H1; cbn [Repair.pass]; [by intros [= <-]|].
  destruct (step e p) as [[p1|p1 r1]|] eqn:E; [|done..].
  intros Hp. apply (IH p1); [|done..]. apply (inv_step _ e p); [done| |done].
  destruct (index_pass _ _ _ _ Hp) as [k Hk]. rewrite Hk in H1. by apply one_source_app in H1.
Qed.
(** Whatever a record in the air meets, the topic is left alone, or the record that
    is written takes the place of one the index holds without a protobuf: under its
    identity and at its instants, with the protobuf that was fetched for the game
    its stored bytes name and a whole conversion of it. *)
Theorem repair_replaces_in_place rows t q es p i raw fetched sessions produce n : pass es (start rows t q) = Some (p, None) ->
  Search.one_source (index p) -> step (Worked i raw fetched sessions produce) p = Some n ->
  let p' := match n with Going p' | Ended p' _ => p' end in
  topic p' = topic p \/
  exists row stored uuid metadata pb mjai, row ∈ index p /\ Search.no_pb row = true /\ raw = Some stored /\
    majsoul_header from_str stored = Some (uuid, metadata) /\ fetched uuid = Ok pb /\
    reconverted from_str to_string value_eqb gzip gunzip pb metadata stored uuid = Ok mjai /\
    topic p' = fst (produce (Kafka.reindex (id row) (row_source row) (row_received_at row) (row_played_at row) mjai (Some pb)) (topic p)).
Proof.
  intros Hp H1. pose proof (pass_open rows es _ _ (repair_inv_start rows t q) H1 Hp) as H. cbn [Repair.step].
  destruct (air p !! i) as [[row|]|] eqn:Ei; try done. intros [= <-].
  assert (Hrow : row ∈ index p /\ Search.no_pb row = true).
  { pose proof (i_known _ _ H) as Hk. eapply Forall_forall in Hk; [exact Hk|]. unfold met. apply elem_of_app. right. apply elem_of_app. left.
    apply list_elem_of_fmap. exists (Running row). split; [done|]. by eapply list_elem_of_lookup_2. }
  unfold work, one_record. destruct raw as [stored|]; [|by left]. destruct (majsoul_header from_str stored) as [[uuid metadata]|] eqn:Eh; [|by left].
  destruct (fetched uuid) as [pb|[]|] eqn:Ef; try (by left); [|by unfold unserved; destruct (_ =? _); left].
  destruct (reconverted _ _ _ _ _ _ _ _ _) as [mjai|e|] eqn:Er; try (by left).
  unfold reindex, Ingest.reindex_one. destruct (Mjai.parse_metadata _ _ _ _); try (by left).
  set (m := Kafka.reindex _ _ _ _ _ _). destruct (produce m (topic p)) as [t' r] eqn:Et. right.
  exists row, stored, uuid, metadata, pb, mjai. destruct Hrow. split_and!; try done. fold m. rewrite Et. by destruct r.
Qed.
End Facts.

(** ** Witnesses: two records without a protobuf, and one that has its own. *)
Definition toy_rows : list Row := [Search.toy_row 1 5 None; Search.toy_row 2 5 None; Search.toy_row 3 4 (Some (mkPb 9 1 1))].
Definition toy_progress : Sweep.Progress := Sweep.mkProgress 0 0 0 0 0 0 0 None (mkCounts 0 0 0 0).
Definition toy_start (rows : list Row) : Pass := start rows [] toy_progress.
Abbreviation toy_pass := (pass toy_from_str toy_print toy_eqb (fun l => l) inl (fun _ => true) Search.toy_ltb 2).
Abbreviation toy_step := (step toy_from_str toy_print toy_eqb (fun l => l) inl (fun _ => true) Search.toy_ltb 2).
Abbreviation toy_rounds := (rounds toy_from_str toy_print toy_eqb (fun l => l) inl (fun _ => true) Search.toy_ltb 2).
Definition stored_bytes : list Z := Convert.ndjson toy_print toy_stream.
Definition served (i : nat) : Event := Worked i (Some stored_bytes) (fun _ => Ok toy_pb) 1 (fun _ t => (t ++ [[]], Ok ())).
Definition unanswered (i : nat) : Event := Worked i (Some stored_bytes) (fun _ => Err Refetch.Unserved) 1 (fun _ t => (t, Ok ())).
Definition refilled : list Event := [Pull false true; Pull false true; Pull false true].
(** The second record comes back first; the other is refused. *)
Definition toy_events : list Event :=
  refilled ++ [served 1; Landed 1 false; Pull false true; Worked 0 (Some stored_bytes) (fun _ => Err (Refetch.Refused "gone")) 1 (fun _ t => (t, Ok ()));
   Landed 0 false; Over].
Lemma repair_reaches_every_record_witness : exists p o, toy_pass toy_events (toy_start toy_rows) = Some (p, Some (Ok o)) /\
  Sweep.scanned o = 2 /\ Sweep.replaced o = 1 /\
  exists k, index p = toy_rows ++ k /\ forall r, r ∈ Search.final toy_rows -> Search.no_pb r = true ->
    existsb (Search.same_sorting_key r) k = false -> exists out, (r, out) ∈ counted p.
Proof.
  destruct (toy_pass toy_events (toy_start toy_rows)) as [[p [[o|e|]|]]|] eqn:E;
    try (exfalso; revert E; vm_compute; discriminate).
  assert (Hf : Sweep.finished o = true) by (revert E; vm_compute; intros [= <- <-]; reflexivity).
  exists p, o. split; [reflexivity|]. split; [revert E; vm_compute; intros [= <- <-]; reflexivity|].
  split; [revert E; vm_compute; intros [= <- <-]; reflexivity|].
  refine (proj2 (proj2 (proj2 (repair_reaches_every_record toy_from_str toy_print toy_eqb (fun l => l) inl (fun _ => true) Search.toy_ltb 2
    toy_rows [] toy_progress toy_events p o E Hf _)))).
  apply Backfill.toy_live. revert E. vm_compute. intros [= <- <-]. reflexivity.
Defined.
(** A round in which no session took up a request, while some were logged in, is a
    whole one that replaced nothing: the run ends at once and says that the game no
    longer offers what is left. *)
Example silent_round_ends_the_run :
  let round := refilled ++ [unanswered 0; unanswered 1; Landed 0 false; Landed 0 false; Pull false true; Over] in
  (fun r => r.2) <$> toy_rounds [(round, false)] (Sweep.mkTally 0 0) (toy_start toy_rows)
  = Some (Some (Ok "补抓结束：剩下的记录雀魂都不再提供，或者重转结果不能替换原记录")).
Proof. vm_compute. reflexivity. Qed.
(** A record that cannot be produced ends the run. *)
Example failed_produce_ends_the_run :
  let round := refilled ++ [Worked 0 (Some stored_bytes) (fun _ => Ok toy_pb) 1 (fun _ t => (t, Err Kafka.Broker)); Landed 0 false] in
  (fun r => r.2) <$> toy_rounds [(round, false)] (Sweep.mkTally 0 0) (toy_start toy_rows) = Some (Some (Err tt)).
Proof. vm_compute. reflexivity. Qed.
