(* ===== verification/Series.v ===== *)
(** The charts and the statistics of the console ([src/src/catalog.rs], and the
    handlers of [src/src/api.rs] that ask for them): the window of a chart, the
    filter by mode, the buckets and what the tables answer. *)
From S2P Require Import Prelude Text Json Replay Pack Kafka Indexer Search Paipuya.
#[local] Open Scope string_scope.
#[local] Open Scope list_scope.
#[local] Open Scope Z_scope.

Module Series.
Import Pack Indexer.
Abbreviation DateTime := Kafka.DateTime.

Definition MAX_TREND_DAYS : Z := 365.
Definition MAX_TREND_HOURS : Z := 168.
Definition DEFAULT_TREND_SPAN : Z := 30.
Definition MAX_REPORTED_RULES : nat := 24.
Definition MAX_REPORTED_SOURCES : nat := 100.
Definition MAX_PLAYER_HITS : Z := 50.

(** ** Windows *)
Inductive SeriesUnit := Hour | Day.
#[export] Instance SeriesUnit_eq : EqDecision SeriesUnit.
Proof. solve_decision. Defined.
Definition max_span (u : SeriesUnit) : Z := match u with Hour => MAX_TREND_HOURS | Day => MAX_TREND_DAYS end.
Definition step (u : SeriesUnit) : Z := match u with Hour => 3600 * 1000000000 | Day => 86400 * 1000000000 end.
Definition truncate (u : SeriesUnit) (at_ : DateTime) : DateTime := at_ - at_ mod step u.
Definition clamp (lo hi z : Z) : Z := Z.max lo (Z.min hi z).

Record SeriesWindow := mkWindow { unit_ : SeriesUnit; first : DateTime; span : Z }.
Inductive CatalogError := RangeInverted | Unanswered.

Section Dates.
(** The instants [chrono] can hold: arithmetic that leaves them panics. *)
Variable in_range : DateTime -> bool.
Definition shift {E} (at_ : DateTime) (delta : Z) : result E DateTime :=
  if in_range (at_ + delta) then Ok (at_ + delta) else Panic.
Definition recent (now : DateTime) (u : SeriesUnit) (span : Z) : result CatalogError SeriesWindow :=
  let span := clamp 1 (max_span u) span in
  first ← shift (truncate u now) (- (step u * (span - 1)));
  Ok (mkWindow u first span).
Definition between (u : SeriesUnit) (from to : DateTime) : result CatalogError SeriesWindow :=
  if to <? from then Err RangeInverted
  else
    let last := truncate u to in
    let wanted := (last - truncate u from) ÷ 1000000000 ÷ (step u / 1000000000) + 1 in
    let span := clamp 1 (max_span u) wanted in
    first ← shift last (- (step u * (span - 1)));
    Ok (mkWindow u first span).
Definition end_ (w : SeriesWindow) : result CatalogError DateTime := shift (first w) (step (unit_ w) * span w).
End Dates.

(** ** Modes *)
Inductive RulePlayers := Three | Four.
Inductive RuleRoom := Gold | Jade | Throne.
Inductive RuleLength := East | South.
#[export] Instance RulePlayers_eq : EqDecision RulePlayers.
Proof. solve_decision. Defined.
#[export] Instance RuleRoom_eq : EqDecision RuleRoom.
Proof. solve_decision. Defined.
#[export] Instance RuleLength_eq : EqDecision RuleLength.
Proof. solve_decision. Defined.
(** The macro [rule_facet!]: the variants and their tokens. *)
Class TokenOf (A : Type) := { all : list A; token : A -> string }.
#[export] Instance RulePlayers_token : TokenOf RulePlayers :=
  { all := [Three; Four]; token p := match p with Three => "3p" | Four => "4p" end }.
#[export] Instance RuleRoom_token : TokenOf RuleRoom :=
  { all := [Gold; Jade; Throne]; token r := match r with Gold => "gold" | Jade => "jade" | Throne => "throne" end }.
#[export] Instance RuleLength_token : TokenOf RuleLength :=
  { all := [East; South]; token l := match l with East => "east" | South => "south" end }.
Definition from_str {A} `{TokenOf A} (value : string) : option A :=
  List.find (fun v => String.eqb (token v) value) all.

Record RuleFilter := mkRules { players_of : list RulePlayers; rooms : list RuleRoom; lengths : list RuleLength }.
Definition is_empty (f : RuleFilter) : bool :=
  match f with mkRules [] [] [] => true | _ => false end.
Definition selected {A} `{TokenOf A, EqDecision A} (chosen : list A) : list A :=
  match chosen with [] => [] | _ => List.filter (fun value => bool_decide (value ∈ chosen)) all end.
(** The tests of the clauses: [startsWith], [position], [endsWith] on the rule. *)
Inductive Test := StartsWith (s : string) | Position (s : string) | EndsWith (s : string).
Definition print_test (t : Test) : string :=
  match t with
  | StartsWith s => "startsWith(rule, '" +:+ s +:+ "')"
  | Position s => "position(rule, '" +:+ s +:+ "') > 0"
  | EndsWith s => "endsWith(rule, '" +:+ s +:+ "')"
  end.
Definition holds (rule : string) (t : Test) : bool :=
  match t with
  | StartsWith s => String.prefix s rule
  | Position s => match find s rule with Some _ => true | None => false end
  | EndsWith s => ends_with s rule
  end.
Definition any_of (tests : list Test) : list string :=
  match map print_test tests with
  | [] => []
  | [t] => [t]
  | ts => ["(" +:+ String.concat " OR " ts +:+ ")"]
  end.
Definition tests (f : RuleFilter) : list (list Test) :=
  [map (fun p => StartsWith (token p +:+ "-")) (selected (players_of f));
   map (fun r => Position ("-" +:+ token r +:+ "-")) (selected (rooms f));
   map (fun l => EndsWith ("-" +:+ token l)) (selected (lengths f))].
Definition predicate (f : RuleFilter) : string :=
  match concat (map any_of (tests f)) with
  | [] => ""
  | clauses => " AND " +:+ String.concat " AND " clauses
  end.
(** What the clauses say of a rule: a facet without a term adds none. *)
Definition admits (f : RuleFilter) (rule : string) : bool :=
  forallb (fun clause => match clause with [] => true | _ => existsb (holds rule) clause end) (tests f).

(** [rule_facet] of the handlers. *)
Definition rule_facet {A} `{TokenOf A} (value : option string) : option (list A) :=
  mapM from_str (List.filter (fun token => negb (String.eqb token "")) (match value with Some v => split_on ","%char v | None => [] end)).

(** ** The tables

    Each statement is read as what it returns of the rows it sees; the rows of
    [records] are those inserted, before any merge, unless it says [FINAL]. *)
Record Bucket := mkBucket { bucket : string; b_records : Z; b_raw_bytes : Z; b_compressed_bytes : Z }.
Record SeriesPoint := mkPoint { at_label : string; records : Z; games : Z; raw_bytes : Z; compressed_bytes : Z }.
Record RuleCount := mkRuleCount { c_rule : string; c_games : Z }.
Record Series := mkSeries { s_unit : SeriesUnit; points : list SeriesPoint; rules : list RuleCount }.
Record SourceCount := mkSourceCount { c_source : string; c_records : Z }.
Record IndexStats := mkStats {
  total : Z; last_24h : Z; sources : list SourceCount; packs : Z; t_raw_bytes : Z; t_compressed_bytes : Z
}.
Record PaipuyaGap := mkGap { listed : Z; missing : Z }.
Record PaipuyaTotals := mkTotals { t_games : Z; earliest : option DateTime; latest : option DateTime }.
Record PlayerHit := mkHit { h_player : string; h_games : Z }.

Definition sum (l : list Z) : Z := foldr Z.add 0 l.
Definition group_by {A} (k : A -> string) (l : list A) : list (string * list A) :=
  map (fun x => (x, List.filter (fun a => String.eqb (k a) x) l)) (remove_dups (map k l)).
(** [ORDER BY … DESC LIMIT]. *)
Definition busiest {A} (n : nat) (weight : A -> Z) (l : list A) : list A :=
  take n (sort_by (fun a b => weight b <=? weight a) l).

Definition rule_text (r : Row) : string := default "" (rule r).
Definition raw_size_of (r : Row) : Z := raw_size (storage r).
Definition compressed_size_of (r : Row) : Z := compressed_size (storage r).

Section Tables.
Variable in_range : DateTime -> bool.
(** How [chrono] prints the start of a bucket, for ClickHouse and for the console;
    how ClickHouse reads the first and prints the bucket of an instant. *)
Variable key : SeriesUnit -> DateTime -> string.
Variable label : SeriesUnit -> DateTime -> string.
Variable to_date_time : string -> DateTime.
Variable bucket_text : SeriesUnit -> DateTime -> string.

Definition bounds (w : SeriesWindow) : result CatalogError (string * string) :=
  last ← end_ in_range w;
  Ok (key (unit_ w) (first w), key (unit_ w) last).
Definition within (b : string * string) (at_ : DateTime) : bool :=
  (to_date_time b.1 <=? at_) && (at_ <? to_date_time b.2).
Definition opt_within (b : string * string) (at_ : option DateTime) : bool :=
  match at_ with Some at_ => within b at_ | None => false end.

Definition received_statement (u : SeriesUnit) (b : string * string) (f : RuleFilter) (rows : list Row) : list Bucket :=
  map (fun '(k, g) => mkBucket k (zlen g) (sum (map raw_size_of g)) (sum (map compressed_size_of g)))
    (group_by (fun r => bucket_text u (row_received_at r))
       (List.filter (fun r => within b (row_received_at r) && admits f (rule_text r)) rows)).
Definition played (b : string * string) (f : RuleFilter) (rows : list Row) : list Row :=
  List.filter (fun r => opt_within b (row_played_at r) && admits f (rule_text r)) rows.
Definition played_statement (u : SeriesUnit) (b : string * string) (f : RuleFilter) (rows : list Row) : list (string * Z) :=
  map (fun '(k, g) => (k, zlen g))
    (group_by (fun r => match row_played_at r with Some at_ => bucket_text u at_ | None => "" end) (played b f rows)).
Definition rules_statement (b : string * string) (f : RuleFilter) (rows : list Row) : list RuleCount :=
  busiest MAX_REPORTED_RULES c_games (map (fun '(k, g) => mkRuleCount k (zlen g)) (group_by rule_text (played b f rows))).

(** What each of the three statements sees of the table: [None] when it is not
    answered. *)
Definition series (w : SeriesWindow) (f : RuleFilter) (seen_received seen_played seen_rules : option (list Row))
  : result CatalogError Series :=
  b ← bounds w;
  match seen_received, seen_played, seen_rules with
  | Some rows1, Some rows2, Some rows3 =>
    let u := unit_ w in
    let received := fold_left (fun m x => <[bucket x := x]> m) (received_statement u b f rows1) (∅ : gmap string Bucket) in
    let games_by := fold_left (fun m x => <[fst x := snd x]> m) (played_statement u b f rows2) (∅ : gmap string Z) in
    let points := map (fun offset =>
      let at_ := first w + step u * Z.of_nat offset in
      let found := received !! key u at_ in
      mkPoint (label u at_) (match found with Some x => b_records x | None => 0 end)
        (default 0 (games_by !! key u at_))
        (match found with Some x => b_raw_bytes x | None => 0 end)
        (match found with Some x => b_compressed_bytes x | None => 0 end)) (seq 0 (Z.to_nat (span w))) in
    Ok (mkSeries u points (rules_statement b f rows3))
  | _, _, _ => Err Unanswered
  end.

(** [paipuya_gap]: the listed games of the window, and those of them no record of
    the window matches. *)
Definition unix (at_ : DateTime) : Z := at_ / 1000000000.
Definition same_listing (a b : Paipuya.PaipuyaGame) : bool :=
  (Paipuya.started_at a =? Paipuya.started_at b) && String.eqb (Paipuya.g_uuid a) (Paipuya.g_uuid b).
Fixpoint final_games (games : list Paipuya.PaipuyaGame) : list Paipuya.PaipuyaGame :=
  match games with
  | [] => []
  | g :: games => if existsb (same_listing g) games then final_games games else g :: final_games games
  end.
Definition line_up (players : list string) : list string := sort_by String.leb players.
Definition present (b : string * string) (rows : list Row) : list (Z * list string) :=
  omap (fun r => at_ ← row_played_at r; if within b at_ then Some (unix at_, line_up (Indexer.players r)) else None) (Search.final rows).
Definition paipuya_gap (w : SeriesWindow) (seen : option (list Row * list Paipuya.PaipuyaGame)) : result CatalogError PaipuyaGap :=
  b ← bounds w;
  match seen with
  | Some (rows, catalogue) =>
    let games := List.filter (fun g => within b (Paipuya.started_at g)) (final_games catalogue) in
    Ok (mkGap (zlen games) (zlen (List.filter (fun g =>
          bool_decide ((unix (Paipuya.started_at g), line_up (Paipuya.g_players g)) ∉ present b rows)) games)))
  | None => Err Unanswered
  end.
(** [table_totals] of the catalogue, to the second. *)
Definition table_totals (seen : option (list Paipuya.PaipuyaGame)) : result CatalogError PaipuyaTotals :=
  match seen with
  | Some games =>
    let times := map Paipuya.started_at games in
    let instant (least : DateTime -> DateTime -> DateTime) :=
      match times with
      | [] => None
      | t :: times => let at_ := unix (foldr least t times) * 1000000000 in if in_range at_ then Some at_ else None
      end in
    Ok (mkTotals (zlen games) (instant Z.min) (instant Z.max))
  | None => Err Unanswered
  end.
End Tables.

(** [stats] at the instant [now] of the database, and [count_missing_pb]. *)
Definition DAY : Z := 86400 * 1000000000.
Definition stats (now : DateTime) (seen_totals seen_recent seen_sources : option (list Row)) : result CatalogError IndexStats :=
  match seen_totals, seen_recent, seen_sources with
  | Some rows1, Some rows2, Some rows3 =>
    Ok (mkStats (zlen rows1) (zlen (List.filter (fun r => now - DAY <=? row_received_at r) rows2))
          (busiest MAX_REPORTED_SOURCES c_records (map (fun '(k, g) => mkSourceCount k (zlen g)) (group_by row_source rows3)))
          (zlen (remove_dups (map (fun r => location_key (storage r)) rows1)))
          (sum (map raw_size_of rows1)) (sum (map compressed_size_of rows1)))
  | _, _, _ => Err Unanswered
  end.
Definition count_missing_pb (seen : option (list Row)) : result CatalogError Z :=
  match seen with
  | Some rows => Ok (zlen (List.filter (fun r => bool_decide (row_pb r = None)) (Search.final rows)))
  | None => Err Unanswered
  end.
(** [search_players], with the case-insensitive search of ClickHouse. *)
Definition hit_leb (a b : PlayerHit) : bool :=
  (h_games b <? h_games a) || ((h_games a =? h_games b) && String.leb (h_player a) (h_player b)).
Definition search_players (holds_text : string -> string -> bool) (query : string) (limit : Z) (seen : option (list PlayerGame))
  : result CatalogError (list PlayerHit) :=
  match seen with
  | Some rows =>
    let named := List.filter (fun g => holds_text query (Replay.player (Indexer.stats g))) rows in
    Ok (take (Z.to_nat (clamp 1 MAX_PLAYER_HITS limit))
          (sort_by hit_leb (map (fun '(k, g) => mkHit k (zlen (remove_dups (map pg_record_id g))))
             (group_by (fun g => Replay.player (Indexer.stats g)) named))))
  | None => Err Unanswered
  end.

(** ** A player's counters *)
Record PlayerSummary := mkSummary {
  p_games : Z; detailed_games : Z; hands : Z; hands_as_dealer : Z; max_dealer_streak : Z; net_points : Z;
  placements : list Z; busted : Z; final_score : Z; settled_point : Z; grading_score : Z;
  wins : Z; wins_tsumo : Z; win_points : Z; win_turns : Z; deal_ins : Z; deal_in_points : Z;
  riichi : Z; riichi_wins : Z; riichi_deal_ins : Z; riichi_turns : Z; riichi_first : Z; riichi_chasing : Z;
  riichi_chased : Z; riichi_net : Z; called : Z; called_wins : Z; draws : Z; draws_tenpai : Z;
  riichi_ippatsu : Z; riichi_ura_hits : Z; yakuman : Z; max_han : Z
}.
(** [sum], [max] and [countIf] over the rows; over no row they are zero. *)
Definition summary (rows : list PlayerGame) : PlayerSummary :=
  let total (f : Replay.SeatStats -> Z) := sum (map (fun g => f (Indexer.stats g)) rows) in
  let most (f : Replay.SeatStats -> Z) := foldr Z.max 0 (map (fun g => f (Indexer.stats g)) rows) in
  let placed (n : Z) := zlen (List.filter (fun g => Replay.placement (Indexer.stats g) =? n) rows) in
  mkSummary (zlen rows) (sum (map (fun g => if pg_detailed g then 1 else 0) rows))
    (total Replay.hands) (total Replay.hands_as_dealer) (most Replay.max_dealer_streak) (total Replay.net_points)
    [placed 1; placed 2; placed 3; placed 4]
    (total (fun s => if Replay.busted s then 1 else 0)) (total Replay.final_score) (total Replay.settled_point)
    (total Replay.grading_score) (total Replay.wins) (total Replay.wins_tsumo) (total Replay.win_points) (total Replay.win_turns)
    (total Replay.deal_ins) (total Replay.deal_in_points) (total Replay.riichi) (total Replay.riichi_wins)
    (total Replay.riichi_deal_ins) (total Replay.riichi_turns) (total Replay.riichi_first) (total Replay.riichi_chasing)
    (total Replay.riichi_chased) (total Replay.riichi_net) (total Replay.called) (total Replay.called_wins)
    (total Replay.draws) (total Replay.draws_tenpai) (total Replay.riichi_ippatsu) (total Replay.riichi_ura_hits)
    (total Replay.yakuman) (most Replay.max_han).

Section Handlers.
Variable in_range : DateTime -> bool.
Variable key : SeriesUnit -> DateTime -> string.
Variable label : SeriesUnit -> DateTime -> string.
Variable to_date_time : string -> DateTime.
Variable bucket_text : SeriesUnit -> DateTime -> string.

Definition player_summary (player : string) (w : SeriesWindow) (f : RuleFilter) (seen : option (list PlayerGame))
  : result CatalogError PlayerSummary :=
  b ← bounds in_range key w;
  match seen with
  | Some rows =>
    Ok (summary (List.filter (fun g => String.eqb (Replay.player (Indexer.stats g)) player && within to_date_time b (pg_played_at g)
                                && admits f (default "" (pg_rule g))) rows))
  | None => Err Unanswered
  end.

(** The handlers: [inr] is what the catalog answers, [inl] a bad request. *)
Inductive BadRequest := UnknownValue (field : string) | HalfRange | EmptyPlayer.
Record TrendQuery := mkTrend {
  q_unit : option SeriesUnit; q_span : option Z; q_from : option DateTime; q_to : option DateTime;
  q_players : option string; q_room : option string; q_length : option string
}.
Definition filter_of (q : TrendQuery) : RuleFilter + BadRequest :=
  match rule_facet (q_players q) with
  | None => inr (UnknownValue "players")
  | Some ps =>
    match rule_facet (q_room q) with
    | None => inr (UnknownValue "room")
    | Some rs => match rule_facet (q_length q) with None => inr (UnknownValue "length") | Some ls => inl (mkRules ps rs ls) end
    end
  end.
Definition window_of (now : DateTime) (q : TrendQuery) : result CatalogError SeriesWindow + BadRequest :=
  let u := default Day (q_unit q) in
  match q_from q, q_to q with
  | Some from, Some to => inl (between in_range u from to)
  | None, None => inl (recent in_range now u (default DEFAULT_TREND_SPAN (q_span q)))
  | _, _ => inr HalfRange
  end.
Definition get_series_stats (now : DateTime) (q : TrendQuery) (seen_received seen_played seen_rules : option (list Row))
  : result CatalogError Series + BadRequest :=
  match filter_of q with
  | inr e => inr e
  | inl f =>
    match window_of now q with
    | inr e => inr e
    | inl w => inl (w ← w; series in_range key label to_date_time bucket_text w f seen_received seen_played seen_rules)
    end
  end.
Definition get_paipuya_gap (now : DateTime) (q : TrendQuery) (seen_totals : option (list Paipuya.PaipuyaGame))
  (seen : option (list Row * list Paipuya.PaipuyaGame)) : result CatalogError (PaipuyaTotals * PaipuyaGap) + BadRequest :=
  match window_of now q with
  | inr e => inr e
  | inl w => inl (w ← w; totals ← table_totals in_range seen_totals; gap ← paipuya_gap in_range key to_date_time w seen; Ok (totals, gap))
  end.
Definition get_player_stats (now : DateTime) (player : string) (q : TrendQuery) (seen : option (list PlayerGame))
  : result CatalogError PlayerSummary + BadRequest :=
  if String.eqb (trim player) "" then inr EmptyPlayer
  else
    match filter_of q with
    | inr e => inr e
    | inl f =>
      match window_of now q with
      | inr e => inr e
      | inl w => inl (w ← w; player_summary player w f seen)
      end
    end.
End Handlers.
End Series.

Import Pack Indexer Series.

(** ** Counting *)
Lemma sum_app l k : sum (l ++ k) = sum l + sum k.
Proof. induction l as [|x l IH]; cbn; [done|]. unfold sum in *. lia. Qed.
Lemma zlen_filter_app {A} (p : A -> bool) l k : zlen (List.filter p (l ++ k)) = zlen (List.filter p l) + zlen (List.filter p k).
Proof. unfold zlen. rewrite List.filter_app, length_app. lia. Qed.
Lemma filter_eq_ext {A} (p q : A -> bool) l : (forall x, x ∈ l -> p x = q x) -> List.filter p l = List.filter q l.
Proof.
  induction l as [|x l IH]; intros H; cbn; [done|]. rewrite (H x) by left. rewrite IH; [done|]. intros y Hy. apply H. by right.
Qed.
Lemma filter_none {A} (p : A -> bool) l : (forall x, x ∈ l -> p x = false) -> List.filter p l = [].
Proof. induction l as [|x l IH]; intros H; cbn; [done|]. rewrite (H x) by left. apply IH. intros y Hy. apply H. by right. Qed.
Lemma filter_and {A} (p q : A -> bool) l : List.filter p (List.filter q l) = List.filter (fun x => q x && p x) l.
Proof. induction l as [|x l IH]; cbn; [done|]. destruct (q x); cbn; rewrite IH; done. Qed.

(** The map of the buckets holds what each key groups. *)
Lemma lookup_groups {A B V} (k : A -> string) (mk : string -> list A -> B) (kf : B -> string) (vf : B -> V) (l : list A) x :
  (forall k g, kf (mk k g) = k) ->
  fold_left (fun m b => <[kf b := vf b]> m) (map (fun '(k, g) => mk k g) (group_by k l)) (∅ : gmap string V) !! x
  = if decide (x ∈ map k l) then Some (vf (mk x (List.filter (fun a => String.eqb (k a) x) l))) else None.
Proof.
  intros Hk. unfold group_by. rewrite map_map.
  assert (H : forall keys (m : gmap string V),
    fold_left (fun m b => <[kf b := vf b]> m) (map (fun y => mk y (List.filter (fun a => String.eqb (k a) y) l)) keys) m !! x
    = if decide (x ∈ keys) then Some (vf (mk x (List.filter (fun a => String.eqb (k a) x) l))) else m !! x).
  { induction keys as [|y keys IH]; intros m; cbn [map fold_left]; [done|]. rewrite IH, Hk.
    destruct (decide (x ∈ keys)) as [H1|H1]; destruct (decide (x ∈ y :: keys)) as [H2|H2]; rewrite elem_of_cons in H2.
    - done.
    - tauto.
    - assert (x = y) as -> by tauto. by rewrite lookup_insert_eq.
    - rewrite lookup_insert_ne; [done|]. intros ->. tauto. }
  rewrite H, lookup_empty. destruct (decide (x ∈ remove_dups (map k l))) as [H1|H1]; rewrite elem_of_remove_dups in H1;
    by destruct (decide (x ∈ map k l)).
Qed.
(** A key no row has groups none. *)
Lemma filter_absent {A} (k : A -> string) l x : x ∉ map k l -> List.filter (fun a => String.eqb (k a) x) l = [].
Proof.
  intros H. apply filter_none. intros a Ha. apply String.eqb_neq. intros <-. apply H. by apply list_elem_of_fmap_2.
Qed.
(** The groups hold every row once. *)
Lemma groups_total {A} (k : A -> string) l : sum (map (fun p => zlen p.2) (group_by k l)) = zlen l.
Proof.
  unfold group_by. rewrite map_map. cbn [snd].
  assert (H : forall keys, NoDup keys -> sum (map (fun x => zlen (List.filter (fun a => String.eqb (k a) x) l)) keys)
    = zlen (List.filter (fun a => bool_decide (k a ∈ keys)) l)).
  { induction keys as [|y keys IH]; intros Hn; cbn [map sum foldr].
    { rewrite filter_none; [done|]. intros a _. apply bool_decide_eq_false_2. apply not_elem_of_nil. }
    apply NoDup_cons in Hn as [Hy Hn]. fold (sum (map (fun x => zlen (List.filter (fun a => String.eqb (k a) x) l)) keys)). rewrite IH by done.
    clear IH. induction l as [|a l IHl]; [done|]. cbn [List.filter].
    destruct (String.eqb_spec (k a) y) as [E|E].
    - rewrite (bool_decide_eq_false_2 (k a ∈ keys)) by congruence. rewrite bool_decide_eq_true_2 by (rewrite E; left).
      rewrite !zlen_cons. lia.
    - destruct (decide (k a ∈ keys)) as [H|H].
      + rewrite (bool_decide_eq_true_2 (k a ∈ keys)) by done. rewrite bool_decide_eq_true_2 by (by right). rewrite !zlen_cons. lia.
      + rewrite (bool_decide_eq_false_2 (k a ∈ keys)) by done. rewrite bool_decide_eq_false_2; [done|].
        by rewrite elem_of_cons; intros [?|?]. }
  rewrite H by apply NoDup_remove_dups. f_equal. rewrite (filter_eq_ext _ (fun _ => true)).
  - clear. induction l as [|a l IHl]; cbn; [done|]. by rewrite IHl.
  - intros a Ha. apply bool_decide_eq_true_2. rewrite elem_of_remove_dups. by apply list_elem_of_fmap_2.
Qed.

(** ** Buckets *)
Lemma step_pos u : 0 < step u.
Proof. by destruct u. Qed.
Definition aligned (u : SeriesUnit) (at_ : DateTime) : Prop := truncate u at_ = at_.
Lemma aligned_spec u at_ : aligned u at_ <-> at_ mod step u = 0.
Proof. unfold aligned, truncate. lia. Qed.
Lemma truncate_aligned u at_ : aligned u (truncate u at_).
Proof.
  apply aligned_spec. unfold truncate. pose proof (step_pos u). pose proof (Z.div_mod at_ (step u) ltac:(lia)).
  replace (at_ - at_ mod step u) with (at_ / step u * step u) by lia. apply Z.mod_mul. lia.
Qed.
Lemma aligned_add u at_ n : aligned u at_ -> aligned u (at_ + step u * n).
Proof. rewrite !aligned_spec. pose proof (step_pos u). intros Ha. by rewrite (Z.mul_comm (step u)), Z.mod_add by lia. Qed.
Lemma truncate_bounds u at_ : truncate u at_ <= at_ < truncate u at_ + step u.
Proof. unfold truncate. pose proof (Z.mod_pos_bound at_ (step u) (step_pos u)). lia. Qed.
Lemma truncate_le u a at_ : aligned u a -> a <= at_ -> a <= truncate u at_.
Proof.
  intros Ha%aligned_spec H. unfold truncate. pose proof (step_pos u). pose proof (Z.div_mod a (step u) ltac:(lia)).
  pose proof (Z.div_mod at_ (step u) ltac:(lia)). pose proof (Z.div_le_mono a at_ (step u) ltac:(lia) H).
  pose proof (Z.mul_le_mono_nonneg_l (a / step u) (at_ / step u) (step u)). lia.
Qed.
Definition in_bucket (u : SeriesUnit) (start at_ : DateTime) : bool := (start <=? at_) && (at_ <? start + step u).
Lemma bucket_spec u start at_ : aligned u start -> in_bucket u start at_ = true <-> truncate u at_ = start.
Proof.
  intros Ha. unfold in_bucket. rewrite andb_true_iff, Z.leb_le, Z.ltb_lt. pose proof (truncate_bounds u at_). split; [|lia].
  pose proof (truncate_aligned u at_) as Hb. apply aligned_spec in Ha, Hb. pose proof (step_pos u).
  apply Z.mod_divide in Ha as [a ->], Hb as [b Eb]; [|lia..]. rewrite Eb in *. intros. f_equal. nia.
Qed.
(** The buckets of a window hold each instant of it once. *)
Lemma sum_buckets {A} (time : A -> option DateTime) u start n (l : list A) :
  sum (map (fun i => zlen (List.filter (fun a => match time a with Some t => in_bucket u (start + step u * Z.of_nat i) t | None => false end) l)) (seq 0 n))
  = zlen (List.filter (fun a => match time a with Some t => (start <=? t) && (t <? start + step u * Z.of_nat n) | None => false end) l).
Proof.
  induction n as [|n IH].
  - cbn. rewrite filter_none; [done|]. intros a _. destruct (time a) as [t|]; [|done]. rewrite Z.mul_0_r, Z.add_0_r.
    destruct (Z.leb_spec start t), (Z.ltb_spec t start); try done. lia.
  - rewrite seq_S, map_app, sum_app, IH. cbn [map sum foldr Nat.add]. rewrite Z.add_0_r. clear IH.
    pose proof (step_pos u). induction l as [|a l IHl]; [done|]. cbn [List.filter].
    set (p := match time a with Some t => (start <=? t) && (t <? start + step u * Z.of_nat n) | None => false end).
    set (q := match time a with Some t => in_bucket u (start + step u * Z.of_nat n) t | None => false end).
    set (r := match time a with Some t => (start <=? t) && (t <? start + step u * Z.of_nat (S n)) | None => false end).
    assert (Hpq : (p = true /\ q = false /\ r = true) \/ (p = false /\ q = r)).
    { subst p q r. destruct (time a) as [t|]; [|by right]. unfold in_bucket. rewrite Nat2Z.inj_succ, Z.mul_succ_r, Z.add_assoc.
      destruct (Z.leb_spec start t), (Z.ltb_spec t (start + step u * Z.of_nat n)), (Z.leb_spec (start + step u * Z.of_nat n) t),
        (Z.ltb_spec t (start + step u * Z.of_nat n + step u)); cbn; auto; nia. }
    destruct Hpq as [(-> & -> & ->)|(-> & ->)]; [|destruct r]; rewrite ?zlen_cons; lia.
Qed.

Section Charts.
Context (in_range : DateTime -> bool) (key label : SeriesUnit -> DateTime -> string).
Context (to_date_time : string -> DateTime) (bucket_text : SeriesUnit -> DateTime -> string).
(** The instants ClickHouse reads back as they were printed, and the text it gives
    a bucket: that of its start. *)
Context (readable : DateTime -> bool).
Hypothesis reads_back : forall u at_, readable at_ = true -> aligned u at_ -> to_date_time (key u at_) = at_.
Hypothesis readable_between : forall a b c, a <= b <= c -> readable a = true -> readable c = true -> readable b = true.
Hypothesis bucket_key : forall u at_, bucket_text u at_ = key u (truncate u at_).
Abbreviation series := (series in_range key label to_date_time bucket_text).
Abbreviation bounds := (bounds in_range key).
Abbreviation within := (within to_date_time).
Abbreviation opt_within := (opt_within to_date_time).

(** A window as the requests make them. *)
Definition proper (w : SeriesWindow) : Prop :=
  aligned (unit_ w) (first w) /\ 0 < span w /\ readable (first w) = true /\ readable (first w + step (unit_ w) * span w) = true.

Lemma bounds_spec w b : proper w -> bounds w = Ok b ->
  forall at_, within b at_ = (first w <=? at_) && (at_ <? first w + step (unit_ w) * span w).
Proof.
  intros (Ha & Hs & Hr1 & Hr2) Hb at_. unfold Series.bounds, end_, shift in Hb.
  destruct (in_range _); [|done]. cbn in Hb. injection Hb as <-. unfold Series.within. cbn [fst snd].
  rewrite !reads_back by (done || by apply aligned_add). done.
Qed.
Lemma readable_in w at_ : proper w -> first w <= at_ <= first w + step (unit_ w) * span w -> readable at_ = true.
Proof. intros (Ha & Hs & Hr1 & Hr2) H. by eapply readable_between. Qed.
Lemma same_key w a at_ : proper w -> aligned (unit_ w) a -> first w <= a < first w + step (unit_ w) * span w ->
  first w <= at_ < first w + step (unit_ w) * span w ->
  String.eqb (bucket_text (unit_ w) at_) (key (unit_ w) a) = in_bucket (unit_ w) a at_.
Proof.
  intros Hw Ha H1 H2. rewrite bucket_key. apply eq_true_iff_eq. rewrite String.eqb_eq, bucket_spec by done. split; [|by intros ->].
  intros E. apply (f_equal to_date_time) in E. pose proof (truncate_bounds (unit_ w) at_).
  assert (Ht : first w <= truncate (unit_ w) at_).
  { apply truncate_le; [apply Hw|lia]. }
  rewrite !reads_back in E; try done; try apply truncate_aligned; apply (readable_in w); (done || lia).
Qed.

(** The rows of a table that were received in a bucket, and those played in it. *)
Definition received_in (u : SeriesUnit) (f : RuleFilter) (start : DateTime) (rows : list Row) : list Row :=
  List.filter (fun r => in_bucket u start (row_received_at r) && admits f (rule_text r)) rows.
Definition played_in (u : SeriesUnit) (f : RuleFilter) (start : DateTime) (rows : list Row) : list Row :=
  List.filter (fun r => match row_played_at r with Some t => in_bucket u start t | None => false end && admits f (rule_text r)) rows.
Lemma in_bucket_window w i at_ : proper w -> (i < Z.to_nat (span w))%nat ->
  let start := first w + step (unit_ w) * Z.of_nat i in
  aligned (unit_ w) start /\ first w <= start < first w + step (unit_ w) * span w /\
  (in_bucket (unit_ w) start at_ = true -> (first w <=? at_) && (at_ <? first w + step (unit_ w) * span w) = true).
Proof.
  intros (Ha & _) Hi. cbv zeta. pose proof (step_pos (unit_ w)). split; [by apply aligned_add|].
  assert (Z.of_nat i + 1 <= span w) by lia. split; [nia|]. unfold in_bucket. rewrite !andb_true_iff, !Z.leb_le, !Z.ltb_lt. nia.
Qed.
Lemma received_point w b f rows i : proper w -> bounds w = Ok b -> (i < Z.to_nat (span w))%nat ->
  let start := first w + step (unit_ w) * Z.of_nat i in
  List.filter (fun r => String.eqb (bucket_text (unit_ w) (row_received_at r)) (key (unit_ w) start))
    (List.filter (fun r => within b (row_received_at r) && admits f (rule_text r)) rows) = received_in (unit_ w) f start rows.
Proof.
  intros Hw Hb Hi start. rewrite filter_and. apply filter_eq_ext. intros r _. rewrite (bounds_spec w b Hw Hb).
  destruct (in_bucket_window w i (row_received_at r) Hw Hi) as (Ha & Hs & Hin). fold start in Ha, Hs, Hin.
  destruct ((first w <=? row_received_at r) && (row_received_at r <? first w + step (unit_ w) * span w)) eqn:E.
  - rewrite same_key by (try done; lia). cbn [andb]. apply andb_comm.
  - destruct (in_bucket _ _ _); [by discriminate Hin|]. done.
Qed.
Lemma played_point w b f rows i : proper w -> bounds w = Ok b -> (i < Z.to_nat (span w))%nat ->
  let start := first w + step (unit_ w) * Z.of_nat i in
  List.filter (fun r => String.eqb (match row_played_at r with Some at_ => bucket_text (unit_ w) at_ | None => "" end) (key (unit_ w) start))
    (played to_date_time b f rows) = played_in (unit_ w) f start rows.
Proof.
  intros Hw Hb Hi start. unfold played. rewrite filter_and. apply filter_eq_ext. intros r _. unfold Series.opt_within.
  destruct (row_played_at r) as [t|]; [|done]. rewrite (bounds_spec w b Hw Hb).
  destruct (in_bucket_window w i t Hw Hi) as (Ha & Hs & Hin). fold start in Ha, Hs, Hin.
  destruct ((first w <=? t) && (t <? first w + step (unit_ w) * span w)) eqn:E.
  - rewrite same_key by (try done; lia). cbn [andb]. apply andb_comm.
  - destruct (in_bucket _ _ _); [by discriminate Hin|]. done.
Qed.
Lemma played_window w b f rows : proper w -> bounds w = Ok b ->
  sum (map (fun i => zlen (played_in (unit_ w) f (first w + step (unit_ w) * Z.of_nat i) rows)) (seq 0 (Z.to_nat (span w))))
  = zlen (played to_date_time b f rows).
Proof.
  intros Hw Hb. pose proof (sum_buckets row_played_at (unit_ w) (first w) (Z.to_nat (span w))
    (List.filter (fun r => admits f (rule_text r)) rows)) as H.
  transitivity (zlen (List.filter (fun r => match row_played_at r with Some t => (first w <=? t) && (t <? first w + step (unit_ w) * Z.of_nat (Z.to_nat (span w))) | None => false end)
    (List.filter (fun r => admits f (rule_text r)) rows))).
  - rewrite <- H. f_equal. apply map_ext. intros i. unfold played_in. rewrite filter_and. f_equal. apply filter_eq_ext. intros r _. apply andb_comm.
  - unfold played. rewrite filter_and. f_equal. apply filter_eq_ext. intros r _. rewrite andb_comm. f_equal. unfold Series.opt_within.
    destruct (row_played_at r) as [t|]; [|done]. rewrite (bounds_spec w b Hw Hb). destruct Hw as (_ & ? & _). by rewrite Z2Nat.id by lia.
Qed.
Lemma sum_perm l k : l ≡ₚ k -> sum l = sum k.
Proof. induction 1; cbn in *; unfold sum in *; lia. Qed.
Lemma rules_total b f rows : let out := rules_statement to_date_time b f rows in
  sum (map c_games out) <= zlen (played to_date_time b f rows) /\
  ((length (remove_dups (map rule_text (played to_date_time b f rows))) <= MAX_REPORTED_RULES)%nat ->
     sum (map c_games out) = zlen (played to_date_time b f rows)).
Proof.
  cbv zeta. unfold rules_statement, busiest. set (l := played to_date_time b f rows).
  set (counts := map (fun '(k, g) => mkRuleCount k (zlen g)) (group_by rule_text l)).
  assert (Hs : sum (map c_games (sort_by (fun a b => c_games b <=? c_games a) counts)) = zlen l).
  { rewrite <- (groups_total rule_text l). apply sum_perm. etransitivity; [apply Permutation_map, sort_by_perm|]. subst counts.
    rewrite map_map. apply reflexive_eq, map_ext. by intros [k g]. }
  split.
  - rewrite <- Hs. assert (Hnn : Forall (fun c => 0 <= c_games c) (sort_by (fun a b => c_games b <=? c_games a) counts)).
    { rewrite sort_by_perm. subst counts. apply Forall_map, Forall_forall. intros [k g] _. apply zlen_nonneg. }
    clear Hs. revert Hnn. generalize (sort_by (fun a b => c_games b <=? c_games a) counts) MAX_REPORTED_RULES. clear. intros l n H.
    revert n. induction H as [|a l Ha _ IH]; intros [|n]; cbn in *; [done..| |].
    + specialize (IH 0%nat). rewrite take_0 in IH. unfold sum in *. cbn in *. lia.
    + specialize (IH n). unfold sum in *. cbn in *. lia.
  - intros Hn. rewrite take_ge; [done|]. rewrite length_sort_by. subst counts. unfold group_by. by rewrite !length_map.
Qed.

(** C30: A chart is gap-filled and exact, if its window begins at a bucket, is not
    empty, and lies between instants that the index reads back as they were
    printed. The three statements behind it each see the table at a moment of
    their own. Of the rows that the first saw, each point counts, for the modes
    asked for, the records received in its bucket with their sizes; of the rows
    that the second saw, the games played in it, and the points together those of
    the whole window; of the rows that the third saw, the reported modes sum to no
    more than the games of the window, and to as many while those are of at most
    [MAX_REPORTED_RULES] modes. What the second and the third saw is not compared. *)
Theorem chart_counts_every_record w f rows1 rows2 rows3 s : proper w ->
  series w f (Some rows1) (Some rows2) (Some rows3) = Ok s ->
  let u := unit_ w in let start i := first w + step u * Z.of_nat i in
  points s = map (fun i =>
    mkPoint (label u (start i)) (zlen (received_in u f (start i) rows1)) (zlen (played_in u f (start i) rows2))
      (sum (map raw_size_of (received_in u f (start i) rows1))) (sum (map compressed_size_of (received_in u f (start i) rows1))))
    (seq 0 (Z.to_nat (span w))) /\
  let window := List.filter (fun r => match row_played_at r with
    | Some t => (first w <=? t) && (t <? first w + step u * span w) | None => false end && admits f (rule_text r)) in
  sum (map games (points s)) = zlen (window rows2) /\ sum (map c_games (rules s)) <= zlen (window rows3) /\
  ((length (remove_dups (map rule_text (window rows3))) <= MAX_REPORTED_RULES)%nat ->
    sum (map c_games (rules s)) = zlen (window rows3)).
Proof.
  intros Hw E. cbv zeta. unfold Series.series in E. destruct (bounds w) as [b|e|] eqn:Hb; [|done..]. cbn [mbind result_bind] in E.
  injection E as <-. cbn [points rules].
  assert (Hwin : forall rows, played to_date_time b f rows = List.filter (fun r => match row_played_at r with
    | Some t => (first w <=? t) && (t <? first w + step (unit_ w) * span w) | None => false end && admits f (rule_text r)) rows).
  { intros rows. apply filter_eq_ext. intros r _. f_equal. unfold Series.opt_within. destruct (row_played_at r) as [t|]; [|done].
    by rewrite (bounds_spec w b Hw Hb). }
  rewrite <- !Hwin.
  assert (Hg : forall i, i ∈ seq 0 (Z.to_nat (span w)) -> default 0 (fold_left (fun m x => <[fst x := snd x]> m)
    (played_statement to_date_time bucket_text (unit_ w) b f rows2) (∅ : gmap string Z) !! key (unit_ w) (first w + step (unit_ w) * Z.of_nat i))
    = zlen (played_in (unit_ w) f (first w + step (unit_ w) * Z.of_nat i) rows2)).
  { intros i Hi%elem_of_seq. unfold played_statement. rewrite (lookup_groups _ (fun k g => (k, zlen g)) fst snd) by done.
    rewrite (played_point w b f rows2 i) by (done || lia). destruct (decide _) as [H|H]; [done|].
    apply filter_absent in H. by rewrite (played_point w b f rows2 i) in H by (done || lia); rewrite H. }
  split; [|split; [|apply rules_total]].
  - apply map_ext_in. intros i Hi. apply list_elem_of_In in Hi. f_equal; [|by apply Hg|..];
      apply elem_of_seq in Hi; unfold received_statement;
      rewrite (lookup_groups _ (fun k g => mkBucket k (zlen g) (sum (map raw_size_of g)) (sum (map compressed_size_of g))) bucket (fun x => x)) by done;
      rewrite (received_point w b f rows1 i) by (done || lia); destruct (decide _) as [H|H]; try done;
      apply filter_absent in H; rewrite (received_point w b f rows1 i) in H by (done || lia); by rewrite H.
  - rewrite <- (played_window w b f rows2 Hw Hb), map_map. f_equal. apply map_ext_in. intros i Hi. apply Hg. by apply list_elem_of_In.
Qed.
End Charts.

(** ** Windows *)
Section Windows.
Context (in_range : DateTime -> bool).
Hypothesis in_range_between : forall a b c, a <= b <= c -> in_range a = true -> in_range c = true -> in_range b = true.

(** A range that is asked for is covered to its end: every instant of it is in
    the window, or, once the window is as wide as its unit allows, before it; and
    the window holds no bucket the range does not touch. *)
Theorem window_covers_the_range u from to : from <= to ->
  in_range (truncate u from) = true -> in_range (truncate u to) = true ->
  exists w, between in_range u from to = Ok w /\ unit_ w = u /\ aligned u (first w) /\ 1 <= span w <= max_span u /\
    (forall t, from <= t <= to ->
       first w <= t < first w + step u * span w \/ span w = max_span u /\ t < first w) /\
    truncate u from <= first w /\ first w + step u * (span w - 1) <= to.
Proof.
  intros Hft H1 H2. unfold between. rewrite (proj2 (Z.ltb_ge to from)) by done.
  pose proof (step_pos u) as Hs. set (a := truncate u from) in *. set (b := truncate u to) in *.
  assert (Ha : aligned u a) by apply truncate_aligned. assert (Hb : aligned u b) by apply truncate_aligned.
  pose proof (truncate_bounds u from) as Hfrom. pose proof (truncate_bounds u to) as Hto. fold a in Hfrom. fold b in Hto.
  assert (Hab : a <= b) by (apply truncate_le; [done|lia]).
  pose proof Ha as [x Ex]%aligned_spec%Z.mod_divide; [|lia]. pose proof Hb as [y Ey]%aligned_spec%Z.mod_divide; [|lia].
  assert (Hw : (b - a) ÷ 1000000000 ÷ (step u / 1000000000) + 1 = y - x + 1).
  { assert (Hsec : step u = step u / 1000000000 * 1000000000) by (by destruct u).
    replace (b - a) with ((y - x) * (step u / 1000000000) * 1000000000) by (rewrite Ex, Ey; rewrite Hsec at 2 3; ring).
    rewrite Z.quot_mul by lia. rewrite Z.quot_mul by (by destruct u). lia. }
  rewrite Hw. set (n := clamp 1 (max_span u) (y - x + 1)).
  assert (Hxy : x <= y) by nia. assert (Hmax : 1 <= max_span u) by (by destruct u).
  assert (Hn : n = y - x + 1 /\ n <= max_span u \/ n = max_span u /\ n <= y - x) by (subst n; unfold clamp; lia).
  assert (Hfirst : a <= b - step u * (n - 1)) by (rewrite Ex, Ey; nia).
  unfold shift. replace (b + - (step u * (n - 1))) with (b - step u * (n - 1)) by lia.
  rewrite (in_range_between a _ b) by (try done; nia). cbn [mbind result_bind]. eexists. split; [done|]. cbn [unit_ first span].
  split; [done|]. split.
  { replace (b - step u * (n - 1)) with (b + step u * (1 - n)) by lia. by apply aligned_add. }
  split; [lia|]. split; [|split; [lia|nia]]. intros t Ht.
  destruct (Z.le_gt_cases (b - step u * (n - 1)) t) as [?|?]; [left; nia|right]. split; [|done].
  destruct Hn as [[-> _]|[-> _]]; [|done]. exfalso. rewrite Ex, Ey in *. nia.
Qed.
(** The default window ends with the bucket in progress. *)
Lemma recent_covers_now now u n w : recent in_range now u n = Ok w ->
  unit_ w = u /\ aligned u (first w) /\ 1 <= span w <= max_span u /\ first w <= now < first w + step u * span w /\
  first w + step u * (span w - 1) = truncate u now.
Proof.
  unfold recent, shift. destruct (in_range _); [|done]. cbn. intros [= <-]. cbn. split; [done|].
  assert (Hmax : 1 <= max_span u) by (by destruct u). pose proof (step_pos u). pose proof (truncate_bounds u now).
  set (m := clamp 1 (max_span u) n). assert (1 <= m <= max_span u) by (subst m; unfold clamp; lia).
  split; [|split; [done|split; [nia|lia]]]. replace (truncate u now + - (step u * (m - 1))) with (truncate u now + step u * (1 - m)) by lia.
  apply aligned_add, truncate_aligned.
Qed.
End Windows.

(** The instants of [chrono], and a range that ends in the last day of them. *)
Definition chrono_range (at_ : DateTime) : bool := (-8334601228800000000000 <=? at_) && (at_ <=? 8210266876799999999999).
Example last_day_panics :
  match between chrono_range Day 0 8210266876799000000000 with Ok w => is_panic (end_ chrono_range w) | _ => false end = true.
Proof. vm_compute. reflexivity. Qed.

(** ** Modes *)
Definition mode_text (p : RulePlayers) (r : RuleRoom) (l : RuleLength) : string :=
  token p +:+ "-" +:+ token r +:+ "-" +:+ token l.
Lemma facet_elem {A} `{TokenOf A, EqDecision A} (chosen : list A) v : (forall v : A, v ∈ all) ->
  v ∈ selected chosen <-> v ∈ chosen.
Proof.
  intros Hall. unfold selected. destruct chosen as [|c chosen]; [done|]. rewrite list_elem_of_In, filter_In, bool_decide_eq_true.
  rewrite <- list_elem_of_In. pose proof (Hall v). tauto.
Qed.
Lemma selected_nil {A} `{TokenOf A, EqDecision A} (chosen : list A) : (forall v : A, v ∈ all) -> selected chosen = [] <-> chosen = [].
Proof.
  intros Hall. split; [|by intros ->]. intros E. destruct chosen as [|c chosen]; [done|].
  assert (Hc : c ∈ selected (c :: chosen)) by (apply facet_elem; [done|left]). rewrite E in Hc. by apply not_elem_of_nil in Hc.
Qed.
(** The terms of a facet: the values chosen, each once, in their own order. *)
Lemma selected_ext {A} `{TokenOf A, EqDecision A} (l k : list A) : (forall v : A, v ∈ all) -> (forall v, v ∈ l <-> v ∈ k) -> selected l = selected k.
Proof.
  intros Hall H'. destruct l as [|x l], k as [|y k].
  - done.
  - exfalso. apply (not_elem_of_nil y), H'. left.
  - exfalso. apply (not_elem_of_nil x), H'. left.
  - unfold selected. apply filter_eq_ext. intros v _. by apply bool_decide_ext.
Qed.
Lemma facet_holds {A} `{TokenOf A, EqDecision A} (test : A -> Test) rule v chosen : (forall v : A, v ∈ all) ->
  (forall w, holds rule (test w) = bool_decide (w = v)) ->
  (match map test (selected chosen) with [] => true | _ => existsb (holds rule) (map test (selected chosen)) end)
  = bool_decide (chosen = [] \/ v ∈ chosen).
Proof.
  intros Hall Ht. destruct (decide (chosen = [])) as [->|Hne]; [by rewrite bool_decide_eq_true_2 by (by left)|].
  destruct (map test (selected chosen)) as [|t ts] eqn:E; [exfalso; apply Hne, selected_nil; [done|by destruct (selected chosen)]|].
  rewrite <- E. clear E t ts. apply eq_true_iff_eq. rewrite bool_decide_eq_true, existsb_exists. split.
  - intros (t & Hin & Hh). apply in_map_iff in Hin as (w & <- & Hw). rewrite Ht in Hh. apply bool_decide_eq_true in Hh as ->.
    right. apply facet_elem; [done|]. by apply list_elem_of_In.
  - intros [?|Hv]; [done|]. exists (test v). split; [|by rewrite Ht, bool_decide_eq_true_2]. apply in_map.
    apply list_elem_of_In. by apply facet_elem.
Qed.
Lemma players_all (v : RulePlayers) : v ∈ all.
Proof. destruct v; cbn; rewrite !elem_of_cons; auto. Qed.
Lemma room_all (v : RuleRoom) : v ∈ all.
Proof. destruct v; cbn; rewrite !elem_of_cons; auto. Qed.
Lemma length_all (v : RuleLength) : v ∈ all.
Proof. destruct v; cbn; rewrite !elem_of_cons; auto. Qed.

(** The filter by mode. Of the twelve modes it admits those every facet allows,
    a facet without a value allowing all; a filter that says nothing adds no
    clause, and the clause is made of the values asked for, however often and in
    whatever order they were. *)
Theorem filter_admits_its_modes f :
  (forall p r l, admits f (mode_text p r l) = true <->
     (players_of f = [] \/ p ∈ players_of f) /\ (rooms f = [] \/ r ∈ rooms f) /\ (lengths f = [] \/ l ∈ lengths f)) /\
  (predicate f = "" <-> is_empty f = true) /\
  (forall f', (forall p, p ∈ players_of f <-> p ∈ players_of f') -> (forall r, r ∈ rooms f <-> r ∈ rooms f') ->
     (forall l, l ∈ lengths f <-> l ∈ lengths f') -> predicate f' = predicate f).
Proof.
  split; [|split].
  - intros p r l. unfold admits, tests. cbn [forallb].
    rewrite (facet_holds _ _ p), (facet_holds _ _ r), (facet_holds _ _ l); try apply players_all; try apply room_all; try apply length_all;
      [|by destruct p, r, l; intros []..].
    rewrite !andb_true_iff, !bool_decide_eq_true. tauto.
  - unfold predicate, tests. cbn [map concat]. destruct f as [ps rs ls]. cbn [players_of rooms lengths].
    assert (Hany : forall ts, any_of ts = [] <-> ts = []).
    { intros ts. unfold any_of. destruct ts as [|t [|t2 ts]]; cbn; split; done. }
    rewrite app_nil_r. split.
    + intros H. destruct (any_of _ ++ any_of _ ++ any_of _) as [|x xs] eqn:E; [|done].
      apply app_eq_nil in E as [E1 [E2 E3]%app_eq_nil]. apply Hany in E1, E2, E3.
      apply map_eq_nil in E1, E2, E3.
      by rewrite (proj1 (selected_nil ps players_all) E1), (proj1 (selected_nil rs room_all) E2), (proj1 (selected_nil ls length_all) E3).
    + by destruct ps, rs, ls.
  - intros f' Hp Hr Hl. unfold predicate, tests.
    rewrite (selected_ext _ _ players_all Hp), (selected_ext _ _ room_all Hr), (selected_ext _ _ length_all Hl). done.
Qed.
(** A mode no variant names stays in the charts of what is known of it. *)
Example unnamed_length : admits (mkRules [Four] [] []) "4p-throne-hanchan" = true /\ admits (mkRules [] [] [East; South]) "4p-throne-hanchan" = false.
Proof. vm_compute. repeat split. Qed.
(** A facet written with commas is read back. *)
Lemma from_str_token {A} `{TokenOf A} (v : A) : (forall v : A, v ∈ all) -> NoDup (map token (all (A := A))) -> from_str (token v) = Some v.
Proof.
  intros Hall Hn. unfold from_str. specialize (Hall v). revert Hall Hn. generalize (all (A := A)). intros l Hv Hn. induction l as [|x l IH]; [by apply not_elem_of_nil in Hv|].
  cbn [map] in Hn. apply NoDup_cons in Hn as [Hx Hn]. cbn [List.find]. destruct (String.eqb_spec (token x) (token v)) as [E|E].
  - apply elem_of_cons in Hv as [->|Hv]; [done|]. exfalso. apply Hx. rewrite E. by apply list_elem_of_fmap_2.
  - apply elem_of_cons in Hv as [->|Hv]; [done|]. by apply IH.
Qed.

Lemma facet_round_trip {A} `{TokenOf A} (chosen : list A) : (forall v : A, v ∈ all) -> NoDup (map token (all (A := A))) ->
  Forall (fun v : A => contains ","%char (token v) = false /\ token v <> "") all -> chosen <> [] ->
  rule_facet (Some (String.concat "," (map token chosen))) = Some chosen.
Proof.
  intros Hall Hn Ht Hc. unfold rule_facet. rewrite Forall_forall in Ht. rewrite split_on_concat.
  - clear Hc. induction chosen as [|v chosen IH]; [done|]. cbn [map List.filter].
    destruct (String.eqb_spec (token v) "") as [E|_]; [by destruct (Ht v (Hall v))|]. cbn [negb mapM]. rewrite from_str_token by done.
    cbn. by rewrite IH.
  - by destruct chosen.
  - apply Forall_map, Forall_forall. intros v _. by apply Ht.
Qed.

(** ** The comparison with the catalogue *)
#[local] Instance leb_antisymm : AntiSymm (=) (fun p q => String.leb p q = true).
Proof. intros p q. apply String.leb_antisym. Qed.
Lemma line_up_perm l k : line_up l = line_up k <-> l ≡ₚ k.
Proof.
  unfold line_up. split.
  - intros E. rewrite <- (sort_by_perm String.leb l), E. apply sort_by_perm.
  - intros H. apply (StronglySorted_unique (fun p q => String.leb p q = true)).
    + apply sort_by_sorted; [apply String.leb_total|apply leb_trans_s].
    + apply sort_by_sorted; [apply String.leb_total|apply leb_trans_s].
    + by rewrite !sort_by_perm.
Qed.

Section Gap.
Context (in_range : DateTime -> bool) (key : SeriesUnit -> DateTime -> string) (to_date_time : string -> DateTime).
Context (readable : DateTime -> bool).
Hypothesis reads_back : forall u at_, readable at_ = true -> aligned u at_ -> to_date_time (key u at_) = at_.

Lemma sublist_filter {A} (p : A -> bool) l : List.filter p l `sublist_of` l.
Proof. induction l as [|x l IH]; cbn; [constructor|]. destruct (p x); by constructor. Qed.
(** Instants of one second are on the same side of the start of a bucket. *)
Lemma same_second u a s t : aligned u a -> unix t = unix s -> a <= s -> a <= t.
Proof.
  intros Ha%aligned_spec Ht Hs. unfold unix in Ht. apply Z.mod_divide in Ha as [n ->]; [|pose proof (step_pos u); lia].
  assert (Hk : exists k, step u = k * 1000000000) by (destruct u; [by exists 3600|by exists 86400]). destruct Hk as [k Ek]. rewrite Ek in *.
  pose proof (Z.div_mod t 1000000000 ltac:(lia)). pose proof (Z.mod_pos_bound t 1000000000 ltac:(lia)).
  pose proof (Z.div_mod s 1000000000 ltac:(lia)). pose proof (Z.mod_pos_bound s 1000000000 ltac:(lia)).
  rewrite Z.mul_assoc in *. assert (n * k <= s / 1000000000) by (apply Z.div_le_lower_bound; lia). lia.
Qed.
(** A record of a listed game: of its second, and of its players, in any seats. *)
Definition is_record_of (g : Paipuya.PaipuyaGame) (r : Row) : Prop :=
  exists t, row_played_at r = Some t /\ unix t = unix (Paipuya.started_at g) /\ Indexer.players r ≡ₚ Paipuya.g_players g.

(** Reading both sides over one window loses nothing: a listed game counts as
    missing when the whole index holds no record of it. *)
Theorem gap_counts_what_is_missing w rows catalogue g : proper readable w ->
  paipuya_gap in_range key to_date_time w (Some (rows, catalogue)) = Ok g ->
  let games := List.filter (fun g => (first w <=? Paipuya.started_at g) && (Paipuya.started_at g <? first w + step (unit_ w) * span w))
                 (final_games catalogue) in
  listed g = zlen games /\
  exists missing_games, missing_games `sublist_of` games /\ missing g = zlen missing_games /\
    forall x, x ∈ missing_games <-> x ∈ games /\ forall r, r ∈ Search.final rows -> ~ is_record_of x r.
Proof.
  intros Hw E. unfold paipuya_gap in E. destruct (bounds in_range key w) as [b|e|] eqn:Hb; [|done..]. cbn [mbind result_bind] in E.
  injection E as <-. cbn [listed missing]. cbv zeta.
  pose proof (bounds_spec _ _ _ _ reads_back w b Hw Hb) as Hin.
  set (games := List.filter (fun g => Series.within to_date_time b (Paipuya.started_at g)) (final_games catalogue)).
  assert (Hg : games = List.filter (fun g => (first w <=? Paipuya.started_at g) && (Paipuya.started_at g <? first w + step (unit_ w) * span w)) (final_games catalogue)).
  { apply filter_eq_ext. intros x _. apply Hin. }
  rewrite <- Hg. split; [done|]. eexists. split; [apply sublist_filter|]. split; [done|]. intros x.
  rewrite list_elem_of_In, filter_In, <- list_elem_of_In, bool_decide_eq_true. split; (intros [Hx Hn]; split; [done|]); revert Hn.
  - intros Hn r Hr (t & Et & Eu & Ep). apply Hn. unfold present. apply list_elem_of_omap. exists r. split; [done|]. rewrite Et. cbn.
    assert (Ht : Series.within to_date_time b t = true); [|by rewrite Ht, Eu, (proj2 (line_up_perm _ _) Ep)].
    rewrite Hin. rewrite Hg in Hx. apply list_elem_of_In, filter_In in Hx as [_ Hx].
    apply andb_true_iff in Hx as [H1%Z.leb_le H2%Z.ltb_lt].
    destruct Hw as (Ha & _). apply andb_true_iff. rewrite Z.leb_le, Z.ltb_lt. split; [by apply (same_second (unit_ w) _ (Paipuya.started_at x))|].
    apply Z.nle_gt. intros H3. apply (same_second (unit_ w) _ _ (Paipuya.started_at x)) in H3; [lia|by apply aligned_add|done].
  - intros Hn Hp. unfold present in Hp. apply list_elem_of_omap in Hp as (r & Hr & E). destruct (row_played_at r) as [t|] eqn:Et; [|done]. cbn in E.
    destruct (Series.within to_date_time b t); [|done]. injection E as Eu El. apply (Hn r Hr). exists t. split; [done|]. split; [done|].
    by apply line_up_perm.
Qed.
End Gap.

(** ** Witnesses: two hours, three records; the text of a bucket is the number of
    its start. *)
Definition toy_key (_ : SeriesUnit) (at_ : DateTime) : string := pretty at_.
Definition toy_read_back (s : string) : DateTime := default 0 (Search.parse_i64 s).
Definition toy_bucket (u : SeriesUnit) (at_ : DateTime) : string := toy_key u (truncate u at_).
Definition toy_readable (at_ : DateTime) : bool := (0 <=? at_) && (at_ <=? 2 ^ 62).
Lemma toy_reads_back u at_ : toy_readable at_ = true -> aligned u at_ -> toy_read_back (toy_key u at_) = at_.
Proof.
  intros H _. apply andb_true_iff in H as [H1%Z.leb_le H2%Z.leb_le]. unfold toy_read_back, toy_key, Search.parse_i64.
  rewrite parse_int_pretty_signed by lia. done.
Qed.
Lemma toy_readable_between a b c : a <= b <= c -> toy_readable a = true -> toy_readable c = true -> toy_readable b = true.
Proof. unfold toy_readable. rewrite !andb_true_iff, !Z.leb_le. lia. Qed.
Definition toy_hour : Z := 3600 * 1000000000.
Definition toy_record (i : Z) (played_ : option DateTime) (mode : option string) : Row :=
  mkRow [i] "live" "" (i * 1000000) played_ ["b"; "a"] mode 1 (mkLocation "p" i 10 30) None.
Definition toy_records : list Row :=
  [toy_record 1 (Some 5) (Some "4p-jade-south"); toy_record 2 (Some (toy_hour + 7)) (Some "3p-gold-east"); toy_record 3 None None].
Definition toy_window : SeriesWindow := mkWindow Hour 0 2.
Definition toy_series : result CatalogError Series :=
  series chrono_range toy_key toy_key toy_read_back toy_bucket toy_window (mkRules [] [] []) (Some toy_records) (Some toy_records) (Some toy_records).
Example toy_points :
  (fun s => (map records (points s), map games (points s), map c_games (rules s))) <$> result_ok toy_series
  = Some ([3; 0], [1; 1], [1; 1]).
Proof. vm_compute. reflexivity. Qed.
Lemma toy_proper : proper toy_readable toy_window.
Proof. unfold proper. split; [|split; [|split]]; vm_compute; reflexivity. Qed.
Lemma chart_counts_every_record_witness : exists s, toy_series = Ok s /\ sum (map games (points s)) = 2 /\ sum (map c_games (rules s)) = 2.
Proof.
  destruct toy_series as [s|e|] eqn:E; [|exfalso; revert E; vm_compute; discriminate..]. exists s. split; [reflexivity|].
  pose proof (chart_counts_every_record chrono_range toy_key toy_key toy_read_back toy_bucket toy_readable toy_reads_back toy_readable_between
    (fun _ _ => eq_refl) toy_window (mkRules [] [] []) toy_records toy_records toy_records s toy_proper E) as H.
  split; [exact (proj1 (proj2 H))|]. apply (proj2 (proj2 (proj2 H))). vm_compute. repeat constructor.
Defined.
Lemma window_covers_the_range_witness : exists w, between chrono_range Day 5 (toy_hour * 25) = Ok w /\ span w = 2.
Proof.
  destruct (window_covers_the_range chrono_range) with (u := Day) (from := 5) (to := toy_hour * 25) as (w & E & _).
  - intros a b c H. unfold chrono_range. rewrite !andb_true_iff, !Z.leb_le. lia.
  - vm_compute. discriminate.
  - reflexivity.
  - reflexivity.
  - exists w. split; [exact E|]. revert E. vm_compute. intros [= <-]. reflexivity.
Defined.
(** A listed game whose record names the players in other seats is not missing. *)
Definition toy_listed (uuid : string) (at_ : DateTime) : Paipuya.PaipuyaGame := Paipuya.mkGame uuid 12 at_ at_ ["a"; "b"] [] [].
Definition toy_catalogue : list Paipuya.PaipuyaGame := [toy_listed "x" 9; toy_listed "y" (2 * 1000000000); toy_listed "x" 9].
Lemma gap_counts_what_is_missing_witness :
  exists g, paipuya_gap chrono_range toy_key toy_read_back toy_window (Some (toy_records, toy_catalogue)) = Ok g /\ listed g = 2 /\ missing g = 1.
Proof.
  destruct (paipuya_gap chrono_range toy_key toy_read_back toy_window (Some (toy_records, toy_catalogue))) as [g|e|] eqn:E;
    [|exfalso; revert E; vm_compute; discriminate..]. exists g. split; [reflexivity|].
  pose proof (gap_counts_what_is_missing chrono_range toy_key toy_read_back toy_readable toy_reads_back
    toy_window toy_records toy_catalogue g toy_proper E) as H. split; [exact (proj1 H)|].
  revert E. vm_compute. intros [= <-]. reflexivity.
Defined.
(** The modes are cut at [MAX_REPORTED_RULES], the points are not. *)
Example rules_cut_short :
  let rows := map (fun i => toy_record (Z.of_nat i) (Some 5) (Some (pretty (Z.of_nat i)))) (seq 0 25) in
  (fun s => (sum (map games (points s)), sum (map c_games (rules s)))) <$>
    result_ok (series chrono_range toy_key toy_key toy_read_back toy_bucket toy_window (mkRules [] [] []) (Some rows) (Some rows) (Some rows))
  = Some (25, 24).
Proof. vm_compute. reflexivity. Qed.
(** What the handlers refuse, and the facets they read. *)
Example bad_requests :
  let ask from room := get_series_stats chrono_range toy_key toy_key toy_read_back toy_bucket toy_hour
    (mkTrend (Some Hour) None from None None (Some room) None) (Some toy_records) (Some toy_records) (Some toy_records) in
  (match ask (Some 0) "" with inr HalfRange => true | _ => false end) = true /\
  (match ask None "gold,silver" with inr (UnknownValue "room") => true | _ => false end) = true /\
  (match ask None "gold,,jade" with inl (Ok s) => map games (points s) | _ => [] end) = (repeat 0 28 ++ [1; 1])%list.
Proof. vm_compute. repeat split. Qed.
