(* ===== verification/Supervisor.v ===== *)
(** The supervisor of the collectors ([WatchSupervisor] of
    [src/src/watch_service.rs]): the configuration that is edited by revision, and
    the generations of collectors that are started, reloaded and stopped, in the
    steps between which other requests run. *)
From S2P Require Import Prelude Text Json Accounts Service WatchConfig.
#[local] Open Scope string_scope.
#[local] Open Scope list_scope.
#[local] Open Scope Z_scope.

Module Supervisor.
Import Service WatchConfig.
#[local] Existing Instance WatchConfig.WatchServiceConfig_settable.
#[local] Existing Instance WatchConfig.Disk_settable.

(** A collector that runs: one instance of a configuration, in a generation. *)
Record Task := mkTask { t_generation : Z; t_config : WatchServiceConfig; t_instance : WatchInstance }.
Record WatchRuntimeStatus := mkRuntime {
  phase : ServicePhase; active_revision : option Z; r_login_module : option ModuleRef; r_pb_fetch_module : option ModuleRef;
  last_error : option string
}.
#[export] Instance WatchRuntimeStatus_settable : Settable WatchRuntimeStatus := fun r =>
  mkRuntime (phase r) (active_revision r) (r_login_module r) (r_pb_fetch_module r) (last_error r).
Definition stopped_runtime : WatchRuntimeStatus := mkRuntime Stopped None None None None.

(** What a request is answered at its end, and where it stands: at the probe of
    the modules of an edit; at that of a start; waiting for the collectors it
    aborted; with the new ones spawned, before the status and before their handles
    are kept; waiting for a stop. *)
Inductive Answer := Published (c : WatchServiceConfig) | Status.
Inductive Reply := Config (c : WatchServiceConfig) | Runtime (r : WatchRuntimeStatus) | Refused (e : WatchServiceError).
Inductive Op :=
| Editing (next : WatchServiceConfig)
| Probing (a : Answer) (c : WatchServiceConfig)
| Aborting (a : Answer) (c : WatchServiceConfig) (ids : list nat)
| Spawned (a : Answer) (c : WatchServiceConfig) (ids : list nat)
| Storing (a : Answer) (ids : list nat)
| Ending (a : Answer) (ids : list nat).
Record World := mkWorld {
  config : WatchServiceConfig; disk : Disk; runtime : WatchRuntimeStatus; generation : Z;
  handles : list nat; live : gmap nat Task; spawned : nat; minted : nat; ops : gmap nat Op; answers : list (nat * Reply);
  history : list (Z * WatchServiceConfig)
}.
#[export] Instance World_settable : Settable World := fun w =>
  mkWorld (config w) (disk w) (runtime w) (generation w) (handles w) (live w) (spawned w) (minted w) (ops w) (answers w) (history w).

Inductive Event :=
| Update (i : nat) (next : WatchServiceConfig) (pool : Accounts.AccountPool)
| Action (i : nat) (a : WatchAction)
| Probed (i : nat) (r : result WatchServiceError ()) (written : bool)
| Ended (i : nat)
| Marked (i : nat)
| Stored (i : nat)
| Dropped (i : nat)
| Returns (t : nat) (error : option string).

Section Steps.
Variable to_value : WatchServiceConfig -> json.
Variable urls : UrlOps.
Variable fresh : nat -> string.
Variable read_file : string -> option string.
Variable env_var : string -> option string.
Variable to_lowercase : string -> string.

Definition answer (i : nat) (r : Reply) (w : World) : World :=
  w <| ops ::= delete i |> <| answers ::= fun l => l ++ [(i, r)] |>.
Definition finish (i : nat) (a : Answer) (w : World) : World :=
  answer i (match a with Published c => Config c | Status => Runtime (runtime w) end) w.
Definition at_ (i : nat) (op : Op) (w : World) : World := w <| ops ::= <[i := op]> |>.
Definition set_phase (p : ServicePhase) (w : World) : World := w <| runtime ::= fun r => r <| phase := p |> |>.

Definition start (i : nat) (a : Answer) (w : World) : World := at_ i (Probing a (config w)) w.
Definition reload (i : nat) (a : Answer) (w : World) : World := start i a (set_phase Reloading w).
(** [stop_tasks]: the handles are taken and aborted, then waited for. *)
Definition take_handles (w : World) : World := w <| handles := [] |>.
Definition stop (i : nat) (a : Answer) (w : World) : World :=
  take_handles (at_ i (Ending a (handles w)) (set_phase Stopping w)).

(** [update_config], up to the probe. *)
Definition update_config (i : nat) (next : WatchServiceConfig) (pool : Accounts.AccountPool) (w : World) : World :=
  let '(n, l) := mint_missing_keys fresh (minted w) (instances next) in
  let next := next <| instances := l |> in
  let w := w <| minted := n |> in
  match validate urls next with
  | Ok _ =>
    match shared_login read_file env_var to_lowercase pool ∅ (instances next) with
    | Ok _ => at_ i (Editing next) w
    | Err e => answer i (Refused e) w
    | Panic => w
    end
  | Err e => answer i (Refused e) w
  | Panic => w
  end.
(** The section under the lock of the configuration, and what follows. *)
Definition swap (i : nat) (next : WatchServiceConfig) (written : bool) (w : World) : World :=
  if revision next =? revision (config w) then
    let saved := next <| custom_proxy_url := restored_proxy urls (custom_proxy_url next) (custom_proxy_url (config w)) |>
                      <| revision := sat_add_u64 (revision (config w)) 1 |> in
    match persist_json to_value written saved (disk w) with
    | (d, Ok _) =>
      let w := w <| disk := d |> <| config := saved |> <| history ::= fun l => l ++ [(revision next, saved)] |> in
      let a := Published (published_config urls saved) in
      if enabled saved then reload i a w else stop i a w
    | (d, Err e) => answer i (Refused e) (w <| disk := d |>)
    | (d, Panic) => w
    end
  else answer i (Refused (RevisionConflict (revision next) (revision (config w)))) w.
Definition probed (i : nat) (r : result WatchServiceError ()) (written : bool) (w : World) : option World :=
  match ops w !! i, r with
  | Some (Editing next), Ok _ => Some (swap i next written w)
  | Some (Probing a c), Ok _ => Some (take_handles (at_ i (Aborting a c (handles w)) w))
  | Some (Editing _), Err e | Some (Probing _ _), Err e => Some (answer i (Refused e) w)
  | _, _ => None
  end.
Definition forget (ids : list nat) (l : gmap nat Task) : gmap nat Task := filter (fun p => p.1 ∉ ids) l.
Definition spawn (i : nat) (a : Answer) (c : WatchServiceConfig) (w : World) : World :=
  let g := generation w + 1 in
  let tasks := map (mkTask g c) (active_instances c) in
  let ids := seq (spawned w) (length tasks) in
  at_ i (Spawned a c ids)
    (w <| generation := g |> <| runtime ::= fun r => r <| phase := Starting |> <| last_error := None |> |>
       <| live ::= fun l => list_to_map (zip ids tasks) ∪ l |> <| spawned ::= fun n => (n + length tasks)%nat |>).
Definition ended (i : nat) (w : World) : option World :=
  match ops w !! i with
  | Some (Aborting a c ids) => Some (spawn i a c (w <| live ::= forget ids |>))
  | Some (Ending a ids) =>
    Some (finish i a (w <| live ::= forget ids |>
      <| runtime ::= fun r => r <| phase := Stopped |> <| active_revision := None |> <| r_login_module := None |> <| r_pb_fetch_module := None |> |>))
  | _ => None
  end.
Definition marked (i : nat) (w : World) : option World :=
  match ops w !! i with
  | Some (Spawned a c ids) =>
    Some (at_ i (Storing a ids)
      match ids with
      | [] => set_phase Stopped w
      | _ => w <| runtime ::= fun r => mkRuntime Running (Some (revision c)) (Some (login_module c)) (Some (pb_fetch_module c)) (last_error r) |>
      end)
  | _ => None
  end.
Definition stored (i : nat) (w : World) : option World :=
  match ops w !! i with
  | Some (Storing a ids) => Some (finish i a (w <| handles := ids |>))
  | _ => None
  end.
(** [run_instance] comes to its end: only the current generation reports it, and
    the first failure stays. *)
Definition returns (t : nat) (error : option string) (w : World) : option World :=
  task ← live w !! t;
  let w := w <| live ::= delete t |> in
  if t_generation task =? generation w then
    match error with
    | None => Some w
    | Some error =>
      Some (w <| runtime ::= fun r => r <| phase := Failed |>
        <| last_error ::= fun e => Some (default ("[" +:+ id (t_instance task) +:+ "] " +:+ error) e) |> |>)
    end
  else Some w.

(** A client that hangs up: the collectors that were aborted end all the same,
    those just spawned are left to themselves. *)
Definition drop_op (op : Op) (w : World) : World :=
  match op with
  | Aborting _ _ ids | Ending _ ids => w <| live ::= forget ids |>
  | _ => w
  end.
Definition step (e : Event) (w : World) : option World :=
  match e with
  | Update i next pool => if decide (ops w !! i = None) then Some (update_config i next pool w) else None
  | Action i a =>
    if decide (ops w !! i = None) then
      Some (match a with Start => start i Status w | Stop => stop i Status w | Reload => reload i Status w end)
    else None
  | Probed i r written => probed i r written w
  | Ended i => ended i w
  | Marked i => marked i w
  | Stored i => stored i w
  | Dropped i => op ← ops w !! i; Some (drop_op op (w <| ops ::= delete i |>))
  | Returns t error => returns t error w
  end.
Fixpoint run (es : list Event) (w : World) : option World :=
  match es with
  | [] => Some w
  | e :: es => match step e w with Some w => run es w | None => None end
  end.
(** The supervisor of a boot, and [start_if_enabled]. *)
Definition boot (n : nat) (c : WatchServiceConfig) (d : Disk) : World :=
  mkWorld c d stopped_runtime 0 [] ∅ 0 n ∅ [] [].
Definition start_if_enabled (i : nat) (w : World) : World := if enabled (config w) then start i Status w else w.
End Steps.
End Supervisor.

Import Service WatchConfig Supervisor.

(** ** The configuration, whatever requests run at once *)
Section Configuration.
Context (to_value : WatchServiceConfig -> json) (urls : UrlOps) (fresh : nat -> string).
Context (read_file env_var : string -> option string) (to_lowercase : string -> string).
Abbreviation step := (step to_value urls fresh read_file env_var to_lowercase).
Abbreviation run := (run to_value urls fresh read_file env_var to_lowercase).
(** A published URL names the scheme of the one it hides. *)
Hypothesis redacted_scheme : forall stored value u, redacted_proxy urls (Some stored) = Some value -> parse urls value = inl u ->
  exists u', parse urls stored = inl u' /\ scheme urls u' = scheme urls u.
(** Each save replaced the revision it was an edit of. *)
Fixpoint chain (r : Z) (l : list (Z * WatchServiceConfig)) : Prop :=
  match l with
  | [] => True
  | (submitted, saved) :: l => submitted = r /\ revision saved = sat_add_u64 r 1 /\ chain (revision saved) l
  end.
Definition latest (c : WatchServiceConfig) (l : list (Z * WatchServiceConfig)) : WatchServiceConfig :=
  match last l with Some (_, saved) => saved | None => c end.
Lemma chain_snoc c l s saved : chain (revision c) l -> s = revision (latest c l) -> revision saved = sat_add_u64 s 1 ->
  chain (revision c) (l ++ [(s, saved)]).
Proof.
  revert c. induction l as [|[s1 c1] l IH]; intros c; cbn [app chain].
  - intros _ Hs Hr. cbn in Hs. rewrite Hr, Hs. done.
  - intros (H1 & H2 & H3) Hs Hr. split; [done|]. split; [done|]. apply IH; [done| |done]. rewrite Hs. unfold latest.
    destruct l as [|x l]; [done|]. change (last ((s1, c1) :: x :: l)) with (last (x :: l)).
    destruct (last (x :: l)) as [[]|] eqn:E; [done|]. by apply last_None in E.
Qed.
Lemma latest_snoc c l s saved : latest c (l ++ [(s, saved)]) = saved.
Proof. unfold latest. by rewrite last_snoc. Qed.

Definition op_config (op : Op) : option WatchServiceConfig :=
  match op with
  | Editing c | Probing _ c | Aborting _ c _ | Spawned _ c _ => Some c
  | Storing _ _ | Ending _ _ => None
  end.
Record coherent (c0 : WatchServiceConfig) (w : World) : Prop := {
  coherent_good : good_config urls (config w);
  coherent_file : config_file (disk w) = Document (to_value (config w));
  coherent_ops : forall i op c, ops w !! i = Some op -> op_config op = Some c -> good_config urls c;
  coherent_chain : chain (revision c0) (history w);
  coherent_latest : config w = latest c0 (history w)
}.
(** Only the operations in flight change, and what is put in flight is good. *)
Lemma coherent_same c0 w w' : coherent c0 w -> config w' = config w -> disk w' = disk w -> history w' = history w ->
  (forall i op c, ops w' !! i = Some op -> op_config op = Some c -> ops w !! i = Some op \/ good_config urls c) -> coherent c0 w'.
Proof.
  intros [H1 H2 H3 H4 H5] E1 E2 E3 Ho. split; rewrite ?E1, ?E2, ?E3; try done.
  intros i op c Hi Hc. destruct (Ho i op c Hi Hc) as [H|H]; [by eapply H3|done].
Qed.
Lemma ops_insert i op (m : gmap nat Op) j op' c :
  <[i := op]> m !! j = Some op' -> op_config op' = Some c -> (forall c', op_config op = Some c' -> good_config urls c') ->
  m !! j = Some op' \/ good_config urls c.
Proof. destruct (decide (i = j)) as [->|H]; [rewrite lookup_insert_eq; intros [= ->]; auto|rewrite lookup_insert_ne by done; auto]. Qed.
Lemma ops_delete i (m : gmap nat Op) j op' : delete i m !! j = Some op' -> m !! j = Some op'.
Proof. by intros [_ ?]%lookup_delete_Some. Qed.
Lemma coherent_answer c0 i r w : coherent c0 w -> coherent c0 (answer i r w).
Proof. intros H. apply (coherent_same c0 w); try done. intros j op c Hj%ops_delete. by left. Qed.
Lemma coherent_at c0 i op w : coherent c0 w -> (forall c, op_config op = Some c -> good_config urls c) -> coherent c0 (at_ i op w).
Proof. intros H Ho. apply (coherent_same c0 w); try done. intros j op' c Hj Hc. exact (ops_insert i op (ops w) j op' c Hj Hc Ho). Qed.
(** What the operations of a collector leave alone. *)
Lemma coherent_live c0 w w' : coherent c0 w -> config w' = config w -> disk w' = disk w -> history w' = history w -> ops w' = ops w -> coherent c0 w'.
Proof. intros H E1 E2 E3 E4. apply (coherent_same c0 w); try done. intros i op c Hi _. left. by rewrite <- E4. Qed.
Lemma coherent_start c0 i a w : coherent c0 w -> coherent c0 (start i a w).
Proof. intros H. apply coherent_at; [done|]. intros c [= <-]. apply H. Qed.
Lemma coherent_reload c0 i a w : coherent c0 w -> coherent c0 (reload i a w).
Proof. intros H. apply coherent_start. by apply (coherent_live c0 w). Qed.
Lemma coherent_stop c0 i a w : coherent c0 w -> coherent c0 (stop i a w).
Proof.
  intros H. apply (coherent_live c0 (at_ i (Ending a (handles w)) (set_phase Stopping w))); try done.
  apply coherent_at; [|done]. by apply (coherent_live c0 w).
Qed.
Lemma restored_good next stored : good_config urls next ->
  good_config urls (next <| custom_proxy_url := restored_proxy urls (custom_proxy_url next) stored |>).
Proof.
  intros H. pose proof H as (_ & _ & _ & _ & _ & _ & _ & _ & H9 & _).
  enough (Hp : good_proxy urls (next <| custom_proxy_url := restored_proxy urls (custom_proxy_url next) stored |>)).
  { unfold good_config in *. tauto. }
  intros Hm. destruct (H9 Hm) as (value & u & Hv & Hu & Hs).
  change (exists v u', restored_proxy urls (custom_proxy_url next) stored = Some v /\ parse urls v = inl u' /\
    scheme urls u' ∈ ["http"; "https"; "socks5"]).
  rewrite Hv. unfold restored_proxy. case_bool_decide as Hr; [|by eauto].
  destruct stored as [s|]; [|done]. destruct (redacted_scheme s value u Hr Hu) as (u' & Hu' & E). exists s, u'. by rewrite E.
Qed.
Lemma coherent_swap c0 i next written w : coherent c0 w -> good_config urls next -> coherent c0 (swap to_value urls i next written w).
Proof.
  intros H Hn. unfold swap. destruct (Z.eqb_spec (revision next) (revision (config w))) as [Er|]; [|by apply coherent_answer].
  set (saved := _ <| revision := _ |>). unfold persist_json. destruct written; [|apply coherent_answer; eapply coherent_live; try done; by destruct w as [? []]].
  assert (Hg : good_config urls saved) by apply (restored_good next (custom_proxy_url (config w)) Hn).
  match goal with |- coherent _ (if _ then reload _ _ ?x else _) => set (w' := x) end.
  assert (H' : coherent c0 w').
  { destruct H as [H1 H2 H3 H4 H5]. split; [done|done|exact H3| |].
    - apply chain_snoc; [exact H4|by rewrite Er, H5|]. by rewrite Er.
    - symmetry. apply latest_snoc. }
  destruct (enabled saved); [by apply coherent_reload|by apply coherent_stop].
Qed.
Lemma coherent_step c0 e w w' : coherent c0 w -> step e w = Some w' -> coherent c0 w'.
Proof.
  intros H. destruct e as [i next pool|i a|i r written|i|i|i|i|t error]; cbn [step].
  - case_decide; [|done]. intros [= <-]. unfold update_config. destruct (mint_missing_keys _ _ _) as [n l].
    set (w1 := w <| minted := n |>). assert (H1 : coherent c0 w1) by (by apply (coherent_live c0 w)).
    destruct (validate _ _) as [[]|e|] eqn:Ev; [|by apply coherent_answer|done]. apply config_valid_spec in Ev.
    destruct (shared_login _ _ _ _ _ _) as [[]|e|]; [|by apply coherent_answer|done]. apply coherent_at; [done|]. by intros c [= <-].
  - case_decide; [|done]. intros [= <-]. destruct a; [by apply coherent_start|by apply coherent_stop|by apply coherent_reload].
  - unfold probed. destruct (ops w !! i) as [op|] eqn:Eo; [|done].
    destruct op as [next|a c|a c ids|a c ids|a ids|a ids], r as [[]|e|]; try done; intros [= <-]; try (by apply coherent_answer).
    + apply coherent_swap; [done|]. by eapply (coherent_ops _ _ H).
    + apply (coherent_live c0 (at_ i (Aborting a c (handles w)) w)); try done. apply coherent_at; [done|]. intros c' [= <-].
      by eapply (coherent_ops _ _ H).
  - unfold ended. destruct (ops w !! i) as [[]|] eqn:Eo; try done; intros [= <-].
    + unfold spawn. apply coherent_at; [by apply (coherent_live c0 w)|]. intros c' [= <-]. by eapply (coherent_ops _ _ H).
    + unfold finish. apply coherent_answer. by apply (coherent_live c0 w).
  - unfold marked. destruct (ops w !! i) as [[| | |a c ids| |]|] eqn:Eo; try done. intros [= <-].
    apply coherent_at; [|done]. destruct ids; by apply (coherent_live c0 w).
  - unfold stored. destruct (ops w !! i) as [[| | | |a ids|]|] eqn:Eo; try done. intros [= <-].
    unfold finish. apply coherent_answer. by apply (coherent_live c0 w).
  - destruct (ops w !! i) as [op|] eqn:Eo; [|done]. intros [= <-]. apply (coherent_same c0 w); try done; [by destruct op..|].
    intros j op' c Hj _. left. apply (ops_delete i). destruct op; exact Hj.
  - unfold returns. destruct (live w !! t) as [task|]; [|done]. cbn [mbind option_bind].
    destruct (_ =? _), error; intros [= <-]; by apply (coherent_live c0 w).
Qed.
Lemma coherent_run c0 es : forall w w', coherent c0 w -> run es w = Some w' -> coherent c0 w'.
Proof.
  induction es as [|e es IH]; intros w w' H; cbn [run]; [by intros [= <-]|].
  destruct (step e w) as [w1|] eqn:E; [|done]. apply IH. by eapply coherent_step.
Qed.
Lemma coherent_boot n c d : good_config urls c -> config_file d = Document (to_value c) -> coherent c (boot n c d).
Proof. intros Hc Hd. by split. Qed.

(** Reading back what is written: see [load_saved]. *)
Section Reading.
Context (from_value : json -> WatchServiceConfig + string).
Hypothesis from_to : forall c, from_value (to_value c) = inl c.
Hypothesis to_instances : forall c, exists o l, to_value c = JObj o /\ assoc "instances" o = Some (JArr l) /\ length l = length (instances c).
(** C14: Whatever edits, starts, reloads and stops of the watch service run at
    once, and wherever a client hangs up or a write to disk fails: each saved
    configuration was an edit of exactly the one it replaced and has the next
    revision, so that no accepted edit is overwritten by one that had not seen it;
    the configuration in force is the last one saved, it is a valid one, it is what
    the file holds, and the next boot reads it back from there unchanged. *)
Theorem no_edit_is_lost n c d es w : good_config urls c -> config_file d = Document (to_value c) ->
  run es (boot n c d) = Some w ->
  chain (revision c) (history w) /\ config w = latest c (history w) /\ good_config urls (config w) /\
  forall m renamed written, load from_value to_value urls fresh m renamed written (disk w) = (disk w, Ok (m, config w)).
Proof.
  intros Hc Hd Hr. pose proof (coherent_run c es _ _ (coherent_boot n c d Hc Hd) Hr) as [H1 H2 _ H4 H5].
  split_and!; try done. intros m renamed written. by apply (load_saved from_value to_value).
Qed.

End Reading.

(** ** One request at a time *)
Definition begins (e : Event) : bool := match e with Update _ _ _ | Action _ _ => true | _ => false end.
(** A request begins when none is in flight, and its client waits for the answer. *)
Fixpoint serial (es : list Event) (w : World) : Prop :=
  match es with
  | [] => True
  | e :: es =>
    (begins e = true -> ops w = ∅) /\ (match e with Dropped _ => False | _ => True end) /\
    match step e w with Some w' => serial es w' | None => True end
  end.
(** The collectors that run are instances of one configuration, and [ids] names
    all of them. *)
Definition crew (ids : list nat) (l : gmap nat Task) : Prop :=
  exists k g c, good_config urls c /\
    forall t task, l !! t = Some task -> t ∈ ids /\ exists j, t = (k + j)%nat /\ mkTask g c <$> active_instances c !! j = Some task.
(** Where the handles of the collectors are, as an operation stands. *)
Definition keeper (hs : list nat) (op : Op) : list nat :=
  match op with
  | Editing _ | Probing _ _ => hs
  | Aborting _ _ ids | Spawned _ _ ids | Storing _ ids | Ending _ ids => ids
  end.
Definition manned (w : World) : Prop :=
  ops w = ∅ /\ crew (handles w) (live w) \/ exists i op, ops w = {[i := op]} /\ crew (keeper (handles w) op) (live w).
Lemma crew_none ids : crew ids ∅.
Proof. exists 0%nat, 0, default_config. split; [apply default_good|]. intros t task [=]. Qed.
Lemma crew_forget ids l : crew ids l -> forget ids l = ∅.
Proof.
  intros (k & g & c & _ & H). apply map_empty. intros t. apply map_lookup_filter_None. right. intros task Ht Hn. apply Hn. cbn. by apply (H t task).
Qed.
Lemma crew_delete ids t l : crew ids l -> crew ids (delete t l).
Proof. intros (k & g & c & Hc & H). exists k, g, c. split; [done|]. intros t' task [_ Ht]%lookup_delete_Some. by apply H. Qed.
Lemma crew_spawned n g c : good_config urls c ->
  crew (seq n (length (map (mkTask g c) (active_instances c))))
    (list_to_map (zip (seq n (length (map (mkTask g c) (active_instances c)))) (map (mkTask g c) (active_instances c)))).
Proof.
  intros Hc. exists n, g, c. split; [done|]. intros t task Ht%elem_of_list_to_map_2. apply list_elem_of_lookup in Ht as [j Hj].
  apply lookup_zip_with_Some in Hj as (x & y & [= -> ->] & H1 & H2). split; [by apply list_elem_of_lookup_2 in H1|].
  apply lookup_seq in H1 as [-> _]. exists j. split; [done|]. by rewrite <- list_lookup_fmap.
Qed.
Lemma active_accounts c j1 j2 x y : good_config urls c -> active_instances c !! j1 = Some x -> active_instances c !! j2 = Some y ->
  account_secret_ref x = account_secret_ref y -> j1 = j2.
Proof.
  intros (_ & _ & _ & _ & Hn & _) H1 H2 E.
  assert (Ha : NoDup (account_secret_ref <$> active_instances c)).
  { eapply sublist_NoDup; [exact Hn|]. clear Hn. unfold active_instances. induction (instances c) as [|i l IH]; [done|].
    cbn [List.filter map]. destruct (enabled c && i_enabled i); by constructor. }
  eapply NoDup_lookup; [exact Ha|..]; rewrite list_lookup_fmap; [rewrite H1|rewrite H2]; cbn; [done|by rewrite E].
Qed.

(** No operation but [i] is in flight. *)
Definition only (i : nat) (w : World) : Prop := ops w = ∅ \/ exists op, ops w = {[i := op]}.
Lemma manned_answer i r w : only i w -> crew (handles w) (live w) -> manned (answer i r w).
Proof. intros Ho Hc. left. split; [|done]. cbn. destruct Ho as [->|[op ->]]; [apply delete_empty|apply delete_singleton_eq]. Qed.
Lemma manned_at i op w : only i w -> crew (keeper (handles w) op) (live w) -> manned (at_ i op w).
Proof. intros Ho Hc. right. exists i, op. split; [|done]. cbn. destruct Ho as [->|[op' ->]]; [done|apply insert_singleton_eq]. Qed.
Lemma manned_only i op w : manned w -> ops w !! i = Some op -> only i w /\ crew (keeper (handles w) op) (live w).
Proof.
  intros [[E _]|(j & op' & E & Hc)]; rewrite E; [done|]. intros [<- <-]%lookup_singleton_Some. split; [|done]. right. by exists op'.
Qed.
Lemma manned_idle w : manned w -> ops w = ∅ -> crew (handles w) (live w).
Proof. intros [[_ H]|(i & op & E & _)] E0; [done|]. rewrite E in E0. exfalso. exact (map_non_empty_singleton i op E0). Qed.
Lemma manned_start i a w : only i w -> crew (handles w) (live w) -> manned (start i a w).
Proof. intros Ho Hc. by apply manned_at. Qed.
Lemma manned_stop i a w : only i w -> crew (handles w) (live w) -> manned (stop i a w).
Proof.
  intros Ho Hc. right. exists i, (Ending a (handles w)). split; [|done]. cbn. destruct Ho as [->|[op' ->]]; [done|apply insert_singleton_eq].
Qed.
Lemma manned_swap i next written w : only i w -> crew (handles w) (live w) -> manned (swap to_value urls i next written w).
Proof.
  intros Ho Hc. unfold swap. destruct (_ =? _); [|by apply manned_answer]. unfold persist_json.
  destruct written; [|by apply manned_answer]. destruct (enabled _); [by apply manned_start|by apply manned_stop].
Qed.
Lemma manned_step c0 e w w' : coherent c0 w -> manned w -> (begins e = true -> ops w = ∅) -> (match e with Dropped _ => False | _ => True end) ->
  step e w = Some w' -> manned w'.
Proof.
  intros Hk H Hb Hd. destruct e as [i next pool|i a|i r written|i|i|i|i|t error]; cbn [step] in *; [..|done|].
  - specialize (Hb eq_refl). pose proof (manned_idle w H Hb) as Hc. case_decide; [|done]. intros [= <-]. unfold update_config.
    destruct (mint_missing_keys _ _ _) as [n l]. destruct (validate _ _); [|apply manned_answer; [by left|done]|by left].
    destruct (shared_login _ _ _ _ _ _); [|apply manned_answer; [by left|done]|by left]. apply manned_at; [by left|done].
  - specialize (Hb eq_refl). pose proof (manned_idle w H Hb) as Hc. case_decide; [|done]. intros [= <-].
    destruct a; [apply manned_start|apply manned_stop|apply manned_start]; try done; by left.
  - unfold probed. destruct (ops w !! i) as [op|] eqn:Eo; [|done]. destruct (manned_only i op w H Eo) as [Ho Hc].
    destruct op as [next|a c|a c ids|a c ids|a ids|a ids], r as [[]|e|]; try done; intros [= <-].
    + by apply manned_swap.
    + by apply manned_answer.
    + destruct Ho as [Ho|[op' Ho]]; right; exists i, (Aborting a c (handles w)); (split; [|done]); cbn; rewrite Ho; [done|apply insert_singleton_eq].
    + by apply manned_answer.
  - unfold ended. destruct (ops w !! i) as [op|] eqn:Eo; [|done]. destruct (manned_only i op w H Eo) as [Ho Hc].
    destruct op as [next|a c|a c ids|a c ids|a ids|a ids]; try done; intros [= <-].
    + apply manned_at; [done|]. cbn [live keeper]. cbn in Hc. 
      change (crew (seq (spawned w) (length (map (mkTask (generation w + 1) c) (active_instances c))))
        (list_to_map (zip (seq (spawned w) (length (map (mkTask (generation w + 1) c) (active_instances c)))) (map (mkTask (generation w + 1) c) (active_instances c))) ∪ forget ids (live w))).
      rewrite (crew_forget ids (live w) Hc), map_union_empty. apply crew_spawned. by eapply (coherent_ops _ _ Hk).
    + apply manned_answer; [done|]. cbn in Hc |- *. rewrite (crew_forget ids (live w) Hc). apply crew_none.
  - unfold marked. destruct (ops w !! i) as [op|] eqn:Eo; [|done]. destruct (manned_only i op w H Eo) as [Ho Hc].
    destruct op as [next|a c|a c ids|a c ids|a ids|a ids]; try done; intros [= <-]. apply manned_at; by destruct ids.
  - unfold stored. destruct (ops w !! i) as [op|] eqn:Eo; [|done]. destruct (manned_only i op w H Eo) as [Ho Hc].
    destruct op as [next|a c|a c ids|a c ids|a ids|a ids]; try done; intros [= <-]. by apply manned_answer.
  - unfold returns. destruct (live w !! t) as [task|]; [|done]. cbn [mbind option_bind].
    assert (Hm : manned (w <| live ::= delete t |>)).
    { destruct H as [[Ho Hc]|(i & op & Ho & Hc)]; [left|right; exists i, op]; (split; [done|]); by apply crew_delete. }
    destruct (_ =? _), error; intros [= <-]; exact Hm.
Qed.
Lemma manned_run c0 es : forall w w', coherent c0 w -> manned w -> serial es w -> run es w = Some w' -> manned w'.
Proof.
  induction es as [|e es IH]; intros w w' Hk H Hs; cbn [run serial] in *; [by intros [= <-]|]. destruct Hs as (H1 & H2 & Hs).
  destruct (step e w) as [w1|] eqn:E; [|done]. apply IH; [by eapply coherent_step|by eapply manned_step|done].
Qed.
(** C15: While requests to the watch service come one after another, none given up
    before its answer, whatever the probes, the writes and the collectors
    themselves do: no two collectors that run have the same account reference,
    letter for letter, across the generations too, and when no request is in
    flight every one that runs can be stopped, because its handle is kept. Two
    references that lead to one account are not told apart here: a save resolves
    them ([WatchConfig.shared_login]), a boot does not. *)
Theorem one_collector_per_reference n c d es w : good_config urls c -> config_file d = Document (to_value c) ->
  serial es (boot n c d) -> run es (boot n c d) = Some w ->
  (forall t1 t2 x y, live w !! t1 = Some x -> live w !! t2 = Some y ->
     account_secret_ref (t_instance x) = account_secret_ref (t_instance y) -> t1 = t2) /\
  (ops w = ∅ -> forall t, is_Some (live w !! t) -> t ∈ handles w).
Proof.
  intros Hc Hd Hs Hr. pose proof (coherent_boot n c d Hc Hd) as Hk.
  assert (Hm : manned w) by (eapply (manned_run c); [exact Hk|left; split; [done|apply crew_none]|done..]).
  split; [|by intros Ho t [x Hx]; destruct (manned_idle w Hm Ho) as (k & g & c' & _ & H); apply (H t x)].
  assert (H : exists ids, crew ids (live w)) by (destruct Hm as [[_ H]|(i & op & _ & H)]; eauto).
  destruct H as (ids & k & g & c' & Hg & H). intros t1 t2 x y H1 H2 E.
  destruct (H _ _ H1) as (_ & j1 & -> & E1), (H _ _ H2) as (_ & j2 & -> & E2).
  destruct (active_instances c' !! j1) as [i1|] eqn:A1; [|done]. destruct (active_instances c' !! j2) as [i2|] eqn:A2; [|done].
  injection E1 as <-. injection E2 as <-. f_equal. by eapply (active_accounts c').
Qed.
End Configuration.

(** ** Witnesses: a service of two collectors. *)
Definition toy_pair : WatchServiceConfig :=
  default_config <| enabled := true |> <| instances := [toy_named "a" "a"; toy_named "b" "b"] |>.
Definition toy_saved : Disk := mkDisk (Document (toy_to_value toy_pair)) ∅.
Definition toy_run : list Event -> World -> option World :=
  run toy_to_value toy_urls toy_fresh (fun _ => None) (fun _ => None) Datatypes.id.
Definition toy_start : World := boot 0 toy_pair toy_saved.
Lemma toy_good : good_config toy_urls toy_pair.
Proof. apply config_valid_spec. vm_compute. reflexivity. Qed.
Lemma toy_redacted stored value u : redacted_proxy toy_urls (Some stored) = Some value -> parse toy_urls value = inl u ->
  exists u', parse toy_urls stored = inl u' /\ scheme toy_urls u' = scheme toy_urls u.
Proof.
  unfold redacted_proxy. destruct (parse toy_urls stored) as [u'|e] eqn:E; [by exists u'|]. intros [= <-]. by rewrite E.
Qed.
(** The whole of a request: probed, the old collectors ended, the new ones kept. *)
Definition begun (i : nat) : list Event := [Ended i; Marked i; Stored i].
Definition started (i : nat) : list Event := Action i Start :: Probed i (Ok ()) true :: begun i.
(** Two edits of one revision: the second is refused. *)
Definition toy_edits : list Event :=
  [Update 1 toy_pair (Accounts.mkPool Accounts.default_document None ∅); Update 2 (toy_pair <| poll_interval_secs := 60 |>) (Accounts.mkPool Accounts.default_document None ∅);
   Probed 2 (Ok ()) true; Probed 1 (Ok ()) true].
Lemma no_edit_is_lost_witness : exists w, toy_run toy_edits toy_start = Some w /\ chain 1 (history w) /\
  poll_interval_secs (config w) = 60 /\ head (answers w) = Some (1%nat, Refused (RevisionConflict 1 2)).
Proof.
  destruct (toy_run toy_edits toy_start) as [w|] eqn:E; [|exfalso; revert E; vm_compute; discriminate].
  exists w. split; [reflexivity|]. split.
  - exact (proj1 (no_edit_is_lost toy_to_value toy_urls toy_fresh (fun _ => None) (fun _ => None) Datatypes.id
      toy_redacted toy_from_value toy_from_to toy_to_instances 0 toy_pair toy_saved toy_edits w toy_good eq_refl E)).
  - revert E. vm_compute. intros [= <-]. repeat split.
Defined.
(** A start, a collector that fails, a reload. *)
Definition toy_serial : list Event :=
  started 1 ++ [Returns 0 (Some "login refused")] ++ [Action 2 Reload; Probed 2 (Ok ()) true] ++ begun 2.
Lemma one_collector_per_reference_witness : exists w, toy_run toy_serial toy_start = Some w /\ size (live w) = 2%nat /\
  forall t, is_Some (live w !! t) -> t ∈ handles w.
Proof.
  destruct (toy_run toy_serial toy_start) as [w|] eqn:E; [|exfalso; revert E; vm_compute; discriminate].
  exists w. split; [reflexivity|]. split; [revert E; vm_compute; intros [= <-]; reflexivity|].
  refine (proj2 (one_collector_per_reference toy_to_value toy_urls toy_fresh (fun _ => None) (fun _ => None) Datatypes.id
    toy_redacted 0 toy_pair toy_saved toy_serial w toy_good eq_refl _ E) _).
  - vm_compute. repeat split; try discriminate; reflexivity.
  - revert E. vm_compute. intros [= <-]. reflexivity.
Defined.
(** Two reloads at once: each takes the handles before the other has kept its
    own, and the collectors of both generations run, on the same accounts, with
    the handles of one of them only. *)
Example overlapping_reloads :
  let w := toy_run (started 1 ++ [Action 2 Reload; Action 3 Reload; Probed 2 (Ok ()) true; Probed 3 (Ok ()) true] ++ begun 2 ++ begun 3) toy_start in
  (fun w => (map (fun p => (p.1, t_generation p.2, id (t_instance p.2))) (map_to_list (live w)), handles w)) <$> w
    = Some ([(4%nat, 3, "a"); (2%nat, 2, "a"); (5%nat, 3, "b"); (3%nat, 2, "b")], [4; 5]%nat).
Proof. vm_compute. reflexivity. Qed.
(** The client of a reload hangs up while the old collectors end: nothing runs,
    and the service goes on reporting that it reloads. *)
Example dropped_reload :
  let w := toy_run (started 1 ++ [Action 2 Reload; Probed 2 (Ok ()) true; Dropped 2]) toy_start in
  (fun w => (size (live w), phase (runtime w), dom (ops w))) <$> w = Some (0%nat, Reloading, ∅).
Proof. vm_compute. reflexivity. Qed.
(** A reload whose probe fails leaves the old collectors running and the service
    reported as reloading. *)
Example failed_reload :
  let w := toy_run (started 1 ++ [Action 2 Reload; Probed 2 (Err (Io "module")) true]) toy_start in
  (fun w => (size (live w), phase (runtime w), dom (ops w))) <$> w = Some (2%nat, Reloading, ∅).
Proof. vm_compute. reflexivity. Qed.
(** A collector that fails before the start writes its status is reported as
    running. *)
Example early_failure :
  let w := toy_run ([Action 1 Start; Probed 1 (Ok ()) true; Ended 1; Returns 0 (Some "x"); Returns 1 (Some "y"); Marked 1; Stored 1]) toy_start in
  (fun w => (size (live w), phase (runtime w), last_error (runtime w))) <$> w = Some (0%nat, Running, Some "[a] x").
Proof. vm_compute. reflexivity. Qed.
