(* ===== verification/Plugin.v ===== *)
(** The process of an external module and the requests it is asked
    ([PluginWorker] of [src/src/watch_service.rs]): one line out and one line back
    under a lock, in the steps between which the module writes, other callers wait
    and requests are abandoned; and what is logged of its standard error. *)
From S2P Require Import Prelude Text Json Service.
#[local] Open Scope string_scope.
#[local] Open Scope list_scope.
#[local] Open Scope Z_scope.

Module Plugin.
Import Service.
Definition MODULE_PROTOCOL_VERSION : Z := 1.
Definition deadline (name : string) : Z :=
  if String.eqb name "open_session" then 120
  else if String.eqb name "rpc" then 60
  else if String.eqb name "register" then 900
  else 5.

(** A request, and what is written of it. *)
Record Call := mkCall { c_id : Z; c_method : string; c_params : json }.
Definition request (c : Call) : json := JObj [
  ("id", num (c_id c)); ("protocol_version", num MODULE_PROTOCOL_VERSION); ("method", JStr (c_method c)); ("params", c_params c)].
Definition answer_id (v : json) : option Z := get "id" v ≫= as_u64.
(** What an answer with the id of its request says. *)
Definition reply (response : json) : result WatchServiceError json :=
  if bool_decide (get "ok" response ≫= as_bool = Some true)
  then Ok (default (JObj []) (get "result" response))
  else Err (ModuleFailed (default "module request failed" (get "error" response ≫= as_str))).

(** The pipes of a process: the requests it was written, the bytes it has still
    to write, those it wrote and nobody read, and those that were read. *)
Record Pipes := mkPipes { alive : bool; asked : list Call; owed : list Z; out : list Z; taken : list Z }.
#[export] Instance Pipes_settable : Settable Pipes := fun p => mkPipes (alive p) (asked p) (owed p) (out p) (taken p).
Definition fresh_pipes : Pipes := mkPipes true [] [] [] [].
Record PluginWorker := mkWorker {
  pipes : Pipes; sequence : Z; desynced : bool; waiting : gmap Z Call; flight : option Call;
  answers : list (Call * result WatchServiceError json); calls : list Call
}.
#[export] Instance PluginWorker_settable : Settable PluginWorker := fun w =>
  mkWorker (pipes w) (sequence w) (desynced w) (waiting w) (flight w) (answers w) (calls w).
Definition spawn : PluginWorker := mkWorker fresh_pipes 1 false ∅ None [] [].

(** [read_line], when it can complete: up to a newline, or all that is left of a
    process that is gone. *)
Fixpoint until_newline (l : list Z) : option (list Z * list Z) :=
  match l with
  | [] => None
  | b :: l => if b =? 10 then Some ([b], l) else '(line, rest) ← until_newline l; Some (b :: line, rest)
  end.
Definition read_line (p : Pipes) : option (list Z * list Z) :=
  match until_newline (out p) with
  | Some r => Some r
  | None => if alive p then None else Some (out p, [])
  end.
Definition consume (n : nat) (p : Pipes) : Pipes :=
  p <| taken ::= fun l => l ++ take n (out p) |> <| out := drop n (out p) |>.

Inductive Event :=
| Request (name : string) (params : json)
| Locked (id : Z) (restarted written : bool)
| Line
| TimedOut
| ReadFailed
| Cancelled (id : Z) (n : nat)
| Wrote (n : nat)
| Exited.

Section Steps.
(** [serde_json::from_str], and the module: what it answers to a request, on a
    line of its own. *)
Variable from_str : list Z -> json + string.
Variable serve : Call -> json.
Variable text : json -> list Z.
Definition line (c : Call) : list Z := text (serve c) ++ [10].

(** The end of a request: the lock is given back. *)
Definition finish (c : Call) (r : result WatchServiceError json) (w : PluginWorker) : PluginWorker :=
  w <| flight := None |> <| answers ::= fun l => l ++ [(c, r)] |>.
(** A line is there, or the end of the output. *)
Definition received (c : Call) (bytes : list Z) (w : PluginWorker) : PluginWorker :=
  if negb (utf8_valid bytes) then finish c (Err (Io "stream did not contain valid UTF-8")) w
  else match bytes with
  | [] => finish c (Err (ModuleFailed ("模块在处理 " +:+ c_method c +:+ " 时退出了"))) w
  | _ =>
    match from_str bytes with
    | inr e => finish c (Err (Json e)) (w <| desynced := true |>)
    | inl response =>
      if bool_decide (answer_id response = Some (c_id c)) then finish c (reply response) w
      else finish c (Err (ModuleFailed "module returned a response with the wrong request id")) (w <| desynced := true |>)
    end
  end.
(** The lock is taken: the process is started again when the last request left
    the pipe at an offset nobody knows, and the request is written. *)
Definition locked (c : Call) (restarted written : bool) (w : PluginWorker) : PluginWorker :=
  let w := w <| waiting ::= delete (c_id c) |> in
  let go (w : PluginWorker) :=
    if written && alive (pipes w)
    then w <| pipes ::= fun p => p <| asked ::= fun l => l ++ [c] |> <| owed ::= fun l => l ++ line c |> |> <| flight := Some c |>
    else finish c (Err (Io "Broken pipe")) w in
  if desynced w then
    let w := w <| desynced := false |> in
    if restarted then go (w <| pipes := fresh_pipes |>) else finish c (Err (Io "spawn")) w
  else go w.
Definition step (e : Event) (w : PluginWorker) : option PluginWorker :=
  match e with
  | Request name params =>
    let c := mkCall (sequence w) name params in
    Some (w <| sequence := Prelude.as_u64 (sequence w + 1) |> <| waiting ::= <[c_id c := c]> |> <| calls ::= fun l => l ++ [c] |>)
  | Locked id restarted written =>
    match flight w, waiting w !! id with None, Some c => Some (locked c restarted written w) | _, _ => None end
  | Line =>
    c ← flight w; '(bytes, _) ← read_line (pipes w);
    Some (received c bytes (w <| pipes ::= consume (length bytes) |>))
  | TimedOut =>
    c ← flight w;
    match read_line (pipes w) with
    | Some _ => None
    | None =>
      Some (finish c (Err (ModuleFailed ("模块的 " +:+ c_method c +:+ " 在 " +:+ pretty (deadline (c_method c)) +:+ " 秒内没有回应")))
        (w <| pipes ::= fun p => consume (length (out p)) p |> <| desynced := true |>))
    end
  | ReadFailed => c ← flight w; Some (finish c (Err (Io "read")) w)
  (* the future of a request is dropped: while it waits for the lock, or while it
     reads, with [n] bytes of a line already taken *)
  | Cancelled id n =>
    match flight w with
    | Some c =>
      if c_id c =? id then
        match until_newline (take n (out (pipes w))) with
        | Some _ => None
        | None => Some (w <| pipes ::= consume n |> <| flight := None |>)
        end
      else Some (w <| waiting ::= delete id |>)
    | None => Some (w <| waiting ::= delete id |>)
    end
  | Wrote n =>
    if alive (pipes w)
    then Some (w <| pipes ::= fun p => p <| out ::= fun l => l ++ take n (owed p) |> <| owed := drop n (owed p) |> |>)
    else None
  | Exited => Some (w <| pipes ::= fun p => p <| alive := false |> |>)
  end.
Fixpoint run (es : list Event) (w : PluginWorker) : option PluginWorker :=
  match es with
  | [] => Some w
  | e :: es => match step e w with Some w => run es w | None => None end
  end.
End Steps.

(** ** The standard error of a module

    Read in blocks of at most so many bytes, each up to a newline. *)
Definition MAX_LINE_BYTES : nat := 8192.
Fixpoint trim_line (l : list Z) : list Z :=
  match l with
  | [] => []
  | b :: l => match trim_line l with [] => if (b =? 10) || (b =? 13) then [] else [b] | l => b :: l end
  end.
Definition next_block (limit : nat) (s : list Z) : list Z * list Z :=
  match until_newline (take limit s) with
  | Some (block, _) => (block, drop (length block) s)
  | None => (take limit s, drop limit s)
  end.
Fixpoint log_lines (fuel limit : nat) (discarding : bool) (s : list Z) : list (list Z) :=
  match fuel with
  | O => []
  | S fuel =>
    match s with
    | [] => []
    | _ =>
      let '(buf, rest) := next_block limit s in
      let complete := match last buf with Some b => b =? 10 | None => false end in
      if discarding then log_lines fuel limit (negb complete) rest
      else match trim_line (lossy buf) with
           | [] => log_lines fuel limit (negb complete) rest
           | l => l :: log_lines fuel limit (negb complete) rest
           end
    end
  end.
Definition stderr_log (s : list Z) : list (list Z) := log_lines (length s) MAX_LINE_BYTES false s.
End Plugin.

Import Service Plugin.

(** ** Lines *)
Lemma until_newline_some l : forall line rest, until_newline l = Some (line, rest) ->
  l = line ++ rest /\ exists x, line = x ++ [10] /\ (10 ∉ x).
Proof.
  induction l as [|b l IH]; intros line rest; cbn [until_newline]; [done|]. destruct (Z.eqb_spec b 10) as [->|Hb].
  - intros [= <- <-]. split; [done|]. exists []. split; [done|]. apply not_elem_of_nil.
  - destruct (until_newline l) as [[line1 rest1]|]; [|done]. intros [= <- <-]. destruct (IH _ _ eq_refl) as (-> & x & -> & Hx).
    split; [done|]. exists (b :: x). split; [done|]. by rewrite not_elem_of_cons.
Qed.
Lemma until_newline_none l : until_newline l = None -> 10 ∉ l.
Proof.
  induction l as [|b l IH]; cbn [until_newline]; [intros _; apply not_elem_of_nil|]. destruct (Z.eqb_spec b 10); [done|].
  destruct (until_newline l) as [[]|]; [done|]. intros _. rewrite not_elem_of_cons. auto.
Qed.
Lemma until_newline_app x rest : (10 ∉ x) -> until_newline (x ++ 10 :: rest) = Some (x ++ [10], rest).
Proof.
  induction x as [|b x IH]; [done|]. rewrite not_elem_of_cons. intros [Hb Hx]. cbn [until_newline app].
  destruct (Z.eqb_spec b 10); [done|]. by rewrite IH.
Qed.
(** What is read at once: no newline but the last byte. *)
Definition one_line (l : list Z) : Prop := exists x y, l = x ++ y /\ (10 ∉ x) /\ (length y <= 1)%nat.
Lemma read_line_spec p bytes rest : read_line p = Some (bytes, rest) -> out p = bytes ++ rest /\ one_line bytes.
Proof.
  unfold read_line. destruct (until_newline (out p)) as [[b r]|] eqn:E.
  - intros [= <- <-]. destruct (until_newline_some _ _ _ E) as (-> & x & -> & Hx). split; [done|]. by exists x, [10].
  - destruct (alive p); [done|]. intros [= <- <-]. split; [by rewrite app_nil_r|]. exists (out p), []. rewrite app_nil_r.
    split; [done|]. split; [by apply until_newline_none|cbn; lia].
Qed.

Lemma one_line_end a b : one_line (a ++ 10 :: b) -> b = [].
Proof.
  intros (x & y & E & Hx & Hy). apply app_eq_inv in E as [(m & -> & E)|(m & -> & E)].
  - subst y. rewrite length_app in Hy. cbn in Hy. destruct b; [done|cbn in Hy; lia].
  - destruct m as [|z m]; [cbn in E; subst y; destruct b; [done|cbn in Hy; lia]|].
    injection E as <- _. exfalso. apply Hx. apply elem_of_app. right. by left.
Qed.
Section Facts.
Context (from_str : list Z -> json + string) (serve : Call -> json) (text : json -> list Z).
Abbreviation line := (line serve text).
Abbreviation step := (step from_str serve text).
Abbreviation run := (run from_str serve text).
(** The module answers each request with its id; the text of an answer is one
    line, and what reads as an answer in a part of that line is the answer. *)
Hypothesis serve_id : forall c, answer_id (serve c) = Some (c_id c).
Hypothesis text_line : forall c, 10 ∉ text (serve c).
Hypothesis text_part : forall c a b d v, line c = a ++ b ++ d -> from_str b = inl v -> answer_id v <> None -> v = serve c.

(** A line read from the answers is a part of one of them. *)
Lemma line_of_answers l : forall pre b post, concat (map line l) = pre ++ b ++ post -> b <> [] -> one_line b ->
  exists c a d, c ∈ l /\ line c = a ++ b ++ d.
Proof.
  induction l as [|c l IH]; intros pre b post E Hb Hl; cbn [map concat] in E.
  { symmetry in E. apply app_eq_nil in E as [_ E]. by apply app_eq_nil in E as [E _]. }
  apply app_eq_inv in E as [(k & Ec & E)|(k & -> & E)]; [|edestruct (IH k b post) as (c' & a & d & Hc & Hd); [done..|]; exists c', a, d; split; [by right|done]].
  apply app_eq_inv in E as [(k2 & -> & E)|(k2 & -> & _)]; [|by exists c, pre, k2; split; [left|]].
  destruct (decide (k = [])) as [->|Hk].
  - destruct (IH [] k2 post E Hb Hl) as (c' & a & d & Hc & Hd). exists c', a, d. split; [by right|done].
  - destruct (exists_last Hk) as (k' & z & ->). unfold Plugin.line in Ec. rewrite app_assoc in Ec. apply app_inj_tail in Ec as [Ec <-].
    rewrite <- app_assoc in Hl. apply one_line_end in Hl as ->. exists c, pre, []. split; [by left|].
    unfold Plugin.line. by rewrite Ec, !app_nil_r, app_assoc.
Qed.

(** The bytes of the pipe are the lines of the requests that were written to it,
    and every request has its own id. *)
Record sound (w : PluginWorker) : Prop := {
  sound_stream : taken (pipes w) ++ out (pipes w) ++ owed (pipes w) = concat (map line (asked (pipes w)));
  sound_asked : forall c, c ∈ asked (pipes w) -> c ∈ calls w;
  sound_waiting : forall i c, waiting w !! i = Some c -> c ∈ calls w /\ c_id c = i;
  sound_flight : forall c, flight w = Some c -> c ∈ calls w;
  sound_ids : map c_id (calls w) = seqZ 1 (zlen (calls w));
  sound_next : sequence w = 1 + zlen (calls w);
  sound_answers : forall c v, (c, Ok v) ∈ answers w -> c ∈ calls w /\ reply (serve c) = Ok v
}.
Lemma sound_spawn : sound spawn.
Proof. split; try done; cbn. intros c v H. by apply not_elem_of_nil in H. Qed.
(** A step that touches neither the requests nor the answers. *)
Lemma sound_pipes w w' : sound w -> calls w' = calls w -> sequence w' = sequence w -> answers w' = answers w ->
  waiting w' = waiting w \/ (exists i, waiting w' = delete i (waiting w)) -> (forall c, flight w' = Some c -> c ∈ calls w) ->
  taken (pipes w') ++ out (pipes w') ++ owed (pipes w') = concat (map line (asked (pipes w'))) ->
  (forall c, c ∈ asked (pipes w') -> c ∈ calls w) -> sound w'.
Proof.
  intros H E1 E2 E3 E4 Hf Hs Ha. destruct H as [_ _ H3 _ H5 H6 H7]. split; rewrite ?E1, ?E2, ?E3; try done.
  destruct E4 as [->|[j ->]]; [done|]. intros i c [_ Hi]%lookup_delete_Some. by apply H3.
Qed.
Lemma sound_finish c r w : sound w -> c ∈ calls w -> (forall v, r = Ok v -> reply (serve c) = Ok v) -> sound (finish c r w).
Proof.
  intros [H1 H2 H3 H4 H5 H6 H7] Hc Hr. split; try done. cbn. intros c' v [Hin|Hin%list_elem_of_singleton]%elem_of_app; [by apply H7|].
  injection Hin as -> <-. split; [done|]. by apply Hr.
Qed.
Lemma consume_stream n p : taken (consume n p) ++ out (consume n p) ++ owed (consume n p) = taken p ++ out p ++ owed p.
Proof. unfold consume. cbn. rewrite <- app_assoc. f_equal. by rewrite app_assoc, take_drop. Qed.
Lemma sound_consume n w : sound w -> sound (w <| pipes ::= consume n |>).
Proof.
  intros H. apply (sound_pipes w); try done; [by left|by apply (sound_flight _ H)| |by apply (sound_asked _ H)].
  change (pipes (w <| pipes ::= consume n |>)) with (consume n (pipes w)). rewrite consume_stream. apply H.
Qed.
Lemma call_unique w c c' : sound w -> c ∈ calls w -> c' ∈ calls w -> c_id c = c_id c' -> c = c'.
Proof.
  intros H [i Hi]%list_elem_of_lookup [j Hj]%list_elem_of_lookup E.
  assert (Hn : NoDup (c_id <$> calls w)) by (change (NoDup (map c_id (calls w))); rewrite (sound_ids _ H); apply NoDup_seqZ).
  assert (i = j) as ->; [|congruence].
  eapply NoDup_lookup; [exact Hn|..]; rewrite list_lookup_fmap; [by rewrite Hi|by rewrite Hj, E].
Qed.
Lemma sound_flag b w : sound w -> sound (w <| desynced := b |>).
Proof. intros H. apply (sound_pipes w); try done; [by left|apply H..]. Qed.
Lemma sound_received c bytes pre post w : sound w -> c ∈ calls w -> concat (map line (asked (pipes w))) = pre ++ bytes ++ post ->
  one_line bytes -> sound (received from_str c bytes w).
Proof.
  intros H Hc Hs Hl. unfold received. destruct (utf8_valid bytes); cbn [negb]; [|by apply sound_finish].
  destruct bytes as [|b bytes]; [by apply sound_finish|].
  destruct (from_str (b :: bytes)) as [v|e] eqn:Ev; [|by apply sound_finish; [apply sound_flag|..]].
  case_bool_decide as Hid; [|by apply sound_finish; [apply sound_flag|..]].
  destruct (line_of_answers _ _ _ _ Hs ltac:(done) Hl) as (c' & a & d & Hc' & Hd).
  assert (v = serve c') as -> by (eapply text_part; [exact Hd|exact Ev|by rewrite Hid]). rewrite serve_id in Hid. injection Hid as Hid.
  rewrite (call_unique w c' c H (sound_asked _ H _ Hc') Hc Hid). by apply sound_finish.
Qed.
Lemma sound_write c w : sound w -> c ∈ calls w ->
  sound (w <| pipes ::= fun p => p <| asked ::= fun l => l ++ [c] |> <| owed ::= fun l => l ++ line c |> |> <| flight := Some c |>).
Proof.
  intros H Hc. apply (sound_pipes w); try done; [by left|by intros ? [= <-]|..]; cbn.
  - rewrite map_app, concat_app. cbn. rewrite app_nil_r, !app_assoc. f_equal. rewrite <- app_assoc. apply H.
  - intros c' [Hin|Hin]%elem_of_app; [by apply (sound_asked _ H)|]. by apply list_elem_of_singleton in Hin as ->.
Qed.
Lemma sound_locked c restarted written w : sound w -> c ∈ calls w -> flight w = None -> sound (locked serve text c restarted written w).
Proof.
  intros H Hc Hf. unfold locked.
  set (w1 := w <| waiting ::= delete (c_id c) |>).
  assert (H1 : sound w1) by (apply (sound_pipes w); try done; [right; by exists (c_id c)|apply H..]).
  assert (Hgo : forall w2, sound w2 -> calls w2 = calls w -> sound (if written && alive (pipes w2)
    then w2 <| pipes ::= fun p => p <| asked ::= fun l => l ++ [c] |> <| owed ::= fun l => l ++ line c |> |> <| flight := Some c |>
    else finish c (Err (Io "Broken pipe")) w2)).
  { intros w2 H2 E2. destruct (_ && _); [apply sound_write|apply sound_finish]; by rewrite ?E2. }
  destruct (desynced w1); [|by apply Hgo]. destruct restarted; [|by apply sound_finish; [apply sound_flag|..]].
  apply Hgo; [|done]. apply (sound_pipes w1); try done; [by left|apply H1|]. intros c' Hin. by apply not_elem_of_nil in Hin.
Qed.
Lemma sound_step e w w' : sound w -> 1 + zlen (calls w) < 2 ^ 64 - 1 -> step e w = Some w' -> sound w'.
Proof.
  intros H Hb. destruct e as [name params|id restarted written| | | |id n|n| ]; cbn [Plugin.step].
  - intros [= <-]. destruct H as [H1 H2 H3 H4 H5 H6 H7]. split; cbn; try done.
    + intros c Hc. apply elem_of_app. left. by apply H2.
    + intros i c. destruct (decide (sequence w = i)) as [<-|Hi].
      * rewrite lookup_insert_eq. intros [= <-]. split; [|done]. apply elem_of_app. right. by left.
      * rewrite lookup_insert_ne by done. intros Hc. destruct (H3 _ _ Hc). split; [|done]. apply elem_of_app. by left.
    + intros c Hc. apply elem_of_app. left. by apply H4.
    + rewrite map_app, H5. cbn. rewrite H6. autorewrite with zlen. rewrite seqZ_app by (pose proof (zlen_nonneg (calls w)); lia).
      reflexivity.
    + autorewrite with zlen. rewrite H6. unfold Prelude.as_u64, as_unsigned. rewrite Z.mod_small; [lia|]. pose proof (zlen_nonneg (calls w)). lia.
    + intros c v Hc. destruct (H7 _ _ Hc). split; [|done]. apply elem_of_app. by left.
  - destruct (flight w) eqn:Ef; [done|]. destruct (waiting w !! id) as [c|] eqn:Ew; [|done]. intros [= <-].
    apply sound_locked; [done| |done]. by eapply sound_waiting.
  - destruct (flight w) as [c|] eqn:Ef; [|done]. cbn. destruct (read_line (pipes w)) as [[bytes rest]|] eqn:Er; [|done]. intros [= <-].
    destruct (read_line_spec _ _ _ Er) as [Eo Hl]. pose proof (sound_flight _ H _ Ef) as Hc.
    eapply sound_received; [by apply sound_consume|done| |done]. cbn. rewrite <- (sound_stream _ H), Eo, <- app_assoc. reflexivity.
  - destruct (flight w) as [c|] eqn:Ef; [|done]. cbn. destruct (read_line (pipes w)); [done|]. intros [= <-].
    apply sound_finish; [apply sound_flag; by apply (sound_consume (length (out (pipes w))))|by apply (sound_flight _ H)|done].
  - destruct (flight w) as [c|] eqn:Ef; [|done]. cbn. intros [= <-]. apply sound_finish; [done|by apply (sound_flight _ H)|done].
  - assert (Hw : sound (w <| waiting ::= delete id |>)) by (apply (sound_pipes w); try done; [right; by exists id|apply H..]).
    destruct (flight w) as [c|]; [|by intros [= <-]]. destruct (c_id c =? id); [|by intros [= <-]].
    destruct (until_newline _); [done|]. intros [= <-]. apply (sound_pipes (w <| pipes ::= consume n |>)); try done; [|by left|..];
      apply (sound_consume n w H).
  - destruct (alive (pipes w)); [|done]. intros [= <-]. apply (sound_pipes w); try done; [by left|apply H| |apply H].
    cbn. rewrite <- (sound_stream _ H). f_equal. by rewrite <- app_assoc, take_drop.
  - intros [= <-]. apply (sound_pipes w); try done; [by left|apply H..].
Qed.
Lemma calls_received c bytes w : calls (received from_str c bytes w) = calls w.
Proof. unfold received. destruct (negb _); [done|]. destruct bytes; [done|]. destruct (from_str _); [|done]. by destruct (bool_decide _). Qed.
Lemma calls_locked c restarted written w : calls (locked serve text c restarted written w) = calls w.
Proof. unfold locked. destruct (desynced _); [destruct restarted; [|done]|]; by destruct (_ && _). Qed.
Lemma calls_step e w w' : step e w = Some w' -> zlen (calls w') <= zlen (calls w) + 1.
Proof.
  enough (H : step e w = Some w' -> calls w' = calls w \/ exists c, calls w' = calls w ++ [c]).
  { intros [->|[c ->]]%H; autorewrite with zlen; lia. }
  destruct e as [name params|id restarted written| | | |id n|n| ]; cbn [Plugin.step]; destruct (flight w) as [c|]; cbn;
    try (intros [= <-]; first [by left|right; by eexists]); try done.
  - destruct (waiting w !! id); [|done]. intros [= <-]. left. apply calls_locked.
  - destruct (read_line _) as [[]|]; [|done]. intros [= <-]. left. by etransitivity; [apply calls_received|].
  - destruct (read_line _); [done|]. intros [= <-]. by left.
  - destruct (c_id c =? id); [|intros [= <-]; by left]. destruct (until_newline _); [done|]. intros [= <-]. by left.
  - destruct (alive _); [|done]. intros [= <-]. by left.
  - destruct (alive _); [|done]. intros [= <-]. by left.
Qed.
Lemma calls_run es : forall w w', run es w = Some w' -> zlen (calls w') <= zlen (calls w) + zlen es.
Proof.
  induction es as [|e es IH]; intros w w'; cbn [Plugin.run]; autorewrite with zlen; [intros [= <-]; lia|].
  destruct (step e w) as [w1|] eqn:E; [|done]. intros H%IH. pose proof (calls_step _ _ _ E). lia.
Qed.
Lemma sound_run es : forall w w', sound w -> zlen (calls w) + zlen es < 2 ^ 64 - 1 -> run es w = Some w' -> sound w'.
Proof.
  induction es as [|e es IH]; intros w w' H Hb; cbn [Plugin.run]; [by intros [= <-]|]. autorewrite with zlen in Hb.
  pose proof (zlen_nonneg es). destruct (step e w) as [w1|] eqn:E; [|done]. pose proof (calls_step _ _ _ E).
  apply IH; [apply (sound_step e w w1 H); [lia|exact E]|lia].
Qed.

(** C17: Whatever callers share a module, however slowly it writes, wherever a
    request is abandoned or runs out of time, a read fails, the process dies or
    cannot be started again: an answer that a caller gets is the one the module
    gave to that very request, never one that an earlier request left in the pipe,
    and no two requests have the same id. *)
Theorem answers_are_of_their_request es w : zlen es < 2 ^ 64 - 1 -> run es spawn = Some w ->
  NoDup (map c_id (calls w)) /\ forall c v, (c, Ok v) ∈ answers w -> c ∈ calls w /\ reply (serve c) = Ok v.
Proof.
  intros Hb Hr. pose proof (sound_run es _ _ sound_spawn Hb Hr) as H. split; [|by apply H].
  rewrite (sound_ids _ H). apply NoDup_seqZ.
Qed.

(** ** Recovery *)
Hypothesis text_back : forall c, from_str (line c) = inl (serve c).
Hypothesis text_utf8 : forall c, utf8_valid (line c) = true.
(** A request that nothing disturbs: the module writes all that it owes. *)
Definition next_call (w : PluginWorker) (name : string) (params : json) : Call := mkCall (sequence w) name params.
Definition calm (name : string) (params : json) (w : PluginWorker) : option PluginWorker :=
  run [Request name params; Locked (sequence w) true true;
       Wrote (length (owed (pipes w)) + length (line (next_call w name params))); Line] w.
(** Between requests, with the process there. *)
Definition idle (w : PluginWorker) : Prop := flight w = None /\ alive (pipes w) = true.
Definition clean (w : PluginWorker) : Prop := desynced w = true \/ out (pipes w) ++ owed (pipes w) = [].
Definition aligned (w : PluginWorker) : Prop :=
  desynced w = true \/ exists l, (forall c, c ∈ l -> c ∈ calls w) /\ out (pipes w) ++ owed (pipes w) = concat (map line l).
(** The worker as the line is read. *)
Definition reading (c : Call) (stream : list Z) (w : PluginWorker) : PluginWorker :=
  mkWorker (mkPipes true (if desynced w then [c] else asked (pipes w) ++ [c]) [] stream (if desynced w then [] else taken (pipes w)))
    (Prelude.as_u64 (sequence w + 1)) false (delete (c_id c) (<[c_id c := c]> (waiting w))) (Some c) (answers w) (calls w ++ [c]).
Lemma step_locked c id p seq ds wt an cs : wt !! id = Some c -> alive p = true ->
  step (Locked id true true) (mkWorker p seq ds wt None an cs) =
    Some (mkWorker (mkPipes true (if ds then [c] else asked p ++ [c]) (if ds then line c else owed p ++ line c)
      (if ds then [] else out p) (if ds then [] else taken p)) seq false (delete (c_id c) wt) (Some c) an cs).
Proof. intros Hc Ha. destruct p as [al sent ow ou tk]. cbn in Ha. subst al. cbn [Plugin.step flight waiting]. rewrite Hc. by destruct ds. Qed.
Lemma step_wrote sent ow ou tk n w : (length ow <= n)%nat -> pipes w = mkPipes true sent ow ou tk ->
  step (Wrote n) w = Some (w <| pipes := mkPipes true sent [] (ou ++ ow) tk |>).
Proof.
  intros Hn E. destruct w as [p seq ds wt fl an cs]. cbn in E. subst p. cbn [Plugin.step pipes alive].
  change (Some (mkWorker (mkPipes true sent (drop n ow) (ou ++ take n ow) tk) seq ds wt fl an cs)
    = Some (mkWorker (mkPipes true sent [] (ou ++ ow) tk) seq ds wt fl an cs)).
  by rewrite take_ge, drop_ge.
Qed.
Lemma step_line c w : flight w = Some c -> alive (pipes w) = true -> step Line w =
  ('(bytes, _) ← until_newline (out (pipes w)); Some (received from_str c bytes (w <| pipes ::= consume (length bytes) |>))).
Proof. intros Hf Ha. cbn [Plugin.step]. rewrite Hf. cbn [mbind option_bind]. unfold read_line. rewrite Ha. by destruct (until_newline _) as [[]|]. Qed.
Lemma calm_reads name params w : idle w ->
  let c := next_call w name params in
  let stream := if desynced w then line c else out (pipes w) ++ owed (pipes w) ++ line c in
  calm name params w = ('(bytes, _) ← until_newline stream;
    Some (received from_str c bytes ((reading c stream w) <| pipes ::= consume (length bytes) |>))).
Proof.
  destruct w as [p seq ds wt fl an cs]. intros [Hf Ha]. cbn in Hf, Ha. subst fl. cbv zeta. unfold calm, next_call. cbn [Plugin.run].
  cbn [sequence pipes desynced]. set (c := mkCall seq name params).
  change (step (Request name params) _) with (Some (mkWorker p (Prelude.as_u64 (seq + 1)) ds (<[seq := c]> wt) None an (cs ++ [c]))).
  cbv iota. rewrite (step_locked c) by (rewrite ?lookup_insert_eq; done). cbv iota.
  rewrite (step_wrote (if ds then [c] else asked p ++ [c]) (if ds then line c else owed p ++ line c) (if ds then [] else out p)
    (if ds then [] else taken p)); [|destruct ds; rewrite ?length_app; lia|done].
  cbv iota. rewrite (step_line c) by done. unfold reading. cbn [out pipes]. 
  replace ((if ds then [] else out p) ++ (if ds then line c else owed p ++ line c)) with (if ds then line c else out p ++ owed p ++ line c) by (by destruct ds).
  destruct (until_newline _) as [[b r]|]; [|done]. cbn [mbind option_bind]. reflexivity.
Qed.
Lemma tail_of_answers l : forall pre rest, concat (map line l) = pre ++ 10 :: rest ->
  exists l2, (forall c, c ∈ l2 -> c ∈ l) /\ rest = concat (map line l2).
Proof.
  induction l as [|c l IH]; intros pre rest E; cbn [map concat] in E; [by destruct pre|].
  unfold Plugin.line at 1 in E. rewrite <- app_assoc in E. cbn [app] in E. apply app_eq_inv in E as [(k & E1 & E)|(k & -> & E)].
  - destruct k as [|b k]; [cbn in E; injection E as E; exists l; split; [by right|by rewrite E]|].
    injection E as <- _. exfalso. apply (text_line c). rewrite E1. apply elem_of_app. right. by left.
  - destruct k as [|b k]; [cbn in E; injection E as E; exists l; split; [by right|by rewrite E]|].
    injection E as _ E. destruct (IH _ _ E) as (l2 & H & ->). exists l2. split; [by right; apply H|done].
Qed.
Lemma line_read c rest : until_newline (line c ++ rest) = Some (line c, rest).
Proof. unfold Plugin.line. rewrite <- app_assoc. apply until_newline_app, text_line. Qed.
Lemma received_parsed c c' w : received from_str c (line c') w =
  if bool_decide (c_id c' = c_id c) then finish c (reply (serve c')) w
  else finish c (Err (ModuleFailed "module returned a response with the wrong request id")) (w <| desynced := true |>).
Proof.
  unfold received. rewrite text_utf8, text_back, serve_id. cbn [negb]. destruct (line c') eqn:E; [by destruct (app_cons_not_nil (text (serve c')) [] 10)|].
  by case_bool_decide as H1; case_bool_decide as H2; [..|]; try congruence.
Qed.
Lemma received_idle c bytes w : alive (pipes w) = true -> idle (received from_str c bytes w) /\ pipes (received from_str c bytes w) = pipes w.
Proof.
  intros Ha. unfold received. destruct (negb _); [done|]. destruct bytes; [done|]. destruct (from_str _); [|done]. by destruct (bool_decide _).
Qed.
Lemma calm_clean name params w : idle w -> clean w -> exists w', calm name params w = Some w' /\ idle w' /\ clean w' /\
  answers w' = answers w ++ [(next_call w name params, reply (serve (next_call w name params)))].
Proof.
  intros Hi Hc. rewrite (calm_reads name params w Hi). set (c := next_call w name params).
  replace (if desynced w then _ else _) with (line c ++ []) by (destruct (desynced w) eqn:E; rewrite app_nil_r; [done|];
    destruct Hc as [?|Hc]; [congruence|by rewrite app_assoc, Hc]).
  rewrite line_read. cbn [mbind option_bind]. rewrite received_parsed, bool_decide_eq_true_2 by done. eexists. split; [done|].
  split; [done|]. split; [|done]. right. change (drop (length (line c)) (line c ++ []) ++ [] = []). by rewrite !app_nil_r, drop_all.
Qed.
Lemma calm_aligned name params w : sound w -> idle w -> aligned w -> exists w', calm name params w = Some w' /\ idle w' /\ clean w'.
Proof.
  intros Hs Hi Ha. assert (clean w \/ desynced w = false /\ exists c0 l, c0 ∈ calls w /\ out (pipes w) ++ owed (pipes w) = line c0 ++ concat (map line l)) as [Hc|(E & c0 & l & Hc0 & El)].
  { unfold clean; unfold aligned in Ha. destruct (desynced w); [by left; left|]. destruct Ha as [|([|c0 l] & Hl & El)]; [done|left; right; exact El|].
    right. split; [done|]. exists c0, l. split; [apply Hl; by left|done]. }
  - destruct (calm_clean name params w Hi Hc) as (w' & H1 & H2 & H3 & _). by exists w'.
  - rewrite (calm_reads name params w Hi), E, app_assoc, El, <- app_assoc, line_read. cbn [mbind option_bind].
    eexists. split; [done|]. split; [by apply received_idle|]. rewrite received_parsed.
    rewrite bool_decide_eq_false_2; [by left|]. intros Hid.
    assert (H : c_id c0 ∈ seqZ 1 (zlen (calls w))) by (rewrite <- (sound_ids _ Hs); by apply list_elem_of_fmap_2).
    apply elem_of_seqZ in H. rewrite Hid in H. change (c_id (next_call w name params)) with (sequence w) in H. rewrite (sound_next _ Hs) in H. lia.
Qed.
Lemma calm_any name params w : sound w -> idle w -> exists w', calm name params w = Some w' /\ idle w' /\ aligned w'.
Proof.
  intros Hs Hi. destruct (desynced w) eqn:E.
  - destruct (calm_clean name params w Hi (or_introl E)) as (w' & H1 & H2 & H3 & _). exists w'. split_and!; [done..|].
    destruct H3 as [?|H3]; [by left|right]. exists []. split; [|done]. intros c Hc. by apply not_elem_of_nil in Hc.
  - rewrite (calm_reads name params w Hi), E. set (c := next_call w name params).
    destruct (until_newline (out (pipes w) ++ owed (pipes w) ++ line c)) as [[b rest]|] eqn:Eb.
    + cbn [mbind option_bind]. eexists. split; [done|]. destruct (until_newline_some _ _ _ Eb) as (Eo & x & -> & _).
      set (w1 := (reading c (out (pipes w) ++ owed (pipes w) ++ line c) w) <| pipes ::= consume (length (x ++ [10])) |>).
      assert (Ha : alive (pipes w1) = true) by done. destruct (received_idle c (x ++ [10]) w1 Ha) as [H1 H2].
      split; [done|]. right.
      destruct (tail_of_answers (asked (pipes w) ++ [c]) (taken (pipes w) ++ x) rest) as (l & Hl & ->).
      { rewrite map_app, concat_app. cbn. rewrite app_nil_r, <- (sound_stream _ Hs), <- !app_assoc, Eo, <- app_assoc. done. }
      exists l. split.
      * intros c' Hc'. rewrite calls_received. apply Hl in Hc' as [Hc'|Hc']%elem_of_app; apply elem_of_app; [left; by apply (sound_asked _ Hs)|by right].
      * rewrite H2. change (drop (length (x ++ [10])) (out (pipes w) ++ owed (pipes w) ++ line c) ++ [] = concat (map line l)).
        by rewrite Eo, drop_app_length, app_nil_r.
    + exfalso. apply until_newline_none in Eb. apply Eb. unfold Plugin.line. rewrite !elem_of_app. right. right. right. by left.
Qed.
Lemma calm_sound name params w w' : sound w -> zlen (calls w) + 4 < 2 ^ 64 - 1 -> calm name params w = Some w' -> sound w'.
Proof. intros H Hb Hr. by eapply sound_run; [exact H| |exact Hr]. Qed.
Lemma calm_calls name params w w' : idle w -> calm name params w = Some w' -> calls w' = calls w ++ [next_call w name params].
Proof.
  intros Hi. rewrite (calm_reads name params w Hi). destruct (until_newline _) as [[b r]|]; [|done]. cbn [mbind option_bind].
  intros [= <-]. by rewrite calls_received.
Qed.
(** Whatever happened before, to this process or to those before it, and
    wherever in an answer a request was abandoned, a module that is there and
    answers is heard again: of three requests that nothing disturbs, the third is
    answered with what the module says to it. *)
Theorem module_recovers es w n1 p1 n2 p2 n3 p3 : zlen es < 2 ^ 63 -> run es spawn = Some w -> idle w ->
  exists w1 w2 w3, calm n1 p1 w = Some w1 /\ calm n2 p2 w1 = Some w2 /\ calm n3 p3 w2 = Some w3 /\
    last (answers w3) = Some (next_call w2 n3 p3, reply (serve (next_call w2 n3 p3))).
Proof.
  intros Hb Hr Hi. assert (Hs : sound w) by (apply (sound_run es spawn); [apply sound_spawn|change (calls spawn) with (@nil Call); autorewrite with zlen; lia|done]).
  pose proof (calls_run es _ _ Hr) as Hn. change (zlen (calls spawn)) with 0 in Hn.
  destruct (calm_any n1 p1 w Hs Hi) as (w1 & R1 & I1 & A1). pose proof (calm_calls _ _ _ _ Hi R1) as C1.
  pose proof (calm_sound _ _ _ _ Hs ltac:(lia) R1) as S1. destruct (calm_aligned n2 p2 w1 S1 I1 A1) as (w2 & R2 & I2 & L2).
  destruct (calm_clean n3 p3 w2 I2 L2) as (w3 & R3 & _ & _ & E). exists w1, w2, w3. split_and!; try done. by rewrite E, last_snoc.
Qed.
(** A process that is gone, with nothing left to read and no request in flight,
    is not started again: nobody is answered any more. *)
Definition dead (w : PluginWorker) : Prop :=
  alive (pipes w) = false /\ out (pipes w) = [] /\ desynced w = false /\ flight w = None.
Lemma dead_step e w w' : dead w -> step e w = Some w' ->
  dead w' /\ forall c v, (c, Ok v) ∈ answers w' -> (c, Ok v) ∈ answers w.
Proof.
  intros (Ha & Ho & Hd & Hf). destruct e as [name params|id restarted written| | | |id n|n| ]; cbn [Plugin.step]; rewrite ?Hf, ?Ha; cbn; try done.
  - intros [= <-]. by split.
  - destruct (waiting w !! id) as [c|]; [|done]. intros [= <-]. unfold locked. cbn [desynced]. change (desynced (w <| waiting ::= delete (c_id c) |>)) with (desynced w).
    rewrite Hd. change (alive (pipes (w <| waiting ::= delete (c_id c) |>))) with (alive (pipes w)). rewrite Ha, andb_false_r.
    split; [by split_and!|]. cbn. intros c' v [H|H%list_elem_of_singleton]%elem_of_app; done.
  - intros [= <-]. by split.
  - intros [= <-]. by split.
Qed.
Lemma dead_module_stays_dead es : forall w w', dead w -> run es w = Some w' ->
  dead w' /\ forall c v, (c, Ok v) ∈ answers w' -> (c, Ok v) ∈ answers w.
Proof.
  induction es as [|e es IH]; intros w w' H; cbn [Plugin.run]; [by intros [= <-]|]. destruct (step e w) as [w1|] eqn:E; [|done].
  intros Hr. destruct (dead_step e w w1 H E) as [H1 H2]. destruct (IH _ _ H1 Hr) as [H3 H4]. split; [done|]. intros c v Hc. by apply H2, H4.
Qed.
End Facts.

(** ** The standard error, line by line *)
Fixpoint split_lines (l : list Z) : list (list Z) :=
  match l with
  | [] => []
  | b :: l => if b =? 10 then [b] :: split_lines l else match split_lines l with [] => [[b]] | x :: r => (b :: x) :: r end
  end.
Definition logged (limit : nat) (lines : list (list Z)) : list (list Z) :=
  List.filter (fun l => negb (bool_decide (l = []))) (map (fun l => trim_line (lossy (take limit l))) lines).
Lemma split_lines_part a s : a <> [] -> (10 ∉ a) ->
  split_lines (a ++ s) = match split_lines s with [] => [a] | x :: r => (a ++ x) :: r end.
Proof.
  induction a as [|b a IH]; [done|]. intros _. rewrite not_elem_of_cons. intros [Hb Ha]. cbn [app split_lines].
  destruct (Z.eqb_spec b 10); [done|]. destruct a as [|b' a]; [cbn; by destruct (split_lines s)|].
  rewrite IH by done. by destruct (split_lines s).
Qed.
Lemma split_lines_line x s : (10 ∉ x) -> split_lines (x ++ 10 :: s) = (x ++ [10]) :: split_lines s.
Proof.
  intros Hx. destruct x as [|b x]; [done|]. by rewrite split_lines_part.
Qed.
Lemma logged_cons limit y r : logged limit (y :: r) =
  match trim_line (lossy (take limit y)) with [] => logged limit r | l => l :: logged limit r end.
Proof. unfold logged. cbn [map List.filter]. by destruct (trim_line _). Qed.
Lemma log_lines_spec limit : (0 < limit)%nat -> forall fuel d s, (length s <= fuel)%nat ->
  log_lines fuel limit d s = logged limit (if d : bool then tail (split_lines s) else split_lines s).
Proof.
  intros Hl. induction fuel as [|fuel IH]; intros d s Hs; [destruct s; [by destruct d|cbn in Hs; lia]|].
  destruct s as [|b0 s0]; [by destruct d|]. cbn [log_lines]. set (s := b0 :: s0) in *. unfold next_block.
  destruct (until_newline (take limit s)) as [[block r]|] eqn:E.
  - destruct (until_newline_some _ _ _ E) as (Et & x & -> & Hx).
    assert (Es : s = (x ++ [10]) ++ (r ++ drop limit s)) by (by rewrite app_assoc, <- Et, take_drop).
    assert (Hb : (length (x ++ [10]%Z) <= limit)%nat).
    { pose proof (length_take s limit) as H. rewrite Et, length_app in H. lia. }
    rewrite last_snoc. cbn [Z.eqb Pos.eqb negb].
    assert (Ed : drop (length (x ++ [10])) s = r ++ drop limit s) by (by rewrite Es at 1; apply drop_app_length).
    rewrite Ed. assert (El : split_lines s = (x ++ [10]) :: split_lines (r ++ drop limit s)).
    { rewrite Es at 1. rewrite <- app_assoc. by apply split_lines_line. }
    assert (Hf : (length (r ++ drop limit s) <= fuel)%nat).
    { pose proof (f_equal length Es) as H. rewrite !length_app in H. rewrite length_app. change (length [10]%Z) with 1%nat in H. lia. }
    rewrite (IH false _ Hf), El. destruct d; [done|]. by rewrite logged_cons, (take_ge (x ++ [10])) by done.
  - apply until_newline_none in E. assert (Ht : take limit s <> []) by (by destruct limit; [lia|]).
    assert (Hc : match last (take limit s) with Some b => b =? 10 | None => false end = false).
    { destruct (last (take limit s)) as [b|] eqn:El; [|done]. apply last_Some in El as [l' El]. apply Z.eqb_neq. intros ->.
      apply E. rewrite El. apply elem_of_app. right. by left. }
    rewrite Hc. cbn [negb].
    assert (Hf : (length (drop limit s) <= fuel)%nat) by (rewrite length_drop; subst s; cbn in *; lia).
    rewrite (IH true _ Hf). pose proof (split_lines_part (take limit s) (drop limit s) Ht E) as El. rewrite take_drop in El. rewrite El.
    assert (Hx : trim_line (lossy (take limit s)) = trim_line (lossy (take limit
      (match split_lines (drop limit s) with [] => take limit s | x :: _ => take limit s ++ x end)))).
    { f_equal. f_equal. destruct (split_lines (drop limit s)) as [|x r] eqn:Ex; [by rewrite take_take, Nat.min_id|].
      assert (length (take limit s) = limit) as Hlen; [|by rewrite take_app_length' by done].
      rewrite length_take. destruct (Nat.le_gt_cases limit (length s)); [lia|]. by rewrite drop_ge in Ex by lia. }
    destruct (split_lines (drop limit s)) as [|x r]; (destruct d; [done|]); by rewrite logged_cons, <- Hx.
Qed.
(** What a module writes to its standard error is logged line by line, each
    cut at 8 KiB, whatever its bytes and however long the line: the blocks it is
    read in leave no trace, and an overlong line never costs the next one. *)
Theorem stderr_log_spec s : stderr_log s = logged MAX_LINE_BYTES (split_lines s).
Proof. apply (log_lines_spec MAX_LINE_BYTES); [apply Nat.ltb_lt; vm_compute; reflexivity|done]. Qed.

(** ** Witnesses: a module that answers with the id of the request, in unary. *)
Definition toy_answer (n : Z) : json := JObj [("id", JNum (PosInt n)); ("ok", JBool true); ("result", JNum (PosInt n))].
Definition toy_serve (c : Call) : json := toy_answer (c_id c).
Definition toy_text (v : json) : list Z :=
  let n := default 0 (answer_id v) in
  123 :: (if n <? 0 then [45] else []) ++ repeat 49 (Z.to_nat (Z.abs n)) ++ [125].
Fixpoint toy_id (l : list Z) : option Z :=
  match l with
  | 49 :: l => n ← toy_id l; Some (n + 1)
  | [125] | [125; 10] => Some 0
  | _ => None
  end.
Definition toy_from_str (l : list Z) : json + string :=
  match l with
  | 123 :: 45 :: l => match toy_id l with Some n => inl (toy_answer (- n)) | None => inr "expected value" end
  | 123 :: l => match toy_id l with Some n => inl (toy_answer n) | None => inr "expected value" end
  | _ => inr "expected value"
  end.
Lemma toy_id_prefix p : forall k d n, repeat 49 k ++ [125; 10] = p ++ d -> toy_id p = Some n -> n = Z.of_nat k.
Proof.
  induction p as [|b p IH]; intros k d n E; [done|]. destruct k as [|k].
  - injection E as <- E. destruct p as [|b' p]; [by intros [= <-]|]. injection E as <- E. destruct p; [by intros [= <-]|done].
  - injection E as <- E. cbn [toy_id]. destruct (toy_id p) as [m|] eqn:Em; [|done]. cbn. intros [= <-].
    rewrite (IH k d m E eq_refl). lia.
Qed.
Lemma toy_text_line c : 10 ∉ toy_text (toy_serve c).
Proof.
  unfold toy_text. rewrite not_elem_of_cons, !not_elem_of_app, not_elem_of_cons. split_and!; [done|by destruct (_ <? 0); [rewrite not_elem_of_cons|]; try split; try apply not_elem_of_nil|..].
  - intros H%list_elem_of_In%repeat_spec. done.
  - done.
  - apply not_elem_of_nil.
Qed.
Definition toy_tail (n : Z) : list Z := (if n <? 0 then [45] else []) ++ repeat 49 (Z.to_nat (Z.abs n)) ++ [125; 10].
Lemma toy_line c : line toy_serve toy_text c = 123 :: toy_tail (c_id c).
Proof. unfold line, toy_text, toy_tail. cbn. f_equal. by rewrite <- !app_assoc. Qed.
Lemma toy_tail_plain n : 123 ∉ toy_tail n.
Proof.
  unfold toy_tail. rewrite !not_elem_of_app, !not_elem_of_cons. split_and!; try done; [by destruct (n <? 0); [rewrite not_elem_of_cons; split; [done|apply not_elem_of_nil]|apply not_elem_of_nil]| |apply not_elem_of_nil].
  intros H%list_elem_of_In%repeat_spec. done.
Qed.
Lemma toy_text_part c a b d v : line toy_serve toy_text c = a ++ b ++ d -> toy_from_str b = inl v -> answer_id v <> None -> v = toy_serve c.
Proof.
  rewrite toy_line. intros E Hv _. unfold toy_from_str in Hv.
  destruct b as [|z b]; [done|]. assert (z = 123) as -> by (repeat (destruct z as [|z|z]; try done)).
  destruct a as [|x a].
  - injection E as E. unfold toy_tail in E. unfold toy_serve. destruct (Z.ltb_spec (c_id c) 0) as [Hn|Hn]; cbn [app] in E.
    + destruct b as [|y b]; [done|]. injection E as <- E. destruct (toy_id b) as [n|] eqn:En; [|done]. injection Hv as <-.
      rewrite (toy_id_prefix b _ d n E En). f_equal. lia.
    + assert (Hb : match b with 45 :: _ => False | _ => True end).
      { destruct b as [|y b]; [done|]. destruct (Z.to_nat _); injection E as <- _; done. }
      assert (Hv' : match toy_id b with Some n => inl (toy_answer n) | None => inr "expected value" end = (inl v : json + string)).
      { destruct b as [|y b]; [done|]. repeat (destruct y as [|y|y]; try exact Hv). done. }
      destruct (toy_id b) as [n|] eqn:En; [|done]. injection Hv' as <-. rewrite (toy_id_prefix b _ d n E En). f_equal. lia.
  - exfalso. injection E as _ E. apply (toy_tail_plain (c_id c)). rewrite E. apply elem_of_app. right. by left.
Qed.
Lemma toy_id_repeat k : toy_id (repeat 49 k ++ [125; 10]) = Some (Z.of_nat k).
Proof. induction k as [|k IH]; [done|]. cbn [repeat app toy_id]. rewrite IH. cbn. f_equal. lia. Qed.
Lemma toy_text_back c : toy_from_str (line toy_serve toy_text c) = inl (toy_serve c).
Proof.
  rewrite toy_line. unfold toy_tail. unfold toy_serve. destruct (Z.ltb_spec (c_id c) 0) as [Hn|Hn]; cbn [app].
  - unfold toy_from_str. rewrite toy_id_repeat. do 2 f_equal. lia.
  - assert (Z.of_nat (Z.to_nat (Z.abs (c_id c))) = c_id c) as E by lia. pose proof (toy_id_repeat (Z.to_nat (Z.abs (c_id c)))) as H.
    rewrite E in H. unfold toy_from_str. destruct (Z.to_nat _); cbn [repeat app] in *; by rewrite H.
Qed.
Lemma toy_utf8 c : utf8_valid (line toy_serve toy_text c) = true.
Proof.
  rewrite toy_line. apply ascii_utf8_valid. unfold toy_tail. constructor; [lia|]. apply Forall_app. split.
  { destruct (_ <? 0); [by repeat constructor|constructor]. }
  apply Forall_app. split; [|by repeat constructor]. apply Forall_forall. intros b Hb%list_elem_of_In%repeat_spec. lia.
Qed.
Definition toy_run : list Event -> PluginWorker -> option PluginWorker := run toy_from_str toy_serve toy_text.
(** A request runs out of time in the middle of its answer; the next one is
    written to a new process. *)
Definition toy_slow : list Event :=
  [Request "rpc" JNull; Request "rpc" JNull; Locked 1 true true; Wrote 2; TimedOut; Locked 2 true true; Wrote 9; Line].
Lemma answers_are_of_their_request_witness : exists w, toy_run toy_slow spawn = Some w /\ NoDup (map c_id (calls w)) /\
  (mkCall 2 "rpc" JNull, Ok (JNum (PosInt 2))) ∈ answers w.
Proof.
  destruct (toy_run toy_slow spawn) as [w|] eqn:E; [|exfalso; revert E; vm_compute; discriminate].
  exists w. split; [reflexivity|]. split.
  - exact (proj1 (answers_are_of_their_request toy_from_str toy_serve toy_text (fun _ => eq_refl) toy_text_part toy_slow w eq_refl E)).
  - revert E. vm_compute. intros [= <-]. right. left.
Defined.
(** A request that is dropped before the module answers it: the next one reads
    that answer, and fails; the one after it is answered by a new process. *)
Definition toy_dropped : list Event := [Request "rpc" JNull; Locked 1 true true; Cancelled 1 0].
Definition toy_calm (w : PluginWorker) : PluginWorker := default spawn (calm toy_from_str toy_serve toy_text "rpc" JNull w).
Definition toy_stale : PluginWorker := default spawn (toy_run toy_dropped spawn).
Lemma module_recovers_witness :
  last (answers (toy_calm toy_stale)) =
    Some (mkCall 2 "rpc" JNull, Err (ModuleFailed "module returned a response with the wrong request id")) /\
  exists w3, calm toy_from_str toy_serve toy_text "rpc" JNull (toy_calm (toy_calm toy_stale)) = Some w3 /\
  last (answers w3) = Some (mkCall 4 "rpc" JNull, Ok (JNum (PosInt 4))).
Proof.
  split; [vm_compute; reflexivity|].
  assert (E : toy_run toy_dropped spawn = Some toy_stale) by (vm_compute; reflexivity).
  assert (E1 : calm toy_from_str toy_serve toy_text "rpc" JNull toy_stale = Some (toy_calm toy_stale)) by (vm_compute; reflexivity).
  assert (E2 : calm toy_from_str toy_serve toy_text "rpc" JNull (toy_calm toy_stale) = Some (toy_calm (toy_calm toy_stale))) by (vm_compute; reflexivity).
  destruct (module_recovers toy_from_str toy_serve toy_text (fun _ => eq_refl) toy_text_line toy_text_part toy_text_back toy_utf8
    toy_dropped toy_stale "rpc" JNull "rpc" JNull "rpc" JNull eq_refl E) as (w1 & w2 & w3 & H1 & H2 & H3 & H4).
  { vm_compute. split; reflexivity. }
  assert (w1 = toy_calm toy_stale) as -> by congruence. assert (w2 = toy_calm (toy_calm toy_stale)) as -> by congruence.
  exists w3. split; [exact H3|]. rewrite H4. vm_compute. reflexivity.
Defined.
(** A module that exits while it is asked: that request fails, and every later one
    does, because only a pipe at an unknown offset is given a new process. *)
Example exited_module_is_not_restarted :
  (fun w => map snd (answers w)) <$> toy_run [Request "rpc" JNull; Locked 1 true true; Exited; Line;
    Request "rpc" JNull; Locked 2 true true; Request "health" (JObj []); Locked 3 true true] spawn
  = Some [Err (ModuleFailed "模块在处理 rpc 时退出了"); Err (Io "Broken pipe"); Err (Io "Broken pipe")].
Proof. vm_compute. reflexivity. Qed.
(** The flag is taken down before the new process is there: when it cannot be
    started, the request after it is read off the old pipe. *)
Example failed_restart_forgets_the_fault :
  (fun w => (map snd (answers w), desynced w)) <$> toy_run [Request "rpc" JNull; Locked 1 true true; Wrote 2; TimedOut;
    Request "rpc" JNull; Locked 2 false true; Request "rpc" JNull; Locked 3 true true; Wrote 9; Line] spawn
  = Some ([Err (ModuleFailed "模块的 rpc 在 60 秒内没有回应"); Err (Io "spawn"); Err (Json "expected value")], true).
Proof. vm_compute. reflexivity. Qed.
