(* ===== verification/Modules.v ===== *)
(** The modules on disk ([ModuleStore] of [src/src/watch_service.rs]): what is
    installed, how a module is installed and loaded, and the modules that come with
    the image. *)
From S2P Require Import Prelude Text Json Accounts Service WatchConfig Plugin.
#[local] Open Scope string_scope.
#[local] Open Scope list_scope.
#[local] Open Scope Z_scope.

Module Modules.
Import Service WatchConfig.
Definition MAX_MODULE_BYTES : Z := 64 * 1024 * 1024.
Inductive ModuleKind := Login | PbFetch | Register.
#[export] Instance ModuleKind_dec : EqDecision ModuleKind.
Proof. solve_decision. Defined.
#[export] Instance ModuleRef_dec : EqDecision ModuleRef.
Proof. solve_decision. Defined.
Definition directory (k : ModuleKind) : string := match k with Login => "login" | PbFetch => "pb_fetch" | Register => "register" end.
Record ModuleManifest := mkManifest {
  protocol_version : Z; kind : ModuleKind; name : string; version : string; executable : string; args : list string; sha256 : string
}.
Record InstalledModule := mkInstalled {
  i_kind : ModuleKind; i_name : string; i_version : string; i_protocol_version : Z; builtin_ : bool; active : bool
}.
Record InstallModuleRequest := mkRequest { manifest : ModuleManifest; artifact_base64 : string }.

(** ** Checks *)
(** [Path::components]: what is not plain, not [.] and not empty. *)
Definition relative_path (path : string) : bool :=
  negb (String.eqb path "") && negb (match path with String a _ => Ascii.eqb a "/"%char | _ => false end)
  && forallb (fun c => negb (String.eqb c "..")) (split_on "/"%char path).
Definition is_ascii_hexdigit (b : Z) : bool := between 48 b 57 || between 65 b 70 || between 97 b 102.
Definition validate_manifest (m : ModuleManifest) : result WatchServiceError () :=
  if negb (protocol_version m =? Plugin.MODULE_PROTOCOL_VERSION)
  then Err (InvalidModule ("protocol_version must be " +:+ pretty Plugin.MODULE_PROTOCOL_VERSION)) else
  _ ← validate_identifier "module name" (name m);
  _ ← validate_identifier "module version" (version m);
  if negb (relative_path (executable m)) then Err (InvalidModule "executable must be a relative file path without parent components")
  else if negb (Nat.eqb (String.length (sha256 m)) 64) || negb (forallb is_ascii_hexdigit (bytes_of_string (sha256 m)))
  then Err (InvalidModule "sha256 must be a 64-character hexadecimal digest")
  else Ok tt.

(** ** Files

    The directory of a version, by the names of its kind, its module and the
    version; and its files. *)
Abbreviation Key := ((string * string) * string)%type.
Abbreviation Dir := (gmap string string).
Abbreviation Store := (gmap (string * string * string) (gmap string string)).
Definition module_dir (m : ModuleManifest) : Key := (directory (kind m), name m, version m).
(** The file of a path that needs no directory of its own. *)
Fixpoint file_of_segments (l : list string) : option string :=
  match l with
  | [] => None
  | [f] => if String.eqb f "" || String.eqb f "." then None else Some f
  | d :: l => if String.eqb d "" || String.eqb d "." then file_of_segments l else None
  end.
Definition file_of (path : string) : option string := file_of_segments (split_on "/"%char path).
(** [Path::with_extension] on a name. *)
Fixpoint rsplit_dot (s : string) : option (string * string) :=
  match s with
  | "" => None
  | String a s' =>
    match rsplit_dot s' with
    | Some (before, after) => Some (String a before, after)
    | None => if Ascii.eqb a "."%char then Some ("", s') else None
    end
  end.
Definition file_stem (s : string) : string :=
  match rsplit_dot s with Some (before, _) => if String.eqb before "" then s else before | None => s end.
Definition with_extension (s extension : string) : string := file_stem s +:+ "." +:+ extension.
Definition temporary_dir (uuid : string) (m : ModuleManifest) : Key :=
  (directory (kind m), name m, with_extension (version m) ("install-" +:+ uuid)).

(** The operations on files, any of which may fail. *)
Inductive DiskOp := CreateDir | WriteExecutable | SetMode | WriteManifest | TryExists | RemoveTemporary | Rename | ReadFamily | Retire (k : Key).

Section Store.
Variable from_slice : string -> ModuleManifest + string.
Variable to_vec_pretty : ModuleManifest -> string.
(** [base64::STANDARD] and the digest in hexadecimal. *)
Variable decode : string -> string + string.
Variable encode : string -> string.
Variable sha256_hex : string -> string.

(** ** What is installed *)
Definition installed_in (k : ModuleKind) (login_active pb_active : ModuleRef) (e : Key * Dir) : option InstalledModule :=
  let '((kind_dir, _, _), files) := e in
  if String.eqb kind_dir (directory k) then
    raw ← files !! "manifest.json";
    match from_slice raw with
    | inl m =>
      let selected := mkModuleRef (name m) (version m) in
      Some (mkInstalled k (name m) (version m) (protocol_version m) false
        (match k with Login => bool_decide (selected = login_active) | PbFetch => bool_decide (selected = pb_active) | Register => true end))
    | inr _ => None
    end
  else None.
Definition shown_before (l r : InstalledModule) : bool :=
  let key m := [directory (i_kind m); i_name m; i_version m] in
  (fix le (a b : list string) : bool :=
     match a, b with
     | x :: a, y :: b => if String.eqb x y then le a b else String.leb x y
     | _, _ => true
     end) (key l) (key r).
Definition list_ (login_active pb_active : ModuleRef) (s : Store) : list InstalledModule :=
  sort_by shown_before
    (mkInstalled Login "builtin" BUILTIN_MODULE_VERSION Plugin.MODULE_PROTOCOL_VERSION true (bool_decide (login_active = builtin)) ::
     mkInstalled PbFetch "builtin" BUILTIN_MODULE_VERSION Plugin.MODULE_PROTOCOL_VERSION true (bool_decide (pb_active = builtin)) ::
     flat_map (fun k => omap (installed_in k login_active pb_active) (map_to_list s)) [Login; PbFetch; Register]).
Definition sole (k : ModuleKind) (s : Store) : result WatchServiceError ModuleRef :=
  let installed := map (fun m => mkModuleRef (i_name m) (i_version m))
    (List.filter (fun m => bool_decide (i_kind m = k) && negb (builtin_ m)) (list_ builtin builtin s)) in
  match installed with
  | [] => Err (InvalidConfig ("没装 " +:+ directory k +:+ " 模块。这一类没有内建实现（内建的 TLS 指纹和 Chrome 对不上），先在采集设置的「模块」里装一个"))
  | [m] => Ok m
  | _ => Err (InvalidConfig ("装了 " +:+ pretty (length installed) +:+ " 个 " +:+ directory k +:+ " 模块，先卸掉多余的："
      +:+ String.concat "、" (map (fun m => m_name m +:+ "@" +:+ m_version m) installed)))
  end.
Definition load_manifest (k : ModuleKind) (r : ModuleRef) (s : Store) : result WatchServiceError ModuleManifest :=
  match s !! (directory k, m_name r, m_version r) ≫= (fun files => files !! "manifest.json") with
  | None => Err (ModuleNotInstalled (m_name r) (m_version r))
  | Some bytes =>
    match from_slice bytes with
    | inr why => Err (Json why)
    | inl m =>
      _ ← validate_manifest m;
      if bool_decide (kind m <> k) || negb (String.eqb (name m) (m_name r)) || negb (String.eqb (version m) (m_version r))
      then Err (InvalidModule "manifest identity does not match its installation path")
      else Ok m
    end
  end.
(** The process of a module, once it is started and healthy: the manifest and the
    file that is run; a builtin module has none. [health] is how that goes. *)
Definition worker (health : result WatchServiceError ()) (k : ModuleKind) (r : ModuleRef) (s : Store)
  : result WatchServiceError (option (ModuleManifest * option string)) :=
  if bool_decide (r = builtin) then Ok None else
  m ← load_manifest k r s;
  _ ← health;
  Ok (Some (m, files ← s !! module_dir m; f ← file_of (executable m); files !! f)).
Definition probe (health : result WatchServiceError ()) (k : ModuleKind) (r : ModuleRef) (s : Store) : result WatchServiceError () :=
  if bool_decide (r = builtin) then Ok tt else _ ← load_manifest k r s; health.

(** ** An installation *)
Definition check (request : InstallModuleRequest) : result WatchServiceError string :=
  _ ← validate_manifest (manifest request);
  match decode (artifact_base64 request) with
  | inr why => Err (InvalidModule why)
  | inl bytes =>
    if (Z.of_nat (String.length bytes) =? 0) || (MAX_MODULE_BYTES <? Z.of_nat (String.length bytes))
    then Err (InvalidModule ("artifact must be between 1 byte and " +:+ pretty MAX_MODULE_BYTES +:+ " bytes"))
    else if negb (Accounts.eq_ignore_ascii_case (sha256_hex bytes) (sha256 (manifest request)))
    then Err (InvalidModule "artifact sha256 does not match manifest")
    else Ok bytes
  end.
Section Disk.
Variable io : DiskOp -> option string.
Variable health : result WatchServiceError ().
Definition attempt (op : DiskOp) (s : Store) (k : Store * result WatchServiceError InstalledModule) : Store * result WatchServiceError InstalledModule :=
  match io op with Some why => (s, Err (Io why)) | None => k end.
(** The module in its own directory takes the place of the temporary one. *)
Definition commit (m : ModuleManifest) (t : Key) (s : Store) : Store * result WatchServiceError InstalledModule :=
  attempt TryExists s
  match s !! module_dir m with
  | Some _ => attempt RemoveTemporary s (delete t s, Err (InvalidModule "that module version is already installed"))
  | None =>
    attempt Rename s
    match s !! t with
    | Some files => (<[module_dir m := files]> (delete t s), Ok (mkInstalled (kind m) (name m) (version m) (protocol_version m) false false))
    | None => (s, Err (Io "No such file or directory"))
    end
  end.
Definition install (uuid : string) (request : InstallModuleRequest) (s : Store) : Store * result WatchServiceError InstalledModule :=
  match check request with
  | Err e => (s, Err e)
  | Panic => (s, Panic)
  | Ok bytes =>
    let m := manifest request in
    let t := temporary_dir uuid m in
    attempt CreateDir s (
    let s := <[t := default ∅ (s !! t)]> s in
    attempt WriteExecutable s
    match file_of (executable m) with
    | None => (s, Err (Io "No such file or directory"))
    | Some f =>
      let s := alter (fun files => <[f := bytes]> files) t s in
      attempt SetMode s (attempt WriteManifest s (
      let s := alter (fun files => <["manifest.json" := to_vec_pretty m]> files) t s in
      match health with
      | Err e => (s, Err e)
      | Panic => (s, Panic)
      | Ok _ => commit m t s
      end))
    end)
  end.

(** ** The modules of the image *)
Record Bundle := mkBundle { b_manifest : string + string; b_file : string -> string + string }.
Definition family (m : ModuleManifest) (k : Key) : bool := String.eqb k.1.1 (directory (kind m)) && String.eqb k.1.2 (name m).
(** The other versions are removed, in the order of the directory, until one
    cannot be. *)
Fixpoint retire (d : Key) (l : list Key) (s : Store) : Store * result WatchServiceError () :=
  match l with
  | [] => (s, Ok tt)
  | k :: l => if decide (k = d) then retire d l s
              else match io (Retire k) with Some why => (s, Err (Io why)) | None => retire d l (delete k s) end
  end.
Definition retire_others (m : ModuleManifest) (s : Store) : Store * result WatchServiceError () :=
  match io ReadFamily with
  | Some why => (s, Err (Io why))
  | None => retire (module_dir m) (List.filter (family m) (map fst (map_to_list s))) s
  end.
Definition sync_one (uuid : string) (source : Bundle) (s : Store) : Store * result WatchServiceError () :=
  match b_manifest source with
  | inr why => (s, Err (Io why))
  | inl raw =>
    match from_slice raw with
    | inr why => (s, Err (Json why))
    | inl m =>
      match validate_manifest m with
      | Err e => (s, Err e)
      | Panic => (s, Panic)
      | Ok _ =>
        match s !! module_dir m with
        | Some _ => retire_others m s
        | None =>
          match b_file source (executable m) with
          | inr why => (s, Err (Io why))
          | inl artifact =>
            match install uuid (mkRequest m (encode artifact)) s with
            | (s, Ok _) => retire_others m s
            | (s, Err e) => (s, Err e)
            | (s, Panic) => (s, Panic)
            end
          end
        end
      end
    end
  end.
End Disk.
(** What goes wrong with one is logged, and the others are tried. *)
Fixpoint sync_bundled (l : list (string * Bundle * (DiskOp -> option string) * result WatchServiceError ())) (s : Store) : Store :=
  match l with
  | [] => s
  | (uuid, source, io, health) :: l => sync_bundled l (fst (sync_one io health uuid source s))
  end.
End Store.
End Modules.

Import Service WatchConfig Modules.

Section Facts.
Context (from_slice : string -> ModuleManifest + string) (to_vec_pretty : ModuleManifest -> string).
Context (decode : string -> string + string) (encode : string -> string) (sha256_hex : string -> string).
Abbreviation install := (install to_vec_pretty decode sha256_hex).
Abbreviation sync_one := (sync_one from_slice to_vec_pretty decode encode sha256_hex).
Hypothesis from_to : forall m, from_slice (to_vec_pretty m) = inl m.

(** ** An installation *)
(** The name of a temporary directory is one that nothing has. *)
Definition unused (uuid : string) (m : ModuleManifest) (s : Store) : Prop :=
  s !! temporary_dir uuid m = None /\ temporary_dir uuid m <> module_dir m.
(** The files an installation of [bytes] leaves. *)
Definition holds (m : ModuleManifest) (bytes : string) (files : Dir) : Prop :=
  exists f, file_of (executable m) = Some f /\ files !! "manifest.json" = Some (to_vec_pretty m) /\
    (f <> "manifest.json" -> files !! f = Some bytes).
Definition kept_but (ks : list Key) (s s' : Store) : Prop := forall k, k ∉ ks -> s' !! k = s !! k.
Lemma kept_refl ks s : kept_but ks s s.
Proof. by intros k _. Qed.
Lemma kept_insert t files s s' : kept_but [t] s s' -> kept_but [t] s (<[t := files]> s').
Proof. intros H k Hk. rewrite lookup_insert_ne; [by apply H|]. intros <-. apply Hk. by left. Qed.
Lemma kept_alter t f s s' : kept_but [t] s s' -> kept_but [t] s (alter f t s').
Proof. intros H k Hk. rewrite lookup_alter_ne; [by apply H|]. intros <-. apply Hk. by left. Qed.
Lemma kept_delete t s s' : kept_but [t] s s' -> kept_but [t] s (delete t s').
Proof. intros H k Hk. rewrite lookup_delete_ne; [by apply H|]. intros <-. apply Hk. by left. Qed.

Lemma commit_spec io m t s s' r : commit io m t s = (s', r) -> t <> module_dir m ->
  match r with
  | Ok i => s !! module_dir m = None /\ kept_but [t; module_dir m] s s' /\ is_Some (s !! t) /\ s' !! module_dir m = s !! t /\ s' !! t = None /\
      i = mkInstalled (kind m) (name m) (version m) (protocol_version m) false false
  | _ => kept_but [t] s s'
  end.
Proof.
  intros E Ht. unfold commit, attempt in E. destruct (io TryExists); [injection E as <- <-; apply kept_refl|].
  destruct (s !! module_dir m) eqn:Ed.
  - destruct (io RemoveTemporary); injection E as <- <-; [apply kept_refl|apply kept_delete, kept_refl].
  - destruct (io Rename); [injection E as <- <-; apply kept_refl|]. destruct (s !! t) as [files|] eqn:Et; injection E as <- <-; [|apply kept_refl].
    split_and!; [done| |by eexists| | |done].
    + intros k [Hk1 Hk2]%not_elem_of_cons. rewrite not_elem_of_cons in Hk2. destruct Hk2 as [Hk2 _].
      rewrite lookup_insert_ne, lookup_delete_ne by done. done.
    + by rewrite lookup_insert_eq.
    + rewrite lookup_insert_ne by done. apply lookup_delete_eq.
Qed.
Lemma install_spec io health uuid request s s' r : install io health uuid request s = (s', r) -> unused uuid (manifest request) s ->
  let m := manifest request in
  match r with
  | Ok _ => exists bytes files, check decode sha256_hex request = Ok bytes /\ holds m bytes files /\ s !! module_dir m = None /\
      s' = <[module_dir m := files]> s
  | _ => kept_but [temporary_dir uuid m] s s'
  end.
Proof.
  intros E [Hu Ht]. cbv zeta. unfold Modules.install in E. destruct (check _ _ _) as [bytes|e|] eqn:Ec;
    [|injection E as <- <-; apply kept_refl..].
  set (m := manifest request) in *. set (t := temporary_dir uuid m) in *. unfold attempt in E.
  destruct (io CreateDir); [injection E as <- <-; apply kept_refl|]. rewrite Hu in E. cbn [default] in E.
  set (s1 := <[t := ∅]> s) in *. assert (K1 : kept_but [t] s s1) by apply kept_insert, kept_refl.
  destruct (io WriteExecutable); [by injection E as <- <-|]. destruct (file_of (executable m)) as [f|] eqn:Ef; [|by injection E as <- <-].
  set (s2 := alter _ t s1) in *. assert (K2 : kept_but [t] s s2) by by apply kept_alter.
  destruct (io SetMode); [by injection E as <- <-|]. destruct (io WriteManifest); [by injection E as <- <-|].
  set (s3 := alter _ t s2) in *. assert (K3 : kept_but [t] s s3) by by apply kept_alter.
  destruct health as [[]|e|]; [|by injection E as <- <-..].
  apply (commit_spec io m t s3 s' r) in E; [|done]. destruct r as [i|e|].
  - destruct E as (Hd & Hk & _ & Hs & Hn & _). exists bytes, (<["manifest.json" := to_vec_pretty m]> (<[f := bytes]> ∅)).
    split; [done|]. split; [|split].
    + exists f. split; [done|]. split; [apply lookup_insert_eq|]. intros Hf. by rewrite lookup_insert_ne, lookup_insert_eq.
    + rewrite <- Hd. symmetry. apply K3. rewrite not_elem_of_cons. split; [congruence|apply not_elem_of_nil].
    + apply map_eq. intros k. destruct (decide (k = module_dir m)) as [->|Hkd].
      * rewrite Hs, lookup_insert_eq. unfold s3, s2, s1. by rewrite lookup_alter_eq, lookup_alter_eq, lookup_insert_eq.
      * rewrite lookup_insert_ne by done. destruct (decide (k = t)) as [->|Hkt]; [by rewrite Hn, Hu|].
        rewrite Hk by (rewrite !not_elem_of_cons; split_and!; [done..|apply not_elem_of_nil]).
        apply K3. rewrite not_elem_of_cons. split; [done|apply not_elem_of_nil].
  - intros k Hk. rewrite E by done. by apply K3.
  - intros k Hk. rewrite E by done. by apply K3.
Qed.
Lemma check_valid request bytes : check decode sha256_hex request = Ok bytes ->
  validate_manifest (manifest request) = Ok tt /\ Accounts.eq_ignore_ascii_case (sha256_hex bytes) (sha256 (manifest request)) = true /\
  0 < Z.of_nat (String.length bytes) <= MAX_MODULE_BYTES.
Proof.
  unfold check. destruct (validate_manifest _) as [[]|e|]; cbn [mbind result_bind]; [|done..].
  destruct (decode _) as [b|]; [|done]. destruct (Z.eqb_spec (Z.of_nat (String.length b)) 0); cbn [orb]; [done|].
  destruct (Z.ltb_spec MAX_MODULE_BYTES (Z.of_nat (String.length b))); [done|].
  destruct (Accounts.eq_ignore_ascii_case _ _) eqn:E; [|done]. intros [= <-]. split_and!; [done..|lia|lia].
Qed.
Lemma load_held m bytes files s : validate_manifest m = Ok tt -> holds m bytes files -> s !! module_dir m = Some files ->
  load_manifest from_slice (kind m) (mkModuleRef (name m) (version m)) s = Ok m.
Proof.
  intros Hv (f & _ & Hm & _) Hs. unfold load_manifest. cbn [m_name m_version].
  change (directory (kind m), name m, version m) with (module_dir m). rewrite Hs. cbn. rewrite Hm, from_to, Hv. cbn [mbind result_bind].
  rewrite bool_decide_eq_false_2 by (intros H; by apply H). by rewrite !String.eqb_refl.
Qed.
(** Whatever goes wrong with the disk or with the module that is tried out, and
    at whichever step, an installation never touches a module that is installed: a
    version that is there stays as it is, and one that fails adds none. One that
    succeeds adds exactly its own version, under the name it is then found by: the
    manifest that is loaded is the one that was sent, and the file that is run has
    the digest it names. *)
Theorem install_adds_its_version io health uuid request s s' r :
  install io health uuid request s = (s', r) -> unused uuid (manifest request) s ->
  let m := manifest request in
  (forall k, is_Some (s !! k) -> s' !! k = s !! k) /\
  match r with
  | Ok _ => exists bytes, Accounts.eq_ignore_ascii_case (sha256_hex bytes) (sha256 m) = true /\
      (forall k, k <> module_dir m -> s' !! k = s !! k) /\
      load_manifest from_slice (kind m) (mkModuleRef (name m) (version m)) s' = Ok m /\
      (file_of (executable m) <> Some "manifest.json" ->
       (files ← s' !! module_dir m; f ← file_of (executable m); files !! f) = Some bytes)
  | _ => forall k, k <> temporary_dir uuid m -> s' !! k = s !! k
  end.
Proof.
  intros E Hu. cbv zeta. pose proof (install_spec _ _ _ _ _ _ _ E Hu) as H. cbv zeta in H. set (m := manifest request) in *.
  assert (Hk : kept_but [temporary_dir uuid m] s s' -> forall k, k <> temporary_dir uuid m -> s' !! k = s !! k).
  { intros H' k Hk. apply H'. by rewrite not_elem_of_cons; split; [|apply not_elem_of_nil]. }
  assert (Hi : forall k, is_Some (s !! k) -> k <> temporary_dir uuid m) by (intros k [x Hx] ->; by rewrite (proj1 Hu) in Hx).
  destruct r as [i|e|]; [|by split; [intros k Hs; apply Hk; [|apply Hi]|apply Hk]..].
  destruct H as (bytes & files & Hc & Hh & Hn & ->). destruct (check_valid _ _ Hc) as (Hv & Hd & _). split.
  - intros k [x Hx]. rewrite lookup_insert_ne; [done|]. intros <-. by rewrite Hn in Hx.
  - exists bytes. split; [done|]. split; [by intros k Hkd; rewrite lookup_insert_ne|].
    assert (Hs : <[module_dir m := files]> s !! module_dir m = Some files) by apply lookup_insert_eq.
    split; [by eapply load_held|]. intros Hf. rewrite Hs. cbn. destruct Hh as (f & Ef & _ & Hb). rewrite Ef. cbn.
    apply Hb. congruence.
Qed.

(** ** The modules of the image *)
Lemma retire_spec io d l : forall s s', retire io d l s = (s', Ok tt) ->
  forall k, s' !! k = if decide (k ∈ l /\ k <> d) then None else s !! k.
Proof.
  induction l as [|k0 l IH]; intros s s'; cbn [retire].
  { intros [= <-] k. rewrite decide_False; [done|]. intros [H _]. by apply not_elem_of_nil in H. }
  destruct (decide (k0 = d)) as [->|Hd].
  - intros H k. rewrite (IH _ _ H). apply decide_ext. rewrite elem_of_cons. naive_solver.
  - destruct (io (Retire k0)); [done|]. intros H k. rewrite (IH _ _ H). destruct (decide (k = k0)) as [->|Hk].
    + rewrite lookup_delete_eq, (decide_True (P := k0 ∈ k0 :: l /\ _)) by (split; [by left|done]). by destruct (decide _).
    + rewrite lookup_delete_ne by done. apply decide_ext. rewrite elem_of_cons. naive_solver.
Qed.
Lemma retire_others_spec io m s s' : retire_others io m s = (s', Ok tt) ->
  forall k, s' !! k = if decide (family m k = true /\ k <> module_dir m) then None else s !! k.
Proof.
  unfold retire_others. destruct (io ReadFamily); [done|]. intros H k. rewrite (retire_spec _ _ _ _ _ H).
  destruct (decide (k = module_dir m)) as [->|Hd]; [by rewrite !decide_False by (intros [_ H']; by apply H')|].
  destruct (s !! k) as [files|] eqn:E; [|by destruct (decide _), (decide _)].
  apply decide_ext. split; intros [Hf _]; (split; [|done]).
  - apply list_elem_of_In, filter_In in Hf. by destruct Hf.
  - apply list_elem_of_In, filter_In. split; [|done]. apply list_elem_of_In. apply list_elem_of_fmap. exists (k, files).
    split; [done|]. by apply elem_of_map_to_list.
Qed.
Lemma sync_one_spec io health uuid source raw m s s' : sync_one io health uuid source s = (s', Ok tt) ->
  b_manifest source = inl raw -> from_slice raw = inl m -> unused uuid m s ->
  validate_manifest m = Ok tt /\
  exists s1, (s !! module_dir m <> None /\ s1 = s \/ exists bytes files, holds m bytes files /\ s !! module_dir m = None /\ s1 = <[module_dir m := files]> s) /\
    forall k, s' !! k = if decide (family m k = true /\ k <> module_dir m) then None else s1 !! k.
Proof.
  intros E Hr Hm Hu. unfold Modules.sync_one in E. rewrite Hr, Hm in E. destruct (validate_manifest m) as [[]|e|]; [|done..]. split; [done|].
  destruct (s !! module_dir m) as [files|] eqn:Ed; [exists s; split; [by left|by eapply retire_others_spec]|].
  destruct (b_file source (executable m)) as [artifact|why]; [|done].
  destruct (install io health uuid (mkRequest m (encode artifact)) s) as [s1 r] eqn:Ei. destruct r as [i|e|]; [|done..].
  destruct (install_spec _ _ _ _ _ _ _ Ei Hu) as (bytes & files & _ & Hh & _ & ->).
  exists (<[module_dir m := files]> s). split; [right; by exists bytes, files|by eapply retire_others_spec].
Qed.
(** What [sole] sees of a kind. *)
Definition of_kind (k : ModuleKind) (s : Store) : list InstalledModule := omap (installed_in from_slice k builtin builtin) (map_to_list s).
Lemma installed_in_kind k a b e i : installed_in from_slice k a b e = Some i -> i_kind i = k /\ builtin_ i = false.
Proof.
  unfold installed_in. destruct e as [[[kd nm] v] files]. destruct (String.eqb kd _); [|done].
  destruct (files !! "manifest.json") as [raw|]; [|done]. cbn. destruct (from_slice raw); [|done]. by intros [= <-].
Qed.
Lemma kind_of k s i : i ∈ of_kind k s -> i_kind i = k /\ builtin_ i = false.
Proof. intros (e & _ & Hi)%list_elem_of_omap. by eapply installed_in_kind. Qed.
Lemma filter_kind k k' s : List.filter (fun m => bool_decide (i_kind m = k) && negb (builtin_ m)) (of_kind k' s) =
  if decide (k' = k) then of_kind k' s else [].
Proof.
  pose proof (kind_of k' s) as H. revert H. generalize (of_kind k' s) as l. intros l.
  induction l as [|i l IH]; intros H; cbn [List.filter]; [by destruct (decide _)|].
  destruct (H i ltac:(by left)) as [-> ->]. rewrite IH by (intros i' Hi'; apply H; by right). rewrite andb_true_r.
  destruct (decide (k' = k)); [by rewrite bool_decide_eq_true_2|by rewrite bool_decide_eq_false_2].
Qed.
Lemma filter_perm {A} (p : A -> bool) l l' : l ≡ₚ l' -> List.filter p l ≡ₚ List.filter p l'.
Proof. induction 1; cbn [List.filter]; repeat destruct (p _); try done; try by constructor. by etransitivity. Qed.
Lemma sole_single k s i : of_kind k s = [i] -> sole from_slice k s = Ok (mkModuleRef (i_name i) (i_version i)).
Proof.
  intros Hk. unfold sole.
  assert (H : List.filter (fun m => bool_decide (i_kind m = k) && negb (builtin_ m)) (list_ from_slice builtin builtin s) ≡ₚ [i]).
  { unfold list_. rewrite (filter_perm _ _ _ (sort_by_perm _ _)). cbn [List.filter i_kind builtin_ negb flat_map]. rewrite !andb_false_r, app_nil_r.
    rewrite !List.filter_app. fold (of_kind Login s) (of_kind PbFetch s) (of_kind Register s). rewrite !filter_kind.
    destruct k; cbn; by rewrite ?Hk, ?app_nil_r. }
  apply Permutation_sym, Permutation_length_1_inv in H. by rewrite H.
Qed.
(** The only directory of a kind. *)
Lemma of_kind_single k d files m s : d.1.1 = directory k -> s !! d = Some files -> (files !! "manifest.json" ≫= fun raw => match from_slice raw with inl m => Some m | inr _ => None end) = Some m ->
  (forall k', is_Some (s !! k') -> k'.1.1 = directory k -> k' = d) ->
  exists i, of_kind k s = [i] /\ i_name i = name m /\ i_version i = version m.
Proof.
  intros Hd Hs Hm Ho. unfold of_kind.
  assert (Hi : exists i, installed_in from_slice k builtin builtin (d, files) = Some i /\ i_name i = name m /\ i_version i = version m).
  { unfold installed_in. destruct d as [[kd nm] v]. cbn in Hd. subst kd. rewrite String.eqb_refl. destruct (files !! "manifest.json") as [raw|]; [|done].
    cbn in *. destruct (from_slice raw) as [m'|]; [|done]. injection Hm as ->. eexists. split; [done|]. done. }
  destruct Hi as (i & Hi & Hn & Hv). exists i. split; [|done].
  assert (H : omap (installed_in from_slice k builtin builtin) (map_to_list s) ≡ₚ [i]).
  { rewrite <- (insert_delete_id s d files Hs), map_to_list_insert by apply lookup_delete_eq. cbn [omap list_omap]. rewrite Hi. constructor.
    assert (Hnone : forall e, e ∈ map_to_list (delete d s) -> installed_in from_slice k builtin builtin e = None).
    { intros [[[kd nm] v] f] He. apply elem_of_map_to_list, lookup_delete_Some in He as [Hne He]. unfold installed_in.
      destruct (String.eqb_spec kd (directory k)) as [->|]; [|done]. destruct Hne. symmetry. by apply Ho. }
    revert Hnone. generalize (map_to_list (delete d s)). induction l as [|e l IH]; intros Hnone; [done|]. cbn [omap list_omap].
    rewrite (Hnone e) by by left. apply IH. intros e' He. apply Hnone. by right. }
  by apply Permutation_sym, Permutation_length_1_inv in H.
Qed.
Lemma directory_inj k k' : directory k = directory k' -> k = k'.
Proof. by destruct k, k'. Qed.
(** Once a module of the image is in step, it is the only one of its name on the
    volume, whatever versions were left there, and the registration finds it: the
    one module of its kind is the version the image carries. The modules of other
    names are untouched. *)
Theorem bundled_module_is_the_sole_one io health uuid source raw m s s' : sync_one io health uuid source s = (s', Ok tt) ->
  b_manifest source = inl raw -> from_slice raw = inl m -> unused uuid m s ->
  (forall files, s !! module_dir m = Some files -> exists text, files !! "manifest.json" = Some text /\ from_slice text = inl m) ->
  (forall k, is_Some (s !! k) -> k.1.1 = directory (kind m) -> k.1.2 = name m) ->
  sole from_slice (kind m) s' = Ok (mkModuleRef (name m) (version m)) /\
  load_manifest from_slice (kind m) (mkModuleRef (name m) (version m)) s' = Ok m /\
  forall k, family m k = false -> s' !! k = s !! k.
Proof.
  intros E Hr Hm Hu Hgood Hfam. destruct (sync_one_spec _ _ _ _ _ _ _ _ E Hr Hm Hu) as (Hv & s1 & H1 & Hk).
  assert (Hs1 : exists files, s1 !! module_dir m = Some files /\ exists text, files !! "manifest.json" = Some text /\ from_slice text = inl m).
  { destruct H1 as [[Hd ->]|(bytes & files & (f & _ & Hf & _) & _ & ->)].
    - destruct (s !! module_dir m) as [files|] eqn:Es; [|done]. exists files. split; [done|]. by apply Hgood.
    - exists files. split; [apply lookup_insert_eq|]. exists (to_vec_pretty m). by rewrite from_to. }
  destruct Hs1 as (files & Hf & text & Ht & Htm).
  assert (Hd : s' !! module_dir m = Some files) by (rewrite Hk, decide_False by (intros [_ H]; by apply H); done).
  assert (Hkeep : forall k, family m k = false -> s' !! k = s !! k).
  { intros k Hkf. rewrite Hk, decide_False by (intros [H _]; congruence). destruct H1 as [[_ ->]|(? & ? & _ & _ & ->)]; [done|].
    rewrite lookup_insert_ne; [done|]. intros <-. unfold family, module_dir in Hkf. cbn in Hkf. by rewrite !String.eqb_refl in Hkf. }
  split; [|split; [|done]].
  - destruct (of_kind_single (kind m) (module_dir m) files m s') as (i & Hi & Hn & Hv'); [done|done|by rewrite Ht; cbn; rewrite Htm| |].
    + intros k' [x Hx] Hkd. destruct (decide (k' = module_dir m)) as [|Hne]; [done|]. exfalso.
      assert (Hf' : family m k' = true).
      { unfold family. rewrite Hkd, String.eqb_refl. apply String.eqb_eq. apply Hfam; [|done].
        destruct (family m k') eqn:Ef; [|by rewrite <- (Hkeep _ Ef), Hx]. rewrite Hk, decide_True in Hx by done. done. }
      rewrite Hk, decide_True in Hx by done. done.
    + by rewrite (sole_single _ _ _ Hi), Hn, Hv'.
  - unfold load_manifest. cbn [m_name m_version]. change (directory (kind m), name m, version m) with (module_dir m). rewrite Hd. cbn.
    rewrite Ht, Htm, Hv. cbn [mbind result_bind]. rewrite bool_decide_eq_false_2 by (intros H; by apply H). by rewrite !String.eqb_refl.
Qed.
End Facts.

(** ** Witnesses: a manifest is written member by member, each character after a
    mark and each member before a stop. *)
Fixpoint toy_put (s rest : string) : string :=
  match s with "" => String "." rest | String a s => String "+" (String a (toy_put s rest)) end.
Fixpoint toy_get (s : string) : option (string * string) :=
  match s with
  | String "." rest => Some ("", rest)
  | String _ (String a s) => '(t, rest) ← toy_get s; Some (String a t, rest)
  | _ => None
  end.
Fixpoint toy_put_all (l : list string) : string := match l with [] => "" | x :: l => toy_put x (toy_put_all l) end.
Fixpoint toy_get_all (fuel : nat) (s : string) : list string :=
  match fuel, toy_get s with S fuel, Some (x, rest) => x :: toy_get_all fuel rest | _, _ => [] end.
Lemma toy_get_put s rest : toy_get (toy_put s rest) = Some (s, rest).
Proof. induction s as [|a s IH]; [done|]. cbn [toy_put toy_get]. by rewrite IH. Qed.
Lemma toy_put_length s rest : (String.length rest < String.length (toy_put s rest))%nat.
Proof. induction s as [|a s IH]; cbn; lia. Qed.
Lemma toy_get_put_all l : forall fuel, (String.length (toy_put_all l) < fuel)%nat -> toy_get_all fuel (toy_put_all l) = l.
Proof.
  induction l as [|x l IH]; intros [|fuel] Hf; try (cbn in *; lia); [done|]. cbn [toy_put_all toy_get_all] in *.
  rewrite toy_get_put. f_equal. apply IH. pose proof (toy_put_length x (toy_put_all l)). lia.
Qed.
Fixpoint toy_bits (p : positive) : string :=
  match p with xH => "" | xO p => String "0" (toy_bits p) | xI p => String "1" (toy_bits p) end.
Fixpoint toy_unbits (s : string) : positive :=
  match s with "" => xH | String a s => if Ascii.eqb a "0" then xO (toy_unbits s) else xI (toy_unbits s) end.
Lemma toy_bits_back p : toy_unbits (toy_bits p) = p.
Proof. induction p as [p IH|p IH|]; cbn; by rewrite ?IH. Qed.
Definition toy_to (m : ModuleManifest) : string :=
  toy_put_all ([toy_bits (encode (protocol_version m)); directory (kind m); name m; version m; executable m; sha256 m] ++ args m).
Definition toy_from (s : string) : ModuleManifest + string :=
  match toy_get_all (S (String.length s)) s with
  | p :: k :: n :: v :: e :: h :: a =>
    inl (mkManifest (default 0 (decode (toy_unbits p))) (if String.eqb k "login" then Login else if String.eqb k "pb_fetch" then PbFetch else Register) n v e a h)
  | _ => inr "expected value"
  end.
Lemma toy_manifest_back m : toy_from (toy_to m) = inl m.
Proof.
  unfold toy_from, toy_to. rewrite toy_get_put_all by lia. cbn [app]. rewrite toy_bits_back, decode_encode. by destruct m as [p [] n v e a h].
Qed.
Definition toy_sha : string := "00112233445566778899aabbccddeeff00112233445566778899aabbccddeeff".
Definition toy_hash (bytes : string) : string := toy_sha.
Definition toy_manifest (v : string) : ModuleManifest := mkManifest 1 Register "curl-chrome" v "module" [] toy_sha.
Definition toy_dir (v : string) : Dir := <["manifest.json" := toy_to (toy_manifest v)]> {[ "module" := "#!/bin/sh" ]}.
(** A volume with the release before, and the image of the next. *)
Definition toy_store : Store := {[ ("register", "curl-chrome", "1.2.0") := toy_dir "1.2.0" ]}.
Definition toy_bundle : Bundle := mkBundle (inl (toy_to (toy_manifest "1.3.0"))) (fun _ => inl "#!/bin/bash").
Definition toy_install (health : result WatchServiceError ()) : Store * result WatchServiceError InstalledModule :=
  install toy_to inl toy_hash (fun _ => None) health "u1" (mkRequest (toy_manifest "1.3.0") "#!/bin/bash") toy_store.
Definition toy_sync (health : result WatchServiceError ()) : Store * result WatchServiceError () :=
  sync_one toy_from toy_to inl (fun s => s) toy_hash (fun _ => None) health "u1" toy_bundle toy_store.
Lemma install_adds_its_version_witness :
  load_manifest toy_from Register (mkModuleRef "curl-chrome" "1.3.0") (fst (toy_install (Ok tt))) = Ok (toy_manifest "1.3.0") /\
  fst (toy_install (Ok tt)) !! ("register", "curl-chrome", "1.2.0") = Some (toy_dir "1.2.0").
Proof.
  assert (Hr : snd (toy_install (Ok tt)) = Ok (mkInstalled Register "curl-chrome" "1.3.0" 1 false false)) by (vm_compute; reflexivity).
  destruct (install_adds_its_version toy_from toy_to inl toy_hash toy_manifest_back (fun _ => None) (Ok tt) "u1"
    (mkRequest (toy_manifest "1.3.0") "#!/bin/bash") toy_store _ _ (surjective_pairing (toy_install (Ok tt)))) as [H1 H2].
  { split; [vm_compute; reflexivity|]. intros H. apply (f_equal snd) in H. revert H. vm_compute. discriminate. }
  rewrite Hr in H2. destruct H2 as (bytes & _ & _ & H2 & _). split; [exact H2|]. rewrite H1; [reflexivity|].
  exists (toy_dir "1.2.0"). apply lookup_singleton_eq.
Defined.
Lemma bundled_module_is_the_sole_one_witness :
  snd (toy_sync (Ok tt)) = Ok tt /\ sole toy_from Register (fst (toy_sync (Ok tt))) = Ok (mkModuleRef "curl-chrome" "1.3.0").
Proof.
  assert (Hr : snd (toy_sync (Ok tt)) = Ok tt) by (vm_compute; reflexivity). split; [exact Hr|].
  pose proof (surjective_pairing (toy_sync (Ok tt))) as E. rewrite Hr in E.
  refine (proj1 (bundled_module_is_the_sole_one toy_from toy_to inl (fun s => s) toy_hash toy_manifest_back (fun _ => None) (Ok tt) "u1"
    toy_bundle (toy_to (toy_manifest "1.3.0")) (toy_manifest "1.3.0") toy_store _ E eq_refl (toy_manifest_back _) _ _ _)).
  - split; [vm_compute; reflexivity|]. intros H. apply (f_equal snd) in H. revert H. vm_compute. discriminate.
  - intros files H. exfalso. assert (E0 : toy_store !! module_dir (toy_manifest "1.3.0") = None) by (vm_compute; reflexivity). congruence.
  - intros k [x H] _. unfold toy_store in H. apply lookup_singleton_Some in H as [<- _]. reflexivity.
Defined.
(** A module of the image that does not come up leaves its temporary directory
    with a manifest in it: the registration then counts two modules and refuses
    the one that worked. *)
Example failed_upgrade_blocks_registration :
  let s := fst (toy_sync (Err (ModuleFailed "health"))) in
  sole toy_from Register toy_store = Ok (mkModuleRef "curl-chrome" "1.2.0") /\
  sole toy_from Register s = Err (InvalidConfig "装了 2 个 register 模块，先卸掉多余的：curl-chrome@1.2.0、curl-chrome@1.3.0") /\
  is_Some (s !! ("register", "curl-chrome", "1.3.install-u1")).
Proof. split; [vm_compute; reflexivity|]. split; [vm_compute; reflexivity|]. apply (bool_decide_unpack _). vm_compute. exact I. Qed.
(** Alone on the volume, such a directory is what is found, and what cannot be
    loaded. *)
Example failed_install_is_listed :
  let s := fst (install toy_to inl toy_hash (fun _ => None) (Err (ModuleFailed "health")) "u1" (mkRequest (toy_manifest "1.3.0") "#!/bin/bash") ∅) in
  sole toy_from Register s = Ok (mkModuleRef "curl-chrome" "1.3.0") /\
  load_manifest toy_from Register (mkModuleRef "curl-chrome" "1.3.0") s = Err (ModuleNotInstalled "curl-chrome" "1.3.0").
Proof. vm_compute. by split. Qed.
(** A file in a directory of its own passes the checks, and is never installed. *)
Example nested_executable_fails :
  let m := mkManifest 1 Register "curl-chrome" "1.3.0" "bin/module" [] toy_sha in
  validate_manifest m = Ok tt /\
  snd (install toy_to inl toy_hash (fun _ => None) (Ok tt) "u1" (mkRequest m "#!/bin/bash") ∅) = Err (Io "No such file or directory").
Proof. vm_compute. by split. Qed.
