(* ===== verification/Sessions.v ===== *)
(** The sessions of the re-fetch pool ([RefetchSupervisor] of
    [src/src/refetch_service.rs]): its configuration, the accounts it may log in
    with, and the sessions and the walk of a run, in the steps between which the
    collectors, the account pool and other requests move. *)
From S2P Require Import Prelude Text Json Accounts Mihomo Service WatchConfig Supervisor.
#[local] Open Scope string_scope.
#[local] Open Scope list_scope.
#[local] Open Scope Z_scope.

Module Sessions.
Import Service WatchConfig.
Definition MAX_REQUEST_DELAY_MS : Z := 60000.
Definition LEGACY_SECRET_REF : string := "file:/run/secrets/majsoul_refetch_accounts".
Inductive RefetchWork := MissingPb | KnownGames.
Record RefetchServiceConfig := mkRefetch {
  revision : Z; enabled : bool; work : RefetchWork; sweep_from : option Z; server : string; proxy_mode : WatchProxyMode;
  custom_proxy_url : option string; account_secret_ref : string; concurrency : Z; request_delay_ms : Z; client_version : option string
}.
#[export] Instance RefetchServiceConfig_settable : Settable RefetchServiceConfig := fun c =>
  mkRefetch (revision c) (enabled c) (work c) (sweep_from c) (server c) (proxy_mode c) (custom_proxy_url c) (account_secret_ref c)
    (concurrency c) (request_delay_ms c) (client_version c).
Definition default_config : RefetchServiceConfig :=
  mkRefetch 1 false MissingPb None "cn" Mihomo None "pool:refetch" 2 1500 None.
Definition migrate_legacy_secret_ref (legacy_file_exists : bool) (c : RefetchServiceConfig) : RefetchServiceConfig * bool :=
  if negb (String.eqb (account_secret_ref c) LEGACY_SECRET_REF) || legacy_file_exists then (c, false)
  else (c <| account_secret_ref := "pool:refetch" |> <| revision ::= fun r => sat_add_u64 r 1 |>, true).

Section Config.
Variable urls : UrlOps.
Definition validate (c : RefetchServiceConfig) : result WatchServiceError () :=
  if negb (one_of ["cn"; "en"; "jp"] (server c)) then invalid "server must be cn, en or jp"
  else if concurrency c <? 1 then invalid "concurrency must be at least 1"
  else if MAX_REQUEST_DELAY_MS <? request_delay_ms c then invalid ("request_delay_ms must not exceed " +:+ pretty MAX_REQUEST_DELAY_MS)
  else
    _ ← validate_secret_ref (account_secret_ref c);
    match proxy_mode c with
    | Direct | Mihomo => Ok tt
    | Custom =>
      match custom_proxy_url c with
      | None => invalid "custom_proxy_url is required in custom proxy mode"
      | Some value =>
        match parse urls value with
        | inr error => invalid ("invalid custom proxy URL: " +:+ error)
        | inl url => if one_of ["http"; "https"; "socks5"] (scheme urls url) then Ok tt
                     else invalid "custom proxy URL must use http, https or socks5"
        end
      end
    end.
Definition published_config (c : RefetchServiceConfig) : RefetchServiceConfig := c <| custom_proxy_url ::= redacted_proxy urls |>.
(** [RefetchSupervisor::new]: what a boot reads, and the file after it. *)
Variable from_slice : json -> RefetchServiceConfig + string.
Variable to_value : RefetchServiceConfig -> json.
Definition persist_json (written : bool) (c : RefetchServiceConfig) (file : Stored) : Stored * result WatchServiceError () :=
  if written then (Document (to_value c), Ok tt) else (file, Err (Io "write")).
Definition load (legacy_file_exists written : bool) (file : Stored) : Stored * result WatchServiceError RefetchServiceConfig :=
  match file with
  | Unreadable why => (file, Err (Io why))
  | NotJson why => (file, Err (Json why))
  | NoFile => let '(file, r) := persist_json written default_config file in (file, _ ← r; Ok default_config)
  | Document v =>
    match from_slice v with
    | inr why => (file, Err (Json why))
    | inl c =>
      match validate c with
      | Err e => (file, Err e)
      | Panic => (file, Panic)
      | Ok _ =>
        match migrate_legacy_secret_ref legacy_file_exists c with
        | (c, true) => let '(file, r) := persist_json written c file in (file, _ ← r; Ok c)
        | (c, false) => (file, Ok c)
        end
      end
    end
  end.
End Config.

(** ** Accounts *)
(** What the rest of the process holds, as a session reads it. *)
Record Around := mkAround {
  pool : Accounts.AccountPool; watch : WatchServiceConfig; mihomo : Mihomo.Manager;
  read_file : string -> option string; env_var : string -> option string
}.
#[export] Instance Around_settable : Settable Around := fun a => mkAround (pool a) (watch a) (mihomo a) (read_file a) (env_var a).
Definition accounts_of (secret_ref : string) (a : Around) : option (list (string * string)) :=
  load_accounts (read_file a) (env_var a) secret_ref (pool a).
Definition starts_with (prefix s : string) : bool := String.eqb (stake (String.length prefix) s) prefix.
Section Accounts_.
(** What the error of reading a reference says. *)
Variable error_text : string -> string.
Fixpoint held_by (a : Around) (held : gset string) (l : list WatchInstance) : result WatchServiceError (gset string) :=
  match l with
  | [] => Ok held
  | i :: l =>
    if starts_with "pool:" (WatchConfig.account_secret_ref i) then held_by a held l
    else match accounts_of (WatchConfig.account_secret_ref i) a with
         | Some ((name, _) :: _) => held_by a ({[name]} ∪ held) l
         | _ => invalid ("读不到采集实例 " +:+ id i +:+ " 的账号（" +:+ error_text (WatchConfig.account_secret_ref i)
                +:+ "），无法确认补抓池会不会和它抢；把它的账号引用改成控制台账号池里的 pool:watch/账号，或者删掉这个实例")
         end
  end.
Definition collector_accounts (a : Around) : result WatchServiceError (gset string) :=
  held_by a (Accounts.reserved Accounts.Watch (pool a)) (instances (watch a)).
Fixpoint pool_accounts (collectors seen : gset string) (l : list (string * string)) : list (string * string) :=
  match l with
  | [] => []
  | (name, password) :: l =>
    if decide (name ∈ collectors \/ name ∈ seen) then pool_accounts collectors seen l
    else (name, password) :: pool_accounts collectors ({[name]} ∪ seen) l
  end.
Definition usable_accounts (c : RefetchServiceConfig) (a : Around) : result WatchServiceError (list (string * string)) :=
  match accounts_of (account_secret_ref c) a with
  | None => invalid (error_text (account_secret_ref c))
  | Some l => held ← collector_accounts a; Ok (pool_accounts held ∅ l)
  end.
End Accounts_.

(** ** Exits *)
Section Exits.
Variable set_port : string -> Z -> option string.
Variable mihomo_url : string.
Definition exit_or_lane (node_exit lane : option string) : option string := match node_exit with Some e => Some e | None => lane end.
Definition proxy_url (c : RefetchServiceConfig) (a : Around) : option string :=
  match proxy_mode c with
  | Direct => None
  | Mihomo => Some (Mihomo.proxy_url_for set_port mihomo_url Mihomo.Refetch (mihomo a))
  | Custom => custom_proxy_url c
  end.
Definition account_proxy (c : RefetchServiceConfig) (name : string) (lane : option string) (a : Around) : option string :=
  match proxy_mode c with
  | Mihomo => exit_or_lane (node ← Accounts.node_for name (pool a); Mihomo.proxy_url_for_node set_port mihomo_url node (mihomo a)) lane
  | _ => lane
  end.
End Exits.

(** ** A run *)
(** A session: the account it logs in with, and where it stands: before the protocol
    modules are at hand; before it reads who holds its account; dialling; answering
    requests; waiting to log in again. *)
Inductive Stage := Arriving | Ready | Dialling | Serving | Resting.
#[export] Instance Stage_dec : EqDecision Stage.
Proof. solve_decision. Defined.
Record Session := mkSession { s_generation : Z; s_name : string; s_password : string; s_config : RefetchServiceConfig; s_lane : option string; stage : Stage }.
#[export] Instance Session_settable : Settable Session := fun s =>
  mkSession (s_generation s) (s_name s) (s_password s) (s_config s) (s_lane s) (stage s).
(** A walk: its generation, and the sessions it waits for once it is over. *)
Record Walk := mkWalk { w_generation : Z; leaving : option (list nat) }.
Record Runtime := mkRuntime {
  phase : ServicePhase; active_revision : option Z; active_work : option RefetchWork; last_error : option string;
  accounts : Z; workers : Z; backlog : option Z
}.
#[export] Instance Runtime_settable : Settable Runtime := fun r =>
  mkRuntime (phase r) (active_revision r) (active_work r) (last_error r) (accounts r) (workers r) (backlog r).
Definition stopped_runtime : Runtime := mkRuntime Stopped None None None 0 0 None.
(** What a request goes on to when the old run is gone. *)
Inductive Then_ := Spawning (c : RefetchServiceConfig) (l : list (string * string)) | Stopping_.
Inductive Answer := Published (c : RefetchServiceConfig) | Status.
Inductive Reply := Config (c : RefetchServiceConfig) | StatusOf (r : Runtime) (sessions : Z) | Refused (e : WatchServiceError).
Inductive Op :=
| Quitting (a : Answer) (next : Then_)
| Joining (a : Answer) (next : Then_) (ids : list nat)
| Spawned (a : Answer) (c : RefetchServiceConfig) (ids : list nat).
(** A login that is attempted: the account, the exit, and what the rest of the
    process held as it was decided. *)
Record Dial := mkDial { d_name : string; d_config : RefetchServiceConfig; d_proxy : option string; d_around : Around }.
Record World := mkWorld {
  config : RefetchServiceConfig; file : Stored; around : Around; runtime : Runtime; generation : Z; sessions : Z;
  handles : list nat; walk_task : option nat; walks : gmap nat Walk; live : gmap nat Session; spawned : nat;
  ops : gmap nat Op; answers : list (nat * Reply); dialled : list Dial
}.
#[export] Instance World_settable : Settable World := fun w =>
  mkWorld (config w) (file w) (around w) (runtime w) (generation w) (sessions w) (handles w) (walk_task w) (walks w) (live w) (spawned w)
    (ops w) (answers w) (dialled w).

Inductive Event :=
(* requests of the console *)
| Update (i : nat) (next : RefetchServiceConfig) (written : bool)
| Action (i : nat) (a : WatchAction)
| Took (i : nat)
| Joined (i : nat)
| Kept (i : nat)
(* a session *)
| Modules (t : nat) (error : option string)
| Checked (t : nat)
| LoggedIn (t : nat)
| LoginFailed (t : nat) (verdict : Accounts.AccountState) (detail : string) (written : bool)
| Closed (t : nat)
| Woke (t : nat)
(* the walk of a run comes to its end *)
| WalkOver (t : nat)
| WalkGone (t : nat) (error : option string)
(* everything else of the process *)
| Moved (a : Around).

Section Steps.
Variable urls : UrlOps.
Variable to_value : RefetchServiceConfig -> json.
Variable error_text : string -> string.
Variable set_port : string -> Z -> option string.
Variable mihomo_url : string.
Variable to_lowercase : string -> string.
Variable now : Z.

Definition answer (i : nat) (r : Reply) (w : World) : World :=
  w <| ops ::= delete i |> <| answers ::= fun l => l ++ [(i, r)] |>.
Definition finish_request (i : nat) (a : Answer) (w : World) : World :=
  answer i (match a with Published c => Config c | Status => StatusOf (runtime w) (sessions w) end) w.
Definition fail (message : string) (w : World) : World :=
  w <| runtime ::= fun r => r <| phase := Failed |> <| last_error := Some message |> |>.
Definition forget (ids : list nat) (l : gmap nat Session) : gmap nat Session := filter (fun p => p.1 ∉ ids) l.
(** [stop_tasks]: the walk is aborted first. What it was waiting for had been
    aborted before. *)
Definition quit_walk (w : World) : World :=
  match walk_task w with
  | None => w
  | Some t =>
    let w := match walks w !! t with Some (mkWalk _ (Some ids)) => w <| live ::= forget ids |> | _ => w end in
    w <| walks ::= delete t |> <| walk_task := None |>
  end.
Definition stop_tasks (i : nat) (a : Answer) (next : Then_) (w : World) : World :=
  quit_walk (w <| ops ::= <[i := Quitting a next]> |>).
Definition no_accounts : string := "账号池里没有可用账号：文件为空，或者里面的账号都已经被采集实例占用".
Definition start (i : nat) (a : Answer) (w : World) : World :=
  match usable_accounts error_text (config w) (around w) with
  | Ok [] => answer i (Refused (InvalidConfig no_accounts)) (fail no_accounts w)
  | Ok l => stop_tasks i a (Spawning (config w) l) w
  | Err e => answer i (Refused e) (fail ("读不到账号池：" +:+ to_string e) w)
  | Panic => w
  end.
Definition stop (i : nat) (a : Answer) (w : World) : World :=
  stop_tasks i a Stopping_ (w <| runtime ::= fun r => r <| phase := Stopping |> |>).
Definition update_config (i : nat) (next : RefetchServiceConfig) (written : bool) (w : World) : World :=
  match validate urls next with
  | Err e => answer i (Refused e) w
  | Panic => w
  | Ok _ =>
    if negb (revision next =? revision (config w))
    then answer i (Refused (RevisionConflict (revision next) (revision (config w)))) w
    else
      let saved := next <| custom_proxy_url := restored_proxy urls (custom_proxy_url next) (custom_proxy_url (config w)) |>
                        <| revision := sat_add_u64 (revision (config w)) 1 |> in
      match persist_json to_value written saved (file w) with
      | (f, Ok _) =>
        let w := w <| file := f |> <| config := saved |> in
        if enabled saved then start i (Published (published_config urls saved)) w else stop i (Published (published_config urls saved)) w
      | (f, Err e) => answer i (Refused e) (w <| file := f |>)
      | (f, Panic) => w
      end
  end.
(** The sessions are aborted, then waited for. *)
Definition took (i : nat) (w : World) : option World :=
  match ops w !! i with
  | Some (Quitting a next) => Some (w <| ops ::= <[i := Joining a next (handles w)]> |> <| handles := [] |>)
  | _ => None
  end.
Definition spawn (i : nat) (a : Answer) (c : RefetchServiceConfig) (l : list (string * string)) (w : World) : World :=
  let g := generation w + 1 in
  let count := Z.min (concurrency c) (zlen l) in
  let lane := proxy_url set_port mihomo_url c (around w) in
  let tasks := map (fun '(name, password) => mkSession g name password c lane Arriving) (take (Z.to_nat count) l) in
  let ids := seq (spawned w) (length tasks) in
  w <| generation := g |> <| sessions := 0 |>
    <| runtime := mkRuntime Starting (Some (revision c)) (Some (work c)) None (zlen l) count None |>
    <| live ::= fun m => list_to_map (zip ids tasks) ∪ m |> <| spawned ::= fun n => (n + length tasks)%nat |>
    <| ops ::= <[i := Spawned a c ids]> |>.
Definition joined (i : nat) (w : World) : option World :=
  match ops w !! i with
  | Some (Joining a next ids) =>
    let w := w <| live ::= forget ids |> <| sessions := 0 |> in
    Some match next with
    | Spawning c l => spawn i a c l w
    | Stopping_ => finish_request i a (w <| runtime ::= fun r =>
        r <| phase := Stopped |> <| active_revision := None |> <| active_work := None |> <| workers := 0 |> |>)
    end
  | _ => None
  end.
(** The handles are kept and the walk is started. *)
Definition kept (i : nat) (w : World) : option World :=
  match ops w !! i with
  | Some (Spawned a c ids) =>
    Some (finish_request i a
      (w <| handles := ids |> <| walks ::= <[spawned w := mkWalk (generation w) None]> |> <| walk_task := Some (spawned w) |>
         <| spawned ::= S |> <| runtime ::= fun r => r <| phase := Running |> |>))
  | _ => None
  end.

(** [run_worker] *)
Definition leave (t : nat) (w : World) : World := w <| live ::= delete t |>.
Definition at_stage (t : nat) (s : Session) (g : Stage) (w : World) : World := w <| live ::= <[t := s <| stage := g |>]> |>.
(** The session is over: the run goes on, or another has taken its place. *)
Definition rest (t : nat) (s : Session) (w : World) : World :=
  if generation w =? s_generation s then at_stage t s Resting w else leave t w.
Definition checked (t : nat) (s : Session) (w : World) : World :=
  match collector_accounts error_text (around w) with
  | Ok held =>
    if decide (s_name s ∈ held) then leave t w
    else
      let proxy := account_proxy set_port mihomo_url (s_config s) (s_name s) (s_lane s) (around w) in
      at_stage t s Dialling (w <| dialled ::= fun l => l ++ [mkDial (s_name s) (s_config s) proxy (around w)] |>)
  | _ => leave t w
  end.
Definition login_failed (t : nat) (s : Session) (verdict : Accounts.AccountState) (detail : string) (written : bool) (w : World) : World :=
  let w := w <| around ::= fun a => a <| pool ::= Accounts.record_login to_lowercase now (s_name s) verdict detail |> |> in
  if Accounts.is_terminal verdict
  then leave t (w <| around ::= fun a => a <| pool ::= fun p => fst (Accounts.retire_banned now written (s_name s) p) |> |>)
  else rest t s w.
Definition session_step (e : Event) (t : nat) (s : Session) (w : World) : option World :=
  match e, stage s with
  | Modules _ None, Arriving => Some (at_stage t s Ready w)
  | Modules _ (Some why), Arriving => Some (leave t (fail why w))
  | Checked _, Ready => Some (checked t s w)
  | LoggedIn _, Dialling =>
    Some (at_stage t s Serving (w <| sessions ::= fun n => as_unsigned 64 (n + 1) |>
      <| around ::= fun a => a <| pool ::= Accounts.record_login to_lowercase now (s_name s) Accounts.LoggedIn "" |> |>))
  | LoginFailed _ verdict detail written, Dialling => Some (login_failed t s verdict detail written w)
  | Closed _, Serving => Some (rest t s (w <| sessions ::= fun n => as_unsigned 64 (n - 1) |>))
  | Woke _, Resting => Some (at_stage t s Ready w)
  | _, _ => None
  end.
Definition apply_action (i : nat) (a : WatchAction) (w : World) : World := match a with Stop => stop i Status w | _ => start i Status w end.
Definition step (e : Event) (w : World) : option World :=
  match e with
  | Update i next written => if decide (ops w !! i = None) then Some (update_config i next written w) else None
  | Action i a =>
    if decide (ops w !! i = None) then Some (apply_action i a w) else None
  | Took i => took i w
  | Joined i => joined i w
  | Kept i => kept i w
  | Modules t _ | Checked t | LoggedIn t | LoginFailed t _ _ _ | Closed t | Woke t =>
    s ← live w !! t; session_step e t s w
  | WalkOver t =>
    match walks w !! t with
    | Some (mkWalk g None) =>
      if g =? generation w then Some (w <| walks ::= <[t := mkWalk g (Some (handles w))]> |> <| handles := [] |>)
      else Some (w <| walks ::= delete t |>)
    | _ => None
    end
  | WalkGone t error =>
    match walks w !! t with
    | Some (mkWalk g (Some ids)) =>
      let w := w <| walks ::= delete t |> <| live ::= forget ids |> <| sessions := 0 |> in
      Some match error with
      | None => w <| runtime ::= fun r => r <| phase := Stopped |> |>
      | Some why => fail ("补抓中止，已替换的部分仍然有效：" +:+ why) w
      end
    | _ => None
    end
  | Moved a => Some (w <| around := a |>)
  end.
Fixpoint run (es : list Event) (w : World) : option World :=
  match es with
  | [] => Some w
  | e :: es => match step e w with Some w => run es w | None => None end
  end.
Definition boot (c : RefetchServiceConfig) (f : Stored) (a : Around) : World :=
  mkWorld c f a stopped_runtime 0 0 [] None ∅ ∅ 0 ∅ [] [].
Definition start_if_enabled (i : nat) (w : World) : World := if enabled (config w) then start i Status w else w.
End Steps.
End Sessions.

Import Service WatchConfig Sessions.

(** ** Whose accounts are the collectors' *)
(** The account a collector logs in with: the first of its reference. *)
Definition login_name (a : Around) (i : WatchInstance) : option string :=
  l ← accounts_of (WatchConfig.account_secret_ref i) a; fst <$> head l.
(** A reference into the account pool names accounts filed under collection. *)
Definition filed_under_watch (i : WatchInstance) : Prop :=
  forall target r, split_once ":"%char (WatchConfig.account_secret_ref i) = Some ("pool", target) -> Accounts.ref_parse target = Some r ->
    match r with Accounts.All p | Accounts.One p _ => p = Accounts.Watch end.
Lemma starts_with_pool s : starts_with "pool:" s = true -> exists target, split_once ":"%char s = Some ("pool", target).
Proof.
  unfold starts_with. intros H%String.eqb_eq. pose proof (stake_sdrop 5 s) as E. change (String.length "pool:") with 5%nat in H. rewrite H in E.
  exists (sdrop 5 s). rewrite <- E at 1. reflexivity.
Qed.
Lemma resolved_reserved r pool p name password : (match r with Accounts.All q | Accounts.One q _ => q = p end) ->
  (name, password) ∈ Accounts.resolve r pool -> name ∈ Accounts.reserved p pool.
Proof.
  intros Hp H. unfold Accounts.resolve in H. apply list_elem_of_fmap in H as (x & [= -> ->] & Hx).
  apply list_elem_of_In, filter_In in Hx as [Hx Hq]. apply filter_In in Hx as [Hx _].
  unfold Accounts.reserved. apply elem_of_list_to_set, list_elem_of_fmap. exists x. split; [done|]. apply list_elem_of_In, filter_In.
  split; [done|]. destruct r as [q|q n]; subst q; [done|]. by apply andb_true_iff in Hq as [? _].
Qed.
Lemma held_by_spec error_text a l : forall held held', held_by error_text a held l = Ok held' ->
  held ⊆ held' /\ forall i, i ∈ l -> starts_with "pool:" (WatchConfig.account_secret_ref i) = false ->
    exists name, login_name a i = Some name /\ name ∈ held'.
Proof.
  induction l as [|i l IH]; intros held held'; cbn [held_by].
  { intros [= <-]. split; [done|]. intros i Hi. by apply not_elem_of_nil in Hi. }
  destruct (starts_with "pool:" _) eqn:Es.
  - intros H. destruct (IH _ _ H) as [H1 H2]. split; [done|]. intros i' [->|Hi]%elem_of_cons Hs; [congruence|by apply H2].
  - destruct (accounts_of _ a) as [[|[name password] rest]|] eqn:Ea; [done| |done].
    intros H. destruct (IH _ _ H) as [H1 H2]. split; [set_solver|]. intros i' [->|Hi]%elem_of_cons Hs; [|by apply H2].
    exists name. unfold login_name. rewrite Ea. split; [done|]. set_solver.
Qed.
(** What [collector_accounts] answers holds the account of every collector. *)
Lemma collector_accounts_spec error_text a held i name : collector_accounts error_text a = Ok held ->
  i ∈ instances (watch a) -> filed_under_watch i -> login_name a i = Some name -> name ∈ held.
Proof.
  intros H Hi Hf Hn. destruct (held_by_spec _ _ _ _ _ H) as [H1 H2].
  destruct (starts_with "pool:" (WatchConfig.account_secret_ref i)) eqn:Es.
  - apply H1. destruct (starts_with_pool _ Es) as [target Et]. unfold login_name, accounts_of, load_accounts in Hn. rewrite Et in Hn. cbn in Hn.
    destruct (Accounts.ref_parse target) as [r|] eqn:Er; [|done]. cbn in Hn.
    destruct (Accounts.resolve r (pool a)) as [|[n p] l] eqn:Ez; [done|]. cbn in Hn. injection Hn as <-.
    apply (resolved_reserved r (pool a) _ _ p); [by apply (Hf target)|]. rewrite Ez. by left.
  - destruct (H2 i Hi Es) as (n & Hn' & Hin). by rewrite Hn in Hn'; injection Hn' as <-.
Qed.

Section Facts.
Context (urls : UrlOps) (to_value : RefetchServiceConfig -> json) (error_text : string -> string) (set_port : string -> Z -> option string)
  (mihomo_url : string) (to_lowercase : string -> string) (now : Z).
Abbreviation step := (step urls to_value error_text set_port mihomo_url to_lowercase now).
Abbreviation run := (run urls to_value error_text set_port mihomo_url to_lowercase now).
Abbreviation session_step := (session_step error_text set_port mihomo_url to_lowercase now).

(** What is decided as a session dials. *)
Definition allowed (d : Dial) : Prop :=
  exists held, collector_accounts error_text (d_around d) = Ok held /\ (d_name d ∉ held).
Lemma dialled_stop_tasks i a n w : dialled (stop_tasks i a n w) = dialled w.
Proof. unfold stop_tasks, quit_walk. cbn. destruct (walk_task w); [|done]. by destruct (walks w !! _) as [[? []]|]. Qed.
Lemma dialled_start i a w : dialled (start error_text i a w) = dialled w.
Proof. unfold start. destruct (usable_accounts _ _ _) as [[]|e|]; [done|apply dialled_stop_tasks|done..]. Qed.
Lemma dialled_update i next written w : dialled (update_config urls to_value error_text i next written w) = dialled w.
Proof.
  unfold update_config. destruct (validate _ _); [|done..]. destruct (negb _); [done|]. unfold persist_json. destruct written; [|done].
  destruct (enabled _); [by rewrite dialled_start|]. unfold stop. by rewrite dialled_stop_tasks.
Qed.
Lemma dialled_rest t s w : dialled (rest t s w) = dialled w.
Proof. unfold rest. by destruct (_ =? _). Qed.
Lemma dialled_session e t s w w' : session_step e t s w = Some w' ->
  dialled w' = dialled w \/ exists d, dialled w' = dialled w ++ [d] /\ allowed d.
Proof.
  unfold Sessions.session_step. destruct e as [| | | | |? []| | | | | | | |], (stage s); try done; intros [= <-]; try (left; done).
  - unfold checked. destruct (collector_accounts error_text (around w)) as [held|e|] eqn:Eh; [|by left..].
    destruct (decide (s_name s ∈ held)) as [|Hn]; [by left|]. right. eexists. split; [done|]. by exists held.
  - left. unfold login_failed. destruct (Accounts.is_terminal _); [done|]. by rewrite dialled_rest.
  - left. by rewrite dialled_rest.
Qed.
Lemma dialled_step e w w' : step e w = Some w' -> dialled w' = dialled w \/ exists d, dialled w' = dialled w ++ [d] /\ allowed d.
Proof.
  assert (Hs : forall t, (s ← live w !! t; session_step e t s w) = Some w' ->
    dialled w' = dialled w \/ exists d, dialled w' = dialled w ++ [d] /\ allowed d).
  { intros t. destruct (live w !! t) as [s|]; [|done]. apply dialled_session. }
  destruct e as [i next written|i a|i|i|i|t why|t|t|t verdict detail written|t|t|t|t error|a]; cbn [Sessions.step]; try apply Hs.
  - case_decide; [|done]. intros [= <-]. left. apply dialled_update.
  - case_decide; [|done]. intros [= <-]. left. unfold apply_action, stop. destruct a; rewrite ?dialled_start, ?dialled_stop_tasks; done.
  - unfold took. destruct (ops w !! i) as [[]|]; [|done..]. intros [= <-]. by left.
  - unfold joined. destruct (ops w !! i) as [[|a [] ids|]|]; try done; intros [= <-]; by left.
  - unfold kept. destruct (ops w !! i) as [[]|]; try done. intros [= <-]. by left.
  - destruct (walks w !! t) as [[g []]|]; try done. destruct (g =? _); intros [= <-]; by left.
  - destruct (walks w !! t) as [[g []]|]; try done. intros [= <-]. left. by destruct error.
  - intros [= <-]. by left.
Qed.
Lemma dialled_allowed es : forall w w', Forall allowed (dialled w) -> run es w = Some w' -> Forall allowed (dialled w').
Proof.
  induction es as [|e es IH]; intros w w' H; cbn [Sessions.run]; [by intros [= <-]|]. destruct (step e w) as [w1|] eqn:E; [|done].
  apply IH. destruct (dialled_step _ _ _ E) as [->|(d & -> & Hd)]; [done|]. apply Forall_app. split; [done|by constructor].
Qed.
(** C16: Whatever requests, collectors and accounts come and go, and however often
    its sessions log in again: the re-fetch pool dials only after it could read,
    at that moment, whose account is that of every collector, switched on or off,
    whose reference is not into the account pool; and never with the name a
    collector would log in with then, if that collector's reference, when it is
    into the account pool, is to accounts filed under collection. Names are
    compared letter for letter, as the code does: a collector pointed at accounts
    filed under re-fetching, and one whose account is spelled in another case, are
    not kept off (Examples [misfiled_collector] and [spelled_otherwise]). *)
Theorem pool_keeps_off_the_collectors es c f a w d i : run es (boot c f a) = Some w -> d ∈ dialled w ->
  i ∈ instances (watch (d_around d)) ->
  (starts_with "pool:" (WatchConfig.account_secret_ref i) = false -> is_Some (login_name (d_around d) i)) /\
  (filed_under_watch i -> login_name (d_around d) i <> Some (d_name d)).
Proof.
  intros Hr Hd Hi. assert (H : Forall allowed (dialled w)) by (eapply dialled_allowed; [|exact Hr]; constructor).
  eapply Forall_forall in H as (held & Hh & Hn); [|exact Hd]. split.
  - intros Hs. destruct (held_by_spec _ _ _ _ _ Hh) as [_ H2]. destruct (H2 i Hi Hs) as (name & -> & _). done.
  - intros Hf Hl. apply Hn. by eapply collector_accounts_spec.
Qed.

(** ** One request at a time *)
Definition begins (e : Event) : bool := match e with Update _ _ _ | Action _ _ => true | _ => false end.
Fixpoint serial (es : list Event) (w : World) : Prop :=
  match es with
  | [] => True
  | e :: es => (begins e = true -> ops w = ∅) /\ match step e w with Some w' => serial es w' | None => True end
  end.
(** The sessions that answer requests. *)
Definition serving (m : gmap nat Session) : Z := Z.of_nat (size (filter (fun p => stage p.2 = Serving) m)).
Definition counted (g : option Stage) : Z := match g with Some Serving => 1 | _ => 0 end.
Definition one_if (s : Session) : Z := counted (Some (stage s)).
Lemma serving_insert t s m : m !! t = None -> serving (<[t := s]> m) = serving m + one_if s.
Proof.
  intros Hm. unfold serving. rewrite map_filter_insert. cbn. case_decide as Hg.
  - rewrite map_size_insert_None by (apply map_lookup_filter_None; by left). unfold one_if. rewrite Hg. cbn. lia.
  - rewrite delete_id by done. unfold one_if. destruct (stage s); try done; cbn; lia.
Qed.
Lemma serving_delete t s m : m !! t = Some s -> serving (delete t m) = serving m - one_if s.
Proof. intros Hm. rewrite <- (insert_delete_id m t s Hm) at 2. rewrite serving_insert by apply lookup_delete_eq. lia. Qed.
Lemma serving_update t s s' m : m !! t = Some s -> serving (<[t := s']> m) = serving m - one_if s + one_if s'.
Proof. intros Hm. rewrite <- insert_delete_eq. rewrite serving_insert by apply lookup_delete_eq. by rewrite (serving_delete t s). Qed.
Lemma serving_arriving m : (forall t s, m !! t = Some s -> stage s = Arriving) -> serving m = 0.
Proof.
  intros H. unfold serving. replace (filter _ m) with (∅ : gmap nat Session); [done|]. symmetry. apply map_empty. intros t.
  apply map_lookup_filter_None. right. intros s Hs Hst. cbn in Hst. by rewrite (H t s Hs) in Hst.
Qed.
(** The sessions that run are those [ids] names, each for an account of its own. *)
Definition crew (ids : list nat) (m : gmap nat Session) : Prop :=
  exists k l, NoDup (map fst l) /\
    forall t s, m !! t = Some s -> t ∈ ids /\ exists j (password : string), t = (k + j)%nat /\ l !! j = Some (s_name s, password).
Lemma pool_crew_none ids : crew ids ∅.
Proof. exists 0%nat, []. split; [constructor|]. intros t s [=]. Qed.
Lemma pool_crew_forget ids m : crew ids m -> forget ids m = ∅.
Proof. intros (k & l & _ & H). apply map_empty. intros t. apply map_lookup_filter_None. right. intros s Hs Hn. apply Hn. cbn. by apply (H t s). Qed.
Lemma crew_sub ids m m' : crew ids m -> (forall t s', m' !! t = Some s' -> exists s, m !! t = Some s /\ s_name s' = s_name s) -> crew ids m'.
Proof.
  intros (k & l & Hn & H) Hs. exists k, l. split; [done|]. intros t s' Ht. destruct (Hs t s' Ht) as (s & Hts & E).
  destruct (H t s Hts) as (Hi & j & p & Hj & Hl). split; [done|]. exists j, p. by rewrite E.
Qed.
Definition keeper (hs : list nat) (op : Op) : list nat :=
  match op with Quitting _ _ => hs | Joining _ _ ids | Spawned _ _ ids => ids end.
(** Where the handles of the sessions are. *)
Inductive manned (w : World) : Prop :=
| Manned_idle : ops w = ∅ -> walks w = ∅ -> crew (handles w) (live w) -> manned w
| Manned_walking t g : ops w = ∅ -> walk_task w = Some t -> walks w = {[t := mkWalk g None]} -> crew (handles w) (live w) -> manned w
| Manned_leaving t g ids : ops w = ∅ -> walk_task w = Some t -> walks w = {[t := mkWalk g (Some ids)]} -> crew ids (live w) -> manned w
| Manned_op i op : ops w = {[i := op]} -> walks w = ∅ -> crew (keeper (handles w) op) (live w) -> manned w.
(** The counter is exact, but while the old sessions are being ended. *)
Definition ending (op : Op) : Prop := match op with Spawned _ _ _ => False | _ => True end.
Definition tallied (w : World) : Prop :=
  (exists i op, ops w = {[i := op]} /\ ending op) \/ sessions w = as_unsigned 64 (serving (live w)).

Lemma manned_live w w' : manned w -> ops w' = ops w -> walks w' = walks w -> walk_task w' = walk_task w -> handles w' = handles w ->
  (forall t s', live w' !! t = Some s' -> exists s, live w !! t = Some s /\ s_name s' = s_name s) -> manned w'.
Proof.
  intros H E1 E2 E3 E4 Hl. destruct H as [H1 H2 H3|t g H1 H2 H3 H4|t g ids H1 H2 H3 H4|i op H1 H2 H3].
  - apply Manned_idle; rewrite ?E1, ?E2, ?E4; try done. by eapply crew_sub.
  - apply (Manned_walking w' t g); rewrite ?E1, ?E2, ?E3, ?E4; try done. by eapply crew_sub.
  - apply (Manned_leaving w' t g ids); rewrite ?E1, ?E2, ?E3; try done. by eapply crew_sub.
  - apply (Manned_op w' i op); rewrite ?E1, ?E2, ?E4; try done. by eapply crew_sub.
Qed.
Lemma manned_same w w' : manned w -> ops w' = ops w -> walks w' = walks w -> walk_task w' = walk_task w -> handles w' = handles w ->
  live w' = live w -> manned w'.
Proof. intros H E1 E2 E3 E4 E5. eapply manned_live; [exact H|try done..]. intros t s'. rewrite E5. eauto. Qed.
Lemma wrap_step a d : as_unsigned 64 (as_unsigned 64 a + d) = as_unsigned 64 (a + d).
Proof. unfold as_unsigned. by rewrite Zplus_mod_idemp_l. Qed.

(** A new run is given each account once. *)
Definition next_of (op : Op) : option Then_ := match op with Quitting _ n | Joining _ n _ => Some n | Spawned _ _ _ => None end.
Definition once (n : Then_) : Prop := match n with Spawning _ l => NoDup (map fst l) | Stopping_ => True end.
Definition wary (w : World) : Prop := forall i op n, ops w !! i = Some op -> next_of op = Some n -> once n.
Lemma pool_accounts_spec held l : forall seen, NoDup (map fst (pool_accounts held seen l)) /\
  forall x, x ∈ map fst (pool_accounts held seen l) -> x ∉ held /\ x ∉ seen.
Proof.
  induction l as [|[name password] l IH]; intros seen; cbn [pool_accounts].
  { split; [constructor|]. by intros x H%not_elem_of_nil. }
  destruct (decide _) as [|Hn]; [apply IH|]. destruct (IH ({[name]} ∪ seen)) as [H1 H2]. cbn. split.
  - constructor; [|done]. intros Hx. destruct (H2 _ Hx) as [_ H]. set_solver.
  - intros x [->|Hx]%elem_of_cons; [by split; intros ?; apply Hn; auto|]. destruct (H2 _ Hx). set_solver.
Qed.
Lemma usable_once c a l : usable_accounts error_text c a = Ok l -> NoDup (map fst l).
Proof.
  unfold usable_accounts. destruct (accounts_of _ _) as [l0|]; [|done]. destruct (collector_accounts _ _) as [held| |]; try done. cbn.
  intros [= <-]. apply pool_accounts_spec.
Qed.

Definition sound (w : World) : Prop := manned w /\ tallied w /\ wary w.
Lemma sound_stop_tasks i a n w : sound w -> ops w = ∅ -> once n -> sound (stop_tasks i a n w).
Proof.
  intros (Hm & _ & _) Ho Hn. unfold stop_tasks.
  assert (E : ops (quit_walk (w <| ops ::= <[i := Quitting a n]> |>)) = {[i := Quitting a n]}).
  { unfold quit_walk. cbn. destruct (walk_task w); cbn; [|by rewrite Ho]. destruct (walks w !! _) as [[? []]|]; cbn; by rewrite Ho. }
  split; [|split].
  - apply (Manned_op _ i (Quitting a n)); [exact E|..]; unfold quit_walk; cbn; destruct Hm as [H1 H2 H3|t g H1 H2 H3 H4|t g ids H1 H2 H3 H4|j op H1 H2 H3].
    + destruct (walk_task w); [|exact H2]. rewrite H2, lookup_empty. cbn. by rewrite H2, delete_empty.
    + rewrite H2, H3, lookup_singleton_eq. cbn. by rewrite H3, delete_singleton_eq.
    + rewrite H2, H3, lookup_singleton_eq. cbn. by rewrite H3, delete_singleton_eq.
    + rewrite Ho in H1. symmetry in H1. by apply map_non_empty_singleton in H1.
    + destruct (walk_task w); [|exact H3]. by rewrite H2, lookup_empty.
    + by rewrite H2, H3, lookup_singleton_eq.
    + rewrite H2, H3, lookup_singleton_eq. cbn. rewrite (pool_crew_forget _ _ H4). apply pool_crew_none.
    + rewrite Ho in H1. symmetry in H1. by apply map_non_empty_singleton in H1.
  - left. exists i, (Quitting a n). by split.
  - intros j op n' Hj Hop. rewrite E in Hj. apply lookup_singleton_Some in Hj as [<- <-]. injection Hop as <-. done.
Qed.
Lemma sound_same w w' : sound w -> ops w' = ops w -> walks w' = walks w -> walk_task w' = walk_task w -> handles w' = handles w ->
  live w' = live w -> sessions w' = sessions w -> sound w'.
Proof.
  intros (Hm & Ht & Hw) E1 E2 E3 E4 E5 E6. split; [by eapply manned_same|split].
  - unfold tallied. by rewrite E1, E5, E6.
  - unfold wary. by rewrite E1.
Qed.
Lemma sound_answer i r w : sound w -> ops w = ∅ -> sound (answer i r w).
Proof. intros H Ho. eapply sound_same; [exact H|try done..]. cbn. by rewrite Ho, delete_empty. Qed.
Lemma sound_start i a w : sound w -> ops w = ∅ -> sound (start error_text i a w).
Proof.
  intros H Ho. unfold start. destruct (usable_accounts _ _ _) as [[|x l]|e|] eqn:E; [| | |done].
  - apply sound_answer; [|done]. by eapply sound_same.
  - apply sound_stop_tasks; [done..|]. by eapply usable_once.
  - apply sound_answer; [|done]. by eapply sound_same.
Qed.
Lemma sound_stop i a w : sound w -> ops w = ∅ -> sound (stop i a w).
Proof. intros H Ho. apply sound_stop_tasks; [|done..]. by eapply sound_same. Qed.
Lemma sound_update i next written w : sound w -> ops w = ∅ -> sound (update_config urls to_value error_text i next written w).
Proof.
  intros H Ho. unfold update_config. destruct (validate _ _); [|by apply sound_answer|done]. destruct (negb _); [by apply sound_answer|].
  unfold persist_json. destruct written.
  - destruct (enabled _); [apply sound_start|apply sound_stop]; try done; by eapply sound_same.
  - apply sound_answer; [|done]. by eapply sound_same.
Qed.
Lemma sound_took i w w' : sound w -> took i w = Some w' -> sound w'.
Proof.
  intros (Hm & Ht & Hw). unfold took. destruct (ops w !! i) as [[a n| |]|] eqn:Ei; try done. intros [= <-].
  destruct Hm as [H1|t g H1|t g ids H1|j op H1 H2 H3]; try (by rewrite H1 in Ei).
  assert (E : ops w = {[i := Quitting a n]}). { rewrite H1 in *. apply lookup_singleton_Some in Ei as [-> ->]. done. }
  rewrite H1 in E, Ei. apply lookup_singleton_Some in Ei as [-> ->]. split; [|split].
  - apply (Manned_op _ i (Joining a n (handles w))); [cbn; by rewrite H1, insert_singleton_eq|exact H2|exact H3].
  - left. exists i, (Joining a n (handles w)). split; [|done]. cbn. by rewrite H1, insert_singleton_eq.
  - intros j op n' Hj Hop. cbn in Hj. rewrite H1, insert_singleton_eq in Hj. apply lookup_singleton_Some in Hj as [<- <-].
    apply (Hw i (Quitting a n)); [by rewrite H1, lookup_singleton_eq|done].
Qed.

(** The one request that is being answered. *)
Lemma one_op w i op : manned w -> ops w !! i = Some op ->
  ops w = {[i := op]} /\ walks w = ∅ /\ crew (keeper (handles w) op) (live w).
Proof.
  intros Hm Ei. destruct Hm as [H1|t g H1|t g ids H1|j op' H1 H2 H3]; [by rewrite H1 in Ei..|].
  rewrite H1 in Ei. by apply lookup_singleton_Some in Ei as [-> ->].
Qed.
Lemma sound_idle w : ops w = ∅ -> walks w = ∅ -> crew (handles w) (live w) -> sessions w = as_unsigned 64 (serving (live w)) -> sound w.
Proof. intros H1 H2 H3 H4. split; [by apply Manned_idle|split; [by right|]]. intros i op n Hi. by rewrite H1 in Hi. Qed.
Lemma list_to_map_zip_Some (ids : list nat) (tasks : list Session) t s : (list_to_map (zip ids tasks) : gmap nat Session) !! t = Some s ->
  exists j, ids !! j = Some t /\ tasks !! j = Some s.
Proof. intros H%elem_of_list_to_map_2. apply list_elem_of_lookup in H as [j Hj]. exists j. by apply lookup_zip_Some in Hj. Qed.
Definition sessions_of (g : Z) (c : RefetchServiceConfig) (lane : option string) (l : list (string * string)) : list Session :=
  map (fun '(name, password) => mkSession g name password c lane Arriving) (take (Z.to_nat (Z.min (concurrency c) (zlen l))) l).
Lemma sessions_of_crew k g c lane l (tasks := sessions_of g c lane l) (ids := seq k (length tasks)) t s :
  (list_to_map (zip ids tasks) : gmap nat Session) !! t = Some s ->
  stage s = Arriving /\ t ∈ ids /\ exists j (password : string), t = (k + j)%nat /\ l !! j = Some (s_name s, password).
Proof.
  intros (j & Hj & Hs)%list_to_map_zip_Some. unfold tasks, sessions_of in Hs. rewrite list_lookup_fmap in Hs.
  destruct (take _ l !! j) as [[name password]|] eqn:Ej; [|done]. injection Hs as <-. apply lookup_take_Some in Ej as [Ej _].
  split; [done|]. split; [by eapply list_elem_of_lookup_2|]. apply lookup_seq in Hj as [-> _]. eauto.
Qed.
Lemma sessions_of_crew_lane k g c lane l (tasks := sessions_of g c lane l) t s :
  (list_to_map (zip (seq k (length tasks)) tasks) : gmap nat Session) !! t = Some s -> s_config s = c /\ s_lane s = lane.
Proof.
  intros (j & _ & Hs)%list_to_map_zip_Some. unfold tasks, sessions_of in Hs. rewrite list_lookup_fmap in Hs.
  destruct (take _ l !! j) as [[name password]|]; [|done]. by injection Hs as <-.
Qed.
Lemma pool_sound_spawn i a c l w op : ops w = {[i := op]} -> walks w = ∅ -> live w = ∅ -> once (Spawning c l) ->
  sound (spawn set_port mihomo_url i a c l w).
Proof.
  intros E Hwk Hl Hn. set (lane := proxy_url set_port mihomo_url c (around w)).
  set (tasks := sessions_of (generation w + 1) c lane l). set (ids := seq (spawned w) (length tasks)).
  assert (Eo : ops (spawn set_port mihomo_url i a c l w) = {[i := Spawned a c ids]}).
  { transitivity (<[i := Spawned a c ids]> (ops w)); [reflexivity|]. by rewrite E, insert_singleton_eq. }
  assert (El : live (spawn set_port mihomo_url i a c l w) = list_to_map (zip ids tasks)).
  { transitivity (list_to_map (zip ids tasks) ∪ live w); [reflexivity|]. by rewrite Hl, map_union_empty. }
  split; [|split].
  - eapply Manned_op; [exact Eo|exact Hwk|]. rewrite El. exists (spawned w), l. split; [exact Hn|].
    intros t s Hs. by eapply sessions_of_crew.
  - right. rewrite El, serving_arriving; [reflexivity|]. intros t s Hs. by eapply sessions_of_crew.
  - intros j op' n Hj Hop. rewrite Eo in Hj. apply lookup_singleton_Some in Hj as [<- <-]. done.
Qed.
Lemma sound_joined i w w' : sound w -> joined set_port mihomo_url i w = Some w' -> sound w'.
Proof.
  intros (Hm & Ht & Hw). unfold joined. destruct (ops w !! i) as [[|a n ids|]|] eqn:Ei; try done. intros [= <-].
  destruct (one_op _ _ _ Hm Ei) as (E & H2 & H3). destruct n as [c l|].
  - apply (pool_sound_spawn _ _ _ _ _ (Joining a (Spawning c l) ids)); [exact E|exact H2|by apply pool_crew_forget|].
    by apply (Hw i _ (Spawning c l) Ei).
  - apply sound_idle; cbn; rewrite ?E, ?delete_singleton_eq; [done..| |]; rewrite (pool_crew_forget ids _ H3); [apply pool_crew_none|done].
Qed.
Lemma sound_kept i w w' : sound w -> kept i w = Some w' -> sound w'.
Proof.
  intros (Hm & Ht & Hw). unfold kept. destruct (ops w !! i) as [[| |a c ids]|] eqn:Ei; try done. intros [= <-].
  destruct (one_op _ _ _ Hm Ei) as (E & H2 & H3). split; [|split].
  - apply (Manned_walking _ (spawned w) (generation w)); cbn; rewrite ?E, ?H2, ?delete_singleton_eq; done.
  - right. cbn. destruct Ht as [(j & op & Hj & Hend)|Ht]; [|done]. rewrite Hj in Ei. by apply lookup_singleton_Some in Ei as [_ ->].
  - intros j op n Hj. cbn in Hj. by rewrite E, delete_singleton_eq in Hj.
Qed.

(** A session's own step: it moves to another stage or leaves. *)
Lemma sound_session w w' t s g : sound w -> live w !! t = Some s ->
  ops w' = ops w -> walks w' = walks w -> walk_task w' = walk_task w -> handles w' = handles w ->
  live w' = match g with Some g => <[t := s <| stage := g |>]> (live w) | None => delete t (live w) end ->
  (sessions w' = sessions w /\ counted g = counted (Some (stage s))) \/
  sessions w' = as_unsigned 64 (sessions w + (counted g - counted (Some (stage s)))) -> sound w'.
Proof.
  intros (Hm & Ht & Hw) Hs E1 E2 E3 E4 El Hn. split; [|split].
  - eapply manned_live; [exact Hm|done..|]. intros t' s'. rewrite El. destruct g as [g|].
    + intros [[<- <-]|[_ H]]%lookup_insert_Some; [by exists s|by exists s'].
    + intros [_ H]%lookup_delete_Some. by exists s'.
  - destruct Ht as [(i & op & Ho & He)|Ht]; [left; exists i, op; by rewrite E1|]. right.
    assert (E : serving (live w') = serving (live w) + (counted g - counted (Some (stage s)))).
    { rewrite El. destruct g as [g|]; [rewrite (serving_update t s) by done|rewrite (serving_delete t s) by done]; unfold one_if; cbn; lia. }
    rewrite E. destruct Hn as [[-> Hg]|Hn]; [rewrite Ht; f_equal; lia|]. by rewrite Hn, Ht, wrap_step.
  - unfold wary. by rewrite E1.
Qed.
Lemma sound_rest t s w w0 : sound w0 -> live w0 !! t = Some s -> stage s = Dialling \/ stage s = Serving ->
  ops w = ops w0 -> walks w = walks w0 -> walk_task w = walk_task w0 -> handles w = handles w0 -> live w = live w0 ->
  sessions w = match stage s with Serving => as_unsigned 64 (sessions w0 - 1) | _ => sessions w0 end -> sound (rest t s w).
Proof.
  intros H Hs Hst E1 E2 E3 E4 E5 E6. unfold rest.
  assert (Hc : forall g, counted g = 0 -> (sessions w = sessions w0 /\ counted g = counted (Some (stage s))) \/
    sessions w = as_unsigned 64 (sessions w0 + (counted g - counted (Some (stage s))))).
  { intros g ->. destruct Hst as [Est|Est]; rewrite Est in *; [by left|by right]. }
  destruct (_ =? _); [apply (sound_session w0 _ t s (Some Resting))|apply (sound_session w0 _ t s None)];
    try done; try (by apply Hc); cbn; by rewrite E5.
Qed.
Lemma sound_session_step e t s w w' : sound w -> live w !! t = Some s -> session_step e t s w = Some w' -> sound w'.
Proof.
  intros H Hs. unfold Sessions.session_step.
  destruct e as [| | | | |? [why|]|?|?|? verdict detail written|?|?|? |? |?], (stage s) eqn:Est; try done; intros [= <-].
  - apply (sound_session w _ t s None); try done. left. by rewrite Est.
  - apply (sound_session w _ t s (Some Ready)); try done. left. by rewrite Est.
  - unfold checked. destruct (collector_accounts _ _) as [held|e|]; [case_decide| |].
    2: apply (sound_session w _ t s (Some Dialling)); try done; left; by rewrite Est.
    all: apply (sound_session w _ t s None); try done; left; by rewrite Est.
  - apply (sound_session w _ t s (Some Serving)); try done. right. by rewrite Est.
  - unfold login_failed. destruct (Accounts.is_terminal _).
    + apply (sound_session w _ t s None); try done. left. by rewrite Est.
    + apply (sound_rest t s _ w); auto. by rewrite Est.
  - apply (sound_rest t s _ w); auto. by rewrite Est.
  - apply (sound_session w _ t s (Some Ready)); try done. left. by rewrite Est.
Qed.

Lemma sound_walk_over t w w' : sound w -> step (WalkOver t) w = Some w' -> sound w'.
Proof.
  intros (Hm & Ht & Hw). cbn [Sessions.step]. destruct (walks w !! t) as [[g [ids|]]|] eqn:Et; try done.
  destruct Hm as [_ H2 _|t' g' H1 H2 H3 H4|t' g' ids H1 H2 H3 _|i op _ H2 _]; try (by rewrite H2 in Et).
  2: { rewrite H3 in Et. by apply lookup_singleton_Some in Et as [_ [=]]. }
  rewrite H3 in Et. apply lookup_singleton_Some in Et as [-> [= ->]]. destruct Ht as [(i & op & Ho & _)|Ht].
  { rewrite H1 in Ho. symmetry in Ho. by apply map_non_empty_singleton in Ho. }
  destruct (_ =? _); intros [= <-].
  - split; [|split].
    + apply (Manned_leaving _ t g (handles w)); cbn; rewrite ?H3, ?insert_singleton_eq; done.
    + by right.
    + intros i op n Hi. cbn in Hi. by rewrite H1 in Hi.
  - apply sound_idle; cbn; rewrite ?H3, ?delete_singleton_eq; done.
Qed.
Lemma sound_walk_gone t error w w' : sound w -> step (WalkGone t error) w = Some w' -> sound w'.
Proof.
  intros (Hm & Ht & Hw). cbn [Sessions.step]. destruct (walks w !! t) as [[g [ids|]]|] eqn:Et; try done.
  destruct Hm as [_ H2 _|t' g' H1 H2 H3 H4|t' g' ids' H1 H2 H3 H4|i op _ H2 _]; try (by rewrite H2 in Et).
  { rewrite H3 in Et. by apply lookup_singleton_Some in Et as [_ [=]]. }
  rewrite H3 in Et. apply lookup_singleton_Some in Et as [-> [= -> ->]]. intros [= <-].
  destruct error; apply sound_idle; cbn; rewrite ?H3, ?delete_singleton_eq, ?(pool_crew_forget _ _ H4); try done; apply pool_crew_none.
Qed.
Lemma pool_sound_step e w w' : sound w -> (begins e = true -> ops w = ∅) -> step e w = Some w' -> sound w'.
Proof.
  intros H Hb.
  assert (Hs : forall t, (s ← live w !! t; session_step e t s w) = Some w' -> sound w').
  { intros t. destruct (live w !! t) as [s|] eqn:E; [|done]. cbn. by apply (sound_session_step e t s w w'). }
  destruct e as [i next written|i a|i|i|i|t why|t|t|t verdict detail written|t|t|t|t error|a];
    try (by apply sound_walk_over); try (by apply sound_walk_gone); cbn [Sessions.step]; try apply Hs.
  - case_decide; [|done]. intros [= <-]. apply sound_update; auto.
  - case_decide; [|done]. intros [= <-]. unfold apply_action. destruct a; [apply sound_start|apply sound_stop|apply sound_start]; auto.
  - by apply sound_took.
  - by apply sound_joined.
  - by apply sound_kept.
  - intros [= <-]. by eapply sound_same.
Qed.
Lemma pool_sound_run es : forall w w', sound w -> serial es w -> run es w = Some w' -> sound w'.
Proof.
  induction es as [|e es IH]; intros w w' H; cbn [Sessions.run serial]; [by intros _ [= <-]|]. intros [Hb Hes] Hr.
  destruct (step e w) as [w1|] eqn:E; [|done]. apply (IH w1); [|done..]. by eapply pool_sound_step.
Qed.
Lemma sound_boot c f a : sound (boot c f a).
Proof. apply sound_idle; [done|done|apply pool_crew_none|reflexivity]. Qed.
(** While the console's requests are answered one at a time, no account is
    ever given to two sessions, whatever the sessions, the walk and the rest of
    the process do in between; and the number of sessions the console shows is
    the number of those that are logged in. *)
Theorem sessions_of_a_run_differ es c f a w : serial es (boot c f a) -> run es (boot c f a) = Some w ->
  (forall t t' s s', live w !! t = Some s -> live w !! t' = Some s' -> s_name s = s_name s' -> t = t') /\
  (ops w = ∅ -> serving (live w) < 2 ^ 64 -> sessions w = serving (live w)).
Proof.
  intros Hs Hr. destruct (pool_sound_run _ _ _ (sound_boot c f a) Hs Hr) as (Hm & Ht & _). split.
  - intros t t' s s' H H' E. assert (Hc : exists ids, crew ids (live w)) by (destruct Hm; eauto). destruct Hc as (ids & k & l & Hn & Hl).
    destruct (Hl t s H) as (_ & j & p & -> & Hj), (Hl t' s' H') as (_ & j' & p' & -> & Hj'). f_equal. rewrite E in Hj.
    apply (NoDup_lookup _ _ _ (s_name s') Hn); by rewrite list_lookup_fmap, ?Hj, ?Hj'.
  - intros Ho Hlt. destruct Ht as [(i & op & Hi & _)|Ht].
    + rewrite Ho in Hi. symmetry in Hi. by apply map_non_empty_singleton in Hi.
    + rewrite Ht. unfold as_unsigned. apply Z.mod_small. split; [apply Zle_0_nat|done].
Qed.

(** ** No session goes out from the host's own address *)
Definition has_proxy (c : RefetchServiceConfig) : Prop := proxy_mode c = Custom -> is_Some (custom_proxy_url c).
Definition led (c : RefetchServiceConfig) (lane : option string) : Prop := proxy_mode c <> Direct -> is_Some lane.
Lemma validate_has_proxy c : validate urls c = Ok tt -> has_proxy c.
Proof.
  unfold validate, has_proxy. intros H Hc. rewrite Hc in H. destruct (negb _); [done|]. destruct (_ <? _); [done|]. destruct (_ <? _); [done|].
  destruct (validate_secret_ref _); [|done..]. cbn in H. by destruct (custom_proxy_url c).
Qed.
Lemma restored_some submitted stored : is_Some submitted -> is_Some (restored_proxy urls submitted stored).
Proof.
  intros [s ->]. unfold restored_proxy. case_bool_decide as E; [|done]. by destruct stored.
Qed.
Lemma proxy_url_led c a : has_proxy c -> led c (proxy_url set_port mihomo_url c a).
Proof. unfold has_proxy, led, proxy_url. destruct (proxy_mode c); auto. done. Qed.
Lemma account_proxy_led c name lane a : led c lane -> led c (account_proxy set_port mihomo_url c name lane a).
Proof.
  unfold led, account_proxy. intros H Hd. specialize (H Hd). destruct (proxy_mode c); [done| |done].
  unfold exit_or_lane. by destruct (_ ≫= _).
Qed.
Definition routes (op : Op) : Prop := match next_of op with Some (Spawning c _) => has_proxy c | _ => True end.
Record routed (w : World) : Prop := mkRouted {
  r_config : has_proxy (config w);
  r_ops : map_Forall (fun _ op => routes op) (ops w);
  r_live : map_Forall (fun _ s => led (s_config s) (s_lane s)) (live w);
  r_dialled : Forall (fun d => led (d_config d) (d_proxy d)) (dialled w)
}.
Lemma Forall_forget (P : nat -> Session -> Prop) ids m : map_Forall P m -> map_Forall P (forget ids m).
Proof. intros H t s [Hs _]%map_lookup_filter_Some. by apply H. Qed.
Lemma routed_more w w' : routed w -> config w' = config w ->
  map_Forall (fun _ op => routes op) (ops w') -> map_Forall (fun _ s => led (s_config s) (s_lane s)) (live w') -> dialled w' = dialled w -> routed w'.
Proof. intros [H1 H2 H3 H4] E Ho Hl Ed. by constructor; rewrite ?E, ?Ed. Qed.
Lemma routed_answer i r w : routed w -> routed (answer i r w).
Proof. intros H. eapply routed_more; [exact H|done|apply map_Forall_delete, H|apply H|done]. Qed.
Lemma routed_same w w' : routed w -> config w' = config w -> ops w' = ops w -> live w' = live w -> dialled w' = dialled w -> routed w'.
Proof. intros H E1 E2 E3 E4. eapply routed_more; [exact H|done| | |done]; [rewrite E2|rewrite E3]; apply H. Qed.
Lemma routed_stop_tasks i a n w : routed w -> routes (Quitting a n) -> routed (stop_tasks i a n w).
Proof.
  intros H Hn. assert (Ho : map_Forall (fun _ op => routes op) (<[i := Quitting a n]> (ops w))) by (apply map_Forall_insert_2; [done|apply H]).
  unfold stop_tasks, quit_walk. change (walk_task (w <| ops ::= _ |>)) with (walk_task w). change (walks (w <| ops ::= _ |>)) with (walks w).
  destruct (walk_task w) as [t|]; [destruct (walks w !! t) as [[g [ids|]]|]|];
    (eapply routed_more; [exact H|done|exact Ho| |done]); try apply H. by apply Forall_forget, H.
Qed.
Lemma routed_start i a w : routed w -> routed (start error_text i a w).
Proof.
  intros H. unfold start. destruct (usable_accounts _ _ _) as [[|x l]|e|]; [| | |done].
  - apply routed_answer. by eapply routed_same.
  - apply routed_stop_tasks; [done|apply H].
  - apply routed_answer. by eapply routed_same.
Qed.
Lemma routed_stop i a w : routed w -> routed (stop i a w).
Proof. intros H. apply routed_stop_tasks; [|done]. by eapply routed_same. Qed.
Lemma routed_update i next written w : routed w -> routed (update_config urls to_value error_text i next written w).
Proof.
  intros H. unfold update_config. destruct (validate _ _) as [[]| |] eqn:Ev; [|by apply routed_answer|done]. destruct (negb _); [by apply routed_answer|].
  unfold persist_json. destruct written.
  - set (w1 := w <| file := _ |> <| config := _ |>). assert (routed w1).
    { constructor; [|apply H..]. intros Hc. apply restored_some. by apply validate_has_proxy in Ev; apply Ev. }
    destruct (enabled _); [by apply routed_start|by apply routed_stop].
  - apply routed_answer. by eapply routed_same.
Qed.
Lemma routed_took i w w' : routed w -> took i w = Some w' -> routed w'.
Proof.
  intros H. unfold took. destruct (ops w !! i) as [[a n| |]|] eqn:Ei; try done. intros [= <-].
  eapply routed_more; [exact H|done| |apply H|done]. apply map_Forall_insert_2; [|apply H]. exact (r_ops _ H _ _ Ei).
Qed.
Lemma routed_joined i w w' : routed w -> joined set_port mihomo_url i w = Some w' -> routed w'.
Proof.
  intros H. unfold joined. destruct (ops w !! i) as [[|a n ids|]|] eqn:Ei; try done. intros [= <-].
  pose proof (r_ops _ H _ _ Ei) as Hn. pose proof (Forall_forget _ ids _ (r_live _ H)) as Hl. destruct n as [c l|].
  - eapply routed_more; [exact H|done|apply map_Forall_insert_2; [done|apply H]| |done]. apply map_Forall_union_2; [|exact Hl].
    intros t s Hs. apply sessions_of_crew_lane in Hs as [-> ->]. by apply proxy_url_led.
  - apply routed_answer. eapply routed_more; [exact H|done|apply H|exact Hl|done].
Qed.
Lemma routed_session e t s w w' : routed w -> live w !! t = Some s -> session_step e t s w = Some w' -> routed w'.
Proof.
  intros H Hs. pose proof (r_live _ H _ _ Hs) as Hled. cbn in Hled.
  assert (Hd : map_Forall (fun _ s => led (s_config s) (s_lane s)) (delete t (live w))) by (apply map_Forall_delete, H).
  assert (Hg : forall g, map_Forall (fun _ s => led (s_config s) (s_lane s)) (<[t := s <| stage := g |>]> (live w))).
  { intros g. apply map_Forall_insert_2; [done|apply H]. }
  assert (Hr : forall w1, config w1 = config w -> ops w1 = ops w -> live w1 = live w -> dialled w1 = dialled w -> routed (rest t s w1)).
  { intros w1 E1 E2 E3 E4. unfold rest. destruct (_ =? _); (eapply routed_more; [exact H|done| | |done]); cbn; rewrite ?E2, ?E3; try apply H; done. }
  unfold Sessions.session_step.
  destruct e as [| | | | |? [why|]|?|?|? verdict detail written|?|?|? |? |?], (stage s); try done; intros [= <-];
    try (by apply Hr); try (by eapply routed_more; [exact H|done|apply H|first [apply Hd|apply Hg]|done]).
  - unfold checked. destruct (collector_accounts _ _) as [held|e|]; [case_decide| |];
      try (by eapply routed_more; [exact H|done|apply H|apply Hd|done]).
    constructor; [apply H|apply H|apply Hg|]. apply Forall_app. split; [apply H|]. constructor; [|done]. by apply account_proxy_led.
  - unfold login_failed. destruct (Accounts.is_terminal _); [|by apply Hr]. by eapply routed_more; [exact H|done|apply H|apply Hd|done].
Qed.
Lemma routed_step e w w' : routed w -> step e w = Some w' -> routed w'.
Proof.
  intros H.
  assert (Hs : forall t, (s ← live w !! t; session_step e t s w) = Some w' -> routed w').
  { intros t. destruct (live w !! t) as [s|] eqn:E; [|done]. cbn. by apply (routed_session e t s w w'). }
  destruct e as [i next written|i a|i|i|i|t why|t|t|t verdict detail written|t|t|t|t error|a]; cbn [Sessions.step]; try apply Hs.
  - case_decide; [|done]. intros [= <-]. by apply routed_update.
  - case_decide; [|done]. intros [= <-]. unfold apply_action. by destruct a; [apply routed_start|apply routed_stop|apply routed_start].
  - by apply routed_took.
  - by apply routed_joined.
  - unfold kept. destruct (ops w !! i) as [[]|]; try done. intros [= <-]. apply routed_answer. by eapply routed_same.
  - destruct (walks w !! t) as [[g []]|]; try done. destruct (g =? _); intros [= <-]; by eapply routed_same.
  - destruct (walks w !! t) as [[g [ids|]]|]; try done. intros [= <-].
    destruct error; (eapply routed_more; [exact H|done|apply H|apply Forall_forget, H|done]).
  - intros [= <-]. by eapply routed_same.
Qed.
Lemma routed_run es : forall w w', routed w -> run es w = Some w' -> routed w'.
Proof.
  induction es as [|e es IH]; intros w w' H; cbn [Sessions.run]; [by intros [= <-]|]. intros Hr.
  destruct (step e w) as [w1|] eqn:E; [|done]. apply (IH w1); [|done]. by eapply routed_step.
Qed.
(** Unless its configuration says that the pool dials directly, no session
    ever does, whichever node its account is bound to and whether or not that
    node has a listener. *)
Theorem no_session_dials_directly es c f a w d : validate urls c = Ok tt -> run es (boot c f a) = Some w -> d ∈ dialled w ->
  proxy_mode (d_config d) <> Direct -> is_Some (d_proxy d).
Proof.
  intros Hv Hr Hd. assert (H : routed w).
  { eapply routed_run; [|exact Hr]. constructor; [by apply validate_has_proxy|done|done|constructor]. }
  eapply Forall_forall in Hd; [|exact (r_dialled _ H)]. done.
Qed.
End Facts.

(** ** Witnesses *)
Definition toy_row (i name : string) (p : Accounts.AccountPurpose) : Accounts.StoredAccount :=
  Accounts.mkAccount i name "pw" p "" true "" None.
Definition toy_document : Accounts.AccountDocument := Accounts.mkDocument 3
  [toy_row "1" "w" Accounts.Watch; toy_row "2" "a" Accounts.Refetch; toy_row "3" "b" Accounts.Refetch; toy_row "4" "e" Accounts.Refetch] None.
(** Two collectors: one logs in from the account pool, one with the account of a
    variable, which is filed under the re-fetch pool as well. *)
Definition toy_collector (i secret_ref : string) : WatchInstance :=
  WatchConfig.default_instance <| WatchConfig.id := i |> <| WatchConfig.account_secret_ref := secret_ref |>.
Definition toy_around (watched : string) : Around := mkAround (Accounts.mkPool toy_document (Some toy_document) ∅)
  (WatchConfig.default_config <| instances := [toy_collector "x" watched; toy_collector "y" "env:E"] |>)
  (Mihomo.mkManager ∅ false false [] [] (Mihomo.mkTraffic ∅ ∅) None None None ∅)
  (fun _ => None) (fun name => if String.eqb name "E" then Some "e,pw" else None).
Definition toy_refetch : RefetchServiceConfig := Sessions.default_config <| proxy_mode := WatchConfig.Mihomo |>.
Definition toy_run : list Event -> World -> option World :=
  run toy_urls (fun _ => JNull) Datatypes.id (fun _ _ => None) "http://mihomo:7890" Datatypes.id 0.
Definition toy_start : World := boot toy_refetch (Document JNull) (toy_around "pool:watch/w").
(** A request answered in full. *)
Definition begun (i : nat) : list Event := [Took i; Joined i; Kept i].
Definition online (t : nat) : list Event := [Modules t None; Checked t; LoggedIn t].
Definition toy_events : list Event := Action 1 Start :: begun 1 ++ online 0 ++ online 1.
Lemma pool_keeps_off_the_collectors_witness : exists w d, toy_run toy_events toy_start = Some w /\ d ∈ dialled w /\
  d_name d = "a" /\ login_name (d_around d) (toy_collector "y" "env:E") <> Some (d_name d).
Proof.
  destruct (toy_run toy_events toy_start) as [w|] eqn:E; [|exfalso; revert E; vm_compute; discriminate].
  destruct (dialled w) as [|d l] eqn:Ed; [exfalso; revert Ed; revert E; vm_compute; intros [= <-]; discriminate|].
  exists w, d. split; [reflexivity|]. assert (Hd : d ∈ dialled w) by (rewrite Ed; left). split; [exact Hd|].
  assert (Hi : toy_collector "y" "env:E" ∈ instances (watch (d_around d))).
  { revert Ed. revert E. vm_compute. intros [= <-] [= <- _]. right. left. }
  split; [revert Ed; revert E; vm_compute; intros [= <-] [= <- _]; reflexivity|].
  refine (proj2 (pool_keeps_off_the_collectors toy_urls (fun _ => JNull) Datatypes.id (fun _ _ => None) "http://mihomo:7890" Datatypes.id 0
    toy_events toy_refetch (Document JNull) (toy_around "pool:watch/w") w d _ E Hd Hi) _).
  intros target r. vm_compute. discriminate.
Defined.
Lemma no_session_dials_directly_witness : exists w, toy_run toy_events toy_start = Some w /\ length (dialled w) = 2%nat /\
  Forall (fun d => is_Some (d_proxy d)) (dialled w).
Proof.
  destruct (toy_run toy_events toy_start) as [w|] eqn:E; [|exfalso; revert E; vm_compute; discriminate].
  exists w. split; [reflexivity|]. split; [revert E; vm_compute; intros [= <-]; reflexivity|].
  apply Forall_forall. intros d Hd.
  refine (no_session_dials_directly toy_urls (fun _ => JNull) Datatypes.id (fun _ _ => None) "http://mihomo:7890" Datatypes.id 0
    toy_events toy_refetch (Document JNull) (toy_around "pool:watch/w") w d eq_refl E Hd _).
  revert Hd. revert E. vm_compute. intros [= <-] Hd.
  apply elem_of_cons in Hd as [-> |Hd]; [discriminate|]. apply list_elem_of_singleton in Hd as ->. discriminate.
Defined.
Lemma sessions_of_a_run_differ_witness : exists w, toy_run toy_events toy_start = Some w /\ size (live w) = 2%nat /\
  sessions w = serving (live w) /\ serving (live w) = 2.
Proof.
  destruct (toy_run toy_events toy_start) as [w|] eqn:E; [|exfalso; revert E; vm_compute; discriminate].
  exists w. split; [reflexivity|]. split; [revert E; vm_compute; intros [= <-]; reflexivity|].
  assert (Hn : serving (live w) = 2) by (revert E; vm_compute; intros [= <-]; reflexivity). split; [|exact Hn].
  refine (proj2 (sessions_of_a_run_differ toy_urls (fun _ => JNull) Datatypes.id (fun _ _ => None) "http://mihomo:7890" Datatypes.id 0
    toy_events toy_refetch (Document JNull) (toy_around "pool:watch/w") w _ E) _ _).
  - vm_compute. repeat split; try discriminate; reflexivity.
  - revert E. vm_compute. intros [= <-]. reflexivity.
  - rewrite Hn. reflexivity.
Defined.
(** Who runs, and at what. *)
Definition shown (w : World) : list (nat * Z * string) * Z * list nat :=
  (map (fun p => (p.1, s_generation p.2, s_name p.2)) (map_to_list (live w)), sessions w, handles w).
(** A collector that is pointed at the accounts of the re-fetch pool is passed
    over, and both log in with one account. *)
Example misfiled_collector :
  (fun w => (map d_name (dialled w), map (fun d => login_name (d_around d) (toy_collector "x" "pool:refetch")) (dialled w)))
    <$> toy_run (Action 1 Start :: begun 1 ++ online 0) (boot toy_refetch (Document JNull) (toy_around "pool:refetch"))
  = Some (["a"], [Some "a"]).
Proof. vm_compute. reflexivity. Qed.
(** Two starts at once: each takes the handles before the other has kept its own,
    and the sessions of both generations run, on the same accounts. *)
Example overlapping_starts :
  shown <$> toy_run ([Action 1 Start; Action 2 Start; Took 1; Took 2; Joined 1; Joined 2; Kept 1; Kept 2]) toy_start
    = Some ([(2%nat, 2, "a"); (3%nat, 2, "b"); (1%nat, 1, "b"); (0%nat, 1, "a")], 0, [2; 3]%nat).
Proof. vm_compute. reflexivity. Qed.
(** A session of the older generation that ends after the counter was reset
    takes the count below nothing. *)
Example count_wraps :
  sessions <$> toy_run ([Action 1 Start; Action 2 Start; Took 1; Took 2; Joined 1] ++ online 0 ++ [Joined 2; Closed 0]) toy_start
    = Some (2 ^ 64 - 1).
Proof. vm_compute. reflexivity. Qed.
(** A start that finds no account is reported as a failure while the run before
    it goes on. *)
Example refused_start :
  (fun w => (shown w, phase (runtime w), last_error (runtime w))) <$>
    toy_run (toy_events ++ [Moved (toy_around "file:gone"); Action 2 Reload]) toy_start
  = Some (([(1%nat, 1, "b"); (0%nat, 1, "a")], 2, [0; 1]%nat), Failed,
      Some ("读不到账号池：" +:+ to_string (InvalidConfig ("读不到采集实例 x 的账号（file:gone），无法确认补抓池会不会和它抢；把它的账号引用改成控制台账号池里的 pool:watch/账号，或者删掉这个实例")))).
Proof. vm_compute. reflexivity. Qed.
(** Names are compared letter for letter: an account written in another case than
    the collector's is dialled. *)
Example spelled_otherwise :
  (fun w => (map d_name (dialled w), map (fun d => login_name (d_around d) (toy_collector "x" "pool:watch/w")) (dialled w)))
    <$> toy_run (Action 1 Start :: begun 1 ++ online 0) (boot (toy_refetch <| account_secret_ref := "env:R" |>) (Document JNull)
          ((toy_around "pool:watch/w") <| env_var := fun name => if String.eqb name "R" then Some "W,pw" else Some "e,pw" |>))
  = Some (["W"], [Some "w"]).
Proof. vm_compute. reflexivity. Qed.
