(* ===== verification/Gateway.v ===== *)
(** The discovery of the gateway and of the client's package version
    ([src/src/majsoul/gateway.rs]), with the copies it keeps of what it fetched. *)
From S2P Require Import Prelude Text Json.
#[local] Open Scope string_scope.
#[local] Open Scope list_scope.
#[local] Open Scope Z_scope.

Module Gateway.
Definition server_base_url (server : string) : string :=
  if String.eqb server "cn" then "https://game.maj-soul.com" else "https://mahjongsoul.game.yo-star.com".
Definition server_path_prefix (server : string) : string := if String.eqb server "cn" then "/1" else "".
Definition CN_ROUTE_HOSTS : list string :=
  ["https://route-2.maj-soul.com"; "https://route-3.maj-soul.com:8443"; "https://route-4.maj-soul.com"; "https://route-5.maj-soul.com";
   "https://route-6.maj-soul.com"].
Definition routes_url (host package_version : string) : string :=
  host +:+ "/api/clientgate/routes?platform=Web&version=" +:+ package_version +:+ "&lang=chs_t".
Record Route := mkRoute { domain : string; r_id : string }.
Record IpEntry := mkIp { name : string; gateways : list string }.

(** ** Documents *)
Definition str_of (key : string) (v : json) : option string := get key v ≫= as_str.
Definition list_of {A} (f : json -> option A) (v : json) : option (list A) := l ← as_array v; mapM f l.
(** A member that may be absent. *)
Definition or_default {A} (f : json -> option A) (d : A) (o : option json) : option A := match o with None => Some d | Some v => f v end.
Definition version_of (v : json) : option string := str_of "version" v.
Definition route_of (v : json) : option Route := d ← str_of "domain" v; i ← str_of "id" v; Some (mkRoute d i).
Definition routes_of (v : json) : option (list Route) := data ← get "data" v; routes ← get "routes" data; list_of route_of routes.
Definition res_of (v : json) : option (list (string * string)) :=
  res ← get "res" v;
  match res with JObj o => mapM (fun '(k, e) => p ← str_of "prefix" e; Some (k, p)) o | _ => None end.
Definition ip_of (v : json) : option IpEntry :=
  if is_object v then
    n ← or_default as_str "" (get "name" v);
    g ← or_default (list_of (str_of "url")) [] (get "gateways" v);
    Some (mkIp n g)
  else None.
Definition config_of (v : json) : option (list IpEntry) := ip ← get "ip" v; list_of ip_of ip.

(** ** Fetching

    The network answers a URL with a body, or fails; the directory of the copies is
    a map from file names; [written] is whether its writes go through. *)
Abbreviation Cache := (gmap string string).
Record Net := mkNet { reach : string -> option string; written : bool }.
Definition Fetch (A : Type) : Type := Net -> Cache -> Cache * A.
Definition ret {A} (a : A) : Fetch A := fun _ c => (c, a).
Definition bind {A B} (m : Fetch A) (f : A -> Fetch B) : Fetch B := fun net c => let '(c, a) := m net c in f a net c.
(** What follows when there is an answer. *)
Definition and_then {A B} (m : Fetch (option A)) (f : A -> Fetch (option B)) : Fetch (option B) :=
  bind m (fun o => match o with Some a => f a | None => ret None end).

Section Discovery.
(** The digest that names the copy of a URL, the reader of JSON, and the version in a
    page as the regular expression finds it. *)
Variable digest : string -> string.
Variable from_str : string -> option json.
Variable product_version : string -> option string.

Definition write_cache_atomic (file contents : string) : Fetch () := fun net c => ((if written net then <[file := contents]> c else c), tt).
Definition read_file (file : string) : Fetch (option string) := fun _ c => (c, c !! file).
Definition fetch_text_cached (url : string) : Fetch (option string) := fun net c =>
  match reach net url with
  | Some text => let '(c, _) := write_cache_atomic (digest url) text net c in (c, Some text)
  | None => read_file (digest url) net c
  end.
Definition fetch_json_cached {A} (decode : json -> option A) (url : string) : Fetch (option A) :=
  and_then (fetch_text_cached url) (fun raw => ret (from_str raw ≫= decode)).
Definition resolve_config_url (ms_host prefix version : string) : Fetch (option string) :=
  and_then (fetch_json_cached res_of (ms_host +:+ prefix +:+ "/resversion" +:+ version +:+ ".json")) (fun res =>
  ret ((fun e => ms_host +:+ prefix +:+ "/" +:+ e.2 +:+ "/config.json") <$> List.find (fun e => String.eqb e.1 "config.json") (rev res))).
Definition endpoint (r : Route) : string := "wss://" +:+ domain r +:+ "/gateway".
Definition gateway_of (ip : list IpEntry) : option string :=
  i ← (match List.find (fun i => String.eqb (name i) "player") ip with Some i => Some i | None => head ip end); head (gateways i).
(** The endpoint, the version and the route. *)
Definition Found : Type := string * string * string.
Definition discover_gateway_via_config (server package_version : string) : Fetch (option Found) :=
  let ms_host := server_base_url server in
  let prefix := server_path_prefix server in
  and_then (fetch_json_cached version_of (ms_host +:+ prefix +:+ "/version.json")) (fun version =>
  bind (resolve_config_url ms_host prefix version) (fun resolved =>
  let config_url := match resolved with Some url => url | None => ms_host +:+ prefix +:+ "/v" +:+ version +:+ "/config.json" end in
  and_then (fetch_json_cached config_of config_url) (fun ip =>
  match gateway_of ip with
  | None => ret None
  | Some gateway =>
    and_then (fetch_json_cached routes_of (routes_url (trim_end_matches "/"%char gateway) package_version)) (fun routes =>
    ret ((fun r => (endpoint r, version, r_id r)) <$> head routes))
  end))).
Fixpoint ask_hosts (hosts : list string) (package_version : string) : Fetch (option Found) :=
  match hosts with
  | [] => ret None
  | host :: hosts =>
    bind (fetch_json_cached routes_of (routes_url host package_version)) (fun answer =>
    match answer ≫= head with
    | Some r => ret (Some (endpoint r, "", r_id r))
    | None => ask_hosts hosts package_version
    end)
  end.
Definition discover_gateway (server package_version : string) : Fetch (option Found) :=
  bind (if String.eqb server "cn" then ask_hosts CN_ROUTE_HOSTS package_version else ret None) (fun found =>
  match found with Some f => ret (Some f) | None => discover_gateway_via_config server package_version end).

(** ** The package version *)
Definition package_version_cache : string := "package_version".
Definition cached_package_version : Fetch (option string) :=
  bind (read_file package_version_cache) (fun o =>
  ret (cached ← o; let cached := trim cached in if String.eqb cached "" then None else Some cached)).
Definition discover_package_version (server : string) : Fetch (option string) :=
  bind (fetch_text_cached (server_base_url server +:+ server_path_prefix server +:+ "/")) (fun html =>
  match html ≫= product_version with
  | Some version => bind (write_cache_atomic package_version_cache version) (fun _ => ret (Some version))
  | None => cached_package_version
  end).
End Discovery.
End Gateway.

Import Gateway.

Section Facts.
Context (digest : string -> string) (from_str : string -> option json) (product_version : string -> option string).
(** Digests are told apart, from each other and from the name of the other file. *)
Hypothesis digest_inj : forall a b, digest a = digest b -> a = b.
Hypothesis digest_file : forall a, digest a <> package_version_cache.
Abbreviation fetch_text_cached := (fetch_text_cached digest).
Abbreviation fetch_json_cached := (fetch_json_cached digest from_str).
Abbreviation discover_gateway := (discover_gateway digest from_str).
Abbreviation discover_package_version := (discover_package_version digest product_version).

(** What a URL gives in a discovery that finds the copies [c0]: the answer of the
    network, or the copy. *)
Definition seen (net : Net) (c0 : Cache) (url : string) : option string :=
  match reach net url with Some text => Some text | None => c0 !! digest url end.
(** Copies in the course of it: those of URLs the network does not answer are as
    they were; the others may have been replaced by the answer. *)
Definition coherent (net : Net) (c0 c : Cache) : Prop :=
  forall url, c !! digest url = c0 !! digest url \/ exists text, reach net url = Some text /\ c !! digest url = Some text.
Definition kept (net : Net) (c0 c : Cache) (url : string) : Prop := c !! digest url = seen net c0 url.
Definition down : Net := mkNet (fun _ => None) true.
(** A program that gives the same answer when it is run again with the network down,
    on the copies it left or on any that keep as much. *)
Definition repeats {A} (m : Fetch A) : Prop := forall net c0 c c1 a, written net = true -> coherent net c0 c -> m net c = (c1, a) ->
  coherent net c0 c1 /\ (forall url, kept net c0 c url -> kept net c0 c1 url) /\
  forall c2, (forall url, kept net c0 c1 url -> kept net c0 c2 url) -> m down c2 = (c2, a).
Lemma repeats_ret {A} (a : A) : repeats (ret a).
Proof. intros net c0 c c1 a' _ Hc [= <- <-]. by split_and!. Qed.
Lemma repeats_bind {A B} (m : Fetch A) (f : A -> Fetch B) : repeats m -> (forall a, repeats (f a)) -> repeats (bind m f).
Proof.
  intros Hm Hf net c0 c c2 b Hw Hc. unfold bind. destruct (m net c) as [c1 a] eqn:E. intros E2.
  destruct (Hm net c0 c c1 a Hw Hc E) as (H1 & K1 & D1). destruct (Hf a net c0 c1 c2 b Hw H1 E2) as (H2 & K2 & D2).
  split_and!; [done|auto|]. intros c3 K3. rewrite (D1 c3) by auto. by apply D2.
Qed.
Lemma repeats_fetch url : repeats (fetch_text_cached url).
Proof.
  intros net c0 c c1 a Hw Hc. unfold Gateway.fetch_text_cached, write_cache_atomic, read_file. rewrite Hw.
  destruct (reach net url) as [text|] eqn:E; intros [= <- <-].
  - assert (Hk : forall u, kept net c0 c u -> kept net c0 (<[digest url := text]> c) u).
    { intros u Hu. unfold kept, seen in *. destruct (decide (u = url)) as [->|Hne]; [by rewrite lookup_insert_eq, E|].
      rewrite lookup_insert_ne; [done|]. intros H. by apply digest_inj in H. }
    split_and!; [|done|].
    + intros u. destruct (decide (u = url)) as [->|Hne]; [right; exists text; by rewrite lookup_insert_eq|].
      rewrite lookup_insert_ne; [apply Hc|]. intros H. by apply digest_inj in H.
    + intros c2 K. cbn. f_equal. assert (H : kept net c0 c2 url); [|by unfold kept, seen in H; rewrite E in H].
      apply K. unfold kept, seen. by rewrite lookup_insert_eq, E.
  - split_and!; [done|done|]. intros c2 K. cbn. f_equal.
    assert (Hu : kept net c0 c url). { unfold kept, seen. rewrite E. destruct (Hc url) as [?|(text & Ht & _)]; [done|congruence]. }
    by rewrite (K url Hu), Hu.
Qed.
Lemma repeats_and_then {A B} (m : Fetch (option A)) (f : A -> Fetch (option B)) : repeats m -> (forall a, repeats (f a)) -> repeats (and_then m f).
Proof. intros Hm Hf. apply repeats_bind; [done|]. intros [a|]; [apply Hf|apply repeats_ret]. Qed.
Lemma repeats_json {A} (decode : json -> option A) url : repeats (fetch_json_cached decode url).
Proof. apply repeats_and_then; [apply repeats_fetch|]. intros raw. apply repeats_ret. Qed.
Lemma repeats_hosts hosts package : repeats (ask_hosts digest from_str hosts package).
Proof.
  induction hosts as [|host hosts IH]; [apply repeats_ret|]. apply repeats_bind; [apply repeats_json|].
  intros answer. destruct (answer ≫= head); [apply repeats_ret|done].
Qed.
Lemma repeats_via_config server package : repeats (discover_gateway_via_config digest from_str server package).
Proof.
  apply repeats_and_then; [apply repeats_json|]. intros version.
  apply repeats_bind; [apply repeats_and_then; [apply repeats_json|]; intros res; apply repeats_ret|]. intros resolved.
  apply repeats_and_then; [apply repeats_json|]. intros ip. destruct (gateway_of ip); [|apply repeats_ret].
  apply repeats_and_then; [apply repeats_json|]. intros routes. apply repeats_ret.
Qed.
Lemma repeats_discovery server package : repeats (discover_gateway server package).
Proof.
  apply repeats_bind; [destruct (String.eqb server "cn"); [apply repeats_hosts|apply repeats_ret]|].
  intros [f|]; [apply repeats_ret|apply repeats_via_config].
Qed.
(** C21: If no two URLs share a digest and every copy the discovery makes is
    written (a write that fails is not noticed, and leaves the copy that was
    there), a discovery that is repeated with the network down finds what it found
    before, whatever part of the network was up then: every document it read has a
    copy, and the copies lead to the same endpoint, version and route. *)
Theorem discovery_outlives_the_network server package net c0 c1 found : written net = true ->
  discover_gateway server package net c0 = (c1, found) -> discover_gateway server package down c1 = (c1, found).
Proof.
  intros Hw H. apply (repeats_discovery server package net c0 c0 c1 found Hw); [intros url; by left|done|done].
Qed.
(** The same of the package version, which has a copy of the page it is read from and
    one of its own. *)
Theorem package_version_outlives_the_network server net c0 c1 version : written net = true ->
  discover_package_version server net c0 = (c1, version) -> snd (discover_package_version server down c1) = version.
Proof.
  intros Hw. set (url := server_base_url server +:+ server_path_prefix server +:+ "/"). unfold Gateway.discover_package_version, bind. fold url.
  destruct (fetch_text_cached url net c0) as [c html] eqn:E.
  destruct (repeats_fetch url net c0 c0 c html Hw (fun _ => or_introl eq_refl) E) as (_ & _ & D).
  destruct (html ≫= product_version) as [v|] eqn:Ev.
  - unfold write_cache_atomic at 1. rewrite Hw. intros [= <- <-]. rewrite D; [by rewrite Ev|].
    intros u. unfold kept. rewrite lookup_insert_ne; [done|]. intros H. by apply (digest_file u).
  - intros H. assert (c1 = c) as -> by (unfold cached_package_version, bind, read_file, ret in H; by injection H).
    rewrite D by done. rewrite Ev. unfold cached_package_version, bind, read_file, ret in *. by injection H as <-.
Qed.
End Facts.

(** ** The discovery at work

    A digest that spells the URL out, and the bodies of two route hosts. *)
Module Toy.
Definition toy_digest (url : string) : string := "digest of " +:+ url.
Definition toy_routes (route : string) : json :=
  JObj [("data", JObj [("routes", JArr [JObj [("domain", JStr (route +:+ ".maj-soul.com")); ("id", JStr route)]])])].
Definition toy_from_str (raw : string) : option json :=
  if String.eqb raw "<html>" then None else Some (toy_routes raw).
Definition toy_url (n : nat) : string := routes_url (nth n CN_ROUTE_HOSTS "") "4.0.45".
(** Only the host at [n] answers, with [body]. *)
Definition only (n : nat) (body : string) : Net := mkNet (fun url => if String.eqb url (toy_url n) then Some body else None) true.
Definition discover (net : Net) (c : Cache) : Cache * option Found := discover_gateway toy_digest toy_from_str "cn" "4.0.45" net c.
End Toy.
Import Toy.
Lemma toy_digest_inj a b : toy_digest a = toy_digest b -> a = b.
Proof. unfold toy_digest. intros H. by repeat (injection H as H). Qed.
Lemma discovery_outlives_the_network_witness :
  snd (discover (only 1 "route-b") ∅) = Some ("wss://route-b.maj-soul.com/gateway", "", "route-b") /\
  discover down (fst (discover (only 1 "route-b") ∅)) =
  (fst (discover (only 1 "route-b") ∅), Some ("wss://route-b.maj-soul.com/gateway", "", "route-b")).
Proof.
  split; [vm_compute; reflexivity|].
  apply (discovery_outlives_the_network toy_digest toy_from_str toy_digest_inj "cn" "4.0.45" (only 1 "route-b") ∅); [reflexivity|].
  assert (E : snd (discover (only 1 "route-b") ∅) = Some ("wss://route-b.maj-soul.com/gateway", "", "route-b")) by (vm_compute; reflexivity).
  rewrite <- E. apply surjective_pairing.
Defined.

(** The first host is down and has a copy of an earlier answer; the third is up. The
    copy answers for the first, and the host that is up is never asked. *)
Example copy_hides_the_host_that_is_up :
  let c := <[toy_digest (toy_url 0) := "route-old"]> ∅ in
  snd (discover (only 2 "route-new") c) = Some ("wss://route-old.maj-soul.com/gateway", "", "route-old") /\
  snd (discover (only 2 "route-new") ∅) = Some ("wss://route-new.maj-soul.com/gateway", "", "route-new").
Proof. split; vm_compute; reflexivity. Qed.
(** A body that cannot be parsed takes the place of the good copy before it is
    parsed: what could be found without the network cannot be found any more. *)
Example bad_body_overwrites_the_copy :
  let c := <[toy_digest (toy_url 0) := "route-old"]> ∅ in
  is_Some (snd (discover down c)) /\ snd (discover down (fst (discover (only 0 "<html>") c))) = None.
Proof. split; [eexists|]; vm_compute; reflexivity. Qed.
