(* ===== verification/Channel.v ===== *)
(** The connection to the game ([Channel] and [MajsoulRpc] of
    [src/src/majsoul/rpc.rs]): the calls that share a socket, the task that reads
    the answers, the heartbeat; and what is asked of the server to log in
    ([login_native_exact], with [src/src/majsoul/auth.rs] and
    [src/src/majsoul/mod.rs]). *)
From S2P Require Import Prelude Text Proto Rpc Wire.
#[local] Open Scope string_scope.
#[local] Open Scope list_scope.
#[local] Open Scope Z_scope.

(** ** The channel *)
Module Channel.

(** The receiver of a call: no answer yet, an answer, or a sender that was dropped. *)
Inductive Inbox := Open | Got (response : list Z) | Closed.
(** Where a call stands: it has its index; it is in the map of the pending ones; its
    packet is written and it waits; it has returned. *)
Inductive Stage := Taken | Registered | Waiting | Returned (r : result error (list Z)).
Record Call := mkCall { method : string; request : list Z; idx : Z; stage : Stage; inbox : Inbox }.
#[export] Instance Call_settable : Settable Call := fun c => mkCall (method c) (request c) (idx c) (stage c) (inbox c).
(** The task that reads: in its loop, past it, or ended. *)
Inductive Reader := Reading | Leaving | Ended.
(** The heartbeat: asleep with so many beats of the opening burst left, in the call of one,
    or over. *)
Inductive Beat := Pausing (burst : nat) | Beating (burst : nat) (call : Z) | Over.
(** Calls are named by the number of calls that were begun before them; [sent] are the
    packets written, each with its call. *)
Record Conn := mkConn {
  req_idx : Z; pending : gmap Z Z; calls : gmap Z Call; begun : Z; sent : list (Z * list Z);
  reader : Reader; last_rtt : Z; heartbeat : Beat
}.
#[export] Instance Conn_settable : Settable Conn := fun s =>
  mkConn (req_idx s) (pending s) (calls s) (begun s) (sent s) (reader s) (last_rtt s) (heartbeat s).
Definition connected : Conn := mkConn 1 ∅ ∅ 0 [] Reading 5000 Over.

(** [u16::to_le_bytes] and its inverse. *)
Definition to_le_bytes (n : Z) : list Z := [Z.land n 255; Z.shiftr n 8].
Definition from_le_bytes (low high : Z) : Z := Z.lor low (Z.shiftl high 8).
Definition packet (index : Z) (m : string) (body : list Z) : list Z := 2 :: to_le_bytes index ++ Rpc.encode m body.

(** ** A call *)
Definition begin_ (m : string) (body : list Z) (s : Conn) : Conn :=
  let index := req_idx s mod 60007 in
  s <| req_idx := as_unsigned 16 (req_idx s + 1) |> <| begun ::= Z.succ |>
    <| calls ::= <[begun s := mkCall m body index Taken Open]> |>.
(** A sender that is dropped closes the inbox it sends to. *)
Definition close_inbox (c : Call) : Call := match inbox c with Open => c <| inbox := Closed |> | _ => c end.
Definition drop_sender (o : option Z) (s : Conn) : Conn :=
  match o with Some id => s <| calls ::= alter close_inbox id |> | None => s end.
Definition set_stage (t : Stage) (id : Z) (s : Conn) : Conn := s <| calls ::= alter (fun c => c <| stage := t |>) id |>.
Definition register (id : Z) (s : Conn) : option Conn :=
  c ← calls s !! id;
  match stage c with
  | Taken => Some ((set_stage Registered id (drop_sender (pending s !! idx c) s)) <| pending ::= <[idx c := id]> |>)
  | _ => None
  end.
Definition write (written : result error ()) (id : Z) (s : Conn) : option Conn :=
  c ← calls s !! id;
  match stage c with
  | Registered => Some (match written with
    | Ok _ => (set_stage Waiting id s) <| sent ::= fun l => l ++ [(id, packet (idx c) (method c) (request c))] |>
    | Err e => set_stage (Returned (Err e)) id s
    | Panic => set_stage (Returned Panic) id s
    end)
  | _ => None
  end.
(** The inbox has something to say, or thirty seconds have passed. *)
Definition wake (id : Z) (s : Conn) : option Conn :=
  c ← calls s !! id;
  match stage c, inbox c with
  | Waiting, Got response => Some (set_stage (Returned (Ok response)) id s)
  | Waiting, Closed => Some (set_stage (Returned (Err ["RPC channel closed"; "channel closed"])) id s)
  | _, _ => None
  end.
Definition time_out (id : Z) (s : Conn) : option Conn :=
  c ← calls s !! id;
  match stage c, inbox c with
  | Waiting, Open => Some (set_stage (Returned (Err ["RPC timeout"; "deadline has elapsed"])) id s)
  | _, _ => None
  end.
(** The caller is dropped: what it left in the map stays there. *)
Definition forget (id : Z) (s : Conn) : Conn := s <| calls ::= delete id |>.

(** ** The reader *)
Definition deliver (response : list Z) (c : Call) : Call := match inbox c with Open => c <| inbox := Got response |> | _ => c end.
Definition answer (index : Z) (response : list Z) (s : Conn) : Conn :=
  match pending s !! index with
  | Some id => s <| pending ::= delete index |> <| calls ::= alter (deliver response) id |>
  | None => s
  end.
Definition frame (data : list Z) (s : Conn) : option Conn :=
  match reader s with
  | Reading => Some (match data with
    | 3 :: low :: high :: rest =>
      match Rpc.decode rest with
      | Ok (_, response) => answer (from_le_bytes low high) response s
      | Err _ => s
      | Panic => s <| reader := Ended |>
      end
    | _ => s
    end)
  | _ => None
  end.
(** The peer closes, or reading fails. *)
Definition leave (s : Conn) : option Conn := match reader s with Reading => Some (s <| reader := Leaving |>) | _ => None end.
Definition clear (s : Conn) : option Conn :=
  match reader s with
  | Leaving => Some (foldr (fun p s => drop_sender (Some p.2) s) (s <| pending := ∅ |> <| reader := Ended |>) (map_to_list (pending s)))
  | _ => None
  end.

(** ** The heartbeat *)
Definition clamp (low high n : Z) : Z := if n <? low then low else if high <? n then high else n.
Definition pause_ms (burst : nat) : Z := match burst with O => 15000 | _ => 500 end.
Definition abort (s : Conn) : Conn :=
  match heartbeat s with Beating _ id => (forget id s) <| heartbeat := Over |> | _ => s <| heartbeat := Over |> end.
Definition start_heartbeat (s : Conn) : Conn := (abort s) <| heartbeat := Pausing 5 |>.
Definition beat (slept_ms : Z) (s : Conn) : option Conn :=
  match heartbeat s with
  | Pausing burst =>
    let previous := clamp 1 5000 (last_rtt s) in
    if slept_ms <? pause_ms burst then None
    else Some ((begin_ ".lq.Route.heartbeat" (Rpc.build_heartbeat previous previous) s) <| heartbeat := Beating burst (begun s) |>)
  | _ => None
  end.
Definition beaten (elapsed_ms : Z) (s : Conn) : option Conn :=
  match heartbeat s with
  | Beating burst id =>
    c ← calls s !! id;
    match stage c with
    | Returned (Ok _) => Some (s <| last_rtt := clamp 1 5000 elapsed_ms |> <| heartbeat := Pausing (Nat.pred burst) |>)
    | Returned _ => Some (s <| heartbeat := Over |>)
    | _ => None
    end
  | _ => None
  end.

(** ** Runs *)
Inductive Event :=
| Begin (m : string) (body : list Z) | Register (id : Z) | Write (written : result error ()) (id : Z) | Wake (id : Z) | TimeOut (id : Z)
| Forget (id : Z) | Frame (data : list Z) | Leave | Clear | StartHeartbeat | BeatDue (slept_ms : Z) | BeatDone (elapsed_ms : Z) | Drop.
Definition step (e : Event) (s : Conn) : option Conn :=
  match e with
  | Begin m body => Some (begin_ m body s)
  | Register id => register id s
  | Write written id => write written id s
  | Wake id => wake id s
  | TimeOut id => time_out id s
  | Forget id => Some (forget id s)
  | Frame data => frame data s
  | Leave => leave s
  | Clear => clear s
  | StartHeartbeat => Some (start_heartbeat s)
  | BeatDue slept => beat slept s
  | BeatDone elapsed => beaten elapsed s
  | Drop => Some (abort s)
  end.
Fixpoint run (es : list Event) (s : Conn) : option Conn :=
  match es with [] => Some s | e :: es => s ← step e s; run es s end.
End Channel.

(** ** Packets are read back *)
Section Packets.
Lemma nth_middle pre (t : Z) rest : nth (Z.to_nat (zlen pre)) (pre ++ t :: rest) 0 = t.
Proof. unfold zlen. rewrite Nat2Z.id, app_nth2, Nat.sub_diag; [done|lia]. Qed.
(** One length-delimited field of the envelope. *)
Lemma decode_one fuel pre t l rest name body : t = 10 \/ t = 18 ->
  zlen (pre ++ t :: Rpc.encode_varint [] (zlen l) ++ l ++ rest) < 2 ^ 63 ->
  Rpc.decode_fuel (S fuel) (pre ++ t :: Rpc.encode_varint [] (zlen l) ++ l ++ rest) (zlen pre) name body =
  Rpc.decode_fuel fuel (pre ++ t :: Rpc.encode_varint [] (zlen l) ++ l ++ rest) (zlen (pre ++ t :: Rpc.encode_varint [] (zlen l) ++ l))
    (if t =? 10 then from_utf8_lossy l else name) (if t =? 10 then body else l).
Proof.
  intros Ht Hlen. pose proof (zlen_nonneg pre). pose proof (zlen_nonneg l). pose proof (zlen_nonneg rest).
  pose proof (zlen_nonneg (Rpc.encode_varint [] (zlen l))).
  set (v := Rpc.encode_varint [] (zlen l)) in *. cbn [Rpc.decode_fuel].
  assert (Hz : zlen (pre ++ t :: v ++ l ++ rest) = zlen pre + 1 + zlen v + zlen l + zlen rest) by (autorewrite with zlen; lia).
  rewrite (proj2 (Z.ltb_lt _ _)) by lia. rewrite nth_middle.
  assert (E : pre ++ t :: v ++ l ++ rest = (pre ++ [t]) ++ v ++ l ++ rest) by by rewrite <- app_assoc.
  assert (E2 : pre ++ t :: v ++ l ++ rest = (pre ++ t :: v) ++ l ++ rest) by by rewrite <- app_assoc.
  assert (Ht2 : Z.land t 7 = 2 /\ Z.shiftr t 3 = if t =? 10 then 1 else 2) by (destruct Ht as [-> | ->]; done).
  destruct Ht2 as [-> ->]. cbn [negb Z.eqb Pos.eqb].
  assert (Hs : Proto.slice_from (pre ++ t :: v ++ l ++ rest) (zlen pre + 1) = v ++ l ++ rest).
  { rewrite E. replace (zlen pre + 1) with (zlen (pre ++ [t])) by (autorewrite with zlen; lia). apply slice_from_app. }
  assert (Hd : Proto.decode_varint (v ++ l ++ rest) = Ok (zlen l, zlen v)) by (apply decode_varint_encoded; unfold in_u64; lia).
  rewrite Hs, Hd. cbn [mbind result_bind].
  assert (Hu : as_u64 (zlen pre + 1 + zlen v + zlen l) = zlen (pre ++ t :: v ++ l)).
  { unfold as_u64, as_unsigned. rewrite Z.mod_small by lia. autorewrite with zlen. lia. }
  rewrite Hu, (proj2 (Z.ltb_ge _ _)) by (rewrite Hz; autorewrite with zlen; lia).
  assert (Hsl : Proto.slice (pre ++ t :: v ++ l ++ rest) (zlen pre + 1 + zlen v) (zlen (pre ++ t :: v ++ l)) = Ok l).
  { rewrite E2. replace (zlen pre + 1 + zlen v) with (zlen (pre ++ t :: v)) by (autorewrite with zlen; lia).
    replace (zlen (pre ++ t :: v ++ l)) with (zlen (pre ++ t :: v) + zlen l) by (autorewrite with zlen; lia). apply slice_app. }
  destruct Ht as [-> | ->]; cbn [Z.eqb Pos.eqb]; rewrite Hsl; done.
Qed.
Lemma decode_encoded name body : wf_text name -> zlen (Rpc.encode name body) < 2 ^ 63 ->
  Rpc.decode (Rpc.encode name body) = Ok (name, body).
Proof.
  intros Hn Hlen. set (n := bytes_of_string name).
  assert (E : Rpc.encode name body = [] ++ 10 :: Rpc.encode_varint [] (zlen n) ++ n ++ (18 :: Rpc.encode_varint [] (zlen body) ++ body)).
  { unfold Rpc.encode. rewrite <- zlen_bytes_of_string. fold n. rewrite (encode_varint_app [10]), (encode_varint_app (_ ++ [18])). by rewrite <- !app_assoc. }
  assert (E2 : Rpc.encode name body = (10 :: Rpc.encode_varint [] (zlen n) ++ n) ++ 18 :: Rpc.encode_varint [] (zlen body) ++ body ++ []).
  { rewrite E, app_nil_r. cbn. by rewrite <- app_assoc. }
  unfold Rpc.decode. assert (Hl : exists k, length (Rpc.encode name body) = S (S k)).
  { assert (2 <= length (Rpc.encode name body))%nat by (rewrite E2, length_app; cbn [length]; lia).
    exists (length (Rpc.encode name body) - 2)%nat. lia. }
  destruct Hl as [k ->]. change 0 with (zlen (@nil Z)). rewrite E at 1.
  rewrite decode_one by (auto; rewrite <- E; done). rewrite <- E. cbn [Z.eqb Pos.eqb app].
  rewrite E2 at 1. rewrite decode_one by (auto; rewrite <- E2; done). rewrite <- E2. cbn [Z.eqb Pos.eqb].
  cbn [Rpc.decode_fuel]. rewrite (proj2 (Z.ltb_ge _ _)).
  - f_equal. f_equal. by apply from_utf8_lossy_string.
  - rewrite E2, app_nil_r. lia.
Qed.
Lemma index_bytes n : 0 <= n < 2 ^ 16 -> exists low high, Channel.to_le_bytes n = [low; high] /\ Channel.from_le_bytes low high = n.
Proof.
  intros Hn. eexists _, _. split; [done|]. unfold Channel.from_le_bytes. apply Z.bits_inj'. intros k Hk.
  rewrite Z.lor_spec. change 255 with (Z.ones 8). rewrite Z.land_spec. destruct (Z.ltb_spec k 8).
  - rewrite Z.ones_spec_low, andb_true_r, Z.shiftl_spec_low, orb_false_r by lia. done.
  - rewrite Z.ones_spec_high, andb_false_r, Z.shiftl_spec, Z.shiftr_spec by lia. cbn. f_equal. lia.
Qed.
End Packets.

(** ** What the answers are *)
Section Served.
Import Channel.
(** What the server makes of a request. *)
Variable serve : string -> list Z -> list Z.
Definition index (n : Z) : Z := (1 + n) mod 2 ^ 16 mod 60007.
Definition plain (m : string) (body : list Z) : Prop := wf_text m /\ zlen (Rpc.encode m body) < 2 ^ 63.
(** A frame that answers a packet: the server reads the request out of it and sends
    what it makes of that under the same two bytes. *)
Definition answers (data p : list Z) : Prop :=
  exists low high w m q name, p = 2 :: low :: high :: w /\ Rpc.decode w = Ok (m, q) /\
    data = 3 :: low :: high :: Rpc.encode name (serve m q) /\ plain name (serve m q).
(** The server answers only what was asked, and neither an answer nor the entry of a
    call in the map comes after 5529 more calls were begun: the indices of two calls
    that are closer than that differ. *)
Definition timely (e : Event) (s : Conn) : Prop :=
  match e with
  | Begin m body => plain m body
  | Register id => begun s <= id + 5529
  | Frame data => exists k p, (k, p) ∈ sent s /\ answers data p /\ begun s <= k + 5529
  | _ => True
  end.
Fixpoint well_served (es : list Event) (s : Conn) : Prop :=
  match es with
  | [] => True
  | e :: es => timely e s /\ match step e s with Some s => well_served es s | None => True end
  end.
Lemma index_inj a b : 0 <= a <= b -> b < a + 5529 -> index a = index b -> a = b.
Proof. unfold index. intros. Z.to_euclidean_division_equations. lia. Qed.

Definition entered (s : Conn) (k : Z) : Prop := k ∈ (sent s).*1 \/ exists c, calls s !! k = Some c /\ stage c <> Taken.
Definition right (c : Call) : Prop :=
  (forall d, inbox c = Got d -> d = serve (method c) (request c)) /\
  (forall d, stage c = Returned (Ok d) -> d = serve (method c) (request c)).
Record sound (s : Conn) : Prop := mkSound {
  sound_begun : 0 <= begun s;
  sound_idx : req_idx s = (1 + begun s) mod 2 ^ 16;
  sound_call : forall id c, calls s !! id = Some c -> 0 <= id < begun s /\ idx c = index id /\ plain (method c) (request c) /\ right c;
  sound_pending : forall i id, pending s !! i = Some id ->
    0 <= id < begun s /\ index id = i /\ forall k, entered s k -> index k = i -> k <= id;
  sound_sent : forall k p, (k, p) ∈ sent s -> 0 <= k < begun s /\ exists m q, plain m q /\ p = packet (index k) m q /\
    forall c, calls s !! k = Some c -> method c = m /\ request c = q /\ stage c <> Taken
}.
Lemma sound_connected : sound connected.
Proof.
  constructor; cbn; [done|done| | |]; [intros id c H|intros i id H|intros k p H]; [by rewrite lookup_empty in H..|].
  by apply not_elem_of_nil in H.
Qed.
Lemma entered_begun s k : sound s -> entered s k -> 0 <= k < begun s.
Proof.
  intros Hs [(p & -> & Hp)%list_elem_of_fmap | (c & Hc & _)]; [destruct p; by apply (sound_sent s Hs) in Hp as [? _]|].
  by apply (sound_call s Hs) in Hc as [? _].
Qed.
(** A change of one call that leaves its request, its index and its entry alone. *)
Definition tame (f : Call -> Call) (c : Call) : Prop :=
  method (f c) = method c /\ request (f c) = request c /\ idx (f c) = idx c /\ (stage (f c) = Taken <-> stage c = Taken) /\ (right c -> right (f c)).
Lemma sound_alter f id s : sound s -> (forall c, calls s !! id = Some c -> tame f c) -> sound (s <| calls ::= alter f id |>).
Proof.
  intros [B I C P S] Hf. assert (Hl : forall k c, alter f id (calls s) !! k = Some c ->
    exists c0, calls s !! k = Some c0 /\ (c = c0 \/ c = f c0 /\ tame f c0)).
  { intros k c Hk. destruct (decide (id = k)) as [->|Hne].
    - rewrite lookup_alter_eq in Hk. apply fmap_Some in Hk as (c0 & Hc & ->). exists c0. eauto.
    - rewrite lookup_alter_ne in Hk by done. eauto. }
  constructor; cbn; [done|done| | |].
  - intros k c Hk. destruct (Hl k c Hk) as (c0 & Hc & [-> | [-> (Hm & Hr & Hi & _ & HR)]]); [by apply C|].
    destruct (C k c0 Hc) as (? & ? & ? & ?). rewrite Hm, Hr, Hi. auto.
  - intros i k Hk. destruct (P i k Hk) as (? & ? & HP). split_and!; [lia|lia|done|]. intros j [Hj | (c & Hc & Hst)] Hi; apply HP; try done; [by left|].
    right. destruct (Hl j c Hc) as (c0 & Hc0 & [-> | [-> (_ & _ & _ & Ht & _)]]); exists c0; [done|]. split; [done|]. by rewrite <- Ht.
  - intros k p Hk. destruct (S k p Hk) as (? & m & q & ? & -> & HS). split; [done|]. exists m, q. split_and!; [done|done|].
    intros c Hc. destruct (Hl k c Hc) as (c0 & Hc0 & [-> | [-> (Hm & Hr & _ & Ht & _)]]); [by apply HS|].
    rewrite Hm, Hr, Ht. by apply HS.
Qed.
Lemma tame_close c : tame close_inbox c.
Proof. unfold tame, close_inbox, right. destruct c as [m q i st [| |]]; cbn; naive_solver. Qed.
Lemma sound_drop_sender o s : sound s -> sound (drop_sender o s).
Proof. intros Hs. destruct o as [id|]; [|done]. apply sound_alter; [done|]. intros c _. apply tame_close. Qed.
Lemma sound_stage t id s c : sound s -> calls s !! id = Some c -> stage c <> Taken -> t <> Taken ->
  (forall d, t = Returned (Ok d) -> inbox c = Got d) -> sound (set_stage t id s).
Proof.
  intros Hs Hc Hst Ht Hd. apply sound_alter; [done|]. intros c' Hc'. assert (c' = c) as -> by congruence.
  unfold tame, right. cbn. split_and!; [done|done|done|done|]. intros [Hg _]. split; [done|]. intros d ->. by apply Hg, Hd.
Qed.
Lemma sound_forget id s : sound s -> sound (forget id s).
Proof.
  intros [B I C P S]. constructor; cbn; [done|done| | |].
  - intros k c [_ Hk]%lookup_delete_Some. by apply C.
  - intros i k Hk. destruct (P i k Hk) as (? & ? & HP). split_and!; [lia|lia|done|]. intros j [Hj | (c & Hc & Hst)] Hi; apply HP; try done; [by left|].
    right. cbn in Hc. apply lookup_delete_Some in Hc as [_ Hc]. eauto.
  - intros k p Hk. destruct (S k p Hk) as (? & m & q & ? & -> & HS). split; [done|]. exists m, q. split_and!; [done|done|].
    intros c [_ Hc]%lookup_delete_Some. by apply HS.
Qed.
Lemma sound_begin m body s : sound s -> plain m body -> sound (begin_ m body s).
Proof.
  intros [B I C P S] Hp. constructor; cbn.
  - lia.
  - rewrite I. unfold as_unsigned. rewrite Zplus_mod_idemp_l. f_equal. lia.
  - intros k c [[<- <-]|[_ Hc]]%lookup_insert_Some.
    + cbn. rewrite I. split_and!; [lia|lia|done|done|]. by split.
    + destruct (C k c Hc) as (? & ?). split; [lia|done].
  - intros i k Hk. destruct (P i k Hk) as (? & ? & HP). split_and!; [lia|lia|done|].
    intros j [Hj | (c & Hc & Hst)] Hi; [apply HP; [by left|done]|]. cbn in Hc.
    apply lookup_insert_Some in Hc as [[<- <-]|[_ Hc]]; [done|]. apply HP; [right; eauto|done].
  - intros k p Hk. destruct (S k p Hk) as (? & m' & q' & ? & -> & HS). split; [lia|]. exists m', q'. split_and!; [done|done|].
    intros c [[<- <-]|[_ Hc]]%lookup_insert_Some; [lia|by apply HS].
Qed.
Lemma sound_register id s s' : sound s -> begun s <= id + 5529 -> register id s = Some s' -> sound s'.
Proof.
  unfold register. intros Hs Hb. destruct (calls s !! id) as [c|] eqn:Hc; [|done]. cbn. destruct (stage c) eqn:Hst; try done. intros [= <-].
  destruct (sound_call s Hs id c Hc) as (Hid & Hi & _).
  assert (Hk : forall k, entered s k -> index k = index id -> k <= id).
  { intros k Hk E. pose proof (entered_begun s k Hs Hk). destruct (Z.le_gt_cases k id); [done|]. rewrite (index_inj id k); [done|lia|lia|done]. }
  pose proof (sound_drop_sender (pending s !! idx c) s Hs) as Hd. set (s1 := drop_sender (pending s !! idx c) s) in *.
  assert (E1 : begun s1 = begun s /\ pending s1 = pending s /\ sent s1 = sent s /\
    forall k c1, calls s1 !! k = Some c1 -> exists c0, calls s !! k = Some c0 /\ stage c1 = stage c0).
  { unfold s1. destruct (pending s !! idx c) as [o|]; cbn; [|by eauto 7]. split_and!; try done. intros k c1. destruct (decide (o = k)) as [->|].
    - rewrite lookup_alter_eq. intros (c0 & Hc0 & ->)%fmap_Some. exists c0. split; [done|]. unfold close_inbox. by destruct (inbox c0).
    - rewrite lookup_alter_ne by done. eauto. }
  clearbody s1. destruct E1 as (Eb & Ep & Es & Ec). destruct Hd as [B I C P S]. rewrite Eb in *.
  assert (Hent : forall k, entered ((set_stage Registered id s1) <| pending ::= <[idx c := id]> |>) k -> k = id \/ entered s k).
  { intros k [Hin | (c1 & Hc1 & Hs1)]; [right; left; by rewrite <- Es|]. cbn in Hc1. destruct (decide (id = k)) as [->|]; [by left|].
    rewrite lookup_alter_ne in Hc1 by done. destruct (Ec k c1 Hc1) as (c0 & Hc0 & E0). right. right. exists c0. by rewrite <- E0. }
  constructor; cbn -[entered]; rewrite ?Eb.
  - done.
  - done.
  - intros k c1. destruct (decide (id = k)) as [->|]; [|by rewrite lookup_alter_ne; [apply C|]]. rewrite lookup_alter_eq.
    intros (c0 & Hc0 & ->)%fmap_Some. destruct (C k c0 Hc0) as (? & ? & ? & Hg & _). cbn. split_and!; [lia|lia|done|done|]. split; [done|]. discriminate.
  - intros i k [[<- <-]|[Hne Hp]]%lookup_insert_Some.
    + split_and!; [lia|lia|done|]. intros k [-> | Hek]%Hent E; [lia|]. apply Hk; [done|]. by rewrite E.
    + rewrite Ep in Hp. destruct (sound_pending s Hs i k Hp) as (? & ? & HP). split_and!; [lia|lia|done|].
      intros j [-> | Hej]%Hent E; [|by apply HP]. exfalso. apply Hne. by rewrite Hi, E.
  - intros k p Hin. destruct (S k p Hin) as (? & m & q & ? & -> & HS). split; [done|]. exists m, q. split_and!; [done|done|].
    intros c1. destruct (decide (id = k)) as [->|]; [|by rewrite lookup_alter_ne; [apply HS|]]. rewrite lookup_alter_eq.
    intros (c0 & Hc0 & ->)%fmap_Some. destruct (HS c0 Hc0) as (? & ? & _). by cbn.
Qed.
Lemma channel_sound_write written id s s' : sound s -> write written id s = Some s' -> sound s'.
Proof.
  unfold write. intros Hs. destruct (calls s !! id) as [c|] eqn:Hc; [|done]. cbn. destruct (stage c) eqn:Hst; try done.
  assert (Hset : forall t, t <> Taken -> (forall d, t <> Returned (Ok d)) -> sound (set_stage t id s)).
  { intros t Ht Hd. apply (sound_stage t id s c); [done|done|congruence|done|]. intros d ->. by destruct (Hd d). }
  intros [= <-]. destruct written as [u|e|]; [|by apply Hset..].
  destruct (Hset Waiting ltac:(done) ltac:(done)) as [B I C P S]. destruct (sound_call s Hs id c Hc) as (Hid & Hi & Hp & _).
  constructor; cbn -[entered].
  - done.
  - done.
  - apply C.
  - intros i k Hk. destruct (P i k Hk) as (Hb & Hx & HP). split; [exact Hb|split; [exact Hx|]]. intros j [Hj | (c1 & Hc1 & Hs1)] E.
    + cbn in Hj. rewrite fmap_app in Hj. apply elem_of_app in Hj as [Hj | ->%list_elem_of_singleton]; [apply HP; [by left|done]|].
      apply HP; [|done]. right. cbn. rewrite lookup_alter_eq, Hc. by eexists.
    + apply HP; [|done]. right. by exists c1.
  - intros k p [Hin | [= -> ->]%list_elem_of_singleton]%elem_of_app; [by apply S|]. split; [done|]. exists (method c), (request c).
    rewrite Hi. split_and!; [done|done|]. intros c1. rewrite lookup_alter_eq, Hc. by intros [= <-].
Qed.
Lemma sound_wake id s s' : sound s -> wake id s = Some s' -> sound s'.
Proof.
  unfold wake. intros Hs. destruct (calls s !! id) as [c|] eqn:Hc; [|done]. cbn. destruct (stage c) eqn:Hst; try done.
  destruct (inbox c) eqn:Hi; try done; intros [= <-]; (apply (sound_stage _ id s c); [done|done|congruence|done|]); [|done]. by intros d [= <-].
Qed.
Lemma sound_time_out id s s' : sound s -> time_out id s = Some s' -> sound s'.
Proof.
  unfold time_out. intros Hs. destruct (calls s !! id) as [c|] eqn:Hc; [|done]. cbn. destruct (stage c) eqn:Hst; try done.
  destruct (inbox c) eqn:Hi; try done; intros [= <-]. apply (sound_stage _ id s c); [done|done|congruence|done|done].
Qed.
(** An answer finds the call it is for, or one that is gone. *)
Lemma channel_sound_answer s k p low high rest name m q w : sound s -> (k, p) ∈ sent s -> p = 2 :: low :: high :: w -> Rpc.decode w = Ok (m, q) ->
  Rpc.decode rest = Ok (name, serve m q) -> begun s <= k + 5529 -> sound (answer (from_le_bytes low high) (serve m q) s).
Proof.
  intros Hs Hin -> Hw Hr Hb. destruct (sound_sent s Hs k _ Hin) as (Hk & m' & q' & [Ht Hl] & E & HS).
  assert (Hn : 0 <= index k < 2 ^ 16) by (unfold index; Z.to_euclidean_division_equations; lia).
  destruct (index_bytes (index k) Hn) as (low' & high' & E1 & E2). unfold packet in E. rewrite E1 in E. injection E as -> -> ->.
  rewrite decode_encoded in Hw by done. injection Hw as -> ->. rewrite E2. unfold answer.
  destruct (pending s !! index k) as [id|] eqn:Hp; [|done].
  destruct (sound_pending s Hs _ _ Hp) as (Hid & Hi & HP).
  assert (id = k) as ->.
  { assert (k <= id) by (apply HP; [left; apply list_elem_of_fmap; by exists (k, 2 :: low' :: high' :: Rpc.encode m q)|done]).
    symmetry. apply index_inj; [lia|lia|done]. }
  assert (Hs' : sound (s <| pending ::= delete (index k) |>)).
  { destruct Hs as [B I C P S]. constructor; cbn; [done|done|done| |done]. intros i id [_ Hd]%lookup_delete_Some. by apply P. }
  apply (sound_alter (deliver (serve m q)) k) in Hs'; [exact Hs'|]. cbn. intros c Hc. destruct (HS c Hc) as (Hm & Hq & _).
  unfold tame, deliver, right. destruct c as [cm cq ci st [| |]]; cbn in *; subst; naive_solver.
Qed.
Lemma sound_reader r s : sound s -> sound (s <| reader := r |>).
Proof. intros [B I C P S]. by constructor. Qed.
Lemma sound_heartbeat b s : sound s -> sound (s <| heartbeat := b |>).
Proof. intros [B I C P S]. by constructor. Qed.
Lemma sound_frame data s s' : sound s -> timely (Frame data) s -> frame data s = Some s' -> sound s'.
Proof.
  intros Hs (k & p & Hin & (low & high & w & m & q & name & -> & Hw & -> & [Ht Hl]) & Hb). unfold frame. destruct (reader s); try done.
  pose proof (decode_encoded name _ Ht Hl) as Hd. rewrite Hd. intros [= <-]. by apply (channel_sound_answer s k _ low high _ name m q w Hs Hin eq_refl Hw Hd).
Qed.
Lemma sound_clear s s' : sound s -> clear s = Some s' -> sound s'.
Proof.
  unfold clear. intros Hs. destruct (reader s); try done. intros [= <-]. induction (map_to_list (pending s)) as [|p l IH]; cbn [foldr].
  - destruct Hs as [B I C P S]. constructor; cbn; [done|done|done| |done]. intros i id H. by rewrite lookup_empty in H.
  - by apply (sound_drop_sender (Some p.2)).
Qed.
Lemma sound_abort s : sound s -> sound (abort s).
Proof. intros Hs. unfold abort. destruct (heartbeat s); apply sound_heartbeat; [done|by apply sound_forget|done]. Qed.
Lemma varint_short fuel v : zlen (Rpc.varint_bytes fuel v) <= Z.of_nat fuel.
Proof.
  revert v. induction fuel as [|fuel IH]; intros v; cbn; [done|]. destruct (_ =? 0); [change (zlen [Z.land v 127]) with 1; lia|].
  autorewrite with zlen. specialize (IH (Z.shiftr v 7)). lia.
Qed.
Lemma encode_varint_short v : zlen (Rpc.encode_varint [] v) <= 10.
Proof. apply (varint_short 10). Qed.
Lemma beat_plain a b : plain ".lq.Route.heartbeat" (Rpc.build_heartbeat a b).
Proof.
  split; [reflexivity|]. unfold Rpc.build_heartbeat, Rpc.encode_varint_field, Rpc.encode.
  repeat match goal with |- context [Rpc.encode_varint ?b ?v] => lazymatch b with [] => fail | _ => rewrite (encode_varint_app b v) end end.
  autorewrite with zlen. repeat match goal with |- context [Rpc.encode_varint [] ?v] => pose proof (encode_varint_short v); generalize dependent (Rpc.encode_varint [] v); intros end.
  change (zlen (bytes_of_string _)) with 19. change (zlen [18]) with 1. change (zlen (@nil Z)) with 0. change (zlen [10]) with 1. lia.
Qed.
Lemma channel_sound_step e s s' : sound s -> timely e s -> step e s = Some s' -> sound s'.
Proof.
  intros Hs Ht. destruct e; cbn [step].
  - intros [= <-]. by apply sound_begin.
  - by apply sound_register.
  - by apply channel_sound_write.
  - by apply sound_wake.
  - by apply sound_time_out.
  - intros [= <-]. by apply sound_forget.
  - by apply sound_frame.
  - unfold leave. destruct (reader s); try done. intros [= <-]. by apply sound_reader.
  - by apply sound_clear.
  - intros [= <-]. apply sound_heartbeat. by apply sound_abort.
  - unfold beat. destruct (heartbeat s); try done. destruct (_ <? _); [done|]. intros [= <-].
    apply sound_heartbeat, sound_begin; [done|]. apply beat_plain.
  - unfold beaten. destruct (heartbeat s) as [|b id|]; try done. destruct (calls s !! id) as [c|]; [|done]. cbn. destruct (stage c) as [| | |[r|e|]]; try done.
    all: intros [= <-]; apply sound_heartbeat; by destruct Hs.
  - intros [= <-]. by apply sound_abort.
Qed.
Lemma channel_sound_run es s s' : sound s -> well_served es s -> run es s = Some s' -> sound s'.
Proof.
  revert s. induction es as [|e es IH]; intros s Hs Hw; cbn; [by intros [= <-]|]. destruct Hw as [Ht Hw].
  destruct (step e s) as [s1|] eqn:E; [|done]. cbn. apply IH; [by eapply channel_sound_step|done].
Qed.
(** C19: What a call returns is what the server made of the request of that call,
    however the calls and the heartbeat overlap, in whatever order the server answers,
    and whatever was answered late, given up or sent twice: as long as neither an
    answer nor a call's entry in the map is overtaken by 5529 further calls. *)
Theorem answers_are_of_their_call es s id c response : well_served es connected -> run es connected = Some s ->
  calls s !! id = Some c -> stage c = Returned (Ok response) -> response = serve (method c) (request c).
Proof.
  intros Hw Hr Hc Hst. destruct (channel_sound_run es _ s sound_connected Hw Hr) as [_ _ C _ _]. destruct (C id c Hc) as (_ & _ & _ & _ & H). by apply H.
Qed.
End Served.

(** ** No caller waits for a peer that is gone *)
Section Woken.
Import Channel.
(** The sender of a call that waits with an open inbox is in the map. *)
Definition wired (s : Conn) : Prop := forall id c, calls s !! id = Some c -> stage c = Registered \/ stage c = Waiting -> inbox c = Open ->
  pending s !! idx c = Some id.
Definition quiet (f : Call -> Call) : Prop := forall c, idx (f c) = idx c /\ (inbox (f c) = Open -> inbox c = Open) /\
  (stage (f c) = Registered \/ stage (f c) = Waiting -> stage c = Registered \/ stage c = Waiting).
Lemma wired_alter f id s : wired s -> quiet f -> wired (s <| calls ::= alter f id |>).
Proof.
  intros Hs Hf k c Hk Hst Ho. cbn in *. destruct (decide (id = k)) as [->|]; [|rewrite lookup_alter_ne in Hk by done; by apply (Hs k)].
  rewrite lookup_alter_eq in Hk. apply fmap_Some in Hk as (c0 & Hc & ->). destruct (Hf c0) as (-> & Ho' & Hst'). apply (Hs k); auto.
Qed.
Lemma quiet_close : quiet close_inbox.
Proof. intros [m q i st [| |]]; unfold close_inbox; cbn; auto. Qed.
Lemma quiet_returned r : quiet (fun c => c <| stage := Returned r |>).
Proof. intros c. cbn. split_and!; [done|done|]. by intros [|]. Qed.
Lemma wired_forget id s : wired s -> wired (forget id s).
Proof. intros Hs k c Hk. cbn in Hk. apply lookup_delete_Some in Hk as [_ Hk]. by apply (Hs k). Qed.
Lemma wired_begin m body s : wired s -> wired (begin_ m body s).
Proof.
  intros Hs k c Hk Hst. cbn in Hk. apply lookup_insert_Some in Hk as [[<- <-]|[_ Hk]]; [by destruct Hst|]. by apply (Hs k).
Qed.
Lemma wired_register id s s' : wired s -> register id s = Some s' -> wired s'.
Proof.
  unfold register. intros Hs. destruct (calls s !! id) as [c|] eqn:Hc; [|done]. cbn. destruct (stage c); try done. intros [= <-].
  intros k c1 Hk Hst Ho. cbn in *. destruct (decide (id = k)) as [->|Hne].
  { rewrite lookup_alter_eq in Hk. apply fmap_Some in Hk as (c0 & Hc0 & ->). cbn. assert (idx c0 = idx c) as ->; [|by rewrite lookup_insert_eq].
    destruct (pending s !! idx c) as [o|]; cbn in Hc0; [|congruence]. destruct (decide (o = k)) as [->|]; [|by rewrite lookup_alter_ne, Hc in Hc0; [injection Hc0 as ->|]].
    rewrite lookup_alter_eq, Hc in Hc0. injection Hc0 as <-. unfold close_inbox. by destruct (inbox c). }
  rewrite lookup_alter_ne in Hk by done.
  assert (Hd : wired (drop_sender (pending s !! idx c) s)) by (destruct (pending s !! idx c); [apply wired_alter; [done|apply quiet_close]|done]).
  assert (Hp : pending s !! idx c1 = Some k). { specialize (Hd k c1 Hk Hst Ho). by destruct (pending s !! idx c). }
  destruct (decide (idx c = idx c1)) as [E|]; [|rewrite lookup_insert_ne by done; by destruct (pending s !! idx c)]. exfalso. rewrite E, Hp in Hk. cbn in Hk.
  rewrite lookup_alter_eq in Hk. apply fmap_Some in Hk as (c0 & _ & ->). revert Ho. unfold close_inbox. by destruct (inbox c0) eqn:Ei; cbn; rewrite ?Ei.
Qed.
Lemma wired_write written id s s' : wired s -> write written id s = Some s' -> wired s'.
Proof.
  unfold write. intros Hs. destruct (calls s !! id) as [c|] eqn:Hc; [|done]. cbn. destruct (stage c) eqn:Hst; try done. intros [= <-].
  destruct written; [|apply wired_alter; [done|apply quiet_returned]..].
  intros k c1 Hk Hst1 Ho. cbn in *. destruct (decide (id = k)) as [->|]; [|rewrite lookup_alter_ne in Hk by done; by apply (Hs k)].
  rewrite lookup_alter_eq, Hc in Hk. injection Hk as <-. cbn in *. apply (Hs k c); auto.
Qed.
Lemma wired_answer index response s : wired s -> wired (answer index response s).
Proof.
  intros Hs. unfold answer. destruct (pending s !! index) as [id|] eqn:Hp; [|done]. intros k c Hk Hst Ho. cbn in *.
  assert (Hc : calls s !! k = Some c /\ k <> id).
  { destruct (decide (id = k)) as [->|Hne]; [|by rewrite lookup_alter_ne in Hk]. rewrite lookup_alter_eq in Hk.
    apply fmap_Some in Hk as (c0 & _ & ->). revert Ho. unfold deliver. by destruct (inbox c0) eqn:E; cbn; rewrite ?E. }
  destruct Hc as [Hc Hne]. pose proof (Hs k c Hc Hst Ho) as H. rewrite lookup_delete_ne; [done|]. intros ->. congruence.
Qed.
Lemma foldr_close (l : list (Z * Z)) (s : Conn) : exists f, forall id, quiet (f id) /\
  calls (foldr (fun p s => drop_sender (Some p.2) s) s l) !! id = f id <$> calls s !! id /\
  (id ∈ l.*2 -> forall c, inbox (f id c) <> Open).
Proof.
  induction l as [|[i o] l (f & IH)]; cbn.
  - exists (fun _ c => c). intros id. split_and!; [by intros c; auto|by destruct (calls s !! id)|by intros ?%not_elem_of_nil].
  - exists (fun id c => if decide (o = id) then close_inbox (f id c) else f id c). intros id. destruct (IH id) as (Hq & Hl & Hc). cbn in Hl.
    split_and!.
    + intros c. destruct (decide (o = id)); [|apply Hq]. destruct (quiet_close (f id c)) as (-> & Ho & Hst), (Hq c) as (-> & ? & ?). auto.
    + destruct (decide (o = id)) as [->|]; [rewrite lookup_alter_eq|rewrite lookup_alter_ne by done; by rewrite Hl].
      rewrite Hl. by destruct (calls s !! id).
    + intros Hin c. destruct (decide (o = id)) as [->|Hne]; [unfold close_inbox; destruct (inbox (f id c)) eqn:E; cbn; by rewrite ?E|].
      apply Hc. by apply elem_of_cons in Hin as [->|].
Qed.
Lemma clear_closes s s' : wired s -> clear s = Some s' ->
  forall id c, calls s' !! id = Some c -> stage c = Registered \/ stage c = Waiting -> inbox c <> Open.
Proof.
  unfold clear. intros Hs. destruct (reader s); try done. intros [= <-] id c Hc Hst Ho.
  destruct (foldr_close (map_to_list (pending s)) (s <| pending := ∅ |> <| reader := Ended |>)) as (f & Hf).
  destruct (Hf id) as (Hq & Hl & Hclose). cbn in Hl, Hc. rewrite Hl in Hc. apply fmap_Some in Hc as (c0 & Hc0 & ->). cbn in Hc0.
  destruct (Hq c0) as (_ & Ho' & Hst'). eapply Hclose, Ho. apply list_elem_of_fmap. exists (idx c0, id). split; [done|].
  apply elem_of_map_to_list. apply (Hs id c0); auto.
Qed.
Lemma wired_step e s s' : wired s -> step e s = Some s' -> wired s'.
Proof.
  intros Hs. assert (Ha : wired (abort s)) by (unfold abort; destruct (heartbeat s); [done|by apply wired_forget|done]).
  destruct e; cbn [step].
  - intros [= <-]. by apply wired_begin.
  - by apply wired_register.
  - by apply wired_write.
  - unfold wake. destruct (calls s !! id) as [c|]; [|done]. cbn. destruct (stage c); try done.
    destruct (inbox c); try done; intros [= <-]; (apply wired_alter; [done|apply quiet_returned]).
  - unfold time_out. destruct (calls s !! id) as [c|]; [|done]. cbn. destruct (stage c); try done.
    destruct (inbox c); try done; intros [= <-]; (apply wired_alter; [done|apply quiet_returned]).
  - intros [= <-]. by apply wired_forget.
  - unfold frame. destruct (reader s); try done. intros [= <-].
    repeat case_match; subst; try done. by apply wired_answer.
  - unfold leave. destruct (reader s); try done. by intros [= <-].
  - intros Hc id c Hid Hst Ho. by destruct (clear_closes s s' Hs Hc id c Hid Hst).
  - by intros [= <-].
  - unfold beat. destruct (heartbeat s); try done. destruct (_ <? _); [done|]. intros [= <-]. by apply (wired_begin _ _ s Hs).
  - unfold beaten. destruct (heartbeat s) as [|b id|]; try done. destruct (calls s !! id) as [c|]; [|done]. cbn.
    by destruct (stage c) as [| | |[r|e|]]; try done; intros [= <-].
  - by intros [= <-].
Qed.
Lemma wired_run es s s' : wired s -> run es s = Some s' -> wired s'.
Proof.
  revert s. induction es as [|e es IH]; intros s Hs; cbn; [by intros [= <-]|].
  destruct (step e s) as [s1|] eqn:E; [|done]. cbn. apply IH. by eapply wired_step.
Qed.
(** Whoever waits when the peer disappears is woken by the end of the reader; nobody
    has to wait for the time-out. *)
Theorem peer_gone_wakes_every_waiter es s s' id c : run es connected = Some s -> clear s = Some s' ->
  calls s' !! id = Some c -> stage c = Waiting -> is_Some (wake id s').
Proof.
  intros Hr Hcl Hc Hst. assert (Hw : wired s) by (apply (wired_run es connected); [|done]; intros k c0 H; cbn in H; by rewrite lookup_empty in H).
  pose proof (clear_closes s s' Hw Hcl id c Hc (or_intror Hst)) as Ho.
  unfold wake. rewrite Hc. cbn. rewrite Hst. by destruct (inbox c).
Qed.
End Woken.

(** ** The channel at work *)
Module ChannelToy.
Import Channel.
(** A server that echoes what it is asked, under the name of the method. *)
Definition echo (m : string) (body : list Z) : list Z := bytes_of_string m ++ body.
Definition reply (n : Z) (m : string) (body : list Z) : Event := Frame (3 :: to_le_bytes (index n) ++ Rpc.encode "" (echo m body)).
Definition ask (n : Z) (m : string) (body : list Z) : list Event := [Begin m body; Register n; Write (Ok tt) n].
Definition returned (id : Z) (s : Conn) : option Stage := stage <$> calls s !! id.
(** Two calls and a heartbeat, answered in the opposite order. *)
Definition crossed : list Event :=
  ask 0 "a" [1] ++ [StartHeartbeat; BeatDue 500; Register 1; Write (Ok tt) 1] ++ ask 2 "b" [2] ++
  [reply 2 "b" [2]; reply 0 "a" [1]; Wake 0; Wake 2].
End ChannelToy.
Import ChannelToy.
Lemma served_cons serve e es s s' : timely serve e s -> Channel.step e s = Some s' -> well_served serve es s' -> well_served serve (e :: es) s.
Proof. intros Ht E Hw. cbn [well_served]. by rewrite E. Qed.
Ltac serve_next := eapply served_cons; [cbn [timely]|vm_compute; reflexivity|].
Lemma answers_packet (k : Z) m q s : plain "" (echo m q) -> plain m q -> (k, Channel.packet (index k) m q) ∈ Channel.sent s -> Channel.begun s <= k + 5529 ->
  timely echo (reply k m q) s.
Proof.
  intros Hp Hq Hin Hb. exists k, (Channel.packet (index k) m q). split_and!; [done| |done].
  exists (Z.land (index k) 255), (Z.shiftr (index k) 8), (Rpc.encode m q), m, q, "". split_and!; [done| |done|apply Hp..].
  by apply decode_encoded; apply Hq.
Qed.
Lemma crossed_served : well_served echo crossed Channel.connected.
Proof.
  unfold crossed, ask. cbn [app].
  do 14 (serve_next; [try exact I; try (cbn; lia); try (split; [reflexivity|vm_compute; reflexivity]); try (apply answers_packet; [split; [reflexivity|vm_compute; reflexivity]..|vm_compute; repeat constructor|cbn; lia])|]).
  exact I.
Qed.
Lemma answers_are_of_their_call_witness :
  (s ← Channel.run crossed Channel.connected; c ← Channel.calls s !! 0; Some (Channel.stage c)) = Some (Channel.Returned (Ok (echo "a" [1]))) /\
  exists s c response, Channel.run crossed Channel.connected = Some s /\ Channel.calls s !! 0 = Some c /\
    Channel.stage c = Channel.Returned (Ok response) /\ response = echo (Channel.method c) (Channel.request c).
Proof.
  split; [vm_compute; reflexivity|].
  destruct (Channel.run crossed Channel.connected) as [s|] eqn:E; [|exfalso; revert E; vm_compute; discriminate].
  destruct (Channel.calls s !! 0) as [c|] eqn:Ec; [|exfalso; revert E; vm_compute; intros [= <-]; revert Ec; vm_compute; discriminate].
  exists s, c, (echo "a" [1]). assert (Hst : Channel.stage c = Channel.Returned (Ok (echo "a" [1]))).
  { revert E. vm_compute. intros [= <-]. revert Ec. vm_compute. by intros [= <-]. }
  split; [reflexivity|]. split; [exact Ec|]. split; [exact Hst|].
  exact (answers_are_of_their_call echo crossed s 0 c (echo "a" [1]) crossed_served E Ec Hst).
Defined.

(** The counter has 65536 values and the index 60007: the indices of two calls can be
    the same after 5529 calls. An answer that comes when its caller has given up is
    then taken for the answer to a request of another player. *)
Example late_answer_is_taken_by_another :
  index 60006 = index 65535 /\
  (s ← Channel.run (repeat (Channel.Begin "a" []) (Z.to_nat 60006) ++ ask 60006 "a" [1] ++ [Channel.TimeOut 60006] ++
      repeat (Channel.Begin "a" []) (Z.to_nat 5528) ++ ask 65535 "b" [2] ++ [reply 60006 "a" [1]; Channel.Wake 65535]) Channel.connected;
   returned 65535 s) = Some (Channel.Returned (Ok (echo "a" [1]))).
Proof. split; vm_compute; reflexivity. Qed.
(** A frame whose length runs past the end of the address space ends the reader
    without the end of its loop: nobody is woken, neither then nor later. *)
Example overflowing_frame_strands_the_callers :
  let lethal := Channel.Frame (3 :: 9 :: 9 :: 10 :: Rpc.encode_varint [] (2 ^ 64 - 1)) in
  (s ← Channel.run (ask 0 "a" [1] ++ [lethal] ++ ask 1 "b" []) Channel.connected;
   Some (Channel.wake 0 s, Channel.wake 1 s, Channel.clear s, Channel.frame [] s)) = Some (None, None, None, None).
Proof. vm_compute. reflexivity. Qed.
(** A beat that is not answered in time ends the heartbeat of a connection that is up. *)
Example unanswered_beat_ends_the_heartbeat :
  (s ← Channel.run [Channel.StartHeartbeat; Channel.BeatDue 500; Channel.Register 0; Channel.Write (Ok tt) 0; Channel.TimeOut 0; Channel.BeatDone 30000]
     Channel.connected;
   Some (Channel.heartbeat s, Channel.beat 15000 s, Channel.reader s)) = Some (Channel.Over, None, Channel.Reading).
Proof. vm_compute. reflexivity. Qed.
