(* ===== verification/Login.v ===== *)
(** Logging in to the game and what is fetched over a session ([MajsoulRpc] of
    [src/src/majsoul/rpc.rs], with [src/src/majsoul/auth.rs] and
    [src/src/majsoul/mod.rs]): the requests in their order, the answers as the server
    gives them, and the two readers that go through the answer to the login. *)
From S2P Require Import Prelude Text Proto Rpc Wire Channel.
#[local] Open Scope string_scope.
#[local] Open Scope list_scope.
#[local] Open Scope Z_scope.

Module Login.
(** What was asked so far, in order: by the login, and by the heartbeat, with the
    round trip it carries. *)
Inductive Frame := Asked (method : string) (body : list Z) | Beat (rtt : Z).
Definition Trace : Type := list Frame.
(** The connection, as the login uses it. *)
Record Line := mkLine { asked : Trace; beating : bool }.
(** An error, with the code of the server when it is the server's. *)
Record Failure := mkFailure { server_error : option Z; text : error }.
(** An answer whose reading does not end is [None]. *)
Definition Script (A : Type) : Type := Line -> Line * option (result Failure A).
Definition ret {A} (r : result Failure A) : Script A := fun t => (t, Some r).
Definition bind {A B} (m : Script A) (f : A -> Script B) : Script B := fun t =>
  match m t with
  | (t, Some (Ok a)) => f a t
  | (t, Some (Err e)) => (t, Some (Err e))
  | (t, Some Panic) => (t, Some Panic)
  | (t, None) => (t, None)
  end.

(** ** Reading the answer to a login *)
(** [FieldIterator::next] with the position it leaves behind, which after an error is
    where the error was found. *)
Definition stopped (buf : list Z) (wire_type pos : Z) : Z :=
  if wire_type =? 2 then match Proto.decode_varint (Proto.slice_from buf pos) with Ok (_, n) => pos + n | _ => pos end else pos.
Definition next_item (buf : list Z) (pos : Z) : option (result error Proto.Field * Z) :=
  if zlen buf <=? pos then None
  else Some (match Proto.decode_varint (Proto.slice_from buf pos) with
    | Ok (tag, n) =>
      let pos := pos + n in
      let wire_type := as_u8 (Z.land tag 7) in
      match Proto.read_payload buf wire_type pos with
      | Ok (data, pos) => (Ok (Proto.mkField (as_u32 (Z.shiftr tag 3)) wire_type data), pos)
      | Err e => (Err e, stopped buf wire_type pos)
      | Panic => (Panic, pos)
      end
    | Err e => (Err e, pos)
    | Panic => (Panic, pos)
    end).
(** [FieldIterator::new(..).flatten().find(..)]: errors are passed over. *)
Fixpoint find_account (fuel : nat) (buf : list Z) (pos : Z) : option (result Failure Z) :=
  match fuel with
  | O => None
  | S fuel =>
    match next_item buf pos with
    | None => Some (Ok 0)
    | Some (Panic, _) => Some Panic
    | Some (Err _, pos) => find_account fuel buf pos
    | Some (Ok field, pos) =>
      if (Proto.number field =? 2) && (Proto.wire_type field =? 0)
      then Some (Ok (match Proto.extract_varint (Proto.data field) with Ok v => v | _ => 0 end))
      else find_account fuel buf pos
    end
  end.
(** The length of a field, as [extract_string_field] reads it: the shift is the one of
    a 64-bit word. *)
Fixpoint read_length (fuel : nat) (data : list Z) (pos len shift : Z) : Z * Z :=
  match fuel with
  | O => (len, pos)
  | S fuel =>
    if pos <? zlen data then
      let b := nth (Z.to_nat pos) data 0 in
      let len := Z.lor len (as_u64 (Z.shiftl (Z.land b 127) (shift mod 64))) in
      if Z.land b 128 =? 0 then (len, pos + 1) else read_length fuel data (pos + 1) len (shift + 7)
    else (len, pos)
  end.
Fixpoint extract_string_field (fuel : nat) (data : list Z) (target_field pos : Z) : option (result Failure (option string)) :=
  match fuel with
  | O => None
  | S fuel =>
    if pos <? zlen data then
      let tag := nth (Z.to_nat pos) data 0 in
      let pos := pos + 1 in
      let field_num := Z.shiftr tag 3 in
      let wire_type := Z.land tag 7 in
      if wire_type =? 2 then
        let '(len, pos) := read_length (length data) data pos 0 0 in
        if (field_num =? target_field) && (as_u64 (pos + len) <=? zlen data)
        then Some (match Proto.slice data pos (as_u64 (pos + len)) with Ok b => Ok (Some (from_utf8_lossy b)) | _ => Panic end)
        else extract_string_field fuel data target_field (as_u64 (pos + len))
      else if wire_type =? 0
      then extract_string_field fuel data target_field (Rpc.skip_varint (length data) data pos + 1)
      else Some (Ok None)
    else Some (Ok None)
  end.

(** ** The requests *)
Section Session.
(** The answer to the last request of a trace; the round trips that the heartbeat,
    once started, sends between the last request of a trace and the next (none when
    it has ended); the digests; the text of a uuid; and the lower case of a name. *)
Variable answer : Trace -> result error (list Z).
Variable beats : Trace -> list Z.
Variable hmac_sha256_hex : string -> string -> string.
Variable sha256 : list Z -> list Z.
Variable uuid_text : list Z -> string.
Variable to_lowercase : string -> string.

Definition hash_password (password : string) : string := hmac_sha256_hex "lailai" password.
Definition device_id (account : string) : string :=
  let bytes := take 16 (sha256 (bytes_of_string (to_lowercase account))) in
  let bytes := <[6%nat := Z.lor (Z.land (nth 6 bytes 0) 15) 64]> bytes in
  uuid_text (<[8%nat := Z.lor (Z.land (nth 8 bytes 0) 63) 128]> bytes).
(** The beats that are sent meanwhile go out before the next request. *)
Definition overlap (l : Line) : Trace :=
  asked l ++ if beating l then map (fun rtt => Beat (Channel.clamp 1 5000 rtt)) (beats (asked l)) else [].
Definition start_heartbeat : Script () := fun l => (mkLine (asked l) true, Some (Ok tt)).
Definition call (method : string) (body : list Z) : Script (list Z) := fun l =>
  let t := overlap l ++ [Asked method body] in
  (mkLine t (beating l), Some (match answer t with Ok response => Ok response | Err e => Err (mkFailure None e) | Panic => Panic end)).
(** An answer that carries an error of the server ends the request with it. *)
Definition accepted (context : Z -> string) (response : list Z) : result Failure () :=
  match Rpc.extract_error_code response with
  | Some code =>
    if code =? 0 then Ok tt else Err (mkFailure (Some code) [context code; "server error code " +:+ pretty code])
  | None => Ok tt
  end.
Definition fetch_game_record (uuid version : string) : Script (list Z) :=
  bind (call ".lq.Lobby.fetchGameRecord" (Rpc.fetch_game_record uuid version)) (fun response =>
  bind (ret (accepted (fun code => "fetchGameRecord error " +:+ pretty code +:+ ": " +:+ uuid) response)) (fun _ => ret (Ok response))).
Definition fetch_game_live_list (filter_id : Z) : Script (list Z) :=
  bind (call ".lq.Lobby.fetchGameLiveList" (Rpc.fetch_game_live_list filter_id)) (fun response =>
  bind (ret (accepted (fun code => "fetchGameLiveList error " +:+ pretty code +:+ " for filter " +:+ pretty filter_id) response))
    (fun _ => ret (Ok response))).
Definition route_connect (timestamp : Z) (route_id : string) : Script () :=
  bind (call ".lq.Route.requestConnection" (Rpc.build_request_connection route_id timestamp)) (fun response =>
  ret (accepted (fun code => "Route connection failed (error " +:+ pretty code +:+ ")") response)).
Definition CONTRACT : string := "DF2vkXCnfeXp4WoGrBGNcJBufZiMN3uP".
(** The methods asked for in the lobby, with the pause before each, in milliseconds. *)
Definition lobby_steps : list (string * list Z * Z) :=
  let beat := Rpc.build_login_beat_request CONTRACT in
  [(".lq.Lobby.fetchLastPrivacy", [], 860); (".lq.Lobby.loginBeat", beat, 340); (".lq.Lobby.loginBeat", beat, 1220);
   (".lq.Lobby.fetchAnnouncement", [], 5440); (".lq.Lobby.fetchInfo", [], 350); (".lq.Lobby.fetchQuestionnaireList", [], 280);
   (".lq.Lobby.fetchChallengeInfo", [], 10); (".lq.Lobby.fetchChallengeSeason", [], 10); (".lq.Lobby.fetchSeerReportList", [], 10);
   (".lq.Lobby.fetchReviveCoinInfo", [], 40); (".lq.Lobby.fetchDailyTask", [], 10); (".lq.Lobby.fetchConnectionInfo", [], 12280);
   (".lq.Lobby.fetchRollingNotice", [], 5000); (".lq.Lobby.loginSuccess", [], 890)].
Fixpoint settle (steps : list (string * list Z * Z)) : Script () := fun t =>
  match steps with
  | [] => (t, Some (Ok tt))
  | (method, body, _) :: steps =>
    match call method body t with
    | (t, Some (Err _)) => (t, Some (Ok tt))
    | (t, Some Panic) => (t, Some Panic)
    | (t, _) => settle steps t
    end
  end.
Definition settle_into_the_lobby : Script () := settle lobby_steps.
(** [fuel] bounds the readers of the answer. *)
Definition login_native_exact (fuel : nat) (timestamp : Z) (username password code_version package_version tag route_id : string) : Script Z :=
  bind (route_connect timestamp route_id) (fun _ =>
  bind (call ".lq.Route.heartbeat" Rpc.build_first_heartbeat) (fun _ =>
  bind start_heartbeat (fun _ =>
  let request := Rpc.build_login_request to_lowercase username (hash_password password) (device_id username) code_version package_version tag in
  bind (call ".lq.Lobby.login" request) (fun response =>
  bind (ret (accepted (fun code => "CN native login failed with error code: " +:+ pretty code) response)) (fun _ =>
  bind (fun t => (t, extract_string_field fuel response 2 0)) (fun _ =>
  bind (fun t => (t, find_account fuel response 0)) (fun account_id =>
  bind settle_into_the_lobby (fun _ => ret (Ok account_id))))))))).
End Session.
End Login.

Import Login.

(** ** The account in a well-formed answer *)
Section Account.
Import Proto Rpc.
Definition account_of (fs : list Field) : Z :=
  match List.find (fun f => (number f =? 2) && (wire_type f =? 0)) fs with
  | Some f => match extract_varint (data f) with Ok v => v | _ => 0 end
  | None => 0
  end.
Lemma next_item_ok buf pos f it : next (mkIter buf pos) = Some (Ok (f, it)) -> next_item buf pos = Some (Ok f, Proto.pos it).
Proof.
  unfold next, next_item. cbn [Proto.buf Proto.pos]. destruct (_ <=? _); [done|]. intros [= H]. f_equal.
  destruct (decode_varint _) as [[tag n]| |]; try done. cbn in *. destruct (read_payload _ _ _) as [[d p]| |]; try done. cbn in *. by injection H as <- <-.
Qed.
Lemma find_account_message fs : forall pre fuel, Forall wf_field fs -> zlen (pre ++ message_bytes fs) < 2 ^ 63 -> (length fs < fuel)%nat ->
  find_account fuel (pre ++ message_bytes fs) (zlen pre) = Some (Ok (account_of fs)).
Proof.
  induction fs as [|f fs IH]; intros pre fuel Hw Hl Hf; (destruct fuel as [|fuel]; [lia|]); cbn [find_account].
  - rewrite message_bytes_nil, app_nil_r in *. unfold next_item. by rewrite Z.leb_refl.
  - apply Forall_cons in Hw as [Hf1 Hw]. rewrite message_bytes_cons in *. rewrite (next_item_ok _ _ _ _ (next_field pre f (message_bytes fs) Hf1 Hl)). cbn [Proto.pos].
    unfold account_of. cbn [List.find]. destruct (_ && _); [done|]. rewrite app_assoc in *. apply IH; [done|done|cbn in Hf; lia].
Qed.
(** Every answer that is a well-formed message gives up its account, or 0 if there is
    none, and as many turns as it has bytes are enough. *)
Theorem account_of_answer fs : Forall wf_field fs -> zlen (message_bytes fs) < 2 ^ 63 ->
  find_account (S (length (message_bytes fs))) (message_bytes fs) 0 = Some (Ok (account_of fs)).
Proof.
  intros Hw Hl. apply (find_account_message fs []); [done|done|]. clear Hl.
  assert (H : (length fs <= length (message_bytes fs))%nat); [|lia]. induction Hw as [|f fs Hf _ IH]; [done|]. rewrite message_bytes_cons, length_app. cbn.
  assert (0 < zlen (field_bytes f)); [|unfold zlen in *; lia]. unfold field_bytes. autorewrite with zlen.
  pose proof (zlen_encode_varint _ (wf_field_tag _ Hf)). pose proof (zlen_nonneg (if wire_type f =? 2 then encode_varint [] (zlen (data f)) ++ data f else data f)). lia.
Qed.
End Account.

(** ** The order of a login *)
Section Order.
Context (answer : Trace -> result error (list Z)) (beats : Trace -> list Z) (hmac_sha256_hex : string -> string -> string)
  (sha256 : list Z -> list Z) (uuid_text : list Z -> string) (to_lowercase : string -> string) (fuel : nat) (timestamp : Z)
  (username password code_version package_version tag route_id : string).
Hypothesis calls_return : forall t, answer t <> Panic.
Definition requests : Trace :=
  [Asked ".lq.Route.requestConnection" (Rpc.build_request_connection route_id timestamp);
   Asked ".lq.Route.heartbeat" Rpc.build_first_heartbeat;
   Asked ".lq.Lobby.login" (Rpc.build_login_request to_lowercase username (hash_password hmac_sha256_hex password)
      (device_id sha256 uuid_text to_lowercase username) code_version package_version tag)].
Definition in_the_lobby : Trace := map (fun '(method, body, _) => Asked method body) lobby_steps.
(** What the login asked for itself, and what the heartbeat did. *)
Definition is_asked (f : Frame) : bool := match f with Asked _ _ => true | Beat _ => false end.
Definition script (t : Trace) : Trace := List.filter is_asked t.
Definition beat_ok (f : Frame) : Prop := match f with Asked _ _ => True | Beat rtt => 1 <= rtt <= 5000 end.
(** The requests up to the login, with the beats before it. *)
Definition until (n : nat) : Trace :=
  match n with
  | 3%nat => overlap beats (mkLine (take 2 requests) true) ++ drop 2 requests
  | _ => take n requests
  end.
Definition answered (n : nat) : result error (list Z) := answer (until n).
Definition refused (response : list Z) : Prop := exists code, Rpc.extract_error_code response = Some code /\ code <> 0.
Definition greeted : Prop := (exists a, answered 1 = Ok a /\ ~ refused a) /\ exists a, answered 2 = Ok a.
Definition admitted (id : Z) : Prop := exists a token, answered 3 = Ok a /\ ~ refused a /\
  extract_string_field fuel a 2 0 = Some (Ok token) /\ find_account fuel a 0 = Some (Ok id).
Abbreviation login := (login_native_exact answer beats hmac_sha256_hex sha256 uuid_text to_lowercase fuel timestamp username password
  code_version package_version tag route_id).
Lemma accepted_spec context a : (accepted context a = Ok tt /\ ~ refused a) \/ (exists e, accepted context a = Err e /\ refused a).
Proof.
  unfold accepted, refused. destruct (Rpc.extract_error_code a) as [code|]; [|left; split; [done|]; by intros (? & ? & _)].
  destruct (Z.eqb_spec code 0) as [->|]; [left; split; [done|]; intros (? & [= <-] & ?); done|right; eauto].
Qed.
Lemma script_app t1 t2 : script (t1 ++ t2) = script t1 ++ script t2.
Proof. apply List.filter_app. Qed.
Lemma overlap_spec l : exists bs, overlap beats l = asked l ++ bs /\ script bs = [] /\ Forall beat_ok bs.
Proof.
  unfold overlap. eexists. split; [done|]. destruct (beating l); [|by split]. split.
  - by induction (beats (asked l)).
  - apply Forall_map, Forall_true. intros rtt. cbn. unfold Channel.clamp.
    destruct (Z.ltb_spec rtt 1); [lia|]. destruct (Z.ltb_spec 5000 rtt); lia.
Qed.
(** What goes out after [t]: beats, and requests of [steps] in their order. *)
Definition follows (steps t t' : Trace) : Prop :=
  exists u, t' = t ++ u /\ script u `prefix_of` steps /\ Forall beat_ok u.
Lemma follows_refl steps t : follows steps t t.
Proof. exists []. rewrite app_nil_r. split_and!; [done|apply prefix_nil|constructor]. Qed.
Lemma follows_call m b steps l t' :
  follows steps (overlap beats l ++ [Asked m b]) t' -> follows (Asked m b :: steps) (asked l) t'.
Proof.
  intros (u & -> & Hp & Hu). destruct (overlap_spec l) as (bs & -> & Hb & Hk). exists (bs ++ [Asked m b] ++ u).
  rewrite <- !app_assoc. split; [done|]. rewrite !script_app, Hb. split; [by apply prefix_cons|].
  apply Forall_app. split; [done|]. by constructor.
Qed.
Lemma settle_spec steps : forall l, exists l', settle answer beats steps l = (l', Some (Ok tt)) /\
  follows (map (fun '(method, body, _) => Asked method body) steps) (asked l) (asked l').
Proof.
  induction steps as [|[[m b] w] steps IH]; intros l; cbn [settle map]; [by exists l; split; [|apply follows_refl]|].
  unfold call. pose proof (calls_return (overlap beats l ++ [Asked m b])). destruct (answer _) as [r|e|]; try done.
  - destruct (IH (mkLine (overlap beats l ++ [Asked m b]) (beating l))) as (l' & -> & Hf). exists l'. split; [done|]. by apply follows_call.
  - eexists. split; [done|]. apply follows_call, follows_refl.
Qed.
Lemma until_ok n : (1 <= n <= 3)%nat ->
  script (until n) `prefix_of` requests ++ in_the_lobby /\ Forall beat_ok (until n) /\ take 2 (until n) `prefix_of` requests /\
  (n <= 2 -> length (until n) <= 2)%nat.
Proof.
  intros Hn. assert (n = 1 \/ n = 2 \/ n = 3)%nat as [->|[->| ->]] by lia.
  - split_and!; [by eexists|by repeat constructor|by eexists|cbn; lia].
  - split_and!; [by eexists|by repeat constructor|by eexists|cbn; lia].
  - cbn [until]. destruct (overlap_spec (mkLine (take 2 requests) true)) as (bs & -> & Hb & Hk). cbn [asked].
    rewrite !script_app, Hb. split_and!; [by eexists| |by eexists|lia].
    apply Forall_app; split; [apply Forall_app; split; [by repeat constructor|done]|by repeat constructor].
Qed.
Lemma follows_lobby t : follows in_the_lobby (until 3) t ->
  script t `prefix_of` requests ++ in_the_lobby /\ Forall beat_ok t /\ take 2 t `prefix_of` requests.
Proof.
  intros (u & -> & Hp & Hu). destruct (until_ok 3 ltac:(lia)) as (_ & H2 & H3 & _). split_and!.
  - cbn [until]. destruct (overlap_spec (mkLine (take 2 requests) true)) as (bs & -> & Hb & Hk). cbn [asked].
    rewrite !script_app, Hb, app_nil_r. change (script (take 2 requests) ++ script (drop 2 requests)) with requests.
    by apply prefix_app.
  - by apply Forall_app.
  - exact H3.
Qed.
(** A login that ends with its [n]-th request. *)
Ltac cut_short n :=
  destruct (until_ok n ltac:(lia)) as (? & ? & ? & ?); eexists _, _; split_and!; [done|done|done|done|cbn in *; naive_solver lia|naive_solver].

(** C20: A login asks, in order, for nothing but its script: the handshake, the first
    heartbeat, the login, the lobby; besides, the heartbeat it starts sends beats, as
    many as the clock brings and each of a round trip of 1 to 5000 ms, which overlap
    the login and the lobby and never come before the server answered the first
    heartbeat. The login is asked for, and the beats begin, only after the server took
    the handshake without an error and answered that heartbeat; and the login succeeds
    exactly if its answer carries no error and can be read, with the account found
    there, whatever becomes of the lobby and of the beats. *)
Theorem login_spec : exists l r, login (mkLine [] false) = (l, r) /\
  script (asked l) `prefix_of` requests ++ in_the_lobby /\ Forall beat_ok (asked l) /\
  take 2 (asked l) `prefix_of` requests /\
  ((3 <= length (asked l))%nat -> greeted) /\ (forall id, r = Some (Ok id) <-> greeted /\ admitted id).
Proof.
  unfold login_native_exact, route_connect, greeted, admitted, answered. unfold bind at 1 2, call at 1. cbn [overlap beating asked app].
  change [Asked ".lq.Route.requestConnection" _] with (until 1).
  pose proof (calls_return (until 1)). destruct (answer (until 1)) as [a1|e|]; [|by cut_short 1%nat|done].
  unfold ret at 1. destruct (accepted_spec (fun code => "Route connection failed (error " +:+ pretty code +:+ ")") a1) as [[-> Ha1]|(e & -> & Ha1)].
  2: by cut_short 1%nat.
  unfold bind at 1, call at 1. cbn [beating]. change (overlap beats (mkLine (until 1) false) ++ [_]) with (until 2).
  pose proof (calls_return (until 2)). destruct (answer (until 2)) as [a2|e|]; [|by cut_short 2%nat|done].
  unfold bind at 1, start_heartbeat at 1. unfold bind at 1, call at 1. cbn [beating asked].
  change (overlap beats _ ++ [_]) with (until 3).
  pose proof (calls_return (until 3)). destruct (answer (until 3)) as [a3|e|]; [|by cut_short 3%nat|done].
  unfold bind at 1, ret at 1. destruct (accepted_spec (fun code => "CN native login failed with error code: " +:+ pretty code) a3) as [[-> Ha3]|(e & -> & Ha3)].
  2: by cut_short 3%nat.
  unfold bind at 1. destruct (extract_string_field fuel a3 2 0) as [[token|e|]|] eqn:Et; [|by cut_short 3%nat..].
  unfold bind at 1. destruct (find_account fuel a3 0) as [[id|e|]|] eqn:Ei; [|by cut_short 3%nat..].
  unfold bind, settle_into_the_lobby. destruct (settle_spec lobby_steps (mkLine (until 3) true)) as (l & -> & Hl).
  destruct (follows_lobby _ Hl) as (P1 & P2 & P3). eexists _, _. split_and!; [done|done|done|done|naive_solver|naive_solver].
Qed.
End Order.

(** ** Logins *)
Module LoginToy.
(** A server that takes every request; the login gives account 77. The heartbeat
    beats twice before the login, and once more in the lobby. *)
Definition last_method (t : Trace) : string := match List.last t (Beat 0) with Asked m _ => m | Beat _ => "" end.
Definition toy_answer (t : Trace) : result error (list Z) :=
  if String.eqb (last_method t) ".lq.Lobby.login" then Ok (message_bytes [varint_field 2 77; text_field 6 "token"])
  else if String.eqb (last_method t) ".lq.Lobby.fetchInfo" then Err ["RPC timeout"; "deadline has elapsed"] else Ok [].
Definition toy_beats (t : Trace) : list Z :=
  if String.eqb (last_method t) ".lq.Route.heartbeat" then [0; 253] else if String.eqb (last_method t) ".lq.Lobby.loginBeat" then [31000] else [].
Definition toy_login (answer : Trace -> result error (list Z)) : Line * option (result Failure Z) :=
  login_native_exact answer toy_beats (fun k s => k) (fun _ => repeat 0 32) (fun _ => "uuid") Datatypes.id 100 1700000000 "user" "secret" "0.16.257" "4.0.45" "cn" "route-1" (mkLine [] false).
Definition shown (f : Frame) : string := match f with Asked m _ => m | Beat rtt => "beat " +:+ pretty rtt end.
End LoginToy.
Import LoginToy.
Lemma toy_answers_return t : toy_answer t <> Panic.
Proof. unfold toy_answer. by repeat destruct (String.eqb _ _). Qed.
Lemma login_spec_witness : snd (toy_login toy_answer) = Some (Ok 77) /\ map shown (asked (fst (toy_login toy_answer))) =
  [".lq.Route.requestConnection"; ".lq.Route.heartbeat"; "beat 1"; "beat 253"; ".lq.Lobby.login"; ".lq.Lobby.fetchLastPrivacy"; ".lq.Lobby.loginBeat";
   "beat 5000"; ".lq.Lobby.loginBeat"; "beat 5000"; ".lq.Lobby.fetchAnnouncement"; ".lq.Lobby.fetchInfo"] /\
  exists l r, toy_login toy_answer = (l, r) /\ script (asked l) `prefix_of`
    requests (fun k _ => k) (fun _ => repeat 0 32) (fun _ => "uuid") Datatypes.id 1700000000 "user" "secret" "0.16.257" "4.0.45" "cn" "route-1" ++ in_the_lobby.
Proof.
  split; [vm_compute; reflexivity|]. split; [vm_compute; reflexivity|].
  destruct (login_spec toy_answer toy_beats (fun k _ => k) (fun _ => repeat 0 32) (fun _ => "uuid") Datatypes.id 100 1700000000 "user" "secret" "0.16.257" "4.0.45" "cn" "route-1"
    toy_answers_return) as (l & r & E & Hp & _).
  exists l, r. split; [exact E|exact Hp].
Defined.
Lemma account_of_answer_witness : account_of [varint_field 2 77; text_field 6 "token"] = 77 /\
  find_account (S (length (message_bytes [varint_field 2 77; text_field 6 "token"]))) (message_bytes [varint_field 2 77; text_field 6 "token"]) 0 = Some (Ok 77).
Proof.
  split; [vm_compute; reflexivity|]. apply (account_of_answer [varint_field 2 77; text_field 6 "token"]).
  - repeat (apply Forall_cons; split; [apply wf_varint_field + apply wf_text_field; unfold in_u32, in_u64; lia|]); try apply Forall_nil; try exact I.
  - vm_compute. reflexivity.
Defined.
(** A refused login: nothing of the lobby is asked for. *)
Example refused_login :
  let '(l, r) := toy_login (fun t => if String.eqb (last_method t) ".lq.Lobby.login" then Ok [10; 3; 8; 151; 1] else Ok []) in
  length (script (asked l)) = 3%nat /\ r = Some (Err (mkFailure (Some 151) ["CN native login failed with error code: 151"; "server error code 151"])).
Proof. vm_compute. split; reflexivity. Qed.
(** The iterator does not move past a tag it cannot read, and the errors are passed
    over: an answer without an account that breaks off there is read for ever. *)
Example broken_answer_is_read_for_ever fuel : find_account fuel [128] 0 = None.
Proof. induction fuel as [|fuel IH]; [done|]. cbn -[next_item]. change (next_item [128] 0) with (Some (Err ["Unexpected end in varint"] : result error Proto.Field, 0)). exact IH. Qed.
(** So is a field whose length leads back to where it begins. *)
Example length_leads_back fuel : extract_string_field fuel (10 :: Rpc.encode_varint [] (2 ^ 64 - 11)) 2 0 = None.
Proof. induction fuel as [|fuel IH]; [done|]. exact IH. Qed.
