(* ===== verification/Watcher.v ===== *)
(** A collector's sessions ([run], [connect] and [LoginTransport] of
    [src/src/managed_watch.rs]): how a session is opened with the client of this
    process or by a module, what is asked over it, and the loop that logs in again. *)
From S2P Require Import Prelude Text Proto Json Tiles Rpc Watch WatchLog Accounts Version Collector Service Gateway Login.
#[local] Open Scope string_scope.
#[local] Open Scope list_scope.
#[local] Open Scope Z_scope.

Module Watcher.
Import Json.
Definition RECONNECT_DELAY_SECS : Z := 5.
Abbreviation Failure := Collector.Failure.
Definition failed {A} (text : string) : result Failure A := Err (Collector.mkFailure None text).

(** ** Modules

    A module's process, as it answers in the course of one connection. *)
Abbreviation Module_ := (string -> json -> result Service.WatchServiceError json).
Definition ask (worker : Module_) (method : string) (params : json) : result Failure json :=
  match worker method params with Ok v => Ok v | Err e => failed (Service.to_string e) | Panic => Panic end.
Definition required_string (value : json) (field : string) : result Failure string :=
  match get field value ≫= as_str with
  | Some s => if String.eqb s "" then failed ("module response is missing " +:+ field) else Ok s
  | None => failed ("module response is missing " +:+ field)
  end.

Section Codec.
(** [base64::STANDARD] and the [serde] readers of what a module answers. *)
Variable encode : list Z -> string.
Variable decode : string -> list Z + string.
Variable from_value : json -> list Collector.LiveGame + string.
Variable rpc_request_of : json -> (string * string) + string.

Definition decoded (encoded : string) : result Failure (list Z) := match decode encoded with inl b => Ok b | inr e => failed e end.
Definition decode_base64_field (value : json) (field : string) : result Failure (list Z) :=
  encoded ← required_string value field; decoded encoded.
(** The method and the payload of a request, as a module builds it. *)
Definition plugin_rpc_request (worker : Module_) (method : string) (params : json) : result Failure (string * string) :=
  result ← ask worker method params;
  match rpc_request_of result with inl request => Ok request | inr e => failed e end.

(** ** The transport of a session *)
Inductive LoginTransport := Builtin (rpc : string -> list Z -> result Failure (list Z)) | External (worker : Module_) (session_id : string).
Definition call (t : LoginTransport) (method : string) (payload : list Z) : result Failure (list Z) :=
  match t with
  | Builtin rpc => rpc method payload
  | External worker session_id =>
    result ← ask worker "rpc" (JObj [("session_id", JStr session_id); ("method", JStr method); ("payload_base64", JStr (encode payload))]);
    decode_base64_field result "payload_base64"
  end.
Definition success (response : list Z) (operation : string) : result Failure () :=
  match Rpc.ensure_success_response response operation with
  | Ok _ => Ok tt
  | Err (server, e) => Err (Collector.mkFailure (Some server) (String.concat ": " e))
  | Panic => Panic
  end.
Definition fetch_live_list (t : LoginTransport) (pb_worker : option Module_) (filter_id fallback_mode_id : Z) : result Failure (list Collector.LiveGame) :=
  match pb_worker with
  | Some worker =>
    '(method, payload) ← plugin_rpc_request worker "build_live_list_request" (JObj [("filter_id", num filter_id)]);
    payload ← decoded payload;
    response ← call t method payload;
    result ← ask worker "parse_live_list_response" (JObj [("filter_mode_id", num fallback_mode_id); ("payload_base64", JStr (encode response))]);
    games ← (match get "games" result with Some games => Ok games | None => failed "PB module response is missing games" end);
    games ← (match from_value games with inl games => Ok games | inr e => failed e end);
    Ok (List.filter (fun g => Collector.usable (Collector.uuid g) (Collector.mode_id g)) games)
  | None =>
    response ← call t ".lq.Lobby.fetchGameLiveList" (Rpc.fetch_game_live_list filter_id);
    _ ← success response "fetchGameLiveList";
    match Collector.parse_live_list response fallback_mode_id with Ok games => Ok games | Err e => failed (String.concat ": " e) | Panic => Panic end
  end.
Definition fetch_game_record (t : LoginTransport) (pb_worker : option Module_) (uuid client_version : string) : result Failure (list Z) :=
  match pb_worker with
  | Some worker =>
    '(method, payload) ← plugin_rpc_request worker "build_record_request" (JObj [("uuid", JStr uuid); ("client_version", JStr client_version)]);
    payload ← decoded payload;
    response ← call t method payload;
    result ← ask worker "parse_record_response" (JObj [("uuid", JStr uuid); ("payload_base64", JStr (encode response))]);
    decode_base64_field result "pb_base64"
  | None =>
    response ← call t ".lq.Lobby.fetchGameRecord" (Rpc.fetch_game_record uuid client_version);
    _ ← success response "fetchGameRecord";
    Ok response
  end.
End Codec.

(** ** The log

    What a step says, in order: a secret is registered, or a line is written. *)
Inductive Say := Secret (secret : string) | Line (level : WatchLog.WatchLogLevel) (message : string).
(** When, and by whom. *)
Definition Heard : Type := Z * string * Say.
Definition hear (log : WatchLog.WatchLogBuffer) (h : Heard) : WatchLog.WatchLogBuffer :=
  match h with
  | (_, _, Secret secret) => WatchLog.register_secret secret log
  | (now, source, Line level message) => WatchLog.append now level source message log
  end.

(** ** Opening a session *)
(** A URL as the [url] crate reads it. *)
Record Url := mkUrl { scheme : string; host_str : option string; port : option Z; user : string; password : option string }.
(** What a connection meets: the network of the discovery; whether there is an HTTP
    client for the proxy; what the discovery says when it fails; the WebSocket; what
    the server answers in the course of the login, and the beats that overlap it; and
    the session that follows. *)
Record Attempt := mkAttempt {
  net : Gateway.Net; http_client : result Failure (); no_gateway : string; dial : string -> result Failure ();
  answer : Login.Trace -> result error (list Z); beats : Login.Trace -> list Z; rpc : string -> list Z -> result Failure (list Z)
}.
Definition client_version_path : string := "client_version".
Section Connect.
Variable parse_url : string -> option Url.
Variable digest : string -> string.
Variable from_str : string -> option json.
Variable product_version : string -> option string.
Variable hmac_sha256_hex : string -> string -> string.
Variable sha256 : list Z -> list Z.
Variable uuid_text : list Z -> string.
Variable to_lowercase : string -> string.
(** The bound of the readers of the answer to a login. *)
Variable fuel : nat.

Definition proxy_display (proxy : string) : string :=
  match parse_url proxy with
  | Some url =>
    match host_str url, port url with
    | Some host, Some port => scheme url +:+ "://" +:+ host +:+ ":" +:+ pretty port
    | Some host, None => scheme url +:+ "://" +:+ host
    | None, _ => scheme url
    end
  | None => "无法解析"
  end.
Definition endpoint_host (endpoint : string) : string :=
  match (url ← parse_url endpoint; host_str url) with Some host => host | None => "未知主机" end.
Definition register_secrets (password_ : string) (proxy : option string) : list Say :=
  Secret password_ ::
  match proxy with
  | None => []
  | Some url =>
    Secret url ::
    match parse_url url with
    | None => []
    | Some parsed =>
      (match password parsed with Some credential => [Secret credential] | None => [] end) ++
      (if String.eqb (user parsed) "" then [] else [Secret (user parsed)])
    end
  end.
Definition login_failure (f : Login.Failure) : Failure :=
  Collector.mkFailure (Rpc.mkServerError <$> Login.server_error f) (String.concat ": " (Login.text f)).
(** What is said, the cache afterwards, and the session; [None] when the login does
    not end. *)
Definition connect (e : Attempt) (timestamp : Z) (server : string) (client_version : option string) (username password_ : string) (proxy : option string)
  (worker : option Module_) (cache : Gateway.Cache) : list Say * Gateway.Cache * option (result Failure (LoginTransport * string)) :=
  let said := register_secrets password_ proxy in
  let code_version := Version.effective_code_version (cache !! client_version_path) client_version in
  match worker with
  | Some worker =>
    match (result ← ask worker "open_session" (JObj [("server", JStr server); ("username", JStr username); ("password", JStr password_);
             ("proxy_url", match proxy with Some p => JStr p | None => JNull end); ("client_version", JStr code_version)]);
           session_id ← required_string result "session_id";
           client_version ← required_string result "client_version";
           Ok (session_id, client_version)) with
    | Ok (session_id, client_version) =>
      (said ++ [Line WatchLog.Info ("登录成功 (外置模块, 客户端版本 " +:+ client_version +:+ ")")], cache,
       Some (Ok (External worker session_id, client_version)))
    | Err f => (said, cache, Some (Err f))
    | Panic => (said, cache, Some Panic)
    end
  | None =>
    match http_client e with
    | Ok _ =>
      let '(cache, package) := Gateway.discover_package_version digest product_version server (net e) cache in
      let package_version := default Version.CN_PACKAGE_VERSION package in
      let '(cache, found) := Gateway.discover_gateway digest from_str server package_version (net e) cache in
      match found with
      | None => (said, cache, Some (failed (no_gateway e)))
      | Some (endpoint, _, route_id) =>
        let said := said ++ [Line WatchLog.Info ("网关发现完成 (" +:+ endpoint_host endpoint +:+ ")");
                             Line WatchLog.Info ("客户端版本 WebGL_2022-" +:+ code_version +:+ " (package " +:+ package_version +:+ ")")] in
        match dial e endpoint with
        | Ok _ =>
          let said := said ++ [Line WatchLog.Info "WebSocket 已连接"] in
          match snd (Login.login_native_exact (answer e) (beats e) hmac_sha256_hex sha256 uuid_text to_lowercase fuel timestamp username password_
                       code_version package_version server route_id (Login.mkLine [] false)) with
          | Some (Ok _) => (said ++ [Line WatchLog.Info "登录成功"], cache, Some (Ok (Builtin (rpc e), "WebGL_2022-" +:+ code_version)))
          | Some (Err f) => (said, cache, Some (Err (login_failure f)))
          | Some Panic => (said, cache, Some Panic)
          | None => (said, cache, None)
          end
        | Err f => (said, cache, Some (Err f))
        | Panic => (said, cache, Some Panic)
        end
      end
    | Err f => (said, cache, Some (Err f))
    | Panic => (said, cache, Some Panic)
    end
  end.

(** ** The loop

    One turn meets a connection; a session that ends with [ended]; and, when the
    version is refused, the logins of the search, with their failures, what they say,
    and whether the version is written. Before it, the rest of the process writes to
    the cache and the log. *)
Record Turn := mkTurn {
  now : Z; around : Gateway.Cache -> Gateway.Cache; overheard : list Heard; attempt : Attempt; ended : option string;
  probes : string -> option string; probe_said : list Say; written : bool
}.
Record World := mkWorld { pinned : option string; cache : Gateway.Cache; log : WatchLog.WatchLogBuffer; accounts : Accounts.AccountPool }.
Definition shared_version (cache : Gateway.Cache) (rejected : string) : option string :=
  shared ← Version.load_client_version (cache !! client_version_path);
  if Version.newer (Version.parse_version shared) (Version.parse_version rejected) then Some shared else None.
Definition refresh_said (t : Turn) (attempted failure : string) (cache : Gateway.Cache) : list Say :=
  if Version.refused_version failure then
    match shared_version cache attempted with
    | Some shared => [Line WatchLog.Info ("error 151 = 客户端版本 " +:+ attempted +:+ " 已过期,采用其他会话探测到的 " +:+ shared)]
    | None =>
      Line WatchLog.Warn ("error 151 = 客户端版本 " +:+ attempted +:+ " 已过期,开始探测服务端接受的最低版本") :: probe_said t ++
      [match Version.discover_version_floor (probes t) attempted with
       | Ok version => Line WatchLog.Info ("客户端版本已自动更新为 " +:+ version)
       | Err e => Line WatchLog.Error ("版本探测失败: " +:+ String.concat ": " e)
       | Panic => Line WatchLog.Error "版本探测失败"
       end]
    end
  else [].
Section Run.
Variable server username password_ source : string.
Variable proxy : option string.
Variable worker : option Module_.
Definition start_line : Say :=
  Line WatchLog.Info ("开始连接雀魂服务器 (账号 " +:+ Collector.masked_account username +:+ ", 代理 "
    +:+ match proxy with Some p => proxy_display p | None => "直连" end +:+ ")").
Definition wait_line : Say := Line WatchLog.Info ("等待 " +:+ pretty RECONNECT_DELAY_SECS +:+ " 秒后重连").
Definition attempted (t : Turn) (w : World) : string := Version.effective_code_version (around t (cache w) !! client_version_path) (pinned w).
Definition own (t : Turn) (l : list Say) : list Heard := map (fun s => (now t, source, s)) l.
(** What the collector says in a turn, and what it leaves. *)
Definition login_turn (t : Turn) (w : World) : option (list Say * (option string * Gateway.Cache * Accounts.AccountPool)) :=
  let version := attempted t w in
  let '(said, cache, outcome) := connect (attempt t) (now t) server (Some version) username password_ proxy worker (around t (cache w)) in
  match outcome with
  | Some (Ok _) =>
    let pool := Accounts.record_login to_lowercase (now t) username Accounts.LoggedIn "" (accounts w) in
    Some (start_line :: said ++ match ended t with Some text => [Line WatchLog.Warn ("会话断开: " +:+ text)] | None => [] end ++ [wait_line],
          (pinned w, cache, pool))
  | Some (Err f) =>
    let detail := Collector.text f in
    let state := Collector.login_verdict f in
    let pool := Accounts.record_login to_lowercase (now t) username state detail (accounts w) in
    let banned := if Accounts.is_terminal state then [Line WatchLog.Error ("账号 " +:+ Collector.masked_account username
      +:+ " 已被雀魂封禁，这个采集实例不会再登录成功；给它换一个账号，在此之前它一直在空转")] else [] in
    let '(refreshed, file) := Version.refreshed_client_version (probes t) (written t) (Some version) detail (cache !! client_version_path) in
    Some (start_line :: said ++ [Line WatchLog.Error ("登录失败: " +:+ detail)] ++ banned ++ refresh_said t version detail cache ++ [wait_line],
          (match refreshed with Some v => Some v | None => pinned w end,
           match file with Some v => <[client_version_path := v]> cache | None => cache end, pool))
  | Some Panic | None => None
  end.
Definition turn (t : Turn) (w : World) : option (list Heard * World) :=
  '(said, (p, c, a)) ← login_turn t w;
  let said := overheard t ++ own t said in
  Some (said, mkWorld p c (fold_left hear said (log w)) a).
(** Turn after turn: all that was heard, and where it leads. *)
Fixpoint run (ts : list Turn) (w : World) : option (list Heard * World) :=
  match ts with
  | [] => Some ([], w)
  | t :: ts => '(said, w) ← turn t w; '(more, w) ← run ts w; Some (said ++ more, w)
  end.
Fixpoint attempts (ts : list Turn) (w : World) : list (option Z) :=
  match ts with
  | [] => []
  | t :: ts => Version.parse_version (attempted t w) :: match turn t w with Some (_, w) => attempts ts w | None => [] end
  end.
End Run.
End Connect.
End Watcher.

Import Watcher.

(** ** Passwords stay out of the log *)
Section Facts.
Context (parse_url : string -> option Url) (digest : string -> string) (from_str : string -> option json) (product_version : string -> option string)
  (hmac_sha256_hex : string -> string -> string) (sha256 : list Z -> list Z) (uuid_text : list Z -> string) (to_lowercase : string -> string) (fuel : nat)
  (server username password_ source : string) (proxy : option string) (worker : option Module_).
Abbreviation connect := (connect parse_url digest from_str product_version hmac_sha256_hex sha256 uuid_text to_lowercase fuel).
Abbreviation login_turn := (login_turn parse_url digest from_str product_version hmac_sha256_hex sha256 uuid_text to_lowercase fuel server username password_ proxy worker).
Abbreviation turn := (turn parse_url digest from_str product_version hmac_sha256_hex sha256 uuid_text to_lowercase fuel server username password_ source proxy worker).
Abbreviation run := (run parse_url digest from_str product_version hmac_sha256_hex sha256 uuid_text to_lowercase fuel server username password_ source proxy worker).
Abbreviation attempts := (attempts parse_url digest from_str product_version hmac_sha256_hex sha256 uuid_text to_lowercase fuel server username password_ source proxy worker).

Lemma connect_says e timestamp version c said c' o : connect e timestamp server version username password_ proxy worker c = (said, c', o) ->
  exists more, said = Secret password_ :: more.
Proof.
  unfold Watcher.connect, register_secrets. intros H. repeat case_match; subst; injection H as <- _ _; cbn; eauto.
Qed.
Lemma login_turn_says t w said rest : login_turn t w = Some (said, rest) -> exists more, said = start_line parse_url username proxy :: Secret password_ :: more.
Proof.
  unfold Watcher.login_turn. destruct (connect _ _ _ _ _ _ _ _ _) as [[s c] o] eqn:E. destruct (connect_says _ _ _ _ _ _ _ E) as [more ->].
  destruct o as [[x|f|]|]; try done; [|destruct (Version.refreshed_client_version _ _ _ _ _) as [refreshed file]]; intros [= <- _]; cbn; eauto.
Qed.
Lemma hear_one h log : 1 <= WatchLog.next_seq log -> WatchLog.next_seq log + 1 < u64_max ->
  WatchLog.next_seq log <= WatchLog.next_seq (hear log h) <= WatchLog.next_seq log + 1 /\ WatchLog.step log (hear log h).
Proof.
  intros H1 H. destruct h as [[n src] [secret|level message]]; cbn [hear]; (split; [|constructor]).
  - unfold WatchLog.register_secret. destruct (Nat.ltb _ _); [lia|]. case_bool_decide; cbn; lia.
  - change (WatchLog.next_seq (WatchLog.append n level src message log)) with (Prelude.as_u64 (WatchLog.next_seq log + 1)).
    unfold Prelude.as_u64, as_unsigned. unfold u64_max in H. rewrite Z.mod_small; lia.
  - unfold u64_max in *. lia.
Qed.
Lemma hear_later l log : 1 <= WatchLog.next_seq log -> WatchLog.next_seq log + Z.of_nat (length l) < u64_max -> WatchLog.later log (fold_left hear l log).
Proof.
  revert log. induction l as [|h l IH]; intros log H1 H; cbn [fold_left]; [constructor|]. cbn [length] in H.
  destruct (hear_one h log H1 ltac:(lia)) as [Hn Hs]. specialize (IH (hear log h) ltac:(lia) ltac:(lia)). clear -IH Hs.
  induction IH as [|log1 log2 _ IH Hstep]; [|by eapply WatchLog.Later_step]. eapply WatchLog.Later_step; [constructor|done].
Qed.
Lemma run_log ts w said w' : run ts w = Some (said, w') -> log w' = fold_left hear said (log w).
Proof.
  revert w said. induction ts as [|t ts IH]; intros w said; cbn; [by intros [= <- <-]|].
  destruct (turn t w) as [[s1 w1]|] eqn:Et; [|done]. cbn. destruct (run ts w1) as [[more w2]|] eqn:Er; [|done]. cbn. intros [= <- <-].
  rewrite (IH w1 more Er), fold_left_app. f_equal. unfold Watcher.turn in Et. destruct (login_turn t w) as [[l [[p c] a]]|]; [|done]. cbn in Et.
  by injection Et as <- <-.
Qed.
Lemma later_reachable log1 log2 : WatchLog.reachable log1 -> WatchLog.later log1 log2 -> WatchLog.reachable log2.
Proof. intros Hr. induction 1 as [|log2 log3 _ IH Hs]; [done|]. by eapply WatchLog.Reach_step. Qed.
Lemma hear_seq l log : 1 <= WatchLog.next_seq log -> WatchLog.next_seq log + Z.of_nat (length l) < u64_max ->
  WatchLog.next_seq log <= WatchLog.next_seq (fold_left hear l log) <= WatchLog.next_seq log + Z.of_nat (length l).
Proof.
  revert log. induction l as [|h l IH]; intros log H1 H; cbn [fold_left length]; [lia|]. cbn [length] in H. pose proof (hear_one h log H1 ltac:(lia)) as Hn.
  specialize (IH (hear log h) ltac:(lia) ltac:(lia)). lia.
Qed.
(** The password of a collector stays out of the log from its first login on: no line
    that is kept afterwards repeats it, whoever writes it, whatever a module, the
    server or the proxy put into their errors. (It has four characters at least and
    no asterisk.) *)
Theorem password_stays_out_of_the_log t ts w said w' : WatchLog.reachable (log w) ->
  (WatchLog.MIN_SECRET_CHARS <= length (chars password_))%nat -> star_free password_ ->
  run (t :: ts) w = Some (said, w') -> WatchLog.next_seq (log w) + Z.of_nat (length said) < u64_max ->
  forall e, e ∈ WatchLog.entries (log w') ->
    WatchLog.next_seq (fold_left hear (overheard t ++ own source t [start_line parse_url username proxy]) (log w)) <= WatchLog.seq e ->
    ~ infix password_ (WatchLog.message e).
Proof.
  intros Hr Hlen Hs Hrun Hb. pose proof (run_log _ _ _ _ Hrun) as ->.
  assert (Hsaid : exists more, said = (overheard t ++ own source t [start_line parse_url username proxy]) ++ (now t, source, Secret password_) :: more).
  { cbn [Watcher.run] in Hrun. destruct (turn t w) as [[s1 w1]|] eqn:Et; [|done]. cbn in Hrun. destruct (run ts w1) as [[more w2]|]; [|done]. cbn in Hrun.
    injection Hrun as <- <-. unfold Watcher.turn in Et. destruct (login_turn t w) as [[l [[p c] a]]|] eqn:El; [|done]. cbn in Et. injection Et as <- _.
    destruct (login_turn_says _ _ _ _ El) as [rest ->]. exists (own source t rest ++ more). unfold own. cbn. by rewrite <- !app_assoc. }
  destruct Hsaid as [more ->]. rewrite fold_left_app. set (pre := overheard t ++ _) in *. cbn [fold_left hear].
  rewrite length_app in Hb. cbn [length] in Hb. destruct (log_reachable_wf _ Hr) as (_ & _ & H1 & _).
  pose proof (hear_later pre (log w) H1 ltac:(lia)) as Hpre. pose proof (hear_seq pre (log w) H1 ltac:(lia)) as Hq.
  set (log1 := fold_left hear pre (log w)) in *.
  pose proof (hear_one (now t, source, Secret password_) log1 ltac:(lia) ltac:(lia)) as H2. cbn [hear] in H2.
  apply registered_secret_clean; [by eapply later_reachable|done|done|]. apply hear_later; lia.
Qed.

(** ** Versions rise *)
Hypothesis digest_file : forall url, digest url <> client_version_path.
Definition untouched {A} (m : Gateway.Fetch A) : Prop := forall net c, fst (m net c) !! client_version_path = c !! client_version_path.
Lemma untouched_ret {A} (a : A) : untouched (Gateway.ret a).
Proof. by intros net c. Qed.
Lemma untouched_bind {A B} (m : Gateway.Fetch A) (f : A -> Gateway.Fetch B) : untouched m -> (forall a, untouched (f a)) -> untouched (Gateway.bind m f).
Proof. intros Hm Hf net c. unfold Gateway.bind. pose proof (Hm net c) as E. destruct (m net c) as [c1 a]. by rewrite Hf. Qed.
Lemma untouched_and_then {A B} (m : Gateway.Fetch (option A)) (f : A -> Gateway.Fetch (option B)) :
  untouched m -> (forall a, untouched (f a)) -> untouched (Gateway.and_then m f).
Proof. intros Hm Hf. apply untouched_bind; [done|]. intros [a|]; [apply Hf|apply untouched_ret]. Qed.
Lemma untouched_fetch url : untouched (Gateway.fetch_text_cached digest url).
Proof.
  intros net c. unfold Gateway.fetch_text_cached, Gateway.write_cache_atomic, Gateway.read_file. destruct (Gateway.reach net url); [|done].
  destruct (Gateway.written net); [|done]. cbn [fst]. by rewrite lookup_insert_ne.
Qed.
Lemma untouched_json {A} (f : json -> option A) url : untouched (Gateway.fetch_json_cached digest from_str f url).
Proof. apply untouched_and_then; [apply untouched_fetch|]. intros raw. apply untouched_ret. Qed.
Lemma untouched_package server_ : untouched (Gateway.discover_package_version digest product_version server_).
Proof.
  apply untouched_bind; [apply untouched_fetch|]. intros html. destruct (html ≫= product_version) as [v|].
  - apply untouched_bind; [|intros _; apply untouched_ret]. intros net c. unfold Gateway.write_cache_atomic. destruct (Gateway.written net); [|done].
    cbn [fst]. by rewrite lookup_insert_ne.
  - apply untouched_bind; [by intros net c|]. intros o. apply untouched_ret.
Qed.
Lemma untouched_gateway server_ package : untouched (Gateway.discover_gateway digest from_str server_ package).
Proof.
  assert (Hv : untouched (Gateway.discover_gateway_via_config digest from_str server_ package)).
  { apply untouched_and_then; [apply untouched_json|]. intros version.
    apply untouched_bind; [apply untouched_and_then; [apply untouched_json|]; intros res; apply untouched_ret|]. intros resolved.
    apply untouched_and_then; [apply untouched_json|]. intros ip. destruct (Gateway.gateway_of ip); [|apply untouched_ret].
    apply untouched_and_then; [apply untouched_json|]. intros routes. apply untouched_ret. }
  apply untouched_bind; [|intros [f|]; [apply untouched_ret|done]]. destruct (String.eqb server_ "cn"); [|apply untouched_ret].
  induction Gateway.CN_ROUTE_HOSTS as [|host hosts IH]; [apply untouched_ret|]. apply untouched_bind; [apply untouched_json|].
  intros answer. destruct (answer ≫= head); [apply untouched_ret|done].
Qed.
Lemma connect_untouched e timestamp version c said c' o : connect e timestamp server version username password_ proxy worker c = (said, c', o) ->
  c' !! client_version_path = c !! client_version_path.
Proof.
  unfold Watcher.connect. intros H. destruct worker as [ask_|]; [by repeat case_match; subst; injection H as _ <- _|].
  destruct (http_client e); [|by injection H as _ <- _..].
  pose proof (untouched_package server (net e) c) as Hp. destruct (Gateway.discover_package_version _ _ _ _ _) as [c1 package].
  pose proof (untouched_gateway server (default Version.CN_PACKAGE_VERSION package) (net e) c1) as Hg. destruct (Gateway.discover_gateway _ _ _ _ _ _) as [c2 found].
  cbn [fst] in *. rewrite <- Hp, <- Hg. by repeat case_match; subst; injection H as _ <- _.
Qed.

Definition rises (a b : option Z) : Prop := exists x y, a = Some x /\ b = Some y /\ x <= y.
Definition unpinned (c : Gateway.Cache) : option Z := Version.parse_version (Version.effective_code_version (c !! client_version_path) None).
Lemma refreshed_rises login written_ version failure file a : Version.parse_version version = Some a -> a + Version.VERSION_SEARCH_SPAN < 2 ^ 32 ->
  match Version.refreshed_client_version login written_ (Some version) failure file with
  | (Some v, _) => rises (Some a) (Version.parse_version v)
  | (None, file') => file' = file
  end.
Proof.
  intros Ha Hs. unfold Version.refreshed_client_version. destruct (negb _); [done|]. cbn [Version.effective_code_version]. cbv zeta. rewrite Ha.
  destruct (Version.load_client_version file) as [shared|]; cbn.
  1: destruct (Version.newer (Version.parse_version shared) (Some a)) eqn:E.
  1: { destruct (Version.parse_version shared) as [y|]; [|done]. cbn in E. apply Z.ltb_lt in E. exists a, y. split_and!; [done|done|lia]. }
  all: unfold Version.discover_version_floor; rewrite Ha; pose proof (parse_version_range _ _ Ha) as [H0 _].
  all: pose proof (search_spec (fun v => Version.probe_version login (Version.format_version v)) a H0 Hs) as H.
  all: destruct (Version.search_version_floor _ a) as [probed [floor|err|]]; cbn; try done.
  all: destruct H as (_ & _ & H & _); destruct (H floor eq_refl) as [? _]; exists a, floor.
  all: split_and!; [done| |lia]; apply parse_format; unfold in_u32, Version.VERSION_SEARCH_SPAN in *; lia.
Qed.
Definition parsed (w : World) : Prop := forall v, pinned w = Some v -> is_Some (Version.parse_version v).
Lemma unpinned_parses c : is_Some (unpinned c).
Proof.
  unfold unpinned, Version.effective_code_version, Version.current_client_versions, Version.adopted_client_version. cbn [fst].
  destruct (Version.load_client_version _) as [v|]; cbn; [|by eexists].
  destruct (Version.newer _ _) eqn:E; cbn; [|by eexists]. destruct (Version.parse_version v); [by eexists|done].
Qed.
Lemma attempted_parses t w : parsed w -> is_Some (Version.parse_version (attempted t w)).
Proof. unfold attempted, parsed. destruct (pinned w) as [v|]; [intros H; by apply H|]. intros _. apply unpinned_parses. Qed.
Lemma turn_rises t w said w' a : parsed w -> turn t w = Some (said, w') -> Version.parse_version (attempted t w) = Some a ->
  a + Version.VERSION_SEARCH_SPAN < 2 ^ 32 -> parsed w' /\
  forall t', (forall c, rises (unpinned c) (unpinned (around t' c))) -> rises (Some a) (Version.parse_version (attempted t' w')).
Proof.
  intros Hp Ht Ha Hs.
  assert (H : (exists v, pinned w' = Some v /\ rises (Some a) (Version.parse_version v)) \/
              (pinned w' = None /\ rises (Some a) (unpinned (cache w')))).
  { unfold Watcher.turn in Ht. destruct (login_turn t w) as [[l [[p c] acc]]|] eqn:El; [|done]. cbn in Ht. injection Ht as _ <-. cbn [pinned cache].
    assert (Hsame : p = pinned w -> c !! client_version_path = around t (cache w) !! client_version_path ->
      (exists v, p = Some v /\ rises (Some a) (Version.parse_version v)) \/ (p = None /\ rises (Some a) (unpinned c))).
    { intros -> E. unfold attempted in Ha. destruct (pinned w) as [v|]; [left; exists v|right]; split; try done; [exists a, a; done|].
      unfold unpinned. rewrite E. exists a, a. done. }
    unfold Watcher.login_turn in El. destruct (connect _ _ _ _ _ _ _ _ _) as [[s c1] o] eqn:Ec. apply connect_untouched in Ec.
    destruct o as [[x|f|]|]; try done; [injection El as _ <- <- _; by apply Hsame|].
    pose proof (refreshed_rises (probes t) (written t) (attempted t w) (Collector.text f) (c1 !! client_version_path) a Ha Hs) as Hr.
    destruct (Version.refreshed_client_version _ _ _ _ _) as [[v|] file]; injection El as _ <- <- _; [left; by exists v|].
    apply Hsame; [done|]. rewrite Hr, Ec. destruct (around t (cache w) !! client_version_path) eqn:E; [by rewrite lookup_insert_eq|done]. }
  split.
  - intros v Hv. destruct H as [(v' & Hv' & x & y & _ & Hy & _)|[Hn _]]; [|congruence]. assert (v = v') as -> by congruence. by eexists.
  - intros t' Hr. unfold attempted. destruct H as [(v & -> & H)|[-> (x & y & [= <-] & Hy & Hle)]]; [done|].
    destruct (Hr (cache w')) as (y' & z & Hy' & Hz & ?). exists a, z. split_and!; [done|exact Hz|]. rewrite Hy in Hy'. injection Hy' as <-. lia.
Qed.
(** C12: From one login of a collector to the next the version it carries never goes
    back, whatever the logins end in and whatever a search finds: as long as nobody
    else takes the shared version back. *)
Theorem attempted_versions_rise ts w : parsed w -> Forall (fun t => forall c, rises (unpinned c) (unpinned (around t c))) ts ->
  Forall (fun o => forall v, o = Some v -> v + Version.VERSION_SEARCH_SPAN < 2 ^ 32) (attempts ts w) -> Sorted rises (attempts ts w).
Proof.
  revert w. induction ts as [|t ts IH]; intros w Hp Ht Hb; cbn [Watcher.attempts]; [constructor|].
  apply Forall_cons in Ht as [_ Ht]. cbn [Watcher.attempts] in Hb. apply Forall_cons in Hb as [Hb1 Hb].
  destruct (attempted_parses t w Hp) as [a Ha]. destruct (turn t w) as [[said w']|] eqn:E; [|by repeat constructor].
  destruct (turn_rises t w said w' a Hp E Ha (Hb1 a Ha)) as [Hp' Hr]. constructor; [by apply IH|]. rewrite Ha.
  destruct ts as [|t' ts]; [constructor|]. cbn [Watcher.attempts]. constructor. apply Hr. by apply Forall_cons in Ht as [? _].
Qed.
End Facts.

(** ** What is asked over a session *)
Section Asked.
Context (encode : list Z -> string) (decode : string -> list Z + string) (from_value : json -> list Collector.LiveGame + string)
  (rpc_request_of : json -> (string * string) + string).
(** An invariant of the loop over the fields of a message. *)
Lemma for_fields_keeps {S} (P : S -> Prop) (body : Proto.Field -> S -> result error S) buf s s' :
  (forall f s s', P s -> body f s = Ok s' -> P s') -> P s -> Proto.for_fields buf body s = Ok s' -> P s'.
Proof.
  intros Hb. unfold Proto.for_fields. generalize (Proto.new buf). generalize (Datatypes.S (length buf)) as fuel. intros fuel. revert s.
  induction fuel as [|fuel IH]; intros s it Hs; [done|]. cbn [Proto.for_fields_fuel]. destruct (Proto.next it) as [[[f it']|e|]|]; try done; [|by intros [= <-]].
  cbn [mbind result_bind]. destruct (body f s) as [s1|e|] eqn:E; try done. cbn [mbind result_bind]. apply IH. by eapply Hb.
Qed.
Definition named (g : Collector.LiveGame) : Prop := Collector.usable (Collector.uuid g) (Collector.mode_id g) = true.
Lemma parse_live_list_named data mode games : Collector.parse_live_list data mode = Ok games -> Forall named games.
Proof.
  unfold Collector.parse_live_list. apply for_fields_keeps; [|constructor]. intros f l l' Hl H.
  assert (Hn : (Collector.parse_live_head (Proto.data f) mode ≫= fun game => Ok (match game with Some g => l ++ [g] | None => l end)) = Ok l' -> Forall named l').
  { destruct (Collector.parse_live_head (Proto.data f) mode) as [[g|]| |] eqn:E; try done; cbn; intros [= <-]; [|done].
    apply Forall_app. split; [done|]. constructor; [|constructor]. unfold Collector.parse_live_head in E.
    destruct (Proto.for_fields _ _ _) as [[[u st] m]| |]; [|done..]. cbn in E. destruct (Collector.usable u _) eqn:Eu; [|done]. by injection E as <-. }
  destruct (Proto.number f) as [|[k|[k|k|]|]|k]; try (by injection H as <-); destruct (Proto.wire_type f) as [|[l2|[l2|l2|]|]|l2]; try (by injection H as <-).
  - by apply Hn.
  - destruct (Proto.for_fields _ _ tt); [|done..]. cbn in H. by injection H as <-.
Qed.
(** Every game a list gives the collector has a name, a mode it knows and a year,
    whether the client of this process or a module read the list. *)
Theorem listed_games_are_named t pb_worker filter_id mode games :
  fetch_live_list encode decode from_value rpc_request_of t pb_worker filter_id mode = Ok games -> Forall named games.
Proof.
  unfold fetch_live_list. destruct pb_worker as [worker|].
  - destruct (plugin_rpc_request _ _ _ _) as [[m p]| |]; try done. cbn. destruct (decoded decode p); try done. cbn.
    destruct (call _ _ _ _ _); try done. cbn. destruct (ask _ _ _) as [v| |]; try done. cbn. destruct (get "games" v); try done. cbn.
    destruct (from_value _) as [l|]; try done. cbn. intros [= <-]. apply Forall_forall. intros g Hg%list_elem_of_In. by apply List.filter_In in Hg as [_ Hg].
  - destruct (call _ _ _ _ _); try done. cbn. destruct (success _ _); try done. cbn.
    destruct (Collector.parse_live_list _ _) eqn:E; try done. intros [= <-]. by eapply parse_live_list_named.
Qed.

Lemma ask_silent worker m p f : ask worker m p = Err f -> Collector.server f = None.
Proof. unfold ask, failed. destruct (worker m p); try done. by intros [= <-]. Qed.
Lemma required_string_silent v field f : required_string v field = Err f -> Collector.server f = None.
Proof. unfold required_string, failed. destruct (_ ≫= as_str) as [s|]; [destruct (String.eqb s "")|]; try done; by intros [= <-]. Qed.
Lemma decoded_silent e f : decoded decode e = Err f -> Collector.server f = None.
Proof. unfold decoded, failed. destruct (decode e); try done. by intros [= <-]. Qed.
Lemma field_silent v field f : decode_base64_field decode v field = Err f -> Collector.server f = None.
Proof.
  unfold decode_base64_field. destruct (required_string v field) eqn:E; cbn; [apply decoded_silent| |done].
  intros [= <-]. by eapply required_string_silent.
Qed.
Lemma external_is_silent worker session_id m p f : call encode decode (External worker session_id) m p = Err f -> Collector.server f = None.
Proof.
  cbn [call]. destruct (ask _ _ _) eqn:E; cbn; [apply field_silent| |done]. intros [= <-]. by eapply ask_silent.
Qed.
(** With a module that reads the records, every failure to fetch one ends the
    session, the refusal of a single record included: what a module says carries no
    code of the server. *)
Theorem module_failures_end_the_session t worker uuid version f :
  (forall m p f, call encode decode t m p = Err f -> Collector.server f = None) ->
  fetch_game_record encode decode rpc_request_of t (Some worker) uuid version = Err f -> Collector.ends_the_session f = true.
Proof.
  intros Ht. unfold fetch_game_record, plugin_rpc_request, Collector.ends_the_session. intros H. assert (E : Collector.server f = None); [|by rewrite E].
  destruct (ask worker _ _) eqn:E1; cbn in H; [|injection H as <-; by eapply ask_silent|done].
  destruct (rpc_request_of _) as [[m p]|]; [|by injection H as <-]. cbn in H.
  destruct (decoded decode p) eqn:E2; cbn in H; [|injection H as <-; by eapply decoded_silent|done].
  destruct (call _ _ _ _ _) eqn:E3; cbn in H; [|injection H as <-; by eapply Ht|done].
  destruct (ask worker "parse_record_response" _) eqn:E4; cbn in H; [|injection H as <-; by eapply ask_silent|done]. by eapply field_silent.
Qed.
End Asked.

(** ** Collectors *)
Module WatcherToy.
(** A module whose server takes the versions from [floor] on, and otherwise says [refusal]. *)
Definition toy_module (floor : Z) (refusal : string) (method : string) (params : json) : result Service.WatchServiceError json :=
  match (p ← get "client_version" params; s ← as_str p; Version.parse_version s) with
  | Some v => if floor <=? v then Ok (JObj [("session_id", JStr "s-1"); ("client_version", JStr "WebGL_2022")]) else Err (Service.ModuleFailed refusal)
  | None => Err (Service.ModuleFailed refusal)
  end.
Definition toy_attempt : Attempt := mkAttempt (Gateway.mkNet (fun _ => None) true) (Ok tt) "no gateway" (fun _ => Ok tt) (fun _ => Ok []) (fun _ => []) (fun _ _ => Ok []).
Definition toy_turn (around : Gateway.Cache -> Gateway.Cache) (floor : Z) : Turn :=
  mkTurn 0 around [] toy_attempt None (fun v => match Version.parse_version v with Some v => if floor <=? v then None else Some "code 151" | None => Some "code 151" end) [] true.
Definition publish (v : string) (c : Gateway.Cache) : Gateway.Cache := <[client_version_path := v]> c.
Definition toy_world : World := mkWorld None ∅ WatchLog.new (Accounts.mkPool Accounts.default_document None ∅).
Definition toy_attempts (refusal : string) (ts : list Turn) : list (option Z) :=
  attempts (fun _ => None) (fun u => "digest of " +:+ u) (fun _ => None) (fun _ => None) (fun _ s => s) Datatypes.id (fun _ => "") Datatypes.id 10
    "cn" "user" "hunter2" "collector:a" None (Some (toy_module 16300 refusal)) ts toy_world.
Definition toy_run (refusal : string) (ts : list Turn) : option (list Heard * World) :=
  run (fun _ => None) (fun u => "digest of " +:+ u) (fun _ => None) (fun _ => None) (fun _ s => s) Datatypes.id (fun _ => "") Datatypes.id 10
    "cn" "user" "hunter2" "collector:a" None (Some (toy_module 16300 refusal)) ts toy_world.
Definition two_turns : list Turn := [toy_turn Datatypes.id 16300; toy_turn Datatypes.id 16300].
End WatcherToy.
Import WatcherToy.
Lemma attempted_versions_rise_witness : toy_attempts "code 151" two_turns = [Some 16257; Some 16300] /\ Sorted rises (toy_attempts "code 151" two_turns).
Proof.
  assert (E : toy_attempts "code 151" two_turns = [Some 16257; Some 16300]) by (vm_compute; reflexivity). split; [exact E|].
  apply attempted_versions_rise.
  - intros u. discriminate.
  - intros v. discriminate.
  - repeat (apply Forall_cons; split; [intros c; destruct (unpinned_parses c) as [x Hx]; exists x, x; cbn [around toy_turn]; unfold Datatypes.id; rewrite Hx; auto with zarith|]).
    apply Forall_nil. exact I.
  - change (Forall (fun o => forall v, o = Some v -> v + Version.VERSION_SEARCH_SPAN < 2 ^ 32) (toy_attempts "code 151" two_turns)). rewrite E.
    repeat (apply Forall_cons; split; [intros v [= <-]; reflexivity|]). apply Forall_nil. exact I.
Defined.
(** A search pins the collector to what it found: a floor that another session
    publishes later is not taken up before a login has failed again. *)
Example pinned_by_its_own_search :
  toy_attempts "code 151" (two_turns ++ [toy_turn (publish "0.16.400") 16300]) = [Some 16257; Some 16300; Some 16300].
Proof. vm_compute. reflexivity. Qed.
(** A module's answer is a text: the account it reports as banned is filed as
    unreachable, and what it repeats of the password goes into the account's detail,
    which is not redacted as the log is. *)
Example module_reports_a_ban :
  ('(_, w) ← toy_run "login with hunter2: server error code 503" [toy_turn Datatypes.id 16300];
   h ← Accounts.health (accounts w) !! "user"; Some (Accounts.state h, Accounts.detail h, map WatchLog.message (WatchLog.entries (log w))))
  = Some (Accounts.Unreachable, "module call failed: login with hunter2: server error code 503",
      ["开始连接雀魂服务器 (账号 us***, 代理 直连)"; "登录失败: module call failed: login with ***: server error code 503"; "等待 5 秒后重连"]).
Proof. vm_compute. reflexivity. Qed.
Lemma password_stays_out_of_the_log_witness : exists said w, toy_run "login with hunter2: server error code 151" two_turns = Some (said, w) /\
  map WatchLog.seq (WatchLog.entries (log w)) = [1; 2; 3; 4; 5; 6; 7; 8] /\
  forall e, e ∈ WatchLog.entries (log w) -> 2 <= WatchLog.seq e -> ~ infix "hunter2" (WatchLog.message e).
Proof.
  destruct (toy_run "login with hunter2: server error code 151" two_turns) as [[said w]|] eqn:E; [|exfalso; revert E; vm_compute; discriminate].
  exists said, w. split; [reflexivity|]. split; [revert E; vm_compute; intros [= _ <-]; reflexivity|]. intros e He Hseq.
  refine (password_stays_out_of_the_log _ _ _ _ _ _ _ _ _ _ _ _ _ _ _ (toy_turn Datatypes.id 16300) [toy_turn Datatypes.id 16300] toy_world said w _ _ _ E _ e He _).
  - apply WatchLog.Reach_new.
  - vm_compute. lia.
  - reflexivity.
  - assert (Hl : length said = 10%nat) by (revert E; vm_compute; intros [= <- _]; reflexivity). rewrite Hl. reflexivity.
  - exact Hseq.
Defined.
