(* ===== verification/Api.v ===== *)
(** The HTTP API ([src/src/api.rs]): its routes and the two guards in front of them,
    the users of the console, and the account pool as the console edits it. *)
From S2P Require Import Prelude Text Json F64 Auth Accounts Mihomo WatchLog Service WatchConfig.
#[local] Open Scope string_scope.
#[local] Open Scope list_scope.
#[local] Open Scope Z_scope.

Module Api.
#[local] Existing Instance Accounts.AccountPurpose_dec.

(** ** Routes

    A HEAD request is answered as the GET of the same path, without the body. *)
Inductive Method := GET | POST | PUT.
#[export] Instance Method_dec : EqDecision Method.
Proof. solve_decision. Defined.
Inductive Handler :=
| health | get_registration_status | login | register | verify_email | get_current_user | logout
| ingest | search | post_game_uuids | ingest_batch | get_record | get_raw | get_majsoul_pb | get_stats | get_series_stats | search_players
| get_player_stats | create_download | list_downloads | get_download | download_file | get_watch_status | get_watch_logs | get_watch_config
| get_watch_modules | get_module_protocol | get_watch_proxy | get_refetch_config | get_refetch_status | get_paipuya_gap | get_paipuya_config
| get_paipuya_status | get_users | create_user | update_user | get_auth_settings | put_auth_settings
| put_watch_config | post_watch_action | install_watch_module | put_watch_proxy_subscription | put_watch_proxy_selection
| post_watch_proxy_action | get_accounts | put_accounts | get_account_health | post_account_nodes | get_accounts_export
| get_account_register_status | put_refetch_config | post_refetch_action | post_paipuya_games | post_account_register
| post_account_register_stop | post_account_register_probe | put_paipuya_config | post_paipuya_action | post_paipuya_cursor_reset.
#[export] Instance Handler_dec : EqDecision Handler.
Proof. solve_decision. Defined.
Definition Table : Type := list (string * list (Method * Handler)).
Definition admin : Table :=
  [("/api/v1/watch/config", [(PUT, put_watch_config)]); ("/api/v1/watch/actions", [(POST, post_watch_action)]);
   ("/api/v1/watch/modules", [(POST, install_watch_module)]);
   ("/api/v1/watch/proxy/subscription", [(PUT, put_watch_proxy_subscription)]);
   ("/api/v1/watch/proxy/selection", [(PUT, put_watch_proxy_selection)]); ("/api/v1/watch/proxy/actions", [(POST, post_watch_proxy_action)]);
   ("/api/v1/accounts", [(GET, get_accounts); (PUT, put_accounts)]); ("/api/v1/accounts/health", [(GET, get_account_health)]);
   ("/api/v1/accounts/nodes", [(POST, post_account_nodes)]); ("/api/v1/accounts/export", [(GET, get_accounts_export)]);
   ("/api/v1/accounts/register/status", [(GET, get_account_register_status)]); ("/api/v1/refetch/config", [(PUT, put_refetch_config)]);
   ("/api/v1/refetch/actions", [(POST, post_refetch_action)]); ("/api/v1/paipuya/games", [(POST, post_paipuya_games)]);
   ("/api/v1/accounts/register", [(POST, post_account_register)]); ("/api/v1/accounts/register/stop", [(POST, post_account_register_stop)]);
   ("/api/v1/accounts/register/probe", [(POST, post_account_register_probe)]); ("/api/v1/paipuya/config", [(PUT, put_paipuya_config)]);
   ("/api/v1/paipuya/actions", [(POST, post_paipuya_action)]); ("/api/v1/paipuya/cursors/reset", [(POST, post_paipuya_cursor_reset)])].
Definition keyed : Table :=
  [("/api/v1/records", [(POST, ingest); (GET, search)]); ("/api/v1/games/uuids", [(POST, post_game_uuids)]);
   ("/api/v1/records/batch", [(POST, ingest_batch)]); ("/api/v1/records/{id}", [(GET, get_record)]);
   ("/api/v1/records/{id}/raw", [(GET, get_raw)]); ("/api/v1/records/{id}/majsoul-pb", [(GET, get_majsoul_pb)]);
   ("/api/v1/stats", [(GET, get_stats)]); ("/api/v1/stats/series", [(GET, get_series_stats)]); ("/api/v1/players", [(GET, search_players)]);
   ("/api/v1/players/stats", [(GET, get_player_stats)]); ("/api/v1/downloads", [(POST, create_download); (GET, list_downloads)]);
   ("/api/v1/downloads/{id}", [(GET, get_download)]); ("/api/v1/downloads/{id}/file", [(GET, download_file)]);
   ("/api/v1/watch/status", [(GET, get_watch_status)]); ("/api/v1/watch/logs", [(GET, get_watch_logs)]);
   ("/api/v1/watch/config", [(GET, get_watch_config)]); ("/api/v1/watch/modules", [(GET, get_watch_modules)]);
   ("/api/v1/watch/modules/protocol", [(GET, get_module_protocol)]); ("/api/v1/watch/proxy", [(GET, get_watch_proxy)]);
   ("/api/v1/refetch/config", [(GET, get_refetch_config)]); ("/api/v1/refetch/status", [(GET, get_refetch_status)]);
   ("/api/v1/paipuya/gap", [(GET, get_paipuya_gap)]); ("/api/v1/paipuya/config", [(GET, get_paipuya_config)]);
   ("/api/v1/paipuya/status", [(GET, get_paipuya_status)])].
Definition console : Table :=
  [("/api/v1/users", [(GET, get_users); (POST, create_user)]); ("/api/v1/users/{id}", [(PUT, update_user)]);
   ("/api/v1/auth/settings", [(GET, get_auth_settings); (PUT, put_auth_settings)])].
Definition public : Table :=
  [("/healthz", [(GET, health)]); ("/api/v1/auth/status", [(GET, get_registration_status)]); ("/api/v1/auth/login", [(POST, login)]);
   ("/api/v1/auth/register", [(POST, register)]); ("/api/v1/auth/verify-email", [(POST, verify_email)]);
   ("/api/v1/auth/me", [(GET, get_current_user)]); ("/api/v1/auth/logout", [(POST, logout)])].
(** The layers a route was given: the admin table has its own inside the one of all
    protected routes. *)
Inductive Layer := RequireAuth | RequireAdminSession.
#[export] Instance Layer_dec : EqDecision Layer.
Proof. solve_decision. Defined.
Definition route_layer (layers : list Layer) (t : Table) : list (string * Method * Handler * list Layer) :=
  t ≫= fun '(path, handlers) => map (fun '(m, h) => (path, m, h, layers)) handlers.
Definition router : list (string * Method * Handler * list Layer) :=
  route_layer [] public ++ route_layer [RequireAuth] keyed ++ route_layer [RequireAuth; RequireAdminSession] admin ++ route_layer [RequireAuth] console.
(** A pattern matches a path segment by segment; [{id}] stands for one that is not
    empty. *)
Fixpoint match_segments (pattern path : list string) : option (list string) :=
  match pattern, path with
  | [], [] => Some []
  | p :: pattern, s :: path =>
    if String.eqb p "{id}" then if String.eqb s "" then None else cons s <$> match_segments pattern path
    else if String.eqb p s then match_segments pattern path else None
  | _, _ => None
  end.
Definition matches (pattern path : string) : option (list string) := match_segments (split_on "/"%char pattern) (split_on "/"%char path).
(** The pattern of a path: one without a parameter goes before one that has some. *)
Definition pattern_of (path : string) : option (string * list string) :=
  let patterns := map (fun '(p, _, _, _) => p) router in
  match List.find (fun p => String.eqb p path) patterns with
  | Some p => Some (p, [])
  | None => head (omap (fun p => (fun ids => (p, ids)) <$> matches p path) patterns)
  end.
Inductive Routed := NoRoute | NoMethod | To (h : Handler) (layers : list Layer) (ids : list string).
Definition routed (m : Method) (path : string) : Routed :=
  match pattern_of path with
  | None => NoRoute
  | Some (p, ids) =>
    match List.find (fun '(p', m', _, _) => String.eqb p' p && bool_decide (m' = m)) router with
    | Some (_, _, h, layers) => To h layers ids
    | None => NoMethod
    end
  end.

(** ** Errors *)
Inductive ApiError :=
| Unauthorized | BadRequest (message : string) | PayloadTooLarge (limit : Z) | NotFound | Forbidden (message : string)
| Conflict (message : string) | PreconditionFailed (message : string) | Internal (message : string).
Definition status_code (e : ApiError) : Z :=
  match e with
  | Unauthorized => 401 | BadRequest _ => 400 | PayloadTooLarge _ => 413 | NotFound => 404 | Forbidden _ => 403
  | Conflict _ => 409 | PreconditionFailed _ => 412 | Internal _ => 500
  end.
Definition error_text (e : ApiError) : string :=
  match e with
  | Unauthorized => "unauthorized" | NotFound => "not found" | PayloadTooLarge n => "payload exceeds " +:+ pretty n +:+ " bytes"
  | BadRequest m | Forbidden m | Conflict m | PreconditionFailed m | Internal m => m
  end.
Definition of_watch_service (e : Service.WatchServiceError) : ApiError :=
  let text := Service.to_string e in
  match e with
  | Service.InvalidConfig _ | Service.InvalidModule _ | Service.ModuleNotInstalled _ _ => BadRequest text
  | Service.ModuleFailed _ => Conflict text
  | Service.RevisionConflict _ _ => PreconditionFailed text
  | Service.Io _ | Service.Json _ => Internal text
  end.
(** The pool gives errors of that type. *)
Definition of_pool (e : Accounts.PoolError) : ApiError :=
  of_watch_service (match e with
    | Accounts.InvalidConfig m => Service.InvalidConfig m
    | Accounts.RevisionConflict submitted current => Service.RevisionConflict submitted current
    | Accounts.Io => Service.Io "write"
    end).
Definition of_mihomo (text : Mihomo.MihomoError -> string) (e : Mihomo.MihomoError) : ApiError :=
  match e with
  | Mihomo.InvalidConfig _ => BadRequest (text e)
  | Mihomo.Controller _ => Conflict (text e)
  | Mihomo.Io | Mihomo.JsonError | Mihomo.Http => Internal (text e)
  end.
Definition of_auth (text : Auth.AuthError -> string) (e : Auth.AuthError) : ApiError :=
  match e with
  | Auth.InvalidCredentials => Unauthorized
  | Auth.Forbidden | Auth.EmailNotVerified | Auth.DisabledAccount | Auth.RegistrationDisabled => Forbidden (text e)
  | Auth.NotFound => NotFound
  | Auth.EmailExists => Conflict (text e)
  | Auth.EmailUnavailable | Auth.InvalidVerification | Auth.InvalidInput _ => BadRequest (text e)
  | Auth.Io | Auth.Email => Internal (text e)
  end.

(** ** Requests *)
Inductive MihomoAction := RefreshSubscription | HealthCheck | RemoveSubscription (id : string).
(** A body, or a query, as its reader gives it; those of the other handlers are theirs. *)
Inductive Payload :=
| NoBody | LoginRequest (email password : string) | RegisterRequest (name email password : string) | VerifyEmailRequest (token : string)
| CreateUserRequest (name email password : string) (role : Auth.UserRole)
| UpdateUserRequest (name : option string) (role : option Auth.UserRole) (status : option Auth.UserStatus)
| AuthSettings (registration_enabled : bool) | Document (d : Accounts.AccountDocument) | WatchLogQuery (after limit : option Z)
| SubscriptionUpdate (u : Mihomo.SubscriptionUpdate) | ProxySelection (name : string) | MihomoActionRequest (action : MihomoAction) | Other (body : string).
Record Request := mkRequest { method : Method; path : string; headers : list (string * string); body : Payload }.
(** [HeaderMap::get] and [HeaderValue::to_str]. *)
Definition header (name : string) (r : Request) : option string := snd <$> List.find (fun p => String.eqb p.1 name) (headers r).
Definition to_str (value : string) : option string :=
  if forallb (fun b => (b =? 9) || ((32 <=? b) && (b <? 127))) (bytes_of_string value) then Some value else None.
Definition USER_SESSION_HEADER : string := "x-mjai-user-session".
Definition session_of (r : Request) : option string :=
  v ← header USER_SESSION_HEADER r; v ← to_str v; if String.eqb v "" then None else Some v.
Definition user_session (r : Request) : result ApiError string := match session_of r with Some s => Ok s | None => Err Unauthorized end.

(** What the process holds; [rest] is what the other handlers read and change. *)
Record Server (R : Type) := mkServer {
  auth : Auth.AuthStore; accounts : Accounts.AccountPool; log : WatchLog.WatchLogBuffer; mihomo : Mihomo.Manager;
  watch : WatchConfig.WatchServiceConfig; rest : R
}.
Arguments mkServer {R}.
Arguments auth {R}.
Arguments accounts {R}.
Arguments log {R}.
Arguments mihomo {R}.
Arguments watch {R}.
Arguments rest {R}.
Definition set_auth {R} (a : Auth.AuthStore) (s : Server R) : Server R := mkServer a (accounts s) (log s) (mihomo s) (watch s) (rest s).
Definition set_mihomo {R} (m : Mihomo.Manager) (s : Server R) : Server R := mkServer (auth s) (accounts s) (log s) m (watch s) (rest s).
Definition set_accounts {R} (pool : Accounts.AccountPool) (s : Server R) : Server R := mkServer (auth s) pool (log s) (mihomo s) (watch s) (rest s).
(** What a request meets: the clock, fresh identifiers, a token and a salt; whether
    the files are written and the mail is delivered; and what the proxy core answers: to
    the requests of a status, to a selection, to one for each provider; and the draws
    for the name of a subscription. *)
Record Fate := mkFate {
  now : Z; uuid : Auth.Uuid; token : string; salt : list Z; fresh : nat -> string; written : bool; delivered : bool;
  writes : Mihomo.Writes; core : Mihomo.Answers; selected : result Mihomo.MihomoError unit; provider : string -> result Mihomo.MihomoError unit;
  draws : list string; persisted : reply
}.
Inductive Reply :=
| Empty | Json (body : json) | Text (body : string) | User (u : Auth.UserView) | Users (l : list Auth.UserView) | LoggedIn (token : string) (expires : Z) (u : Auth.UserView)
| Registration (status : bool * bool) | Published (d : Accounts.AccountDocument) | Health (h : gmap string Accounts.AccountHealth)
| Spread (accounts nodes usable : Z)
| WatchLogPage (items : list WatchLog.WatchLogEntry) (next_cursor : option Z) | Config (c : WatchConfig.WatchServiceConfig) | Proxies (status : Mihomo.MihomoStatus) | Others (body : string).
(** An answer of a handler, an error, what the framework answers by itself when there
    is no such route or the body cannot be read, or a panic. *)
Inductive Response := Answer (status : Z) (reply : Reply) | Refused (e : ApiError) | Framework | Panicked.
Definition answered {A} (status : Z) (reply : A -> Reply) (r : result ApiError A) : Response :=
  match r with Ok a => Answer status (reply a) | Err e => Refused e | Panic => Panicked end.

Section Serve.
Context {R : Type}.
(** The digests and codecs of the users, the text of their errors, the reader of an
    identifier, the lower case, the files and the environment the references of a
    collector are read from, the parser of URLs, the text of the proxy configuration, and the handlers
    that are not of this file: what they read, and how they change the rest. *)
Variable hmac : list Z -> list Z -> list Z.
Variable sha256_hex : list Z -> string.
Variable hex_encode : list Z -> string.
Variable hex_decode : string -> option (list Z).
Variable auth_text : Auth.AuthError -> string.
Variable parse_uuid : string -> option Auth.Uuid.
Variable to_lowercase : string -> string.
Variable read_file : string -> option string.
Variable env_var : string -> option string.
Variable urls : WatchConfig.UrlOps.
Variable to_string : json -> string.
Variable parse_url : string -> result string Mihomo.Url.
Variable set_port : string -> Z -> option string.
Variable mihomo_text : Mihomo.MihomoError -> string.
Variable controller_secret proxy_url : string.
(** [MJAI_MAX_NODE_MULTIPLIER], as [ceiling] takes it. *)
Variable max_multiplier : F64.f64.
Variable api_key : string.
Variable answers : Handler -> list string -> Request -> Server R -> Response.
Variable performs : Handler -> list string -> Request -> Server R -> Server R * Response.

(** ** The guards *)
Definition authorized (r : Request) : bool :=
  match (v ← header "authorization" r; to_str v) with Some provided => String.eqb provided ("Bearer " +:+ api_key) | None => false end.
Definition lift_auth {A} (r : result Auth.AuthError A) : result ApiError A :=
  match r with Ok a => Ok a | Err e => Err (of_auth auth_text e) | Panic => Panic end.
Definition require_admin_session (f : Fate) (r : Request) (s : Server R) : result ApiError Auth.UserView :=
  match session_of r with
  | Some session => lift_auth (Auth.require_admin sha256_hex (now f) session (auth s))
  | None => Err Unauthorized
  end.
(** What stops a request, if anything does: the outermost layer is asked first. *)
Fixpoint stopped (f : Fate) (r : Request) (layers : list Layer) (s : Server R) : option Response :=
  match layers with
  | [] => None
  | RequireAuth :: layers => if authorized r then stopped f r layers s else Some (Refused Unauthorized)
  | RequireAdminSession :: layers =>
    match require_admin_session f r s with Ok _ => stopped f r layers s | Err e => Some (Refused e) | Panic => Some Panicked end
  end.

(** ** The account pool *)
Definition still_collecting_message (name : string) : string :=
  "账号 " +:+ name +:+ " 正被采集实例使用，不能在这里停用或改用途；先去 Watch 设置把那个实例指向别的账号或停掉它".
Definition taken_message (name : string) : string := "有采集实例正指向账号 " +:+ name +:+ "，不能删除；先改那个实例的账号引用".
(** After a save: the passwords are registered, and the nodes handed to mihomo, whose
    runtime configuration is applied by a task of its own. *)
Definition after_save (f : Fate) (s : Server R) : Server R :=
  let log := fold_left (fun log password => WatchLog.register_secret password log) (Accounts.secrets (accounts s)) (log s) in
  let '(mihomo, _) := Mihomo.set_outbound_nodes to_string controller_secret (writes f) (Accounts.refetch_nodes (accounts s)) (mihomo s) in
  mkServer (auth s) (accounts s) log mihomo (watch s) (rest s).
Definition do_put_accounts (f : Fate) (document : Accounts.AccountDocument) (s : Server R) : Server R * Response :=
  let in_use := WatchConfig.referenced_accounts read_file env_var to_lowercase (accounts s) (watch s) in
  match List.find (fun a => bool_decide (to_lowercase (Accounts.username a) ∈ in_use)
                    && (negb (Accounts.enabled a) || negb (bool_decide (Accounts.purpose a = Accounts.Watch)))) (Accounts.accounts document) with
  | Some account => (s, Refused (of_watch_service (Service.InvalidConfig (still_collecting_message (Accounts.username account)))))
  | None =>
    match Accounts.taken_from_a_collector to_lowercase document in_use (accounts s) with
    | Some name => (s, Refused (of_watch_service (Service.InvalidConfig (taken_message name))))
    | None =>
      match Accounts.update to_lowercase (now f) (fresh f) (written f) document (accounts s) with
      | (pool, Ok saved) => (after_save f (set_accounts pool s), Answer 200 (Published saved))
      | (pool, Err e) => (set_accounts pool s, Refused (of_pool e))
      | (pool, Panic) => (set_accounts pool s, Panicked)
      end
    end
  end.
(** The answer of an operation of the proxies. *)
Definition on_mihomo (s : Server R) (o : Mihomo.Manager * result Mihomo.MihomoError Mihomo.MihomoStatus)
  (next : Mihomo.MihomoStatus -> Server R -> Server R * Response) : Server R * Response :=
  let s := set_mihomo (fst o) s in
  match snd o with
  | Ok status => next status s
  | Err e => (s, Refused (of_mihomo mihomo_text e))
  | Panic => (s, Panicked)
  end.
Definition mihomo_status (f : Fate) : Mihomo.Manager -> Mihomo.Manager * result Mihomo.MihomoError Mihomo.MihomoStatus :=
  Mihomo.status parse_url set_port proxy_url (core f).
Definition mihomo_action (f : Fate) (action : MihomoAction) (m : Mihomo.Manager) : Mihomo.Manager * result Mihomo.MihomoError Mihomo.MihomoStatus :=
  match action with
  | RefreshSubscription | HealthCheck =>
    match Mihomo.for_each_provider (provider f) m with Ok _ => mihomo_status f m | Err e => (m, Err e) | Panic => (m, Panic) end
  | RemoveSubscription id =>
    Mihomo.remove_subscription to_string parse_url set_port controller_secret proxy_url id (persisted f) (Mihomo.config_ok (writes f)) (core f) m
  end.
Definition do_account_nodes (f : Fate) (s : Server R) : Server R * Response :=
  on_mihomo s (mihomo_status f (mihomo s)) (fun status s =>
  let usable := Mihomo.usable_nodes max_multiplier (Mihomo.all_nodes status) in
  let nodes := take (Z.to_nat Mihomo.MAX_OUTBOUNDS) usable in
  match Accounts.spread_over to_lowercase (now f) (fresh f) (written f) (Accounts.document (accounts s)) nodes (accounts s) with
  | (pool, Ok given) => (after_save f (set_accounts pool s), Answer 200 (Spread given (zlen nodes) (zlen usable)))
  | (pool, Err e) => (set_accounts pool s, Refused (of_pool e))
  | (pool, Panic) => (set_accounts pool s, Panicked)
  end).

(** ** The handlers *)
Definition reads (h : Handler) : bool :=
  match h with
  | search | get_record | get_raw | get_majsoul_pb | get_stats | get_series_stats | search_players | get_player_stats | list_downloads
  | get_download | download_file | get_watch_status | get_watch_modules | get_module_protocol
  | get_refetch_config | get_refetch_status | get_paipuya_gap | get_paipuya_config | get_paipuya_status | get_account_register_status => true
  | _ => false
  end.
(** A change of the users and the answer to it. *)
Definition on_users {A} (status : Z) (reply : A -> Reply) (s : Server R) (o : Auth.AuthStore * result Auth.AuthError A) : Server R * Response :=
  (set_auth (fst o) s, answered status reply (lift_auth (snd o))).
(** With the session a handler asks for itself. *)
Definition with_session (r : Request) (s : Server R) (f : string -> Server R * Response) : Server R * Response :=
  match user_session r with Ok session => f session | Err e => (s, Refused e) | Panic => (s, Panicked) end.
Definition do_register (f : Fate) (name email password : string) (a : Auth.AuthStore) : Auth.AuthStore * result Auth.AuthError () :=
  match Auth.register_begin hmac sha256_hex hex_encode (now f) (written f) (uuid f) (token f) (salt f) name email password a with
  | (a, Ok user) => Auth.register_end (written f) (delivered f) user a
  | (a, Err e) => (a, Err e)
  | (a, Panic) => (a, Panic)
  end.
Definition handle (h : Handler) (ids : list string) (f : Fate) (r : Request) (s : Server R) : Server R * Response :=
  match h with
  | health => (s, Answer 200 (Json (JObj [("status", JStr "ok")])))
  | get_registration_status => (s, Answer 200 (Registration (Auth.registration_status (auth s))))
  | login =>
    match body r with
    | LoginRequest email password =>
      on_users 200 (fun '(token, expires, user) => LoggedIn token expires user) s
        (Auth.login hmac sha256_hex hex_decode (now f) (written f) (token f) email password (auth s))
    | _ => (s, Framework)
    end
  | register =>
    match body r with
    | RegisterRequest name email password => on_users 202 (fun _ => Empty) s (do_register f name email password (auth s))
    | _ => (s, Framework)
    end
  | verify_email =>
    match body r with
    | VerifyEmailRequest token => on_users 204 (fun _ => Empty) s (Auth.verify_email sha256_hex (now f) (written f) token (auth s))
    | _ => (s, Framework)
    end
  | get_current_user => with_session r s (fun session => (s, answered 200 User (lift_auth (Auth.user_for_session sha256_hex (now f) session (auth s)))))
  | logout => with_session r s (fun session => (set_auth (Auth.logout sha256_hex session (auth s)) s, Answer 204 Empty))
  | get_users => with_session r s (fun session => (s, answered 200 Users (lift_auth (Auth.list_users sha256_hex (now f) session (auth s)))))
  | create_user =>
    match body r with
    | CreateUserRequest name email password role => with_session r s (fun session =>
        on_users 201 User s (Auth.create_user hmac sha256_hex hex_encode (now f) (written f) (uuid f) (salt f) session name email password role (auth s)))
    | _ => (s, Framework)
    end
  | update_user =>
    match ids ≫= (fun id => option_list (parse_uuid id)), body r with
    | [id], UpdateUserRequest name role status => with_session r s (fun session =>
        on_users 200 User s (Auth.update_user sha256_hex (now f) (written f) session id name role status (auth s)))
    | _, _ => (s, Framework)
    end
  | get_auth_settings => with_session r s (fun session =>
      (s, answered 200 (fun _ => Registration (Auth.registration_status (auth s))) (lift_auth (Auth.require_admin sha256_hex (now f) session (auth s)))))
  | put_auth_settings =>
    match body r with
    | AuthSettings enabled => with_session r s (fun session =>
        on_users 200 Registration s (Auth.update_settings sha256_hex (now f) (written f) session enabled (auth s)))
    | _ => (s, Framework)
    end
  | get_watch_logs =>
    match body r with
    | WatchLogQuery after limit =>
      let limit := default 200 limit in
      if negb (between 1 limit 1000) then (s, Refused (BadRequest "limit must be between 1 and 1000"))
      else
        let items := WatchLog.entries_after (default 0 after) (Z.to_nat limit) (log s) in
        (s, Answer 200 (WatchLogPage items (WatchLog.seq <$> last items)))
    | _ => (s, Framework)
    end
  | get_watch_config => (s, Answer 200 (Config (WatchConfig.published_config urls (watch s))))
  | get_watch_proxy => on_mihomo s (mihomo_status f (mihomo s)) (fun status s => (s, Answer 200 (Proxies status)))
  | put_watch_proxy_subscription =>
    match body r with
    | SubscriptionUpdate update =>
      on_mihomo s (Mihomo.update_subscription to_string parse_url set_port controller_secret proxy_url (draws f) (persisted f)
        (Mihomo.config_ok (writes f)) (core f) update (mihomo s)) (fun status s => (s, Answer 200 (Proxies status)))
    | _ => (s, Framework)
    end
  | put_watch_proxy_selection =>
    match body r with
    | ProxySelection name => on_mihomo s (Mihomo.select parse_url set_port proxy_url name (selected f) (core f) (mihomo s)) (fun status s => (s, Answer 200 (Proxies status)))
    | _ => (s, Framework)
    end
  | post_watch_proxy_action =>
    match body r with
    | MihomoActionRequest action => on_mihomo s (mihomo_action f action (mihomo s)) (fun status s => (s, Answer 200 (Proxies status)))
    | _ => (s, Framework)
    end
  | get_accounts => (s, Answer 200 (Published (Accounts.published (Accounts.document (accounts s)))))
  | get_account_health => (s, Answer 200 (Health (Accounts.health (accounts s))))
  | get_accounts_export => (s, Answer 200 (Text (Accounts.export_refetch (accounts s))))
  | put_accounts => match body r with Document document => do_put_accounts f document s | _ => (s, Framework) end
  | post_account_nodes => do_account_nodes f s
  | _ =>
    if reads h then (s, answers h ids r s)
    else performs h ids r s
  end.
Definition serve (f : Fate) (r : Request) (s : Server R) : Server R * Response :=
  match routed (method r) (path r) with
  | NoRoute | NoMethod => (s, Framework)
  | To h layers ids => match stopped f r layers s with Some response => (s, response) | None => handle h ids f r s end
  end.
End Serve.
End Api.

Import Api.
#[local] Existing Instance Accounts.AccountPurpose_dec.

(** ** Secrets of the log *)
Lemma later_trans log1 log2 log3 : WatchLog.later log1 log2 -> WatchLog.later log2 log3 -> WatchLog.later log1 log3.
Proof. intros H. induction 1; [done|by eapply WatchLog.Later_step]. Qed.
Lemma registering l log : let log' := fold_left (fun log password => WatchLog.register_secret password log) l log in
  WatchLog.later log log' /\ (WatchLog.reachable log -> WatchLog.reachable log') /\ WatchLog.next_seq log' = WatchLog.next_seq log.
Proof.
  revert log. induction l as [|p l IH]; intros log; cbn [fold_left]; [split_and!; [constructor|done|done]|].
  destruct (IH (WatchLog.register_secret p log)) as (H1 & H2 & H3).
  split_and!.
  - eapply later_trans; [|exact H1]. eapply WatchLog.Later_step; [constructor|constructor].
  - intros H. apply H2. eapply WatchLog.Reach_step; [exact H|constructor].
  - rewrite H3. unfold WatchLog.register_secret. destruct (Nat.ltb _ _); [done|]. by case_bool_decide.
Qed.
Lemma registered_on_the_way p l log : p ∈ l -> exists log1, WatchLog.later log log1 /\ (WatchLog.reachable log -> WatchLog.reachable log1) /\
  WatchLog.next_seq log1 = WatchLog.next_seq log /\
  WatchLog.later (WatchLog.register_secret p log1) (fold_left (fun log password => WatchLog.register_secret password log) l log).
Proof.
  intros (l1 & l2 & ->)%list_elem_of_split. rewrite fold_left_app. cbn [fold_left].
  exists (fold_left (fun log password => WatchLog.register_secret password log) l1 log).
  destruct (registering l1 log) as (H1 & H2 & H3). split_and!; [done..|]. apply registering.
Qed.

Section Facts.
Context {R : Type} (hmac : list Z -> list Z -> list Z) (sha256_hex : list Z -> string) (hex_encode : list Z -> string)
  (hex_decode : string -> option (list Z)) (auth_text : Auth.AuthError -> string) (parse_uuid : string -> option Auth.Uuid)
  (to_lowercase : string -> string) (read_file env_var : string -> option string) (urls : WatchConfig.UrlOps) (to_string : json -> string) (parse_url : string -> result string Mihomo.Url)
  (set_port : string -> Z -> option string) (mihomo_text : Mihomo.MihomoError -> string) (controller_secret proxy_url : string)
  (max_multiplier : F64.f64) (api_key : string) (answers : Handler -> list string -> Request -> Server R -> Response)
  (performs : Handler -> list string -> Request -> Server R -> Server R * Response).
Abbreviation serve := (serve hmac sha256_hex hex_encode hex_decode auth_text parse_uuid to_lowercase read_file env_var urls to_string
  parse_url set_port mihomo_text controller_secret proxy_url max_multiplier api_key answers performs).
Abbreviation handle := (handle hmac sha256_hex hex_encode hex_decode auth_text parse_uuid to_lowercase read_file env_var urls to_string
  parse_url set_port mihomo_text controller_secret proxy_url max_multiplier answers performs).
Abbreviation require_admin_session := (require_admin_session sha256_hex auth_text).
Abbreviation do_put_accounts := (do_put_accounts to_lowercase read_file env_var to_string controller_secret).

(** ** The guards *)
Definition decides (h : Handler) : bool := bool_decide (h ∈ map snd ((admin ++ console) ≫= snd)).
Definition asks_itself (h : Handler) : bool := bool_decide (h ∈ map snd (console ≫= snd)).
Lemma routed_in_router m p h layers ids : routed m p = To h layers ids -> exists q, (q, m, h, layers) ∈ router.
Proof.
  unfold routed. destruct (pattern_of p) as [[q l]|]; [|done]. destruct (List.find _ router) as [[[[q' m'] h'] l']|] eqn:E; [|done].
  intros [= -> -> ->]. apply find_some in E as [E [_ ->%bool_decide_eq_true]%andb_true_iff]. exists q'. by apply list_elem_of_In.
Qed.
Lemma deciding_layers m p h layers ids : routed m p = To h layers ids -> decides h = true ->
  layers = if asks_itself h then [RequireAuth] else [RequireAuth; RequireAdminSession].
Proof.
  intros (q & Hin)%routed_in_router Hd.
  assert (H : forallb (fun '(_, _, h, layers) => negb (decides h)
    || bool_decide (layers = if asks_itself h then [RequireAuth] else [RequireAuth; RequireAdminSession])) router = true) by (vm_compute; reflexivity).
  rewrite forallb_forall in H. apply list_elem_of_In in Hin. specialize (H _ Hin). cbn beta iota in H. rewrite Hd in H.
  by apply bool_decide_eq_true in H.
Qed.
(** What a request without the session of an administrator is refused with. *)
Definition turned_away (o : Response) : Prop := exists e, o = Refused e /\ (status_code e = 401 \/ status_code e = 403).
Lemma require_admin_error now token a :
  match Auth.require_admin sha256_hex now token a with
  | Ok _ => True | Panic => False
  | Err e => status_code (of_auth auth_text e) = 401 \/ status_code (of_auth auth_text e) = 403
  end.
Proof.
  unfold Auth.require_admin, Auth.user_for_session. destruct (_ !! _) as [session|]; [|by left].
  destruct (_ <=? _); [by left|]. destruct (List.find _ _) as [u|]; [|by left].
  case_bool_decide; [|by right]. cbn [mbind result_bind]. case_bool_decide; [done|by right].
Qed.
Lemma guard_turns_away f r (s : Server R) : (forall v, require_admin_session f r s <> Ok v) ->
  exists e, require_admin_session f r s = Err e /\ (status_code e = 401 \/ status_code e = 403).
Proof.
  unfold Api.require_admin_session. destruct (session_of r) as [t|]; [|eexists; split; [done|by left]].
  pose proof (require_admin_error (now f) t (auth s)) as H. destruct (Auth.require_admin _ _ _ _) as [v|e|]; [|by eexists|done].
  intros Hv. by destruct (Hv v).
Qed.
(** A handler that asks for the session of an administrator itself. *)
Lemma handler_turns_away h ids f r s : asks_itself h = true -> (forall v, require_admin_session f r s <> Ok v) ->
  fst (handle h ids f r s) = s /\ (turned_away (snd (handle h ids f r s)) \/ snd (handle h ids f r s) = Framework).
Proof.
  intros Hh (e & Hr & He)%guard_turns_away. unfold Api.require_admin_session in Hr.
  assert (Hw : forall k, (forall t, session_of r = Some t -> fst (k t) = s /\ (turned_away (snd (k t)) \/ snd (k t) = Framework)) ->
    fst (with_session r s k) = s /\ (turned_away (snd (with_session r s k)) \/ snd (with_session r s k) = Framework)).
  { intros k Hk. unfold with_session, user_session. destruct (session_of r) as [t|]; [by apply Hk|].
    split; [done|left]. eexists; split; [done|by left]. }
  assert (Hsame : set_auth (auth s) s = s) by (by destruct s).
  assert (Ht : forall t, session_of r = Some t -> exists e', Auth.require_admin sha256_hex (now f) t (auth s) = Err e' /\ of_auth auth_text e' = e).
  { intros t Et. rewrite Et in Hr. destruct (Auth.require_admin _ _ _ _) as [v|e'|]; try done. exists e'. split; [done|]. by injection Hr. }
  destruct h; try discriminate Hh; cbn [handle Api.handle].
  all: repeat match goal with |- context [match body ?q with _ => _ end] => destruct (body q) | |- context [match ?l with [] => _ | _ :: _ => _ end] => destruct l end;
    try (split; [done|by right]).
  all: apply Hw; intros t (e' & Ee & <-)%Ht.
  all: unfold on_users, Auth.list_users, Auth.create_user, Auth.update_user, Auth.update_settings; rewrite Ee; cbn -[Auth.require_admin].
  all: split; [done|left]; by eexists.
Qed.
(** The request of an administrator: its session header is the token of a session
    that has not expired, of a user who is active and an administrator. *)
Definition administrator (f : Fate) (r : Request) (s : Server R) : Prop :=
  exists token session u, header "x-mjai-user-session" r = Some token /\ to_str token = Some token /\ token <> "" /\
    Auth.sessions (auth s) !! sha256_hex (bytes_of_string token) = Some session /\ now f < Auth.session_expires session /\
    u ∈ Auth.users (Auth.state (auth s)) /\ Auth.id u = Auth.session_user session /\
    Auth.status u = Auth.Active /\ Auth.role u = Auth.Admin.
(** A request with the key of the API. *)
Definition has_key (r : Request) : Prop :=
  header "authorization" r = Some ("Bearer " +:+ api_key) /\ to_str ("Bearer " +:+ api_key) = Some ("Bearer " +:+ api_key).
Lemma to_str_same v w : to_str v = Some w -> w = v.
Proof. unfold to_str. destruct (forallb _ _); [|done]. by intros [= <-]. Qed.
Lemma authorized_spec r : authorized api_key r = true <-> has_key r.
Proof.
  unfold authorized, has_key. destruct (header "authorization" r) as [v|]; cbn [mbind option_bind]; [|naive_solver].
  destruct (to_str v) as [w|] eqn:E; [|naive_solver]. pose proof (to_str_same _ _ E) as ->. rewrite String.eqb_eq. naive_solver.
Qed.
Lemma admin_session_spec f r s : NoDup (map Auth.id (Auth.users (Auth.state (auth s)))) ->
  (exists v, require_admin_session f r s = Ok v) <-> administrator f r s.
Proof.
  intros Hn. unfold Api.require_admin_session, session_of, administrator, Auth.require_admin, Auth.user_for_session, USER_SESSION_HEADER.
  destruct (header _ r) as [t|]; cbn [mbind option_bind]; [|split; [by intros [v Hv]|naive_solver]].
  destruct (to_str t) as [w|] eqn:Ew; cbn [mbind option_bind]; [|split; [by intros [v Hv]|naive_solver]]. pose proof (to_str_same _ _ Ew) as ->.
  destruct (String.eqb_spec t "") as [->|Ht]; [split; [by intros [v Hv]|naive_solver]|]. unfold Auth.hash_token.
  destruct (Auth.sessions _ !! _) as [ss|] eqn:Es; [|split; [by intros [v Hv]|naive_solver]].
  destruct (Z.leb_spec (Auth.session_expires ss) (now f)) as [Hx|Hx]; [split; [by intros [v Hv]|naive_solver lia]|].
  destruct (List.find _ _) as [u|] eqn:Eu.
  - apply find_some in Eu as [Hin Hid%bool_decide_eq_true]. apply list_elem_of_In in Hin.
    assert (Hu : forall u', u' ∈ Auth.users (Auth.state (auth s)) -> Auth.id u' = Auth.session_user ss -> u' = u).
    { intros u' Hin' Hid'. apply (Auth.NoDup_map_eq Auth.id _ _ _ Hn Hin' Hin). congruence. }
    split.
    + intros [v Hv]. exists t, ss, u. case_bool_decide as Ha; [|done]. cbn [mbind result_bind] in Hv. case_bool_decide as Hr; [|done]. done.
    + intros (t' & ss' & u' & [= <-] & _ & _ & Hss & _ & Hin' & Hid' & Ha & Hr). rewrite Es in Hss. injection Hss as <-. pose proof (Hu u' Hin' Hid') as ->.
      rewrite bool_decide_eq_true_2 by done. cbn [mbind result_bind]. rewrite bool_decide_eq_true_2 by done. by eexists.
  - split; [by intros [v Hv]|]. intros (t' & ss' & u' & [= <-] & _ & _ & Hss & _ & Hin' & Hid' & _). rewrite Es in Hss. injection Hss as <-.
    apply list_elem_of_In in Hin'. pose proof (find_none _ _ Eu _ Hin') as H. cbn beta in H. by apply bool_decide_eq_false in H.
Qed.
(** C9: What this deployment does is decided by administrators. A request routed to any
    handler of the admin table of [router], or to one of the pages of the users and the
    settings of the console, reaches it only with the key of the API and with the
    session, not yet expired, of a user who is active and an administrator. Without
    either, the server is left exactly as it was and the request is answered 401 or
    403; a handler of the users, which asks for the session after its body was read,
    may be left with the answer of the framework to a body or a path it cannot read.
    With both, it is served by its handler. (No two users have the same identifier.) *)
Theorem only_administrators_decide f r s h layers ids :
  NoDup (map Auth.id (Auth.users (Auth.state (auth s)))) ->
  routed (method r) (path r) = To h layers ids -> decides h = true ->
  (~ administrator f r s \/ ~ has_key r ->
     fst (serve f r s) = s /\
     (turned_away (snd (serve f r s)) \/ asks_itself h = true /\ snd (serve f r s) = Framework)) /\
  (administrator f r s -> has_key r -> serve f r s = handle h ids f r s).
Proof.
  intros Hn Hr Hd. pose proof (admin_session_spec f r s Hn) as Hadm. unfold Api.serve. rewrite Hr.
  pose proof (deciding_layers _ _ _ _ _ Hr Hd) as ->. split.
  - rewrite <- authorized_spec, <- Hadm. intros Ho. destruct (authorized api_key r) eqn:Ha.
    + assert (Hno : forall v, require_admin_session f r s <> Ok v) by (intros v Hv; destruct Ho as [Ho|Ho]; apply Ho; [by exists v|done]).
      destruct (asks_itself h) eqn:Hi; cbn [stopped]; rewrite Ha.
      * destruct (handler_turns_away h ids f r s Hi Hno) as [Hs [Ht|Ht]]; split; auto.
      * destruct (guard_turns_away f r s Hno) as (e & He & Hc). rewrite He. split; [done|left]. by exists e.
    + destruct (asks_itself h); cbn [stopped]; rewrite Ha; (split; [done|left]; eexists; split; [done|by left]).
  - intros [v Hv]%Hadm Ha%authorized_spec. destruct (asks_itself h); cbn [stopped]; rewrite Ha; [done|]. by rewrite Hv.
Qed.
(** Nothing but the pages of the login is open to a request without the API key. *)
Theorem without_the_key f r s h layers ids : routed (method r) (path r) = To h layers ids -> authorized api_key r = false ->
  serve f r s = (s, Refused Unauthorized)
  \/ h ∈ [health; get_registration_status; login; register; verify_email; get_current_user; logout]
     /\ serve f r s = handle h ids f r s.
Proof.
  intros Hr Ha. unfold Api.serve. rewrite Hr. destruct (routed_in_router _ _ _ _ _ Hr) as [q Hin].
  assert (H : forallb (fun '(_, _, h, layers) => bool_decide (h ∈ [health; get_registration_status; login; register; verify_email; get_current_user; logout]
      /\ layers = []) || match layers with RequireAuth :: _ => true | _ => false end) router = true) by (vm_compute; reflexivity).
  rewrite forallb_forall in H. apply list_elem_of_In in Hin. specialize (H _ Hin). cbn beta iota in H.
  apply orb_true_iff in H as [[H ->]%bool_decide_eq_true|H]; [by right|left].
  destruct layers as [|[|] ?]; try done. cbn [stopped]. by rewrite Ha.
Qed.

(** ** The exits *)
Abbreviation manager_reachable from_str := (Mihomo.reachable to_string parse_url set_port controller_secret proxy_url from_str).
Lemma on_mihomo_reachable from_str (s : Server R) o next : manager_reachable from_str (fst o) ->
  (forall status s', mihomo s' = fst o -> manager_reachable from_str (mihomo (fst (next status s')))) ->
  manager_reachable from_str (mihomo (fst (on_mihomo mihomo_text s o next))).
Proof. intros Hr Hn. unfold on_mihomo. destruct (snd o); [by apply Hn|exact Hr..]. Qed.
Lemma after_save_reachable from_str f (s : Server R) : Mihomo.outbounds_ok (writes f) = true ->
  manager_reachable from_str (mihomo s) -> manager_reachable from_str (mihomo (after_save to_string controller_secret f s)).
Proof.
  intros Hw Hr. pose proof (Mihomo.Reach_op to_string parse_url set_port controller_secret proxy_url from_str
    (Mihomo.SetNodes (writes f) (Accounts.refetch_nodes (accounts s))) _ Hr Hw) as H. cbn [Mihomo.perform] in H.
  unfold after_save. by destruct (Mihomo.set_outbound_nodes _ _ _ _ _).
Qed.
Lemma status_reachable from_str f m : manager_reachable from_str m -> manager_reachable from_str (fst (mihomo_status parse_url set_port proxy_url f m)).
Proof. intros Hr. by apply (Mihomo.Reach_op _ _ _ _ _ _ (Mihomo.Asked (core f))). Qed.
Lemma select_reachable from_str f name m : manager_reachable from_str m ->
  manager_reachable from_str (fst (Mihomo.select parse_url set_port proxy_url name (selected f) (core f) m)).
Proof. intros Hr. unfold Mihomo.select. destruct (_ || _); [done|]. destruct (selected f); [by apply status_reachable|done..]. Qed.
Lemma action_reachable from_str f action m : manager_reachable from_str m ->
  manager_reachable from_str (fst (mihomo_action to_string parse_url set_port controller_secret proxy_url f action m)).
Proof.
  intros Hr. destruct action as [| |id]; cbn [mihomo_action].
  1,2: destruct (Mihomo.for_each_provider _ _); [by apply status_reachable|done..].
  by apply (Mihomo.Reach_op _ _ _ _ _ _ (Mihomo.Removed id (persisted f) (Mihomo.config_ok (writes f)) (core f))).
Qed.
(** Whatever is asked of the server, its exits stay what [Mihomo] shows of a manager: the
    nodes keep the slots the ports of the accounts lead to, when the handlers that
    are not of this file leave them so and the file of the slots can be written. *)
Theorem requests_keep_the_exits from_str f r (s : Server R) :
  (forall h ids r s, manager_reachable from_str (mihomo s) -> manager_reachable from_str (mihomo (fst (performs h ids r s)))) ->
  Mihomo.outbounds_ok (writes f) = true -> manager_reachable from_str (mihomo s) -> manager_reachable from_str (mihomo (fst (serve f r s))).
Proof.
  intros Hp Hw Hr. unfold Api.serve. destruct (routed (method r) (path r)) as [| |h layers ids]; [done..|].
  destruct (stopped _ _ _ _ _ _); [done|]. destruct (reads h) eqn:Hh; [by destruct h|].
  assert (Hs : forall s' : Server R, mihomo s' = mihomo s -> manager_reachable from_str (mihomo (after_save to_string controller_secret f s'))).
  { intros s' E. apply after_save_reachable; [done|by rewrite E]. }
  assert (Hws : forall k, (forall t, mihomo (fst (k t)) = mihomo s) -> manager_reachable from_str (mihomo (fst (with_session r s k : Server R * Response)))).
  { intros k Hk. unfold with_session. destruct (user_session r) as [t| |]; [by rewrite Hk|done..]. }
  assert (Hst : forall (status : Mihomo.MihomoStatus) (s' : Server R), mihomo s' = fst (mihomo_status parse_url set_port proxy_url f (mihomo s)) -> manager_reachable from_str (mihomo s')).
  { intros status s' ->. by apply status_reachable. }
  destruct h; try discriminate Hh; cbn [handle Api.handle reads].
  all: try (specialize (Hp); match goal with |- context [performs ?h ?i ?r ?s] => exact (Hp h i r s Hr) end).
  all: repeat match goal with |- context [match body ?q with _ => _ end] => destruct (body q)
    | |- context [match ?l with [] => _ | _ :: _ => _ end] => destruct l end; try done.
  all: try (by apply Hws).
  1: by destruct (negb (between _ _ _)).
  1-4: apply on_mihomo_reachable; [|intros status s' E; cbn [fst]; rewrite E].
  1,2: by apply status_reachable.
  1,2: by apply (Mihomo.Reach_op _ _ _ _ _ _ (Mihomo.Updated (draws f) (persisted f) (Mihomo.config_ok (writes f)) (core f) _)).
  1,2: by apply select_reachable.
  1,2: by apply action_reachable.
  - unfold Api.do_put_accounts. destruct (List.find _ _); [done|]. destruct (Accounts.taken_from_a_collector _ _ _ _); [done|].
    destruct (Accounts.update _ _ _ _ _ _) as [pool [saved| |]]; [by apply Hs|done..].
  - unfold do_account_nodes. apply on_mihomo_reachable; [by apply status_reachable|]. intros status s' E. pose proof (Hst status s' E) as Hr'.
    destruct (Accounts.spread_over _ _ _ _ _ _ _) as [pool [given| |]]; [by apply after_save_reachable|done..].
Qed.
(** ** The account pool *)
Lemma restored_rows fresh stored (l : list Accounts.StoredAccount) k : k ∈ l ->
  exists a, a ∈ imap (fun i a => Accounts.restore_row (fresh i) stored a) l /\ Accounts.username a = trim (Accounts.username k)
    /\ Accounts.enabled a = Accounts.enabled k /\ Accounts.purpose a = Accounts.purpose k.
Proof.
  intros [i Hi]%list_elem_of_lookup. exists (Accounts.restore_row (fresh i) stored k). split; [|done].
  apply list_elem_of_lookup. exists i. by rewrite list_lookup_imap, Hi.
Qed.
Lemma update_ok now fresh written next pool pool' saved :
  Accounts.update to_lowercase now fresh written next pool = (pool', Ok saved) ->
  Accounts.accounts (Accounts.document pool') = imap (fun i a => Accounts.restore_row (fresh i) (Accounts.accounts (Accounts.document pool)) a) (Accounts.accounts next).
Proof.
  unfold Accounts.update. destruct (negb _); [done|]. cbv zeta. destruct (List.find _ _); [done|].
  destruct (Accounts.validate _ _); try done. unfold Accounts.store. destruct written; [|done]. by intros [= <- _].
Qed.
Lemma accounts_after_save f (s : Server R) : accounts (after_save to_string controller_secret f s) = accounts s.
Proof. unfold after_save. by destruct (Mihomo.set_outbound_nodes _ _ _ _ _). Qed.
Lemma stopped_refuses f r layers (s : Server R) o : stopped sha256_hex auth_text api_key f r layers s = Some o ->
  (exists e, o = Refused e) \/ o = Panicked.
Proof.
  induction layers as [|[|] layers IH]; [done| |]; cbn [stopped].
  - destruct (authorized _ _); [done|]. intros [= <-]. left. by eexists.
  - destruct (Api.require_admin_session _ _ _ _ _); [done| |]; intros [= <-]; [left; by eexists|by right].
Qed.
Lemma put_accounts_saved f r (s s' : Server R) reply :
  method r = PUT -> path r = "/api/v1/accounts" -> serve f r s = (s', Answer 200 reply) ->
  exists d pool saved, let in_use := WatchConfig.referenced_accounts read_file env_var to_lowercase (accounts s) (watch s) in
    List.find (fun a => bool_decide (to_lowercase (Accounts.username a) ∈ in_use)
      && (negb (Accounts.enabled a) || negb (bool_decide (Accounts.purpose a = Accounts.Watch)))) (Accounts.accounts d) = None /\
    Accounts.taken_from_a_collector to_lowercase d in_use (accounts s) = None /\
    Accounts.update to_lowercase (now f) (fresh f) (written f) d (accounts s) = (pool, Ok saved) /\
    s' = after_save to_string controller_secret f (set_accounts pool s).
Proof.
  intros Hm Hp Hs. unfold Api.serve in Hs. rewrite Hm, Hp in Hs.
  assert (Hr : routed PUT "/api/v1/accounts" = To put_accounts [RequireAuth; RequireAdminSession] []) by (vm_compute; reflexivity).
  rewrite Hr in Hs. destruct (stopped _ _ _ _ _ _) as [o|] eqn:Eo.
  { injection Hs as _ ->. by destruct (stopped_refuses _ _ _ _ _ Eo) as [[e [=]]|[=]]. }
  cbn [handle Api.handle] in Hs. destruct (body r) as [| | | | | | |d| | | | |]; try discriminate Hs.
  unfold Api.do_put_accounts in Hs. cbv zeta in Hs. destruct (List.find _ (Accounts.accounts d)) eqn:Ef; [done|].
  destruct (Accounts.taken_from_a_collector _ _ _ _) eqn:Et; [done|].
  destruct (Accounts.update _ _ _ _ _ _) as [pool [saved| |]] eqn:Eu; [|done..]. injection Hs as <- _.
  by exists d, pool, saved.
Qed.
(** C11: The console does not take an account away from a collector. Live collection
    reads its credentials once and keeps the session for the life of the process. So an
    account of the list is in use if the reference of some instance of the
    configuration, enabled or not and whether or not the service is, resolves to
    accounts of which it is the first, its name compared in lower case; and if a save of
    the account list is answered 200, the saved list still has it: under the name of
    a submitted row that is the same name but for the case of its ASCII letters,
    switched on, and still one of the pool of the collectors. (Names that differ in
    the case of ASCII letters alone are the same in lower case.) *)
Theorem collected_accounts_are_kept f r (s s' : Server R) reply a
  (Hlower : forall x y, Accounts.eq_ignore_ascii_case x y = true -> to_lowercase x = to_lowercase y) :
  method r = PUT -> path r = "/api/v1/accounts" -> serve f r s = (s', Answer 200 reply) ->
  a ∈ Accounts.accounts (Accounts.document (accounts s)) ->
  (exists i name secret others, i ∈ WatchConfig.instances (watch s) /\
     WatchConfig.load_accounts read_file env_var (WatchConfig.account_secret_ref i) (accounts s) = Some ((name, secret) :: others) /\
     to_lowercase name = to_lowercase (Accounts.username a)) ->
  exists k kept, Accounts.eq_ignore_ascii_case (Accounts.username k) (Accounts.username a) = true /\
    kept ∈ Accounts.accounts (Accounts.document (accounts s')) /\ Accounts.username kept = trim (Accounts.username k) /\
    Accounts.enabled kept = true /\ Accounts.purpose kept = Accounts.Watch.
Proof.
  intros Hm Hp Hs Ha (i & name & secret & others & Hi & Hload & Hname).
  assert (Hin : to_lowercase (Accounts.username a) ∈ WatchConfig.referenced_accounts read_file env_var to_lowercase (accounts s) (watch s)).
  { apply elem_of_list_to_set, list_elem_of_omap. exists i. split; [done|]. unfold WatchConfig.login_of. rewrite Hload. cbn. by rewrite Hname. }
  destruct (put_accounts_saved _ _ _ _ _ Hm Hp Hs) as (d & pool & saved & Ef & Et & Eu & ->).
  unfold Accounts.taken_from_a_collector in Et. destruct (List.find _ _) eqn:Et' in Et; [done|]. clear Et.
  apply list_elem_of_In in Ha. pose proof (find_none _ _ Et' _ Ha) as Hk. cbn beta in Hk.
  rewrite bool_decide_eq_true_2 in Hk by done. cbn [andb] in Hk. apply negb_false_iff, existsb_exists in Hk as (k & Hkin & Hk).
  pose proof (find_none _ _ Ef _ Hkin) as Hw. cbn beta in Hw. rewrite (Hlower _ _ Hk), bool_decide_eq_true_2 in Hw by done.
  cbn [andb] in Hw. apply orb_false_iff in Hw as [He%negb_false_iff Hpu%negb_false_iff%bool_decide_eq_true].
  apply list_elem_of_In in Hkin. destruct (restored_rows (fresh f) (Accounts.accounts (Accounts.document (accounts s))) _ _ Hkin) as (kept & Hkept & Hn & He' & Hp').
  exists k, kept. rewrite accounts_after_save. cbn [accounts set_accounts]. rewrite (update_ok _ _ _ _ _ _ _ Eu), Hn, He', Hp'. done.
Qed.
Lemma saved_secrets f r (s s' : Server R) reply :
  method r = PUT -> path r = "/api/v1/accounts" -> serve f r s = (s', Answer 200 reply) ->
  log s' = fold_left (fun log password => WatchLog.register_secret password log) (Accounts.secrets (accounts s')) (log s).
Proof.
  intros Hm Hp Hs. destruct (put_accounts_saved _ _ _ _ _ Hm Hp Hs) as (d & pool & saved & _ & _ & _ & ->).
  rewrite accounts_after_save. unfold after_save. by destruct (Mihomo.set_outbound_nodes _ _ _ _ _).
Qed.
(** C10: The page of the logs shows no password of the pool. Once a save of the account
    list was answered 200, every password in the pool it left that has at least
    four characters and no asterisk (a password with one could be put together by the
    [***] that replaces another secret) is a secret of the log: whatever else the
    process logs from then on, no line logged since that save and served by
    [GET /api/v1/watch/logs] contains it, whoever asks and wherever in the log they
    start. This is about the log alone: what the health of an account says of a
    failed login is not redacted. *)
Theorem saved_passwords_stay_out_of_the_log_page f r (s s' : Server R) reply password f' r' s'' items next e :
  method r = PUT -> path r = "/api/v1/accounts" -> serve f r s = (s', Answer 200 reply) ->
  WatchLog.reachable (log s) -> password ∈ map Accounts.password (Accounts.accounts (Accounts.document (accounts s'))) ->
  (WatchLog.MIN_SECRET_CHARS <= length (chars password))%nat -> WatchLog.star_free password ->
  WatchLog.later (log s') (log s'') -> method r' = GET -> path r' = "/api/v1/watch/logs" ->
  snd (serve f' r' s'') = Answer 200 (WatchLogPage items next) ->
  e ∈ items -> WatchLog.next_seq (log s) <= WatchLog.seq e -> ~ infix password (WatchLog.message e).
Proof.
  intros Hm Hp Hs Hr Hin Hlen Hstar Hl Hm' Hp' Hs' He Hseq.
  rewrite (saved_secrets _ _ _ _ _ Hm Hp Hs) in Hl.
  destruct (registered_on_the_way _ _ (log s) Hin) as (log1 & _ & Hr1 & Hn & Hl1).
  apply (WatchLog.registered_secret_clean log1 password (log s'')); [by apply Hr1|done..|by eapply later_trans| |by rewrite Hn].
  unfold Api.serve in Hs'. rewrite Hm', Hp' in Hs'.
  assert (E : routed GET "/api/v1/watch/logs" = To get_watch_logs [RequireAuth] []) by (vm_compute; reflexivity).
  rewrite E in Hs'. cbn [stopped] in Hs'. destruct (authorized _ _); [|done]. cbn [handle Api.handle] in Hs'.
  destruct (body r'); try discriminate Hs'. cbv zeta in Hs'. destruct (negb _); [done|]. injection Hs' as <- _.
  unfold WatchLog.entries_after in He. apply elem_of_take in He as (i & He & _).
  eapply list_elem_of_lookup_2. by rewrite lookup_drop in He.
Qed.
End Facts.

(** ** Witnesses: a deployment with one administrator, who is logged in, and a collector that is
    switched off. *)
Definition toy_text (e : Auth.AuthError) : string := "no".
Definition toy_reason (e : Mihomo.MihomoError) : string := "no".
Definition toy_ceiling : F64.f64 := F64.f64_of 2.
Definition toy_uuid (s : string) : option Auth.Uuid := (fun n => [n]) <$> digits_value 0 s.
Definition toy_no (_ : string) : option string := None.
Definition toy_admin : Auth.AuthStore := fst (Auth.login toy_hmac toy_digest toy_decode 5 true "token" "admin@x" "pw" toy_store).
Definition toy_server : Server () := mkServer toy_admin Accounts.toy_pool WatchLog.new
  (Mihomo.mkManager ∅ true true [] [] (Mihomo.mkTraffic ∅ ∅) None None None ∅)
  (WatchConfig.mkConfig 1 false "cn" WatchConfig.Direct None 10 500 WatchConfig.builtin WatchConfig.builtin
    [WatchConfig.mkInstance "jade" "jade" false "all" 4 ["south"] "pool:watch/live@x" None]) tt.
Definition toy_fate : Fate := mkFate 9 [7] "fresh" [1] Accounts.toy_fresh true true (Mihomo.mkWrites true true)
  (Mihomo.mkAnswers (Ok tt) (Err Mihomo.Http) (fun _ => None)) (Ok tt) (fun _ => Ok tt) ["88bdd3"] Done.
Definition toy_answers (h : Handler) (ids : list string) (r : Request) (s : Server ()) : Response := Answer 200 Empty.
Definition toy_performs (h : Handler) (ids : list string) (r : Request) (s : Server ()) : Server () * Response := (s, Answer 200 Empty).
Abbreviation toy_serve := (serve toy_hmac toy_digest toy_encode toy_decode toy_text toy_uuid to_ascii_lowercase toy_no toy_no WatchConfig.toy_urls Mihomo.toy_to_string Mihomo.toy_parse_url Mihomo.toy_set_port toy_reason "secret" "" toy_ceiling "key"
    toy_answers toy_performs).
Definition toy_headers (token : string) : list (string * string) :=
  [("authorization", "Bearer key"); ("x-mjai-user-session", token)].
(** A collector has the key, and is not served the passwords. *)
Definition toy_export : Request := mkRequest GET "/api/v1/accounts/export" [("authorization", "Bearer key")] NoBody.
Lemma toy_unique : NoDup (map Auth.id (Auth.users (Auth.state (auth toy_server)))).
Proof. vm_compute. repeat constructor; set_solver. Qed.
Lemma toy_stranger : ~ administrator toy_digest toy_fate toy_export toy_server.
Proof. intros (token & _ & _ & H & _). discriminate H. Qed.
Lemma only_administrators_decide_witness :
  fst (toy_serve toy_fate toy_export toy_server) = toy_server /\
  snd (toy_serve toy_fate (mkRequest GET "/api/v1/accounts/export" (toy_headers "token") NoBody) toy_server)
    = Answer 200 (Text ("old@x,pw,2" +:+ String "010"%char "")).
Proof.
  split; [|vm_compute; reflexivity].
  apply (only_administrators_decide toy_hmac toy_digest toy_encode toy_decode toy_text toy_uuid to_ascii_lowercase toy_no toy_no WatchConfig.toy_urls
    Mihomo.toy_to_string Mihomo.toy_parse_url Mihomo.toy_set_port toy_reason "secret" "" toy_ceiling "key" toy_answers toy_performs toy_fate toy_export toy_server get_accounts_export
    [RequireAuth; RequireAdminSession] []).
  - exact toy_unique.
  - vm_compute. reflexivity.
  - vm_compute. reflexivity.
  - left. exact toy_stranger.
Defined.
(** A member who is active and has a session is turned away with 403. *)
Definition toy_members : Server () :=
  let st := Auth.mkAuth true [toy_user 1 "admin@x" Auth.Admin Auth.Active; toy_user 2 "new@x" Auth.Member Auth.Active] [] in
  set_auth (fst (Auth.login toy_hmac toy_digest toy_decode 5 true "other" "new@x" "pw" (Auth.mkStore st (Some st) ∅ true))) toy_server.
Example members_are_turned_away :
  match snd (toy_serve toy_fate (mkRequest GET "/api/v1/accounts/export" (toy_headers "other") NoBody) toy_members),
        snd (toy_serve toy_fate (mkRequest GET "/api/v1/watch/config" (toy_headers "other") NoBody) toy_members) with
  | Refused e, Answer status _ => (status_code e, status)
  | _, _ => (0, 0)
  end = (403, 200).
Proof. vm_compute. reflexivity. Qed.
(** The administrator saves the list with the account of the collector in it. *)
Definition toy_put (d : Accounts.AccountDocument) : Request := mkRequest PUT "/api/v1/accounts" (toy_headers "token") (Document d).
Definition toy_rows : list Accounts.StoredAccount := [Accounts.toy_row "1" "LIVE@x" "pw1" Accounts.Watch; Accounts.toy_row "" "new@x" "pw3" Accounts.Refetch].
Lemma collected_accounts_are_kept_witness :
  exists s' reply kept, toy_serve toy_fate (toy_put (Accounts.mkDocument 3 toy_rows None)) toy_server = (s', Answer 200 reply) /\
    kept ∈ Accounts.accounts (Accounts.document (accounts s')) /\ Accounts.purpose kept = Accounts.Watch.
Proof.
  destruct (toy_serve _ _ _) as [s' o] eqn:E. assert (Ho : exists reply, o = Answer 200 reply).
  { change o with (s', o).2. rewrite <- E. vm_compute. by eexists. }
  destruct Ho as [reply ->]. exists s', reply.
  destruct (collected_accounts_are_kept toy_hmac toy_digest toy_encode toy_decode toy_text toy_uuid to_ascii_lowercase toy_no toy_no WatchConfig.toy_urls
    Mihomo.toy_to_string Mihomo.toy_parse_url Mihomo.toy_set_port toy_reason "secret" "" toy_ceiling "key" toy_answers toy_performs toy_fate (toy_put (Accounts.mkDocument 3 toy_rows None)) toy_server s' reply (Accounts.toy_row "1" "live@x" "pw1" Accounts.Watch)
    (fun x y => proj1 (String.eqb_eq _ _)) eq_refl eq_refl E) as (k & kept & _ & Hin & _ & _ & Hp).
  - left.
  - eexists _, "live@x", "pw1", []. split; [left|]. split; vm_compute; reflexivity.
  - exists kept. split; [reflexivity|]. split; [exact Hin|exact Hp].
Defined.
(** What it refuses: the account switched off, the account left out, and an edit of
    a list that has moved on. *)
Example accounts_refusals :
  map (fun o => match snd o with Refused e => status_code e | Answer n _ => n | _ => 0 end)
    (map (fun d => toy_serve toy_fate (toy_put d) toy_server)
      [Accounts.mkDocument 3 [Accounts.mkAccount "1" "live@x" "***" Accounts.Watch "" false "" None] None;
       Accounts.mkDocument 3 [Accounts.toy_row "" "new@x" "pw3" Accounts.Refetch] None;
       Accounts.mkDocument 2 [Accounts.toy_row "1" "live@x" "***" Accounts.Watch] None])
  = [400; 400; 412].
Proof. vm_compute. reflexivity. Qed.
(** The log, after the save, when the password turns up in the text of an error. *)
Definition toy_secret : Request := toy_put (Accounts.mkDocument 3 [Accounts.toy_row "1" "live@x" "hunter2" Accounts.Watch] None).
Definition toy_logged (s : Server ()) : Server () := mkServer (auth s) (accounts s)
  (WatchLog.append 11 WatchLog.Info "watch" "login with hunter2 failed" (log s)) (mihomo s) (watch s) tt.
Definition toy_page : Request := mkRequest GET "/api/v1/watch/logs" [("authorization", "Bearer key")] (WatchLogQuery None None).
Lemma saved_passwords_stay_out_of_the_log_page_witness : exists s' reply e, toy_serve toy_fate toy_secret toy_server = (s', Answer 200 reply) /\
  snd (toy_serve toy_fate toy_page (toy_logged s')) = Answer 200 (WatchLogPage [e] (Some 1)) /\ ~ infix "hunter2" (WatchLog.message e).
Proof.
  destruct (toy_serve _ _ _) as [s' o] eqn:E. assert (Ho : exists reply, o = Answer 200 reply).
  { change o with (s', o).2. rewrite <- E. vm_compute. by eexists. }
  destruct Ho as [reply ->].
  assert (Hl : log s' = WatchLog.mkBuffer [] 1 ["hunter2"]).
  { change s' with (s', Answer 200 reply).1. rewrite <- E. vm_compute. reflexivity. }
  assert (Hp : map Accounts.password (Accounts.accounts (Accounts.document (accounts s'))) = ["hunter2"]).
  { change s' with (s', Answer 200 reply).1. rewrite <- E. vm_compute. reflexivity. }
  set (e := WatchLog.mkEntry 1 11 WatchLog.Info "watch" "login with *** failed").
  assert (Hs : snd (toy_serve toy_fate toy_page (toy_logged s')) = Answer 200 (WatchLogPage [e] (Some 1))).
  { unfold toy_logged. rewrite Hl. vm_compute. reflexivity. }
  exists s', reply, e. split; [reflexivity|]. split; [exact Hs|].
  apply (saved_passwords_stay_out_of_the_log_page toy_hmac toy_digest toy_encode toy_decode toy_text toy_uuid to_ascii_lowercase toy_no toy_no
    WatchConfig.toy_urls Mihomo.toy_to_string Mihomo.toy_parse_url Mihomo.toy_set_port toy_reason "secret" "" toy_ceiling "key" toy_answers toy_performs toy_fate toy_secret toy_server s' reply "hunter2"
    toy_fate toy_page (toy_logged s') [e] (Some 1) e eq_refl eq_refl E WatchLog.Reach_new).
  - rewrite Hp. left.
  - apply Nat.leb_le. vm_compute. reflexivity.
  - reflexivity.
  - apply (WatchLog.Later_step (log s') (log s')); [constructor|]. apply WatchLog.Step_append. rewrite Hl. reflexivity.
  - reflexivity.
  - reflexivity.
  - exact Hs.
  - left.
  - done.
Defined.
