(* ===== verification/Pace.v ===== *)
(** Waiting in the right places: the pacing of a session of the re-fetch pool
    ([RefetchSupervisor::serve] of [src/src/refetch_service.rs]), the walk that stands
    aside for the pack worker ([yield_to_packing]), and the wait for the databases
    at start-up ([wait_ready] of [src/src/catalog.rs]). Times are in milliseconds. *)
From S2P Require Import Prelude Auth Balance Refetch Rpc Collector.
#[local] Open Scope string_scope.
#[local] Open Scope list_scope.
#[local] Open Scope Z_scope.

Module Pace.
Import Refetch.
Definition IDLE_POLL : Z := 5000.

(** ** One session

    Where the loop of [serve] is: at its claim, parked because there was nothing to
    claim, waiting for the answer to a request sent at some time, asleep until the
    next one is due, or at its end; a task that was aborted lets go of what it holds. *)
Inductive Phase := Claiming | Parked (patience : Z) | Asking (request : Request) (sent : Z) | Asleep (until : Z)
| Ended (e : Collector.Failure) | Aborted.
(** The session, the broker it shares with the walks and the other sessions, the clock,
    and the requests it sent so far with their times, the last one first. *)
Record Session := mkSession {
  phase : Phase; broker : Broker; tally : Balance.tallies; clock : Z; log : list (Request * Z)
}.
Section Serve.
Variable request_delay_ms : Z.
(** The exit of the session, if it has one of its own. *)
Variable node : option string.
(** [broker.claim()] and what follows it. *)
Definition claim (s : Session) : Session :=
  match take_next (broker s) with
  | (Some request, b) => mkSession (Asking request (clock s)) b (tally s) (clock s) ((request, clock s) :: log s)
  | (None, b) => mkSession (Parked (clock s + IDLE_POLL)) b (tally s) (clock s) (log s)
  end.
(** The answer of [fetch_game_record] is there. *)
Definition fetched (request : Request) (sent : Z) (answer : Collector.Failure + list Z) (s : Session) : Session :=
  let tally := Balance.record_node node (match answer with inr _ => true | inl _ => false end) ((clock s - sent) * 1000000) (tally s) in
  match answer with
  | inr raw => mkSession (Asleep (sent + request_delay_ms)) (answer_with request (Ok raw) (broker s)) tally (clock s) (log s)
  | inl e =>
    let b := answer_with request (Err (Refused (Collector.text e))) (broker s) in
    if Collector.ends_the_session e then mkSession (Ended e) b tally (clock s) (log s)
    else mkSession (Asleep (sent + request_delay_ms)) b tally (clock s) (log s)
  end.
Definition abort (s : Session) : Session :=
  mkSession Aborted (match phase s with Asking request _ => drop_pending request (broker s) | _ => broker s end) (tally s) (clock s) (log s).
Definition holds (s : Session) : option Request := match phase s with Asking request _ => Some request | _ => None end.
(** What happens to a session: time passes and the others move the broker, but for
    the request it holds; and its own turns, of which the wait of a parked one ends with
    its patience, or earlier, also by a notice another session has served since. *)
Inductive others (s : Session) : Broker -> Prop :=
| Other_push u : others s (push u (broker s))
| Other_abandon c : others s (abandon c (broker s))
| Other_claim : others s (snd (take_next (broker s)))
| Other_answer request r : request ∈ pending (broker s) -> holds s <> Some request -> others s (answer_with request r (broker s))
| Other_drop request : request ∈ pending (broker s) -> holds s <> Some request -> others s (drop_pending request (broker s)).
Inductive step (s : Session) : Session -> Prop :=
| Step_time passed tally : 0 <= passed -> step s (mkSession (phase s) (broker s) tally (clock s + passed) (log s))
| Step_others b : others s b -> step s (mkSession (phase s) b (tally s) (clock s) (log s))
| Step_claim : phase s = Claiming -> step s (claim s)
| Step_wake patience : phase s = Parked patience -> step s (mkSession Claiming (broker s) (tally s) (clock s) (log s))
| Step_fetched request sent answer : phase s = Asking request sent -> step s (fetched request sent answer s)
| Step_paced until : phase s = Asleep until -> until <= clock s -> step s (mkSession Claiming (broker s) (tally s) (clock s) (log s))
| Step_abort : step s (abort s).
Inductive reachable : Session -> Prop :=
| Reach_start b tally now : Refetch.reachable b -> reachable (mkSession Claiming b tally now [])
| Reach_step s s' : reachable s -> step s s' -> reachable s'.
End Serve.

(** ** Standing aside for the pack worker *)
Definition BACKLOG_BACKOFF : Z := 5000.
(** The lag each time it is looked at; what comes out is how often it was waited, and
    the flag that keeps the two lines of the log apart, with the lines. *)
Inductive Line := StandsAside (lag : Z) | GoesOn.
Fixpoint yield_to_packing (fuel : nat) (max_lag : Z) (lags : nat -> Z) (turn : nat) (throttled : bool) (lines : list Line)
  : option (nat * bool * list Line) :=
  match fuel with
  | O => None
  | S fuel =>
    if Z.quot max_lag 2 <=? lags turn
    then yield_to_packing fuel max_lag lags (S turn) true (if throttled then lines else lines ++ [StandsAside (lags turn)])
    else Some (turn, false, if throttled then lines ++ [GoesOn] else lines)
  end.

(** ** Waiting for a database *)
(** What an attempt that starts at some time comes to, and how long it takes. *)
Record Attempt (T : Type) := mkAttempt { outcome : T + string; took : Z }.
Arguments mkAttempt {T}.
Arguments outcome {T}.
Arguments took {T}.
Inductive Wait (T : Type) := Ready (value : T) (at_ : Z) | GaveUp (error : string) (at_ : Z).
Arguments Ready {T}.
Arguments GaveUp {T}.
Section Wait.
Context {T : Type}.
Variable attempt : Z -> Attempt T.
Variable no_answer : Z -> string.
Variable deadline : Z.
(** One attempt, cut off when the wait is over, and when it is over. *)
Definition bounded (now : Z) : (T + string) * Z :=
  let remaining := Z.max 0 (deadline - now) in
  let a := attempt now in
  if took a <=? remaining then (outcome a, now + took a) else (inr (no_answer remaining), now + remaining).
Fixpoint wait_ready (fuel : nat) (now backoff : Z) : option (Wait T) :=
  match fuel with
  | O => None
  | S fuel =>
    match bounded now with
    | (inl value, now) => Some (Ready value now)
    | (inr error, now) =>
      if deadline <=? now + backoff then Some (GaveUp error now)
      else wait_ready fuel (now + backoff) (Z.min (backoff * 2) 5000)
    end
  end.
End Wait.
End Pace.

Import Refetch Pace.

(** ** The pace *)
Section Pacing.
Context (request_delay_ms : Z) (node : option string).
Abbreviation reachable := (Pace.reachable request_delay_ms node).
Definition spaced (l : list (Request * Z)) : Prop := Sorted (fun x y => y.2 + request_delay_ms <= x.2) l.
Definition on_pace (s : Session) : Prop :=
  spaced (log s) /\
  match log s with
  | [] => match phase s with Asking _ _ | Asleep _ => False | _ => True end
  | (r, t) :: _ =>
    t <= clock s /\
    match phase s with
    | Asking request sent => request = r /\ sent = t
    | Asleep until => until = t + request_delay_ms
    | Claiming | Parked _ => t + request_delay_ms <= clock s
    | _ => True
    end
  end.
Lemma reachable_on_pace s : reachable s -> on_pace s.
Proof.
  induction 1 as [b tally now _|s s' _ [Hl IH] Hs]; [split; [constructor|done]|].
  destruct Hs as [passed tally Hp|b _|Hph|p Hph|request sent answer Hph|until Hph Hu|].
  - split; [exact Hl|]. cbn [phase log clock]. destruct (log s) as [|[r t] l]; [done|]. destruct IH as [Ht IH].
    split; [lia|]. destruct (phase s); try done; lia.
  - by split.
  - unfold claim. rewrite Hph in IH. destruct (take_next (broker s)) as [[request|] b]; (split; cbn [phase log clock]).
    + constructor; [exact Hl|]. destruct (log s) as [|[r t] l]; constructor. cbn. lia.
    + done.
    + exact Hl.
    + exact IH.
  - split; [exact Hl|]. cbn [phase log clock]. by rewrite Hph in IH.
  - rewrite Hph in IH. unfold on_pace, fetched in *. destruct answer as [e|raw]; [destruct (Collector.ends_the_session e)|]; cbn [phase log clock] in *;
      (split; [exact Hl|]); (destruct (log s) as [|[r t] l]; [done|]); destruct IH as (Ht & -> & ->); done.
  - split; [exact Hl|]. cbn [phase log clock]. rewrite Hph in IH. destruct (log s) as [|[r t] l]; [done|]. destruct IH as [Ht ->]. by split; [|lia].
  - split; [exact Hl|]. cbn [phase log clock abort]. destruct (log s) as [|[r t] l]; [done|]. by destruct IH.
Qed.
(** C34: One request per [request_delay_ms], whatever the round trips take and whatever
    the answers are. The requests that a session sends between one login and the next
    are apart by at least the delay, counted from one sending to the next: of any two of
    them with [n] others sent in between, the later one went out at least [n + 1] delays
    after the earlier one, so that no window of time holds more requests than delays,
    and one. *)
Theorem pace_is_kept s i j x y : 0 <= request_delay_ms -> reachable s ->
  log s !! i = Some x -> log s !! j = Some y -> (i <= j)%nat ->
  y.2 + Z.of_nat (j - i) * request_delay_ms <= x.2.
Proof.
  intros Hd [Hl _]%reachable_on_pace. revert i j x y. induction (log s) as [|a l IH]; intros i j x y Hx Hy Hij; [done|].
  apply Sorted_inv in Hl as [Hl Ha]. destruct i as [|i]; destruct j as [|j]; [|..|].
  - injection Hx as ->. injection Hy as ->. cbn. lia.
  - injection Hx as ->. destruct l as [|b l]; [done|]. apply HdRel_inv in Ha.
    specialize (IH Hl O j b y eq_refl Hy ltac:(lia)). rewrite Nat.sub_0_r in *. lia.
  - lia.
  - by apply (IH Hl i j x y Hx Hy); lia.
Qed.

(** ** What a session takes it answers *)
Definition answered (b : Broker) (request : Request) : Prop := exists s, channels b !! answer request = Some s /\ s <> Waiting.
Definition accounted (s : Session) : Prop :=
  Refetch.reachable (broker s) /\
  (forall request, holds s = Some request -> request ∈ pending (broker s)) /\
  (forall request t, (request, t) ∈ log s -> holds s = Some request \/ answered (broker s) request).
Lemma answered_stays b b' request : Refetch.wf b -> Refetch.step b b' -> answered b request -> answered b' request.
Proof. intros Hw Hs (c & Hc & Hne). exists c. split; [by eapply settled_stays|done]. Qed.
Lemma answered_by (f : Channel -> Channel) b request : (forall c, f c <> Waiting) -> Refetch.wf b -> request ∈ pending b ->
  answered (release request b <| channels ::= alter f (answer request) |>) request.
Proof.
  intros Hf (_ & _ & Hlt & Hdom & _) Hin. destruct (proj1 (Hdom (answer request))) as [c Hc].
  { apply Hlt, elem_of_app. right. by apply list_elem_of_fmap_2. }
  exists (f c). cbn. by rewrite lookup_alter_eq, Hc.
Qed.
Lemma still_pending r request b : Refetch.wf b -> r ∈ pending b -> request ∈ pending b -> r <> request -> r ∈ pending (release request b).
Proof.
  intros (_ & Hn & _) Hr Hq Hne. cbn. apply list_elem_of_In, filter_In. split; [by apply list_elem_of_In|].
  apply negb_true_iff, Nat.eqb_neq. intros He. apply Hne. apply NoDup_app in Hn as (_ & _ & Hn).
  by apply (Auth.NoDup_map_eq answer (pending b)).
Qed.
Lemma others_step s b : others s b -> Refetch.step (broker s) b.
Proof. by intros [u|c| |request r Hin _|request Hin _]; constructor. Qed.
Lemma others_leave s b r : Refetch.wf (broker s) -> others s b -> holds s = Some r -> r ∈ pending (broker s) -> r ∈ pending b.
Proof.
  intros Hw Ho Hh Hr. destruct Ho as [u|c| |request a Hin Hne|request Hin Hne]; cbn; try done.
  - unfold take_next. destruct (Refetch.claim _ _) as [[q|] rest]; [by right|done].
  - apply (still_pending r request); [done..|congruence].
  - apply (still_pending r request); [done..|congruence].
Qed.
(** What a session keeps when the broker moves and it lets go of nothing. *)
Lemma accounted_moves s s' : accounted s -> holds s' = holds s -> log s' = log s ->
  (broker s' = broker s \/ others s (broker s')) -> accounted s'.
Proof.
  intros (Hr & Hp & Hl) Hh Hlog Hb. pose proof (Refetch.reachable_wf _ Hr) as Hw.
  destruct Hb as [Hb|Hb]; unfold accounted; rewrite Hh, Hlog; [by rewrite Hb|].
  pose proof (others_step _ _ Hb) as Hstep. split_and!.
  - by eapply Refetch.Reach_step.
  - intros r Er. by apply (others_leave s _ r Hw Hb Er), Hp.
  - intros r t Hin. destruct (Hl r t Hin) as [H|H]; [by left|right]. by eapply answered_stays.
Qed.
(** The end of a request in hand: it is answered, and so is every other one. *)
Lemma accounted_ends s s' request (f : Channel -> Channel) : accounted s -> holds s = Some request -> holds s' = None -> log s' = log s ->
  (forall c, f c <> Waiting) -> Refetch.step (broker s) (broker s') ->
  broker s' = release request (broker s) <| channels ::= alter f (answer request) |> -> accounted s'.
Proof.
  intros (Hr & Hp & Hl) Hh Hh' Hlog Hf Hstep Hb. pose proof (Refetch.reachable_wf _ Hr) as Hw.
  unfold accounted. rewrite Hh', Hlog. split_and!; [by eapply Refetch.Reach_step|done|].
  intros r t Hin. right. destruct (Hl r t Hin) as [H|H]; [|by eapply answered_stays].
  rewrite Hh in H. injection H as ->. rewrite Hb. apply answered_by; [done..|by apply Hp].
Qed.
Lemma accounted_claim s : accounted s -> phase s = Claiming -> accounted (claim s).
Proof.
  intros (Hr & Hp & Hl) Hph. pose proof (Refetch.reachable_wf _ Hr) as Hw.
  assert (Hh : holds s = None) by (unfold holds; by rewrite Hph).
  pose proof (Refetch.Step_claim (broker s)) as Hstep.
  assert (Ht : forall r t, (r, t) ∈ log s -> answered (snd (take_next (broker s))) r).
  { intros r t Hin. destruct (Hl r t Hin) as [H|H]; [by rewrite Hh in H|]. by eapply answered_stays. }
  assert (Hg : forall r, fst (take_next (broker s)) = Some r -> r ∈ pending (snd (take_next (broker s)))).
  { unfold take_next. destruct (Refetch.claim _ _) as [[q|] rest]; [|done]. intros r [= ->]. by left. }
  unfold claim. destruct (take_next (broker s)) as [[request|] b]; cbn [fst snd] in *; split_and!; cbn [broker log].
  - by eapply Refetch.Reach_step.
  - intros r [= <-]. by apply Hg.
  - intros r t [[= -> ->]|Hin]%elem_of_cons; [by left|right; by eapply Ht].
  - by eapply Refetch.Reach_step.
  - done.
  - intros r t Hin. right. by eapply Ht.
Qed.
Lemma reachable_accounted s : reachable s -> accounted s.
Proof.
  induction 1 as [b tally now Hb|s s' _ IH Hs].
  { split; [exact Hb|]. split; [done|]. intros r t Hin. by apply elem_of_nil in Hin. }
  destruct Hs as [passed tally Hp|b Hb|Hph|p Hph|request sent answer Hph|until Hph Hu|].
  - by apply (accounted_moves s); [..|left].
  - by apply (accounted_moves s); [..|right].
  - by apply accounted_claim.
  - by apply (accounted_moves s); [|unfold holds; rewrite Hph|..|left].
  - assert (Hh : holds s = Some request) by (unfold holds; by rewrite Hph).
    assert (Hin : request ∈ pending (broker s)) by (by apply IH).
    unfold fetched. destruct answer as [e|raw]; [destruct (Collector.ends_the_session e)|];
      (eapply (accounted_ends s _ request (send _)); [exact IH|exact Hh|done|done|by intros []|by apply Refetch.Step_answer|reflexivity]).
  - by apply (accounted_moves s); [|unfold holds; rewrite Hph|..|left].
  - unfold abort. destruct (phase s) as [| |request sent| | |] eqn:Hph; try (by apply (accounted_moves s); [|unfold holds; rewrite Hph|..|left]).
    assert (Hh : holds s = Some request) by (unfold holds; by rewrite Hph).
    eapply (accounted_ends s _ request hang_up); [exact IH|exact Hh|done|done|by intros []| |reflexivity].
    apply Refetch.Step_drop. by apply IH.
Qed.
(** A session answers what it takes. Whenever it stops, with an error, by an abort or
    not at all, every request it ever sent was answered, or its waiter is gone, but for the
    one whose answer it is waiting for, which it holds: the next is sent only when the
    one before is answered, and no walk is left waiting for a session that has ended. *)
Theorem session_answers_what_it_takes s request t : reachable s -> (request, t) ∈ log s ->
  answered (broker s) request \/ (holds s = Some request /\ request ∈ pending (broker s)).
Proof.
  intros (_ & Hp & Hl)%reachable_accounted Hin. destruct (Hl _ _ Hin) as [H|H]; [right|by left].
  split; [done|by apply Hp].
Qed.
End Pacing.

(** ** Standing aside *)
Lemma yield_turns max_lag lags n : forall turn throttled lines fuel, (n < fuel)%nat ->
  (forall k, (k < n)%nat -> Z.quot max_lag 2 <= lags (turn + k)%nat) -> lags (turn + n)%nat < Z.quot max_lag 2 ->
  yield_to_packing fuel max_lag lags turn throttled lines
  = Some ((turn + n)%nat, false,
      (if throttled || Nat.eqb n 0 then lines else lines ++ [StandsAside (lags turn)])
      ++ (if throttled || negb (Nat.eqb n 0) then [GoesOn] else [])).
Proof.
  induction n as [|n IH]; intros turn throttled lines [|fuel] Hf Hl Hn; try lia; cbn [yield_to_packing].
  - rewrite Nat.add_0_r in *. rewrite (proj2 (Z.leb_gt _ _)) by done. rewrite orb_true_r, orb_false_r.
    destruct throttled; cbn [orb negb Nat.eqb]; [done|by rewrite app_nil_r].
  - rewrite (proj2 (Z.leb_le _ _)) by (rewrite <- (Nat.add_0_r turn); apply Hl; lia).
    rewrite (IH (S turn) true _ fuel ltac:(lia)).
    + rewrite Nat.add_succ_comm. cbn [orb negb Nat.eqb]. rewrite orb_true_r, orb_false_r. done.
    + intros k Hk. rewrite Nat.add_succ_comm. apply Hl. lia.
    + by rewrite Nat.add_succ_comm.
Qed.
(** The walk goes on at the first look that finds the lag under half of the ceiling,
    and the episode is in the log as one line at its begin and one at its end. *)
Theorem walk_stands_aside max_lag lags n :
  (forall k, (k < n)%nat -> Z.quot max_lag 2 <= lags k) -> lags n < Z.quot max_lag 2 ->
  yield_to_packing (S n) max_lag lags 0 false []
  = Some (n, false, if Nat.eqb n 0 then [] else [StandsAside (lags 0%nat); GoesOn]).
Proof.
  intros Hl Hn. rewrite (yield_turns max_lag lags n) by (done || lia). by destruct (Nat.eqb n 0).
Qed.
(** With a ceiling of none or one message half of it is nothing, which no lag is
    under: the walk stands aside for ever, also when there is nothing to pack and
    a ceiling of one lets a collector in. *)
Theorem small_ceiling_stops_the_walk max_lag lags fuel turn throttled lines : 0 <= max_lag <= 1 -> (forall k, 0 <= lags k) ->
  yield_to_packing fuel max_lag lags turn throttled lines = None.
Proof.
  intros Hm Hl. revert turn throttled lines. induction fuel as [|fuel IH]; intros turn throttled lines; [done|]. cbn [yield_to_packing].
  assert (Hq : Z.quot max_lag 2 = 0) by (assert (max_lag = 0 \/ max_lag = 1) as [-> | ->] by lia; done).
  rewrite Hq, (proj2 (Z.leb_le _ _)) by apply Hl. apply IH.
Qed.

(** ** The wait at start-up *)
Section Waiting.
Context {T : Type} (attempt : Z -> Attempt T) (no_answer : Z -> string) (deadline : Z).
Abbreviation wait_ready := (wait_ready attempt no_answer deadline).
Hypothesis took_time : forall t, 0 <= took (attempt t).
Lemma bounded_end now r now' : now <= deadline -> bounded attempt no_answer deadline now = (r, now') -> now <= now' <= deadline.
Proof using took_time.
  intros Hn. unfold bounded. pose proof (took_time now). destruct (Z.leb_spec (took (attempt now)) (Z.max 0 (deadline - now))); intros [= _ <-]; lia.
Qed.
Definition ended_at (w : Wait T) : Z := match w with Ready _ t | GaveUp _ t => t end.
(** The wait ends, and by the deadline, whatever the attempts do: each is cut off when
    the wait is over, the pause between them is not begun when it would not end in
    time, and is of a quarter of a second at least. *)
Theorem wait_ready_ends now : now <= deadline ->
  exists w, wait_ready (S (Z.to_nat (deadline - now))) now 250 = Some w /\ now <= ended_at w <= deadline.
Proof using took_time.
  intros Hn. assert (H : forall n start backoff, deadline - start <= Z.of_nat n -> start <= deadline -> 250 <= backoff ->
    exists w, wait_ready (S n) start backoff = Some w /\ start <= ended_at w <= deadline).
  { induction n as [|n IH]; intros start backoff Hd Hs Hb; cbn [Pace.wait_ready];
      destruct (bounded attempt no_answer deadline start) as [[value|error] t] eqn:E; pose proof (bounded_end _ _ _ Hs E).
    1,3: eexists; split; [done|cbn; lia].
    all: destruct (Z.leb_spec deadline (t + backoff)); [eexists; split; [done|cbn; lia]|].
    - lia.
    - destruct (IH (t + backoff) (Z.min (backoff * 2) 5000)) as (w & Hw & Hi); [lia..|].
      exists w. split; [done|lia]. }
  apply H; lia.
Qed.
(** A database that comes up in time is waited for: when an attempt answers, whichever
    way, within some time, and every attempt from some moment on succeeds, the wait
    succeeds if that moment is earlier than the deadline by two attempts and the
    longest pause. *)
Theorem wait_ready_waits now up patience : now + patience <= deadline -> up + 2 * patience + 5000 <= deadline ->
  (forall t, took (attempt t) <= patience) ->
  (forall t, up <= t -> exists value, outcome (attempt t) = inl value) ->
  exists value t, wait_ready (S (Z.to_nat (deadline - now))) now 250 = Some (Ready value t).
Proof using took_time.
  intros Hn Hup Hp Hok. assert (H : forall n start backoff, deadline - start <= Z.of_nat n -> start + patience <= deadline -> 250 <= backoff <= 5000 ->
    exists value t, wait_ready (S n) start backoff = Some (Ready value t)).
  { induction n as [|n IH]; intros start backoff Hd Hs Hb; cbn [Pace.wait_ready]; unfold bounded;
      pose proof (Hp start); pose proof (took_time start); rewrite (proj2 (Z.leb_le _ _)) by lia;
      (destruct (outcome (attempt start)) as [value|error] eqn:E; [by eexists _, _|]);
      (assert (Hu : start < up) by (destruct (Z.lt_ge_cases start up) as [|Hge]; [done|]; destruct (Hok start Hge); congruence)).
    - lia.
    - rewrite (proj2 (Z.leb_gt _ _)) by lia. apply IH; lia. }
  pose proof (took_time now). pose proof (Hp now). apply H; lia.
Qed.
End Waiting.

(** ** Witnesses: a delay of a second and a half, and a round trip that is longer. *)
Definition toy_failure : Collector.Failure := Collector.mkFailure (Some (Rpc.mkServerError 1203)) "no record".
Definition toy_start : Session := mkSession Claiming (push "b" (push "a" Refetch.empty)) ∅ 0 [].
Definition toy_a : Request := mkRequest "a" 0.
Definition toy_asked : Session := claim toy_start.
Definition toy_later (s : Session) (t : Z) : Session := mkSession (phase s) (broker s) (tally s) (clock s + t) (log s).
Definition toy_refused : Session := fetched 1500 (Some "hk") toy_a 0 (inl toy_failure) (toy_later toy_asked 2000).
Definition toy_second : Session := claim (mkSession Claiming (broker toy_refused) (tally toy_refused) (clock toy_refused) (log toy_refused)).
Lemma toy_session : Pace.reachable 1500 (Some "hk") toy_second.
Proof.
  assert (H0 : Refetch.reachable (push "b" (push "a" Refetch.empty))).
  { eapply Refetch.Reach_step; [|apply Refetch.Step_push]. eapply Refetch.Reach_step; [|apply Refetch.Step_push]. apply Refetch.Reach_empty. }
  eapply Reach_step; [|apply Step_claim; reflexivity].
  eapply Reach_step; [|apply (Step_paced _ _ toy_refused 1500); [reflexivity|vm_compute; discriminate]].
  eapply Reach_step; [|apply Step_fetched; reflexivity].
  eapply Reach_step; [|apply (Step_time _ _ toy_asked 2000 _); lia].
  eapply Reach_step; [|apply Step_claim; reflexivity].
  apply Reach_start. exact H0.
Qed.
Lemma pace_is_kept_witness : log toy_second = [(mkRequest "b" 1, 2000); (toy_a, 0)] /\ 0 + 1500 <= 2000.
Proof.
  split; [reflexivity|].
  apply (pace_is_kept 1500 (Some "hk") toy_second 0 1 (mkRequest "b" 1, 2000) (toy_a, 0)); [lia|exact toy_session|reflexivity..|lia].
Defined.
Lemma session_answers_what_it_takes_witness : answered (broker (abort toy_second)) (mkRequest "b" 1).
Proof.
  destruct (session_answers_what_it_takes 1500 (Some "hk") (abort toy_second) (mkRequest "b" 1) 2000) as [H|[H _]].
  - eapply Reach_step; [exact toy_session|apply Step_abort].
  - left.
  - exact H.
  - discriminate H.
Defined.
(** A database that refuses for two seconds. *)
Definition toy_attempt (t : Z) : Attempt Z := mkAttempt (if t <? 2000 then inr "refused" else inl t) 10.
Lemma wait_ready_waits_witness : exists value t, wait_ready toy_attempt (fun _ => "no answer") 30000 (S (Z.to_nat (30000 - 0))) 0 250 = Some (Ready value t).
Proof.
  apply (wait_ready_waits toy_attempt (fun _ => "no answer") 30000) with (up := 2000) (patience := 10); try (intros; cbn; lia).
  intros t Ht. exists t. cbn. by rewrite (proj2 (Z.ltb_ge _ _)).
Defined.
Example waited : wait_ready toy_attempt (fun _ => "no answer") 30000 100 0 250 = Some (Ready 3790 3800).
Proof. vm_compute. reflexivity. Qed.
Lemma wait_ready_ends_witness : exists w, wait_ready (fun t => mkAttempt (T := Z) (inr "refused") 40000) (fun _ => "no answer") 30000 (S (Z.to_nat (30000 - 0))) 0 250 = Some w /\ 0 <= ended_at w <= 30000.
Proof. apply (wait_ready_ends (fun t => mkAttempt (T := Z) (inr "refused") 40000) (fun _ => "no answer") 30000); [intros; cbn; lia|lia]. Defined.
Lemma walk_stands_aside_witness : yield_to_packing 3 100 (fun k => match k with 0%nat => 80 | 1%nat => 60 | _ => 10 end) 0 false []
  = Some (2%nat, false, [StandsAside 80; GoesOn]).
Proof.
  apply (walk_stands_aside 100 (fun k => match k with 0%nat => 80 | 1%nat => 60 | _ => 10 end) 2).
  - intros [|[|k]] Hk; [vm_compute; discriminate..|lia].
  - reflexivity.
Defined.
Lemma small_ceiling_stops_the_walk_witness : yield_to_packing 1000 1 (fun _ => 0) 0 false [] = None.
Proof. by apply (small_ceiling_stops_the_walk 1 (fun _ => 0)). Defined.
